(* ===== verification/_CoqProject ===== *)
-Q . S2P
Prelude.v
WireModel.v
WireCodec.v
WireRoundtrip.v
WireProps.v
Claims.v
ClaimsInv.v
ClaimsProps.v
ClaimsSystem.v
ClaimsDeadlock.v
HandleTable.v
PinTable.v
Types.v
TypesProps.v
TypesParse.v
Hierarchy.v
ClassTable.v
ClassTableProps.v
Dispatch.v
DispatchCache.v
DispatchOrder.v
DispatchScore.v
Doc.v
DocProps.v
DocLines.v
Sched.v
Driver.v
SchedEffects.v
SchedInv.v
SchedParks.v
SchedEnds.v
SchedProps.v
SchedRuns.v
SchedAnswers.v
Channel.v
ChannelSpec.v
ChannelQueue.v
ChannelProps.v
ChannelRuns.v
ChannelRoots.v
RelayLink.v
Replay.v
ReplayText.v
ReplayLoop.v
ReplaySim.v
ReplayProps.v
Supervise.v
SuperviseProps.v
Restart.v
Instr.v
Exec.v
Fuse.v
FuseMap.v
FuseSim.v
FuseProps.v
Lower.v
LowerCode.v
LowerNodes.v
LowerProps.v
Names.v
Lexical.v
NamesRel.v
NamesSim.v
NamesNodes.v
NamesProps.v
Frames.v
Activations.v
FramesMono.v
FramesSim.v
FramesProps.v
Store.v
Host.v
MapStore.v
SetStore.v
ListStore.v
KeyProps.v
MapRefine.v
MapProps.v
ListProps.v
CollProps.v
