(* ===== verification/Prelude.v ===== *)
(** * Verification of the Quoin runtime core

    Quoin (README.md) is a dynamically dispatched, class-based language with multimethods,
    mixins, green tasks, worker threads and out-of-process extensions; its runtime is the Rust
    crate under src/src/ with helper crates under src/crates/.  This library models the parts
    of the runtime that are state machines or algorithms of their own, and proves what the rest
    of the runtime and the programs it runs rely on.

    ** The parts and how they meet

    The compiler resolves the names of a block to symbols (scope.rs, assignment.rs), splices
    the arms of conditionals and loops and the bodies of sealed methods into the frame
    (devirt.rs, inlining.rs), lays control flow out as jumps (lowering.rs) and runs a peephole
    pass over the finished code (bytecode.rs).  The interpreter (vm/exec.rs) executes it on
    operands, chained environments and a world of objects: [Exec] has the instructions of one
    frame, which is what the compiler is proved against, and [Frames] the stack of frames that
    sends, returns, [^^] and natives (vm/call.rs, runtime/block.rs) push and pop.

    A send looks up a method: dispatch.rs walks the receiver's class, its mixins and its
    parents, scores the variants of the selector by the distance of the arguments from the
    declared types, and remembers the answer in a cache that every change to classes empties.
    The checker asks the same questions ahead of time of a table of signatures
    (class_table.rs), over its own lattice of types (types.rs); both walk a hierarchy in the
    same order, which is why the walk is a library here.  Maps, sets and lists are native
    methods that hash and compare keys, and so call the program back.

    Tasks take turns on one thread: scheduler.rs keeps the task table and the wakes, and
    runner_driver.rs picks the next task and delivers completions.  Channels park tasks with
    the scheduler, and a shipped channel is relayed over a worker link as frames.  The wake
    log records the decisions of the driver and forces them on a replay.

    A value that lives in another process or worker crosses the wire (quoin-ext-proto) as data
    or as an opaque handle (handle_table.rs); natives pin the values they keep (pin_table.rs).
    Calls to an object hosted by a worker or an extension share a few lanes, and claims.rs
    decides who may call which object on which lane, and which nested call must be refused
    because it would wait for itself.  When such a peer dies, supervise.rs, lifecycle.rs and the
    restart gate of worker_service.rs decide who hears of it and what takes its place.  The
    formatter (quoin-fmt) lays documents out on its own.

    ** Files

    Compiler and interpreter
    - Instr, Exec: instruction.rs with the scans of a template; [dispatch_one] of vm/exec.rs on
      one frame, the environments of value.rs and the arithmetic of devirt_ops.rs.
    - Fuse, FuseMap, FuseSim, FuseProps: [fuse_bytecode]; the table its jumps are moved with; the
      fused code simulates the code it replaces and is well formed; the closures the scopes of
      one template share.
    - Lower, LowerCode, LowerNodes, LowerProps: the emission of expressions, conditionals, loops,
      carets and inlined methods, against an evaluator of the nodes.
    - Names, Lexical, NamesRel, NamesSim, NamesNodes, NamesProps: scopes, renaming, declarations,
      splicing and inlining, against an evaluator of the source in which every arm, round and
      method has a frame of its own; and programs whose names go wrong.
    - Frames, Activations, FramesMono, FramesSim, FramesProps: vm/exec.rs, vm/call.rs and the catch
      family of runtime/block.rs on a stack of frames; calls as nested activations, without it;
      fuel; the machine does what the activations say; the theorems, and programs whose [^^]
      goes wrong.
    Dispatch and types
    - Types, TypesProps, TypesParse: types.rs with the annotation parser and printer.
    - Hierarchy: the walk over classes.  [walk] is parameterised by what visiting a class yields;
      [walk_first] says that a walk answers with the first class of the order that answers.
    - ClassTable, ClassTableProps: class_table.rs and the description records of introspect.rs.
    - Dispatch, DispatchCache, DispatchOrder, DispatchScore: dispatch.rs, with what it
      reads of value.rs, runtime/method.rs, runtime/elem_tag.rs, vm/class.rs and vm/call.rs; the
      cache answers what the walk would; which class and which variant win; a concrete heap.
    Collections
    - Store, Host, MapStore, SetStore, ListStore: the two-tier store shared by runtime/map.rs and
      runtime/set.rs; hashing and equality of keys, and the monad of a native method that may
      call the program; the methods of Map, Set and List.
    - KeyProps, MapRefine, MapProps, ListProps, CollProps: which keys are lawful, the refinement to
      association lists and lists without repetition, sorting, and the theorems.
    Tasks
    - Sched, Driver: vm/scheduler.rs, and the driver of runner_driver.rs as a machine; the grants
      of claims are wakes without a test ([WakeGrant]), and [orderly] names the happenings that
      keep to what the scheduler takes for granted.
    - SchedEffects, SchedInv, SchedParks, SchedEnds, SchedProps, SchedRuns, SchedAnswers:
      what each operation changes, the invariant and its preservation, and what follows along
      runs; SchedAnswers ends with concrete runs, two of
      them not orderly.
    - Channel, ChannelSpec, ChannelQueue, ChannelProps, ChannelRuns, ChannelRoots: runtime/channel.rs
      over the class [Parking]; the queue a channel promises; [ChannelRoots] makes the scheduler
      an instance.
    - RelayLink: runtime/channel_relay.rs, a channel with one link and its far end.
    - Replay, ReplayText, ReplayLoop, ReplaySim, ReplayProps: replay.rs and the driver's loop with the
      log, live and replaying.
    Peers
    - WireModel, WireCodec, WireRoundtrip, WireProps: crates/quoin-ext-proto, one writer and
      one reader per type; a reader is a state-and-error monad on the remaining bytes.
    - Claims, ClaimsInv, ClaimsProps, ClaimsSystem, ClaimsDeadlock: runtime/claims.rs and
      its callers in runtime/worker_service.rs; any calls at all ([any_step]), and the orderly histories of
      a registry that any number of tasks drive ([sys_step]); what the waits-for walk finds and
      misses.
    - HandleTable, PinTable: handle_table.rs and pin_table.rs as maps.
    - Supervise, SuperviseProps, Restart: runtime/supervise.rs and runtime/lifecycle.rs, whose sink is
      shared between threads and whose lanes are drained by receivers; the restart of a hosted service (worker_service.rs), with
      Modules Gate and GateProps.
    Formatter
    - Doc, DocProps, DocLines: crates/quoin-fmt/src/doc.rs against a layout by recursion.

    ** What the theorems show

    - The compiler preserves meaning: the names (of well-named blocks in private frames), the
      lowering and the peephole pass, each against an evaluator or a machine that does not share
      its tricks.  An error carries the instruction that failed and whether the frame was
      already past it ([Failed]); what is reported is the entry before the frame's place
      ([reported]), which the pass preserves for sends and not for the rest.
    - The stack of frames does what nested calls would: a block run above any frames and operands
      comes to its value, its error or its landed [^^] and leaves what is below; a cleanup
      runs exactly once.
    - Lookups are what they promise: dispatch and its cache, the class table, the maps, sets and
      lists for lawful keys, the handle and pin tables.
    - Along orderly runs the scheduler never panics and keeps every task in one place, suspended
      calls are answered and a deadlock has a cause among the tasks.  Runs that are not orderly
      are runs of the code: the grant of a cancelled drain and the join of a reused slot, which
      [SchedAnswers.stale_drain_grant_panics] and [SchedAnswers.reused_slot_deadlocks] follow to
      a panic and to a deadlock.  A channel is a queue and loses neither values
      nor wakeups; an answer of a relay finds its operation; a replay is the recorded run or
      reports a divergence.
    - Peers: frames round-trip and survive changes of version; lanes are
      conserved whatever is called; along orderly histories objects have one holder and short
      cycles of owners are refused ([ClaimsDeadlock.ghost_grant_runs_two_calls] is a history that
      is not); a watch hears the end of a peer once; senders held by
      a restart are woken, and restarts keep to their budget.
    - Layout is the layout by recursion, and text is kept.
    Closed runs beside the theorems (names and [^^] that go wrong, shared closures, reentrant
    [==:], overlapping restarts, the runs named above) show what happens outside their conditions;
    the findings of the manifest name them where the code departs from its intent or its comments.

    ** Conventions

    A machine integer is a [Z] kept in range, with wrap-around written out where the code
    casts or wraps; a [HashMap] is a [gmap]; a [Vec] is a list whose end is its right end (a
    file that uses one as a stack with its top first says so); a Rust panic is [None] of the
    operation that would panic.  A field or function keeps its name from the source; a name in
    conflict with Rocq's own gets a prefix.

    ** Bounds and fuel

    Recursion that is not structural takes fuel, and each fuel is shown to be enough or is part
    of the statement:
    - the waits-for walk stops after [MAX_WALK] = 64 tasks, nested values on the wire after
      [MAX_DV_DEPTH] = 64 levels and inlining after [MAX_INLINE_DEPTH] = 3 methods, as the code
      does: these bounds are behaviour, and the theorems state them;
    - a hierarchy walk enters a class only once, so [walk_fuel] and [table_fuel], one more than
      the number of classes, suffice ([Hierarchy.preorder_fuel]); a climb to the parents is
      bounded by [climb_fuel]: on a parent cycle the code would loop, and the theorems on
      climbing require that parents lead to a root;
    - [compat_fuel] gets the sum of the sizes of the types and [parse_fuel] one more than the
      length of the text ([TypesProps.compat_fuel_enough], [TypesParse.parse_fuel_enough]);
      the digits of a number get its bits ([ReplayText.fuel_enough]);
    - [fuse_loop] gets the length of the code, [fits_loop] the size of what it looks at
      ([Doc.fits_fuel]); the renderer terminates on every document
      ([DocProps.render_is_recursive_layout]);
    - [env_get] and [env_set] climb at most as many frames as the heap has: a longer climb is a
      cycle, which no closure makes;
    - the machine of [Frames] and the evaluator of [Activations] may run for ever: an answer of
      the one is an answer of the other with enough fuel, more fuel changes no answer
      ([FramesMono.machine_le]), and with less the machine has none;
    - a frame and a loop may run for ever.  The evaluators of [Lower] and [Lexical] count the
      rounds of loops, and their theorems cover the code that runs on while rounds are left;
    - the driver with the wake log waits at most once per future in flight ([await_delivery])
      and forces at most the events that are left ([deliver_logged]).

    ** Parameters

    The code of the program wherever a native or the scheduler calls it: guard blocks, [hash] and
    [==:], comparators, the methods of a policy, what a task does between two suspensions.  The
    operations of [Machine]: what a callee does, the heap behind objects, the instructions that
    build classes and collections; those of [Runtime] besides: the lookup of methods, the native
    methods as trees of what they do to the machine, the plans of initializers, the pending
    cancellation.  [NamesProps] asks of a [Machine] that no closure holds the frame
    whose code it is about.  The hash function and big decimals of the collections, and whether
    their rendering succeeds.  The values of the tables and the identity of objects; the
    liveness of a task and the time, for the claims; what completes when, and the draws of a
    stressed run, for the driver; the conversion of values to wire data, for channels; the
    template of a block that stays a block, for the resolution of names.

    ** Not modelled

    - Of the interpreter: inline caches, allocation and garbage collection (the rooting around
      natives is invisible to a model that never collects), stack traces and the debugger, the
      headroom of the native stack, compiled methods among the frames.
    - Of the compiler: fused [each:] and instantiation, destructuring, definitions, interpolation,
      the analyses that decide what is spliced and what type a receiver has, and the checker;
      native code (codegen/), whose meaning is that of a third-party code generator.
    - Of tasks: the switches between guest fibers inside one task, [await_timeout], the control
      lane of workers, the debugger, [each:] of a channel, the spawning of relay agents.
    - Of peers: threads, subprocesses and sockets, the conversations of a service call, draining,
      the supervisor of extensions.
    - The parser (a grammar for a third-party generator), the formatter's passes over the tree,
      the input and output backends, the wrappers of third-party libraries (numbers, time, text,
      formats), front ends, and the library written in Quoin.
    The text of error messages is dropped where no decision depends on it. *)
From stdpp Require Import base numbers list gmap strings pretty.
From stdpp Require Import options.

(** ** Fallible computations *)

(** Rust's [Result<A, E>]. *)
Inductive result (E A : Type) : Type :=
| Ok (a : A)
| Err (e : E).
Arguments Ok {E A} a.
Arguments Err {E A} e.

Definition is_ok {E A} (r : result E A) : bool :=
  match r with Ok _ => true | Err _ => false end.

#[global] Instance result_ret {E} : MRet (result E) := fun A a => Ok a.
#[global] Instance result_bind {E} : MBind (result E) :=
  fun A B k r => match r with Ok a => k a | Err e => Err e end.

(** ** Vec and VecDeque primitives *)

(** [Vec::push]: append at the end. *)
Definition vec_push {A} (xs : list A) (x : A) : list A := xs ++ [x].

(** [Vec::pop]: take the last element. *)
Fixpoint vec_pop {A} (xs : list A) : option (A * list A) :=
  match xs with
  | [] => None
  | [x] => Some (x, [])
  | x :: xs' => match vec_pop xs' with
                | Some (l, r) => Some (l, x :: r)
                | None => None
                end
  end.

Lemma vec_pop_None {A} (xs : list A) : vec_pop xs = None ↔ xs = [].
Proof.
  split; [|by intros ->].
  induction xs as [|x [|y ys] IH]; [done|done|]. intros H.
  change (vec_pop (x :: y :: ys)) with
    (match vec_pop (y :: ys) with Some (l, r) => Some (l, x :: r) | None => None end) in H.
  destruct (vec_pop (y :: ys)) as [[]|]; [done|]. by specialize (IH eq_refl).
Qed.

Lemma vec_pop_Some {A} (xs : list A) x xs' : vec_pop xs = Some (x, xs') → xs = xs' ++ [x].
Proof.
  revert x xs'. induction xs as [|a [|b bs] IH]; intros x xs' H; [done|by simplify_eq/=|].
  change (vec_pop (a :: b :: bs)) with
    (match vec_pop (b :: bs) with Some (l, r) => Some (l, a :: r) | None => None end) in H.
  destruct (vec_pop (b :: bs)) as [[l r]|] eqn:E; [|done]. simplify_eq.
  by rewrite (IH _ _ eq_refl).
Qed.

Lemma vec_pop_push {A} (xs : list A) x : vec_pop (vec_push xs x) = Some (x, xs).
Proof.
  unfold vec_push. induction xs as [|a xs IH]; [done|].
  simpl. rewrite IH. by destruct xs.
Qed.

(** ** The least witness of a decidable property *)

Lemma least_witness (P : nat → Prop) `{!∀ n, Decision (P n)} n :
  P n → ∃ m, (m ≤ n)%nat ∧ P m ∧ ∀ k, (k < m)%nat → ¬ P k.
Proof.
  induction n as [n IH] using lt_wf_ind. intros Hn.
  destruct (decide (Exists P (seq 0 n))) as [(k & Hk & HP)%Exists_exists|Hno].
  - apply elem_of_seq in Hk. destruct (IH k) as (m & ? & ? & ?); [lia|done|].
    exists m. split_and!; [lia|done..].
  - exists n. split_and!; [done..|]. intros k Hk HP. apply Hno, Exists_exists.
    exists k. split; [apply elem_of_seq; lia|done].
Qed.

(** ** Bounded case analysis on integers *)

(** Check a decidable statement on [0 .. n-1] by computation. *)
Definition all_below (n : nat) (P : Z → bool) : bool :=
  forallb (λ i, P (Z.of_nat i)) (seq 0 n).

Lemma all_below_spec n P z :
  all_below n P = true → (0 ≤ z < Z.of_nat n)%Z → P z = true.
Proof.
  unfold all_below. rewrite forallb_forall. intros H Hz.
  specialize (H (Z.to_nat z)). rewrite Z2Nat.id in H by lia.
  apply H, in_seq. lia.
Qed.

(** ** Automation *)

Create HintDb quoin discriminated.
Create Rewrite HintDb quoin_rw.
#[export] Hint Resolve vec_pop_push : quoin.

(** Name the components of every existential and conjunction in the context. *)
Ltac deex :=
  repeat match goal with
  | H : ∃ x, _ |- _ => let x' := fresh x in destruct H as [x' H]
  | H : _ ∧ _ |- _ => destruct H
  end.

(** Split the innermost [if]/[match] scrutinee of a hypothesis, keeping the equations. *)
Ltac case_in H :=
  match type of H with
  | context [match ?x with _ => _ end] =>
      lazymatch x with
      | context [match _ with _ => _ end] => fail
      | _ => destruct x eqn:?
      end
  end.

(** Decide the integer comparisons of the goal with [lia]. *)
Ltac zcase :=
  repeat match goal with
  | |- context [Z.leb ?a ?b] =>
      first [ rewrite (proj2 (Z.leb_le a b)) by lia | rewrite (proj2 (Z.leb_gt a b)) by lia ]
  | |- context [Z.ltb ?a ?b] =>
      first [ rewrite (proj2 (Z.ltb_lt a b)) by lia | rewrite (proj2 (Z.ltb_ge a b)) by lia ]
  | |- context [Z.eqb ?a ?b] =>
      first [ rewrite (proj2 (Z.eqb_eq a b)) by lia | rewrite (proj2 (Z.eqb_neq a b)) by lia ]
  end; cbn [andb orb negb].

(** [lia] with division and modulo by constants. *)
Ltac zdiv := Z.to_euclidean_division_equations; lia.

(** Discharge a closed well-formedness condition by unfolding it down to comparisons. *)
Ltac concrete :=
  repeat match goal with
  | |- _ ∧ _ => split
  | |- True => exact I
  | |- Forall _ [] => constructor
  | |- Forall _ (_ :: _) => constructor
  | |- Forall ?P ?l => let l' := eval hnf in l in progress change (Forall P l')
  | |- (_ < _)%Z => reflexivity
  | |- (_ ≤ _)%Z => vm_compute; discriminate
  | |- (_ ≤ _)%nat => apply Nat.leb_le; reflexivity
  | |- (_ < _)%nat => apply Nat.ltb_lt; reflexivity
  | |- _ = _ => vm_compute; reflexivity
  | |- _ ≠ _ => vm_compute; discriminate
  | |- _ => progress hnf
  end.
