(* ===== verification/WireModel.v ===== *)
(** * The data of the extension protocol: bytes, and the messages made of them

    First the standard-library facts the codec relies on: [to_be_bytes]/[from_be_bytes] (big endian),
    [to_le_bytes]/[from_le_bytes] (little endian), the [as iN] sign view, [f32 as f64] on bit
    patterns, and [str::from_utf8].  A byte is an integer in [0, 256). *)
From stdpp Require Import base numbers list.
From stdpp Require Import options.
From S2P Require Import Prelude.
Local Open Scope Z_scope.

Definition is_byte (b : Z) : Prop := 0 ≤ b < 256.

(** [v.to_be_bytes()] for an [n]-byte integer; a value wider than [n] bytes is truncated
    ([v as uN]) and a negative value gives its two's complement. *)
Fixpoint be_bytes (n : nat) (v : Z) : list Z :=
  match n with
  | O => []
  | S k => be_bytes k (v / 256) ++ [v mod 256]
  end.

(** [uN::from_be_bytes]. *)
Definition be_val (bs : list Z) : Z := fold_left (λ acc b, acc * 256 + b) bs 0.

(** [v.to_le_bytes()]. *)
Fixpoint le_bytes (n : nat) (v : Z) : list Z :=
  match n with
  | O => []
  | S k => v mod 256 :: le_bytes k (v / 256)
  end.

(** [uN::from_le_bytes]. *)
Fixpoint le_val (bs : list Z) : Z :=
  match bs with
  | [] => 0
  | b :: bs' => b + 256 * le_val bs'
  end.

(** [v as iN] for an unsigned [v] of [w] bits. *)
Definition as_signed (w v : Z) : Z := if v <? 2 ^ (w - 1) then v else v - 2 ^ w.

(** [f32::from_bits(b) as f64], on bit patterns. A NaN is quieted and keeps its payload. *)
Definition f32_to_f64 (b : Z) : Z :=
  let sign := Z.shiftl (Z.shiftr b 31) 63 in
  let e := Z.land (Z.shiftr b 23) 255 in
  let m := Z.land b (2 ^ 23 - 1) in
  if e =? 255 then
    sign + Z.shiftl 2047 52 + (if m =? 0 then 0 else Z.shiftl (Z.lor m (2 ^ 22)) 29)
  else if e =? 0 then
    if m =? 0 then sign
    else let k := Z.log2 m in
         sign + Z.shiftl (k - 149 + 1023) 52 + Z.shiftl (m - 2 ^ k) (52 - k)
  else sign + Z.shiftl (e - 127 + 1023) 52 + Z.shiftl m 29.

Definition in_range (lo hi b : Z) : bool := (lo <=? b) && (b <=? hi).

(** A UTF-8 continuation byte. *)
Definition utf8_tail (b : Z) : bool := in_range 128 191 b.

(** [str::from_utf8(bs).is_ok()]: the well-formed byte sequences of the Unicode standard
    (no overlong forms, no surrogates, nothing above U+10FFFF). *)
Fixpoint utf8_valid (bs : list Z) : bool :=
  match bs with
  | [] => true
  | b0 :: r0 =>
      if in_range 0 127 b0 then utf8_valid r0
      else match r0 with
      | [] => false
      | b1 :: r1 =>
          if in_range 194 223 b0 then utf8_tail b1 && utf8_valid r1
          else match r1 with
          | [] => false
          | b2 :: r2 =>
              if in_range 224 239 b0 then
                (if b0 =? 224 then in_range 160 191 b1
                 else if b0 =? 237 then in_range 128 159 b1
                 else utf8_tail b1)
                && utf8_tail b2 && utf8_valid r2
              else match r2 with
              | [] => false
              | b3 :: r3 =>
                  in_range 240 244 b0
                  && (if b0 =? 240 then in_range 144 191 b1
                      else if b0 =? 244 then in_range 128 143 b1
                      else utf8_tail b1)
                  && utf8_tail b2 && utf8_tail b3 && utf8_valid r3
              end
          end
      end
  end.

(** ** Facts *)

Lemma length_be_bytes n v : length (be_bytes n v) = n.
Proof.
  revert v. induction n as [|n IH]; intros v; [done|]. simpl.
  rewrite length_app, IH. simpl. lia.
Qed.

Lemma length_le_bytes n v : length (le_bytes n v) = n.
Proof. revert v. induction n as [|n IH]; intros v; simpl; [done|by rewrite IH]. Qed.

Lemma be_val_app bs b : be_val (bs ++ [b]) = be_val bs * 256 + b.
Proof. unfold be_val. by rewrite fold_left_app. Qed.

Lemma mod_pow_succ v n : v mod 256 ^ Z.of_nat (S n) = v mod 256 + 256 * (v / 256 mod 256 ^ Z.of_nat n).
Proof.
  rewrite Nat2Z.inj_succ, Z.pow_succ_r by lia.
  apply Z.rem_mul_r; [lia|]. apply Z.pow_pos_nonneg; lia.
Qed.

Lemma be_val_bytes_mod n v : be_val (be_bytes n v) = v mod 256 ^ Z.of_nat n.
Proof.
  revert v. induction n as [|n IH]; intros v.
  - simpl. by rewrite Z.mod_1_r.
  - simpl be_bytes. rewrite be_val_app, IH, mod_pow_succ. lia.
Qed.

Lemma le_val_bytes_mod n v : le_val (le_bytes n v) = v mod 256 ^ Z.of_nat n.
Proof.
  revert v. induction n as [|n IH]; intros v.
  - simpl. by rewrite Z.mod_1_r.
  - simpl le_bytes. simpl le_val. rewrite IH, mod_pow_succ. lia.
Qed.

Lemma be_val_bytes n v : 0 ≤ v < 256 ^ Z.of_nat n → be_val (be_bytes n v) = v.
Proof. intros. rewrite be_val_bytes_mod. by apply Z.mod_small. Qed.

Lemma le_val_bytes n v : 0 ≤ v < 256 ^ Z.of_nat n → le_val (le_bytes n v) = v.
Proof. intros. rewrite le_val_bytes_mod. by apply Z.mod_small. Qed.

Lemma be_bytes_byte n v : Forall is_byte (be_bytes n v).
Proof.
  revert v. induction n as [|n IH]; intros v; simpl; [constructor|].
  apply Forall_app. split; [apply IH|]. constructor; [|constructor].
  apply Z.mod_pos_bound. lia.
Qed.

Lemma le_bytes_byte n v : Forall is_byte (le_bytes n v).
Proof.
  revert v. induction n as [|n IH]; intros v; simpl; constructor; [|apply IH].
  apply Z.mod_pos_bound. lia.
Qed.

(** The two's-complement view undoes the truncation. *)
Lemma as_signed_mod w v : 0 < w → - 2 ^ (w - 1) ≤ v < 2 ^ (w - 1) → as_signed w (v mod 2 ^ w) = v.
Proof.
  intros Hw Hv. unfold as_signed.
  assert (2 ^ w = 2 * 2 ^ (w - 1)) as E.
  { rewrite <- Z.pow_succ_r by lia. f_equal. lia. }
  destruct (decide (0 ≤ v)) as [Hpos|Hneg].
  - rewrite Z.mod_small by lia. zcase. done.
  - assert (v mod 2 ^ w = v + 2 ^ w) as ->.
    { symmetry. apply Z.mod_unique with (-1); lia. }
    zcase. lia.
Qed.

Lemma utf8_valid_byte bs : utf8_valid bs = true → Forall is_byte bs.
Proof.
  remember (length bs) as n eqn:Hn. revert bs Hn.
  induction n as [n IH] using lt_wf_ind. intros bs -> H.
  destruct bs as [|b0 [|b1 [|b2 [|b3 r]]]]; simpl in H;
    unfold utf8_tail, in_range in H;
    repeat (case_match; try discriminate);
    repeat rewrite ?andb_true_iff, ?Z.leb_le in *; deex;
    repeat (constructor; [unfold is_byte; lia|]);
    try constructor;
    try (eapply IH; [|done|done]; simpl; lia).
  all: try (unfold is_byte; lia).
Qed.

#[export] Hint Rewrite length_be_bytes length_le_bytes : quoin_rw.

(** ** The messages of the out-of-process extension protocol

    The data model of [crates/quoin-ext-proto/src/lib.rs]: structured values, bulk columns,
    class declarations, method arguments and the control frames.  A Rust [String] is the list
    of its UTF-8 bytes, an [f64] its bit pattern, a [u64] an integer.  [wf_*] collects what the
    Rust types guarantee (integer widths, UTF-8) together with the length bound 2^32 past which
    the wire's 32-bit length fields would truncate. *)
Local Open Scope Z_scope.

(** A Rust [String]: its UTF-8 bytes. *)
Definition rstr : Type := list Z.

Record ReplyMeta := mk_meta { handler_micros : Z }.

(** [ReplyMeta::default()]. *)
Definition meta_default : ReplyMeta := mk_meta 0.

Definition PROTOCOL_VERSION : Z := 2.

Definition MAX_DV_DEPTH : nat := 64.

Inductive ArrowDType := Float64 | Int64.

(** [dtype as u64]: the wire tag. *)
Definition dtype_tag (d : ArrowDType) : Z :=
  match d with Float64 => 0 | Int64 => 1 end.

Record ArrowArray := mk_arrow { dtype : ArrowDType; length_ : Z; data_ : list Z }.

#[warnings="-register-all"]
Inductive DataValue :=
| Null
| Bool (b : bool)
| Int (i : Z)
| BigInt (s : rstr)
| Float (bits : Z)
| Decimal (s : rstr)
| Str (s : rstr)
| Bytes_ (b : list Z)
| List (items : list DataValue)
| Map (entries : list (rstr * DataValue))
| Resource (id : Z) (class_name : rstr).

Record ClassDecl := mk_class_decl {
  cd_name : rstr;
  cd_instance_selectors : list rstr;
  cd_class_selectors : list rstr }.

Inductive Arg :=
| AData (d : DataValue)
| AResource (id : Z)
| AHandle (h : Z)
| AArray (a : ArrowArray)
| AChan (c : Z).

Record CallMsg := mk_call {
  c_op : rstr;
  c_arg : rstr;
  c_handles : list Z;
  c_resources : list Z;
  c_releases : list Z;
  c_arrays : list ArrowArray;
  c_data : option DataValue;
  c_class_name : rstr;
  c_recv : Z;
  c_method_args : list Arg }.

Inductive Msg :=
| Call (c : CallMsg)
| CallReturn (result : rstr)
| CallReturnError (message remote_stack : rstr)
| CallReturnResource (resource : Z) (class_name : rstr)
| CallReturnChannel (chan : Z)
| CallReturnResourceDecl (resource : Z) (class_name : rstr)
    (instance_selectors class_selectors : list rstr)
| Chan (kind chan corr : Z) (value : option DataValue) (message : rstr)
| CallReturnArray (array : ArrowArray)
| CallReturnData (value : DataValue)
| CallReturnHandle (handle : Z)
| GetManifest (version : Z)
| ManifestReturn (classes : list ClassDecl) (version lanes : Z)
| MakeString (value : rstr)
| HandleToString (handle : Z)
| Retain (handle : Z)
| Release (handles : list Z)
| CallMethodOnHandle (receiver : Z) (selector : rstr) (args : list Z)
| InvokeBlock (block : Z) (batches : list (list Z))
| InvokeBlockReturn (results : list Z) (error : option rstr) (remote_stack : rstr)
| GetGlobal (name : rstr)
| MakeValue (value : DataValue)
| ReadHandle (handle : Z)
| ReadHandleReturn (value : DataValue) (error : option rstr) (remote_stack : rstr)
| HostOpReturn (handle : Z) (str error : option rstr) (remote_stack : rstr).

(** The [CallReturn*] terminals, which carry the appended [ReplyMeta]. *)
Definition is_terminal (m : Msg) : bool :=
  match m with
  | CallReturn _ | CallReturnError _ _ | CallReturnResource _ _ | CallReturnArray _
  | CallReturnData _ | CallReturnHandle _ | CallReturnChannel _
  | CallReturnResourceDecl _ _ _ _ => true
  | _ => false
  end.

(** ** Decidable equality *)

#[export] Instance ArrowDType_eq_dec : EqDecision ArrowDType.
Proof. solve_decision. Defined.
#[export] Instance ArrowArray_eq_dec : EqDecision ArrowArray.
Proof. solve_decision. Defined.

(** An induction principle that reaches the elements of lists and maps. *)
Section DataValue_ind.
Variable P : DataValue → Prop.
Hypothesis HNull : P Null.
Hypothesis HBool : ∀ b, P (Bool b).
Hypothesis HInt : ∀ i, P (Int i).
Hypothesis HBigInt : ∀ s, P (BigInt s).
Hypothesis HFloat : ∀ b, P (Float b).
Hypothesis HDecimal : ∀ s, P (Decimal s).
Hypothesis HStr : ∀ s, P (Str s).
Hypothesis HBytes : ∀ b, P (Bytes_ b).
Hypothesis HList : ∀ l, Forall P l → P (List l).
Hypothesis HMap : ∀ l, Forall (λ kv, P kv.2) l → P (Map l).
Hypothesis HResource : ∀ i s, P (Resource i s).

Fixpoint DataValue_ind' (v : DataValue) : P v :=
  match v with
  | Null => HNull
  | Bool b => HBool b
  | Int i => HInt i
  | BigInt s => HBigInt s
  | Float b => HFloat b
  | Decimal s => HDecimal s
  | Str s => HStr s
  | Bytes_ b => HBytes b
  | List l =>
      HList l ((fix go (l : list DataValue) : Forall P l :=
        match l with
        | [] => Forall_nil_2 _
        | x :: l' => Forall_cons_2 _ x l' (DataValue_ind' x) (go l')
        end) l)
  | Map l =>
      HMap l ((fix go (l : list (rstr * DataValue)) : Forall (λ kv, P kv.2) l :=
        match l with
        | [] => Forall_nil_2 _
        | (k, x) :: l' => Forall_cons_2 _ (k, x) l' (DataValue_ind' x) (go l')
        end) l)
  | Resource i s => HResource i s
  end.
End DataValue_ind.

(** ** What the Rust types guarantee *)

Definition is_u64 (v : Z) : Prop := 0 ≤ v < 2 ^ 64.
Definition is_u32 (v : Z) : Prop := 0 ≤ v < 2 ^ 32.
Definition is_u8 (v : Z) : Prop := 0 ≤ v < 2 ^ 8.
Definition is_i64 (v : Z) : Prop := - 2 ^ 63 ≤ v < 2 ^ 63.

(** A sequence short enough for the 32-bit length fields. *)
Definition short {A} (xs : list A) : Prop := Z.of_nat (length xs) < 2 ^ 32.

Definition wf_str (s : rstr) : Prop := utf8_valid s = true ∧ short s.
Definition wf_u64s (xs : list Z) : Prop := short xs ∧ Forall is_u64 xs.
Definition wf_strs (xs : list rstr) : Prop := short xs ∧ Forall wf_str xs.
Definition wf_opt {A} (P : A → Prop) (o : option A) : Prop :=
match o with Some a => P a | None => True end.

Definition wf_arrow (a : ArrowArray) : Prop :=
is_u64 (length_ a) ∧ short (data_ a) ∧ Forall is_byte (data_ a).

Fixpoint wf_dv (v : DataValue) : Prop :=
  match v with
  | Null | Bool _ => True
  | Int i => is_i64 i
  | Float b => is_u64 b
  | BigInt s | Decimal s | Str s => wf_str s
  | Bytes_ b => short b ∧ Forall is_byte b
  | Resource i s => is_u64 i ∧ utf8_valid s = true ∧ Z.of_nat (length s) + 8 < 2 ^ 32
  | List l => short l ∧ foldr (λ x acc, wf_dv x ∧ acc) True l
  | Map l => short l ∧ foldr (λ kv acc, (wf_str kv.1 ∧ wf_dv kv.2) ∧ acc) True l
  end.

(** Nesting depth as the decoder counts it: the level of the deepest value inside. *)
Fixpoint dv_depth (v : DataValue) : nat :=
  match v with
  | List l => foldr (λ x acc, Nat.max (S (dv_depth x)) acc) 0%nat l
  | Map l => foldr (λ kv acc, Nat.max (S (dv_depth kv.2)) acc) 0%nat l
  | _ => 0%nat
  end.

(** A value the wire carries: well formed and within the decoder's depth limit. *)
Definition ok_dv (v : DataValue) : Prop := wf_dv v ∧ (dv_depth v ≤ MAX_DV_DEPTH)%nat.

Definition wf_class_decl (c : ClassDecl) : Prop :=
  wf_str (cd_name c) ∧ wf_strs (cd_instance_selectors c) ∧ wf_strs (cd_class_selectors c).

Definition wf_arg (a : Arg) : Prop :=
  match a with
  | AData d => ok_dv d
  | AResource i | AHandle i | AChan i => is_u64 i
  | AArray a => wf_arrow a
  end.

Definition wf_call (c : CallMsg) : Prop :=
  wf_str (c_op c) ∧ wf_str (c_arg c) ∧ wf_u64s (c_handles c) ∧ wf_u64s (c_resources c)
  ∧ wf_u64s (c_releases c) ∧ (short (c_arrays c) ∧ Forall wf_arrow (c_arrays c))
  ∧ wf_opt ok_dv (c_data c) ∧ wf_str (c_class_name c) ∧ is_u64 (c_recv c)
  ∧ (short (c_method_args c) ∧ Forall wf_arg (c_method_args c)).

Definition wf_msg (m : Msg) : Prop :=
  match m with
  | Call c => wf_call c
  | CallReturn s | MakeString s | GetGlobal s => wf_str s
  | CallReturnError a b => wf_str a ∧ wf_str b
  | CallReturnResource r c => is_u64 r ∧ wf_str c
  | CallReturnChannel c => is_u64 c
  | CallReturnResourceDecl r c i k => is_u64 r ∧ wf_str c ∧ wf_strs i ∧ wf_strs k
  | Chan k c r v m => is_u8 k ∧ is_u64 c ∧ is_u64 r ∧ wf_opt ok_dv v ∧ wf_str m
  | CallReturnArray a => wf_arrow a
  | CallReturnData v | MakeValue v => ok_dv v
  | CallReturnHandle h | HandleToString h | Retain h | ReadHandle h => is_u64 h
  | GetManifest v => is_u32 v
  | ManifestReturn cs v l => (short cs ∧ Forall wf_class_decl cs) ∧ is_u32 v ∧ is_u32 l
  | Release hs => wf_u64s hs
  | CallMethodOnHandle r s a => is_u64 r ∧ wf_str s ∧ wf_u64s a
  | InvokeBlock b bs => is_u64 b ∧ short bs ∧ Forall wf_u64s bs
  | InvokeBlockReturn r e s => wf_u64s r ∧ wf_opt wf_str e ∧ wf_str s
  | ReadHandleReturn v e s => ok_dv v ∧ wf_opt wf_str e ∧ wf_str s
  | HostOpReturn h s e r => is_u64 h ∧ wf_opt wf_str s ∧ wf_opt wf_str e ∧ wf_str r
  end.

Definition wf_meta (m : ReplyMeta) : Prop := is_u64 (handler_micros m).

(** [Some(Null)] and [None] share the wire's nil, and decode to [None]. *)
Definition norm_opt (o : option DataValue) : option DataValue :=
  match o with Some Null => None | _ => o end.

(** A message as the peer sees it after a round trip. *)
Definition norm_msg (m : Msg) : Msg :=
  match m with
  | Call c => Call (mk_call (c_op c) (c_arg c) (c_handles c) (c_resources c) (c_releases c)
                     (c_arrays c) (norm_opt (c_data c)) (c_class_name c) (c_recv c)
                     (c_method_args c))
  | Chan k c r v m => Chan k c r (norm_opt v) m
  | _ => m
  end.

(** The meta the peer sees: what a terminal carried, the default elsewhere. *)
Definition norm_meta (m : Msg) (meta : option ReplyMeta) : ReplyMeta :=
  if is_terminal m then default meta_default meta else meta_default.

(** ** Facts *)

Lemma wf_dv_List l : wf_dv (List l) ↔ short l ∧ Forall wf_dv l.
Proof.
  simpl. f_equiv. induction l as [|x l IH]; simpl; [split; constructor|].
  rewrite Forall_cons. tauto.
Qed.

Lemma wf_dv_Map l : wf_dv (Map l) ↔ short l ∧ Forall (λ kv, wf_str kv.1 ∧ wf_dv kv.2) l.
Proof.
  simpl. f_equiv. induction l as [|x l IH]; simpl; [split; constructor|].
  rewrite Forall_cons. tauto.
Qed.

Lemma dv_depth_List l n : (dv_depth (List l) ≤ n)%nat ↔ Forall (λ x, dv_depth x < n)%nat l.
Proof.
  simpl. induction l as [|x l IH]; simpl; [split; [constructor|lia]|].
  rewrite Forall_cons, <- IH. lia.
Qed.

Lemma dv_depth_Map l n : (dv_depth (Map l) ≤ n)%nat ↔ Forall (λ kv, dv_depth kv.2 < n)%nat l.
Proof.
  simpl. induction l as [|x l IH]; simpl; [split; [constructor|lia]|].
  rewrite Forall_cons, <- IH. lia.
Qed.
