(* ===== verification/WireCodec.v ===== *)
(** * WireCodec: the MessagePack encoder and decoder of the extension protocol

    Writers first, then readers, one of each per type.  The write half of [crates/quoin-ext-proto/src/codec.rs].  A Rust writer appends to
    [out: &mut Vec<u8>]; here it returns the bytes it appends, and [++] is the sequence of
    writes.  [n as u16] followed by [to_be_bytes] is [be_bytes 2 n], which truncates as the
    cast does. *)
From stdpp Require Import base numbers list strings.
From stdpp Require Import options.
From S2P Require Import Prelude WireModel.
Local Open Scope Z_scope.

(** ** Frame type tags *)

Definition T_CALL : Z := 0.
Definition T_CALL_RETURN : Z := 1.
Definition T_CALL_RETURN_ERROR : Z := 2.
Definition T_CALL_RETURN_RESOURCE : Z := 3.
Definition T_CALL_RETURN_ARRAY : Z := 4.
Definition T_CALL_RETURN_DATA : Z := 5.
Definition T_CALL_RETURN_HANDLE : Z := 6.
Definition T_GET_MANIFEST : Z := 7.
Definition T_MANIFEST_RETURN : Z := 8.
Definition T_MAKE_STRING : Z := 9.
Definition T_HANDLE_TO_STRING : Z := 10.
Definition T_RETAIN : Z := 11.
Definition T_RELEASE : Z := 12.
Definition T_CALL_METHOD_ON_HANDLE : Z := 13.
Definition T_INVOKE_BLOCK : Z := 14.
Definition T_INVOKE_BLOCK_RETURN : Z := 15.
Definition T_GET_GLOBAL : Z := 16.
Definition T_MAKE_VALUE : Z := 17.
Definition T_READ_HANDLE : Z := 18.
Definition T_READ_HANDLE_RETURN : Z := 19.
Definition T_HOST_OP_RETURN : Z := 20.
Definition T_CALL_RETURN_CHANNEL : Z := 21.
Definition T_CHAN : Z := 22.
Definition T_CALL_RETURN_RESOURCE_DECL : Z := 23.

(** ** Scalars *)

Definition zlen {A} (xs : list A) : Z := Z.of_nat (length xs).

(** Smallest-form unsigned integer. *)
Definition write_uint (v : Z) : list Z :=
  if v <=? 0x7f then [v]
  else if v <=? 0xff then [0xcc; v]
  else if v <=? 0xffff then 0xcd :: be_bytes 2 v
  else if v <=? 0xffffffff then 0xce :: be_bytes 4 v
  else 0xcf :: be_bytes 8 v.

(** Smallest-form signed integer; [i as u8] of a negative fixint is its low byte. *)
Definition write_int (i : Z) : list Z :=
  if 0 <=? i then write_uint i
  else if -32 <=? i then [i mod 256]
  else if -0x80 <=? i then [0xd0; i mod 256]
  else if -0x8000 <=? i then 0xd1 :: be_bytes 2 i
  else if -0x80000000 <=? i then 0xd2 :: be_bytes 4 i
  else 0xd3 :: be_bytes 8 i.

Definition write_str (s : rstr) : list Z :=
  let n := zlen s in
  (if n <? 32 then [Z.lor 0xa0 n]
   else if n <? 0x100 then [0xd9; n]
   else if n <? 0x10000 then 0xda :: be_bytes 2 n
   else 0xdb :: be_bytes 4 n) ++ s.

Definition write_bin (b : list Z) : list Z :=
  let n := zlen b in
  (if n <? 0x100 then [0xc4; n]
   else if n <? 0x10000 then 0xc5 :: be_bytes 2 n
   else 0xc6 :: be_bytes 4 n) ++ b.

Definition write_ext (ty : Z) (payload : list Z) : list Z :=
  let n := zlen payload in
  (if n =? 1 then [0xd4]
   else if n =? 2 then [0xd5]
   else if n =? 4 then [0xd6]
   else if n =? 8 then [0xd7]
   else if n =? 16 then [0xd8]
   else if n <? 0x100 then [0xc7; n]
   else if n <? 0x10000 then 0xc8 :: be_bytes 2 n
   else 0xc9 :: be_bytes 4 n) ++ (ty mod 256) :: payload.

Definition write_array_header (n : Z) : list Z :=
  if n <? 16 then [Z.lor 0x90 n]
  else if n <? 0x10000 then 0xdc :: be_bytes 2 n
  else 0xdd :: be_bytes 4 n.

(** The map header, inline in [write_dv]'s [Map] arm. *)
Definition write_map_header (n : Z) : list Z :=
  if n <? 16 then [Z.lor 0x80 n]
  else if n <? 0x10000 then 0xde :: be_bytes 2 n
  else 0xdf :: be_bytes 4 n.

(** A [for] loop of writes over a sequence. *)
Definition write_all {A} (w : A → list Z) (xs : list A) : list Z := concat (map w xs).

Definition write_u64_vec (xs : list Z) : list Z :=
  write_array_header (zlen xs) ++ write_all write_uint xs.

Definition write_str_vec (xs : list rstr) : list Z :=
  write_array_header (zlen xs) ++ write_all write_str xs.

Definition write_opt_str (s : option rstr) : list Z :=
  match s with Some s => write_str s | None => [0xc0] end.

(** ** Structured values *)

Fixpoint write_dv (dv : DataValue) : list Z :=
  match dv with
  | Null => [0xc0]
  | Bool false => [0xc2]
  | Bool true => [0xc3]
  | Int i => write_int i
  | Float f => 0xcb :: be_bytes 8 f
  | Str s => write_str s
  | Bytes_ b => write_bin b
  | BigInt s => write_ext 1 s
  | Decimal s => write_ext 2 s
  | Resource id class_name => write_ext 3 (le_bytes 8 id ++ class_name)
  | List items => write_array_header (zlen items) ++ concat (map write_dv items)
  | Map entries =>
      write_map_header (zlen entries)
      ++ concat (map (λ kv, write_str kv.1 ++ write_dv kv.2) entries)
  end.

(** [Some(dv)] other than [Null] is written, anything else is nil. *)
Definition write_opt_dv (o : option DataValue) : list Z :=
  match o with
  | Some Null | None => [0xc0]
  | Some dv => write_dv dv
  end.

(** Serialize one value with no frame around it. *)
Definition pack_dv (dv : DataValue) : list Z := write_dv dv.

Definition write_arrow (a : ArrowArray) : list Z :=
  write_array_header 3 ++ write_uint (dtype_tag (dtype a))
  ++ write_uint (length_ a) ++ write_bin (data_ a).

Definition write_arg (a : Arg) : list Z :=
  write_array_header 2 ++
  match a with
  | AData d => write_uint 0 ++ write_dv d
  | AResource id => write_uint 1 ++ write_uint id
  | AHandle h => write_uint 2 ++ write_uint h
  | AArray a => write_uint 3 ++ write_arrow a
  | AChan c => write_uint 4 ++ write_uint c
  end.

Definition write_class_decl (c : ClassDecl) : list Z :=
  write_array_header 3 ++ write_str (cd_name c)
  ++ write_array_header (zlen (cd_instance_selectors c))
  ++ write_all write_str (cd_instance_selectors c)
  ++ write_array_header (zlen (cd_class_selectors c))
  ++ write_all write_str (cd_class_selectors c).

(** ** Frames *)

(** The frame's tag, its number of array elements (the tag included, the meta excluded) and the
    bytes of its fields: one arm of [encode_with_meta] per message. *)
Definition msg_tag (m : Msg) : Z :=
  match m with
  | Call _ => T_CALL
  | CallReturn _ => T_CALL_RETURN
  | CallReturnError _ _ => T_CALL_RETURN_ERROR
  | CallReturnResource _ _ => T_CALL_RETURN_RESOURCE
  | CallReturnChannel _ => T_CALL_RETURN_CHANNEL
  | CallReturnResourceDecl _ _ _ _ => T_CALL_RETURN_RESOURCE_DECL
  | Chan _ _ _ _ _ => T_CHAN
  | CallReturnArray _ => T_CALL_RETURN_ARRAY
  | CallReturnData _ => T_CALL_RETURN_DATA
  | CallReturnHandle _ => T_CALL_RETURN_HANDLE
  | GetManifest _ => T_GET_MANIFEST
  | ManifestReturn _ _ _ => T_MANIFEST_RETURN
  | MakeString _ => T_MAKE_STRING
  | HandleToString _ => T_HANDLE_TO_STRING
  | Retain _ => T_RETAIN
  | Release _ => T_RELEASE
  | CallMethodOnHandle _ _ _ => T_CALL_METHOD_ON_HANDLE
  | InvokeBlock _ _ => T_INVOKE_BLOCK
  | InvokeBlockReturn _ _ _ => T_INVOKE_BLOCK_RETURN
  | GetGlobal _ => T_GET_GLOBAL
  | MakeValue _ => T_MAKE_VALUE
  | ReadHandle _ => T_READ_HANDLE
  | ReadHandleReturn _ _ _ => T_READ_HANDLE_RETURN
  | HostOpReturn _ _ _ _ => T_HOST_OP_RETURN
  end.

Definition msg_arity (m : Msg) : Z :=
  match m with
  | Call _ => 11
  | CallReturnError _ _ | CallReturnResource _ _ | InvokeBlock _ _ => 3
  | CallReturnResourceDecl _ _ _ _ | HostOpReturn _ _ _ _ => 5
  | Chan _ _ _ _ _ => 6
  | ManifestReturn _ _ _ | CallMethodOnHandle _ _ _ | InvokeBlockReturn _ _ _
  | ReadHandleReturn _ _ _ => 4
  | CallReturn _ | CallReturnChannel _ | CallReturnArray _ | CallReturnData _
  | CallReturnHandle _ | GetManifest _ | MakeString _ | HandleToString _ | Retain _
  | Release _ | GetGlobal _ | MakeValue _ | ReadHandle _ => 2
  end.

(** The re-entrant host-ops and their replies. *)
Definition write_op_fields (m : Msg) : list Z :=
  match m with
  | MakeString value => write_str value
  | HandleToString handle => write_uint handle
  | Retain handle => write_uint handle
  | Release handles => write_u64_vec handles
  | CallMethodOnHandle receiver selector args =>
      write_uint receiver ++ write_str selector ++ write_u64_vec args
  | InvokeBlock block batches =>
      write_uint block ++ write_array_header (zlen batches) ++ write_all write_u64_vec batches
  | InvokeBlockReturn results error remote_stack =>
      write_u64_vec results ++ write_opt_str error ++ write_str remote_stack
  | GetGlobal name => write_str name
  | MakeValue value => write_dv value
  | ReadHandle handle => write_uint handle
  | ReadHandleReturn value error remote_stack =>
      write_dv value ++ write_opt_str error ++ write_str remote_stack
  | HostOpReturn handle str error remote_stack =>
      write_uint handle ++ write_opt_str str ++ write_opt_str error ++ write_str remote_stack
  | _ => []
  end.

Definition write_fields (m : Msg) : list Z :=
  match m with
  | Call c =>
      write_str (c_op c) ++ write_str (c_arg c) ++ write_u64_vec (c_handles c)
      ++ write_u64_vec (c_resources c) ++ write_u64_vec (c_releases c)
      ++ write_array_header (zlen (c_arrays c)) ++ write_all write_arrow (c_arrays c)
      ++ write_opt_dv (c_data c) ++ write_str (c_class_name c) ++ write_uint (c_recv c)
      ++ write_array_header (zlen (c_method_args c)) ++ write_all write_arg (c_method_args c)
  | CallReturn result => write_str result
  | CallReturnError message remote_stack => write_str message ++ write_str remote_stack
  | CallReturnResource resource class_name => write_uint resource ++ write_str class_name
  | CallReturnChannel chan => write_uint chan
  | CallReturnResourceDecl resource class_name instance_selectors class_selectors =>
      write_uint resource ++ write_str class_name
      ++ write_array_header (zlen instance_selectors) ++ write_all write_str instance_selectors
      ++ write_array_header (zlen class_selectors) ++ write_all write_str class_selectors
  | Chan kind chan corr value message =>
      write_uint kind ++ write_uint chan ++ write_uint corr ++ write_opt_dv value
      ++ write_str message
  | CallReturnArray array => write_arrow array
  | CallReturnData value => write_dv value
  | CallReturnHandle handle => write_uint handle
  | GetManifest version => write_uint version
  | ManifestReturn classes version lanes =>
      write_uint version ++ write_array_header (zlen classes)
      ++ write_all write_class_decl classes ++ write_uint lanes
  | op => write_op_fields op
  end.

(** The meta field count of the frame: 1 on a Call terminal with a meta given. *)
Definition meta_n (m : Msg) (meta : option ReplyMeta) : Z :=
  if is_terminal m then match meta with Some _ => 1 | None => 0 end else 0.

Definition write_meta (m : Msg) (meta : option ReplyMeta) : list Z :=
  match meta with
  | Some mt => if meta_n m meta =? 1 then write_uint (handler_micros mt) else []
  | None => []
  end.

Definition encode_with_meta (m : Msg) (meta : option ReplyMeta) : list Z :=
  write_array_header (msg_arity m + meta_n m meta) ++ write_uint (msg_tag m)
  ++ write_fields m ++ write_meta m meta.

Definition encode (m : Msg) : list Z := encode_with_meta m None.

(** * The MessagePack decoder of the extension protocol

    The read half of [crates/quoin-ext-proto/src/codec.rs].  A Rust reader advances
    [rd: &mut &[u8]]; here it is a state-and-error monad over the remaining bytes.  The value
    decoder and the skipper recurse on the nesting depth, which [MAX_DV_DEPTH] bounds. *)
Local Open Scope Z_scope.

(** ** Errors: one constructor per error message of the decoder *)
Inductive werr :=
| ETruncated                                   (* truncated frame *)
| EEmptyFrame                                  (* empty frame array *)
| EUnknownFrame (tag : Z)                      (* unknown frame type *)
| ETrailing (n : Z)                            (* trailing byte(s) after frame *)
| ETrailingDv (n : Z)                          (* packed DataValue has trailing bytes *)
| ENeed (what : string) (fields expected : Z)  (* too few fields *)
| EExpectedArray (m : Z)
| EExpectedUint (m : Z)
| ENegative                                    (* expected an unsigned integer, got a negative *)
| EVersionRange                                (* protocol version out of range *)
| EExpectedStr (m : Z)
| ENotUtf8                                     (* string is not UTF-8 *)
| EExpectedBin (m : Z)
| EArrowDtype (d : Z)
| EArgKind (k : Z)
| EDepth                                       (* value nesting exceeds the decode limit *)
| EBadMarker (m : Z)
| EMapKey (v : DataValue)
| EExtUtf8 (what : string)                     (* packed payload is not UTF-8 *)
| EExtShort                                    (* Resource payload shorter than its id *)
| EExtName                                     (* Resource class name is not UTF-8 *)
| EExtType (ty : Z)
| EReserved.                                   (* reserved marker 0xc1 *)

(** ** The reader monad *)
Definition rd (A : Type) : Type := list Z → result werr (A * list Z).

#[global] Instance rd_ret : MRet rd := λ A a bs, Ok (a, bs).
#[global] Instance rd_bind : MBind rd :=
  λ A B k r bs, match r bs with Ok (a, bs') => k a bs' | Err e => Err e end.

Definition fail {A} (e : werr) : rd A := λ _, Err e.

(** [for _ in 0..n { xs.push(r?) }] *)
Fixpoint read_n {A} (r : rd A) (n : nat) : rd (list A) :=
  match n with
  | O => mret []
  | S k => x ← r; xs ← read_n r k; mret (x :: xs)
  end.

(** ** Primitive readers *)

Definition take_ (n : Z) : rd (list Z) := λ bs,
  if zlen bs <? n then Err ETruncated
  else Ok (take (Z.to_nat n) bs, drop (Z.to_nat n) bs).

Definition take_u8 : rd Z := bs ← take_ 1; mret (be_val bs).
Definition take_u16 : rd Z := bs ← take_ 2; mret (be_val bs).
Definition take_u32 : rd Z := bs ← take_ 4; mret (be_val bs).
Definition take_u64 : rd Z := bs ← take_ 8; mret (be_val bs).

Definition read_array_header : rd Z :=
  m ← take_u8;
  if in_range 0x90 0x9f m then mret (Z.land m 0x0f)
  else if m =? 0xdc then take_u16
  else if m =? 0xdd then take_u32
  else fail (EExpectedArray m).

(** [u64::try_from(v: i64)]. *)
Definition signed (v : Z) : rd Z := if v <? 0 then fail ENegative else mret v.

Definition read_uint : rd Z :=
  m ← take_u8;
  if in_range 0x00 0x7f m then mret m
  else if m =? 0xcc then take_u8
  else if m =? 0xcd then take_u16
  else if m =? 0xce then take_u32
  else if m =? 0xcf then take_u64
  else if m =? 0xd0 then v ← take_u8; signed (as_signed 8 v)
  else if m =? 0xd1 then v ← take_u16; signed (as_signed 16 v)
  else if m =? 0xd2 then v ← take_u32; signed (as_signed 32 v)
  else if m =? 0xd3 then v ← take_u64; signed (as_signed 64 v)
  else fail (EExpectedUint m).

Definition read_version : rd Z :=
  v ← read_uint; if v <? 2 ^ 32 then mret v else fail EVersionRange.

Definition read_str_raw : rd rstr :=
  m ← take_u8;
  n ← (if in_range 0xa0 0xbf m then mret (Z.land m 0x1f)
       else if m =? 0xd9 then take_u8
       else if m =? 0xda then take_u16
       else if m =? 0xdb then take_u32
       else fail (EExpectedStr m));
  b ← take_ n;
  if utf8_valid b then mret b else fail ENotUtf8.

Definition read_str : rd rstr := read_str_raw.

(** [rd.first() == Some(&0xc0)]. *)
Definition next_is_nil (bs : list Z) : bool :=
  match bs with b :: _ => b =? 0xc0 | [] => false end.

Definition read_opt_str : rd (option rstr) := λ bs,
  if next_is_nil bs then Ok (None, drop 1 bs)
  else (s ← read_str_raw; mret (Some s)) bs.

Definition read_bin : rd (list Z) :=
  m ← take_u8;
  n ← (if m =? 0xc4 then take_u8
       else if m =? 0xc5 then take_u16
       else if m =? 0xc6 then take_u32
       else fail (EExpectedBin m));
  take_ n.

Definition read_u64_vec : rd (list Z) := k ← read_array_header; read_n read_uint (Z.to_nat k).

Definition read_str_vec : rd (list rstr) :=
  k ← read_array_header; read_n read_str_raw (Z.to_nat k).

(** ** Structured values *)

Definition read_str_dv (n : Z) : rd DataValue :=
  b ← take_ n; if utf8_valid b then mret (Str b) else fail ENotUtf8.

Definition read_bytes_dv (n : Z) : rd DataValue := b ← take_ n; mret (Bytes_ b).

Definition read_ext (n : Z) : rd DataValue :=
  ty ← take_u8;
  payload ← take_ n;
  let ty := as_signed 8 ty in
  if ty =? 1 then (if utf8_valid payload then mret (BigInt payload) else fail (EExtUtf8 "BigInt"))
  else if ty =? 2 then
    (if utf8_valid payload then mret (Decimal payload) else fail (EExtUtf8 "Decimal"))
  else if ty =? 3 then
    (if zlen payload <? 8 then fail EExtShort
     else if utf8_valid (drop 8 payload)
     then mret (Resource (le_val (take 8 payload)) (drop 8 payload))
     else fail EExtName)
  else fail (EExtType ty).

(** Decimal digits of an unsigned integer: [v.to_string()] as UTF-8 bytes. *)
Definition u64_digits (v : Z) : rstr := map (λ a, Z.of_nat (Ascii.nat_of_ascii a))
  (String.list_ascii_of_string (pretty.pretty v)).

(** [read_list] and [read_map], given the reader of the elements one level down. *)
Definition read_list (read_dv : rd DataValue) (n : Z) : rd DataValue :=
  items ← read_n read_dv (Z.to_nat n); mret (List items).

Definition read_entry (read_dv : rd DataValue) : rd (rstr * DataValue) :=
  k ← read_dv;
  match k with
  | Str s => v ← read_dv; mret (s, v)
  | other => fail (EMapKey other)
  end.

Definition read_map (read_dv : rd DataValue) (n : Z) : rd DataValue :=
  entries ← read_n (read_entry read_dv) (Z.to_nat n); mret (Map entries).

(** The body of [read_dv] once the depth check has passed, on the marker [m]. *)
Definition read_dv_marker (deeper : rd DataValue) (m : Z) : rd DataValue :=
  if in_range 0x00 0x7f m then mret (Int m)
  else if in_range 0xe0 0xff m then mret (Int (as_signed 8 m))
  else if m =? 0xc0 then mret Null
  else if m =? 0xc2 then mret (Bool false)
  else if m =? 0xc3 then mret (Bool true)
  else if m =? 0xcc then v ← take_u8; mret (Int v)
  else if m =? 0xcd then v ← take_u16; mret (Int v)
  else if m =? 0xce then v ← take_u32; mret (Int v)
  else if m =? 0xcf then
    v ← take_u64; mret (if v <? 2 ^ 63 then Int v else BigInt (u64_digits v))
  else if m =? 0xd0 then v ← take_u8; mret (Int (as_signed 8 v))
  else if m =? 0xd1 then v ← take_u16; mret (Int (as_signed 16 v))
  else if m =? 0xd2 then v ← take_u32; mret (Int (as_signed 32 v))
  else if m =? 0xd3 then v ← take_u64; mret (Int (as_signed 64 v))
  else if m =? 0xca then v ← take_u32; mret (Float (f32_to_f64 v))
  else if m =? 0xcb then v ← take_u64; mret (Float v)
  else if in_range 0xa0 0xbf m then read_str_dv (Z.land m 0x1f)
  else if m =? 0xd9 then n ← take_u8; read_str_dv n
  else if m =? 0xda then n ← take_u16; read_str_dv n
  else if m =? 0xdb then n ← take_u32; read_str_dv n
  else if m =? 0xc4 then n ← take_u8; read_bytes_dv n
  else if m =? 0xc5 then n ← take_u16; read_bytes_dv n
  else if m =? 0xc6 then n ← take_u32; read_bytes_dv n
  else if in_range 0x90 0x9f m then read_list deeper (Z.land m 0x0f)
  else if m =? 0xdc then n ← take_u16; read_list deeper n
  else if m =? 0xdd then n ← take_u32; read_list deeper n
  else if in_range 0x80 0x8f m then read_map deeper (Z.land m 0x0f)
  else if m =? 0xde then n ← take_u16; read_map deeper n
  else if m =? 0xdf then n ← take_u32; read_map deeper n
  else if m =? 0xd4 then read_ext 1
  else if m =? 0xd5 then read_ext 2
  else if m =? 0xd6 then read_ext 4
  else if m =? 0xd7 then read_ext 8
  else if m =? 0xd8 then read_ext 16
  else if m =? 0xc7 then n ← take_u8; read_ext n
  else if m =? 0xc8 then n ← take_u16; read_ext n
  else if m =? 0xc9 then n ← take_u32; read_ext n
  else fail (EBadMarker m).

(** [read_dv] with [levels] nesting levels left: [levels = 0] is [depth > MAX_DV_DEPTH]. *)
Fixpoint read_dv_levels (levels : nat) : rd DataValue :=
  match levels with
  | O => fail EDepth
  | S deeper => m ← take_u8; read_dv_marker (read_dv_levels deeper) m
  end.

Definition read_dv (depth : nat) : rd DataValue := read_dv_levels (S MAX_DV_DEPTH - depth).

(** Field position that carries [nil | DataValue]; nil decodes to [None]. *)
Definition read_opt_dv : rd (option DataValue) := λ bs,
  if next_is_nil bs then Ok (None, drop 1 bs)
  else (v ← read_dv 0; mret (Some v)) bs.

(** ** Skipping unknown fields *)

Definition skip_bytes (n : Z) : rd () := _ ← take_ n; mret ().

Definition skip_n (r : rd ()) (n : Z) : rd () := _ ← read_n r (Z.to_nat n); mret ().

Definition skip_marker (deeper : rd ()) (m : Z) : rd () :=
  if in_range 0x00 0x7f m || in_range 0xe0 0xff m || (m =? 0xc0) || (m =? 0xc2) || (m =? 0xc3)
  then mret ()
  else if (m =? 0xcc) || (m =? 0xd0) then skip_bytes 1
  else if (m =? 0xcd) || (m =? 0xd1) then skip_bytes 2
  else if (m =? 0xce) || (m =? 0xd2) || (m =? 0xca) then skip_bytes 4
  else if (m =? 0xcf) || (m =? 0xd3) || (m =? 0xcb) then skip_bytes 8
  else if in_range 0xa0 0xbf m then skip_bytes (Z.land m 0x1f)
  else if (m =? 0xd9) || (m =? 0xc4) then n ← take_u8; skip_bytes n
  else if (m =? 0xda) || (m =? 0xc5) then n ← take_u16; skip_bytes n
  else if (m =? 0xdb) || (m =? 0xc6) then n ← take_u32; skip_bytes n
  else if in_range 0xd4 0xd8 m then skip_bytes (1 + Z.shiftl 1 (m - 0xd4))
  else if m =? 0xc7 then n ← take_u8; skip_bytes (1 + n)
  else if m =? 0xc8 then n ← take_u16; skip_bytes (1 + n)
  else if m =? 0xc9 then n ← take_u32; skip_bytes (1 + n)
  else if in_range 0x90 0x9f m then skip_n deeper (Z.land m 0x0f)
  else if m =? 0xdc then n ← take_u16; skip_n deeper n
  else if m =? 0xdd then n ← take_u32; skip_n deeper n
  else if in_range 0x80 0x8f m then skip_n deeper (2 * Z.land m 0x0f)
  else if m =? 0xde then n ← take_u16; skip_n deeper (2 * n)
  else if m =? 0xdf then n ← take_u32; skip_n deeper (2 * n)
  else fail EReserved.

Fixpoint skip_levels (levels : nat) : rd () :=
  match levels with
  | O => fail EDepth
  | S deeper => m ← take_u8; skip_marker (skip_levels deeper) m
  end.

Definition skip_value (depth : nat) : rd () := skip_levels (S MAX_DV_DEPTH - depth).

Definition skip_extra (extra : Z) : rd () := skip_n (skip_value 0) extra.

(** ** Composite fields *)

(** [fields.checked_sub(expected)]: the surplus is what [skip_extra] must skip. *)
Definition need (fields expected : Z) (what : string) : rd Z :=
  if fields <? expected then fail (ENeed what fields expected) else mret (fields - expected).

(** An appended String field, empty when the peer is too old to send it; answers the surplus
    left. *)
Definition read_appended_str (extra : Z) : rd (rstr * Z) :=
  if extra =? 0 then mret ([], extra) else s ← read_str; mret (s, extra - 1).

Definition read_appended_u64 (extra : Z) : rd (Z * Z) :=
  if extra =? 0 then mret (0, extra) else v ← read_uint; mret (v, extra - 1).

Definition read_arrow : rd ArrowArray :=
  h ← read_array_header; extra ← need h 3 "ArrowArray";
  d ← read_uint;
  dt ← (if d =? 0 then mret Float64 else if d =? 1 then mret Int64 else fail (EArrowDtype d));
  len ← read_uint;
  data ← read_bin;
  _ ← skip_extra extra;
  mret (mk_arrow dt len data).

Definition read_arg : rd Arg :=
  h ← read_array_header; extra ← need h 2 "Arg";
  k ← read_uint;
  arg ← (if k =? 0 then v ← read_dv 0; mret (AData v)
         else if k =? 1 then i ← read_uint; mret (AResource i)
         else if k =? 2 then i ← read_uint; mret (AHandle i)
         else if k =? 3 then a ← read_arrow; mret (AArray a)
         else if k =? 4 then i ← read_uint; mret (AChan i)
         else fail (EArgKind k));
  _ ← skip_extra extra;
  mret arg.

Definition read_class_decl : rd ClassDecl :=
  h ← read_array_header; extra ← need h 3 "ClassDecl";
  name ← read_str_raw;
  is_ ← read_str_vec;
  cs ← read_str_vec;
  _ ← skip_extra extra;
  mret (mk_class_decl name is_ cs).

(** ** Frames *)

(** The tail of a Call terminal: the appended meta, then whatever surplus fields remain. *)
Definition finish_terminal (m : Msg) (extra : Z) : rd (Msg * ReplyMeta) :=
  '(micros, extra) ← read_appended_u64 extra;
  _ ← skip_extra extra;
  mret (m, mk_meta micros).

(** The tail of every other frame. *)
Definition finish (m : Msg) (extra : Z) : rd (Msg * ReplyMeta) :=
  _ ← skip_extra extra; mret (m, meta_default).

Definition read_call : rd CallMsg :=
  op ← read_str;
  arg ← read_str;
  handles ← read_u64_vec;
  resources ← read_u64_vec;
  releases ← read_u64_vec;
  k ← read_array_header;
  arrays ← read_n read_arrow (Z.to_nat k);
  data ← read_opt_dv;
  class_name ← read_str;
  recv ← read_uint;
  k ← read_array_header;
  method_args ← read_n read_arg (Z.to_nat k);
  mret (mk_call op arg handles resources releases arrays data class_name recv method_args).

(** The re-entrant host-ops and their replies, and the unknown frame types. *)
Definition read_op_body (tag fields : Z) : rd (Msg * ReplyMeta) :=
  if tag =? T_MAKE_STRING then
    extra ← need fields 1 "MakeString";
    value ← read_str;
    finish (MakeString value) extra
  else if tag =? T_HANDLE_TO_STRING then
    extra ← need fields 1 "HandleToString";
    handle ← read_uint;
    finish (HandleToString handle) extra
  else if tag =? T_RETAIN then
    extra ← need fields 1 "Retain";
    handle ← read_uint;
    finish (Retain handle) extra
  else if tag =? T_RELEASE then
    extra ← need fields 1 "Release";
    handles ← read_u64_vec;
    finish (Release handles) extra
  else if tag =? T_CALL_METHOD_ON_HANDLE then
    extra ← need fields 3 "CallMethodOnHandle";
    receiver ← read_uint;
    selector ← read_str;
    args ← read_u64_vec;
    finish (CallMethodOnHandle receiver selector args) extra
  else if tag =? T_INVOKE_BLOCK then
    extra ← need fields 2 "InvokeBlock";
    block ← read_uint;
    k ← read_array_header;
    batches ← read_n read_u64_vec (Z.to_nat k);
    finish (InvokeBlock block batches) extra
  else if tag =? T_INVOKE_BLOCK_RETURN then
    extra ← need fields 2 "InvokeBlockReturn";
    results ← read_u64_vec;
    error ← read_opt_str;
    '(remote_stack, extra) ← read_appended_str extra;
    finish (InvokeBlockReturn results error remote_stack) extra
  else if tag =? T_GET_GLOBAL then
    extra ← need fields 1 "GetGlobal";
    name ← read_str;
    finish (GetGlobal name) extra
  else if tag =? T_MAKE_VALUE then
    extra ← need fields 1 "MakeValue";
    value ← read_dv 0;
    finish (MakeValue value) extra
  else if tag =? T_READ_HANDLE then
    extra ← need fields 1 "ReadHandle";
    handle ← read_uint;
    finish (ReadHandle handle) extra
  else if tag =? T_READ_HANDLE_RETURN then
    extra ← need fields 2 "ReadHandleReturn";
    value ← read_dv 0;
    error ← read_opt_str;
    '(remote_stack, extra) ← read_appended_str extra;
    finish (ReadHandleReturn value error remote_stack) extra
  else if tag =? T_HOST_OP_RETURN then
    extra ← need fields 3 "HostOpReturn";
    handle ← read_uint;
    str ← read_opt_str;
    error ← read_opt_str;
    '(remote_stack, extra) ← read_appended_str extra;
    finish (HostOpReturn handle str error remote_stack) extra
  else fail (EUnknownFrame tag).

(** The [match tag] of [decode_frame_with_meta], one arm per frame type. *)
Definition read_frame_body (tag fields : Z) : rd (Msg * ReplyMeta) :=
  if tag =? T_CALL then
    extra ← need fields 10 "Call";
    c ← read_call;
    finish (Call c) extra
  else if tag =? T_CALL_RETURN then
    extra ← need fields 1 "CallReturn";
    r ← read_str;
    finish_terminal (CallReturn r) extra
  else if tag =? T_CALL_RETURN_ERROR then
    extra ← need fields 1 "CallReturnError";
    message ← read_str;
    '(remote_stack, extra) ← read_appended_str extra;
    finish_terminal (CallReturnError message remote_stack) extra
  else if tag =? T_CALL_RETURN_RESOURCE then
    extra ← need fields 2 "CallReturnResource";
    resource ← read_uint;
    class_name ← read_str;
    finish_terminal (CallReturnResource resource class_name) extra
  else if tag =? T_CALL_RETURN_CHANNEL then
    extra ← need fields 1 "CallReturnChannel";
    chan ← read_uint;
    finish_terminal (CallReturnChannel chan) extra
  else if tag =? T_CALL_RETURN_RESOURCE_DECL then
    extra ← need fields 4 "CallReturnResourceDecl";
    resource ← read_uint;
    class_name ← read_str;
    instance_selectors ← read_str_vec;
    class_selectors ← read_str_vec;
    finish_terminal
      (CallReturnResourceDecl resource class_name instance_selectors class_selectors) extra
  else if tag =? T_CHAN then
    extra ← need fields 5 "Chan";
    kind ← read_uint;
    chan ← read_uint;
    corr ← read_uint;
    value ← read_opt_dv;
    message ← read_str;
    finish (Chan (kind mod 256) chan corr value message) extra
  else if tag =? T_CALL_RETURN_ARRAY then
    extra ← need fields 1 "CallReturnArray";
    array ← read_arrow;
    finish_terminal (CallReturnArray array) extra
  else if tag =? T_CALL_RETURN_DATA then
    extra ← need fields 1 "CallReturnData";
    value ← read_dv 0;
    finish_terminal (CallReturnData value) extra
  else if tag =? T_CALL_RETURN_HANDLE then
    extra ← need fields 1 "CallReturnHandle";
    handle ← read_uint;
    finish_terminal (CallReturnHandle handle) extra
  else if tag =? T_GET_MANIFEST then
    extra ← need fields 1 "GetManifest";
    version ← read_version;
    finish (GetManifest version) extra
  else if tag =? T_MANIFEST_RETURN then
    extra ← need fields 2 "ManifestReturn";
    version ← read_version;
    k ← read_array_header;
    classes ← read_n read_class_decl (Z.to_nat k);
    '(lanes, extra) ← read_appended_u64 extra;
    finish (ManifestReturn classes version (lanes mod 2 ^ 32)) extra
  else read_op_body tag fields.

Definition read_frame : rd (Msg * ReplyMeta) :=
  n ← read_array_header;
  if n =? 0 then fail EEmptyFrame
  else tag ← read_uint; read_frame_body tag (n - 1).

Definition decode_frame_with_meta (bytes : list Z) : result werr (Msg * ReplyMeta) :=
  match read_frame bytes with
  | Err e => Err e
  | Ok (r, []) => Ok r
  | Ok (_, rest) => Err (ETrailing (zlen rest))
  end.

Definition decode_frame (bytes : list Z) : result werr Msg :=
  match decode_frame_with_meta bytes with
  | Ok (m, _) => Ok m
  | Err e => Err e
  end.

Definition unpack_dv (bytes : list Z) : result werr DataValue :=
  match read_dv 0 bytes with
  | Err e => Err e
  | Ok (v, []) => Ok v
  | Ok (_, rest) => Err (ETrailingDv (zlen rest))
  end.

(** ** Sanity checks *)

Example f32_one : f32_to_f64 0x3f800000 = 0x3ff0000000000000.
Proof. reflexivity. Qed.
Example f32_tiny : f32_to_f64 1 = 0x36a0000000000000.
Proof. reflexivity. Qed.
Example decode_ping : decode_frame (encode (MakeString [104; 105])) = Ok (MakeString [104; 105]).
Proof. reflexivity. Qed.
Example decode_nested :
  unpack_dv (pack_dv (Map [([97], List [Int (-1); Int 300; Null; Resource 7 [80]])]))
  = Ok (Map [([97], List [Int (-1); Int 300; Null; Resource 7 [80]])]).
Proof. reflexivity. Qed.
Example decode_meta :
  decode_frame_with_meta (encode_with_meta (CallReturnData (Int (-40000))) (Some (mk_meta 12)))
  = Ok (CallReturnData (Int (-40000)), mk_meta 12).
Proof. reflexivity. Qed.
