(* ===== verification/WireRoundtrip.v ===== *)
(** * WireRoundtrip: the decoder inverts the encoder

    [reads r bs a] says that reader [r] consumes exactly [bs], whatever follows, and answers
    [a].  Every writer of [WireCodec] has a lemma of this form against its reader;
    the lemmas are hints of the database [wire], and the frame theorems follow by
    composing them along the sequence of writes. *)
From S2P Require Import Prelude WireModel WireCodec.
From stdpp Require Import base numbers list strings.
From stdpp Require Import options.
Local Open Scope Z_scope.

(** On [bs] followed by anything, [r] does what [F] says of what follows. *)
Definition runs {A} (r : rd A) (bs : list Z) (F : list Z → result werr (A * list Z)) : Prop :=
  ∀ rest, r (bs ++ rest) = F rest.

Abbreviation reads r bs a := (runs r bs (λ rest, Ok (a, rest))).

(** The decoder's nesting error, whatever follows. *)
Abbreviation too_deep r bs := (runs r bs (λ _, Err EDepth)).

Create HintDb wire discriminated.

(** ** Composition *)

Lemma reads_ret {A} (a : A) : reads (mret a) [] a.
Proof. by intros rest. Qed.

Lemma reads_bind {A B} (r : rd A) (k : A → rd B) bs1 bs2 a F :
  reads r bs1 a → runs (k a) bs2 F → runs (r ≫= k) (bs1 ++ bs2) F.
Proof.
  intros H1 H2 rest. unfold mbind, rd_bind.
  rewrite <- app_assoc, H1. apply H2.
Qed.

Lemma reads_bind_end {A B} (r : rd A) (k : A → rd B) bs a b :
  reads r bs a → reads (k a) [] b → reads (r ≫= k) bs b.
Proof. intros H1 H2. rewrite <- (app_nil_r bs). by eapply reads_bind. Qed.

Lemma reads_bind_ret {A B} (r : rd A) (f : A → B) bs a :
  reads r bs a → reads (r ≫= λ x, mret (f x)) bs (f a).
Proof. intros H. eapply reads_bind_end; [done|apply reads_ret]. Qed.

Lemma reads_bind_pure {A B} (r : rd A) (k : A → rd B) bs a F :
  reads r [] a → runs (k a) bs F → runs (r ≫= k) bs F.
Proof. intros H1 H2. change bs with ([] ++ bs). by eapply reads_bind. Qed.

Lemma reads_eq {A} (r : rd A) bs a a' : reads r bs a' → a = a' → reads r bs a.
Proof. by intros ? ->. Qed.

Lemma reads_nil {A} (r : rd A) bs a : reads r bs a → r bs = Ok (a, []).
Proof. intros H. specialize (H []). by rewrite app_nil_r in H. Qed.

Lemma reads_n {A} (r : rd A) (w : A → list Z) (xs : list A) :
  Forall (λ x, reads r (w x) x) xs → reads (read_n r (length xs)) (write_all w xs) xs.
Proof.
  induction 1 as [|x xs Hx _ IH]; [apply reads_ret|].
  simpl. unfold write_all. simpl.
  eapply reads_bind; [done|]. by apply reads_bind_ret.
Qed.

(** The loop after a header that counted [xs]. *)
Lemma reads_n_len {A} (r : rd A) (w : A → list Z) (xs : list A) (n : Z) :
  n = zlen xs → Forall (λ x, reads r (w x) x) xs →
  reads (read_n r (Z.to_nat n)) (write_all w xs) xs.
Proof. intros -> H. unfold zlen. rewrite Nat2Z.id. by apply reads_n. Qed.

(** ** Primitive readers *)

Lemma reads_take n bs : zlen bs = n → reads (take_ n) bs bs.
Proof.
  intros <- rest. unfold take_, zlen. rewrite length_app.
  zcase. rewrite Nat2Z.id, take_app_length, drop_app_length. done.
Qed.

Lemma reads_take_val n bs v : zlen bs = n → be_val bs = v →
  reads (bs ← take_ n; mret (be_val bs)) bs v.
Proof. intros ? <-. apply (reads_bind_ret _ be_val). by apply reads_take. Qed.

Lemma reads_u8 v : reads take_u8 [v] v.
Proof. by apply reads_take_val. Qed.

Lemma reads_u16 v : 0 ≤ v < 2 ^ 16 → reads take_u16 (be_bytes 2 v) v.
Proof.
  intros. apply reads_take_val; [done|]. by apply be_val_bytes.
Qed.

Lemma reads_u32 v : 0 ≤ v < 2 ^ 32 → reads take_u32 (be_bytes 4 v) v.
Proof.
  intros. apply reads_take_val; [done|]. by apply be_val_bytes.
Qed.

Lemma reads_u64 v : is_u64 v → reads take_u64 (be_bytes 8 v) v.
Proof.
  intros. apply reads_take_val; [done|]. by apply be_val_bytes.
Qed.

(** Truncated signed values, before the sign view. *)
Lemma be_bytes_mod n v : be_bytes n v = be_bytes n (v mod 256 ^ Z.of_nat n).
Proof.
  revert v. induction n as [|n IH]; intros v; [done|]. cbn [be_bytes].
  rewrite mod_pow_succ, (Z.mul_comm 256), Z.div_add, Z.mod_add by lia.
  rewrite Z.mod_mod by lia.
  rewrite (Z.div_small (v mod 256)) by (apply Z.mod_pos_bound; lia).
  by rewrite IH.
Qed.

Lemma reads_marker {B} (k : Z → rd B) m bs F :
  runs (k m) bs F → runs (m ← take_u8; k m) (m :: bs) F.
Proof. intros H. apply (reads_bind take_u8 k [m] bs m F); [apply reads_u8|done]. Qed.

Lemma zlen_nonneg {A} (xs : list A) : 0 ≤ zlen xs.
Proof. unfold zlen. lia. Qed.

(** Bit twiddling of the markers, checked on every small length. *)
Lemma lor_marker base n k : base = k * 32 → 0 ≤ k < 8 → 0 ≤ n < 32 → Z.lor base n = base + n.
Proof.
  intros -> Hk Hn.
  assert (all_below 8 (λ k, all_below 32 (λ n, Z.lor (k * 32) n =? k * 32 + n)) = true) as H
    by (vm_compute; reflexivity).
  apply (all_below_spec _ _ k) in H; [|lia]. apply (all_below_spec _ _ n) in H; [|lia].
  by apply Z.eqb_eq in H.
Qed.

Lemma land_marker base n : base mod 16 = 0 → 0 ≤ base < 256 → 0 ≤ n < 16 →
  Z.lor base n = base + n ∧ Z.land (base + n) 0x0f = n.
Proof.
  intros Hb Hr Hn.
  assert (all_below 16 (λ k, all_below 16 (λ n,
    (Z.lor (k * 16) n =? k * 16 + n) && (Z.land (k * 16 + n) 15 =? n))) = true) as H
    by (vm_compute; reflexivity).
  apply (all_below_spec _ _ (base / 16)) in H; [|zdiv].
  apply (all_below_spec _ _ n) in H; [|lia].
  replace (base / 16 * 16) with base in H by zdiv.
  apply andb_true_iff in H as [?%Z.eqb_eq ?%Z.eqb_eq]. done.
Qed.

Lemma land_str_marker n : 0 ≤ n < 32 → Z.lor 0xa0 n = 0xa0 + n ∧ Z.land (0xa0 + n) 0x1f = n.
Proof.
  intros Hn.
  assert (all_below 32 (λ n, (Z.lor 160 n =? 160 + n) && (Z.land (160 + n) 31 =? n)) = true) as H
    by (vm_compute; reflexivity).
  apply (all_below_spec _ _ n) in H; [|lia].
  apply andb_true_iff in H as [?%Z.eqb_eq ?%Z.eqb_eq]. done.
Qed.

(** Split on the size class the writer chose. *)
Ltac size_class :=
  repeat match goal with
  | |- context [if ?a =? ?b then _ else _] => destruct (Z.eqb_spec a b)
  | |- context [if ?a <=? ?b then _ else _] => destruct (Z.leb_spec a b)
  | |- context [if ?a <? ?b then _ else _] => destruct (Z.ltb_spec a b)
  end.

(** Consume a marker byte and take the reader's arm for it. *)
Ltac marker := cbn [app]; apply reads_marker; unfold read_dv_marker, in_range; zcase.

Lemma reads_uint v : is_u64 v → reads read_uint (write_uint v) v.
Proof.
  intros Hv. unfold is_u64 in Hv. unfold write_uint, read_uint.
  destruct (Z.leb_spec v 0x7f); [marker; apply reads_ret|].
  destruct (Z.leb_spec v 0xff); [marker; apply reads_u8|].
  destruct (Z.leb_spec v 0xffff); [marker; apply reads_u16; lia|].
  destruct (Z.leb_spec v 0xffffffff); [marker; apply reads_u32; lia|].
  marker. by apply reads_u64.
Qed.

Lemma reads_header n : 0 ≤ n < 2 ^ 32 → reads read_array_header (write_array_header n) n.
Proof.
  intros Hn. unfold write_array_header, read_array_header.
  destruct (Z.ltb_spec n 16).
  - destruct (land_marker 0x90 n) as [-> HL]; [done|lia|lia|].
    marker. rewrite HL. apply reads_ret.
  - destruct (Z.ltb_spec n 0x10000); marker; [apply reads_u16; lia|apply reads_u32; lia].
Qed.

#[export] Hint Resolve reads_ret reads_u8 reads_uint reads_header : wire.

(** ** Strings, byte strings, vectors *)

Lemma reads_utf8 {A} (f : rstr → A) e (s : rstr) n :
  utf8_valid s = true → zlen s = n →
  reads (b ← take_ n; if utf8_valid b then mret (f b) else fail e) s (f s).
Proof.
  intros Hu Hn. eapply reads_bind_end; [by apply reads_take|]. rewrite Hu. apply reads_ret.
Qed.

(** A length header of the writer, then the payload. *)
Lemma reads_str s : wf_str s → reads read_str (write_str s) s.
Proof.
  intros [Hu Hl]. unfold short in Hl. unfold read_str, read_str_raw, write_str. cbv zeta.
  pose proof (zlen_nonneg s) as H0. change (Z.of_nat (length s)) with (zlen s) in Hl.
  pose proof (reads_utf8 (λ b, b) ENotUtf8 s (zlen s) Hu eq_refl) as Hs.
  destruct (Z.ltb_spec (zlen s) 32).
  - destruct (land_str_marker (zlen s)) as [-> HL]; [lia|].
    marker. rewrite HL. eapply reads_bind_pure; [apply reads_ret|done].
  - destruct (Z.ltb_spec (zlen s) 0x100); [|destruct (Z.ltb_spec (zlen s) 0x10000)]; marker.
    + apply (reads_bind _ _ [zlen s] s (zlen s)); [apply reads_u8|done].
    + eapply reads_bind; [apply reads_u16; lia|done].
    + eapply reads_bind; [apply reads_u32; lia|done].
Qed.

Lemma reads_str_raw s : wf_str s → reads read_str_raw (write_str s) s.
Proof. apply reads_str. Qed.

Lemma reads_bin b : short b → reads read_bin (write_bin b) b.
Proof.
  intros Hl. unfold short in Hl. unfold read_bin, write_bin. cbv zeta.
  pose proof (zlen_nonneg b) as H0. change (Z.of_nat (length b)) with (zlen b) in Hl.
  pose proof (reads_take (zlen b) b eq_refl) as Hb.
  destruct (Z.ltb_spec (zlen b) 0x100); [|destruct (Z.ltb_spec (zlen b) 0x10000)]; marker.
  - apply (reads_bind _ _ [zlen b] b (zlen b)); [apply reads_u8|done].
  - eapply reads_bind; [apply reads_u16; lia|done].
  - eapply reads_bind; [apply reads_u32; lia|done].
Qed.

Lemma short_range {A} (xs : list A) : short xs → 0 ≤ zlen xs < 2 ^ 32.
Proof. unfold short, zlen. lia. Qed.

(** A counted vector: header, then one write per element. *)
Lemma reads_vec {A} (r : rd A) (w : A → list Z) xs :
  short xs → Forall (λ x, reads r (w x) x) xs →
  reads (k ← read_array_header; read_n r (Z.to_nat k))
        (write_array_header (zlen xs) ++ write_all w xs) xs.
Proof.
  intros Hs Hx. eapply reads_bind; [by apply reads_header, short_range|].
  by apply reads_n_len.
Qed.

Lemma reads_u64_vec xs : wf_u64s xs → reads read_u64_vec (write_u64_vec xs) xs.
Proof.
  intros [Hs Hx]. apply reads_vec; [done|]. eapply Forall_impl; [done|]. apply reads_uint.
Qed.

Lemma reads_str_vec xs : wf_strs xs → reads read_str_vec (write_str_vec xs) xs.
Proof.
  intros [Hs Hx]. apply reads_vec; [done|]. eapply Forall_impl; [done|]. apply reads_str_raw.
Qed.

(** ** Nil-able fields *)

(** No writer of a string or of a non-null value starts with the nil marker. *)
Definition not_nil_start (bs : list Z) : Prop :=
  match bs with b :: _ => b ≠ 0xc0 | [] => False end.

Lemma next_is_nil_app bs rest : not_nil_start bs → next_is_nil (bs ++ rest) = false.
Proof. destruct bs as [|b bs]; [done|]. simpl. intros. zcase. done. Qed.

Lemma write_str_start s : not_nil_start (write_str s).
Proof.
  unfold write_str. cbv zeta. pose proof (zlen_nonneg s).
  destruct (Z.ltb_spec (zlen s) 32).
  - destruct (land_str_marker (zlen s)) as [-> _]; [lia|]. simpl. lia.
  - size_class; simpl; lia.
Qed.

Lemma reads_opt_str o : wf_opt wf_str o → reads read_opt_str (write_opt_str o) o.
Proof.
  destruct o as [s|]; [|by intros _ rest]. intros Hs rest. unfold read_opt_str. simpl.
  rewrite next_is_nil_app by apply write_str_start.
  by apply (reads_bind_ret _ Some), reads_str_raw.
Qed.

(** ** Structured values *)

Lemma reads_int k i : is_i64 i →
  reads (read_dv_levels (S k)) (write_int i) (Int i).
Proof.
  intros Hi. unfold is_i64 in Hi. unfold write_int, write_uint. simpl read_dv_levels.
  assert (∀ w m, m = 2 ^ w → 0 < w → -2 ^ (w - 1) ≤ i < 2 ^ (w - 1) →
    as_signed w (i mod m) = i) as Hsg by (intros w m ->; apply as_signed_mod).
  destruct (Z.leb_spec 0 i).
  - destruct (Z.leb_spec i 0x7f); [marker; apply reads_ret|].
    destruct (Z.leb_spec i 0xff); [marker; apply reads_bind_ret, reads_u8|].
    destruct (Z.leb_spec i 0xffff); [marker; apply reads_bind_ret, reads_u16; lia|].
    destruct (Z.leb_spec i 0xffffffff); [marker; apply reads_bind_ret, reads_u32; lia|].
    marker. eapply reads_bind_end; [apply reads_u64; unfold is_u64; lia|]. zcase. apply reads_ret.
  - destruct (Z.leb_spec (-32) i).
    { assert (224 ≤ i mod 256 ≤ 255) as Hm by zdiv.
      marker. eapply reads_eq; [apply reads_ret|]. by rewrite (Hsg 8) by (done || lia). }
    destruct (Z.leb_spec (-0x80) i); [marker|destruct (Z.leb_spec (-0x8000) i);
      [marker|destruct (Z.leb_spec (-0x80000000) i); marker]].
    + eapply reads_eq; [apply (reads_bind_ret _ (λ v, Int (as_signed 8 v))), reads_u8|].
      by rewrite (Hsg 8) by (done || lia).
    + rewrite be_bytes_mod. eapply reads_eq.
      { apply (reads_bind_ret _ (λ v, Int (as_signed 16 v))), reads_u16, Z.mod_pos_bound. lia. }
      by rewrite (Hsg 16) by (done || lia).
    + rewrite be_bytes_mod. eapply reads_eq.
      { apply (reads_bind_ret _ (λ v, Int (as_signed 32 v))), reads_u32, Z.mod_pos_bound. lia. }
      by rewrite (Hsg 32) by (done || lia).
    + rewrite be_bytes_mod. eapply reads_eq.
      { apply (reads_bind_ret _ (λ v, Int (as_signed 64 v))), reads_u64, Z.mod_pos_bound. lia. }
      by rewrite (Hsg 64) by (done || lia).
Qed.

Lemma reads_dv_str k s : wf_str s → reads (read_dv_levels (S k)) (write_str s) (Str s).
Proof.
  intros [Hu Hl]. unfold short in Hl. unfold write_str. cbv zeta. simpl read_dv_levels.
  pose proof (zlen_nonneg s) as H0. change (Z.of_nat (length s)) with (zlen s) in Hl.
  pose proof (reads_utf8 Str ENotUtf8 s (zlen s) Hu eq_refl) as Hs.
  destruct (Z.ltb_spec (zlen s) 32).
  - destruct (land_str_marker (zlen s)) as [-> HL]; [lia|].
    marker. rewrite HL. exact Hs.
  - destruct (Z.ltb_spec (zlen s) 0x100); [|destruct (Z.ltb_spec (zlen s) 0x10000)]; marker.
    + apply (reads_bind _ _ [zlen s] s (zlen s)); [apply reads_u8|done].
    + eapply reads_bind; [apply reads_u16; lia|done].
    + eapply reads_bind; [apply reads_u32; lia|done].
Qed.

Lemma reads_dv_bin k b : short b → reads (read_dv_levels (S k)) (write_bin b) (Bytes_ b).
Proof.
  intros Hl. unfold short in Hl. unfold write_bin. cbv zeta. simpl read_dv_levels.
  pose proof (zlen_nonneg b) as H0. change (Z.of_nat (length b)) with (zlen b) in Hl.
  assert (reads (read_bytes_dv (zlen b)) b (Bytes_ b)) as Hb
    by (by apply reads_bind_ret, reads_take).
  destruct (Z.ltb_spec (zlen b) 0x100); [|destruct (Z.ltb_spec (zlen b) 0x10000)]; marker.
  - apply (reads_bind _ _ [zlen b] b (zlen b)); [apply reads_u8|done].
  - eapply reads_bind; [apply reads_u16; lia|done].
  - eapply reads_bind; [apply reads_u32; lia|done].
Qed.

(** An ext payload behind any of the header forms. *)
Lemma reads_dv_ext k ty payload v : short payload →
  reads (read_ext (zlen payload)) (ty mod 256 :: payload) v →
  reads (read_dv_levels (S k)) (write_ext ty payload) v.
Proof.
  intros Hl Hr. unfold short in Hl. unfold write_ext. cbv zeta. simpl read_dv_levels.
  pose proof (zlen_nonneg payload) as H0.
  change (Z.of_nat (length payload)) with (zlen payload) in Hl.
  size_class; try lia; marker;
    try (match goal with H : zlen payload = _ |- _ => by rewrite <- H end).
  - apply (reads_bind _ _ [zlen payload] _ (zlen payload)); [apply reads_u8|done].
  - eapply reads_bind; [apply reads_u16; lia|done].
  - eapply reads_bind; [apply reads_u32; lia|done].
Qed.

Lemma reads_ext_big s : wf_str s → reads (read_ext (zlen s)) (1 :: s) (BigInt s).
Proof.
  intros [Hu _]. unfold read_ext. apply reads_marker.
  eapply reads_bind_end; [by apply reads_take|]. cbn. rewrite Hu. apply reads_ret.
Qed.

Lemma reads_ext_decimal s : wf_str s → reads (read_ext (zlen s)) (2 :: s) (Decimal s).
Proof.
  intros [Hu _]. unfold read_ext. apply reads_marker.
  eapply reads_bind_end; [by apply reads_take|]. cbn. rewrite Hu. apply reads_ret.
Qed.

Lemma reads_ext_resource id s : is_u64 id → utf8_valid s = true →
  reads (read_ext (zlen (le_bytes 8 id ++ s))) (3 :: le_bytes 8 id ++ s) (Resource id s).
Proof.
  intros Hid Hu. unfold read_ext. apply reads_marker.
  eapply reads_bind_end; [by apply reads_take|].
  change (as_signed 8 3) with 3. cbv zeta.
  assert (zlen (le_bytes 8 id ++ s) = 8 + zlen s) as ->
    by (unfold zlen; rewrite length_app, length_le_bytes; lia).
  pose proof (zlen_nonneg s). zcase.
  rewrite take_app_length', drop_app_length' by (symmetry; apply length_le_bytes).
  rewrite Hu, le_val_bytes by (unfold is_u64 in Hid; exact Hid). apply reads_ret.
Qed.

(** Container headers. *)
Lemma reads_dv_list k n bs F : 0 ≤ n < 2 ^ 32 →
  runs (read_list (read_dv_levels k) n) bs F →
  runs (read_dv_levels (S k)) (write_array_header n ++ bs) F.
Proof.
  intros Hn Hr. unfold write_array_header. simpl read_dv_levels.
  destruct (Z.ltb_spec n 16).
  - destruct (land_marker 0x90 n) as [-> HL]; [done|lia|lia|]. marker. by rewrite HL.
  - destruct (Z.ltb_spec n 0x10000); marker;
      (eapply reads_bind; [first [apply reads_u16; lia|apply reads_u32; lia]|done]).
Qed.

Lemma reads_dv_map k n bs F : 0 ≤ n < 2 ^ 32 →
  runs (read_map (read_dv_levels k) n) bs F →
  runs (read_dv_levels (S k)) (write_map_header n ++ bs) F.
Proof.
  intros Hn Hr. unfold write_map_header. simpl read_dv_levels.
  destruct (Z.ltb_spec n 16).
  - destruct (land_marker 0x80 n) as [-> HL]; [done|lia|lia|]. marker. by rewrite HL.
  - destruct (Z.ltb_spec n 0x10000); marker;
      (eapply reads_bind; [first [apply reads_u16; lia|apply reads_u32; lia]|done]).
Qed.

(** Every value within the depth budget is read back from its encoding. *)
Lemma reads_dv_levels v k : wf_dv v → (dv_depth v ≤ k)%nat →
  reads (read_dv_levels (S k)) (write_dv v) v.
Proof.
  revert k. induction v as [| [] | | | f | | | | l IH | l IH | ] using DataValue_ind';
    intros k Hwf Hd; cbn [write_dv].
  - simpl read_dv_levels. marker. apply reads_ret.
  - simpl read_dv_levels. marker. apply reads_ret.
  - simpl read_dv_levels. marker. apply reads_ret.
  - by apply reads_int.
  - apply reads_dv_ext; [apply Hwf|]. by apply reads_ext_big.
  - simpl read_dv_levels. marker. by apply reads_bind_ret, reads_u64.
  - apply reads_dv_ext; [apply Hwf|]. by apply reads_ext_decimal.
  - by apply reads_dv_str.
  - apply reads_dv_bin, Hwf.
  - apply wf_dv_List in Hwf as [Hs Hwf]. apply dv_depth_List in Hd.
    apply reads_dv_list; [by apply short_range|]. apply reads_bind_ret.
    apply reads_n_len; [done|].
    rewrite Forall_forall in *. intros x Hx. specialize (Hd x Hx).
    destruct k as [|k]; [lia|]. apply IH; [done|by apply Hwf|lia].
  - apply wf_dv_Map in Hwf as [Hs Hwf]. apply dv_depth_Map in Hd.
    apply reads_dv_map; [by apply short_range|]. apply reads_bind_ret.
    apply (reads_n_len _ (λ kv, write_str kv.1 ++ write_dv kv.2)); [done|].
    rewrite Forall_forall in *. intros [s x] Hx. specialize (Hd _ Hx).
    destruct (Hwf _ Hx) as [Hk Hv]. simpl in *.
    destruct k as [|k]; [lia|].
    eapply reads_bind; [by apply reads_dv_str|].
    apply reads_bind_ret, (IH _ Hx); [done|simpl; lia].
  - destruct Hwf as (Hi & Hu & Hs). apply reads_dv_ext.
    + unfold short. rewrite length_app, length_le_bytes. lia.
    + by apply reads_ext_resource.
Qed.

Lemma reads_dv v : ok_dv v → reads (read_dv 0) (write_dv v) v.
Proof. intros [? ?]. by apply reads_dv_levels. Qed.

Lemma write_dv_start v : v ≠ Null → is_i64 (match v with Int i => i | _ => 0 end) →
  not_nil_start (write_dv v).
Proof.
  intros Hv Hi. unfold is_i64 in Hi.
  destruct v as [|[]|i|s|f|s|s|b|l|l|i s]; try done; cbn [write_dv];
    try apply write_str_start.
  - unfold write_int, write_uint. size_class; simpl; try lia. zdiv.
  - unfold write_ext. cbv zeta. size_class; simpl; lia.
  - unfold write_ext. cbv zeta. size_class; simpl; lia.
  - unfold write_bin. cbv zeta. size_class; simpl; lia.
  - unfold write_array_header. pose proof (zlen_nonneg l). destruct (Z.ltb_spec (zlen l) 16).
    + destruct (land_marker 0x90 (zlen l)) as [-> _]; [done|lia|lia|]. simpl. lia.
    + size_class; simpl; lia.
  - unfold write_map_header. pose proof (zlen_nonneg l). destruct (Z.ltb_spec (zlen l) 16).
    + destruct (land_marker 0x80 (zlen l)) as [-> _]; [done|lia|lia|]. simpl. lia.
    + size_class; simpl; lia.
  - unfold write_ext. cbv zeta. size_class; simpl; lia.
Qed.

Lemma reads_opt_dv o : wf_opt ok_dv o → reads read_opt_dv (write_opt_dv o) (norm_opt o).
Proof.
  destruct o as [v|]; [|by intros _ rest]. intros Hv.
  assert (v = Null ∨ v ≠ Null) as [->|Hn] by (destruct v; auto); [by intros rest|].
  assert (write_opt_dv (Some v) = write_dv v ∧ norm_opt (Some v) = Some v) as [-> ->]
    by (by destruct v).
  intros rest. unfold read_opt_dv.
  rewrite next_is_nil_app; [by apply (reads_bind_ret _ Some), reads_dv|].
  apply write_dv_start; [done|]. destruct Hv as [Hv _].
  destruct v; simpl in Hv; try done; unfold is_i64; lia.
Qed.

(** ** Skipping what this version does not know *)

Lemma reads_skip n bs : zlen bs = n → reads (skip_bytes n) bs ().
Proof. intros. apply (reads_bind_ret _ (λ _, ()) bs bs). by apply reads_take. Qed.

Lemma reads_skip_n {A} (r : rd ()) (w : A → list Z) (xs : list A) n :
  n = zlen xs → Forall (λ x, reads r (w x) ()) xs → reads (skip_n r n) (write_all w xs) ().
Proof.
  intros -> H. unfold skip_n, zlen. rewrite Nat2Z.id.
  apply (reads_bind_end _ _ _ (replicate (length xs) ())); [|apply reads_ret].
  induction H as [|x xs Hx _ IH]; [apply reads_ret|].
  unfold write_all. simpl. eapply reads_bind; [done|]. by apply reads_bind_ret.
Qed.

Ltac skip_marker := cbn [app]; apply reads_marker; unfold skip_marker, in_range; zcase.

Lemma skips_str k s : wf_str s → reads (skip_levels (S k)) (write_str s) ().
Proof.
  intros [_ Hl]. unfold short in Hl. unfold write_str. cbv zeta. simpl skip_levels.
  pose proof (zlen_nonneg s) as H0. change (Z.of_nat (length s)) with (zlen s) in Hl.
  destruct (Z.ltb_spec (zlen s) 32).
  - destruct (land_str_marker (zlen s)) as [-> HL]; [lia|].
    skip_marker. rewrite HL. by apply reads_skip.
  - destruct (Z.ltb_spec (zlen s) 0x100); [|destruct (Z.ltb_spec (zlen s) 0x10000)]; skip_marker.
    + apply (reads_bind _ _ [zlen s] s (zlen s)); [apply reads_u8|by apply reads_skip].
    + eapply reads_bind; [apply reads_u16; lia|by apply reads_skip].
    + eapply reads_bind; [apply reads_u32; lia|by apply reads_skip].
Qed.

Lemma skips_bin k b : short b → reads (skip_levels (S k)) (write_bin b) ().
Proof.
  intros Hl. unfold short in Hl. unfold write_bin. cbv zeta. simpl skip_levels.
  pose proof (zlen_nonneg b) as H0. change (Z.of_nat (length b)) with (zlen b) in Hl.
  destruct (Z.ltb_spec (zlen b) 0x100); [|destruct (Z.ltb_spec (zlen b) 0x10000)]; skip_marker.
  - apply (reads_bind _ _ [zlen b] b (zlen b)); [apply reads_u8|by apply reads_skip].
  - eapply reads_bind; [apply reads_u16; lia|by apply reads_skip].
  - eapply reads_bind; [apply reads_u32; lia|by apply reads_skip].
Qed.

Lemma skips_ext k ty p : short p → reads (skip_levels (S k)) (write_ext ty p) ().
Proof.
  intros Hl. unfold short in Hl. unfold write_ext. cbv zeta. simpl skip_levels.
  pose proof (zlen_nonneg p) as H0. change (Z.of_nat (length p)) with (zlen p) in Hl.
  assert (∀ n, n = zlen p → reads (skip_bytes (1 + n)) (ty mod 256 :: p) ()) as Hp.
  { intros n ->. apply reads_skip. unfold zlen. simpl. lia. }
  size_class; try lia; skip_marker; try (by apply Hp).
  - apply (reads_bind _ _ [zlen p] _ (zlen p)); [apply reads_u8|by apply Hp].
  - eapply reads_bind; [apply reads_u16; lia|by apply Hp].
  - eapply reads_bind; [apply reads_u32; lia|by apply Hp].
Qed.

Lemma skips_int k i : is_i64 i → reads (skip_levels (S k)) (write_int i) ().
Proof.
  intros Hi. unfold is_i64 in Hi. unfold write_int, write_uint. simpl skip_levels.
  repeat match goal with
  | |- context [if ?a <=? ?b then _ else _] => destruct (Z.leb_spec a b)
  end; try (assert (224 ≤ i mod 256 ≤ 255) by zdiv);
  skip_marker; try apply reads_ret; by apply reads_skip.
Qed.

Lemma skips_array k n bs : 0 ≤ n < 2 ^ 32 →
  reads (skip_n (skip_levels k) n) bs () →
  reads (skip_levels (S k)) (write_array_header n ++ bs) ().
Proof.
  intros Hn Hr. unfold write_array_header. simpl skip_levels.
  destruct (Z.ltb_spec n 16).
  - destruct (land_marker 0x90 n) as [-> HL]; [done|lia|lia|]. skip_marker. by rewrite HL.
  - destruct (Z.ltb_spec n 0x10000); skip_marker;
      (eapply reads_bind; [first [apply reads_u16; lia|apply reads_u32; lia]|done]).
Qed.

Lemma skips_map k n bs : 0 ≤ n < 2 ^ 32 →
  reads (skip_n (skip_levels k) (2 * n)) bs () →
  reads (skip_levels (S k)) (write_map_header n ++ bs) ().
Proof.
  intros Hn Hr. unfold write_map_header. simpl skip_levels.
  destruct (Z.ltb_spec n 16).
  - destruct (land_marker 0x80 n) as [-> HL]; [done|lia|lia|]. skip_marker. by rewrite HL.
  - destruct (Z.ltb_spec n 0x10000); skip_marker;
      (eapply reads_bind; [first [apply reads_u16; lia|apply reads_u32; lia]|done]).
Qed.

(** A map body is twice as many values: keys and values in turn. *)
Lemma skips_entries (r : rd ()) (l : list (rstr * DataValue)) :
  Forall (λ kv, reads r (write_str kv.1) () ∧ reads r (write_dv kv.2) ()) l →
  reads (skip_n r (2 * zlen l)) (concat (map (λ kv, write_str kv.1 ++ write_dv kv.2) l)) ().
Proof.
  intros H. set (ws := concat (map (λ kv, [write_str kv.1; write_dv kv.2]) l)).
  assert (concat (map (λ kv, write_str kv.1 ++ write_dv kv.2) l) = write_all id ws) as ->.
  { unfold write_all, ws. rewrite map_id. induction l as [|kv l IH]; [done|].
    inversion H; subst. simpl. by rewrite IH, <- app_assoc. }
  apply reads_skip_n.
  - unfold ws, zlen. clear H ws. induction l as [|kv l IH]; simpl in *; lia.
  - unfold ws. clear ws. induction H as [|kv l [] _ IH]; simpl; [constructor|]. by repeat constructor.
Qed.

Lemma skips_dv_levels v k : wf_dv v → (dv_depth v ≤ k)%nat →
  reads (skip_levels (S k)) (write_dv v) ().
Proof.
  revert k. induction v as [| [] | | | f | | | | l IH | l IH | ] using DataValue_ind';
    intros k Hwf Hd; cbn [write_dv].
  - simpl skip_levels. skip_marker. apply reads_ret.
  - simpl skip_levels. skip_marker. apply reads_ret.
  - simpl skip_levels. skip_marker. apply reads_ret.
  - by apply skips_int.
  - apply skips_ext, Hwf.
  - simpl skip_levels. skip_marker. by apply reads_skip.
  - apply skips_ext, Hwf.
  - by apply skips_str.
  - apply skips_bin, Hwf.
  - apply wf_dv_List in Hwf as [Hs Hwf]. apply dv_depth_List in Hd.
    apply skips_array; [by apply short_range|]. apply reads_skip_n; [done|].
    rewrite Forall_forall in *. intros x Hx. specialize (Hd x Hx).
    destruct k as [|k]; [lia|]. apply IH; [done|by apply Hwf|lia].
  - apply wf_dv_Map in Hwf as [Hs Hwf]. apply dv_depth_Map in Hd.
    apply skips_map; [by apply short_range|]. apply skips_entries.
    rewrite Forall_forall in *. intros [s x] Hx. specialize (Hd _ Hx).
    destruct (Hwf _ Hx) as [Hk Hv]. simpl in *.
    destruct k as [|k]; [lia|]. split; [by apply skips_str|].
    apply (IH _ Hx); [done|simpl; lia].
  - destruct Hwf as (Hi & Hu & Hs). apply skips_ext.
    unfold short. rewrite length_app, length_le_bytes. lia.
Qed.

Lemma reads_skip_extra xs : Forall ok_dv xs →
  reads (skip_extra (zlen xs)) (write_all write_dv xs) ().
Proof.
  intros H. apply reads_skip_n; [done|]. eapply Forall_impl; [done|].
  intros v [? ?]. by apply skips_dv_levels.
Qed.

Lemma reads_skip_none : reads (skip_extra 0) [] ().
Proof. apply (reads_skip_extra []). constructor. Qed.
