(* ===== verification/WireProps.v ===== *)
(** * WireProps: whole-frame properties of the extension protocol codec

    Round trips of complete frames, forward compatibility with appended fields, backward
    compatibility with peers that omit them, and the nesting limit. *)
From stdpp Require Import base numbers list strings.
From stdpp Require Import options.
From S2P Require Import Prelude WireModel WireCodec WireRoundtrip.
Local Open Scope Z_scope.

(** A frame as a newer peer sends it: the fields this version knows, then fields it does not. *)
Definition encode_extended (m : Msg) (meta : option ReplyMeta) (xs : list DataValue) : list Z :=
  write_array_header (msg_arity m + meta_n m meta + zlen xs) ++ write_uint (msg_tag m)
  ++ write_fields m ++ write_meta m meta ++ write_all write_dv xs.

(** Appended fields come after every known one, so a frame with extras carries the meta. *)
Definition extendable (m : Msg) (meta : option ReplyMeta) (xs : list DataValue) : Prop :=
  is_terminal m = true → meta = None → xs = [].

(** ** Composite fields *)

Lemma reads_need f e what : e ≤ f → reads (need f e what) [] (f - e).
Proof. intros H. unfold need. zcase. apply reads_ret. Qed.

Lemma reads_bind_need {B} f e what (k : Z → rd B) bs b :
  e ≤ f → reads (k (f - e)) bs b → reads (need f e what ≫= k) bs b.
Proof. intros He Hk. eapply reads_bind_pure; [by apply reads_need|done]. Qed.

Lemma reads_bind_str_vec {B} xs (k : list rstr → rd B) bs b :
  wf_strs xs → reads (k xs) bs b →
  reads (read_str_vec ≫= k) (write_array_header (zlen xs) ++ write_all write_str xs ++ bs) b.
Proof.
  intros Hx Hk. rewrite app_assoc. eapply reads_bind; [by apply reads_str_vec|done].
Qed.

(** A counted loop whose header is read by its own bind. *)
Lemma reads_bind_vec {A B} (r : rd A) (w : A → list Z) xs (k : list A → rd B) bs b :
  short xs → Forall (λ x, reads r (w x) x) xs → reads (k xs) bs b →
  reads (n ← read_array_header; ys ← read_n r (Z.to_nat n); k ys)
        (write_array_header (zlen xs) ++ write_all w xs ++ bs) b.
Proof.
  intros Hs Hx Hk. eapply reads_bind; [by apply reads_header, short_range|].
  eapply reads_bind; [by apply reads_n_len|done].
Qed.

Lemma reads_arrow a : wf_arrow a → reads read_arrow (write_arrow a) a.
Proof.
  intros (Hl & Hs & _). unfold read_arrow, write_arrow.
  eapply reads_bind; [apply reads_header; lia|].
  apply reads_bind_need; [lia|].
  eapply reads_bind; [apply reads_uint; by destruct (dtype a)|].
  apply (reads_bind_pure _ _ _ (dtype a)); [destruct (dtype a); apply reads_ret|].
  eapply reads_bind; [by apply reads_uint|].
  eapply reads_bind_end; [by apply reads_bin|].
  eapply reads_bind_pure; [apply reads_skip_none|].
  destruct a. apply reads_ret.
Qed.

Lemma reads_arg a : wf_arg a → reads read_arg (write_arg a) a.
Proof.
  intros Ha. unfold read_arg, write_arg.
  eapply reads_bind; [apply reads_header; lia|].
  apply reads_bind_need; [lia|].
  destruct a; (eapply reads_bind; [by apply reads_uint|]); zcase;
    (eapply reads_bind_end;
      [apply reads_bind_ret; first [by apply reads_dv|by apply reads_uint|by apply reads_arrow]|]);
    (eapply reads_bind_pure; [apply reads_skip_none|apply reads_ret]).
Qed.

Lemma reads_class_decl c : wf_class_decl c → reads read_class_decl (write_class_decl c) c.
Proof.
  intros (Hn & Hi & Hc). unfold read_class_decl, write_class_decl.
  eapply reads_bind; [apply reads_header; lia|].
  apply reads_bind_need; [lia|].
  eapply reads_bind; [by apply reads_str_raw|].
  apply reads_bind_str_vec; [done|].
  eapply reads_bind_end; [by apply reads_str_vec|].
  eapply reads_bind_pure; [apply reads_skip_none|].
  destruct c. apply reads_ret.
Qed.

Lemma Forall_reads {A} (P : A → Prop) (r : rd A) (w : A → list Z) xs :
  (∀ x, P x → reads r (w x) x) → Forall P xs → Forall (λ x, reads r (w x) x) xs.
Proof. intros H Hx. by eapply Forall_impl; [|apply H]. Qed.

Lemma reads_call c : wf_call c →
  ∃ c', norm_msg (Call c) = Call c' ∧ reads read_call (write_fields (Call c)) c'.
Proof.
  intros (H1 & H2 & H3 & H4 & H5 & [H6 H6'] & H7 & H8 & H9 & [H10 H10']).
  eexists; split; [reflexivity|]. cbn [write_fields]. unfold read_call.
  eapply reads_bind; [by apply reads_str|].
  eapply reads_bind; [by apply reads_str|].
  do 3 (eapply reads_bind; [by apply reads_u64_vec|]).
  eapply reads_bind_vec; [done|by eapply Forall_reads; [apply reads_arrow|]|].
  eapply reads_bind; [by apply reads_opt_dv|].
  eapply reads_bind; [by apply reads_str|].
  eapply reads_bind; [by apply reads_uint|].
  rewrite <- (app_nil_r (write_all write_arg _)).
  eapply reads_bind_vec; [done|by eapply Forall_reads; [apply reads_arg|]|].
  apply reads_ret.
Qed.

(** ** Frame tails *)

Lemma reads_finish m xs : Forall ok_dv xs →
  reads (finish m (zlen xs)) (write_all write_dv xs) (m, meta_default).
Proof.
  intros H. eapply reads_bind_end; [by apply reads_skip_extra|apply reads_ret].
Qed.

Lemma reads_finish_terminal m m' meta xs :
  is_terminal m = true → wf_opt wf_meta meta → Forall ok_dv xs → extendable m meta xs →
  reads (finish_terminal m' (meta_n m meta + zlen xs)) (write_meta m meta ++ write_all write_dv xs)
        (m', norm_meta m meta).
Proof.
  intros Ht Hm Hx He. unfold finish_terminal, write_meta, norm_meta, meta_n, read_appended_u64.
  rewrite Ht. destruct meta as [mt|].
  - cbn [default from_option id]. rewrite Z.eqb_refl. pose proof (zlen_nonneg xs).
    zcase. eapply reads_bind.
    + eapply reads_bind_end; [by apply reads_uint|apply reads_ret].
    + cbv beta iota. replace (1 + zlen xs - 1) with (zlen xs) by lia.
      eapply reads_bind_end; [by apply reads_skip_extra|]. destruct mt. apply reads_ret.
  - rewrite (He Ht eq_refl). unfold write_all. simpl.
    eapply reads_bind_pure; [apply reads_ret|]. cbv beta iota.
    eapply reads_bind_pure; [apply reads_skip_none|apply reads_ret].
Qed.

Lemma reads_appended_str {B} s extra (k : rstr * Z → rd B) bs b :
  wf_str s → 0 < extra → reads (k (s, extra - 1)) bs b →
  reads (read_appended_str extra ≫= k) (write_str s ++ bs) b.
Proof.
  intros Hs He Hk. unfold read_appended_str. zcase. eapply reads_bind; [|done].
  eapply reads_bind_end; [by apply reads_str|apply reads_ret].
Qed.

Lemma reads_appended_u64 {B} v extra (k : Z * Z → rd B) bs b :
  is_u64 v → 0 < extra → reads (k (v, extra - 1)) bs b →
  reads (read_appended_u64 extra ≫= k) (write_uint v ++ bs) b.
Proof.
  intros Hs He Hk. unfold read_appended_u64. zcase. eapply reads_bind; [|done].
  eapply reads_bind_end; [by apply reads_uint|apply reads_ret].
Qed.

Lemma reads_version v : is_u32 v → reads read_version (write_uint v) v.
Proof.
  intros Hv. unfold is_u32 in Hv. unfold read_version.
  eapply reads_bind_end; [apply reads_uint; unfold is_u64; lia|]. zcase. apply reads_ret.
Qed.

(** ** One arm per message *)

(** Select the arm of the frame type. *)
Ltac frame_arm :=
  unfold read_frame_body, read_op_body;
  cbv delta [T_CALL T_CALL_RETURN T_CALL_RETURN_ERROR T_CALL_RETURN_RESOURCE
    T_CALL_RETURN_ARRAY T_CALL_RETURN_DATA T_CALL_RETURN_HANDLE T_GET_MANIFEST
    T_MANIFEST_RETURN T_MAKE_STRING T_HANDLE_TO_STRING T_RETAIN T_RELEASE
    T_CALL_METHOD_ON_HANDLE T_INVOKE_BLOCK T_INVOKE_BLOCK_RETURN T_GET_GLOBAL T_MAKE_VALUE
    T_READ_HANDLE T_READ_HANDLE_RETURN T_HOST_OP_RETURN T_CALL_RETURN_CHANNEL T_CHAN
    T_CALL_RETURN_RESOURCE_DECL];
  zcase.

Lemma u8_u64 v : is_u8 v → is_u64 v.
Proof. unfold is_u8, is_u64. lia. Qed.

#[export] Hint Resolve u8_u64 reads_str reads_opt_str reads_opt_dv reads_u64_vec reads_dv reads_arrow
  reads_version : wire.

(** Consume the next field of the frame. *)
Ltac field :=
  first
    [ apply reads_bind_need; [lia|]
    | apply reads_appended_str; [done|lia|]
    | apply reads_appended_u64; [unfold is_u64, is_u32 in *; lia|lia|]
    | apply reads_bind_str_vec; [done|]
    | eapply reads_bind_vec;
      [done|eapply Forall_reads; [first [apply reads_u64_vec|apply reads_class_decl]|done]|]
    | eapply reads_bind; [solve [auto with wire]|] ].

(** Close the arm with the frame's tail. *)
Ltac frame_end :=
  first
    [ match goal with |- reads (finish _ ?e) _ _ =>
        let E := fresh in
        match goal with |- context [write_all write_dv ?xs] =>
          assert (e = zlen xs) as E by lia; rewrite E; by apply reads_finish end end
    | match goal with |- reads (finish_terminal _ ?e) _ _ =>
        let E := fresh in
        match goal with |- context [write_meta ?m ?mt ++ write_all write_dv ?xs] =>
          assert (e = meta_n m mt + zlen xs) as E by lia; rewrite E;
          by apply reads_finish_terminal end end ].

Lemma reads_terminal_body m meta xs :
  is_terminal m = true → wf_msg m → wf_opt wf_meta meta → Forall ok_dv xs →
  extendable m meta xs →
  reads (read_frame_body (msg_tag m) (msg_arity m + meta_n m meta + zlen xs - 1))
        (write_fields m ++ write_meta m meta ++ write_all write_dv xs)
        (m, norm_meta m meta).
Proof.
  intros Ht Hwf Hm Hx He. pose proof (zlen_nonneg xs) as Hn.
  assert (0 ≤ meta_n m meta) by (unfold meta_n; rewrite Ht; destruct meta; lia).
  destruct m; try discriminate Ht; cbn [msg_tag msg_arity write_fields write_op_fields];
    simpl in Hwf; deex; rewrite <- ?app_assoc; frame_arm; repeat field; frame_end.
Qed.

Lemma reads_plain_body m xs :
  is_terminal m = false → wf_msg m → Forall ok_dv xs →
  reads (read_frame_body (msg_tag m) (msg_arity m + zlen xs - 1))
        (write_fields m ++ write_all write_dv xs)
        (norm_msg m, meta_default).
Proof.
  intros Ht Hwf Hx. pose proof (zlen_nonneg xs) as Hn.
  destruct m; try discriminate Ht; cbn [msg_tag msg_arity].
  1: { destruct (reads_call c Hwf) as (c' & -> & Hc). frame_arm.
       field. eapply reads_bind; [done|]. frame_end. }
  all: cbn [write_fields write_op_fields norm_msg]; simpl in Hwf; deex; rewrite <- ?app_assoc; frame_arm;
    repeat field; rewrite ?Z.mod_small by assumption; frame_end.
Qed.

Lemma msg_tag_range m : is_u64 (msg_tag m).
Proof. by destruct m. Qed.

Lemma msg_arity_range m meta : 2 ≤ msg_arity m + meta_n m meta ≤ 12.
Proof. unfold meta_n. destruct m, meta; simpl; lia. Qed.

Lemma reads_frame m meta xs :
  wf_msg m → wf_opt wf_meta meta → Forall ok_dv xs → extendable m meta xs →
  zlen xs < 2 ^ 31 →
  reads read_frame (encode_extended m meta xs) (norm_msg m, norm_meta m meta).
Proof.
  intros Hwf Hm Hx He Hn. unfold read_frame, encode_extended.
  pose proof (zlen_nonneg xs). pose proof (msg_arity_range m meta).
  eapply reads_bind; [apply reads_header; lia|]. zcase.
  eapply reads_bind; [apply reads_uint, msg_tag_range|].
  destruct (is_terminal m) eqn:Ht.
  - replace (norm_msg m) with m by (by destruct m). by apply reads_terminal_body.
  - unfold norm_meta, write_meta, meta_n. rewrite Ht.
    assert ((match meta with Some mt => if 0 =? 1 then write_uint (handler_micros mt) else []
             | None => [] end) = []) as -> by (by destruct meta).
    rewrite Z.add_0_r. by apply reads_plain_body.
Qed.

Lemma decode_reads bs r : reads read_frame bs r → decode_frame_with_meta bs = Ok r.
Proof. intros H. unfold decode_frame_with_meta. by rewrite (reads_nil _ _ _ H). Qed.

Lemma encode_extended_nil m meta : encode_with_meta m meta = encode_extended m meta [].
Proof.
  unfold encode_with_meta, encode_extended, write_all, zlen. simpl.
  by rewrite app_nil_r, Z.add_0_r.
Qed.

(** ** Readers never look past what they consume *)

(** A reader that succeeds on a prefix gives the same answer when more bytes follow. *)
Class Mono {A} (r : rd A) : Prop :=
  mono : ∀ bs a rest s, r bs = Ok (a, rest) → r (bs ++ s) = Ok (a, rest ++ s).

#[export] Instance mono_ret {A} (a : A) : Mono (mret a : rd A).
Proof. intros bs x rest s H. unfold mret, rd_ret in *. by simplify_eq. Qed.

#[export] Instance mono_fail {A} e : Mono (fail e : rd A).
Proof. by intros bs x rest s H. Qed.

#[export] Instance mono_bind {A B} (r : rd A) (k : A → rd B) :
  Mono r → (∀ a, Mono (k a)) → Mono (r ≫= k).
Proof.
  unfold Mono. intros Hr Hk bs b rest s. unfold mbind, rd_bind.
  destruct (r bs) as [[a bs']|] eqn:E; [|done]. intros H.
  rewrite (Hr _ _ _ s E). by apply Hk.
Qed.

#[export] Instance mono_if {A} (b : bool) (r1 r2 : rd A) :
  Mono r1 → Mono r2 → Mono (if b then r1 else r2).
Proof. by destruct b. Qed.

#[export] Instance mono_let {A B C} (p : B * C) (k : B → C → rd A) :
  (∀ b c, Mono (k b c)) → Mono (let '(b, c) := p in k b c).
Proof. destruct p. auto. Qed.

#[export] Instance mono_take n : Mono (take_ n).
Proof.
  intros bs a rest s. unfold take_, zlen.
  destruct (Z.ltb_spec (Z.of_nat (length bs)) n); [done|]. intros H0. simplify_eq.
  rewrite length_app. zcase.
  rewrite take_app_le, drop_app_le by lia. done.
Qed.

#[export] Instance mono_read_n {A} (r : rd A) n : Mono r → Mono (read_n r n).
Proof. intros Hr. induction n as [|n IH]; simpl; apply _. Qed.

(** A nil-or-value position. *)
Lemma mono_nil {A} (r : rd (option A)) :
  Mono r → (∀ e, r [] ≠ Ok e) →
  Mono (λ bs, if next_is_nil bs then Ok (None, drop 1 bs) else r bs).
Proof.
  intros Hr Hn [|b bs] a rest s; simpl.
  - intros H. by destruct (Hn _ H).
  - case_match; [intros; by simplify_eq|apply (mono (b :: bs))].
Qed.

Lemma take_u8_nil : take_u8 [] = Err ETruncated.
Proof. done. Qed.

#[export] Instance mono_opt_str : Mono read_opt_str.
Proof. apply mono_nil; [apply _|done]. Qed.

#[export] Instance mono_read_entry (r : rd DataValue) : Mono r → Mono (read_entry r).
Proof. intros Hr. unfold read_entry. apply mono_bind; [done|]. intros []; apply _. Qed.

#[export] Instance mono_read_dv_levels k : Mono (read_dv_levels k).
Proof.
  induction k as [|k IH]; simpl; [apply _|].
  apply mono_bind; [apply _|]. intros m. unfold read_dv_marker, read_str_dv, read_bytes_dv,
    read_list, read_map, read_ext. cbv zeta. apply _.
Qed.

#[export] Instance mono_opt_dv : Mono read_opt_dv.
Proof. apply mono_nil; [unfold read_dv; apply _|done]. Qed.

#[export] Instance mono_skip_levels k : Mono (skip_levels k).
Proof.
  induction k as [|k IH]; simpl; [apply _|].
  apply mono_bind; [apply _|]. intros m. unfold skip_marker, skip_bytes, skip_n. apply _.
Qed.

#[export] Instance mono_arrow : Mono read_arrow.
Proof. unfold read_arrow, need, skip_extra, skip_n, skip_value. apply _. Qed.

#[export] Instance mono_arg : Mono read_arg.
Proof. unfold read_arg, need, skip_extra, skip_n, skip_value, read_dv. apply _. Qed.

#[export] Instance mono_class_decl : Mono read_class_decl.
Proof. unfold read_class_decl, need, skip_extra, skip_n, skip_value, read_str_vec. apply _. Qed.

#[export] Instance mono_call : Mono read_call.
Proof. unfold read_call. apply _. Qed.

#[export] Instance mono_frame : Mono read_frame.
Proof.
  unfold read_frame, read_frame_body, read_op_body, need, finish, finish_terminal, read_appended_str,
    read_appended_u64, skip_extra, skip_n, skip_value, read_dv, read_version.
  apply _.
Qed.

(** ** Values nested past the decoder's limit *)

Lemma too_deep_bind_here {A B} (r : rd A) (k : A → rd B) bs1 bs2 :
  too_deep r bs1 → too_deep (r ≫= k) (bs1 ++ bs2).
Proof. intros H rest. unfold mbind, rd_bind. by rewrite <- app_assoc, H. Qed.

Lemma too_deep_bind_end {A B} (r : rd A) (k : A → rd B) bs :
  too_deep r bs → too_deep (r ≫= k) bs.
Proof. intros H. rewrite <- (app_nil_r bs). by apply too_deep_bind_here. Qed.

Lemma too_deep_n {A} (r : rd A) (w : A → list Z) xs :
  Forall (λ x, reads r (w x) x ∨ too_deep r (w x)) xs → Exists (λ x, too_deep r (w x)) xs →
  too_deep (read_n r (length xs)) (write_all w xs).
Proof.
  intros Hall Hex. induction Hall as [|x xs [Hx|Hx] _ IH]; [by inversion Hex| |].
  - inversion Hex as [? ? Hd|? ? Hd]; subst; unfold write_all; simpl.
    + by apply too_deep_bind_here.
    + eapply reads_bind; [done|]. by apply too_deep_bind_end, IH.
  - unfold write_all; simpl. by apply too_deep_bind_here.
Qed.

Lemma too_deep_n_len {A} (r : rd A) (w : A → list Z) xs n :
  n = zlen xs → Forall (λ x, reads r (w x) x ∨ too_deep r (w x)) xs →
  Exists (λ x, too_deep r (w x)) xs → too_deep (read_n r (Z.to_nat n)) (write_all w xs).
Proof. intros -> H1 H2. unfold zlen. rewrite Nat2Z.id. by apply too_deep_n. Qed.

Lemma dv_depth_List_ge l n : (S n ≤ dv_depth (List l))%nat → Exists (λ x, n ≤ dv_depth x)%nat l.
Proof.
  simpl. induction l as [|x l IH]; simpl; [lia|]. intros H.
  destruct (decide (n ≤ dv_depth x)%nat); [by left|]. right. apply IH. lia.
Qed.

Lemma dv_depth_Map_ge l n :
  (S n ≤ dv_depth (Map l))%nat → Exists (λ kv, n ≤ dv_depth kv.2)%nat l.
Proof.
  simpl. induction l as [|x l IH]; simpl; [lia|]. intros H.
  destruct (decide (n ≤ dv_depth x.2)%nat); [by left|]. right. apply IH. lia.
Qed.

(** With fewer levels left than the value has, decoding reports the nesting error. *)
Lemma too_deep_levels v k : wf_dv v → (k ≤ dv_depth v)%nat →
  too_deep (read_dv_levels k) (write_dv v).
Proof.
  revert k. induction v as [| | | | | | | |l IH|l IH|] using DataValue_ind';
    intros [|k] Hwf Hd; try (by intros rest); try (simpl in Hd; lia).
  - apply wf_dv_List in Hwf as [Hs Hwf]. cbn [write_dv].
    apply reads_dv_list; [by apply short_range|]. apply too_deep_bind_end.
    rewrite Forall_forall in IH, Hwf. apply too_deep_n_len; [done|..].
    + apply Forall_forall. intros x Hx. destruct (decide (k ≤ dv_depth x)%nat).
      * right. apply IH; auto.
      * left. destruct k as [|k]; [lia|]. apply reads_dv_levels; [auto|lia].
    + apply dv_depth_List_ge, Exists_exists in Hd as (x & Hx & Hd).
      apply Exists_exists. exists x. split; [done|]. apply IH; auto.
  - apply wf_dv_Map in Hwf as [Hs Hwf]. cbn [write_dv].
    apply reads_dv_map; [by apply short_range|]. apply too_deep_bind_end.
    rewrite Forall_forall in IH, Hwf.
    assert (∀ kv, kv ∈ l → (k ≤ dv_depth kv.2)%nat →
      too_deep (read_entry (read_dv_levels k)) (write_str kv.1 ++ write_dv kv.2)) as Hdeep.
    { intros kv Hx Hk. destruct k as [|k]; [by intros rest|]. destruct (Hwf _ Hx) as [Hks Hkv].
      eapply reads_bind; [by apply reads_dv_str|]. apply too_deep_bind_end, (IH _ Hx); auto. }
    apply (too_deep_n_len _ (λ kv, write_str kv.1 ++ write_dv kv.2)); [done|..].
    + apply Forall_forall. intros [s x] Hx. destruct (decide (k ≤ dv_depth x)%nat).
      * right. by apply (Hdeep (s, x)).
      * left. destruct k as [|k]; [lia|]. destruct (Hwf _ Hx) as [Hks Hkv].
        eapply reads_bind; [by apply reads_dv_str|].
        apply (reads_bind_ret _ (λ v, (s, v))), reads_dv_levels; [done|simpl in *; lia].
    + apply dv_depth_Map_ge, Exists_exists in Hd as (kv & Hx & Hd).
      apply Exists_exists. exists kv. split; [done|]. auto.
Qed.

(** ** Encodings are bytes *)

Lemma bytes_app xs ys : Forall is_byte xs → Forall is_byte ys → Forall is_byte (xs ++ ys).
Proof. intros. by apply Forall_app. Qed.

Lemma bytes_cons x xs : 0 ≤ x < 256 → Forall is_byte xs → Forall is_byte (x :: xs).
Proof. by constructor. Qed.

Lemma bytes_mod x : 0 ≤ x mod 256 < 256.
Proof. apply Z.mod_pos_bound. lia. Qed.

Lemma bytes_all {A} (w : A → list Z) (P : A → Prop) xs :
  (∀ x, P x → Forall is_byte (w x)) → Forall P xs → Forall is_byte (write_all w xs).
Proof.
  intros Hw. unfold write_all. induction 1; simpl; [constructor|]. apply bytes_app; auto.
Qed.

Create HintDb bytes discriminated.
#[export] Hint Resolve bytes_app bytes_mod be_bytes_byte le_bytes_byte Forall_nil_2 : bytes.
#[export] Hint Extern 3 (Forall is_byte (_ :: _)) => apply bytes_cons : bytes.
#[export] Hint Extern 4 (0 ≤ _ < 256) => lia : bytes.

Lemma bytes_uint v : is_u64 v → Forall is_byte (write_uint v).
Proof. unfold is_u64, write_uint. intros. size_class; auto with bytes. Qed.

Lemma bytes_int i : is_i64 i → Forall is_byte (write_int i).
Proof.
  unfold is_i64, write_int. intros.
  destruct (Z.leb_spec 0 i); [apply bytes_uint; unfold is_u64; lia|]. size_class; auto with bytes.
Qed.

Lemma bytes_header n : 0 ≤ n → Forall is_byte (write_array_header n).
Proof.
  intros H. unfold write_array_header. destruct (Z.ltb_spec n 16); [|size_class; auto with bytes].
  destruct (land_marker 0x90 n) as [-> _]; [done|lia|lia|]. auto with bytes.
Qed.

Lemma bytes_map_header n : 0 ≤ n → Forall is_byte (write_map_header n).
Proof.
  intros H. unfold write_map_header. destruct (Z.ltb_spec n 16); [|size_class; auto with bytes].
  destruct (land_marker 0x80 n) as [-> _]; [done|lia|lia|]. auto with bytes.
Qed.

Lemma bytes_str s : wf_str s → Forall is_byte (write_str s).
Proof.
  intros [Hs _]. apply utf8_valid_byte in Hs. unfold write_str. cbv zeta.
  pose proof (zlen_nonneg s). apply bytes_app; [|done].
  destruct (Z.ltb_spec (zlen s) 32); [|size_class; auto with bytes].
  destruct (land_str_marker (zlen s)) as [-> _]; [lia|]. auto with bytes.
Qed.

Lemma bytes_bin b : Forall is_byte b → Forall is_byte (write_bin b).
Proof.
  intros Hb. unfold write_bin. cbv zeta. pose proof (zlen_nonneg b).
  apply bytes_app; [|done]. size_class; auto with bytes.
Qed.

Lemma bytes_ext ty p : Forall is_byte p → Forall is_byte (write_ext ty p).
Proof.
  intros Hp. unfold write_ext. cbv zeta. pose proof (zlen_nonneg p).
  apply bytes_app; [|auto with bytes]. size_class; auto with bytes.
Qed.

Lemma bytes_dv v : wf_dv v → Forall is_byte (write_dv v).
Proof.
  induction v as [|[]|i|s|f|s|s|b|l IH|l IH|i s] using DataValue_ind'; intros Hwf;
    cbn [write_dv]; auto with bytes.
  - by apply bytes_int.
  - apply bytes_ext, utf8_valid_byte, Hwf.
  - apply bytes_ext, utf8_valid_byte, Hwf.
  - by apply bytes_str.
  - apply bytes_bin, Hwf.
  - apply wf_dv_List in Hwf as [_ Hwf]. apply bytes_app; [apply bytes_header, zlen_nonneg|].
    rewrite Forall_forall in IH, Hwf.
    apply (bytes_all write_dv (λ x, x ∈ l)); [auto|]. by apply Forall_forall.
  - apply wf_dv_Map in Hwf as [_ Hwf]. apply bytes_app; [apply bytes_map_header, zlen_nonneg|].
    rewrite Forall_forall in IH, Hwf.
    apply (bytes_all (λ kv, write_str kv.1 ++ write_dv kv.2) (λ x, x ∈ l)).
    + intros kv Hx. destruct (Hwf _ Hx). apply bytes_app; [by apply bytes_str|by apply IH].
    + by apply Forall_forall.
  - destruct Hwf as (_ & Hu & _). apply bytes_ext, bytes_app; [apply le_bytes_byte|].
    by apply utf8_valid_byte.
Qed.

Lemma bytes_opt_dv o : wf_opt ok_dv o → Forall is_byte (write_opt_dv o).
Proof.
  destruct o as [v|]; [|simpl; auto with bytes]. intros [Hv _].
  destruct v; cbn [write_opt_dv]; try (by apply bytes_dv). auto with bytes.
Qed.

Lemma bytes_opt_str o : wf_opt wf_str o → Forall is_byte (write_opt_str o).
Proof. destruct o; intros; simpl; [by apply bytes_str|auto with bytes]. Qed.

Lemma bytes_u64_vec xs : wf_u64s xs → Forall is_byte (write_u64_vec xs).
Proof.
  intros [_ H]. apply bytes_app; [apply bytes_header, zlen_nonneg|].
  by eapply bytes_all; [apply bytes_uint|].
Qed.

Lemma bytes_strs xs : wf_strs xs → Forall is_byte (write_all write_str xs).
Proof. intros [_ H]. by eapply bytes_all; [apply bytes_str|]. Qed.

Lemma bytes_arrow a : wf_arrow a → Forall is_byte (write_arrow a).
Proof.
  intros (? & _ & ?). unfold write_arrow. rewrite !Forall_app; split_and!.
  - by apply bytes_header.
  - apply bytes_uint. by destruct (dtype a).
  - by apply bytes_uint.
  - by apply bytes_bin.
Qed.

Lemma bytes_arg a : wf_arg a → Forall is_byte (write_arg a).
Proof.
  intros Ha. unfold write_arg. apply bytes_app; [by apply bytes_header|].
  destruct a; apply bytes_app; try (by apply bytes_uint).
  - apply bytes_dv, Ha.
  - by apply bytes_arrow.
Qed.

Lemma bytes_class_decl c : wf_class_decl c → Forall is_byte (write_class_decl c).
Proof.
  intros (Hn & Hi & Hc). unfold write_class_decl.
  rewrite !Forall_app; split_and!; auto using bytes_str, bytes_strs, bytes_header, zlen_nonneg.
  by apply bytes_header.
Qed.

Lemma bytes_list {A} (w : A → list Z) (P : A → Prop) xs :
  (∀ x, P x → Forall is_byte (w x)) → short xs ∧ Forall P xs →
  Forall is_byte (write_all w xs).
Proof. intros Hw [_ H]. by eapply bytes_all. Qed.

#[export] Hint Resolve bytes_uint bytes_header bytes_str bytes_strs bytes_u64_vec bytes_opt_str
  bytes_opt_dv bytes_arrow bytes_arg bytes_class_decl zlen_nonneg u8_u64 : bytes.

Lemma bytes_fields m : wf_msg m → Forall is_byte (write_fields m).
Proof.
  intros Hwf. destruct m; simpl in Hwf; cbn [write_fields write_op_fields]; unfold wf_call in *; deex;
    rewrite ?Forall_app; split_and?; auto with bytes;
    try (by eapply bytes_list; [|by split]; auto with bytes);
    try (apply bytes_dv; match goal with H : ok_dv _ |- _ => apply H end);
    try (apply bytes_uint; unfold is_u32, is_u64 in *; lia).
Qed.

Lemma reads_appended_none {B} extra (k : rstr * Z → rd B) bs b :
  extra = 0 → reads (k ([], 0)) bs b → reads (read_appended_str extra ≫= k) bs b.
Proof. intros -> Hk. eapply reads_bind_pure; [apply reads_ret|done]. Qed.

Lemma reads_appended_zero {B} extra (k : Z * Z → rd B) bs b :
  extra = 0 → reads (k (0, 0)) bs b → reads (read_appended_u64 extra ≫= k) bs b.
Proof. intros -> Hk. eapply reads_bind_pure; [apply reads_ret|done]. Qed.

Lemma reads_finish_none m : reads (finish m 0) [] (m, meta_default).
Proof. apply (reads_finish m []). constructor. Qed.

Lemma reads_finish_terminal_none m extra :
  extra = 0 → reads (finish_terminal m extra) [] (m, meta_default).
Proof.
  intros ->. eapply reads_bind_pure; [apply reads_ret|].
  eapply reads_bind_pure; [apply reads_skip_none|apply reads_ret].
Qed.

(** Close a legacy arm: the appended field is absent and nothing is left. *)
Ltac legacy_end :=
  repeat first [apply reads_appended_none; [lia|] | apply reads_appended_zero; [lia|]];
  first [apply reads_finish_terminal_none; lia | apply reads_finish_none].

(** The frame an older peer sends for a message whose appended field is at its default. *)
Definition legacy_frame (m : Msg) : option (list Z) :=
  match m with
  | CallReturnError message [] =>
      Some (write_array_header 2 ++ write_uint T_CALL_RETURN_ERROR ++ write_str message)
  | ManifestReturn classes version 0 =>
      Some (write_array_header 3 ++ write_uint T_MANIFEST_RETURN ++ write_uint version
            ++ write_array_header (zlen classes) ++ write_all write_class_decl classes)
  | InvokeBlockReturn results error [] =>
      Some (write_array_header 3 ++ write_uint T_INVOKE_BLOCK_RETURN
            ++ write_u64_vec results ++ write_opt_str error)
  | ReadHandleReturn value error [] =>
      Some (write_array_header 3 ++ write_uint T_READ_HANDLE_RETURN
            ++ write_dv value ++ write_opt_str error)
  | HostOpReturn handle str error [] =>
      Some (write_array_header 4 ++ write_uint T_HOST_OP_RETURN
            ++ write_uint handle ++ write_opt_str str ++ write_opt_str error)
  | _ => None
  end.

(** Read one legacy frame: header, tag, fields, absent tail. *)
Ltac legacy :=
  unfold read_frame; (eapply reads_bind; [apply reads_header; lia|]); zcase;
  (eapply reads_bind; [by apply reads_uint|]);
  frame_arm; rewrite <- (app_nil_r (_ ++ _)) || rewrite <- (app_nil_r (write_str _));
  rewrite <- ?app_assoc; repeat field; legacy_end.

Lemma reads_legacy m bs :
  wf_msg m → legacy_frame m = Some bs → reads read_frame bs (m, meta_default).
Proof.
  intros Hwf H. destruct m; try discriminate H; simpl in Hwf; deex;
    cbn [legacy_frame] in H; repeat (case_match; try discriminate H); subst;
    apply (inj Some) in H as <-; legacy.
Qed.

(** * What the extension protocol codec promises

    The properties of the codec as a whole, each with a concrete instance.  The lemmas they rest
    on are in [WireRoundtrip] (values) and above (frames). *)
Local Open Scope Z_scope.

(** ** Concrete messages for the instances *)

Definition sample_value : DataValue :=
  Map [([97; 98], List [Int (-70000); Float 4607182418800017408; Str [195; 169]]);
       ([], Resource 513 [80]); ([99], BigInt [49; 48])].

Definition sample_call : Msg :=
  Call (mk_call [114; 117; 110] [] [4294967297] [3] [] [mk_arrow Int64 1 [1; 0; 0; 0; 0; 0; 0; 0]]
          (Some sample_value) [80] 7
          [AData (Bool true); AResource 3; AHandle 4294967297; AChan 9]).

Lemma sample_value_ok : ok_dv sample_value.
Proof. concrete. Defined.

Lemma sample_call_wf : wf_msg sample_call.
Proof. concrete. Defined.

(** C22: every well-formed frame, with or without the appended meta, decodes to the message and
    meta it was encoded from; the only identification is that a top-level [Some(Null)] payload
    arrives as [None], and a meta on a frame that is no Call terminal is not sent. *)
Theorem decode_encode_with_meta (m : Msg) (meta : option ReplyMeta) :
  wf_msg m → wf_opt wf_meta meta →
  decode_frame_with_meta (encode_with_meta m meta) = Ok (norm_msg m, norm_meta m meta).
Proof.
  intros Hm Hmeta. rewrite encode_extended_nil.
  by apply decode_reads, reads_frame.
Qed.

Lemma decode_encode_with_meta_witness :
  decode_frame_with_meta (encode_with_meta sample_call (Some (mk_meta 5)))
  = Ok (norm_msg sample_call, meta_default).
Proof.
  apply (decode_encode_with_meta sample_call (Some (mk_meta 5)));
    [apply sample_call_wf|concrete].
Defined.

(** append-only evolution, forwards: a frame carrying any number of further fields that this
    decoder does not know, after all the fields it does know, decodes to the same message. *)
Theorem decode_skips_appended_fields (m : Msg) (meta : option ReplyMeta) (xs : list DataValue) :
  wf_msg m → wf_opt wf_meta meta → Forall ok_dv xs → zlen xs < 2 ^ 31 → extendable m meta xs →
  decode_frame_with_meta (encode_extended m meta xs) = Ok (norm_msg m, norm_meta m meta).
Proof. intros. by apply decode_reads, reads_frame. Qed.

Lemma decode_skips_appended_fields_witness :
  decode_frame_with_meta
    (encode_extended (CallReturn [111; 107]) (Some (mk_meta 300)) [sample_value; Null])
  = Ok (CallReturn [111; 107], mk_meta 300).
Proof.
  apply (decode_skips_appended_fields (CallReturn [111; 107]) (Some (mk_meta 300))
           [sample_value; Null]).
  - concrete.
  - concrete.
  - concrete.
  - concrete.
  - by intros _ ?.
Defined.

(** Append-only evolution, backwards: the frames of an older peer, which end before the
    appended field, decode to the message with that field at its default. *)
Theorem decode_legacy_frame (m : Msg) (bs : list Z) :
  wf_msg m → legacy_frame m = Some bs → decode_frame_with_meta bs = Ok (m, meta_default).
Proof. intros. by apply decode_reads, reads_legacy. Qed.

Lemma decode_legacy_frame_witness :
  decode_frame_with_meta [0x93; 19; 1; 0xc0]
  = Ok (ReadHandleReturn (Int 1) None [], meta_default).
Proof.
  apply (decode_legacy_frame (ReadHandleReturn (Int 1) None [])); [concrete|reflexivity].
Defined.

(** a bare structured value round-trips exactly when it nests at most [MAX_DV_DEPTH] levels;
    a deeper one is refused with the nesting error, never mis-decoded. *)
Theorem unpack_pack_dv (v : DataValue) :
  wf_dv v →
  unpack_dv (pack_dv v) = if decide (dv_depth v ≤ MAX_DV_DEPTH)%nat then Ok v else Err EDepth.
Proof.
  intros Hv. unfold unpack_dv, pack_dv, read_dv. case_decide as Hd.
  - pose proof (reads_nil _ _ _ (reads_dv v (conj Hv Hd))) as H. unfold read_dv in H. by rewrite H.
  - pose proof (too_deep_levels v (S MAX_DV_DEPTH - 0) Hv ltac:(lia) []) as H.
    rewrite app_nil_r in H. by rewrite H.
Qed.

(** [n] list levels around a value. *)
Fixpoint nest (n : nat) : DataValue :=
  match n with O => Null | S k => List [nest k] end.

Lemma unpack_pack_dv_witness :
  unpack_dv (pack_dv sample_value) = Ok sample_value
  ∧ unpack_dv (pack_dv (nest 65)) = Err EDepth.
Proof.
  split.
  - apply (unpack_pack_dv sample_value), sample_value_ok.
  - apply (unpack_pack_dv (nest 65)). concrete.
Defined.

(** only whole frames decode: a strict prefix is always an error, and bytes past the end of
    a frame are an error that says how many there are. *)
Theorem only_whole_frames_decode (m : Msg) (meta : option ReplyMeta) :
  wf_msg m → wf_opt wf_meta meta →
  (∀ k, (k < length (encode_with_meta m meta))%nat →
   is_ok (decode_frame_with_meta (take k (encode_with_meta m meta))) = false) ∧
  ∀ b bs, decode_frame_with_meta (encode_with_meta m meta ++ b :: bs)
          = Err (ETrailing (zlen (b :: bs))).
Proof.
  intros Hm Hmeta. assert (∀ rest, read_frame (encode_with_meta m meta ++ rest)
    = Ok (norm_msg m, norm_meta m meta, rest)) as Hread.
  { intros rest. rewrite encode_extended_nil. by apply (reads_frame m meta []). }
  unfold decode_frame_with_meta. split; [|intros b bs; by rewrite Hread].
  intros k Hk. set (bs := encode_with_meta m meta) in *.
  destruct (read_frame (take k bs)) as [[r [|b rest]]|] eqn:E; [|done|done].
  exfalso. apply (mono _ _ _ (drop k bs)) in E. rewrite take_drop in E.
  specialize (Hread []). rewrite app_nil_r, E in Hread. simplify_eq.
  match goal with H : drop k bs = [] |- _ => apply (f_equal length) in H; rewrite length_drop in H; simpl in H end.
  lia.
Qed.

Lemma only_whole_frames_decode_witness :
  (∀ k, (k < length (encode_with_meta sample_call None))%nat →
   is_ok (decode_frame_with_meta (take k (encode_with_meta sample_call None))) = false) ∧
  ∀ b bs, decode_frame_with_meta (encode_with_meta sample_call None ++ b :: bs)
          = Err (ETrailing (zlen (b :: bs))).
Proof. apply (only_whole_frames_decode sample_call None); [apply sample_call_wf|done]. Defined.

(** An encoded frame is a sequence of bytes, and it is self-delimiting: two frames with the
    same bytes in front of any remainders are the same message. *)
Theorem encode_self_delimiting (m1 m2 : Msg) (r1 r2 : list Z) :
  wf_msg m1 → wf_msg m2 → encode m1 ++ r1 = encode m2 ++ r2 →
  Forall is_byte (encode m1) ∧ norm_msg m1 = norm_msg m2 ∧ r1 = r2.
Proof.
  intros H1 H2 E.
  assert (∀ m r, wf_msg m →
    read_frame (encode m ++ r) = Ok (norm_msg m, norm_meta m None, r)) as Hread.
  { intros m r Hm. unfold encode. rewrite encode_extended_nil.
    by apply (reads_frame m None []). }
  split.
  - unfold encode, encode_with_meta. rewrite !Forall_app; split_and!; auto using bytes_fields.
    + apply bytes_header. pose proof (msg_arity_range m1 None). lia.
    + apply bytes_uint, msg_tag_range.
  - pose proof (Hread m1 r1 H1) as R1. rewrite E, (Hread m2 r2 H2) in R1. by simplify_eq.
Qed.

Lemma encode_self_delimiting_witness :
  Forall is_byte (encode sample_call)
  ∧ norm_msg sample_call = norm_msg sample_call ∧ [1; 2] = [1; 2].
Proof.
  apply (encode_self_delimiting sample_call sample_call [1; 2] [1; 2]);
    [apply sample_call_wf|apply sample_call_wf|reflexivity].
Defined.
