(* ===== verification/Claims.v ===== *)
(** * Per-object claims and connection lanes (src/src/runtime/claims.rs)

    The state machine behind hosted-object mailboxes: [PeerClaims] with its
    object table, lane pool, reservation queue and waits-for index, one
    definition per method, and the callers' acquisition step
    ([claim_peer_object] and [end_peer_call_and_wake] of
    src/src/runtime/worker_service.rs).  Definitions only; the invariant and
    the theorems are in [ClaimsInv], [ClaimsProps], [ClaimsSystem] and
    [ClaimsDeadlock].

    Conventions: a task id is a [nat], epochs, object ids and lanes are [Z];
    [HashMap]s are [gmap]s; a [Vec] used as a stack pushes and pops at the end
    ([vec_push], [vec_pop]); a [VecDeque] is a list with its front first.  The
    clock is an argument ([now], microseconds), and the closure [live] is a
    pure test, as the callers' one is (it only reads the task table). *)
From S2P Require Import Prelude.
From stdpp Require Import base numbers list gmap strings pretty sorting.
From stdpp Require Import options.
Local Open Scope Z_scope.

(** ** Data *)

Definition MAX_OBJECT_DEPTH : Z := 16.
Definition MAX_WALK : nat := 64.

(** Unsigned 64-bit counters, wrapping as in a release build. *)
Definition u64 (z : Z) : Z := z mod 2 ^ 64.

Inductive WaitKind := TopLevel | Nested.
#[export] Instance WaitKind_eq_dec : EqDecision WaitKind.
Proof. solve_decision. Defined.

Record Waiter := mkWaiter {
  wtask : nat; wepoch : Z; wkind : WaitKind; queued_at : Z }.
#[export] Instance Waiter_eq_dec : EqDecision Waiter.
Proof. solve_decision. Defined.

Record ObjectClaim := mkObject {
  owner : option (nat * Z);
  depth : Z;
  owner_lane : option Z;
  olabel : string;
  waiters : list Waiter;
  reserved : bool }.

Definition default_object : ObjectClaim := mkObject None 0 None "" [] false.

Inductive Acquire :=
| Granted (lane : option Z)
| Reentrant
| TooDeep
| WouldQueue (blocker : option nat).
#[export] Instance Acquire_eq_dec : EqDecision Acquire.
Proof. solve_decision. Defined.

Record Grant := mkGrant { gtask : nat; gepoch : Z; glane : option Z }.
#[export] Instance Grant_eq_dec : EqDecision Grant.
Proof. solve_decision. Defined.

Record ClaimStats := mkStats {
  acquisitions : Z; contended : Z; total_wait_micros : Z; max_wait_micros : Z;
  queue_high_water : Z; max_depth : Z; deadlocks : Z }.

Record ObjectRow := mkRow {
  row_object : Z; row_label : string; row_owner : option nat; row_depth : Z;
  row_reserved : bool; row_waiters : list (nat * WaitKind * Z) }.

Record PeerClaims := mkPeer {
  plabel : string;
  objects : gmap Z ObjectClaim;
  lane_count : Z;
  free_lanes : list Z;
  ready_heads : list Z;
  parked_on : gmap nat (Z * Z);
  drain_waiters : list (nat * Z);
  stats : ClaimStats;
  gone : option string }.

(** *** Field assignments *)

Definition set_objects (m : gmap Z ObjectClaim) (p : PeerClaims) : PeerClaims :=
  mkPeer (plabel p) m (lane_count p) (free_lanes p) (ready_heads p) (parked_on p)
    (drain_waiters p) (stats p) (gone p).
Definition set_free_lanes (l : list Z) (p : PeerClaims) : PeerClaims :=
  mkPeer (plabel p) (objects p) (lane_count p) l (ready_heads p) (parked_on p)
    (drain_waiters p) (stats p) (gone p).
Definition set_ready_heads (l : list Z) (p : PeerClaims) : PeerClaims :=
  mkPeer (plabel p) (objects p) (lane_count p) (free_lanes p) l (parked_on p)
    (drain_waiters p) (stats p) (gone p).
Definition set_parked_on (m : gmap nat (Z * Z)) (p : PeerClaims) : PeerClaims :=
  mkPeer (plabel p) (objects p) (lane_count p) (free_lanes p) (ready_heads p) m
    (drain_waiters p) (stats p) (gone p).
Definition set_drain_waiters (l : list (nat * Z)) (p : PeerClaims) : PeerClaims :=
  mkPeer (plabel p) (objects p) (lane_count p) (free_lanes p) (ready_heads p) (parked_on p)
    l (stats p) (gone p).
Definition set_stats (s : ClaimStats) (p : PeerClaims) : PeerClaims :=
  mkPeer (plabel p) (objects p) (lane_count p) (free_lanes p) (ready_heads p) (parked_on p)
    (drain_waiters p) s (gone p).

(** [self.objects.get_mut(&id)] followed by assignments through the reference. *)
Definition upd_object (id : Z) (f : ObjectClaim → ObjectClaim) (p : PeerClaims) : PeerClaims :=
  set_objects (alter f id (objects p)) p.

Definition set_waiters (ws : list Waiter) (o : ObjectClaim) : ObjectClaim :=
  mkObject (owner o) (depth o) (owner_lane o) (olabel o) ws (reserved o).
Definition set_reserved (b : bool) (o : ObjectClaim) : ObjectClaim :=
  mkObject (owner o) (depth o) (owner_lane o) (olabel o) (waiters o) b.
Definition set_depth (d : Z) (o : ObjectClaim) : ObjectClaim :=
  mkObject (owner o) d (owner_lane o) (olabel o) (waiters o) (reserved o).
Definition set_label (l : string) (o : ObjectClaim) : ObjectClaim :=
  mkObject (owner o) (depth o) (owner_lane o) l (waiters o) (reserved o).
(** [owner = None; owner_lane.take()], the depth being 0 already. *)
Definition disown (o : ObjectClaim) : ObjectClaim :=
  mkObject None 0 None (olabel o) (waiters o) (reserved o).
(** [owner = Some((task, epoch)); depth = 1; owner_lane = lane]. *)
Definition own (task : nat) (epoch : Z) (lane : option Z) (o : ObjectClaim) : ObjectClaim :=
  mkObject (Some (task, epoch)) 1 lane (olabel o) (waiters o) (reserved o).

(** ** PeerClaims *)

Definition new (label : string) (lanes : Z) : PeerClaims :=
  let lanes := Z.max lanes 1 in
  mkPeer label ∅ lanes (reverse (seqZ 0 lanes)) [] ∅ [] (mkStats 0 0 0 0 0 0 0) None.

Definition lanes (p : PeerClaims) : Z * Z :=
  (lane_count p, Z.of_nat (length (free_lanes p))).

Definition label_with_id (label : string) (object_id : Z) : string :=
  (label +:+ "#" +:+ pretty object_id)%string.

(** [entry(object_id).or_default()], then the label on first touch. *)
Definition touch_label (object_id : Z) (label : string) (p : PeerClaims) : PeerClaims :=
  let o := default default_object (objects p !! object_id) in
  let o := if decide (olabel o = EmptyString)
           then set_label (label_with_id label object_id) o else o in
  set_objects (<[object_id := o]> (objects p)) p.

Definition count_acquisition (p : PeerClaims) : PeerClaims :=
  let s := stats p in
  set_stats (mkStats (u64 (acquisitions s + 1)) (contended s) (total_wait_micros s)
    (max_wait_micros s) (queue_high_water s) (max_depth s) (deadlocks s)) p.
Definition note_depth (d : Z) (p : PeerClaims) : PeerClaims :=
  let s := stats p in
  set_stats (mkStats (acquisitions s) (contended s) (total_wait_micros s)
    (max_wait_micros s) (queue_high_water s)
    (if max_depth s <? d then d else max_depth s) (deadlocks s)) p.
Definition count_contended (p : PeerClaims) : PeerClaims :=
  let s := stats p in
  set_stats (mkStats (acquisitions s) (u64 (contended s + 1)) (total_wait_micros s)
    (max_wait_micros s) (queue_high_water s) (max_depth s) (deadlocks s)) p.
Definition note_queue_len (n : Z) (p : PeerClaims) : PeerClaims :=
  let s := stats p in
  set_stats (mkStats (acquisitions s) (contended s) (total_wait_micros s)
    (max_wait_micros s) (if queue_high_water s <? n then n else queue_high_water s)
    (max_depth s) (deadlocks s)) p.
Definition note_wait (micros : Z) (p : PeerClaims) : PeerClaims :=
  let s := stats p in
  set_stats (mkStats (acquisitions s) (contended s) (u64 (total_wait_micros s + micros))
    (if max_wait_micros s <? micros then micros else max_wait_micros s)
    (queue_high_water s) (max_depth s) (deadlocks s)) p.
Definition count_deadlock (p : PeerClaims) : PeerClaims :=
  let s := stats p in
  set_stats (mkStats (acquisitions s) (contended s) (total_wait_micros s)
    (max_wait_micros s) (queue_high_water s) (max_depth s) (u64 (deadlocks s + 1))) p.

Definition try_acquire (task : nat) (epoch object_id : Z) (label : string) (nested : bool)
    (p : PeerClaims) : PeerClaims * Acquire :=
  let p := touch_label object_id label (count_acquisition p) in
  let o := default default_object (objects p !! object_id) in
  match owner o with
  | Some (t, _) =>
      if decide (t = task) then
        if MAX_OBJECT_DEPTH <=? depth o then (p, TooDeep)
        else (note_depth (depth o + 1) (upd_object object_id (set_depth (depth o + 1)) p), Reentrant)
      else (p, WouldQueue (Some t))
  | None =>
      if reserved o then (p, WouldQueue None)
      else if nested then (upd_object object_id (own task epoch None) p, Granted None)
      else match vec_pop (free_lanes p) with
           | Some (lane, rest) =>
               (upd_object object_id (own task epoch (Some lane)) (set_free_lanes rest p),
                Granted (Some lane))
           | None => (p, WouldQueue None)
           end
  end.

Definition enqueue (now : Z) (task : nat) (epoch object_id : Z) (label : string)
    (kind : WaitKind) (p : PeerClaims) : PeerClaims :=
  let p := touch_label object_id label (count_contended p) in
  let p := set_parked_on (<[task := (object_id, epoch)]> (parked_on p)) p in
  let o := default default_object (objects p !! object_id) in
  let ws := vec_push (waiters o) (mkWaiter task epoch kind now) in
  let p := upd_object object_id (set_waiters ws) p in
  let needs_reserve := bool_decide (owner o = None) && negb (reserved o) in
  let p := note_queue_len (Z.of_nat (length ws)) p in
  if needs_reserve then
    set_ready_heads (vec_push (ready_heads p) object_id)
      (upd_object object_id (set_reserved true) p)
  else p.

Definition idle (o : ObjectClaim) : bool :=
  bool_decide (owner o = None) && bool_decide (waiters o = []) && negb (reserved o).

Definition gc_object (object_id : Z) (p : PeerClaims) : PeerClaims :=
  match objects p !! object_id with
  | Some o => if idle o then set_objects (delete object_id (objects p)) p else p
  | None => p
  end.

Definition unpark (task : nat) (p : PeerClaims) : PeerClaims :=
  set_parked_on (delete task (parked_on p)) p.

Definition retract (task : nat) (object_id : Z) (p : PeerClaims) : PeerClaims :=
  let p := unpark task p in
  let p := upd_object object_id
             (λ o, set_waiters (filter (λ w, wtask w ≠ task) (waiters o)) o) p in
  gc_object object_id p.

(** [queued_at.elapsed().as_micros() as u64]. *)
Definition elapsed_micros (now at_ : Z) : Z := u64 (Z.max 0 (now - at_)).

Section wakes.
Variable now : Z.
Variable live : nat → Z → bool.

Definition grant (w : Waiter) (lane : option Z) (p : PeerClaims) (grants : list Grant)
    : PeerClaims * list Grant :=
  (note_wait (elapsed_micros now (queued_at w)) (unpark (wtask w) p),
   vec_push grants (mkGrant (wtask w) (wepoch w) lane)).

(** [owner = ..; depth = 1; owner_lane = lane; reserved = false], then the grant. *)
Definition hand_over (object_id : Z) (w : Waiter) (lane : option Z) (p : PeerClaims)
    (grants : list Grant) : PeerClaims * list Grant :=
  grant w lane
    (upd_object object_id (λ o, set_reserved false (own (wtask w) (wepoch w) lane o)) p)
    grants.

(** The loop of [promote_head], on the object's remaining queue [ws]. *)
Fixpoint promote_loop (object_id : Z) (ws : list Waiter) (p : PeerClaims)
    (grants : list Grant) : PeerClaims * list Grant :=
  match ws with
  | [] => (upd_object object_id (set_reserved false) p, grants)
  | popped :: rest =>
      let p := upd_object object_id (set_waiters rest) p in
      if live (wtask popped) (wepoch popped) then
        match wkind popped with
        | Nested => hand_over object_id popped None p grants
        | TopLevel =>
            match vec_pop (free_lanes p) with
            | Some (lane, fl) =>
                hand_over object_id popped (Some lane) (set_free_lanes fl p) grants
            | None =>
                let was := default false (reserved <$> objects p !! object_id) in
                let p := upd_object object_id
                           (λ o, set_reserved true (set_waiters (popped :: waiters o) o)) p in
                ((if was then p
                  else set_ready_heads (vec_push (ready_heads p) object_id) p), grants)
            end
        end
      else promote_loop object_id rest (unpark (wtask popped) p) grants
  end.

Definition promote_head (object_id : Z) (p : PeerClaims) (grants : list Grant)
    : PeerClaims * list Grant :=
  match objects p !! object_id with
  | None => (p, grants)
  | Some o => promote_loop object_id (waiters o) p grants
  end.

(** The inner loop of [release_lane]: offer lane [l] to the queue [ws] of the
    reserved object; the last component is the lane when it is still looking. *)
Fixpoint serve_loop (object_id l : Z) (ws : list Waiter) (p : PeerClaims)
    (grants : list Grant) : PeerClaims * list Grant * option Z :=
  match ws with
  | [] => (upd_object object_id (set_reserved false) p, grants, Some l)
  | popped :: rest =>
      let p := upd_object object_id (set_waiters rest) p in
      if live (wtask popped) (wepoch popped) then
        match wkind popped with
        | Nested => (hand_over object_id popped None p grants, Some l)
        | TopLevel => (hand_over object_id popped (Some l) p grants, None)
        end
      else serve_loop object_id l rest (unpark (wtask popped) p) grants
  end.

(** The loop ['homes], on the remaining reservation queue [heads]. *)
Fixpoint homes_loop (l : Z) (heads : list Z) (p : PeerClaims) (grants : list Grant)
    : PeerClaims * list Grant :=
  match heads with
  | [] => (set_free_lanes (vec_push (free_lanes p) l) p, grants)
  | object_id :: heads' =>
      let p := set_ready_heads heads' p in
      match objects p !! object_id with
      | None => homes_loop l heads' p grants
      | Some o =>
          if reserved o then
            match serve_loop object_id l (waiters o) p grants with
            | (p, grants, Some l) => homes_loop l heads' p grants
            | (p, grants, None) => (p, grants)
            end
          else homes_loop l heads' p grants
      end
  end.

Definition all_home (p : PeerClaims) : bool :=
  Z.of_nat (length (free_lanes p)) =? lane_count p.

Definition wake_drain (p : PeerClaims) (grants : list Grant) : PeerClaims * list Grant :=
  if all_home p then
    (set_drain_waiters [] p,
     grants ++ map (λ '(task, epoch), mkGrant task epoch None) (drain_waiters p))
  else (p, grants).

Definition release_lane (lane : Z) (p : PeerClaims) (grants : list Grant)
    : PeerClaims * list Grant :=
  let '(p, grants) := homes_loop lane (ready_heads p) p grants in
  wake_drain p grants.

Definition end_call (task : nat) (object_id : Z) (p : PeerClaims) : PeerClaims * list Grant :=
  match objects p !! object_id with
  | None => (p, [])
  | Some o =>
      let d := Z.max 0 (depth o - 1) in
      if 0 <? d then (upd_object object_id (set_depth d) p, [])
      else
        let p := upd_object object_id disown p in
        let '(p, grants) := promote_head object_id p [] in
        let '(p, grants) := match owner_lane o with
                            | Some lane => release_lane lane p grants
                            | None => (p, grants)
                            end in
        (gc_object object_id p, grants)
  end.

Definition request_drain (task : nat) (epoch : Z) (p : PeerClaims) : PeerClaims * bool :=
  if all_home p then (p, true)
  else (set_drain_waiters (vec_push (drain_waiters p) (task, epoch)) p, false).

Definition waits_for (task : nat) (p : PeerClaims) : option (nat * string) :=
  '(object_id, epoch) ← parked_on p !! task;
  if live task epoch then
    o ← objects p !! object_id;
    '(owner, _) ← owner o;
    Some (owner, olabel o)
  else None.

(** The first peer of the registry on which [task] has an edge. *)
Fixpoint find_edge (registry : list PeerClaims) (task : nat) : option (nat * string) :=
  match registry with
  | [] => None
  | peer :: rest =>
      match waits_for task peer with
      | Some e => Some e
      | None => find_edge rest task
      end
  end.

Definition hop (waiter : nat) (label : string) (holder : nat) : string :=
  ("task " +:+ pretty waiter +:+ " waits for " +:+ label +:+ " (held by task " +:+
   pretty holder +:+ ")")%string.

Definition join_path (path : list string) : string :=
  match path with
  | [] => ""
  | p :: ps => foldl (λ acc s, (acc +:+ ", which " +:+ s)%string) p ps
  end.

Fixpoint walk (fuel : nat) (registry : list PeerClaims) (me current : nat)
    (path : list string) : option string :=
  match fuel with
  | O => None
  | S fuel' =>
      if decide (current = me) then
        Some ("deadlock: the calls wait on each other in a cycle — " +:+ join_path path)%string
      else
        '(next, label) ← find_edge registry current;
        walk fuel' registry me next (vec_push path (hop current label next))
  end.

Definition would_deadlock (registry : list PeerClaims) (me start : nat)
    (first_label : string) : option string :=
  walk MAX_WALK registry me start [hop me first_label start].

(** *** Reports *)

Definition edges (p : PeerClaims) : list (nat * string * option nat) :=
  map (λ '(task, (obj, _)),
         (task, default "" (olabel <$> objects p !! obj),
          o ← objects p !! obj; fst <$> owner o))
    (map_to_list (parked_on p)).

Definition object_row (id : Z) (o : ObjectClaim) : ObjectRow :=
  mkRow id (olabel o) (fst <$> owner o) (depth o) (reserved o)
    (map (λ w, (wtask w, wkind w, elapsed_micros now (queued_at w))) (waiters o)).

Definition row_le (a b : ObjectRow) : Prop := row_object a ≤ row_object b.
#[export] Instance row_le_dec a b : Decision (row_le a b).
Proof. unfold row_le. apply _. Defined.

(** The rows with an owner, waiters or a reservation, sorted by object id. *)
Definition object_rows (p : PeerClaims) : list ObjectRow :=
  merge_sort row_le
    (map (λ '(id, o), object_row id o)
       (filter (λ '(_, o), owner o ≠ None ∨ waiters o ≠ [] ∨ reserved o = true)
          (map_to_list (objects p)))).

(** ** The callers (worker_service.rs)

    [claim_peer_object] up to its park, then its resumption.  The registry is
    the list of peers and [i] the index of the peer claimed on; [what] prefixes
    the messages; [scheduled] tells whether there is a fiber to suspend.
    [Parked] is the suspension; the grant that ends it is one that [end_call]
    returns. *)

Inductive Claiming :=
| Claimed
| Refused (msg : string)
| Parked.
#[export] Instance Claiming_eq_dec : EqDecision Claiming.
Proof. solve_decision. Defined.

Definition claim_peer_object (scheduled : bool) (i : nat) (task : nat)
    (epoch object_id : Z) (object_label what : string) (kind : WaitKind)
    (registry : list PeerClaims) : list PeerClaims * Claiming :=
  match registry !! i with
  | None => (registry, Refused "no such peer")
  | Some p =>
      let '(p, decision) :=
        try_acquire task epoch object_id object_label (bool_decide (kind = Nested)) p in
      let registry := <[i := p]> registry in
      let queued :=
        let p := enqueue now task epoch object_id object_label kind p in
        if scheduled then (<[i := p]> registry, Parked)
        else (<[i := retract task object_id p]> registry,
              Refused (what +:+ " queued outside the VM scheduler")) in
      match decision with
      | Granted _ | Reentrant => (registry, Claimed)
      | TooDeep =>
          (registry, Refused (what +:+ ": re-entered " +:+ object_label +:+
                              " too deeply — mutual recursion?"))
      | WouldQueue None => queued
      | WouldQueue (Some start) =>
          match would_deadlock registry task start (label_with_id object_label object_id) with
          | Some cycle => (<[i := count_deadlock p]> registry, Refused (what +:+ ": " +:+ cycle))
          | None => queued
          end
      end
  end.

(** After the park: a cancelled task passes a claim it was handed onward, or
    withdraws from the queue. *)
Inductive Resumed := Holding | Cancelled (wakes : list Grant) | NotHanded.

Definition resume_claim (handed cancel_current : bool) (task : nat) (object_id : Z)
    (p : PeerClaims) : PeerClaims * Resumed :=
  if cancel_current then
    if handed then let '(p, grants) := end_call task object_id p in (p, Cancelled grants)
    else (retract task object_id p, Cancelled [])
  else (p, if handed then Holding else NotHanded).

End wakes.

(** ** The system

    Several tasks use the peers of one registry, each step atomic (the state
    is mutated between yields).

    Any calls at all: any task calls any of the methods through their callers, parked or not,
    holding the object or not, with any test of liveness. *)

Inductive any_step : list PeerClaims → list PeerClaims → Prop :=
| any_claim now live scheduled i task epoch id label what kind r :
    any_step r (claim_peer_object now live scheduled i task epoch id label what kind r).1
| any_resume now live i handed cancel task id r p :
    r !! i = Some p →
    any_step r (<[i := (resume_claim now live handed cancel task id p).1]> r)
| any_end now live i task id r p :
    r !! i = Some p → any_step r (<[i := (end_call now live task id p).1]> r)
| any_drain i task epoch r p :
    r !! i = Some p → any_step r (<[i := (request_drain task epoch p).1]> r).

(** The peers as their services register them. *)
Definition just_registered (registry : list PeerClaims) : Prop :=
  Forall (λ p, ∃ label n, p = new label n) registry.

(** Orderly histories.  A task that is parked on a claim takes no step but to withdraw, until a
    grant has removed its waits-for entry; a task ends only calls it holds.  [live] changes over
    time: a parked [(task, epoch)] can only stop being live (its task was cancelled).  The one
    way out of these histories is the grant of a drain whose [serviceStop] was cancelled: when
    the task is parked on a claim by then, it runs on as if it had been granted that claim. *)

Definition running (registry : list PeerClaims) (task : nat) : Prop :=
  Forall (λ p, parked_on p !! task = None) registry.

Definition holds (p : PeerClaims) (task : nat) (object_id : Z) : Prop :=
  ∃ o e, objects p !! object_id = Some o ∧ owner o = Some (task, e).

Definition parked_at (registry : list PeerClaims) (task : nat) (epoch : Z) : Prop :=
  ∃ p id, p ∈ registry ∧ parked_on p !! task = Some (id, epoch).

(** What a task, or the clock, does in one step. *)
Inductive Action :=
| AClaim (task : nat)
| AEnd (task : nat)
| ARetract (task : nat)
| ADrain (task : nat)
| ACancel.

Definition System : Type := (nat → Z → bool) * list PeerClaims.

Inductive sys_step : Action → System → System → Prop :=
| sys_claim now scheduled i task epoch id label what kind live r r' out :
    running r task →
    claim_peer_object now live scheduled i task epoch id label what kind r = (r', out) →
    sys_step (AClaim task) (live, r) (live, r')
| sys_end now i task id live r p :
    r !! i = Some p → running r task → holds p task id →
    sys_step (AEnd task) (live, r) (live, <[i := (end_call now live task id p).1]> r)
| sys_retract i task id live r p :
    r !! i = Some p → (∀ j e, parked_on p !! task = Some (j, e) → j = id) →
    sys_step (ARetract task) (live, r) (live, <[i := retract task id p]> r)
| sys_drain i task epoch live r p :
    r !! i = Some p → running r task →
    sys_step (ADrain task) (live, r) (live, <[i := (request_drain task epoch p).1]> r)
| sys_cancel live live' r :
    (∀ t e, parked_at r t e → live' t e = true → live t e = true) →
    sys_step ACancel (live, r) (live', r).

Inductive sys_steps : list Action → System → System → Prop :=
| steps_nil s : sys_steps [] s s
| steps_cons a acts s1 s2 s3 :
    sys_step a s1 s2 → sys_steps acts s2 s3 → sys_steps (a :: acts) s1 s3.

Definition reachable (s : System) : Prop :=
  ∃ live r acts, just_registered r ∧ sys_steps acts (live, r) s.
