(* ===== verification/ClaimsInv.v ===== *)
(** * The invariant of the claim state machine

    [claims_inv] and its preservation by every method of [PeerClaims].  The
    methods break it in the middle: [flight] lists the lanes taken from their
    holder and not yet banked or handed over, and [busy] is the object being
    re-assigned.  The public methods start and end at [claims_inv [] None]. *)
From S2P Require Import Prelude Claims.
From stdpp Require Import base numbers list gmap strings.
From stdpp Require Import options.
Local Open Scope Z_scope.
#[local] Set Warnings "-clear-no-such-hyp".

Definition lane_list (l : option Z) : list Z := match l with Some x => [x] | None => [] end.

(** The lanes held by the owners of a peer's objects. *)
Definition held (m : gmap Z ObjectClaim) : list Z :=
  map_to_list m ≫= λ io, lane_list (owner_lane io.2).

Definition obj_ok (busy : bool) (o : ObjectClaim) : Prop :=
  NoDup (wtask <$> waiters o) ∧
  match owner o with
  | Some _ => 1 ≤ depth o ≤ MAX_OBJECT_DEPTH ∧ reserved o = false
  | None => depth o = 0 ∧ owner_lane o = None ∧
            (busy = false → reserved o = false → waiters o = [])
  end.

(** Task [t] queues on object [id] with epoch [e]. *)
Definition queued (m : gmap Z ObjectClaim) (t : nat) (id e : Z) : Prop :=
  ∃ o w, m !! id = Some o ∧ w ∈ waiters o ∧ wtask w = t ∧ wepoch w = e.

Record claims_inv (flight : list Z) (busy : option Z) (p : PeerClaims) : Prop := {
  inv_count : 1 ≤ lane_count p;
  inv_lanes : free_lanes p ++ flight ++ held (objects p) ≡ₚ seqZ 0 (lane_count p);
  inv_objects : ∀ id o, objects p !! id = Some o → obj_ok (bool_decide (busy = Some id)) o;
  inv_heads : NoDup (ready_heads p);
  inv_ready : ∀ id, id ∈ ready_heads p ↔
    busy ≠ Some id ∧ ∃ o, objects p !! id = Some o ∧ reserved o = true;
  inv_pool : ready_heads p ≠ [] → free_lanes p = [];
  inv_parked : ∀ t id e, parked_on p !! t = Some (id, e) ↔ queued (objects p) t id e }.

Lemma held_insert_new m id o :
  m !! id = None → held (<[id := o]> m) ≡ₚ lane_list (owner_lane o) ++ held m.
Proof. intros H. unfold held. by rewrite map_to_list_insert. Qed.

Lemma held_delete m id o :
  m !! id = Some o → held m ≡ₚ lane_list (owner_lane o) ++ held (delete id m).
Proof. intros H. unfold held. by rewrite <-(map_to_list_delete m id o). Qed.

Lemma held_insert m id o o' :
  m !! id = Some o →
  lane_list (owner_lane o) ++ held (<[id := o']> m) ≡ₚ lane_list (owner_lane o') ++ held m.
Proof.
  intros H. rewrite (held_delete m id o H), <-insert_delete_eq.
  rewrite held_insert_new by apply lookup_delete_eq.
  rewrite !(assoc_L (++)). f_equiv. apply Permutation_app_comm.
Qed.

Lemma upd_object_Some id f p o :
  objects p !! id = Some o → upd_object id f p = set_objects (<[id := f o]> (objects p)) p.
Proof.
  intros H. unfold upd_object. f_equal. apply map_eq. intros j.
  destruct (decide (j = id)) as [->|Hj].
  - by rewrite lookup_alter_eq, lookup_insert_eq, H.
  - by rewrite lookup_alter_ne, lookup_insert_ne by done.
Qed.

(** Replacing object [id] by [o'] leaves the queue entries of the others. *)
Lemma queued_insert m id o' t id' e :
  queued (<[id := o']> m) t id' e ↔
  (id' = id ∧ ∃ w, w ∈ waiters o' ∧ wtask w = t ∧ wepoch w = e) ∨
  (id' ≠ id ∧ queued m t id' e).
Proof.
  unfold queued. split.
  - intros (o & w & Hl & Hw). destruct (decide (id' = id)) as [->|Hne].
    + rewrite lookup_insert_eq in Hl. simplify_eq. left. eauto.
    + rewrite lookup_insert_ne in Hl by done. right. eauto 10.
  - intros [(-> & w & Hw)|(Hne & o & w & Hl & Hw)].
    + exists o', w. by rewrite lookup_insert_eq.
    + exists o, w. by rewrite lookup_insert_ne.
Qed.

(** One object changes hands: its lane and the pool and flight together keep the lanes. *)
Lemma lanes_exchange m id o o' (free free' flight flight' : list Z) :
  m !! id = Some o →
  free' ++ flight' ++ lane_list (owner_lane o') ≡ₚ free ++ flight ++ lane_list (owner_lane o) →
  free' ++ flight' ++ held (<[id := o']> m) ≡ₚ free ++ flight ++ held m.
Proof.
  intros Ho Hlanes. apply (Permutation_app_inv_l (lane_list (owner_lane o))).
  transitivity ((free' ++ flight' ++ lane_list (owner_lane o')) ++ held m).
  - rewrite (Permutation_app_comm (lane_list _)), <-!(assoc_L (++)). do 2 f_equiv.
    rewrite <-(held_insert _ _ _ _ Ho). apply Permutation_app_comm.
  - rewrite Hlanes, <-!(assoc_L (++)).
    rewrite (assoc_L (++) free), (assoc_L (++) free flight (held _)).
    rewrite (assoc_L (++) _ (lane_list _)), (assoc_L (++) (lane_list _)).
    f_equiv. apply Permutation_app_comm.
Qed.

Section preserve.
#[local] Set Default Proof Using "Type*".
Context (flight : list Z) (busy : option Z) (p : PeerClaims).
Hypothesis Hinv : claims_inv flight busy p.

(** A queued task has one queue entry. *)
Lemma queued_unique t id id' e e' :
  queued (objects p) t id e → queued (objects p) t id' e' → id = id' ∧ e = e'.
Proof. intros H%Hinv H'%Hinv. by simplify_eq. Qed.

(** One object changes; the fields of the peer that matter are given by the
    remaining equations. *)
Lemma inv_update flight' busy' id o o' p' :
  objects p !! id = Some o →
  objects p' = <[id := o']> (objects p) →
  lane_count p' = lane_count p →
  free_lanes p' ++ flight' ++ lane_list (owner_lane o') ≡ₚ
    free_lanes p ++ flight ++ lane_list (owner_lane o) →
  obj_ok (bool_decide (busy' = Some id)) o' →
  (busy = None ∨ busy = Some id) → (busy' = None ∨ busy' = Some id) →
  NoDup (ready_heads p') →
  (∀ j, j ≠ id → j ∈ ready_heads p' ↔ j ∈ ready_heads p) →
  (id ∈ ready_heads p' ↔ busy' ≠ Some id ∧ reserved o' = true) →
  (ready_heads p' ≠ [] → free_lanes p' = []) →
  (∀ t j e, parked_on p' !! t = Some (j, e) ↔
     (j = id ∧ ∃ w, w ∈ waiters o' ∧ wtask w = t ∧ wepoch w = e) ∨
     (j ≠ id ∧ parked_on p !! t = Some (j, e))) →
  claims_inv flight' busy' p'.
Proof.
  intros Ho Hobj Hc Hlanes Hok Hb Hb' Hnd Hready Hid Hpool Hparked.
  assert (∀ j, j ≠ id → busy ≠ Some j ∧ busy' ≠ Some j) as Hother.
  { intros j Hj. clear -Hb Hb' Hj. destruct Hb, Hb'; split; congruence. }
  split; [..|done|].
  - rewrite Hc. apply Hinv.
  - rewrite Hc, <-(inv_lanes _ _ _ Hinv), Hobj. by apply (lanes_exchange _ _ o).
  - intros j oj Hj. rewrite Hobj in Hj. destruct (decide (j = id)) as [->|Hne].
    + rewrite lookup_insert_eq in Hj. by simplify_eq.
    + rewrite lookup_insert_ne in Hj by done.
      pose proof (inv_objects _ _ _ Hinv _ _ Hj) as H1.
      destruct (Hother j Hne).
      rewrite bool_decide_eq_false_2 in H1 by done.
      by rewrite bool_decide_eq_false_2 by done.
  - done.
  - intros j. destruct (decide (j = id)) as [->|Hne].
    + rewrite Hid, Hobj, lookup_insert_eq. clear.
      split; [intros []; eauto|intros (?&?&[= ->]&?); auto].
    + destruct (Hother j Hne). rewrite Hready by done.
      rewrite (inv_ready _ _ _ Hinv), Hobj, lookup_insert_ne by done. tauto.
  - intros t j e. rewrite Hparked, Hobj, queued_insert.
    by setoid_rewrite (inv_parked _ _ _ Hinv).
Qed.

(** Dropping the front waiter of a queue together with its waits-for entry. *)
Lemma parked_pop id o w rest t j e :
  objects p !! id = Some o → waiters o = w :: rest →
  delete (wtask w) (parked_on p) !! t = Some (j, e) ↔
    (j = id ∧ ∃ w', w' ∈ rest ∧ wtask w' = t ∧ wepoch w' = e) ∨
    (j ≠ id ∧ parked_on p !! t = Some (j, e)).
Proof.
  intros Ho Hw.
  destruct (inv_objects _ _ _ Hinv _ _ Ho) as [Hnd _].
  rewrite Hw in Hnd. apply NoDup_cons in Hnd as [Hnin Hnd].
  rewrite lookup_delete_Some, (inv_parked _ _ _ Hinv). split.
  - intros [Hne (o' & w' & Ho' & Hw' & Ht & He)].
    destruct (decide (j = id)) as [->|Hj]; [left|right; unfold queued; eauto 10].
    simplify_eq. rewrite Hw in Hw'. apply elem_of_cons in Hw' as [->|Hw']; [done|]. eauto.
  - intros [(-> & w' & Hw' & Ht & He)|[Hj Hq]].
    + split; [|exists o, w'; rewrite Hw; set_solver].
      intros <-. apply Hnin, list_elem_of_fmap. eauto.
    + split; [|done]. intros <-.
      destruct (queued_unique (wtask w) j id e (wepoch w)) as [? _]; [done| |done].
      exists o, w. rewrite Hw. set_solver.
Qed.

Lemma parked_other id o ws t j e :
  objects p !! id = Some o → ws = waiters o →
  parked_on p !! t = Some (j, e) ↔
    (j = id ∧ ∃ w', w' ∈ ws ∧ wtask w' = t ∧ wepoch w' = e) ∨
    (j ≠ id ∧ parked_on p !! t = Some (j, e)).
Proof.
  intros Ho ->. rewrite (inv_parked _ _ _ Hinv). unfold queued.
  destruct (decide (j = id)) as [->|]; [|tauto].
  split; [intros (?&?&?&?); simplify_eq; eauto|].
  intros [[_ [? ?]]|[? _]]; [eauto|done].
Qed.

(** The front waiter of [id] is the only change: it leaves the queue. *)
Lemma pop_queue_ok id o w rest :
  objects p !! id = Some o → owner o = None → waiters o = w :: rest →
  NoDup (wtask <$> rest) ∧ depth o = 0 ∧ owner_lane o = None.
Proof.
  intros Ho Hown Hw. destruct (inv_objects _ _ _ Hinv _ _ Ho) as [Hnd Hrest].
  rewrite Hown in Hrest. rewrite Hw in Hnd. apply NoDup_cons in Hnd as [_ ?].
  destruct Hrest as (?&?&?). done.
Qed.

End preserve.

(** *** The loop bodies *)

Section loop_steps.
Context (flight : list Z) (p : PeerClaims) (id : Z) (o : ObjectClaim).
Hypothesis Hinv : claims_inv flight (Some id) p.
Hypothesis Ho : objects p !! id = Some o.
Hypothesis Hown : owner o = None.
#[local] Set Default Proof Using "Type*".

Lemma busy_not_ready : id ∉ ready_heads p.
Proof. rewrite (inv_ready _ _ _ Hinv). tauto. Qed.

Lemma ghost_inv w rest :
  waiters o = w :: rest →
  claims_inv flight (Some id) (unpark (wtask w) (upd_object id (set_waiters rest) p)).
Proof.
  intros Hw. rewrite (upd_object_Some _ _ _ _ Ho).
  destruct (pop_queue_ok _ _ _ Hinv _ _ _ _ Ho Hown Hw) as (Hnd & Hd & Hl).
  eapply (inv_update _ _ _ Hinv _ _ id o (set_waiters rest o));
    simpl; [done|reflexivity|done|done| |by right|by right|apply Hinv|done| |apply Hinv|].
  - unfold obj_ok. simpl. rewrite Hown, bool_decide_eq_true_2 by done. by split_and!.
  - pose proof busy_not_ready. tauto.
  - intros t j e. by eapply parked_pop.
Qed.

Lemma hand_over_inv now w rest lane fl grants :
  flight = lane_list lane ++ fl → waiters o = w :: rest →
  claims_inv fl None (hand_over now id w lane (upd_object id (set_waiters rest) p) grants).1.
Proof.
  intros Hf Hw. unfold hand_over, grant. simpl. rewrite (upd_object_Some _ _ _ _ Ho).
  rewrite (upd_object_Some id _ _ (set_waiters rest o)) by (simpl; by rewrite lookup_insert_eq).
  destruct (pop_queue_ok _ _ _ Hinv _ _ _ _ Ho Hown Hw) as (Hnd & Hd & Hl).
  eapply (inv_update _ _ _ Hinv _ _ id o
    (set_reserved false (own (wtask w) (wepoch w) lane (set_waiters rest o))));
    simpl; [done| |done| | |by right|by left|apply Hinv|done| |apply Hinv|].
  - by rewrite insert_insert_eq.
  - rewrite Hl, Hf. simpl. rewrite app_nil_r. f_equiv. apply Permutation_app_comm.
  - split; [done|]. simpl. unfold MAX_OBJECT_DEPTH. split; [lia|done].
  - pose proof busy_not_ready. naive_solver.
  - intros t j e. by eapply parked_pop.
Qed.

Lemma unreserve_inv :
  waiters o = [] → claims_inv flight None (upd_object id (set_reserved false) p).
Proof.
  intros Hw. rewrite (upd_object_Some _ _ _ _ Ho).
  destruct (inv_objects _ _ _ Hinv _ _ Ho) as [Hnd Hrest].
  rewrite Hown in Hrest. destruct Hrest as (?&?&?).
  eapply (inv_update _ _ _ Hinv _ _ id o (set_reserved false o));
    simpl; [done|reflexivity|done|done| |by right|by left|apply Hinv|done| |apply Hinv|].
  - unfold obj_ok. simpl. rewrite Hown. by split_and!.
  - pose proof busy_not_ready. naive_solver.
  - intros t j e. by eapply parked_other.
Qed.

Lemma reserve_inv :
  free_lanes p = [] → waiters o ≠ [] →
  claims_inv flight None
    (set_ready_heads (vec_push (ready_heads p) id) (upd_object id (set_reserved true) p)).
Proof.
  intros Hfree Hw. rewrite (upd_object_Some _ _ _ _ Ho).
  destruct (inv_objects _ _ _ Hinv _ _ Ho) as [Hnd Hrest].
  rewrite Hown in Hrest. destruct Hrest as (?&?&?).
  eapply (inv_update _ _ _ Hinv _ _ id o (set_reserved true o));
    simpl; unfold vec_push; [done|reflexivity|done|done| |by right|by left| | | |done|].
  - unfold obj_ok. simpl. rewrite Hown. by split_and!.
  - apply NoDup_app. split_and!; [apply Hinv| |apply NoDup_singleton].
    intros j Hj ->%list_elem_of_singleton. by apply busy_not_ready.
  - intros j Hj. set_solver.
  - split; [done|]. intros _. set_solver.
  - intros t j e. by eapply parked_other.
Qed.

End loop_steps.

Lemma take_lane_inv flight busy p l rest :
  claims_inv flight busy p → vec_pop (free_lanes p) = Some (l, rest) →
  claims_inv (l :: flight) busy (set_free_lanes rest p) ∧ ready_heads p = [].
Proof.
  intros Hinv Hp%vec_pop_Some.
  assert (ready_heads p = []) as Hr.
  { destruct (ready_heads p) eqn:E; [done|].
    assert (free_lanes p = []) as H by (apply Hinv; by rewrite E).
    rewrite Hp in H. by destruct rest. }
  split; [|done].
  destruct Hinv as [? Hl ?????]. split; simpl; [done| |done..|by rewrite Hr|done].
  rewrite <-Hl, Hp, <-(assoc_L (++)). simpl. by f_equiv.
Qed.

Lemma bank_lane_inv l fl p :
  claims_inv (l :: fl) None p → ready_heads p = [] →
  claims_inv fl None (set_free_lanes (vec_push (free_lanes p) l) p).
Proof.
  intros [? Hl ?????] Hr. split; simpl; [done| |done..|by rewrite Hr|done].
  unfold vec_push. by rewrite <-(assoc_L (++)).
Qed.

Lemma pop_ready_inv flight p id heads :
  claims_inv flight None p → ready_heads p = id :: heads →
  claims_inv flight (Some id) (set_ready_heads heads p) ∧
  ∃ o, objects p !! id = Some o ∧ reserved o = true ∧ owner o = None.
Proof.
  intros Hinv Hr.
  assert (∃ o, objects p !! id = Some o ∧ reserved o = true) as (o & Ho & Hres).
  { apply (inv_ready _ _ _ Hinv). rewrite Hr. set_solver. }
  destruct (inv_objects _ _ _ Hinv _ _ Ho) as [_ Hok].
  split; [|exists o; split_and!; [done..|]; destruct (owner o); [|done]; by destruct Hok as [_ ?]; congruence].
  pose proof (inv_heads _ _ _ Hinv) as Hnd. rewrite Hr in Hnd.
  apply NoDup_cons in Hnd as [Hnin Hnd].
  destruct Hinv as [? Hl Hobjs ? Hready Hpool ?]. split; simpl; [done..| |done| | |done].
  - intros j oj Hj. destruct (Hobjs _ _ Hj) as [? H2]. split; [done|].
    destruct (owner oj); [done|]. destruct H2 as (?&?&?). split_and!; [done..|].
    intros ?%bool_decide_eq_false. eauto.
  - intros j. specialize (Hready j). rewrite Hr, elem_of_cons in Hready.
    destruct (decide (j = id)) as [->|Hj].
    + split; [done|by intros [? _]].
    + assert (Some id ≠ Some j) by congruence. assert (None ≠ Some j) by done. tauto.
  - intros _. apply Hpool. by rewrite Hr.
Qed.

Lemma set_stats_inv flight busy s p :
  claims_inv flight busy p → claims_inv flight busy (set_stats s p).
Proof. by intros []; split. Qed.

(** Popping the front waiter and pushing it back. *)
Lemma requeue_eq p id o w rest :
  objects p !! id = Some o → waiters o = w :: rest →
  let p1 := upd_object id (set_waiters rest) p in
  upd_object id (λ o, set_reserved true (set_waiters (w :: waiters o) o)) p1
    = upd_object id (set_reserved true) p ∧
  reserved <$> objects p1 !! id = Some (reserved o).
Proof.
  intros Ho Hw p1. unfold p1. rewrite !(upd_object_Some _ _ _ _ Ho).
  rewrite (upd_object_Some _ _ _ (set_waiters rest o)) by (simpl; by rewrite lookup_insert_eq).
  unfold set_objects. simpl. rewrite lookup_insert_eq, insert_insert_eq, <-Hw. done.
Qed.

(** The outermost release: the object loses its owner, its lane is in flight. *)
Lemma disown_inv task id o e p :
  claims_inv [] None p → objects p !! id = Some o → owner o = Some (task, e) →
  claims_inv (lane_list (owner_lane o)) (Some id) (upd_object id disown p).
Proof.
  intros Hinv Ho Hown. rewrite (upd_object_Some _ _ _ _ Ho).
  destruct (inv_objects _ _ _ Hinv _ _ Ho) as [Hnd Hok]. rewrite Hown in Hok.
  assert (id ∉ ready_heads p) as Hnin.
  { rewrite (inv_ready _ _ _ Hinv). intros [_ (?&?&?)]. destruct Hok. congruence. }
  eapply (inv_update _ _ _ Hinv _ _ id o (disown o));
    simpl; [done|reflexivity|done| | |by left|by right|apply Hinv|done| |apply Hinv|].
  - by rewrite app_nil_r.
  - split; [done|]. simpl. split_and!; [done..|]. by rewrite bool_decide_eq_true_2.
  - tauto.
  - intros t j e'. by eapply parked_other.
Qed.

(** *** The loops *)

Section loops.
Context (now : Z) (live : nat → Z → bool).

Lemma promote_loop_inv flight id ws : ∀ p o grants,
  claims_inv flight (Some id) p → objects p !! id = Some o →
  owner o = None → reserved o = false → waiters o = ws →
  claims_inv flight None (promote_loop now live id ws p grants).1.
Proof.
  induction ws as [|w rest IH]; intros p o grants Hinv Ho Hown Hres Hw;
    cbn [promote_loop].
  - cbn [fst]. by eapply unreserve_inv.
  - destruct (live (wtask w) (wepoch w)).
    + destruct (wkind w).
      * change (free_lanes (upd_object id (set_waiters rest) p)) with (free_lanes p).
        destruct (vec_pop (free_lanes p)) as [[l fl]|] eqn:Hp.
        -- destruct (take_lane_inv _ _ _ _ _ Hinv Hp) as [Hinv' _].
           change (set_free_lanes fl (upd_object id (set_waiters rest) p))
             with (upd_object id (set_waiters rest) (set_free_lanes fl p)).
           by eapply hand_over_inv.
        -- apply vec_pop_None in Hp.
           destruct (requeue_eq p id o w rest Ho Hw) as [-> ->]. simpl. rewrite Hres.
           apply (reserve_inv _ _ _ _ Hinv Ho Hown Hp). by rewrite Hw.
      * by eapply hand_over_inv.
    + pose proof (ghost_inv _ _ _ _ Hinv Ho Hown _ _ Hw) as Hinv'.
      rewrite (upd_object_Some _ _ _ _ Ho) in Hinv' |- *.
      eapply (IH _ (set_waiters rest o)); [done| |done..].
      simpl. by rewrite lookup_insert_eq.
Qed.

Lemma serve_loop_inv fl l id ws : ∀ p o grants,
  claims_inv (l :: fl) (Some id) p → objects p !! id = Some o →
  owner o = None → waiters o = ws →
  match serve_loop now live id l ws p grants with
  | (p', _, r) =>
      ready_heads p' = ready_heads p ∧
      match r with
      | Some l' => l' = l ∧ claims_inv (l :: fl) None p'
      | None => claims_inv fl None p'
      end
  end.
Proof.
  induction ws as [|w rest IH]; intros p o grants Hinv Ho Hown Hw; cbn [serve_loop].
  - split_and!; [done..|]. by eapply unreserve_inv.
  - destruct (live (wtask w) (wepoch w)).
    + destruct (wkind w); simpl.
      * split; [done|]. by eapply (hand_over_inv _ _ _ _ Hinv Ho Hown now w rest (Some l) fl []).
      * split_and!; [done..|].
        by eapply (hand_over_inv _ _ _ _ Hinv Ho Hown now w rest None (l :: fl) []).
    + pose proof (ghost_inv _ _ _ _ Hinv Ho Hown _ _ Hw) as Hinv'.
      rewrite (upd_object_Some _ _ _ _ Ho) in Hinv' |- *.
      refine (IH (unpark _ (set_objects _ p)) (set_waiters rest o) grants Hinv' _ Hown eq_refl).
      simpl. by rewrite lookup_insert_eq.
Qed.

Lemma homes_loop_inv fl l heads : ∀ p grants,
  claims_inv (l :: fl) None p → ready_heads p = heads →
  claims_inv fl None (homes_loop now live l heads p grants).1.
Proof.
  induction heads as [|id heads IH]; intros p grants Hinv Hr; simpl.
  - by apply bank_lane_inv.
  - destruct (pop_ready_inv _ _ _ _ Hinv Hr) as [Hinv' (o & Ho & Hres & Hown)].
    rewrite Ho, Hres.
    pose proof (serve_loop_inv fl l id (waiters o) _ _ grants Hinv' Ho Hown eq_refl) as H.
    destruct serve_loop as [[p' g'] [l'|]]; destruct H as [H1 H2]; [|done].
    destruct H2 as [-> H2]. by apply IH.
Qed.

Lemma release_lane_inv fl l p grants :
  claims_inv (l :: fl) None p → claims_inv fl None (release_lane now live l p grants).1.
Proof.
  intros Hinv. unfold release_lane, wake_drain.
  pose proof (homes_loop_inv fl l (ready_heads p) p grants Hinv eq_refl) as H.
  destruct homes_loop as [p' g']. simpl in H.
  destruct (all_home p'); [|done]. by destruct H.
Qed.

Lemma gc_object_inv flight id p :
  claims_inv flight None p → claims_inv flight None (gc_object id p).
Proof.
  intros Hinv. unfold gc_object. destruct (objects p !! id) as [o|] eqn:Ho; [|done].
  destruct (idle o) eqn:Hidle; [|done].
  unfold idle in Hidle. rewrite !andb_true_iff, !bool_decide_eq_true, negb_true_iff in Hidle.
  destruct Hidle as [[Hown Hw] Hres].
  destruct (inv_objects _ _ _ Hinv _ _ Ho) as [_ Hok]. rewrite Hown in Hok.
  destruct Hok as (_&Hlane&_).
  pose proof Hinv as [? Hl Hobjs ? Hready ? Hparked]. split; simpl; [done| | |done| |done|].
  - by rewrite <-Hl, (held_delete _ _ _ Ho), Hlane.
  - intros j oj [_ Hj]%lookup_delete_Some. exact (Hobjs _ _ Hj).
  - intros j. rewrite Hready. split; [|intros [? (oj & [_ Hj]%lookup_delete_Some & Hr)]; eauto].
    intros [? (oj & Hj & Hr)]. split; [done|]. exists oj. split; [|done].
    apply lookup_delete_Some. split; [|done]. intros <-. congruence.
  - intros t j e. rewrite Hparked. split.
    + intros (oj & w & Hj & Hin & ?). exists oj, w. split; [|done].
      apply lookup_delete_Some. split; [|done]. intros <-. simplify_eq.
      rewrite Hw in Hin. by apply elem_of_nil in Hin.
    + intros (oj & w & [_ Hj]%lookup_delete_Some & ?). by exists oj, w.
Qed.

(** Ending a call: the depth goes down, and at the outermost one the object
    and its lane are handed on. *)
Lemma end_call_inv task id o e p :
  claims_inv [] None p → objects p !! id = Some o → owner o = Some (task, e) →
  claims_inv [] None (end_call now live task id p).1.
Proof.
  intros Hinv Ho Hown. unfold end_call. rewrite Ho.
  destruct (inv_objects _ _ _ Hinv _ _ Ho) as [Hnd Hok]. rewrite Hown in Hok.
  destruct Hok as [Hdepth Hres].
  assert (id ∉ ready_heads p) as Hnin.
  { rewrite (inv_ready _ _ _ Hinv). intros [_ (?&?&?)]. congruence. }
  destruct (0 <? Z.max 0 (depth o - 1)) eqn:Hd.
  - simpl. rewrite (upd_object_Some _ _ _ _ Ho).
    eapply (inv_update _ _ _ Hinv _ _ id o (set_depth (Z.max 0 (depth o - 1)) o));
      simpl; [done|reflexivity|done|done| |by left|by left|apply Hinv|done| |apply Hinv|].
    + split; [done|]. simpl. rewrite Hown. split; [|done]. lia.
    + split; [done|]. intros [_ ?]. congruence.
    + intros t j e'. by eapply parked_other.
  - assert (claims_inv (lane_list (owner_lane o)) (Some id) (upd_object id disown p)) as Hinv'.
    { by eapply disown_inv. }
    assert (objects (upd_object id disown p) !! id = Some (disown o)) as Ho'.
    { rewrite (upd_object_Some _ _ _ _ Ho). simpl. by rewrite lookup_insert_eq. }
    unfold promote_head. rewrite Ho'.
    pose proof (promote_loop_inv _ id (waiters (disown o)) _ _ [] Hinv' Ho' eq_refl Hres eq_refl) as H.
    destruct promote_loop as [p1 g1]. simpl in H.
    destruct (owner_lane o) as [l|]; simpl in *.
    + pose proof (release_lane_inv [] l p1 g1 H) as H2.
      destruct release_lane as [p2 g2]. by apply gc_object_inv.
    + by apply gc_object_inv.
Qed.

End loops.

(** *** Acquiring, queueing and withdrawing *)

(** What [touch_label] leaves in the object's entry. *)
Definition touched (object_id : Z) (label : string) (p : PeerClaims) : ObjectClaim :=
  let o := default default_object (objects p !! object_id) in
  if decide (olabel o = EmptyString) then set_label (label_with_id label object_id) o else o.

Lemma touch_label_eq id label p :
  touch_label id label p = set_objects (<[id := touched id label p]> (objects p)) p.
Proof. done. Qed.

Lemma touched_fields id label p (o := default default_object (objects p !! id)) :
  owner (touched id label p) = owner o ∧ depth (touched id label p) = depth o ∧
  owner_lane (touched id label p) = owner_lane o ∧ waiters (touched id label p) = waiters o ∧
  reserved (touched id label p) = reserved o.
Proof. unfold touched. fold o. by destruct (decide _). Qed.

Lemma touch_label_inv flight id label p :
  claims_inv flight None p → claims_inv flight None (touch_label id label p).
Proof.
  intros Hinv. rewrite touch_label_eq.
  pose proof (touched_fields id label p) as (H1&H2&H3&H4&H5).
  set (o' := touched id label p) in *.
  destruct (objects p !! id) as [o|] eqn:Ho; simpl in *.
  - eapply (inv_update _ _ _ Hinv _ _ id o o');
      simpl; [done|reflexivity|done|by rewrite H3| |by left|by left|apply Hinv|done| |apply Hinv|].
    + unfold obj_ok. rewrite H1, H2, H3, H4, H5. exact (inv_objects _ _ _ Hinv _ _ Ho).
    + rewrite (inv_ready _ _ _ Hinv), H5, Ho.
      split; [intros [? (?&?&?)]; by simplify_eq|intros []; eauto].
    + intros t j e. by eapply parked_other.
  - destruct Hinv as [? Hl Hobjs ? Hready ? Hparked]. split; simpl; [done| | |done| |done|].
    + by rewrite held_insert_new, H3.
    + intros j oj [[<- <-]|[_ Hj]]%lookup_insert_Some; [|exact (Hobjs _ _ Hj)].
      unfold obj_ok. rewrite H1, H2, H3, H4. split; [constructor|done].
    + intros j. rewrite Hready. destruct (decide (j = id)) as [->|].
      * rewrite lookup_insert_eq. split; intros [? (?&?&?)]; [congruence|simplify_eq; congruence].
      * by rewrite lookup_insert_ne.
    + intros t j e. rewrite Hparked, queued_insert, H4. split.
      * intros Hq. right. split; [|done]. intros ->. destruct Hq as (?&?&?&?). congruence.
      * intros [[-> (?&Hin&?)]|[? ?]]; [by apply elem_of_nil in Hin|done].
Qed.

(** A free, unreserved object has no queue and is owned by its next claimant. *)
Lemma own_inv flight id o task epoch lane p :
  claims_inv (lane_list lane ++ flight) None p → objects p !! id = Some o →
  owner o = None → reserved o = false →
  claims_inv flight None (upd_object id (own task epoch lane) p).
Proof.
  intros Hinv Ho Hown Hres. rewrite (upd_object_Some _ _ _ _ Ho).
  destruct (inv_objects _ _ _ Hinv _ _ Ho) as [Hnd Hok]. rewrite Hown in Hok.
  destruct Hok as (_&Hl&_).
  eapply (inv_update _ _ _ Hinv _ _ id o (own task epoch lane o));
    simpl; [done|reflexivity|done| | |by left|by left|apply Hinv|done| |apply Hinv|].
  - rewrite Hl. simpl. rewrite app_nil_r. f_equiv. apply Permutation_app_comm.
  - split; [done|]. simpl. unfold MAX_OBJECT_DEPTH. split; [lia|done].
  - rewrite (inv_ready _ _ _ Hinv). split; [intros [? (?&?&?)]|intros []]; congruence.
  - intros t j e. by eapply parked_other.
Qed.

Lemma touched_Some id label p :
  objects (touch_label id label p) !! id = Some (touched id label p).
Proof. rewrite touch_label_eq. simpl. by rewrite lookup_insert_eq. Qed.

Lemma try_acquire_inv task epoch id label nested p :
  claims_inv [] None p →
  claims_inv [] None (try_acquire task epoch id label nested p).1.
Proof.
  intros H0. unfold try_acquire.
  pose proof (touched_Some id label (count_acquisition p)) as Ho.
  set (o := touched id label (count_acquisition p)) in *. clearbody o.
  assert (claims_inv [] None (touch_label id label (count_acquisition p))) as Hinv
    by by apply touch_label_inv, set_stats_inv.
  set (q := touch_label id label (count_acquisition p)) in *. clearbody q. clear H0 p.
  rewrite Ho. simpl.
  destruct (inv_objects _ _ _ Hinv _ _ Ho) as [Hnd Hok].
  destruct (owner o) as [[t e]|] eqn:Hown.
  - destruct (decide (t = task)); [|done].
    destruct (Z.leb_spec MAX_OBJECT_DEPTH (depth o)); [done|].
    apply set_stats_inv. simpl. rewrite (upd_object_Some _ _ _ _ Ho).
    eapply (inv_update _ _ _ Hinv _ _ id o (set_depth (depth o + 1) o));
      simpl; [done|reflexivity|done|done| |by left|by left|apply Hinv|done| |apply Hinv|].
    + split; [done|]. simpl. rewrite Hown. split; [lia|apply Hok].
    + rewrite (inv_ready _ _ _ Hinv). split; [intros [? (?&?&?)]|intros []]; destruct Hok; congruence.
    + intros t' j e'. by eapply parked_other.
  - destruct (reserved o) eqn:Hres; [done|].
    destruct nested; simpl.
    + by eapply (own_inv [] id o task epoch None).
    + destruct (vec_pop (free_lanes q)) as [[l rest]|] eqn:Hp; [|done].
      destruct (take_lane_inv _ _ _ _ _ Hinv Hp) as [Hinv' _].
      by eapply (own_inv [] id o task epoch (Some l)).
Qed.

(** [enqueue] in one step: the waiter at the back of the queue, the waits-for
    entry, and the reservation of a free unreserved object. *)
Lemma enqueue_eq now task epoch id label kind p :
  let o := touched id label p in
  let ws := vec_push (waiters o) (mkWaiter task epoch kind now) in
  let need := bool_decide (owner o = None) && negb (reserved o) in
  ∃ s, enqueue now task epoch id label kind p =
    set_stats s (set_ready_heads (if need then vec_push (ready_heads p) id else ready_heads p)
      (set_parked_on (<[task := (id, epoch)]> (parked_on p))
        (set_objects (<[id := set_reserved (need || reserved o) (set_waiters ws o)]> (objects p)) p))).
Proof.
  intros o ws need. unfold enqueue. cbn zeta. unfold touch_label.
  change (objects (count_contended p)) with (objects p). fold (touched id label p). fold o.
  unfold upd_object. cbn. rewrite lookup_insert_eq. cbn.
  fold need. destruct need; rewrite !alter_insert_eq; cbn.
  - eexists. unfold note_queue_len, set_stats. cbn. rewrite ?alter_insert_eq. reflexivity.
  - eexists. unfold note_queue_len, set_stats. cbn. rewrite ?alter_insert_eq. reflexivity.
Qed.

(** Queueing: the task is parked nowhere, and a free unreserved object is
    queued for only when no lane is free. *)
Lemma enqueue_inv now task epoch id label kind p (o := touched id label p) :
  claims_inv [] None p → parked_on p !! task = None →
  (owner o = None → reserved o = false → free_lanes p = []) →
  claims_inv [] None (enqueue now task epoch id label kind p).
Proof.
  intros H0 Hpark Hguard.
  destruct (enqueue_eq now task epoch id label kind p) as [s ->]. fold o.
  apply set_stats_inv. set (w := mkWaiter task epoch kind now).
  pose proof (touched_Some id label p) as Ho. fold o in Ho. rewrite touch_label_eq in Ho.
  pose proof (touch_label_inv [] id label p H0) as Hinv. rewrite touch_label_eq in Hinv.
  fold o in Hinv.
  set (q := set_objects (<[id := o]> (objects p)) p) in *.
  assert (∀ x, <[id := x]> (objects p) = <[id := x]> (objects q)) as Hq.
  { intros x. simpl. by rewrite insert_insert_eq. }
  rewrite Hq.
  destruct (inv_objects _ _ _ Hinv _ _ Ho) as [Hnd Hok].
  assert (∀ w', w' ∈ waiters o → wtask w' ≠ task) as Hfresh.
  { intros w' Hw' Ht. assert (parked_on q !! task = Some (id, wepoch w')) as E.
    - apply (inv_parked _ _ _ Hinv). by exists o, w'.
    - simpl in E. congruence. }
  eapply (inv_update _ _ _ Hinv _ _ id o); [done|reflexivity|..];
    simpl; [done|done| |by left|by left| | | | |].
  - split; simpl.
    + unfold vec_push. rewrite fmap_app. apply NoDup_app. split_and!; [done| |apply NoDup_singleton].
      intros t (w' & -> & Hw')%list_elem_of_fmap Ht%list_elem_of_singleton. by eapply Hfresh.
    + destruct (owner o) eqn:E; [by simpl|]. destruct Hok as (?&?&?). split_and!; [done..|].
      rewrite bool_decide_eq_true_2 by done. by destruct (reserved o).
  - destruct (_ && _) eqn:Hneed; [|apply Hinv].
    apply NoDup_app. split_and!; [apply (inv_heads _ _ _ Hinv)| |apply NoDup_singleton].
    intros j Hj ->%list_elem_of_singleton. apply andb_true_iff in Hneed as [_ Hr%negb_true_iff].
    apply (inv_ready _ _ _ Hinv) in Hj as [_ (o1 & Ho1 & ?)]. pose proof (eq_trans (eq_sym Ho) Ho1) as E. injection E as ->. congruence.
  - intros j Hj. destruct (_ && _); [|done]. unfold vec_push. set_solver.
  - destruct (_ && _) eqn:Hneed; simpl.
    + split; [done|]. intros _. unfold vec_push. set_solver.
    + change (ready_heads p) with (ready_heads q). rewrite (inv_ready _ _ _ Hinv).
      split; [|intros []; eauto]. intros [? (o1&Ho1&?)].
      pose proof (eq_trans (eq_sym Ho) Ho1) as E. injection E as ->. done.
  - destruct (_ && _) eqn:Hneed; [|apply (inv_pool _ _ _ Hinv)]. intros _.
    apply andb_true_iff in Hneed as [?%bool_decide_eq_true ?%negb_true_iff]. auto.
  - intros t j e. rewrite lookup_insert_Some.
    pose proof (parked_other _ _ _ Hinv id o (waiters o) t j e Ho eq_refl) as Hpo. simpl in Hpo.
    unfold vec_push. setoid_rewrite elem_of_app. setoid_rewrite list_elem_of_singleton. split.
    + intros [[<- [= <- <-]]|[Hne [[-> (w'&Hw'&Hw2)]|?]%Hpo]].
      * left. split; [done|]. exists w. split; [by right|done].
      * left. split; [done|]. exists w'. split; [by left|done].
      * by right.
    + intros [[-> (w' & [Hw'| ->] & <- & <-)]|[? ?]].
      * right. split; [by apply not_eq_sym, Hfresh|]. apply Hpo. left. eauto.
      * by left.
      * right. split; [congruence|]. done.
Qed.

(** Withdrawing: the task is parked on this object, or nowhere any more. *)
Lemma retract_inv task id p :
  claims_inv [] None p →
  (∀ j e, parked_on p !! task = Some (j, e) → j = id) →
  claims_inv [] None (retract task id p).
Proof.
  intros Hinv Hpark. unfold retract. apply gc_object_inv.
  destruct (objects p !! id) as [o|] eqn:Ho.
  - rewrite (upd_object_Some _ _ _ o) by done.
    destruct (inv_objects _ _ _ Hinv _ _ Ho) as [Hnd Hok].
    eapply (inv_update _ _ _ Hinv _ _ id o
      (set_waiters (filter (λ w, wtask w ≠ task) (waiters o)) o));
      simpl; [done|reflexivity|done|done| |by left|by left|apply Hinv|done| |apply Hinv|].
    + split; simpl.
      * eapply sublist_NoDup; [exact Hnd|]. apply fmap_sublist. apply sublist_filter.
      * destruct (owner o); [done|]. destruct Hok as (?&?&Hw). split_and!; [done..|].
        intros Hb Hr. by rewrite (Hw Hb Hr).
    + rewrite (inv_ready _ _ _ Hinv), Ho.
      split; [intros [? (?&?&?)]; by simplify_eq|intros []; eauto].
    + intros t j e. rewrite lookup_delete_Some.
      setoid_rewrite list_elem_of_filter.
      rewrite (parked_other _ _ _ Hinv id o (waiters o) t j e Ho eq_refl) at 1. split.
      * intros [Hne [[-> (w&?&?&?)]|?]]; [left; split; [done|]; exists w; naive_solver|by right].
      * intros [[-> (w&[? ?]&<-&?)]|[? Hq]]; [split; [done|left; eauto]|].
        split; [|by right]. intros <-. by apply Hpark in Hq.
  - assert (upd_object id (λ o, set_waiters (filter (λ w, wtask w ≠ task) (waiters o)) o)
              (unpark task p) = p) as ->; [|done].
    assert (parked_on p !! task = None) as Hn.
    { destruct (parked_on p !! task) as [[j e]|] eqn:E; [|done].
      pose proof (Hpark _ _ eq_refl) as ->. apply (inv_parked _ _ _ Hinv) in E as (?&?&?&?). congruence. }
    unfold upd_object, unpark. simpl. rewrite alter_alt, Ho, delete_id by done. by destruct p.
Qed.

Lemma new_inv label n : claims_inv [] None (new label n).
Proof.
  split; simpl; [lia| |done|constructor| |done|].
  - unfold held. rewrite map_to_list_empty. simpl. rewrite app_nil_r. apply reverse_Permutation.
  - intros id. split; [by intros ?%elem_of_nil|intros [_ (?&?&?)]; done].
  - intros t id e. split; [done|]. intros (?&?&?&?). done.
Qed.

Lemma set_drain_inv flight busy ds p :
  claims_inv flight busy p → claims_inv flight busy (set_drain_waiters ds p).
Proof. by intros []; split. Qed.

Lemma request_drain_inv task epoch p :
  claims_inv [] None p → claims_inv [] None (request_drain task epoch p).1.
Proof.
  intros Hinv. unfold request_drain. destruct (all_home p); [done|]. by apply set_drain_inv.
Qed.
