(* ===== verification/ClaimsProps.v ===== *)
(** * Properties of the claim state machine

    The closed forms of the two hand-over loops, the invariant of every
    reachable registry, FIFO hand-over, lane conservation, drain, and the
    completeness of the waits-for walk for owner cycles. *)
From S2P Require Import Prelude Claims ClaimsInv.
From stdpp Require Import base numbers list gmap strings pretty.
From stdpp Require Import options.
Local Open Scope Z_scope.
#[local] Set Warnings "-clear-no-such-hyp".

(** ** The loops in closed form *)

(** A queue without the cancelled waiters at its front. *)
Fixpoint drop_ghosts (live : nat → Z → bool) (ws : list Waiter) : list Waiter :=
  match ws with
  | [] => []
  | w :: rest => if live (wtask w) (wepoch w) then ws else drop_ghosts live rest
  end.

(** [p'] is [p] up to its statistics and waits-for entries. *)
Definition core_eq (p p' : PeerClaims) : Prop :=
  plabel p = plabel p' ∧ objects p = objects p' ∧ lane_count p = lane_count p' ∧
  free_lanes p = free_lanes p' ∧ ready_heads p = ready_heads p' ∧
  drain_waiters p = drain_waiters p' ∧ gone p = gone p'.

Lemma drop_ghosts_sublist live ws : drop_ghosts live ws `sublist_of` ws.
Proof. induction ws as [|w ws IH]; simpl; [done|]. case_match; [done|]. by constructor. Qed.

Lemma drop_ghosts_live live ws w rest :
  drop_ghosts live ws = w :: rest → live (wtask w) (wepoch w) = true ∧ w ∈ ws.
Proof.
  intros H. split; [|eapply sublist_subseteq; [apply (drop_ghosts_sublist live)|rewrite H; by left]].
  induction ws as [|w' ws IH]; simpl in H; [done|]. case_match; [by simplify_eq|eauto].
Qed.

Definition given (w : Waiter) (lane : option Z) (rest : list Waiter) (o : ObjectClaim) : ObjectClaim :=
  mkObject (Some (wtask w, wepoch w)) 1 lane (olabel o) rest false.

Definition with_object (id : Z) (o : ObjectClaim) (p : PeerClaims) : PeerClaims :=
  set_objects (<[id := o]> (objects p)) p.

Section closed_forms.
Context (now : Z) (live : nat → Z → bool) (id : Z).

Lemma promote_loop_spec ws : ∀ p o grants,
  objects p !! id = Some o → waiters o = ws → reserved o = false →
  ∃ p', core_eq p' (promote_loop now live id ws p grants).1 ∧
  match drop_ghosts live ws with
  | [] => p' = with_object id (set_reserved false (set_waiters [] o)) p ∧
          (promote_loop now live id ws p grants).2 = grants
  | w :: rest =>
      match wkind w, vec_pop (free_lanes p) with
      | Nested, _ =>
          p' = with_object id (given w None rest o) p ∧
          (promote_loop now live id ws p grants).2 =
            vec_push grants (mkGrant (wtask w) (wepoch w) None)
      | TopLevel, Some (lane, fl) =>
          p' = with_object id (given w (Some lane) rest o) (set_free_lanes fl p) ∧
          (promote_loop now live id ws p grants).2 =
            vec_push grants (mkGrant (wtask w) (wepoch w) (Some lane))
      | TopLevel, None =>
          p' = set_ready_heads (vec_push (ready_heads p) id)
                 (with_object id (set_reserved true (set_waiters (w :: rest) o)) p) ∧
          (promote_loop now live id ws p grants).2 = grants
      end
  end.
Proof.
  induction ws as [|w rest IH]; intros p o grants Ho Hw Hres; cbn [promote_loop drop_ghosts].
  - exists (with_object id (set_reserved false (set_waiters [] o)) p).
    rewrite (upd_object_Some _ _ _ _ Ho). split; [|done]. unfold core_eq, with_object. simpl.
    split_and!; [done| |done..]. f_equal. unfold set_reserved, set_waiters. simpl. by rewrite Hw.
  - rewrite (upd_object_Some _ _ _ _ Ho).
    set (p1 := set_objects _ p).
    assert (objects p1 !! id = Some (set_waiters rest o)) as Ho1 by apply lookup_insert_eq.
    destruct (live (wtask w) (wepoch w)).
    + change (free_lanes p1) with (free_lanes p).
      destruct (wkind w); [destruct (vec_pop (free_lanes p)) as [[lane fl]|]|].
      * eexists; split; [|split; reflexivity].
        unfold core_eq, hand_over, grant, note_wait, upd_object. simpl.
        rewrite alter_insert_eq, insert_insert_eq || rewrite alter_insert_eq. done.
      * eexists; split; [|split; reflexivity].
        rewrite Ho1. simpl. rewrite Hres. unfold core_eq, upd_object. simpl.
        rewrite alter_insert_eq. done.
      * eexists; split; [|split; reflexivity].
        unfold core_eq, hand_over, grant, note_wait, upd_object. simpl.
        rewrite alter_insert_eq. done.
    + destruct (IH (unpark (wtask w) p1) (set_waiters rest o) grants Ho1 eq_refl Hres)
        as (p' & Hcore & Hp').
      destruct (drop_ghosts live rest) as [|w' rest'].
      * destruct Hp' as [-> ->]. eexists; split; [|split; reflexivity].
        unfold core_eq in *. simpl in *. by rewrite insert_insert_eq in Hcore.
      * change (free_lanes (unpark _ p1)) with (free_lanes p) in Hp'.
        destruct (wkind w'); [destruct (vec_pop (free_lanes p)) as [[lane fl]|]|];
          destruct Hp' as [-> ->]; (eexists; split; [|split; reflexivity]);
          unfold core_eq in *; simpl in *; by rewrite insert_insert_eq in Hcore.
Qed.

Lemma serve_loop_spec l ws : ∀ p o grants,
  objects p !! id = Some o → waiters o = ws →
  ∃ p', core_eq p' (serve_loop now live id l ws p grants).1.1 ∧
  match drop_ghosts live ws with
  | [] => p' = with_object id (set_reserved false (set_waiters [] o)) p ∧
          (serve_loop now live id l ws p grants).1.2 = grants ∧
          (serve_loop now live id l ws p grants).2 = Some l
  | w :: rest =>
      let lane := match wkind w with Nested => None | TopLevel => Some l end in
      p' = with_object id (given w lane rest o) p ∧
      (serve_loop now live id l ws p grants).1.2 =
        vec_push grants (mkGrant (wtask w) (wepoch w) lane) ∧
      (serve_loop now live id l ws p grants).2 =
        match wkind w with Nested => Some l | TopLevel => None end
  end.
Proof.
  induction ws as [|w rest IH]; intros p o grants Ho Hw; cbn [serve_loop drop_ghosts].
  - exists (with_object id (set_reserved false (set_waiters [] o)) p).
    rewrite (upd_object_Some _ _ _ _ Ho). split; [|done]. unfold core_eq, with_object. simpl.
    split_and!; [done| |done..]. f_equal. unfold set_reserved, set_waiters. simpl. by rewrite Hw.
  - rewrite (upd_object_Some _ _ _ _ Ho).
    set (p1 := set_objects _ p).
    assert (objects p1 !! id = Some (set_waiters rest o)) as Ho1 by apply lookup_insert_eq.
    destruct (live (wtask w) (wepoch w)).
    + destruct (wkind w); (eexists; split; [|split_and!; reflexivity]);
        unfold core_eq, hand_over, grant, note_wait, upd_object; simpl; by rewrite alter_insert_eq.
    + destruct (IH (unpark (wtask w) p1) (set_waiters rest o) grants Ho1 eq_refl)
        as (p' & Hcore & Hp').
      destruct (drop_ghosts live rest) as [|w' rest']; destruct Hp' as (-> & -> & ->);
        (eexists; split; [|split_and!; reflexivity]);
        unfold core_eq in *; simpl in *; by rewrite insert_insert_eq in Hcore.
Qed.

End closed_forms.

(** ** Who gets a freed lane *)

(** The first reserved object whose first live waiter wants a lane, that waiter,
    and the reservations behind it. *)
Fixpoint lane_taker (live : nat → Z → bool) (m : gmap Z ObjectClaim) (heads : list Z)
    : option (Z * Waiter * list Z) :=
  match heads with
  | [] => None
  | id :: heads' =>
      match drop_ghosts live (default [] (waiters <$> m !! id)) with
      | w :: _ => if decide (wkind w = TopLevel) then Some (id, w, heads')
                  else lane_taker live m heads'
      | [] => lane_taker live m heads'
      end
  end.

Lemma lane_taker_ext live m m' heads :
  (∀ id, id ∈ heads → m !! id = m' !! id) → lane_taker live m heads = lane_taker live m' heads.
Proof.
  induction heads as [|id heads IH]; intros H; simpl; [done|].
  rewrite (H id) by (by left). rewrite IH by (intros j Hj; apply H; by right). done.
Qed.

Lemma lane_taker_elem live m heads id w later :
  lane_taker live m heads = Some (id, w, later) →
  id ∈ heads ∧ ∀ j, j ∈ later → j ∈ heads.
Proof.
  induction heads as [|i heads IH]; simpl; [done|].
  repeat case_match; intros; simplify_eq;
    try (destruct IH; [done|]; split; [by right|intros; right; by auto]).
  split; [by left|by right].
Qed.

Lemma lane_taker_snoc live m heads id :
  lane_taker live m (heads ++ [id]) =
  match lane_taker live m heads with
  | Some (i, w, later) => Some (i, w, later ++ [id])
  | None => lane_taker live m [id]
  end.
Proof.
  induction heads as [|i heads IH]; [done|].
  cbn [lane_taker app] in *. rewrite IH. by repeat case_match.
Qed.

(** What the loop over the reserved heads does with lane [l], from [p]. *)
Definition homes_post (live : nat → Z → bool) (l : Z) (heads : list Z) (p : PeerClaims)
    (grants : list Grant) (r : PeerClaims * list Grant) : Prop :=
  (∃ g2, r.2 = grants ++ g2) ∧
  (∀ id, id ∉ heads → objects r.1 !! id = objects p !! id) ∧
  match lane_taker live (objects p) heads with
  | Some (id, w, later) =>
      ∃ o rest, objects p !! id = Some o ∧ drop_ghosts live (waiters o) = w :: rest ∧
        objects r.1 !! id = Some (given w (Some l) rest o) ∧
        mkGrant (wtask w) (wepoch w) (Some l) ∈ r.2 ∧ free_lanes r.1 = free_lanes p ∧
        ready_heads r.1 = later ∧ (∀ j, j ∈ later → objects r.1 !! j = objects p !! j)
  | None => free_lanes r.1 = vec_push (free_lanes p) l ∧ ready_heads r.1 = []
  end.

(** A head that does not want the lane: the loop goes on from [p1]. *)
Lemma homes_post_skip live l id heads o' gx p p1 grants r :
  objects p1 = <[id := o']> (objects p) → free_lanes p1 = free_lanes p →
  id ∉ heads → lane_taker live (objects p) (id :: heads) = lane_taker live (objects p) heads →
  homes_post live l heads p1 (grants ++ gx) r → homes_post live l (id :: heads) p grants r.
Proof.
  intros Ho1 Hf1 Hnin Hlt ([g2 Hg2] & Hframe & Htaker).
  assert (∀ j, j ∈ heads → objects p1 !! j = objects p !! j) as Hsame.
  { intros j Hj. rewrite Ho1, lookup_insert_ne; [done|]. by intros ->. }
  unfold homes_post. rewrite Hlt.
  rewrite (lane_taker_ext live (objects p1) (objects p) heads Hsame) in Htaker.
  split_and!.
  - exists (gx ++ g2). by rewrite Hg2, (assoc_L (++)).
  - intros j Hj. rewrite not_elem_of_cons in Hj. destruct Hj.
    rewrite Hframe by done. by rewrite Ho1, lookup_insert_ne.
  - rewrite Hf1 in Htaker. destruct (lane_taker _ _ heads) as [[[i w] later]|] eqn:E; [|done].
    destruct Htaker as (oi & rest & Hoi & ? & ? & ? & ? & ? & Hj).
    apply lane_taker_elem in E as [Hi Hlater].
    rewrite Hsame in Hoi by done.
    exists oi, rest. split_and!; [done..|]. intros j Hjl. rewrite Hj by done. auto.
Qed.

Lemma homes_loop_spec now live fl l heads : ∀ p grants,
  claims_inv (l :: fl) None p → ready_heads p = heads →
  homes_post live l heads p grants (homes_loop now live l heads p grants).
Proof.
  induction heads as [|id heads IH]; intros p grants Hinv Hr; cbn [homes_loop].
  - unfold homes_post. simpl. split_and!; [by exists []; rewrite app_nil_r|done|done|done].
  - destruct (pop_ready_inv _ _ _ _ Hinv Hr) as [Hinv' (o & Ho & Hres & Hown)].
    pose proof (inv_heads _ _ _ Hinv) as Hnd. rewrite Hr in Hnd.
    apply NoDup_cons in Hnd as [Hnin Hnd].
    change (objects (set_ready_heads heads p)) with (objects p). rewrite Ho, Hres.
    pose proof (serve_loop_inv now live fl l id (waiters o) _ _ grants Hinv' Ho Hown eq_refl) as Hsl.
    destruct (serve_loop_spec now live id l (waiters o) (set_ready_heads heads p) o grants Ho eq_refl)
      as (q & (_&Hobj&_&Hfree&Hready&_) & Hspec).
    assert (lane_taker live (objects p) (id :: heads) =
      match drop_ghosts live (waiters o) with
      | w :: _ => if decide (wkind w = TopLevel) then Some (id, w, heads)
                  else lane_taker live (objects p) heads
      | [] => lane_taker live (objects p) heads
      end) as Hlt by (cbn [lane_taker]; by rewrite Ho).
    destruct serve_loop as [[p1 g1] r]. cbn [fst snd] in Hobj, Hfree, Hready, Hspec, Hsl.
    destruct (drop_ghosts live (waiters o)) as [|w rest] eqn:Hdg.
    + destruct Hspec as (-> & -> & ->). destruct Hsl as (Hr1 & _ & Hinv1).
      eapply (homes_post_skip _ _ _ _ _ []); [by rewrite <-Hobj|by rewrite <-Hfree|done..|].
      rewrite app_nil_r. by apply IH.
    + destruct Hspec as (-> & -> & ->). destruct (wkind w) eqn:Hk.
      * unfold homes_post. rewrite Hlt. cbn [fst snd]. rewrite decide_True by done.
        split_and!.
        -- by eexists.
        -- intros j Hj. rewrite not_elem_of_cons in Hj. destruct Hj.
           rewrite <-Hobj. simpl. by rewrite lookup_insert_ne.
        -- exists o, rest. rewrite <-Hobj. simpl. rewrite lookup_insert_eq.
           split_and!; [done..| |done|done|].
           ++ unfold vec_push. set_solver.
           ++ intros j Hj. rewrite lookup_insert_ne; [done|]. by intros ->.
      * destruct Hsl as (Hr1 & _ & Hinv1).
        eapply homes_post_skip; [by rewrite <-Hobj|by rewrite <-Hfree|done..|]. by apply IH.
Qed.

(** ** Ending the outermost call *)

Lemma gc_object_keeps id o p :
  objects p !! id = Some o → idle o = false → gc_object id p = p.
Proof. intros Ho Hi. unfold gc_object. by rewrite Ho, Hi. Qed.

Lemma release_lane_core now live l p grants :
  let r := homes_loop now live l (ready_heads p) p grants in
  objects (release_lane now live l p grants).1 = objects r.1 ∧
  free_lanes (release_lane now live l p grants).1 = free_lanes r.1 ∧
  ready_heads (release_lane now live l p grants).1 = ready_heads r.1 ∧
  ∃ g2, (release_lane now live l p grants).2 = r.2 ++ g2.
Proof.
  unfold release_lane, wake_drain. destruct homes_loop as [p' g']. simpl.
  destruct (all_home p'); simpl; split_and!; try done; [by eexists|exists []; by rewrite app_nil_r].
Qed.

Lemma lane_taker_single live m id o w rest :
  m !! id = Some o → drop_ghosts live (waiters o) = w :: rest → wkind w = TopLevel →
  lane_taker live m [id] = Some (id, w, []).
Proof. intros Ho Hd Hk. simpl. rewrite Ho. simpl. by rewrite Hd, Hk. Qed.

(** The lane of the ending call, offered after the object was promoted. *)
Definition after_promote (now : Z) (live : nat → Z → bool) (id : Z) (o : ObjectClaim)
    (p1 : PeerClaims) (g1 : list Grant) : PeerClaims * list Grant :=
  let '(p, grants) := match owner_lane o with
                      | Some lane => release_lane now live lane p1 g1
                      | None => (p1, g1)
                      end in
  (gc_object id p, grants).

(** An object that was handed over keeps its new owner to the end. *)
Lemma after_promote_keeps now live id o p1 g1 o1 :
  claims_inv (lane_list (owner_lane o)) None p1 →
  objects p1 !! id = Some o1 → id ∉ ready_heads p1 → idle o1 = false →
  objects (after_promote now live id o p1 g1).1 !! id = Some o1 ∧
  ∃ g2, (after_promote now live id o p1 g1).2 = g1 ++ g2.
Proof.
  intros Hinv Ho1 Hnin Hidle. unfold after_promote.
  destruct (owner_lane o) as [l|]; simpl in Hinv.
  - pose proof (release_lane_core now live l p1 g1) as (Hobj & _ & _ & [g2 Hg2]).
    destruct (homes_loop_spec now live [] l _ p1 g1 Hinv eq_refl) as ([g3 Hg3] & Hframe & _).
    destruct release_lane as [p2 g2']. simpl in *. subst g2'.
    rewrite <-Hobj in Hframe. rewrite Hg3. split; [|exists (g3 ++ g2); by rewrite (assoc_L (++))].
    assert (objects p2 !! id = Some o1) as H by (by rewrite Hframe).
    by erewrite gc_object_keeps.
  - simpl. erewrite gc_object_keeps by done. split; [done|]. exists []. by rewrite app_nil_r.
Qed.

Lemma owned_not_ready flight id o te p :
  claims_inv flight None p → objects p !! id = Some o → owner o = Some te →
  id ∉ ready_heads p.
Proof.
  intros Hinv Ho Hown. rewrite (inv_ready _ _ _ Hinv). intros [_ (?&?&?)].
  destruct (inv_objects _ _ _ Hinv _ _ Ho) as [_ Hok]. rewrite Hown in Hok.
  destruct Hok. congruence.
Qed.

(** An object nobody wants any more loses its entry. *)
Lemma after_promote_idle now live id o p1 g1 o1 :
  claims_inv (lane_list (owner_lane o)) None p1 →
  objects p1 !! id = Some o1 → id ∉ ready_heads p1 → idle o1 = true →
  objects (after_promote now live id o p1 g1).1 !! id = None.
Proof.
  intros Hinv Ho1 Hnin Hidle. unfold after_promote.
  destruct (owner_lane o) as [l|]; simpl in Hinv.
  - pose proof (release_lane_core now live l p1 g1) as (Hobj & _).
    destruct (homes_loop_spec now live [] l _ p1 g1 Hinv eq_refl) as (_ & Hframe & _).
    destruct release_lane as [p2 g2']. simpl in *. rewrite <-Hobj in Hframe.
    unfold gc_object. rewrite Hframe, Ho1, Hidle by done. simpl. apply lookup_delete_eq.
  - simpl. unfold gc_object. rewrite Ho1, Hidle. simpl. apply lookup_delete_eq.
Qed.

Lemma end_call_outermost now live task id o e p :
  claims_inv [] None p → objects p !! id = Some o → owner o = Some (task, e) → depth o = 1 →
  ∃ p1 g1, end_call now live task id p = after_promote now live id o p1 g1 ∧
    claims_inv (lane_list (owner_lane o)) None p1 ∧
    drain_waiters p1 = drain_waiters p ∧
    (∀ j, j ≠ id → objects p1 !! j = objects p !! j) ∧
    match drop_ghosts live (waiters o) with
    | [] => objects p1 !! id = Some (mkObject None 0 None (olabel o) [] false) ∧ g1 = [] ∧
            ready_heads p1 = ready_heads p
    | w :: rest =>
        match wkind w, vec_pop (free_lanes p) with
        | TopLevel, None =>
            objects p1 !! id = Some (mkObject None 0 None (olabel o) (w :: rest) true) ∧
            g1 = [] ∧ ready_heads p1 = vec_push (ready_heads p) id ∧ free_lanes p1 = []
        | TopLevel, Some (lane, _) =>
            objects p1 !! id = Some (given w (Some lane) rest o) ∧
            g1 = [mkGrant (wtask w) (wepoch w) (Some lane)] ∧ ready_heads p1 = ready_heads p
        | Nested, _ =>
            objects p1 !! id = Some (given w None rest o) ∧
            g1 = [mkGrant (wtask w) (wepoch w) None] ∧ ready_heads p1 = ready_heads p
        end
    end.
Proof.
  intros Hinv Ho Hown Hd.
  destruct (inv_objects _ _ _ Hinv _ _ Ho) as [Hnd Hok]. rewrite Hown in Hok.
  destruct Hok as [_ Hres].
  pose proof (disown_inv _ _ _ _ _ Hinv Ho Hown) as Hinv'.
  assert (objects (upd_object id disown p) !! id = Some (disown o)) as Ho'.
  { rewrite (upd_object_Some _ _ _ _ Ho). simpl. by rewrite lookup_insert_eq. }
  exists (promote_loop now live id (waiters o) (upd_object id disown p) []).1,
         (promote_loop now live id (waiters o) (upd_object id disown p) []).2.
  split; [|split].
  - unfold end_call, promote_head, after_promote. rewrite Ho, Hd.
    change (0 <? Z.max 0 (1 - 1)) with false. cbv beta iota zeta. rewrite Ho'.
    change (waiters (disown o)) with (waiters o). by destruct promote_loop.
  - by eapply promote_loop_inv.
  - destruct (promote_loop_spec now live id (waiters o) _ (disown o) [] Ho' eq_refl Hres)
      as (p' & (_&Hobj&_&Hfree&Hready&Hdr&_) & Hspec).
    set (r := promote_loop _ _ _ _ _ _) in *. clearbody r.
    change (free_lanes (upd_object id disown p)) with (free_lanes p) in Hspec.
    rewrite <-Hobj, <-Hready, <-Hfree, <-Hdr.
    rewrite (upd_object_Some _ _ _ _ Ho) in Hspec.
    destruct (drop_ghosts live (waiters o)) as [|w rest];
      [|destruct (wkind w); [destruct (vec_pop (free_lanes p)) as [[lane fl]|] eqn:Hp|]];
      destruct Hspec as [-> ->]; simpl; rewrite ?insert_insert_eq;
      (split; [done|]; split; [intros j Hj; by rewrite lookup_insert_ne|]);
      rewrite lookup_insert_eq; split_and!; try done.
    by apply vec_pop_None in Hp.
Qed.

(** When the promoted object was reserved again, the ending call's own lane
    either reaches it or goes to a reservation ahead of it. *)
Lemma after_promote_reserved now live id o p0 p1 o1 w rest :
  claims_inv (lane_list (owner_lane o)) None p1 →
  objects p1 !! id = Some o1 → waiters o1 = w :: rest → reserved o1 = true →
  live (wtask w) (wepoch w) = true → wkind w = TopLevel →
  ready_heads p1 = vec_push (ready_heads p0) id →
  let r := after_promote now live id o p1 [] in
  (∃ lane, objects r.1 !! id = Some (given w (Some lane) rest o1) ∧
     mkGrant (wtask w) (wepoch w) (Some lane) ∈ r.2) ∨
  (objects r.1 !! id = Some o1 ∧ id ∈ ready_heads r.1 ∧
     (owner_lane o = None ∨ ready_heads p0 ≠ [])).
Proof.
  intros Hinv Ho1 Hw Hres Hlive Hk Hready r. unfold r, after_promote. clear r.
  assert (idle o1 = false) as Hidle by (unfold idle; rewrite Hres; simpl; by rewrite andb_false_r).
  assert (drop_ghosts live (waiters o1) = w :: rest) as Hdg by (rewrite Hw; simpl; by rewrite Hlive).
  destruct (owner_lane o) as [l|]; simpl in Hinv.
  - pose proof (release_lane_core now live l p1 []) as (Hobj & _ & Hrd & [g2 Hg2]).
    destruct (homes_loop_spec now live [] l _ p1 [] Hinv eq_refl) as (_ & _ & Htaker).
    pose proof (lane_taker_snoc live (objects p1) (ready_heads p0) id) as Hlt1.
    change (ready_heads p0 ++ [id]) with (vec_push (ready_heads p0) id) in Hlt1.
    rewrite <-Hready, (lane_taker_single live _ _ _ _ _ Ho1 Hdg Hk) in Hlt1.
    rewrite Hlt1 in Htaker. clear Hlt1.
    destruct release_lane as [p2 g2']. cbn [fst snd] in *. subst g2'.
    destruct (lane_taker live (objects p1) (ready_heads p0)) as [[[i w'] later]|] eqn:Hlt.
    + right. destruct Htaker as (_ & _ & _ & _ & _ & _ & _ & Hrh & Hlater).
      assert (id ∈ later ++ [id]) as Hin by set_solver.
      specialize (Hlater _ Hin). rewrite <-Hobj, Ho1 in Hlater.
      erewrite gc_object_keeps by done. rewrite Hrd, Hrh. split_and!; [done..|].
      right. intros E. by rewrite E in Hlt.
    + left. destruct Htaker as (o1' & rest' & Ho1' & Hdg' & Hg & Hin & _).
      assert (o1' = o1) as -> by congruence. assert (rest' = rest) as -> by congruence.
      rewrite <-Hobj in Hg. erewrite gc_object_keeps by done.
      exists l. split; [done|]. set_solver.
  - right. cbn [fst]. erewrite gc_object_keeps by done. rewrite Hready. unfold vec_push.
    split_and!; [done|set_solver|by left].
Qed.

(** C35: Mailbox order, no barging.  In a peer that satisfies the claim invariant, as
    every peer of an orderly history does, when the outermost call on an object ends,
    the object passes to the first waiter of its queue that is still live: a
    nested waiter owns it at once without a lane, a top-level waiter owns it
    together with a lane, and its grant is among the wakes; the waiters behind
    it keep their order.  Only when no lane is left for a top-level head does
    the object stay unowned, reserved for that same head at the front of the
    queue, with the pool empty and the object queued for the next lane (and
    then the ending call had no lane to give, or an earlier reservation took
    it).  With no live waiter the idle entry is dropped. *)
Theorem end_call_hands_to_first_live now live task id o e p :
  claims_inv [] None p → objects p !! id = Some o → owner o = Some (task, e) → depth o = 1 →
  let p' := (end_call now live task id p).1 in
  let grants := (end_call now live task id p).2 in
  match drop_ghosts live (waiters o) with
  | [] => objects p' !! id = None
  | w :: rest =>
      (∃ lane, objects p' !! id = Some (given w lane rest o) ∧
         mkGrant (wtask w) (wepoch w) lane ∈ grants ∧ (lane = None ↔ wkind w = Nested)) ∨
      (wkind w = TopLevel ∧
       objects p' !! id = Some (mkObject None 0 None (olabel o) (w :: rest) true) ∧
       id ∈ ready_heads p' ∧ free_lanes p' = [] ∧ (owner_lane o = None ∨ ready_heads p ≠ []))
  end.
Proof.
  intros Hinv Ho Hown Hd. cbn zeta.
  pose proof (end_call_inv now live _ _ _ _ _ Hinv Ho Hown) as Hinv'.
  assert (id ∉ ready_heads p) as Hnin by (by eapply owned_not_ready).
  destruct (end_call_outermost now live _ _ _ _ _ Hinv Ho Hown Hd)
    as (p1 & g1 & Heq & Hinv1 & _ & _ & Hp1).
  rewrite Heq in Hinv' |- *. clear Heq.
  destruct (drop_ghosts live (waiters o)) as [|w rest] eqn:Hdg.
  - destruct Hp1 as (Ho1 & -> & Hr1). rewrite <-Hr1 in Hnin.
    by eapply after_promote_idle.
  - destruct (drop_ghosts_live _ _ _ _ Hdg) as [Hlive _].
    destruct (wkind w) eqn:Hk; [destruct (vec_pop (free_lanes p)) as [[lane fl]|] eqn:Hp|].
    + destruct Hp1 as (Ho1 & Hg1 & Hr1). rewrite <-Hr1 in Hnin.
      destruct (after_promote_keeps now live id o p1 g1 _ Hinv1 Ho1 Hnin eq_refl) as [? [g2 ->]].
      subst g1. left. eexists. split_and!; [done|set_solver|split; congruence].
    + destruct Hp1 as (Ho1 & -> & Hr1 & _).
      destruct (after_promote_reserved now live id o p p1 _ w rest Hinv1 Ho1 eq_refl eq_refl Hlive Hk Hr1)
        as [[lane [? ?]]|(? & ? & ?)].
      * left. exists (Some lane). split_and!; [done|done|split; congruence].
      * right. split_and!; try done. apply (inv_pool _ _ _ Hinv').
        intros E. rewrite E in *. set_solver.
    + destruct Hp1 as (Ho1 & Hg1 & Hr1). rewrite <-Hr1 in Hnin.
      destruct (after_promote_keeps now live id o p1 g1 _ Hinv1 Ho1 Hnin eq_refl) as [? [g2 ->]].
      subst g1. left. eexists. split_and!; [done|set_solver|split; congruence].
Qed.

(** ** The freed lane *)

Lemma serve_loop_drain now live id l ws : ∀ p grants,
  drain_waiters (serve_loop now live id l ws p grants).1.1 = drain_waiters p.
Proof.
  induction ws as [|w ws IH]; intros p grants; cbn [serve_loop]; [done|].
  repeat case_match; [done..|]. by rewrite IH.
Qed.

Lemma homes_loop_drain now live heads : ∀ l p grants,
  drain_waiters (homes_loop now live l heads p grants).1 = drain_waiters p.
Proof.
  induction heads as [|id heads IH]; intros l p grants; cbn [homes_loop]; [done|].
  destruct (objects (set_ready_heads heads p) !! id) as [o|]; [|by rewrite IH].
  destruct (reserved o); [|by rewrite IH].
  pose proof (serve_loop_drain now live id l (waiters o) (set_ready_heads heads p) grants) as H.
  destruct serve_loop as [[p1 g1] [l'|]]; cbn [fst] in *; [by rewrite IH|done].
Qed.

(** Lane hand-over.  A lane that comes home goes, with its object, to the
    oldest reservation whose first live waiter wants a lane; reservations ahead
    of it (all their waiters cancelled, or a nested waiter in front) do not keep
    it, and the ones behind it keep their order.  If no reservation wants it, it
    is banked and no reservation is left.  The drain waiters are woken exactly
    when this brings every lane home. *)
Theorem freed_lane_goes_to_oldest_reservation now live l p :
  claims_inv [l] None p →
  let r := release_lane now live l p [] in
  match lane_taker live (objects p) (ready_heads p) with
  | Some (id, w, later) =>
      ∃ o rest, objects p !! id = Some o ∧ drop_ghosts live (waiters o) = w :: rest ∧
        objects r.1 !! id = Some (given w (Some l) rest o) ∧
        mkGrant (wtask w) (wepoch w) (Some l) ∈ r.2 ∧
        free_lanes r.1 = free_lanes p ∧ ready_heads r.1 = later
  | None => free_lanes r.1 = vec_push (free_lanes p) l ∧ ready_heads r.1 = []
  end ∧
  if all_home r.1 then
    drain_waiters r.1 = [] ∧ ∀ t e, (t, e) ∈ drain_waiters p → mkGrant t e None ∈ r.2
  else drain_waiters r.1 = drain_waiters p.
Proof.
  intros Hinv. cbn zeta.
  destruct (homes_loop_spec now live [] l _ p [] Hinv eq_refl) as (_ & _ & Htaker).
  pose proof (homes_loop_drain now live (ready_heads p) l p []) as Hdr.
  split.
  - pose proof (release_lane_core now live l p []) as (Hobj & Hfree & Hrd & [g2 Hg2]).
    rewrite Hobj, Hfree, Hrd, Hg2.
    destruct lane_taker as [[[id w] later]|]; [|done].
    destruct Htaker as (o & rest & ? & ? & ? & ? & ? & ? & _).
    exists o, rest. split_and!; [done..| |done|done]. set_solver.
  - clear Htaker. unfold release_lane, wake_drain. destruct homes_loop as [p1 g1]. simpl in Hdr.
    destruct (all_home p1) eqn:E; cbn [fst snd].
    + change (all_home (set_drain_waiters [] p1)) with (all_home p1). rewrite E. split; [done|].
      intros t e Hin. rewrite <-Hdr in Hin. apply elem_of_app. right.
      apply list_elem_of_In, in_map_iff. exists (t, e). split; [done|]. by apply list_elem_of_In.
    + by rewrite E.
Qed.

(** ** Newcomers *)

(** No barging.  While a waiter is queued on an object, a claim of that object
    by any task that does not own it is never granted, whatever lanes are free
    and whether it is nested or not; and a claim that is not granted leaves
    every owner and the lane pool as they were, so a task that has to queue
    holds nothing new. *)
Theorem newcomers_never_barge p task epoch id label nested o :
  claims_inv [] None p → objects p !! id = Some o → waiters o ≠ [] →
  (∀ e, owner o ≠ Some (task, e)) →
  let r := try_acquire task epoch id label nested p in
  (∃ b, r.2 = WouldQueue b ∧ b = fst <$> owner o) ∧
  free_lanes r.1 = free_lanes p ∧
  ∀ j, owner <$> objects r.1 !! j = owner <$> objects p !! j.
Proof.
  intros Hinv Ho Hw Hown.
  destruct (inv_objects _ _ _ Hinv _ _ Ho) as [_ Hok].
  unfold try_acquire. cbn zeta. rewrite touched_Some. simpl.
  pose proof (touched_fields id label (count_acquisition p)) as (H1&_&_&_&H2).
  simpl in H1, H2. rewrite Ho in H1, H2. simpl in H1, H2.
  assert (∀ j, owner <$> objects (touch_label id label (count_acquisition p)) !! j =
    owner <$> objects p !! j) as Hsame.
  { intros j. rewrite touch_label_eq. simpl. destruct (decide (j = id)) as [->|Hne].
    - rewrite lookup_insert_eq, Ho. simpl. by rewrite H1.
    - by rewrite lookup_insert_ne. }
  rewrite H1, H2. destruct (owner o) as [[t e]|].
  - rewrite decide_False by (intros ->; by destruct (Hown e)). simpl. eauto.
  - destruct Hok as (_&_&Hempty). destruct (reserved o); simpl; [eauto|].
    by destruct Hw; apply Hempty.
Qed.

(** ** Every wake is owed *)

(** The grant [g], made between [p] and [p'], went to a live queued task, which
    owns the object it waited for. *)
Definition earned (live : nat → Z → bool) (p p' : PeerClaims) (g : Grant) : Prop :=
  live (gtask g) (gepoch g) = true ∧
  ∃ id o', queued (objects p) (gtask g) id (gepoch g) ∧ objects p' !! id = Some o' ∧
    owner o' = Some (gtask g, gepoch g) ∧ owner_lane o' = glane g.

Lemma given_earned live p p' id o w rest lane :
  objects p !! id = Some o → drop_ghosts live (waiters o) = w :: rest →
  objects p' !! id = Some (given w lane rest o) →
  earned live p p' (mkGrant (wtask w) (wepoch w) lane).
Proof.
  intros Ho Hd Ho'. apply drop_ghosts_live in Hd as [Hl Hin]. split; [done|].
  exists id, (given w lane rest o). split_and!; [|done..]. by exists o, w.
Qed.

Lemma homes_loop_earned now live fl l heads : ∀ p grants g,
  claims_inv (l :: fl) None p → ready_heads p = heads →
  g ∈ (homes_loop now live l heads p grants).2 →
  g ∈ grants ∨ earned live p (homes_loop now live l heads p grants).1 g.
Proof.
  induction heads as [|id heads IH]; intros p grants g Hinv Hr; cbn [homes_loop].
  - simpl. by left.
  - destruct (pop_ready_inv _ _ _ _ Hinv Hr) as [Hinv' (o & Ho & Hres & Hown)].
    pose proof (inv_heads _ _ _ Hinv) as Hnd. rewrite Hr in Hnd.
    apply NoDup_cons in Hnd as [Hnin Hnd].
    change (objects (set_ready_heads heads p)) with (objects p). rewrite Ho, Hres.
    pose proof (serve_loop_inv now live fl l id (waiters o) _ _ grants Hinv' Ho Hown eq_refl) as Hsl.
    destruct (serve_loop_spec now live id l (waiters o) (set_ready_heads heads p) o grants Ho eq_refl)
      as (q & (_&Hobj&_) & Hspec).
    destruct serve_loop as [[p1 g1] r]. cbn [fst snd] in Hobj, Hspec, Hsl.
    assert (∀ o' p2, objects p1 = <[id := o']> (objects p) → waiters o' ⊆ waiters o →
      earned live p1 p2 g → earned live p p2 g) as Hback.
    { intros o' p2 Ho' Hsub (Hl & i & oi & Hq & Hrest). split; [done|]. exists i, oi.
      split; [|done]. rewrite Ho', queued_insert in Hq.
      destruct Hq as [[-> (w & Hw & ?)]|[_ ?]]; [|done]. exists o, w. auto. }
    destruct (drop_ghosts live (waiters o)) as [|w rest] eqn:Hdg.
    + destruct Hspec as (-> & -> & ->). destruct Hsl as (Hr1 & _ & Hinv1).
      intros [?|He]%IH; [by left| |done..]. right. eapply Hback; [by rewrite <-Hobj| |done].
      simpl. set_solver.
    + assert (rest ⊆ waiters o) as Hsub.
      { etrans; [|apply sublist_subseteq, (drop_ghosts_sublist live)]. rewrite Hdg. set_solver. }
      destruct Hspec as (-> & -> & ->). destruct (wkind w) eqn:Hk.
      * cbn [fst snd]. intros [?| ->%list_elem_of_singleton]%elem_of_app; [by left|right].
        eapply (given_earned live p p1 id o w rest); [done..|].
        rewrite <-Hobj. apply lookup_insert_eq.
      * destruct Hsl as (Hr1 & _ & Hinv1).
        destruct (homes_loop_spec now live fl l heads p1
          (vec_push grants (mkGrant (wtask w) (wepoch w) None)) Hinv1 Hr1) as (_ & Hframe & _).
        intros [[?| ->%list_elem_of_singleton]%elem_of_app|He]%IH; [by left|right|right|done..].
        -- eapply (given_earned live p _ id o w rest); [done..|].
           rewrite Hframe by done. rewrite <-Hobj. apply lookup_insert_eq.
        -- by eapply Hback; [rewrite <-Hobj|..].
Qed.

Lemma earned_gc live p p' id g : earned live p p' g → earned live p (gc_object id p') g.
Proof.
  intros (Hl & i & o & Hq & Ho & Hown & Hlane). split; [done|]. exists i, o.
  split_and!; [done| |done|done]. unfold gc_object.
  destruct (objects p' !! id) as [o'|] eqn:Ho'; [|done]. destruct (idle o') eqn:Hi; [|done].
  simpl. rewrite lookup_delete_ne; [done|]. intros ->. simplify_eq.
  unfold idle in Hi. by rewrite Hown in Hi.
Qed.

Lemma after_promote_earned now live id o p1 g1 g :
  claims_inv (lane_list (owner_lane o)) None p1 →
  g ∈ (after_promote now live id o p1 g1).2 →
  g ∈ g1 ∨
  ((gtask g, gepoch g) ∈ drain_waiters p1 ∧ glane g = None ∧
   all_home (after_promote now live id o p1 g1).1 = true) ∨
  earned live p1 (after_promote now live id o p1 g1).1 g.
Proof.
  intros Hinv. unfold after_promote. destruct (owner_lane o) as [l|]; [|simpl; auto].
  simpl in Hinv. unfold release_lane, wake_drain.
  pose proof (homes_loop_earned now live [] l _ p1 g1 g Hinv eq_refl) as He.
  pose proof (homes_loop_drain now live (ready_heads p1) l p1 g1) as Hdr.
  destruct homes_loop as [p2 g2]. cbn [fst snd] in *.
  destruct (all_home p2) eqn:Eh; cbn [fst snd].
  - intros [Hg|Hg]%elem_of_app.
    + destruct (He Hg) as [?|?]; [by left|right; right].
      apply earned_gc. done.
    + right. left. apply list_elem_of_In, in_map_iff in Hg as ([t e] & <- & Hin). simpl.
      rewrite <-Hdr. apply list_elem_of_In in Hin. split_and!; [done..|].
      unfold gc_object. by repeat case_match.
  - intros Hg. destruct (He Hg) as [?|?]; [by left|right; right]. by apply earned_gc.
Qed.

(** Every wake is owed.  Each wake that ending a call returns goes either to a
    drain waiter, without a lane, when all lanes are home; or to a task that is
    still live at the epoch it queued with, and that now owns the object it was
    queued on with exactly the lane the wake carries.  Cancelled waiters are
    never woken and no grant is invented. *)
Theorem every_wake_is_owed now live task id o e p g :
  claims_inv [] None p → objects p !! id = Some o → owner o = Some (task, e) →
  let r := end_call now live task id p in
  g ∈ r.2 →
  ((gtask g, gepoch g) ∈ drain_waiters p ∧ glane g = None ∧ all_home r.1 = true) ∨
  earned live p r.1 g.
Proof.
  intros Hinv Ho Hown. cbn zeta.
  destruct (inv_objects _ _ _ Hinv _ _ Ho) as [_ Hok]. rewrite Hown in Hok.
  destruct (decide (depth o = 1)) as [Hd|Hd].
  2: { unfold end_call. rewrite Ho. rewrite (proj2 (Z.ltb_lt _ _)) by lia. by intros ?%elem_of_nil. }
  destruct (end_call_outermost now live _ _ _ _ _ Hinv Ho Hown Hd)
    as (p1 & g1 & -> & Hinv1 & Hdr & Hother & Hp1).
  assert (∀ w rest, drop_ghosts live (waiters o) = w :: rest → w :: rest ⊆ waiters o) as Hsub.
  { intros w rest Hd'. rewrite <-Hd'. apply sublist_subseteq, drop_ghosts_sublist. }
  (* the queues that the promotion leaves *)
  assert (∀ p2, earned live p1 p2 g → earned live p p2 g) as Hback.
  { intros p2 (Hl & i & oi & (o1 & w1 & Ho1 & Hw1 & Hw) & Hrest). split; [done|]. exists i, oi.
    split; [|done]. destruct (decide (i = id)) as [->|Hne]; [|exists o1, w1; by rewrite <-Hother].
    exists o, w1. split; [done|]. split; [|done].
    destruct (drop_ghosts live (waiters o)) as [|w rest] eqn:Hdg.
    - destruct Hp1 as (E & _). rewrite E in Ho1. injection Ho1 as <-. by apply elem_of_nil in Hw1.
    - specialize (Hsub _ _ eq_refl).
      destruct (wkind w); [destruct (vec_pop _) as [[]|]|]; destruct Hp1 as (E & _);
        rewrite E in Ho1; injection Ho1 as <-; simpl in Hw1; set_solver. }
  intros [Hg|[Hg|Hg]]%after_promote_earned; [|by rewrite <-Hdr; left|by right; apply Hback|done].
  right. assert (id ∉ ready_heads p) as Hnin by (by eapply owned_not_ready).
  destruct (drop_ghosts live (waiters o)) as [|w rest] eqn:Hdg.
  { destruct Hp1 as (_ & -> & _). by apply elem_of_nil in Hg. }
  destruct (wkind w); [destruct (vec_pop _) as [[lane fl]|]|]; destruct Hp1 as (E & Hg1 & Hr1).
  - subst g1. apply list_elem_of_singleton in Hg as ->. rewrite <-Hr1 in Hnin.
    eapply given_earned; [done..|]. by eapply after_promote_keeps.
  - subst g1. by apply elem_of_nil in Hg.
  - subst g1. apply list_elem_of_singleton in Hg as ->. rewrite <-Hr1 in Hnin.
    eapply given_earned; [done..|]. by eapply after_promote_keeps.
Qed.
