(* ===== verification/ClaimsSystem.v ===== *)
(** * Every reachable registry satisfies the invariant

    [sys_inv] holds in the fresh registry and is preserved by every step of
    the system, along orderly histories; what does not depend on who calls
    ([conserved]) is preserved by any calls at all. *)
From S2P Require Import Prelude Claims ClaimsInv ClaimsProps.
From stdpp Require Import base numbers list gmap strings pretty.
From stdpp Require Import options.
Local Open Scope Z_scope.
#[local] Set Warnings "-clear-no-such-hyp".

(** A drain waiter is queued only while some lane is out. *)
Definition drain_ok (p : PeerClaims) : Prop := drain_waiters p ≠ [] → all_home p = false.

Definition peer_ok (p : PeerClaims) : Prop := claims_inv [] None p ∧ drain_ok p.

(** A task is parked on at most one peer. *)
Definition parked_once (r : list PeerClaims) : Prop :=
  ∀ i j p q t, r !! i = Some p → r !! j = Some q →
    is_Some (parked_on p !! t) → is_Some (parked_on q !! t) → i = j.

Definition sys_inv (s : System) : Prop := Forall peer_ok s.2 ∧ parked_once s.2.

(** ** The drain *)

Lemma free_lanes_bound flight busy p :
  claims_inv flight busy p →
  Z.of_nat (length (free_lanes p)) + Z.of_nat (length flight) ≤ lane_count p.
Proof.
  intros Hinv. pose proof (inv_lanes _ _ _ Hinv) as H.
  apply Permutation_length in H. rewrite !length_app, length_seqZ in H.
  pose proof (inv_count _ _ _ Hinv). lia.
Qed.

(** Taking lanes out of the pool keeps the drain waiting. *)
Lemma drain_ok_le p p' :
  drain_ok p → drain_waiters p' = drain_waiters p → lane_count p' = lane_count p →
  (length (free_lanes p') ≤ length (free_lanes p))%nat →
  Z.of_nat (length (free_lanes p)) ≤ lane_count p → drain_ok p'.
Proof.
  unfold drain_ok, all_home. intros H -> -> Hle Hb Hd. specialize (H Hd).
  apply Z.eqb_neq in H. apply Z.eqb_neq. lia.
Qed.

Lemma release_lane_drain now live l p grants : drain_ok (release_lane now live l p grants).1.
Proof.
  unfold release_lane, wake_drain. destruct homes_loop as [p' g'].
  destruct (all_home p') eqn:E; simpl; [by intros []|by intros ?].
Qed.

Lemma gc_object_drain id p : drain_ok p → drain_ok (gc_object id p).
Proof. unfold gc_object. repeat case_match; done. Qed.

Lemma vec_pop_length {A} (xs : list A) x xs' :
  vec_pop xs = Some (x, xs') → (length xs' ≤ length xs)%nat.
Proof. intros ->%vec_pop_Some. rewrite length_app. lia. Qed.

Lemma end_call_drain now live task id o e p :
  peer_ok p → objects p !! id = Some o → owner o = Some (task, e) →
  drain_ok (end_call now live task id p).1.
Proof.
  intros [Hinv Hd] Ho Hown. unfold end_call. rewrite Ho.
  destruct (0 <? Z.max 0 (depth o - 1)); [done|].
  assert (objects (upd_object id disown p) !! id = Some (disown o)) as Ho'.
  { rewrite (upd_object_Some _ _ _ _ Ho). simpl. by rewrite lookup_insert_eq. }
  destruct (inv_objects _ _ _ Hinv _ _ Ho) as [_ Hok]. rewrite Hown in Hok.
  destruct Hok as [_ Hres].
  unfold promote_head. rewrite Ho'.
  destruct (promote_loop_spec now live id (waiters (disown o)) _ (disown o) [] Ho' eq_refl Hres)
    as (q & (_&_&Hc&Hfree&_&Hdr&_) & Hspec).
  destruct promote_loop as [p1 g1]. cbn [fst snd] in *.
  destruct (owner_lane o) as [l|].
  - pose proof (release_lane_drain now live l p1 g1) as H.
    destruct release_lane. by apply gc_object_drain.
  - apply gc_object_drain.
    assert (drain_waiters q = drain_waiters p ∧ lane_count q = lane_count p ∧
      (length (free_lanes q) ≤ length (free_lanes p))%nat) as (H1 & H2 & H3).
    { repeat case_match; destruct Hspec as [-> _]; simpl; split_and!; try done.
      by eapply vec_pop_length. }
    eapply (drain_ok_le p); [done|congruence|congruence|congruence|].
    pose proof (free_lanes_bound _ _ _ Hinv). simpl in *. lia.
Qed.

Lemma try_acquire_core task epoch id label nested p :
  let r := try_acquire task epoch id label nested p in
  parked_on r.1 = parked_on p ∧ drain_waiters r.1 = drain_waiters p ∧
  lane_count r.1 = lane_count p ∧ ready_heads r.1 = ready_heads p ∧
  (length (free_lanes r.1) ≤ length (free_lanes p))%nat.
Proof.
  unfold try_acquire. cbn zeta. repeat case_match; simpl; split_and!; try done.
  by eapply vec_pop_length.
Qed.

(** After [WouldQueue] the object is owned by someone else, or reserved, or
    free with an empty pool. *)
Lemma would_queue_state task epoch id label label' nested p b :
  (try_acquire task epoch id label nested p).2 = WouldQueue b →
  let p1 := (try_acquire task epoch id label nested p).1 in
  let o := touched id label' p1 in
  p1 = touch_label id label (count_acquisition p) ∧
  match b with
  | Some t => t ≠ task ∧ ∃ e, owner o = Some (t, e)
  | None => owner o = None ∧ (reserved o = true ∨ nested = false ∧ free_lanes p1 = [])
  end.
Proof.
  unfold try_acquire. cbn zeta.
  set (q := touch_label id label (count_acquisition p)).
  pose proof (touched_fields id label' q) as (H1&_&_&_&H2).
  set (o := default default_object (objects q !! id)) in *.
  destruct (owner o) as [[t e]|] eqn:Hown.
  - destruct (decide (t = task)); [by case_match|]. simpl. intros [= <-].
    rewrite H1. eauto.
  - destruct (reserved o) eqn:Hr; [|destruct nested; [done|destruct (vec_pop _) as [[]|] eqn:Hp; [done|]]];
      simpl; intros [= <-]; rewrite H1; split_and!; try done; [left; congruence|].
    right. split; [done|]. by apply vec_pop_None in Hp.
Qed.

(** ** Waits-for entries only disappear during hand-over *)

Definition shrinks (p p' : PeerClaims) : Prop :=
  parked_on p' ⊆ parked_on p ∧ lane_count p' = lane_count p.

#[local] Instance shrinks_refl : Reflexive shrinks.
Proof. done. Qed.
#[local] Instance shrinks_trans : Transitive shrinks.
Proof. intros p q s [? ?] [? ?]. split; [by etrans|congruence]. Qed.

Lemma shrinks_unpark t p p' :
  parked_on p' = delete t (parked_on p) → lane_count p' = lane_count p → shrinks p p'.
Proof. intros E ?. split; [rewrite E; apply delete_subseteq|done]. Qed.

Lemma promote_loop_shrinks now live id ws : ∀ p grants,
  shrinks p (promote_loop now live id ws p grants).1.
Proof.
  induction ws as [|w ws IH]; intros p grants; simpl; [done|].
  repeat case_match; simpl;
    first [by apply (shrinks_unpark (wtask w))|by split
          |etrans; [|apply IH]; by apply (shrinks_unpark (wtask w))].
Qed.

Lemma serve_loop_shrinks now live id l ws : ∀ p grants,
  shrinks p (serve_loop now live id l ws p grants).1.1.
Proof.
  induction ws as [|w ws IH]; intros p grants; simpl; [done|].
  repeat case_match; simpl;
    first [by apply (shrinks_unpark (wtask w))|by split
          |etrans; [|apply IH]; by apply (shrinks_unpark (wtask w))].
Qed.

Lemma homes_loop_shrinks now live heads : ∀ l p grants,
  shrinks p (homes_loop now live l heads p grants).1.
Proof.
  induction heads as [|id heads IH]; intros l p grants; cbn [homes_loop]; [done|].
  transitivity (set_ready_heads heads p); [done|].
  destruct (objects (set_ready_heads heads p) !! id) as [o|]; [|apply IH].
  destruct (reserved o); [|apply IH].
  pose proof (serve_loop_shrinks now live id l (waiters o) (set_ready_heads heads p) grants) as H.
  destruct serve_loop as [[p1 g1] [l'|]]; [|exact H].
  etrans; [exact H|apply IH].
Qed.

Lemma gc_object_shrinks id p : shrinks p (gc_object id p).
Proof. unfold gc_object. by repeat case_match. Qed.

Lemma end_call_shrinks now live task id p : shrinks p (end_call now live task id p).1.
Proof.
  unfold end_call. destruct (objects p !! id) as [o|]; [|done].
  destruct (0 <? _); [done|].
  assert (shrinks p (promote_head now live id (upd_object id disown p) []).1) as H.
  { transitivity (upd_object id disown p); [done|].
    unfold promote_head. case_match; [apply promote_loop_shrinks|done]. }
  destruct promote_head as [p1 g1]. etrans; [exact H|]. cbn [fst].
  destruct (owner_lane o) as [l|]; [|apply gc_object_shrinks].
  unfold release_lane, wake_drain.
  pose proof (homes_loop_shrinks now live (ready_heads p1) l p1 g1) as H2.
  destruct homes_loop as [p2 g2]. etrans; [exact H2|].
  destruct (all_home p2); cbn [fst]; [|apply gc_object_shrinks].
  transitivity (set_drain_waiters [] p2); [done|apply gc_object_shrinks].
Qed.

Lemma retract_parked task id p : parked_on (retract task id p) = delete task (parked_on p).
Proof. unfold retract, gc_object. by repeat case_match. Qed.

(** ** The steps *)

Lemma count_deadlock_ok p : peer_ok p → peer_ok (count_deadlock p).
Proof. intros [? ?]. split; [by apply set_stats_inv|done]. Qed.

Lemma try_acquire_ok task epoch id label nested p :
  peer_ok p → peer_ok (try_acquire task epoch id label nested p).1.
Proof.
  intros [Hinv Hd]. split; [by apply try_acquire_inv|].
  pose proof (try_acquire_core task epoch id label nested p) as (_&?&?&_&?).
  eapply drain_ok_le; eauto. pose proof (free_lanes_bound _ _ _ Hinv). simpl in *. lia.
Qed.

Lemma enqueue_fields now task epoch id label kind p :
  let p' := enqueue now task epoch id label kind p in
  drain_waiters p' = drain_waiters p ∧ lane_count p' = lane_count p ∧
  free_lanes p' = free_lanes p ∧ parked_on p' = <[task := (id, epoch)]> (parked_on p).
Proof. destruct (enqueue_eq now task epoch id label kind p) as [s ->]. done. Qed.

Lemma enqueue_ok now task epoch id label kind nested p b :
  let r := try_acquire task epoch id label nested p in
  peer_ok p → parked_on p !! task = None → r.2 = WouldQueue b →
  peer_ok (enqueue now task epoch id label kind r.1).
Proof.
  intros r Hok Hpark Hq. pose proof (try_acquire_ok task epoch id label nested p Hok) as [Hinv Hd].
  pose proof (try_acquire_core task epoch id label nested p) as (Hp&_).
  destruct (would_queue_state _ _ _ _ label _ _ _ Hq) as [_ Hst].
  fold r in Hinv, Hd, Hp, Hst. split.
  - apply enqueue_inv; [done|by rewrite Hp|]. intros Ho Hr. destruct b as [t|].
    + destruct Hst as (_ & e & ?). congruence.
    + destruct Hst as (_ & [?|[_ ?]]); [congruence|done].
  - pose proof (enqueue_fields now task epoch id label kind r.1) as (H1&H2&H3&_).
    unfold drain_ok, all_home in *. by rewrite H1, H2, H3.
Qed.

Lemma retract_ok task id p :
  (∀ j e, parked_on p !! task = Some (j, e) → j = id) → peer_ok p → peer_ok (retract task id p).
Proof.
  intros Hpark [Hinv Hd]. split; [by apply retract_inv|].
  unfold retract. by apply gc_object_drain.
Qed.

(** What [claim_peer_object] does to the peer it claims on. *)
Inductive claim_effect (now : Z) (live : nat → Z → bool) (r : list PeerClaims) (i : nat)
    (task : nat) (epoch id : Z) (label : string) (kind : WaitKind) (p : PeerClaims)
    : PeerClaims → Claiming → Prop :=
| effect_decided p1 d out :
    try_acquire task epoch id label (bool_decide (kind = Nested)) p = (p1, d) →
    (∀ b, d ≠ WouldQueue b) → out ≠ Parked →
    claim_effect now live r i task epoch id label kind p p1 out
| effect_refused p1 d out :
    try_acquire task epoch id label (bool_decide (kind = Nested)) p = (p1, d) →
    out ≠ Parked →
    claim_effect now live r i task epoch id label kind p (count_deadlock p1) out
| effect_queued b p1 out :
    try_acquire task epoch id label (bool_decide (kind = Nested)) p = (p1, WouldQueue b) →
    (∀ start, b = Some start →
       would_deadlock live (<[i := p1]> r) task start (label_with_id label id) = None) →
    out = Parked →
    claim_effect now live r i task epoch id label kind p
      (enqueue now task epoch id label kind p1) out
| effect_unscheduled b p1 out :
    try_acquire task epoch id label (bool_decide (kind = Nested)) p = (p1, WouldQueue b) →
    out ≠ Parked →
    claim_effect now live r i task epoch id label kind p
      (retract task id (enqueue now task epoch id label kind p1)) out.

Lemma claim_peer_object_effect now live scheduled i task epoch id label what kind r r' out :
  claim_peer_object now live scheduled i task epoch id label what kind r = (r', out) →
  (r !! i = None ∧ r' = r ∧ out ≠ Parked) ∨
  ∃ p p', r !! i = Some p ∧ r' = <[i := p']> r ∧
    claim_effect now live r i task epoch id label kind p p' out.
Proof.
  unfold claim_peer_object. destruct (r !! i) as [p|]; [|intros; left; by simplify_eq].
  destruct try_acquire as [p1 d] eqn:E. intros H. right. exists p. revert H.
  destruct d as [lane| | |b];
    try (intros; simplify_eq; exists p1; split_and!; [done..|]; by eapply effect_decided).
  destruct b as [start|]; [destruct (would_deadlock _ _ _ _ _) eqn:Hw|];
    [|destruct scheduled..]; intros H; simplify_eq; rewrite ?list_insert_insert_eq;
    eexists; (split_and!; [done..|]).
  - by eapply effect_refused.
  - eapply effect_queued; [done| |done]. by intros ? [= <-].
  - by eapply effect_unscheduled.
  - by eapply effect_queued.
  - by eapply effect_unscheduled.
Qed.

Lemma claim_effect_ok now live r i task epoch id label kind p p' out :
  claim_effect now live r i task epoch id label kind p p' out →
  peer_ok p → parked_on p !! task = None →
  peer_ok p' ∧ parked_on p' =
    match out with Parked => <[task := (id, epoch)]> (parked_on p) | _ => parked_on p end.
Proof.
  intros Heff Hok Hpark.
  assert (∀ p1 d, try_acquire task epoch id label (bool_decide (kind = Nested)) p = (p1, d) →
    peer_ok p1 ∧ parked_on p1 = parked_on p) as Hta.
  { intros p1 d E.
    pose proof (try_acquire_ok task epoch id label (bool_decide (kind = Nested)) p Hok) as H1.
    pose proof (try_acquire_core task epoch id label (bool_decide (kind = Nested)) p) as [H2 _].
    rewrite E in H1, H2. done. }
  assert (∀ p1 b, try_acquire task epoch id label (bool_decide (kind = Nested)) p = (p1, WouldQueue b) →
    peer_ok (enqueue now task epoch id label kind p1)) as Hen.
  { intros p1 b E.
    pose proof (enqueue_ok now task epoch id label kind (bool_decide (kind = Nested)) p b Hok Hpark) as H.
    rewrite E in H. by apply H. }
  destruct Heff as [p1 d out E Hd Hout|p1 d out E Hout|b p1 out E Hw ->|b p1 out E Hout].
  - destruct (Hta _ _ E) as [? ->]. split; [done|]. by destruct out.
  - destruct (Hta _ _ E) as [? Hp]. split; [by apply count_deadlock_ok|]. destruct out; done.
  - destruct (Hta _ _ E) as [_ Hp]. split; [by eapply Hen|].
    by rewrite (proj2 (proj2 (proj2 (enqueue_fields now task epoch id label kind p1)))), Hp.
  - destruct (Hta _ _ E) as [_ Hp].
    pose proof (enqueue_fields now task epoch id label kind p1) as (_&_&_&Hq).
    split.
    + apply retract_ok; [|by eapply Hen]. intros j e. rewrite Hq, lookup_insert_eq. congruence.
    + rewrite retract_parked, Hq, delete_insert_eq, Hp, delete_id by done. by destruct out.
Qed.

(** Replacing peer [i] by one with fewer waits-for entries. *)
Lemma sys_inv_replace live live' r i p p' :
  sys_inv (live, r) → r !! i = Some p → peer_ok p' → parked_on p' ⊆ parked_on p →
  sys_inv (live', <[i := p']> r).
Proof.
  intros [Hall Honce] Hi Hok Hsub. split; simpl in *; [by apply Forall_insert|].
  assert (∀ j q, <[i := p']> r !! j = Some q →
    ∃ q0, r !! j = Some q0 ∧ parked_on q ⊆ parked_on q0) as Hback.
  { intros j q [(-> & -> & _)|[_ ?]]%list_lookup_insert_Some; [by exists p|by exists q]. }
  intros j k q1 q2 t (q1' & Hj & Hs1)%Hback (q2' & Hk & Hs2)%Hback [x Hx] [y Hy].
  eapply Honce; [exact Hj|exact Hk|exists x|exists y]; by eapply lookup_weaken.
Qed.

Lemma sys_step_inv a s s' : sys_step a s s' → sys_inv s → sys_inv s'.
Proof.
  intros Hstep Hinv. pose proof Hinv as [Hall Honce].
  destruct Hstep as [now scheduled i task epoch id label what kind live r r' out Hrun Hc
    |now i task id live r p Hi Hrun (o & e & Ho & Hown)
    |i task id live r p Hi Hpark|i task epoch live r p Hi Hrun|live live' r Hlive]; simpl in *.
  - destruct (claim_peer_object_effect _ _ _ _ _ _ _ _ _ _ _ _ _ Hc)
      as [(_ & -> & _)|(p & p' & Hi & -> & Heff)]; [done|].
    unfold running in Hrun. rewrite Forall_lookup in Hall, Hrun.
    destruct (claim_effect_ok _ _ _ _ _ _ _ _ _ _ _ _ Heff (Hall _ _ Hi) (Hrun _ _ Hi))
      as [Hok Hparked].
    destruct (decide (out = Parked)) as [->|].
    2: { eapply sys_inv_replace; eauto. rewrite Hparked. by destruct out. }
    split; simpl; [apply Forall_insert; [by apply Forall_lookup|done]|].
    assert (∀ j q t, <[i := p']> r !! j = Some q → is_Some (parked_on q !! t) →
      if decide (t = task) then j = i else ∃ q0, r !! j = Some q0 ∧ is_Some (parked_on q0 !! t)) as Hback.
    { intros j q t [(-> & -> & _)|[Hne Hj]]%list_lookup_insert_Some Ht; case_decide as Hdec; try done.
      - rewrite Hparked, lookup_insert_ne in Ht by done. eauto.
      - subst t. rewrite (Hrun _ _ Hj) in Ht. by destruct Ht.
      - eauto. }
    intros j k q1 q2 t Hj Hk Ht1 Ht2.
    pose proof (Hback _ _ _ Hj Ht1) as H1. pose proof (Hback _ _ _ Hk Ht2) as H2.
    case_decide; [congruence|]. destruct H1 as (?&?&?), H2 as (?&?&?). eauto.
  - rewrite Forall_lookup in Hall. destruct (Hall _ _ Hi) as [Hpinv Hd].
    eapply sys_inv_replace; [done|done| |apply end_call_shrinks].
    split; [by eapply end_call_inv|by eapply end_call_drain].
  - rewrite Forall_lookup in Hall.
    eapply sys_inv_replace; [done|done|by apply retract_ok; eauto|].
    rewrite retract_parked. apply delete_subseteq.
  - rewrite Forall_lookup in Hall. destruct (Hall _ _ Hi) as [Hpinv Hd].
    eapply sys_inv_replace; [done|done|split; [by apply request_drain_inv|]|].
    + unfold request_drain. destruct (all_home p) eqn:E; simpl; [done|]. by intros ?.
    + unfold request_drain. by case_match.
  - done.
Qed.

Lemma sys_steps_inv acts s s' : sys_steps acts s s' → sys_inv s → sys_inv s'.
Proof. induction 1; eauto using sys_step_inv. Qed.

Lemma new_ok label n : peer_ok (new label n).
Proof. split; [apply new_inv|]. by intros []. Qed.

Lemma fresh_inv live r : just_registered r → sys_inv (live, r).
Proof.
  intros Hf. split; simpl.
  - eapply Forall_impl; [exact Hf|]. intros p (label & n & ->). apply new_ok.
  - intros i j p q t Hi Hj [x Hx]. unfold just_registered in Hf. rewrite Forall_lookup in Hf.
    destruct (Hf _ _ Hi) as (?&?&->). done.
Qed.

Lemma reachable_inv s : reachable s → sys_inv s.
Proof.
  intros (live & r & acts & Hf & Hs). eapply sys_steps_inv; [exact Hs|by apply fresh_inv].
Qed.

(** ** Under any calls

    What the methods keep whoever calls them, and whatever state the caller is in. *)

Definition owned_ok (o : ObjectClaim) : Prop :=
  match owner o with
  | Some _ => 1 ≤ depth o ≤ MAX_OBJECT_DEPTH ∧ reserved o = false
  | None => depth o = 0 ∧ owner_lane o = None
  end.

(** [flight] lists the lanes taken from their holder and not yet banked or handed over. *)
Record conserved (flight : list Z) (p : PeerClaims) : Prop := {
  cs_lanes : free_lanes p ++ flight ++ held (objects p) ≡ₚ seqZ 0 (lane_count p);
  cs_objects : ∀ id o, objects p !! id = Some o → owned_ok o }.

Lemma conserved_same flight p p' :
  conserved flight p → objects p' = objects p → free_lanes p' = free_lanes p →
  lane_count p' = lane_count p → conserved flight p'.
Proof. intros [? ?] E1 E2 E3. split; by rewrite ?E1, ?E2, ?E3. Qed.

Lemma conserved_update flight flight' id o o' p p' :
  conserved flight p → objects p !! id = Some o → objects p' = <[id := o']> (objects p) →
  lane_count p' = lane_count p →
  free_lanes p' ++ flight' ++ lane_list (owner_lane o') ≡ₚ
    free_lanes p ++ flight ++ lane_list (owner_lane o) →
  owned_ok o' → conserved flight' p'.
Proof.
  intros [Hl Hobjs] Ho Hobj Hc Hlanes Hok. split.
  - rewrite Hc, <-Hl, Hobj. by apply (lanes_exchange _ _ o).
  - intros j oj Hj. rewrite Hobj in Hj.
    apply lookup_insert_Some in Hj as [[_ <-]|[_ Hj]]; [done|by eapply Hobjs].
Qed.

(** The object changes neither its owner's lane nor the pool. *)
Lemma conserved_alter flight id f o p p' :
  conserved flight p → objects p !! id = Some o → objects p' = <[id := f o]> (objects p) →
  lane_count p' = lane_count p → free_lanes p' = free_lanes p →
  owner_lane (f o) = owner_lane o → owned_ok (f o) → conserved flight p'.
Proof.
  intros Hc Ho Hobj Hcount Hfree Hl Hok. apply (conserved_update flight flight id o (f o) p p'); try done.
  by rewrite Hfree, Hl.
Qed.

Lemma conserved_upd flight id f o p :
  conserved flight p → objects p !! id = Some o → owner_lane (f o) = owner_lane o →
  owned_ok (f o) → conserved flight (upd_object id f p).
Proof.
  intros Hc Ho Hl Hok. rewrite (upd_object_Some _ _ _ _ Ho).
  by apply (conserved_alter flight id f o p).
Qed.

Section any_calls.
Context (now : Z) (live : nat → Z → bool).
Implicit Types (p : PeerClaims) (o : ObjectClaim).

Lemma hand_over_conserved fl id w lane p o rest grants :
  conserved (lane_list lane ++ fl) p → objects p !! id = Some o → owner o = None →
  conserved fl (hand_over now id w lane (upd_object id (set_waiters rest) p) grants).1.
Proof.
  intros Hc Ho Hown. pose proof (cs_objects _ _ Hc _ _ Ho) as Hok. unfold owned_ok in Hok.
  rewrite Hown in Hok. destruct Hok as [_ Hl]. unfold hand_over, grant. simpl.
  rewrite (upd_object_Some _ _ _ _ Ho).
  rewrite (upd_object_Some id _ _ (set_waiters rest o)) by (simpl; by rewrite lookup_insert_eq).
  eapply (conserved_update _ _ id o _ _ _ Hc Ho); simpl; [by rewrite insert_insert_eq|done| |].
  - rewrite Hl. simpl. rewrite app_nil_r. f_equiv. apply Permutation_app_comm.
  - split; [|done]. unfold MAX_OBJECT_DEPTH. simpl. lia.
Qed.

(** A queue entry is dropped, a reservation made or cancelled. *)
Lemma unowned_upd_conserved fl id p o f :
  conserved fl p → objects p !! id = Some o → owner o = None →
  owner (f o) = None → depth (f o) = depth o → owner_lane (f o) = owner_lane o →
  conserved fl (upd_object id f p).
Proof.
  intros Hc Ho Hown Hf Hd Hl. apply (conserved_upd _ _ _ o); [done..|].
  pose proof (cs_objects _ _ Hc _ _ Ho) as Hok. unfold owned_ok in *.
  rewrite Hown in Hok. rewrite Hf, Hd, Hl. done.
Qed.

Lemma upd_lookup id f p o :
  objects p !! id = Some o → objects (upd_object id f p) !! id = Some (f o).
Proof. intros Ho. rewrite (upd_object_Some _ _ _ _ Ho). simpl. by rewrite lookup_insert_eq. Qed.

Lemma promote_loop_conserved fl id ws : ∀ p o grants,
  conserved fl p → objects p !! id = Some o → owner o = None →
  conserved fl (promote_loop now live id ws p grants).1.
Proof.
  induction ws as [|w rest IH]; intros p o grants Hc Ho Hown; cbn [promote_loop].
  { by eapply (unowned_upd_conserved fl id p o (set_reserved false)). }
  assert (conserved fl (upd_object id (set_waiters rest) p)) as Hc1
    by (by eapply (unowned_upd_conserved fl id p o (set_waiters rest))).
  pose proof (upd_lookup id (set_waiters rest) p o Ho) as Ho1.
  destruct (live (wtask w) (wepoch w)).
  - destruct (wkind w).
    + destruct (vec_pop _) as [[lane pool]|] eqn:Hpop.
      * apply vec_pop_Some in Hpop. simpl in Hpop.
        change (set_free_lanes pool (upd_object id (set_waiters rest) p))
          with (upd_object id (set_waiters rest) (set_free_lanes pool p)).
        apply (hand_over_conserved fl id w (Some lane) _ o rest); [|done..].
        destruct Hc as [Hl ?]. split; [|done]. simpl. rewrite <-Hl, Hpop, <-!(assoc_L (++)).
        done.
      * cbv zeta. cbn [fst].
        set (p2 := upd_object id _ (upd_object id (set_waiters rest) p)).
        assert (conserved fl p2) as Hc2.
        { unfold p2. by eapply (unowned_upd_conserved fl id _ (set_waiters rest o)). }
        destruct (default _ _); [done|]. by apply (conserved_same fl p2).
    + by apply (hand_over_conserved fl id w None p o rest).
  - eapply (IH _ (set_waiters rest o)); [|done|done].
    by apply (conserved_same fl (upd_object id (set_waiters rest) p)).
Qed.

Lemma serve_loop_conserved fl l id ws : ∀ p o grants,
  conserved (l :: fl) p → objects p !! id = Some o → owner o = None →
  let r := serve_loop now live id l ws p grants in
  match r.2 with
  | Some l' => l' = l ∧ conserved (l :: fl) r.1.1
  | None => conserved fl r.1.1
  end.
Proof.
  induction ws as [|w rest IH]; intros p o grants Hc Ho Hown; cbn [serve_loop].
  { split; [done|]. by eapply (unowned_upd_conserved _ id p o (set_reserved false)). }
  assert (conserved (l :: fl) (upd_object id (set_waiters rest) p)) as Hc1
    by (by eapply (unowned_upd_conserved _ id p o (set_waiters rest))).
  pose proof (upd_lookup id (set_waiters rest) p o Ho) as Ho1.
  destruct (live (wtask w) (wepoch w)); [destruct (wkind w)|].
  - cbn [snd fst]. by apply (hand_over_conserved fl id w (Some l) p o rest).
  - cbn [snd fst]. split; [done|]. by apply (hand_over_conserved (l :: fl) id w None p o rest).
  - eapply (IH _ (set_waiters rest o)); [|done|done].
    by apply (conserved_same _ (upd_object id (set_waiters rest) p)).
Qed.

Lemma homes_loop_conserved fl l heads : ∀ p grants,
  conserved (l :: fl) p → conserved fl (homes_loop now live l heads p grants).1.
Proof.
  induction heads as [|id heads IH]; intros p grants Hc; cbn [homes_loop].
  { destruct Hc as [Hl ?]. split; [|done]. simpl. rewrite <-Hl. unfold vec_push.
    by rewrite <-(assoc_L (++)). }
  assert (conserved (l :: fl) (set_ready_heads heads p)) as Hc1
    by (by apply (conserved_same _ p)).
  destruct (objects (set_ready_heads heads p) !! id) as [o|] eqn:Ho; [|by apply IH].
  destruct (reserved o) eqn:Hr; [|by apply IH].
  pose proof (cs_objects _ _ Hc1 _ _ Ho) as Hok. unfold owned_ok in Hok.
  destruct (owner o) eqn:Hown; [destruct Hok; congruence|].
  pose proof (serve_loop_conserved fl l id (waiters o) _ o grants Hc1 Ho Hown) as Hs.
  destruct serve_loop as [[p1 g1] [l'|]]; cbn [fst snd] in Hs; [|done].
  destruct Hs as [-> Hs]. by apply IH.
Qed.

Lemma release_lane_conserved fl l p grants :
  conserved (l :: fl) p → conserved fl (release_lane now live l p grants).1.
Proof.
  intros Hc. unfold release_lane, wake_drain.
  pose proof (homes_loop_conserved fl l (ready_heads p) p grants Hc) as H.
  destruct homes_loop as [p1 g1]. case_match; [|done]. by apply (conserved_same _ p1).
Qed.

Lemma gc_object_conserved fl id p : conserved fl p → conserved fl (gc_object id p).
Proof.
  intros Hc. unfold gc_object. destruct (objects p !! id) as [o|] eqn:Ho; [|done].
  destruct (idle o) eqn:Hi; [|done]. unfold idle in Hi.
  apply andb_true_iff in Hi as [[Hown%bool_decide_eq_true _]%andb_true_iff _].
  pose proof (cs_objects _ _ Hc _ _ Ho) as Hok. unfold owned_ok in Hok. rewrite Hown in Hok.
  destruct Hc as [Hl Hobjs]. split; simpl.
  - by rewrite <-Hl, (held_delete _ _ _ Ho), (proj2 Hok).
  - intros j oj [_ Hj]%lookup_delete_Some. by eapply Hobjs.
Qed.

Lemma end_call_conserved task id p :
  conserved [] p → conserved [] (end_call now live task id p).1.
Proof.
  intros Hc. unfold end_call. destruct (objects p !! id) as [o|] eqn:Ho; [|done].
  pose proof (cs_objects _ _ Hc _ _ Ho) as Hok. unfold owned_ok in Hok.
  destruct (Z.ltb_spec 0 (Z.max 0 (depth o - 1))) as [Hd|Hd].
  - apply (conserved_upd _ _ _ o); [done..|]. unfold owned_ok. simpl.
    destruct (owner o); [split; [lia|apply Hok]|lia].
  - assert (conserved (lane_list (owner_lane o)) (upd_object id disown p)) as Hc1.
    { rewrite (upd_object_Some _ _ _ _ Ho).
      eapply (conserved_update _ _ id o _ _ _ Hc Ho); simpl; [done|done|by rewrite app_nil_r|done]. }
    unfold promote_head. rewrite (upd_lookup id disown p o Ho).
    pose proof (promote_loop_conserved _ id (waiters (disown o)) _ (disown o) [] Hc1
                  (upd_lookup id disown p o Ho) eq_refl) as Hp.
    destruct promote_loop as [p1 g1]. simpl in Hp. destruct (owner_lane o) as [l|].
    + pose proof (release_lane_conserved [] l p1 g1 Hp) as Hr.
      destruct release_lane. by apply gc_object_conserved.
    + by apply gc_object_conserved.
Qed.

End any_calls.
Lemma touch_label_conserved fl id label p :
  conserved fl p → conserved fl (touch_label id label p).
Proof.
  intros Hc. rewrite touch_label_eq.
  pose proof (touched_fields id label p) as (H1&H2&H3&_&H5).
  destruct (objects p !! id) as [o|] eqn:Ho; simpl in *.
  - apply (conserved_alter fl id (λ _, touched id label p) o p); [done..|].
    pose proof (cs_objects _ _ Hc _ _ Ho) as Hok. unfold owned_ok in *.
    by rewrite H1, H2, H3, H5.
  - destruct Hc as [Hl Hobjs]. split; simpl.
    + by rewrite held_insert_new, H3.
    + intros j oj [[_ <-]|[_ Hj]]%lookup_insert_Some; [|by eapply Hobjs].
      unfold owned_ok. by rewrite H1, H2, H3.
Qed.

Lemma own_conserved fl id o task epoch lane p :
  conserved (lane_list lane ++ fl) p → objects p !! id = Some o →
  owner o = None → reserved o = false →
  conserved fl (upd_object id (own task epoch lane) p).
Proof.
  intros Hc Ho Hown Hres. rewrite (upd_object_Some _ _ _ _ Ho).
  pose proof (cs_objects _ _ Hc _ _ Ho) as Hok. unfold owned_ok in Hok. rewrite Hown in Hok.
  eapply (conserved_update _ _ id o _ _ _ Hc Ho); simpl; [done|done| |].
  - rewrite (proj2 Hok). simpl. rewrite app_nil_r. f_equiv. apply Permutation_app_comm.
  - split; [|done]. unfold MAX_OBJECT_DEPTH. simpl. lia.
Qed.

Lemma try_acquire_conserved task epoch id label nested p :
  conserved [] p → conserved [] (try_acquire task epoch id label nested p).1.
Proof.
  intros H0. unfold try_acquire.
  pose proof (touched_Some id label (count_acquisition p)) as Ho.
  assert (conserved [] (touch_label id label (count_acquisition p))) as Hc
    by (by apply touch_label_conserved, (conserved_same _ p)).
  set (o := touched id label (count_acquisition p)) in *. clearbody o.
  set (q := touch_label id label (count_acquisition p)) in *. clearbody q. clear H0 p.
  rewrite Ho. simpl. pose proof (cs_objects _ _ Hc _ _ Ho) as Hok. unfold owned_ok in Hok.
  destruct (owner o) as [[t e]|] eqn:Hown.
  - destruct (decide (t = task)); [|done].
    destruct (Z.leb_spec MAX_OBJECT_DEPTH (depth o)); [done|]. simpl.
    apply (conserved_same _ (upd_object id (set_depth (depth o + 1)) q)); [|done..].
    apply (conserved_upd _ _ _ o); [done..|]. unfold owned_ok. simpl. rewrite Hown.
    split; [lia|apply Hok].
  - destruct (reserved o) eqn:Hres; [done|]. destruct nested; simpl.
    + by apply (own_conserved [] id o task epoch None).
    + destruct (vec_pop (free_lanes q)) as [[l rest]|] eqn:Hp; [|done]. simpl.
      apply vec_pop_Some in Hp. apply (own_conserved [] id o task epoch (Some l)); [|done..].
      destruct Hc as [Hl ?]. split; [|done]. simpl. rewrite <-Hl, Hp, <-!(assoc_L (++)). done.
Qed.

Lemma enqueue_conserved now task epoch id label kind p :
  conserved [] p → conserved [] (enqueue now task epoch id label kind p).
Proof.
  intros H0. destruct (enqueue_eq now task epoch id label kind p) as [s ->].
  pose proof (touch_label_conserved [] id label p H0) as Hc. rewrite touch_label_eq in Hc.
  set (o := touched id label p) in *. set (ws := vec_push (waiters o) _).
  set (need := bool_decide (owner o = None) && negb (reserved o)).
  assert (objects (set_objects (<[id := o]> (objects p)) p) !! id = Some o) as Ho
    by (simpl; by rewrite lookup_insert_eq).
  eapply (conserved_alter [] id (λ o, set_reserved (need || reserved o) (set_waiters ws o)) o);
    [exact Hc|exact Ho|simpl; by rewrite insert_insert_eq|done..|].
  pose proof (cs_objects _ _ Hc _ _ Ho) as Hok. unfold owned_ok in *. simpl. subst need.
  destruct (owner o); [|done]. by rewrite bool_decide_eq_false_2.
Qed.

Lemma retract_conserved task id p : conserved [] p → conserved [] (retract task id p).
Proof.
  intros Hc. unfold retract. apply gc_object_conserved.
  assert (conserved [] (unpark task p)) as Hc1 by (by apply (conserved_same _ p)).
  destruct (objects (unpark task p) !! id) as [o|] eqn:Ho.
  - apply (conserved_upd _ _ _ o); [done..|]. exact (cs_objects _ _ Hc1 _ _ Ho).
  - apply (conserved_same _ p); [done| |done|done]. simpl. apply map_eq.
    intros j. destruct (decide (j = id)) as [->|Hj].
    + simpl in Ho. by rewrite lookup_alter_eq, Ho.
    + by rewrite lookup_alter_ne.
Qed.

Lemma any_step_conserved r r' :
  any_step r r' → Forall (conserved []) r → Forall (conserved []) r'.
Proof.
  intros Hs Hall. assert (Hat : ∀ i p, r !! i = Some p → conserved [] p)
    by (rewrite Forall_lookup in Hall; exact Hall).
  destruct Hs as [now live scheduled i task epoch id label what kind r
    |now live i handed cancel task id r p Hi|now live i task id r p Hi|i task epoch r p Hi].
  - destruct (claim_peer_object _ _ _ _ _ _ _ _ _ _ _) as [r' out] eqn:E. simpl.
    destruct (claim_peer_object_effect _ _ _ _ _ _ _ _ _ _ _ _ _ E)
      as [(_ & -> & _)|(p & p' & Hi & -> & Heff)]; [done|]. apply Forall_insert; [done|].
    assert (Hta : ∀ p1 d, try_acquire task epoch id label (bool_decide (kind = Nested)) p = (p1, d) →
      conserved [] p1).
    { intros p1 d E1. pose proof (try_acquire_conserved task epoch id label
        (bool_decide (kind = Nested)) p (Hat _ _ Hi)) as H. by rewrite E1 in H. }
    destruct Heff as [? ? ? E1|p1 ? ? E1|? ? ? E1|? ? ? E1]; apply Hta in E1; [done| | |].
    + by apply (conserved_same _ p1).
    + by apply enqueue_conserved.
    + by apply retract_conserved, enqueue_conserved.
  - apply Forall_insert; [done|]. unfold resume_claim. apply Hat in Hi.
    destruct cancel; [destruct handed|]; simpl; [|by apply retract_conserved|done].
    pose proof (end_call_conserved now live task id p Hi) as H. by destruct end_call.
  - apply Forall_insert; [done|]. by apply end_call_conserved, (Hat i).
  - apply Forall_insert; [done|]. apply Hat in Hi. unfold request_drain.
    case_match; [done|]. by apply (conserved_same _ p).
Qed.

Lemma new_conserved label n : conserved [] (new label n).
Proof.
  split; [|done]. pose proof (inv_lanes _ _ _ (new_inv label n)) as H. exact H.
Qed.

(** C33: Lanes are conserved, unconditionally.  In every registry reached from fresh peers by any
    calls of the claim operations at all (claims, resumptions handed or not, cancelled or not,
    releases, drains, by any tasks, parked or holding the object or not, with any test of
    liveness at each) each lane of a peer is in its pool or held by exactly one object with an
    owner, none lost and none duplicated; an object with an owner has a re-entry depth between 1
    and the cap and is not reserved; one without has depth 0 and no lane. *)
Theorem lanes_are_conserved r r' :
  just_registered r → rtc any_step r r' →
  ∀ p, p ∈ r' →
    free_lanes p ++ held (objects p) ≡ₚ seqZ 0 (lane_count p)
    ∧ ∀ id o, objects p !! id = Some o →
        match owner o with
        | Some _ => 1 ≤ depth o ≤ MAX_OBJECT_DEPTH ∧ reserved o = false
        | None => depth o = 0 ∧ owner_lane o = None
        end.
Proof.
  intros Hf Hrun. assert (Forall (conserved []) r) as Hall.
  { eapply Forall_impl; [exact Hf|]. intros p (label & n & ->). apply new_conserved. }
  clear Hf. revert Hall. induction Hrun as [r|r r1 r2 Hs _ IH]; intros Hall.
  - intros p Hp. rewrite Forall_forall in Hall. destruct (Hall p Hp) as [Hl Hobjs].
    split; [exact Hl|exact Hobjs].
  - by eapply IH, any_step_conserved.
Qed.

(** C32: Safety of the claim machine along orderly histories: from fresh peers, by any interleaving
    of claims, releases, withdrawals, drains and cancellations in which a task parked on a claim
    takes no other step than to withdraw until a grant of that claim, and only the owner of an
    object ends a call on it ([sys_step]; the grant of a cancelled drain leads out of them,
    [ghost_grant_runs_two_calls]).  Then each lane is in the pool or held by exactly one owned
    object (none lost, none duplicated); an owned object has a re-entry depth
    between 1 and the cap and is not reserved; an unowned, unreserved object has
    no queue; the reservation queue holds each reserved object once; lanes
    are free only when no reservation is waiting; the waits-for index is
    exactly the queue contents; a drain waits only while a lane is out; and a
    task is parked on at most one peer. *)
Theorem reachable_peers_ok s :
  reachable s →
  parked_once s.2 ∧
  ∀ p, p ∈ s.2 →
    free_lanes p ++ held (objects p) ≡ₚ seqZ 0 (lane_count p) ∧
    (∀ id o, objects p !! id = Some o → obj_ok false o) ∧
    NoDup (ready_heads p) ∧
    (∀ id, id ∈ ready_heads p ↔ ∃ o, objects p !! id = Some o ∧ reserved o = true) ∧
    (ready_heads p ≠ [] → free_lanes p = []) ∧
    (∀ t id e, parked_on p !! t = Some (id, e) ↔ queued (objects p) t id e) ∧
    (drain_waiters p ≠ [] → all_home p = false).
Proof.
  intros [Hall Honce]%reachable_inv. split; [done|]. intros p Hp.
  rewrite Forall_forall in Hall. destruct (Hall p Hp) as [Hinv Hd].
  split_and!; try apply Hinv; [|apply Hd].
  intros id. rewrite (inv_ready _ _ _ Hinv). naive_solver.
Qed.
