(* ===== verification/ClaimsDeadlock.v ===== *)
(** * Deadlock detection

    What the waits-for walk finds, that no short cycle of owner edges is ever
    reached, and the cycles through a reservation that it does not see: the wait
    that can then never end.  Then concrete histories, and what the grant of a
    cancelled drain does outside the orderly ones. *)
From stdpp Require Import base numbers list gmap strings pretty.
From stdpp Require Import options.
From S2P Require Import Prelude Claims ClaimsInv ClaimsProps ClaimsSystem.
Local Open Scope Z_scope.
#[local] Set Warnings "-clear-no-such-hyp".

(** ** The waits-for graph *)

Section graph.
Variable live : nat → Z → bool.
Variable r : list PeerClaims.

(** The task that [a] waits for: the owner of the object it is parked on. *)
Definition target (a : nat) : option nat := fst <$> find_edge live r a.

Fixpoint follow (n : nat) (a : nat) : option nat :=
  match n with
  | O => Some a
  | S n' => target a ≫= follow n'
  end.

(** The rendered edges of the first [n] steps from [a]. *)
Fixpoint hops (n : nat) (a : nat) : list string :=
  match n with
  | O => []
  | S n' => match find_edge live r a with
            | Some (b, label) => hop a label b :: hops n' b
            | None => []
            end
  end.

Lemma follow_add n m a : follow (n + m) a = follow n a ≫= follow m.
Proof.
  revert a. induction n as [|n IH]; intros a; simpl; [done|].
  destruct (target a); simpl; [apply IH|done].
Qed.

Lemma walk_spec fuel me : ∀ cur path msg,
  walk live fuel r me cur path = Some msg ↔
  ∃ n, (n < fuel)%nat ∧ follow n cur = Some me ∧ (∀ m, (m < n)%nat → follow m cur ≠ Some me) ∧
    msg = ("deadlock: the calls wait on each other in a cycle — " +:+
           join_path (path ++ hops n cur))%string.
Proof.
  induction fuel as [|fuel IH]; intros cur path msg; simpl.
  - split; [done|]. intros (?&?&_). lia.
  - destruct (decide (cur = me)) as [->|Hne].
    + split.
      * intros [= <-]. exists O. simpl. rewrite app_nil_r. split_and!; [lia|done|lia|done].
      * intros (n & _ & _ & Hmin & ->). destruct n; [simpl; by rewrite app_nil_r|].
        destruct (Hmin O); [lia|done].
    + destruct (find_edge live r cur) as [[b label]|] eqn:E; simpl.
      * rewrite IH. split.
        -- intros (n & Hn & Hf & Hmin & ->). exists (S n). simpl. unfold target. rewrite E. simpl.
           split_and!; [lia|done| |].
           ++ intros [|m] Hm; simpl; [congruence|]. unfold target. rewrite E. simpl.
              apply Hmin. lia.
           ++ unfold vec_push. by rewrite <-(assoc_L (++)).
        -- intros ([|n] & Hn & Hf & Hmin & ->); simpl in *; [congruence|].
           unfold target in Hf. rewrite E in *. simpl in Hf.
           exists n. split_and!; [lia|done| |unfold vec_push; by rewrite <-(assoc_L (++))].
           intros m Hm. specialize (Hmin (S m)). simpl in Hmin. unfold target in Hmin.
           rewrite E in Hmin. apply Hmin. lia.
      * split; [done|]. intros ([|n] & _ & Hf & _); simpl in Hf; [congruence|].
        unfold target in Hf. by rewrite E in Hf.
Qed.

End graph.

(** A walk that closes within the bound is reported. *)
Lemma would_deadlock_complete live r me start label n :
  (n < MAX_WALK)%nat → follow live r n start = Some me →
  would_deadlock live r me start label ≠ None.
Proof.
  intros Hn Hf Hnone.
  destruct (least_witness (λ n, follow live r n start = Some me) n Hf) as (m & Hm & Hfm & Hmin).
  unfold would_deadlock in Hnone.
  enough (∃ msg, walk live MAX_WALK r me start [hop me label start] = Some msg) as [? ?] by congruence.
  eexists. apply walk_spec. exists m. split_and!; [lia|done..].
Qed.


(** ** Edges of a registry whose tasks park once *)

Definition waits_on (live : nat → Z → bool) (p : PeerClaims) (a b : nat) : Prop :=
  ∃ id e o eb, parked_on p !! a = Some (id, e) ∧ live a e = true ∧
    objects p !! id = Some o ∧ owner o = Some (b, eb).

Lemma waits_for_spec live a p b :
  fst <$> waits_for live a p = Some b ↔ waits_on live p a b.
Proof.
  unfold waits_for, waits_on. split.
  - intros H. destruct (parked_on p !! a) as [[id e]|] eqn:Hp; simpl in H; [|done].
    destruct (live a e) eqn:Hl; [|done].
    destruct (objects p !! id) as [o|] eqn:Ho; simpl in H; [|done].
    destruct (owner o) as [[t eb]|] eqn:Hown; simpl in H; [|done]. simplify_eq.
    exists id, e, o, eb. done.
  - intros (id & e & o & eb & -> & Hl & Ho & Hown). simpl. rewrite Hl, Ho. simpl. by rewrite Hown.
Qed.

Lemma target_spec live r a b :
  parked_once r → target live r a = Some b ↔ ∃ p, p ∈ r ∧ waits_on live p a b.
Proof.
  intros Honce. unfold target. split.
  - clear Honce. induction r as [|p r IH]; simpl; [done|]. destruct (waits_for live a p) as [e|] eqn:E.
    + intros H. exists p. split; [by left|]. apply waits_for_spec. by rewrite E.
    + intros (q & ? & ?)%IH. exists q. split; [by right|done].
  - intros (p & [i Hi]%list_elem_of_lookup_1 & Hw). pose proof Hw as Hw'.
    apply waits_for_spec in Hw. revert i Hi Honce. induction r as [|q r IH]; intros i Hi Honce; [done|].
    simpl. destruct (waits_for live a q) as [e|] eqn:E.
    + assert (i = 0%nat) as ->.
      { apply (Honce i 0%nat p q a Hi eq_refl).
        - destruct Hw' as (?&?&?&?&->&_). done.
        - unfold waits_for in E. destruct (parked_on q !! a); [done|]. by simpl in E. }
      simpl in Hi. simplify_eq. by rewrite E in Hw.
    + destruct i as [|i]; simpl in Hi; [simplify_eq; by rewrite E in Hw|].
      apply (IH i Hi). intros j k p1 p2 t Hj Hk H1 H2.
      pose proof (Honce (S j) (S k) p1 p2 t Hj Hk H1 H2). lia.
Qed.

(** ** Hand-over adds no edge into a waiting task

    [gstep p p']: waits-for entries and queues only shrink, and an object's
    owner in [p'] is its owner in [p], or a task of its queue that is no
    longer parked. *)
Definition gstep (p p' : PeerClaims) : Prop :=
  parked_on p' ⊆ parked_on p ∧
  ∀ id o', objects p' !! id = Some o' → ∃ o, objects p !! id = Some o ∧
    waiters o' ⊆ waiters o ∧
    ∀ b eb, owner o' = Some (b, eb) →
      owner o = Some (b, eb) ∨
      parked_on p' !! b = None ∧ ∃ w, w ∈ waiters o ∧ wtask w = b.

#[local] Instance gstep_refl : Reflexive gstep.
Proof. intros p. split; [done|]. intros id o Ho. exists o. auto. Qed.

#[local] Instance gstep_trans : Transitive gstep.
Proof.
  intros p q s [Hp1 H1] [Hp2 H2]. split; [by etrans|].
  intros id o'' (o' & Ho' & Hw' & Hown')%H2. destruct (H1 _ _ Ho') as (o & Ho & Hw & Hown).
  exists o. split_and!; [done|by etrans|]. intros b eb [Hb|(Hb & w & Hin & <-)]%Hown'.
  - destruct (Hown _ _ Hb) as [?|[Hpb ?]]; [by left|right]. split; [|done].
    destruct (parked_on s !! b) eqn:E; [|done]. eapply lookup_weaken in E; [|exact Hp2]. congruence.
  - right. split; [done|]. exists w. auto.
Qed.

Lemma gstep_update id o o' p p' :
  objects p !! id = Some o → objects p' = <[id := o']> (objects p) →
  parked_on p' ⊆ parked_on p → waiters o' ⊆ waiters o →
  (∀ b eb, owner o' = Some (b, eb) → owner o = Some (b, eb) ∨
     parked_on p' !! b = None ∧ ∃ w, w ∈ waiters o ∧ wtask w = b) →
  gstep p p'.
Proof.
  intros Ho Hobj Hp Hw Hown. split; [done|]. intros j oj. rewrite Hobj.
  intros [[<- <-]|[_ Hj]]%lookup_insert_Some; [eauto|]. exists oj. auto.
Qed.

Lemma gstep_same p p' :
  objects p' = objects p → parked_on p' = parked_on p → gstep p p'.
Proof. intros Hobj Hp. split; [by rewrite Hp|]. intros id o. rewrite Hobj. eauto. Qed.

Section gstep_loops.
Context (now : Z) (live : nat → Z → bool).

Lemma gstep_hand_over id w lane p o ws grants :
  objects p !! id = Some o → w ∈ waiters o → ws ⊆ waiters o →
  gstep p (hand_over now id w lane (upd_object id (set_waiters ws) p) grants).1.
Proof.
  intros Ho Hin Hws. unfold hand_over, grant. simpl. rewrite (upd_object_Some _ _ _ _ Ho).
  eapply (gstep_update id o
    (set_reserved false (own (wtask w) (wepoch w) lane (set_waiters ws o)))); [done|..].
  - simpl. unfold upd_object. simpl. by rewrite alter_insert_eq.
  - apply delete_subseteq.
  - done.
  - intros b eb [= <- <-]. right. split; [apply lookup_delete_eq|by exists w].
Qed.

Lemma gstep_ghost id t p o ws :
  objects p !! id = Some o → ws ⊆ waiters o →
  gstep p (unpark t (upd_object id (set_waiters ws) p)).
Proof.
  intros Ho Hws. rewrite (upd_object_Some _ _ _ _ Ho).
  eapply (gstep_update id o (set_waiters ws o)); [done|done|apply delete_subseteq|done|auto].
Qed.

Lemma gstep_reserved id b p : gstep p (upd_object id (set_reserved b) p).
Proof.
  unfold upd_object. destruct (objects p !! id) as [o|] eqn:Ho.
  - eapply (gstep_update id o (set_reserved b o)); simpl; [done|..|auto].
    + by rewrite alter_alt, Ho. + done. + done.
  - apply gstep_same; [|done]. simpl. by rewrite alter_alt, Ho.
Qed.

Lemma gstep_promote id ws : ∀ p o grants,
  objects p !! id = Some o → waiters o = ws →
  gstep p (promote_loop now live id ws p grants).1.
Proof.
  induction ws as [|w rest IH]; intros p o grants Ho Hw; cbn [promote_loop].
  - apply gstep_reserved.
  - assert (w ∈ waiters o) as Hin by (rewrite Hw; by left).
    assert (rest ⊆ waiters o) as Hsub by (rewrite Hw; set_solver).
    destruct (live (wtask w) (wepoch w)).
    + destruct (wkind w); [|by eapply gstep_hand_over].
      change (free_lanes (upd_object id (set_waiters rest) p)) with (free_lanes p).
      destruct (vec_pop (free_lanes p)) as [[l fl]|].
      * transitivity (set_free_lanes fl p); [by apply gstep_same|].
        by eapply (gstep_hand_over id w (Some l) (set_free_lanes fl p)).
      * destruct (requeue_eq p id o w rest Ho Hw) as [-> _].
        etrans; [apply (gstep_reserved id true)|]. case_match; by apply gstep_same.
    + etrans; [by apply (gstep_ghost id (wtask w) p o rest)|].
      rewrite (upd_object_Some _ _ _ _ Ho).
      eapply (IH _ (set_waiters rest o)); [apply lookup_insert_eq|done].
Qed.

Lemma gstep_serve id l ws : ∀ p o grants,
  objects p !! id = Some o → waiters o = ws →
  gstep p (serve_loop now live id l ws p grants).1.1.
Proof.
  induction ws as [|w rest IH]; intros p o grants Ho Hw; cbn [serve_loop].
  - apply gstep_reserved.
  - assert (w ∈ waiters o) as Hin by (rewrite Hw; by left).
    assert (rest ⊆ waiters o) as Hsub by (rewrite Hw; set_solver).
    destruct (live (wtask w) (wepoch w)).
    + destruct (wkind w); cbn [fst]; by eapply gstep_hand_over.
    + etrans; [by apply (gstep_ghost id (wtask w) p o rest)|].
      rewrite (upd_object_Some _ _ _ _ Ho).
      eapply (IH _ (set_waiters rest o)); [apply lookup_insert_eq|done].
Qed.

Lemma gstep_homes heads : ∀ l p grants, gstep p (homes_loop now live l heads p grants).1.
Proof.
  induction heads as [|id heads IH]; intros l p grants; cbn [homes_loop].
  - by apply gstep_same.
  - transitivity (set_ready_heads heads p); [by apply gstep_same|].
    destruct (objects (set_ready_heads heads p) !! id) as [o|] eqn:Ho; [|apply IH].
    destruct (reserved o); [|apply IH].
    pose proof (gstep_serve id l (waiters o) _ o grants Ho eq_refl) as H.
    destruct serve_loop as [[p1 g1] [l'|]]; [|exact H].
    etrans; [exact H|apply IH].
Qed.

Lemma gstep_gc id p : gstep p (gc_object id p).
Proof.
  unfold gc_object. destruct (objects p !! id) as [o|]; [|done]. destruct (idle o); [|done].
  split; [done|]. simpl. intros j oj [_ Hj]%lookup_delete_Some. eauto.
Qed.

Lemma gstep_end_call task id p : gstep p (end_call now live task id p).1.
Proof.
  unfold end_call. destruct (objects p !! id) as [o|] eqn:Ho; [|done].
  destruct (0 <? _).
  - cbn [fst]. rewrite (upd_object_Some _ _ _ _ Ho).
    by eapply (gstep_update id o (set_depth _ o)); simpl; [..|auto].
  - transitivity (upd_object id disown p).
    { rewrite (upd_object_Some _ _ _ _ Ho).
      by eapply (gstep_update id o (disown o)); simpl. }
    assert (gstep (upd_object id disown p) (promote_head now live id (upd_object id disown p) []).1) as H.
    { unfold promote_head. case_match; [by eapply gstep_promote|done]. }
    etrans; [exact H|]. destruct promote_head as [p1 g1]. cbn [fst].
    destruct (owner_lane o) as [l|]; [|cbn [fst]; apply gstep_gc].
    unfold release_lane, wake_drain.
    pose proof (gstep_homes (ready_heads p1) l p1 g1) as H2.
    destruct homes_loop as [p2 g2]. etrans; [exact H2|].
    destruct (all_home p2); cbn [fst]; [|apply gstep_gc].
    transitivity (set_drain_waiters [] p2); [by apply gstep_same|apply gstep_gc].
Qed.

End gstep_loops.

Lemma gstep_retract task id p : gstep p (retract task id p).
Proof.
  unfold retract. etrans; [|apply gstep_gc].
  destruct (objects p !! id) as [o|] eqn:Ho.
  - rewrite (upd_object_Some _ _ _ o) by done.
    eapply (gstep_update id o _); simpl; [done|reflexivity|apply delete_subseteq| |auto].
    intros w. simpl. rewrite list_elem_of_filter. tauto.
  - split; simpl; [apply delete_subseteq|]. rewrite alter_alt, Ho. eauto.
Qed.

(** ** No short owner cycle is reachable *)

Definition acyclic (s : System) : Prop :=
  ∀ t n, (1 ≤ n ≤ 64)%nat → follow s.1 s.2 n t ≠ Some t.

Section sub_edges.
Context (live live' : nat → Z → bool) (r r' : list PeerClaims).

Lemma follow_sub n : ∀ a x,
  (∀ a b, target live' r' a = Some b → target live r a = Some b ∨ target live' r' b = None) →
  follow live' r' n a = Some x → is_Some (target live' r' x) → follow live r n a = Some x.
Proof.
  induction n as [|n IH]; intros a x Hsub Hf Hx; simpl in *; [done|].
  destruct (target live' r' a) as [b|] eqn:E; simpl in Hf; [|done].
  destruct (Hsub _ _ E) as [-> | Hb]; simpl; [by apply IH|].
  destruct n; simpl in Hf; [|by rewrite Hb in Hf]. simplify_eq. rewrite Hb in Hx. by destruct Hx.
Qed.

Lemma acyclic_sub :
  (∀ a b, target live' r' a = Some b → target live r a = Some b ∨ target live' r' b = None) →
  acyclic (live, r) → acyclic (live', r').
Proof.
  intros Hsub Hac t n Hn Hf. simpl in *. apply (Hac t n Hn). simpl. apply follow_sub; [done|done|].
  destruct n as [|n]; [lia|]. simpl in Hf. destruct (target live' r' t); [done|]. done.
Qed.

(** Until the walk meets [t], it only uses the edges of the other tasks. *)
Lemma follow_avoid t n : ∀ a,
  (∀ a, a ≠ t → target live' r' a = target live r a) →
  (∀ k, (k < n)%nat → follow live' r' k a ≠ Some t) →
  follow live' r' n a = follow live r n a.
Proof.
  induction n as [|n IH]; intros a Heq Hk; simpl; [done|].
  assert (a ≠ t) as Ha. { intros ->. apply (Hk O); [lia|done]. }
  rewrite (Heq a Ha). destruct (target live r a) as [b|] eqn:E; simpl; [|done].
  apply IH; [done|]. intros k Hlt Hf. apply (Hk (S k)); [lia|]. simpl. rewrite (Heq a Ha), E. done.
Qed.

End sub_edges.

Lemma waits_on_parked live p a b : waits_on live p a b → is_Some (parked_on p !! a).
Proof. intros (?&?&?&?&->&_). done. Qed.

Lemma not_parked_no_target live r t : running r t → target live r t = None.
Proof.
  unfold running, target. induction 1 as [|p r Hp _ IH]; simpl; [done|].
  unfold waits_for at 1. by rewrite Hp.
Qed.

Lemma elem_of_insert_peer (r : list PeerClaims) i p' q :
  q ∈ <[i := p']> r → q = p' ∨ ∃ j, j ≠ i ∧ r !! j = Some q.
Proof.
  intros [j Hj]%list_elem_of_lookup_1.
  apply list_lookup_insert_Some in Hj as [(_ & -> & _)|[? ?]]; [by left|right; eauto].
Qed.

Lemma acyclic_gstep live r i p p' :
  sys_inv (live, r) → r !! i = Some p → gstep p p' → parked_once (<[i := p']> r) →
  acyclic (live, r) → acyclic (live, <[i := p']> r).
Proof.
  intros [Hall Honce] Hi [Hpk Hobj] Honce'. simpl in *. apply acyclic_sub. intros a b Ht.
  apply target_spec in Ht as (q & Hq & Hw); [|done].
  apply elem_of_insert_peer in Hq as [->|(j & Hne & Hj)].
  2: { left. apply target_spec; [done|]. exists q. split; [by eapply list_elem_of_lookup_2|done]. }
  destruct Hw as (id & e & o' & eb & Hp & Hl & Ho' & Hown).
  destruct (Hobj _ _ Ho') as (o & Ho & _ & Hcase).
  destruct (Hcase _ _ Hown) as [Hold|(Hnp & w & Hin & Hwt)].
  - left. apply target_spec; [done|]. exists p. split; [by eapply list_elem_of_lookup_2|].
    exists id, e, o, eb. split_and!; [|done..]. by eapply lookup_weaken.
  - right. apply not_parked_no_target. apply Forall_lookup. intros j q Hj.
    apply list_lookup_insert_Some in Hj as [(_ & -> & _)|[Hne Hj]]; [done|].
    destruct (parked_on q !! b) eqn:E; [|done]. destruct Hne.
    rewrite Forall_lookup in Hall. destruct (Hall _ _ Hi) as [Hinv _].
    apply (Honce i j p q b Hi Hj); [|done]. exists (id, wepoch w).
    apply (inv_parked _ _ _ Hinv). by exists o, w.
Qed.

(** A claim gives the object to the claimant, who is not waiting. *)
Lemma try_acquire_owner task epoch id label nested p j o' b eb :
  objects (try_acquire task epoch id label nested p).1 !! j = Some o' → owner o' = Some (b, eb) →
  (∃ o, objects p !! j = Some o ∧ owner o = Some (b, eb)) ∨ b = task.
Proof.
  assert (∀ q f, (∀ o, owner (f o) = Some (task, epoch) ∨ owner (f o) = owner o) →
    objects q = objects (touch_label id label (count_acquisition p)) →
    objects (upd_object id f q) !! j = Some o' → owner o' = Some (b, eb) →
    (∃ o, objects p !! j = Some o ∧ owner o = Some (b, eb)) ∨ b = task) as Hupd.
  { intros q f Hf Hq. simpl. rewrite Hq. clear Hq q.
    rewrite touch_label_eq. simpl. rewrite alter_insert_eq.
    intros [[<- <-]|[_ Hj]]%lookup_insert_Some Hown; [|by left; eauto].
    destruct (Hf (touched id label (count_acquisition p))) as [E|E];
      rewrite E in Hown; [right; congruence|left].
    pose proof (touched_fields id label (count_acquisition p)) as [H1 _]. rewrite H1 in Hown.
    simpl in Hown. destruct (objects p !! id) as [o|]; [eauto|done]. }
  assert (objects (touch_label id label (count_acquisition p)) =
    objects (upd_object id (λ o, o) (touch_label id label (count_acquisition p)))) as Hid.
  { simpl. by rewrite alter_id. }
  unfold try_acquire. cbn zeta.
  repeat case_match; cbn [fst]; try (rewrite Hid; apply Hupd; auto; fail);
    apply Hupd; simpl; auto.
Qed.

Lemma acyclic_decided live r i p p' task :
  sys_inv (live, r) → r !! i = Some p → running r task →
  parked_on p' = parked_on p →
  (∀ j o' b eb, objects p' !! j = Some o' → owner o' = Some (b, eb) →
     (∃ o, objects p !! j = Some o ∧ owner o = Some (b, eb)) ∨ b = task) →
  parked_once (<[i := p']> r) →
  acyclic (live, r) → acyclic (live, <[i := p']> r).
Proof.
  intros [Hall Honce] Hi Hrun Hpk Hobj Honce'. simpl in *. apply acyclic_sub. intros a b Ht.
  apply target_spec in Ht as (q & Hq & Hw); [|done].
  apply elem_of_insert_peer in Hq as [->|(j & Hne & Hj)].
  2: { left. apply target_spec; [done|]. exists q. split; [by eapply list_elem_of_lookup_2|done]. }
  destruct Hw as (id & e & o' & eb & Hp & Hl & Ho' & Hown).
  destruct (Hobj _ _ _ _ Ho' Hown) as [(o & Ho & Hold)| ->].
  - left. apply target_spec; [done|]. exists p. split; [by eapply list_elem_of_lookup_2|].
    exists id, e, o, eb. by rewrite <-Hpk.
  - right. apply not_parked_no_target. apply Forall_insert; [done|].
    unfold running in Hrun. rewrite Forall_lookup in Hrun. rewrite Hpk. eauto.
Qed.

Lemma enqueue_owner now task epoch id label kind p j b eb :
  (∃ o', objects (enqueue now task epoch id label kind p) !! j = Some o' ∧ owner o' = Some (b, eb)) ↔
  (∃ o, objects p !! j = Some o ∧ owner o = Some (b, eb)).
Proof.
  destruct (enqueue_eq now task epoch id label kind p) as [s ->]. simpl.
  destruct (decide (j = id)) as [->|Hne]; [|by setoid_rewrite lookup_insert_ne].
  setoid_rewrite lookup_insert_eq. pose proof (touched_fields id label p) as [H1 _].
  split.
  - intros (o' & [= <-] & Hown). simpl in Hown. rewrite H1 in Hown.
    destruct (objects p !! id) as [o|]; [eauto|done].
  - intros (o & Ho & Hown). eexists. split; [done|]. simpl. by rewrite H1, Ho.
Qed.

Lemma enqueue_waits_on now task epoch id label kind live p a b :
  a ≠ task → waits_on live (enqueue now task epoch id label kind p) a b ↔ waits_on live p a b.
Proof.
  intros Hne. unfold waits_on.
  assert (parked_on (enqueue now task epoch id label kind p) !! a = parked_on p !! a) as ->.
  { rewrite (proj2 (proj2 (proj2 (enqueue_fields now task epoch id label kind p)))).
    by rewrite lookup_insert_ne. }
  pose proof (enqueue_owner now task epoch id label kind p) as H.
  split.
  - intros (j & e & o & eb & ? & ? & Ho & Hown).
    destruct (proj1 (H j b eb)) as (o2 & ? & ?); [eauto|]. exists j, e, o2, eb. auto.
  - intros (j & e & o & eb & ? & ? & Ho & Hown).
    destruct (proj2 (H j b eb)) as (o2 & ? & ?); [eauto|]. exists j, e, o2, eb. auto.
Qed.

(** Every edge of the registry after queueing, except the new one, was there. *)
Lemma enqueue_target live r i p1 now task epoch id label kind a :
  parked_once (<[i := p1]> r) →
  parked_once (<[i := enqueue now task epoch id label kind p1]> r) →
  (i < length r)%nat → a ≠ task →
  target live (<[i := enqueue now task epoch id label kind p1]> r) a =
  target live (<[i := p1]> r) a.
Proof.
  intros Ho1 Ho2 Hi Hne. apply option_eq. intros b. rewrite !target_spec by done.
  set (p' := enqueue now task epoch id label kind p1) in *.
  assert (waits_on live p' a b ↔ waits_on live p1 a b) as Heq by by apply enqueue_waits_on.
  assert (∀ x q, q ∈ <[i := x]> r ↔ q = x ∨ ∃ j, j ≠ i ∧ r !! j = Some q) as Hin.
  { intros x q. split; [apply elem_of_insert_peer|]. intros [->|(j & ? & ?)].
    - eapply list_elem_of_lookup_2. by rewrite list_lookup_insert_eq.
    - eapply list_elem_of_lookup_2. by rewrite list_lookup_insert_ne. }
  setoid_rewrite Hin. clear Hin. split; intros (q & [->|Hj] & Hw).
  - exists p1. split; [by left|by apply Heq].
  - exists q. auto.
  - exists p'. split; [by left|by apply Heq].
  - exists q. auto.
Qed.

Lemma acyclic_queued now live r i p p1 task epoch id label kind b :
  sys_inv (live, r) → r !! i = Some p → running r task →
  try_acquire task epoch id label (bool_decide (kind = Nested)) p = (p1, WouldQueue b) →
  (∀ start, b = Some start →
     would_deadlock live (<[i := p1]> r) task start (label_with_id label id) = None) →
  parked_once (<[i := enqueue now task epoch id label kind p1]> r) →
  acyclic (live, r) → acyclic (live, <[i := enqueue now task epoch id label kind p1]> r).
Proof.
  intros Hinv Hi Hrun Hta Hwalk Honce' Hac.
  pose proof (try_acquire_core task epoch id label (bool_decide (kind = Nested)) p) as [Hpk _].
  pose proof (try_acquire_owner task epoch id label (bool_decide (kind = Nested)) p) as Howner.
  pose proof (try_acquire_ok task epoch id label (bool_decide (kind = Nested)) p) as Hok1.
  pose proof (would_queue_state task epoch id label label (bool_decide (kind = Nested)) p b) as Hq.
  rewrite Hta in Hpk, Howner, Hq, Hok1. cbn [fst snd] in *. specialize (Hq eq_refl) as [_ Hq].
  assert (i < length r)%nat as Hlt by (by eapply lookup_lt_Some).
  assert (parked_once (<[i := p1]> r)) as Honce1.
  { apply (sys_inv_replace live live r i p p1 Hinv Hi); [|by rewrite Hpk].
    apply Hok1. destruct Hinv as [Hall _]. simpl in Hall. rewrite Forall_lookup in Hall. eauto. }
  assert (acyclic (live, <[i := p1]> r)) as Hac1 by (by eapply acyclic_decided).
  pose proof (enqueue_target live r i p1 now task epoch id label kind) as Hedges.
  assert (∀ a, a ≠ task → target live (<[i := enqueue now task epoch id label kind p1]> r) a =
    target live (<[i := p1]> r) a) as Hsame by auto. clear Hedges.
  assert (∀ s, target live (<[i := enqueue now task epoch id label kind p1]> r) task = Some s →
    b = Some s) as Hnew.
  { intros s Hs. apply target_spec in Hs as (q & Hin & Hw); [|done].
    apply elem_of_insert_peer in Hin as [->|(j & Hne & Hj)].
    - destruct Hw as (j & e & o & eb & Hp & _ & Ho & Hown).
      destruct (enqueue_eq now task epoch id label kind p1) as [st E]. rewrite E in Hp, Ho.
      simpl in Hp, Ho. rewrite lookup_insert_eq in Hp. injection Hp as <- <-.
      rewrite lookup_insert_eq in Ho. injection Ho as <-. simpl in Hown.
      destruct b as [t|]; [destruct Hq as (_ & e' & He')|destruct Hq as (He' & _)]; congruence.
    - apply waits_on_parked in Hw. unfold running in Hrun. rewrite Forall_lookup in Hrun.
      rewrite (Hrun _ _ Hj) in Hw. by destruct Hw. }
  set (r' := <[i := enqueue now task epoch id label kind p1]> r) in *.
  intros t n Hn Hf. simpl in Hf.
  destruct (decide (Exists (λ k, follow live r' k t = Some task) (seq 0 n)))
    as [(k & Hk & Hfk)%Exists_exists|Hno].
  - assert (follow live r' n task = Some task) as Hcyc.
    { pose proof (follow_add live r' k n t) as E. rewrite Hfk in E. simpl in E.
      rewrite Nat.add_comm, follow_add, Hf in E. simpl in E. congruence. }
    destruct n as [|n]; [lia|]. simpl in Hcyc.
    destruct (target live r' task) as [s|] eqn:Hs; simpl in Hcyc; [|done].
    destruct (least_witness (λ n, follow live r' n s = Some task) n Hcyc) as (m & Hm & Hfm & Hmin).
    rewrite (follow_avoid live live (<[i := p1]> r) r' task m s Hsame Hmin) in Hfm.
    eapply (would_deadlock_complete live (<[i := p1]> r) task s _ m); [unfold MAX_WALK; lia|done|].
    apply Hwalk. auto.
  - apply (Hac1 t n Hn). simpl. rewrite <-Hf. symmetry.
    apply (follow_avoid live live (<[i := p1]> r) r' task n t Hsame).
    intros k Hk Hfk. apply Hno, Exists_exists. exists k. split; [|done]. apply elem_of_seq. lia.
Qed.

Lemma retract_owner task id p j o' x :
  objects (retract task id p) !! j = Some o' → owner o' = Some x →
  ∃ o, objects p !! j = Some o ∧ owner o = Some x.
Proof.
  unfold retract, gc_object.
  set (q := upd_object id _ (unpark task p)).
  assert (∀ j o', objects q !! j = Some o' → owner o' = Some x →
    ∃ o, objects p !! j = Some o ∧ owner o = Some x) as Hq.
  { intros k ok. unfold q. simpl. destruct (decide (k = id)) as [->|Hne].
    - rewrite lookup_alter_eq. destruct (objects p !! id) as [o|]; simpl; [|done].
      intros [= <-] Hown. by exists o.
    - rewrite lookup_alter_ne by done. eauto. }
  intros Ho' Hown. apply (Hq j o'); [|done]. revert Ho'.
  repeat case_match; simpl; try done. by intros [_ ?]%lookup_delete_Some.
Qed.

Lemma acyclic_step a s s' : sys_step a s s' → sys_inv s → acyclic s → acyclic s'.
Proof.
  intros Hstep Hinv Hac. pose proof (sys_step_inv _ _ _ Hstep Hinv) as [_ Honce'].
  destruct Hstep as [now scheduled i task epoch id label what kind live r r' out Hrun Hc
    |now i task id live r p Hi Hrun Hholds|i task id live r p Hi Hpark
    |i task epoch live r p Hi Hrun|live live' r Hlive]; simpl in Honce'.
  - destruct (claim_peer_object_effect _ _ _ _ _ _ _ _ _ _ _ _ _ Hc)
      as [(_ & -> & _)|(p & p' & Hi & -> & Heff)]; [done|].
    pose proof (try_acquire_core task epoch id label (bool_decide (kind = Nested)) p) as [Hpk _].
    pose proof (try_acquire_owner task epoch id label (bool_decide (kind = Nested)) p) as Howner.
    destruct Heff as [p1 d out E Hd Hout|p1 d out E Hout|b p1 out E Hw ->|b p1 out E Hout];
      rewrite E in Hpk, Howner; cbn [fst] in *.
    + by eapply acyclic_decided.
    + by eapply (acyclic_decided live r i p (count_deadlock p1)).
    + by eapply acyclic_queued.
    + eapply (acyclic_decided live r i p _ task); [done..| | |done|done].
      * rewrite retract_parked, (proj2 (proj2 (proj2 (enqueue_fields now task epoch id label kind p1)))).
        rewrite Hpk, delete_insert_eq. apply delete_id.
        unfold running in Hrun. rewrite Forall_lookup in Hrun. eauto.
      * intros j o' b' eb Ho' Hown. destruct (retract_owner _ _ _ _ _ _ Ho' Hown) as (o & Ho & Ho2).
        destruct (proj1 (enqueue_owner now task epoch id label kind p1 j b' eb)) as (o2 & ? & ?);
          [eauto|]. eauto.
  - eapply acyclic_gstep; [done|done|apply gstep_end_call|done|done].
  - eapply acyclic_gstep; [done|done|apply gstep_retract|done|done].
  - eapply acyclic_gstep; [done|done| |done|done].
    unfold request_drain. case_match; [done|by apply gstep_same].
  - eapply acyclic_sub; [|exact Hac]. intros a b Ht. left.
    apply target_spec in Ht as (q & Hin & (id & e & o & eb & Hp & Hl & Ho & Hown)); [|done].
    apply target_spec; [done|]. exists q. split; [done|]. exists id, e, o, eb.
    split_and!; [done| |done..]. apply Hlive; [|done]. by exists q, id.
Qed.

Lemma acyclic_registered live r : just_registered r → acyclic (live, r).
Proof.
  intros Hf t n Hn Hfol. destruct n as [|n]; [lia|]. simpl in Hfol.
  assert (target live r t = None) as E; [|by rewrite E in Hfol].
  apply not_parked_no_target. eapply Forall_impl; [exact Hf|].
  intros p (label & m & ->). done.
Qed.

(** C36: Owner cycles are always caught at park time.  In every registry
    an orderly history reaches from fresh peers ([sys_step]), no task waits for itself through a chain of at
    most 64 owner edges (the bound of the walk), across any number of peers:
    a claim that would close such a cycle is refused, and hand-overs,
    withdrawals and cancellations never create one. *)
Theorem no_short_owner_cycle live r t n :
  reachable (live, r) → (1 ≤ n ≤ 64)%nat → follow live r n t ≠ Some t.
Proof.
  intros (live0 & r0 & acts & Hf & Hs) Hn.
  enough (acyclic (live, r)) as Hac by (by apply (Hac t n Hn)).
  assert (∀ acts s s', sys_steps acts s s' → sys_inv s → acyclic s → acyclic s') as Hsteps.
  { clear. induction 1; eauto using sys_step_inv, acyclic_step. }
  eapply Hsteps; [exact Hs|by apply fresh_inv|by apply acyclic_registered].
Qed.

(** * A concrete run, and the properties applied to it

    One service with a single lane: task 1 calls object 1, task 2 queues for
    the free object 2, and task 1 calls object 2 from inside its call.  Then two reachable
    registries whose tasks wait for one another through a reservation. *)
Local Open Scope Z_scope.

Definition peer_of (r : list PeerClaims) : PeerClaims := default (new "" 1) (head r).
Definition all_live : nat → Z → bool := λ _ _, true.

Definition run_claim (task : nat) (object_id : Z) (kind : WaitKind)
    (r : list PeerClaims) : list PeerClaims * Claiming :=
  claim_peer_object 0 all_live true 0 task (Z.of_nat task) object_id "Conn" "call" kind r.

Definition one_lane : list PeerClaims := [new "svc:db" 1].
Definition after_1 := run_claim 1 1 TopLevel one_lane.
Definition after_2 := run_claim 2 2 TopLevel after_1.1.
Definition after_3 := run_claim 1 2 Nested after_2.1.

Definition runningb (task : nat) (r : list PeerClaims) : bool :=
  forallb (λ p, bool_decide (parked_on p !! task = None)) r.

Lemma run_claim_step task object_id kind r :
  runningb task r = true →
  sys_step (AClaim task) (all_live, r) (all_live, (run_claim task object_id kind r).1).
Proof.
  intros H. eapply (sys_claim 0 true 0 task (Z.of_nat task) object_id "Conn" "call" kind).
  - apply Forall_forall. intros p Hp. unfold runningb in H. rewrite forallb_forall in H.
    apply list_elem_of_In, H, bool_decide_eq_true in Hp. done.
  - apply surjective_pairing.
Qed.

Lemma one_lane_inv : sys_inv (all_live, one_lane).
Proof. apply fresh_inv. repeat constructor. by eexists _, _. Qed.

Lemma after_3_steps :
  sys_steps [AClaim 1; AClaim 2; AClaim 1] (all_live, one_lane) (all_live, after_3.1).
Proof.
  eapply steps_cons; [apply (run_claim_step 1 1 TopLevel); reflexivity|].
  eapply steps_cons; [apply (run_claim_step 2 2 TopLevel); vm_compute; reflexivity|].
  eapply steps_cons; [apply (run_claim_step 1 2 Nested); vm_compute; reflexivity|].
  constructor.
Qed.


(** The object of the ending call, and the peer it is on. *)
Definition obj_1 : ObjectClaim := default default_object (objects (peer_of after_3.1) !! 1).

Lemma after_inv r p :
  sys_inv (all_live, r) → head r = Some p → claims_inv [] None p.
Proof.
  intros [Hall _] Hp. simpl in Hall. destruct r as [|q r]; [done|]. simplify_eq/=.
  by apply Forall_cons in Hall as [[? _] _].
Qed.

Lemma after_3_inv : claims_inv [] None (peer_of after_3.1).
Proof.
  eapply (after_inv after_3.1); [|vm_compute; reflexivity].
  exact (sys_steps_inv _ _ _ after_3_steps one_lane_inv).
Qed.

(** Task 3 queues behind task 1 for object 1; task 1's call then ends. *)
Definition contended : list PeerClaims := (run_claim 3 1 TopLevel after_1.1).1.
Definition contended_1 : ObjectClaim := default default_object (objects (peer_of contended) !! 1).

Lemma contended_inv : claims_inv [] None (peer_of contended).
Proof.
  eapply (after_inv contended); [|vm_compute; reflexivity].
  eapply (sys_steps_inv [AClaim 1%nat; AClaim 3%nat] (all_live, one_lane)); [|exact one_lane_inv].
  eapply steps_cons; [apply (run_claim_step 1 1 TopLevel); reflexivity|].
  eapply steps_cons; [apply (run_claim_step 3 1 TopLevel); vm_compute; reflexivity|].
  constructor.
Qed.

Lemma end_call_hands_to_first_live_witness :
  let r := end_call 9 all_live 1 1 (peer_of contended) in
  let w := mkWaiter 3 3 TopLevel 0 in
  (∃ lane, objects r.1 !! 1 = Some (given w lane [] contended_1) ∧
     mkGrant 3 3 lane ∈ r.2 ∧ (lane = None ↔ wkind w = Nested)) ∨
  (wkind w = TopLevel ∧
   objects r.1 !! 1 = Some (mkObject None 0 None (olabel contended_1) [w] true) ∧
   1 ∈ ready_heads r.1 ∧ free_lanes r.1 = [] ∧
   (owner_lane contended_1 = None ∨ ready_heads (peer_of contended) ≠ [])).
Proof.
  refine (end_call_hands_to_first_live 9 all_live 1 1 contended_1 1 (peer_of contended)
            contended_inv _ _ _); vm_compute; reflexivity.
Defined.

Lemma reachable_peers_ok_witness :
  reachable (all_live, after_3.1) ∧ parked_once after_3.1.
Proof.
  assert (reachable (all_live, after_3.1)) as H.
  { exists all_live, one_lane. eexists.
    split; [repeat constructor; by eexists _, _|apply after_3_steps]. }
  split; [exact H|]. exact (proj1 (reachable_peers_ok (all_live, after_3.1) H)).
Defined.

Lemma lanes_are_conserved_witness :
  free_lanes (peer_of after_3.1) ++ held (objects (peer_of after_3.1)) ≡ₚ seqZ 0 1.
Proof.
  assert (∀ task id kind r, any_step r (run_claim task id kind r).1) as Hstep
    by (intros; apply any_claim).
  refine (proj1 (lanes_are_conserved one_lane after_3.1 _ _ (peer_of after_3.1) _)).
  - repeat constructor. by eexists _, _.
  - apply (rtc_l _ _ after_1.1); [exact (Hstep 1%nat 1 TopLevel one_lane)|].
    apply (rtc_l _ _ after_2.1); [exact (Hstep 2%nat 2 TopLevel after_1.1)|].
    apply rtc_once. exact (Hstep 1%nat 2 Nested after_2.1).
  - apply list_elem_of_lookup. exists 0%nat. vm_compute. reflexivity.
Defined.

(** Two services with a lane each.  Task 1 is in a call on the first, which task 2 drains
    ([serviceStop], epoch 2); task 2 is cancelled, and in its cleanup claims the object of the
    second on which task 3 is in a call, and parks (epoch 5). *)
Definition ghost_live (task : nat) (epoch : Z) : bool :=
  bool_decide (task = 2%nat → epoch = 5).
(** Task 2 was woken. *)
Definition woken_live (task : nat) (epoch : Z) : bool := bool_decide (task ≠ 2%nat).
Definition ghost_claim (i task : nat) (epoch : Z) (r : list PeerClaims) : list PeerClaims :=
  (claim_peer_object 0 ghost_live true i task epoch 1 "Conn" "call" TopLevel r).1.
Definition ghost_drain (r : list PeerClaims) : list PeerClaims :=
  alter (λ p, (request_drain 2 2 p).1) 0%nat r.
Definition before_ghost : list PeerClaims :=
  ghost_claim 1 2 5 (ghost_claim 1 3 3 (ghost_drain (ghost_claim 0 1 1
    [new "svc:a" 1; new "svc:b" 1]))).

(** Task 1's call ends: the grant of the drain wakes task 2, which takes it for the claim it is
    parked on and runs its call, task 3 still owning the object; and the end of that call takes
    the object and its lane from task 3. *)
Lemma ghost_grant_runs_two_calls :
  ∃ a b, before_ghost = [a; b]
    ∧ is_Some (parked_on b !! 2%nat)
    ∧ (end_call 9 ghost_live 1 1 a).2 = [mkGrant 2 2 None]
    ∧ (resume_claim 9 ghost_live true false 2 1 b).2 = Holding
    ∧ owner <$> objects b !! 1 = Some (Some (3%nat, 3))
    ∧ free_lanes b = []
    ∧ objects (end_call 9 woken_live 2 1 b).1 !! 1 = None
    ∧ free_lanes (end_call 9 woken_live 2 1 b).1 = [0].
Proof. eexists _, _. split; [vm_compute; reflexivity|]. vm_compute. repeat split; by eexists. Qed.

Lemma no_short_owner_cycle_witness :
  reachable (all_live, after_3.1) ∧ follow all_live after_3.1 2 1 ≠ Some 1%nat.
Proof.
  assert (reachable (all_live, after_3.1)) as H.
  { exists all_live, one_lane. eexists.
    split; [repeat constructor; by eexists _, _|apply after_3_steps]. }
  split; [exact H|].
  refine (no_short_owner_cycle all_live after_3.1 1 2 H _). split; apply Nat.leb_le; reflexivity.
Defined.

(** Task 1's call on object 1 ended in [after_2]: its lane is in flight. *)
Definition lane_in_flight : PeerClaims :=
  (promote_loop 9 all_live 1 [] (upd_object 1 disown (peer_of after_2.1)) []).1.

Lemma lane_in_flight_inv : claims_inv [0] None lane_in_flight.
Proof.
  assert (claims_inv [] None (peer_of after_2.1)) as Hinv.
  { eapply (after_inv after_2.1); [|vm_compute; reflexivity].
    eapply (sys_steps_inv [AClaim 1%nat; AClaim 2%nat] (all_live, one_lane)); [|exact one_lane_inv].
    eapply steps_cons; [apply (run_claim_step 1 1 TopLevel); reflexivity|].
    eapply steps_cons; [apply (run_claim_step 2 2 TopLevel); vm_compute; reflexivity|].
    constructor. }
  pose (o := default default_object (objects (peer_of after_2.1) !! 1)).
  assert (objects (peer_of after_2.1) !! 1 = Some o) as Ho by (vm_compute; reflexivity).
  assert (owner o = Some (1%nat, 1)) as Hown by (vm_compute; reflexivity).
  pose proof (disown_inv _ _ _ _ _ Hinv Ho Hown) as H.
  apply (promote_loop_inv 9 all_live [0] 1 [] _ (disown o) []); [exact H|..];
    vm_compute; reflexivity.
Qed.

Lemma freed_lane_witness :
  objects (release_lane 9 all_live 0 lane_in_flight []).1 !! 2 =
  Some (mkObject (Some (2%nat, 2)) 1 (Some 0) "Conn#2" [] false).
Proof.
  pose proof (freed_lane_goes_to_oldest_reservation 9 all_live 0 lane_in_flight lane_in_flight_inv)
    as [H _].
  assert (lane_taker all_live (objects lane_in_flight) (ready_heads lane_in_flight) =
    Some (2, mkWaiter 2 2 TopLevel 0, [])) as E by (vm_compute; reflexivity).
  rewrite E in H. destruct H as (o & rest & Ho & Hd & -> & _).
  assert (Some o = Some (mkObject None 0 None "Conn#2" [mkWaiter 2 2 TopLevel 0] true)) as Ho2
    by (rewrite <-Ho; vm_compute; reflexivity).
  injection Ho2 as ->. simpl in Hd. injection Hd as <-. reflexivity.
Defined.

Lemma newcomers_never_barge_witness :
  (try_acquire 7 7 2 "Conn" true (peer_of after_3.1)).2 = WouldQueue None.
Proof.
  pose (o := default default_object (objects (peer_of after_3.1) !! 2)).
  assert (objects (peer_of after_3.1) !! 2 = Some o) as Ho by (vm_compute; reflexivity).
  assert (waiters o ≠ []) as Hw by (vm_compute; discriminate).
  assert (∀ e, owner o ≠ Some (7%nat, e)) as Hn by (intros e; vm_compute; discriminate).
  destruct (newcomers_never_barge (peer_of after_3.1) 7 7 2 "Conn" true o after_3_inv Ho Hw Hn)
    as [(b & -> & ->) _].
  reflexivity.
Defined.

Lemma every_wake_is_owed_witness :
  let r := end_call 9 all_live 1 1 (peer_of after_3.1) in
  mkGrant 2 2 (Some 0) ∈ r.2 ∧
  (((2%nat, 2) ∈ drain_waiters (peer_of after_3.1) ∧ Some 0 = None ∧ all_home r.1 = true) ∨
   earned all_live (peer_of after_3.1) r.1 (mkGrant 2 2 (Some 0))).
Proof.
  assert (mkGrant 2 2 (Some 0) ∈ (end_call 9 all_live 1 1 (peer_of after_3.1)).2) as Hin.
  { vm_compute. left. }
  split; [exact Hin|].
  refine (every_wake_is_owed 9 all_live 1 1 obj_1 1 (peer_of after_3.1) _ after_3_inv _ _ Hin);
    vm_compute; reflexivity.
Defined.

(** ** Waits through a reservation

    A nested claim of an object that is only reserved parks without a walk.
    [stuck] describes the state in which that wait can never end, although no
    owner cycle exists: the lane the reservation waits for is held by the task
    that waits behind the reservation. *)

(** ** What an object keeps while others move *)

Definition view (o : ObjectClaim) : option (nat * Z) * option Z * bool :=
  (owner o, owner_lane o, reserved o).

(** [task] cannot take the object: another task owns it, or it is reserved. *)
Definition blocked_for (task : nat) (o : ObjectClaim) : Prop :=
  match owner o with Some (t, _) => t ≠ task | None => reserved o = true end.

Definition keeps (p p' : PeerClaims) (j : Z) (o : ObjectClaim) : Prop :=
  ∃ o', objects p' !! j = Some o' ∧ view o' = view o.

Lemma keeps_set p p' id o' j o :
  objects p' = <[id := o']> (objects p) → objects p !! j = Some o →
  (j = id → view o' = view o) → keeps p p' j o.
Proof.
  intros Hp Ho Hv. unfold keeps. rewrite Hp. destruct (decide (j = id)) as [->|Hne].
  - exists o'. rewrite lookup_insert_eq. auto.
  - exists o. by rewrite lookup_insert_ne.
Qed.

Lemma touched_view id label p o : objects p !! id = Some o → view (touched id label p) = view o.
Proof.
  intros Ho. pose proof (touched_fields id label p) as (H1&_&H2&_&H3). rewrite Ho in *. simpl in *.
  unfold view. congruence.
Qed.

Lemma try_acquire_keeps task epoch id label nested p j o :
  objects p !! j = Some o → (j = id → blocked_for task o) →
  keeps p (try_acquire task epoch id label nested p).1 j o.
Proof.
  intros Ho Hb. unfold try_acquire. cbn zeta.
  set (q := touch_label id label (count_acquisition p)).
  assert (keeps p q j o) as Hq.
  { eapply keeps_set; [reflexivity|done|]. intros ->. by apply (touched_view id label (count_acquisition p)). }
  assert (∀ f p2, objects p2 = objects q → j ≠ id → keeps p (upd_object id f p2) j o) as Hother.
  { intros f p2 E Hne. destruct Hq as (o' & Ho' & Hv). exists o'. split; [|done].
    simpl. by rewrite lookup_alter_ne, E. }
  destruct (decide (j = id)) as [->|Hne].
  - specialize (Hb eq_refl).
    assert (default default_object (objects q !! id) = touched id label (count_acquisition p)) as ->.
    { unfold q. by rewrite touched_Some. }
    pose proof (touched_view id label (count_acquisition p) o Ho) as Hv. unfold view in Hv.
    injection Hv as H1 H2 H3. unfold blocked_for in Hb. rewrite H1.
    destruct (owner o) as [[t e]|]; [by rewrite decide_False by done|].
    by rewrite H3, Hb.
  - repeat case_match; cbn [fst]; try done; by apply Hother.
Qed.

Lemma enqueue_keeps now task epoch id label kind p j o :
  objects p !! j = Some o → (j = id → blocked_for task o) →
  keeps p (enqueue now task epoch id label kind p) j o.
Proof.
  intros Ho Hb. destruct (enqueue_eq now task epoch id label kind p) as [s ->].
  eapply keeps_set; [reflexivity|done|]. intros ->. specialize (Hb eq_refl).
  pose proof (touched_view id label p o Ho) as Hv. unfold view in *. simpl.
  injection Hv as H1 H2 H3. rewrite H1, H2, H3. unfold blocked_for in Hb.
  destruct (owner o) as [[t e]|]; simpl; [done|]. by rewrite Hb, orb_true_r.
Qed.

Lemma gc_object_lookup id p j o :
  objects p !! j = Some o → idle o = false → objects (gc_object id p) !! j = Some o.
Proof.
  intros Ho Hi. unfold gc_object. destruct (objects p !! id) as [o'|] eqn:Ho'; [|done].
  destruct (idle o') eqn:E; [|done]. simpl. rewrite lookup_delete_ne; [done|].
  intros ->. congruence.
Qed.

Lemma retract_keeps task id p j o t :
  objects p !! j = Some o → blocked_for t o → keeps p (retract task id p) j o.
Proof.
  intros Ho Hb. unfold retract, keeps.
  set (f := λ o, set_waiters (filter (λ w, wtask w ≠ task) (waiters o)) o).
  exists (if decide (j = id) then f o else o). split; [|by case_decide].
  assert (idle (if decide (j = id) then f o else o) = false) as Hidle.
  { unfold blocked_for in Hb. unfold idle.
    case_decide; simpl; destruct (owner o) as [[]|]; simpl; try done; by rewrite Hb, andb_false_r. }
  apply gc_object_lookup; [|done]. unfold upd_object. simpl. case_decide as Hd.
  - subst j. by rewrite lookup_alter_eq, Ho.
  - by rewrite lookup_alter_ne by done.
Qed.

(** Ending a call that holds no lane leaves the other objects alone. *)
Lemma promote_loop_other now live id ws j : ∀ p grants,
  j ≠ id → objects (promote_loop now live id ws p grants).1 !! j = objects p !! j.
Proof.
  induction ws as [|w ws IH]; intros p grants Hne; cbn [promote_loop].
  - simpl. by rewrite lookup_alter_ne.
  - repeat case_match; rewrite ?IH by done; simpl; by rewrite !lookup_alter_ne.
Qed.

Lemma end_call_keeps now live task id p oi j o t :
  objects p !! id = Some oi → owner_lane oi = None → objects p !! j = Some o → j ≠ id →
  blocked_for t o → objects (end_call now live task id p).1 !! j = Some o.
Proof.
  intros Hoi Hl Ho Hne Hb. unfold end_call. rewrite Hoi, Hl.
  assert (objects (upd_object id disown p) !! j = Some o) as H1.
  { simpl. by rewrite lookup_alter_ne. }
  destruct (0 <? _).
  - simpl. by rewrite lookup_alter_ne.
  - unfold promote_head.
    assert (objects (match objects (upd_object id disown p) !! id with
      | Some o => promote_loop now live id (waiters o) (upd_object id disown p) []
      | None => (upd_object id disown p, []) end).1 !! j = Some o) as H2.
    { case_match; [|done]. by rewrite promote_loop_other. }
    destruct (match objects (upd_object id disown p) !! id with Some _ => _ | None => _ end)
      as [p1 g1]. cbn [fst] in *.
    apply gc_object_lookup; [done|].
    unfold idle, blocked_for in *. destruct (owner o) as [[]|]; simpl; [done|].
    by rewrite Hb, andb_false_r.
Qed.

(** ** The stuck state *)

(** Task [t1] holds the peer's only lane through object [O1] and is parked on
    [O2], which nobody owns; all of [ts] are parked on [O2]. *)
Record stuck (t1 : nat) (O1 O2 : Z) (ts : list nat) (p : PeerClaims) : Prop := {
  stuck_lanes : lane_count p = 1;
  stuck_holder : ∃ o e l, objects p !! O1 = Some o ∧ owner o = Some (t1, e) ∧ owner_lane o = Some l;
  stuck_reserved : ∃ o, objects p !! O2 = Some o ∧ owner o = None ∧ reserved o = true;
  stuck_waiting : t1 ∈ ts ∧ ∀ t, t ∈ ts → ∃ e, parked_on p !! t = Some (O2, e) }.

(** With one lane, held through [O1], no other object has a lane. *)
Lemma only_lane p O1 o1 l id o :
  claims_inv [] None p → lane_count p = 1 → objects p !! O1 = Some o1 →
  owner_lane o1 = Some l → objects p !! id = Some o → id ≠ O1 → owner_lane o = None.
Proof.
  intros Hinv Hc Ho1 Hl1 Ho Hne. destruct (owner_lane o) as [l'|] eqn:E; [|done].
  pose proof (inv_lanes _ _ _ Hinv) as H. rewrite Hc in H. simpl in H.
  rewrite (held_delete _ _ _ Ho1), (held_delete (delete O1 (objects p)) id o), Hl1, E in H.
  - apply Permutation_length in H. rewrite !length_app, length_seqZ in H. simpl in H. lia.
  - by rewrite lookup_delete_ne.
Qed.

Lemma stuck_transfer t1 O1 O2 ts p p' :
  stuck t1 O1 O2 ts p → lane_count p' = lane_count p →
  (∀ o, objects p !! O1 = Some o → keeps p p' O1 o) →
  (∀ o, objects p !! O2 = Some o → keeps p p' O2 o) →
  (∀ t, t ∈ ts → parked_on p' !! t = parked_on p !! t) →
  stuck t1 O1 O2 ts p'.
Proof.
  intros [Hl (o1 & e & l & Ho1 & Hown1 & Hl1) (o2 & Ho2 & Hown2 & Hres2) [Hin Hts]] Hlane H1 H2 Hp.
  destruct (H1 _ Ho1) as (o1' & Ho1' & Hv1). destruct (H2 _ Ho2) as (o2' & Ho2' & Hv2).
  unfold view in *. split; [congruence| | |split; [done|]].
  - exists o1', e, l. split_and!; congruence.
  - exists o2'. split_and!; congruence.
  - intros t Ht. rewrite Hp by done. auto.
Qed.

Section stuck_steps.
Context (t1 : nat) (O1 O2 : Z) (ts : list nat) (p : PeerClaims).
Hypothesis Hok : peer_ok p.
Hypothesis Hst : stuck t1 O1 O2 ts p.
#[local] Set Default Proof Using "Type*".

Lemma stuck_not_running task : parked_on p !! task = None → task ≠ t1 ∧ task ∉ ts.
Proof.
  intros Hp. destruct Hst as [_ _ _ [Hin Hts]].
  assert (task ∉ ts) as H by (intros Ht; destruct (Hts _ Ht); congruence).
  split; [by intros ->|done].
Qed.

(** Neither object can be taken by a running task. *)
Lemma stuck_blocked task j o :
  parked_on p !! task = None → j = O1 ∨ j = O2 → objects p !! j = Some o → blocked_for task o.
Proof.
  intros [Hne _]%stuck_not_running Hj Ho. destruct Hst as [_ (o1&e&l&Ho1&H1&_) (o2&Ho2&H2&Hr) _].
  unfold blocked_for. destruct Hj as [-> | ->]; simplify_eq; [by rewrite H1|by rewrite H2].
Qed.

Lemma blocked_view task o o' : view o' = view o → blocked_for task o → blocked_for task o'.
Proof. unfold view, blocked_for. by intros [= -> _ ->]. Qed.

Lemma claim_keeps now live r i task epoch id label kind p' out j o :
  claim_effect now live r i task epoch id label kind p p' out →
  parked_on p !! task = None → j = O1 ∨ j = O2 → objects p !! j = Some o → keeps p p' j o.
Proof.
  intros Heff Hrun Hj Ho. pose proof (stuck_blocked _ _ _ Hrun Hj Ho) as Hb.
  destruct (try_acquire_keeps task epoch id label (bool_decide (kind = Nested)) p j o Ho)
    as (o1 & Ho1 & Hv1); [done|].
  assert (blocked_for task o1) as Hb1 by by eapply blocked_view.
  destruct (enqueue_keeps now task epoch id label kind _ j o1 Ho1) as (o2 & Ho2 & Hv2); [done|].
  assert (blocked_for task o2) as Hb2 by by eapply blocked_view.
  destruct (retract_keeps task id _ j o2 task Ho2 Hb2) as (o3 & Ho3 & Hv3).
  destruct Heff as [p1 d out E Hdd Hout|p1 d out E Hout|b p1 out E Hw Hout|b p1 out E Hout];
    rewrite E in Ho1, Ho2, Ho3; cbn [fst] in *.
  - by exists o1.
  - by exists o1.
  - exists o2. split; [done|congruence].
  - exists o3. split; [done|congruence].
Qed.

Lemma stuck_claim now live r i task epoch id label kind p' out :
  claim_effect now live r i task epoch id label kind p p' out →
  parked_on p !! task = None → stuck t1 O1 O2 ts p'.
Proof.
  intros Heff Hrun. pose proof (stuck_not_running _ Hrun) as [_ Hnts].
  destruct (claim_effect_ok _ _ _ _ _ _ _ _ _ _ _ _ Heff Hok Hrun) as [_ Hpk].
  apply (stuck_transfer _ _ _ _ p).
  - exact Hst.
  - pose proof (try_acquire_core task epoch id label (bool_decide (kind = Nested)) p) as (_&_&Hc&_).
    destruct Heff as [p1 d out E Hdd Hout|p1 d out E Hout|b p1 out E Hw Hout|b p1 out E Hout];
      rewrite E in Hc; cbn [fst] in Hc;
      pose proof (enqueue_fields now task epoch id label kind p1) as (_&Hl2&_); [done|done|congruence|].
    unfold retract, gc_object. repeat case_match; simpl in *; congruence.
  - intros o Ho. eapply claim_keeps; eauto.
  - intros o Ho. eapply claim_keeps; eauto.
  - intros t Ht. rewrite Hpk. destruct out; [done..|].
    rewrite lookup_insert_ne; [done|]. by intros ->.
Qed.

Lemma stuck_end now live task id :
  holds p task id → parked_on p !! task = None →
  stuck t1 O1 O2 ts (end_call now live task id p).1.
Proof.
  intros (o & e0 & Ho & Hown) Hrun. destruct (stuck_not_running _ Hrun) as [Ht1 _].
  pose proof Hok as [Hp _]. pose proof Hst as [Hl (o1&e&l&Ho1&Hown1&Hl1) (o2&Ho2&Hown2&Hr2) [_ Hts]].
  assert (id ≠ O1) as Hn1 by congruence. assert (id ≠ O2) as Hn2 by congruence.
  pose proof (only_lane _ _ _ _ _ _ Hp Hl Ho1 Hl1 Ho Hn1) as Hnol.
  assert (∀ j oj, j = O1 ∨ j = O2 → objects p !! j = Some oj →
    objects (end_call now live task id p).1 !! j = Some oj) as Hsame.
  { intros j oj Hj Hoj. eapply (end_call_keeps _ _ _ _ _ _ _ _ task); [done..| |].
    - by destruct Hj as [-> | ->].
    - by eapply stuck_blocked. }
  apply (stuck_transfer _ _ _ _ p); [exact Hst|apply end_call_shrinks| | |].
  - intros oj Hoj. exists oj. auto.
  - intros oj Hoj. exists oj. auto.
  - intros t Ht. destruct (Hts _ Ht) as [et Het]. rewrite Het.
    apply (inv_parked _ _ _ (end_call_inv now live _ _ _ _ _ Hp Ho Hown)).
    apply (inv_parked _ _ _ Hp) in Het as (o' & w & Ho' & Hw). exists o', w.
    split; [apply Hsame; [by right|done]|done].
Qed.

Lemma stuck_retract task id : task ∉ ts → stuck t1 O1 O2 ts (retract task id p).
Proof.
  intros Hn. pose proof Hst as [Hl (o1&e&l&Ho1&Hown1&Hl1) (o2&Ho2&Hown2&Hr2) [_ Hts]].
  apply (stuck_transfer _ _ _ _ p); [exact Hst| | | |].
  - unfold retract, gc_object. by repeat case_match.
  - intros o Ho. apply (retract_keeps _ _ _ _ _ (S t1)); [done|]. unfold blocked_for.
    simplify_eq. rewrite Hown1. lia.
  - intros o Ho. apply (retract_keeps _ _ _ _ _ t1); [done|]. unfold blocked_for.
    simplify_eq. by rewrite Hown2.
  - intros t Ht. rewrite retract_parked. apply lookup_delete_ne. by intros ->.
Qed.

End stuck_steps.

Lemma stuck_step t1 O1 O2 ts a s s' p :
  sys_step a s s' → sys_inv s → s.2 = [p] → stuck t1 O1 O2 ts p →
  (∀ t, t ∈ ts → a ≠ ARetract t) → ∃ p', s'.2 = [p'] ∧ stuck t1 O1 O2 ts p'.
Proof.
  intros Hstep [Hall _] Hs Hst Ha.
  destruct Hstep as [now scheduled i task epoch id label what kind live r r' out Hrun Hc
    |now i task id live r q Hi Hrun Hholds|i task id live r q Hi Hpark
    |i task epoch live r q Hi Hrun|live live' r Hlive]; simpl in Hs, Hall; subst r; simpl.
  - unfold running in Hrun. rewrite Forall_singleton in Hrun, Hall.
    destruct (claim_peer_object_effect _ _ _ _ _ _ _ _ _ _ _ _ _ Hc)
      as [(_ & -> & _)|(q & p' & Hi & -> & Heff)]; [eauto|].
    destruct i as [|i]; [|done]. simpl in Hi. injection Hi as <-. exists p'.
    split; [done|]. by eapply stuck_claim.
  - unfold running in Hrun. rewrite Forall_singleton in Hrun, Hall. destruct i as [|i]; [|done]. simpl in Hi. injection Hi as <-.
    eexists. split; [reflexivity|]. by apply stuck_end.
  - rewrite Forall_singleton in Hall. destruct i as [|i]; [|done]. simpl in Hi. injection Hi as <-.
    eexists. split; [reflexivity|]. apply stuck_retract; [done|done|]. intros Ht. by destruct (Ha _ Ht).
  - destruct i as [|i]; [|done]. simpl in Hi. injection Hi as <-. eexists. split; [reflexivity|].
    unfold request_drain. destruct (all_home p); [done|]. by destruct Hst; split.
  - eauto.
Qed.

Lemma stuck_forever t1 O1 O2 ts acts s s' p :
  sys_steps acts s s' → sys_inv s → s.2 = [p] → stuck t1 O1 O2 ts p →
  (∀ t, t ∈ ts → ARetract t ∉ acts) → ∃ p', s'.2 = [p'] ∧ stuck t1 O1 O2 ts p'.
Proof.
  intros Hs. revert p. induction Hs as [s|a acts s1 s2 s3 Hstep Hs IH]; intros p Hinv Hp Hst Ha; [eauto|].
  destruct (stuck_step _ _ _ _ _ _ _ _ Hstep Hinv Hp Hst) as (p' & Hp' & Hst').
  - intros t Ht ->. by destruct (Ha _ Ht); left.
  - apply (IH p'); [by eapply sys_step_inv|done|done|]. intros t Ht Hin. by apply (Ha _ Ht); right.
Qed.

(** ** A lane waits for its own holder *)

Definition stuckb (t1 : nat) (O1 O2 : Z) (ts : list nat) (p : PeerClaims) : bool :=
  (lane_count p =? 1) &&
  match objects p !! O1 with
  | Some o => match owner o, owner_lane o with
              | Some (t, _), Some _ => bool_decide (t = t1) | _, _ => false end
  | None => false
  end &&
  match objects p !! O2 with
  | Some o => match owner o with None => reserved o | Some _ => false end
  | None => false
  end &&
  bool_decide (t1 ∈ ts) &&
  forallb (λ t, match parked_on p !! t with Some (id, _) => id =? O2 | None => false end) ts.

Lemma stuckb_spec t1 O1 O2 ts p : stuckb t1 O1 O2 ts p = true → stuck t1 O1 O2 ts p.
Proof.
  unfold stuckb. rewrite !andb_true_iff, bool_decide_eq_true, forallb_forall.
  intros [[[[H1%Z.eqb_eq H2] H3] H4] H5]. split; [done| | |split; [done|]].
  - destruct (objects p !! O1) as [o|]; [|done].
    destruct (owner o) as [[t e]|] eqn:Ho; [|done]. destruct (owner_lane o) as [l|] eqn:Hl; [|done].
    apply bool_decide_eq_true in H2 as ->. exists o, e, l. done.
  - destruct (objects p !! O2) as [o|]; [|done]. exists o. by destruct (owner o).
  - intros t Ht%list_elem_of_In. specialize (H5 t Ht).
    destruct (parked_on p !! t) as [[id e]|]; [|done]. apply Z.eqb_eq in H5 as ->. by exists e.
Qed.

(** Detection is not complete for waits through a reservation.  On a peer
    with one lane, task 1 calls object 1 (granted, with the lane), task 2 calls
    the free object 2 (parked: no lane, object 2 becomes reserved for it), and
    task 1 then calls object 2 from inside its call.  The last claim parks
    instead of raising, although task 2 waits for the lane that task 1 holds and
    task 1 waits behind task 2: whatever any task does afterwards, as long as
    neither is withdrawn, both stay parked on object 2 for ever. *)
Theorem reservation_deadlock_undetected acts s :
  sys_steps acts (all_live, after_3.1) s →
  ARetract 1 ∉ acts → ARetract 2 ∉ acts →
  after_1.2 = Claimed ∧ after_2.2 = Parked ∧ after_3.2 = Parked ∧
  reachable (all_live, after_3.1) ∧
  ∃ p e1 e2, s.2 = [p] ∧ parked_on p !! 1%nat = Some (2, e1) ∧ parked_on p !! 2%nat = Some (2, e2).
Proof.
  intros Hs H1 H2.
  pose proof (sys_steps_inv _ _ _ after_3_steps one_lane_inv) as Hinv.
  destruct (stuck_forever 1 1 2 [1%nat; 2%nat] acts (all_live, after_3.1) s
              (default (new "" 1) (head after_3.1)) Hs Hinv) as (p & Hp & [_ _ _ [_ Hts]]).
  - vm_compute. reflexivity.
  - apply stuckb_spec. vm_compute. reflexivity.
  - intros t Ht. assert (t = 1%nat ∨ t = 2%nat) as [-> | ->] by set_solver; done.
  - split_and!; [by vm_compute..| |].
    + exists all_live, one_lane. eexists. split; [repeat constructor; by eexists _, _|apply after_3_steps].
    + destruct (Hts 1%nat) as [e1 ?]; [set_solver|]. destruct (Hts 2%nat) as [e2 ?]; [set_solver|].
      by exists p, e1, e2.
Qed.

Lemma reservation_deadlock_undetected_witness :
  ∃ p e1 e2, (all_live, after_3.1).2 = [p] ∧
    parked_on p !! 1%nat = Some (2, e1) ∧ parked_on p !! 2%nat = Some (2, e2).
Proof.
  refine (proj2 (proj2 (proj2 (proj2 (reservation_deadlock_undetected [] (all_live, after_3.1) _ _ _))))).
  - constructor.
  - intros H. inversion H.
  - intros H. inversion H.
Defined.

(** Task 2 is cancelled while it is the reserved head, and withdraws. *)
Definition withdrawn : list PeerClaims := <[0%nat := retract 2 2 (peer_of after_2.1)]> after_2.1.
Definition after_withdrawal := run_claim 1 2 Nested withdrawn.

Lemma after_withdrawal_steps :
  sys_steps [AClaim 1; AClaim 2; ARetract 2; AClaim 1] (all_live, one_lane)
    (all_live, after_withdrawal.1).
Proof.
  eapply steps_cons; [apply (run_claim_step 1 1 TopLevel); reflexivity|].
  eapply steps_cons; [apply (run_claim_step 2 2 TopLevel); vm_compute; reflexivity|].
  eapply steps_cons.
  - apply (sys_retract 0 2 2 all_live after_2.1 (peer_of after_2.1)).
    + vm_compute. reflexivity.
    + vm_compute. congruence.
  - eapply steps_cons; [|constructor].
    apply (run_claim_step 1 2 Nested); vm_compute; reflexivity.
Qed.

(** A withdrawn reservation still blocks.  When the only waiter of a
    reserved object withdraws, the object stays reserved with an empty queue;
    a nested call of that object by the task that holds the peer's lane then
    parks, with no other task on the peer, and no step can ever wake it. *)
Theorem withdrawn_reservation_blocks acts s :
  sys_steps acts (all_live, after_withdrawal.1) s → ARetract 1 ∉ acts →
  after_withdrawal.2 = Parked ∧ reachable (all_live, after_withdrawal.1) ∧
  (∀ t, t ≠ 1%nat → running after_withdrawal.1 t) ∧
  ∃ p e, s.2 = [p] ∧ parked_on p !! 1%nat = Some (2, e).
Proof.
  intros Hs H1.
  pose proof (sys_steps_inv _ _ _ after_withdrawal_steps one_lane_inv) as Hinv.
  destruct (stuck_forever 1 1 2 [1%nat] acts (all_live, after_withdrawal.1) s
              (peer_of after_withdrawal.1) Hs Hinv) as (p & Hp & [_ _ _ [_ Hts]]).
  - vm_compute. reflexivity.
  - apply stuckb_spec. vm_compute. reflexivity.
  - intros t ->%list_elem_of_singleton. done.
  - split_and!; [by vm_compute| | |].
    + exists all_live, one_lane. eexists.
      split; [repeat constructor; by eexists _, _|apply after_withdrawal_steps].
    + intros t Ht. assert (map parked_on after_withdrawal.1 = [{[1%nat := (2, 1)]}]) as E
        by (vm_compute; reflexivity).
      apply Forall_forall. intros q Hq.
      assert (parked_on q ∈ map parked_on after_withdrawal.1) as Hin by by apply list_elem_of_fmap_2.
      rewrite E in Hin. apply list_elem_of_singleton in Hin. rewrite Hin.
      by rewrite lookup_singleton_ne.
    + destruct (Hts 1%nat) as [e ?]; [set_solver|]. by exists p, e.
Qed.

Lemma withdrawn_reservation_blocks_witness :
  ∃ p e, (all_live, after_withdrawal.1).2 = [p] ∧ parked_on p !! 1%nat = Some (2, e).
Proof.
  refine (proj2 (proj2 (proj2 (withdrawn_reservation_blocks [] (all_live, after_withdrawal.1) _ _)))).
  - constructor.
  - intros H. inversion H.
Defined.
