(* ===== verification/HandleTable.v ===== *)
(** * The extension handle table (src/src/handle_table.rs)

    Host values an out-of-process extension holds, addressed by opaque 64-bit
    handles [(generation << 32) | index].  Indices, generations and epochs are
    [Z]s kept in the 32-bit range as the code keeps them; an index out of range
    panics in the code and is [None] here.  The value type is a parameter: the
    table only stores and returns values.  The second half proves the table a
    map of its live handles. *)
From stdpp Require Import base numbers list gmap strings pretty.
From stdpp Require Import options.
From S2P Require Import Prelude.
Local Open Scope Z_scope.
#[local] Set Warnings "-clear-no-such-hyp".

Definition NULL_HANDLE : Z := 0.

Definition as_u32 (z : Z) : Z := z mod 2 ^ 32.
Definition wrapping_add_u32 (a b : Z) : Z := as_u32 (a + b).

Definition handle_of (index generation : Z) : Z := Z.lor (Z.shiftl generation 32) index.
Definition split_handle (handle : Z) : Z * Z := (as_u32 handle, as_u32 (Z.shiftr handle 32)).
#[global] Arguments split_handle : simpl never.

Inductive HandleScope := Free | Local_ (epoch : Z) | Global_.
#[export] Instance HandleScope_eq_dec : EqDecision HandleScope.
Proof. solve_decision. Defined.

Section table.
Context {V : Type}.

Record HandleSlot := mkSlot {
  slot_value : option V; scope : HandleScope; generation : Z; ext_id : Z }.

Record HandleTable := mkTable { slots : list HandleSlot; free : list Z; epoch : Z }.

Definition empty_table : HandleTable := mkTable [] [] 0.

Definition set_slots (s : list HandleSlot) (t : HandleTable) : HandleTable :=
  mkTable s (free t) (epoch t).

Definition bump_generation (g : Z) : Z :=
  let g' := wrapping_add_u32 g 1 in if g' =? 0 then 1 else g'.

Definition free_index (index : Z) (t : HandleTable) : option HandleTable :=
  slot ← slots t !! Z.to_nat index;
  let slot' := mkSlot None Free (bump_generation (generation slot)) (ext_id slot) in
  Some (mkTable (<[Z.to_nat index := slot']> (slots t)) (vec_push (free t) index) (epoch t)).

Definition alloc (value : V) (sc : HandleScope) (ext : Z) (t : HandleTable)
    : option (HandleTable * Z) :=
  '(t, index) ←
    match vec_pop (free t) with
    | Some (i, rest) =>
        slot ← slots t !! Z.to_nat i;
        let slot' := mkSlot (Some value) sc (generation slot) ext in
        Some (mkTable (<[Z.to_nat i := slot']> (slots t)) rest (epoch t), i)
    | None =>
        let i := as_u32 (Z.of_nat (length (slots t))) in
        Some (set_slots (vec_push (slots t) (mkSlot (Some value) sc 1 ext)) t, i)
    end;
  slot ← slots t !! Z.to_nat index;
  Some (t, handle_of index (generation slot)).

Definition begin_call (t : HandleTable) : HandleTable * Z :=
  let e := wrapping_add_u32 (epoch t) 1 in
  (mkTable (slots t) (free t) e, e).

(** [for i in 0..self.slots.len() { if p(slots[i]) { self.free_index(i) } }]. *)
Fixpoint sweep (p : HandleSlot → bool) (indices : list nat) (t : HandleTable)
    : option HandleTable :=
  match indices with
  | [] => Some t
  | i :: rest =>
      slot ← slots t !! i;
      if p slot then t' ← free_index (as_u32 (Z.of_nat i)) t; sweep p rest t'
      else sweep p rest t
  end.

Definition end_call (e : Z) (t : HandleTable) : option HandleTable :=
  sweep (λ s, bool_decide (scope s = Local_ e)) (seq 0 (length (slots t))) t.

Definition release_for_ext (x : Z) (t : HandleTable) : option HandleTable :=
  sweep (λ s, match slot_value s with Some _ => ext_id s =? x | None => false end)
    (seq 0 (length (slots t))) t.

Definition mint_local (value : V) (e ext : Z) (t : HandleTable) : option (HandleTable * Z) :=
  alloc value (Local_ e) ext t.

Definition get (handle : Z) (t : HandleTable) : result string V :=
  let '(index, gen) := split_handle handle in
  match slots t !! Z.to_nat index with
  | Some s =>
      if generation s =? gen then
        match slot_value s with
        | Some v => Ok v
        | None => Err ("extension handle " +:+ pretty handle +:+ " has been released")%string
        end
      else Err ("extension handle " +:+ pretty handle +:+ " is invalid or stale")%string
  | None => Err ("extension handle " +:+ pretty handle +:+ " is invalid or stale")%string
  end.

(** The slot a handle names, if it is occupied and of the handle's generation. *)
Definition live_slot (handle : Z) (t : HandleTable) : option HandleSlot :=
  let '(index, gen) := split_handle handle in
  s ← slots t !! Z.to_nat index;
  if generation s =? gen then match slot_value s with Some _ => Some s | None => None end
  else None.

Definition retain (handle : Z) (t : HandleTable) : result string HandleTable :=
  match live_slot handle t with
  | Some s =>
      let s' := mkSlot (slot_value s) Global_ (generation s) (ext_id s) in
      Ok (set_slots (<[Z.to_nat (split_handle handle).1 := s']> (slots t)) t)
  | None =>
      Err ("retain: extension handle " +:+ pretty handle +:+ " is invalid or released")%string
  end.

Fixpoint release (handles : list Z) (t : HandleTable) : option HandleTable :=
  match handles with
  | [] => Some t
  | handle :: rest =>
      match live_slot handle t with
      | Some _ => t' ← free_index (split_handle handle).1 t; release rest t'
      | None => release rest t
      end
  end.

Definition live_count (t : HandleTable) : nat :=
  length (filter (λ s, is_Some (slot_value s)) (slots t)).

(** ** Invariant *)

Definition slot_ok (s : HandleSlot) : Prop :=
  1 ≤ generation s < 2 ^ 32 ∧ (slot_value s = None ↔ scope s = Free).

Record table_inv (t : HandleTable) : Prop := {
  tinv_slots : ∀ i s, slots t !! i = Some s → slot_ok s;
  tinv_nodup : NoDup (free t);
  tinv_free : ∀ i, i ∈ free t ↔
    0 ≤ i ∧ ∃ s, slots t !! Z.to_nat i = Some s ∧ slot_value s = None;
  tinv_size : Z.of_nat (length (slots t)) ≤ 2 ^ 32 }.

(** ** Handles *)

Lemma as_u32_small z : 0 ≤ z < 2 ^ 32 → as_u32 z = z.
Proof. apply Z.mod_small. Qed.

Lemma handle_of_eq i g : 0 ≤ i < 2 ^ 32 → 0 ≤ g → handle_of i g = g * 2 ^ 32 + i.
Proof.
  intros Hi Hg. unfold handle_of. rewrite Z.shiftl_mul_pow2 by lia.
  pose proof (Z.add_lor_land (g * 2 ^ 32) i) as H.
  assert (Z.land (g * 2 ^ 32) i = 0) as E; [|lia].
  apply Z.bits_inj'. intros n Hn. rewrite Z.land_spec, Z.bits_0.
  destruct (Z.lt_ge_cases n 32).
  - by rewrite Z.mul_pow2_bits_low by lia.
  - rewrite (Z.bits_above_log2 i n), andb_false_r; [done|lia|].
    destruct (decide (i = 0)) as [->|]; [simpl; lia|].
    assert (Z.log2 i < 32) by (apply Z.log2_lt_pow2; lia). lia.
Qed.

Lemma split_handle_of i g :
  0 ≤ i < 2 ^ 32 → 0 ≤ g < 2 ^ 32 → split_handle (handle_of i g) = (i, g).
Proof.
  intros Hi Hg. unfold split_handle. rewrite handle_of_eq by lia.
  rewrite Z.shiftr_div_pow2 by lia. unfold as_u32. f_equal; zdiv.
Qed.

Lemma handle_of_split h :
  0 ≤ h < 2 ^ 64 → handle_of (split_handle h).1 (split_handle h).2 = h.
Proof.
  intros Hh. unfold split_handle. simpl. unfold as_u32.
  rewrite Z.shiftr_div_pow2 by lia. rewrite handle_of_eq; zdiv.
Qed.

Lemma split_handle_range h :
  0 ≤ (split_handle h).1 < 2 ^ 32 ∧ 0 ≤ (split_handle h).2 < 2 ^ 32.
Proof. unfold split_handle, as_u32. simpl. split; apply Z.mod_pos_bound; lia. Qed.

Lemma split_handle_inj h h' :
  0 ≤ h < 2 ^ 64 → 0 ≤ h' < 2 ^ 64 → split_handle h = split_handle h' → h = h'.
Proof. intros H H' E. rewrite <-(handle_of_split h), <-(handle_of_split h'), E by done. done. Qed.

Lemma bump_generation_range g : 1 ≤ g < 2 ^ 32 → 1 ≤ bump_generation g < 2 ^ 32.
Proof.
  intros H. unfold bump_generation, wrapping_add_u32, as_u32.
  destruct (Z.eqb_spec ((g + 1) mod 2 ^ 32) 0); [lia|]. zdiv.
Qed.

Lemma bump_generation_ne g : 1 ≤ g < 2 ^ 32 → bump_generation g ≠ g.
Proof.
  intros H. unfold bump_generation, wrapping_add_u32, as_u32.
  destruct (Z.eqb_spec ((g + 1) mod 2 ^ 32) 0); zdiv.
Qed.

(** ** The specification: a map from live handles to their entries *)

Definition Entry : Type := V * HandleScope * Z.

Definition entry_value (x : Entry) : V := x.1.1.

Definition entry (s : HandleSlot) : option Entry :=
  match slot_value s with Some v => Some (v, scope s, ext_id s) | None => None end.

Definition look (h : Z) (t : HandleTable) : option Entry :=
  if decide (0 ≤ h < 2 ^ 64) then live_slot h t ≫= entry else None.

Definition refines (t : HandleTable) (m : gmap Z Entry) : Prop :=
  table_inv t ∧ ∀ h, m !! h = look h t.

Definition slot_handle (i : nat) (s : HandleSlot) : Z := handle_of (Z.of_nat i) (generation s).

Lemma slot_index_range t i s : table_inv t → slots t !! i = Some s → 0 ≤ Z.of_nat i < 2 ^ 32.
Proof. intros Hinv H%lookup_lt_Some. pose proof (tinv_size _ Hinv). lia. Qed.

Lemma slot_handle_split t i s :
  table_inv t → slots t !! i = Some s → split_handle (slot_handle i s) = (Z.of_nat i, generation s).
Proof.
  intros Hinv Hs. pose proof (slot_index_range _ _ _ Hinv Hs).
  destruct (tinv_slots _ Hinv _ _ Hs) as [? _]. apply split_handle_of; lia.
Qed.

Lemma slot_handle_range t i s :
  table_inv t → slots t !! i = Some s → 0 < slot_handle i s < 2 ^ 64.
Proof.
  intros Hinv Hs. pose proof (slot_index_range _ _ _ Hinv Hs).
  destruct (tinv_slots _ Hinv _ _ Hs) as [? _]. unfold slot_handle.
  rewrite handle_of_eq by lia. lia.
Qed.

Lemma slot_handle_inj t t' i j s s' :
  table_inv t → table_inv t' → slots t !! i = Some s → slots t' !! j = Some s' →
  slot_handle i s = slot_handle j s' → i = j ∧ generation s = generation s'.
Proof.
  intros Hinv Hinv' Hs Hs' E. apply (f_equal split_handle) in E.
  rewrite (slot_handle_split t i s), (slot_handle_split t' j s') in E by done.
  simplify_eq. split; [lia|done].
Qed.

(** The handles that resolve are those of the occupied slots. *)
Lemma look_Some t h x :
  table_inv t →
  look h t = Some x ↔ ∃ i s, slots t !! i = Some s ∧ h = slot_handle i s ∧ entry s = Some x.
Proof.
  intros Hinv. unfold look, live_slot. split.
  - destruct (decide _) as [Hh|]; [|done].
    destruct (split_handle h) as [i g] eqn:E.
    destruct (slots t !! Z.to_nat i) as [s|] eqn:Hs; simpl; [|done].
    destruct (Z.eqb_spec (generation s) g) as [Hg|]; [|done].
    intros Hx. exists (Z.to_nat i), s. split_and!; [done| |].
    + apply split_handle_inj; [done|pose proof (slot_handle_range _ _ _ Hinv Hs); lia|].
      rewrite E, (slot_handle_split t) by done.
      pose proof (split_handle_range h) as [? _]. rewrite E in *. simpl in *.
      rewrite Z2Nat.id by lia. by rewrite Hg.
    + destruct (slot_value s) eqn:Hv; [|done]. simpl in Hx. done.
  - intros (i & s & Hs & -> & Hx). pose proof (slot_handle_range _ _ _ Hinv Hs).
    rewrite decide_True by lia. rewrite (slot_handle_split t) by done. simpl.
    rewrite Nat2Z.id, Hs. simpl. rewrite Z.eqb_refl.
    unfold entry in Hx. destruct (slot_value s) eqn:Hv; [|done].
    simpl. unfold entry. by rewrite Hv.
Qed.

Lemma refines_Some t m h x :
  refines t m →
  m !! h = Some x ↔ ∃ i s, slots t !! i = Some s ∧ h = slot_handle i s ∧ entry s = Some x.
Proof. intros [Hinv Hm]. rewrite Hm. by apply look_Some. Qed.

Lemma refines_intro t m :
  table_inv t →
  (∀ h x, m !! h = Some x ↔
     ∃ i s, slots t !! i = Some s ∧ h = slot_handle i s ∧ entry s = Some x) →
  refines t m.
Proof.
  intros Hinv H. split; [done|]. intros h. apply option_eq. intros x.
  by rewrite H, look_Some.
Qed.

Lemma entry_None s : entry s = None ↔ slot_value s = None.
Proof. unfold entry. by destruct (slot_value s). Qed.

(** ** Freeing a slot *)

Definition freed (s : HandleSlot) : HandleSlot :=
  mkSlot None Free (bump_generation (generation s)) (ext_id s).

Lemma free_index_refines t m i s :
  refines t m → slots t !! i = Some s → slot_value s ≠ None →
  ∃ t', free_index (Z.of_nat i) t = Some t' ∧ slots t' = <[i := freed s]> (slots t) ∧
    epoch t' = epoch t ∧ refines t' (delete (slot_handle i s) m).
Proof.
  intros Href Hs Hv. pose proof Href as [Hinv _]. unfold free_index.
  rewrite Nat2Z.id, Hs. simpl. eexists. split; [done|]. split; [done|]. split; [done|].
  pose proof (lookup_lt_Some _ _ _ Hs) as Hlt.
  assert (table_inv (mkTable (<[i := freed s]> (slots t)) (vec_push (free t) (Z.of_nat i)) (epoch t)))
    as Hinv'.
  { destruct Hinv as [Hsl Hnd Hfr Hsz]. split; simpl.
    - intros j sj [(-> & <- & _)|[_ Hj]]%list_lookup_insert_Some; [|eauto].
      destruct (Hsl _ _ Hs) as [Hg _]. split; [by apply bump_generation_range|done].
    - apply NoDup_app. split_and!; [done| |apply NoDup_singleton].
      intros j Hj ->%list_elem_of_singleton. apply Hfr in Hj as [_ (s' & Hs' & Hn)].
      rewrite Nat2Z.id in Hs'. congruence.
    - intros j. unfold vec_push. rewrite elem_of_app, list_elem_of_singleton, Hfr. split.
      + intros [(Hj & s' & Hs' & Hn)| ->].
        * split; [done|]. exists s'. split; [|done]. rewrite list_lookup_insert_ne; [done|].
          intros ->. congruence.
        * split; [lia|]. rewrite Nat2Z.id. exists (freed s).
          by rewrite list_lookup_insert_eq.
      + intros (Hj & s' & [(Hij & _ & _)|[Hne Hs']]%list_lookup_insert_Some & Hn);
          [right; lia|left; eauto].
    - by rewrite length_insert. }
  apply refines_intro; [done|]. intros h x. rewrite lookup_delete_Some, (refines_Some t m) by done.
  split.
  - intros (Hne & j & sj & Hj & -> & Hx). exists j, sj. split; [|done]. simpl.
    rewrite list_lookup_insert_ne; [done|]. intros ->. congruence.
  - simpl. intros (j & sj & [(-> & <- & _)|[Hne Hj]]%list_lookup_insert_Some & -> & Hx); [done|].
    split; [|eauto]. intros E. apply Hne. by eapply (slot_handle_inj t t).
Qed.

(** ** The operations refine the map operations *)

Lemma sweep_refines (p : HandleSlot → bool) (P : Entry → bool) idx : ∀ t m,
  (∀ s, slot_ok s → p s = match entry s with Some x => P x | None => false end) →
  refines t m → NoDup idx → (∀ i, i ∈ idx → (i < length (slots t))%nat) →
  ∃ t', sweep p idx t = Some t' ∧ length (slots t') = length (slots t) ∧ epoch t' = epoch t ∧
    refines t' (filter (λ hx, P hx.2 = false ∨ Z.to_nat (split_handle hx.1).1 ∉ idx) m).
Proof.
  induction idx as [|i idx IH]; intros t m Hp Href Hnd Hlt; cbn [sweep].
  - exists t. split_and!; [done..|]. rewrite map_filter_id; [done|]. intros h x _. right. set_solver.
  - apply NoDup_cons in Hnd as [Hnin Hnd].
    destruct (lookup_lt_is_Some_2 (slots t) i) as [s Hs]; [apply Hlt; by left|].
    rewrite Hs. simpl. pose proof Href as [Hinv _].
    pose proof (slot_index_range _ _ _ Hinv Hs) as Hi.
    pose proof (slot_handle_split _ _ _ Hinv Hs) as Hsplit.
    destruct (p s) eqn:Hps; rewrite Hp in Hps by (by eapply tinv_slots).
    + destruct (entry s) as [x0|] eqn:Hx0; [|done].
      destruct (free_index_refines t m i s Href Hs) as (t' & Hf & Hsl & He & Href').
      { intros E%entry_None. congruence. }
      rewrite as_u32_small by done. rewrite Hf. simpl.
      destruct (IH t' _ Hp Href' Hnd) as (t'' & -> & Hlen & Hep & Href'').
      { intros j Hj. rewrite Hsl, length_insert. apply Hlt. by right. }
      exists t''. split_and!; [done|by rewrite Hlen, Hsl, length_insert|congruence|].
      eapply (eq_ind _ (refines t'')); [exact Href''|].
      apply map_eq. intros h. apply option_eq. intros x.
      rewrite !map_lookup_filter_Some, lookup_delete_Some. cbn [fst snd].
      rewrite (not_elem_of_cons idx (Z.to_nat (split_handle h).1) i).
      split; [intros [[Hne ?] Hc]|intros [Hm Hc]]; (split; [try done|]).
      * apply (refines_Some t m) in H as (j & sj & Hj & -> & _); [|done].
        rewrite (slot_handle_split t j sj) in Hc |- * by done. cbn [fst snd] in Hc |- *.
        rewrite Nat2Z.id in Hc |- *. destruct Hc as [?|Hc]; [by left|right].
        split; [|done]. congruence.
      * split; [|done]. intros <-. rewrite Hsplit in Hc. simpl in Hc. rewrite Nat2Z.id in Hc.
        apply (refines_Some t m) in Hm as (j & sj & Hj & E & Hxj); [|done].
        apply (slot_handle_inj t t) in E as [-> _]; [|done..].
        destruct Hc as [Hc|[? _]]; [|done]. congruence.
      * tauto.
    + destruct (IH t m Hp Href Hnd) as (t'' & -> & Hlen & Hep & Href'').
      { intros j Hj. apply Hlt. by right. }
      exists t''. split_and!; [done..|].
      eapply (eq_ind _ (refines t'')); [exact Href''|].
      apply map_filter_ext. intros h x Hm. cbn [fst snd].
      rewrite (not_elem_of_cons idx (Z.to_nat (split_handle h).1) i).
      split; [|tauto]. intros [?|Hc]; [by left|].
      destruct (decide (Z.to_nat (split_handle h).1 = i)) as [Heq|Hne]; [left|by right].
      apply (refines_Some t m) in Hm as (j & sj & Hj & -> & Hxj); [|done].
      rewrite (slot_handle_split t j sj) in Heq by done. simpl in Heq. rewrite Nat2Z.id in Heq.
      subst j. simplify_eq. by rewrite Hxj in Hps.
Qed.

(** A sweep over the whole table filters the map. *)
Lemma sweep_all_refines (p : HandleSlot → bool) (P : Entry → bool) t m :
  (∀ s, slot_ok s → p s = match entry s with Some x => P x | None => false end) →
  refines t m →
  ∃ t', sweep p (seq 0 (length (slots t))) t = Some t' ∧
    length (slots t') = length (slots t) ∧ epoch t' = epoch t ∧
    refines t' (filter (λ hx, P hx.2 = false) m).
Proof.
  intros Hp Href.
  destruct (sweep_refines p P (seq 0 (length (slots t))) t m Hp Href) as (t' & H1 & H2 & H3 & H4).
  - apply NoDup_ListNoDup, seq_NoDup.
  - intros i Hi%elem_of_seq. lia.
  - exists t'. split_and!; [done..|]. eapply (eq_ind _ (refines t')); [exact H4|].
    apply map_filter_ext. intros h x Hm. split; [|by left]. intros [?|Hn]; [done|].
    pose proof Href as [Hinv _].
    apply (refines_Some t m) in Hm as (j & sj & Hj & -> & _); [|done]. cbn [fst] in Hn.
    rewrite (slot_handle_split t j sj) in Hn by done. cbn [fst] in Hn. rewrite Nat2Z.id in Hn.
    apply lookup_lt_Some in Hj. destruct Hn. apply elem_of_seq. lia.
Qed.

(** The entry is local to call [e]; it was minted for extension [ext]. *)
Definition local_to (e : Z) (x : Entry) : bool := bool_decide (x.1.2 = Local_ e).
Definition minted_by (ext : Z) (x : Entry) : bool := x.2 =? ext.

Lemma end_call_refines e t m :
  refines t m →
  ∃ t', end_call e t = Some t' ∧ length (slots t') = length (slots t) ∧ epoch t' = epoch t ∧
    refines t' (filter (λ hx, local_to e hx.2 = false) m).
Proof.
  intros Href. apply (sweep_all_refines _ (local_to e)); [|done].
  intros s [_ Hs]. unfold entry, local_to. destruct (slot_value s) eqn:Hv; [done|].
  by rewrite (proj1 Hs eq_refl).
Qed.

Lemma release_for_ext_refines x t m :
  refines t m →
  ∃ t', release_for_ext x t = Some t' ∧ length (slots t') = length (slots t) ∧
    epoch t' = epoch t ∧ refines t' (filter (λ hx, minted_by x hx.2 = false) m).
Proof.
  intros Href. apply (sweep_all_refines _ (minted_by x)); [|done].
  intros s _. unfold entry. by destruct (slot_value s).
Qed.

(** Occupying a slot that held nothing adds its handle, which was not live. *)
Lemma occupy_refines t t' m k s' x :
  refines t m → table_inv t' → slots t' !! k = Some s' → entry s' = Some x →
  (∀ j, j ≠ k → slots t' !! j = slots t !! j) →
  (∀ s, slots t !! k = Some s → slot_value s = None) →
  refines t' (<[slot_handle k s' := x]> m) ∧ m !! slot_handle k s' = None.
Proof.
  intros Href Hinv' Hs' Hx Hother Hempty. pose proof Href as [Hinv _]. split.
  - apply refines_intro; [done|]. intros h y.
    rewrite lookup_insert_Some, (refines_Some t m) by done. split.
    + intros [[<- <-]|(Hne & j & sj & Hj & -> & Hy)]; [by eexists _, s'|].
      exists j, sj. split; [|done]. rewrite Hother; [done|]. intros ->.
      apply Hempty, entry_None in Hj. congruence.
    + intros (j & sj & Hj & -> & Hy). destruct (decide (j = k)) as [->|Hne].
      * left. split; congruence.
      * right. split; [|rewrite Hother in Hj by done; eauto].
        intros E. apply Hne. symmetry. by eapply (slot_handle_inj t' t').
  - destruct (m !! _) as [y|] eqn:E; [|done].
    apply (refines_Some t m) in E as (j & sj & Hj & Ej & Hy); [|done].
    destruct (slot_handle_inj t' t _ _ _ _ Hinv' Hinv Hs' Hj Ej) as [<- _].
    apply Hempty, entry_None in Hj. congruence.
Qed.

(** What minting promises: a fresh non-null 64-bit handle for the value. *)
Definition minted (v : V) (e ext : Z) (t : HandleTable) (m : gmap Z Entry)
    (r : option (HandleTable * Z)) : Prop :=
  ∃ t' h, r = Some (t', h) ∧ refines t' (<[h := (v, Local_ e, ext)]> m) ∧
    m !! h = None ∧ h ≠ NULL_HANDLE ∧ 0 < h < 2 ^ 64 ∧
    (length (slots t') ≤ S (length (slots t)))%nat ∧ epoch t' = epoch t.

Lemma mint_reuse v e ext t m i rest :
  refines t m → vec_pop (free t) = Some (i, rest) → minted v e ext t m (mint_local v e ext t).
Proof.
  intros Href Hp. pose proof Href as [Hinv _]. unfold mint_local, alloc. rewrite Hp. simpl.
  apply vec_pop_Some in Hp.
  assert (i ∈ free t) as (Hi & s & Hs & Hn)%(tinv_free _ Hinv) by (rewrite Hp; set_solver).
  rewrite Hs. simpl. pose proof (lookup_lt_Some _ _ _ Hs) as Hlt.
  rewrite list_lookup_insert_eq by done. simpl.
  set (s' := mkSlot (Some v) (Local_ e) (generation s) ext).
  set (t' := mkTable (<[Z.to_nat i := s']> (slots t)) rest (epoch t)).
  assert (table_inv t') as Hinv'.
  { destruct Hinv as [Hsl Hnd Hfr Hsz]. rewrite Hp in Hnd. apply NoDup_app in Hnd as (Hnd & Hni & _).
    split; simpl; [|done| |by rewrite length_insert].
    - intros j sj [(<- & <- & _)|[_ Hj]]%list_lookup_insert_Some; [|eauto].
      destruct (Hsl _ _ Hs) as [Hg _]. by split.
    - intros j.
      assert (j ∈ rest ↔ j ∈ free t ∧ j ≠ i) as ->.
      { rewrite Hp, elem_of_app, list_elem_of_singleton. split; [|naive_solver].
        intros Hj. split; [by left|]. intros ->. apply (Hni i); [done|by left]. }
      rewrite Hfr. split.
      + intros ((Hj & s1 & Hs1 & Hn1) & Hne). split; [done|]. exists s1.
        rewrite list_lookup_insert_ne; [done|]. intros E. apply Hne. lia.
      + intros (Hj & s1 & [(_ & <- & _)|[Hne Hs1]]%list_lookup_insert_Some & Hn1); [done|].
        split; [eauto|]. by intros ->. }
  assert (slots t' !! Z.to_nat i = Some s') as Hs' by (by apply list_lookup_insert_eq).
  destruct (occupy_refines t t' m _ _ (v, Local_ e, ext) Href Hinv' Hs' eq_refl) as [Href' Hfresh].
  { intros j Hj. simpl. by rewrite list_lookup_insert_ne. }
  { intros s1 Hs1. congruence. }
  exists t', (slot_handle (Z.to_nat i) s'). pose proof (slot_handle_range _ _ _ Hinv' Hs').
  split_and!; [|done|done|unfold NULL_HANDLE; lia|lia|lia|simpl; rewrite length_insert; lia|done].
  unfold slot_handle. by rewrite Z2Nat.id.
Qed.

Lemma mint_grow v e ext t m :
  refines t m → vec_pop (free t) = None → Z.of_nat (length (slots t)) < 2 ^ 32 →
  minted v e ext t m (mint_local v e ext t).
Proof.
  intros Href Hp Hlen. pose proof Href as [Hinv _]. unfold mint_local, alloc. rewrite Hp. simpl.
  rewrite as_u32_small by lia. rewrite Nat2Z.id.
  unfold vec_push. rewrite lookup_app_r, Nat.sub_diag by lia. simpl.
  set (s' := mkSlot (Some v) (Local_ e) 1 ext).
  set (t' := set_slots (slots t ++ [s']) t).
  assert (table_inv t') as Hinv'.
  { destruct Hinv as [Hsl Hnd Hfr Hsz]. split; simpl; [|done| |rewrite length_app; simpl; lia].
    - intros j sj [Hj|[_ Hj]]%lookup_app_Some; [eauto|].
      apply list_lookup_singleton_Some in Hj as [_ <-]. split; [simpl; lia|done].
    - intros j. rewrite Hfr. split; intros (Hj & s1 & Hs1 & Hn1); (split; [done|]); exists s1.
      + by rewrite lookup_app_l by (by eapply lookup_lt_Some).
      + apply lookup_app_Some in Hs1 as [?|[_ H1]]; [done|].
        apply list_lookup_singleton_Some in H1 as [_ <-]. done. }
  assert (slots t' !! length (slots t) = Some s') as Hs'.
  { simpl. by rewrite lookup_app_r, Nat.sub_diag by lia. }
  destruct (occupy_refines t t' m _ _ (v, Local_ e, ext) Href Hinv' Hs' eq_refl) as [Href' Hfresh].
  { intros j Hj. simpl. destruct (decide (j < length (slots t))%nat).
    - by rewrite lookup_app_l.
    - rewrite (lookup_ge_None_2 (slots t)) by lia. apply lookup_ge_None_2.
      rewrite length_app. simpl. lia. }
  { intros s1 Hs1%lookup_lt_Some. lia. }
  exists t', (slot_handle (length (slots t)) s'). pose proof (slot_handle_range _ _ _ Hinv' Hs').
  split_and!; [done|done|done|unfold NULL_HANDLE; lia|lia|lia| |done].
  simpl. rewrite length_app. simpl. lia.
Qed.

(** Below 2^32 slots minting always succeeds. *)
Lemma mint_local_refines v e ext t m :
  refines t m → Z.of_nat (length (slots t)) < 2 ^ 32 → minted v e ext t m (mint_local v e ext t).
Proof.
  intros Href Hlen. destruct (vec_pop (free t)) as [[i rest]|] eqn:Hp;
    [by eapply mint_reuse|by apply mint_grow].
Qed.

Lemma live_slot_refines h t m :
  refines t m → 0 ≤ h < 2 ^ 64 →
  match live_slot h t with
  | Some s => slots t !! Z.to_nat (split_handle h).1 = Some s ∧
      h = slot_handle (Z.to_nat (split_handle h).1) s ∧ slot_value s ≠ None ∧ m !! h = entry s
  | None => m !! h = None
  end.
Proof.
  intros [Hinv Hm] Hh. specialize (Hm h). unfold look in Hm. rewrite decide_True in Hm by done.
  destruct (live_slot h t) as [s|] eqn:E; simpl in Hm; [|done].
  unfold live_slot in E. pose proof (split_handle_range h) as [Hr _].
  destruct (split_handle h) as [i g] eqn:Ei. cbn [fst] in *.
  destruct (slots t !! Z.to_nat i) as [s'|] eqn:Hs; simpl in E; [|done].
  destruct (Z.eqb_spec (generation s') g) as [Hg|]; [|done].
  destruct (slot_value s') eqn:Hv; [|done]. injection E as <-.
  split_and!; [done| |congruence|done].
  apply split_handle_inj; [done|pose proof (slot_handle_range _ _ _ Hinv Hs); lia|].
  rewrite Ei, (slot_handle_split t) by done. rewrite Z2Nat.id by lia. by rewrite Hg.
Qed.

Lemma release_refines hs : ∀ t m,
  refines t m → Forall (λ h, 0 ≤ h < 2 ^ 64) hs →
  ∃ t', release hs t = Some t' ∧ length (slots t') = length (slots t) ∧ epoch t' = epoch t ∧
    refines t' (foldl (λ m h, delete h m) m hs).
Proof.
  induction hs as [|h hs IH]; intros t m Href Hhs; cbn [release foldl]; [by exists t|].
  apply Forall_cons in Hhs as [Hh Hhs].
  pose proof (live_slot_refines h t m Href Hh) as Hl.
  pose proof (split_handle_range h) as [Hr _].
  destruct (live_slot h t) as [s|].
  - destruct Hl as (Hs & Eh & Hv & _).
    destruct (free_index_refines t m _ s Href Hs Hv) as (t' & Hf & Hsl & He & Href').
    rewrite Z2Nat.id in Hf by lia. rewrite Hf. simpl. rewrite <-Eh in Href'.
    destruct (IH t' _ Href' Hhs) as (t'' & -> & Hlen & Hep & Href'').
    exists t''. split_and!; [done|by rewrite Hlen, Hsl, length_insert|congruence|done].
  - rewrite delete_id by done. by apply IH.
Qed.

(** The entry of a retained handle. *)
Definition globalize (x : Entry) : Entry := (x.1.1, Global_, x.2).

Lemma retain_refines h t m :
  refines t m → 0 ≤ h < 2 ^ 64 →
  match m !! h with
  | Some x =>
      ∃ t', retain h t = Ok t' ∧ length (slots t') = length (slots t) ∧ epoch t' = epoch t ∧
        refines t' (<[h := globalize x]> m)
  | None => retain h t =
      Err ("retain: extension handle " +:+ pretty h +:+ " is invalid or released")%string
  end.
Proof.
  intros Href Hh. pose proof Href as [Hinv _]. pose proof (live_slot_refines h t m Href Hh) as Hl.
  unfold retain. destruct (live_slot h t) as [s|]; [|by rewrite Hl].
  destruct Hl as (Hs & Eh & Hv & ->).
  destruct (slot_value s) as [v|] eqn:Ev; [|done]. unfold entry at 1. rewrite Ev.
  set (k := Z.to_nat (split_handle h).1) in *. clearbody k.
  eexists. split; [done|]. split; [simpl; by rewrite length_insert|]. split; [done|].
  set (s' := mkSlot (Some v) Global_ (generation s) (ext_id s)).
  set (t' := set_slots _ _).
  pose proof (lookup_lt_Some _ _ _ Hs) as Hlt.
  assert (table_inv t') as Hinv'.
  { destruct Hinv as [Hsl Hnd Hfr Hsz]. split; simpl; [|done| |by rewrite length_insert].
    - intros j sj [(<- & <- & _)|[_ Hj]]%list_lookup_insert_Some; [|eauto].
      destruct (Hsl _ _ Hs) as [Hg _]. by split.
    - intros j. rewrite Hfr. split; intros (Hj & s1 & Hs1 & Hn1); (split; [done|]).
      + exists s1. rewrite list_lookup_insert_ne; [done|]. intros ->. congruence.
      + apply list_lookup_insert_Some in Hs1 as [(_ & <- & _)|[_ ?]]; [done|eauto]. }
  apply refines_intro; [done|]. intros h' x. rewrite lookup_insert_Some, (refines_Some t m) by done.
  assert (slots t' !! k = Some s') as Hs' by (by apply list_lookup_insert_eq).
  split.
  - intros [[<- <-]|(Hne & j & sj & Hj & -> & Hx)]; [by exists k, s'|].
    exists j, sj. split; [|done]. simpl. rewrite list_lookup_insert_ne; [done|].
    intros <-. congruence.
  - simpl. intros (j & sj & [(<- & <- & _)|[Hne Hj]]%list_lookup_insert_Some & -> & Hx).
    + left. split; [done|]. by injection Hx.
    + right. split; [|eauto]. intros E. rewrite Eh in E. apply Hne.
      by eapply (slot_handle_inj t t).
Qed.

End table.

(** ** The handle table as a map of live handles

    Any sequence of table operations simulates the same operations on a finite
    map from live handles to entries; a released handle stays dead. *)

Section props.
Context {V : Type}.
Implicit Types (t : HandleTable (V:=V)) (m : gmap Z (Entry (V:=V))).

(** ** Operations and their outputs *)

Inductive Op :=
| BeginCall
| EndCall (e : Z)
| MintLocal (v : V) (e ext : Z)
| ReleaseForExt (ext : Z)
| Retain (h : Z)
| Release (hs : list Z)
| Get (h : Z).

Inductive Out :=
| ODone
| OEpoch (e : Z)
| OHandle (h : Z)
| ORetained (ok : bool)
| OValue (r : option V).

Definition ok_value {E A} (r : result E A) : option A :=
  match r with Ok a => Some a | Err _ => None end.

(** One call of the public interface; [None] is a panic. *)
Definition step (op : Op) t : option (HandleTable (V:=V) * Out) :=
  match op with
  | BeginCall => let '(t', e) := begin_call t in Some (t', OEpoch e)
  | EndCall e => t' ← end_call e t; Some (t', ODone)
  | MintLocal v e ext => '(t', h) ← mint_local v e ext t; Some (t', OHandle h)
  | ReleaseForExt ext => t' ← release_for_ext ext t; Some (t', ODone)
  | Retain h => match retain h t with
                | Ok t' => Some (t', ORetained true)
                | Err _ => Some (t, ORetained false)
                end
  | Release hs => t' ← release hs t; Some (t', ODone)
  | Get h => Some (t, OValue (ok_value (get h t)))
  end.

Fixpoint run (ops : list Op) t : option (HandleTable (V:=V) * list Out) :=
  match ops with
  | [] => Some (t, [])
  | op :: ops' =>
      '(t1, o) ← step op t;
      '(t2, os) ← run ops' t1;
      Some (t2, o :: os)
  end.

(** Handles are 64-bit words. *)
Definition op_ok (op : Op) : Prop :=
  match op with
  | Retain h | Get h => 0 ≤ h < 2 ^ 64
  | Release hs => Forall (λ h, 0 ≤ h < 2 ^ 64) hs
  | _ => True
  end.

(** ** The specification *)

Inductive spec_step m (e0 : Z) : Op → gmap Z (Entry (V:=V)) → Z → Out → Prop :=
| spec_begin : spec_step m e0 BeginCall m ((e0 + 1) mod 2 ^ 32) (OEpoch ((e0 + 1) mod 2 ^ 32))
| spec_end e :
    spec_step m e0 (EndCall e) (filter (λ hx, local_to e hx.2 = false) m) e0 ODone
| spec_mint v e ext h :
    m !! h = None → h ≠ NULL_HANDLE → 0 < h < 2 ^ 64 →
    spec_step m e0 (MintLocal v e ext) (<[h := (v, Local_ e, ext)]> m) e0 (OHandle h)
| spec_release_ext ext :
    spec_step m e0 (ReleaseForExt ext) (filter (λ hx, minted_by ext hx.2 = false) m) e0 ODone
| spec_retain h x :
    m !! h = Some x →
    spec_step m e0 (Retain h) (<[h := globalize x]> m) e0 (ORetained true)
| spec_retain_dead h :
    m !! h = None → spec_step m e0 (Retain h) m e0 (ORetained false)
| spec_release hs :
    spec_step m e0 (Release hs) (foldl (λ m h, delete h m) m hs) e0 ODone
| spec_get h :
    spec_step m e0 (Get h) m e0 (OValue (entry_value <$> m !! h)).

Inductive spec_run : gmap Z (Entry (V:=V)) → Z → list Op → gmap Z (Entry (V:=V)) → Z → list Out → Prop :=
| spec_nil m e : spec_run m e [] m e []
| spec_cons m e op ops m1 e1 o m2 e2 os :
    spec_step m e op m1 e1 o → spec_run m1 e1 ops m2 e2 os →
    spec_run m e (op :: ops) m2 e2 (o :: os).

Lemma refines_empty : refines (V:=V) empty_table ∅.
Proof.
  apply refines_intro.
  - split; simpl; [done|constructor| |lia].
    intros i. split; [by intros ?%elem_of_nil|]. by intros [_ (?&?&?)].
  - intros h x. rewrite lookup_empty. split; [done|]. by intros (?&?&?&?).
Qed.

Lemma get_refines h t m :
  refines t m → 0 ≤ h < 2 ^ 64 → ok_value (get h t) = entry_value <$> m !! h.
Proof.
  intros Href Hh. pose proof (live_slot_refines h t m Href Hh) as Hl.
  unfold get. unfold live_slot in Hl. destruct (split_handle h) as [i g]. cbn [fst] in Hl.
  destruct (slots t !! Z.to_nat i) as [s|]; simpl in Hl; [|by rewrite Hl].
  destruct (generation s =? g); [|by rewrite Hl].
  destruct (slot_value s) as [v|] eqn:Hv; [|by rewrite Hl].
  destruct Hl as (_ & _ & _ & ->). unfold entry. by rewrite Hv.
Qed.

Lemma step_refines op t m :
  refines t m → op_ok op → Z.of_nat (length (slots t)) < 2 ^ 32 →
  ∃ t' m' o, step op t = Some (t', o) ∧ spec_step m (epoch t) op m' (epoch t') o ∧
    refines t' m' ∧ (length (slots t') ≤ S (length (slots t)))%nat.
Proof.
  intros Href Hop Hlen. destruct op as [|e|v e ext|ext|h|hs|h]; simpl in *.
  - eexists _, m, _. split_and!; [done|constructor| |simpl; lia].
    destruct Href as [[]]. by split; [split|].
  - destruct (end_call_refines e t m Href) as (t' & -> & Hl & He & Href').
    simpl. eexists _, _, _. split_and!; [done|rewrite He; constructor|done|lia].
  - destruct (mint_local_refines v e ext t m Href Hlen) as (t' & h & -> & Href' & Hf & Hn & Hr & Hl & He).
    simpl. eexists _, _, _. split_and!; [done|rewrite He; by constructor|done|lia].
  - destruct (release_for_ext_refines ext t m Href) as (t' & -> & Hl & He & Href').
    simpl. eexists _, _, _. split_and!; [done|rewrite He; constructor|done|lia].
  - pose proof (retain_refines h t m Href Hop) as Hr. destruct (m !! h) as [x|] eqn:Hm.
    + destruct Hr as (t' & -> & Hl & He & Href').
      eexists _, _, _. split_and!; [done|rewrite He; by constructor|done|lia].
    + rewrite Hr. eexists _, _, _. split_and!; [done|by constructor|done|lia].
  - destruct (release_refines hs t m Href Hop) as (t' & -> & Hl & He & Href').
    simpl. eexists _, _, _. split_and!; [done|rewrite He; constructor|done|lia].
  - rewrite (get_refines h t m Href Hop). eexists _, _, _. split_and!; [done|constructor|done|lia].
Qed.

(** C37: The handle table implements a map.  From a table that stands for a map, as the empty one
    does, any sequence of table operations on 64-bit handles, with no more slots and operations
    together than 2^32, runs without panicking and simulates
    the same sequence on a finite map from live handles to (value, scope,
    extension): minting answers a handle that was not live and is never the
    null handle, ending a call removes exactly the handles still local to that
    call's epoch, dropping an extension removes exactly its handles, retaining
    makes a live handle global, releasing ignores dead handles, and resolving
    answers the value of a live handle and an error for any other. *)
Theorem table_implements_map ops t m :
  refines t m → Forall op_ok ops →
  Z.of_nat (length (slots t)) + Z.of_nat (length ops) ≤ 2 ^ 32 →
  ∃ t' m' outs, run ops t = Some (t', outs) ∧
    spec_run m (epoch t) ops m' (epoch t') outs ∧ refines t' m'.
Proof.
  revert t m. induction ops as [|op ops IH]; intros t m Href Hops Hlen; simpl in *.
  - exists t, m, []. split_and!; [done|constructor|done].
  - apply Forall_cons in Hops as [Hop Hops].
    destruct (step_refines op t m Href Hop) as (t1 & m1 & o & -> & Hspec & Href1 & Hl); [lia|].
    simpl. destruct (IH t1 m1 Href1 Hops) as (t2 & m2 & outs & -> & Hrun & Href2); [lia|].
    simpl. exists t2, m2, (o :: outs). split_and!; [done|by econstructor|done].
Qed.

(** ** Stale handles *)

(** What one operation does to a slot: nothing is freed without a new
    generation, and a slot is freed at most once. *)
Definition ages (s s' : HandleSlot (V:=V)) : Prop :=
  (generation s' = generation s ∧ (slot_value s ≠ None → slot_value s' ≠ None)) ∨
  (generation s' = bump_generation (generation s) ∧ slot_value s' = None).

Definition aged t t' : Prop :=
  ∀ i s, slots t !! i = Some s → ∃ s', slots t' !! i = Some s' ∧ ages s s'.

(** As [ages], while the operation is still running. *)
Definition ages_in (s s' : HandleSlot (V:=V)) : Prop :=
  (generation s' = generation s ∧ slot_value s' = slot_value s) ∨
  (generation s' = bump_generation (generation s) ∧ slot_value s' = None).

Definition aged_in t t' : Prop :=
  ∀ i s, slots t !! i = Some s → ∃ s', slots t' !! i = Some s' ∧ ages_in s s'.

Lemma aged_in_aged t t' : aged_in t t' → aged t t'.
Proof.
  intros H i s Hs. destruct (H i s Hs) as (s' & Hs' & [[Hg Hv]|?]); exists s'.
  - split; [done|]. left. split; [done|]. by rewrite Hv.
  - split; [done|]. by right.
Qed.

Lemma free_index_aged_in t0 t t' (i : nat) s :
  aged_in t0 t → slots t !! i = Some s → slot_value s ≠ None →
  slots t' = <[i := freed s]> (slots t) → aged_in t0 t'.
Proof.
  intros H Hs Hv Hsl j s0 Hs0. destruct (H j s0 Hs0) as (sj & Hj & Ha).
  rewrite Hsl. destruct (decide (j = i)) as [->|Hne].
  - exists (freed s). rewrite list_lookup_insert_eq by (by eapply lookup_lt_Some).
    split; [done|]. simplify_eq. right. destruct Ha as [[Hg _]|[_ ?]]; [|done].
    simpl. by rewrite Hg.
  - exists sj. by rewrite list_lookup_insert_ne.
Qed.

Lemma aged_refl t : aged t t.
Proof. intros i s Hs. exists s. split; [done|]. by left. Qed.

Lemma aged_in_refl t : aged_in t t.
Proof. intros i s Hs. exists s. split; [done|]. by left. Qed.

Lemma free_index_Some i t t' :
  free_index i t = Some t' → ∃ s, slots t !! Z.to_nat i = Some s ∧
    slots t' = <[Z.to_nat i := freed s]> (slots t).
Proof.
  unfold free_index. destruct (slots t !! Z.to_nat i) as [s|]; simpl; [|done].
  intros [= <-]. by exists s.
Qed.

Lemma sweep_aged t0 p idx : ∀ t m t',
  (∀ s, slot_ok s → p s = true → slot_value s ≠ None) → refines t m →
  aged_in t0 t → sweep p idx t = Some t' → aged_in t0 t'.
Proof.
  induction idx as [|i idx IH]; intros t m t' Hp Href Ha; cbn [sweep]; [by intros [= <-]|].
  destruct (slots t !! i) as [s|] eqn:Hs; simpl; [|done].
  destruct (p s) eqn:Hps; [|by eapply IH].
  pose proof Href as [Hinv _].
  assert (slot_value s ≠ None) as Hv by (eapply Hp; [by eapply tinv_slots|done]).
  rewrite as_u32_small by (by eapply slot_index_range).
  destruct (free_index_refines t m i s Href Hs Hv) as (t1 & -> & Hsl & _ & Href1). simpl.
  eapply IH; [done|exact Href1|]. by eapply free_index_aged_in.
Qed.

Lemma release_aged t0 hs : ∀ t m t',
  refines t m → Forall (λ h, 0 ≤ h < 2 ^ 64) hs →
  aged_in t0 t → release hs t = Some t' → aged_in t0 t'.
Proof.
  induction hs as [|h hs IH]; intros t m t' Href Hhs Ha; cbn [release]; [by intros [= <-]|].
  apply Forall_cons in Hhs as [Hh Hhs].
  pose proof (live_slot_refines h t m Href Hh) as Hl.
  pose proof (split_handle_range h) as [Hr _].
  destruct (live_slot h t) as [s|]; [|by eapply IH].
  destruct Hl as (Hs & _ & Hv & _).
  destruct (free_index_refines t m _ s Href Hs Hv) as (t1 & Hf & Hsl & _ & Href1).
  rewrite Z2Nat.id in Hf by lia. rewrite Hf. simpl.
  eapply IH; [exact Href1|done|]. by eapply free_index_aged_in.
Qed.

Lemma mint_aged v e ext t m t' h :
  refines t m → mint_local v e ext t = Some (t', h) → aged t t'.
Proof.
  intros Href Hm. unfold mint_local, alloc in Hm.
  destruct (vec_pop (free t)) as [[i rest]|] eqn:Hp; simpl in Hm.
  - destruct (slots t !! Z.to_nat i) as [s|] eqn:Hs; simpl in Hm; [|done].
    rewrite list_lookup_insert_eq in Hm by (by eapply lookup_lt_Some). simpl in Hm.
    injection Hm as <- _. intros j sj Hj. simpl.
    destruct (decide (j = Z.to_nat i)) as [->|Hne].
    + rewrite list_lookup_insert_eq by (by eapply lookup_lt_Some). simplify_eq.
      eexists. split; [done|]. left. split; [done|]. done.
    + rewrite list_lookup_insert_ne by done. exists sj. split; [done|]. by left.
  - destruct (vec_push _ _ !! _) as [s|]; simpl in Hm; [|done].
    injection Hm as <- _. intros j sj Hj. simpl. unfold vec_push.
    rewrite lookup_app_l by (by eapply lookup_lt_Some). exists sj. split; [done|]. by left.
Qed.

Lemma step_aged op t m t' o :
  refines t m → op_ok op → step op t = Some (t', o) → aged t t'.
Proof.
  intros Href Hop. destruct op as [|e|v e ext|ext|h|hs|h]; simpl.
  - intros [= <- _] i s Hs. exists s. split; [done|]. by left.
  - destruct (end_call e t) as [t1|] eqn:E; simpl; [|done]. intros [= <- _].
    apply aged_in_aged. unfold end_call in E.
    eapply sweep_aged; [|exact Href|apply aged_in_refl|exact E].
    intros s [_ Hs] Hc%bool_decide_eq_true Hn. apply Hs in Hn. congruence.
  - destruct (mint_local v e ext t) as [[t1 h]|] eqn:E; simpl; [|done]. intros [= <- _].
    by eapply mint_aged.
  - destruct (release_for_ext ext t) as [t1|] eqn:E; simpl; [|done]. intros [= <- _].
    apply aged_in_aged. unfold release_for_ext in E.
    eapply sweep_aged; [|exact Href|apply aged_in_refl|exact E].
    intros s _ Hc Hn. simpl in Hc. by rewrite Hn in Hc.
  - pose proof (live_slot_refines h t m Href Hop) as Hl.
    unfold retain. destruct (live_slot h t) as [s|]; intros [= <- _]; [|apply aged_refl].
    destruct Hl as (Hs & _ & Hv & _). intros j sj Hj. simpl.
    destruct (decide (j = Z.to_nat (split_handle h).1)) as [->|Hne].
    + rewrite list_lookup_insert_eq by (by eapply lookup_lt_Some). simplify_eq.
      eexists. split; [done|]. by left.
    + rewrite list_lookup_insert_ne by done. exists sj. split; [done|]. by left.
  - destruct (release hs t) as [t1|] eqn:E; simpl; [|done]. intros [= <- _].
    apply aged_in_aged. eapply release_aged; [exact Href|done|apply aged_in_refl|exact E].
  - intros [= <- _]. apply aged_refl.
Qed.

(** The generation after [k] more frees; generations cycle through
    [1 .. 2^32 - 1]. *)
Definition gen_after (k : Z) (g : Z) : Z := (g - 1 + k) mod (2 ^ 32 - 1) + 1.

Lemma bump_gen_after k g :
  0 ≤ k → 1 ≤ g < 2 ^ 32 → bump_generation (gen_after k g) = gen_after (k + 1) g.
Proof.
  intros Hk Hg. unfold bump_generation, gen_after, wrapping_add_u32, as_u32.
  set (x := g - 1 + k). replace (g - 1 + (k + 1)) with (x + 1) by (unfold x; lia).
  assert (0 ≤ x mod (2 ^ 32 - 1) < 2 ^ 32 - 1) as Hx by (apply Z.mod_pos_bound; lia).
  pose proof (Z.add_mod_idemp_l x 1 (2 ^ 32 - 1) ltac:(lia)) as E. rewrite <-E.
  set (y := x mod (2 ^ 32 - 1)) in *. clearbody y.
  destruct (Z.eqb_spec ((y + 1 + 1) mod 2 ^ 32) 0) as [H0|H0].
  - assert (y = 2 ^ 32 - 2) as -> by zdiv. done.
  - assert (y + 1 < 2 ^ 32 - 1) by zdiv.
    rewrite !Z.mod_small by lia. lia.
Qed.

Lemma gen_after_ne k g : 1 ≤ g < 2 ^ 32 → 1 ≤ k < 2 ^ 32 - 1 → gen_after k g ≠ g.
Proof. intros Hg Hk. unfold gen_after. zdiv. Qed.

(** Running [ops] frees a slot at most once per operation. *)
Lemma run_ages ops : ∀ t m t' outs i s g k,
  refines t m → Forall op_ok ops →
  Z.of_nat (length (slots t)) + Z.of_nat (length ops) ≤ 2 ^ 32 →
  run ops t = Some (t', outs) → slots t !! i = Some s →
  1 ≤ g < 2 ^ 32 → 0 ≤ k → generation s = gen_after k g →
  ∃ s' k', slots t' !! i = Some s' ∧ generation s' = gen_after k' g ∧
    k ≤ k' ≤ k + Z.of_nat (length ops) ∧ table_inv t'.
Proof.
  induction ops as [|op ops IH]; intros t m t' outs i s g k Href Hops Hlen Hrun Hs Hg Hk Hgen; simpl in *.
  - injection Hrun as <- <-. exists s, k. split_and!; [done|done|lia|lia|apply Href].
  - apply Forall_cons in Hops as [Hop Hops].
    destruct (step_refines op t m Href Hop) as (t1 & m1 & o & Hst & _ & Href1 & Hl); [lia|].
    rewrite Hst in Hrun. simpl in Hrun.
    destruct (run ops t1) as [[t2 os]|] eqn:E; simpl in Hrun; [|done]. injection Hrun as <- <-.
    destruct (step_aged op t m t1 o Href Hop Hst i s Hs) as (s1 & Hs1 & [[Hg1 _]|[Hg1 _]]).
    + destruct (IH t1 m1 t2 os i s1 g k Href1 Hops) as (s' & k' & ? & ? & ? & ?);
        [lia|done..|congruence|]. exists s', k'. split_and!; [done|done|lia|lia|done].
    + rewrite Hgen, bump_gen_after in Hg1 by done.
      destruct (IH t1 m1 t2 os i s1 g (k + 1) Href1 Hops) as (s' & k' & ? & ? & ? & ?);
        [lia|done..|lia|done|]. exists s', k'. split_and!; [done|done|lia|lia|done].
Qed.

(** Stale handles do not alias.  Once an operation has made a live handle
    dead, it stays dead: through any further sequence of fewer than 2^32 - 2
    operations, however the slot is reused meanwhile, resolving the handle is
    an error and retaining it is refused. *)
Theorem stale_handle_stays_dead t m op t1 o1 ops t2 outs h :
  refines t m → op_ok op → Forall op_ok ops → 0 ≤ h < 2 ^ 64 →
  Z.of_nat (length (slots t)) + 1 + Z.of_nat (length ops) ≤ 2 ^ 32 - 2 →
  m !! h ≠ None → step op t = Some (t1, o1) → is_ok (get h t1) = false →
  run ops t1 = Some (t2, outs) →
  is_ok (get h t2) = false ∧ is_ok (retain h t2) = false.
Proof.
  intros Href Hop Hops Hh Hlen Hlive Hst Hdead Hrun.
  destruct (step_refines op t m Href Hop) as (t1' & m1 & o & Hst' & _ & Href1 & Hl); [lia|].
  rewrite Hst in Hst'. injection Hst' as <- <-.
  pose proof (live_slot_refines h t m Href Hh) as Hls.
  destruct (live_slot h t) as [s|]; [|done]. destruct Hls as (Hs & Eh & Hv & _).
  set (i := Z.to_nat (split_handle h).1) in *.
  pose proof Href as [Hinv _]. destruct (tinv_slots _ Hinv _ _ Hs) as [Hg _].
  assert (split_handle h = (Z.of_nat i, generation s)) as Esplit.
  { rewrite Eh at 1. by eapply slot_handle_split. }
  destruct (step_aged op t m t1 o1 Href Hop Hst i s Hs) as (s1 & Hs1 & [[Hg1 Hv1]|[Hg1 _]]).
  { exfalso. specialize (Hv1 Hv). unfold get in Hdead. rewrite Esplit, Nat2Z.id, Hs1, Hg1, Z.eqb_refl in Hdead.
    by destruct (slot_value s1). }
  assert (generation s1 = gen_after 1 (generation s)) as Hg1'.
  { rewrite Hg1, <-(bump_gen_after 0) by lia. f_equal.
    unfold gen_after. rewrite Z.add_0_r, Z.mod_small by lia. lia. }
  destruct (run_ages ops t1 m1 t2 outs i s1 (generation s) 1 Href1 Hops)
    as (s2 & k & Hs2 & Hg2 & Hk & Hinv2); [lia|done..|lia|done|].
  assert (generation s2 ≠ generation s) as Hne by (rewrite Hg2; apply gen_after_ne; lia).
  unfold get, retain, live_slot. rewrite Esplit, Nat2Z.id, Hs2. simpl.
  by rewrite (proj2 (Z.eqb_neq _ _) Hne).
Qed.

End props.

(** ** Witnesses *)

(** A call mints two handles and retains the first; the call ends. *)
Definition demo_ops : list Op :=
  [BeginCall; MintLocal 10%nat 1 7; MintLocal 20%nat 1 7; Retain 4294967296; EndCall 1].
Definition demo : HandleTable (V:=nat) :=
  default empty_table (fst <$> run demo_ops empty_table).

Lemma table_implements_map_witness :
  ∃ t' m' outs, run demo_ops empty_table = Some (t', outs) ∧
    spec_run ∅ 0 demo_ops m' (epoch t') outs ∧ refines t' m'.
Proof.
  refine (table_implements_map demo_ops empty_table ∅ refines_empty _ _).
  - repeat constructor; vm_compute; congruence.
  - vm_compute. discriminate.
Defined.

(** A handle of call 1 dies with the call, and stays dead when its slot is
    minted again under call 2. *)
Definition stale_0 : HandleTable := mkTable [mkSlot (Some 20%nat) (Local_ 1) 1 7] [] 1.
Definition stale_1 : HandleTable := mkTable (V:=nat) [mkSlot None Free 2 7] [0] 1.
Definition stale_2 : HandleTable := mkTable [mkSlot (Some 30%nat) (Local_ 2) 2 7] [] 1.

Lemma stale_0_refines : refines stale_0 {[4294967296 := (20%nat, Local_ 1, 7)]}.
Proof.
  apply refines_intro.
  - split; simpl; [|constructor| |lia].
    + intros [|i] s Hs; simpl in Hs; [|done]. injection Hs as <-. split; [simpl; lia|done].
    + intros i. split; [by intros ?%elem_of_nil|]. intros [Hi (s & Hs & Hn)].
      destruct (Z.to_nat i); simpl in Hs; [by simplify_eq|done].
  - intros h x. rewrite lookup_singleton_Some. split.
    + intros [<- <-]. by exists O, (mkSlot (Some 20%nat) (Local_ 1) 1 7).
    + intros ([|i] & s & Hs & -> & Hx); simpl in Hs; [|done]. injection Hs as <-.
      split; [reflexivity|]. by injection Hx.
Qed.

Lemma stale_handle_stays_dead_witness :
  is_ok (get 4294967296 stale_0) = true ∧
  is_ok (get 4294967296 stale_2) = false ∧ is_ok (retain 4294967296 stale_2) = false.
Proof.
  split; [reflexivity|].
  refine (stale_handle_stays_dead stale_0 _ (EndCall 1) stale_1 ODone [MintLocal 30%nat 2 7]
    stale_2 [OHandle 8589934592] 4294967296 stale_0_refines I _ _ _ _ _ _ _).
  - repeat constructor.
  - vm_compute. split; congruence.
  - vm_compute. discriminate.
  - vm_compute. discriminate.
  - reflexivity.
  - reflexivity.
  - reflexivity.
Defined.
