(* ===== verification/PinTable.v ===== *)
(** * The pin table (src/src/pin_table.rs)

    Slots that root a value under an owner, addressed by raw slot indices.  The
    value type is a parameter together with the identity of the object a value
    may be ([Value::Object] and [Gc::ptr_eq]); an index out of range panics in
    the code and is [None] here.  The table refines a map from tickets to pins. *)
From stdpp Require Import base numbers list gmap strings sorting.
From stdpp Require Import options.
From S2P Require Import Prelude.

Record PinOwner := mkOwner { kind : string; owner_id : Z }.
#[export] Instance PinOwner_eq_dec : EqDecision PinOwner.
Proof. solve_decision. Defined.

(** An occupied slot. *)
Abbreviation Pin V := (PinOwner * V)%type.

Section pins.
Context {V P : Type} `{EqDecision P} (as_object : V → option P).

Record PinTable := mkPins { slots : list (option (Pin V)); free : list nat }.

Definition empty_pins : PinTable := mkPins [] [].

Definition pin (owner : PinOwner) (value : V) (t : PinTable) : option (PinTable * nat) :=
  match vec_pop (free t) with
  | Some (i, rest) =>
      _ ← slots t !! i;
      Some (mkPins (<[i := Some (owner, value)]> (slots t)) rest, i)
  | None =>
      let s := vec_push (slots t) (Some (owner, value)) in
      Some (mkPins s (free t), (length s - 1)%nat)
  end.

Definition get (id : nat) (t : PinTable) : option V := snd <$> mjoin (slots t !! id).

Definition index (id : nat) : nat := id.

(** [slots.iter().enumerate()]: the first pin of [owner] on object [obj]. *)
Fixpoint find_pin (owner : PinOwner) (obj : P) (i : nat) (s : list (option (Pin V))) : option nat :=
  match s with
  | [] => None
  | slot :: rest =>
      match slot with
      | Some (o, v) =>
          if bool_decide (as_object v = Some obj) && bool_decide (o = owner) then Some i
          else find_pin owner obj (S i) rest
      | None => find_pin owner obj (S i) rest
      end
  end.

Definition pin_or_find (owner : PinOwner) (value : V) (t : PinTable) : option (PinTable * nat) :=
  match as_object value with
  | Some obj =>
      match find_pin owner obj 0 (slots t) with
      | Some i => Some (t, i)
      | None => pin owner value t
      end
  | None => pin owner value t
  end.

Definition get_at (index : nat) (k : string) (t : PinTable) : option V :=
  match slots t !! index with
  | Some (Some (o, v)) => if decide (kind o = k) then Some v else None
  | _ => None
  end.

Definition unpin_at (index : nat) (k : string) (t : PinTable) : PinTable :=
  match slots t !! index with
  | Some (Some (o, _)) =>
      if decide (kind o = k) then
        mkPins (<[index := None]> (slots t)) (vec_push (free t) index)
      else t
  | _ => t
  end.

Definition unpin (id : nat) (t : PinTable) : PinTable * option V :=
  match slots t !! id with
  | Some (Some (_, v)) => (mkPins (<[id := None]> (slots t)) (vec_push (free t) id), Some v)
  | _ => (t, None)
  end.

(** The loop over [slots.iter_mut().enumerate()]: the new slots, the new free
    list, and the number released. *)
Fixpoint unpin_loop (owner : PinOwner) (i : nat) (s : list (option (Pin V))) (fr : list nat)
    (released : nat) : list (option (Pin V)) * list nat * nat :=
  match s with
  | [] => ([], fr, released)
  | slot :: rest =>
      let mine := match slot with Some (o, _) => bool_decide (o = owner) | None => false end in
      let fr' := if mine then vec_push fr i else fr in
      let released' := if mine then S released else released in
      let '(rest', fr'', n) := unpin_loop owner (S i) rest fr' released' in
      ((if mine then None else slot) :: rest', fr'', n)
  end.

Definition unpin_owned (owner : PinOwner) (t : PinTable) : PinTable * nat :=
  let '(s, fr, n) := unpin_loop owner 0 (slots t) (free t) 0 in (mkPins s fr, n).

Definition live (t : PinTable) : nat := length (filter is_Some (slots t)).

(** [slots.iter().flatten()]. *)
Definition live_pins (t : PinTable) : list (Pin V) := omap id (slots t).

Fixpoint count_kind (k : string) (counts : list (string * nat)) : list (string * nat) :=
  match counts with
  | [] => [(k, 1%nat)]
  | (k', n) :: rest => if decide (k' = k) then (k', S n) :: rest else (k', n) :: count_kind k rest
  end.

Definition kind_le (a b : string * nat) : Prop := String.le a.1 b.1.
#[export] Instance kind_le_dec a b : Decision (kind_le a b).
Proof. unfold kind_le. apply _. Defined.

Definition counts_by_kind (t : PinTable) : list (string * nat) :=
  merge_sort kind_le (foldl (λ counts p, count_kind (kind p.1) counts) [] (live_pins t)).

(** ** Invariant and specification *)

Record pins_inv (t : PinTable) : Prop := {
  pinv_nodup : NoDup (free t);
  pinv_free : ∀ i, i ∈ free t ↔ slots t !! i = Some None }.

Definition refines (t : PinTable) (m : gmap nat (Pin V)) : Prop :=
  pins_inv t ∧ ∀ i, m !! i = mjoin (slots t !! i).

End pins.

(** * The pin table as a map from tickets to pins *)
#[local] Set Warnings "-clear-no-such-hyp".

Definition owned_by {V} (o : PinOwner) (p : Pin V) : Prop := p.1 = o.
#[export] Instance owned_by_dec {V} o (p : Pin V) : Decision (owned_by o p).
Proof. unfold owned_by. apply _. Defined.

Section props.
Context {V : Type}.
Implicit Types (t : PinTable (V:=V)) (m : gmap nat (Pin V)) (s : list (option (Pin V))).

Lemma refines_lookup t m i p : refines t m → m !! i = Some p ↔ slots t !! i = Some (Some p).
Proof. intros [_ ->]. destruct (slots t !! i) as [[q|]|]; simpl; naive_solver. Qed.

Lemma pins_refines_intro t m :
  pins_inv t → (∀ i p, m !! i = Some p ↔ slots t !! i = Some (Some p)) → refines t m.
Proof.
  intros Hinv H. split; [done|]. intros i. apply option_eq. intros p. rewrite H.
  destruct (slots t !! i) as [[q|]|]; simpl; naive_solver.
Qed.

Lemma pins_refines_empty : refines (V:=V) empty_pins ∅.
Proof.
  apply pins_refines_intro; [|intros i p; rewrite lookup_empty; done].
  split; simpl; [constructor|]. intros i. split; [by intros ?%elem_of_nil|done].
Qed.

(** ** Pinning *)

Lemma pin_refines o v t m :
  refines t m → ∃ t' i, pin o v t = Some (t', i) ∧ m !! i = None ∧ refines t' (<[i := (o, v)]> m) ∧
    match vec_pop (free t) with Some (j, _) => i = j | None => i = length (slots t) end.
Proof.
  intros Href. pose proof Href as [[Hnd Hfr] Hm]. unfold pin.
  destruct (vec_pop (free t)) as [[i rest]|] eqn:Hp.
  - apply vec_pop_Some in Hp.
    assert (i ∈ free t) as Hs%Hfr by (rewrite Hp; set_solver). rewrite Hs. simpl.
    eexists _, i. split; [done|]. split; [by rewrite Hm, Hs|]. split; [|done].
    pose proof (lookup_lt_Some _ _ _ Hs) as Hlt.
    rewrite Hp in Hnd. apply NoDup_app in Hnd as (Hnd & Hni & _).
    apply pins_refines_intro.
    + split; simpl; [done|]. intros j. destruct (decide (j = i)) as [->|Hne].
      * rewrite list_lookup_insert_eq by done. split; [|done]. intros Hj.
        destruct (Hni i Hj). by left.
      * rewrite list_lookup_insert_ne by done. rewrite <-Hfr, Hp. set_solver.
    + intros j p. simpl. destruct (decide (j = i)) as [->|Hne].
      * rewrite lookup_insert_eq, list_lookup_insert_eq by done. naive_solver.
      * rewrite lookup_insert_ne, list_lookup_insert_ne by done. by apply refines_lookup.
  - apply vec_pop_None in Hp. eexists _, (length (slots t)).
    split; [unfold vec_push; rewrite length_app; simpl; do 2 f_equal; lia|].
    assert (∀ j x, vec_push (slots t) (Some (o, v)) !! j = Some x ↔
      slots t !! j = Some x ∨ j = length (slots t) ∧ x = Some (o, v)) as Hpush.
    { intros j x. unfold vec_push. rewrite lookup_app_Some, list_lookup_singleton_Some. split.
      - intros [?|[? [? ->]]]; [by left|right]. split; [lia|done].
      - intros [?|[-> ->]]; [by left|right]. rewrite Nat.sub_diag. split; [lia|done]. }
    split; [by rewrite Hm, lookup_ge_None_2 by lia|]. split; [|done]. apply pins_refines_intro.
    + split; simpl; [done|]. intros j. rewrite Hpush, Hp. rewrite Hp in Hfr.
      rewrite Hfr. naive_solver.
    + intros j p. rewrite lookup_insert_Some, (refines_lookup t m) by done. simpl. rewrite Hpush.
      split; [naive_solver|]. intros [Hj|[-> [= <-]]]; [|by left].
      right. split; [|done]. apply lookup_lt_Some in Hj. lia.
Qed.

(** ** Releasing *)

Lemma clear_refines i p t m :
  refines t m → slots t !! i = Some (Some p) →
  refines (mkPins (<[i := None]> (slots t)) (vec_push (free t) i)) (delete i m).
Proof.
  intros Href Hs. pose proof Href as [[Hnd Hfr] _]. pose proof (lookup_lt_Some _ _ _ Hs) as Hlt.
  apply pins_refines_intro.
  - split; simpl; unfold vec_push.
    + apply NoDup_app. split_and!; [done| |apply NoDup_singleton].
      intros j Hj ->%list_elem_of_singleton. apply Hfr in Hj. congruence.
    + intros j. rewrite elem_of_app, list_elem_of_singleton, Hfr.
      destruct (decide (j = i)) as [->|Hne].
      * rewrite list_lookup_insert_eq by done. naive_solver.
      * rewrite list_lookup_insert_ne by done. naive_solver.
  - intros j q. simpl. rewrite lookup_delete_Some, (refines_lookup t m) by done.
    destruct (decide (j = i)) as [->|Hne].
    + rewrite list_lookup_insert_eq by done. naive_solver.
    + rewrite list_lookup_insert_ne by done. naive_solver.
Qed.

(** The indices of the pins of [o], counting from [i]. *)
Fixpoint owned_indices (o : PinOwner) (i : nat) s : list nat :=
  match s with
  | [] => []
  | slot :: rest =>
      if match slot with Some (o', _) => bool_decide (o' = o) | None => false end
      then i :: owned_indices o (S i) rest else owned_indices o (S i) rest
  end.

Definition cleared (o : PinOwner) (slot : option (Pin V)) : option (Pin V) :=
  if match slot with Some (o', _) => bool_decide (o' = o) | None => false end then None else slot.

Lemma unpin_loop_spec o s : ∀ i fr n,
  unpin_loop o i s fr n =
  (cleared o <$> s, fr ++ owned_indices o i s, (n + length (owned_indices o i s))%nat).
Proof.
  induction s as [|slot s IH]; intros i fr n; simpl; [by rewrite app_nil_r, Nat.add_0_r|].
  rewrite IH. unfold cleared at 2, vec_push.
  destruct (match slot with Some _ => _ | None => _ end); simpl; [|done].
  rewrite <-(assoc_L (++)). do 2 f_equal. lia.
Qed.

Lemma elem_of_owned_indices o s i j :
  j ∈ owned_indices o i s ↔ (i ≤ j)%nat ∧ ∃ v, s !! (j - i)%nat = Some (Some (o, v)).
Proof.
  revert i. induction s as [|slot s IH]; intros i; cbn [owned_indices].
  - split; [by intros ?%elem_of_nil|]. by intros [_ [? ?]].
  - assert ((i ≤ j)%nat ∧ (∃ v, (slot :: s) !! (j - i)%nat = Some (Some (o, v))) ↔
      (j = i ∧ ∃ v, slot = Some (o, v)) ∨
      ((S i ≤ j)%nat ∧ ∃ v, s !! (j - S i)%nat = Some (Some (o, v)))) as ->.
    { destruct (decide (j = i)) as [->|Hne].
      - rewrite Nat.sub_diag. simpl. split; [intros [_ [v [= ->]]]; left; eauto|].
        intros [[_ [v ->]]|[? _]]; [split; [lia|eauto]|lia].
      - split.
        + intros [Hi Hv]. right. split; [lia|]. by replace (j - i)%nat with (S (j - S i)) in Hv by lia.
        + intros [[? _]|[Hi Hv]]; [done|]. split; [lia|].
          by replace (j - i)%nat with (S (j - S i)) by lia. }
    rewrite <-IH. destruct slot as [[o' v]|]; [|naive_solver].
    destruct (bool_decide (o' = o)) eqn:E.
    + apply bool_decide_eq_true in E as ->. rewrite elem_of_cons. naive_solver.
    + apply bool_decide_eq_false in E. naive_solver.
Qed.

Lemma owned_indices_NoDup o s i : NoDup (owned_indices o i s).
Proof.
  revert i. induction s as [|slot s IH]; intros i; cbn [owned_indices]; [constructor|].
  assert (i ∉ owned_indices o (S i) s) by (rewrite elem_of_owned_indices; lia).
  destruct (match slot with Some _ => _ | None => _ end); [by constructor|done].
Qed.

Lemma unpin_owned_refines o t m :
  refines t m →
  refines (unpin_owned o t).1 (filter (λ ip, ¬ owned_by o ip.2) m).
Proof.
  intros Href. pose proof Href as [[Hnd Hfr] _].
  unfold unpin_owned. rewrite unpin_loop_spec. simpl.
  assert (∀ j, (cleared o <$> slots t) !! j = Some None ↔
    slots t !! j = Some None ∨ ∃ v, slots t !! j = Some (Some (o, v))) as Hcl.
  { intros j. rewrite list_lookup_fmap. unfold cleared.
    destruct (slots t !! j) as [[[o' v]|]|]; simpl; [|naive_solver..].
    case_bool_decide; naive_solver. }
  apply pins_refines_intro.
  - split; simpl.
    + apply NoDup_app. split_and!; [done| |apply owned_indices_NoDup].
      intros j Hj%Hfr [_ [v Hv]]%elem_of_owned_indices. rewrite Nat.sub_0_r in Hv. congruence.
    + intros j. rewrite elem_of_app, elem_of_owned_indices, Nat.sub_0_r, Hfr, Hcl.
      split; [naive_solver|]. intros [?|?]; [by left|right; split; [lia|done]].
  - intros j p. rewrite map_lookup_filter_Some, (refines_lookup t m) by done. simpl.
    rewrite list_lookup_fmap. unfold cleared, owned_by.
    destruct (slots t !! j) as [[[o' v]|]|]; simpl; [|naive_solver..].
    case_bool_decide; naive_solver.
Qed.

(** ** Counting *)

(** The pins of a slot vector with their indices, counting from [k]. *)
Fixpoint indexed (k : nat) s : list (nat * Pin V) :=
  match s with
  | [] => []
  | Some p :: rest => (k, p) :: indexed (S k) rest
  | None :: rest => indexed (S k) rest
  end.

Lemma elem_of_indexed k s i p :
  (i, p) ∈ indexed k s ↔ (k ≤ i)%nat ∧ s !! (i - k)%nat = Some (Some p).
Proof.
  revert k. induction s as [|slot s IH]; intros k; cbn [indexed].
  - split; [by intros ?%elem_of_nil|]. by intros [_ ?].
  - assert ((k ≤ i)%nat ∧ (slot :: s) !! (i - k)%nat = Some (Some p) ↔
      (i = k ∧ slot = Some p) ∨ ((S k ≤ i)%nat ∧ s !! (i - S k)%nat = Some (Some p))) as ->.
    { destruct (decide (i = k)) as [->|Hne].
      - rewrite Nat.sub_diag. simpl. split; [intros [_ [= ->]]; by left|].
        intros [[_ ->]|[? _]]; [done|lia].
      - split.
        + intros [Hi Hv]. right. split; [lia|]. by replace (i - k)%nat with (S (i - S k)) in Hv by lia.
        + intros [[? _]|[Hi Hv]]; [done|]. split; [lia|].
          by replace (i - k)%nat with (S (i - S k)) by lia. }
    destruct slot as [q|]; [|rewrite IH; naive_solver].
    rewrite elem_of_cons, IH. split; [intros [[= -> ->]|?]; auto|].
    intros [[-> [= ->]]|?]; auto.
Qed.

Lemma indexed_NoDup s k : NoDup (indexed k s).
Proof.
  revert k. induction s as [|[q|] s IH]; intros k; cbn [indexed]; [constructor| |done].
  constructor; [|done]. rewrite elem_of_indexed. lia.
Qed.

Lemma indexed_live s k : length (indexed k s) = length (filter is_Some s).
Proof.
  revert k. induction s as [|[q|] s IH]; intros k; cbn [indexed]; [done|..].
  - rewrite filter_cons_True by done. simpl. by rewrite IH.
  - by rewrite filter_cons_False by (by intros [? ?]).
Qed.

Lemma indexed_pins s k : snd <$> indexed k s = omap id s.
Proof.
  revert k. induction s as [|[q|] s IH]; intros k; cbn; [done|by rewrite <-(IH (S k))|apply IH].
Qed.

Lemma refines_to_list t m : refines t m → map_to_list m ≡ₚ indexed 0 (slots t).
Proof.
  intros Href. apply NoDup_Permutation; [apply NoDup_map_to_list|apply indexed_NoDup|].
  intros [i p]. rewrite elem_of_map_to_list, (refines_lookup t m), elem_of_indexed, Nat.sub_0_r by done.
  split; [split; [lia|done]|by intros [_ ?]].
Qed.

Lemma live_refines t m : refines t m → live t = size m.
Proof.
  intros Href. unfold live. rewrite <-(indexed_live _ 0), <-(refines_to_list t m) by done.
  apply length_map_to_list.
Qed.

Lemma unpin_owned_count o t m :
  refines t m → (unpin_owned o t).2 = size (filter (λ ip, owned_by o ip.2) m).
Proof.
  intros Href. unfold unpin_owned. rewrite unpin_loop_spec. simpl.
  rewrite <-length_map_to_list, <-(length_fmap fst (map_to_list _)).
  apply Permutation_length, NoDup_Permutation;
    [apply owned_indices_NoDup|apply NoDup_fst_map_to_list|].
  intros i. rewrite elem_of_owned_indices, Nat.sub_0_r, list_elem_of_fmap. split.
  - intros [_ [v Hv]]. exists (i, (o, v)). split; [done|].
    apply elem_of_map_to_list, map_lookup_filter_Some. split; [by apply (refines_lookup t m)|done].
  - intros ([j p] & -> & [Hj Ho]%elem_of_map_to_list%map_lookup_filter_Some).
    apply (refines_lookup t m) in Hj; [|done]. split; [lia|]. destruct p as [o' v].
    unfold owned_by in Ho. simpl in Ho. subst o'. by exists v.
Qed.

(** *** Counting by kind *)

Fixpoint assoc (k : string) (counts : list (string * nat)) : nat :=
  match counts with
  | [] => 0
  | (k', n) :: rest => if decide (k' = k) then n else assoc k rest
  end.

Definition counts_ok (counts : list (string * nat)) : Prop :=
  NoDup counts.*1 ∧ Forall (λ kn, 0 < kn.2)%nat counts.

Lemma count_kind_keys k counts x : x ∈ (count_kind k counts).*1 → x = k ∨ x ∈ counts.*1.
Proof.
  induction counts as [|[k' n] counts IH]; simpl; [set_solver|].
  destruct (decide (k' = k)); simpl; set_solver.
Qed.

Lemma count_kind_ok k counts : counts_ok counts → counts_ok (count_kind k counts).
Proof.
  unfold counts_ok. induction counts as [|[k' n] counts IH]; simpl; intros [Hnd Hpos].
  - split; [apply NoDup_singleton|]. repeat constructor.
  - apply Forall_cons in Hpos as [? Hpos]. apply NoDup_cons in Hnd as [Hni Hnd].
    destruct (decide (k' = k)) as [->|Hne]; simpl.
    + split; [by constructor|]. constructor; [simpl; lia|done].
    + destruct IH as [IH1 IH2]; [done|]. split; [|by constructor].
      constructor; [|done]. by intros [?|?]%count_kind_keys.
Qed.

Lemma assoc_count_kind k k0 counts :
  assoc k (count_kind k0 counts) = ((if decide (k = k0) then 1 else 0) + assoc k counts)%nat.
Proof.
  induction counts as [|[k' n] counts IH]; simpl.
  - destruct (decide (k0 = k)) as [->|]; [by rewrite decide_True|by rewrite decide_False by congruence].
  - destruct (decide (k' = k0)) as [->|Hne]; simpl.
    + destruct (decide (k0 = k)) as [->|]; [by rewrite decide_True|].
      by rewrite decide_False by congruence.
    + rewrite IH. destruct (decide (k' = k)) as [->|]; [|done]. by rewrite decide_False.
Qed.

Lemma assoc_elem k n counts :
  counts_ok counts → (k, n) ∈ counts ↔ (0 < n)%nat ∧ n = assoc k counts.
Proof.
  induction counts as [|[k' n'] counts IH]; simpl; intros [Hnd Hpos].
  - split; [by intros ?%elem_of_nil|lia].
  - simpl in Hnd. apply NoDup_cons in Hnd as [Hni Hnd]. apply Forall_cons in Hpos as [Hp Hpos].
    simpl in Hp. rewrite elem_of_cons, IH by done. destruct (decide (k' = k)) as [->|Hne].
    + split; [intros [[= ->]|[? ->]]|intros [? ->]; by left]; [done|].
      exfalso. apply Hni. apply list_elem_of_fmap.
      exists (k, assoc k counts). split; [done|]. by apply IH.
    + naive_solver.
Qed.

Lemma fold_counts ps : ∀ counts,
  counts_ok counts →
  let r := foldl (λ counts (p : Pin V), count_kind (kind p.1) counts) counts ps in
  counts_ok r ∧
  ∀ k, assoc k r = (length (filter (λ p : Pin V, kind p.1 = k) ps) + assoc k counts)%nat.
Proof.
  induction ps as [|p ps IH]; intros counts Hok; simpl; [done|].
  destruct (IH _ (count_kind_ok (kind p.1) counts Hok)) as [H1 H2]. split; [done|].
  intros k. rewrite H2, assoc_count_kind, filter_cons.
  destruct (decide (k = kind p.1)) as [->|Hne].
  - rewrite decide_True by done. simpl. lia.
  - rewrite decide_False by congruence. lia.
Qed.

Lemma filter_fmap_length {A B} (f : A → B) (Q : B → Prop) `{!∀ x, Decision (Q x)} (l : list A) :
  length (filter Q (f <$> l)) = length (filter (λ x, Q (f x)) l).
Proof.
  induction l as [|x l IH]; [done|]. rewrite fmap_cons, !filter_cons.
  destruct (decide (Q (f x))); [|exact IH]. cbn [length]. f_equal. exact IH.
Qed.

Lemma kind_count_refines t m k :
  refines t m →
  length (filter (λ p : Pin V, kind p.1 = k) (live_pins t)) =
  size (filter (λ ip, kind ip.2.1 = k) m).
Proof.
  intros Href. unfold live_pins. rewrite <-(indexed_pins _ 0), filter_fmap_length.
  rewrite <-length_map_to_list. apply Permutation_length, NoDup_Permutation.
  - apply NoDup_filter, indexed_NoDup.
  - apply NoDup_map_to_list.
  - intros [i p]. rewrite list_elem_of_filter, elem_of_map_to_list, map_lookup_filter_Some.
    rewrite <-(refines_to_list t m), elem_of_map_to_list by done. simpl. tauto.
Qed.

End props.

Section finding.
Context {V P : Type} `{EqDecision P} (as_object : V → option P).
Implicit Types (s : list (option (Pin V))).

Lemma find_pin_spec o ob s k :
  match find_pin as_object o ob k s with
  | Some i => (k ≤ i)%nat ∧ ∃ v, s !! (i - k)%nat = Some (Some (o, v)) ∧ as_object v = Some ob ∧
      ∀ j v', (j < i - k)%nat → s !! j = Some (Some (o, v')) → as_object v' ≠ Some ob
  | None => ∀ j v, s !! j = Some (Some (o, v)) → as_object v ≠ Some ob
  end.
Proof.
  revert k. induction s as [|slot s IH]; intros k; cbn [find_pin]; [done|].
  assert (match slot with
    | Some (o', v) => bool_decide (as_object v = Some ob) && bool_decide (o' = o)
    | None => false end = true ∧ find_pin as_object o ob k (slot :: s) = Some k ∨
    (∀ v, slot = Some (o, v) → as_object v ≠ Some ob) ∧
     find_pin as_object o ob k (slot :: s) = find_pin as_object o ob (S k) s) as H.
  { cbn [find_pin]. destruct slot as [[o' v]|]; [|by right].
    destruct (bool_decide (as_object v = Some ob) && bool_decide (o' = o)) eqn:E; [by left|right].
    split; [|done]. intros v' [= -> ->] Hv. rewrite !bool_decide_eq_true_2 in E by done. done. }
  cbn [find_pin] in H. destruct H as [[Hc ->]|[Hno ->]].
  - split; [done|]. rewrite Nat.sub_diag. destruct slot as [[o' v]|]; [|done].
    apply andb_true_iff in Hc as [?%bool_decide_eq_true ->%bool_decide_eq_true].
    exists v. split_and!; [done..|lia].
  - specialize (IH (S k)). destruct (find_pin as_object o ob (S k) s) as [i|].
    + destruct IH as (Hk & v & Hs & Hv & Hmin). split; [lia|]. exists v.
      assert (i - k = S (i - S k))%nat as -> by lia. split_and!; [done..|].
      intros [|j] v' Hj Hs'; simpl in Hs'; [by simplify_eq; apply Hno|]. apply (Hmin j); [lia|done].
    + intros [|j] v Hs'; simpl in Hs'; [by simplify_eq; apply Hno|]. eauto.
Qed.

End finding.

(** ** The operations, in sequence *)

Section machine.
Context {V P : Type} `{EqDecision P} (as_object : V → option P).
Implicit Types (t : PinTable (V:=V)) (m : gmap nat (Pin V)).

Inductive Op :=
| Pin_ (o : PinOwner) (v : V)
| PinOrFind (o : PinOwner) (v : V)
| Get (i : nat)
| GetAt (i : nat) (k : string)
| UnpinAt (i : nat) (k : string)
| Unpin (i : nat)
| UnpinOwned (o : PinOwner)
| Live
| CountsByKind.

Inductive Out :=
| OTicket (i : nat)
| OValue (v : option V)
| ODone
| OCount (n : nat)
| OCounts (l : list (string * nat)).

Definition step (op : Op) t : option (PinTable (V:=V) * Out) :=
  match op with
  | Pin_ o v => '(t', i) ← pin o v t; Some (t', OTicket i)
  | PinOrFind o v => '(t', i) ← pin_or_find as_object o v t; Some (t', OTicket i)
  | Get i => Some (t, OValue (get i t))
  | GetAt i k => Some (t, OValue (get_at i k t))
  | UnpinAt i k => Some (unpin_at i k t, ODone)
  | Unpin i => let '(t', v) := unpin i t in Some (t', OValue v)
  | UnpinOwned o => let '(t', n) := unpin_owned o t in Some (t', OCount n)
  | Live => Some (t, OCount (live t))
  | CountsByKind => Some (t, OCounts (counts_by_kind t))
  end.

Fixpoint run (ops : list Op) t : option (PinTable (V:=V) * list Out) :=
  match ops with
  | [] => Some (t, [])
  | op :: ops' =>
      '(t1, o) ← step op t;
      '(t2, os) ← run ops' t1;
      Some (t2, o :: os)
  end.

(** Owner [o] has object [ob] pinned under ticket [i]. *)
Definition hosts m (o : PinOwner) (ob : P) (i : nat) : Prop :=
  ∃ v, m !! i = Some (o, v) ∧ as_object v = Some ob.

Inductive spec_step m : Op → gmap nat (Pin V) → Out → Prop :=
| spec_pin o v i : m !! i = None → spec_step m (Pin_ o v) (<[i := (o, v)]> m) (OTicket i)
| spec_find o v ob i :
    as_object v = Some ob → hosts m o ob i → (∀ j, hosts m o ob j → (i ≤ j)%nat) →
    spec_step m (PinOrFind o v) m (OTicket i)
| spec_pin_new o v i :
    (∀ ob j, as_object v = Some ob → ¬ hosts m o ob j) → m !! i = None →
    spec_step m (PinOrFind o v) (<[i := (o, v)]> m) (OTicket i)
| spec_get i : spec_step m (Get i) m (OValue (snd <$> m !! i))
| spec_get_at i k o v :
    m !! i = Some (o, v) → kind o = k → spec_step m (GetAt i k) m (OValue (Some v))
| spec_get_foreign i k :
    (∀ o v, m !! i = Some (o, v) → kind o ≠ k) → spec_step m (GetAt i k) m (OValue None)
| spec_unpin_at i k o v :
    m !! i = Some (o, v) → kind o = k → spec_step m (UnpinAt i k) (delete i m) ODone
| spec_unpin_foreign i k :
    (∀ o v, m !! i = Some (o, v) → kind o ≠ k) → spec_step m (UnpinAt i k) m ODone
| spec_unpin i : spec_step m (Unpin i) (delete i m) (OValue (snd <$> m !! i))
| spec_unpin_owned o :
    spec_step m (UnpinOwned o) (filter (λ ip, ¬ owned_by o ip.2) m)
      (OCount (size (filter (λ ip, owned_by o ip.2) m)))
| spec_live : spec_step m Live m (OCount (size m))
| spec_counts l :
    Sorted kind_le l → NoDup l.*1 →
    (∀ k n, (k, n) ∈ l ↔ (0 < n)%nat ∧ n = size (filter (λ ip, kind ip.2.1 = k) m)) →
    spec_step m CountsByKind m (OCounts l).

Inductive spec_run : gmap nat (Pin V) → list Op → gmap nat (Pin V) → list Out → Prop :=
| spec_nil m : spec_run m [] m []
| spec_cons m op ops m1 o m2 os :
    spec_step m op m1 o → spec_run m1 ops m2 os → spec_run m (op :: ops) m2 (o :: os).

Lemma find_pin_hosts t m o ob :
  refines t m →
  match find_pin as_object o ob 0 (slots t) with
  | Some i => hosts m o ob i ∧ ∀ j, hosts m o ob j → (i ≤ j)%nat
  | None => ∀ j, ¬ hosts m o ob j
  end.
Proof.
  intros Href. pose proof (find_pin_spec as_object o ob (slots t) 0) as H.
  destruct (find_pin as_object o ob 0 (slots t)) as [i|].
  - rewrite Nat.sub_0_r in H. destruct H as (_ & v & Hs & Hv & Hmin). split.
    + exists v. split; [by apply (refines_lookup t m)|done].
    + intros j (v' & Hj & Hv'). apply (refines_lookup t m) in Hj; [|done].
      destruct (decide (j < i)%nat) as [Hlt|]; [|lia]. by destruct (Hmin _ _ Hlt Hj).
  - intros j (v & Hj & Hv). apply (refines_lookup t m) in Hj; [|done]. by eapply H.
Qed.

Lemma counts_spec t m :
  refines t m → spec_step m CountsByKind m (OCounts (counts_by_kind t)).
Proof.
  intros Href. unfold counts_by_kind.
  destruct (fold_counts (live_pins t) []) as [Hok Hassoc]; [split; constructor|].
  set (l := foldl _ _ _) in *.
  pose proof (merge_sort_Permutation kind_le l) as Hperm.
  constructor.
  - apply Sorted_merge_sort. intros a b. unfold kind_le. apply (total String.le).
  - rewrite Hperm. apply Hok.
  - intros k n. rewrite Hperm, (assoc_elem k n l) by done.
    rewrite Hassoc. simpl. rewrite Nat.add_0_r, (kind_count_refines t m) by done. done.
Qed.

Lemma pins_step_refines op t m :
  refines t m → ∃ t' m' o, step op t = Some (t', o) ∧ spec_step m op m' o ∧ refines t' m'.
Proof.
  intros Href. destruct op as [o v|o v|i|i k|i k|i|o| |]; simpl.
  - destruct (pin_refines o v t m Href) as (t' & i & -> & Hf & Href' & _). simpl.
    eexists _, _, _. split_and!; [done|by constructor|done].
  - unfold pin_or_find.
    destruct (pin_refines o v t m Href) as (t' & i & Hp & Hf & Href' & _).
    destruct (as_object v) as [ob|] eqn:Hv.
    + pose proof (find_pin_hosts t m o ob Href) as Hfind.
      destruct (find_pin as_object o ob 0 (slots t)) as [j|].
      * destruct Hfind. simpl. eexists _, _, _. split_and!; [done|by econstructor|done].
      * rewrite Hp. simpl. eexists _, _, _. split_and!; [done|apply spec_pin_new; [|done]|done].
        intros ob' j E. simplify_eq. apply Hfind.
    + rewrite Hp. simpl. eexists _, _, _. split_and!; [done|apply spec_pin_new; [|done]|done].
      intros ob j E. congruence.
  - eexists _, _, _. split_and!; [done| |done]. unfold get. destruct Href as [_ <-]. constructor.
  - eexists _, _, _. split_and!; [done| |done]. unfold get_at.
    destruct (slots t !! i) as [[[o v]|]|] eqn:Hs; [destruct (decide (kind o = k))|..].
    + eapply spec_get_at; [by apply (refines_lookup t m)|done].
    + apply spec_get_foreign. intros o' v' H. apply (refines_lookup t m) in H; [|done]. by simplify_eq.
    + apply spec_get_foreign. intros o' v' H. apply (refines_lookup t m) in H; [|done]. by simplify_eq.
    + apply spec_get_foreign. intros o' v' H. apply (refines_lookup t m) in H; [|done]. by simplify_eq.
  - unfold unpin_at.
    destruct (slots t !! i) as [[[o v]|]|] eqn:Hs; [destruct (decide (kind o = k))|..].
    + eexists _, _, _. split_and!; [done| |by eapply clear_refines].
      eapply spec_unpin_at; [by apply (refines_lookup t m)|done].
    + eexists _, m, _. split_and!; [done| |done]. apply spec_unpin_foreign.
      intros o' v' H. apply (refines_lookup t m) in H; [|done]. by simplify_eq.
    + eexists _, m, _. split_and!; [done| |done]. apply spec_unpin_foreign.
      intros o' v' H. apply (refines_lookup t m) in H; [|done]. by simplify_eq.
    + eexists _, m, _. split_and!; [done| |done]. apply spec_unpin_foreign.
      intros o' v' H. apply (refines_lookup t m) in H; [|done]. by simplify_eq.
  - unfold unpin. pose proof Href as [_ Hm]. pose proof (Hm i) as Hi.
    destruct (slots t !! i) as [[[o v]|]|] eqn:Hs; simpl in Hi.
    + eexists _, (delete i m), _. split_and!; [done| |by eapply clear_refines].
      replace (Some v) with (snd <$> m !! i) by by rewrite Hi. constructor.
    + eexists _, (delete i m), _. rewrite delete_id by done. split_and!; [done| |done].
      replace None with (snd <$> m !! i) by by rewrite Hi.
      rewrite <-(delete_id m i Hi) at 2. constructor.
    + eexists _, (delete i m), _. rewrite delete_id by done. split_and!; [done| |done].
      replace None with (snd <$> m !! i) by by rewrite Hi.
      rewrite <-(delete_id m i Hi) at 2. constructor.
  - pose proof (unpin_owned_refines o t m Href) as Hr. pose proof (unpin_owned_count o t m Href) as Hc.
    destruct (unpin_owned o t) as [t' n]. simpl in Hr, Hc. subst n.
    eexists _, _, _. split_and!; [done|constructor|done].
  - eexists _, m, _. rewrite (live_refines t m) by done. split_and!; [done|constructor|done].
  - eexists _, m, _. split_and!; [done|by apply counts_spec|done].
Qed.

(** The pin table implements a map from tickets to pins.  Any sequence of
    its operations runs without panicking and simulates the same sequence on a
    finite map: pinning answers a ticket that was not live; pinning an object
    its owner already pinned answers that (least) ticket and pins nothing;
    the index accessors act only on a pin of the given kind; releasing an
    owner removes exactly its pins and counts them; and the counts by kind are
    sorted, list each live kind once and add up exactly its pins. *)
Theorem pin_table_implements_map ops t m :
  refines t m →
  ∃ t' m' outs, run ops t = Some (t', outs) ∧ spec_run m ops m' outs ∧ refines t' m'.
Proof.
  revert t m. induction ops as [|op ops IH]; intros t m Href; simpl.
  - exists t, m, []. split_and!; [done|constructor|done].
  - destruct (pins_step_refines op t m Href) as (t1 & m1 & o & -> & Hspec & Href1). simpl.
    destruct (IH t1 m1 Href1) as (t2 & m2 & outs & -> & Hrun & Href2). simpl.
    exists t2, m2, (o :: outs). split_and!; [done|by econstructor|done].
Qed.

(** A released ticket is reused at once.  After a pin is released, the very
    next pin gets the same ticket, so a stale copy of the released ticket then
    resolves to the other owner's value instead of to nothing. *)
Theorem released_ticket_is_reused t m i o v o' w :
  refines t m → m !! i = Some (o, v) →
  let t1 := (unpin i t).1 in
  get i t1 = None ∧ ∃ t2, pin o' w t1 = Some (t2, i) ∧ get i t2 = Some w.
Proof.
  intros Href Hi. apply (refines_lookup t m) in Hi as Hs; [|done]. cbn zeta.
  unfold unpin. rewrite Hs. cbn [fst].
  pose proof (lookup_lt_Some _ _ _ Hs) as Hlt. split.
  - unfold get. simpl. by rewrite list_lookup_insert_eq.
  - unfold pin. simpl. rewrite vec_pop_push, list_lookup_insert_eq by done. simpl.
    eexists. split; [done|]. unfold get. simpl.
    rewrite list_lookup_insert_eq; [done|]. by rewrite length_insert.
Qed.

End machine.

(** ** Witnesses *)

Definition demo_ops : list (Op (V:=nat)) :=
  [Pin_ (mkOwner "chan" 1) 7%nat; PinOrFind (mkOwner "hosted" 2) 8%nat;
   PinOrFind (mkOwner "hosted" 2) 8%nat; Unpin 0; CountsByKind].

Lemma pin_table_implements_map_witness :
  ∃ t' m' outs, run Some demo_ops empty_pins = Some (t', outs) ∧
    spec_run Some ∅ demo_ops m' outs ∧ refines t' m'.
Proof. exact (pin_table_implements_map Some demo_ops empty_pins ∅ pins_refines_empty). Defined.

Lemma released_ticket_is_reused_witness :
  let t := mkPins [Some (mkOwner "chan" 1, 7%nat)] [] in
  get 0 (unpin 0 t).1 = None ∧
  ∃ t2, pin (mkOwner "hosted" 2) 9%nat (unpin 0 t).1 = Some (t2, 0%nat) ∧ get 0 t2 = Some 9%nat.
Proof.
  pose (t := mkPins [Some (mkOwner "chan" 1, 7%nat)] []).
  assert (refines t {[0%nat := (mkOwner "chan" 1, 7%nat)]}) as Href.
  { apply pins_refines_intro.
    - split; simpl; [constructor|]. intros [|i]; (split; [by intros ?%elem_of_nil|done]).
    - intros [|i] p; simpl.
      + rewrite lookup_singleton_eq. naive_solver.
      + rewrite lookup_singleton_ne by done. naive_solver. }
  apply (released_ticket_is_reused t _ 0 (mkOwner "chan" 1) 7%nat (mkOwner "hosted" 2) 9%nat Href).
  reflexivity.
Defined.
