(* ===== verification/Types.v ===== *)
(** * The static type lattice (src/src/types.rs)

    [Type] with its annotation syntax, gradual compatibility, join, and the
    substitution and unification of type variables.  Annotation strings are
    lists of ASCII characters: the code only inspects ASCII characters, which
    UTF-8 never uses inside a longer sequence (its [trim] would also drop
    non-ASCII white space, which is not modelled). *)
From S2P Require Import Prelude.
From stdpp Require Import base numbers list gmap strings.
From Stdlib Require String.
From Stdlib Require Import Ascii.
From stdpp Require Import options.
#[local] Set Warnings "-register-all".

Abbreviation str := (list ascii).

(** A literal. *)
Definition L (s : String.string) : str := String.list_ascii_of_string s.

(** ** Type *)

Inductive Ty :=
| Int | Double | Bool | String_ | Nil
| List_ | Map_ | Set_ | Block
| ListOf (t : Ty)
| MapOf (k v : Ty)
| SetOf (t : Ty)
| BlockOf (params : list Ty) (ret : Ty)
| Var (n : str)
| Instance_ (n : str)
| Nullable (t : Ty)
| Any
| Never.

Section Ty_ind.
Variable P : Ty → Prop.
Hypothesis HInt : P Int.
Hypothesis HDouble : P Double.
Hypothesis HBool : P Bool.
Hypothesis HString : P String_.
Hypothesis HNil : P Nil.
Hypothesis HList : P List_.
Hypothesis HMap : P Map_.
Hypothesis HSet : P Set_.
Hypothesis HBlock : P Block.
Hypothesis HListOf : ∀ t, P t → P (ListOf t).
Hypothesis HMapOf : ∀ k v, P k → P v → P (MapOf k v).
Hypothesis HSetOf : ∀ t, P t → P (SetOf t).
Hypothesis HBlockOf : ∀ ps r, Forall P ps → P r → P (BlockOf ps r).
Hypothesis HVar : ∀ n, P (Var n).
Hypothesis HInstance : ∀ n, P (Instance_ n).
Hypothesis HNullable : ∀ t, P t → P (Nullable t).
Hypothesis HAny : P Any.
Hypothesis HNever : P Never.

Fixpoint Ty_ind' (t : Ty) : P t :=
  match t with
  | Int => HInt | Double => HDouble | Bool => HBool | String_ => HString | Nil => HNil
  | List_ => HList | Map_ => HMap | Set_ => HSet | Block => HBlock
  | ListOf t => HListOf t (Ty_ind' t)
  | MapOf k v => HMapOf k v (Ty_ind' k) (Ty_ind' v)
  | SetOf t => HSetOf t (Ty_ind' t)
  | BlockOf ps r =>
      HBlockOf ps r
        ((fix go (l : list Ty) : Forall P l :=
            match l with
            | [] => Forall_nil_2 _
            | x :: l' => Forall_cons_2 _ x l' (Ty_ind' x) (go l')
            end) ps)
        (Ty_ind' r)
  | Var n => HVar n | Instance_ n => HInstance n
  | Nullable t => HNullable t (Ty_ind' t)
  | Any => HAny | Never => HNever
  end.
End Ty_ind.

(** The derived equality of the enum. *)
Fixpoint ty_eqb (a b : Ty) {struct a} : bool :=
  match a, b with
  | Int, Int | Double, Double | Bool, Bool | String_, String_ | Nil, Nil => true
  | List_, List_ | Map_, Map_ | Set_, Set_ | Block, Block | Any, Any | Never, Never => true
  | ListOf a, ListOf b | SetOf a, SetOf b | Nullable a, Nullable b => ty_eqb a b
  | MapOf ak av, MapOf bk bv => ty_eqb ak bk && ty_eqb av bv
  | BlockOf ap ar, BlockOf bp br =>
      (fix go (l l' : list Ty) : bool :=
         match l, l' with
         | [], [] => true
         | x :: l, y :: l' => ty_eqb x y && go l l'
         | _, _ => false
         end) ap bp && ty_eqb ar br
  | Var a, Var b | Instance_ a, Instance_ b => bool_decide (a = b)
  | _, _ => false
  end.

Lemma ty_eqb_spec a : ∀ b, ty_eqb a b = true ↔ a = b.
Proof.
  induction a as [ | | | | | | | | |t IH|k v IHk IHv|t IH|ps r IHps IHr|n|n|t IH| | ]
    using Ty_ind'; intros b; destruct b; simpl; try (split; congruence);
    rewrite ?andb_true_iff, ?IH, ?IHk, ?IHv, ?IHr, ?bool_decide_eq_true;
    try (split; [by intros ->|congruence]); [split; [by intros [-> ->]|intros [= -> ->]; done]|].
  assert (∀ l', (fix go (l l' : list Ty) : bool :=
         match l, l' with
         | [], [] => true
         | x :: l, y :: l' => ty_eqb x y && go l l'
         | _, _ => false
         end) ps l' = true ↔ ps = l') as ->.
  { induction IHps as [|x l Hx _ IHl]; intros [|y l']; try (split; congruence).
    rewrite andb_true_iff, Hx, IHl. split; [by intros [-> ->]|intros [= -> ->]; done]. }
  split; [by intros [-> ->]|intros [= -> ->]; done].
Qed.

#[export] Instance Ty_eq_dec : EqDecision Ty.
Proof.
  intros a b. destruct (ty_eqb a b) eqn:E; [left; by apply ty_eqb_spec|right].
  intros H%ty_eqb_spec. congruence.
Defined.

Fixpoint ty_size (t : Ty) : nat :=
  match t with
  | ListOf t | SetOf t | Nullable t => S (ty_size t)
  | MapOf k v => S (ty_size k + ty_size v)
  | BlockOf ps r => S (sum_list (map ty_size ps) + ty_size r)
  | _ => 1
  end.

Fixpoint contains_var (t : Ty) : bool :=
  match t with
  | Var _ => true
  | Nullable t | ListOf t | SetOf t => contains_var t
  | MapOf k v => contains_var k || contains_var v
  | BlockOf ps r => existsb contains_var ps || contains_var r
  | _ => false
  end.

(** ** Annotation names *)

Definition strip_suffix (c : ascii) (s : str) : option str :=
  match vec_pop s with Some (x, s') => if decide (x = c) then Some s' else None | None => None end.
Definition strip_prefix (c : ascii) (s : str) : option str :=
  match s with x :: s' => if decide (x = c) then Some s' else None | [] => None end.

Definition builtin_of (name : str) : Ty :=
  if decide (name = L "Integer") then Int
  else if decide (name = L "Double") then Double
  else if decide (name = L "Boolean") then Bool
  else if decide (name = L "String") then String_
  else if decide (name = L "Nil") then Nil
  else if decide (name = L "List") then List_
  else if decide (name = L "Map") then Map_
  else if decide (name = L "Set") then Set_
  else if decide (name = L "Block") then Block
  else if decide (name = L "Object") then Any
  else Instance_ name.

Fixpoint from_name_fuel (fuel : nat) (name : str) : Ty :=
  match fuel with
  | O => Any
  | S fuel =>
      match strip_suffix "?" name with
      | Some base =>
          match from_name_fuel fuel base with Any => Any | inner => Nullable inner end
      | None => builtin_of name
      end
  end.

(** Each step drops a character: [S (length name)] levels are enough. *)
Definition from_annotation_name (name : str) : Ty := from_name_fuel (S (length name)) name.

(** ** Compatibility *)

(** One level of the test, with [rec] for the recursive calls. *)
Definition compat_body (rec : Ty → Ty → bool) (self expected : Ty) : bool :=
  if contains_var self || contains_var expected then true
  else match self, expected with
  | Any, _ | _, Any => true
  | Var _, _ | _, Var _ => true
  | ListOf _, List_ | MapOf _ _, Map_ | SetOf _, Set_ => true
  | ListOf a, ListOf b | SetOf a, SetOf b => ty_eqb a b
  | MapOf ak av, MapOf ek ev =>
      (ty_eqb ak ek || ty_eqb ak Any || ty_eqb ek Any) && (ty_eqb av ev || ty_eqb ev Any)
  | BlockOf _ _, Block | Block, BlockOf _ _ => true
  | BlockOf ap ar, BlockOf ep er =>
      forallb (λ ea, rec ea.1 ea.2) (zip ep ap) && rec ar er
  | Never, _ => true
  | _, Nullable inner =>
      match self with
      | Nil => true
      | Nullable a => rec a inner
      | other => rec other inner
      end
  | Nullable _, _ => false
  | a, b => ty_eqb a b
  end.

Fixpoint compat_fuel (fuel : nat) (self expected : Ty) : bool :=
  match fuel with
  | O => false
  | S fuel => compat_body (compat_fuel fuel) self expected
  end.

(** Each level shrinks the pair: the two sizes are enough fuel. *)
Definition compatible_with (self expected : Ty) : bool :=
  compat_fuel (ty_size self + ty_size expected) self expected.

(** ** Join *)

Definition split_nil (t : Ty) : option Ty * bool :=
  match t with
  | Nil => (None, true)
  | Nullable inner => (Some inner, true)
  | other => (Some other, false)
  end.

(** The first match of the code: the absorbing and the neutral type. *)
Definition join_bounds (self other : Ty) : option Ty :=
  match self, other with
  | Any, _ | _, Any => Some Any
  | Never, t | t, Never => Some t
  | _, _ => None
  end.

(** The second one: differing instances of a generic builtin. *)
Definition join_bare (self other : Ty) : option Ty :=
  match self, other with
  | ListOf _, ListOf _ | ListOf _, List_ | List_, ListOf _ => Some List_
  | MapOf _ _, MapOf _ _ | MapOf _ _, Map_ | Map_, MapOf _ _ => Some Map_
  | SetOf _, SetOf _ | SetOf _, Set_ | Set_, SetOf _ => Some Set_
  | BlockOf _ _, BlockOf _ _ | BlockOf _ _, Block | Block, BlockOf _ _ => Some Block
  | _, _ => None
  end.

(** The last one: cores and nils. *)
Definition join_cores (self other : Ty) : Ty :=
  let '(a, a_nil) := split_nil self in
  let '(b, b_nil) := split_nil other in
  let wrap (t : Ty) := if a_nil || b_nil then Nullable t else t in
  match a, b with
  | None, None => Nil
  | Some t, None | None, Some t => wrap t
  | Some x, Some y => if ty_eqb x y then wrap x else Any
  end.

Definition join (self other : Ty) : Ty :=
  match join_bounds self other with
  | Some t => t
  | None =>
      if ty_eqb self other then self
      else match join_bare self other with
           | Some t => t
           | None => join_cores self other
           end
  end.

(** ** Parsing annotation strings *)

Definition is_space (c : ascii) : bool :=
  bool_decide (c = " "%char ∨ (9 ≤ nat_of_ascii c ≤ 13)%nat).

Fixpoint trim_start (s : str) : str :=
  match s with c :: s' => if is_space c then trim_start s' else s | [] => [] end.
Definition trim (s : str) : str := reverse (trim_start (reverse (trim_start s))).

(** [s.find(c)] then [split_at]: the text before the first [c], and the rest. *)
Fixpoint split_at_char (c : ascii) (s : str) : option (str * str) :=
  match s with
  | [] => None
  | x :: s' =>
      if decide (x = c) then Some ([], s)
      else match split_at_char c s' with Some (a, b) => Some (x :: a, b) | None => None end
  end.

(** Split at spaces outside parentheses; [cur] is [args_src[start..i]]. *)
Fixpoint split_args (depth : nat) (cur : str) (s : str) : list str :=
  match s with
  | [] => if decide (cur = []) then [] else [cur]
  | c :: s' =>
      if decide (c = "("%char) then split_args (S depth) (cur ++ [c]) s'
      else if decide (c = ")"%char) then split_args (depth - 1) (cur ++ [c]) s'
      else if decide (c = " "%char ∧ depth = 0) then
        (if decide (cur = []) then [] else [cur]) ++ split_args depth [] s'
      else split_args depth (cur ++ [c]) s'
  end.

(** The loop over the tokens of [Block(..)]: parameters in order, the last
    [^]-token is the return type. *)
Fixpoint block_tokens (parse : str → Ty) (args : list str) (params : list Ty) (ret : Ty) : Ty :=
  match args with
  | [] => BlockOf params ret
  | a :: args' =>
      match strip_prefix "^" a with
      | Some r => block_tokens parse args' params (parse r)
      | None => block_tokens parse args' (vec_push params (parse a)) ret
      end
  end.

(** A base name applied to argument tokens. *)
Definition parse_generic (parse : str → Ty) (base : str) (args : list str) : Ty :=
  if decide (base = L "Block") then block_tokens parse args [] Any
  else if decide (base = L "List") then
    match args with [a] => ListOf (parse a) | _ => from_annotation_name base end
  else if decide (base = L "Set") then
    match args with [a] => SetOf (parse a) | _ => from_annotation_name base end
  else if decide (base = L "Map") then
    match args with [k; v] => MapOf (parse k) (parse v) | _ => from_annotation_name base end
  else from_annotation_name base.

Fixpoint parse_fuel (fuel : nat) (s : str) (vars : list str) : Ty :=
  match fuel with
  | O => Any
  | S fuel =>
      let s := trim s in
      match strip_suffix "?" s with
      | Some base =>
          match parse_fuel fuel base vars with
          | Any => Any
          | Nullable t => Nullable t
          | t => Nullable t
          end
      | None =>
          match split_at_char "(" s with
          | Some (base, rest) =>
              match strip_prefix "(" rest ≫= strip_suffix ")" with
              | None => from_annotation_name s
              | Some args_src =>
                  parse_generic (λ a, parse_fuel fuel a vars) base (split_args 0 [] args_src)
              end
          | None => if decide (s ∈ vars) then Var s else from_annotation_name s
          end
      end
  end.

(** Every recursive call is on a shorter string. *)
Definition parse_annotation_str (s : str) (vars : list str) : Ty :=
  parse_fuel (S (length s)) s vars.

(** ** Variables *)

Abbreviation Bindings := (gmap str Ty).

Definition renull (t : Ty) : Ty :=
  match t with Any => Any | Nullable inner => Nullable inner | inner => Nullable inner end.

Fixpoint substitute_bound (bindings : Bindings) (t : Ty) : Ty :=
  match t with
  | Var n => default t (bindings !! n)
  | Nullable t => renull (substitute_bound bindings t)
  | ListOf t => ListOf (substitute_bound bindings t)
  | MapOf k v => MapOf (substitute_bound bindings k) (substitute_bound bindings v)
  | SetOf t => SetOf (substitute_bound bindings t)
  | BlockOf ps r => BlockOf (map (substitute_bound bindings) ps) (substitute_bound bindings r)
  | other => other
  end.

Fixpoint substitute (bindings : Bindings) (t : Ty) : Ty :=
  match t with
  | Var n => default Any (bindings !! n)
  | Nullable t => renull (substitute bindings t)
  | ListOf t => ListOf (substitute bindings t)
  | MapOf k v => MapOf (substitute bindings k) (substitute bindings v)
  | SetOf t => SetOf (substitute bindings t)
  | BlockOf ps r => BlockOf (map (substitute bindings) ps) (substitute bindings r)
  | other => other
  end.

Definition bind_var (n : str) (a : Ty) (bindings : Bindings) : Bindings :=
  match bindings !! n with
  | None => <[n := a]> bindings
  | Some prev => if ty_eqb prev a then bindings else <[n := Any]> bindings
  end.

Fixpoint unify_into (decl actual : Ty) (bindings : Bindings) {struct decl} : Bindings :=
  match actual with
  | Any => bindings
  | _ =>
      match decl with
      | Var n => bind_var n actual bindings
      | ListOf d => match actual with ListOf a => unify_into d a bindings | _ => bindings end
      | SetOf d => match actual with SetOf a => unify_into d a bindings | _ => bindings end
      | MapOf dk dv =>
          match actual with
          | MapOf ak av => unify_into dv av (unify_into dk ak bindings)
          | _ => bindings
          end
      | BlockOf dp dr =>
          match actual with
          | BlockOf ap ar =>
              unify_into dr ar
                ((fix go (ds as_ : list Ty) (b : Bindings) : Bindings :=
                    match ds, as_ with
                    | d :: ds', a :: as_' => go ds' as_' (unify_into d a b)
                    | _, _ => b
                    end) dp ap bindings)
          | _ => bindings
          end
      | Nullable d =>
          match actual with
          | Nullable a => unify_into d a bindings
          | a => unify_into d a bindings
          end
      | _ => bindings
      end
  end.

(** ** Printing *)

(** [params.join(" ")]. *)
Fixpoint join_spaces (ss : list str) : str :=
  match ss with
  | [] => []
  | [s] => s
  | s :: ss' => s ++ L " " ++ join_spaces ss'
  end.

Fixpoint name (t : Ty) : str :=
  match t with
  | Int => L "Integer" | Double => L "Double" | Bool => L "Boolean" | String_ => L "String"
  | Nil => L "Nil" | List_ => L "List" | Map_ => L "Map" | Set_ => L "Set" | Block => L "Block"
  | ListOf t => L "List(" ++ name t ++ L ")"
  | MapOf k v => L "Map(" ++ name k ++ L " " ++ name v ++ L ")"
  | SetOf t => L "Set(" ++ name t ++ L ")"
  | BlockOf ps r =>
      let ret := match r with
                 | Any => []
                 | r => match ps with [] => L "^" ++ name r | _ => L " ^" ++ name r end
                 end in
      L "Block(" ++ join_spaces (map name ps) ++ ret ++ L ")"
  | Var n => n
  | Instance_ n => n
  | Nullable inner => name inner ++ L "?"
  | Any => L "Any"
  | Never => L "Never"
  end.

(** ** Known type names *)

Definition BUILTIN_CLASS_NAMES : list str :=
  map L ["Integer"; "Double"; "Boolean"; "String"; "Nil"; "List"; "Map"; "Set"; "Block"; "Object";
         "Symbol"; "Range"; "Regex"; "Bytes"; "Method"; "Class"]%string.

Definition SeenTypes := gset str.
Definition with_builtins : SeenTypes := list_to_set BUILTIN_CLASS_NAMES.
Definition seen_insert (n : str) (s : SeenTypes) : SeenTypes := {[n]} ∪ s.
Definition seen_contains (n : str) (s : SeenTypes) : bool := bool_decide (n ∈ s).
