(* ===== verification/TypesProps.v ===== *)
(** * Theorems on the static type lattice (src/src/types.rs)

    Compatibility and join (with the flat types on which join is a least upper
    bound), substitution, unification, and the round trip through the
    annotation syntax. *)
From Stdlib Require Import Ascii.
From stdpp Require Import base numbers list gmap strings.
From stdpp Require Import options.
From S2P Require Import Prelude Types.
From Stdlib Require String.
#[local] Set Warnings "-clear-no-such-hyp".

(** ** Compatibility: fuel and the unfolding equation *)

Lemma ty_size_pos t : 1 ≤ ty_size t.
Proof. destruct t; simpl; lia. Qed.

Lemma sum_list_size_elem (l : list Ty) x : x ∈ l → ty_size x ≤ sum_list (map ty_size l).
Proof. induction 1; simpl; lia. Qed.

Lemma zip_elem_size (l l' : list Ty) p :
  p ∈ zip l l' →
  ty_size p.1 ≤ sum_list (map ty_size l) ∧ ty_size p.2 ≤ sum_list (map ty_size l').
Proof.
  destruct p as [x y]. intros H. split; apply sum_list_size_elem.
  - by eapply elem_of_zip_l.
  - by eapply elem_of_zip_r.
Qed.

Lemma forallb_ext_elem {A} (f g : A → bool) l :
  (∀ x, x ∈ l → f x = g x) → forallb f l = forallb g l.
Proof.
  induction l as [|x l IH]; intros H; [done|]. simpl.
  rewrite (H x), IH; [done| |left]. intros y Hy. apply H. by right.
Qed.

(** Two recursors that agree below the size of the pair give the same body. *)
Lemma compat_body_ext (r1 r2 : Ty → Ty → bool) a b :
  (∀ a' b', ty_size a' + ty_size b' < ty_size a + ty_size b → r1 a' b' = r2 a' b') →
  compat_body r1 a b = compat_body r2 a b.
Proof.
  intros H. unfold compat_body. destruct (contains_var a || contains_var b); [done|].
  destruct a as [ | | | | | | | | | | | |ps r| | | | | ], b as [ | | | | | | | | | | | |ps' r'| | | | | ];
    simpl in H; try done; try (apply H; simpl; lia).
  f_equal; [|apply H; lia].
  apply forallb_ext_elem. intros p Hp%zip_elem_size. apply H. lia.
Qed.

Lemma compat_fuel_enough n : ∀ m a b,
  ty_size a + ty_size b ≤ n → ty_size a + ty_size b ≤ m → compat_fuel n a b = compat_fuel m a b.
Proof.
  induction n as [|n IH]; intros [|m] a b Hn Hm; pose proof (ty_size_pos a); try lia.
  simpl. apply compat_body_ext. intros a' b' ?. apply IH; lia.
Qed.

(** The recursion of the code: [compatible_with] calls itself in its body. *)
Lemma compatible_with_unfold a b : compatible_with a b = compat_body compatible_with a b.
Proof.
  unfold compatible_with at 1. pose proof (ty_size_pos a).
  destruct (ty_size a + ty_size b) as [|n] eqn:E; [lia|]. simpl.
  apply compat_body_ext. intros a' b' ?. apply compat_fuel_enough; lia.
Qed.

Lemma ty_eqb_refl t : ty_eqb t t = true.
Proof. by apply ty_eqb_spec. Qed.

Lemma ty_eqb_sym a b : ty_eqb a b = ty_eqb b a.
Proof.
  destruct (ty_eqb b a) eqn:E; [apply ty_eqb_spec in E as ->; apply ty_eqb_refl|].
  destruct (ty_eqb a b) eqn:E'; [|done]. apply ty_eqb_spec in E' as ->.
  by rewrite ty_eqb_refl in E.
Qed.

Lemma ty_eqb_neq a b : a ≠ b → ty_eqb a b = false.
Proof. intros H. destruct (ty_eqb a b) eqn:E; [by apply ty_eqb_spec in E|done]. Qed.

(** Case analysis on every [ty_eqb] of the goal. *)
Ltac ty_cases :=
  repeat match goal with
  | |- context [ty_eqb ?a ?b] =>
      let E := fresh "E" in
      destruct (ty_eqb a b) eqn:E; [apply ty_eqb_spec in E|]
  end.

Lemma compat_refl t : compatible_with t t = true.
Proof.
  induction t as [ | | | | | | | | |t IH|k v IHk IHv|t IH|ps r IHps IHr|n|n|t IH| | ]
    using Ty_ind'; rewrite compatible_with_unfold; unfold compat_body;
    destruct (_ || _); try done; rewrite ?ty_eqb_refl; try done.
  - rewrite IHr, andb_true_r. induction IHps as [|p ps Hp _ IHl]; [done|].
    simpl. by rewrite Hp.
Qed.

Lemma compat_any t : compatible_with t Any = true.
Proof.
  rewrite compatible_with_unfold. unfold compat_body. destruct (_ || _); [done|]. by destruct t.
Qed.

Lemma compat_never t : compatible_with Never t = true.
Proof.
  rewrite compatible_with_unfold. unfold compat_body. destruct (_ || _); [done|]. by destruct t.
Qed.

Lemma compat_nil_nullable t : compatible_with Nil (Nullable t) = true.
Proof.
  rewrite compatible_with_unfold. unfold compat_body. by destruct (_ || _).
Qed.

Lemma compat_nullable_refl t : compatible_with t (Nullable t) = true.
Proof.
  induction t; rewrite compatible_with_unfold; unfold compat_body; destruct (_ || _);
    rewrite ?compat_refl; done.
Qed.

(** ** Join *)

#[local] Arguments ty_eqb : simpl never.

Lemma join_bounds_comm a b : join_bounds a b = join_bounds b a.
Proof. by destruct a, b. Qed.

Lemma join_bare_comm a b : join_bare a b = join_bare b a.
Proof. by destruct a, b. Qed.

Lemma join_cores_comm a b : join_cores a b = join_cores b a.
Proof.
  unfold join_cores. destruct (split_nil a) as [[x|] []], (split_nil b) as [[y|] []]; simpl;
    rewrite ?(ty_eqb_sym y x); ty_cases; by subst.
Qed.

Lemma join_comm a b : join a b = join b a.
Proof.
  unfold join. rewrite join_bounds_comm, join_bare_comm, join_cores_comm, ty_eqb_sym.
  destruct (join_bounds b a); [done|].
  destruct (ty_eqb b a) eqn:E; [by apply ty_eqb_spec in E|done].
Qed.

Lemma join_idemp t : join t t = t.
Proof. unfold join. rewrite ty_eqb_refl. by destruct t. Qed.

Lemma join_bounds_upper a b t : join_bounds a b = Some t → compatible_with a t = true.
Proof.
  destruct a, b; intros [= <-];
    first [apply compat_refl|apply compat_any|apply compat_never].
Qed.

Lemma join_bare_upper a b t : join_bare a b = Some t → compatible_with a t = true.
Proof.
  destruct a, b; intros [= <-]; rewrite compatible_with_unfold; unfold compat_body;
    by destruct (_ || _).
Qed.

Lemma join_cores_upper a b : compatible_with a (join_cores a b) = true.
Proof.
  unfold join_cores. destruct (decide (a = Nil)) as [->|Ha]; simpl.
  { destruct (split_nil b) as [[y|] []] eqn:E; simpl; try apply compat_nil_nullable;
      destruct b; try discriminate E; try apply compat_refl; by injection E as <-. }
  destruct a; simpl; destruct (split_nil b) as [[y|] []]; simpl; ty_cases; subst;
    first [apply compat_refl|apply compat_any|apply compat_nullable_refl|done].
Qed.

Lemma join_upper_l a b : compatible_with a (join a b) = true.
Proof.
  unfold join. destruct (join_bounds a b) eqn:E; [by eapply join_bounds_upper|].
  destruct (ty_eqb a b); [apply compat_refl|].
  destruct (join_bare a b) eqn:E'; [by eapply join_bare_upper|apply join_cores_upper].
Qed.

(** ** Flat types: the nil lattice *)

(** A core: a concrete, uninstantiated type other than nil. *)
Definition core (t : Ty) : bool :=
  match t with
  | Int | Double | Bool | String_ | List_ | Map_ | Set_ | Block | Instance_ _ => true
  | _ => false
  end.
Definition flat (t : Ty) : bool :=
  match t with Any | Never | Nil => true | Nullable t => core t | t => core t end.

(** The order of the nil lattice. *)
Definition nil_le (a b : Ty) : bool :=
  ty_eqb a b || ty_eqb a Never || ty_eqb b Any
  || match a, b with Nil, Nullable _ => true | _, Nullable b => ty_eqb a b | _, _ => false end.

Lemma nil_le_spec a b :
  nil_le a b = true ↔
  a = b ∨ a = Never ∨ b = Any ∨ (a = Nil ∧ ∃ t, b = Nullable t) ∨ b = Nullable a.
Proof.
  unfold nil_le. rewrite !orb_true_iff, !ty_eqb_spec.
  assert ((match a, b with Nil, Nullable _ => true | _, Nullable b => ty_eqb a b | _, _ => false end)
          = true ↔ (a = Nil ∧ ∃ t, b = Nullable t) ∨ b = Nullable a) as ->; [|tauto].
  destruct (decide (a = Nil)) as [->|Ha].
  - destruct b; split; try done; try (intros [[_ [? ?]]|?]; congruence). by eauto.
  - destruct b; try (split; [by destruct a|intros [[_ [? ?]]|?]; congruence]).
    transitivity (a = b); [rewrite <-ty_eqb_spec; by destruct a|naive_solver].
Qed.

Inductive flat_view : Ty → Prop :=
| FlatAny : flat_view Any
| FlatNever : flat_view Never
| FlatNil : flat_view Nil
| FlatCore t : core t = true → flat_view t
| FlatNullable t : core t = true → flat_view (Nullable t).

Lemma flat_viewP t : flat t = true → flat_view t.
Proof. destruct t; intros H; try discriminate H; constructor; done. Qed.

Lemma join_core a b : core a = true → core b = true → join a b = if ty_eqb a b then a else Any.
Proof.
  unfold join, join_cores.
  destruct a; try done; destruct b; try done; simpl; by destruct (ty_eqb _ _) eqn:E; rewrite ?E.
Qed.

Lemma join_core_nullable a b :
  core a = true → core b = true → join a (Nullable b) = if ty_eqb a b then Nullable a else Any.
Proof. by destruct a. Qed.

Lemma join_nullable_nullable a b :
  join (Nullable a) (Nullable b) = if ty_eqb a b then Nullable a else Any.
Proof.
  unfold join, join_cores. simpl.
  destruct (ty_eqb (Nullable a) (Nullable b)) eqn:E; [|done].
  apply ty_eqb_spec in E as [= ->]. by rewrite ty_eqb_refl.
Qed.

Lemma join_nil_core a : core a = true → join Nil a = Nullable a.
Proof. by destruct a. Qed.

Lemma join_any_l a : join Any a = Any.
Proof. done. Qed.

Lemma join_never_l a : join Never a = a.
Proof. by destruct a. Qed.

Lemma nil_le_any_l a : flat a = true → nil_le Any a = true → a = Any.
Proof.
  rewrite nil_le_spec. intros Ha H. repeat destruct_or?; deex; subst; done.
Qed.

(** A bound of two different cores is [Any]. *)
Lemma nil_le_two_cores t u a b c :
  core t = true → core u = true → t ≠ u → (a = t ∨ a = Nullable t) → (b = u ∨ b = Nullable u) →
  flat c = true → nil_le a c = true → nil_le b c = true → c = Any.
Proof.
  rewrite !nil_le_spec. intros Ht Hu Hne Ha Hb Hc Hac Hbc.
  destruct Ha as [->| ->], Hb as [->| ->]; repeat destruct_or?; deex; subst; simplify_eq/=; done.
Qed.

Lemma nil_le_nullable t u c :
  core t = true → flat c = true → u = Nil ∨ u = Nullable t →
  nil_le t c = true → nil_le u c = true → nil_le (Nullable t) c = true.
Proof.
  rewrite !nil_le_spec. intros Ht Hc Hu Htc Huc.
  destruct Hu as [->| ->]; [|done]. repeat destruct_or?; deex; subst; simplify_eq/=; eauto 10.
Qed.

Lemma join_flat_lub a b c :
  flat a = true → flat b = true → flat c = true → nil_le a c = true → nil_le b c = true →
  nil_le (join a b) c = true.
Proof.
  intros Ha%flat_viewP Hb%flat_viewP Hc. revert a b Ha Hb.
  assert (∀ t u a b, core t = true → core u = true → (a = t ∨ a = Nullable t) →
    (b = u ∨ b = Nullable u) → join a b = (if ty_eqb t u then join a b else Any) →
    nil_le a c = true → nil_le b c = true → t ≠ u → nil_le (join a b) c = true) as H.
  { intros t u a b Ht Hu Ha Hb Hj Hac Hbc Hne. rewrite Hj, ty_eqb_neq by done.
    rewrite (nil_le_two_cores t u a b c) by done. done. }
  intros a b [| | |t Ht|t Ht] [| | |u Hu|u Hu] Hac Hbc; try done;
    try (by rewrite join_comm); try (by rewrite join_never_l).
  all: try (rewrite (join_comm _ Nil)); try (rewrite (join_comm _ Never));
    rewrite ?join_never_l, ?join_nil_core by done; try done.
  1: by apply (nil_le_nullable u Nil); auto.
  1: by apply (nil_le_nullable t Nil); auto.
  all: destruct (decide (t = u)) as [->|Hne].
  - by rewrite join_idemp.
  - apply (H t u); auto. rewrite join_core by done. by destruct (ty_eqb t u).
  - rewrite join_core_nullable, ty_eqb_refl by done. done.
  - apply (H t u); auto. rewrite join_core_nullable by done. by destruct (ty_eqb t u).
  - rewrite join_comm, join_core_nullable, ty_eqb_refl by done. done.
  - apply (H t u); auto. rewrite join_comm, join_core_nullable, (ty_eqb_sym u t) by done.
    destruct (ty_eqb t u) eqn:E; [by apply ty_eqb_spec in E|done].
  - by rewrite join_idemp.
  - apply (H t u); auto. rewrite join_nullable_nullable by done. by destruct (ty_eqb t u).
Qed.

Lemma join_flat a b : flat a = true → flat b = true → flat (join a b) = true.
Proof.
  intros Ha%flat_viewP Hb%flat_viewP. destruct Ha as [| | |t Ht|t Ht], Hb as [| | |u Hu|u Hu];
    try done; try (rewrite (join_comm _ Any); done); try (rewrite (join_comm _ Nil));
    try (rewrite (join_comm _ Never)); rewrite ?join_never_l, ?join_nil_core by done; try done;
    try (by destruct t); try (by destruct u).
  - rewrite join_core by done. destruct (ty_eqb t u); [by destruct t|done].
  - rewrite join_core_nullable by done. by destruct (ty_eqb t u).
  - rewrite join_comm, join_core_nullable by done. by destruct (ty_eqb u t).
  - rewrite join_nullable_nullable. by destruct (ty_eqb t u).
Qed.

Lemma compat_nil_le a b :
  flat a = true → flat b = true → compatible_with a b = nil_le a b || ty_eqb a Any.
Proof.
  intros Ha%flat_viewP Hb%flat_viewP. rewrite compatible_with_unfold. unfold compat_body.
  destruct Ha as [| | |t Ht|t Ht], Hb as [| | |u Hu|u Hu]; try done;
    try (destruct t; try discriminate Ht); try (destruct u; try discriminate Hu); try done;
    unfold nil_le; cbn; rewrite ?compatible_with_unfold; unfold compat_body; cbn;
    unfold ty_eqb; rewrite ?orb_false_r, ?orb_true_r; done.
Qed.

Lemma nil_le_antisym a b :
  flat a = true → flat b = true → nil_le a b = true → nil_le b a = true → a = b.
Proof.
  rewrite !nil_le_spec. intros Ha%flat_viewP Hb%flat_viewP Hab Hba.
  destruct Ha as [| | |t Ht|t Ht], Hb as [| | |u Hu|u Hu];
    repeat destruct_or?; deex; subst; simplify_eq/=; done.
Qed.

Lemma nil_le_refl a : nil_le a a = true.
Proof. apply nil_le_spec. by left. Qed.

Lemma nil_le_trans a b c :
  flat a = true → flat b = true → flat c = true →
  nil_le a b = true → nil_le b c = true → nil_le a c = true.
Proof.
  rewrite !nil_le_spec. intros Ha Hb Hc Hab Hbc.
  repeat destruct_or?; deex; subst; simplify_eq/=; try done; eauto 10.
Qed.

Lemma join_flat_upper_l a b : flat a = true → flat b = true → nil_le a (join a b) = true.
Proof.
  intros Ha Hb. pose proof (join_upper_l a b) as H.
  rewrite compat_nil_le in H by (done || by apply join_flat).
  apply orb_true_iff in H as [H|H]; [done|].
  apply ty_eqb_spec in H as ->. apply nil_le_refl.
Qed.

Lemma join_flat_upper_r a b : flat a = true → flat b = true → nil_le b (join a b) = true.
Proof. intros Ha Hb. rewrite join_comm. by apply join_flat_upper_l. Qed.

Lemma join_flat_assoc a b c :
  flat a = true → flat b = true → flat c = true → join a (join b c) = join (join a b) c.
Proof.
  intros Ha Hb Hc.
  pose proof (join_flat a b Ha Hb) as Fab. pose proof (join_flat b c Hb Hc) as Fbc.
  pose proof (join_flat_upper_l a b Ha Hb). pose proof (join_flat_upper_r a b Ha Hb).
  pose proof (join_flat_upper_l b c Hb Hc). pose proof (join_flat_upper_r b c Hb Hc).
  pose proof (join_flat_upper_l _ _ Ha Fbc). pose proof (join_flat_upper_r _ _ Ha Fbc).
  pose proof (join_flat_upper_l _ _ Fab Hc). pose proof (join_flat_upper_r _ _ Fab Hc).
  pose proof (join_flat _ _ Ha Fbc). pose proof (join_flat _ _ Fab Hc).
  apply nil_le_antisym; [done..| |]; repeat (apply join_flat_lub; try done).
  - by apply (nil_le_trans a (join a b)).
  - by apply (nil_le_trans b (join a b)).
  - by apply (nil_le_trans b (join b c)).
  - by apply (nil_le_trans c (join b c)).
Qed.

(** Joining the types of two control-flow paths is symmetric and
    idempotent, and either path's type fits the result, for every pair of types. *)
Theorem join_is_upper_bound a b :
  join a b = join b a ∧ join a a = a ∧
  compatible_with a (join a b) = true ∧ compatible_with b (join a b) = true.
Proof.
  split_and!; [apply join_comm|apply join_idemp|apply join_upper_l|].
  rewrite join_comm. apply join_upper_l.
Qed.

(** on the nil lattice (uninstantiated types, their nullables, [Nil],
    [Never] and [Any]) compatibility is the lattice order up to the gradual
    [Any], and join is its least upper bound, hence associative: the type of a
    variable after several paths does not depend on the order they merge in. *)
Theorem join_least_on_nil_lattice a b c :
  flat a = true → flat b = true → flat c = true →
  compatible_with a b = nil_le a b || ty_eqb a Any ∧
  flat (join a b) = true ∧
  nil_le a (join a b) = true ∧ nil_le b (join a b) = true ∧
  (nil_le a c = true → nil_le b c = true → nil_le (join a b) c = true) ∧
  join a (join b c) = join (join a b) c.
Proof.
  intros Ha Hb Hc. split_and!; [by apply compat_nil_le|by apply join_flat
    |by apply join_flat_upper_l|by apply join_flat_upper_r|by apply join_flat_lub
    |by apply join_flat_assoc].
Qed.

Lemma join_least_on_nil_lattice_witness :
  flat Int = true ∧ flat Nil = true ∧ flat (Nullable Int) = true ∧
  (compatible_with Int Nil = nil_le Int Nil || ty_eqb Int Any ∧
   flat (join Int Nil) = true ∧
   nil_le Int (join Int Nil) = true ∧ nil_le Nil (join Int Nil) = true ∧
   (nil_le Int (Nullable Int) = true → nil_le Nil (Nullable Int) = true →
      nil_le (join Int Nil) (Nullable Int) = true) ∧
   join Int (join Nil (Nullable Int)) = join (join Int Nil) (Nullable Int)).
Proof.
  split; [done|]. split; [done|]. split; [done|].
  apply (join_least_on_nil_lattice Int Nil (Nullable Int)); reflexivity.
Defined.

(** Beyond the nil lattice join is neither associative nor least.  Two
    lists of different elements merge to [List]; with a nil path merged last
    the result is [List?], but with the nil path merged with the second list
    first it is [Any], although [List?] bounds all three. *)
Theorem join_depends_on_merge_order x y :
  x ≠ y →
  join (join (ListOf x) (ListOf y)) Nil = Nullable List_ ∧
  join (ListOf x) (join (ListOf y) Nil) = Any ∧
  compatible_with (ListOf x) (Nullable List_) = true ∧
  compatible_with (ListOf y) (Nullable List_) = true ∧
  compatible_with Nil (Nullable List_) = true.
Proof.
  intros Hne. assert (ty_eqb (ListOf x) (ListOf y) = false) as E.
  { apply ty_eqb_neq. congruence. }
  assert (∀ t, compatible_with (ListOf t) (Nullable List_) = true) as HL.
  { intros t. rewrite compatible_with_unfold. unfold compat_body.
    destruct (_ || _); [done|]. rewrite compatible_with_unfold. unfold compat_body.
    by destruct (_ || _). }
  split_and!; try done; unfold join, join_cores; simpl; rewrite E; done.
Qed.

Lemma join_depends_on_merge_order_witness :
  Int ≠ Double ∧
  (join (join (ListOf Int) (ListOf Double)) Nil = Nullable List_ ∧
   join (ListOf Int) (join (ListOf Double) Nil) = Any ∧
   compatible_with (ListOf Int) (Nullable List_) = true ∧
   compatible_with (ListOf Double) (Nullable List_) = true ∧
   compatible_with Nil (Nullable List_) = true).
Proof. split; [discriminate|apply (join_depends_on_merge_order Int Double); discriminate]. Defined.

(** * Type variables: substitution and unification (src/src/types.rs)

    What [substitute], [substitute_bound] and [unify_into] promise to the
    checker: instantiation can be done in two steps, removes every variable and
    never nests nullables; unification computes, for each variable, the type
    all its occurrences agree on. *)
#[local] Set Warnings "-clear-no-such-hyp".

#[local] Arguments ty_eqb : simpl never.

(** ** Normal nullables *)

(** No nullable of a nullable or of the top type. *)
Fixpoint renulled (t : Ty) : bool :=
  match t with
  | Nullable t => renulled t && match t with Any | Nullable _ => false | _ => true end
  | ListOf t | SetOf t => renulled t
  | MapOf k v => renulled k && renulled v
  | BlockOf ps r => forallb renulled ps && renulled r
  | _ => true
  end.

Lemma renull_idemp t : renull (renull t) = renull t.
Proof. by destruct t. Qed.

Lemma renull_renulled t : renulled t = true → renulled (renull t) = true.
Proof. destruct t; simpl; try done; by rewrite andb_true_r. Qed.

Lemma renull_contains_var t : contains_var (renull t) = contains_var t.
Proof. by destruct t. Qed.

Lemma substitute_renull b t : substitute b (renull t) = renull (substitute b t).
Proof. destruct t; simpl; by rewrite ?renull_idemp. Qed.

Lemma Forall_map_ext {A B} (f g : A → B) l : Forall (λ x, f x = g x) l → map f l = map g l.
Proof. induction 1; simpl; congruence. Qed.

Lemma forallb_map_true {A B} (f : A → B) (p : B → bool) l :
  Forall (λ x, p (f x) = true) l → forallb p (map f l) = true.
Proof. induction 1; simpl; [done|by apply andb_true_iff]. Qed.

Lemma existsb_map_false {A B} (f : A → B) (p : B → bool) l :
  Forall (λ x, p (f x) = false) l → existsb p (map f l) = false.
Proof. induction 1; simpl; [done|by apply orb_false_iff]. Qed.

(** A binding fit for instantiation: closed and in normal form. *)
Definition ground (v : Ty) : bool := negb (contains_var v) && renulled v.

Lemma substitute_ground b t : ground t = true → substitute b t = t.
Proof.
  unfold ground. rewrite andb_true_iff, negb_true_iff.
  induction t as [ | | | | | | | | |t IH|k v IHk IHv|t IH|ps r IHps IHr|n|n|t IH| | ]
    using Ty_ind'; simpl; intros [Hv Hr]; try done.
  - by rewrite IH.
  - apply orb_false_iff in Hv as [? ?]. apply andb_true_iff in Hr as [? ?].
    by rewrite IHk, IHv.
  - by rewrite IH.
  - apply orb_false_iff in Hv as [Hps ?]. apply andb_true_iff in Hr as [Hrs ?].
    rewrite IHr by done. f_equal.
    induction IHps as [|p ps Hp _ IHl]; [done|]. simpl in *.
    apply orb_false_iff in Hps as [? ?]. apply andb_true_iff in Hrs as [? ?].
    by rewrite Hp, IHl.
  - apply andb_true_iff in Hr as [? Hn]. rewrite IH by done. by destruct t.
Qed.

Lemma substitute_no_var b t :
  map_Forall (λ _ v, contains_var v = false) b → contains_var (substitute b t) = false.
Proof.
  intros Hb. induction t using Ty_ind'; simpl; try done.
  - by apply orb_false_iff.
  - apply orb_false_iff. split; [by apply existsb_map_false|done].
  - destruct (b !! n) eqn:E; [by apply (Hb n)|done].
  - by rewrite renull_contains_var.
Qed.

Lemma substitute_renulled b t :
  map_Forall (λ _ v, renulled v = true) b → renulled (substitute b t) = true.
Proof.
  intros Hb. induction t using Ty_ind'; simpl; try done.
  - by apply andb_true_iff.
  - apply andb_true_iff. split; [by apply forallb_map_true|done].
  - destruct (b !! n) eqn:E; [by apply (Hb n)|done].
  - by apply renull_renulled.
Qed.

Lemma ground_parts v : ground v = true → contains_var v = false ∧ renulled v = true.
Proof. unfold ground. by rewrite andb_true_iff, negb_true_iff. Qed.

(** instantiating a signature closes it (no variable is left, no nullable
    is nested), and doing it in two steps, first the receiver's bindings and
    then the arguments', is the same as doing it once. *)
Theorem instantiation_in_two_steps b1 b2 t :
  map_Forall (λ _ v, ground v = true) b1 → map_Forall (λ _ v, ground v = true) b2 →
  substitute b2 (substitute_bound b1 t) = substitute (b1 ∪ b2) t ∧
  ground (substitute b2 (substitute_bound b1 t)) = true.
Proof.
  intros H1 H2.
  assert (substitute b2 (substitute_bound b1 t) = substitute (b1 ∪ b2) t) as HE.
  { induction t using Ty_ind'; simpl; try congruence.
    - rewrite map_map. f_equal; [by apply Forall_map_ext|done].
    - destruct (b1 !! n) as [v|] eqn:E; simpl.
      + rewrite (lookup_union_Some_l _ _ _ _ E). apply substitute_ground, (H1 n v E).
      + rewrite lookup_union_r by done. done.
    - rewrite substitute_renull. congruence. }
  split; [done|]. rewrite HE. unfold ground. apply andb_true_iff. rewrite negb_true_iff.
  assert (map_Forall (λ _ v, ground v = true) (b1 ∪ b2)) as H
    by by apply map_Forall_union_2.
  split; [apply substitute_no_var|apply substitute_renulled]; intros n v Hv;
    by apply (ground_parts v), (H n).
Qed.

Lemma instantiation_in_two_steps_witness :
  let b1 : Bindings := {[ L "T" := Int ]} in
  let b2 : Bindings := {[ L "U" := Nullable Bool ]} in
  let t := BlockOf [ListOf (Var (L "T"))] (Nullable (Var (L "U"))) in
  substitute_bound b1 t = BlockOf [ListOf Int] (Nullable (Var (L "U"))) ∧
  substitute b2 (substitute_bound b1 t) = BlockOf [ListOf Int] (Nullable Bool) ∧
  (substitute b2 (substitute_bound b1 t) = substitute (b1 ∪ b2) t ∧
   ground (substitute b2 (substitute_bound b1 t)) = true).
Proof.
  intros b1 b2 t. split; [reflexivity|]. split; [reflexivity|].
  apply (instantiation_in_two_steps b1 b2 t); apply map_Forall_singleton; reflexivity.
Defined.

(** ** Unification *)

(** The variable occurrences of [decl] and what stands there in [actual]. *)
Fixpoint occ (decl actual : Ty) {struct decl} : list (str * Ty) :=
  match actual with
  | Any => []
  | _ =>
      match decl with
      | Var n => [(n, actual)]
      | ListOf d => match actual with ListOf a => occ d a | _ => [] end
      | SetOf d => match actual with SetOf a => occ d a | _ => [] end
      | MapOf dk dv => match actual with MapOf ak av => occ dk ak ++ occ dv av | _ => [] end
      | BlockOf dp dr =>
          match actual with
          | BlockOf ap ar =>
              (fix go (ds as_ : list Ty) : list (str * Ty) :=
                 match ds, as_ with d :: ds', a :: as_' => occ d a ++ go ds' as_' | _, _ => [] end)
                dp ap ++ occ dr ar
          | _ => []
          end
      | Nullable d => match actual with Nullable a => occ d a | a => occ d a end
      | _ => []
      end
  end.

(** The type every element of a list agrees on; [Any] when they do not. *)
Definition agreed (ts : list Ty) : option Ty :=
  match ts with
  | [] => None
  | t :: ts => Some (if forallb (ty_eqb t) ts then t else Any)
  end.

Definition occ_of (n : str) (l : list (str * Ty)) : list Ty := (filter (λ p, p.1 = n) l).*2.

Definition bind_all (b : Bindings) (l : list (str * Ty)) : Bindings :=
  foldl (λ b p, bind_var p.1 p.2 b) b l.

Lemma unify_into_bind_all d : ∀ a b, unify_into d a b = bind_all b (occ d a).
Proof.
  unfold bind_all.
  induction d as [ | | | | | | | | |d IH|dk dv IHk IHv|d IH|dp dr IHps IHr|n|n|d IH| | ]
    using Ty_ind'; intros act b; destruct act; try done; simpl; try apply IH.
  - by rewrite foldl_app, <-IHk, <-IHv.
  - rewrite foldl_app, <-IHr. f_equal. revert params b.
    induction IHps as [|d dp Hd _ IHl]; intros [|a ap] b; try done.
    rewrite foldl_app, <-Hd. apply IHl.
Qed.

Lemma bind_var_eq n a b :
  bind_var n a b !! n =
  Some match b !! n with None => a | Some p => if ty_eqb p a then p else Any end.
Proof.
  unfold bind_var. destruct (b !! n) as [p|] eqn:E; [|by rewrite lookup_insert_eq].
  destruct (ty_eqb p a); [done|by rewrite lookup_insert_eq].
Qed.

Lemma bind_var_ne n m a b : m ≠ n → bind_var m a b !! n = b !! n.
Proof.
  intros Hne. unfold bind_var. destruct (b !! m) as [p|]; [|by rewrite lookup_insert_ne].
  destruct (ty_eqb p a); [done|by rewrite lookup_insert_ne].
Qed.

(** What one variable's binding becomes under a sequence of [bind_var]. *)
Lemma bind_all_lookup l : ∀ b n,
  bind_all b l !! n = agreed (option_list (b !! n) ++ occ_of n l).
Proof.
  induction l as [|[m a] l IH] using rev_ind; intros b n.
  { unfold occ_of. simpl. rewrite app_nil_r. by destruct (b !! n). }
  unfold bind_all, occ_of in *. rewrite foldl_snoc, filter_app, fmap_app, app_assoc. simpl.
  specialize (IH b n). destruct (decide (m = n)) as [->|Hne].
  - rewrite bind_var_eq, IH, filter_cons_True, filter_nil by done. simpl.
    destruct (option_list _ ++ _) as [|t ts]; simpl; [done|].
    rewrite forallb_app. simpl. rewrite andb_true_r.
    destruct (forallb (ty_eqb t) ts); simpl; [done|by destruct a].
  - by rewrite bind_var_ne, filter_cons_False, filter_nil, app_nil_r.
Qed.

Lemma forallb_perm {A} (p : A → bool) l l' : l ≡ₚ l' → forallb p l = forallb p l'.
Proof. induction 1; simpl; [done|congruence|by rewrite !andb_assoc, (andb_comm (p _))|congruence]. Qed.

Lemma agreed_perm l l' : l ≡ₚ l' → agreed l = agreed l'.
Proof.
  induction 1 as [|x l l' HP _|x y l|]; simpl; [done|by rewrite (forallb_perm _ _ _ HP)| |congruence].
  destruct (ty_eqb y x) eqn:E.
  - apply ty_eqb_spec in E as ->. by rewrite (proj2 (ty_eqb_spec x x) eq_refl).
  - destruct (ty_eqb x y) eqn:E'; [|done]. apply ty_eqb_spec in E' as ->.
    by rewrite (proj2 (ty_eqb_spec y y) eq_refl) in E.
Qed.

(** unification binds each variable to the type all its occurrences in the
    declared type agree on, to [Any] when two of them differ, and leaves a
    variable without occurrence unbound; the order in which the occurrences
    are bound plays no part. *)
Theorem unify_binds_agreed_type decl actual n :
  unify_into decl actual ∅ !! n = agreed (occ_of n (occ decl actual)) ∧
  ∀ l, l ≡ₚ occ decl actual → bind_all ∅ l = unify_into decl actual ∅.
Proof.
  rewrite unify_into_bind_all. split; [by rewrite bind_all_lookup|].
  intros l Hl. apply map_eq. intros m. rewrite !bind_all_lookup. simpl.
  apply agreed_perm. unfold occ_of. by rewrite Hl.
Qed.

Lemma unify_binds_agreed_type_witness :
  let decl := MapOf (Var (L "T")) (ListOf (Var (L "T"))) in
  let actual := MapOf Int (ListOf Bool) in
  occ decl actual = [(L "T", Int); (L "T", Bool)] ∧
  (unify_into decl actual ∅ !! L "T" = agreed (occ_of (L "T") (occ decl actual)) ∧
   ∀ l, l ≡ₚ occ decl actual → bind_all ∅ l = unify_into decl actual ∅).
Proof.
  intros decl actual. split; [reflexivity|].
  apply (unify_binds_agreed_type decl actual (L "T")).
Defined.

(** ** Recovering an instantiation *)

Fixpoint vars_of (t : Ty) : list str :=
  match t with
  | Var n => [n]
  | ListOf t | SetOf t | Nullable t => vars_of t
  | MapOf k v => vars_of k ++ vars_of v
  | BlockOf ps r => flat_map vars_of ps ++ vars_of r
  | _ => []
  end.

(** A binding that neither is skipped nor merges with a surrounding [?]. *)
Definition solid (t : Ty) : bool := match t with Any | Nullable _ => false | _ => true end.

Section Recover.
#[local] Set Default Proof Using "Type*".
Context (b : Bindings) (Hsolid : map_Forall (λ _ v, solid v = true) b).

Lemma substitute_any d :
  Forall (λ n, is_Some (b !! n)) (vars_of d) → substitute b d = Any → vars_of d = [].
Proof.
  induction d using Ty_ind'; simpl; try done.
  - intros [[v Hv] _]%Forall_cons. rewrite Hv. simpl. intros ->.
    by apply (Hsolid n Any) in Hv.
  - intros Hd. destruct (substitute b d) eqn:E; try discriminate. by auto.
Qed.

Lemma substitute_nullable d s :
  Forall (λ n, is_Some (b !! n)) (vars_of d) → substitute b d = Nullable s →
  (∃ d', d = Nullable d') ∧ solid s = true.
Proof.
  revert s. induction d using Ty_ind'; simpl; try done; intros s.
  - intros [[v Hv] _]%Forall_cons. rewrite Hv. simpl. intros ->.
    by apply (Hsolid n (Nullable s)) in Hv.
  - intros Hd Hs. split; [by eexists|].
    destruct (substitute b d) eqn:E; simplify_eq/=; try done. by eapply IHd.
Qed.

Lemma occ_nullable d :
  Forall (λ n, is_Some (b !! n)) (vars_of d) →
  occ (Nullable d) (renull (substitute b d)) = occ d (substitute b d).
Proof.
  intros Hd. destruct (substitute b d) as [ | | | | | | | | | | | | | | |s| | ] eqn:E; try done.
  - destruct (substitute_nullable d s Hd E) as [[d' ->] Hs]. by destruct s.
  - by destruct d.
Qed.

Lemma occ_substitute d :
  Forall (λ n, is_Some (b !! n)) (vars_of d) →
  (∀ p, p ∈ occ d (substitute b d) → b !! p.1 = Some p.2) ∧
  (∀ n, n ∈ vars_of d → n ∈ (occ d (substitute b d)).*1).
Proof.
  induction d as [ | | | | | | | | |d IH|dk dv IHk IHv|d IH|dp dr IHps IHr|n|n|d IH| | ]
    using Ty_ind'; intros Hd; try (split; [intros ? Hp|intros ? Hn]; by inv Hp || by inv Hn).
  - by apply IH.
  - simpl in *. apply Forall_app in Hd as [Hk Hv].
    destruct (IHk Hk), (IHv Hv). rewrite fmap_app. set_solver.
  - by apply IH.
  - simpl in *. apply Forall_app in Hd as [Hps Hr]. destruct (IHr Hr) as [Hr1 Hr2].
    rewrite fmap_app. split.
    + intros p [Hp|Hp]%elem_of_app; [|by apply Hr1]. clear Hr1 Hr2 IHr.
      induction IHps as [|d dp Hd _ IHl]; [by inv Hp|]. simpl in *.
      apply Forall_app in Hps as [Hpd Hps].
      apply elem_of_app in Hp as [Hp|Hp]; [by apply Hd|by apply IHl].
    + intros n [Hn|Hn]%elem_of_app; apply elem_of_app; [left|by right; apply Hr2].
      clear Hr1 Hr2 IHr. induction IHps as [|d dp Hd _ IHl]; [by inv Hn|]. simpl in *.
      apply Forall_app in Hps as [Hpd Hps]. rewrite fmap_app. apply elem_of_app.
      apply elem_of_app in Hn as [Hn|Hn]; [left; by apply Hd|right; by apply IHl].
  - simpl in *. apply Forall_cons in Hd as [[v Hv] _]. rewrite Hv. simpl.
    pose proof (Hsolid n v Hv) as Hsv. destruct v; try discriminate Hsv;
      (split; [intros p Hp%list_elem_of_singleton; by subst|done]).
  - change (substitute b (Nullable d)) with (renull (substitute b d)).
    rewrite occ_nullable by done. by apply IH.
Qed.
End Recover.

Lemma agreed_const t ts : ts ≠ [] → Forall (λ u, u = t) ts → agreed ts = Some t.
Proof.
  destruct ts as [|u ts]; [done|]. intros _ [-> H]%Forall_cons. simpl.
  rewrite (proj2 (forallb_forall _ _)); [done|].
  intros x Hx. rewrite Forall_forall in H. rewrite (H x) by by apply list_elem_of_In.
  by apply ty_eqb_spec.
Qed.

Lemma substitute_agree (b b' : Bindings) t :
  (∀ n, n ∈ vars_of t → b !! n = b' !! n) → substitute b t = substitute b' t.
Proof.
  induction t as [ | | | | | | | | |t IH|k v IHk IHv|t IH|ps r IHps IHr|n|n|t IH| | ]
    using Ty_ind'; simpl; intros H; try done; try (by rewrite IH).
  - rewrite IHk, IHv; [done|..]; intros n Hn; apply H, elem_of_app; auto.
  - rewrite IHr by (intros n Hn; apply H, elem_of_app; auto). f_equal. clear IHr.
    induction IHps as [|p ps Hp _ IHl]; [done|]. simpl in *.
    rewrite Hp, IHl; [done|..]; intros n Hn; apply H; rewrite ?elem_of_app in *; tauto.
  - rewrite H; [done|left].
Qed.

(** unification recovers an instantiation.  When an argument's type is a
    declared type instantiated by [b], with every variable bound and no
    binding nullable or [Any], unifying finds exactly those bindings for the
    declared type's variables, and instantiating the declared type with what
    was found gives back the argument's type. *)
Theorem unify_recovers_instantiation b decl :
  map_Forall (λ _ v, solid v = true) b → Forall (λ n, is_Some (b !! n)) (vars_of decl) →
  let found := unify_into decl (substitute b decl) ∅ in
  (∀ n, n ∈ vars_of decl → found !! n = b !! n) ∧
  substitute found decl = substitute b decl.
Proof.
  intros Hs Hb found. destruct (occ_substitute b Hs decl Hb) as [H1 H2].
  assert (∀ n, n ∈ vars_of decl → found !! n = b !! n) as H; [|split; [done|by apply substitute_agree]].
  intros n Hn. unfold found. rewrite unify_into_bind_all, bind_all_lookup. simpl.
  rewrite Forall_forall in Hb. destruct (Hb n Hn) as [v Hv]. rewrite Hv. apply agreed_const.
  - intros He. apply H2, list_elem_of_fmap in Hn as (p & -> & Hp).
    eapply not_elem_of_nil. rewrite <-He. apply list_elem_of_fmap. exists p.
    split; [done|]. apply list_elem_of_filter. done.
  - apply Forall_forall. intros u (p & -> & Hp)%list_elem_of_fmap.
    apply list_elem_of_filter in Hp as [<- Hp]. apply H1 in Hp. congruence.
Qed.

Lemma unify_recovers_instantiation_witness :
  let b : Bindings := {[ L "T" := Int ]} in
  let decl := BlockOf [Var (L "T"); Nullable (Var (L "T"))] Bool in
  let found := unify_into decl (substitute b decl) ∅ in
  substitute b decl = BlockOf [Int; Nullable Int] Bool ∧
  ((∀ n, n ∈ vars_of decl → found !! n = b !! n) ∧
   substitute found decl = substitute b decl).
Proof.
  intros b decl found. split; [reflexivity|].
  apply (unify_recovers_instantiation b decl).
  - apply map_Forall_singleton. reflexivity.
  - repeat constructor; eexists; reflexivity.
Defined.
