(* ===== verification/TypesParse.v ===== *)
(** * The annotation syntax (src/src/types.rs)

    [parse_annotation_str] reads back what [name] prints, for every type the
    annotation syntax can express; the top type is not one of them. *)
From stdpp Require Import base numbers list gmap strings.
From Stdlib Require String.
From Stdlib Require Import Ascii.
From stdpp Require Import options.
#[local] Set Warnings "-clear-no-such-hyp".
From S2P Require Import Prelude Types.

(** ** Identifiers *)

Definition ident_char (c : ascii) : bool :=
  negb (is_space c) &&
  bool_decide (c ≠ "("%char ∧ c ≠ ")"%char ∧ c ≠ "?"%char ∧ c ≠ "^"%char).

Definition ident (s : str) : bool := forallb ident_char s && negb (bool_decide (s = [])).

Lemma ident_spec s : ident s = true ↔ Forall (λ c, ident_char c = true) s ∧ s ≠ [].
Proof.
  unfold ident. rewrite andb_true_iff, negb_true_iff, bool_decide_eq_false, forallb_forall.
  rewrite Forall_forall. by setoid_rewrite list_elem_of_In.
Qed.

Lemma ident_char_ne c :
  ident_char c = true →
  is_space c = false ∧ c ≠ " "%char ∧ c ≠ "("%char ∧ c ≠ ")"%char ∧ c ≠ "?"%char ∧ c ≠ "^"%char.
Proof.
  unfold ident_char. rewrite andb_true_iff, negb_true_iff, bool_decide_eq_true.
  intros [H ?]. split_and!; try tauto. intros ->. discriminate H.
Qed.

(** ** Edges: [trim], [strip_prefix] and [strip_suffix] *)

(** The first and the last character are not spaces. *)
Definition edged (s : str) : Prop :=
  ∃ a b, is_space a = false ∧ is_space b = false ∧
         head s = Some a ∧ last s = Some b.

Lemma trim_start_edge s a : head s = Some a → is_space a = false → trim_start s = s.
Proof. destruct s as [|x s]; simpl; [done|]. by intros [= ->] ->. Qed.

Lemma trim_edged s : edged s → trim s = s.
Proof.
  intros (a & b & Ha & Hb & Hh & Hl). unfold trim. rewrite (trim_start_edge s a) by done.
  rewrite (trim_start_edge _ b); [by rewrite reverse_involutive| |done].
  by rewrite head_reverse.
Qed.

Lemma strip_suffix_snoc c s : strip_suffix c (s ++ [c]) = Some s.
Proof.
  unfold strip_suffix. change (s ++ [c]) with (vec_push s c). rewrite vec_pop_push.
  by rewrite decide_True.
Qed.

Lemma strip_suffix_last c d s : last s = Some d → d ≠ c → strip_suffix c s = None.
Proof.
  intros Hl Hd. unfold strip_suffix. destruct (vec_pop s) as [[x s']|] eqn:E; [|done].
  apply vec_pop_Some in E as ->. rewrite last_snoc in Hl. injection Hl as ->.
  by rewrite decide_False.
Qed.

Lemma strip_suffix_Some c s s' : strip_suffix c s = Some s' → s = s' ++ [c].
Proof.
  unfold strip_suffix. destruct (vec_pop s) as [[x r]|] eqn:E; [|done].
  apply vec_pop_Some in E as ->. case_decide; [|done]. intros [= ->]. by subst.
Qed.

(** ** Splitting *)

Lemma split_at_char_app c s t : Forall (λ x, x ≠ c) s → split_at_char c (s ++ c :: t) = Some (s, c :: t).
Proof.
  induction 1 as [|x s Hx _ IH]; simpl; [by rewrite decide_True|].
  by rewrite decide_False, IH.
Qed.

Lemma split_at_char_None c s : Forall (λ x, x ≠ c) s → split_at_char c s = None.
Proof. induction 1 as [|x s Hx _ IH]; simpl; [done|]. by rewrite decide_False, IH. Qed.

(** At depth [d] the splitter passes over [s] without cutting it. *)
Definition passes (d : nat) (s : str) : Prop :=
  ∀ cur rest, split_args d cur (s ++ rest) = split_args d (cur ++ s) rest.

Lemma passes_nil d : passes d [].
Proof. intros cur rest. by rewrite app_nil_r. Qed.

Lemma passes_app d s t : passes d s → passes d t → passes d (s ++ t).
Proof. intros Hs Ht cur rest. by rewrite <-app_assoc, Hs, Ht, app_assoc. Qed.

Lemma passes_char d c :
  c ≠ "("%char → c ≠ ")"%char → (c ≠ " "%char ∨ 0 < d) → passes d [c].
Proof.
  intros H1 H2 H3 cur rest. simpl. rewrite !(decide_False (P := c = _)) by done.
  rewrite decide_False; [done|]. intros [-> ?]. destruct H3; [done|lia].
Qed.

Lemma passes_ident d s : Forall (λ c, ident_char c = true) s → passes d s.
Proof.
  induction 1 as [|c s Hc _ IH]; [apply passes_nil|].
  apply ident_char_ne in Hc as (_ & ? & ? & ? & _).
  apply (passes_app d [c] s); [|done]. apply passes_char; auto.
Qed.

Lemma passes_parens d s : passes (S d) s → passes d (L "(" ++ s ++ L ")").
Proof.
  intros Hs cur rest. simpl. rewrite <-!app_assoc, Hs. simpl.
  rewrite Nat.sub_0_r. by rewrite <-!app_assoc.
Qed.

Lemma split_args_tokens toks :
  Forall (λ s, passes 0 s ∧ s ≠ []) toks → split_args 0 [] (join_spaces toks) = toks.
Proof.
  induction 1 as [|s toks [Hs Hne] Ht IH]; [done|].
  destruct toks as [|s' toks].
  - simpl. rewrite <-(app_nil_r s) at 1. rewrite Hs. cbn [split_args app]. by case_decide.
  - change (join_spaces (s :: s' :: toks)) with (s ++ L " " ++ join_spaces (s' :: toks)).
    rewrite Hs.
    change (split_args 0 ([] ++ s) (L " " ++ join_spaces (s' :: toks)))
      with ((if decide (s = []) then [] else [s]) ++ split_args 0 [] (join_spaces (s' :: toks))).
    rewrite IH. by case_decide.
Qed.

(** ** Fuel: every recursive call is on a shorter string *)

Lemma length_trim_start s : length (trim_start s) ≤ length s.
Proof. induction s as [|c s IH]; simpl; [done|]. destruct (is_space c); simpl; lia. Qed.

Lemma length_trim s : length (trim s) ≤ length s.
Proof.
  unfold trim. rewrite length_reverse. etransitivity; [apply length_trim_start|].
  rewrite length_reverse. apply length_trim_start.
Qed.

Lemma length_strip_suffix c s s' : strip_suffix c s = Some s' → length s = S (length s').
Proof. intros ->%strip_suffix_Some. rewrite length_app. simpl. lia. Qed.

Lemma length_strip_prefix c s s' : strip_prefix c s = Some s' → length s = S (length s').
Proof. destruct s as [|x s]; simpl; [done|]. case_decide; [|done]. by intros [= ->]. Qed.

Lemma length_split_at c s a b : split_at_char c s = Some (a, b) → length s = length a + length b.
Proof.
  revert a b. induction s as [|x s IH]; intros a b; simpl; [done|].
  case_decide; [by intros [= <- <-]|]. destruct (split_at_char c s) as [[a' b']|]; [|done].
  intros [= <- <-]. specialize (IH a' b' eq_refl). simpl. lia.
Qed.

Lemma length_split_args s : ∀ d cur tok,
  tok ∈ split_args d cur s → length tok ≤ length cur + length s.
Proof.
  induction s as [|c s IH]; intros d cur tok; cbn [split_args].
  - case_decide; [by intros ?%not_elem_of_nil|]. intros ->%list_elem_of_singleton. lia.
  - assert (∀ d', tok ∈ split_args d' (cur ++ [c]) s → length tok ≤ length cur + length (c :: s)) as H.
    { intros d' H%IH. rewrite length_app in H. simpl in *. lia. }
    repeat case_decide; try apply H.
    + simpl. intros Ht%IH. simpl in *. lia.
    + simpl. intros [->|Ht]%elem_of_cons; [lia|]. apply IH in Ht. simpl in *. lia.
Qed.

Lemma block_tokens_ext p q args : ∀ ps r,
  (∀ a s, a ∈ args → length s ≤ length a → p s = q s) →
  block_tokens p args ps r = block_tokens q args ps r.
Proof.
  induction args as [|a args IH]; intros ps r H; [done|]. cbn [block_tokens].
  destruct (strip_prefix "^" a) as [s|] eqn:E.
  - rewrite (H a s); [|left|apply length_strip_prefix in E; lia].
    apply IH. intros a' s' ?. apply H. by right.
  - rewrite (H a a) by (done || left). apply IH. intros a' s' ?. apply H. by right.
Qed.

Lemma parse_generic_ext p q base args :
  (∀ a s, a ∈ args → length s ≤ length a → p s = q s) →
  parse_generic p base args = parse_generic q base args.
Proof.
  intros H. unfold parse_generic. rewrite (block_tokens_ext p q args) by done.
  repeat case_decide; try done; destruct args as [|a [|b [|]]]; try done.
  - by rewrite (H a a) by (done || left).
  - by rewrite (H a a) by (done || left).
  - by rewrite (H a a), (H b b) by (done || left || right; left).
Qed.

Lemma parse_fuel_enough vars n : ∀ m s,
  length s < n → length s < m → parse_fuel n s vars = parse_fuel m s vars.
Proof.
  induction n as [|n IH]; intros [|m] s Hn Hm; try lia. cbn [parse_fuel].
  pose proof (length_trim s) as Ht. set (t := trim s) in *.
  destruct (strip_suffix "?" t) as [base|] eqn:E.
  { apply length_strip_suffix in E. by rewrite (IH m base) by lia. }
  destruct (split_at_char "(" t) as [[base rest]|] eqn:E'; [|done].
  apply length_split_at in E'.
  destruct (strip_prefix "(" rest ≫= strip_suffix ")") as [src|] eqn:Es; [|done].
  apply bind_Some in Es as (r & Hr%length_strip_prefix & Hs%length_strip_suffix).
  apply parse_generic_ext. intros a x Ha%length_split_args Hx. simpl in Ha. apply IH; lia.
Qed.

(** The recursion of the code: one level of [parse_annotation_str] calls it again. *)
Definition parse_body (rec : str → Ty) (s : str) (vars : list str) : Ty :=
  let s := trim s in
  match strip_suffix "?" s with
  | Some base => renull (rec base)
  | None =>
      match split_at_char "(" s with
      | Some (base, rest) =>
          match strip_prefix "(" rest ≫= strip_suffix ")" with
          | None => from_annotation_name s
          | Some args_src => parse_generic rec base (split_args 0 [] args_src)
          end
      | None => if decide (s ∈ vars) then Var s else from_annotation_name s
      end
  end.

Lemma parse_annotation_unfold s vars :
  parse_annotation_str s vars = parse_body (λ a, parse_annotation_str a vars) s vars.
Proof.
  unfold parse_annotation_str at 1, parse_body. cbn [parse_fuel].
  pose proof (length_trim s) as Ht. set (t := trim s) in *.
  destruct (strip_suffix "?" t) as [base|] eqn:E.
  { apply length_strip_suffix in E. unfold parse_annotation_str.
    rewrite (parse_fuel_enough vars (length s) (S (length base)) base) by lia.
    by destruct (parse_fuel _ base vars). }
  destruct (split_at_char "(" t) as [[base rest]|] eqn:E'; [|done].
  apply length_split_at in E'.
  destruct (strip_prefix "(" rest ≫= strip_suffix ")") as [src|] eqn:Es; [|done].
  apply bind_Some in Es as (r & Hr%length_strip_prefix & Hs%length_strip_suffix).
  apply parse_generic_ext. intros a x Ha%length_split_args Hx. simpl in Ha.
  apply parse_fuel_enough; lia.
Qed.

(** ** Printed names *)

(** Printed text: the splitter passes over it, and its edges survive [trim]
    and are not mistaken for the [^] of a return type. *)
Definition good (s : str) : Prop :=
  (∀ d, passes d s) ∧
  ∃ a b, is_space a = false ∧ a ≠ "^"%char ∧ is_space b = false ∧
         head s = Some a ∧ last s = Some b.

Lemma good_edged s : good s → edged s.
Proof. intros [_ (a & b & ? & _ & ? & ? & ?)]. by exists a, b. Qed.

Lemma good_nonempty s : good s → s ≠ [].
Proof. by intros [_ (? & ? & _ & _ & _ & ? & _)] ->. Qed.

Lemma good_no_caret s : good s → strip_prefix "^" s = None.
Proof.
  intros [_ (a & _ & _ & Ha & _ & Hh & _)]. destruct s as [|x s]; [done|].
  injection Hh as ->. simpl. by rewrite decide_False.
Qed.

Lemma ident_head s : ident s = true → ∃ a, head s = Some a ∧ ident_char a = true.
Proof.
  intros [H Hne]%ident_spec. destruct s as [|a s]; [done|]. exists a. by inv H.
Qed.

Lemma ident_last s : ident s = true → ∃ a, last s = Some a ∧ ident_char a = true.
Proof.
  intros [H Hne]%ident_spec. destruct (last s) as [a|] eqn:E.
  - exists a. split; [done|]. apply last_Some in E as [s' ->].
    apply Forall_app in H as [_ H]. by inv H.
  - by apply last_None in E.
Qed.

Lemma ident_no_paren s : ident s = true → Forall (λ c, c ≠ "("%char) s.
Proof.
  intros [H _]%ident_spec. eapply Forall_impl; [done|].
  intros c Hc. by apply ident_char_ne in Hc as (_ & _ & ? & _).
Qed.

Lemma good_ident s : ident s = true → good s.
Proof.
  intros H. split.
  - intros d. apply passes_ident. by apply ident_spec in H as [H _].
  - destruct (ident_head s H) as (a & Ha & Ca), (ident_last s H) as (b & Hb & Cb).
    apply ident_char_ne in Ca as (? & _ & _ & _ & _ & ?), Cb as (? & _). by exists a, b.
Qed.

Lemma good_paren base inner :
  ident base = true → (∀ d, passes (S d) inner) → good (base ++ L "(" ++ inner ++ L ")").
Proof.
  intros Hb Hi. split.
  - intros d. apply passes_app; [by apply good_ident|]. by apply passes_parens.
  - destruct (ident_head base Hb) as (a & Ha & Ca).
    apply ident_char_ne in Ca as (? & _ & _ & _ & _ & ?).
    exists a, ")"%char. split_and!; [done..| |].
    + by destruct base; [apply ident_spec in Hb|].
    + rewrite !app_assoc. apply last_snoc.
Qed.

Lemma good_nullable s : good s → good (s ++ L "?").
Proof.
  intros [Hp (a & b & ? & ? & ? & Hh & ?)]. split.
  - intros d. apply passes_app; [done|]. apply passes_char; try discriminate. by left.
  - exists a, "?"%char. split_and!; [done..| |apply last_snoc]. by destruct s.
Qed.

Lemma passes_space d : passes (S d) (L " ").
Proof. apply passes_char; try discriminate. right. lia. Qed.

Lemma passes_join d toks : Forall (passes (S d)) toks → passes (S d) (join_spaces toks).
Proof.
  induction 1 as [|s toks Hs Ht IH]; [apply passes_nil|].
  destruct toks as [|s' toks]; [done|].
  change (join_spaces (s :: s' :: toks)) with (s ++ L " " ++ join_spaces (s' :: toks)).
  apply passes_app; [done|]. apply passes_app; [apply passes_space|done].
Qed.

Lemma name_map k v :
  name (MapOf k v) = L "Map" ++ L "(" ++ join_spaces [name k; name v] ++ L ")".
Proof. simpl. by rewrite <-!app_assoc. Qed.

(** The tokens between the parentheses of a printed block type. *)
Definition block_toks (ps : list Ty) (r : Ty) : list str :=
  map name ps ++ match r with Any => [] | r => [L "^" ++ name r] end.

Lemma join_spaces_snoc toks s :
  join_spaces (toks ++ [s]) = join_spaces toks ++ match toks with [] => s | _ => L " " ++ s end.
Proof.
  induction toks as [|t toks IH]; [done|]. destruct toks as [|t' toks]; [done|].
  change (join_spaces ((t :: t' :: toks) ++ [s]))
    with (t ++ L " " ++ join_spaces ((t' :: toks) ++ [s])).
  change (join_spaces (t :: t' :: toks)) with (t ++ L " " ++ join_spaces (t' :: toks)).
  by rewrite IH, !app_assoc.
Qed.

Lemma name_block_ret ps r :
  r ≠ Any →
  name (BlockOf ps r) = L "Block(" ++ join_spaces (map name ps) ++
    match ps with [] => L "^" ++ name r | _ => L " ^" ++ name r end ++ L ")".
Proof. by destruct r. Qed.

Lemma block_toks_ret ps r : r ≠ Any → block_toks ps r = map name ps ++ [L "^" ++ name r].
Proof. by destruct r. Qed.

Lemma name_block ps r :
  name (BlockOf ps r) = L "Block" ++ L "(" ++ join_spaces (block_toks ps r) ++ L ")".
Proof.
  destruct (decide (r = Any)) as [->|Hr].
  - unfold block_toks. simpl. by rewrite app_nil_r.
  - rewrite name_block_ret, block_toks_ret, join_spaces_snoc by done.
    rewrite <-!app_assoc. by destruct ps.
Qed.

(** ** The types the syntax can express *)

Section Printable.
Context (vars : list str).

(** Variables in scope, class names that are not builtin, and no top or bottom
    type except as the return type of a block. *)
Fixpoint printable (t : Ty) : bool :=
  match t with
  | Var n => bool_decide (n ∈ vars)
  | Instance_ n => ident n && bool_decide (n ∉ vars) && ty_eqb (builtin_of n) (Instance_ n)
  | Nullable t => printable t && match t with Nullable _ => false | _ => true end
  | ListOf t | SetOf t => printable t
  | MapOf k v => printable k && printable v
  | BlockOf ps r => forallb printable ps && (ty_eqb r Any || printable r)
  | Any | Never => false
  | _ => true
  end.

(** Variable names are identifiers that shadow no builtin name. *)
Definition vars_ok : Prop :=
  Forall (λ v, ident v = true ∧ builtin_of v = Instance_ v) vars.

Context (Hvars : vars_ok).
#[local] Set Default Proof Using "Type*".

Lemma Forall_good_toks ps r :
  Forall (λ p, printable p = true → good (name p)) ps →
  (printable r = true → good (name r)) →
  forallb printable ps = true → ty_eqb r Any = true ∨ printable r = true →
  Forall (λ s, (∀ d, passes d s) ∧ s ≠ []) (block_toks ps r).
Proof.
  intros Hps Hr Bps Br. unfold block_toks. apply Forall_app. split.
  - clear Hr Br. induction Hps as [|p ps Hp _ IH]; simpl in *; [constructor|].
    apply andb_true_iff in Bps as [? ?]. constructor; [|by apply IH].
    split; [by apply Hp|by apply good_nonempty, Hp].
  - destruct (decide (r = Any)) as [->|Hne]; [constructor|].
    assert (good (name r)) as [Hg _].
    { apply Hr. destruct Br as [Br|?]; [by apply ty_eqb_spec in Br|done]. }
    assert (Forall (λ s, (∀ d, passes d s) ∧ s ≠ []) [L "^" ++ name r]) as H.
    { constructor; [|constructor]. split; [|done]. intros d. apply passes_app; [|done].
      apply passes_char; try discriminate. by left. }
    by destruct r.
Qed.

Lemma good_name t : printable t = true → good (name t).
Proof.
  induction t as [ | | | | | | | | |t IH|k v IHk IHv|t IH|ps r IHps IHr|n|n|t IH| | ]
    using Ty_ind'; intros Hp; try discriminate Hp; try (by apply good_ident); simpl in Hp.
  - apply (good_paren (L "List")); [done|]. intros d. by apply IH.
  - apply andb_true_iff in Hp as [Hk Hv].
    rewrite name_map.
    apply good_paren; [done|]. intros d.
    apply passes_join. repeat constructor; [by apply IHk|by apply IHv].
  - apply (good_paren (L "Set")); [done|]. intros d. by apply IH.
  - rewrite name_block. apply andb_true_iff in Hp as [Hps Hr]. apply orb_true_iff in Hr.
    apply good_paren; [done|]. intros d. apply passes_join.
    eapply Forall_impl; [by apply Forall_good_toks|]. intros s [Hs _]. apply Hs.
  - apply bool_decide_eq_true in Hp. apply good_ident.
    unfold vars_ok in Hvars. rewrite Forall_forall in Hvars. by apply Hvars.
  - apply good_ident. by apply andb_true_iff in Hp as [[? ?]%andb_true_iff ?].
  - apply andb_true_iff in Hp as [Hp _]. apply (good_nullable (name t)). by apply IH.
Qed.

(** ** Reading back *)

Lemma parse_ident n s :
  ident s = true → parse_fuel (S n) s vars = if decide (s ∈ vars) then Var s else builtin_of s.
Proof using Type.
  intros Hs. destruct (ident_last s Hs) as (b & Hl & Hb).
  pose proof (good_ident s Hs) as Hg. apply ident_char_ne in Hb as (_ & _ & _ & _ & Hq & _).
  cbn [parse_fuel]. rewrite trim_edged by by apply good_edged.
  rewrite (strip_suffix_last "?" b), split_at_char_None by (done || by apply ident_no_paren).
  case_decide; [done|]. unfold from_annotation_name. cbn [from_name_fuel].
  by rewrite (strip_suffix_last "?" b).
Qed.

Lemma parse_paren n base inner :
  ident base = true → (∀ d, passes (S d) inner) →
  parse_fuel (S n) (base ++ L "(" ++ inner ++ L ")") vars =
  parse_generic (λ a, parse_fuel n a vars) base (split_args 0 [] inner).
Proof.
  intros Hb Hi. cbn [parse_fuel]. rewrite trim_edged by by apply good_edged, good_paren.
  rewrite (strip_suffix_last "?" ")"); [|rewrite !app_assoc; apply last_snoc|done].
  change (base ++ L "(" ++ inner ++ L ")") with (base ++ "("%char :: (inner ++ [")"%char])).
  rewrite split_at_char_app.
  - cbn [strip_prefix]. rewrite decide_True by done. cbn [mbind option_bind].
    by rewrite strip_suffix_snoc.
  - by apply ident_no_paren.
Qed.

Lemma parse_nullable n s t :
  good s → parse_fuel n s vars = t → t ≠ Any → (∀ u, t ≠ Nullable u) →
  parse_fuel (S n) (s ++ L "?") vars = Nullable t.
Proof.
  intros Hg Ht Ha Hn. cbn [parse_fuel]. rewrite trim_edged by by apply good_edged, good_nullable.
  change (s ++ L "?") with (s ++ ["?"%char]).
  rewrite strip_suffix_snoc, Ht. destruct t; try done. by destruct (Hn t).
Qed.

Lemma block_tokens_params parse ps args acc ret :
  Forall (λ p, strip_prefix "^" (name p) = None ∧ parse (name p) = p) ps →
  block_tokens parse (map name ps ++ args) acc ret = block_tokens parse args (acc ++ ps) ret.
Proof.
  intros H. revert acc. induction H as [|p ps [Hc Hp] _ IH]; intros acc; [by rewrite app_nil_r|].
  cbn [map app block_tokens]. rewrite Hc, Hp, IH. unfold vec_push. by rewrite <-app_assoc.
Qed.

Lemma builtin_not_var s : builtin_of s ≠ Instance_ s → s ∉ vars.
Proof. intros Hs Hin. unfold vars_ok in Hvars. rewrite Forall_forall in Hvars. by apply Hs, Hvars. Qed.

Lemma length_join_spaces toks s : s ∈ toks → length s ≤ length (join_spaces toks).
Proof.
  induction toks as [|t toks IH]; intros Hs; [by inv Hs|]. destruct toks as [|t' toks].
  - by apply list_elem_of_singleton in Hs as ->.
  - change (join_spaces (t :: t' :: toks)) with (t ++ L " " ++ join_spaces (t' :: toks)).
    rewrite !length_app. apply elem_of_cons in Hs as [->|Hs]; [lia|]. specialize (IH Hs). lia.
Qed.

Lemma parse_builtin n s t :
  ident s = true → builtin_of s = t → t ≠ Instance_ s → parse_fuel (S n) s vars = t.
Proof.
  intros Hs Ht Hne. rewrite parse_ident by done.
  rewrite decide_False; [done|]. apply builtin_not_var. congruence.
Qed.

Lemma parse_block n ps r :
  Forall (λ p, printable p = true → length (name p) < n → parse_fuel n (name p) vars = p) ps →
  (printable r = true → length (name r) < n → parse_fuel n (name r) vars = r) →
  forallb printable ps = true → ty_eqb r Any = true ∨ printable r = true →
  length (join_spaces (block_toks ps r)) < n →
  block_tokens (λ a, parse_fuel n a vars) (block_toks ps r) [] Any = BlockOf ps r.
Proof.
  intros Hps Hr Bps Br Hn.
  assert (∀ s, s ∈ block_toks ps r → length s < n) as Hl.
  { intros s Hs%length_join_spaces. lia. }
  assert (Forall (λ p, strip_prefix "^" (name p) = None ∧ parse_fuel n (name p) vars = p) ps) as HF.
  { rewrite Forall_forall in Hps |- *. intros p Hp.
    rewrite forallb_forall in Bps. specialize (Bps p). rewrite <-list_elem_of_In in Bps.
    split; [by apply good_no_caret, good_name, Bps|]. apply Hps; [done|by apply Bps|].
    apply Hl. unfold block_toks. apply elem_of_app. left. by apply list_elem_of_fmap_2. }
  destruct (decide (r = Any)) as [->|Hne].
  - unfold block_toks. rewrite block_tokens_params by done. done.
  - rewrite block_toks_ret in Hl |- * by done. rewrite block_tokens_params by done.
    cbn [block_tokens]. change (strip_prefix "^" (L "^" ++ name r)) with (Some (name r)). simpl.
    rewrite Hr; [done| |].
    + destruct Br as [Br|?]; [by apply ty_eqb_spec in Br|done].
    + assert (length (L "^" ++ name r) < n) as H; [|simpl in H; lia].
      apply Hl, elem_of_app. right. by left.
Qed.

Lemma parse_tokens n base toks :
  ident base = true → Forall (λ s, (∀ d, passes d s) ∧ s ≠ []) toks →
  parse_fuel (S n) (base ++ L "(" ++ join_spaces toks ++ L ")") vars =
  parse_generic (λ a, parse_fuel n a vars) base toks.
Proof.
  intros Hb Ht. rewrite parse_paren, split_args_tokens; [done| |done|].
  - eapply Forall_impl; [done|]. by intros s [Hs ?].
  - intros d. apply passes_join. eapply Forall_impl; [done|]. by intros s [Hs ?].
Qed.

Lemma good_token t : printable t = true → (∀ d, passes d (name t)) ∧ name t ≠ [].
Proof. intros Hp. split; [by apply good_name|by apply good_nonempty, good_name]. Qed.

Lemma parse_name t : ∀ n, printable t = true → length (name t) < n → parse_fuel n (name t) vars = t.
Proof.
  induction t as [ | | | | | | | | |t IH|k v IHk IHv|t IH|ps r IHps IHr|m|m|t IH| | ]
    using Ty_ind'; intros [|n] Hp Hn; try lia; try discriminate Hp;
    try (by apply parse_builtin).
  - simpl in Hp, Hn. rewrite !length_app in Hn. simpl in Hn.
    change (name (ListOf t)) with (L "List" ++ L "(" ++ join_spaces [name t] ++ L ")").
    rewrite parse_tokens by (done || by repeat constructor; apply good_token).
    change (ListOf (parse_fuel n (name t) vars) = ListOf t). rewrite IH; [done..|lia].
  - apply andb_true_iff in Hp as [Hk Hv]. rewrite name_map in Hn |- *.
    simpl in Hn. rewrite !length_app in Hn. simpl in Hn.
    rewrite parse_tokens by (done || by repeat constructor; apply good_token).
    change (MapOf (parse_fuel n (name k) vars) (parse_fuel n (name v) vars) = MapOf k v).
    rewrite IHk, IHv; [done|done|lia|done|lia].
  - simpl in Hp, Hn. rewrite !length_app in Hn. simpl in Hn.
    change (name (SetOf t)) with (L "Set" ++ L "(" ++ join_spaces [name t] ++ L ")").
    rewrite parse_tokens by (done || by repeat constructor; apply good_token).
    change (SetOf (parse_fuel n (name t) vars) = SetOf t). rewrite IH; [done..|lia].
  - rewrite name_block in Hn |- *. simpl in Hp. apply andb_true_iff in Hp as [Hps Hr].
    apply orb_true_iff in Hr. rewrite !length_app in Hn. simpl in Hn.
    rewrite parse_tokens; [|done|].
    + change (block_tokens (λ a, parse_fuel n a vars) (block_toks ps r) [] Any = BlockOf ps r).
      apply parse_block; try done; [|by apply IHr|lia].
      eapply Forall_impl; [apply IHps|]. auto.
    + apply Forall_good_toks; try done; [|by intros; apply good_name].
      apply Forall_forall. intros. by apply good_name.
  - simpl in Hp. apply bool_decide_eq_true in Hp. unfold vars_ok in Hvars.
    rewrite Forall_forall in Hvars. change (name (Var m)) with m.
    rewrite parse_ident by by apply Hvars. by rewrite decide_True.
  - simpl in Hp. rewrite !andb_true_iff, bool_decide_eq_true, ty_eqb_spec in Hp.
    destruct Hp as [[Hi Hm] Hb]. change (name (Instance_ m)) with m.
    rewrite parse_ident by done. by rewrite decide_False.
  - simpl in Hp, Hn. apply andb_true_iff in Hp as [Hp Hq]. rewrite length_app in Hn. simpl in Hn.
    apply (parse_nullable n (name t) t); [by apply good_name|apply IH; [done|lia]|by intros ->|].
    intros u ->. done.
Qed.
End Printable.

(** reading back a printed type gives the type again, for every type the
    annotation syntax can express: variables in scope, class names that are
    identifiers other than the builtin names, and [Any] only as the elided
    return type of a block. *)
Theorem parse_name_roundtrip vars t :
  vars_ok vars → printable vars t = true → parse_annotation_str (name t) vars = t.
Proof. intros Hv Hp. apply parse_name; [done..|lia]. Qed.

Lemma parse_name_roundtrip_witness :
  let vars := [L "T"; L "U"] in
  let t := Nullable (BlockOf [ListOf (Var (L "T")); Nullable (Instance_ (L "Foo"))]
                             (BlockOf [] (MapOf String_ (Var (L "U"))))) in
  name t = L "Block(List(T) Foo? ^Block(^Map(String U)))?" ∧
  parse_annotation_str (name t) vars = t.
Proof.
  intros vars t. split; [reflexivity|].
  apply (parse_name_roundtrip vars t); [|reflexivity].
  repeat constructor.
Defined.

(** The printed name of the top type does not read back as the top type: the
    annotation [Any] is taken for a class of that name, with which no other
    concrete type is compatible.  [Object] is the annotation of the top type. *)
Lemma any_reads_as_a_class vars :
  L "Any" ∉ vars →
  parse_annotation_str (name Any) vars = Instance_ (L "Any") ∧
  parse_annotation_str (L "Object") [] = Any ∧
  compatible_with Int (Instance_ (L "Any")) = false.
Proof.
  intros H. split_and!; [|done..]. unfold parse_annotation_str.
  rewrite parse_ident by done. by rewrite decide_False.
Qed.
