(* ===== verification/Hierarchy.v ===== *)
(** * Walking a class hierarchy

    The walk dispatch and the checker share (src/src/dispatch.rs,
    src/src/class_table.rs): from a class to its mixins and then its parent, in
    order, entering no class twice, until a class answers.  The files that
    model those walks as the code writes them show they are instances of
    [walk]; here is what every instance computes: the first answer along one
    linear order of the reachable classes. *)
From stdpp Require Import base numbers list sets fin_sets relations gmap.
From stdpp Require Import options.
From S2P Require Import Prelude.
#[local] Set Warnings "-clear-no-such-hyp".

(** What a class does to the walk: answer, or hand over to its neighbours. *)
Inductive step (K A : Type) : Type :=
| Stop (a : A)
| Go (es : list K).
Arguments Stop {K A} a.
Arguments Go {K A} es.

(** The loop over neighbours: the first answer ends it. *)
Fixpoint walk_list {K V A} (rec : K → V → V * option A) (es : list K) (v : V) : V * option A :=
  match es with
  | [] => (v, None)
  | e :: es => match rec e v with (v', None) => walk_list rec es v' | r => r end
  end.

Section Walk.
Context {K : Type} `{Countable K}.

Fixpoint walk {A} (visit : K → step K A) (fuel : nat) (c : K) (visited : gset K)
    : gset K * option A :=
  match fuel with
  | O => (visited, None)
  | S fuel =>
      if decide (c ∈ visited) then (visited, None)
      else match visit c with
           | Stop a => ({[c]} ∪ visited, Some a)
           | Go es => walk_list (walk visit fuel) es ({[c]} ∪ visited)
           end
  end.

(** The order in which an answerless walk enters the classes. *)
Fixpoint pre_list (rec : K → gset K → gset K * list K) (es : list K) (v : gset K)
    : gset K * list K :=
  match es with
  | [] => (v, [])
  | e :: es =>
      let '(v1, l1) := rec e v in
      let '(v2, l2) := pre_list rec es v1 in
      (v2, l1 ++ l2)
  end.

Fixpoint preorder (edges : K → list K) (fuel : nat) (c : K) (visited : gset K)
    : gset K * list K :=
  match fuel with
  | O => (visited, [])
  | S fuel =>
      if decide (c ∈ visited) then (visited, [])
      else let '(v, l) := pre_list (preorder edges fuel) (edges c) ({[c]} ∪ visited) in
           (v, c :: l)
  end.

Definition answer {A} (visit : K → step K A) (c : K) : option A :=
  match visit c with Stop a => Some a | Go _ => None end.

(** The first answer along a list of classes. *)
Fixpoint first_answer {A} (visit : K → step K A) (l : list K) : option A :=
  match l with
  | [] => None
  | c :: l => match answer visit c with Some a => Some a | None => first_answer visit l end
  end.

Lemma first_answer_app {A} (visit : K → step K A) l1 l2 :
  first_answer visit (l1 ++ l2) =
  match first_answer visit l1 with Some a => Some a | None => first_answer visit l2 end.
Proof. induction l1 as [|c l1 IH]; simpl; [done|]. by destruct (answer visit c). Qed.

Lemma first_answer_None {A} (visit : K → step K A) l :
  first_answer visit l = None ↔ ∀ x, x ∈ l → answer visit x = None.
Proof.
  induction l as [|c l IH]; simpl; [by split; [intros _ x ?%not_elem_of_nil|]|].
  destruct (answer visit c) eqn:E; split.
  - done.
  - intros Hx. rewrite (Hx c) in E by left. done.
  - intros Hl x [->|Hx]%elem_of_cons; [done|]. by apply IH.
  - intros Hx. apply IH. intros x ?. apply Hx. by right.
Qed.

Lemma first_answer_Some {A} (visit : K → step K A) l a :
  first_answer visit l = Some a → ∃ x, x ∈ l ∧ answer visit x = Some a.
Proof.
  induction l as [|c l IH]; simpl; [done|]. destruct (answer visit c) eqn:E.
  - intros [= <-]. exists c. split; [left|done].
  - intros (x & ? & ?)%IH. exists x. split; [by right|done].
Qed.

Lemma first_answer_split {A} (visit : K → step K A) l a :
  first_answer visit l = Some a →
  ∃ l1 x l2, l = l1 ++ x :: l2 ∧ answer visit x = Some a ∧ ∀ y, y ∈ l1 → answer visit y = None.
Proof.
  induction l as [|c l IH]; simpl; [done|]. destruct (answer visit c) eqn:E.
  - intros [= <-]. exists [], c, l. split_and!; [done..|]. by intros y ?%not_elem_of_nil.
  - intros (l1 & x & l2 & -> & ? & Hl1)%IH. exists (c :: l1), x, l2. split_and!; [done..|].
    intros y [->|?]%elem_of_cons; [done|by apply Hl1].
Qed.

(** The classes still to enter bound the depth of the recursion. *)
Definition room (known v : gset K) : nat := size (known ∖ v).

Lemma room_mono known v w : v ⊆ w → room known w ≤ room known v.
Proof. intros Hvw. unfold room. apply subseteq_size. set_solver. Qed.

Lemma room_enter known c v : c ∈ known → c ∉ v → room known ({[c]} ∪ v) < room known v.
Proof. intros Hc Hv. unfold room. apply subset_size. set_solver. Qed.

Lemma room_empty known : room known ∅ = size known.
Proof. unfold room. f_equal. set_solver. Qed.

(** ** A walk finds the first answer *)

Section Edges.
Context (edges : K → list K).

(** A walk follows the graph: it hands over to the neighbours the graph has. *)
Definition follows {A} (visit : K → step K A) : Prop := ∀ c es, visit c = Go es → es = edges c.

Lemma walk_list_first_of {A} (visit : K → step K A) fuel es :
  (∀ c v, (walk visit fuel c v).2 = first_answer visit (preorder edges fuel c v).2 ∧
    ((walk visit fuel c v).2 = None → (walk visit fuel c v).1 = (preorder edges fuel c v).1)) →
  ∀ v,
    (walk_list (walk visit fuel) es v).2 = first_answer visit (pre_list (preorder edges fuel) es v).2 ∧
    ((walk_list (walk visit fuel) es v).2 = None →
     (walk_list (walk visit fuel) es v).1 = (pre_list (preorder edges fuel) es v).1).
Proof.
  intros Hw. induction es as [|e es IHes]; intros v; [done|]. simpl.
  destruct (Hw e v) as [H1 H2].
  destruct (walk visit fuel e v) as [v1 r1], (preorder edges fuel e v) as [w1 l1].
  cbn [fst snd] in *. specialize (IHes w1).
  destruct (pre_list (preorder edges fuel) es w1) as [w2 l2]. cbn [fst snd] in *.
  rewrite first_answer_app, <-H1. destruct r1 as [a|]; [done|].
  by rewrite (H2 eq_refl).
Qed.

Lemma walk_first {A} (visit : K → step K A) (Hf : follows visit) fuel : ∀ c v,
  (walk visit fuel c v).2 = first_answer visit (preorder edges fuel c v).2 ∧
  ((walk visit fuel c v).2 = None → (walk visit fuel c v).1 = (preorder edges fuel c v).1).
Proof.
  induction fuel as [|fuel IH]; intros c v; [done|]. simpl. case_decide; [done|].
  destruct (visit c) as [a|es] eqn:E.
  { destruct (pre_list _ _ _). simpl. unfold answer. by rewrite E. }
  rewrite <-(Hf c es E). destruct (walk_list_first_of visit fuel es IH ({[c]} ∪ v)) as [H1 H2].
  destruct (pre_list _ _ _) as [w l]. cbn [fst snd] in *. split; [|done].
  simpl. unfold answer. by rewrite E.
Qed.

Lemma walk_list_first {A} (visit : K → step K A) (Hf : follows visit) fuel es v :
  (walk_list (walk visit fuel) es v).2 = first_answer visit (pre_list (preorder edges fuel) es v).2 ∧
  ((walk_list (walk visit fuel) es v).2 = None →
   (walk_list (walk visit fuel) es v).1 = (pre_list (preorder edges fuel) es v).1).
Proof. apply walk_list_first_of. intros. by apply walk_first. Qed.

(** ** The order *)

Definition reach : K → K → Prop := rtc (λ x y, y ∈ edges x).

Context (known : gset K) (Hknown : ∀ x, edges x ≠ [] → x ∈ known).
#[local] Set Default Proof Using "Type*".

Lemma edge_known c e : e ∈ edges c → c ∈ known.
Proof. intros He. apply Hknown. intros E. rewrite E in He. by apply not_elem_of_nil in He. Qed.

(** What a walk from [c], or along [es], adds to the entered classes. *)
Definition pre_ok (roots : list K) (v : gset K) (r : gset K * list K) : Prop :=
  r.1 = v ∪ list_to_set r.2 ∧ NoDup r.2 ∧ (∀ x, x ∈ r.2 → x ∉ v) ∧
  (∀ x, x ∈ roots → x ∈ r.1) ∧
  (∀ x y, x ∈ r.2 → y ∈ edges x → y ∈ r.1) ∧
  (∀ x, x ∈ r.2 → ∃ c, c ∈ roots ∧ reach c x).

Lemma pre_list_ok rec es : ∀ v,
  (∀ e w, e ∈ es → v ⊆ w → pre_ok [e] w (rec e w)) → pre_ok es v (pre_list rec es v).
Proof.
  induction es as [|e es IH]; intros v Hrec; simpl.
  { unfold pre_ok. simpl. split_and!; [set_solver|apply NoDup_nil_2|set_solver..]. }
  pose proof (Hrec e v ltac:(left) ltac:(done)) as H1.
  destruct (rec e v) as [v1 l1].
  assert (pre_ok es v1 (pre_list rec es v1)) as H2.
  { apply IH. intros e' w He' Hw. apply Hrec; [by right|].
    destruct H1 as (Hv & _). simpl in Hv. set_solver. }
  destruct (pre_list rec es v1) as [v2 l2]. unfold pre_ok in *. cbn [fst snd] in *.
  destruct H1 as (E1 & N1 & F1 & R1 & C1 & S1), H2 as (E2 & N2 & F2 & R2 & C2 & S2).
  split_and!.
  - set_solver.
  - apply NoDup_app. split_and!; [done| |done]. intros x ?. intros Hx%F2. set_solver.
  - set_solver.
  - set_solver.
  - intros x y [Hx|Hx]%elem_of_app Hy; [|by eapply C2]. pose proof (C1 x y Hx Hy). set_solver.
  - intros x [Hx|Hx]%elem_of_app.
    + destruct (S1 x Hx) as (c & ->%list_elem_of_singleton & ?). exists e. split; [left|done].
    + destruct (S2 x Hx) as (c & ? & ?). exists c. split; [by right|done].
Qed.

Lemma preorder_ok fuel : ∀ c v, room known v < fuel → pre_ok [c] v (preorder edges fuel c v).
Proof.
  induction fuel as [|fuel IH]; intros c v Hroom; [lia|]. simpl. case_decide as Hc.
  { unfold pre_ok. simpl. split_and!; [set_solver|apply NoDup_nil_2|set_solver..]. }
  assert (pre_ok (edges c) ({[c]} ∪ v) (pre_list (preorder edges fuel) (edges c) ({[c]} ∪ v)))
    as HL.
  { apply pre_list_ok. intros e w He Hw. apply IH.
    pose proof (room_mono known _ _ Hw).
    pose proof (room_enter known c v (edge_known c e He) Hc). lia. }
  destruct (pre_list _ _ _) as [w l]. unfold pre_ok in *. cbn [fst snd] in *.
  destruct HL as (HE & HN & HF & HR & HC & HS). split_and!.
  - rewrite HE. set_solver.
  - apply NoDup_cons. split; [|done]. intros Hx%HF. set_solver.
  - intros x [->|Hx]%elem_of_cons; [done|]. apply HF in Hx. set_solver.
  - set_solver.
  - intros x y [->|Hx]%elem_of_cons Hy; [by apply HR|by eapply HC].
  - intros x [->|Hx]%elem_of_cons; exists c; (split; [left|]); [apply rtc_refl|].
    destruct (HS x Hx) as (e & ? & ?). by eapply rtc_l.
Qed.

(** More fuel changes nothing. *)
Lemma preorder_fuel f1 : ∀ f2 c v,
  room known v < f1 → room known v < f2 → preorder edges f1 c v = preorder edges f2 c v.
Proof.
  induction f1 as [|f1 IH]; intros [|f2] c v H1 H2; try lia. simpl. case_decide as Hc; [done|].
  assert (∀ es w, (∀ e, e ∈ es → room known w < f1 ∧ room known w < f2) →
    pre_list (preorder edges f1) es w = pre_list (preorder edges f2) es w) as ->; [|done|].
  - intros es. induction es as [|e es IHes]; intros w Hw; [done|]. simpl.
    destruct (Hw e ltac:(left)) as [Hw1 Hw2]. rewrite (IH f2 e w) by done.
    pose proof (preorder_ok f2 e w Hw2) as (HE & _).
    destruct (preorder edges f2 e w) as [w1 l1]. simpl in HE.
    assert (room known w1 ≤ room known w) by (apply room_mono; set_solver).
    rewrite IHes; [done|]. intros; lia.
  - intros e He. pose proof (room_enter known c v (edge_known c e He) Hc). lia.
Qed.

(** The resolution order of a class. *)
Definition mro (c : K) : list K := (preorder edges (S (size known)) c ∅).2.

Lemma mro_ok c : pre_ok [c] ∅ (preorder edges (S (size known)) c ∅).
Proof. apply preorder_ok. rewrite room_empty. lia. Qed.

Lemma mro_reach c x : x ∈ mro c ↔ reach c x.
Proof.
  unfold mro. pose proof (mro_ok c) as HP. destruct (preorder _ _ _ _) as [w l].
  destruct HP as (HE & _ & _ & HR & HC & HS). cbn [fst snd] in *. split.
  - intros Hx. destruct (HS x Hx) as (c' & ->%list_elem_of_singleton & ?). done.
  - intros Hreach. assert (c ∈ l) as Hc by (specialize (HR c); set_solver).
    assert (∀ a b, a ∈ l → b ∈ edges a → b ∈ l) as HC'.
    { intros a b Ha Hb. specialize (HC a b Ha Hb). set_solver. }
    clear HE HR HS HC. induction Hreach as [|a b d Hab _ IH]; [done|].
    apply IH. by apply (HC' a).
Qed.

Lemma mro_NoDup c : NoDup (mro c).
Proof.
  unfold mro. pose proof (mro_ok c) as HP. destruct (preorder _ _ _ _) as [w l].
  by destruct HP as (_ & ? & _).
Qed.

(** A class comes first in its own order, then its neighbours' orders, each
    without the classes already entered. *)
Lemma mro_cons c :
  mro c = c :: (pre_list (preorder edges (S (size known))) (edges c) {[c]}).2.
Proof.
  unfold mro. cbn [preorder]. rewrite decide_False by apply not_elem_of_empty.
  rewrite union_empty_r_L.
  assert (∀ es w, (∀ e, e ∈ es → room known w < size known) →
    pre_list (preorder edges (size known)) es w =
    pre_list (preorder edges (S (size known))) es w) as ->.
  - intros es. induction es as [|e es IHes]; intros w Hw; [done|]. cbn [pre_list].
    specialize (Hw e ltac:(left)) as Hwe.
    rewrite (preorder_fuel (size known) (S (size known)) e w) by lia.
    pose proof (preorder_ok (S (size known)) e w ltac:(lia)) as (HE & _).
    destruct (preorder edges (S (size known)) e w) as [w1 l1]. simpl in HE.
    assert (room known w1 ≤ room known w) by (apply room_mono; set_solver).
    rewrite IHes; [done|]. intros; lia.
  - by destruct (pre_list _ _ _).
  - intros e He. rewrite <-(room_empty known). rewrite <-(union_empty_r_L {[c]}).
    apply room_enter; [by eapply edge_known|apply not_elem_of_empty].
Qed.

(** With enough fuel, a walk answers with the first answer in the order. *)
Lemma walk_mro {A} (visit : K → step K A) c :
  follows visit → (walk visit (S (size known)) c ∅).2 = first_answer visit (mro c).
Proof. intros Hf. by apply walk_first. Qed.

Lemma walk_None {A} (visit : K → step K A) c :
  follows visit → (walk visit (S (size known)) c ∅).2 = None ↔
  ∀ x, reach c x → answer visit x = None.
Proof.
  intros Hf. rewrite walk_mro, first_answer_None by done.
  split; intros Hx x ?; apply Hx; by apply mro_reach.
Qed.

Lemma walk_Some {A} (visit : K → step K A) c a :
  follows visit → (walk visit (S (size known)) c ∅).2 = Some a →
  ∃ x, reach c x ∧ answer visit x = Some a.
Proof.
  intros Hf. rewrite walk_mro by done. intros (x & Hx & ?)%first_answer_Some.
  exists x. split; [by apply mro_reach|done].
Qed.
End Edges.
End Walk.
