(* ===== verification/ClassTable.v ===== *)
(** * The checker's class-signature table (src/src/class_table.rs)

    [ClassSig], its construction from the VM's description of a class
    (src/src/introspect.rs: [ClassInfo], [MethodInfo], [MethodVariant]), the
    merging table operations and the hierarchy queries of the type checker.
    [populate_from_vm] is modelled on the list of described globals. *)
From stdpp Require Import base numbers list gmap strings.
From Stdlib Require Import Ascii.
From stdpp Require Import options.
From S2P Require Import Prelude Types Hierarchy.

(** ** Data *)

(** introspect.rs, the fields the checker reads. *)
Record MethodVariant := {
  mv_param_types : list (option str);
  mv_ret_type : option str;
}.
Record MethodInfo := { mi_selector : str; mi_variants : list MethodVariant }.
Record ClassInfo := {
  ci_name : str;
  ci_parent : option str;
  ci_mixins : list str;
  ci_instance_methods : list MethodInfo;
  ci_class_methods : list MethodInfo;
  ci_is_sealed : bool;
}.

Record ClassSig := {
  cs_parent : option str;
  cs_mixins : list str;
  cs_own_selectors : gset str;
  cs_sealed : bool;
  cs_has_catch_all : bool;
  cs_from_vm : bool;
  cs_method_params : gmap str (list Ty);
  cs_method_param_variants : gmap str (list (list Ty));
  cs_method_returns : gmap str Ty;
  cs_type_params : list str;
}.

Definition set_method_params (ps : gmap str (list Ty)) (s : ClassSig) : ClassSig :=
  {| cs_parent := cs_parent s; cs_mixins := cs_mixins s; cs_own_selectors := cs_own_selectors s;
     cs_sealed := cs_sealed s; cs_has_catch_all := cs_has_catch_all s; cs_from_vm := cs_from_vm s;
     cs_method_params := ps; cs_method_param_variants := cs_method_param_variants s;
     cs_method_returns := cs_method_returns s; cs_type_params := cs_type_params s |}.
Definition set_method_returns (rs : gmap str Ty) (s : ClassSig) : ClassSig :=
  {| cs_parent := cs_parent s; cs_mixins := cs_mixins s; cs_own_selectors := cs_own_selectors s;
     cs_sealed := cs_sealed s; cs_has_catch_all := cs_has_catch_all s; cs_from_vm := cs_from_vm s;
     cs_method_params := cs_method_params s;
     cs_method_param_variants := cs_method_param_variants s;
     cs_method_returns := rs; cs_type_params := cs_type_params s |}.
Definition set_mixins (ms : list str) (s : ClassSig) : ClassSig :=
  {| cs_parent := cs_parent s; cs_mixins := ms; cs_own_selectors := cs_own_selectors s;
     cs_sealed := cs_sealed s; cs_has_catch_all := cs_has_catch_all s; cs_from_vm := cs_from_vm s;
     cs_method_params := cs_method_params s;
     cs_method_param_variants := cs_method_param_variants s;
     cs_method_returns := cs_method_returns s; cs_type_params := cs_type_params s |}.

(** The entry an [add_*] operation starts from. *)
Definition bare_sig : ClassSig :=
  {| cs_parent := None; cs_mixins := []; cs_own_selectors := ∅; cs_sealed := false;
     cs_has_catch_all := false; cs_from_vm := false; cs_method_params := ∅;
     cs_method_param_variants := ∅; cs_method_returns := ∅; cs_type_params := [] |}.

(** ** From the VM's class description *)

Definition builtin_type_params (name : str) : list str :=
  if decide (name = L "List" ∨ name = L "Set") then [L "T"]
  else if decide (name = L "Map") then [L "K"; L "V"]
  else [].

(** [param_types.iter().all(Option::is_some)], and the unwrapped texts. *)
Definition all_typed (ps : list (option str)) : bool := forallb (λ p, bool_decide (is_Some p)) ps.
Definition parse_params (vars : list str) (ps : list (option str)) : list Ty :=
  map (λ p, parse_annotation_str (default [] p) vars) ps.

(** The tables under construction: single-variant params, variant sets, returns. *)
Record Tables := {
  tb_params : gmap str (list Ty);
  tb_variants : gmap str (list (list Ty));
  tb_returns : gmap str Ty;
}.

(** One turn of the loop over the methods. *)
Definition record_method (vars : list str) (t : Tables) (m : MethodInfo) : Tables :=
  match mi_variants m with
  | [variant] =>
      {| tb_params :=
           if all_typed (mv_param_types variant)
           then <[mi_selector m := parse_params vars (mv_param_types variant)]> (tb_params t)
           else tb_params t;
         tb_variants := tb_variants t;
         tb_returns :=
           match mv_ret_type variant with
           | Some ret => <[mi_selector m := parse_annotation_str ret vars]> (tb_returns t)
           | None => tb_returns t
           end |}
  | vs =>
      if (2 <=? length vs)%nat && forallb (λ v, all_typed (mv_param_types v)) vs
      then {| tb_params := tb_params t;
              tb_variants :=
                <[mi_selector m := map (λ v, parse_params vars (mv_param_types v)) vs]>
                  (tb_variants t);
              tb_returns := tb_returns t |}
      else t
  end.

Definition from_class_info (info : ClassInfo) : ClassSig :=
  let methods := ci_instance_methods info ++ ci_class_methods info in
  let type_params := builtin_type_params (ci_name info) in
  let seeded : gmap str (list Ty) :=
    if decide (ci_name info = L "Set")
    then {[ L "each:" := [parse_annotation_str (L "Block(T ^Any)") type_params] ]}
    else ∅ in
  let t := foldl (record_method type_params)
             {| tb_params := seeded; tb_variants := ∅; tb_returns := ∅ |} methods in
  {| cs_parent := ci_parent info;
     cs_mixins := ci_mixins info;
     cs_own_selectors := list_to_set (map mi_selector methods);
     cs_sealed := ci_is_sealed info;
     cs_has_catch_all := false;
     cs_from_vm := true;
     cs_method_params := tb_params t;
     cs_method_param_variants := tb_variants t;
     cs_method_returns := tb_returns t;
     cs_type_params := type_params |}.

(** ** The table *)

Abbreviation ClassTable := (gmap str ClassSig).
Definition new : ClassTable := ∅.

(** [insert]: what an earlier entry recorded survives ([∪] prefers its left side). *)
Definition merge_sig (existing sig : ClassSig) : ClassSig :=
  {| cs_parent := cs_parent sig;
     cs_mixins := cs_mixins sig;
     cs_own_selectors := cs_own_selectors sig;
     cs_sealed := cs_sealed sig;
     cs_has_catch_all := cs_has_catch_all sig;
     cs_from_vm := cs_from_vm sig;
     cs_method_params :=
       if cs_from_vm sig then cs_method_params existing ∪ cs_method_params sig
       else cs_method_params sig ∪ cs_method_params existing;
     cs_method_param_variants := cs_method_param_variants sig ∪ cs_method_param_variants existing;
     cs_method_returns := cs_method_returns sig ∪ cs_method_returns existing;
     cs_type_params :=
       if decide (cs_type_params sig = []) then cs_type_params existing else cs_type_params sig |}.

Definition insert_sig (t : ClassTable) (name : str) (sig : ClassSig) : ClassTable :=
  <[name := match t !! name with Some existing => merge_sig existing sig | None => sig end]> t.

(** [entry(name).or_insert_with(bare)] and an update of the entry. *)
Definition upsert (f : ClassSig → ClassSig) (t : ClassTable) (name : str) : ClassTable :=
  <[name := f (default bare_sig (t !! name))]> t.

(** [extend] overwrites per selector. *)
Definition add_returns (t : ClassTable) (name : str) (rs : gmap str Ty) : ClassTable :=
  if decide (rs = ∅) then t
  else upsert (λ s, set_method_returns (rs ∪ cs_method_returns s) s) t name.
Definition add_params (t : ClassTable) (name : str) (ps : gmap str (list Ty)) : ClassTable :=
  if decide (ps = ∅) then t
  else upsert (λ s, set_method_params (ps ∪ cs_method_params s) s) t name.

Definition push_mixin (ms : list str) (m : str) : list str :=
  if decide (m ∈ ms) then ms else vec_push ms m.
Definition add_mixins (t : ClassTable) (name : str) (ms : list str) : ClassTable :=
  if decide (ms = []) then t
  else upsert (λ s, set_mixins (foldl push_mixin (cs_mixins s) ms) s) t name.

Definition contains (t : ClassTable) (name : str) : bool := bool_decide (is_Some (t !! name)).
Definition get (t : ClassTable) (name : str) : option ClassSig := t !! name.

(** ** Hierarchy queries

    [visited] is threaded as the code threads its [&mut HashSet].  The fuel
    covers one level per class of the table and one for an unknown class. *)

Fixpoint responds_rec (fuel : nat) (t : ClassTable) (class_name selector : str)
    (visited : gset str) : gset str * option bool :=
  match fuel with
  | O => (visited, Some false)
  | S fuel =>
      if decide (class_name ∈ visited) then (visited, Some false)
      else
        let visited := {[class_name]} ∪ visited in
        match get t class_name with
        | None => (visited, None)
        | Some sig =>
            if cs_has_catch_all sig then (visited, None)
            else if decide (selector ∈ cs_own_selectors sig) then (visited, Some true)
            else
              let fix mixins (ms : list str) (visited : gset str) :=
                match ms with
                | [] =>
                    match cs_parent sig with
                    | Some parent => responds_rec fuel t parent selector visited
                    | None => (visited, Some false)
                    end
                | mixin :: ms =>
                    match responds_rec fuel t mixin selector visited with
                    | (visited, None) => (visited, None)
                    | (visited, Some true) => (visited, Some true)
                    | (visited, Some false) => mixins ms visited
                    end
                end in
              mixins (cs_mixins sig) visited
        end
  end.

Definition table_fuel (t : ClassTable) : nat := S (size (dom t)).

Definition responds_to (t : ClassTable) (class_name selector : str) : option bool :=
  (responds_rec (table_fuel t) t class_name selector ∅).2.

Definition own_method_params (t : ClassTable) (class_name selector : str) : option (list Ty) :=
  get t class_name ≫= λ sig, cs_method_params sig !! selector.

Fixpoint declared_return_rec (fuel : nat) (t : ClassTable) (class selector : str)
    (visited : gset str) : gset str * option (Ty * str) :=
  match fuel with
  | O => (visited, None)
  | S fuel =>
      if decide (class ∈ visited) then (visited, None)
      else
        let visited := {[class]} ∪ visited in
        match get t class with
        | None => (visited, None)
        | Some sig =>
            match cs_method_returns sig !! selector with
            | Some ty => (visited, Some (ty, class))
            | None =>
                let fix mixins (ms : list str) (visited : gset str) :=
                  match ms with
                  | [] =>
                      match cs_parent sig with
                      | Some parent => declared_return_rec fuel t parent selector visited
                      | None => (visited, None)
                      end
                  | mixin :: ms =>
                      match declared_return_rec fuel t mixin selector visited with
                      | (visited, Some found) => (visited, Some found)
                      | (visited, None) => mixins ms visited
                      end
                  end in
                mixins (cs_mixins sig) visited
            end
        end
  end.

Definition declared_return_with_source (t : ClassTable) (class selector : str)
    : option (Ty * str) :=
  (declared_return_rec (table_fuel t) t class selector ∅).2.

Definition declared_return (t : ClassTable) (class selector : str) : option Ty :=
  fst <$> declared_return_with_source t class selector.

Fixpoint declared_params_rec (fuel : nat) (t : ClassTable) (class selector : str)
    (visited : gset str) : gset str * option (list Ty * str) :=
  match fuel with
  | O => (visited, None)
  | S fuel =>
      if decide (class ∈ visited) then (visited, None)
      else
        let visited := {[class]} ∪ visited in
        match get t class with
        | None => (visited, None)
        | Some sig =>
            match cs_method_params sig !! selector with
            | Some ps => (visited, Some (ps, class))
            | None =>
                let fix mixins (ms : list str) (visited : gset str) :=
                  match ms with
                  | [] =>
                      match cs_parent sig with
                      | Some parent => declared_params_rec fuel t parent selector visited
                      | None => (visited, None)
                      end
                  | mixin :: ms =>
                      match declared_params_rec fuel t mixin selector visited with
                      | (visited, Some found) => (visited, Some found)
                      | (visited, None) => mixins ms visited
                      end
                  end in
                mixins (cs_mixins sig) visited
            end
        end
  end.

Definition declared_params_with_source (t : ClassTable) (class selector : str)
    : option (list Ty * str) :=
  (declared_params_rec (table_fuel t) t class selector ∅).2.

(** The loop of [inherited_return] over the mixins. *)
Fixpoint inherited_mixins (t : ClassTable) (selector : str) (ms : list str) (visited : gset str)
    : gset str * option (Ty * str) :=
  match ms with
  | [] => (visited, None)
  | mixin :: ms =>
      match declared_return_rec (table_fuel t) t mixin selector visited with
      | (visited, Some found) => (visited, Some found)
      | (visited, None) => inherited_mixins t selector ms visited
      end
  end.

Definition inherited_return (t : ClassTable) (class selector : str) : option (Ty * str) :=
  match get t class with
  | None => None
  | Some sig =>
      match inherited_mixins t selector (cs_mixins sig) {[class]} with
      | (_, Some found) => Some found
      | (visited, None) =>
          let from_parent :=
            match cs_parent sig with
            | Some parent => (declared_return_rec (table_fuel t) t parent selector visited).2
            | None => None
            end in
          match from_parent with
          | Some found => Some found
          | None =>
              if decide (class = L "Object") then None
              else match get t (L "Object") ≫= (λ s, cs_method_returns s !! selector) with
                   | Some ty => Some (ty, L "Object")
                   | None => None
                   end
          end
      end
  end.

Definition type_params_of (t : ClassTable) (class : str) : list str :=
  match t !! class with Some s => cs_type_params s | None => [] end.

Definition own_method_params_of (t : ClassTable) (class selector : str) : option (list Ty) :=
  t !! class ≫= λ s, cs_method_params s !! selector.

Fixpoint is_subtype_rec (fuel : nat) (t : ClassTable) (sub sup : str) (visited : gset str)
    : gset str * option bool :=
  match fuel with
  | O => (visited, Some false)
  | S fuel =>
      if decide (sub = sup) then (visited, Some true)
      else if decide (sub ∈ visited) then (visited, Some false)
      else
        let visited := {[sub]} ∪ visited in
        match get t sub with
        | None => (visited, None)
        | Some sig =>
            let fix mixins (ms : list str) (visited : gset str) :=
              match ms with
              | [] =>
                  match cs_parent sig with
                  | Some parent => is_subtype_rec fuel t parent sup visited
                  | None => (visited, Some false)
                  end
              | mixin :: ms =>
                  match is_subtype_rec fuel t mixin sup visited with
                  | (visited, None) => (visited, None)
                  | (visited, Some true) => (visited, Some true)
                  | (visited, Some false) => mixins ms visited
                  end
              end in
            mixins (cs_mixins sig) visited
        end
  end.

Definition is_subtype (t : ClassTable) (sub sup : str) : option bool :=
  if decide (sub = sup) then Some true else (is_subtype_rec (table_fuel t) t sub sup ∅).2.

(** ** Populating from the VM *)

(** One described class global: its name, whether the VM has sealed it, and its
    description, if [describe_class] finds one. *)
Definition populate_one (t : ClassTable) (g : str * bool * option ClassInfo) : ClassTable :=
  let '(name, sealed_now, info) := g in
  let skip :=
    match t !! name with
    | Some s => cs_from_vm s && (cs_sealed s || negb sealed_now)
    | None => false
    end in
  if skip then t
  else match info with
       | Some info => insert_sig t name (from_class_info info)
       | None => t
       end.

(** [populate_from_vm], with the known type names it records on the way. *)
Definition populate_from_vm (globals : list (str * bool * option ClassInfo))
    (st : SeenTypes * ClassTable) : SeenTypes * ClassTable :=
  foldl (λ st g, (seen_insert g.1.1 st.1, populate_one st.2 g)) st globals.
