(* ===== verification/ClassTableProps.v ===== *)
(** * Theorems on the class-signature table (src/src/class_table.rs)

    The hierarchy queries are walks (Hierarchy.v), so each answers with the
    first class in the resolution order that settles it; what that makes of
    [responds_to], [is_subtype] and the declared contracts; and that contracts
    once recorded survive every later table operation. *)
From Stdlib Require Import Ascii.
From stdpp Require Import base numbers list gmap strings relations.
From stdpp Require Import options.
From S2P Require Import Prelude Types Hierarchy ClassTable.
#[local] Set Warnings "-clear-no-such-hyp".

(** ** The hierarchy of a table *)

Definition sig_edges (s : ClassSig) : list str := cs_mixins s ++ option_list (cs_parent s).
Definition edges (t : ClassTable) (c : str) : list str :=
  match t !! c with Some s => sig_edges s | None => [] end.

(** The classes reachable over mixins and parents, and their order. *)
Abbreviation ancestor t := (reach (edges t)).
Definition order (t : ClassTable) (c : str) : list str := mro (edges t) (dom t) c.

Lemma edges_known t x : edges t x ≠ [] → x ∈ dom t.
Proof. unfold edges. destruct (t !! x) eqn:E; [|done]. intros _. by apply elem_of_dom_2 in E. Qed.

Lemma order_ancestor t c x : x ∈ order t c ↔ ancestor t c x.
Proof. apply mro_reach, edges_known. Qed.

Definition responds_visit (t : ClassTable) (sel c : str) : step str (option bool) :=
  match t !! c with
  | None => Stop None
  | Some s =>
      if cs_has_catch_all s then Stop None
      else if decide (sel ∈ cs_own_selectors s) then Stop (Some true)
      else Go (sig_edges s)
  end.
Definition return_visit (t : ClassTable) (sel c : str) : step str (Ty * str) :=
  match t !! c with
  | None => Go []
  | Some s => match cs_method_returns s !! sel with Some ty => Stop (ty, c) | None => Go (sig_edges s) end
  end.
Definition params_visit (t : ClassTable) (sel c : str) : step str (list Ty * str) :=
  match t !! c with
  | None => Go []
  | Some s => match cs_method_params s !! sel with Some ps => Stop (ps, c) | None => Go (sig_edges s) end
  end.
Definition subtype_visit (t : ClassTable) (sup c : str) : step str (option bool) :=
  if decide (c = sup) then Stop (Some true)
  else match t !! c with None => Stop None | Some s => Go (sig_edges s) end.

(** Every visit follows the hierarchy. *)
Ltac follow :=
  intros c es; unfold edges; repeat (case_match || case_decide); intros; simplify_eq; done.

Lemma responds_follows t sel : follows (edges t) (responds_visit t sel).
Proof. unfold responds_visit. follow. Qed.
Lemma return_follows t sel : follows (edges t) (return_visit t sel).
Proof. unfold return_visit. follow. Qed.
Lemma params_follows t sel : follows (edges t) (params_visit t sel).
Proof. unfold params_visit. follow. Qed.
Lemma subtype_follows t sup : follows (edges t) (subtype_visit t sup).
Proof. unfold subtype_visit. follow. Qed.

(** ** The recursions of the code are walks *)

(** No answer means the walk contributed nothing: [Some false]. *)
Definition verdict (r : gset str * option (option bool)) : gset str * option bool :=
  (r.1, match r.2 with Some b => b | None => Some false end).

Lemma walk_answers {A} t (visit : str → step str A) fuel c v a :
  follows (edges t) visit → (walk visit fuel c v).2 = Some a → ∃ x, answer visit x = Some a.
Proof.
  intros Hf Ha. rewrite (proj1 (walk_first (edges t) visit Hf fuel c v)) in Ha.
  apply first_answer_Some in Ha as (x & _ & ?). by exists x.
Qed.

Lemma responds_walk_not_false t sel fuel c v :
  (walk (responds_visit t sel) fuel c v).2 ≠ Some (Some false).
Proof.
  intros (x & Hx)%(walk_answers t); [|apply responds_follows].
  unfold answer, responds_visit in Hx. repeat (case_match || case_decide); simplify_eq.
Qed.

Lemma subtype_walk_not_false t sup fuel c v :
  (walk (subtype_visit t sup) fuel c v).2 ≠ Some (Some false).
Proof.
  intros (x & Hx)%(walk_answers t); [|apply subtype_follows].
  unfold answer, subtype_visit in Hx. repeat (case_match || case_decide); simplify_eq.
Qed.

Lemma responds_walk t sel fuel : ∀ c v,
  responds_rec fuel t c sel v = verdict (walk (responds_visit t sel) fuel c v).
Proof.
  induction fuel as [|fuel IH]; intros c v; [done|]. simpl. case_decide; [done|].
  unfold responds_visit at 1, get. destruct (t !! c) as [s|]; [|done].
  destruct (cs_has_catch_all s); [done|]. case_decide; [done|].
  unfold sig_edges. generalize ({[c]} ∪ v). induction (cs_mixins s) as [|m ms IHms]; intros w.
  - simpl. destruct (cs_parent s) as [p|]; [|done]. simpl. rewrite IH.
    by destruct (walk _ _ _ _) as [? [[[]|]|]].
  - simpl. rewrite IH. pose proof (responds_walk_not_false t sel fuel m w) as Hn.
    destruct (walk _ fuel m w) as [w' [[[]|]|]]; cbn in *; done.
Qed.

Lemma return_walk t sel fuel : ∀ c v,
  declared_return_rec fuel t c sel v = walk (return_visit t sel) fuel c v.
Proof.
  induction fuel as [|fuel IH]; intros c v; [done|]. simpl. case_decide; [done|].
  unfold return_visit at 1, get. destruct (t !! c) as [s|]; [|done].
  destruct (cs_method_returns s !! sel); [done|].
  unfold sig_edges. generalize ({[c]} ∪ v). induction (cs_mixins s) as [|m ms IHms]; intros w.
  - simpl. destruct (cs_parent s) as [p|]; [|done]. simpl. rewrite IH.
    by destruct (walk _ _ _ _) as [? []].
  - simpl. rewrite IH. destruct (walk _ fuel m w) as [w' []]; [done|apply IHms].
Qed.

Lemma params_walk t sel fuel : ∀ c v,
  declared_params_rec fuel t c sel v = walk (params_visit t sel) fuel c v.
Proof.
  induction fuel as [|fuel IH]; intros c v; [done|]. simpl. case_decide; [done|].
  unfold params_visit at 1, get. destruct (t !! c) as [s|]; [|done].
  destruct (cs_method_params s !! sel); [done|].
  unfold sig_edges. generalize ({[c]} ∪ v). induction (cs_mixins s) as [|m ms IHms]; intros w.
  - simpl. destruct (cs_parent s) as [p|]; [|done]. simpl. rewrite IH.
    by destruct (walk _ _ _ _) as [? []].
  - simpl. rewrite IH. destruct (walk _ fuel m w) as [w' []]; [done|apply IHms].
Qed.

(** [is_subtype_rec] tests for the target before the visited set; the target is
    never in that set, since the walk ends on it. *)
Lemma subtype_walk t sup fuel : ∀ c v,
  sup ∉ v →
  (is_subtype_rec fuel t c sup v).2 = (verdict (walk (subtype_visit t sup) fuel c v)).2 ∧
  ((walk (subtype_visit t sup) fuel c v).2 = None →
   (is_subtype_rec fuel t c sup v).1 = (walk (subtype_visit t sup) fuel c v).1 ∧
   sup ∉ (walk (subtype_visit t sup) fuel c v).1).
Proof.
  induction fuel as [|fuel IH]; intros c v Hv; [done|]. simpl.
  unfold subtype_visit at 1 3 5 7, get.
  destruct (decide (c = sup)) as [->|Hc]; [by rewrite decide_False|].
  destruct (decide (c ∈ v)); [done|]. destruct (t !! c) as [s|]; [|done].
  unfold sig_edges. assert (sup ∉ {[c]} ∪ v) as Hw by set_solver. clear Hv.
  revert Hw. generalize ({[c]} ∪ v). induction (cs_mixins s) as [|m ms IHms]; intros w Hw.
  - simpl. destruct (cs_parent s) as [p|]; [|done]. simpl. destruct (IH p w Hw) as [H1 H2].
    destruct (walk _ _ _ _) as [w' [r|]]; [done|]. split; [done|by intros _; apply H2].
  - simpl. destruct (IH m w Hw) as [H1 H2].
    pose proof (subtype_walk_not_false t sup fuel m w) as Hn.
    destruct (is_subtype_rec fuel t m sup w) as [v1 r1], (walk _ fuel m w) as [w' r].
    unfold verdict in *. cbn [fst snd] in *. subst r1.
    destruct r as [[[]|]|]; try done.
    destruct (H2 eq_refl) as [-> Hs]. by apply IHms.
Qed.

(** ** The table's fuel is enough *)

Lemma table_walk_None {A} t (visit : str → step str A) c :
  follows (edges t) visit →
  (walk visit (table_fuel t) c ∅).2 = None ↔ ∀ x, ancestor t c x → answer visit x = None.
Proof. intros Hf. by apply (walk_None (edges t) (dom t) (edges_known t)). Qed.

Lemma table_walk_Some {A} t (visit : str → step str A) c a :
  follows (edges t) visit → (walk visit (table_fuel t) c ∅).2 = Some a →
  ∃ x, ancestor t c x ∧ answer visit x = Some a.
Proof. intros Hf. by apply (walk_Some (edges t) (dom t) (edges_known t)). Qed.

Lemma table_walk_order {A} t (visit : str → step str A) c :
  follows (edges t) visit →
  (walk visit (table_fuel t) c ∅).2 = first_answer visit (order t c).
Proof. intros Hf. by apply (walk_mro (edges t) (dom t) (edges_known t)). Qed.

(** ** responds_to *)

Definition defines (t : ClassTable) (sel x : str) : Prop :=
  ∃ s, t !! x = Some s ∧ sel ∈ cs_own_selectors s.
Definition plain (t : ClassTable) (x : str) : Prop :=
  ∃ s, t !! x = Some s ∧ cs_has_catch_all s = false.

Lemma responds_visit_None t sel x :
  answer (responds_visit t sel) x = None ↔ plain t x ∧ ¬ defines t sel x.
Proof.
  unfold answer, responds_visit, plain, defines.
  destruct (t !! x) as [s|]; [|split; [done|by intros [(? & ? & _) _]]].
  destruct (cs_has_catch_all s) eqn:E; [split; [done|]; intros [(s' & [= <-] & ?) _]; congruence|].
  case_decide; split; try done.
  - intros [_ Hn]. exfalso. apply Hn. by exists s.
  - intros _. split; [by exists s|]. by intros (s' & [= <-] & ?).
Qed.

(** the checker's "does not understand" verdict is certain.  It answers no
    exactly when every class reachable over mixins and parents is in the
    table, without a catch-all, and defines no such selector; it answers yes
    only when a reachable class defines it; and it always answers when every
    reachable class is known and plain. *)
Theorem responds_to_exact t c sel :
  (responds_to t c sel = Some true → ∃ x, ancestor t c x ∧ defines t sel x) ∧
  (responds_to t c sel = Some false ↔ ∀ x, ancestor t c x → plain t x ∧ ¬ defines t sel x) ∧
  ((∀ x, ancestor t c x → plain t x) → is_Some (responds_to t c sel)).
Proof.
  unfold responds_to. rewrite responds_walk. unfold verdict. cbn [snd].
  pose proof (responds_follows t sel) as Hf.
  pose proof (responds_walk_not_false t sel (table_fuel t) c ∅) as Hnf.
  pose proof (table_walk_None t _ c Hf) as HN. setoid_rewrite responds_visit_None in HN.
  destruct (walk _ _ c ∅).2 as [b|] eqn:E.
  - apply table_walk_Some in E as (x & Hx & Ha); [|done].
    unfold answer, responds_visit in Ha. destruct (t !! x) as [s|] eqn:Es.
    2:{ injection Ha as <-. split; [done|]. split; [split; [done|]; intros Hall; by apply HN in Hall|].
        intros Hall. destruct (Hall x Hx) as (s & ? & _). congruence. }
    destruct (cs_has_catch_all s) eqn:Ec.
    { injection Ha as <-. split; [done|]. split; [split; [done|]; intros Hall; by apply HN in Hall|].
      intros Hall. destruct (Hall x Hx) as (s' & ? & ?). congruence. }
    case_decide; [|done]. injection Ha as <-. split; [intros _; exists x; split; [done|by exists s]|].
    split; [split; [done|]; intros Hall; by apply HN in Hall|by eexists].
  - split; [done|]. split; [|by eexists]. split; [intros _; by apply HN|done].
Qed.

(** ** is_subtype *)

Lemma subtype_visit_None t sup x :
  answer (subtype_visit t sup) x = None ↔ x ≠ sup ∧ is_Some (t !! x).
Proof.
  unfold answer, subtype_visit. case_decide; [split; [done|tauto]|].
  destruct (t !! x) as [s|]; split; [intros _; split; [done|by eexists]|done|done|by intros [_ [? ?]]].
Qed.

Lemma is_subtype_walk t sub sup :
  is_subtype t sub sup = (verdict (walk (subtype_visit t sup) (table_fuel t) sub ∅)).2.
Proof.
  unfold is_subtype. case_decide as Hs.
  - subst. simpl. rewrite decide_False by apply not_elem_of_empty.
    unfold subtype_visit. by rewrite decide_True.
  - apply subtype_walk, not_elem_of_empty.
Qed.

(** the checker's subtype verdict is certain.  It says yes only for an
    ancestor over mixins and parents, and says no exactly when the whole
    ancestry is in the table and the class is not part of it; it answers
    whenever the ancestry is known.  A no does not require the supposed
    supertype itself to be known. *)
Theorem is_subtype_exact t sub sup :
  (is_subtype t sub sup = Some true → ancestor t sub sup) ∧
  (is_subtype t sub sup = Some false ↔
     (∀ x, ancestor t sub x → is_Some (t !! x)) ∧ ¬ ancestor t sub sup) ∧
  ((∀ x, ancestor t sub x → is_Some (t !! x)) → is_Some (is_subtype t sub sup)) ∧
  ((∀ x, ancestor t sub x → is_Some (t !! x)) → t !! sup = None →
     is_subtype t sub sup = Some false).
Proof.
  assert (is_subtype t sub sup = Some false ↔
     (∀ x, ancestor t sub x → is_Some (t !! x)) ∧ ¬ ancestor t sub sup) as HF.
  { rewrite is_subtype_walk. unfold verdict. cbn [snd].
    pose proof (subtype_walk_not_false t sup (table_fuel t) sub ∅) as Hnf.
    pose proof (table_walk_None t _ sub (subtype_follows t sup)) as HN.
    setoid_rewrite subtype_visit_None in HN.
    assert ((∀ x, ancestor t sub x → x ≠ sup ∧ is_Some (t !! x)) ↔
      (∀ x, ancestor t sub x → is_Some (t !! x)) ∧ ¬ ancestor t sub sup) as HE.
    { split; [intros Hx; split; [by apply Hx|]; intros Hs; by apply Hx in Hs as [? _]|].
      intros [H1 H2] x Hx. split; [by intros ->|by apply H1]. }
    rewrite <-HE, <-HN. destruct (walk _ _ sub ∅).2 as [[[]|]|]; split; done. }
  split_and!.
  - rewrite is_subtype_walk. unfold verdict. cbn [snd].
    destruct (walk _ _ sub ∅).2 as [b|] eqn:E; [|done]. intros ->.
    apply table_walk_Some in E as (x & Hx & Ha); [|apply subtype_follows].
    unfold answer, subtype_visit in Ha. case_decide; [by subst|]. by destruct (t !! x).
  - done.
  - intros Hall. rewrite is_subtype_walk. unfold verdict. cbn [snd].
    destruct (walk _ _ sub ∅).2 as [b|] eqn:E; [|by eexists].
    apply table_walk_Some in E as (x & Hx & Ha); [|apply subtype_follows].
    unfold answer, subtype_visit in Ha. case_decide; [injection Ha as <-; by eexists|].
    destruct (Hall x Hx) as [s Hs]. by rewrite Hs in Ha.
  - intros Hall Hn. apply HF. split; [done|]. intros [s Hs]%Hall. congruence.
Qed.

(** ** Declared contracts: the nearest one *)

Definition own_return (t : ClassTable) (sel x : str) : option Ty :=
  t !! x ≫= λ s, cs_method_returns s !! sel.
Definition own_params (t : ClassTable) (sel x : str) : option (list Ty) :=
  t !! x ≫= λ s, cs_method_params s !! sel.

Lemma return_visit_answer t sel x :
  answer (return_visit t sel) x = (λ ty, (ty, x)) <$> own_return t sel x.
Proof.
  unfold answer, return_visit, own_return. destruct (t !! x) as [s|]; simpl; [|done].
  by destruct (cs_method_returns s !! sel).
Qed.

Lemma params_visit_answer t sel x :
  answer (params_visit t sel) x = (λ ps, (ps, x)) <$> own_params t sel x.
Proof.
  unfold answer, params_visit, own_params. destruct (t !! x) as [s|]; simpl; [|done].
  by destruct (cs_method_params s !! sel).
Qed.

(** [r] is the first class of [l] with its own contract. *)
Definition nearest {A} (own : str → option A) (l : list str) (r : option (A * str)) : Prop :=
  match r with
  | Some (a, d) => ∃ l1 l2, l = l1 ++ d :: l2 ∧ own d = Some a ∧ ∀ y, y ∈ l1 → own y = None
  | None => ∀ y, y ∈ l → own y = None
  end.

Lemma first_answer_nearest {A} (own : str → option A) (visit : str → step str (A * str)) l :
  (∀ x, answer visit x = (λ a, (a, x)) <$> own x) → nearest own l (first_answer visit l).
Proof.
  intros Hv. unfold nearest. destruct (first_answer visit l) as [[a d]|] eqn:E.
  - apply first_answer_split in E as (l1 & x & l2 & -> & Ha & Hl1).
    rewrite Hv in Ha. destruct (own x) as [a'|] eqn:Eo; simplify_eq/=.
    exists l1, l2. split_and!; [done..|]. intros y Hy. specialize (Hl1 y Hy).
    rewrite Hv in Hl1. by destruct (own y).
  - intros y Hy. rewrite first_answer_None in E. specialize (E y Hy). rewrite Hv in E.
    by destruct (own y).
Qed.

Lemma table_fuel_order t c :
  order t c = c :: (pre_list (preorder (edges t) (table_fuel t)) (edges t c) {[c]}).2.
Proof. apply mro_cons, edges_known. Qed.

Lemma inherited_mixins_walk t sel ms : ∀ v,
  inherited_mixins t sel ms v = walk_list (walk (return_visit t sel) (table_fuel t)) ms v.
Proof.
  induction ms as [|m ms IH]; intros v; [done|]. cbn [inherited_mixins walk_list]. rewrite return_walk.
  destruct (walk _ _ m v) as [v' []]; [done|apply IH].
Qed.

Lemma walk_list_app {K V A} (rec : K → V → V * option A) es1 es2 v :
  walk_list rec (es1 ++ es2) v =
  match walk_list rec es1 v with (v', None) => walk_list rec es2 v' | r => r end.
Proof.
  revert v. induction es1 as [|e es1 IH]; intros v; [done|]. simpl.
  destruct (rec e v) as [v' []]; [done|apply IH].
Qed.

Lemma inherited_tail t c sel s :
  t !! c = Some s →
  match inherited_mixins t sel (cs_mixins s) {[c]} with
  | (_, Some found) => Some found
  | (visited, None) =>
      match cs_parent s with
      | Some parent => (declared_return_rec (table_fuel t) t parent sel visited).2
      | None => None
      end
  end = first_answer (return_visit t sel) (tail (order t c)).
Proof.
  intros Hs. rewrite table_fuel_order. cbn [tail].
  rewrite <-(proj1 (walk_list_first (edges t) _ (return_follows t sel) _ _ _)).
  unfold edges at 1. rewrite Hs. unfold sig_edges. rewrite walk_list_app, inherited_mixins_walk.
  destruct (walk_list _ (cs_mixins s) {[c]}) as [v [found|]]; [done|].
  destruct (cs_parent s) as [p|]; [|done]. rewrite return_walk.
  change (option_list (Some p)) with [p]. cbn [walk_list].
  by destruct (walk (return_visit t sel) (table_fuel t) p v) as [? []].
Qed.

(** a declared contract is looked up in the resolution order: the order
    starts with the class itself and lists its ancestors once each, and
    [declared_return_with_source], [declared_params_with_source] and
    [inherited_return] (which skips the class itself and falls back on Object)
    find the first class of it that declares one, with its contract. *)
Theorem contracts_are_nearest t c sel :
  head (order t c) = Some c ∧ NoDup (order t c) ∧ (∀ x, x ∈ order t c ↔ ancestor t c x) ∧
  nearest (own_return t sel) (order t c) (declared_return_with_source t c sel) ∧
  declared_return t c sel = fst <$> declared_return_with_source t c sel ∧
  nearest (own_params t sel) (order t c) (declared_params_with_source t c sel) ∧
  match t !! c with
  | None => inherited_return t c sel = None
  | Some _ => ∃ r, nearest (own_return t sel) (tail (order t c)) r ∧
      inherited_return t c sel =
        match r with
        | Some found => Some found
        | None => if decide (c = L "Object") then None
                  else (λ ty, (ty, L "Object")) <$> own_return t sel (L "Object")
        end
  end.
Proof.
  split_and!.
  - by rewrite table_fuel_order.
  - apply mro_NoDup, edges_known.
  - apply order_ancestor.
  - unfold declared_return_with_source.
    rewrite return_walk, table_walk_order by apply return_follows.
    apply first_answer_nearest, return_visit_answer.
  - done.
  - unfold declared_params_with_source.
    rewrite params_walk, table_walk_order by apply params_follows.
    apply first_answer_nearest, params_visit_answer.
  - unfold inherited_return, get. destruct (t !! c) as [s|] eqn:Es; [|done].
    exists (first_answer (return_visit t sel) (tail (order t c))).
    split; [apply first_answer_nearest, return_visit_answer|].
    rewrite <-(inherited_tail t c sel s Es).
    destruct (inherited_mixins _ _ _ _) as [v [found|]]; [done|].
    destruct (match cs_parent s with Some p => _ | None => None end); [done|].
    case_decide; [done|]. unfold own_return.
    by destruct (t !! L "Object" ≫= _).
Qed.

(** ** Contracts survive *)

Inductive table_op :=
| OpInsert (name : str) (sig : ClassSig)
| OpReturns (name : str) (rs : gmap str Ty)
| OpParams (name : str) (ps : gmap str (list Ty))
| OpMixins (name : str) (ms : list str).

Definition apply_op (t : ClassTable) (op : table_op) : ClassTable :=
  match op with
  | OpInsert name sig => insert_sig t name sig
  | OpReturns name rs => add_returns t name rs
  | OpParams name ps => add_params t name ps
  | OpMixins name ms => add_mixins t name ms
  end.

(** The return contract an operation itself brings for [sel] on [x]. *)
Definition op_return (op : table_op) (sel x : str) : option Ty :=
  match op with
  | OpInsert name sig => if decide (name = x) then cs_method_returns sig !! sel else None
  | OpReturns name rs => if decide (name = x) then rs !! sel else None
  | _ => None
  end.
Definition op_params (op : table_op) (sel x : str) : option (list Ty) :=
  match op with
  | OpInsert name sig => if decide (name = x) then cs_method_params sig !! sel else None
  | OpParams name ps => if decide (name = x) then ps !! sel else None
  | _ => None
  end.

(** Does the operation refresh the entry from the VM, whose parameter types are erased? *)
Definition op_refreshes (op : table_op) : bool :=
  match op with OpInsert _ sig => cs_from_vm sig | _ => false end.

Definition or_else {A} (o1 o2 : option A) : option A :=
  match o1 with Some a => Some a | None => o2 end.

Lemma lookup_union_or_else {A} (m1 m2 : gmap str A) i : (m1 ∪ m2) !! i = or_else (m1 !! i) (m2 !! i).
Proof. rewrite lookup_union. by destruct (m1 !! i), (m2 !! i). Qed.

Lemma own_return_insert t n s sel x :
  own_return (<[n := s]> t) sel x =
  if decide (n = x) then cs_method_returns s !! sel else own_return t sel x.
Proof. unfold own_return. case_decide; subst; [by rewrite lookup_insert_eq|by rewrite lookup_insert_ne]. Qed.

Lemma own_params_insert t n s sel x :
  own_params (<[n := s]> t) sel x =
  if decide (n = x) then cs_method_params s !! sel else own_params t sel x.
Proof. unfold own_params. case_decide; subst; [by rewrite lookup_insert_eq|by rewrite lookup_insert_ne]. Qed.

Lemma own_return_default t n sel :
  cs_method_returns (default bare_sig (t !! n)) !! sel = own_return t sel n.
Proof. unfold own_return. by destruct (t !! n). Qed.

Lemma own_params_default t n sel :
  cs_method_params (default bare_sig (t !! n)) !! sel = own_params t sel n.
Proof. unfold own_params. by destruct (t !! n). Qed.

Lemma apply_op_return t op sel x :
  own_return (apply_op t op) sel x = or_else (op_return op sel x) (own_return t sel x).
Proof.
  destruct op as [n s|n rs|n ps|n ms]; simpl.
  - unfold insert_sig. rewrite own_return_insert. case_decide; subst; [|done].
    unfold own_return. destruct (t !! x) as [e|]; simpl; [apply lookup_union_or_else|].
    by destruct (cs_method_returns s !! sel).
  - unfold add_returns, upsert. case_decide as Hrs.
    { subst. rewrite lookup_empty. by case_decide. }
    rewrite own_return_insert. case_decide; subst; [|done]. simpl.
    by rewrite lookup_union_or_else, own_return_default.
  - unfold add_params, upsert. case_decide; [done|]. rewrite own_return_insert.
    case_decide; subst; [|done]. apply own_return_default.
  - unfold add_mixins, upsert. case_decide; [done|]. rewrite own_return_insert.
    case_decide; subst; [|done]. apply own_return_default.
Qed.

Lemma apply_op_params t op sel x :
  own_params (apply_op t op) sel x =
  if op_refreshes op then or_else (own_params t sel x) (op_params op sel x)
  else or_else (op_params op sel x) (own_params t sel x).
Proof.
  destruct op as [n s|n rs|n ps|n ms]; simpl.
  - unfold insert_sig. rewrite own_params_insert. case_decide; subst.
    + unfold own_params. destruct (t !! x) as [e|]; simpl.
      * destruct (cs_from_vm s); apply lookup_union_or_else.
      * destruct (cs_from_vm s); by destruct (cs_method_params s !! sel).
    + destruct (cs_from_vm s); by destruct (own_params t sel x).
  - unfold add_returns, upsert. case_decide; [done|]. rewrite own_params_insert.
    case_decide; subst; [|done]. apply own_params_default.
  - unfold add_params, upsert. case_decide as Hps.
    { subst. rewrite lookup_empty. by case_decide. }
    rewrite own_params_insert. case_decide; subst; [|done]. simpl.
    by rewrite lookup_union_or_else, own_params_default.
  - unfold add_mixins, upsert. case_decide; [done|]. rewrite own_params_insert.
    case_decide; subst; [|done]. apply own_params_default.
Qed.

(** The latest contract a sequence of operations brings. *)
Definition latest {A} (f : table_op → option A) (ops : list table_op) : option A :=
  foldl (λ o op, or_else (f op) o) None ops.

Lemma foldl_or_else {A} (f : table_op → option A) ops o :
  foldl (λ o op, or_else (f op) o) o ops = or_else (latest f ops) o.
Proof.
  unfold latest. revert o. induction ops as [|op ops IH] using rev_ind; intros o; [done|].
  rewrite !foldl_snoc, IH. by destruct (f op).
Qed.

(** recorded contracts survive every later table operation.  A return type
    is the latest one any operation brought, whatever refreshes and
    redefinitions came after; declared parameters, once recorded, are never
    shadowed by a refresh from the VM, and without refreshes are the latest
    ones brought. *)
Theorem contracts_survive t ops sel x :
  own_return (foldl apply_op t ops) sel x =
    or_else (latest (λ op, op_return op sel x) ops) (own_return t sel x) ∧
  (is_Some (own_params t sel x) → Forall (λ op, op_refreshes op = true) ops →
     own_params (foldl apply_op t ops) sel x = own_params t sel x) ∧
  (Forall (λ op, op_refreshes op = false) ops →
     own_params (foldl apply_op t ops) sel x =
       or_else (latest (λ op, op_params op sel x) ops) (own_params t sel x)) ∧
  (is_Some (own_params t sel x) → is_Some (own_params (foldl apply_op t ops) sel x)).
Proof.
  split_and!.
  - rewrite <-foldl_or_else. revert t. induction ops as [|op ops IH]; intros t; [done|].
    simpl. by rewrite IH, apply_op_return.
  - intros [ps Hps] Hall. rewrite Hps. revert t Hps.
    induction Hall as [|op ops Hop _ IH]; intros t Hps; [done|]. simpl. apply IH.
    by rewrite apply_op_params, Hop, Hps.
  - intros Hall. rewrite <-foldl_or_else. revert t.
    induction Hall as [|op ops Hop _ IH]; intros t; [done|]. simpl.
    by rewrite IH, apply_op_params, Hop.
  - revert t. induction ops as [|op ops IH]; intros t [ps Hps]; [by eexists|]. simpl.
    apply IH. rewrite apply_op_params, Hps. destruct (op_refreshes op); simpl; [by eexists|].
    destruct (op_params op sel x); by eexists.
Qed.

(** * Signatures built from the VM's class descriptions (src/src/class_table.rs)

    What [from_class_info] records of a class, and what it mixes up: the
    methods of instances and of the class itself share the tables.  Concrete
    tables witness the theorems of ClassTableProps.v. *)
#[local] Set Warnings "-clear-no-such-hyp".

(** ** What one method records *)

Definition single_params (vars : list str) (m : MethodInfo) : option (list Ty) :=
  match mi_variants m with
  | [v] => if all_typed (mv_param_types v) then Some (parse_params vars (mv_param_types v)) else None
  | _ => None
  end.
Definition variant_params (vars : list str) (m : MethodInfo) : option (list (list Ty)) :=
  if (2 <=? length (mi_variants m))%nat && forallb (λ v, all_typed (mv_param_types v)) (mi_variants m)
  then Some (map (λ v, parse_params vars (mv_param_types v)) (mi_variants m)) else None.
Definition single_return (vars : list str) (m : MethodInfo) : option Ty :=
  match mi_variants m with
  | [v] => (λ r, parse_annotation_str r vars) <$> mv_ret_type v
  | _ => None
  end.

Definition record_opt {A} (sel : str) (o : option A) (m : gmap str A) : gmap str A :=
  match o with Some a => <[sel := a]> m | None => m end.

Lemma record_method_eq vars t m :
  record_method vars t m =
  {| tb_params := record_opt (mi_selector m) (single_params vars m) (tb_params t);
     tb_variants := record_opt (mi_selector m) (variant_params vars m) (tb_variants t);
     tb_returns := record_opt (mi_selector m) (single_return vars m) (tb_returns t) |}.
Proof.
  unfold record_method, single_params, variant_params, single_return.
  destruct t as [ps vs rs]. destruct (mi_variants m) as [|v [|w ws]]; simpl; [done| |].
  - destruct (all_typed (mv_param_types v)), (mv_ret_type v); done.
  - by destruct (all_typed (mv_param_types v) && _).
Qed.

Lemma lookup_record_opt {A} sel (o : option A) m i :
  record_opt sel o m !! i = or_else (if decide (sel = i) then o else None) (m !! i).
Proof.
  destruct o as [a|]; simpl; case_decide; subst; simpl;
    [by rewrite lookup_insert_eq|by rewrite lookup_insert_ne|done..].
Qed.

(** The last method of the list that records something for [sel]. *)
Definition last_recorded {A} (f : MethodInfo → option A) (sel : str) (ms : list MethodInfo)
    : option A :=
  foldl (λ o m, or_else (if decide (mi_selector m = sel) then f m else None) o) None ms.

Lemma record_methods vars sel ms : ∀ t,
  let r := foldl (record_method vars) t ms in
  tb_params r !! sel = or_else (last_recorded (single_params vars) sel ms) (tb_params t !! sel) ∧
  tb_variants r !! sel = or_else (last_recorded (variant_params vars) sel ms) (tb_variants t !! sel) ∧
  tb_returns r !! sel = or_else (last_recorded (single_return vars) sel ms) (tb_returns t !! sel).
Proof.
  unfold last_recorded. induction ms as [|m ms IH] using rev_ind; intros t; [done|].
  rewrite !foldl_snoc. destruct (IH t) as (H1 & H2 & H3). cbn zeta.
  rewrite record_method_eq. cbn [tb_params tb_variants tb_returns].
  rewrite !lookup_record_opt, H1, H2, H3.
  case_decide; simpl; [|done].
  destruct (single_params vars m), (variant_params vars m), (single_return vars m); done.
Qed.

Lemma last_recorded_Some {A} (f : MethodInfo → option A) sel ms a :
  last_recorded f sel ms = Some a → ∃ m, m ∈ ms ∧ mi_selector m = sel ∧ f m = Some a.
Proof.
  unfold last_recorded. induction ms as [|m ms IH] using rev_ind; [done|].
  rewrite foldl_snoc. case_decide as Hm.
  - destruct (f m) eqn:E; simpl.
    + intros [= <-]. exists m. split_and!; [apply elem_of_app; right; left|done..].
    + intros (m' & ? & ? & ?)%IH. exists m'. split_and!; [apply elem_of_app; by left|done..].
  - simpl. intros (m' & ? & ? & ?)%IH. exists m'. split_and!; [apply elem_of_app; by left|done..].
Qed.

Lemma last_recorded_absent {A} (f : MethodInfo → option A) sel ms :
  sel ∉ map mi_selector ms → last_recorded f sel ms = None.
Proof.
  intros Hs. destruct (last_recorded f sel ms) eqn:E; [|done]. exfalso. apply Hs.
  apply last_recorded_Some in E as (m & Hm & <- & _). by apply list_elem_of_fmap_2.
Qed.

Lemma last_recorded_unique {A} (f : MethodInfo → option A) m ms :
  NoDup (map mi_selector ms) → m ∈ ms → last_recorded f (mi_selector m) ms = f m.
Proof.
  intros Hnd (l1 & l2 & ->)%list_elem_of_split. rewrite map_app in Hnd. simpl in Hnd.
  apply NoDup_app in Hnd as (_ & Hd & [H2 _]%NoDup_cons).
  unfold last_recorded. rewrite foldl_app. cbn [foldl]. rewrite decide_True by done.
  assert (foldl (λ o m', or_else (if decide (mi_selector m' = mi_selector m) then f m' else None) o)
    None l1 = None) as ->.
  { apply (last_recorded_absent f). intros Hin. apply (Hd _ Hin). left. }
  assert (∀ o, foldl (λ o m', or_else (if decide (mi_selector m' = mi_selector m) then f m' else None) o)
    o l2 = o) as ->; [|by destruct (f m)].
  clear Hd. induction l2 as [|m' l2 IH]; intros o; [done|]. simpl in *.
  rewrite decide_False; [apply IH; intros ?; apply H2; by right|]. intros E. apply H2. rewrite E. left.
Qed.

(** The entry seeded for the builtin Set. *)
Definition seeded (info : ClassInfo) (sel : str) : option (list Ty) :=
  if decide (ci_name info = L "Set" ∧ sel = L "each:")
  then Some [parse_annotation_str (L "Block(T ^Any)") [L "T"]] else None.

Lemma from_class_info_tables info sel :
  let methods := ci_instance_methods info ++ ci_class_methods info in
  let vars := builtin_type_params (ci_name info) in
  let sig := from_class_info info in
  cs_method_params sig !! sel =
    or_else (last_recorded (single_params vars) sel methods) (seeded info sel) ∧
  cs_method_param_variants sig !! sel = last_recorded (variant_params vars) sel methods ∧
  cs_method_returns sig !! sel = last_recorded (single_return vars) sel methods.
Proof.
  intros methods vars sig. unfold sig, from_class_info. cbn zeta.
  cbn [cs_method_params cs_method_param_variants cs_method_returns]. fold methods. fold vars.
  match goal with |- context [foldl _ ?t0 _] =>
    destruct (record_methods vars sel methods t0) as (-> & -> & ->) end.
  cbn [tb_params tb_variants tb_returns]. rewrite !lookup_empty. split_and!.
  - f_equal. unfold seeded, vars. destruct (decide (ci_name info = L "Set")) as [Hn|Hn].
    + rewrite Hn. destruct (decide (L "Set" = L "Set" ∧ sel = L "each:")) as [[_ ->]|Hs].
      * apply lookup_singleton_eq.
      * apply lookup_singleton_ne. intros <-. by apply Hs.
    + rewrite (decide_False (P := ci_name info = L "Set" ∧ _)) by tauto. apply lookup_empty.
  - by destruct (last_recorded _ _ _).
  - by destruct (last_recorded _ _ _).
Qed.

(** what the checker trusts of a class the VM describes.  A selector is
    known when either side has a method of that name.  When no selector is on
    both sides, parameters are recorded exactly for a selector whose method
    has a single variant with every parameter typed (and the seeded [each:] of
    Set), variant sets exactly for two or more variants all fully typed, and a
    return exactly for a single variant that declares one. *)
Theorem from_class_info_exact info m :
  let methods := ci_instance_methods info ++ ci_class_methods info in
  let vars := builtin_type_params (ci_name info) in
  let sig := from_class_info info in
  NoDup (map mi_selector methods) → m ∈ methods →
  (∀ sel, sel ∈ cs_own_selectors sig ↔ ∃ m', m' ∈ methods ∧ mi_selector m' = sel) ∧
  cs_method_params sig !! mi_selector m =
    or_else (single_params vars m) (seeded info (mi_selector m)) ∧
  cs_method_param_variants sig !! mi_selector m = variant_params vars m ∧
  cs_method_returns sig !! mi_selector m = single_return vars m ∧
  (∀ sel, sel ∉ map mi_selector methods →
     cs_method_params sig !! sel = seeded info sel ∧
     cs_method_param_variants sig !! sel = None ∧ cs_method_returns sig !! sel = None).
Proof.
  intros methods vars sig Hnd Hm.
  destruct (from_class_info_tables info (mi_selector m)) as (E1 & E2 & E3).
  fold methods vars sig in E1, E2, E3. rewrite E1, E2, E3.
  rewrite !last_recorded_unique by done. split_and!; try done.
  - intros sel. unfold sig, from_class_info. cbn [cs_own_selectors].
    rewrite elem_of_list_to_set, list_elem_of_fmap. fold methods. naive_solver.
  - intros sel Hs. destruct (from_class_info_tables info sel) as (F1 & F2 & F3).
    fold methods vars sig in F1, F2, F3. rewrite F1, F2, F3.
    by rewrite !last_recorded_absent.
Qed.

(** The two sides of a class share the table.  When the class side also has
    a fully typed single-variant method of the selector, the recorded
    parameters are the class side's: an instance's method, itself with one
    fully typed variant, is checked against them. *)
Theorem sides_are_pooled info m1 m2 v1 v2 :
  ci_instance_methods info = [m1] → ci_class_methods info = [m2] →
  mi_selector m1 = mi_selector m2 → mi_variants m1 = [v1] → mi_variants m2 = [v2] →
  all_typed (mv_param_types v1) = true → all_typed (mv_param_types v2) = true →
  cs_method_params (from_class_info info) !! mi_selector m1 =
    Some (parse_params (builtin_type_params (ci_name info)) (mv_param_types v2)).
Proof.
  intros H1 H2 Hs Hv1 Hv2 Ht1 Ht2.
  destruct (from_class_info_tables info (mi_selector m1)) as (-> & _ & _).
  rewrite H1, H2. unfold last_recorded. simpl. rewrite !decide_True by done.
  unfold single_params at 1. by rewrite Hv2, Ht2.
Qed.

(** ** Concrete tables *)

Definition typed_method (sel ty : String.string) : MethodInfo :=
  {| mi_selector := L sel;
     mi_variants := [{| mv_param_types := [Some (L ty)]; mv_ret_type := None |}] |}.
Definition box_info : ClassInfo :=
  {| ci_name := L "Box"; ci_parent := Some (L "Object"); ci_mixins := [L "Iterate"];
     ci_instance_methods := [typed_method "put:" "Integer"];
     ci_class_methods := [typed_method "put:" "String"]; ci_is_sealed := true |}.
Definition cell_info : ClassInfo :=
  {| ci_name := L "Cell"; ci_parent := Some (L "Object"); ci_mixins := [];
     ci_instance_methods := [typed_method "put:" "Integer"];
     ci_class_methods := [typed_method "of:" "String"]; ci_is_sealed := true |}.
Definition plain_info (name : String.string) (sel : String.string) : ClassInfo :=
  {| ci_name := L name; ci_parent := None; ci_mixins := [];
     ci_instance_methods := [{| mi_selector := L sel;
       mi_variants := [{| mv_param_types := []; mv_ret_type := Some (L "Integer") |}] |}];
     ci_class_methods := []; ci_is_sealed := false |}.
Definition demo_table : ClassTable :=
  (populate_from_vm
     [ (L "Box", true, Some box_info); (L "Iterate", false, Some (plain_info "Iterate" "count"));
       (L "Object", false, Some (plain_info "Object" "hash")) ] (with_builtins, new)).2.

Lemma from_class_info_exact_witness :
  let m := typed_method "put:" "Integer" in
  let sig := from_class_info cell_info in
  (∀ sel, sel ∈ cs_own_selectors sig ↔
     ∃ m', m' ∈ ci_instance_methods cell_info ++ ci_class_methods cell_info ∧ mi_selector m' = sel) ∧
  cs_method_params sig !! mi_selector m = or_else (single_params [] m) (seeded cell_info (mi_selector m)) ∧
  cs_method_param_variants sig !! mi_selector m = variant_params [] m ∧
  cs_method_returns sig !! mi_selector m = single_return [] m ∧
  (∀ sel, sel ∉ map mi_selector (ci_instance_methods cell_info ++ ci_class_methods cell_info) →
     cs_method_params sig !! sel = seeded cell_info sel ∧
     cs_method_param_variants sig !! sel = None ∧ cs_method_returns sig !! sel = None).
Proof.
  intros m sig. apply (from_class_info_exact cell_info m).
  - simpl. apply NoDup_cons. split; [|apply NoDup_singleton].
    rewrite list_elem_of_singleton. discriminate.
  - left.
Defined.

Lemma sides_are_pooled_witness :
  cs_method_params (from_class_info box_info) !! L "put:" = Some [String_] ∧
  cs_method_params (from_class_info box_info) !! mi_selector (typed_method "put:" "Integer") =
    Some (parse_params (builtin_type_params (ci_name box_info)) [Some (L "String")]).
Proof.
  split; [vm_compute; reflexivity|].
  apply (sides_are_pooled box_info (typed_method "put:" "Integer") (typed_method "put:" "String")
    {| mv_param_types := [Some (L "Integer")]; mv_ret_type := None |}
    {| mv_param_types := [Some (L "String")]; mv_ret_type := None |}); reflexivity.
Defined.

(** The demo table: Box finds [count] in its mixin and [hash] in its parent; a
    class nobody recorded leaves the question open. *)
Example demo_queries :
  responds_to demo_table (L "Box") (L "count") = Some true ∧
  responds_to demo_table (L "Box") (L "hash") = Some true ∧
  responds_to demo_table (L "Box") (L "sum") = Some false ∧
  responds_to demo_table (L "Crate") (L "count") = None ∧
  declared_return_with_source demo_table (L "Box") (L "hash") = Some (Int, L "Object") ∧
  is_subtype demo_table (L "Box") (L "Iterate") = Some true ∧
  is_subtype demo_table (L "Iterate") (L "Box") = Some false ∧
  is_subtype demo_table (L "Box") (L "Crate") = Some false.
Proof. vm_compute. done. Qed.
