(* ===== verification/Dispatch.v ===== *)
(** * Method dispatch (src/src/dispatch.rs)

    Multimethod resolution: the hierarchy walk, candidate scoring by type
    distance, guards and element tags, the method-resolution cache and its
    invalidation, and the chains method definitions build
    (src/src/vm/class.rs).  Values, classes and names are those of
    src/src/value.rs and src/src/vm/mod.rs, as far as dispatch looks at them.

    A class is named by its address.  A [visited] vector is only ever searched,
    so it is the set of its elements.  Running a guard block is running user
    code: [run_guard] gives its outcome. *)
From stdpp Require Import base numbers list gmap strings.
From Stdlib Require Import Ascii.
From stdpp Require Import options.
From S2P Require Import Prelude Types.

Abbreviation cid := N.

(** ** Names (value.rs) *)

Record NamespacedName := { ns_path : list str; ns_name : str }.

#[export] Instance NamespacedName_eq_dec : EqDecision NamespacedName.
Proof. solve_decision. Defined.
#[export] Program Instance NamespacedName_countable : Countable NamespacedName :=
  inj_countable' (λ n, (ns_path n, ns_name n)) (λ p, {| ns_path := p.1; ns_name := p.2 |}) _.
Next Obligation. by intros []. Qed.

(** [s.split(c)]. *)
Fixpoint split_on (c : ascii) (cur s : str) : list str :=
  match s with
  | [] => [cur]
  | x :: s => if decide (x = c) then cur :: split_on c [] s else split_on c (cur ++ [x]) s
  end.

Definition ns_parse (s : str) : NamespacedName :=
  match strip_prefix "[" s with
  | Some rest =>
      match split_at_char "]" rest with
      | Some (ns_part, close) =>
          {| ns_path := if decide (ns_part = L "/" ∨ ns_part = []) then []
                        else split_on "/" [] ns_part;
             ns_name := drop 1 close |}
      | None => {| ns_path := []; ns_name := s |}
      end
  | None => {| ns_path := []; ns_name := s |}
  end.

Fixpoint join_slash (ss : list str) : str :=
  match ss with [] => [] | [s] => s | s :: ss => s ++ L "/" ++ join_slash ss end.

(** [Display]. *)
Definition ns_show (n : NamespacedName) : str :=
  match ns_path n with
  | [] => ns_name n
  | path => L "[" ++ join_slash path ++ L "]" ++ ns_name n
  end.

(** ** Element tags (runtime/elem_tag.rs) *)

Inductive ElemTag := TInt | TDouble | TBool | TStr | TList | TMap | TSet | TClass (name : str).

#[export] Instance ElemTag_eq_dec : EqDecision ElemTag.
Proof. solve_decision. Defined.

(** ** Values, blocks and methods (value.rs, runtime/method.rs) *)

(** A guard block, by its identity. *)
Abbreviation Guard := N.

Record BlockInfo := {
  bk_id : N;
  bk_param_types : list str;
  bk_param_elem_tags : list (option ElemTag);
  bk_decl_block : option Guard;
}.

Inductive Value :=
| VInt (i : Z)
| VDouble (bits : Z)
| VBool (b : bool)
| VNil
| VObject (id : N) (class : cid) (payload : Payload)
| VClass (c : cid)
| VClassMeta (c : cid)
with Payload :=
| PString | PSymbol | PBytes
| PBlock (b : BlockInfo)
| PInstance
| PList (elem : option ElemTag)
| PMap (elem : option ElemTag)
| PSet (elem : option ElemTag)
| PMethod (selector : str) (body : MethodBody) (is_extension : bool) (next : option Value)
| PNative
with MethodBody :=
| UserBlock (block : Value)
| Native (func : N) (param_types : option (list str))
| ExtDispatch (ext : Value)
| ServiceDispatch (service : Value).

Definition get_block (body : MethodBody) : option Value :=
  match body with UserBlock b => Some b | _ => None end.
Definition native_func (body : MethodBody) : option N :=
  match body with Native f _ => Some f | _ => None end.
Definition ext_dispatch (body : MethodBody) : option Value :=
  match body with ExtDispatch e => Some e | _ => None end.
Definition service_dispatch (body : MethodBody) : option Value :=
  match body with ServiceDispatch s => Some s | _ => None end.
Definition native_param_types (body : MethodBody) : option (list str) :=
  match body with Native _ ts => ts | _ => None end.

Definition value_elem_tag (v : Value) : option ElemTag :=
  match v with VObject _ _ (PList e | PMap e | PSet e) => e | _ => None end.

Definition get_block_from_method (method_val : Value) : option BlockInfo :=
  match method_val with
  | VObject _ _ (PBlock b) => Some b
  | VObject _ _ (PMethod _ body _ _) =>
      match get_block body with Some (VObject _ _ (PBlock b)) => Some b | _ => None end
  | _ => None
  end.

Definition native_method_param_types (method_val : Value) : option (list str) :=
  match method_val with VObject _ _ (PMethod _ body _ _) => native_param_types body | _ => None end.

Definition get_next_method_in_chain (method_val : Value) : option Value :=
  match method_val with VObject _ _ (PMethod _ _ _ next) => next | _ => None end.

(** The loop over [next]: a selector's variants, in definition order. *)
Fixpoint chain_of (method_val : Value) : list Value :=
  method_val ::
  match method_val with
  | VObject _ _ (PMethod _ _ _ (Some next)) => chain_of next
  | _ => []
  end.

Definition candidates_of (start : option Value) : list Value :=
  match start with Some m => chain_of m | None => [] end.

(** ** Classes and the VM state *)

Record Class := {
  cl_name : NamespacedName;
  cl_parent : option cid;
  cl_instance_methods : gmap str Value;
  cl_class_methods : gmap str Value;
  cl_mixin_classes : list cid;
  cl_is_eigenclass : bool;
}.

(** vm/mod.rs, the fields dispatch reads. *)
Record BuiltinCache := {
  bc_nil_class : option cid;
  bc_boolean_class : option cid;
  bc_integer_class : option cid;
  bc_double_class : option cid;
  bc_true_class : option cid;
  bc_false_class : option cid;
}.

(** class_ptr, selector, class_side, n_args, arg_ptrs and arg_kinds, both
    padded with zeros to [METHOD_CACHE_MAX_ARGS]. *)
Definition MethodCacheKey : Type := cid * str * bool * N * list N * list N.
#[export] Instance MethodCacheKey_eq_dec : EqDecision MethodCacheKey := _.
#[export] Instance MethodCacheKey_countable : Countable MethodCacheKey := _.

(** The classes, the globals and the builtin classes: what a walk reads. *)
Record Heap := {
  vm_classes : gmap cid Class;
  vm_globals : gmap NamespacedName Value;
  vm_builtin_cache : BuiltinCache;
}.

(** With the dispatch cache and the epoch. *)
Record Vm := {
  vm_heap :> Heap;
  vm_entries : gmap MethodCacheKey (option Value);
  vm_uncacheable : bool;
  vm_dispatch_epoch : Z;
}.

Definition set_entries (es : gmap MethodCacheKey (option Value)) (vm : Vm) : Vm :=
  {| vm_heap := vm_heap vm; vm_entries := es;
     vm_uncacheable := vm_uncacheable vm; vm_dispatch_epoch := vm_dispatch_epoch vm |}.

(** Following an address. *)
Definition no_class : Class :=
  {| cl_name := {| ns_path := []; ns_name := [] |}; cl_parent := None; cl_instance_methods := ∅;
     cl_class_methods := ∅; cl_mixin_classes := []; cl_is_eigenclass := false |}.
Definition klass (vm : Heap) (c : cid) : Class := default no_class (vm_classes vm !! c).

(** ** Classes of values (vm/call.rs, value.rs) *)

Definition immediate_class (vm : Heap) (receiver : Value) : option cid :=
  let c := vm_builtin_cache vm in
  let or_else (a b : option cid) := match a with Some x => Some x | None => b end in
  match
    match receiver with
    | VInt _ => Some (bc_integer_class c, L "Integer")
    | VDouble _ => Some (bc_double_class c, L "Double")
    | VBool true => Some (or_else (bc_true_class c) (bc_boolean_class c), L "Boolean")
    | VBool false => Some (or_else (bc_false_class c) (bc_boolean_class c), L "Boolean")
    | VNil => Some (bc_nil_class c, L "Nil")
    | _ => None
    end
  with
  | None => None
  | Some (cached, name) =>
      or_else cached
        match vm_globals vm !! ns_parse name with Some (VClass c) => Some c | _ => None end
  end.

Definition get_class_for_lookup (vm : Heap) (receiver : Value) : option cid :=
  match receiver with
  | VInt _ | VDouble _ | VBool _ | VNil => immediate_class vm receiver
  | VObject _ class _ => Some class
  | VClass c | VClassMeta c => Some c
  end.

Definition type_name (vm : Heap) (v : Value) : str :=
  match v with
  | VInt _ => L "Integer"
  | VDouble _ => L "Double"
  | VBool _ => L "Boolean"
  | VNil => L "Nil"
  | VClass _ => L "Class"
  | VClassMeta _ => L "ClassMeta"
  | VObject _ _ PString => L "String"
  | VObject _ _ PSymbol => L "Symbol"
  | VObject _ _ PBytes => L "Bytes"
  | VObject _ _ (PBlock _) => L "Block"
  | VObject _ class _ =>
      let name := ns_show (cl_name (klass vm class)) in
      if decide (name = L "List") then L "List"
      else if decide (name = L "Map") then L "Map"
      else if decide (name = L "Regex") then L "Regex"
      else L "Object"
  end.

(** ** Type distance *)

Definition OBJECT_UNIVERSAL_DISTANCE : Z := 1000000.

(** The climb from a class along its parents; a class's mixins are one hop away. *)
Fixpoint climb (fuel : nat) (vm : Heap) (matches : cid → bool) (curr : option cid) (dist : Z)
    : option Z :=
  match fuel, curr with
  | S fuel, Some clz =>
      if matches clz then Some dist
      else if existsb matches (cl_mixin_classes (klass vm clz)) then Some (dist + 1)%Z
      else climb fuel vm matches (cl_parent (klass vm clz)) (dist + 1)
  | _, _ => None
  end.

(** A parent chain visits no class twice, so it is no longer than the heap. *)
Definition climb_fuel (vm : Heap) : nat := S (size (vm_classes vm)).

Definition hint_matches (vm : Heap) (hint_name : NamespacedName) (clz : cid) : bool :=
  match vm_globals vm !! hint_name with
  | Some (VClass t) => bool_decide (clz = t)
  | _ => bool_decide (cl_name (klass vm clz) = hint_name)
  end.

(** [type_distance] of a hint without a trailing [?]. *)
Definition base_distance (vm : Heap) (val : Value) (hint : str) : option Z :=
  if decide (type_name vm val = hint ∧ hint ≠ L "Object") then Some 0%Z
  else
    match get_class_for_lookup vm val with
    | None => None
    | Some val_class =>
        match climb (climb_fuel vm) vm (hint_matches vm (ns_parse hint)) (Some val_class) 0 with
        | Some d => Some d
        | None => if decide (hint = L "Object") then Some OBJECT_UNIVERSAL_DISTANCE else None
        end
    end.

Fixpoint distance_fuel (fuel : nat) (vm : Heap) (val : Value) (hint : str) : option Z :=
  match fuel with
  | O => None
  | S fuel =>
      match strip_suffix "?" hint with
      | Some base => match val with VNil => Some 0%Z | _ => distance_fuel fuel vm val base end
      | None => base_distance vm val hint
      end
  end.

Definition type_distance (vm : Heap) (val : Value) (hint : str) : option Z :=
  distance_fuel (S (length hint)) vm val hint.

Definition value_matches_type (vm : Heap) (val : Value) (hint : str) : bool :=
  bool_decide (is_Some (type_distance vm val hint)).

(** ** Scores *)

(** The loop over the parameters; [elem_tags.get(i).copied().flatten()] is the
    head of the remaining tags.  Sums are [i64]. *)
Fixpoint score_params (vm : Heap) (hints : list str) (tags : list (option ElemTag))
    (args : list Value) (score : Z) : option Z :=
  match hints, args with
  | hint :: hints, arg :: args =>
      match type_distance vm arg hint with
      | None => None
      | Some d =>
          let score := (score + 2 * d)%Z in
          match head tags with
          | Some (Some required) =>
              if decide (value_elem_tag arg = Some required)
              then score_params vm hints (tail tags) args (score - 1)
              else None
          | _ => score_params vm hints (tail tags) args score
          end
      end
  | _, _ => Some score
  end.

Definition score_param_types (vm : Heap) (param_types : list str) (elem_tags : list (option ElemTag))
    (args : list Value) : option Z :=
  if (length args <? length param_types)%nat then None
  else score_params vm param_types elem_tags args 0.

Definition I64_MAX : Z := 9223372036854775807.

(** [(i64, u8)], compared lexicographically. *)
Definition Score : Type := Z * Z.
Definition score_leb (a b : Score) : bool := (a.1 <? b.1)%Z || ((a.1 =? b.1)%Z && (a.2 <=? b.2)%Z).
Definition score_eqb (a b : Score) : bool := (a.1 =? b.1)%Z && (a.2 =? b.2)%Z.

(** [Iterator::min]. *)
Fixpoint min_score (ss : list Score) : option Score :=
  match ss with
  | [] => None
  | s :: ss =>
      match min_score ss with
      | None => Some s
      | Some m => Some (if score_leb s m then s else m)
      end
  end.

Section Guards.
Context {E : Type} (run_guard : Guard → Value → list Value → result E bool).

Inductive DispatchError :=
| AmbiguousMethod (selector : str) (class_ref : cid) (candidates : list Value)
| GuardError (e : E).

(** [uncacheable] is [dispatch_cache.uncacheable]. *)
Definition match_score (vm : Heap) (receiver method_val : Value) (args : list Value)
    (uncacheable : bool) : bool * result DispatchError (option Score) :=
  match get_block_from_method method_val with
  | None =>
      (uncacheable,
       Ok match native_method_param_types method_val with
          | Some param_types => (λ s, (s, 1%Z)) <$> score_param_types vm param_types [] args
          | None => Some (I64_MAX, 1%Z)
          end)
  | Some block =>
      let uncacheable :=
        if existsb (λ t, bool_decide (is_Some t)) (bk_param_elem_tags block)
        then true else uncacheable in
      match score_param_types vm (bk_param_types block) (bk_param_elem_tags block) args with
      | None => (uncacheable, Ok None)
      | Some param_score =>
          match bk_decl_block block with
          | Some decl_block =>
              (true,
               match run_guard decl_block receiver args with
               | Err e => Err (GuardError e)
               | Ok false => Ok None
               | Ok true => Ok (Some (param_score, 0%Z))
               end)
          | None => (uncacheable, Ok (Some (param_score, 1%Z)))
          end
      end
  end.

(** The applicable candidates with their scores, in order. *)
Fixpoint score_candidates (vm : Heap) (receiver : Value) (args : list Value)
    (candidates : list Value) (uncacheable : bool)
    : bool * result DispatchError (list (Value * Score)) :=
  match candidates with
  | [] => (uncacheable, Ok [])
  | method_val :: candidates =>
      match match_score vm receiver method_val args uncacheable with
      | (unc, Err e) => (unc, Err e)
      | (unc, Ok s) =>
          match score_candidates vm receiver args candidates unc with
          | (unc, Err e) => (unc, Err e)
          | (unc, Ok rest) =>
              (unc, Ok match s with Some s => (method_val, s) :: rest | None => rest end)
          end
      end
  end.

(** The choice among the applicable candidates of one class. *)
Definition choose (selector : str) (class_ref : cid) (applicable : list (Value * Score))
    : result DispatchError (option Value) :=
  match min_score applicable.*2 with
  | None => Ok None
  | Some m =>
      let at_min := (filter (λ p, score_eqb p.2 m = true) applicable).*1 in
      if (2 <=? length at_min)%nat && negb (m.1 =? I64_MAX)%Z
      then Err (AmbiguousMethod selector class_ref at_min)
      else Ok (head at_min)
  end.

(** The loop over the mixins: an error or a method ends the walk, [last] goes on
    with the parent. *)
Fixpoint each_mixin {S : Type} (rec : cid → S → S * result DispatchError (option Value))
    (ms : list cid) (last : S → S * result DispatchError (option Value)) (st : S)
    : S * result DispatchError (option Value) :=
  match ms with
  | [] => last st
  | mixin :: ms =>
      match rec mixin st with
      | (st, Err e) => (st, Err e)
      | (st, Ok (Some method)) => (st, Ok (Some method))
      | (st, Ok None) => each_mixin rec ms last st
      end
  end.

(** [lookup_method_in_class_hierarchy_rec] with its tail [resolve_in_class]. *)
Fixpoint lookup_rec (fuel : nat) (vm : Heap) (class_ref : cid) (receiver : Value) (selector : str)
    (class_side : bool) (args : list Value) (st : gset cid * bool)
    : (gset cid * bool) * result DispatchError (option Value) :=
  match fuel with
  | O => (st, Ok None)
  | S fuel =>
      let '(visited, unc) := st in
      if decide (class_ref ∈ visited) then (st, Ok None)
      else
        let visited := {[class_ref]} ∪ visited in
        let class := klass vm class_ref in
        let methods := if class_side then cl_class_methods class else cl_instance_methods class in
        let candidates := candidates_of (methods !! selector) in
        match score_candidates vm receiver args candidates unc with
        | (unc, Err e) => ((visited, unc), Err e)
        | (unc, Ok applicable) =>
            match choose selector class_ref applicable with
            | Err e => ((visited, unc), Err e)
            | Ok (Some method_val) => ((visited, unc), Ok (Some method_val))
            | Ok None =>
                let rec c st := lookup_rec fuel vm c receiver selector class_side args st in
                each_mixin rec (cl_mixin_classes class)
                  (λ st, match cl_parent class with Some p => rec p st | None => (st, Ok None) end)
                  (visited, unc)
            end
        end
  end.

Definition walk_fuel (vm : Heap) : nat := S (size (dom (vm_classes vm))).

(** The walk of a cache miss: did it examine a guarded or tag-requiring
    candidate, and its result. *)
Definition resolve (vm : Heap) (class_ref : cid) (receiver : Value) (selector : str)
    (class_side : bool) (args : list Value) : bool * result DispatchError (option Value) :=
  let '((_, unc), r) :=
    lookup_rec (walk_fuel vm) vm class_ref receiver selector class_side args (∅, false) in
  (unc, r).

(** ** The cache *)

Definition METHOD_CACHE_MAX_ARGS : nat := 4.

Definition arg_kind (a : Value) : N :=
  match a with
  | VInt _ => 0 | VDouble _ => 1 | VBool _ => 2 | VNil => 3
  | VObject _ _ _ => 4 | VClass _ => 5 | VClassMeta _ => 6
  end%N.

(** The loop over the arguments: their class addresses, if all may be keyed. *)
Fixpoint arg_classes (vm : Heap) (args : list Value) : option (list cid) :=
  match args with
  | [] => Some []
  | a :: args =>
      match get_class_for_lookup vm a with
      | None => None
      | Some ac =>
          if cl_is_eigenclass (klass vm ac) then None
          else (cons ac) <$> arg_classes vm args
      end
  end.

Definition pad (l : list N) : list N := l ++ replicate (METHOD_CACHE_MAX_ARGS - length l) 0%N.

Definition method_cache_key (vm : Heap) (class_ref : cid) (selector : str) (class_side : bool)
    (args : list Value) : option MethodCacheKey :=
  if (METHOD_CACHE_MAX_ARGS <? length args)%nat || cl_is_eigenclass (klass vm class_ref) then None
  else
    match arg_classes vm args with
    | None => None
    | Some ptrs =>
        Some (class_ref, selector, class_side, N.of_nat (length args), pad ptrs,
              pad (map arg_kind args))
    end.

Definition lookup_method_in_class_hierarchy (vm : Vm) (class_ref : cid) (receiver : Value)
    (selector : str) (class_side : bool) (args : list Value)
    : Vm * result DispatchError (option Value) :=
  let key := method_cache_key vm class_ref selector class_side args in
  let cached := match key with Some k => vm_entries vm !! k | None => None end in
  match cached with
  | Some resolved => (vm, Ok resolved)
  | None =>
      (* [uncacheable] is saved, cleared for the walk and restored. *)
      let '(unc, r) := resolve vm class_ref receiver selector class_side args in
      match key, r with
      | Some k, Ok resolved =>
          if unc then (vm, r) else (set_entries (<[k := resolved]> (vm_entries vm)) vm, r)
      | _, _ => (vm, r)
      end
  end.

Definition invalidate_method_cache (vm : Vm) : Vm :=
  {| vm_heap := vm_heap vm; vm_entries := ∅;
     vm_uncacheable := vm_uncacheable vm;
     vm_dispatch_epoch := ((vm_dispatch_epoch vm + 1) mod 2 ^ 64)%Z |}.

(** ** Sends *)

(** What a send invokes.  The compiled overlay [for_block] may find for a block
    is the block. *)
Inductive Callable :=
| CBlock (b : BlockInfo)
| CMeta (c : cid)
| CNew (c : cid)
| CNewNoBlock (c : cid)
| CNative (func : N)
| CExtMethod (ext : Value) (selector : str)
| CServiceMethod (service : Value) (selector : str).

Definition lookup_selector_in_globals (vm : Heap) (selector : str) : option Value :=
  vm_globals vm !! {| ns_path := []; ns_name := selector |}.

(** A hierarchy lookup, then, if nothing is found, [fallback]. *)
Definition lookup_or (vm : Vm) (class_ref : cid) (receiver : Value) (selector : str)
    (class_side : bool) (args : list Value)
    (fallback : Vm → Vm * result DispatchError (option Value))
    : Vm * result DispatchError (option Value) :=
  match lookup_method_in_class_hierarchy vm class_ref receiver selector class_side args with
  | (vm, Err e) => (vm, Err e)
  | (vm, Ok (Some m)) => (vm, Ok (Some m))
  | (vm, Ok None) => fallback vm
  end.

Definition in_globals (selector : str) (vm : Vm) : Vm * result DispatchError (option Value) :=
  (vm, Ok (lookup_selector_in_globals vm selector)).

(** The instance methods of the global class [name], then the globals. *)
Definition in_global_class (name : str) (receiver : Value) (selector : str) (args : list Value)
    (vm : Vm) : Vm * result DispatchError (option Value) :=
  match vm_globals vm !! {| ns_path := []; ns_name := name |} with
  | Some (VClass c) => lookup_or vm c receiver selector false args (in_globals selector)
  | _ => in_globals selector vm
  end.

Definition lookup_method_val (vm : Vm) (receiver : Value) (selector : str) (args : list Value)
    : Vm * result DispatchError (option Value) :=
  match receiver with
  | VClass class_obj =>
      lookup_or vm class_obj receiver selector true args
        (in_global_class (L "Class") receiver selector args)
  | VClassMeta class_obj =>
      lookup_or vm class_obj receiver selector true args
        (in_global_class (L "Object") receiver selector args)
  | _ =>
      match get_class_for_lookup vm receiver with
      | Some class_obj =>
          lookup_or vm class_obj receiver selector false args (in_globals selector)
      | None => in_globals selector vm
      end
  end.

(** The resolved method value as a callable. *)
Definition callable_of (selector : str) (method_val : Value) : option Callable :=
  match method_val with
  | VObject _ _ (PBlock b) => Some (CBlock b)
  | VObject _ _ (PMethod _ body _ _) =>
      match ext_dispatch body with
      | Some ext => Some (CExtMethod ext selector)
      | None =>
          match service_dispatch body with
          | Some service => Some (CServiceMethod service selector)
          | None =>
              match native_func body with
              | Some func => Some (CNative func)
              | None =>
                  match get_block body with
                  | Some (VObject _ _ (PBlock b)) => Some (CBlock b)
                  | _ => None
                  end
              end
          end
      end
  | _ => None
  end.

Definition lookup_method (vm : Vm) (receiver : Value) (selector : str) (args : list Value)
    : Vm * result DispatchError (option Callable) :=
  let general (vm : Vm) :=
    match lookup_method_val vm receiver selector args with
    | (vm, Err e) => (vm, Err e)
    | (vm, Ok None) => (vm, Ok None)
    | (vm, Ok (Some m)) => (vm, Ok (callable_of selector m))
    end in
  match receiver with
  | VClass c =>
      if decide (selector = L "meta") then (vm, Ok (Some (CMeta c)))
      else
        match lookup_method_in_class_hierarchy vm c receiver selector true args with
        | (vm, Err e) => (vm, Err e)
        | (vm, Ok None) =>
            if decide (selector = L "new:") then (vm, Ok (Some (CNew c)))
            else if decide (selector = L "new") then (vm, Ok (Some (CNewNoBlock c)))
            else general vm
        | (vm, Ok (Some _)) => general vm
        end
  | _ => general vm
  end.
End Guards.

Arguments AmbiguousMethod {E} selector class_ref candidates.
Arguments GuardError {E} e.

(** ** Candidates for an error message *)

Fixpoint collect_candidates_rec (fuel : nat) (vm : Heap) (class_ref : cid) (selector : str)
    (class_side : bool) (visited : gset cid) : gset cid * list Value :=
  match fuel with
  | O => (visited, [])
  | S fuel =>
      if decide (class_ref ∈ visited) then (visited, [])
      else
        let visited := {[class_ref]} ∪ visited in
        let class := klass vm class_ref in
        let methods := if class_side then cl_class_methods class else cl_instance_methods class in
        let own := candidates_of (methods !! selector) in
        let fix mixins (ms : list cid) (visited : gset cid) :=
          match ms with
          | [] =>
              match cl_parent class with
              | Some p => collect_candidates_rec fuel vm p selector class_side visited
              | None => (visited, [])
              end
          | mixin :: ms =>
              let '(visited, out) := collect_candidates_rec fuel vm mixin selector class_side visited in
              let '(visited, rest) := mixins ms visited in
              (visited, out ++ rest)
          end in
        let '(visited, rest) := mixins (cl_mixin_classes class) visited in
        (visited, own ++ rest)
  end.

Definition collect_method_candidates (vm : Heap) (receiver : Value) (selector : str) : list Value :=
  let class_side := match receiver with VClass _ | VClassMeta _ => true | _ => false end in
  match get_class_for_lookup vm receiver with
  | Some class => (collect_candidates_rec (walk_fuel vm) vm class selector class_side ∅).2
  | None => []
  end.

(** ** Building a chain (vm/class.rs) *)

Inductive chain_error := InvalidMethodObject | NotANativeState.

Fixpoint append_method_to_chain (chain_start new_method : Value) : result chain_error Value :=
  match chain_start with
  | VObject id class (PMethod sel body ext (Some next)) =>
      match append_method_to_chain next new_method with
      | Ok next => Ok (VObject id class (PMethod sel body ext (Some next)))
      | Err e => Err e
      end
  | VObject id class (PMethod sel body ext None) =>
      Ok (VObject id class (PMethod sel body ext (Some new_method)))
  | _ => Err InvalidMethodObject
  end.

(** Is the node an unguarded user variant with this signature? *)
Definition same_signature (types : list str) (tags : list (option ElemTag)) (node : Value) : bool :=
  match get_block_from_method node with
  | Some eb =>
      bool_decide (bk_decl_block eb = None ∧ bk_param_types eb = types ∧ bk_param_elem_tags eb = tags)
  | None => false
  end.

(** The loop that replaces the first match's body in place; [None] when the
    chain has no match. *)
Fixpoint replace_in_chain (types : list str) (tags : list (option ElemTag)) (new_block_val : Value)
    (node : Value) : option Value :=
  if same_signature types tags node then
    Some match node with
         | VObject id class (PMethod sel _ ext next) =>
             VObject id class (PMethod sel (UserBlock new_block_val) ext next)
         | _ => node
         end
  else
    match node with
    | VObject id class (PMethod sel body ext (Some next)) =>
        (λ next, VObject id class (PMethod sel body ext (Some next)))
          <$> replace_in_chain types tags new_block_val next
    | _ => None
    end.

Definition replace_or_append_method_in_chain (chain_start new_method : Value)
    : result chain_error Value :=
  match get_block_from_method new_method with
  | Some nb =>
      if decide (bk_decl_block nb = None) then
        match new_method with
        | VObject _ _ (PMethod _ body _ _) =>
            match get_block body with
            | Some new_block_val =>
                match replace_in_chain (bk_param_types nb) (bk_param_elem_tags nb) new_block_val
                        chain_start with
                | Some chain => Ok chain
                | None => append_method_to_chain chain_start new_method
                end
            | None => append_method_to_chain chain_start new_method
            end
        | _ => Err NotANativeState
        end
      else append_method_to_chain chain_start new_method
  | None => append_method_to_chain chain_start new_method
  end.
