(* ===== verification/DispatchCache.v ===== *)
(** * The method-resolution cache is transparent (src/src/dispatch.rs)

    A cached answer is the answer the walk would give: the key determines every
    outcome that no guard and no element tag took part in.  This relies on a
    value's type name being determined by its class, which the key does not
    record. *)
From stdpp Require Import base numbers list gmap strings.
From Stdlib Require Import Ascii.
From stdpp Require Import options.
#[local] Set Warnings "-clear-no-such-hyp".
From S2P Require Import Prelude Types Dispatch.

Section Cache.
Context {E : Type} (run_guard : Guard → Value → list Value → result E bool).
Context (name_of : cid → str).
#[local] Set Default Proof Using "Type".

(** The type name of an object is that of its class (per-instance classes,
    which are never keyed, aside). *)
Definition fits (vm : Heap) (v : Value) : Prop :=
  match v with
  | VObject _ c _ => cl_is_eigenclass (klass vm c) = true ∨ type_name vm v = name_of c
  | _ => True
  end.

(** Arguments a key cannot tell apart. *)
Definition alike (vm : Heap) (a b : Value) : Prop :=
  get_class_for_lookup vm a = get_class_for_lookup vm b ∧ arg_kind a = arg_kind b ∧
  type_name vm a = type_name vm b.

Lemma alike_sym vm a b : alike vm a b → alike vm b a.
Proof. intros (? & ? & ?). by split_and!. Qed.

(** ** Scoring *)

Lemma alike_base_distance vm a b hint :
  alike vm a b → base_distance vm a hint = base_distance vm b hint.
Proof. intros (Hc & _ & Hn). unfold base_distance. by rewrite Hn, Hc. Qed.

Lemma alike_distance vm a b hint :
  alike vm a b → type_distance vm a hint = type_distance vm b hint.
Proof.
  intros Hab. unfold type_distance. generalize (S (length hint)). intros fuel.
  revert hint. induction fuel as [|fuel IH]; intros hint; [done|]. simpl.
  destruct (strip_suffix "?" hint) as [base|]; [|by apply alike_base_distance].
  pose proof Hab as (_ & Hk & _).
  destruct a, b; try discriminate Hk; done || apply IH.
Qed.

Lemma alike_score_params vm tags hints : ∀ args1 args2 s,
  existsb (λ t, bool_decide (is_Some t)) tags = false → Forall2 (alike vm) args1 args2 →
  score_params vm hints tags args1 s = score_params vm hints tags args2 s.
Proof.
  revert tags. induction hints as [|h hints IH]; intros tags args1 args2 s Ht Hargs; [by destruct Hargs|].
  destruct Hargs as [|a b args1 args2 Hab Hargs]; [done|]. simpl.
  rewrite (alike_distance vm a b h Hab). destruct (type_distance vm b h); [|done].
  destruct tags as [|[t|] tags]; simpl in *; [by apply IH|done|by apply IH].
Qed.

Lemma alike_score_types vm types tags args1 args2 :
  existsb (λ t, bool_decide (is_Some t)) tags = false → Forall2 (alike vm) args1 args2 →
  score_param_types vm types tags args1 = score_param_types vm types tags args2.
Proof.
  intros Ht Hargs. unfold score_param_types. rewrite (Forall2_length _ _ _ Hargs).
  case_match; [done|by apply alike_score_params].
Qed.

Section Alike.
Context (vm : Heap) (args1 args2 : list Value) (Hargs : Forall2 (alike vm) args1 args2).
Context (recv1 recv2 : Value).
#[local] Set Default Proof Using "Type*".

Lemma match_score_unc recv args m unc :
  (match_score run_guard vm recv m args unc).1 = false → unc = false.
Proof.
  unfold match_score. destruct (get_block_from_method m) as [b|]; [|done].
  destruct (existsb _ _); simpl; destruct (score_param_types _ _ _ _); simpl; try done;
    destruct (bk_decl_block b); done.
Qed.

Lemma match_score_alike m unc :
  (match_score run_guard vm recv1 m args1 unc).1 = false →
  match_score run_guard vm recv2 m args2 unc = match_score run_guard vm recv1 m args1 unc.
Proof.
  unfold match_score. destruct (get_block_from_method m) as [b|].
  2:{ intros _. do 3 f_equal. destruct (native_method_param_types m); [|done].
      by rewrite (alike_score_types vm _ [] _ _ eq_refl Hargs). }
  destruct (existsb _ _) eqn:Et.
  { destruct (score_param_types _ _ _ _); simpl; [|done]. by destruct (bk_decl_block b). }
  rewrite (alike_score_types vm _ _ _ _ Et Hargs).
  destruct (score_param_types _ _ _ args2); simpl; [|done]. by destruct (bk_decl_block b).
Qed.

Lemma score_candidates_unc recv args ms : ∀ unc,
  (score_candidates run_guard vm recv args ms unc).1 = false → unc = false.
Proof.
  induction ms as [|m ms IH]; intros unc; [done|]. simpl.
  pose proof (match_score_unc recv args m unc) as Hm.
  destruct (match_score _ _ _ _ _ unc) as [u [s|e]]; [|done].
  specialize (IH u). destruct (score_candidates _ _ _ _ _ u) as [u' [r|e]]; cbn [fst snd] in *; auto.
Qed.

Lemma score_candidates_alike ms : ∀ unc,
  (score_candidates run_guard vm recv1 args1 ms unc).1 = false →
  score_candidates run_guard vm recv2 args2 ms unc = score_candidates run_guard vm recv1 args1 ms unc.
Proof.
  induction ms as [|m ms IH]; intros unc; [done|]. simpl.
  pose proof (match_score_alike m unc) as Hm.
  destruct (match_score run_guard vm recv1 m args1 unc) as [u [s|e]]; cbn [fst snd] in *.
  2:{ intros Hu. by rewrite (Hm Hu). }
  pose proof (score_candidates_unc recv1 args1 ms u) as Hc. specialize (IH u).
  destruct (score_candidates run_guard vm recv1 args1 ms u) as [u' [r|e]]; cbn [fst snd] in *;
    intros ->; rewrite (Hm (Hc eq_refl)), (IH eq_refl); done.
Qed.

(** ** The walk *)

Lemma each_mixin_unc (rec : cid → gset cid * bool → _ * result (@DispatchError E) (option Value))
    last ms :
  (∀ c st, (rec c st).1.2 = false → st.2 = false) →
  (∀ st, (last st).1.2 = false → st.2 = false) →
  ∀ st, (each_mixin rec ms last st).1.2 = false → st.2 = false.
Proof.
  intros Hrec Hlast. induction ms as [|m ms IH]; intros st; [apply Hlast|]. simpl.
  specialize (Hrec m st). destruct (rec m st) as [st' [[x|]|e]]; cbn [fst] in *; auto.
Qed.

Lemma each_mixin_alike (rec1 rec2 : cid → gset cid * bool → _ * result (@DispatchError E) (option Value))
    last1 last2 ms :
  (∀ c st, (rec1 c st).1.2 = false → st.2 = false) →
  (∀ st, (last1 st).1.2 = false → st.2 = false) →
  (∀ c st, (rec1 c st).1.2 = false → rec2 c st = rec1 c st) →
  (∀ st, (last1 st).1.2 = false → last2 st = last1 st) →
  ∀ st, (each_mixin rec1 ms last1 st).1.2 = false →
  each_mixin rec2 ms last2 st = each_mixin rec1 ms last1 st.
Proof.
  intros Hu Hlu Hrec Hlast. induction ms as [|m ms IH]; intros st; [apply Hlast|]. simpl.
  specialize (Hrec m st). pose proof (each_mixin_unc rec1 last1 ms Hu Hlu) as Hm.
  destruct (rec1 m st) as [st' [[x|]|e]]; cbn [fst] in *.
  - intros H. by rewrite (Hrec H).
  - intros H. rewrite (Hrec (Hm _ H)). by apply IH.
  - intros H. by rewrite (Hrec H).
Qed.

Lemma lookup_rec_unc recv args sel side fuel : ∀ c st,
  (lookup_rec run_guard fuel vm c recv sel side args st).1.2 = false → st.2 = false.
Proof.
  induction fuel as [|fuel IH]; intros c [v unc]; [done|]. cbn [lookup_rec].
  case_decide; [done|]. set (cands := candidates_of _).
  pose proof (score_candidates_unc recv args cands unc) as Hs.
  destruct (score_candidates _ _ _ _ cands unc) as [u [app|e]]; [|done].
  destruct (choose sel c app) as [[m|]|e]; [done| |done].
  intros Hu. apply Hs. cbn [fst snd] in *. eapply (each_mixin_unc _ _ _ IH) in Hu; [done|].
  intros st. destruct (cl_parent _); [apply IH|done].
Qed.

Lemma lookup_rec_alike sel side fuel : ∀ c st,
  (lookup_rec run_guard fuel vm c recv1 sel side args1 st).1.2 = false →
  lookup_rec run_guard fuel vm c recv2 sel side args2 st =
  lookup_rec run_guard fuel vm c recv1 sel side args1 st.
Proof.
  induction fuel as [|fuel IH]; intros c [v unc]; [done|]. cbn [lookup_rec].
  case_decide; [done|]. set (cands := candidates_of _).
  pose proof (score_candidates_alike cands unc) as Hs.
  destruct (score_candidates run_guard vm recv1 args1 cands unc) as [u [app|e]] eqn:E1;
    cbn [fst snd] in *.
  2:{ intros Hu. by rewrite (Hs Hu). }
  destruct (choose sel c app) as [[m|]|e] eqn:Ec; cbn [fst snd] in *.
  - intros Hu. by rewrite (Hs Hu), Ec.
  - intros Hu. assert (u = false) as Hu'.
    { eapply (each_mixin_unc _ _ _ (lookup_rec_unc recv1 args1 sel side fuel)) in Hu; [done|].
      intros st. destruct (cl_parent _); [apply lookup_rec_unc|done]. }
    rewrite (Hs Hu'), Ec. apply each_mixin_alike; try done; try apply lookup_rec_unc.
    + intros st. destruct (cl_parent _); [apply lookup_rec_unc|done].
    + intros st. destruct (cl_parent _); [apply IH|done].
  - intros Hu. by rewrite (Hs Hu), Ec.
Qed.

(** An outcome no guard and no tag took part in does not depend on which of the
    alike arguments, nor on which receiver, it was computed for. *)
Lemma resolve_alike c sel side :
  (resolve run_guard vm c recv1 sel side args1).1 = false →
  resolve run_guard vm c recv2 sel side args2 = resolve run_guard vm c recv1 sel side args1.
Proof.
  unfold resolve. pose proof (lookup_rec_alike sel side (walk_fuel vm) c (∅, false)) as H.
  destruct (lookup_rec run_guard _ vm c recv1 sel side args1 _) as [[v u] r]. cbn [fst snd] in *.
  intros Hu. by rewrite (H Hu).
Qed.
End Alike.

(** ** Keys *)

Lemma arg_classes_spec vm args ptrs :
  arg_classes vm args = Some ptrs →
  Forall2 (λ a p, get_class_for_lookup vm a = Some p ∧ cl_is_eigenclass (klass vm p) = false) args ptrs.
Proof.
  revert ptrs. induction args as [|a args IH]; intros ptrs; simpl; [by intros [= <-]|].
  destruct (get_class_for_lookup vm a) as [ac|] eqn:Ea; [|done].
  destruct (cl_is_eigenclass (klass vm ac)) eqn:Ee; [done|].
  destruct (arg_classes vm args) as [ps|]; [|done]. intros [= <-]. constructor; [done|by apply IH].
Qed.

Lemma pad_inj l l' : length l = length l' → pad l = pad l' → l = l'.
Proof. unfold pad. intros Hlen H. by apply app_inj_1 in H as [? _]. Qed.

Lemma fits_type_name vm a b p :
  fits vm a → fits vm b → get_class_for_lookup vm a = Some p →
  get_class_for_lookup vm b = Some p → cl_is_eigenclass (klass vm p) = false →
  arg_kind a = arg_kind b → type_name vm a = type_name vm b.
Proof.
  intros Ha Hb Hpa Hpb He Hk.
  destruct a as [?|?|?| |? ca ?|?|?], b as [?|?|?| |? cb ?|?|?]; try discriminate Hk; try done.
  unfold fits in *. simpl in Hpa, Hpb. simplify_eq.
  destruct Ha as [?|Ha], Hb as [?|Hb]; congruence.
Qed.

Lemma key_alike vm c1 c2 sel1 sel2 side1 side2 args1 args2 k :
  Forall (fits vm) args1 → Forall (fits vm) args2 →
  method_cache_key vm c1 sel1 side1 args1 = Some k →
  method_cache_key vm c2 sel2 side2 args2 = Some k →
  c1 = c2 ∧ sel1 = sel2 ∧ side1 = side2 ∧ Forall2 (alike vm) args1 args2.
Proof.
  unfold method_cache_key. intros F1 F2.
  destruct (_ || _); [done|]. destruct (arg_classes vm args1) as [p1|] eqn:E1; [|done].
  intros [= <-]. destruct (_ || _); [done|]. destruct (arg_classes vm args2) as [p2|] eqn:E2; [|done].
  intros [= -> -> -> Hlen Hp Hk]. split_and!; [done..|].
  assert (length args1 = length args2) as Hl by lia. clear Hlen.
  apply arg_classes_spec in E1, E2.
  apply pad_inj in Hk; [|by rewrite !length_map].
  apply pad_inj in Hp; [|by rewrite <-(Forall2_length _ _ _ E1), <-(Forall2_length _ _ _ E2)].
  subst p2. clear -F1 F2 E1 E2 Hk. revert args2 F1 F2 E2 Hk.
  induction E1 as [|a p args1 ps [Hp He] _ IH]; intros [|b args2] F1 F2 E2 Hk; try done.
  apply Forall2_cons in E2 as [[Hp' _] E2]. cbn [map] in Hk. injection Hk as Hk Hks.
  apply Forall_cons in F1 as [Fa F1], F2 as [Fb F2].
  constructor; [|by apply IH]. split_and!; [congruence|done|by eapply fits_type_name].
Qed.

(** ** The invariant of the cache *)

Definition cache_ok (vm : Vm) : Prop :=
  ∀ k r, vm_entries vm !! k = Some r →
  ∀ c recv sel side args,
    Forall (fits vm) args → method_cache_key vm c sel side args = Some k →
    resolve run_guard vm c recv sel side args = (false, Ok r).

Lemma lookup_transparent (vm : Vm) c recv sel side args :
  cache_ok vm → Forall (fits vm) args →
  let '(vm', r) := lookup_method_in_class_hierarchy run_guard vm c recv sel side args in
  r = (resolve run_guard vm c recv sel side args).2 ∧ vm_heap vm' = vm_heap vm ∧ cache_ok vm'.
Proof.
  intros Hok Hfit. unfold lookup_method_in_class_hierarchy.
  destruct (method_cache_key vm c sel side args) as [k|] eqn:Ek.
  2:{ by destruct (resolve _ _ _ _ _ _ _). }
  destruct (vm_entries vm !! k) as [r|] eqn:Er.
  { by rewrite (Hok k r Er c recv sel side args). }
  destruct (resolve run_guard vm c recv sel side args) as [unc [r|e]] eqn:Eres; [|done].
  destruct unc; [done|]. split_and!; [done..|].
  intros k' r' Hk' c' recv' sel' side' args' Hfit' Ek'.
  cbn [set_entries vm_entries vm_heap] in *. destruct (decide (k = k')) as [<-|Hne].
  - rewrite lookup_insert_eq in Hk'. injection Hk' as <-.
    destruct (key_alike vm c c' sel sel' side side' args args' k) as (<- & <- & <- & Halike); [done..|].
    change (resolve run_guard vm c recv' sel side args' = (false, Ok r)). rewrite <-Eres.
    apply (resolve_alike vm args args' Halike recv recv'). by rewrite Eres.
  - rewrite lookup_insert_ne in Hk' by done. by apply (Hok k' r' Hk').
Qed.

(** ** Runs *)

(** What happens to a VM: sends look methods up, and anything that changes
    classes, globals or builtin classes (method and class definitions, mixins,
    unregistration) invalidates the cache afterwards. *)
Inductive dispatch_step (vm : Vm) : Vm → Prop :=
| StepLookup c recv sel side args :
    Forall (fits vm) args →
    dispatch_step vm (lookup_method_in_class_hierarchy run_guard vm c recv sel side args).1
| StepChange heap :
    dispatch_step vm (invalidate_method_cache
      {| vm_heap := heap; vm_entries := vm_entries vm; vm_uncacheable := vm_uncacheable vm;
         vm_dispatch_epoch := vm_dispatch_epoch vm |}).

Lemma dispatch_step_ok vm vm' : cache_ok vm → dispatch_step vm vm' → cache_ok vm'.
Proof.
  intros Hok [c recv sel side args Hfit|heap].
  - pose proof (lookup_transparent vm c recv sel side args Hok Hfit) as H.
    by destruct (lookup_method_in_class_hierarchy _ _ _ _ _ _ _) as [vm'' r]; destruct H as (_ & _ & ?).
  - intros k r Hk. cbn in Hk. by rewrite lookup_empty in Hk.
Qed.
End Cache.

(** C24: the method cache is transparent.  From a VM with an empty cache, over
    any sequence of lookups and of changes that invalidate, every lookup
    answers exactly what the uncached walk over the current classes answers
    (errors included) and changes nothing but the cache; provided that the
    type name of an argument is determined by its class. *)
Theorem dispatch_cache_transparent {E} (run_guard : Guard → Value → list Value → result E bool)
    (name_of : cid → str) (start vm : Vm) c recv sel side args :
  vm_entries start = ∅ → rtc (dispatch_step run_guard name_of) start vm →
  Forall (fits name_of vm) args →
  (lookup_method_in_class_hierarchy run_guard vm c recv sel side args).2 =
    (resolve run_guard vm c recv sel side args).2 ∧
  vm_heap (lookup_method_in_class_hierarchy run_guard vm c recv sel side args).1 = vm_heap vm.
Proof.
  intros Hstart Hrun Hfit.
  assert (cache_ok run_guard name_of vm) as Hok.
  { assert (cache_ok run_guard name_of start) as H0.
    { intros k r Hk. by rewrite Hstart, lookup_empty in Hk. }
    clear -H0 Hrun. induction Hrun as [|vm1 vm2 vm3 H12 _ IH]; [done|].
    apply IH. by eapply dispatch_step_ok. }
  pose proof (lookup_transparent run_guard name_of vm c recv sel side args Hok Hfit) as H.
  by destruct (lookup_method_in_class_hierarchy _ _ _ _ _ _ _); destruct H as (? & ? & _).
Qed.
