(* ===== verification/DispatchOrder.v ===== *)
(** * What dispatch resolves to (src/src/dispatch.rs)

    The uncached walk answers with the first class of the resolution order that
    decides the send; within a class the lowest score wins; how the type
    distance climbs; what defining a method does to a selector's chain. *)
From stdpp Require Import base numbers list gmap strings relations.
From Stdlib Require Import Ascii.
From stdpp Require Import options.
#[local] Set Warnings "-clear-no-such-hyp".
From S2P Require Import Prelude Types Hierarchy Dispatch.

(** ** The hierarchy of a heap *)

Definition class_edges (vm : Heap) (c : cid) : list cid :=
  cl_mixin_classes (klass vm c) ++ option_list (cl_parent (klass vm c)).

Lemma class_edges_known vm x : class_edges vm x ≠ [] → x ∈ dom (vm_classes vm).
Proof.
  unfold class_edges, klass. destruct (vm_classes vm !! x) eqn:Ex; [|done].
  intros _. by apply elem_of_dom_2 in Ex.
Qed.

(** The order in which a send visits the classes. *)
Definition dispatch_order (vm : Heap) (c : cid) : list cid :=
  mro (class_edges vm) (dom (vm_classes vm)) c.

Definition own_candidates (vm : Heap) (selector : str) (side : bool) (c : cid) : list Value :=
  candidates_of ((if side then cl_class_methods (klass vm c)
                  else cl_instance_methods (klass vm c)) !! selector).

Section Order.
Context {E : Type} (run_guard : Guard → Value → list Value → result E bool).
Context (vm : Heap) (recv : Value) (sel : str) (side : bool) (args : list Value).
#[local] Set Default Proof Using "Type".

(** What one class, on its own, makes of the send. *)
Definition class_resolves (c : cid) : result (@DispatchError E) (option Value) :=
  match (score_candidates run_guard vm recv args (own_candidates vm sel side c) false).2 with
  | Err e => Err e
  | Ok applicable => choose sel c applicable
  end.

Definition dispatch_visit (c : cid) : step cid (result (@DispatchError E) (option Value)) :=
  match class_resolves c with
  | Ok None => Go (class_edges vm c)
  | Ok (Some m) => Stop (Ok (Some m))
  | Err e => Stop (Err e)
  end.

Lemma dispatch_follows : follows (class_edges vm) dispatch_visit.
Proof. intros c es. unfold dispatch_visit. destruct (class_resolves c) as [[]|]; by intros [= <-]. Qed.

Lemma match_score_flag m unc :
  (match_score run_guard vm recv m args unc).2 = (match_score run_guard vm recv m args false).2.
Proof.
  unfold match_score. destruct (get_block_from_method m) as [b|]; [|done].
  destruct (existsb _ _), (score_param_types _ _ _ _); simpl; try done; by destruct (bk_decl_block b).
Qed.

Lemma score_candidates_flag ms : ∀ unc unc',
  (score_candidates run_guard vm recv args ms unc).2 =
  (score_candidates run_guard vm recv args ms unc').2.
Proof.
  induction ms as [|m ms IH]; intros unc unc'; [done|]. simpl.
  pose proof (match_score_flag m unc) as H1. pose proof (match_score_flag m unc') as H2.
  destruct (match_score _ _ _ _ _ unc) as [u r], (match_score _ _ _ _ _ unc') as [u' r'].
  cbn [snd] in *. rewrite <-H1 in H2. subst r'. clear H1. destruct r as [s|e]; [|done]. specialize (IH u u').
  destruct (score_candidates _ _ _ _ _ u) as [w r1], (score_candidates _ _ _ _ _ u') as [w' r2].
  cbn [snd] in *. subst r2. by destruct r1.
Qed.

(** The result of a walk: no answer is [Ok None]. *)
Definition outcome {A} (r : option (result (@DispatchError E) (option A)))
    : result (@DispatchError E) (option A) :=
  match r with Some r => r | None => Ok None end.

Lemma each_mixin_walk (rec : cid → gset cid * bool → _ * result (@DispatchError E) (option Value))
    fuel p ms :
  (∀ c st, (rec c st).2 = outcome (walk dispatch_visit fuel c st.1).2 ∧
           (rec c st).1.1 = (walk dispatch_visit fuel c st.1).1) →
  ∀ st,
  let last st := match p with Some p => rec p st | None => (st, Ok None) end in
  let w := walk_list (walk dispatch_visit fuel) (ms ++ option_list p) st.1 in
  (each_mixin rec ms last st).2 = outcome w.2 ∧ (each_mixin rec ms last st).1.1 = w.1.
Proof.
  intros Hrec. cbn zeta. induction ms as [|m ms IH]; intros st.
  - destruct p as [p|]; [|done]. change (option_list (Some p)) with [p]. simpl.
    destruct (Hrec p st) as [H1 H2]. by destruct (walk _ _ p _) as [? []].
  - simpl. destruct (Hrec m st) as [H1 H2].
    assert ((walk dispatch_visit fuel m st.1).2 ≠ Some (Ok None)) as Hne.
    { intros Ha. rewrite (proj1 (walk_first _ _ dispatch_follows fuel m st.1)) in Ha.
      apply first_answer_Some in Ha as (x & _ & Ha). unfold answer, dispatch_visit in Ha.
      by destruct (class_resolves x) as [[]|]. }
    destruct (rec m st) as [st' r], (walk dispatch_visit fuel m st.1) as [w a].
    cbn [fst snd] in *. subst r w. destruct a as [[[x|]|e]|]; cbn in *; done.
Qed.

Lemma lookup_rec_walk fuel : ∀ c st,
  (lookup_rec run_guard fuel vm c recv sel side args st).2 =
    outcome (walk dispatch_visit fuel c st.1).2 ∧
  (lookup_rec run_guard fuel vm c recv sel side args st).1.1 = (walk dispatch_visit fuel c st.1).1.
Proof.
  induction fuel as [|fuel IH]; intros c [v unc]; [done|]. cbn [lookup_rec walk fst snd].
  case_decide; [done|]. unfold dispatch_visit at 1 3, class_resolves.
  rewrite (score_candidates_flag _ false unc). fold (own_candidates vm sel side c).
  destruct (score_candidates run_guard vm recv args (own_candidates vm sel side c) unc) as [u [app|e]];
    [|done].
  cbn [snd]. destruct (choose sel c app) as [[m|]|e]; [done| |done].
  unfold class_edges. apply (each_mixin_walk _ fuel _ _ IH (_, u)).
Qed.

Lemma resolve_order c :
  (resolve run_guard vm c recv sel side args).2 =
  outcome (first_answer dispatch_visit (dispatch_order vm c)).
Proof.
  unfold resolve. pose proof (proj1 (lookup_rec_walk (walk_fuel vm) c (∅, false))) as H.
  destruct (lookup_rec _ _ _ _ _ _ _ _ _) as [[w u] r]. cbn [fst snd] in *. rewrite H.
  f_equal. apply (walk_mro _ _ (class_edges_known vm) dispatch_visit c dispatch_follows).
Qed.
End Order.

(** ** Candidates for a message *)

Lemma collect_candidates_preorder vm sel side fuel : ∀ c v,
  collect_candidates_rec fuel vm c sel side v =
  ((preorder (class_edges vm) fuel c v).1,
   flat_map (own_candidates vm sel side) (preorder (class_edges vm) fuel c v).2).
Proof.
  induction fuel as [|fuel IH]; intros c v; [done|]. cbn [collect_candidates_rec preorder].
  case_decide; [done|]. fold (own_candidates vm sel side c).
  unfold class_edges at 1 3. generalize ({[c]} ∪ v).
  assert (∀ ms p w,
    ((fix mixins (ms : list cid) (visited : gset cid) :=
        match ms with
        | [] => match p with
                | Some p => collect_candidates_rec fuel vm p sel side visited
                | None => (visited, []) end
        | mixin :: ms =>
            let '(visited, out) := collect_candidates_rec fuel vm mixin sel side visited in
            let '(visited, rest) := mixins ms visited in (visited, out ++ rest)
        end) ms w) =
    ((pre_list (preorder (class_edges vm) fuel) (ms ++ option_list p) w).1,
     flat_map (own_candidates vm sel side)
       (pre_list (preorder (class_edges vm) fuel) (ms ++ option_list p) w).2)) as HL.
  { intros ms p. induction ms as [|m ms IHms]; intros w.
    - destruct p as [p|]; [|done]. change (option_list (Some p)) with [p]. simpl. rewrite IH.
      destruct (preorder _ _ p w) as [w' l]. simpl. by rewrite app_nil_r.
    - simpl. rewrite IH. destruct (preorder _ _ m w) as [w' l]. simpl. rewrite IHms.
      destruct (pre_list _ _ w') as [w'' l']. simpl. by rewrite flat_map_app. }
  intros w. rewrite HL. by destruct (pre_list _ _ w).
Qed.

(** C25: a send is decided by the first class, along the resolution order, that
    decides it: with a method, or with an error (an ambiguity, or what a guard
    threw).  The order starts with the searched class and visits every class
    reachable over mixins and parents once; the same order lists the
    candidates reported when nothing answers. *)
Theorem dispatch_first_deciding_class {E} (run_guard : Guard → Value → list Value → result E bool)
    vm c recv sel side args :
  let order := dispatch_order vm c in
  let decides := class_resolves run_guard vm recv sel side args in
  head order = Some c ∧ NoDup order ∧ (∀ x, x ∈ order ↔ reach (class_edges vm) c x) ∧
  match (resolve run_guard vm c recv sel side args).2 with
  | Ok None => ∀ x, x ∈ order → decides x = Ok None
  | r => ∃ l1 x l2, order = l1 ++ x :: l2 ∧ decides x = r ∧ ∀ y, y ∈ l1 → decides y = Ok None
  end ∧
  (collect_candidates_rec (walk_fuel vm) vm c sel side ∅).2 =
    flat_map (own_candidates vm sel side) order.
Proof.
  intros order decides. split_and!.
  - unfold order, dispatch_order. by rewrite (mro_cons _ _ (class_edges_known vm)).
  - apply mro_NoDup, class_edges_known.
  - intros x. apply mro_reach, class_edges_known.
  - rewrite resolve_order. fold order.
    assert (∀ y, answer (dispatch_visit run_guard vm recv sel side args) y = None ↔
      decides y = Ok None) as Hnone.
    { intros y. unfold answer, dispatch_visit. fold (decides y). by destruct (decides y) as [[]|]. }
    destruct (first_answer _ order) as [r|] eqn:Ef; simpl.
    + apply first_answer_split in Ef as (l1 & x & l2 & Heq & Ha & Hl1).
      assert (decides x = r ∧ r ≠ Ok None) as [Hr Hne].
      { unfold answer, dispatch_visit in Ha. fold (decides x) in Ha.
        destruct (decides x) as [[]|]; by simplify_eq/=. }
      assert (∃ l1 x l2, order = l1 ++ x :: l2 ∧ decides x = r ∧
        ∀ y, y ∈ l1 → decides y = Ok None) as Hgoal.
      { exists l1, x, l2. split_and!; [done..|]. intros y Hy. by apply Hnone, Hl1. }
      by destruct r as [[]|].
    + intros x Hx. apply Hnone. by eapply first_answer_None in Ef.
  - rewrite collect_candidates_preorder. done.
Qed.

(** ** The choice within a class *)

Lemma score_leb_refl s : score_leb s s = true.
Proof. unfold score_leb. apply orb_true_iff. right. lia. Qed.

Lemma score_leb_trans a b c : score_leb a b = true → score_leb b c = true → score_leb a c = true.
Proof. unfold score_leb. lia. Qed.

Lemma score_leb_total a b : score_leb a b = false → score_leb b a = true.
Proof. unfold score_leb. lia. Qed.

Lemma score_eqb_spec a b : score_eqb a b = true ↔ a = b.
Proof. unfold score_eqb. destruct a, b; simpl. split; [intros; f_equal; lia|intros [= -> ->]; lia]. Qed.

Lemma min_score_spec ss m :
  min_score ss = Some m → m ∈ ss ∧ ∀ s, s ∈ ss → score_leb m s = true.
Proof.
  revert m. induction ss as [|s ss IH]; intros m; simpl; [done|].
  destruct (min_score ss) as [m'|] eqn:Em.
  - destruct (IH m' eq_refl) as [Hin Hle]. intros [= <-].
    destruct (score_leb s m') eqn:El.
    + split; [left|]. intros x [->|Hx]%elem_of_cons; [apply score_leb_refl|].
      eapply score_leb_trans; [done|by apply Hle].
    + split; [by right|]. intros x [->|Hx]%elem_of_cons; [by apply score_leb_total|by apply Hle].
  - intros [= <-]. destruct ss as [|s' ss]; [|simpl in Em; by destruct (min_score ss)].
    split; [left|]. intros x ->%list_elem_of_singleton. apply score_leb_refl.
Qed.

Lemma min_score_None ss : min_score ss = None ↔ ss = [].
Proof. destruct ss as [|s ss]; simpl; [done|]. by destruct (min_score ss). Qed.

(** within one class the lowest score wins.  Nothing applicable: no
    verdict.  A method is chosen only if no applicable candidate scores lower,
    and, unless it is a signatureless native (the fallback of last resort),
    only if no other candidate ties with it; a tie at the lowest score is
    reported with exactly the tied candidates. *)
Theorem class_choice_is_lowest {E} selector class_ref (applicable : list (Value * Score)) :
  match @choose E selector class_ref applicable with
  | Ok None => applicable = []
  | Ok (Some m) =>
      ∃ s, (m, s) ∈ applicable ∧ (∀ p, p ∈ applicable → score_leb s p.2 = true) ∧
           (s.1 ≠ I64_MAX → filter (λ p, p.2 = s) applicable = [(m, s)])
  | Err (AmbiguousMethod sel' c' tied) =>
      sel' = selector ∧ c' = class_ref ∧
      ∃ s, s.1 ≠ I64_MAX ∧ (∀ p, p ∈ applicable → score_leb s p.2 = true) ∧
           tied = (filter (λ p, p.2 = s) applicable).*1 ∧ (2 ≤ length tied)%nat
  | Err (GuardError _) => False
  end.
Proof.
  unfold choose. destruct (min_score applicable.*2) as [s|] eqn:Em.
  2:{ apply min_score_None in Em. by apply fmap_nil_inv in Em. }
  apply min_score_spec in Em as [Hin Hle].
  assert (∀ p, p ∈ applicable → score_leb s p.2 = true) as Hle'.
  { intros p Hp. apply Hle. by apply list_elem_of_fmap_2. }
  assert (filter (λ p, score_eqb p.2 s = true) applicable = filter (λ p, p.2 = s) applicable) as ->.
  { apply list_filter_iff. intros p. apply score_eqb_spec. }
  apply list_elem_of_fmap in Hin as ([m s'] & Hs & Hin). simpl in Hs. subst s'.
  assert ((m, s) ∈ filter (λ p, p.2 = s) applicable) as Hf by by apply list_elem_of_filter.
  destruct ((2 <=? _)%nat && _) eqn:Et.
  - apply andb_true_iff in Et as [Ht Hmax]. split_and!; [done..|]. exists s.
    split_and!; [lia|done|done|by apply Nat.leb_le].
  - destruct (filter _ applicable) as [|[m0 s0] rest] eqn:Ef; [by apply not_elem_of_nil in Hf|].
    assert ((m0, s0) ∈ filter (λ p, p.2 = s) applicable) as H0 by (rewrite Ef; left).
    apply list_elem_of_filter in H0 as [H0 Hin0]. simpl in H0. subst s0. simpl.
    exists s. split_and!; [done..|]. intros Hmax.
    destruct rest; [done|]. simpl in Et. lia.
Qed.
