(* ===== verification/DispatchScore.v ===== *)
(** * Scores and type tests (src/src/dispatch.rs)

    The score of a variant in closed form, how scores order the variants of a
    selector, that they fit an [i64], and which classes a type hint accepts; and a
    concrete heap the theorems of the dispatch files are applied to. *)
From Stdlib Require Import Ascii.
From stdpp Require Import base numbers list gmap strings relations.
From stdpp Require Import options.
From S2P Require Import Prelude Types Hierarchy Dispatch DispatchCache DispatchOrder.
#[local] Set Warnings "-clear-no-such-hyp".

(** ** The score in closed form *)

(** The type distances of the typed leading arguments. *)
Fixpoint distances (vm : Heap) (hints : list str) (args : list Value) : option (list Z) :=
  match hints, args with
  | h :: hints, a :: args =>
      match type_distance vm a h, distances vm hints args with
      | Some d, Some ds => Some (d :: ds)
      | _, _ => None
      end
  | _, _ => Some []
  end.

(** Every required element tag is the argument's. *)
Fixpoint tags_met (n : nat) (tags : list (option ElemTag)) (args : list Value) : bool :=
  match n, tags, args with
  | S n, t :: tags, a :: args =>
      match t with Some r => bool_decide (value_elem_tag a = Some r) | None => true end &&
      tags_met n tags args
  | _, _, _ => true
  end.

Fixpoint tags_required (n : nat) (tags : list (option ElemTag)) : Z :=
  match n, tags with
  | S n, t :: tags => (match t with Some _ => 1 | None => 0 end + tags_required n tags)%Z
  | _, _ => 0%Z
  end.

Definition zsum (ds : list Z) : Z := foldr Z.add 0%Z ds.

Lemma tags_met_nil n args : tags_met n [] args = true.
Proof. by destruct n. Qed.

Lemma score_params_closed vm hints : ∀ tags args s,
  (length hints ≤ length args)%nat →
  score_params vm hints tags args s =
  match distances vm hints args with
  | Some ds => if tags_met (length hints) tags args
               then Some (s + 2 * zsum ds - tags_required (length hints) tags)%Z else None
  | None => None
  end.
Proof.
  induction hints as [|h hints IH]; intros tags args s Hlen; [simpl; f_equal; lia|].
  destruct args as [|a args]; [simpl in Hlen; lia|]. simpl in Hlen |- *.
  destruct (type_distance vm a h) as [d|]; [|done].
  destruct tags as [|[r|] tags]; cbn [head tail].
  - rewrite IH by lia. rewrite tags_met_nil. destruct (distances vm hints args) as [ds|]; [|done].
    simpl. f_equal. destruct (length hints); simpl; lia.
  - case_decide as Hr.
    + rewrite bool_decide_eq_true_2 by done. rewrite IH by lia.
      destruct (distances vm hints args) as [ds|]; [|done]. simpl.
      destruct (tags_met _ _ _); [|done]. f_equal. lia.
    + rewrite bool_decide_eq_false_2 by done. by destruct (distances vm hints args).
  - rewrite IH by lia. destruct (distances vm hints args) as [ds|]; [|done]. simpl.
    destruct (tags_met _ _ _); [|done]. f_equal. lia.
Qed.

Lemma score_closed vm types tags args s :
  score_param_types vm types tags args = Some s ↔
  (length types ≤ length args)%nat ∧
  ∃ ds, distances vm types args = Some ds ∧ tags_met (length types) tags args = true ∧
        s = (2 * zsum ds - tags_required (length types) tags)%Z.
Proof.
  unfold score_param_types. destruct (Nat.ltb_spec (length args) (length types)) as [Hl|Hl].
  { split; [done|]. intros [? _]. lia. }
  rewrite score_params_closed by done. destruct (distances vm types args) as [ds|].
  2:{ split; [done|]. by intros (_ & ? & ? & _). }
  destruct (tags_met _ _ _).
  - split; [intros [= <-]; split; [done|]; exists ds; split_and!; [done..|lia]|].
    intros (_ & ds' & [= <-] & _ & ->). by f_equal.
  - split; [done|]. intros (_ & ? & _ & ? & _). done.
Qed.

Lemma tags_required_range n tags : (0 ≤ tags_required n tags ≤ Z.of_nat n)%Z.
Proof.
  revert tags. induction n as [|n IH]; intros tags; [simpl; lia|].
  destruct tags as [|[t|] tags]; cbn [tags_required]; try specialize (IH tags); lia.
Qed.

(** how scores order variants.  A variant applies to arguments when every
    typed parameter's argument has a type distance and every required tag is
    met, and then scores twice the sum of the distances less one per required
    tag.  So between variants with at most one tag requirement each, the one
    with the smaller total distance wins, and a tag breaks ties; a passed
    guard beats an unguarded variant exactly at equal scores.  With two
    requirements the discount amounts to a hop of distance. *)
Theorem specificity_order vm args types1 tags1 types2 tags2 s1 s2 :
  score_param_types vm types1 tags1 args = Some s1 →
  score_param_types vm types2 tags2 args = Some s2 →
  ∃ ds1 ds2,
    let n1 := tags_required (length types1) tags1 in
    let n2 := tags_required (length types2) tags2 in
    distances vm types1 args = Some ds1 ∧ distances vm types2 args = Some ds2 ∧
    (n1 ≤ 1 → n2 ≤ 1 →
       (s1 < s2 ↔ zsum ds1 < zsum ds2 ∨ (zsum ds1 = zsum ds2 ∧ n2 < n1)))%Z ∧
    (∀ g1 g2, (0 ≤ g1 ≤ 1)%Z → (0 ≤ g2 ≤ 1)%Z →
       score_leb (s2, g2) (s1, g1) = false ↔ (s1 < s2 ∨ (s1 = s2 ∧ g1 = 0 ∧ g2 = 1))%Z) ∧
    (n1 = 2 → n2 = 0 → zsum ds1 = zsum ds2 + 1 → s1 = s2)%Z.
Proof.
  intros (_ & ds1 & ? & _ & Hs1)%score_closed (_ & ds2 & ? & _ & Hs2)%score_closed.
  exists ds1, ds2. cbn zeta.
  pose proof (tags_required_range (length types1) tags1).
  pose proof (tags_required_range (length types2) tags2).
  split_and!; [done..|lia| |lia].
  intros g1 g2 Hg1 Hg2. unfold score_leb. cbn [fst snd].
  rewrite orb_false_iff, andb_false_iff. lia.
Qed.

(** ** Ranges *)

Lemma climb_range fuel vm matches : ∀ c dist d,
  climb fuel vm matches c dist = Some d → (dist ≤ d ≤ dist + Z.of_nat fuel)%Z.
Proof.
  induction fuel as [|fuel IH]; intros [c|] dist d; simpl; try done.
  destruct (matches c); [intros [= <-]; lia|].
  destruct (existsb _ _); [intros [= <-]; lia|]. intros H%IH. lia.
Qed.

(** The farthest a value can be from a type it has. *)
Definition max_distance (vm : Heap) : Z :=
  Z.max OBJECT_UNIVERSAL_DISTANCE (Z.of_nat (climb_fuel vm)).

Lemma base_distance_range vm v hint d :
  base_distance vm v hint = Some d → (0 ≤ d ≤ max_distance vm)%Z.
Proof.
  unfold base_distance, max_distance, OBJECT_UNIVERSAL_DISTANCE.
  case_decide; [intros [= <-]; lia|]. destruct (get_class_for_lookup vm v); [|done].
  destruct (climb _ _ _ _ _) as [d'|] eqn:Ec; [intros [= <-]; apply climb_range in Ec; lia|].
  case_decide; [|done]. intros [= <-]. lia.
Qed.

Lemma type_distance_range vm v hint d :
  type_distance vm v hint = Some d → (0 ≤ d ≤ max_distance vm)%Z.
Proof.
  unfold type_distance. generalize (S (length hint)). intros fuel. revert hint.
  induction fuel as [|fuel IH]; intros hint; [done|]. simpl.
  destruct (strip_suffix "?" hint) as [base|]; [|apply base_distance_range].
  destruct v; try apply IH. intros [= <-]. unfold max_distance, OBJECT_UNIVERSAL_DISTANCE. lia.
Qed.

Lemma distances_range vm hints : ∀ args ds,
  distances vm hints args = Some ds →
  (0 ≤ zsum ds ≤ Z.of_nat (length hints) * max_distance vm)%Z.
Proof.
  induction hints as [|h hints IH]; intros args ds; [intros [= <-]; simpl; lia|].
  assert (0 ≤ max_distance vm)%Z by (unfold max_distance, OBJECT_UNIVERSAL_DISTANCE; lia).
  destruct args as [|a args]; [intros [= <-]; simpl; lia|]. simpl.
  destruct (type_distance vm a h) as [d|] eqn:Ed; [|done].
  destruct (distances vm hints args) as [ds'|] eqn:Es; [|done]. intros [= <-].
  apply type_distance_range in Ed. apply IH in Es. simpl. lia.
Qed.

(** scores cannot overflow.  Distances are bounded by the universal distance
    or the height of the hierarchy, so for any signature of up to a million
    parameters over a heap of up to a million classes, every score is an [i64]
    and below the score of a signatureless native, which therefore loses to
    every variant that applies by its types. *)
Theorem scores_fit_i64 vm types tags args s :
  (Z.of_nat (length types) ≤ 1000000)%Z → (Z.of_nat (size (vm_classes vm)) ≤ 1000000)%Z →
  score_param_types vm types tags args = Some s →
  (- 9223372036854775808 ≤ s < I64_MAX)%Z ∧
  ∀ g1 g2, score_leb (I64_MAX, g2) (s, g1) = false.
Proof.
  intros Hn Hsz (_ & ds & Hds & _ & ->)%score_closed. apply distances_range in Hds.
  pose proof (tags_required_range (length types) tags) as Ht.
  assert (max_distance vm ≤ 1000001)%Z as Hm.
  { unfold max_distance, OBJECT_UNIVERSAL_DISTANCE, climb_fuel. lia. }
  assert (0 ≤ max_distance vm)%Z by (unfold max_distance, OBJECT_UNIVERSAL_DISTANCE; lia).
  assert (Z.of_nat (length types) * max_distance vm ≤ 1000000 * 1000001)%Z by nia.
  unfold I64_MAX. split; [lia|]. intros g1 g2. unfold score_leb. cbn [fst snd].
  apply orb_false_iff. rewrite andb_false_iff. lia.
Qed.

(** ** What a type hint accepts *)

Definition parent_of (vm : Heap) (x y : cid) : Prop := cl_parent (klass vm x) = Some y.

(** The class itself, or a mixin of it, is the one looked for. *)
Definition is_or_mixes (vm : Heap) (matches : cid → bool) (y : cid) : Prop :=
  matches y = true ∨ ∃ m, m ∈ cl_mixin_classes (klass vm y) ∧ matches m = true.

Lemma climb_sound fuel vm matches : ∀ c dist d,
  climb fuel vm matches (Some c) dist = Some d →
  ∃ y, rtc (parent_of vm) c y ∧ is_or_mixes vm matches y.
Proof.
  induction fuel as [|fuel IH]; intros c dist d; simpl; [done|].
  destruct (matches c) eqn:Em; [intros _; exists c; split; [done|by left]|].
  destruct (existsb _ _) eqn:Ee.
  { intros _. exists c. split; [done|]. right. apply existsb_exists in Ee as (m & Hm & ?).
    exists m. split; [by apply list_elem_of_In|done]. }
  destruct (cl_parent (klass vm c)) as [p|] eqn:Ep; [|by destruct fuel].
  intros (y & Hy & ?)%IH. exists y. split; [|done]. by eapply rtc_l.
Qed.

Lemma parent_known vm x y : parent_of vm x y → x ∈ dom (vm_classes vm).
Proof.
  unfold parent_of, klass. destruct (vm_classes vm !! x) eqn:Ex; [|done].
  intros _. by apply elem_of_dom_2 in Ex.
Qed.

Lemma climb_complete fuel vm matches :
  (∀ x, ¬ tc (parent_of vm) x x) →
  ∀ c dist seen,
  (∀ s, s ∈ seen → tc (parent_of vm) s c) → room (dom (vm_classes vm)) seen < fuel →
  climb fuel vm matches (Some c) dist = None →
  ∀ y, rtc (parent_of vm) c y → ¬ is_or_mixes vm matches y.
Proof.
  intros Hacyclic. induction fuel as [|fuel IH]; intros c dist seen Hseen Hroom; [lia|]. simpl.
  destruct (matches c) eqn:Em; [done|].
  destruct (existsb _ _) eqn:Ee; [done|]. intros Hc y Hy.
  inv Hy as [|? p ? Hp Hpy].
  - intros [H|(m & Hm & H)]; [congruence|].
    assert (existsb matches (cl_mixin_classes (klass vm y)) = true); [|congruence].
    apply existsb_exists. exists m. split; [by apply list_elem_of_In|done].
  - rewrite Hp in Hc. eapply (IH p _ ({[c]} ∪ seen)); [| |done|done].
    + intros s [->%elem_of_singleton|Hs]%elem_of_union; [by apply tc_once|].
      eapply tc_r; [by apply Hseen|done].
    + pose proof (room_enter (dom (vm_classes vm)) c seen (parent_known _ _ _ Hp)) as Hr.
      destruct (decide (c ∈ seen)) as [Hin|Hin]; [by destruct (Hacyclic c); apply Hseen|].
      specialize (Hr Hin). lia.
Qed.

Lemma type_distance_base vm v hint :
  strip_suffix "?" hint = None → type_distance vm v hint = base_distance vm v hint.
Proof. intros H. unfold type_distance. simpl. by rewrite H. Qed.

(** which values a type hint accepts.  Over a hierarchy without parent
    cycles, a hint that names a class, other than the value's own type name,
    [Object] or a nullable one, accepts exactly the values whose class or one
    of whose parents is that class or mixes it in directly.  Mixins of mixins
    and parents of mixins, which method lookup does visit, are not types of
    the value. *)
Theorem type_test_climbs_parents vm v hint t c :
  (∀ x, ¬ tc (parent_of vm) x x) → strip_suffix "?" hint = None → hint ≠ L "Object" →
  type_name vm v ≠ hint → get_class_for_lookup vm v = Some c →
  vm_globals vm !! ns_parse hint = Some (VClass t) →
  value_matches_type vm v hint = true ↔
  ∃ y, rtc (parent_of vm) c y ∧ (y = t ∨ t ∈ cl_mixin_classes (klass vm y)).
Proof.
  intros Hacyclic Hq Hobj Hname Hc Ht.
  assert (∀ y, is_or_mixes vm (hint_matches vm (ns_parse hint)) y ↔
    (y = t ∨ t ∈ cl_mixin_classes (klass vm y))) as Hm.
  { intros y. unfold is_or_mixes, hint_matches. rewrite Ht. setoid_rewrite bool_decide_eq_true.
    split; [intros [?|(m & ? & ->)]; auto|]. intros [?|?]; [by left|right; by exists t]. }
  unfold value_matches_type. rewrite bool_decide_eq_true, type_distance_base by done.
  unfold base_distance. rewrite decide_False by (intros [? _]; done). rewrite Hc.
  destruct (climb _ _ _ _ _) as [d|] eqn:Ecl.
  - split; [|by eexists]. intros _. apply climb_sound in Ecl as (y & ? & ?%Hm). by exists y.
  - rewrite decide_False by done. split; [by intros [? ?]|]. intros (y & Hy & Hyt).
    exfalso. eapply (climb_complete _ _ _ Hacyclic c 0 ∅); [| |done|done|by apply Hm].
    + intros s ?%not_elem_of_empty. done.
    + rewrite room_empty, size_dom. unfold climb_fuel. lia.
Qed.

(** a variant typed by a mixin ties with an untyped one.  An argument whose
    class mixes in [mixin] and has Object as its parent is one hop from either,
    so a variant declared for the mixin and a catch-all variant (an unannotated
    parameter is an [Object] one) score the same, and the send is ambiguous. *)
Theorem mixin_ties_with_untyped {E} (run_guard : Guard → Value → list Value → result E bool)
    vm id c object mixin payload hint recv m1 m2 b1 b2 sel class_ref :
  let v := VObject id c payload in
  cl_parent (klass vm c) = Some object → mixin ∈ cl_mixin_classes (klass vm c) →
  object ∉ cl_mixin_classes (klass vm c) → c ≠ mixin → c ≠ object →
  vm_globals vm !! ns_parse hint = Some (VClass mixin) →
  vm_globals vm !! ns_parse (L "Object") = Some (VClass object) →
  is_Some (vm_classes vm !! c) →
  strip_suffix "?" hint = None → type_name vm v ≠ hint →
  get_block_from_method m1 = Some b1 → bk_param_types b1 = [hint] →
  bk_param_elem_tags b1 = [] → bk_decl_block b1 = None →
  get_block_from_method m2 = Some b2 → bk_param_types b2 = [L "Object"] →
  bk_param_elem_tags b2 = [] → bk_decl_block b2 = None →
  (score_candidates run_guard vm recv [v] [m1; m2] false).2 =
    Ok [(m1, (2, 1)%Z); (m2, (2, 1)%Z)] ∧
  choose (E := E) sel class_ref [(m1, (2, 1)%Z); (m2, (2, 1)%Z)] =
    Err (AmbiguousMethod sel class_ref [m1; m2]).
Proof.
  intros v Hp Hm Ho Hcm Hco Hh HO [cl Hcl] Hq Hname E1 T1 G1 D1 E2 T2 G2 D2. split; [|done].
  assert (∃ n, climb_fuel vm = S (S n)) as [n Hn].
  { unfold climb_fuel. destruct (size (vm_classes vm)) as [|n] eqn:Es; [|by exists n].
    apply map_size_empty_inv in Es. by rewrite Es, lookup_empty in Hcl. }
  assert (type_distance vm v hint = Some 1%Z) as Hd1.
  { rewrite type_distance_base by done. unfold base_distance.
    rewrite decide_False by (intros [? _]; done). unfold v. cbn [get_class_for_lookup]. rewrite Hn. cbn [climb].
    unfold hint_matches at 1. rewrite Hh, bool_decide_eq_false_2 by done.
    assert (existsb (hint_matches vm (ns_parse hint)) (cl_mixin_classes (klass vm c)) = true) as ->; [|done].
    apply existsb_exists. exists mixin. split; [by apply list_elem_of_In|].
    unfold hint_matches. rewrite Hh. by apply bool_decide_eq_true. }
  assert (type_distance vm v (L "Object") = Some 1%Z) as Hd2.
  { rewrite type_distance_base by done. unfold base_distance.
    rewrite decide_False by (intros [_ ?]; done). unfold v. cbn [get_class_for_lookup]. rewrite Hn. cbn [climb].
    unfold hint_matches at 1. rewrite HO, bool_decide_eq_false_2 by done.
    assert (existsb (hint_matches vm (ns_parse (L "Object"))) (cl_mixin_classes (klass vm c)) = false) as ->.
    { apply not_true_iff_false. intros (x & Hx & Hmx)%existsb_exists.
      apply list_elem_of_In in Hx. unfold hint_matches in Hmx. rewrite HO in Hmx.
      apply bool_decide_eq_true in Hmx as ->. done. }
    rewrite Hp. cbn [climb]. unfold hint_matches at 1. by rewrite HO, bool_decide_eq_true_2. }
  cbn [score_candidates]. unfold match_score.
  assert (∀ h, type_distance vm v h = Some 1%Z → score_param_types vm [h] [] [v] = Some 2%Z) as HS.
  { intros h Hd. unfold score_param_types. cbn [length Nat.ltb Nat.leb score_params]. by rewrite Hd. }
  rewrite E1, E2, T1, T2, G1, G2, D1, D2. cbn [existsb].
  by rewrite (HS _ Hd1), (HS _ Hd2).
Qed.

(** * Building a selector's chain (src/src/vm/class.rs)

    Defining a method either redefines the unguarded variant with the same
    signature in place or appends a variant, so a selector never has two
    unguarded user variants of one signature.  Then a concrete heap for the dispatch theorems. *)
#[local] Set Warnings "-clear-no-such-hyp".

(** Every node is a method object. *)
Fixpoint is_chain (v : Value) : bool :=
  match v with
  | VObject _ _ (PMethod _ _ _ (Some next)) => is_chain next
  | VObject _ _ (PMethod _ _ _ None) => true
  | _ => false
  end.

(** The user blocks of the variants, in order; natives have none. *)
Definition variants (chain : Value) : list (option BlockInfo) :=
  map get_block_from_method (chain_of chain).

Definition signature (b : option BlockInfo) : option (list str * list (option ElemTag)) :=
  match b with
  | Some b => match bk_decl_block b with
              | None => Some (bk_param_types b, bk_param_elem_tags b)
              | Some _ => None
              end
  | None => None
  end.

(** The signatures of the unguarded user variants. *)
Definition signatures (chain : Value) : list (list str * list (option ElemTag)) :=
  omap signature (variants chain).

(** A method object not yet part of a chain. *)
Definition fresh_method (m : Value) : Prop :=
  ∃ id class sel body ext, m = VObject id class (PMethod sel body ext None).

Section Chain_ind.
Context (P : Value → Prop).
Context (Hlast : ∀ id class sel body ext, P (VObject id class (PMethod sel body ext None))).
Context (Hnext : ∀ id class sel body ext next,
  is_chain next = true → P next → P (VObject id class (PMethod sel body ext (Some next)))).
#[local] Set Default Proof Using "Type*".

Fixpoint chain_ind' (v : Value) : is_chain v = true → P v :=
  match v with
  | VObject id class (PMethod sel body ext (Some next)) =>
      λ H, Hnext id class sel body ext next H (chain_ind' next H)
  | VObject id class (PMethod sel body ext None) => λ _, Hlast id class sel body ext
  | _ => λ H, match diff_false_true H with end
  end.
End Chain_ind.

Lemma append_variants new start :
  is_chain start = true → fresh_method new →
  ∃ chain, append_method_to_chain start new = Ok chain ∧ is_chain chain = true ∧
           variants chain = variants start ++ [get_block_from_method new].
Proof.
  intros Hs (id' & c' & sel' & body' & ext' & ->). revert start Hs.
  apply (chain_ind' (λ start, ∃ chain, append_method_to_chain start _ = Ok chain ∧ is_chain chain = true ∧
           variants chain = variants start ++ [_])).
  - intros id class sel body ext. by eexists.
  - intros id class sel body ext next _ (chain & Ha & Hc & Hv). simpl. rewrite Ha.
    eexists. split_and!; [done|done|]. unfold variants in *. simpl. f_equal. done.
Qed.

Lemma same_signature_spec types tags node :
  same_signature types tags node = true ↔ signature (get_block_from_method node) = Some (types, tags).
Proof.
  unfold same_signature, signature. destruct (get_block_from_method node) as [b|]; [|done].
  rewrite bool_decide_eq_true. destruct (bk_decl_block b); split; try done.
  - by intros [? _].
  - by intros (_ & -> & ->).
  - by intros [= -> ->].
Qed.

Lemma replace_variants types tags bid bclass nb start :
  is_chain start = true →
  match replace_in_chain types tags (VObject bid bclass (PBlock nb)) start with
  | Some chain =>
      is_chain chain = true ∧
      ∃ l1 b l2, variants start = l1 ++ b :: l2 ∧ signature b = Some (types, tags) ∧
                 variants chain = l1 ++ Some nb :: l2
  | None => ∀ b, b ∈ variants start → signature b ≠ Some (types, tags)
  end.
Proof.
  revert start. apply (chain_ind' (λ start, match replace_in_chain types tags _ start with
    Some chain => _ | None => _ end)).
  - intros id class sel body ext. cbn [replace_in_chain].
    destruct (same_signature _ _ _) eqn:Es.
    + apply same_signature_spec in Es. split; [done|]. exists [], (get_block_from_method (VObject id class (PMethod sel body ext None))), [].
      done.
    + intros b Hb%list_elem_of_singleton. subst b. intros Hs%same_signature_spec. congruence.
  - intros id class sel body ext next Hc IH. cbn [replace_in_chain].
    destruct (same_signature _ _ _) eqn:Es.
    + apply same_signature_spec in Es. split; [done|].
      exists [], (get_block_from_method (VObject id class (PMethod sel body ext (Some next)))), (variants next).
      done.
    + destruct (replace_in_chain types tags _ next) as [chain|]; simpl.
      * destruct IH as (? & l1 & b & l2 & E1 & ? & E2). split; [done|].
        unfold variants in *. simpl. rewrite E1, E2. by eexists (_ :: l1), b, l2.
      * unfold variants in *. simpl. intros b [->|Hb]%elem_of_cons; [|by apply IH].
        intros Hs. apply (same_signature_spec types tags (VObject id class (PMethod sel body ext (Some next)))) in Hs.
        congruence.
Qed.

(** defining a method never makes a selector ambiguous by repetition.
    Adding a variant to a well-formed chain succeeds; it takes the place of the
    unguarded user variant with the same parameter types and element tags if
    there is one, and is appended otherwise; and the unguarded user variants'
    signatures stay distinct. *)
Theorem definition_keeps_signatures_distinct start new :
  is_chain start = true → fresh_method new → NoDup (signatures start) →
  ∃ chain, replace_or_append_method_in_chain start new = Ok chain ∧
    is_chain chain = true ∧ NoDup (signatures chain) ∧
    match signature (get_block_from_method new) with
    | Some sg =>
        ((sg ∉ signatures start) ∧ variants chain = variants start ++ [get_block_from_method new]) ∨
        (∃ l1 b l2, variants start = l1 ++ b :: l2 ∧ signature b = Some sg ∧
                    variants chain = l1 ++ get_block_from_method new :: l2)
    | None => variants chain = variants start ++ [get_block_from_method new]
    end.
Proof.
  intros Hs Hnew Hnd. destruct (append_variants new start Hs Hnew) as (app & Ha & Hac & Hav).
  assert (∀ o, signature (get_block_from_method new) = o →
    (∀ sg, o = Some sg → sg ∉ signatures start) → NoDup (signatures app)) as Happ.
  { intros o Ho Hsg. unfold signatures. rewrite Hav, omap_app. simpl. rewrite Ho.
    destruct o as [sg|]; [|by rewrite app_nil_r]. apply NoDup_app. split_and!; [done| |apply NoDup_singleton].
    intros x Hx ->%list_elem_of_singleton. by apply (Hsg sg). }
  unfold replace_or_append_method_in_chain.
  destruct (get_block_from_method new) as [nb|] eqn:Enb.
  2:{ exists app. split_and!; [done..|by apply (Happ None)|done]. }
  case_decide as Hg; simpl.
  2:{ destruct (bk_decl_block nb) eqn:Eg; [|done].
      exists app. split_and!; [done..|apply (Happ None); [|done]|done]. simpl. by rewrite Eg. }
  rewrite Hg. destruct Hnew as (id & class & sel & body & ext & ->). simpl in Enb.
  destruct (get_block body) as [bv|]; [|done].
  destruct bv as [| | | |bid bclass p| |]; try done. destruct p; try done. injection Enb as ->.
  pose proof (replace_variants (bk_param_types nb) (bk_param_elem_tags nb) bid bclass nb start Hs) as HR.
  destruct (replace_in_chain _ _ _ start) as [chain|].
  - destruct HR as (Hc & l1 & b & l2 & E1 & Hb & E2). exists chain. split_and!; [done..| |].
    + unfold signatures in *. rewrite E1 in Hnd. rewrite E2. rewrite omap_app in Hnd |- *. simpl in Hnd |- *.
      rewrite Hb in Hnd. by rewrite Hg.
    + right. by exists l1, b, l2.
  - assert ((bk_param_types nb, bk_param_elem_tags nb) ∉ signatures start) as Hnot.
    { unfold signatures. rewrite list_elem_of_omap. intros (b & Hb & Hsb). by apply (HR b). }
    exists app. split_and!; [done..| |by left].
    apply (Happ (Some (bk_param_types nb, bk_param_elem_tags nb))).
    + simpl. by rewrite Hg.
    + by intros sg [= <-].
Qed.

(** ** A concrete heap for the dispatch theorems

    Classes Object, Integer, Shape (mixing in Named, which mixes in Printable)
    and Circle, a Shape; [draw:] is a multimethod of Shape, [print] a method of
    Printable.  The theorems of the dispatch files are applied to it. *)

Definition user_block (id : N) (types : list String.string) (guard : option Guard) : BlockInfo :=
  {| bk_id := id; bk_param_types := map L types; bk_param_elem_tags := []; bk_decl_block := guard |}.

(** A method object of class Method (9) around a user block. *)
Definition user_method (sel : String.string) (b : BlockInfo) (next : option Value) : Value :=
  VObject (100 + bk_id b) 9 (PMethod (L sel) (UserBlock (VObject (200 + bk_id b) 8 (PBlock b))) false next).

Definition draw_any : BlockInfo := user_block 1 ["Object"%string] None.
Definition draw_int : BlockInfo := user_block 2 ["Integer"%string] None.
Definition draw_big : BlockInfo := user_block 3 ["Integer"%string] (Some 7%N).
Definition print_block : BlockInfo := user_block 4 [] None.

Definition draw_chain : Value :=
  user_method "draw:" draw_any (Some (user_method "draw:" draw_int (Some (user_method "draw:" draw_big None)))).

Definition mk_class (name : String.string) (parent : option cid) (mixins : list cid)
    (methods : gmap str Value) : Class :=
  {| cl_name := ns_parse (L name); cl_parent := parent; cl_instance_methods := methods;
     cl_class_methods := ∅; cl_mixin_classes := mixins; cl_is_eigenclass := false |}.

Definition demo_heap : Heap :=
  {| vm_classes :=
       {[ 1%N := mk_class "Object" None [] ∅;
          2%N := mk_class "Integer" (Some 1%N) [] ∅;
          3%N := mk_class "Shape" (Some 1%N) [5%N] {[ L "draw:" := draw_chain ]};
          4%N := mk_class "Circle" (Some 3%N) [] ∅;
          5%N := mk_class "Named" None [6%N] ∅;
          6%N := mk_class "Printable" None [] {[ L "print" := user_method "print" print_block None ]} ]};
     vm_globals :=
       {[ ns_parse (L "Object") := VClass 1; ns_parse (L "Integer") := VClass 2;
          ns_parse (L "Shape") := VClass 3; ns_parse (L "Circle") := VClass 4;
          ns_parse (L "Named") := VClass 5; ns_parse (L "Printable") := VClass 6 ]};
     vm_builtin_cache :=
       {| bc_nil_class := None; bc_boolean_class := None; bc_integer_class := Some 2%N;
          bc_double_class := None; bc_true_class := None; bc_false_class := None |} |}.

Definition demo_vm : Vm :=
  {| vm_heap := demo_heap; vm_entries := ∅; vm_uncacheable := false; vm_dispatch_epoch := 1 |}.

Definition circle : Value := VObject 50 4 PInstance.

(** The guard of [draw_big] passes for integers above ten. *)
Definition demo_guard (g : Guard) (self : Value) (args : list Value) : result unit bool :=
  match args with [VInt i] => Ok (10 <? i)%Z | _ => Err tt end.

(** Drawing a circle: found in Shape; the typed variant for a small integer, the
    guarded one for a big one, the catch-all for a circle; [print] is found in
    the mixin's mixin, which is not a type of the circle. *)
Example demo_dispatch :
  let blocks r := match r with Ok (Some m) => get_block_from_method m | _ => None end in
  let send sel args := blocks (resolve demo_guard demo_heap 4 circle (L sel) false args).2 in
  send "draw:"%string [VInt 5] = Some draw_int ∧
  send "draw:"%string [VInt 50] = Some draw_big ∧
  send "draw:"%string [circle] = Some draw_any ∧
  send "print"%string [] = Some print_block ∧
  send "erase"%string [] = None ∧
  dispatch_order demo_heap 4 = [4; 3; 5; 6; 1]%N ∧
  type_distance demo_heap circle (L "Shape") = Some 1%Z ∧
  type_distance demo_heap circle (L "Named") = Some 2%Z ∧
  type_distance demo_heap circle (L "Printable") = None ∧
  type_distance demo_heap circle (L "Object?") = Some 2%Z.
Proof. vm_compute. done. Qed.

Definition print_key := method_cache_key demo_heap 4 (L "print") false [].
Definition printed_vm : Vm :=
  (lookup_method_in_class_hierarchy demo_guard demo_vm 4 circle (L "print") false []).1.

Lemma dispatch_cache_transparent_witness :
  (∃ k, print_key = Some k ∧ is_Some (vm_entries printed_vm !! k)) ∧
  ((lookup_method_in_class_hierarchy demo_guard printed_vm 4 circle (L "print") false []).2 =
     (resolve demo_guard printed_vm 4 circle (L "print") false []).2 ∧
   vm_heap (lookup_method_in_class_hierarchy demo_guard printed_vm 4 circle (L "print") false []).1 =
     vm_heap printed_vm).
Proof.
  split.
  - eexists. split; [reflexivity|]. eexists. vm_compute. reflexivity.
  - apply (dispatch_cache_transparent demo_guard (λ _, []) demo_vm printed_vm).
    + reflexivity.
    + apply rtc_once. unfold printed_vm. apply StepLookup. constructor.
    + constructor.
Defined.

Lemma specificity_order_witness :
  score_param_types demo_heap [L "Object"] [] [VInt 5] = Some 2%Z ∧
  score_param_types demo_heap [L "Integer"] [] [VInt 5] = Some 0%Z ∧
  ∃ ds1 ds2,
    let n1 := tags_required 1 [] in
    let n2 := tags_required 1 [] in
    distances demo_heap [L "Integer"] [VInt 5] = Some ds1 ∧
    distances demo_heap [L "Object"] [VInt 5] = Some ds2 ∧
    (n1 ≤ 1 → n2 ≤ 1 →
       (0 < 2 ↔ zsum ds1 < zsum ds2 ∨ (zsum ds1 = zsum ds2 ∧ n2 < n1)))%Z ∧
    (∀ g1 g2, (0 ≤ g1 ≤ 1)%Z → (0 ≤ g2 ≤ 1)%Z →
       score_leb (2, g2)%Z (0, g1)%Z = false ↔ (0 < 2 ∨ (0 = 2 ∧ g1 = 0 ∧ g2 = 1))%Z) ∧
    (n1 = 2 → n2 = 0 → zsum ds1 = zsum ds2 + 1 → 0 = 2)%Z.
Proof.
  split; [vm_compute; reflexivity|]. split; [vm_compute; reflexivity|].
  apply (specificity_order demo_heap [VInt 5] [L "Integer"] [] [L "Object"] [] 0 2);
    vm_compute; reflexivity.
Defined.

Lemma scores_fit_i64_witness :
  score_param_types demo_heap [L "Object"] [] [VInt 5] = Some 2%Z ∧
  ((- 9223372036854775808 ≤ 2 < I64_MAX)%Z ∧ ∀ g1 g2, score_leb (I64_MAX, g2) (2%Z, g1) = false).
Proof.
  split; [vm_compute; reflexivity|].
  apply (scores_fit_i64 demo_heap [L "Object"] [] [VInt 5] 2); vm_compute; [discriminate..|reflexivity].
Defined.

Lemma demo_acyclic x : ¬ tc (parent_of demo_heap) x x.
Proof.
  assert (∀ a b, parent_of demo_heap a b → (b < a)%N) as Hlt.
  { assert (map_Forall (λ a cl, (default 0%N (cl_parent cl) < a)%N) (vm_classes demo_heap)) as HF.
    { apply (bool_decide_unpack _). vm_compute. exact I. }
    intros a b. unfold parent_of, klass. destruct (vm_classes demo_heap !! a) as [cl|] eqn:Ea; [|done].
    intros Hb. specialize (HF a cl Ea). simpl in *. by rewrite Hb in HF. }
  assert (∀ a b, tc (parent_of demo_heap) a b → (b < a)%N) as H.
  { induction 1 as [a b Hab|a b c Hab _ IH]; [by apply Hlt|]. apply Hlt in Hab. lia. }
  intros Hx%H. lia.
Qed.

(** Printable is visited by every send to a circle, and no type of it. *)
Lemma type_test_climbs_parents_witness :
  (6%N ∈ dispatch_order demo_heap 4 ∧ value_matches_type demo_heap circle (L "Printable") = false) ∧
  (value_matches_type demo_heap circle (L "Printable") = true ↔
   ∃ y, rtc (parent_of demo_heap) 4%N y ∧ (y = 6%N ∨ 6%N ∈ cl_mixin_classes (klass demo_heap y))).
Proof.
  split.
  - split; [|vm_compute; reflexivity]. apply (bool_decide_unpack _). vm_compute. exact I.
  - apply (type_test_climbs_parents demo_heap circle (L "Printable") 6 4 demo_acyclic);
      first [reflexivity | discriminate | vm_compute; discriminate].
Defined.

Lemma definition_keeps_signatures_distinct_witness :
  let redraw := user_method "draw:" (user_block 5 ["Integer"%string] None) None in
  NoDup (signatures draw_chain) ∧
  ∃ chain, replace_or_append_method_in_chain draw_chain redraw = Ok chain ∧
    is_chain chain = true ∧ NoDup (signatures chain) ∧
    match signature (get_block_from_method redraw) with
    | Some sg =>
        ((sg ∉ signatures draw_chain) ∧ variants chain = variants draw_chain ++ [get_block_from_method redraw]) ∨
        (∃ l1 b l2, variants draw_chain = l1 ++ b :: l2 ∧ signature b = Some sg ∧
                    variants chain = l1 ++ get_block_from_method redraw :: l2)
    | None => variants chain = variants draw_chain ++ [get_block_from_method redraw]
    end.
Proof.
  intros redraw. assert (NoDup (signatures draw_chain)) as Hnd.
  { apply (bool_decide_unpack _). vm_compute. exact I. }
  split; [exact Hnd|].
  apply (definition_keeps_signatures_distinct draw_chain redraw); [reflexivity| |exact Hnd].
  repeat eexists.
Defined.

Definition by_mixin : BlockInfo := user_block 6 ["Named"%string] None.
Definition untyped : BlockInfo := user_block 7 ["Object"%string] None.
Definition shape : Value := VObject 51 3 PInstance.

Lemma mixin_ties_with_untyped_witness :
  let m1 := user_method "tag:" by_mixin None in
  let m2 := user_method "tag:" untyped None in
  (score_candidates demo_guard demo_heap circle [shape] [m1; m2] false).2 =
    Ok [(m1, (2, 1)%Z); (m2, (2, 1)%Z)] ∧
  choose (E := unit) (L "tag:") 4 [(m1, (2, 1)%Z); (m2, (2, 1)%Z)] =
    Err (AmbiguousMethod (L "tag:") 4 [m1; m2]).
Proof.
  intros m1 m2.
  apply (mixin_ties_with_untyped demo_guard demo_heap 51 3 1 5 PInstance (L "Named")
           circle m1 m2 by_mixin untyped (L "tag:") 4);
    first [reflexivity | discriminate | vm_compute; discriminate
          | apply (bool_decide_unpack _); vm_compute; exact I].
Defined.
