(* ===== verification/Doc.v ===== *)
(** * The formatter's layout engine (crates/quoin-fmt/src/doc.rs)

    The document algebra and its renderer, a work-stack machine, with the look-ahead [fits]
    that decides whether a group is laid flat.  [lay] is the reference: the same layout by
    recursion on the document.

    A string is the list of its code points, so its length is its [chars().count()].  A [Vec]
    used as a stack is a list with its top first.  Widths, columns and indents are [Z]s: the
    casts between [usize] and [isize] are exact below 2^63, past which no text can be stored. *)
From stdpp Require Import base numbers list.
From stdpp Require Import options.
From S2P Require Import Prelude.
Local Open Scope Z_scope.

(** ** Text *)

Abbreviation text := (list N).

Definition nl : N := 10%N.
Definition sp : N := 32%N.

(** [s.chars().count()]. *)
Definition chars (s : text) : Z := Z.of_nat (length s).

(** [s.contains('\n')]. *)
Definition has_newline (s : text) : bool := existsb (N.eqb nl) s.

(** [&s[i + 1..]] for [i = s.rfind('\n')], the whole of [s] when there is none. *)
Fixpoint after_last_newline (s : text) : text :=
  match s with
  | [] => []
  | c :: s' => if has_newline s' then after_last_newline s'
               else if N.eqb nl c then s' else s
  end.

(** [while out.ends_with(' ') { out.pop(); }]. *)
Fixpoint drop_spaces (s : text) : text :=
  match s with
  | c :: s' => if N.eqb sp c then drop_spaces s' else s
  | [] => []
  end.

Definition trim_spaces (out : text) : text := reverse (drop_spaces (reverse out)).

(** ** Documents *)

Inductive Doc :=
| Nil
| Text (s : text)
| Verbatim (s : text)
| Line
| FlatText (s : text)
| SoftLine
| HardLine
| Concat (ds : list Doc)
| Nest (n : Z) (d : Doc)
| Align (d : Doc)
| Group (d : Doc)
| PreferIfFits (need : option Z) (extra : Z) (then_ els : Doc).

Inductive Mode := Flat | Break.

Fixpoint flat_width (doc : Doc) : option Z :=
  match doc with
  | Nil | SoftLine => Some 0
  | Line => Some 1
  | FlatText s | Text s => Some (chars s)
  | Verbatim s => if has_newline s then None else Some (chars s)
  | HardLine => None
  | Concat ds =>
      (fix try_fold (acc : Z) (ds : list Doc) : option Z :=
         match ds with
         | [] => Some acc
         | d :: ds' => match flat_width d with
                       | Some w => try_fold (acc + w) ds'
                       | None => None
                       end
         end) 0 ds
  | Nest _ d | Align d | Group d => flat_width d
  | PreferIfFits _ _ then_ _ => flat_width then_
  end.

(** ** The look-ahead *)

(** An entry of the render stack. *)
Abbreviation Item := (Z * Mode * Doc)%type.

(** One entry of the scan: go on with this much left and these documents, or answer. *)
Inductive Scan :=
| Go (remaining : Z) (pushed : list (Mode * Doc))
| Answer (b : bool).

Definition spend (remaining w : Z) : Scan :=
  if remaining - w <? 0 then Answer false else Go (remaining - w) [].

Definition fits_step (remaining : Z) (mode : Mode) (d : Doc) : Scan :=
  match d with
  | Nil => Go remaining []
  | Text s => spend remaining (chars s)
  | Verbatim s => if has_newline s then Answer true else spend remaining (chars s)
  | Concat ds => Go remaining (map (pair mode) ds)
  | Nest _ sub | Align sub => Go remaining [(mode, sub)]
  | PreferIfFits _ _ then_ _ => Go remaining [(mode, then_)]
  | Line => match mode with Flat => spend remaining 1 | Break => Answer true end
  | FlatText s => match mode with Flat => spend remaining (chars s) | Break => Go remaining [] end
  | SoftLine => match mode with Flat => Go remaining [] | Break => Answer true end
  | HardLine => Answer (match mode with Flat => false | Break => true end)
  | Group sub => Go remaining [(Flat, sub)]
  end.

Fixpoint fits_loop (fuel : nat) (remaining : Z) (local : list (Mode * Doc)) (rest : list Item)
    : option bool :=
  match fuel with
  | O => None
  | S fuel =>
      match local with
      | (mode, d) :: local' =>
          match fits_step remaining mode d with
          | Answer b => Some b
          | Go r pushed => fits_loop fuel r (pushed ++ local') rest
          end
      | [] =>
          match rest with
          | [] => Some true
          | (_, mode, d) :: rest' =>
              match fits_step remaining mode d with
              | Answer b => Some b
              | Go r pushed => fits_loop fuel r pushed rest'
              end
          end
      end
  end.

(** The number of documents a document is made of, every one of which is popped at most once. *)
Fixpoint doc_size (d : Doc) : nat :=
  match d with
  | Concat ds => S (sum_list (map doc_size ds))
  | Nest _ d | Align d | Group d => S (doc_size d)
  | PreferIfFits _ _ t e => S (doc_size t + doc_size e)
  | _ => 1
  end.

Definition fits_fuel (doc : Doc) (rest : list Item) : nat :=
  S (doc_size doc + sum_list (map (λ i, doc_size i.2) rest)).

Definition fits (remaining : Z) (doc : Doc) (rest : list Item) : bool :=
  if remaining <? 0 then false
  else default false (fits_loop (fits_fuel doc rest) remaining [(Flat, doc)] rest).

(** ** The renderer *)

Record St := mkSt { st_out : text; st_col : Z; st_stack : list Item }.

(** The output and column after a line break. *)
Definition newline (out : text) (indent : Z) : text * Z :=
  (trim_spaces out ++ [nl] ++ replicate (Z.to_nat indent) sp, indent).

(** The output and column after [out.push_str(s)]. *)
Definition push_str (s : text) (out : text) (col : Z) : text * Z := (out ++ s, col + chars s).

Definition nest_indent (indent n : Z) : Z := Z.max (indent + n) 0.

(** [need.is_some_and(|w| indent + extra + w <= width)]. *)
Definition prefers (width indent : Z) (need : option Z) (extra : Z) : bool :=
  match need with Some w => indent + extra + w <=? width | None => false end.

Definition group_mode (width col : Z) (sub : Doc) (stack : list Item) : Mode :=
  if fits (width - col) sub stack then Flat else Break.

(** The column after a verbatim text. *)
Definition verbatim_col (s : text) (col : Z) : Z :=
  if has_newline s then chars (after_last_newline s) else col + chars s.

(** The loop body, for the popped entry [(indent, mode, d)] and the stack under it. *)
Definition visit (width : Z) (indent : Z) (mode : Mode) (d : Doc) (out : text) (col : Z)
    (stack : list Item) : St :=
  let emit oc := mkSt oc.1 oc.2 stack in
  match d with
  | Nil => mkSt out col stack
  | Text s => emit (push_str s out col)
  | Verbatim s => emit (out ++ s, verbatim_col s col)
  | Concat ds => mkSt out col (map (pair (indent, mode)) ds ++ stack)
  | Nest n sub => mkSt out col ((nest_indent indent n, mode, sub) :: stack)
  | Align sub => mkSt out col ((col, mode, sub) :: stack)
  | PreferIfFits need extra then_ els =>
      mkSt out col
        ((indent, mode, if prefers width indent need extra then then_ else els) :: stack)
  | Line => match mode with
            | Flat => emit (push_str [sp] out col)
            | Break => emit (newline out indent)
            end
  | FlatText s => match mode with
                  | Flat => emit (push_str s out col)
                  | Break => mkSt out col stack
                  end
  | SoftLine => match mode with
                | Flat => mkSt out col stack
                | Break => emit (newline out indent)
                end
  | HardLine => emit (newline out indent)
  | Group sub => mkSt out col ((indent, group_mode width col sub stack, sub) :: stack)
  end.

Definition step (width : Z) (st : St) : option St :=
  match st_stack st with
  | [] => None
  | (indent, mode, d) :: stack => Some (visit width indent mode d (st_out st) (st_col st) stack)
  end.

Fixpoint render_loop (fuel : nat) (width : Z) (st : St) : option text :=
  match step width st, fuel with
  | None, _ => Some (st_out st)
  | Some st', S fuel => render_loop fuel width st'
  | Some _, O => None
  end.

Definition start (doc : Doc) : St := mkSt [] 0 [(0, Break, doc)].

Definition render (doc : Doc) (width : Z) : option text :=
  render_loop (doc_size doc) width (start doc).

(** ** The reference layout *)

Section lay.
Context (width : Z).

(** The output and column after [d], laid at [indent] in [mode] before [rest]. *)
Fixpoint lay (indent : Z) (mode : Mode) (d : Doc) (rest : list Item) (oc : text * Z) : text * Z :=
  match d with
  | Nil => oc
  | Text s => push_str s oc.1 oc.2
  | Verbatim s => (oc.1 ++ s, verbatim_col s oc.2)
  | Concat ds =>
      (fix lay_all (ds : list Doc) (oc : text * Z) : text * Z :=
         match ds with
         | [] => oc
         | d :: ds' => lay_all ds' (lay indent mode d (map (pair (indent, mode)) ds' ++ rest) oc)
         end) ds oc
  | Nest n sub => lay (nest_indent indent n) mode sub rest oc
  | Align sub => lay oc.2 mode sub rest oc
  | PreferIfFits need extra then_ els =>
      if prefers width indent need extra then lay indent mode then_ rest oc
      else lay indent mode els rest oc
  | Line => match mode with Flat => push_str [sp] oc.1 oc.2 | Break => newline oc.1 indent end
  | FlatText s => match mode with Flat => push_str s oc.1 oc.2 | Break => oc end
  | SoftLine => match mode with Flat => oc | Break => newline oc.1 indent end
  | HardLine => newline oc.1 indent
  | Group sub => lay indent (group_mode width oc.2 sub rest) sub rest oc
  end.

(** The stack laid from its top. *)
Fixpoint lay_stack (stack : list Item) (oc : text * Z) : text * Z :=
  match stack with
  | [] => oc
  | (indent, mode, d) :: rest => lay_stack rest (lay indent mode d rest oc)
  end.

End lay.
