(* ===== verification/DocProps.v ===== *)
(** * Theorems on the layout engine (crates/quoin-fmt/src/doc.rs)

    The work-stack renderer is the recursive layout; the look-ahead in closed form, as the
    width of the rest of the line; what it guarantees about groups laid flat; that layout only
    chooses white space; and where the look-ahead and its documentation disagree. *)
From stdpp Require Import base numbers list relations.
From stdpp Require Import options.
From S2P Require Import Prelude Doc.
Local Open Scope Z_scope.

(** ** Induction on documents *)

Section doc_induction.
Context (P : Doc → Prop).
Context (HNil : P Nil) (HText : ∀ s, P (Text s)) (HVerbatim : ∀ s, P (Verbatim s))
  (HLine : P Line) (HFlatText : ∀ s, P (FlatText s)) (HSoftLine : P SoftLine)
  (HHardLine : P HardLine) (HConcat : ∀ ds, Forall P ds → P (Concat ds))
  (HNest : ∀ n d, P d → P (Nest n d)) (HAlign : ∀ d, P d → P (Align d))
  (HGroup : ∀ d, P d → P (Group d))
  (HPrefer : ∀ need extra t e, P t → P e → P (PreferIfFits need extra t e)).

Fixpoint doc_induction (d : Doc) : P d :=
  match d with
  | Nil => HNil
  | Text s => HText s
  | Verbatim s => HVerbatim s
  | Line => HLine
  | FlatText s => HFlatText s
  | SoftLine => HSoftLine
  | HardLine => HHardLine
  | Concat ds =>
      HConcat ds ((fix all (ds : list Doc) : Forall P ds :=
        match ds with
        | [] => Forall_nil_2 _
        | d :: ds' => Forall_cons_2 _ _ _ (doc_induction d) (all ds')
        end) ds)
  | Nest n d => HNest n d (doc_induction d)
  | Align d => HAlign d (doc_induction d)
  | Group d => HGroup d (doc_induction d)
  | PreferIfFits need extra t e => HPrefer need extra t e (doc_induction t) (doc_induction e)
  end.
End doc_induction.

Lemma doc_size_pos d : (0 < doc_size d)%nat.
Proof. destruct d; simpl; lia. Qed.

(** ** What the look-ahead measures *)

(** What an entry puts on the line: text of a width, the end of the line, or a hard break in
    text to be laid flat. *)
Inductive piece := Wide (n : Z) | LineEnds | Refuse.
#[export] Instance piece_eq_dec : EqDecision piece.
Proof. solve_decision. Defined.

Fixpoint pieces (mode : Mode) (d : Doc) : list piece :=
  match d with
  | Nil => []
  | Text s => [Wide (chars s)]
  | Verbatim s => if has_newline s then [LineEnds] else [Wide (chars s)]
  | Line => match mode with Flat => [Wide 1] | Break => [LineEnds] end
  | FlatText s => match mode with Flat => [Wide (chars s)] | Break => [] end
  | SoftLine => match mode with Flat => [] | Break => [LineEnds] end
  | HardLine => match mode with Flat => [Refuse] | Break => [LineEnds] end
  | Concat ds => flat_map (pieces mode) ds
  | Nest _ d | Align d => pieces mode d
  | Group d => pieces Flat d
  | PreferIfFits _ _ t _ => pieces mode t
  end.

Definition stack_pieces (stack : list Item) : list piece :=
  flat_map (λ i, pieces i.1.2 i.2) stack.

(** The width up to the end of the line, unless a hard break comes first. *)
Fixpoint line_width (ps : list piece) : option Z :=
  match ps with
  | [] => Some 0
  | Wide n :: ps' => Z.add n <$> line_width ps'
  | LineEnds :: _ => Some 0
  | Refuse :: _ => None
  end.

Definition within (r : Z) (ps : list piece) : bool :=
  match line_width ps with Some w => w <=? r | None => false end.

Definition wide_ok (p : piece) : Prop := match p with Wide n => 0 ≤ n | _ => True end.

Lemma chars_nonneg s : 0 ≤ chars s.
Proof. unfold chars. lia. Qed.

Lemma pieces_ok mode d : Forall wide_ok (pieces mode d).
Proof.
  revert mode. induction d using doc_induction; intros mode; simpl; auto.
  7: by induction H; simpl; [constructor|apply Forall_app; auto].
  all: repeat case_match; auto using Forall_nil_2.
  all: apply Forall_singleton; simpl; auto using chars_nonneg; lia.
Qed.

Lemma stack_pieces_ok stack : Forall wide_ok (stack_pieces stack).
Proof. induction stack; simpl; [constructor|]. apply Forall_app; auto using pieces_ok. Qed.

Lemma line_width_nonneg ps w : Forall wide_ok ps → line_width ps = Some w → 0 ≤ w.
Proof.
  intros Hok. revert w. induction Hok as [|[n| |] ps Hp _ IH]; intros w; simpl; try naive_solver lia.
  destruct (line_width ps) as [v|]; simpl; [|done]. intros [= <-].
  specialize (IH _ eq_refl). unfold wide_ok in Hp. lia.
Qed.

Lemma within_neg r ps : Forall wide_ok ps → r < 0 → within r ps = false.
Proof.
  intros Hok Hr. unfold within. destruct (line_width ps) eqn:E; [|done].
  pose proof (line_width_nonneg _ _ Hok E). lia.
Qed.

Lemma within_wide r n ps : within r (Wide n :: ps) = within (r - n) ps.
Proof. unfold within. simpl. destruct (line_width ps); simpl; [|done]. lia. Qed.

Lemma pieces_concat mode ds stack :
  flat_map (pieces mode) ds ++ stack_pieces stack
  = flat_map (λ p, pieces p.1 p.2) (map (pair mode) ds) ++ stack_pieces stack.
Proof. f_equal. induction ds; simpl; congruence. Qed.

(** The scan goes on with pieces that measure as the old ones did, or answers. *)
Definition scan_agrees (r : Z) (ps before : list piece) (s : Scan) : Prop :=
  match s with
  | Answer b => within r (before ++ ps) = b
  | Go r' pushed =>
      0 ≤ r' ∧ within r (before ++ ps) = within r' (flat_map (λ p, pieces p.1 p.2) pushed ++ ps)
  end.

Lemma spend_agrees r n ps :
  0 ≤ n → Forall wide_ok ps → scan_agrees r ps [Wide n] (spend r n).
Proof.
  intros Hn Hps. unfold spend, scan_agrees. simpl. rewrite within_wide.
  destruct (Z.ltb_spec (r - n) 0); [by apply within_neg|by split].
Qed.

(** One entry of the scan, against the pieces it stands for. *)
Lemma fits_step_spec r mode d ps :
  0 ≤ r → Forall wide_ok ps → scan_agrees r ps (pieces mode d) (fits_step r mode d).
Proof.
  intros Hr Hps.
  assert (Hend : within r (LineEnds :: ps) = true) by (unfold within; simpl; lia).
  destruct d; simpl; try case_match; try destruct mode;
    try (apply spend_agrees; auto using chars_nonneg; lia);
    try done; (split; [done|]); simpl; rewrite ?app_nil_r; try done.
  all: do 2 f_equal; induction ds; simpl; congruence.
Qed.

(** The pieces the scan has still to look at. *)
Definition scan_pieces (local : list (Mode * Doc)) (rest : list Item) : list piece :=
  flat_map (λ p, pieces p.1 p.2) local ++ stack_pieces rest.

Definition local_size (local : list (Mode * Doc)) : nat := sum_list (map (λ p, doc_size p.2) local).
Definition stack_size (stack : list Item) : nat := sum_list (map (λ i, doc_size i.2) stack).

Lemma fits_step_size r mode d r' pushed :
  fits_step r mode d = Go r' pushed → (local_size pushed < doc_size d)%nat.
Proof.
  unfold local_size, spend. destruct d; simpl; unfold spend; intros H;
    repeat case_match; simplify_eq/=; try lia.
  rewrite map_map. apply Nat.lt_succ_diag_r.
Qed.

Lemma flat_map_pieces_ok local : Forall wide_ok (flat_map (λ p, pieces p.1 p.2) local).
Proof. induction local; simpl; [constructor|]. apply Forall_app; auto using pieces_ok. Qed.

(** The scan terminates and answers whether the rest of the line is within the width. *)
Lemma fits_loop_spec fuel : ∀ r local rest,
  0 ≤ r → (local_size local + stack_size rest < fuel)%nat →
  fits_loop fuel r local rest = Some (within r (scan_pieces local rest)).
Proof.
  induction fuel as [|fuel IH]; intros r local rest Hr Hsize; [lia|]. simpl.
  assert (Hgo : ∀ mode d local rest,
    (doc_size d + local_size local + stack_size rest < S fuel)%nat →
    match fits_step r mode d with
    | Answer b => Some b
    | Go r pushed => fits_loop fuel r (pushed ++ local) rest
    end = Some (within r (pieces mode d ++ scan_pieces local rest))).
  { intros mode d l s Hs.
    assert (Forall wide_ok (scan_pieces l s)) as Hok
      by (apply Forall_app; auto using flat_map_pieces_ok, stack_pieces_ok).
    pose proof (fits_step_spec r mode d _ Hr Hok) as Hstep.
    destruct (fits_step r mode d) as [r' pushed|b] eqn:E; simpl in Hstep; [|by f_equal].
    apply fits_step_size in E. destruct Hstep as [Hr' ->].
    assert (local_size (pushed ++ l) = local_size pushed + local_size l)%nat as Happ
      by (unfold local_size; rewrite map_app; apply sum_list_with_app).
    rewrite IH by lia. unfold scan_pieces. by rewrite flat_map_app, <-app_assoc. }
  destruct local as [|[mode d] local].
  - destruct rest as [|[[i mode] d] rest]; simpl.
    + unfold within. simpl. f_equal. lia.
    + specialize (Hgo mode d [] rest). unfold scan_pieces, stack_size, local_size in *.
      simpl in *. rewrite <-Hgo by lia.
      destruct (fits_step r mode d); [by rewrite app_nil_r|done].
  - rewrite Hgo; [|unfold local_size in *; simpl in *; lia].
    unfold scan_pieces. simpl. by rewrite <-app_assoc.
Qed.

Lemma fits_spec r d rest : fits r d rest = within r (pieces Flat d ++ stack_pieces rest).
Proof.
  unfold fits. destruct (Z.ltb_spec r 0).
  - symmetry. apply within_neg; [|done]. apply Forall_app; auto using pieces_ok, stack_pieces_ok.
  - rewrite fits_loop_spec; [|done|].
    + unfold scan_pieces. simpl. by rewrite app_nil_r.
    + unfold fits_fuel, local_size, stack_size. simpl. lia.
Qed.

(** ** The renderer is the recursive layout *)

Lemma visit_lay w indent mode d out col stack :
  let st := visit w indent mode d out col stack in
  lay_stack w (st_stack st) (st_out st, st_col st)
  = lay_stack w stack (lay w indent mode d stack (out, col)).
Proof.
  destruct d; simpl; try (by repeat case_match).
  change (lay_stack w stack _) with (lay_stack w stack (lay w indent mode (Concat ds) stack (out, col))).
  generalize (out, col). simpl. induction ds as [|d ds IH]; intros oc; simpl; [done|]. apply IH.
Qed.

Lemma visit_size w indent mode d out col stack :
  (stack_size (st_stack (visit w indent mode d out col stack)) < doc_size d + stack_size stack)%nat.
Proof.
  unfold stack_size. destruct d; simpl; repeat case_match; simpl; try lia.
  rewrite map_app, sum_list_with_app, map_map.
  change (map (λ x : Doc, doc_size (indent, mode, x).2) ds) with (map doc_size ds). lia.
Qed.

Lemma render_loop_lay w fuel : ∀ st,
  (stack_size (st_stack st) ≤ fuel)%nat →
  render_loop fuel w st = Some (lay_stack w (st_stack st) (st_out st, st_col st)).1.
Proof.
  induction fuel as [|fuel IH]; intros [out col [|[[i m] d] stack]] Hsize; simpl; try done.
  - exfalso. pose proof (doc_size_pos d). unfold stack_size in Hsize. simpl in Hsize. lia.
  - rewrite IH; [by rewrite visit_lay|].
    pose proof (visit_size w i m d out col stack). unfold stack_size in *. simpl in *. lia.
Qed.

Lemma render_is_lay doc w :
  render doc w = Some (lay w 0 Break doc [] ([], 0)).1.
Proof.
  unfold render. rewrite render_loop_lay; [done|]. unfold stack_size. simpl. lia.
Qed.

(** C38: The renderer returns, and the text it returns is the recursive layout of the
    document from an empty line. *)
Theorem render_is_recursive_layout doc w :
  render doc w = Some (lay w 0 Break doc [] ([], 0)).1.
Proof. apply render_is_lay. Qed.

(** A step of the renderer does not change the text it is heading for. *)
Definition steps_to (w : Z) (a b : St) : Prop := step w a = Some b.

Lemma steps_lay w a b :
  steps_to w a b →
  lay_stack w (st_stack a) (st_out a, st_col a) = lay_stack w (st_stack b) (st_out b, st_col b).
Proof.
  destruct a as [out col [|[[i m] d] stack]]; unfold steps_to; simpl; [done|].
  intros [= <-]. by rewrite visit_lay.
Qed.

Lemma reach_lay w a b :
  rtc (steps_to w) a b →
  lay_stack w (st_stack a) (st_out a, st_col a) = lay_stack w (st_stack b) (st_out b, st_col b).
Proof. induction 1; [done|]. by rewrite (steps_lay w x y). Qed.

(** ** Documents the formatter builds *)

(** What a document prints when all of it is laid flat. *)
Fixpoint flat_text (d : Doc) : text :=
  match d with
  | Nil | SoftLine | HardLine => []
  | Text s | Verbatim s | FlatText s => s
  | Line => [sp]
  | Concat ds => flat_map flat_text ds
  | Nest _ d | Align d | Group d => flat_text d
  | PreferIfFits _ _ t _ => flat_text t
  end.

(** No text has a newline in it: [Text] promises it, a [Verbatim] need not. *)
Fixpoint one_line (d : Doc) : bool :=
  match d with
  | Text s | Verbatim s | FlatText s => negb (has_newline s)
  | Concat ds => forallb one_line ds
  | Nest _ d | Align d | Group d => one_line d
  | PreferIfFits _ _ t e => one_line t && one_line e
  | _ => true
  end.

(** The alternatives of every [PreferIfFits] flatten identically, as it asks for. *)
Fixpoint alike (d : Doc) : bool :=
  match d with
  | Concat ds => forallb alike ds
  | Nest _ d | Align d | Group d => alike d
  | PreferIfFits _ _ t e =>
      alike t && alike e && bool_decide (flat_text t = flat_text e)
      && bool_decide (pieces Flat t = pieces Flat e)
      && bool_decide (pieces Break t = pieces Break e)
  | _ => true
  end.

Definition good (d : Doc) : bool := one_line d && alike d.

Lemma good_concat ds : good (Concat ds) = forallb good ds.
Proof.
  unfold good. simpl. induction ds as [|d ds IH]; simpl; [done|]. rewrite <-IH.
  destruct (one_line d), (alike d), (forallb one_line ds), (forallb alike ds); done.
Qed.

Lemma good_prefer need extra t e :
  good (PreferIfFits need extra t e) = true →
  good t = true ∧ good e = true ∧ flat_text t = flat_text e ∧ ∀ m, pieces m t = pieces m e.
Proof.
  unfold good. simpl. rewrite !andb_true_iff, !bool_decide_eq_true.
  intros ((?&?)&((((?&?)&?)&?)&?)). split_and!; try done. by intros [].
Qed.

(** ** Groups laid flat *)

(** The output extended by a text on the same line. *)
Definition extend (oc : text * Z) (s : text) : text * Z := (oc.1 ++ s, oc.2 + chars s).

Lemma extend_nil oc : extend oc [] = oc.
Proof. destruct oc. unfold extend, chars. simpl. by rewrite app_nil_r, Z.add_0_r. Qed.

Lemma extend_app oc s s' : extend (extend oc s) s' = extend oc (s ++ s').
Proof.
  unfold extend, chars. simpl. rewrite <-app_assoc, length_app. f_equal. lia.
Qed.

(** [oc'] is [oc] with [s] on the same line, and what follows still fits. *)
Definition laid_flat (w : Z) (rest : list Item) (oc : text * Z) (s : text) (oc' : text * Z) : Prop :=
  oc' = extend oc s ∧ within (w - oc'.2) (stack_pieces rest) = true.

Lemma laid_flat_nil w rest oc :
  within (w - oc.2) (stack_pieces rest) = true → laid_flat w rest oc [] oc.
Proof. intros Hw. split; [by rewrite extend_nil|done]. Qed.

Lemma laid_flat_text w rest oc s :
  within (w - oc.2) (Wide (chars s) :: stack_pieces rest) = true →
  laid_flat w rest oc s (push_str s oc.1 oc.2).
Proof. rewrite within_wide. intros Hw. split; [done|]. simpl. by rewrite Z.sub_add_distr. Qed.

Lemma stack_pieces_siblings indent m ds rest :
  stack_pieces (map (pair (indent, m)) ds ++ rest) = flat_map (pieces m) ds ++ stack_pieces rest.
Proof.
  unfold stack_pieces. rewrite flat_map_app. f_equal. induction ds; simpl; congruence.
Qed.

(** A document whose rest of the line fits is laid flat, and what follows it still fits. *)
Lemma lay_flat w d : ∀ indent rest oc,
  good d = true → within (w - oc.2) (pieces Flat d ++ stack_pieces rest) = true →
  laid_flat w rest oc (flat_text d) (lay w indent Flat d rest oc).
Proof.
  induction d using doc_induction; intros indent rest oc Hg; simpl;
    auto using laid_flat_nil, laid_flat_text.
  - unfold good in Hg. simpl in Hg. rewrite andb_true_r in Hg. apply negb_true_iff in Hg.
    unfold verbatim_col. rewrite Hg. apply (laid_flat_text w rest oc s).
  - intros Hw. discriminate Hw.
  - rewrite good_concat in Hg. revert oc. induction H as [|d ds IHd _ IH]; intros oc; simpl.
    + apply laid_flat_nil.
    + simpl in Hg. apply andb_true_iff in Hg as [Hd Hds].
      rewrite <-app_assoc, <-(stack_pieces_siblings indent). intros Hw.
      destruct (IHd indent (map (pair (indent, Flat)) ds ++ rest) oc Hd Hw) as [Heq Hw'].
      rewrite stack_pieces_siblings in Hw'.
      destruct (IH Hds _ Hw') as [Heq' Hw'']. split; [|done].
      by rewrite Heq', Heq, extend_app.
  - intros Hw. unfold group_mode. rewrite fits_spec, Hw. auto.
  - apply good_prefer in Hg as (Ht & He & Heq & Hp). intros Hw. case_match.
    + auto.
    + rewrite Heq. apply IHd2; [done|]. by rewrite <-Hp.
Qed.

(** The width a document takes flat, as the look-ahead measures it. *)
Lemma flat_width_pieces d ps :
  one_line d = true →
  line_width (pieces Flat d ++ ps)
  = match flat_width d with Some k => Z.add k <$> line_width ps | None => None end.
Proof.
  assert (Hzero : ∀ ps, Z.add 0 <$> line_width ps = line_width ps)
    by (intros qs; by destruct (line_width qs)).
  revert ps. induction d using doc_induction; intros ps Hd; simpl in *; rewrite ?Hzero; auto.
  - apply negb_true_iff in Hd. by rewrite Hd.
  - assert (∀ acc, match (fix try_fold (acc : Z) (ds : list Doc) : option Z :=
        match ds with
        | [] => Some acc
        | d :: ds' => match flat_width d with Some w => try_fold (acc + w) ds' | None => None end
        end) acc ds with Some k => Z.add k <$> line_width ps | None => None end
      = Z.add acc <$> line_width (flat_map (pieces Flat) ds ++ ps)) as Hfold.
    { induction H as [|d ds IHd _ IH]; intros acc; simpl; [done|].
      simpl in Hd. apply andb_true_iff in Hd as [Hd Hds].
      rewrite <-app_assoc, IHd by done. destruct (flat_width d) as [k|]; [|done].
      rewrite IH by done. destruct (line_width (flat_map _ _ ++ _)); simpl; [|done]. f_equal. lia. }
    by rewrite Hfold, Hzero.
  - apply andb_true_iff in Hd as [? ?]. auto.
Qed.

Lemma group_mode_flat w col d rest :
  one_line d = true →
  group_mode w col d rest = Flat ↔
  ∃ k r, flat_width d = Some k ∧ line_width (stack_pieces rest) = Some r ∧ k + r ≤ w - col.
Proof.
  intros Hd. unfold group_mode, within. rewrite fits_spec. unfold within.
  rewrite flat_width_pieces by done. split.
  - destruct (flat_width d) as [k|]; [|done]. destruct (line_width _) as [r|]; [|done]. simpl.
    destruct (Z.leb_spec (k + r) (w - col)); [eauto|done].
  - intros (k & r & -> & -> & Hle). simpl. by rewrite (proj2 (Z.leb_le _ _) Hle).
Qed.

(** A group is laid flat exactly when it has a flat width and this and the width of what
    follows, up to the next break, fit in the columns left; laid flat it prints its flat text,
    all on one line whatever the groups in it. *)
Theorem group_flat_iff_rest_of_line_fits w indent mode d rest out col :
  good (Group d) = true →
  (group_mode w col d rest = Flat ↔
   ∃ k r, flat_width d = Some k ∧ line_width (stack_pieces rest) = Some r ∧ k + r ≤ w - col) ∧
  (group_mode w col d rest = Flat →
   lay w indent mode (Group d) rest (out, col) = (out ++ flat_text d, col + chars (flat_text d))).
Proof.
  intros Hg. split; [apply group_mode_flat; by apply andb_true_iff in Hg as [? _]|].
  intros Hm. simpl. rewrite Hm. unfold group_mode in Hm. rewrite fits_spec in Hm.
  destruct (within _ _) eqn:Hw; [|done]. by apply (lay_flat w d indent rest (out, col)).
Qed.

(** Three places where the look-ahead is not the width of the rest of the line: the first
    line of a verbatim text counts for nothing; after such a text a hard break is not seen,
    and the group is laid flat around it; and a hard break at the start of a group that
    follows does not end the line, it refuses whatever comes before. *)
Theorem look_ahead_shortcuts w col d s ds m rest :
  has_newline s = true → one_line d = true → 0 ≤ col ≤ w →
  group_mode w col (Verbatim s) rest = Flat
  ∧ group_mode w col (Concat [Verbatim s; HardLine]) rest = Flat
  ∧ (group_mode w col d ((0, Break, Concat (HardLine :: ds)) :: rest) = Flat
     ↔ ∃ k, flat_width d = Some k ∧ k ≤ w - col)
  ∧ group_mode w col d ((0, m, Group (Concat (HardLine :: ds))) :: rest) = Break.
Proof.
  intros Hs Hd Hcol. split_and!.
  1, 2: unfold group_mode; rewrite fits_spec; simpl; rewrite Hs; unfold within; simpl;
    by rewrite (proj2 (Z.leb_le 0 (w - col))) by lia.
  - rewrite group_mode_flat by done. simpl. split.
    + intros (k & r & ? & [= <-] & ?). exists k. split; [done|lia].
    + intros (k & ? & ?). exists k, 0. split_and!; [done..|lia].
  - destruct (group_mode _ _ _ _) eqn:Hm; [|done].
    apply group_mode_flat in Hm as (? & ? & _ & [=] & _). done.
Qed.

(** ** Layout is white space *)

Definition is_blank (c : N) : bool := N.eqb c sp || N.eqb c nl.
Definition ink (s : text) : text := List.filter (λ c, negb (is_blank c)) s.

(** What every layout of a document prints: all but the texts of its flat renderings. *)
Fixpoint least_ink (d : Doc) : text :=
  match d with
  | Text s | Verbatim s => ink s
  | Concat ds => flat_map least_ink ds
  | Nest _ d | Align d | Group d => least_ink d
  | PreferIfFits _ _ t _ => least_ink t
  | _ => []
  end.

Fixpoint same_ink (d : Doc) : bool :=
  match d with
  | Concat ds => forallb same_ink ds
  | Nest _ d | Align d | Group d => same_ink d
  | PreferIfFits _ _ t e =>
      same_ink t && same_ink e && bool_decide (least_ink t = least_ink e)
      && bool_decide (ink (flat_text t) = ink (flat_text e))
  | _ => true
  end.

Lemma ink_app s s' : ink (s ++ s') = ink s ++ ink s'.
Proof. apply List.filter_app. Qed.

Lemma ink_drop_spaces s : ink (drop_spaces s) = ink s.
Proof.
  induction s as [|c s IH]; cbn [drop_spaces]; [done|].
  destruct (N.eqb_spec sp c) as [<-|]; [done|done].
Qed.

Lemma ink_reverse s : ink (reverse s) = reverse (ink s).
Proof.
  induction s as [|c s IH]; [done|]. rewrite reverse_cons, ink_app, IH. simpl.
  destruct (is_blank c); simpl; [by rewrite app_nil_r|by rewrite reverse_cons].
Qed.

Lemma ink_newline out indent : ink (newline out indent).1 = ink out.
Proof.
  unfold newline, trim_spaces. simpl.
  rewrite ink_app, ink_reverse, ink_drop_spaces, ink_reverse, reverse_involutive.
  rewrite <-(app_nil_r (ink out)) at 2. f_equal. simpl. by induction (Z.to_nat indent).
Qed.

(** [t] is printed between what every layout prints and what the flat one does. *)
Definition between (d : Doc) (out out' : text) : Prop :=
  ∃ t, ink out' = ink out ++ t ∧ least_ink d `sublist_of` t ∧ t `sublist_of` ink (flat_text d).

Lemma between_text d s out :
  least_ink d `sublist_of` ink s → ink s `sublist_of` ink (flat_text d) → between d out (out ++ s).
Proof. intros ? ?. exists (ink s). by rewrite ink_app. Qed.

Lemma between_newline d out indent :
  least_ink d = [] → between d out (newline out indent).1.
Proof.
  intros Hd. exists []. rewrite ink_newline, app_nil_r, Hd. auto using sublist_nil_l.
Qed.

Lemma between_nothing d out : least_ink d = [] → between d out out.
Proof. intros Hd. exists []. rewrite app_nil_r, Hd. auto using sublist_nil_l. Qed.

Lemma between_concat d ds a b c :
  between d a b → between (Concat ds) b c → between (Concat (d :: ds)) a c.
Proof.
  intros (t & Ht & Hl & Hu) (t' & Ht' & Hl' & Hu'). exists (t ++ t').
  rewrite Ht', Ht, <-app_assoc. split; [done|]. simpl. rewrite ink_app.
  split; by apply sublist_app.
Qed.

Lemma lay_between w d : ∀ indent mode rest oc,
  same_ink d = true → between d oc.1 (lay w indent mode d rest oc).1.
Proof.
  induction d using doc_induction; intros indent mode rest oc Hd;
    cbn [lay]; try destruct mode; auto using between_nothing, between_newline.
  all: try (apply between_text; done || apply sublist_nil_l || reflexivity).
  all: try (apply IHd; done).
  - cbn [same_ink] in Hd. revert oc. induction H as [|d ds IHd _ IH]; intros oc;
      [by apply between_nothing|].
    simpl in Hd. apply andb_true_iff in Hd as [Hd Hds]. eapply between_concat; eauto.
  - simpl in Hd. revert oc. induction H as [|d ds IHd _ IH]; intros oc;
      [by apply between_nothing|].
    simpl in Hd. apply andb_true_iff in Hd as [Hd Hds]. eapply between_concat; eauto.
  - simpl in Hd. rewrite !andb_true_iff, !bool_decide_eq_true in Hd.
    destruct Hd as (((Ht & He) & Hl) & Hu). case_match; [by apply IHd1|].
    destruct (IHd2 indent Flat rest oc He) as (t & ? & ? & ?). exists t. simpl.
    by rewrite Hl, Hu.
  - simpl in Hd. rewrite !andb_true_iff, !bool_decide_eq_true in Hd.
    destruct Hd as (((Ht & He) & Hl) & Hu). case_match; [by apply IHd1|].
    destruct (IHd2 indent Break rest oc He) as (t & ? & ? & ?). exists t. simpl.
    by rewrite Hl, Hu.
Qed.

(** Layout chooses white space only: at any width the text rendered, blanks aside, is the
    document's text in order, of which only the texts for flat renderings may be missing. *)
Theorem layout_keeps_text doc w :
  same_ink doc = true →
  ∃ out, render doc w = Some out
    ∧ least_ink doc `sublist_of` ink out ∧ ink out `sublist_of` ink (flat_text doc).
Proof.
  intros Hd. rewrite render_is_lay. eexists. split; [done|].
  destruct (lay_between w doc 0 Break [] ([], 0) Hd) as (t & -> & ? & ?). done.
Qed.
