(* ===== verification/DocLines.v ===== *)
(** * The lines the layout engine writes (crates/quoin-fmt/src/doc.rs)

    What every step of the renderer does to the line it is on: the column is the width of that
    line, finished lines are never touched again and end without spaces, and a line on which a
    group was laid flat stays within the width.  Layout changes nothing but white space. *)
From Stdlib Require Import Ascii.
From stdpp Require Import base numbers list relations strings.
From stdpp Require Import options.
From S2P Require Import Prelude Doc DocProps.
Local Open Scope Z_scope.

(** ** Lines of a text *)

Fixpoint lines (s : text) : list text :=
  match s with
  | [] => [[]]
  | c :: s' =>
      if N.eqb nl c then [] :: lines s'
      else match lines s' with
           | l :: ls => (c :: l) :: ls
           | [] => [[c]]
           end
  end.

Lemma has_newline_app s s' : has_newline (s ++ s') = has_newline s || has_newline s'.
Proof. apply existsb_app. Qed.

Lemma lines_one s : has_newline s = false → lines s = [s].
Proof.
  induction s as [|c s IH]; simpl; [done|]. intros [Hc Hs]%orb_false_iff.
  by rewrite Hc, IH.
Qed.

Lemma lines_break a b : has_newline a = false → lines (a ++ nl :: b) = a :: lines b.
Proof.
  induction a as [|c a IH]; simpl; [done|]. intros [Hc Ha]%orb_false_iff.
  by rewrite Hc, IH.
Qed.

(** Complete lines, each followed by its newline. *)
Definition finished (ls : list text) : text := flat_map (λ l, l ++ [nl]) ls.

Lemma lines_finished ls s :
  Forall (λ l, has_newline l = false) ls → lines (finished ls ++ s) = ls ++ lines s.
Proof.
  induction 1 as [|l ls Hl _ IH]; simpl; [done|].
  rewrite <-!app_assoc. simpl. by rewrite lines_break, IH.
Qed.

Lemma finished_snoc ls l : finished (ls ++ [l]) = finished ls ++ l ++ [nl].
Proof. unfold finished. rewrite flat_map_app. simpl. by rewrite app_nil_r. Qed.

(** ** Trimming *)

Definition ends_in_space (s : text) : bool := bool_decide (last s = Some sp).

Lemma drop_spaces_reverse s :
  ∃ n, s = replicate n sp ++ drop_spaces s ∧ head (drop_spaces s) ≠ Some sp.
Proof.
  induction s as [|c s (n & IH & Hh)]; [by exists 0%nat|]. cbn [drop_spaces].
  destruct (N.eqb_spec sp c) as [<-|Hc].
  - exists (S n). split; [|done]. simpl. by rewrite <-IH.
  - exists 0%nat. split; [done|]. simpl. intros [= ->]. by destruct Hc.
Qed.

Lemma drop_spaces_app s s' :
  head s' ≠ Some sp → drop_spaces (s ++ s') = drop_spaces s ++ s'.
Proof.
  intros Hs. induction s as [|c s IH]; cbn [app drop_spaces].
  - destruct s' as [|c' s']; [done|]. cbn [drop_spaces]. by destruct (N.eqb_spec sp c') as [<-|].
  - by destruct (N.eqb sp c).
Qed.

(** Trimming leaves a finished line alone and cuts the current one at its last space. *)
Lemma trim_spaces_line ls cur :
  trim_spaces (finished ls ++ cur) = finished ls ++ trim_spaces cur.
Proof.
  unfold trim_spaces. rewrite reverse_app, drop_spaces_app, reverse_app, reverse_involutive; [done|].
  induction ls as [|l ls IH] using rev_ind; [done|].
  rewrite finished_snoc, app_assoc, reverse_app. done.
Qed.

Lemma trim_spaces_prefix s : ∃ n, s = trim_spaces s ++ replicate n sp.
Proof.
  unfold trim_spaces. destruct (drop_spaces_reverse (reverse s)) as (n & Hs & _). exists n.
  rewrite <-(reverse_involutive s) at 1. rewrite Hs at 1. by rewrite reverse_app, reverse_replicate.
Qed.

Lemma trim_spaces_end s : ends_in_space (trim_spaces s) = false.
Proof.
  unfold ends_in_space, trim_spaces. apply bool_decide_eq_false.
  destruct (drop_spaces_reverse (reverse s)) as (n & _ & Hh).
  destruct (drop_spaces (reverse s)) as [|c t]; [done|].
  by rewrite reverse_cons, last_snoc.
Qed.

Lemma trim_spaces_newline s : has_newline s = false → has_newline (trim_spaces s) = false.
Proof.
  destruct (trim_spaces_prefix s) as [n Hn]. rewrite Hn at 1.
  rewrite has_newline_app, orb_false_iff. by intros [? _].
Qed.

Lemma trim_spaces_chars s : chars (trim_spaces s) ≤ chars s.
Proof.
  destruct (trim_spaces_prefix s) as [n Hn]. unfold chars. rewrite Hn at 2. rewrite length_app. lia.
Qed.

Lemma replicate_newline n : has_newline (replicate n sp) = false.
Proof. induction n; done. Qed.

(** ** The renderer, line by line *)

(** The output is the finished lines [ls], none of them ending in a space, and the current
    line [cur], as wide as the column says. *)
Record at_line (ls : list text) (cur : text) (st : St) : Prop := {
  at_out : st_out st = finished ls ++ cur;
  at_whole : Forall (λ l, has_newline l = false) ls;
  at_trimmed : Forall (λ l, ends_in_space l = false) ls;
  at_current : has_newline cur = false;
  at_col : st_col st = chars cur }.

Definition item_ok (i : Item) : Prop := 0 ≤ i.1.1 ∧ one_line i.2 = true.
Definition stack_ok (st : St) : Prop := Forall item_ok (st_stack st) ∧ 0 ≤ st_col st.

(** What a step does: it extends the current line, or finishes it. *)
Definition same_line (ls : list text) (cur : text) (st' : St) : Prop :=
  ∃ s, at_line ls (cur ++ s) st'.
Definition next_line (ls : list text) (cur : text) (st' : St) : Prop :=
  ∃ n, at_line (ls ++ [trim_spaces cur]) (replicate n sp) st'.

(** What is left of the line fits. *)
Definition line_fits (w : Z) (st : St) : Prop :=
  within (w - st_col st) (stack_pieces (st_stack st)) = true.

(** A step appends to the output, keeping what fits fitting, or breaks the line. *)
Definition appends (w : Z) (d : Doc) (st st' : St) : Prop :=
  ∃ s, has_newline s = false ∧ st_out st' = st_out st ++ s ∧ st_col st' = st_col st + chars s
       ∧ (good d = true → line_fits w st → line_fits w st').

Definition breaks (indent : Z) (st st' : St) : Prop :=
  (st_out st', st_col st') = newline (st_out st) indent.

Lemma appends_text w d s indent m out col stack :
  has_newline s = false → pieces m d = [Wide (chars s)] →
  appends w d (mkSt out col ((indent, m, d) :: stack)) (mkSt (out ++ s) (col + chars s) stack).
Proof.
  intros Hs Hd. exists s. split_and!; [done..|]. intros _. unfold line_fits. simpl.
  rewrite Hd. simpl. by rewrite within_wide, Z.sub_add_distr.
Qed.

Lemma appends_nothing w d st st' :
  st_out st' = st_out st → st_col st' = st_col st →
  (good d = true → within (w - st_col st) (stack_pieces (st_stack st)) = true →
   within (w - st_col st) (stack_pieces (st_stack st')) = true) →
  appends w d st st'.
Proof.
  intros Ho Hc Hf. exists []. unfold line_fits, chars.
  rewrite app_nil_r, Z.add_0_r, Ho, Hc. by split_and!.
Qed.

Lemma visit_shape w indent m d out col stack :
  let st := mkSt out col ((indent, m, d) :: stack) in
  let st' := visit w indent m d out col stack in
  one_line d = true → appends w d st st' ∨ breaks indent st st'.
Proof.
  intros st st' Hd. subst st st'. destruct d; simpl in *; try destruct m;
    try (right; done); left;
    try (apply appends_nothing; [done..|]; simpl; rewrite ?stack_pieces_siblings; by auto);
    try (apply appends_text; [|done]; by try apply negb_true_iff).
  1, 2: apply negb_true_iff in Hd; unfold verbatim_col; rewrite Hd;
    apply appends_text; simpl; by rewrite ?Hd.
  1, 2: apply appends_nothing; [done..|]; intros _ Hfit; simpl in *;
    unfold group_mode; by rewrite fits_spec, Hfit.
  1, 2: apply appends_nothing; [done..|]; intros (_ & _ & _ & Hp)%good_prefer; simpl;
    case_match; by rewrite ?Hp.
Qed.

Lemma at_line_append w d ls cur st st' :
  at_line ls cur st → appends w d st st' → same_line ls cur st'.
Proof.
  intros [Ho Hw Ht Hc Hcol] (s & Hs & Ho' & Hc' & _). exists s. split; [|done|done| |].
  - by rewrite Ho', Ho, <-app_assoc.
  - by rewrite has_newline_app, Hc, Hs.
  - rewrite Hc', Hcol. unfold chars. rewrite length_app. lia.
Qed.

Lemma at_line_break ls cur st st' indent :
  at_line ls cur st → 0 ≤ indent → breaks indent st st' → next_line ls cur st'.
Proof.
  intros [Ho Hw Ht Hc Hcol] Hi Hb. exists (Z.to_nat indent).
  injection Hb as Ho' Hc'. split.
  - rewrite Ho', Ho, trim_spaces_line, finished_snoc. by rewrite <-!app_assoc.
  - apply Forall_app. auto using trim_spaces_newline.
  - apply Forall_app. auto using trim_spaces_end.
  - apply replicate_newline.
  - rewrite Hc'. unfold chars. rewrite length_replicate. lia.
Qed.

Lemma visit_line w indent m d out col stack ls cur :
  let st := mkSt out col ((indent, m, d) :: stack) in
  stack_ok st → at_line ls cur st →
  let st' := visit w indent m d out col stack in
  (same_line ls cur st' ∧ (good d = true → line_fits w st → line_fits w st'))
  ∨ next_line ls cur st'.
Proof.
  intros st [Hok Hcol] Hat st'. apply Forall_cons in Hok as [[Hi Hd] Hok]. simpl in *.
  destruct (visit_shape w indent m d out col stack Hd) as [Ha|Hb].
  - left. split; [by eapply at_line_append|]. by destruct Ha as (s & _ & _ & _ & Hf).
  - right. exact (at_line_break _ _ _ _ _ Hat Hi Hb).
Qed.

Lemma visit_stack_ok w indent m d out col stack :
  stack_ok (mkSt out col ((indent, m, d) :: stack)) →
  stack_ok (visit w indent m d out col stack).
Proof.
  intros [Hok Hcol]. apply Forall_cons in Hok as [[Hi Hd] Hok]. simpl in *.
  assert (Hsub : ∀ i m d, 0 ≤ i → one_line d = true →
    stack_ok (mkSt out col ((i, m, d) :: stack))).
  { intros. split; [|done]. constructor; [done|done]. }
  assert (Hcols : ∀ s, 0 ≤ col + chars s) by (intros s; pose proof (chars_nonneg s); lia).
  destruct d; simpl in *; try destruct m; try (apply Hsub; done);
    try (split; simpl; auto; done).
  - split; simpl; [done|]. unfold verbatim_col. case_match; auto using chars_nonneg.
  - split; simpl; [done|]. unfold verbatim_col. case_match; auto using chars_nonneg.
  - split; simpl; [|done]. apply Forall_app. split; [|done].
    apply Forall_fmap, Forall_forall. intros x Hx. split; [done|].
    rewrite forallb_forall in Hd. by apply Hd, list_elem_of_In.
  - split; simpl; [|done]. apply Forall_app. split; [|done].
    apply Forall_fmap, Forall_forall. intros x Hx. split; [done|].
    rewrite forallb_forall in Hd. by apply Hd, list_elem_of_In.
  - apply Hsub; [unfold nest_indent; lia|done].
  - apply Hsub; [unfold nest_indent; lia|done].
  - apply andb_true_iff in Hd as [??]. apply Hsub; [done|]. by case_match.
  - apply andb_true_iff in Hd as [??]. apply Hsub; [done|]. by case_match.
Qed.

Lemma start_ok doc : one_line doc = true → stack_ok (start doc) ∧ at_line [] [] (start doc).
Proof. intros Hd. split; [split; [repeat constructor|]; done|by split]. Qed.

(** ** Runs of the renderer *)

Lemma at_line_lines ls cur st : at_line ls cur st → lines (st_out st) = ls ++ [cur].
Proof. intros [-> Hw _ Hc _]. by rewrite lines_finished, lines_one. Qed.

(** The lines grow: the finished ones stay, the current one is finished or still open. *)
Lemma reach_line w a b : rtc (steps_to w) a b → ∀ ls cur,
  stack_ok a → at_line ls cur a →
  stack_ok b ∧ ∃ ls' cur', at_line (ls ++ ls') cur' b.
Proof.
  induction 1 as [a|a b c Hab _ IH]; intros ls cur Hok Hat.
  - split; [done|]. exists [], cur. by rewrite app_nil_r.
  - destruct a as [out col [|[[i m] d] stack]]; [discriminate Hab|].
    unfold steps_to in Hab. simpl in Hab. injection Hab as <-.
    destruct (visit_line w i m d out col stack ls cur Hok Hat) as [[[s Hs] _]|[n Hn]].
    + by eapply IH; [apply visit_stack_ok|].
    + destruct (IH _ _ (visit_stack_ok _ _ _ _ _ _ _ Hok) Hn) as (? & ls' & cur' & Hat').
      split; [done|]. exists (trim_spaces cur :: ls'), cur'. by rewrite <-app_assoc in Hat'.
Qed.

(** A run ends in the state whose output is the text rendered. *)
Lemma run_ends w fuel : ∀ st out,
  render_loop fuel w st = Some out →
  ∃ st', rtc (steps_to w) st st' ∧ st_stack st' = [] ∧ st_out st' = out.
Proof.
  induction fuel as [|fuel IH]; intros [o c [|[[i m] d] stack]] out; simpl; try done.
  - intros [= <-]. by exists (mkSt o c []).
  - intros [= <-]. by exists (mkSt o c []).
  - intros (st' & Hr & ? & ?)%IH. exists st'. split; [|done]. by eapply rtc_l.
Qed.

Lemma reached_state_ends w doc st out :
  render doc w = Some out → rtc (steps_to w) (start doc) st →
  ∃ st', rtc (steps_to w) st st' ∧ st_stack st' = [] ∧ st_out st' = out.
Proof.
  intros Hr Hreach. apply reach_lay in Hreach. rewrite render_is_lay in Hr.
  injection Hr as <-. simpl in Hreach. rewrite Hreach.
  eapply run_ends. by apply render_loop_lay.
Qed.

(** In every state of a rendering the column is the width of the last line written; the
    lines before it are final; and in the text rendered no line but the last ends in a space. *)
Theorem rendered_lines_are_exact w doc st out :
  one_line doc = true → render doc w = Some out → rtc (steps_to w) (start doc) st →
  ∃ ended cur, lines (st_out st) = ended ++ [cur] ∧ st_col st = chars cur
  ∧ ended `prefix_of` lines out
  ∧ Forall (λ l, ends_in_space l = false) (removelast (lines out)).
Proof.
  intros Hd Hr Hreach.
  destruct (reached_state_ends _ _ _ _ Hr Hreach) as (st' & Hend & _ & <-).
  destruct (start_ok doc Hd) as [Hok Hat].
  destruct (reach_line _ _ _ Hreach _ _ Hok Hat) as (Hok' & ls & cur & Hat'). simpl in Hat'.
  destruct (reach_line _ _ _ Hend _ _ Hok' Hat') as (_ & ls' & cur' & Hat'').
  exists ls, cur. rewrite (at_line_lines _ _ _ Hat'), (at_line_lines _ _ _ Hat''), removelast_last.
  split_and!; [done|apply Hat'| |apply Hat''].
  rewrite <-app_assoc. by apply prefix_app_r.
Qed.

(** ** The width of a line with a flat group *)

Definition good_stack (st : St) : Prop := Forall (λ i, good i.2 = true) (st_stack st).

Lemma visit_good w indent m d out col stack :
  good_stack (mkSt out col ((indent, m, d) :: stack)) →
  good_stack (visit w indent m d out col stack).
Proof.
  unfold good_stack. simpl. intros [Hd Hs]%Forall_cons. simpl in Hd.
  destruct d; simpl; try destruct m; simpl; auto.
  - rewrite good_concat, forallb_forall in Hd. apply Forall_app. split; [|done].
    apply Forall_fmap, Forall_forall. intros x Hx. by apply Hd, list_elem_of_In.
  - rewrite good_concat, forallb_forall in Hd. apply Forall_app. split; [|done].
    apply Forall_fmap, Forall_forall. intros x Hx. by apply Hd, list_elem_of_In.
  - apply good_prefer in Hd as (?&?&_). constructor; [|done]. by case_match.
  - apply good_prefer in Hd as (?&?&_). constructor; [|done]. by case_match.
Qed.

Lemma good_one_line d : good d = true → one_line d = true.
Proof. by intros [? _]%andb_true_iff. Qed.

Lemma line_fits_col w st : line_fits w st → st_col st ≤ w.
Proof.
  unfold line_fits. destruct (Z.leb_spec (st_col st) w); [done|].
  rewrite within_neg; [done|apply stack_pieces_ok|lia].
Qed.

(** From a line that fits, a run either is still on it and it still fits, or has finished it
    within the width. *)
Lemma reach_fits w a b : rtc (steps_to w) a b → ∀ ls cur,
  stack_ok a → good_stack a → line_fits w a → at_line ls cur a →
  (∃ cur', at_line ls cur' b ∧ chars cur' ≤ w)
  ∨ (∃ l ls' cur', at_line (ls ++ l :: ls') cur' b ∧ chars l ≤ w).
Proof.
  induction 1 as [a|a b c Hab Hbc IH]; intros ls cur Hok Hgood Hfit Hat.
  - left. exists cur. split; [done|]. rewrite <-(at_col _ _ _ Hat). by apply line_fits_col.
  - destruct a as [out col [|[[i m] d] stack]]; [discriminate Hab|].
    unfold steps_to in Hab. simpl in Hab. injection Hab as <-.
    pose proof (Forall_inv Hgood) as Hd. simpl in Hd.
    pose proof (visit_stack_ok w _ _ _ _ _ _ Hok) as Hok'.
    pose proof (visit_good w _ _ _ _ _ _ Hgood) as Hgood'.
    destruct (visit_line w i m d out col stack ls cur Hok Hat) as [[[s Hs] Hf]|[n Hn]].
    + destruct (IH _ _ Hok' Hgood' (Hf Hd Hfit) Hs) as [(cur' & ? & ?)|?]; eauto.
    + right. exists (trim_spaces cur).
      destruct (reach_line _ _ _ Hbc _ _ Hok' Hn) as (_ & ls' & cur' & Hat').
      exists ls', cur'. rewrite <-app_assoc in Hat'. split; [done|].
      pose proof (line_fits_col _ _ Hfit). pose proof (trim_spaces_chars cur).
      pose proof (at_col _ _ _ Hat). simpl in *. lia.
Qed.

Lemma reach_good w a b : rtc (steps_to w) a b → good_stack a → good_stack b.
Proof.
  induction 1 as [a|a b c Hab _ IH]; [done|]. intros Hgood. apply IH.
  destruct a as [out col [|[[i m] d] stack]]; [discriminate Hab|].
  unfold steps_to in Hab. simpl in Hab. injection Hab as <-. by apply visit_good.
Qed.

(** A line on which the renderer lays a group flat is, in the text rendered, no longer
    than the width. *)
Theorem line_of_flat_group_fits w doc st indent m d rest out :
  good doc = true → render doc w = Some out → rtc (steps_to w) (start doc) st →
  st_stack st = (indent, m, Group d) :: rest → group_mode w (st_col st) d rest = Flat →
  ∃ l, lines out !! pred (length (lines (st_out st))) = Some l ∧ chars l ≤ w.
Proof.
  intros Hgood Hr Hreach Hst Hflat.
  destruct (reached_state_ends _ _ _ _ Hr Hreach) as (st' & Hend & _ & <-).
  destruct (start_ok doc (good_one_line _ Hgood)) as [Hok Hat].
  destruct (reach_line _ _ _ Hreach _ _ Hok Hat) as (Hok' & ls & cur & Hat').
  assert (good_stack st) as Hgood' by (eapply reach_good; [done|]; by constructor).
  assert (line_fits w st) as Hfit.
  { unfold line_fits. rewrite Hst. simpl. rewrite <-fits_spec.
    unfold group_mode in Hflat. by destruct (fits _ _ _). }
  rewrite (at_line_lines _ _ _ Hat'), length_app, Nat.add_1_r. simpl.
  destruct (reach_fits _ _ _ Hend _ _ Hok' Hgood' Hfit Hat') as [(c & Hc & Hw)|(l & ls' & c & Hc & Hw)].
  - exists c. rewrite (at_line_lines _ _ _ Hc). split; [|done]. by apply list_lookup_middle.
  - exists l. rewrite (at_line_lines _ _ _ Hc), <-app_assoc. split; [|done]. by apply list_lookup_middle.
Qed.

(** * Concrete documents for the layout engine

    The documents of the engine's unit tests (crates/quoin-fmt/src/doc_tests.rs) and a send
    laid out the way the formatter does it, with the theorems applied to them. *)
Local Open Scope Z_scope.

(** The code points of an ASCII string. *)
Fixpoint str (s : string) : text :=
  match s with
  | EmptyString => []
  | String c s' => N_of_ascii c :: str s'
  end.

Definition newline_str : text := [nl].
Definition doc_text (s : string) : Doc := Text (str s).

Definition triple : Doc :=
  Group (Concat [doc_text "a"; Line; doc_text "b"; Line; doc_text "c"]).

Example group_stays_flat_when_it_fits : render triple 80 = Some (str "a b c").
Proof. reflexivity. Qed.

Example group_breaks_when_it_would_overflow :
  render triple 3 = Some (str "a" ++ newline_str ++ str "b" ++ newline_str ++ str "c").
Proof. reflexivity. Qed.

Example nest_indents_broken_lines :
  render (Concat [doc_text "head";
                  Nest 4 (Group (Concat [Line; doc_text "x"; Line; doc_text "y"]))]) 3
  = Some (str "head" ++ newline_str ++ str "    x" ++ newline_str ++ str "    y").
Proof. reflexivity. Qed.

Example align_sets_indent_to_current_column :
  render (Concat [doc_text "kw.";
                  Align (Group (Concat [doc_text "if:"; HardLine; doc_text "else:"]))]) 100
  = Some (str "kw.if:" ++ newline_str ++ str "   else:").
Proof. reflexivity. Qed.

Example softline_is_nothing_when_flat :
  render (Group (Concat [doc_text "a"; SoftLine; doc_text "b"])) 80 = Some (str "ab").
Proof. reflexivity. Qed.

Example newline_trims_trailing_spaces :
  render (Concat [doc_text "a "; HardLine; doc_text "b"]) 80
  = Some (str "a" ++ newline_str ++ str "b").
Proof. reflexivity. Qed.

(** A send of two keywords, broken at its receiver or at its keywords, with an optional
    separator behind it. *)
Definition send : Doc :=
  let pairs := Concat [doc_text "at:1"; Line; doc_text "put:2"] in
  Concat
    [ PreferIfFits (Some 5) 3
        (Concat [doc_text "dict";
                 Group (Concat [Nest 2 (Concat [SoftLine; doc_text "."]); Nest 3 pairs])])
        (Concat [doc_text "dict"; doc_text "."; Group pairs]);
      FlatText (str ";"); Line; doc_text "nil" ].

Example send_wide : render send 80 = Some (str "dict.at:1 put:2" ++ newline_str ++ str "nil").
Proof. reflexivity. Qed.

Example send_narrow :
  render send 9
  = Some (str "dict" ++ newline_str ++ str "  .at:1" ++ newline_str ++ str "   put:2"
          ++ newline_str ++ str "nil").
Proof. reflexivity. Qed.

(** ** The theorems at these documents *)

(** The state of the renderer after [n] entries. *)
Fixpoint run_steps (n : nat) (w : Z) (st : St) : St :=
  match n with
  | O => st
  | S n => match step w st with Some st' => run_steps n w st' | None => st end
  end.

Lemma run_steps_reach n w st : rtc (steps_to w) st (run_steps n w st).
Proof.
  revert st. induction n as [|n IH]; intros st; simpl; [done|].
  destruct (step w st) as [st'|] eqn:E; [|done]. by eapply rtc_l.
Qed.

Lemma line_of_flat_group_fits_witness :
  ∃ l, lines (str "dict.at:1 put:2" ++ newline_str ++ str "nil") !! 0%nat = Some l ∧ chars l ≤ 80.
Proof.
  apply (line_of_flat_group_fits 80 send (run_steps 4 80 (start send)) 0 Break
           (Concat [Nest 2 (Concat [SoftLine; doc_text "."]);
                    Nest 3 (Concat [doc_text "at:1"; Line; doc_text "put:2"])])
           [(0, Break, FlatText (str ";")); (0, Break, Line); (0, Break, doc_text "nil")]).
  - reflexivity.
  - reflexivity.
  - apply run_steps_reach.
  - reflexivity.
  - reflexivity.
Defined.

Lemma rendered_lines_are_exact_witness :
  ∃ ended cur, lines (st_out (run_steps 14 9 (start send))) = ended ++ [cur]
    ∧ st_col (run_steps 14 9 (start send)) = chars cur
    ∧ ended `prefix_of` lines (str "dict" ++ newline_str ++ str "  .at:1" ++ newline_str
                               ++ str "   put:2" ++ newline_str ++ str "nil")
    ∧ Forall (λ l, ends_in_space l = false)
        (removelast (lines (str "dict" ++ newline_str ++ str "  .at:1" ++ newline_str
                            ++ str "   put:2" ++ newline_str ++ str "nil"))).
Proof.
  apply (rendered_lines_are_exact 9 send).
  - reflexivity.
  - reflexivity.
  - apply run_steps_reach.
Defined.

Lemma layout_keeps_text_witness :
  ∃ out, render send 9 = Some out
    ∧ str "dict.at:1put:2nil" `sublist_of` ink out
    ∧ ink out `sublist_of` str "dict.at:1put:2;nil".
Proof. apply (layout_keeps_text send 9). reflexivity. Defined.

Lemma group_flat_iff_witness :
  group_mode 5 0 (Concat [doc_text "a"; Line; doc_text "b"; Line; doc_text "c"]) [] = Flat
  ↔ ∃ k r, flat_width (Concat [doc_text "a"; Line; doc_text "b"; Line; doc_text "c"]) = Some k
      ∧ line_width (stack_pieces []) = Some r ∧ k + r ≤ 5 - 0.
Proof.
  apply (group_flat_iff_rest_of_line_fits 5 0 Break
           (Concat [doc_text "a"; Line; doc_text "b"; Line; doc_text "c"]) [] [] 0).
  reflexivity.
Defined.

Lemma look_ahead_shortcuts_witness :
  let long := str "a first line of more than ten columns" ++ newline_str in
  group_mode 10 0 (Verbatim long) [] = Flat
  ∧ group_mode 10 0 (Concat [Verbatim long; HardLine]) [] = Flat
  ∧ (group_mode 10 0 (doc_text "x") [(0, Break, Concat [HardLine; doc_text "y"])] = Flat
     ↔ ∃ k, flat_width (doc_text "x") = Some k ∧ k ≤ 10 - 0)
  ∧ group_mode 10 0 (doc_text "x") [(0, Break, Group (Concat [HardLine; doc_text "y"]))] = Break.
Proof. apply look_ahead_shortcuts; [reflexivity|reflexivity|lia]. Defined.
