(* ===== verification/Sched.v ===== *)
(** * Tasks and their scheduler (src/src/vm/scheduler.rs)

    The task table, the ready queue, the wakes delivered to parked tasks, cancellation,
    detached tasks and their handles, gather and the joins with and without a deadline: one
    definition per method of [VmState].  The driver that picks tasks is in [Driver].

    What the scheduler only moves around (values, frames, blocks, the results of input and
    output) is a parameter, [VmTypes]; so is [start_block], the interpreter's entry.  Task
    ids are list indices, park epochs are [N] (the code's [u64] counts task switches).  An
    [AbortHandle] is the number of the future it aborts, and [aborted] is the state the
    handles share with the futures.  A slot the code expects to be full and is not, is a panic
    there and [None] here. *)
From stdpp Require Import base numbers list gmap strings.
From stdpp Require Import options.
From S2P Require Import Prelude.

(** What the interpreter and the backends provide. *)
Class VmTypes := {
  Value : Type;
  Frame : Type;
  NativeCall : Type;
  AotTaskState : Type;
  aot_default : AotTaskState;
  Block : Type;
  IoResult : Type;
  OtherError : Type }.

Abbreviation TaskId := nat.
Abbreviation AbortHandle := N.

Section types.
Context `{VmTypes}.

(** The variants of [QuoinError] the scheduler and the channels look at. *)
Inductive QuoinError :=
| Cancelled
| Thrown
| Timeout (ms : Z)
| Other (msg : string)
| ValueError (msg : string)
| Raised (e : OtherError).

Inductive Wake :=
| WIo (result : IoResult)
| WGather (items : list Value)
| WGatherErr (error : QuoinError)
| WJoined (value : Value)
| WFailed (error : Value)
| WJoinedCancelled
| WTimedOut
| WChannelRecv (value : Value)
| WChannelSendOk
| WChannelClosed
| WChannelErr (message : string)
| WServiceClaim (lane : option Z).

(** A data stack, a frame stack, the native calls in progress and the compiled-code state. *)
Record Context := mkContext {
  c_stack : list Value;
  c_frames : list Frame;
  c_native_args : list NativeCall;
  c_aot : AotTaskState }.

Definition empty_context : Context := mkContext [] [] [] aot_default.

(** The slice of the machine that belongs to one task; fibers are named by their handles. *)
Record Slice := mkSlice {
  s_context : Context;
  s_current_fiber : option N;
  s_resume_stack : list (option N);
  s_saved_root : Context;
  s_reentry_depth : nat }.

(** What is left behind when a slice is moved out: the depth is copied, not taken. *)
Definition emptied (s : Slice) : Slice :=
  mkSlice empty_context None [] empty_context (s_reentry_depth s).

Definition fresh_slice : Slice := mkSlice empty_context None [] empty_context 0.

Record GatherState := mkGather {
  g_pending : nat;
  g_results : list (option Value);
  g_first_error : option QuoinError }.

Record Task := mkTask {
  t_block : option Block;
  t_started : bool;
  t_slice : Slice;
  t_wake : option Wake;
  t_parent : option (TaskId * nat);
  t_gather : option GatherState;
  t_handle : option N;
  t_waiters : list TaskId;
  t_cancel_requested : bool;
  t_abort_handle : option AbortHandle;
  t_joining : option TaskId;
  t_park_epoch : N;
  t_deadline_abort : option AbortHandle;
  t_parked_on_channel : bool }.

Inductive TaskStatus := Running | Done | Failed | WasCancelled.

(** The object [Task.spawn:] answers. *)
Record NativeTaskHandle := mkHandle {
  h_id : TaskId;
  h_status : TaskStatus;
  h_result : option Value;
  h_error : option Value }.

Record VmState := mkVm {
  vm_live : Slice;
  tasks : list (option Task);
  ready : list TaskId;
  current_task : TaskId;
  mailbox : option Wake;
  cancel_current : bool;
  park_seq : N;
  active_exception : option Value;
  handles : gmap N NativeTaskHandle;
  aborted : gset AbortHandle }.

End types.

#[export] Instance TaskStatus_eq_dec : EqDecision TaskStatus.
Proof. solve_decision. Defined.

(** ** Field updates *)

Section updates.
Context `{VmTypes}.

Definition set_t_started x (t : Task) : Task := mkTask (t_block t) x (t_slice t) (t_wake t)
    (t_parent t) (t_gather t) (t_handle t) (t_waiters t) (t_cancel_requested t) (t_abort_handle
    t) (t_joining t) (t_park_epoch t) (t_deadline_abort t) (t_parked_on_channel t).
Definition set_t_slice x (t : Task) : Task := mkTask (t_block t) (t_started t) x (t_wake t)
    (t_parent t) (t_gather t) (t_handle t) (t_waiters t) (t_cancel_requested t) (t_abort_handle
    t) (t_joining t) (t_park_epoch t) (t_deadline_abort t) (t_parked_on_channel t).
Definition set_t_wake x (t : Task) : Task := mkTask (t_block t) (t_started t) (t_slice t) x
    (t_parent t) (t_gather t) (t_handle t) (t_waiters t) (t_cancel_requested t) (t_abort_handle
    t) (t_joining t) (t_park_epoch t) (t_deadline_abort t) (t_parked_on_channel t).
Definition set_t_gather x (t : Task) : Task := mkTask (t_block t) (t_started t) (t_slice t)
    (t_wake t) (t_parent t) x (t_handle t) (t_waiters t) (t_cancel_requested t) (t_abort_handle
    t) (t_joining t) (t_park_epoch t) (t_deadline_abort t) (t_parked_on_channel t).
Definition set_t_handle x (t : Task) : Task := mkTask (t_block t) (t_started t) (t_slice t)
    (t_wake t) (t_parent t) (t_gather t) x (t_waiters t) (t_cancel_requested t) (t_abort_handle
    t) (t_joining t) (t_park_epoch t) (t_deadline_abort t) (t_parked_on_channel t).
Definition set_t_waiters x (t : Task) : Task := mkTask (t_block t) (t_started t) (t_slice t)
    (t_wake t) (t_parent t) (t_gather t) (t_handle t) x (t_cancel_requested t) (t_abort_handle
    t) (t_joining t) (t_park_epoch t) (t_deadline_abort t) (t_parked_on_channel t).
Definition set_t_cancel x (t : Task) : Task := mkTask (t_block t) (t_started t) (t_slice t)
    (t_wake t) (t_parent t) (t_gather t) (t_handle t) (t_waiters t) x (t_abort_handle t)
    (t_joining t) (t_park_epoch t) (t_deadline_abort t) (t_parked_on_channel t).
Definition set_t_abort x (t : Task) : Task := mkTask (t_block t) (t_started t) (t_slice t)
    (t_wake t) (t_parent t) (t_gather t) (t_handle t) (t_waiters t) (t_cancel_requested t) x
    (t_joining t) (t_park_epoch t) (t_deadline_abort t) (t_parked_on_channel t).
Definition set_t_joining x (t : Task) : Task := mkTask (t_block t) (t_started t) (t_slice t)
    (t_wake t) (t_parent t) (t_gather t) (t_handle t) (t_waiters t) (t_cancel_requested t)
    (t_abort_handle t) x (t_park_epoch t) (t_deadline_abort t) (t_parked_on_channel t).
Definition set_t_epoch x (t : Task) : Task := mkTask (t_block t) (t_started t) (t_slice t)
    (t_wake t) (t_parent t) (t_gather t) (t_handle t) (t_waiters t) (t_cancel_requested t)
    (t_abort_handle t) (t_joining t) x (t_deadline_abort t) (t_parked_on_channel t).
Definition set_t_deadline x (t : Task) : Task := mkTask (t_block t) (t_started t) (t_slice t)
    (t_wake t) (t_parent t) (t_gather t) (t_handle t) (t_waiters t) (t_cancel_requested t)
    (t_abort_handle t) (t_joining t) (t_park_epoch t) x (t_parked_on_channel t).
Definition set_t_parked x (t : Task) : Task := mkTask (t_block t) (t_started t) (t_slice t)
    (t_wake t) (t_parent t) (t_gather t) (t_handle t) (t_waiters t) (t_cancel_requested t)
    (t_abort_handle t) (t_joining t) (t_park_epoch t) (t_deadline_abort t) x.
Definition set_live x (vm : VmState) : VmState := mkVm x (tasks vm) (ready vm) (current_task vm)
    (mailbox vm) (cancel_current vm) (park_seq vm) (active_exception vm) (handles vm) (aborted
    vm).
Definition set_tasks x (vm : VmState) : VmState := mkVm (vm_live vm) x (ready vm) (current_task
    vm) (mailbox vm) (cancel_current vm) (park_seq vm) (active_exception vm) (handles vm)
    (aborted vm).
Definition set_ready x (vm : VmState) : VmState := mkVm (vm_live vm) (tasks vm) x (current_task
    vm) (mailbox vm) (cancel_current vm) (park_seq vm) (active_exception vm) (handles vm)
    (aborted vm).
Definition set_current x (vm : VmState) : VmState := mkVm (vm_live vm) (tasks vm) (ready vm) x
    (mailbox vm) (cancel_current vm) (park_seq vm) (active_exception vm) (handles vm) (aborted
    vm).
Definition set_mailbox x (vm : VmState) : VmState := mkVm (vm_live vm) (tasks vm) (ready vm)
    (current_task vm) x (cancel_current vm) (park_seq vm) (active_exception vm) (handles vm)
    (aborted vm).
Definition set_cancel_current x (vm : VmState) : VmState := mkVm (vm_live vm) (tasks vm) (ready
    vm) (current_task vm) (mailbox vm) x (park_seq vm) (active_exception vm) (handles vm)
    (aborted vm).
Definition set_park_seq x (vm : VmState) : VmState := mkVm (vm_live vm) (tasks vm) (ready vm)
    (current_task vm) (mailbox vm) (cancel_current vm) x (active_exception vm) (handles vm)
    (aborted vm).
Definition set_exception x (vm : VmState) : VmState := mkVm (vm_live vm) (tasks vm) (ready vm)
    (current_task vm) (mailbox vm) (cancel_current vm) (park_seq vm) x (handles vm) (aborted
    vm).
Definition set_handles x (vm : VmState) : VmState := mkVm (vm_live vm) (tasks vm) (ready vm)
    (current_task vm) (mailbox vm) (cancel_current vm) (park_seq vm) (active_exception vm) x
    (aborted vm).
Definition set_aborted x (vm : VmState) : VmState := mkVm (vm_live vm) (tasks vm) (ready vm)
    (current_task vm) (mailbox vm) (cancel_current vm) (park_seq vm) (active_exception vm)
    (handles vm) x.

End updates.

(** ** The task table *)

Section scheduler.
Context `{VmTypes}.
Implicit Types (vm : VmState) (t : Task).

(** [tasks.get(id).and_then(|t| t.as_ref())]. *)
Definition get_task vm (id : TaskId) : option Task := tasks vm !! id ≫= λ o, o.

(** [tasks[id] = Some(t)], for a slot that exists. *)
Definition put_task vm (id : TaskId) t : VmState := set_tasks (<[id := Some t]> (tasks vm)) vm.

(** [tasks[id] = None]. *)
Definition free_task vm (id : TaskId) : VmState := set_tasks (<[id := None]> (tasks vm)) vm.

(** An update in place of the task in a slot, if there is one. *)
Definition update_task vm (id : TaskId) (f : Task → Task) : VmState :=
  match get_task vm id with Some t => put_task vm id (f t) | None => vm end.

Definition push_ready vm (id : TaskId) : VmState := set_ready (ready vm ++ [id]) vm.

(** [ah.abort()] on an optional handle. *)
Definition abort_opt (ah : option AbortHandle) vm : VmState :=
  match ah with Some f => set_aborted ({[ f ]} ∪ aborted vm) vm | None => vm end.

(** [tasks.iter().position(|t| t.is_none())]. *)
Fixpoint first_free (ts : list (option Task)) : option nat :=
  match ts with
  | [] => None
  | None :: _ => Some 0
  | Some _ :: ts' => S <$> first_free ts'
  end.

Definition alloc_task vm t : VmState * TaskId :=
  match first_free (tasks vm) with
  | Some i => (set_tasks (<[i := Some t]> (tasks vm)) vm, i)
  | None => (set_tasks (tasks vm ++ [Some t]) vm, length (tasks vm))
  end.

Definition new_child_task (block : Block) (parent : option (TaskId * nat)) (handle : option N)
    : Task :=
  mkTask (Some block) false fresh_slice None parent None handle [] false None None 0 None false.

(** ** Switching tasks *)

Definition save_task_context vm (tid : TaskId) : option VmState :=
  t ← get_task vm tid;
  Some (set_live (emptied (vm_live vm)) (put_task vm tid (set_t_slice (vm_live vm) t))).

(** The context a block starts with on an empty machine. *)
Context (start_block : Block → Context → Context).

(** Becoming current: the park state is over, and a fresh epoch is stamped. *)
Definition unpark (seq : N) t : Task :=
  set_t_deadline None (set_t_epoch seq (set_t_parked false (set_t_joining None t))).

Definition load_task_context vm (tid : TaskId) : option VmState :=
  t ← get_task vm tid;
  let seq := (park_seq vm + 1)%N in
  let t := unpark seq t in
  let vm := set_cancel_current (t_cancel_requested t) (set_park_seq seq (set_current tid vm)) in
  if t_started t then
    Some (set_mailbox (t_wake t) (set_live (t_slice t)
      (put_task vm tid (set_t_wake None (set_t_slice (emptied (t_slice t)) t)))))
  else
    block ← t_block t;
    Some (set_mailbox None
      (set_live (mkSlice (start_block block empty_context) None [] empty_context 0)
        (put_task vm tid (set_t_started true t)))).

(** ** Cancellation *)

(** The flags cleared when a checkpoint raises [Cancelled]. *)
Definition take_cancellation vm : VmState * QuoinError :=
  (set_cancel_current false (update_task vm (current_task vm) (set_t_cancel false)), Cancelled).

(** The head of the dispatch loop, before every instruction. *)
Definition checkpoint vm : VmState * option QuoinError :=
  if cancel_current vm then let '(vm, e) := take_cancellation vm in (vm, Some e) else (vm, None).

(** [jt.waiters.retain(|w| *w != target)]. *)
Definition drop_waiter vm (joined target : TaskId) : VmState :=
  update_task vm joined
    (λ t, set_t_waiters (List.filter (λ w, negb (Nat.eqb w target)) (t_waiters t)) t).

Definition nudge_cancelled vm (target : TaskId) : VmState :=
  match get_task vm target with
  | None => vm
  | Some t =>
      match t_abort_handle t with
      | Some ah => abort_opt (Some ah) (put_task vm target (set_t_abort None t))
      | None =>
          match t_wake t, t_joining t with
          | Some _, _ => vm
          | None, Some joined =>
              let vm := put_task vm target (set_t_deadline None (set_t_joining None t)) in
              push_ready (drop_waiter (abort_opt (t_deadline_abort t) vm) joined target) target
          | None, None =>
              if t_parked_on_channel t
              then push_ready (put_task vm target (set_t_parked false t)) target
              else vm
          end
      end
  end.

Definition request_cancel vm (target : TaskId) : VmState :=
  match get_task vm target with
  | None => vm
  | Some t =>
      let vm := put_task vm target (set_t_cancel true t) in
      if Nat.eqb target (current_task vm) then set_cancel_current true vm
      else nudge_cancelled vm target
  end.

Definition request_cancel_from_driver vm (target : TaskId) (loaded : bool) : VmState :=
  match get_task vm target with
  | None => vm
  | Some t =>
      let vm := put_task vm target (set_t_cancel true t) in
      if loaded then set_cancel_current true vm else nudge_cancelled vm target
  end.

(** ** Spawning *)

(** A name for a new handle object. *)
Definition fresh_handle vm : N := fresh (dom (handles vm)).

Definition spawn_detached_id vm (block : Block) : VmState * TaskId :=
  let '(vm, id) := alloc_task vm (new_child_task block None None) in
  let h := fresh_handle vm in
  let vm := set_handles (<[h := mkHandle id Running None None]> (handles vm)) vm in
  (push_ready (update_task vm id (set_t_handle (Some h))) id, id).

(** The loop over the blocks of a gather, from slot [slot] on. *)
Fixpoint spawn_children vm (parent : TaskId) (slot : nat) (blocks : list Block) : VmState :=
  match blocks with
  | [] => vm
  | block :: blocks' =>
      let '(vm, id) := alloc_task vm (new_child_task block (Some (parent, slot)) None) in
      spawn_children (push_ready vm id) parent (S slot) blocks'
  end.

Definition spawn_gather vm (blocks : list Block) : option VmState :=
  let parent := current_task vm in
  vm ← save_task_context vm parent;
  pt ← get_task vm parent;
  match blocks with
  | [] => Some (push_ready (put_task vm parent (set_t_wake (Some (WGather [])) pt)) parent)
  | _ =>
      let g := mkGather (length blocks) (replicate (length blocks) None) None in
      Some (spawn_children (put_task vm parent (set_t_gather (Some g) pt)) parent 0 blocks)
  end.

(** ** Completion *)

(** [gather.results.into_iter().map(|o| o.expect(..)).collect()]. *)
Definition all_results (rs : list (option Value)) : option (list Value) := mapM (λ o, o) rs.

(** One child's outcome recorded in its parent's batch. *)
Definition record_result (g : GatherState) (slot : nat) (result : QuoinError + Value)
    : option GatherState :=
  match result with
  | inr v =>
      if bool_decide (slot < length (g_results g))
      then Some (mkGather (g_pending g - 1) (<[slot := Some v]> (g_results g)) (g_first_error g))
      else None
  | inl e =>
      Some (mkGather (g_pending g - 1) (g_results g)
        (match g_first_error g with Some e' => Some e' | None => Some e end))
  end.

Definition gather_wake (g : GatherState) : option Wake :=
  match g_first_error g with
  | Some error => Some (WGatherErr error)
  | None => WGather <$> all_results (g_results g)
  end.

Definition complete_child vm (cur : TaskId) (result : QuoinError + Value) : option VmState :=
  t ← get_task vm cur;
  '(parent, slot) ← t_parent t;
  let vm := free_task vm cur in
  pt ← get_task vm parent;
  g ← t_gather pt;
  g ← record_result g slot result;
  if Nat.eqb (g_pending g) 0 then
    w ← gather_wake g;
    Some (push_ready (put_task vm parent (set_t_wake (Some w) (set_t_gather None pt))) parent)
  else Some (put_task vm parent (set_t_gather (Some g) pt)).

Inductive DetachedOutcome :=
| ODone (v : Value)
| OFailed (e : Value)
| OCancelled.

(** An error as a value of the language. *)
Context (quoinerror_to_value : QuoinError → Value).

Definition classify vm (result : QuoinError + Value) : DetachedOutcome :=
  match result with
  | inr v => ODone v
  | inl Cancelled => OCancelled
  | inl e => OFailed (match active_exception vm with Some v => v | None => quoinerror_to_value e end)
  end.

Definition finish_handle (o : DetachedOutcome) (h : NativeTaskHandle) : NativeTaskHandle :=
  match o with
  | ODone v => mkHandle (h_id h) Done (Some v) (h_error h)
  | OFailed e => mkHandle (h_id h) Failed (h_result h) (Some e)
  | OCancelled => mkHandle (h_id h) WasCancelled (h_result h) (h_error h)
  end.

Definition outcome_wake (o : DetachedOutcome) : Wake :=
  match o with
  | ODone v => WJoined v
  | OFailed e => WFailed e
  | OCancelled => WJoinedCancelled
  end.

(** Wake one joiner: its deadline is disarmed and its join is over. *)
Definition wake_joiner (wake : Wake) vm (w : TaskId) : VmState :=
  match get_task vm w with
  | None => vm
  | Some t =>
      let vm := abort_opt (t_deadline_abort t) vm in
      push_ready
        (put_task vm w (set_t_wake (Some wake) (set_t_joining None (set_t_deadline None t)))) w
  end.

Definition complete_detached vm (cur : TaskId) (result : QuoinError + Value) : option VmState :=
  t ← get_task vm cur;
  h ← t_handle t;
  let outcome := classify vm result in
  let vm := set_handles (alter (finish_handle outcome) h (handles vm)) vm in
  let vm := free_task vm cur in
  Some (foldl (wake_joiner (outcome_wake outcome)) vm (t_waiters t)).

(** ** Joins *)

(** Before the suspension of [await_join] and [await_join_timed]: the running task joins the
    waiters of its target. *)
Definition register_join vm (target : TaskId) : option VmState :=
  t ← get_task vm target;
  let me := current_task vm in
  let vm := put_task vm target (set_t_waiters (t_waiters t ++ [me]) t) in
  mt ← get_task vm me;
  Some (put_task vm me (set_t_joining (Some target) mt)).

Definition deliver_deadline vm (joiner target : TaskId) (epoch : N) : VmState :=
  match get_task vm joiner with
  | Some t =>
      if bool_decide (t_joining t = Some target) && N.eqb (t_park_epoch t) epoch
         && negb (bool_decide (is_Some (t_wake t)))
      then
        let vm := drop_waiter vm target joiner in
        push_ready
          (update_task vm joiner
             (λ t, set_t_wake (Some WTimedOut) (set_t_deadline None (set_t_joining None t)))) joiner
      else vm
  | None => vm
  end.

(** ** Parking on a channel (src/src/runtime/channel.rs) *)

Definition channel_waiter_live vm (id : TaskId) (epoch : N) : bool :=
  match get_task vm id with
  | Some t => t_parked_on_channel t && N.eqb (t_park_epoch t) epoch && negb (t_cancel_requested t)
  | None => false
  end.

Definition current_park_epoch vm : N :=
  match get_task vm (current_task vm) with Some t => t_park_epoch t | None => 0 end.

Definition wake_channel_task vm (id : TaskId) (wake : Wake) : VmState :=
  match get_task vm id with
  | Some t => push_ready (put_task vm id (set_t_wake (Some wake) (set_t_parked false t))) id
  | None => vm
  end.

(** ** Back from a park *)

(** What a coroutine is suspended in. *)
Inductive YieldReason := YIo | YGather | YJoin | YJoinTimed | YChannel.

(** What the suspended call answers; a channel park hands its raw wake to the channel. *)
Inductive Outcome :=
| RIo (r : IoResult)
| RValues (items : list Value)
| RValue (v : Value)
| RTimedOut
| RWake (cancelled : bool) (w : option Wake)
| RErr (e : QuoinError).

Definition no_result (k : YieldReason) : QuoinError :=
  Other match k with
        | YIo => "I/O resumed without a result"
        | YGather => "gather resumed without a result"
        | YJoin => "join resumed without a result"
        | YJoinTimed => "timeout join resumed without a result"
        | YChannel => "channel park resumed without a result"
        end.

(** The answer a wake amounts to, and the exception it leaves active. *)
Definition outcome_of (k : YieldReason) (w : option Wake) : Outcome * option Value :=
  match k, w with
  | YIo, Some (WIo r) => (RIo r, None)
  | YGather, Some (WGather items) => (RValues items, None)
  | YGather, Some (WGatherErr e) => (RErr e, None)
  | (YJoin | YJoinTimed), Some (WJoined v) => (RValue v, None)
  | (YJoin | YJoinTimed), Some (WFailed e) => (RErr Thrown, Some e)
  | (YJoin | YJoinTimed), Some WJoinedCancelled => (RErr (Other "joined task was cancelled"), None)
  | YJoinTimed, Some WTimedOut => (RTimedOut, None)
  | YChannel, w => (RWake false w, None)
  | k, _ => (RErr (no_result k), None)
  end.

(** After the suspension of [await_io], [await_gather], [await_join], [await_join_timed] and
    [channel_park]: a pending cancellation comes first. *)
Definition resumed vm (k : YieldReason) : VmState * Outcome :=
  if cancel_current vm then
    match k with
    | YChannel =>
        let w := mailbox vm in
        ((take_cancellation (set_mailbox None vm)).1, RWake true w)
    | _ => let '(vm, e) := take_cancellation vm in (vm, RErr e)
    end
  else
    let '(o, ex) := outcome_of k (mailbox vm) in
    let vm := set_mailbox None vm in
    (match ex with Some v => set_exception (Some v) vm | None => vm end, o).

End scheduler.
