(* ===== verification/Driver.v ===== *)
(** * The driver of the scheduler (src/src/runner_driver.rs)

    [drive_to_completion] as a machine: the driver's own state (which task is current, the
    futures in flight), its decisions (which ready task to pick, which completion arrives),
    and what the running task does at the points where it reaches the scheduler.  The
    instructions a task executes in between are an arbitrary change of its own slice.  Which
    happenings keep to what the scheduler takes for granted is [orderly].

    Not modelled: the debugger's pauses, the control lane of workers, the reaping of closed
    files, and [Runtime.exit:]. *)
From stdpp Require Import base numbers list gmap strings.
From stdpp Require Import options.
From S2P Require Import Prelude Sched.

(** [TaskWakeup], as a future in flight for a task: an input or output operation, or the
    deadline of a timed join. *)
Inductive FutureKind :=
| FutIo
| FutDeadline (target : TaskId) (epoch : N).

#[export] Instance FutureKind_eq_dec : EqDecision FutureKind.
Proof. solve_decision. Defined.

Record Future := mkFuture { f_id : N; f_task : TaskId; f_kind : FutureKind }.

Section driver.
Context `{VmTypes}.
Context (start_block : Block → Context → Context).
Context (quoinerror_to_value : QuoinError → Value).
(** [QN_SCHED_STRESS]: pick at random, preempt at every yield. *)
Context (stress : bool).

(** How the loop ended. *)
Inductive Ending :=
| Finished (v : Value)
| Errored (e : QuoinError)
| Deadlock
| Idle.

Record Driver := mkDriver {
  d_vm : VmState;
  d_current : option TaskId;
  d_futures : list Future;
  d_next_future : N;
  d_suspended : gmap TaskId YieldReason;
  d_signal_sent : bool;
  d_ended : option Ending }.

Definition with_vm (d : Driver) (vm : VmState) : Driver :=
  mkDriver vm (d_current d) (d_futures d) (d_next_future d) (d_suspended d) (d_signal_sent d)
    (d_ended d).

(** The running task is done for now. *)
Definition yields (d : Driver) (vm : VmState) : Driver :=
  mkDriver vm None (d_futures d) (d_next_future d) (d_suspended d) (d_signal_sent d) (d_ended d).

(** The running task's coroutine is suspended in [k], and no task is current. *)
Definition suspends (d : Driver) (c : TaskId) (k : YieldReason) (vm : VmState) : Driver :=
  mkDriver vm None (d_futures d) (d_next_future d) (<[c := k]> (d_suspended d)) (d_signal_sent d)
    (d_ended d).

(** A new future for task [c], in flight. *)
Definition in_flight (d : Driver) (c : TaskId) (k : FutureKind) : Driver :=
  mkDriver (d_vm d) (d_current d) (d_futures d ++ [mkFuture (d_next_future d) c k])
    (d_next_future d + 1)%N (d_suspended d) (d_signal_sent d) (d_ended d).

Definition ends (d : Driver) (vm : VmState) (e : Ending) : Driver :=
  mkDriver vm None (d_futures d) (d_next_future d) (d_suspended d) (d_signal_sent d) (Some e).

(** What happens next: a decision of the driver, or what the running task reaches. *)
Inductive Act :=
| Pick (idx : nat)
| Deliver (i : nat) (r : IoResult)
| Stop
| Signal
| Compute (slice : Slice) (ex : option Value)
| Checkpoint
| Resume
| Spawn (block : Block)
| Cancel (target : TaskId)
| WakeChannel (id : TaskId) (epoch : N) (w : Wake)
| WakeGrant (id : TaskId) (w : Wake)
| Yield
| AwaitIo
| Gather (blocks : list Block)
| Join (target : TaskId)
| JoinTimed (block : Block)
| ParkOnChannel
| Complete (result : QuoinError + Value).

(** [deliver]: a completion routed to its task. *)
Definition deliver (vm : VmState) (f : Future) (r : IoResult) : option VmState :=
  match f_kind f with
  | FutIo =>
      t ← get_task vm (f_task f);
      let t := set_t_abort None t in
      let t := if decide (f_id f ∈ aborted vm) then t else set_t_wake (Some (WIo r)) t in
      Some (push_ready (put_task vm (f_task f) t) (f_task f))
  | FutDeadline target epoch => Some (deliver_deadline vm (f_task f) target epoch)
  end.

(** [complete_current_task]. *)
Definition complete_current_task (d : Driver) (cur : TaskId) (result : QuoinError + Value)
    : option Driver :=
  let vm := d_vm d in
  t ← get_task vm cur;
  match t_parent t, t_handle t with
  | Some _, _ => yields d <$> complete_child vm cur result
  | None, Some _ => yields d <$> complete_detached quoinerror_to_value vm cur result
  | None, None =>
      Some (ends d (free_task vm cur)
              (match result with inr v => Finished v | inl e => Errored e end))
  end.

(** What the running task [c] does; [None] is a panic.  A channel, a relay and the restart gate
    test an entry of theirs ([channel_waiter_live]) before they wake it; the grants of a peer's
    claims ([end_peer_call_and_wake]) are delivered as they are. *)
Definition task_act (d : Driver) (c : TaskId) (a : Act) : option Driver :=
  let vm := d_vm d in
  match a with
  | Compute slice ex => Some (with_vm d (set_exception ex (set_live slice vm)))
  | Checkpoint => Some (with_vm d (checkpoint vm).1)
  | Spawn block => Some (with_vm d (spawn_detached_id vm block).1)
  | Cancel target => Some (with_vm d (request_cancel vm target))
  | WakeChannel id epoch w =>
      Some (with_vm d (if channel_waiter_live vm id epoch then wake_channel_task vm id w else vm))
  | WakeGrant id w => Some (with_vm d (wake_channel_task vm id w))
  | Yield =>
      if stress || negb (bool_decide (ready vm = [])) then
        vm ← save_task_context vm c;
        Some (yields d (push_ready vm c))
      else Some d
  | AwaitIo =>
      vm ← save_task_context vm c;
      t ← get_task vm c;
      let d := in_flight d c FutIo in
      Some (suspends d c YIo (put_task vm c (set_t_abort (Some (d_next_future d - 1)%N) t)))
  | Gather blocks => suspends d c YGather <$> spawn_gather vm blocks
  | Join target =>
      match get_task vm target with
      | None => Some d
      | Some _ =>
          vm ← register_join vm target;
          vm ← save_task_context vm c;
          Some (suspends d c YJoin vm)
      end
  | JoinTimed block =>
      let '(vm, target) := spawn_detached_id vm block in
      vm ← register_join vm target;
      vm ← save_task_context vm c;
      t ← get_task vm c;
      let d := in_flight d c (FutDeadline target (t_park_epoch t)) in
      Some (suspends d c YJoinTimed
              (put_task vm c (set_t_deadline (Some (d_next_future d - 1)%N) t)))
  | ParkOnChannel =>
      let vm := update_task vm c (set_t_parked true) in
      vm ← save_task_context vm c;
      Some (suspends d c YChannel vm)
  | Complete result => complete_current_task d c result
  | Pick _ | Deliver _ _ | Stop | Signal | Resume => Some d
  end.

(** The suspended call of the task just made current returns. *)
Definition resume (d : Driver) (c : TaskId) (k : YieldReason) : Driver * Outcome :=
  let '(vm, o) := resumed (d_vm d) k in
  (mkDriver vm (d_current d) (d_futures d) (d_next_future d) (delete c (d_suspended d))
     (d_signal_sent d) (d_ended d), o).

(** One happening; [None] is a panic of the driver. *)
Definition act (d : Driver) (a : Act) : option Driver :=
  let vm := d_vm d in
  match a, d_current d with
  | Pick idx, _ =>
      tid ← ready vm !! idx;
      vm ← load_task_context start_block (set_ready (delete idx (ready vm)) vm) tid;
      Some (mkDriver vm (Some tid) (d_futures d) (d_next_future d) (d_suspended d)
              (d_signal_sent d) (d_ended d))
  | Deliver i r, _ =>
      f ← d_futures d !! i;
      vm ← deliver vm f r;
      Some (mkDriver vm (d_current d) (delete i (d_futures d)) (d_next_future d) (d_suspended d)
              (d_signal_sent d) (d_ended d))
  | Stop, _ =>
      Some (ends d vm (if bool_decide (is_Some (get_task vm 0)) then Deadlock else Idle))
  | Signal, cur =>
      Some (mkDriver (request_cancel_from_driver vm 0 (bool_decide (cur = Some 0))) cur
              (d_futures d) (d_next_future d) (d_suspended d) true (d_ended d))
  | Resume, Some c =>
      match d_suspended d !! c with
      | Some k => Some (resume d c k).1
      | None => Some d
      end
  | a, Some c => task_act d c a
  | _, None => None
  end.

(** A wake a channel, a relay or a hosted-object claim may deliver. *)
Definition channel_wake (w : Wake) : bool :=
  match w with
  | WChannelRecv _ | WChannelSendOk | WChannelClosed | WChannelErr _ | WServiceClaim _ => true
  | _ => false
  end.

(** When a happening is possible: the guards of the loop, and for the running task that its
    suspended call has returned. *)
Definition enabled (d : Driver) (a : Act) : bool :=
  bool_decide (d_ended d = None) &&
  match a, d_current d with
  | Pick idx, None =>
      bool_decide (idx < length (ready (d_vm d))) && (stress || Nat.eqb idx 0)
  | Deliver i _, None => bool_decide (ready (d_vm d) = []) && bool_decide (i < length (d_futures d))
  | Deliver i _, Some c =>
      bool_decide (d_suspended d !! c = None) && bool_decide (i < length (d_futures d))
  | Stop, None => bool_decide (ready (d_vm d) = []) && bool_decide (d_futures d = [])
  | Signal, _ => negb (d_signal_sent d)
  | Resume, Some c => bool_decide (is_Some (d_suspended d !! c))
  | (WakeChannel _ _ w | WakeGrant _ w), Some c =>
      bool_decide (d_suspended d !! c = None) && channel_wake w
  | (Compute _ _ | Checkpoint | Spawn _ | Cancel _ | Yield | AwaitIo | Gather _ | Join _ | JoinTimed _
     | ParkOnChannel | Complete _), Some c => bool_decide (d_suspended d !! c = None)
  | _, _ => false
  end.

(** ** Orderly happenings

    Two calls of the scheduler take for granted what no test of theirs ensures, and two callers
    do not ensure it either.  A grant is for a task still parked: the grant of a drain is not,
    when the [serviceStop] that asked for it was cancelled, since its entry stays in
    [drain_waiters].  A join is of a task with a handle, not the joiner's own: Task.join is, but
    [drain_cancelled], at the end of an [Async.timeout], joins the timed block's task by its
    slot, which may by then hold a child of a gather, whose end tells no joiner.  What is proved
    of runs is proved of the runs without these two; two runs with them are in [SchedAnswers]. *)
Definition grant_live (vm : VmState) (id : TaskId) : bool :=
  match get_task vm id with
  | Some t => t_parked_on_channel t
  | None => false
  end.

Definition joinable (vm : VmState) (c target : TaskId) : bool :=
  negb (Nat.eqb target c)
  && match get_task vm target with
     | Some t => bool_decide (is_Some (t_handle t))
     | None => true
     end.

Definition orderly (vm : VmState) (cur : option TaskId) (a : Act) : bool :=
  match a, cur with
  | WakeGrant id _, _ => grant_live vm id
  | Join target, Some c => joinable vm c target
  | _, _ => true
  end.

(** ** Runs *)

(** [install_main_task]: the started main task, alone and current. *)
Definition main_task (epoch : N) : Task :=
  mkTask None true fresh_slice None None None None [] false None None epoch None false.

Definition install_main_task (vm : VmState) : VmState :=
  let seq := (park_seq vm + 1)%N in
  set_current 0 (set_tasks [Some (main_task seq)] (set_park_seq seq vm)).

Definition fresh_vm : VmState := mkVm fresh_slice [] [] 0 None false 0 None ∅ ∅.

Definition start_driver : Driver :=
  mkDriver (install_main_task fresh_vm) (Some 0) [] 0 ∅ false None.

Inductive happens : Driver → Driver → Prop :=
| happens_act d a d' :
    enabled d a = true → orderly (d_vm d) (d_current d) a = true → act d a = Some d' →
    happens d d'.

(** The states of the orderly runs. *)
Definition reachable (d : Driver) : Prop := rtc happens start_driver d.

End driver.
