(* ===== verification/SchedEffects.v ===== *)
(** * What each scheduler operation changes (src/src/vm/scheduler.rs)

    The task table after an operation as a function of the table before it: which slots
    change, to what, and who is enqueued.  The two loops, over the children of a gather and
    over the waiters of a finished task, in closed form. *)
From stdpp Require Import base numbers list gmap strings.
From stdpp Require Import options.
From S2P Require Import Prelude Sched Driver.
#[local] Set Warnings "-clear-no-such-hyp".

Section effects.
Context `{VmTypes}.
Implicit Types (vm : VmState) (t : Task).

(** ** Lookups *)

Lemma get_task_lt vm id t : get_task vm id = Some t → id < length (tasks vm).
Proof.
  unfold get_task. destruct (tasks vm !! id) eqn:E; [|done]. intros _.
  by apply lookup_lt_Some in E.
Qed.

Lemma get_put vm id t t' j :
  get_task vm id = Some t →
  get_task (put_task vm id t') j = if decide (j = id) then Some t' else get_task vm j.
Proof.
  intros Hid%get_task_lt. unfold get_task, put_task. simpl. case_decide as Hj.
  - subst. by rewrite list_lookup_insert_eq.
  - by rewrite list_lookup_insert_ne.
Qed.

Lemma get_free vm id j :
  get_task (free_task vm id) j = if decide (j = id) then None else get_task vm j.
Proof.
  unfold get_task, free_task. simpl. case_decide as Hj.
  - subst. destruct (decide (id < length (tasks vm))).
    + by rewrite list_lookup_insert_eq.
    + rewrite list_insert_ge, lookup_ge_None_2; [done|lia..].
  - by rewrite list_lookup_insert_ne.
Qed.

Lemma get_update vm id f j :
  get_task (update_task vm id f) j
  = if decide (j = id) then f <$> get_task vm j else get_task vm j.
Proof.
  unfold update_task. destruct (get_task vm id) as [t|] eqn:E.
  - rewrite (get_put _ _ _ _ _ E). case_decide; [subst; by rewrite E|done].
  - case_decide; [subst; by rewrite E|done].
Qed.

(** Updates of other fields leave the table alone. *)
Lemma get_set_live s vm j : get_task (set_live s vm) j = get_task vm j. Proof. done. Qed.
Lemma get_set_ready r vm j : get_task (set_ready r vm) j = get_task vm j. Proof. done. Qed.
Lemma get_push_ready vm id j : get_task (push_ready vm id) j = get_task vm j. Proof. done. Qed.
Lemma get_set_current c vm j : get_task (set_current c vm) j = get_task vm j. Proof. done. Qed.
Lemma get_set_mailbox w vm j : get_task (set_mailbox w vm) j = get_task vm j. Proof. done. Qed.
Lemma get_set_cancel b vm j : get_task (set_cancel_current b vm) j = get_task vm j.
Proof. done. Qed.
Lemma get_set_seq n vm j : get_task (set_park_seq n vm) j = get_task vm j. Proof. done. Qed.
Lemma get_set_exception v vm j : get_task (set_exception v vm) j = get_task vm j.
Proof. done. Qed.
Lemma get_set_handles h vm j : get_task (set_handles h vm) j = get_task vm j. Proof. done. Qed.
Lemma get_set_aborted a vm j : get_task (set_aborted a vm) j = get_task vm j. Proof. done. Qed.
Lemma get_abort_opt ah vm j : get_task (abort_opt ah vm) j = get_task vm j.
Proof. by destruct ah. Qed.

(** Everything but the table, for the updates of the table. *)
Definition same_rest vm vm' : Prop :=
  vm_live vm' = vm_live vm ∧ ready vm' = ready vm ∧ current_task vm' = current_task vm
  ∧ mailbox vm' = mailbox vm ∧ cancel_current vm' = cancel_current vm ∧ park_seq vm' = park_seq vm
  ∧ active_exception vm' = active_exception vm ∧ handles vm' = handles vm
  ∧ aborted vm' = aborted vm.

Lemma update_rest vm id f : same_rest vm (update_task vm id f).
Proof. unfold update_task. by case_match. Qed.

Lemma abort_opt_rest ah vm :
  ready (abort_opt ah vm) = ready vm ∧ current_task (abort_opt ah vm) = current_task vm
  ∧ mailbox (abort_opt ah vm) = mailbox vm ∧ cancel_current (abort_opt ah vm) = cancel_current vm
  ∧ park_seq (abort_opt ah vm) = park_seq vm ∧ handles (abort_opt ah vm) = handles vm
  ∧ vm_live (abort_opt ah vm) = vm_live vm
  ∧ aborted (abort_opt ah vm) = (match ah with Some f => {[ f ]} | None => ∅ end) ∪ aborted vm.
Proof. destruct ah; simpl; split_and!; try done. set_solver. Qed.

(** ** Allocation *)

Lemma first_free_Some ts i : first_free ts = Some i → ts !! i = Some None.
Proof.
  revert i. induction ts as [|[t|] ts IH]; intros i; simpl; [done| |by intros [= <-]].
  destruct (first_free ts); simpl; [|done]. intros [= <-]. simpl. auto.
Qed.

Lemma alloc_effect vm t vm' id :
  alloc_task vm t = (vm', id) →
  get_task vm id = None ∧ same_rest vm vm' ∧
  ∀ j, get_task vm' j = if decide (j = id) then Some t else get_task vm j.
Proof.
  unfold alloc_task, get_task. destruct (first_free (tasks vm)) as [i|] eqn:E; intros [= <- <-].
  - apply first_free_Some in E. split_and!; [by rewrite E|done|]. intros j. simpl.
    case_decide; [subst; rewrite list_lookup_insert_eq; [done|by eapply lookup_lt_Some]|].
    by rewrite list_lookup_insert_ne.
  - split_and!; [by rewrite lookup_ge_None_2|done|]. intros j. simpl. case_decide as Hj.
    + subst. by rewrite list_lookup_middle.
    + destruct (decide (j < length (tasks vm))); [by rewrite lookup_app_l|].
      rewrite !lookup_ge_None_2; [done|lia|rewrite length_app; simpl; lia].
Qed.

Lemma save_effect vm c vm' :
  save_task_context vm c = Some vm' →
  ∃ t, get_task vm c = Some t ∧ vm_live vm' = emptied (vm_live vm) ∧ ready vm' = ready vm
    ∧ current_task vm' = current_task vm ∧ mailbox vm' = mailbox vm
    ∧ cancel_current vm' = cancel_current vm ∧ park_seq vm' = park_seq vm
    ∧ handles vm' = handles vm ∧ aborted vm' = aborted vm
    ∧ ∀ j, get_task vm' j
           = if decide (j = c) then Some (set_t_slice (vm_live vm) t) else get_task vm j.
Proof.
  unfold save_task_context. destruct (get_task vm c) as [t|] eqn:E; simpl; [|done].
  intros [= <-]. exists t. split_and!; try done. intros j. by apply (get_put _ _ _ _ _ E).
Qed.

Lemma spawn_effect vm block vm' id :
  spawn_detached_id vm block = (vm', id) →
  get_task vm id = None ∧ ready vm' = ready vm ++ [id] ∧ current_task vm' = current_task vm
  ∧ mailbox vm' = mailbox vm ∧ cancel_current vm' = cancel_current vm ∧ park_seq vm' = park_seq vm
  ∧ aborted vm' = aborted vm ∧ vm_live vm' = vm_live vm
  ∧ handles vm !! fresh_handle vm = None
  ∧ handles vm' = <[fresh_handle vm := mkHandle id Running None None]> (handles vm)
  ∧ ∀ j, get_task vm' j
         = if decide (j = id) then Some (new_child_task block None (Some (fresh_handle vm)))
           else get_task vm j.
Proof.
  unfold spawn_detached_id. destruct (alloc_task _ _) as [vm1 id1] eqn:E.
  apply alloc_effect in E as (Hnone & (Hl & Hr & Hc & Hm & Hcc & Hs & Hx & Hh & Ha) & Hget).
  intros [= <- <-].
  assert (fresh_handle vm1 = fresh_handle vm) as Hf by (unfold fresh_handle; by rewrite Hh).
  match goal with |- context [update_task ?v ?i ?f] =>
    destruct (update_rest v i f) as (Hl' & Hr' & Hc' & Hm' & Hcc' & Hs' & Hx' & Hh' & Ha') end.
  simpl in *. rewrite Hf in *. split_and!; try congruence.
  - apply not_elem_of_dom, is_fresh.
  - intros j. rewrite get_push_ready, get_update, get_set_handles, Hget. by case_decide.
Qed.

(** Children allocated from slot [slot] on. *)
Lemma spawn_children_effect parent blocks : ∀ vm slot,
  ∃ ids, length ids = length blocks ∧ NoDup ids
    ∧ (∀ id, id ∈ ids → get_task vm id = None)
    ∧ let vm' := spawn_children vm parent slot blocks in
      ready vm' = ready vm ++ ids ∧ current_task vm' = current_task vm ∧ mailbox vm' = mailbox vm
      ∧ cancel_current vm' = cancel_current vm ∧ park_seq vm' = park_seq vm
      ∧ handles vm' = handles vm ∧ aborted vm' = aborted vm ∧ vm_live vm' = vm_live vm
      ∧ (∀ k id block, ids !! k = Some id → blocks !! k = Some block →
           get_task vm' id = Some (new_child_task block (Some (parent, slot + k)) None))
      ∧ (∀ j, j ∉ ids → get_task vm' j = get_task vm j).
Proof.
  induction blocks as [|b blocks IH]; intros vm slot; simpl.
  - exists []. simpl. rewrite app_nil_r. split_and!; try done; [constructor|set_solver].
  - destruct (alloc_task vm _) as [vm1 id] eqn:E.
    apply alloc_effect in E as (Hnone & (Hl & Hr & Hc & Hm & Hcc & Hs & Hx & Hh & Ha) & Hget).
    destruct (IH (push_ready vm1 id) (S slot))
      as (ids & Hlen & Hnd & Hfree & Hr' & Hc' & Hm' & Hcc' & Hs' & Hh' & Ha' & Hl' & Hnew & Hold).
    simpl in *.
    assert (id ∉ ids) as Hid.
    { intros Hin. apply Hfree in Hin. rewrite get_push_ready, Hget in Hin. by case_decide. }
    exists (id :: ids). simpl. split_and!; try congruence.
    + by constructor.
    + intros j [->|Hj]%elem_of_cons; [done|]. specialize (Hfree _ Hj).
      rewrite get_push_ready, Hget in Hfree. by case_decide.
    + by rewrite Hr', Hr, <-app_assoc.
    + intros [|k] j block; simpl.
      * intros [= <-] [= <-]. rewrite Nat.add_0_r, Hold by done.
        rewrite get_push_ready, Hget. by case_decide.
      * rewrite Nat.add_succ_r. apply Hnew.
    + intros j [Hne Hj]%not_elem_of_cons. rewrite Hold by done.
      rewrite get_push_ready, Hget. by case_decide.
Qed.

(** ** Waking the waiters of a finished task *)

Definition woken (wake : Wake) t : Task :=
  set_t_wake (Some wake) (set_t_joining None (set_t_deadline None t)).

Lemma wake_joiner_effect wake vm w t :
  get_task vm w = Some t →
  let vm' := wake_joiner wake vm w in
  ready vm' = ready vm ++ [w] ∧ current_task vm' = current_task vm ∧ mailbox vm' = mailbox vm
  ∧ cancel_current vm' = cancel_current vm ∧ park_seq vm' = park_seq vm
  ∧ handles vm' = handles vm ∧ vm_live vm' = vm_live vm ∧ aborted vm ⊆ aborted vm'
  ∧ (∀ a, a ∈ aborted vm' → a ∈ aborted vm ∨ t_deadline_abort t = Some a)
  ∧ ∀ j, get_task vm' j = if decide (j = w) then Some (woken wake t) else get_task vm j.
Proof.
  intros E. unfold wake_joiner. rewrite E. simpl.
  destruct (abort_opt_rest (t_deadline_abort t) vm) as (Hr & Hc & Hm & Hcc & Hs & Hh & Hl & Ha).
  split_and!; try (simpl; congruence).
  - simpl. rewrite Ha. set_solver.
  - intros a. simpl. rewrite Ha. destruct (t_deadline_abort t); set_solver.
  - intros j. rewrite get_push_ready, (get_put _ _ t) by (by rewrite get_abort_opt).
    by rewrite get_abort_opt.
Qed.

Lemma wake_joiners_effect wake ws : ∀ vm,
  NoDup ws → (∀ w, w ∈ ws → is_Some (get_task vm w)) →
  let vm' := foldl (wake_joiner wake) vm ws in
  ready vm' = ready vm ++ ws ∧ current_task vm' = current_task vm ∧ mailbox vm' = mailbox vm
  ∧ cancel_current vm' = cancel_current vm ∧ park_seq vm' = park_seq vm
  ∧ handles vm' = handles vm ∧ vm_live vm' = vm_live vm ∧ aborted vm ⊆ aborted vm'
  ∧ (∀ a, a ∈ aborted vm' → a ∈ aborted vm ∨
          ∃ w t, w ∈ ws ∧ get_task vm w = Some t ∧ t_deadline_abort t = Some a)
  ∧ ∀ j, get_task vm' j
         = if decide (j ∈ ws) then woken wake <$> get_task vm j else get_task vm j.
Proof.
  induction ws as [|w ws IH]; intros vm Hnd Hlive; simpl.
  - rewrite app_nil_r. split_and!; try done. auto.
  - apply NoDup_cons in Hnd as [Hw Hnd].
    destruct (Hlive w) as [t Ht]; [set_solver|].
    destruct (wake_joiner_effect wake vm w t Ht) as (Hr & Hc & Hm & Hcc & Hs & Hh & Hl & Ha & Hdl & Hget).
    destruct (IH (wake_joiner wake vm w)) as (Hr' & Hc' & Hm' & Hcc' & Hs' & Hh' & Hl' & Ha' & Hdl' & Hget').
    + done.
    + intros v Hv. rewrite Hget. case_decide; [by eexists|apply Hlive; by right].
    + simpl in *. split_and!; try congruence.
      * by rewrite Hr', Hr, <-app_assoc.
      * by etrans.
      * intros a [[?|?]%Hdl|(v & u & Hv & Hu & Hud)]%Hdl'; [by left|right; exists w, t; set_solver|].
        rewrite Hget, decide_False in Hu by (intros ->; done). right. exists v, u. set_solver.
      * intros j. rewrite Hget', Hget. destruct (decide (j = w)) as [->|Hne].
        -- rewrite decide_False by done. rewrite decide_True by set_solver. by rewrite Ht.
        -- destruct (decide (j ∈ ws)); [rewrite decide_True by set_solver; done|].
           by rewrite decide_False by set_solver.
Qed.

End effects.

(** * Views of the task table

    The invariant of the scheduler is a conjunction of statements, each about a few fields of
    every task: where the task waits, who joins whom, which children a gather awaits.  Each is
    stated here on those fields alone, with the transitions the operations amount to. *)
#[local] Set Warnings "-clear-no-such-hyp".

Lemma decide_singleton {A} (j id : nat) (x y : A) :
  (if decide (j ∈ [id]) then x else y) = (if decide (j = id) then x else y).
Proof. apply decide_ext, list_elem_of_singleton. Qed.

Lemma enqueue_perm (l k ws : list nat) : (l ++ ws) ++ k ≡ₚ ws ++ (l ++ k).
Proof. by rewrite (Permutation_app_comm l ws), app_assoc. Qed.

(** ** Where a task waits

    [b id] counts the places the task [id] is parked in ([None]: no task).  A task is either
    current, or runnable exactly once and parked nowhere, or parked in exactly one place. *)

Record places (b : nat → option nat) (run : list nat) (cur : option nat) : Prop := {
  pl_nodup : NoDup run;
  pl_live : ∀ id, id ∈ run → is_Some (b id);
  pl_cur : ∀ c, cur = Some c → is_Some (b c) ∧ c ∉ run;
  pl_count : ∀ id n, b id = Some n → n = if decide (cur = Some id ∨ id ∈ run) then 0 else 1 }.

Section places.
Implicit Types (b : nat → option nat) (run : list nat) (cur : option nat).

Lemma places_ext b b' run run' cur :
  places b run cur → (∀ j, b' j = b j) → run' ≡ₚ run → places b' run' cur.
Proof.
  intros [Hnd Hl Hc Hn] Hb Hp. split.
  - by rewrite Hp.
  - intros id. rewrite Hp, Hb. apply Hl.
  - intros c. rewrite Hp, Hb. apply Hc.
  - intros id n. rewrite Hb. intros ->%Hn. apply decide_ext. by rewrite Hp.
Qed.

Lemma places_wakes b b' run run' cur ws :
  places b run cur → NoDup ws → (∀ w, w ∈ ws → b w = Some 1) →
  (∀ j, b' j = if decide (j ∈ ws) then Some 0 else b j) → run' ≡ₚ (ws ++ run) →
  places b' run' cur.
Proof.
  intros [Hnd Hl Hc Hn] Hws H1 Hb Hp.
  assert (∀ w, w ∈ ws → (w ∉ run) ∧ cur ≠ Some w) as Hout.
  { intros w Hw. specialize (Hn _ _ (H1 _ Hw)). case_decide; [done|]. naive_solver. }
  split.
  - rewrite Hp. apply NoDup_app. split_and!; try done. naive_solver.
  - intros id. rewrite Hp, Hb, elem_of_app. case_decide; [by eexists|]. naive_solver.
  - intros c Hcc. destruct (Hc _ Hcc) as [Hs Hnot]. rewrite Hp, Hb, elem_of_app.
    split; [case_decide; [by eexists|done]|]. intros [Hin|Hin]; [|done].
    by destruct (Hout _ Hin).
  - intros id n. rewrite Hb. case_decide as Hin.
    + intros [= <-]. rewrite decide_True; [done|]. right. rewrite Hp. set_solver.
    + intros ->%Hn. apply decide_ext. rewrite Hp. set_solver.
Qed.

Lemma places_spawns b b' run run' cur ids :
  places b run cur → NoDup ids → (∀ i, i ∈ ids → b i = None) →
  (∀ j, b' j = if decide (j ∈ ids) then Some 0 else b j) → run' ≡ₚ (ids ++ run) →
  places b' run' cur.
Proof.
  intros [Hnd Hl Hc Hn] Hids H1 Hb Hp. split.
  - rewrite Hp. apply NoDup_app. split_and!; try done. intros i Hi Hrun.
    apply Hl in Hrun as [? Hs]. by rewrite H1 in Hs.
  - intros id. rewrite Hp, Hb, elem_of_app. case_decide; [by eexists|]. naive_solver.
  - intros c Hcc. destruct (Hc _ Hcc) as [Hs Hnot]. rewrite Hp, Hb, elem_of_app.
    split; [case_decide; [by eexists|done]|]. intros [Hin|Hin]; [|done].
    rewrite H1 in Hs by done. by destruct Hs.
  - intros id n. rewrite Hb. case_decide as Hin.
    + intros [= <-]. rewrite decide_True; [done|]. right. rewrite Hp. set_solver.
    + intros ->%Hn. apply decide_ext. rewrite Hp. set_solver.
Qed.

Lemma places_block b b' run c :
  places b run (Some c) → (∀ j, b' j = if decide (j = c) then Some 1 else b j) →
  places b' run None.
Proof.
  intros [Hnd Hl Hc Hn] Hb. destruct (Hc _ eq_refl) as [Hs Hnot]. split; [done| |done|].
  - intros id Hid. rewrite Hb. case_decide; [by eexists|auto].
  - intros id n. rewrite Hb. case_decide.
    + intros [= <-]. rewrite decide_False; [done|]. naive_solver.
    + intros ->%Hn. apply decide_ext. naive_solver.
Qed.

Lemma places_enqueue b b' run run' c :
  places b run (Some c) → (∀ j, b' j = b j) → run' ≡ₚ (c :: run) → places b' run' None.
Proof.
  intros [Hnd Hl Hc Hn] Hb Hp. destruct (Hc _ eq_refl) as [Hs Hnot]. split; [|..|done|].
  - rewrite Hp. by constructor.
  - intros id. rewrite Hp, Hb, elem_of_cons. naive_solver.
  - intros id n. rewrite Hb. intros ->%Hn. apply decide_ext. rewrite Hp, elem_of_cons. naive_solver.
Qed.

Lemma places_pick b b' run run' id :
  places b run None → (∀ j, b' j = b j) → run ≡ₚ (id :: run') → places b' run' (Some id).
Proof.
  intros [Hnd Hl Hc Hn] Hb Hp. rewrite Hp in Hnd. apply NoDup_cons in Hnd as [Hnot Hnd]. split.
  - done.
  - intros j Hj. rewrite Hb. apply Hl. rewrite Hp. set_solver.
  - intros c [= <-]. split; [|done]. rewrite Hb. apply Hl. rewrite Hp. set_solver.
  - intros j n. rewrite Hb. intros ->%Hn. apply decide_ext. rewrite Hp, elem_of_cons. naive_solver.
Qed.

Lemma places_free b b' run c :
  places b run (Some c) → (∀ j, b' j = if decide (j = c) then None else b j) → places b' run None.
Proof.
  intros [Hnd Hl Hc Hn] Hb. destruct (Hc _ eq_refl) as [Hs Hnot]. split; [done| |done|].
  - intros id Hid. rewrite Hb. case_decide; [by subst|auto].
  - intros id n. rewrite Hb. case_decide; [done|]. intros ->%Hn. apply decide_ext. naive_solver.
Qed.

End places.

(** ** Who joins whom

    [J id] is the task [id] joins, [W g] the waiters of task [g]. *)

Record joins (J : nat → option nat) (W : nat → option (list nat)) : Prop := {
  jn_listed : ∀ id g, J id = Some g → ∃ ws, W g = Some ws ∧ id ∈ ws;
  jn_waiting : ∀ g ws w, W g = Some ws → w ∈ ws → J w = Some g;
  jn_nodup : ∀ g ws, W g = Some ws → NoDup ws;
  jn_self : ∀ id, J id ≠ Some id }.

Section joins.
Implicit Types (J : nat → option nat) (W : nat → option (list nat)).

Lemma joins_ext J J' W W' :
  joins J W → (∀ j, J' j = J j) → (∀ j, W' j = W j) → joins J' W'.
Proof.
  intros [H1 H2 H3 H4] HJ HW. split.
  - intros id g. rewrite HJ, HW. apply H1.
  - intros g ws w. rewrite HJ, HW. apply H2.
  - intros g ws. rewrite HW. apply H3.
  - intros id. rewrite HJ. apply H4.
Qed.

Lemma joins_spawns J J' W W' (ids : list nat) :
  joins J W → (∀ i, i ∈ ids → J i = None ∧ W i = None) →
  (∀ j, J' j = J j) → (∀ j, W' j = if decide (j ∈ ids) then Some [] else W j) → joins J' W'.
Proof.
  intros [H1 H2 H3 H4] Hids HJ HW. split.
  - intros id g. rewrite HJ. intros (ws & Hws & Hin)%H1. exists ws. rewrite HW.
    case_decide as Hg; [|done]. apply Hids in Hg as [_ ?]. congruence.
  - intros g ws w. rewrite HJ, HW. case_decide; [|apply H2]. intros [= <-]. set_solver.
  - intros g ws. rewrite HW. case_decide; [|apply H3]. intros [= <-]. constructor.
  - intros id. rewrite HJ. apply H4.
Qed.

Lemma joins_register J J' W W' c g ws :
  joins J W → g ≠ c → J c = None → W g = Some ws →
  (∀ j, J' j = if decide (j = c) then Some g else J j) →
  (∀ j, W' j = if decide (j = g) then Some (ws ++ [c]) else W j) → joins J' W'.
Proof.
  intros [H1 H2 H3 H4] Hne Hc Hg HJ HW.
  assert (c ∉ ws) as Hnot by (intros Hin; rewrite (H2 _ _ _ Hg Hin) in Hc; done).
  split.
  - intros id g'. rewrite HJ, HW. case_decide; subst.
    + intros [= <-]. rewrite decide_True by done. exists (ws ++ [c]). set_solver.
    + intros (ws' & Hws' & Hin)%H1. case_decide; subst; [|naive_solver].
      rewrite Hg in Hws'. injection Hws' as <-. exists (ws ++ [c]). set_solver.
  - intros g' ws' w. rewrite HJ, HW. case_decide; subst.
    + intros [= <-] [Hin| ->%list_elem_of_singleton]%elem_of_app; [|by rewrite decide_True].
      rewrite decide_False by (intros ->; done). by apply (H2 _ _ _ Hg).
    + intros Hws Hin. rewrite decide_False; [by apply (H2 _ _ _ Hws)|].
      intros ->. by rewrite (H2 _ _ _ Hws Hin) in Hc.
  - intros g' ws'. rewrite HW. case_decide; [|apply H3]. intros [= <-].
    apply NoDup_app. split_and!; [by apply (H3 _ _ Hg)|set_solver|apply NoDup_singleton].
  - intros id. rewrite HJ. case_decide; [congruence|apply H4].
Qed.

Lemma joins_drop J J' W W' c g ws (ws' : list nat) :
  joins J W → J c = Some g → W g = Some ws →
  (∀ w, w ∈ ws' ↔ w ∈ ws ∧ w ≠ c) → (NoDup ws → NoDup ws') →
  (∀ j, J' j = if decide (j = c) then None else J j) →
  (∀ j, W' j = if decide (j = g) then Some ws' else W j) → joins J' W'.
Proof.
  intros [H1 H2 H3 H4] Hc Hg Hws' Hnd HJ HW. split.
  - intros id g'. rewrite HJ, HW. case_decide as Hid; [done|]. intros (v & Hv & Hin)%H1.
    case_decide; subst; [|naive_solver].
    rewrite Hg in Hv. injection Hv as <-. exists ws'. by rewrite Hws'.
  - intros g' v w. rewrite HJ, HW. case_decide as Hg'; subst.
    + intros [= <-] [Hin Hne]%Hws'. rewrite decide_False by done. by apply (H2 _ _ _ Hg).
    + intros Hv Hin. rewrite decide_False; [by apply (H2 _ _ _ Hv)|].
      intros ->. rewrite (H2 _ _ _ Hv Hin) in Hc. by simplify_eq.
  - intros g' v. rewrite HW. case_decide; [|apply H3]. intros [= <-]. eauto.
  - intros id. rewrite HJ. case_decide; [done|apply H4].
Qed.

Lemma joins_finish J J' W W' c ws :
  joins J W → J c = None → W c = Some ws →
  (∀ j, J' j = if decide (j ∈ ws) then None else J j) →
  (∀ j, W' j = if decide (j = c) then None else W j) → joins J' W'.
Proof.
  intros [H1 H2 H3 H4] Hc Hw HJ HW. split.
  - intros id g. rewrite HJ, HW. case_decide as Hid; [done|]. intros (v & Hv & Hin)%H1.
    rewrite decide_False; [by exists v|]. intros ->. by simplify_eq.
  - intros g v w. rewrite HJ, HW. case_decide as Hg; [done|]. intros Hv Hin.
    pose proof (H2 _ _ _ Hv Hin) as HJw. rewrite decide_False; [done|].
    intros Hin'. rewrite (H2 _ _ _ Hw Hin') in HJw. by simplify_eq.
  - intros g v. rewrite HW. case_decide; [done|apply H3].
  - intros id. rewrite HJ. case_decide; [done|apply H4].
Qed.

End joins.

(** ** Which children a gather awaits

    [P id] is the parent and slot of a child, [G p] the batch task [p] is parked on. *)

Section gathers.
Context `{VmTypes}.
Implicit Types (P : nat → option (nat * nat)) (G : nat → option GatherState).

(** [cs] are the children of [p] still running. *)
Definition children P (p : nat) (cs : list nat) : Prop :=
  NoDup cs ∧ ∀ id, id ∈ cs ↔ ∃ slot, P id = Some (p, slot).

(** Every slot of the batch is filled, failed, or has its child running. *)
Record gathering P (p : nat) (g : GatherState) : Prop := {
  ga_children : ∃ cs, children P p cs ∧ g_pending g = length cs;
  ga_waiting : 0 < g_pending g;
  ga_slots : ∀ id slot, P id = Some (p, slot) → slot < length (g_results g);
  ga_filled : ∀ slot, g_results g !! slot = Some None →
              is_Some (g_first_error g) ∨ ∃ id, P id = Some (p, slot) }.

Definition gathers P G : Prop :=
  ∀ p, match G p with
       | Some g => gathering P p g
       | None => ∀ id slot, P id ≠ Some (p, slot)
       end.

Lemma children_ext P P' p cs : children P p cs → (∀ j, P' j = P j) → children P' p cs.
Proof. intros [Hnd Hcs] HP. split; [done|]. intros id. by rewrite Hcs, HP. Qed.

(** The children of [p] are those of [P], as far as [P'] agrees with it on them. *)
Lemma gathering_ext P P' p g :
  gathering P p g → (∀ j slot, P' j = Some (p, slot) ↔ P j = Some (p, slot)) → gathering P' p g.
Proof.
  intros [(cs & [Hnd Hcs] & Hlen) Hpos Hslots Hfill] HP. split; [|done|..].
  - exists cs. split; [|done]. split; [done|]. intros id. rewrite Hcs. by setoid_rewrite HP.
  - intros id slot. rewrite HP. apply Hslots.
  - intros slot Hs. destruct (Hfill _ Hs) as [?|(id & ?)]; [by left|]. right. exists id. by rewrite HP.
Qed.

Lemma gathers_ext P P' G G' :
  gathers P G → (∀ j p slot, P' j = Some (p, slot) ↔ P j = Some (p, slot)) → (∀ j, G' j = G j) →
  gathers P' G'.
Proof.
  intros Hg HP HG p. rewrite HG. specialize (Hg p). destruct (G p).
  - eapply gathering_ext; [done|]. intros. apply HP.
  - intros id slot. rewrite HP. apply Hg.
Qed.

(** The children of a new gather, one per slot. *)
Lemma gathers_spawn P P' G G' p ids :
  gathers P G → G p = None → ids ≠ [] → NoDup ids → (∀ i, i ∈ ids → P i = None) →
  (∀ k id, ids !! k = Some id → P' id = Some (p, k)) → (∀ j, j ∉ ids → P' j = P j) →
  (∀ j, G' j = if decide (j = p) then
                 Some (mkGather (length ids) (replicate (length ids) None) None) else G j) →
  gathers P' G'.
Proof.
  intros Hg Hp Hne Hnd Hfree Hnew Hold HG q. rewrite HG.
  assert (Hchild : ∀ id slot, P' id = Some (p, slot) ↔ ids !! slot = Some id).
  { intros id slot. split; [|apply Hnew]. destruct (decide (id ∈ ids)) as [Hin|Hin].
    - apply list_elem_of_lookup in Hin as [k Hk]. rewrite (Hnew _ _ Hk). by intros [= <-].
    - rewrite Hold by done. specialize (Hg p). rewrite Hp in Hg. by intros ?%Hg. }
  case_decide as Hq; subst.
  - split; simpl.
    + exists ids. split; [|done]. split; [done|]. intros id. setoid_rewrite Hchild.
      apply list_elem_of_lookup.
    + destruct ids; simpl; [done|lia].
    + intros id slot Hs%Hchild%lookup_lt_Some. by rewrite length_replicate.
    + intros slot Hs. right. apply lookup_lt_Some in Hs. rewrite length_replicate in Hs.
      destruct (lookup_lt_is_Some_2 ids slot Hs) as [id Hid]. exists id. by apply Hchild.
  - assert (Hother : ∀ id slot, P' id = Some (q, slot) ↔ P id = Some (q, slot)).
    { intros id slot. destruct (decide (id ∈ ids)) as [Hin|Hin]; [|by rewrite Hold].
      rewrite Hfree by done. apply list_elem_of_lookup in Hin as [k Hk]. rewrite (Hnew _ _ Hk).
      split; [|done]. intros [= -> ->]. done. }
    specialize (Hg q). destruct (G q).
    + by eapply gathering_ext.
    + intros id slot. rewrite Hother. apply Hg.
Qed.

(** A batch after one child more. *)
Lemma gathering_complete P P' p g c slot result g' :
  gathering P p g → P c = Some (p, slot) →
  (∀ j, P' j = if decide (j = c) then None else P j) →
  record_result g slot result = Some g' →
  (∃ cs, children P' p cs ∧ g_pending g' = length cs) ∧
  (∀ id s, P' id = Some (p, s) → s < length (g_results g')) ∧
  (∀ s, g_results g' !! s = Some None → is_Some (g_first_error g') ∨ ∃ id, P' id = Some (p, s)).
Proof.
  intros [(cs & [Hnd Hcs] & Hlen) Hpos Hslots Hfill] Hc HP Hrec.
  assert (Hin : c ∈ cs) by (apply Hcs; by exists slot).
  apply list_elem_of_split in Hin as (l1 & l2 & ->).
  assert (Hperm : l1 ++ c :: l2 ≡ₚ c :: l1 ++ l2) by (by rewrite Permutation_middle).
  rewrite Hperm in Hnd. apply NoDup_cons in Hnd as [Hnot Hnd].
  assert (Hch : children P' p (l1 ++ l2)).
  { split; [done|]. intros id. setoid_rewrite HP. destruct (decide (id = c)) as [->|Hne].
    - split; [done|by intros [? ?]].
    - rewrite <-Hcs, Hperm, elem_of_cons. naive_solver. }
  assert (Hpend : g_pending g - 1 = length (l1 ++ l2))
    by (rewrite Hlen, Hperm; simpl; lia).
  assert (HP' : ∀ id s, P' id = Some (p, s) → P id = Some (p, s) ∧ id ≠ c).
  { intros id s. rewrite HP. by case_decide. }
  unfold record_result in Hrec. destruct result as [e|v].
  - simplify_eq. simpl. split_and!; [by exists (l1 ++ l2)| |].
    + intros id s [Hs _]%HP'. eauto.
    + intros s _. left. destruct (g_first_error g); by eexists.
  - case_bool_decide; simplify_eq. simpl. split_and!; [by exists (l1 ++ l2)| |].
    + intros id s [Hs _]%HP'. rewrite length_insert. eauto.
    + intros s Hs. destruct (decide (s = slot)) as [->|Hne].
      { by rewrite list_lookup_insert_eq in Hs. }
      rewrite list_lookup_insert_ne in Hs by done.
      destruct (Hfill _ Hs) as [?|(id & Hid)]; [by left|]. right. exists id. rewrite HP.
      rewrite decide_False; [done|]. intros ->. rewrite Hc in Hid. by simplify_eq.
Qed.

Lemma gathers_complete P P' G G' p g c slot result g' :
  gathers P G → P c = Some (p, slot) → G p = Some g →
  record_result g slot result = Some g' →
  (∀ j, P' j = if decide (j = c) then None else P j) →
  (∀ j, G' j = if decide (j = p) then (if Nat.eqb (g_pending g') 0 then None else Some g')
               else G j) →
  gathers P' G'.
Proof.
  intros Hg Hc Hp Hrec HP HG q. rewrite HG. pose proof (Hg p) as Hgp. rewrite Hp in Hgp.
  case_decide as Hq; subst.
  - destruct (gathering_complete _ _ _ _ _ _ _ _ Hgp Hc HP Hrec) as ((cs & Hcs & Hlen) & Hs & Hf).
    destruct (Nat.eqb_spec (g_pending g') 0) as [Hz|Hz].
    + intros id s Hid. destruct Hcs as [_ Hcs]. rewrite Hz in Hlen.
      destruct cs; [|done]. assert (id ∈ @nil nat) as ?%elem_of_nil by (apply Hcs; by exists s). done.
    + split; [by exists cs|lia|done|done].
  - assert (Hother : ∀ id s, P' id = Some (q, s) ↔ P id = Some (q, s)).
    { intros id s. rewrite HP. case_decide; [|done]. subst. rewrite Hc. split; [done|].
      intros [= -> ->]. done. }
    specialize (Hg q). destruct (G q).
    + by eapply gathering_ext.
    + intros id s. rewrite Hother. apply Hg.
Qed.

(** A batch with no child left has every result, or an error. *)
Lemma gather_wake_ready P p g :
  (∃ cs, children P p cs ∧ g_pending g = length cs) → g_pending g = 0 →
  (∀ s, g_results g !! s = Some None → is_Some (g_first_error g) ∨ ∃ id, P id = Some (p, s)) →
  is_Some (gather_wake g).
Proof.
  intros (cs & [_ Hcs] & Hlen) Hz Hfill. rewrite Hz in Hlen. destruct cs; [|done].
  unfold gather_wake. destruct (g_first_error g); [by eexists|].
  assert (is_Some (all_results (g_results g))) as [vs ->]; [|by eexists].
  apply mapM_is_Some, Forall_lookup. intros s [v|] Hs; [by eexists|].
  destruct (Hfill _ Hs) as [[? ?]|(id & Hid)]; [done|].
  assert (id ∈ @nil nat) as ?%elem_of_nil by (apply Hcs; by exists s). done.
Qed.

End gathers.
