(* ===== verification/SchedInv.v ===== *)
(** * The invariant of the scheduler

    [inv] holds of every state of the driver: each live task is current, runnable exactly
    once, or parked in exactly one place; joins and gathers are consistent; a task about to
    resume has the result it waits for, or a cancellation; handles and futures point at the
    tasks they are for. *)
From stdpp Require Import base numbers list gmap strings.
From stdpp Require Import options.
From S2P Require Import Prelude Sched Driver SchedEffects.
#[local] Set Warnings "-clear-no-such-hyp".

Section inv.
Context `{VmTypes}.
Implicit Types (vm : VmState) (t : Task) (d : Driver).

(** ** The views of a driver *)

Definition b2n (b : bool) : nat := if b then 1 else 0.

(** How many places a task is parked in. *)
Definition blocked t : nat :=
  b2n (bool_decide (is_Some (t_joining t))) + b2n (t_parked_on_channel t)
  + b2n (bool_decide (is_Some (t_gather t))).

Definition is_io (f : Future) : bool := match f_kind f with FutIo => true | _ => false end.

(** The tasks an operation in flight will make ready. *)
Definition io_owners (fs : list Future) : list TaskId := map f_task (List.filter is_io fs).

Definition runnable d : list TaskId := ready (d_vm d) ++ io_owners (d_futures d).

Definition blocked_at vm id : option nat := blocked <$> get_task vm id.
Definition joining_at vm id : option TaskId := get_task vm id ≫= t_joining.
Definition waiters_at vm id : option (list TaskId) := t_waiters <$> get_task vm id.
Definition parent_at vm id : option (TaskId * nat) := get_task vm id ≫= t_parent.
Definition gather_at vm id : option GatherState := get_task vm id ≫= t_gather.

(** ** Suspended calls and their results *)

(** The wakes that answer a suspended call. *)
Definition answers (k : YieldReason) (w : Wake) : bool :=
  match k, w with
  | YIo, WIo _ => true
  | YGather, (WGather _ | WGatherErr _) => true
  | YJoin, (WJoined _ | WFailed _ | WJoinedCancelled) => true
  | YJoinTimed, (WJoined _ | WFailed _ | WJoinedCancelled | WTimedOut) => true
  | YChannel, w => channel_wake w
  | _, _ => false
  end.

Definition answered (k : YieldReason) (cancelled : bool) (w : option Wake) : Prop :=
  cancelled = true ∨ ∃ w', w = Some w' ∧ answers k w' = true.

(** Task [id] waits the way its coroutine is suspended. *)
Record task_suspended d (id : TaskId) t : Prop := {
  ts_fresh : t_started t = false →
             is_Some (t_block t) ∧ id ∈ ready (d_vm d) ∧ d_suspended d !! id = None
             ∧ t_wake t = None;
  ts_wake : is_Some (t_wake t) → id ∈ ready (d_vm d);
  ts_ready : ∀ k, id ∈ ready (d_vm d) → d_suspended d !! id = Some k →
             answered k (t_cancel_requested t) (t_wake t);
  ts_join : is_Some (t_joining t) →
            d_suspended d !! id = Some YJoin ∨ d_suspended d !! id = Some YJoinTimed;
  ts_channel : t_parked_on_channel t = true → d_suspended d !! id = Some YChannel;
  ts_gather : is_Some (t_gather t) → d_suspended d !! id = Some YGather;
  ts_io : id ∈ io_owners (d_futures d) → d_suspended d !! id = Some YIo;
  ts_epoch : (t_park_epoch t ≤ park_seq (d_vm d))%N }.

Record suspensions d : Prop := {
  su_task : ∀ id t, get_task (d_vm d) id = Some t → task_suspended d id t;
  su_dead : ∀ id, get_task (d_vm d) id = None → d_suspended d !! id = None;
  su_current : ∀ c k, d_current d = Some c → d_suspended d !! c = Some k →
               answered k (cancel_current (d_vm d)) (mailbox (d_vm d));
  su_cancel : ∀ c t, d_current d = Some c → get_task (d_vm d) c = Some t →
              cancel_current (d_vm d) = t_cancel_requested t;
  su_running : ∀ c, d_current d = Some c → current_task (d_vm d) = c;
  su_epoch : ∀ c t, d_current d = Some c → get_task (d_vm d) c = Some t → (0 < t_park_epoch t)%N;
  su_deadline : ∀ f g e, f ∈ d_futures d → f_kind f = FutDeadline g e →
                (0 < e ≤ park_seq (d_vm d))%N
                ∧ ∀ t, get_task (d_vm d) (f_task f) = Some t → t_park_epoch t = e →
                  d_current d ≠ Some (f_task f) ∧ d_suspended d !! f_task f = Some YJoinTimed }.

(** ** Handles, kinds of tasks, abort handles *)

Record task_kind d (id : TaskId) t : Prop := {
  tk_handle : ∀ h, t_handle t = Some h →
    ∃ hd, handles (d_vm d) !! h = Some hd ∧ h_id hd = id ∧ h_status hd = Running;
  tk_one : t_handle t = None ∨ t_parent t = None;
  tk_main : t_handle t = None → t_parent t = None → id = 0;
  tk_waiters : t_waiters t ≠ [] → is_Some (t_handle t);
  tk_abort : ∀ a, t_abort_handle t = Some a →
    ∃ f, f ∈ d_futures d ∧ f_id f = a ∧ f_task f = id ∧ f_kind f = FutIo;
  tk_deadline : ∀ a, t_deadline_abort t = Some a →
    (a < d_next_future d)%N ∧ ∀ f, f ∈ d_futures d → f_id f = a → f_kind f ≠ FutIo }.

Record kinds d : Prop := {
  ki_task : ∀ id t, get_task (d_vm d) id = Some t → task_kind d id t;
  ki_running : ∀ h hd, handles (d_vm d) !! h = Some hd → h_status hd = Running →
    ∃ t, get_task (d_vm d) (h_id hd) = Some t ∧ t_handle t = Some h;
  ki_abort : ∀ f, f ∈ d_futures d → f_kind f = FutIo →
    ∃ t, get_task (d_vm d) (f_task f) = Some t
      ∧ if decide (f_id f ∈ aborted (d_vm d)) then t_cancel_requested t = true
        else t_abort_handle t = Some (f_id f);
  ki_aborted : ∀ a, a ∈ aborted (d_vm d) → (a < d_next_future d)%N;
  ki_fresh : ∀ f, f ∈ d_futures d → (f_id f < d_next_future d)%N;
  ki_ids : NoDup (map f_id (d_futures d)) }.

Record inv d : Prop := {
  inv_places : places (blocked_at (d_vm d)) (runnable d) (d_current d);
  inv_joins : joins (joining_at (d_vm d)) (waiters_at (d_vm d));
  inv_gathers : gathers (parent_at (d_vm d)) (gather_at (d_vm d));
  inv_suspensions : suspensions d;
  inv_kinds : kinds d }.

(** ** Tasks that keep their place *)

(** The fields of a task its suspension is about. *)
Record same_suspension t t' : Prop := {
  ss_started : t_started t' = t_started t;
  ss_block : t_block t' = t_block t;
  ss_wake : t_wake t' = t_wake t;
  ss_cancel : t_cancel_requested t = true → t_cancel_requested t' = true;
  ss_joining : t_joining t' = t_joining t;
  ss_parked : t_parked_on_channel t' = t_parked_on_channel t;
  ss_gather : t_gather t' = t_gather t;
  ss_epoch : t_park_epoch t' = t_park_epoch t }.

Lemma same_suspension_refl t : same_suspension t t.
Proof. by split. Qed.

Lemma answered_mono k c c' w : answered k c w → (c = true → c' = true) → answered k c' w.
Proof. intros [?|?] ?; [left; auto|by right]. Qed.

(** A task whose place and suspension are as before. *)
Lemma task_suspended_same d d' j t t' :
  task_suspended d j t → same_suspension t t' →
  (j ∈ ready (d_vm d') ↔ j ∈ ready (d_vm d)) →
  (j ∈ io_owners (d_futures d') → j ∈ io_owners (d_futures d)) →
  d_suspended d' !! j = d_suspended d !! j → (park_seq (d_vm d) ≤ park_seq (d_vm d'))%N →
  task_suspended d' j t'.
Proof.
  intros [H1 H2 H3 H4 H5 H6 H7 H8] [E1 E2 E3 E4 E5 E6 E7 E8] Hr Hio Hs Hseq.
  split; rewrite ?E1, ?E2, ?E3, ?E5, ?E6, ?E7, ?E8, ?Hs; try done.
  - intros (?&?&?&?)%H1. by rewrite Hr.
  - by rewrite Hr.
  - intros k. rewrite Hr. intros Hin Hk. eapply answered_mono; [by apply H3|done].
  - intros ?%Hio. auto.
  - lia.
Qed.

(** The fields of a task its kind is about. *)
Record same_kind t t' : Prop := {
  sk_handle : t_handle t' = t_handle t;
  sk_parent : t_parent t' = t_parent t;
  sk_waiters : t_waiters t' ≠ [] → t_waiters t ≠ [] ∨ is_Some (t_handle t);
  sk_abort : t_abort_handle t' = t_abort_handle t;
  sk_deadline : t_deadline_abort t' = None ∨ t_deadline_abort t' = t_deadline_abort t }.

Lemma same_kind_refl t : same_kind t t.
Proof. split; auto. Qed.

Lemma task_kind_same d d' j t t' :
  task_kind d j t → same_kind t t' → handles (d_vm d') = handles (d_vm d) →
  d_futures d' = d_futures d → d_next_future d' = d_next_future d → task_kind d' j t'.
Proof.
  intros [H1 H2 H3 H4 H5 H6] [E1 E2 E3 E4 E5] Hh Hf Hn.
  split; rewrite ?E1, ?E2, ?E4, ?Hh, ?Hf, ?Hn; auto.
  { intros [?|?]%E3; auto. }
  intros a Ha. destruct E5 as [E|E]; rewrite E in Ha; [done|auto].
Qed.

Lemma elem_of_io_owners fs f : f ∈ fs → f_kind f = FutIo → f_task f ∈ io_owners fs.
Proof.
  intros Hf Hk. apply list_elem_of_fmap_2, list_elem_of_In, filter_In.
  split; [by apply list_elem_of_In|]. unfold is_io. by rewrite Hk.
Qed.

Lemma io_owners_elem fs id : id ∈ io_owners fs → ∃ f, f ∈ fs ∧ f_kind f = FutIo ∧ f_task f = id.
Proof.
  intros (f & -> & [Hf Hk]%list_elem_of_In%filter_In)%list_elem_of_fmap.
  exists f. split; [by apply list_elem_of_In|]. unfold is_io in Hk. by destruct (f_kind f).
Qed.

(** When every task keeps its kind and nothing is aborted that was not. *)
Lemma kinds_same d d' :
  kinds d →
  (∀ j, match get_task (d_vm d) j, get_task (d_vm d') j with
        | Some t, Some t' =>
            same_kind t t' ∧ (j ∈ io_owners (d_futures d) → t_cancel_requested t = true →
                              t_cancel_requested t' = true)
        | None, None => True
        | _, _ => False
        end) →
  handles (d_vm d') = handles (d_vm d) → aborted (d_vm d') = aborted (d_vm d) →
  d_futures d' = d_futures d → d_next_future d' = d_next_future d → kinds d'.
Proof.
  intros [H1 H2 H3 H4 H5 H6] Hj Hh Ha Hf Hn. split; rewrite ?Hf, ?Hn, ?Ha, ?Hh; try done.
  - intros id t' Ht'. specialize (Hj id). rewrite Ht' in Hj.
    destruct (get_task (d_vm d) id) as [t|] eqn:E; [|done]. destruct Hj as [Hk _].
    by eapply task_kind_same; [apply H1| | | |].
  - intros h hd Hhd Hrun. destruct (H2 _ _ Hhd Hrun) as (t & Ht & Hth).
    specialize (Hj (h_id hd)). rewrite Ht in Hj.
    destruct (get_task (d_vm d') (h_id hd)) as [t'|]; [|done]. destruct Hj as [Hk _].
    exists t'. split; [done|]. by rewrite (sk_handle _ _ Hk).
  - intros f Hin Hk. destruct (H3 _ Hin Hk) as (t & Ht & Hab).
    specialize (Hj (f_task f)). rewrite Ht in Hj.
    destruct (get_task (d_vm d') (f_task f)) as [t'|]; [|done]. destruct Hj as [Hsk Hc].
    exists t'. split; [done|]. case_decide; [|by rewrite (sk_abort _ _ Hsk)].
    apply Hc; [|done]. by apply elem_of_io_owners.
Qed.

End inv.

(** * The invariant of the scheduler is preserved

    One lemma per happening of the driver: what it does to each view, and that it cannot
    panic. *)
#[local] Set Default Proof Using "Type*".
#[local] Set Warnings "-clear-no-such-hyp".

(** A view after an operation, from the table after it. *)
Ltac view Hget :=
  let j := fresh "j" in
  intros j; unfold blocked_at, joining_at, waiters_at, parent_at, gather_at;
  simpl; rewrite ?Hget, ?get_push_ready, ?get_set_cancel, ?get_set_mailbox, ?Hget; repeat case_decide; subst; simplify_eq/=; try done.

Section steps.
Context `{VmTypes}.
Implicit Types (vm : VmState) (t : Task) (d : Driver).

(** ** The current task *)

Section current.
Context (d : Driver) (c : TaskId) (Hinv : inv d) (Hc : d_current d = Some c).

Lemma current_task_full : ∃ t, get_task (d_vm d) c = Some t.
Proof.
  destruct (pl_cur _ _ _ (inv_places _ Hinv) _ Hc) as [[n Hn] _]. unfold blocked_at in Hn.
  destruct (get_task (d_vm d) c) as [t|]; [by exists t|done].
Qed.

Lemma current_not_runnable : (c ∉ ready (d_vm d)) ∧ c ∉ io_owners (d_futures d).
Proof.
  destruct (pl_cur _ _ _ (inv_places _ Hinv) _ Hc) as [_ Hn]. unfold runnable in Hn.
  by apply not_elem_of_app in Hn.
Qed.

Lemma current_unparked t :
  get_task (d_vm d) c = Some t →
  t_joining t = None ∧ t_parked_on_channel t = false ∧ t_gather t = None ∧ t_wake t = None
  ∧ t_abort_handle t = None ∧ t_started t = true.
Proof.
  intros Ht. destruct current_not_runnable as [Hr Hio].
  assert (blocked t = 0) as Hb.
  { pose proof (pl_count _ _ _ (inv_places _ Hinv) c (blocked t)) as Hn.
    unfold blocked_at in Hn. rewrite Ht in Hn. rewrite (Hn eq_refl). by rewrite decide_True by auto. }
  unfold blocked in Hb. destruct (su_task _ (inv_suspensions _ Hinv) _ _ Ht) as [Hf Hw _ _ _ _ _ _].
  pose proof (tk_abort _ _ _ (ki_task _ (inv_kinds _ Hinv) _ _ Ht)) as Ha.
  split_and!.
  - destruct (t_joining t); [|done]. rewrite bool_decide_true in Hb by eauto. simpl in Hb. lia.
  - destruct (t_parked_on_channel t); [|done]. simpl in Hb. lia.
  - destruct (t_gather t); [|done]. rewrite (bool_decide_true (is_Some (Some _))) in Hb by eauto.
    simpl in Hb. lia.
  - destruct (t_wake t); [|done]. destruct Hr. apply Hw. eauto.
  - destruct (t_abort_handle t) as [a|]; [|done]. destruct (Ha _ eq_refl) as (f & Hf' & _ & Hft & Hk).
    destruct Hio. rewrite <-Hft. by apply elem_of_io_owners.
  - destruct (t_started t); [done|]. by destruct (Hf eq_refl) as (_ & ? & _).
Qed.

End current.

(** ** Computing, resuming *)

Lemma compute_inv d c slice ex :
  inv d → d_current d = Some c →
  inv (with_vm d (set_exception ex (set_live slice (d_vm d)))).
Proof.
  intros [Hp Hj Hg [S1 S2 S3 S4 S5 S7 S6] Hk] Hc. split; [done..| |].
  - split; try done. intros id t Ht. eapply task_suspended_same; [by apply S1|..]; done.
  - eapply kinds_same; [exact Hk|..]; try done. intros j. simpl.
    rewrite get_set_exception, get_set_live.
    destruct (get_task (d_vm d) j); [|done]. split; [apply same_kind_refl|done].
Qed.

Lemma resumed_effect vm k vm' o t :
  resumed vm k = (vm', o) → get_task vm (current_task vm) = Some t →
  cancel_current vm = t_cancel_requested t →
  ready vm' = ready vm ∧ current_task vm' = current_task vm ∧ park_seq vm' = park_seq vm
  ∧ handles vm' = handles vm ∧ aborted vm' = aborted vm ∧ cancel_current vm' = false
  ∧ ∀ j, get_task vm' j
         = if decide (j = current_task vm) then Some (set_t_cancel false t) else get_task vm j.
Proof.
  intros Hr Ht Hcc. unfold resumed in Hr. destruct (cancel_current vm) eqn:E.
  - assert (Htake : ∀ v, get_task v (current_task vm) = Some t → current_task v = current_task vm →
      ∀ j, get_task (take_cancellation v).1 j
           = if decide (j = current_task vm) then Some (set_t_cancel false t) else get_task v j).
    { intros v Hv Hcv j. simpl. rewrite get_set_cancel, get_update, Hcv.
      case_decide; [subst; by rewrite Hv|done]. }
    destruct (update_rest vm (current_task vm) (set_t_cancel false))
      as (?&?&?&?&?&?&?&?&?).
    destruct (update_rest (set_mailbox None vm) (current_task vm) (set_t_cancel false))
      as (?&?&?&?&?&?&?&?&?).
    destruct k; simplify_eq/=; (split_and!; [done..|]);
      first [by apply (Htake vm)|by apply (Htake (set_mailbox None vm))].
  - assert (set_t_cancel false t = t) as Hid by (destruct t; simpl in *; by rewrite <-Hcc).
    rewrite Hid. destruct (outcome_of k (mailbox vm)) as [o' [v|]]; simplify_eq/=;
      (split_and!; [done..|]); intros j; case_decide; by subst.
Qed.

(** The current task goes on, its cancellation taken or not pending. *)
Definition goes_on d (c : TaskId) (vm' : VmState) : Driver :=
  mkDriver vm' (d_current d) (d_futures d) (d_next_future d) (delete c (d_suspended d))
    (d_signal_sent d) (d_ended d).

Lemma goes_on_inv d c t vm' :
  inv d → d_current d = Some c → get_task (d_vm d) c = Some t →
  ready vm' = ready (d_vm d) → current_task vm' = current_task (d_vm d) →
  park_seq vm' = park_seq (d_vm d) → handles vm' = handles (d_vm d) →
  aborted vm' = aborted (d_vm d) → cancel_current vm' = false →
  (∀ j, get_task vm' j
        = if decide (j = c) then Some (set_t_cancel false t) else get_task (d_vm d) j) →
  inv (goes_on d c vm').
Proof.
  intros Hinv Hc Ht Er Ec Es Eh Ea Ecc Eget.
  pose proof (current_not_runnable d c Hinv Hc) as [Hnr Hnio].
  destruct (current_unparked d c Hinv Hc t Ht) as (Hj & Hch & Hga & Hw & Hab & Hst).
  destruct Hinv as [Hp HJ Hg [S1 S2 S3 S4 S5 S7 S6] Hki].
  split.
  - eapply places_ext; [exact Hp| |]; [view Eget; by rewrite Ht|by unfold runnable; simpl; rewrite Er].
  - eapply joins_ext; [exact HJ| |]; view Eget; by rewrite Ht.
  - eapply gathers_ext; [exact Hg| |]; [|view Eget; by rewrite Ht].
    intros j p slot. unfold parent_at. simpl. rewrite Eget. case_decide; [subst; by rewrite Ht|done].
  - split; simpl; rewrite ?Es, ?Ec.
    + intros id t'. rewrite Eget. case_decide as Hid; [intros [= <-]; subst|intros Ht'].
      * destruct (S1 _ _ Ht) as [_ _ _ _ _ _ _ H8].
        split; simpl; rewrite ?Er, ?Hst, ?Hw, ?Hj, ?Hch, ?Hga, ?Es; try done; by intros [].
      * eapply task_suspended_same; [by apply S1|apply same_suspension_refl|..]; simpl;
          rewrite ?Er, ?Es; try done. by rewrite lookup_delete_ne.
    + intros id. rewrite Eget. case_decide; [done|]. intros Hn%S2. apply lookup_delete_None. by right.
    + intros c' k'. rewrite Hc. intros [= <-]. by rewrite lookup_delete_eq.
    + intros c' t'. rewrite Hc. intros [= <-]. rewrite Eget, decide_True by done.
      by intros [= <-].
    + done.
    + intros c' t'. rewrite Hc. intros [= <-]. rewrite Eget, decide_True by done.
      intros [= <-]. by apply (S7 _ _ Hc Ht).
    + intros f g e Hf Hfk. destruct (S6 _ _ _ Hf Hfk) as [He Hd]. split; [done|].
      intros t'. rewrite Eget. case_decide as Hft.
      * intros [= <-]. simpl. intros Hep. rewrite Hft in Hd. destruct (Hd _ Ht Hep). congruence.
      * intros Ht' Hep. destruct (Hd _ Ht' Hep). split; [done|]. by rewrite lookup_delete_ne.
  - eapply kinds_same; [exact Hki|..]; simpl; try done. intros j. rewrite Eget.
    case_decide; subst.
    + rewrite Ht. split; [by split; auto|done].
    + destruct (get_task (d_vm d) j); [|done]. split; [apply same_kind_refl|done].
Qed.

Lemma resume_inv d c k d' o :
  inv d → d_current d = Some c → d_suspended d !! c = Some k → resume d c k = (d', o) → inv d'.
Proof.
  intros Hinv Hc Hk Hr. destruct (current_task_full d c Hinv Hc) as [t Ht].
  destruct (inv_suspensions _ Hinv) as [_ _ _ S4 S5 _ _].
  pose proof (S5 _ Hc) as Hcur. pose proof (S4 _ _ Hc Ht) as Hcc.
  unfold resume in Hr. destruct (resumed (d_vm d) k) as [vm' o'] eqn:E. injection Hr as <- <-.
  destruct (resumed_effect _ _ _ _ t E) as (Er & Ec & Es & Eh & Ea & Ecc & Eget);
    [by rewrite Hcur|done|]. rewrite Hcur in Eget. by apply (goes_on_inv d c t vm').
Qed.

Lemma checkpoint_inv d c :
  inv d → d_current d = Some c → d_suspended d !! c = None →
  inv (with_vm d (checkpoint (d_vm d)).1).
Proof.
  intros Hinv Hc Hk. unfold checkpoint. destruct (cancel_current (d_vm d)) eqn:E; [|by destruct d].
  destruct (current_task_full d c Hinv Hc) as [t Ht].
  destruct (inv_suspensions _ Hinv) as [_ _ _ S4 S5 _ _]. pose proof (S5 _ Hc) as Hcur.
  assert (resumed (d_vm d) YIo = ((take_cancellation (d_vm d)).1, RErr Cancelled)) as Hr
    by (unfold resumed; by rewrite E).
  destruct (resumed_effect _ _ _ _ t Hr) as (Er & Ec & Es & Eh & Ea & Ecc & Eget);
    [by rewrite Hcur|by apply (S4 c)|]. rewrite Hcur in Eget.
  assert (with_vm d (take_cancellation (d_vm d)).1 = goes_on d c (take_cancellation (d_vm d)).1)
    as Heq by (unfold goes_on, with_vm; by rewrite delete_id).
  simpl in *. rewrite Heq. by apply (goes_on_inv d c t).
Qed.

(** ** Spawning *)

Lemma opt_match_refl vm (R : Task → Task → Prop) :
  (∀ t, R t t) →
  ∀ j, match get_task vm j, get_task vm j with
       | Some t, Some t' => R t t'
       | None, None => True
       | _, _ => False
       end.
Proof. intros HR j. by destruct (get_task vm j). Qed.

Lemma spawn_inv d c block vm' id :
  inv d → d_current d = Some c → spawn_detached_id (d_vm d) block = (vm', id) →
  inv (with_vm d vm').
Proof.
  intros Hinv Hc Hsp. destruct (current_task_full d c Hinv Hc) as [tc Htc].
  destruct (spawn_effect _ _ _ _ Hsp) as (Hnone & Er & Ec & Em & Ecc & Es & Ea & El & Hfr & Eh & Eget).
  destruct Hinv as [Hp HJ Hg [S1 S2 S3 S4 S5 S7 S6] Hki].
  assert (id ≠ c) as Hidc by congruence.
  assert (Hnew : t_handle (new_child_task block None (Some (fresh_handle (d_vm d))))
                 = Some (fresh_handle (d_vm d))) by done.
  split.
  - eapply (places_spawns _ _ _ _ _ [id]); [exact Hp|..].
    + apply NoDup_singleton.
    + intros i ->%list_elem_of_singleton. unfold blocked_at. by rewrite Hnone.
    + intros j. unfold blocked_at. simpl. rewrite Eget, decide_singleton. by case_decide.
    + unfold runnable. simpl. rewrite Er. apply enqueue_perm.
  - eapply (joins_spawns _ _ _ _ [id]); [exact HJ|..].
    + intros i ->%list_elem_of_singleton. unfold joining_at, waiters_at. by rewrite Hnone.
    + intros j. unfold joining_at. simpl. rewrite Eget. case_decide; [subst; by rewrite Hnone|done].
    + intros j. unfold waiters_at. simpl. rewrite Eget, decide_singleton. by case_decide.
  - eapply gathers_ext; [exact Hg|..].
    + intros j p slot. unfold parent_at. simpl. rewrite Eget. case_decide; [|done].
      subst. by rewrite Hnone.
    + intros j. unfold gather_at. simpl. rewrite Eget. case_decide; [subst; by rewrite Hnone|done].
  - split; simpl; rewrite ?Es, ?Ecc, ?Ec, ?Em; try done.
    + intros j t. rewrite Eget. case_decide as Hj; [intros [= <-]; subst|intros Ht].
      * split; simpl; rewrite ?Er; try done.
        -- intros _. split_and!; [by eexists|set_solver|by apply S2|done].
        -- intros k _. by rewrite S2.
        -- intros Hio. exfalso.
           assert (is_Some (blocked_at (d_vm d) id)) as [? Hb]
             by (apply (pl_live _ _ _ Hp); unfold runnable; set_solver).
           unfold blocked_at in Hb. by rewrite Hnone in Hb.
        -- rewrite Es. lia.
      * eapply task_suspended_same; [by apply S1|apply same_suspension_refl|..]; simpl; try done.
        -- rewrite Er. set_solver.
        -- by rewrite Es.
    + intros j. rewrite Eget. case_decide; [done|auto].
    + intros c' t' Hc'. rewrite Eget. rewrite Hc in Hc'. injection Hc' as <-.
      case_decide; [congruence|]. by apply S4.
    + intros c' t' Hc'. rewrite Eget. rewrite Hc in Hc'. injection Hc' as <-.
      case_decide; [congruence|]. by apply S7.
    + intros f g e Hf Hfk. destruct (S6 _ _ _ Hf Hfk) as [He Hd]. split; [done|].
      intros t. rewrite Eget. case_decide; [|by apply Hd]. intros [= <-]. simpl. lia.
  - destruct Hki as [K1 K2 K3 K4 K5 K6]. split; simpl; rewrite ?Ea; try done.
    + intros j t. rewrite Eget. case_decide as Hj; [intros [= <-]; subst|intros Ht].
      * split; simpl; rewrite ?Eh; try done.
        -- intros h [= <-]. eexists. by rewrite lookup_insert_eq.
        -- by right.
      * destruct (K1 _ _ Ht) as [T1 T2 T3 T4 T5 T6]. split; simpl; rewrite ?Eh; try done.
        intros h Hh. destruct (T1 _ Hh) as (hd & Hhd & ? & ?). exists hd.
        rewrite lookup_insert_ne; [done|]. intros Heq. rewrite Heq in Hfr. congruence.
    + rewrite Eh. intros h hd. destruct (decide (h = fresh_handle (d_vm d))) as [->|Hne].
      * rewrite lookup_insert_eq. intros [= <-] _. simpl. rewrite Eget, decide_True by done. eauto.
      * rewrite lookup_insert_ne by done. intros Hhd Hrun. destruct (K2 _ _ Hhd Hrun) as (t & Ht & Hth).
        exists t. rewrite Eget. rewrite decide_False; [done|]. intros E. congruence.
    + intros f Hf Hfk. destruct (K3 _ Hf Hfk) as (t & Ht & ?). exists t. split; [|done].
      rewrite Eget. rewrite decide_False; [done|]. intros E. rewrite E in Ht. congruence.
Qed.

(** ** Parking *)

(** A park of the current task [c], whatever else it changes in fields that suspensions are
    not about. *)
Lemma suspensions_park d d' c t t' k :
  inv d → d_current d = Some c → get_task (d_vm d) c = Some t →
  get_task (d_vm d') c = Some t' → d_current d' = None →
  d_suspended d' = <[c := k]> (d_suspended d) →
  ready (d_vm d') = ready (d_vm d) → park_seq (d_vm d') = park_seq (d_vm d) →
  (∀ j, j ≠ c → match get_task (d_vm d) j, get_task (d_vm d') j with
                | Some a, Some b => same_suspension a b
                | None, None => True
                | _, _ => False
                end) →
  (∀ j, j ∈ io_owners (d_futures d') → j ∈ io_owners (d_futures d) ∨ j = c ∧ k = YIo) →
  (∀ f g e, f ∈ d_futures d' → f_kind f = FutDeadline g e →
     f ∈ d_futures d ∨ f_task f = c ∧ e = t_park_epoch t ∧ k = YJoinTimed) →
  t_started t' = t_started t → t_wake t' = t_wake t → t_park_epoch t' = t_park_epoch t →
  (is_Some (t_joining t') → k = YJoin ∨ k = YJoinTimed) →
  (t_parked_on_channel t' = true → k = YChannel) → (is_Some (t_gather t') → k = YGather) →
  suspensions d'.
Proof.
  intros Hinv Hc Ht Ht' Hc' Hs Er Es Hother Hio Hdl E1 E2 E3 H1 H2 H3.
  pose proof (current_not_runnable d c Hinv Hc) as [Hnr Hnio].
  destruct (current_unparked d c Hinv Hc t Ht) as (Hj & Hch & Hga & Hw & Hab & Hst).
  destruct (inv_suspensions _ Hinv) as [S1 S2 S3 S4 S5 S7 S6].
  split; rewrite ?Hc'; try done.
  - intros j a Ha. destruct (decide (j = c)) as [->|Hne].
    + rewrite Ht' in Ha. injection Ha as <-. destruct (S1 _ _ Ht).
      split; rewrite ?Er, ?Hs, ?lookup_insert_eq, ?E1, ?E2, ?E3, ?Es, ?Hst, ?Hw; try done.
      * intros [-> | ->]%H1; auto.
      * by intros ->%H2.
      * by intros ->%H3.
      * intros [?|[_ ->]]%Hio; [done|]. done.
    + specialize (Hother _ Hne). rewrite Ha in Hother.
      destruct (get_task (d_vm d) j) as [b|] eqn:Eb; [|done].
      eapply task_suspended_same; [by apply S1|done|..]; rewrite ?Er, ?Es, ?Hs; try done.
      * intros [?|[-> _]]%Hio; done.
      * by rewrite lookup_insert_ne.
  - intros j Hnone. rewrite Hs. destruct (decide (j = c)) as [->|Hne]; [congruence|].
    rewrite lookup_insert_ne by done. apply S2. specialize (Hother _ Hne).
    rewrite Hnone in Hother. by destruct (get_task (d_vm d) j).
  - intros f g e Hf Hk. destruct (Hdl _ _ _ Hf Hk) as [Hf'|(Hft & -> & ->)].
    + destruct (S6 _ _ _ Hf' Hk) as [He Hd]. rewrite Es. split; [done|].
      intros a Ha Hep. split; [done|]. rewrite Hs.
      destruct (decide (f_task f = c)) as [Hfc|Hne].
      * rewrite Hfc, Ht' in Ha. injection Ha as <-. rewrite Hfc in Hd.
        destruct (Hd _ Ht) as [Hd' _]; [congruence|]. done.
      * rewrite lookup_insert_ne by done. specialize (Hother _ Hne). rewrite Ha in Hother.
        destruct (get_task (d_vm d) (f_task f)) as [b|]; [|done].
        apply (Hd b); [done|]. by rewrite <-(ss_epoch _ _ Hother).
    + rewrite Es, Hft. split.
      * split; [by apply (S7 _ _ Hc Ht)|]. by destruct (S1 _ _ Ht).
      * intros a _ _. split; [done|]. by rewrite Hs, lookup_insert_eq.
Qed.

End steps.
