(* ===== verification/SchedParks.v ===== *)
(** * The invariant is preserved when tasks park and are woken

    The running task parks: yielding, waiting for input or output, for the children of a
    gather, for another task, for another task or a deadline, for a counterpart on a
    channel. *)
From stdpp Require Import base numbers list gmap strings.
From stdpp Require Import options.
From S2P Require Import Prelude Sched Driver SchedEffects SchedInv.
#[local] Set Default Proof Using "Type*".
#[local] Set Warnings "-clear-no-such-hyp".

Section parks.
Context `{VmTypes}.
Implicit Types (vm : VmState) (t : Task) (d : Driver).

(** ** Futures *)

Lemma io_owners_app fs fs' : io_owners (fs ++ fs') = io_owners fs ++ io_owners fs'.
Proof. unfold io_owners. by rewrite List.filter_app, map_app. Qed.

(** The new future is for the current task, which records its number in [t']. *)
Lemma kinds_add_future d d' c t t' fk :
  kinds d → get_task (d_vm d) c = Some t → get_task (d_vm d') c = Some t' →
  c ∉ io_owners (d_futures d) →
  (∀ j, j ≠ c → match get_task (d_vm d) j, get_task (d_vm d') j with
                | Some a, Some b => same_kind a b ∧ t_cancel_requested b = t_cancel_requested a
                | None, None => True
                | _, _ => False
                end) →
  handles (d_vm d') = handles (d_vm d) → aborted (d_vm d') = aborted (d_vm d) →
  d_futures d' = d_futures d ++ [mkFuture (d_next_future d) c fk] →
  d_next_future d' = (d_next_future d + 1)%N →
  t_handle t' = t_handle t → t_parent t' = t_parent t → t_waiters t' = t_waiters t →
  t_abort_handle t = None →
  (fk = FutIo → t_abort_handle t' = Some (d_next_future d)
                ∧ t_deadline_abort t' = t_deadline_abort t) →
  (fk ≠ FutIo → t_abort_handle t' = None ∧ t_deadline_abort t' = Some (d_next_future d)) →
  kinds d'.
Proof.
  intros [K1 K2 K3 K4 K5 K6] Ht Ht' Hio Hoth Hh Ha Hf Hn E1 E2 E3 Hab Hfk1 Hfk2.
  assert (Hold : ∀ f a, f ∈ d_futures d' → f_id f = a → (a < d_next_future d)%N → f ∈ d_futures d).
  { intros f a. rewrite Hf, elem_of_app, list_elem_of_singleton. intros [?| ->] <-; [done|].
    simpl. lia. }
  assert (Hkeep : ∀ j a b, get_task (d_vm d) j = Some a → same_kind a b → task_kind d' j b).
  { intros j a b [T1 T2 T3 T4 T5 T6]%K1 [F1 F2 F3 F4 F5].
    split; rewrite ?F1, ?F2, ?F4, ?Hh, ?Hn; auto.
    - intros [?|?]%F3; auto.
    - intros n (f & ? & ?)%T5. exists f. split; [|done]. rewrite Hf. set_solver.
    - intros n Hd. destruct F5 as [F|F]; rewrite F in Hd; [done|]. destruct (T6 _ Hd) as [Hlt Hno].
      split; [lia|]. intros f Hin Hid. apply Hno; [by eapply Hold|done]. }
  split; rewrite ?Hh, ?Ha, ?Hn.
  - intros j b Hb. destruct (decide (j = c)) as [->|Hne].
    + rewrite Ht' in Hb. injection Hb as <-. pose proof (K1 _ _ Ht) as [T1 T2 T3 T4 T5 T6].
      split; rewrite ?E1, ?E2, ?E3, ?Hh, ?Hn; auto.
      * intros n Hn'. destruct (decide (fk = FutIo)) as [Hfk|Hfk].
        -- destruct (Hfk1 Hfk) as [F _]. rewrite F in Hn'. injection Hn' as <-.
           exists (mkFuture (d_next_future d) c fk). rewrite Hf. split; [set_solver|by simpl].
        -- destruct (Hfk2 Hfk) as [F _]. congruence.
      * intros n Hn'. destruct (decide (fk = FutIo)) as [Hfk|Hfk].
        -- destruct (Hfk1 Hfk) as [_ F]. rewrite F in Hn'. destruct (T6 _ Hn') as [Hlt Hno].
           split; [lia|]. intros f Hin Hid. apply Hno; [by eapply Hold|done].
        -- destruct (Hfk2 Hfk) as [_ F]. rewrite F in Hn'. injection Hn' as <-.
           split; [lia|]. intros f. rewrite Hf, elem_of_app, list_elem_of_singleton.
           intros [Hin| ->]; [|done]. intros Hid. pose proof (K5 _ Hin). lia.
    + specialize (Hoth _ Hne). rewrite Hb in Hoth.
      destruct (get_task (d_vm d) j) as [a|] eqn:Ea; [|done]. destruct Hoth as [Hs _].
      by eapply Hkeep.
  - intros h hd Hhd Hrun. destruct (K2 _ _ Hhd Hrun) as (a & Ea & Hah).
    destruct (decide (h_id hd = c)) as [Hid|Hne].
    + rewrite Hid in *. rewrite Ht in Ea. injection Ea as <-. exists t'. by rewrite E1.
    + specialize (Hoth _ Hne). rewrite Ea in Hoth.
      destruct (get_task (d_vm d') (h_id hd)) as [b|]; [|done]. destruct Hoth as [Hs _].
      exists b. by rewrite (sk_handle _ _ Hs).
  - intros f. rewrite Hf, elem_of_app, list_elem_of_singleton. intros [Hin| ->] Hk.
    + destruct (K3 _ Hin Hk) as (a & Ea & Hd).
      assert (f_task f ≠ c) as Hne by (intros <-; by apply Hio, elem_of_io_owners).
      specialize (Hoth _ Hne). rewrite Ea in Hoth.
      destruct (get_task (d_vm d') (f_task f)) as [b|]; [|done]. destruct Hoth as [Hs Hcc].
      exists b. split; [done|]. by rewrite (sk_abort _ _ Hs), Hcc.
    + simpl in *. exists t'. split; [done|]. rewrite decide_False; [by apply Hfk1|].
      intros Hin%K4. lia.
  - intros a Hin%K4. lia.
  - intros f. rewrite Hf, elem_of_app, list_elem_of_singleton. intros [Hin%K5| ->]; simpl; lia.
  - rewrite Hf, map_app. simpl. apply NoDup_app. split_and!; [done| |apply NoDup_singleton].
    intros n (f & -> & Hin)%list_elem_of_fmap. apply K5 in Hin.
    rewrite list_elem_of_singleton. lia.
Qed.

(** ** Yielding *)

Lemma yield_inv d c vm :
  inv d → d_current d = Some c → d_suspended d !! c = None →
  save_task_context (d_vm d) c = Some vm → inv (yields d (push_ready vm c)).
Proof.
  intros Hinv Hc Hsus Hsave.
  destruct (save_effect _ _ _ Hsave) as (t & Ht & _ & Er & _ & _ & _ & Es & Eh & Ea & Eget).
  destruct (current_unparked d c Hinv Hc t Ht) as (Hj & Hch & Hga & Hw & Hab & Hst).
  pose proof (current_not_runnable d c Hinv Hc) as [Hnr Hnio].
  destruct Hinv as [Hp HJ Hg [S1 S2 S3 S4 S5 S7 S6] Hki].
  split.
  - eapply places_enqueue; [by rewrite <-Hc| |].
    + view Eget. by rewrite Ht.
    + unfold runnable. simpl. rewrite Er. apply (enqueue_perm _ _ [c]).
  - eapply joins_ext; [exact HJ| |]; view Eget; by rewrite Ht.
  - eapply gathers_ext; [exact Hg| |]; [|view Eget; by rewrite Ht].
    intros j p slot. unfold parent_at. simpl. rewrite get_push_ready, Eget.
    case_decide; [subst; by rewrite Ht|done].
  - split; simpl; rewrite ?Es; try done.
    + intros j a. rewrite get_push_ready, Eget. case_decide as Hjc.
      * intros [= <-]. subst j. destruct (S1 _ _ Ht).
        split; simpl; rewrite ?Hst, ?Hw, ?Hj, ?Hch, ?Hga, ?Hsus, ?Es; try done; by intros [].
      * intros Ha. eapply task_suspended_same; [by apply S1|apply same_suspension_refl|..];
          simpl; rewrite ?Er, ?Es; try done. set_solver.
    + intros j. rewrite get_push_ready, Eget. case_decide; [done|auto].
    + intros f g e Hf Hfk. destruct (S6 _ _ _ Hf Hfk) as [He Hd]. split; [done|].
      intros a. rewrite get_push_ready, Eget. case_decide as Hfc.
      * intros [= <-] Hep. rewrite Hfc in Hd. by destruct (Hd _ Ht Hep).
      * intros Ha Hep. by destruct (Hd _ Ha Hep).
  - eapply kinds_same; [exact Hki|..]; simpl; try done. intros j. rewrite get_push_ready, Eget.
    case_decide; subst.
    + rewrite Ht. split; [by split; auto|done].
    + destruct (get_task (d_vm d) j); [|done]. split; [apply same_kind_refl|done].
Qed.

(** ** Parking in one call *)

(** The table after a park of [c] that changes no other task. *)
Definition parked_as vm c t' vm' : Prop :=
  ∀ j, get_task vm' j = if decide (j = c) then Some t' else get_task vm j.

Lemma await_io_inv d c vm t :
  inv d → d_current d = Some c → d_suspended d !! c = None →
  save_task_context (d_vm d) c = Some vm → get_task vm c = Some t →
  inv (suspends (in_flight d c FutIo) c YIo
         (put_task vm c (set_t_abort (Some (d_next_future d)) t))).
Proof.
  intros Hinv Hc Hsus Hsave Ht'.
  destruct (save_effect _ _ _ Hsave) as (t0 & Ht & _ & Er & _ & _ & _ & Es & Eh & Ea & Eget).
  assert (t = set_t_slice (vm_live (d_vm d)) t0) as ->.
  { rewrite Eget, decide_True in Ht' by done. congruence. }
  destruct (current_unparked d c Hinv Hc t0 Ht) as (Hj & Hch & Hga & Hw & Hab & Hst).
  pose proof (current_not_runnable d c Hinv Hc) as [Hnr Hnio].
  match goal with |- inv ?x => set (d' := x) end.
  assert (Hget : parked_as (d_vm d) c
            (set_t_abort (Some (d_next_future d)) (set_t_slice (vm_live (d_vm d)) t0)) (d_vm d')).
  { intros j. unfold d'. simpl. rewrite (get_put _ _ _ _ _ Ht'), Eget. by case_decide. }
  assert (Hself : get_task (d_vm d') c = Some
            (set_t_abort (Some (d_next_future d)) (set_t_slice (vm_live (d_vm d)) t0)))
    by (by rewrite Hget, decide_True).
  assert (Hio : io_owners (d_futures d') = io_owners (d_futures d) ++ [c])
    by (unfold d'; simpl; by rewrite io_owners_app).
  split.
  - eapply places_enqueue; [rewrite <-Hc; by apply Hinv| |].
    + view Hget. by rewrite Ht.
    + unfold runnable. rewrite Hio. unfold d'. simpl.
      by rewrite Er, app_assoc, Permutation_app_comm.
  - eapply joins_ext; [apply Hinv| |]; view Hget; by rewrite Ht.
  - eapply gathers_ext; [apply Hinv| |]; [|view Hget; by rewrite Ht].
    intros j p slot. unfold parent_at. rewrite Hget. case_decide; [subst; by rewrite Ht|done].
  - eapply (suspensions_park d d' c t0 _ YIo); try done.
    + intros j Hne. rewrite Hget, decide_False by done. destruct (get_task (d_vm d) j); [|done].
      apply same_suspension_refl.
    + intros j. rewrite Hio, elem_of_app, list_elem_of_singleton. naive_solver.
    + intros f g e Hf Hfk. unfold d' in Hf. simpl in Hf.
      apply elem_of_app in Hf as [Hf| ->%list_elem_of_singleton]; [by left|done].
    + simpl. rewrite Hj. by intros [].
    + simpl. by rewrite Hch.
    + simpl. rewrite Hga. by intros [].
  - eapply (kinds_add_future d d' c t0 _ FutIo); try done; [apply Hinv|].
    intros j Hne. rewrite Hget, decide_False by done. destruct (get_task (d_vm d) j); [|done].
    split; [apply same_kind_refl|done].
Qed.

Lemma park_on_channel_inv d c vm :
  inv d → d_current d = Some c → d_suspended d !! c = None →
  save_task_context (update_task (d_vm d) c (set_t_parked true)) c = Some vm →
  inv (suspends d c YChannel vm).
Proof.
  intros Hinv Hc Hsus Hsave. destruct (current_task_full d c Hinv Hc) as [t Ht].
  destruct (current_unparked d c Hinv Hc t Ht) as (Hj & Hch & Hga & Hw & Hab & Hst).
  destruct (save_effect _ _ _ Hsave) as (t1 & Ht1 & _ & Er & _ & _ & _ & Es & Eh & Ea & Eget).
  destruct (update_rest (d_vm d) c (set_t_parked true)) as (El & Er0 & _ & _ & _ & Es0 & _ & Eh0 & Ea0).
  rewrite get_update, decide_True, Ht in Ht1 by done. injection Ht1 as <-.
  set (t' := set_t_slice (vm_live (update_task (d_vm d) c (set_t_parked true))) (set_t_parked true t))
    in *.
  assert (Hget : parked_as (d_vm d) c t' vm).
  { intros j. rewrite Eget, get_update. by case_decide. }
  assert (Hself : get_task vm c = Some t') by (by rewrite Hget, decide_True).
  split.
  - eapply places_block; [rewrite <-Hc; apply places_ext with (1 := inv_places _ Hinv)| ]; try done.
    + unfold runnable. simpl. by rewrite Er, Er0.
    + view Hget. unfold blocked, t'. simpl. by rewrite Hj, Hga.
  - eapply joins_ext; [apply Hinv| |]; view Hget; by rewrite Ht.
  - eapply gathers_ext; [apply Hinv| |]; [|view Hget; by rewrite Ht].
    intros j p slot. unfold parent_at. simpl. rewrite Hget.
    case_decide; [subst; by rewrite Ht|done].
  - eapply (suspensions_park d _ c t t' YChannel); try done; simpl; rewrite ?Er, ?Es; try done.
    + intros j Hne. rewrite Hget, decide_False by done. destruct (get_task (d_vm d) j); [|done].
      apply same_suspension_refl.
    + auto.
    + auto.
    + rewrite Hj. by intros [].
    + rewrite Hga. by intros [].
  - eapply kinds_same; [apply Hinv|..]; simpl; try congruence. intros j. rewrite Hget.
    case_decide; subst.
    + rewrite Ht. split; [split; auto|done].
    + destruct (get_task (d_vm d) j); [|done]. split; [apply same_kind_refl|done].
Qed.

(** ** Gathering *)

(** New tasks, enqueued and waiting for nothing. *)
Lemma suspensions_spawns d vm' (ids : list TaskId) :
  suspensions d → d_current d = None →
  (∀ i, i ∈ ids → get_task (d_vm d) i = None ∧ (i ∉ io_owners (d_futures d))
                  ∧ ∃ b p h, get_task vm' i = Some (new_child_task b p h)) →
  (∀ j, j ∉ ids → get_task vm' j = get_task (d_vm d) j) →
  ready vm' = ready (d_vm d) ++ ids → park_seq vm' = park_seq (d_vm d) →
  suspensions (with_vm d vm').
Proof.
  intros [S1 S2 S3 S4 S5 S7 S6] Hc Hnew Hold Er Es.
  split; simpl; rewrite ?Hc, ?Es; try done.
  - intros j t Ht. destruct (decide (j ∈ ids)) as [Hin|Hin].
    + destruct (Hnew _ Hin) as (Hnone & Hio & b & p & h & Hj). rewrite Hj in Ht.
      injection Ht as <-. split; simpl; rewrite ?Er, ?Es, ?(S2 _ Hnone); try done; try by intros [].
      * intros _. split_and!; [by eexists|set_solver|done|done].
      * lia.
    + rewrite (Hold _ Hin) in Ht. eapply task_suspended_same; [by apply S1|apply same_suspension_refl|..];
        simpl; rewrite ?Er, ?Es; try done. set_solver.
  - intros j Hj. apply S2. destruct (decide (j ∈ ids)) as [Hin|Hin]; [by apply Hnew|].
    by rewrite <-Hold.
  - intros f g e Hf Hk. destruct (S6 _ _ _ Hf Hk) as [He Hd]. split; [done|]. intros t Ht.
    destruct (decide (f_task f ∈ ids)) as [Hin|Hin].
    + destruct (Hnew _ Hin) as (_ & _ & b & p & h & Hj). rewrite Hj in Ht. injection Ht as <-.
      simpl. lia.
    + rewrite Hold in Ht by done. intros Hep. by destruct (Hd _ Ht Hep).
Qed.

Lemma kinds_spawns d vm' (ids : list TaskId) :
  kinds d →
  (∀ i, i ∈ ids → get_task (d_vm d) i = None
                  ∧ ∃ b p, get_task vm' i = Some (new_child_task b (Some p) None)) →
  (∀ j, j ∉ ids → get_task vm' j = get_task (d_vm d) j) →
  handles vm' = handles (d_vm d) → aborted vm' = aborted (d_vm d) →
  kinds (with_vm d vm').
Proof.
  intros [K1 K2 K3 K4 K5 K6] Hnew Hold Eh Ea. split; simpl; rewrite ?Eh, ?Ea; try done.
  - intros j t Ht. destruct (decide (j ∈ ids)) as [Hin|Hin].
    + destruct (Hnew _ Hin) as (_ & b & p & Hj). rewrite Hj in Ht. injection Ht as <-.
      split; try done. by left.
    + rewrite (Hold _ Hin) in Ht.
      eapply (task_kind_same d); [by apply K1|apply same_kind_refl|done..].
  - intros h hd Hhd Hrun. destruct (K2 _ _ Hhd Hrun) as (t & Ht & Hth). exists t.
    rewrite Hold; [done|]. intros [Hno _]%Hnew. congruence.
  - intros f Hf Hk. destruct (K3 _ Hf Hk) as (t & Ht & Hth). exists t.
    rewrite Hold; [done|]. intros [Hno _]%Hnew. congruence.
Qed.

Lemma gather_none_inv d c vm t :
  inv d → d_current d = Some c → d_suspended d !! c = None →
  save_task_context (d_vm d) c = Some vm → get_task vm c = Some t →
  inv (suspends d c YGather (push_ready (put_task vm c (set_t_wake (Some (WGather [])) t)) c)).
Proof.
  intros Hinv Hc Hsus Hsave Ht'.
  destruct (save_effect _ _ _ Hsave) as (t0 & Ht & _ & Er & _ & _ & _ & Es & Eh & Ea & Eget).
  assert (t = set_t_slice (vm_live (d_vm d)) t0) as ->.
  { rewrite Eget, decide_True in Ht' by done. congruence. }
  destruct (current_unparked d c Hinv Hc t0 Ht) as (Hj & Hch & Hga & Hw & Hab & Hst).
  pose proof (current_not_runnable d c Hinv Hc) as [Hnr Hnio].
  set (t' := set_t_wake (Some (WGather [])) (set_t_slice (vm_live (d_vm d)) t0)).
  assert (Hget : parked_as (d_vm d) c t' (put_task vm c t')).
  { intros j. rewrite (get_put _ _ _ _ _ Ht'), Eget. by case_decide. }
  destruct Hinv as [Hp HJ Hg [S1 S2 S3 S4 S5 S7 S6] Hki]. split.
  - eapply places_enqueue; [by rewrite <-Hc| |].
    + view Hget. by rewrite Ht.
    + unfold runnable. simpl. rewrite Er. apply (enqueue_perm _ _ [c]).
  - eapply joins_ext; [exact HJ| |]; view Hget; by rewrite Ht.
  - eapply gathers_ext; [exact Hg| |]; [|view Hget; by rewrite Ht].
    intros j p slot. unfold parent_at. simpl. rewrite get_push_ready, Hget.
    case_decide; [subst; by rewrite Ht|done].
  - split; simpl; rewrite ?Es; try done.
    + intros j a. rewrite get_push_ready, Hget. case_decide as Hjc.
      * intros [= <-]. subst j. destruct (S1 _ _ Ht).
        split; simpl; rewrite ?Hst, ?Hj, ?Hch, ?Hga, ?lookup_insert_eq, ?Es; try done;
          try (by intros []).
        -- set_solver.
        -- intros k _ [= <-]. right. by eexists.
      * intros Ha. eapply task_suspended_same; [by apply S1|apply same_suspension_refl|..];
          simpl; rewrite ?Er, ?Es; try done; [set_solver|]. by rewrite lookup_insert_ne.
    + intros j. rewrite get_push_ready, Hget. case_decide; [done|].
      intros. rewrite lookup_insert_ne by done. auto.
    + intros f g e Hf Hfk. destruct (S6 _ _ _ Hf Hfk) as [He Hd]. split; [done|].
      intros a. rewrite get_push_ready, Hget. case_decide as Hfc.
      * intros [= <-] Hep. rewrite Hfc in Hd. by destruct (Hd _ Ht Hep).
      * intros Ha Hep. rewrite lookup_insert_ne by done. by destruct (Hd _ Ha Hep).
  - eapply kinds_same; [exact Hki|..]; simpl; try done. intros j. rewrite get_push_ready, Hget.
    case_decide; subst.
    + rewrite Ht. split; [by split; auto|done].
    + destruct (get_task (d_vm d) j); [|done]. split; [apply same_kind_refl|done].
Qed.

Lemma gather_some_inv d c vm t blocks :
  inv d → d_current d = Some c → d_suspended d !! c = None → blocks ≠ [] →
  save_task_context (d_vm d) c = Some vm → get_task vm c = Some t →
  let g := mkGather (length blocks) (replicate (length blocks) None) None in
  inv (suspends d c YGather (spawn_children (put_task vm c (set_t_gather (Some g) t)) c 0 blocks)).
Proof.
  intros Hinv Hc Hsus Hne Hsave Ht' g.
  destruct (save_effect _ _ _ Hsave) as (t0 & Ht & _ & Er & _ & _ & _ & Es & Eh & Ea & Eget).
  assert (t = set_t_slice (vm_live (d_vm d)) t0) as ->.
  { rewrite Eget, decide_True in Ht' by done. congruence. }
  destruct (current_unparked d c Hinv Hc t0 Ht) as (Hj & Hch & Hga & Hw & Hab & Hst).
  set (t' := set_t_gather (Some g) (set_t_slice (vm_live (d_vm d)) t0)).
  set (vm1 := put_task vm c t').
  assert (Hget1 : parked_as (d_vm d) c t' vm1).
  { intros j. unfold vm1. rewrite (get_put _ _ _ _ _ Ht'), Eget. by case_decide. }
  destruct (spawn_children_effect c blocks vm1 0)
    as (ids & Hlen & Hnd & Hfree & Er2 & _ & _ & _ & Es2 & Eh2 & Ea2 & _ & Hnew & Hold).
  set (vm2 := spawn_children vm1 c 0 blocks) in *. simpl in *.
  assert (Hself : get_task vm1 c = Some t') by (by rewrite Hget1, decide_True).
  assert (Hcid : c ∉ ids) by (intros Hin%Hfree; congruence).
  assert (Hfree0 : ∀ i, i ∈ ids → get_task (d_vm d) i = None ∧ i ≠ c).
  { intros i Hin. pose proof (Hfree _ Hin) as Hf. rewrite Hget1 in Hf. by case_decide. }
  assert (Hnew' : ∀ i, i ∈ ids → ∃ b k, ids !! k = Some i
                     ∧ get_task vm2 i = Some (new_child_task b (Some (c, k)) None)).
  { intros i [k Hk]%list_elem_of_lookup. destruct (lookup_lt_is_Some_2 blocks k) as [b Hb].
    - rewrite <-Hlen. by eapply lookup_lt_Some.
    - exists b, k. split; [done|by apply (Hnew k)]. }
  assert (Hget : ∀ j, get_task vm2 j = if decide (j = c) then Some t' else
                    if decide (j ∈ ids) then get_task vm2 j else get_task (d_vm d) j).
  { intros j. case_decide; [subst; by rewrite Hold|]. case_decide; [done|].
    rewrite Hold, Hget1 by done. by case_decide. }
  assert (Hview : ∀ {A} (f : Task → A), f t' = f t0 → ∀ j, j ∉ ids →
            f <$> get_task vm2 j = f <$> get_task (d_vm d) j).
  { intros A f Hf j Hin. rewrite Hget. case_decide; [subst; rewrite Ht; simpl; by rewrite Hf|].
    by rewrite decide_False. }
  destruct Hinv as [Hp HJ Hg Hsu Hki]. split; simpl.
  - eapply (places_spawns (λ j, if decide (j = c) then Some 1 else blocked_at (d_vm d) j)
              _ (runnable d) _ None ids).
    + eapply (places_block (blocked_at (d_vm d))); [by rewrite <-Hc|done].
    + done.
    + intros i [Hi Hic]%Hfree0. rewrite decide_False by done. unfold blocked_at. by rewrite Hi.
    + intros j. unfold blocked_at. case_decide as Hin.
      * destruct (Hnew' _ Hin) as (b & k & _ & Hb). by rewrite Hb.
      * rewrite Hget. case_decide; [|by rewrite decide_False].
        simpl. unfold blocked. simpl. by rewrite Hj, Hch.
    + unfold runnable. simpl. rewrite Er2, Er. apply enqueue_perm.
  - eapply (joins_spawns _ _ _ _ ids); [exact HJ|..].
    + intros i [Hi _]%Hfree0. unfold joining_at, waiters_at. by rewrite Hi.
    + intros j. unfold joining_at. destruct (decide (j ∈ ids)) as [Hin|Hin].
      * destruct (Hnew' _ Hin) as (b & k & _ & Hb). destruct (Hfree0 _ Hin) as [Hi _].
        by rewrite Hb, Hi.
      * rewrite Hget. case_decide; [subst; by rewrite Ht|by rewrite decide_False].
    + intros j. unfold waiters_at. case_decide as Hin.
      * destruct (Hnew' _ Hin) as (b & k & _ & Hb). by rewrite Hb.
      * by apply (Hview _ t_waiters).
  - eapply (gathers_spawn _ _ _ _ c ids); [exact Hg|..].
    + unfold gather_at. by rewrite Ht.
    + intros ->. by destruct blocks.
    + done.
    + intros i [Hi _]%Hfree0. unfold parent_at. by rewrite Hi.
    + intros k i Hk. destruct (lookup_lt_is_Some_2 blocks k) as [b Hb].
      { rewrite <-Hlen. by eapply lookup_lt_Some. }
      unfold parent_at. by rewrite (Hnew _ _ _ Hk Hb).
    + intros j Hin. unfold parent_at. rewrite Hget.
      case_decide; [subst; by rewrite Ht|by rewrite decide_False].
    + intros j. unfold gather_at. case_decide as Hjc.
      * subst j. rewrite Hget, decide_True by done. by rewrite Hlen.
      * destruct (decide (j ∈ ids)) as [Hin|Hin].
        -- destruct (Hnew' _ Hin) as (b & k & _ & Hb). destruct (Hfree0 _ Hin) as [Hi _].
           by rewrite Hb, Hi.
        -- rewrite Hget. by rewrite !decide_False.
  - apply (suspensions_spawns (suspends d c YGather vm1) vm2 ids); try done.
    + eapply (suspensions_park d _ c t0 t' YGather); try done; simpl; rewrite ?Er, ?Es; try done.
      * intros j Hjc. rewrite Hget1, decide_False by done. destruct (get_task (d_vm d) j); [|done].
        apply same_suspension_refl.
      * auto.
      * auto.
      * rewrite Hj. by intros [].
      * by rewrite Hch.
    + intros i Hin. destruct (Hnew' _ Hin) as (b & k & _ & Hb). split_and!; [by apply Hfree| |by eauto].
      intros (f & Hf & Hk & Hft)%io_owners_elem. simpl in Hf.
      destruct (ki_abort _ Hki _ Hf Hk) as (a & Hta & _).
      destruct (Hfree0 _ Hin) as [Hi _]. congruence.
  - apply (kinds_spawns (suspends d c YGather vm1) vm2 ids); try done.
    + eapply kinds_same; [exact Hki|..]; simpl; try done. intros j. rewrite Hget1.
      case_decide; subst.
      * rewrite Ht. split; [split; auto|done].
      * destruct (get_task (d_vm d) j); [|done]. split; [apply same_kind_refl|done].
    + intros i Hin. destruct (Hnew' _ Hin) as (b & k & _ & Hb). split; [by apply Hfree|by eauto].
Qed.

(** ** Joining *)

(** The fields of the joining task that stay as they were. *)
Definition same_but_joining t t' : Prop :=
  t_started t' = t_started t ∧ t_wake t' = t_wake t ∧ t_park_epoch t' = t_park_epoch t
  ∧ t_parked_on_channel t' = t_parked_on_channel t ∧ t_gather t' = t_gather t
  ∧ t_parent t' = t_parent t ∧ t_waiters t' = t_waiters t.

Lemma join_park_inv d d' c g tc tc' tg k :
  inv d → d_current d = Some c → g ≠ c →
  get_task (d_vm d) c = Some tc → get_task (d_vm d) g = Some tg →
  (∀ j, get_task (d_vm d') j = if decide (j = c) then Some tc' else
          if decide (j = g) then Some (set_t_waiters (t_waiters tg ++ [c]) tg)
          else get_task (d_vm d) j) →
  t_joining tc' = Some g → same_but_joining tc tc' →
  d_current d' = None → d_suspended d' = <[c := k]> (d_suspended d) →
  ready (d_vm d') = ready (d_vm d) → park_seq (d_vm d') = park_seq (d_vm d) →
  io_owners (d_futures d') = io_owners (d_futures d) →
  (∀ f g e, f ∈ d_futures d' → f_kind f = FutDeadline g e →
     f ∈ d_futures d ∨ f_task f = c ∧ e = t_park_epoch tc ∧ k = YJoinTimed) →
  k = YJoin ∨ k = YJoinTimed → kinds d' → inv d'.
Proof.
  intros Hinv Hc Hgc Htc Htg Hget HJg (E1 & E2 & E3 & E4 & E5 & E6 & E7) Hc' Hs Er Es Eio Hdl Hk Hki.
  destruct (current_unparked d c Hinv Hc tc Htc) as (Hj & Hch & Hga & Hw & Hab & Hst).
  split; [| | | |done].
  - rewrite Hc'. eapply places_block.
    + rewrite <-Hc. eapply places_ext; [by apply Hinv|done|]. unfold runnable. by rewrite Er, Eio.
    + view Hget; [unfold blocked; rewrite E4, E5, HJg, Hch, Hga; done|]. by rewrite Htg.
  - eapply (joins_register _ _ _ _ c g (t_waiters tg)); [by apply Hinv|done|..].
    + unfold joining_at. by rewrite Htc.
    + unfold waiters_at. by rewrite Htg.
    + view Hget. by rewrite Htg.
    + intros j. unfold waiters_at. rewrite Hget. repeat case_decide; subst; try done.
      simpl. by rewrite E7, Htc.
  - eapply gathers_ext; [by apply Hinv|..].
    + intros j p slot. unfold parent_at. rewrite Hget. repeat case_decide; subst; try done.
      * by rewrite Htc; simpl; rewrite E6.
      * by rewrite Htg.
    + view Hget; [by rewrite Htc, E5|by rewrite Htg].
  - eapply (suspensions_park d d' c tc tc' k); try done.
    + by rewrite Hget, decide_True.
    + intros j Hne. rewrite Hget, decide_False by done. case_decide; subst.
      * rewrite Htg. by split.
      * destruct (get_task (d_vm d) j); [apply same_suspension_refl|done].
    + rewrite Eio. auto.
    + by rewrite E4, Hch.
    + rewrite E5, Hga. by intros [].
Qed.

(** The registration and the saving of the slice, one after the other. *)
Lemma register_save_effect vm c g tc tg vm1 vm2 :
  current_task vm = c → g ≠ c → get_task vm c = Some tc → get_task vm g = Some tg →
  register_join vm g = Some vm1 → save_task_context vm1 c = Some vm2 →
  ready vm2 = ready vm ∧ park_seq vm2 = park_seq vm ∧ handles vm2 = handles vm
  ∧ aborted vm2 = aborted vm
  ∧ ∀ j, get_task vm2 j
         = if decide (j = c) then Some (set_t_slice (vm_live vm) (set_t_joining (Some g) tc))
           else if decide (j = g) then Some (set_t_waiters (t_waiters tg ++ [c]) tg)
           else get_task vm j.
Proof.
  intros Hc Hgc Htc Htg Hreg Hsave. unfold register_join in Hreg. rewrite Htg in Hreg. simpl in Hreg.
  rewrite Hc, (get_put _ _ _ _ _ Htg), decide_False, Htc in Hreg by done. injection Hreg as <-.
  destruct (save_effect _ _ _ Hsave) as (t & Ht & _ & Er & _ & _ & _ & Es & Eh & Ea & Eget).
  set (vm0 := put_task vm g (set_t_waiters (t_waiters tg ++ [c]) tg)) in *.
  assert (Hc0 : get_task vm0 c = Some tc)
    by (unfold vm0; by rewrite (get_put _ _ _ _ _ Htg), decide_False).
  rewrite (get_put _ _ _ _ _ Hc0), decide_True in Ht by done. injection Ht as <-.
  split_and!; try done. intros j. rewrite Eget. case_decide; [done|].
  rewrite (get_put _ _ _ _ _ Hc0), decide_False by done. unfold vm0.
  by rewrite (get_put _ _ _ _ _ Htg).
Qed.

Lemma join_inv d c g tg vm1 vm2 :
  inv d → d_current d = Some c → d_suspended d !! c = None → g ≠ c →
  get_task (d_vm d) g = Some tg → is_Some (t_handle tg) →
  register_join (d_vm d) g = Some vm1 → save_task_context vm1 c = Some vm2 →
  inv (suspends d c YJoin vm2).
Proof.
  intros Hinv Hc Hsus Hgc Htg Hh Hreg Hsave.
  destruct (current_task_full d c Hinv Hc) as [tc Htc].
  pose proof (su_running _ (inv_suspensions _ Hinv) _ Hc) as Hcur.
  destruct (register_save_effect _ _ _ _ _ _ _ Hcur Hgc Htc Htg Hreg Hsave)
    as (Er & Es & Eh & Ea & Eget).
  eapply (join_park_inv d _ c g tc _ tg YJoin); try done; [by left|by left|].
  eapply kinds_same; [by apply Hinv|..]; simpl; try done. intros j. rewrite Eget.
  repeat case_decide; subst.
  - rewrite Htc. split; [split; auto|done].
  - rewrite Htg. split; [split; auto|done].
  - destruct (get_task (d_vm d) j); [|done]. split; [apply same_kind_refl|done].
Qed.

Lemma join_timed_inv d c g tg vm1 vm2 t :
  inv d → d_current d = Some c → d_suspended d !! c = None → g ≠ c →
  get_task (d_vm d) g = Some tg → is_Some (t_handle tg) →
  register_join (d_vm d) g = Some vm1 → save_task_context vm1 c = Some vm2 →
  get_task vm2 c = Some t →
  inv (suspends (in_flight d c (FutDeadline g (t_park_epoch t))) c YJoinTimed
         (put_task vm2 c (set_t_deadline (Some (d_next_future d)) t))).
Proof.
  intros Hinv Hc Hsus Hgc Htg Hh Hreg Hsave Ht.
  destruct (current_task_full d c Hinv Hc) as [tc Htc].
  pose proof (su_running _ (inv_suspensions _ Hinv) _ Hc) as Hcur.
  destruct (register_save_effect _ _ _ _ _ _ _ Hcur Hgc Htc Htg Hreg Hsave)
    as (Er & Es & Eh & Ea & Eget).
  destruct (current_unparked d c Hinv Hc tc Htc) as (Hj & Hch & Hga & Hw & Hab & Hst).
  pose proof (current_not_runnable d c Hinv Hc) as [_ Hnio].
  assert (t = set_t_slice (vm_live (d_vm d)) (set_t_joining (Some g) tc)) as ->.
  { rewrite Eget, decide_True in Ht by done. congruence. }
  match goal with |- inv ?x => set (d' := x) end.
  set (tc' := set_t_deadline (Some (d_next_future d))
                (set_t_slice (vm_live (d_vm d)) (set_t_joining (Some g) tc))) in *.
  assert (Hget : ∀ j, get_task (d_vm d') j = if decide (j = c) then Some tc' else
            if decide (j = g) then Some (set_t_waiters (t_waiters tg ++ [c]) tg)
            else get_task (d_vm d) j).
  { intros j. unfold d'. simpl. rewrite (get_put _ _ _ _ _ Ht), Eget. by case_decide. }
  eapply (join_park_inv d d' c g tc tc' tg YJoinTimed); try done; [..|by right|].
  - unfold d'. simpl. rewrite io_owners_app. simpl. by rewrite app_nil_r.
  - intros f g' e Hf Hk. unfold d' in Hf. simpl in Hf.
    apply elem_of_app in Hf as [Hf| ->%list_elem_of_singleton]; [by left|].
    right. simpl in *. by injection Hk as <- <-.
  - eapply (kinds_add_future d d' c tc tc' (FutDeadline g (t_park_epoch tc))); try done.
    + apply Hinv.
    + by rewrite Hget, decide_True.
    + intros j Hne. rewrite Hget, decide_False by done. case_decide; subst.
      * rewrite Htg. split; [split; auto|done].
      * destruct (get_task (d_vm d) j); [|done]. split; [apply same_kind_refl|done].
Qed.

End parks.

(** ** When parked tasks are woken

    A cancellation, a signal, a counterpart on a channel: each makes tasks ready that were
    parked in one place, and leaves the others where they are. *)

Section wakes.
Context `{VmTypes}.
Implicit Types (vm : VmState) (t : Task) (d : Driver).

(** ** Suspensions *)

(** [w] was suspended in a call that now has its answer, or is to be cancelled. *)
Definition wakes_up d d' (w : TaskId) : Prop :=
  ∃ t t' k, get_task (d_vm d) w = Some t ∧ get_task (d_vm d') w = Some t'
    ∧ d_suspended d !! w = Some k ∧ answered k (t_cancel_requested t') (t_wake t')
    ∧ t_joining t' = None ∧ t_parked_on_channel t' = false ∧ t_gather t' = None
    ∧ t_started t' = t_started t ∧ t_park_epoch t' = t_park_epoch t.

(** A task that is not woken. *)
Definition stays d d' (j : TaskId) : Prop :=
  match get_task (d_vm d) j, get_task (d_vm d') j with
  | Some t, Some t' =>
      same_suspension t t' ∧ (d_current d = Some j → t_cancel_requested t' = t_cancel_requested t)
  | None, None => True
  | _, _ => False
  end.

Lemma suspensions_wake d d' ws :
  suspensions d →
  d_current d' = d_current d → d_suspended d' = d_suspended d →
  (∀ f, f ∈ d_futures d' → f ∈ d_futures d) →
  park_seq (d_vm d') = park_seq (d_vm d) → cancel_current (d_vm d') = cancel_current (d_vm d) →
  mailbox (d_vm d') = mailbox (d_vm d) → current_task (d_vm d') = current_task (d_vm d) →
  ready (d_vm d') = ready (d_vm d) ++ ws →
  (∀ w, w ∈ ws → wakes_up d d' w ∧ d_current d ≠ Some w) → (∀ j, j ∉ ws → stays d d' j) →
  suspensions d'.
Proof.
  intros [S1 S2 S3 S4 S5 S7 S6] Ec Es Ef Eseq Ecc Em Ect Er Hw Hst.
  assert (Hio : ∀ j, j ∈ io_owners (d_futures d') → j ∈ io_owners (d_futures d)).
  { intros j (f & Hf & Hk & <-)%io_owners_elem. by apply elem_of_io_owners; [apply Ef|]. }
  split; rewrite ?Ec, ?Es, ?Eseq, ?Ecc, ?Em, ?Ect; try done.
  - intros j t' Ht'. destruct (decide (j ∈ ws)) as [Hin|Hin].
    + destruct (Hw _ Hin) as [(t & t1 & k & Ht & Ht1 & Hk & Ha & HJ & Hch & Hg & Hs & He) _].
      rewrite Ht' in Ht1. injection Ht1 as <-. destruct (S1 _ _ Ht) as [F1 F2 F3 F4 F5 F6 F7 F8].
      split; rewrite ?Er, ?Es, ?HJ, ?Hch, ?Hg, ?Hs, ?He, ?Eseq, ?Hk; try done; try by intros [].
      * intros (? & ? & ? & ?)%F1. congruence.
      * set_solver.
      * by intros k' _ [= <-].
      * rewrite <-Hk. auto.
    + specialize (Hst _ Hin). unfold stays in Hst. rewrite Ht' in Hst.
      destruct (get_task (d_vm d) j) as [t|] eqn:Et; [|done]. destruct Hst as [Hss _].
      eapply task_suspended_same; [by apply S1|done|..]; rewrite ?Er, ?Es, ?Eseq; auto; try done.
      set_solver.
  - intros j Hnone. apply S2. destruct (decide (j ∈ ws)) as [Hin|Hin].
    + destruct (Hw _ Hin) as [(t & t1 & k & Ht & Ht1 & _) _]. congruence.
    + specialize (Hst _ Hin). unfold stays in Hst. rewrite Hnone in Hst.
      by destruct (get_task (d_vm d) j).
  - intros c t' Hc Ht'. assert (c ∉ ws) as Hin by (intros Hin; by apply Hw in Hin as [_ ?]).
    specialize (Hst _ Hin). unfold stays in Hst. rewrite Ht' in Hst.
    destruct (get_task (d_vm d) c) as [t|] eqn:Et; [|done]. destruct Hst as [_ Hcc].
    rewrite Hcc by done. by apply (S4 c).
  - intros c t' Hc Ht'. assert (c ∉ ws) as Hin by (intros Hin; by apply Hw in Hin as [_ ?]).
    specialize (Hst _ Hin). unfold stays in Hst. rewrite Ht' in Hst.
    destruct (get_task (d_vm d) c) as [t|] eqn:Et; [|done]. destruct Hst as [Hss _].
    rewrite (ss_epoch _ _ Hss). by apply (S7 c).
  - intros f g e Hf Hk. destruct (S6 _ _ _ (Ef _ Hf) Hk) as [He Hd]. split; [done|].
    intros t' Ht' Hep. destruct (decide (f_task f ∈ ws)) as [Hin|Hin].
    + destruct (Hw _ Hin) as [(t & t1 & k & Ht & Ht1 & _ & _ & _ & _ & _ & _ & He') _].
      apply (Hd t Ht). rewrite Ht' in Ht1. injection Ht1 as <-. congruence.
    + specialize (Hst _ Hin). unfold stays in Hst. rewrite Ht' in Hst.
      destruct (get_task (d_vm d) (f_task f)) as [t|] eqn:Et; [|done]. destruct Hst as [Hss _].
      apply (Hd t); [done|]. by rewrite <-(ss_epoch _ _ Hss).
Qed.

(** ** Kinds *)

(** Nothing but deadlines is newly aborted, and no operation in flight is lost. *)
Lemma kinds_aborts d d' :
  kinds d →
  (∀ j, match get_task (d_vm d) j, get_task (d_vm d') j with
        | Some t, Some t' =>
            same_kind t t' ∧ (t_cancel_requested t = true → t_cancel_requested t' = true)
        | None, None => True
        | _, _ => False
        end) →
  handles (d_vm d') = handles (d_vm d) → aborted (d_vm d) ⊆ aborted (d_vm d') →
  (∀ a, a ∈ aborted (d_vm d') → a ∈ aborted (d_vm d) ∨
        ∃ j t, get_task (d_vm d) j = Some t ∧ t_deadline_abort t = Some a) →
  (∀ f, f ∈ d_futures d' → f ∈ d_futures d) →
  (∀ f, f ∈ d_futures d → f_kind f = FutIo → f ∈ d_futures d') → NoDup (map f_id (d_futures d')) →
  d_next_future d' = d_next_future d → kinds d'.
Proof.
  intros [K1 K2 K3 K4 K5 K6] Hj Eh Ha Hdl Hsub Hkeep Hnd En.
  split; rewrite ?Eh, ?En; try done.
  - intros j t' Ht'. specialize (Hj j). rewrite Ht' in Hj.
    destruct (get_task (d_vm d) j) as [t|] eqn:E; [|done].
    destruct Hj as [[E1 E2 E3 E4 E5] _]. destruct (K1 _ _ E) as [T1 T2 T3 T4 T5 T6].
    split; rewrite ?E1, ?E2, ?E4, ?Eh, ?En; auto.
    + intros [?|?]%E3; auto.
    + intros a (f & ? & ? & ? & ?)%T5. exists f. auto.
    + intros a Hd. destruct E5 as [F|F]; rewrite F in Hd; [done|]. destruct (T6 _ Hd). auto.
  - intros h hd Hhd Hrun. destruct (K2 _ _ Hhd Hrun) as (t & Ht & Hth).
    specialize (Hj (h_id hd)). rewrite Ht in Hj.
    destruct (get_task (d_vm d') (h_id hd)) as [t'|]; [|done]. destruct Hj as [Hk _].
    exists t'. by rewrite (sk_handle _ _ Hk).
  - intros f Hin Hk. apply Hsub in Hin. destruct (K3 _ Hin Hk) as (t & Ht & Hab).
    specialize (Hj (f_task f)). rewrite Ht in Hj.
    destruct (get_task (d_vm d') (f_task f)) as [t'|]; [|done]. destruct Hj as [Hsk Hc].
    exists t'. split; [done|]. destruct (decide (f_id f ∈ aborted (d_vm d'))) as [Hx|Hx].
    + destruct (Hdl _ Hx) as [Ho|(j & u & Hu & Hud)]; [rewrite decide_True in Hab by done; auto|].
      destruct (tk_deadline _ _ _ (K1 _ _ Hu) _ Hud) as [_ Hno]. by destruct (Hno f Hin).
    + rewrite decide_False in Hab by set_solver. by rewrite (sk_abort _ _ Hsk).
  - intros a [?|(j & u & Hu & Hud)]%Hdl; [by apply K4|].
    by destruct (tk_deadline _ _ _ (K1 _ _ Hu) _ Hud).
  - intros f Hf%Hsub. by apply K5.
Qed.

(** ** Cancelling *)

(** A task flagged where it is; the flag of the current task is mirrored. *)
Lemma flag_inv d g t :
  inv d → get_task (d_vm d) g = Some t → d_current d ≠ Some g →
  inv (with_vm d (put_task (d_vm d) g (set_t_cancel true t))).
Proof.
  intros [Hp HJ Hg Hsu Hki] Ht Hc.
  assert (Hget : ∀ j, get_task (put_task (d_vm d) g (set_t_cancel true t)) j
            = if decide (j = g) then Some (set_t_cancel true t) else get_task (d_vm d) j)
    by (intros j; by apply (get_put _ _ _ _ _ Ht)).
  split.
  - eapply places_ext; [exact Hp| |done]. view Hget. by rewrite Ht.
  - eapply joins_ext; [exact HJ| |]; view Hget; by rewrite Ht.
  - eapply gathers_ext; [exact Hg| |]; [|view Hget; by rewrite Ht].
    intros j p slot. unfold parent_at. simpl. rewrite Hget. case_decide; [subst; by rewrite Ht|done].
  - eapply (suspensions_wake d _ []); try done.
    + simpl. by rewrite app_nil_r.
    + set_solver.
    + intros j _. unfold stays. simpl. rewrite Hget. case_decide; subst.
      * rewrite Ht. split; [by split|done].
      * destruct (get_task (d_vm d) j); [|done]. split; [apply same_suspension_refl|done].
  - eapply kinds_same; [exact Hki|..]; simpl; try done. intros j. rewrite Hget. case_decide; subst.
    + rewrite Ht. split; [split; auto|done].
    + destruct (get_task (d_vm d) j); [|done]. split; [apply same_kind_refl|done].
Qed.

Lemma flag_current_inv d c t :
  inv d → get_task (d_vm d) c = Some t → d_current d = Some c →
  inv (with_vm d (set_cancel_current true (put_task (d_vm d) c (set_t_cancel true t)))).
Proof.
  intros Hinv Ht Hc. pose proof (current_not_runnable d c Hinv Hc) as [Hnr _].
  destruct Hinv as [Hp HJ Hg [S1 S2 S3 S4 S5 S7 S6] Hki].
  assert (Hget : ∀ j, get_task (put_task (d_vm d) c (set_t_cancel true t)) j
            = if decide (j = c) then Some (set_t_cancel true t) else get_task (d_vm d) j)
    by (intros j; by apply (get_put _ _ _ _ _ Ht)).
  split.
  - eapply places_ext; [exact Hp| |done]. view Hget. by rewrite Ht.
  - eapply joins_ext; [exact HJ| |]; view Hget; by rewrite Ht.
  - eapply gathers_ext; [exact Hg| |]; [|view Hget; by rewrite Ht].
    intros j p slot. unfold parent_at. simpl. rewrite get_set_cancel, Hget.
    case_decide; [subst; by rewrite Ht|done].
  - split; simpl; try done.
    + intros j a. rewrite get_set_cancel, Hget. case_decide as Hjc.
      * intros [= <-]. subst. eapply task_suspended_same; [by apply S1|by split|done..].
      * intros Ha. eapply task_suspended_same; [by apply S1|apply same_suspension_refl|done..].
    + intros j. rewrite get_set_cancel, Hget. case_decide; [done|auto].
    + intros c' k Hc' Hk. by left.
    + intros c' a Hc'. rewrite get_set_cancel, Hget. case_decide; [by intros [= <-]|exfalso; congruence].
    + intros c' a Hc'. rewrite get_set_cancel, Hget.
      case_decide; [intros [= <-]; apply (S7 _ _ Hc Ht)|by apply S7].
    + intros f g e Hf Hk. destruct (S6 _ _ _ Hf Hk) as [He Hd]. split; [done|]. intros a.
      rewrite get_set_cancel, Hget. case_decide as Hfc; [|apply Hd]. intros [= <-]. simpl.
      rewrite Hfc in *. by apply Hd.
  - eapply kinds_same; [exact Hki|..]; simpl; try done. intros j. rewrite get_set_cancel, Hget.
    case_decide; subst.
    + rewrite Ht. split; [split; auto|done].
    + destruct (get_task (d_vm d) j); [|done]. split; [apply same_kind_refl|done].
Qed.

Lemma future_by_id (fs : list Future) f f' :
  NoDup (map f_id fs) → f ∈ fs → f' ∈ fs → f_id f = f_id f' → f = f'.
Proof.
  intros Hnd [i Hi]%list_elem_of_lookup [j Hj]%list_elem_of_lookup Heq.
  assert (i = j) as ->; [|congruence].
  eapply (NoDup_lookup _ _ _ (f_id f)); [done|..]; rewrite list_lookup_fmap.
  - by rewrite Hi.
  - by rewrite Hj, Heq.
Qed.

(** The three ways a flagged task is nudged: its operation is aborted, ... *)
Lemma nudge_io_inv d g t ah :
  inv d → get_task (d_vm d) g = Some t → t_cancel_requested t = true → t_abort_handle t = Some ah →
  inv (with_vm d (abort_opt (Some ah) (put_task (d_vm d) g (set_t_abort None t)))).
Proof.
  intros [Hp HJ Hg Hsu [K1 K2 K3 K4 K5 K6]] Ht Hcan Hah.
  set (vm' := abort_opt (Some ah) (put_task (d_vm d) g (set_t_abort None t))).
  assert (Hget : ∀ j, get_task vm' j
            = if decide (j = g) then Some (set_t_abort None t) else get_task (d_vm d) j)
    by (intros j; unfold vm'; rewrite get_abort_opt; by apply (get_put _ _ _ _ _ Ht)).
  split.
  - eapply places_ext; [exact Hp| |done]. view Hget. by rewrite Ht.
  - eapply joins_ext; [exact HJ| |]; view Hget; by rewrite Ht.
  - eapply gathers_ext; [exact Hg| |]; [|view Hget; by rewrite Ht].
    intros j p slot. unfold parent_at. simpl. rewrite Hget. case_decide; [subst; by rewrite Ht|done].
  - eapply (suspensions_wake d _ []); try done.
    + simpl. by rewrite app_nil_r.
    + set_solver.
    + intros j _. unfold stays. simpl. rewrite Hget. case_decide; subst.
      * rewrite Ht. split; [by split|done].
      * destruct (get_task (d_vm d) j); [|done]. split; [apply same_suspension_refl|done].
  - destruct (tk_abort _ _ _ (K1 _ _ Ht) _ Hah) as (fa & Hfa & Hida & Hta & Hka).
    split; simpl; try done.
    + intros j a. rewrite Hget. case_decide as Hj; [intros [= <-]; subst j|].
      * destruct (K1 _ _ Ht). by split.
      * intros [? ? ? ? ? ?]%K1. by split.
    + intros h hd Hhd Hrun. destruct (K2 _ _ Hhd Hrun) as (a & Ha & Hh). rewrite Hget.
      case_decide as Hj; [|by exists a]. rewrite Hj in Ha. eexists. split; [done|]. simpl. congruence.
    + intros f Hf Hk. destruct (K3 _ Hf Hk) as (a & Ha & Hd). rewrite Hget.
      destruct (decide (f_id f = ah)) as [Hid|Hid].
      * assert (f = fa) as -> by (by apply (future_by_id _ _ _ K6); [| |rewrite Hida]).
        rewrite decide_True by done. eexists. split; [done|]. by rewrite decide_True by set_solver.
      * assert (f_task f ≠ g ∨ f_id f ∈ aborted (d_vm d)) as Hcase.
        { destruct (decide (f_id f ∈ aborted (d_vm d))); [by right|]. left. intros Hfg.
          rewrite Hfg, Ht in Ha. injection Ha as <-. congruence. }
        destruct (decide (f_task f = g)) as [Hfg|Hfg].
        -- destruct Hcase as [?|Hin]; [done|]. eexists. split; [done|].
           rewrite decide_True by set_solver. exact Hcan.
        -- exists a. split; [done|]. destruct (decide (f_id f ∈ aborted (d_vm d))).
           ++ by rewrite decide_True by set_solver.
           ++ by rewrite decide_False by set_solver.
    + intros a [->%elem_of_singleton|Ha]%elem_of_union; [rewrite <-Hida; by apply K5|by apply K4].
Qed.

(** ... it leaves the waiters of the task it joins, ... *)
Lemma elem_of_retained (ws : list nat) g w :
  w ∈ List.filter (λ w, negb (Nat.eqb w g)) ws ↔ w ∈ ws ∧ w ≠ g.
Proof.
  rewrite !list_elem_of_In, filter_In, negb_true_iff, Nat.eqb_neq. done.
Qed.

Lemma NoDup_retained (ws : list nat) g : NoDup ws → NoDup (List.filter (λ w, negb (Nat.eqb w g)) ws).
Proof. rewrite !NoDup_ListNoDup. apply List.NoDup_filter. Qed.

(** What leaving a join does: [t'] is the task that leaves. *)
Definition left_join vm g joined t' tj vm' : Prop :=
  ∀ j, get_task vm' j =
    if decide (j = g) then Some t' else
    if decide (j = joined)
    then Some (set_t_waiters (List.filter (λ w, negb (Nat.eqb w g)) (t_waiters tj)) tj)
    else get_task vm j.

Lemma joining_task d g t joined :
  inv d → get_task (d_vm d) g = Some t → t_joining t = Some joined →
  d_current d ≠ Some g ∧ t_parked_on_channel t = false ∧ t_gather t = None ∧ g ≠ joined
  ∧ ∃ tj, get_task (d_vm d) joined = Some tj ∧ g ∈ t_waiters tj.
Proof.
  intros Hinv Ht HJt. split.
  { intros Hc. destruct (current_unparked d g Hinv Hc t Ht) as [? _]. congruence. }
  destruct Hinv as [Hp HJ _ _ _].
  pose proof (pl_count _ _ _ Hp g (blocked t)) as Hn. unfold blocked_at in Hn.
  rewrite Ht in Hn. specialize (Hn eq_refl). unfold blocked in Hn.
  rewrite HJt, (bool_decide_true (is_Some (Some _))) in Hn by eauto. simpl in Hn.
  split; [destruct (t_parked_on_channel t); [|done]; simpl in Hn; case_decide; lia|].
  split.
  { destruct (t_gather t); [|done]. rewrite bool_decide_true in Hn by eauto. simpl in Hn.
    case_decide; lia. }
  assert (joining_at (d_vm d) g = Some joined) as HJg by (unfold joining_at; by rewrite Ht).
  split; [intros <-; by destruct (jn_self _ _ HJ g)|].
  destruct (jn_listed _ _ HJ g joined HJg) as (ws & Hws & Hgws). unfold waiters_at in Hws.
  destruct (get_task (d_vm d) joined) as [tj|]; [|done]. injection Hws as <-. by exists tj.
Qed.

Lemma leave_join_inv d d' g joined t w tj :
  inv d → get_task (d_vm d) g = Some t → t_joining t = Some joined →
  get_task (d_vm d) joined = Some tj →
  left_join (d_vm d) g joined (set_t_wake w (set_t_deadline None (set_t_joining None t))) tj
    (d_vm d') →
  (∀ k, d_suspended d !! g = Some k → answered k (t_cancel_requested t) w) →
  ready (d_vm d') = ready (d_vm d) ++ [g] → park_seq (d_vm d') = park_seq (d_vm d) →
  cancel_current (d_vm d') = cancel_current (d_vm d) → mailbox (d_vm d') = mailbox (d_vm d) →
  current_task (d_vm d') = current_task (d_vm d) → handles (d_vm d') = handles (d_vm d) →
  aborted (d_vm d) ⊆ aborted (d_vm d') →
  (∀ a, a ∈ aborted (d_vm d') → a ∈ aborted (d_vm d) ∨ t_deadline_abort t = Some a) →
  d_current d' = d_current d → d_suspended d' = d_suspended d →
  (∀ f, f ∈ d_futures d' → f ∈ d_futures d) →
  (∀ f, f ∈ d_futures d → f_kind f = FutIo → f ∈ d_futures d') → NoDup (map f_id (d_futures d')) →
  io_owners (d_futures d') ≡ₚ io_owners (d_futures d) →
  d_next_future d' = d_next_future d → inv d'.
Proof.
  intros Hinv Ht HJt Htj Hget Hans Er Es Ecc Em Ect Eh Ha Hdl Ec Esus Hfsub Hfkeep Hnd Hio En.
  destruct (joining_task d g t joined Hinv Ht HJt) as (Hnc & Hch & Hga & Hgj & tj' & Htj' & Hgws).
  rewrite Htj in Htj'. injection Htj' as <-.
  destruct Hinv as [Hp HJ Hg Hsu Hki]. unfold left_join in Hget.
  split.
  - rewrite Ec. eapply (places_wakes _ _ _ _ _ [g]); [exact Hp|apply NoDup_singleton|..].
    + intros x ->%list_elem_of_singleton. unfold blocked_at. rewrite Ht. simpl. unfold blocked.
      rewrite HJt, Hch, Hga, bool_decide_true by eauto. done.
    + intros j. rewrite decide_singleton. unfold blocked_at. rewrite Hget. repeat case_decide; subst.
      * simpl. unfold blocked. simpl. by rewrite Hch, Hga.
      * by rewrite Htj.
      * done.
    + unfold runnable. rewrite Er, Hio. apply enqueue_perm.
  - eapply (joins_drop _ _ _ _ g joined (t_waiters tj) _ HJ).
    + unfold joining_at. by rewrite Ht.
    + unfold waiters_at. by rewrite Htj.
    + apply elem_of_retained.
    + apply NoDup_retained.
    + view Hget. by rewrite Htj.
    + view Hget. by rewrite Ht.
  - eapply gathers_ext; [exact Hg|..].
    + intros j p slot. unfold parent_at. rewrite Hget. repeat case_decide; subst; try done.
      * by rewrite Ht.
      * by rewrite Htj.
    + view Hget; [by rewrite Ht|by rewrite Htj].
  - eapply (suspensions_wake d d' [g]); try done.
    + intros x ->%list_elem_of_singleton. split; [|done]. destruct (ts_join _ _ _ (su_task _ Hsu _ _ Ht)) as [Hk|Hk]; [by eexists|..].
      all: eexists t, _, _; split_and!; [done|by rewrite Hget, decide_True|done|simpl; by apply Hans|..];
        done.
    + intros j Hj. unfold stays. rewrite Hget, decide_False by set_solver. case_decide; subst.
      * rewrite Htj. split; [by split|done].
      * destruct (get_task (d_vm d) j); [|done]. split; [apply same_suspension_refl|done].
  - eapply (kinds_aborts d); try done.
    + intros j. rewrite Hget. repeat case_decide; subst.
      * rewrite Ht. split; [split; auto|done].
      * rewrite Htj. split; [split; simpl; auto|done]. intros Hne. left. intros Hnil.
        by rewrite Hnil in Hne.
      * destruct (get_task (d_vm d) j); [|done]. split; [apply same_kind_refl|done].
    + intros a [?|?]%Hdl; [by left|right; by eauto].
Qed.

(** The retraction of [nudge_cancelled] and the timeout of [deliver_deadline] leave a join the
    same way. *)
Lemma drop_waiter_effect vm joined g t' tj j :
  get_task vm g = Some t' → g ≠ joined → get_task vm joined = Some tj →
  get_task (drop_waiter vm joined g) j =
    if decide (j = joined)
    then Some (set_t_waiters (List.filter (λ w, negb (Nat.eqb w g)) (t_waiters tj)) tj)
    else get_task vm j.
Proof.
  intros Hg Hne Hj. unfold drop_waiter. rewrite get_update. case_decide; [|done].
  subst. by rewrite Hj.
Qed.

Lemma drop_waiter_rest vm joined g : same_rest vm (drop_waiter vm joined g).
Proof. apply update_rest. Qed.

Lemma nudge_join_inv d g t joined :
  inv d → get_task (d_vm d) g = Some t → t_cancel_requested t = true → t_wake t = None →
  t_joining t = Some joined →
  let vm := put_task (d_vm d) g (set_t_deadline None (set_t_joining None t)) in
  inv (with_vm d (push_ready (drop_waiter (abort_opt (t_deadline_abort t) vm) joined g) g)).
Proof.
  intros Hinv Ht Hcan Hw HJt vm.
  destruct (joining_task d g t joined Hinv Ht HJt) as (Hnc & Hch & Hga & Hgj & tj & Htj & _).
  destruct (abort_opt_rest (t_deadline_abort t) vm) as (Er & Ect & Em & Ecc & Es & Eh & El & Ea).
  destruct (drop_waiter_rest (abort_opt (t_deadline_abort t) vm) joined g)
    as (_ & Er' & Ect' & Em' & Ecc' & Es' & _ & Eh' & Ea').
  set (t' := set_t_deadline None (set_t_joining None t)) in *.
  assert (Hget : ∀ j, get_task (abort_opt (t_deadline_abort t) vm) j
            = if decide (j = g) then Some t' else get_task (d_vm d) j)
    by (intros j; rewrite get_abort_opt; by apply (get_put _ _ _ _ _ Ht)).
  assert (t' = set_t_wake None t') as Ht' by (unfold t'; destruct t; simpl in *; by rewrite Hw).
  eapply (leave_join_inv d _ g joined t None tj); try done; simpl;
    try by first [rewrite Er', Er|rewrite Ect', Ect|rewrite Em', Em|rewrite Ecc', Ecc
                 |rewrite Es', Es|rewrite Eh', Eh].
  - intros j. simpl. rewrite get_push_ready, (drop_waiter_effect _ _ _ t' tj), Hget; try done.
    + repeat case_decide; subst; try done. unfold t' in Ht'. by rewrite <-Ht'.
    + by rewrite Hget, decide_True.
    + by rewrite Hget, decide_False.
  - intros k _. by left.
  - rewrite Ea', Ea. subst vm. simpl. set_solver.
  - intros a. rewrite Ea', Ea. subst vm. simpl.
    destruct (t_deadline_abort t); set_solver.
  - apply Hinv.
Qed.

(** ... or its park on a channel is over, as when a counterpart wakes it. *)
Lemma unpark_channel_inv d g t w :
  inv d → get_task (d_vm d) g = Some t → t_parked_on_channel t = true →
  answered YChannel (t_cancel_requested t) w →
  inv (with_vm d (push_ready (put_task (d_vm d) g (set_t_wake w (set_t_parked false t))) g)).
Proof.
  intros Hinv Ht Hch Hans.
  assert (Hnc : d_current d ≠ Some g).
  { intros Hc. destruct (current_unparked d g Hinv Hc t Ht) as (_ & ? & _). congruence. }
  destruct Hinv as [Hp HJ Hg Hsu Hki].
  assert (t_joining t = None ∧ t_gather t = None) as [HJt Hga].
  { pose proof (pl_count _ _ _ Hp g (blocked t)) as Hn. unfold blocked_at in Hn.
    rewrite Ht in Hn. specialize (Hn eq_refl). unfold blocked in Hn. rewrite Hch in Hn.
    split; [destruct (t_joining t)|destruct (t_gather t)]; try done;
      rewrite (bool_decide_true (is_Some (Some _))) in Hn by eauto; simpl in Hn; case_decide; lia. }
  set (vm' := push_ready _ g).
  assert (Hget : ∀ j, get_task vm' j = if decide (j = g)
            then Some (set_t_wake w (set_t_parked false t)) else get_task (d_vm d) j)
    by (intros j; by apply (get_put _ _ _ _ _ Ht)).
  split.
  - eapply (places_wakes _ _ _ _ _ [g]); [exact Hp|apply NoDup_singleton|..].
    + intros x ->%list_elem_of_singleton. unfold blocked_at. rewrite Ht. simpl. unfold blocked.
      by rewrite HJt, Hch, Hga.
    + intros j. rewrite decide_singleton. unfold blocked_at. simpl. rewrite Hget. case_decide; [|done].
      simpl. unfold blocked. simpl. by rewrite HJt, Hga.
    + unfold runnable. simpl. apply enqueue_perm.
  - eapply joins_ext; [exact HJ| |]; view Hget; by rewrite Ht.
  - eapply gathers_ext; [exact Hg| |]; [|view Hget; by rewrite Ht].
    intros j p slot. unfold parent_at. simpl. rewrite Hget. case_decide; [subst; by rewrite Ht|done].
  - eapply (suspensions_wake d _ [g]); try done.
    + intros x ->%list_elem_of_singleton. split; [|done].
      exists t, (set_t_wake w (set_t_parked false t)), YChannel. simpl.
      split_and!; try done; [by rewrite Hget, decide_True|].
      by apply (ts_channel _ _ _ (su_task _ Hsu _ _ Ht)).
    + intros j Hj. unfold stays. simpl. rewrite Hget, decide_False by set_solver.
      destruct (get_task (d_vm d) j); [|done]. split; [apply same_suspension_refl|done].
  - eapply kinds_same; [exact Hki|..]; simpl; try done. intros j. rewrite Hget. case_decide; subst.
    + rewrite Ht. split; [split; auto|done].
    + destruct (get_task (d_vm d) j); [|done]. split; [apply same_kind_refl|done].
Qed.

Lemma nudge_inv d g t :
  inv d → get_task (d_vm d) g = Some t → t_cancel_requested t = true →
  inv (with_vm d (nudge_cancelled (d_vm d) g)).
Proof.
  intros Hinv Ht Hcan. unfold nudge_cancelled. rewrite Ht.
  destruct (t_abort_handle t) as [ah|] eqn:Hah; [by apply nudge_io_inv|].
  destruct (t_wake t) eqn:Hw; [by destruct d|].
  destruct (t_joining t) as [joined|] eqn:HJt; [by apply nudge_join_inv|].
  destruct (t_parked_on_channel t) eqn:Hch; [|by destruct d].
  assert (set_t_parked false t = set_t_wake None (set_t_parked false t)) as ->
    by (destruct t; simpl in *; by rewrite Hw).
  apply unpark_channel_inv; try done. by left.
Qed.

Lemma flag_and_nudge_inv d g t :
  inv d → get_task (d_vm d) g = Some t → d_current d ≠ Some g →
  inv (with_vm d (nudge_cancelled (put_task (d_vm d) g (set_t_cancel true t)) g)).
Proof.
  intros Hinv Ht Hc. pose proof (flag_inv d g t Hinv Ht Hc) as Hinv'.
  apply (nudge_inv (with_vm d _) g (set_t_cancel true t) Hinv'); [|done].
  simpl. by rewrite (get_put _ _ _ _ _ Ht), decide_True.
Qed.

Lemma request_cancel_inv d c g :
  inv d → d_current d = Some c → inv (with_vm d (request_cancel (d_vm d) g)).
Proof.
  intros Hinv Hc. unfold request_cancel. destruct (get_task (d_vm d) g) as [t|] eqn:Ht; [|by destruct d].
  simpl. rewrite (su_running _ (inv_suspensions _ Hinv) _ Hc). destruct (Nat.eqb_spec g c) as [->|Hne].
  - by apply flag_current_inv.
  - apply flag_and_nudge_inv; [done..|]. congruence.
Qed.

Lemma signal_inv d g :
  inv d →
  inv (with_vm d (request_cancel_from_driver (d_vm d) g (bool_decide (d_current d = Some g)))).
Proof.
  intros Hinv. unfold request_cancel_from_driver.
  destruct (get_task (d_vm d) g) as [t|] eqn:Ht; [|by destruct d]. case_bool_decide as Hc.
  - by apply flag_current_inv.
  - by apply flag_and_nudge_inv.
Qed.

Lemma wake_grant_inv d g w :
  inv d → channel_wake w = true → grant_live (d_vm d) g = true →
  inv (with_vm d (wake_channel_task (d_vm d) g w)).
Proof.
  intros Hinv Hw Hl. unfold grant_live in Hl. unfold wake_channel_task.
  destruct (get_task (d_vm d) g) as [t|] eqn:Ht; [|done].
  apply unpark_channel_inv; try done. right. by eexists.
Qed.

Lemma wake_channel_inv d g epoch w :
  inv d → channel_wake w = true → channel_waiter_live (d_vm d) g epoch = true →
  inv (with_vm d (wake_channel_task (d_vm d) g w)).
Proof.
  intros Hinv Hw Hl. apply wake_grant_inv; [done..|].
  unfold channel_waiter_live in Hl. unfold grant_live.
  destruct (get_task (d_vm d) g) as [t|]; [|done].
  by apply andb_true_iff in Hl as [[Hch _]%andb_true_iff _].
Qed.

End wakes.
