(* ===== verification/SchedEnds.v ===== *)
(** * The invariant is preserved by the driver's own moves

    A completion is delivered, a ready task becomes current, the current task ends. *)
From stdpp Require Import base numbers list gmap strings.
From stdpp Require Import options.
From S2P Require Import Prelude Sched Driver SchedEffects SchedInv SchedParks.
#[local] Set Default Proof Using "Type*".
#[local] Set Warnings "-clear-no-such-hyp".

Section moves.
Context `{VmTypes}.
Implicit Types (vm : VmState) (t : Task) (d : Driver).

(** ** Deliveries *)

Definition delivered d vm i : Driver :=
  mkDriver vm (d_current d) (delete i (d_futures d)) (d_next_future d) (d_suspended d)
    (d_signal_sent d) (d_ended d).

Lemma io_owners_perm fs fs' : fs ≡ₚ fs' → io_owners fs ≡ₚ io_owners fs'.
Proof.
  unfold io_owners. induction 1 as [|f l1 l2|f1 f2 l|l1 l2 l3]; simpl; try done.
  - destruct (is_io f); simpl; by rewrite ?IHPermutation.
  - destruct (is_io f1), (is_io f2); simpl; try done. by rewrite Permutation_swap.
  - by etrans.
Qed.

Lemma io_owners_delete fs i f :
  fs !! i = Some f →
  io_owners fs ≡ₚ (if is_io f then f_task f :: io_owners (delete i fs) else io_owners (delete i fs)).
Proof.
  intros Hi%delete_Permutation. rewrite (io_owners_perm _ _ Hi). unfold io_owners. simpl.
  by destruct (is_io f).
Qed.

Lemma futures_deleted fs i f :
  fs !! i = Some f → NoDup (map f_id fs) →
  (∀ f', f' ∈ delete i fs → f' ∈ fs) ∧ (∀ f', f' ∈ fs → f' ≠ f → f' ∈ delete i fs)
  ∧ NoDup (map f_id (delete i fs)).
Proof.
  intros Hi%delete_Permutation Hnd. split_and!.
  - intros f'. rewrite Hi at 2. by right.
  - intros f'. rewrite Hi at 1. rewrite elem_of_cons. naive_solver.
  - assert (map f_id fs ≡ₚ map f_id (f :: delete i fs)) as Hp by (by apply fmap_Permutation).
    rewrite Hp in Hnd. by apply NoDup_cons in Hnd as [_ Hnd].
Qed.

Lemma deliver_io_inv d i f r vm' :
  inv d → d_futures d !! i = Some f → f_kind f = FutIo → deliver (d_vm d) f r = Some vm' →
  inv (delivered d vm' i).
Proof.
  intros Hinv Hi Hk Hdel.
  assert (Hf : f ∈ d_futures d) by (by eapply list_elem_of_lookup_2).
  pose proof (elem_of_io_owners _ _ Hf Hk) as Hown.
  destruct Hinv as [Hp HJ Hg Hsu [K1 K2 K3 K4 K5 K6]].
  destruct (futures_deleted _ _ _ Hi K6) as (Hsub & Hkeep & Hnd).
  pose proof (io_owners_delete _ _ _ Hi) as Hio. unfold is_io in Hio. rewrite Hk in Hio.
  unfold deliver in Hdel. rewrite Hk in Hdel. destruct (K3 _ Hf Hk) as (t & Ht & Hab).
  rewrite Ht in Hdel. simpl in Hdel. injection Hdel as <-.
  set (t' := if decide (f_id f ∈ aborted (d_vm d)) then set_t_abort None t
             else set_t_wake (Some (WIo r)) (set_t_abort None t)) in *.
  set (vm' := push_ready _ (f_task f)).
  assert (Hget : ∀ j, get_task vm' j = if decide (j = f_task f) then Some t' else get_task (d_vm d) j)
    by (intros j; by apply (get_put _ _ _ _ _ Ht)).
  assert (Hsame : blocked t' = blocked t ∧ t_joining t' = t_joining t ∧ t_waiters t' = t_waiters t
            ∧ t_parent t' = t_parent t ∧ t_gather t' = t_gather t
            ∧ t_cancel_requested t' = t_cancel_requested t ∧ t_handle t' = t_handle t
            ∧ t_abort_handle t' = None ∧ t_deadline_abort t' = t_deadline_abort t
            ∧ t_started t' = t_started t ∧ t_park_epoch t' = t_park_epoch t
            ∧ t_parked_on_channel t' = t_parked_on_channel t).
  { unfold t'. case_decide; by split_and!. }
  assert (Hans : answered YIo (t_cancel_requested t') (t_wake t')).
  { unfold t'. case_decide; [left; by simpl|right; eexists; by split]. }
  clear Hab. clearbody t'.
  destruct Hsame as (E1 & E2 & E3 & E4 & E5 & E6 & E7 & E8 & E9 & E10 & E11 & E12).
  pose proof (ts_io _ _ _ (su_task _ Hsu _ _ Ht) Hown) as Hsus.
  assert (Hrun : runnable d ≡ₚ runnable (delivered d vm' i)).
  { unfold runnable. simpl. rewrite Hio. by rewrite <-app_assoc. }
  assert (Hnc : d_current d ≠ Some (f_task f)).
  { intros Hc. destruct (pl_cur _ _ _ Hp _ Hc) as [_ []]. unfold runnable. set_solver. }
  assert (Hb : blocked t = 0).
  { pose proof (pl_count _ _ _ Hp (f_task f) (blocked t)) as Hn. unfold blocked_at in Hn.
    rewrite Ht in Hn. specialize (Hn eq_refl). rewrite decide_True in Hn; [done|].
    right. unfold runnable. set_solver. }
  assert (t_joining t = None ∧ t_parked_on_channel t = false ∧ t_gather t = None) as (HJt & Hch & Hga).
  { unfold blocked in Hb. split_and!.
    - destruct (t_joining t); [|done]. rewrite bool_decide_true in Hb by eauto. simpl in Hb. lia.
    - destruct (t_parked_on_channel t); [|done]. simpl in Hb. lia.
    - destruct (t_gather t); [|done]. rewrite (bool_decide_true (is_Some (Some _))) in Hb by eauto.
      simpl in Hb. lia. }
  split; simpl.
  - eapply places_ext; [exact Hp| |by symmetry]. view Hget. by rewrite Ht, E1.
  - eapply joins_ext; [exact HJ| |]; view Hget; by rewrite Ht, ?E2, ?E3.
  - eapply gathers_ext; [exact Hg| |].
    + intros j p slot. unfold parent_at. rewrite Hget. case_decide; [|done].
      subst. rewrite Ht. simpl. by rewrite E4.
    + view Hget. by rewrite Ht, E5.
  - eapply (suspensions_wake d (delivered d vm' i) [f_task f]); try done.
    + intros x ->%list_elem_of_singleton. split; [|done].
      exists t, t', YIo. simpl. rewrite Hget, decide_True by done.
      split_and!; try done; congruence.
    + intros j Hj. unfold stays. simpl. rewrite Hget, decide_False by set_solver.
      destruct (get_task (d_vm d) j); [|done]. split; [apply same_suspension_refl|done].
  - assert (Hother : ∀ f', f' ∈ delete i (d_futures d) → f_kind f' = FutIo → f_task f' ≠ f_task f).
    { intros f' Hf' Hk' Heq. pose proof (pl_nodup _ _ _ Hp) as Hn. unfold runnable in Hn.
      rewrite Hio in Hn. apply NoDup_app in Hn as (_ & _ & Hn). apply NoDup_cons in Hn as [Hn _].
      apply Hn. rewrite <-Heq. by apply elem_of_io_owners. }
    split; simpl; try done.
    + intros j a. rewrite Hget. case_decide as Hj.
      * intros [= <-]. subst j. destruct (K1 _ _ Ht) as [T1 T2 T3 T4 T5 T6].
        split; rewrite ?E3, ?E4, ?E7, ?E8, ?E9; auto; [done|].
        intros a Ha. destruct (T6 _ Ha). auto.
      * intros Ha. destruct (K1 _ _ Ha) as [T1 T2 T3 T4 T5 T6]. split; auto.
        -- intros n (fa & Hfa & ? & Hta & ?)%T5. exists fa. split; [|done]. simpl.
           apply Hkeep; [done|]. congruence.
        -- intros n Hn. destruct (T6 _ Hn). auto.
    + intros h hd Hhd Hr. destruct (K2 _ _ Hhd Hr) as (a & Ha & Hh). rewrite Hget.
      case_decide as Hj; [|by exists a]. rewrite Hj in Ha. exists t'. split; [done|]. congruence.
    + intros f' Hf' Hk'. rewrite Hget, decide_False by (by apply Hother). by apply K3; [apply Hsub|].
    + intros f' Hf'. by apply K5, Hsub.
Qed.

(** ** Deadlines *)

(** A deadline that comes too late changes nothing. *)
Lemma late_deadline_inv d i f g e :
  inv d → d_futures d !! i = Some f → f_kind f = FutDeadline g e → inv (delivered d (d_vm d) i).
Proof.
  intros Hinv Hi Hk. destruct Hinv as [Hp HJ Hg Hsu Hki].
  destruct (futures_deleted _ _ _ Hi (ki_ids _ Hki)) as (Hsub & Hkeep & Hnd).
  pose proof (io_owners_delete _ _ _ Hi) as Hio. unfold is_io in Hio. rewrite Hk in Hio.
  split; [|done..| |].
  - eapply places_ext; [exact Hp|done|]. unfold runnable. simpl. by rewrite Hio.
  - eapply (suspensions_wake d _ []); try done.
    + simpl. by rewrite app_nil_r.
    + set_solver.
    + intros j _. unfold stays. simpl. destruct (get_task (d_vm d) j); [|done].
      split; [apply same_suspension_refl|done].
  - eapply (kinds_aborts d); try done.
    + intros j. simpl. destruct (get_task (d_vm d) j); [|done]. split; [apply same_kind_refl|done].
    + simpl. auto.
    + simpl. intros f' ? ?. apply Hkeep; [done|congruence].
Qed.

Lemma deliver_deadline_inv d i f g e :
  inv d → d_futures d !! i = Some f → f_kind f = FutDeadline g e →
  inv (delivered d (deliver_deadline (d_vm d) (f_task f) g e) i).
Proof.
  intros Hinv Hi Hk.
  assert (Hf : f ∈ d_futures d) by (by eapply list_elem_of_lookup_2).
  pose proof Hinv as [Hp HJ Hg Hsu Hki].
  destruct (futures_deleted _ _ _ Hi (ki_ids _ Hki)) as (Hsub & Hkeep & Hnd).
  assert (Hkeep' : ∀ f', f' ∈ d_futures d → f_kind f' = FutIo → f' ∈ delete i (d_futures d))
    by (intros f' ? ?; apply Hkeep; [done|congruence]).
  pose proof (io_owners_delete _ _ _ Hi) as Hio. unfold is_io in Hio. rewrite Hk in Hio.
  unfold deliver_deadline. destruct (get_task (d_vm d) (f_task f)) as [t|] eqn:Ht.
  2: by eapply late_deadline_inv.
  destruct (_ && _ && _) eqn:Hl; [|by eapply late_deadline_inv].
  apply andb_true_iff in Hl as [[HJt%bool_decide_eq_true He]%andb_true_iff Hw].
  apply N.eqb_eq in He. apply negb_true_iff, bool_decide_eq_false in Hw.
  apply eq_None_not_Some in Hw.
  destruct (joining_task d (f_task f) t g Hinv Ht HJt) as (Hnc & Hch & Hga & Hgj & tj & Htj & _).
  destruct (drop_waiter_rest (d_vm d) g (f_task f)) as (_ & Er & Ect & Em & Ecc & Es & _ & Eh & Ea).
  set (upd := λ u, set_t_wake (Some WTimedOut) (set_t_deadline None (set_t_joining None u))).
  destruct (update_rest (drop_waiter (d_vm d) g (f_task f)) (f_task f) upd)
    as (_ & Er' & Ect' & Em' & Ecc' & Es' & _ & Eh' & Ea').
  eapply (leave_join_inv d _ (f_task f) g t (Some WTimedOut) tj); try done; simpl;
    try by first [rewrite Er', Er|rewrite Ect', Ect|rewrite Em', Em|rewrite Ecc', Ecc
                 |rewrite Es', Es|rewrite Eh', Eh|rewrite Ea', Ea].
  - intros j. rewrite get_push_ready, get_update, (drop_waiter_effect _ _ _ t tj) by done.
    repeat case_decide; subst; try done. by rewrite Ht.
  - intros k Hsus. right. exists WTimedOut. split; [done|].
    destruct (su_deadline _ Hsu _ _ _ Hf Hk) as [_ Hd]. destruct (Hd _ Ht He) as [_ Hsus'].
    rewrite Hsus in Hsus'. injection Hsus' as ->. done.
  - intros a. rewrite Ea', Ea. by left.
Qed.

Lemma deliver_inv d i f r vm' :
  inv d → d_futures d !! i = Some f → deliver (d_vm d) f r = Some vm' → inv (delivered d vm' i).
Proof.
  intros Hinv Hi Hdel. destruct (f_kind f) as [|g e] eqn:Hk; [by eapply deliver_io_inv|].
  unfold deliver in Hdel. rewrite Hk in Hdel. injection Hdel as <-. by eapply deliver_deadline_inv.
Qed.

Lemma deliver_total d i f r :
  inv d → d_futures d !! i = Some f → is_Some (deliver (d_vm d) f r).
Proof.
  intros Hinv Hi%list_elem_of_lookup_2. unfold deliver. destruct (f_kind f) eqn:Hk; [|by eexists].
  destruct (ki_abort _ (inv_kinds _ Hinv) _ Hi Hk) as (t & Ht & _). rewrite Ht. by eexists.
Qed.

(** ** Picking *)

Section pick.
Context (start_block : Block → Context → Context).

Definition picked d vm id : Driver :=
  mkDriver vm (Some id) (d_futures d) (d_next_future d) (d_suspended d) (d_signal_sent d)
    (d_ended d).

(** The task after the load. *)
Definition loaded vm t : Task :=
  let t := unpark (park_seq vm + 1) t in
  if t_started t then set_t_wake None (set_t_slice (emptied (t_slice t)) t)
  else set_t_started true t.

Lemma load_effect vm id t :
  get_task vm id = Some t → (t_started t = false → is_Some (t_block t) ∧ t_wake t = None) →
  ∃ vm', load_task_context start_block vm id = Some vm' ∧ ready vm' = ready vm
    ∧ current_task vm' = id ∧ mailbox vm' = t_wake t ∧ cancel_current vm' = t_cancel_requested t
    ∧ park_seq vm' = (park_seq vm + 1)%N ∧ handles vm' = handles vm ∧ aborted vm' = aborted vm
    ∧ ∀ j, get_task vm' j = if decide (j = id) then Some (loaded vm t) else get_task vm j.
Proof.
  intros Ht Hfr. unfold load_task_context, loaded. rewrite Ht. simpl.
  destruct (t_started t) eqn:Hs.
  - eexists. split; [done|]. simpl. split_and!; try done. intros j. by apply (get_put _ _ _ _ _ Ht).
  - destruct (Hfr eq_refl) as [[b ->] Hw]. simpl. eexists. split; [done|]. simpl.
    split_and!; try done. intros j. by apply (get_put _ _ _ _ _ Ht).
Qed.

Lemma pick_suspensions d vm' id t t' :
  suspensions d → get_task (d_vm d) id = Some t → id ∈ ready (d_vm d) →
  get_task vm' id = Some t' → (∀ j, j ≠ id → get_task vm' j = get_task (d_vm d) j) →
  (∀ j, j ∈ ready vm' → j ∈ ready (d_vm d)) →
  (∀ j, j ≠ id → j ∈ ready (d_vm d) → j ∈ ready vm') → (id ∉ ready vm') →
  (id ∉ io_owners (d_futures d)) →
  current_task vm' = id → mailbox vm' = t_wake t → cancel_current vm' = t_cancel_requested t →
  park_seq vm' = (park_seq (d_vm d) + 1)%N →
  t_started t' = true → t_wake t' = None → t_joining t' = None → t_parked_on_channel t' = false →
  t_gather t' = t_gather t → t_cancel_requested t' = t_cancel_requested t →
  t_park_epoch t' = (park_seq (d_vm d) + 1)%N →
  suspensions (picked d vm' id).
Proof.
  intros [S1 S2 S3 S4 S5 S7 S6] Ht Hin Ht' Hoth Hr1 Hr2 Hnr Hnio Ec Em Ecc Es F1 F2 F3 F4 F5 F6 F7.
  destruct (S1 _ _ Ht) as [H1 H2 H3 H4 H5 H6 H7 H8]. split; simpl.
  - intros j a Ha. destruct (decide (j = id)) as [->|Hne].
    + rewrite Ht' in Ha. injection Ha as <-.
      split; simpl; rewrite ?F1, ?F2, ?F3, ?F4, ?F5, ?F7, ?Es; try done; by intros [].
    + rewrite Hoth in Ha by done.
      eapply task_suspended_same; [by apply S1|apply same_suspension_refl|..]; simpl; try done.
      * split; [apply Hr1|by apply Hr2].
      * rewrite Es. lia.
  - intros j Hj. apply S2. destruct (decide (j = id)) as [->|Hne]; [congruence|]. by rewrite <-Hoth.
  - intros c k [= <-] Hk. rewrite Ecc, Em. by apply H3.
  - intros c a [= <-] Ha. rewrite Ht' in Ha. injection Ha as <-. by rewrite Ecc.
  - intros c [= <-]. done.
  - intros c a [= <-] Ha. rewrite Ht' in Ha. injection Ha as <-. rewrite F7. lia.
  - intros f g e Hf Hk. destruct (S6 _ _ _ Hf Hk) as [He Hd]. rewrite Es. split; [lia|].
    intros a Ha Hep. destruct (decide (f_task f = id)) as [Hid|Hne].
    + rewrite Hid, Ht' in Ha. injection Ha as <-. lia.
    + rewrite Hoth in Ha by done. destruct (Hd _ Ha Hep) as [_ ?].
      split; [congruence|done].
Qed.

Lemma pick_inv d idx id :
  inv d → d_current d = None → ready (d_vm d) !! idx = Some id →
  ∃ vm', load_task_context start_block (set_ready (delete idx (ready (d_vm d))) (d_vm d)) id
         = Some vm' ∧ inv (picked d vm' id).
Proof.
  intros Hinv Hc Hidx. pose proof (delete_Permutation _ _ _ Hidx) as Hperm.
  assert (Hin : id ∈ ready (d_vm d)) by (by eapply list_elem_of_lookup_2).
  destruct Hinv as [Hp HJ Hg Hsu Hki].
  assert (Hrun : runnable d ≡ₚ id :: (delete idx (ready (d_vm d)) ++ io_owners (d_futures d)))
    by (unfold runnable; by rewrite Hperm at 1).
  assert (Hnot : (id ∉ delete idx (ready (d_vm d))) ∧ id ∉ io_owners (d_futures d)).
  { pose proof (pl_nodup _ _ _ Hp) as Hn. rewrite Hrun in Hn.
    apply NoDup_cons in Hn as [Hn _]. by apply not_elem_of_app in Hn. }
  assert (∃ t, get_task (d_vm d) id = Some t ∧ blocked t = 0) as (t & Ht & Hb).
  { destruct (pl_live _ _ _ Hp id) as [n Hn]; [rewrite Hrun; set_solver|].
    pose proof (pl_count _ _ _ Hp _ _ Hn) as Hn0. unfold blocked_at in Hn.
    destruct (get_task (d_vm d) id) as [t|]; [|done]. exists t. split; [done|].
    injection Hn as <-. rewrite Hn0, decide_True; [done|]. right. rewrite Hrun. set_solver. }
  pose proof (su_task _ Hsu _ _ Ht) as Hts.
  assert (HJt : t_joining t = None).
  { unfold blocked in Hb. destruct (t_joining t); [|done].
    rewrite bool_decide_true in Hb by eauto. simpl in Hb. lia. }
  assert (Hch : t_parked_on_channel t = false).
  { unfold blocked in Hb. destruct (t_parked_on_channel t); [|done]. simpl in Hb. lia. }
  destruct (load_effect (set_ready (delete idx (ready (d_vm d))) (d_vm d)) id t)
    as (vm' & Hl & Er & Ect & Em & Ecc & Es & Eh & Ea & Eget); [done| |].
  { intros Hs. by destruct (ts_fresh _ _ _ Hts Hs) as (? & _ & _ & ?). }
  exists vm'. split; [done|]. simpl in *.
  set (t' := loaded (set_ready (delete idx (ready (d_vm d))) (d_vm d)) t) in *.
  assert (Hf : t_joining t' = None ∧ t_parked_on_channel t' = false ∧ t_gather t' = t_gather t
            ∧ t_started t' = true ∧ t_park_epoch t' = (park_seq (d_vm d) + 1)%N
            ∧ t_waiters t' = t_waiters t ∧ t_parent t' = t_parent t ∧ t_wake t' = None
            ∧ t_handle t' = t_handle t ∧ t_abort_handle t' = t_abort_handle t
            ∧ t_cancel_requested t' = t_cancel_requested t ∧ t_deadline_abort t' = None).
  { unfold t', loaded. simpl. destruct (t_started t) eqn:Hs; simpl; split_and!; try done.
    by destruct (ts_fresh _ _ _ Hts Hs) as (_ & _ & _ & ?). }
  destruct Hf as (F1 & F2 & F3 & F4 & F5 & F6 & F7 & F8 & F9 & F10 & F11 & F12). clearbody t'.
  assert (Hba : ∀ j, blocked_at vm' j = blocked_at (d_vm d) j).
  { intros j. unfold blocked_at. rewrite Eget, get_set_ready. case_decide; [|done]. subst.
    rewrite Ht. simpl. unfold blocked. by rewrite F1, F2, F3, HJt, Hch. }
  split; simpl.
  - rewrite Hc in Hp. eapply places_pick; [exact Hp|done|]. unfold runnable. simpl. by rewrite Er.
  - eapply joins_ext; [exact HJ| |]; view Eget; by rewrite Ht, ?F1, ?F6.
  - eapply gathers_ext; [exact Hg| |].
    + intros j p slot. unfold parent_at. rewrite Eget, get_set_ready. case_decide; [|done]. subst.
      rewrite Ht. simpl. by rewrite F7.
    + view Eget. by rewrite Ht, F3.
  - apply (pick_suspensions d vm' id t t'); try done.
    + by rewrite Eget, decide_True.
    + intros j Hj. by rewrite Eget, decide_False.
    + intros j. rewrite Er. intros Hj. rewrite Hperm. set_solver.
    + intros j Hj Hjr. rewrite Er. rewrite Hperm in Hjr. set_solver.
    + rewrite Er. apply Hnot.
    + apply Hnot.
  - eapply kinds_same; [exact Hki|..]; simpl; try done. intros j. rewrite Eget, get_set_ready.
    case_decide; subst.
    + rewrite Ht. split; [split; rewrite ?F6; auto; by rewrite F9|by rewrite F11].
    + destruct (get_task (d_vm d) j); [|done]. split; [apply same_kind_refl|done].
Qed.

End pick.

End moves.

(** * The invariant is preserved when the running task ends

    The slot is freed, the handle records the outcome, and the joiners, or the parent of a
    gather, are woken. *)
#[local] Set Default Proof Using "Type*".
#[local] Set Warnings "-clear-no-such-hyp".

Section ends.
Context `{VmTypes}.
Implicit Types (vm : VmState) (t : Task) (d : Driver).

(** ** Freeing the slot *)

Lemma suspensions_free d d' c :
  inv d → d_current d = Some c → d_suspended d !! c = None →
  (∀ j, get_task (d_vm d') j = if decide (j = c) then None else get_task (d_vm d) j) →
  d_current d' = None → d_futures d' = d_futures d → d_suspended d' = d_suspended d →
  ready (d_vm d') = ready (d_vm d) → park_seq (d_vm d') = park_seq (d_vm d) →
  suspensions d'.
Proof.
  intros Hinv Hc Hsus Hget Ec Ef Es Er Eseq.
  destruct (inv_suspensions _ Hinv) as [S1 S2 S3 S4 S5 S7 S6].
  split; rewrite ?Ec, ?Ef, ?Es, ?Eseq; try done.
  - intros j t. rewrite Hget. case_decide; [done|]. intros Ht.
    eapply task_suspended_same; [by apply S1|apply same_suspension_refl|..];
      by rewrite ?Er, ?Ef, ?Es, ?Eseq.
  - intros j. rewrite Hget. case_decide; [by subst|apply S2].
  - intros f g e Hf Hk. destruct (S6 _ _ _ Hf Hk) as [He Hd]. split; [done|].
    intros t. rewrite Hget. case_decide; [done|]. intros Ht Hep. by destruct (Hd _ Ht Hep).
Qed.

(** The handle of the task that ends, if it has one, is no longer running. *)
Definition handle_released (h : option N) (hs hs' : gmap N NativeTaskHandle) : Prop :=
  (∀ k hd, hs' !! k = Some hd → h_status hd = Running → hs !! k = Some hd ∧ h ≠ Some k)
  ∧ ∀ k hd, hs !! k = Some hd → h ≠ Some k → hs' !! k = Some hd.

Lemma kinds_free d d' c t :
  inv d → d_current d = Some c → get_task (d_vm d) c = Some t →
  (∀ j, get_task (d_vm d') j = if decide (j = c) then None else get_task (d_vm d) j) →
  handle_released (t_handle t) (handles (d_vm d)) (handles (d_vm d')) →
  aborted (d_vm d') = aborted (d_vm d) → d_futures d' = d_futures d →
  d_next_future d' = d_next_future d → kinds d'.
Proof.
  intros Hinv Hc Ht Hget [Hh1 Hh2] Ea Ef En.
  pose proof (current_not_runnable d c Hinv Hc) as [_ Hnio].
  destruct (inv_kinds _ Hinv) as [K1 K2 K3 K4 K5 K6].
  split; rewrite ?Ea, ?Ef, ?En; try done.
  - intros j a. rewrite Hget. case_decide as Hj; [done|]. intros Ha.
    destruct (K1 _ _ Ha) as [T1 T2 T3 T4 T5 T6].
    split; rewrite ?Ef, ?En; try done. intros h Hh. destruct (T1 _ Hh) as (hd & Hhd & Hid & Hr).
    exists hd. split; [|done]. apply Hh2; [done|]. intros Hth.
    destruct (tk_handle _ _ _ (K1 _ _ Ht) _ Hth) as (hd' & Hhd' & Hid' & _). congruence.
  - intros h hd Hhd Hr. destruct (Hh1 _ _ Hhd Hr) as [Hhd' Hne].
    destruct (K2 _ _ Hhd' Hr) as (a & Ha & Hah). exists a. rewrite Hget.
    rewrite decide_False; [done|]. intros Hid. rewrite Hid in Ha. congruence.
  - intros f Hf Hk. destruct (K3 _ Hf Hk) as (a & Ha & Hd). exists a. rewrite Hget.
    rewrite decide_False; [done|]. intros Hid. apply Hnio. rewrite <-Hid.
    by apply elem_of_io_owners.
Qed.

Lemma released_none hs : handle_released None hs hs.
Proof. split; naive_solver. Qed.

Lemma released_finished hs h o : handle_released (Some h) hs (alter (finish_handle o) h hs).
Proof.
  split.
  - intros k hd. destruct (decide (k = h)) as [->|Hne].
    + rewrite lookup_alter_eq. destruct (hs !! h); [|done]. simpl. intros [= <-].
      by destruct o.
    + rewrite lookup_alter_ne by done. intros. split; [done|]. congruence.
  - intros k hd Hk Hne. rewrite lookup_alter_ne; [done|]. congruence.
Qed.

(** ** Who waited for the task *)

Lemma waiting_tasks d c t :
  inv d → get_task (d_vm d) c = Some t →
  NoDup (t_waiters t)
  ∧ ∀ w, w ∈ t_waiters t → ∃ u, get_task (d_vm d) w = Some u ∧ t_joining u = Some c.
Proof.
  intros Hinv Ht. destruct (inv_joins _ Hinv) as [_ H2 H3 _].
  assert (waiters_at (d_vm d) c = Some (t_waiters t)) as Hw by (unfold waiters_at; by rewrite Ht).
  split; [by eapply H3|]. intros w Hin. specialize (H2 _ _ _ Hw Hin). unfold joining_at in H2.
  destruct (get_task (d_vm d) w) as [u|]; [by exists u|done].
Qed.

(** ** Detached tasks and the main task *)

(** Everything but the handles, once the waiters of [c] are woken with [wake]. *)
Lemma end_joined_inv d d' c t wake :
  inv d → d_current d = Some c → d_suspended d !! c = None → get_task (d_vm d) c = Some t →
  t_parent t = None → (∀ k, k = YJoin ∨ k = YJoinTimed → answers k wake = true) →
  d_current d' = None → d_suspended d' = d_suspended d → d_futures d' = d_futures d →
  d_next_future d' = d_next_future d →
  ready (d_vm d') = ready (d_vm d) ++ t_waiters t → park_seq (d_vm d') = park_seq (d_vm d) →
  cancel_current (d_vm d') = cancel_current (d_vm d) → mailbox (d_vm d') = mailbox (d_vm d) →
  current_task (d_vm d') = current_task (d_vm d) →
  handle_released (t_handle t) (handles (d_vm d)) (handles (d_vm d')) →
  aborted (d_vm d) ⊆ aborted (d_vm d') →
  (∀ a, a ∈ aborted (d_vm d') → a ∈ aborted (d_vm d) ∨
        ∃ w u, w ∈ t_waiters t ∧ get_task (d_vm d) w = Some u ∧ t_deadline_abort u = Some a) →
  (∀ j, get_task (d_vm d') j = if decide (j = c) then None else
          if decide (j ∈ t_waiters t) then woken wake <$> get_task (d_vm d) j
          else get_task (d_vm d) j) →
  inv d'.
Proof.
  intros Hinv Hc Hsus Ht Hpar Hans Ec Es Ef En Er Eseq Ecc Em Ect Hh Ha Hdl Hget.
  destruct (waiting_tasks d c t Hinv Ht) as [Hnd Hws].
  destruct (current_unparked d c Hinv Hc t Ht) as (HJt & Hch & Hga & Hw & Hab & Hst).
  assert (Hcw : c ∉ t_waiters t) by (intros (u & Hu & HJu)%Hws; congruence).
  assert (Hjoin : ∀ w, w ∈ t_waiters t → ∃ u, get_task (d_vm d) w = Some u ∧ t_joining u = Some c
             ∧ t_parked_on_channel u = false ∧ t_gather u = None
             ∧ get_task (d_vm d') w = Some (woken wake u)
             ∧ (d_suspended d !! w = Some YJoin ∨ d_suspended d !! w = Some YJoinTimed)).
  { intros w Hin. destruct (Hws _ Hin) as (u & Hu & HJu). exists u.
    destruct (joining_task d w u c Hinv Hu HJu) as (_ & ? & ? & Hwc & _). split_and!; try done.
    - rewrite Hget, decide_False, decide_True by done. by rewrite Hu.
    - apply (ts_join _ _ _ (su_task _ (inv_suspensions _ Hinv) _ _ Hu)). by rewrite HJu. }
  set (d1 := yields d (set_handles (handles (d_vm d')) (free_task (d_vm d) c))).
  assert (Hget1 : ∀ j, get_task (d_vm d1) j = if decide (j = c) then None else get_task (d_vm d) j)
    by (intros j; unfold d1; simpl; rewrite get_set_handles; apply get_free).
  assert (Hsu1 : suspensions d1) by (by eapply (suspensions_free d)).
  assert (Hki1 : kinds d1) by (by eapply (kinds_free d)).
  destruct Hinv as [Hp HJ Hg Hsu Hki].
  split.
  - rewrite Ec. eapply (places_wakes (blocked_at (d_vm d1)) _ (runnable d) _ None (t_waiters t)); try done.
    + rewrite Hc in Hp. eapply places_free; [exact Hp|]. intros j. unfold blocked_at.
      rewrite Hget1. by case_decide.
    + intros w Hin. destruct (Hjoin _ Hin) as (u & Hu & HJu & Hcu & Hgu & _).
      unfold blocked_at. rewrite Hget1, decide_False, Hu by congruence. simpl. unfold blocked.
      rewrite HJu, Hcu, Hgu, bool_decide_true by eauto. done.
    + intros j. unfold blocked_at. rewrite Hget, Hget1. case_decide; [subst; by rewrite decide_False|].
      case_decide as Hin; [|done]. destruct (Hjoin _ Hin) as (u & Hu & HJu & Hcu & Hgu & _).
      rewrite Hu. simpl. unfold blocked. simpl. by rewrite Hcu, Hgu.
    + unfold runnable. rewrite Er, Ef. apply enqueue_perm.
  - eapply (joins_finish _ _ _ _ c (t_waiters t)); [exact HJ|..].
    + unfold joining_at. by rewrite Ht.
    + unfold waiters_at. by rewrite Ht.
    + intros j. unfold joining_at. rewrite Hget. case_decide.
      * subst. rewrite decide_False by done. by rewrite Ht.
      * case_decide; [|done]. by destruct (get_task (d_vm d) j).
    + intros j. unfold waiters_at. rewrite Hget. case_decide; [done|]. case_decide; [|done].
      by destruct (get_task (d_vm d) j).
  - eapply gathers_ext; [exact Hg|..].
    + intros j p slot. unfold parent_at. rewrite Hget. case_decide; [subst; by rewrite Ht; simpl; rewrite Hpar|].
      case_decide; [|done]. by destruct (get_task (d_vm d) j).
    + intros j. unfold gather_at. rewrite Hget. case_decide; [subst; by rewrite Ht|].
      case_decide; [|done]. by destruct (get_task (d_vm d) j).
  - eapply (suspensions_wake d1 d' (t_waiters t)); try done.
    + by rewrite Ef.
    + intros w Hin. split; [|done]. destruct (Hjoin _ Hin) as (u & Hu & HJu & Hcu & Hgu & Hu' & Hk).
      destruct Hk as [Hk|Hk]; eexists u, _, _; rewrite Hget1, decide_False by congruence;
        split_and!; try done; right; exists wake; (split; [done|apply Hans; by auto]).
    + intros j Hj. unfold stays. rewrite Hget1, Hget. case_decide; [done|].
      rewrite decide_False by done. destruct (get_task (d_vm d) j); [|done].
      split; [apply same_suspension_refl|done].
  - eapply (kinds_aborts d1); try done.
    + intros j. rewrite Hget1, Hget. case_decide; [done|].
      case_decide; destruct (get_task (d_vm d) j); simpl; try done;
        (split; [split; simpl; auto|done]).
    + intros a [?|(w & u & Hin & Hu & Hud)]%Hdl; [by left|right]. exists w, u.
      rewrite Hget1, decide_False by (intros ->; done). done.
    + by rewrite Ef.
    + by rewrite Ef.
    + rewrite Ef. apply Hki.
Qed.

(** ** Children of a gather *)

Section child.
Context (d : Driver) (c : TaskId) (t : Task) (p slot : nat).
Context (Hinv : inv d) (Hc : d_current d = Some c) (Hsus : d_suspended d !! c = None).
Context (Ht : get_task (d_vm d) c = Some t) (Hpar : t_parent t = Some (p, slot)).

(** A child is not joined, and its parent waits for the batch it belongs to. *)
Lemma child_facts :
  t_handle t = None ∧ t_waiters t = [] ∧
  ∃ pt g, get_task (d_vm d) p = Some pt ∧ t_gather pt = Some g ∧ p ≠ c
    ∧ gathering (parent_at (d_vm d)) p g ∧ t_joining pt = None ∧ t_parked_on_channel pt = false
    ∧ d_suspended d !! p = Some YGather.
Proof.
  pose proof (ki_task _ (inv_kinds _ Hinv) _ _ Ht) as Hk.
  assert (t_handle t = None) as Hh by (destruct (tk_one _ _ _ Hk); congruence).
  split; [done|]. split.
  { destruct (t_waiters t) eqn:Hw; [done|]. destruct (tk_waiters _ _ _ Hk) as [? ?]; congruence. }
  pose proof (inv_gathers _ Hinv p) as Hg.
  assert (parent_at (d_vm d) c = Some (p, slot)) as Hpc by (unfold parent_at; by rewrite Ht).
  unfold gather_at in Hg. destruct (get_task (d_vm d) p) as [pt|] eqn:Hpt; simpl in Hg.
  2: by apply Hg in Hpc.
  destruct (t_gather pt) as [g|] eqn:Hgp; [|by apply Hg in Hpc]. exists pt, g.
  assert (blocked pt = if decide (d_current d = Some p ∨ p ∈ runnable d) then 0 else 1) as Hb.
  { apply (pl_count _ _ _ (inv_places _ Hinv)). unfold blocked_at. by rewrite Hpt. }
  unfold blocked in Hb. rewrite Hgp, (bool_decide_true (is_Some (Some _))) in Hb by eauto.
  simpl in Hb. split_and!; try done.
  - intros ->. destruct (current_unparked d c Hinv Hc _ Hpt) as (_ & _ & ? & _). congruence.
  - destruct (t_joining pt); [|done]. rewrite bool_decide_true in Hb by eauto. simpl in Hb.
    case_decide; lia.
  - destruct (t_parked_on_channel pt); [|done]. simpl in Hb. case_decide; lia.
  - apply (ts_gather _ _ _ (su_task _ (inv_suspensions _ Hinv) _ _ Hpt)). by rewrite Hgp.
Qed.

Lemma child_freed_views :
  let vm1 := free_task (d_vm d) c in
  places (blocked_at vm1) (runnable d) None ∧ joins (joining_at vm1) (waiters_at vm1)
  ∧ (∀ j, parent_at vm1 j = if decide (j = c) then None else parent_at (d_vm d) j)
  ∧ (∀ j, gather_at vm1 j = gather_at (d_vm d) j)
  ∧ suspensions (yields d vm1) ∧ kinds (yields d vm1).
Proof.
  destruct (current_unparked d c Hinv Hc t Ht) as (HJt & Hch & Hga & _).
  destruct child_facts as (Hh & Hw & _). intros vm1.
  assert (Hget : ∀ j, get_task vm1 j = if decide (j = c) then None else get_task (d_vm d) j)
    by (intros j; apply get_free).
  split_and!.
  - pose proof (inv_places _ Hinv) as Hp. rewrite Hc in Hp. eapply places_free; [exact Hp|].
    view Hget.
  - eapply (joins_finish _ _ _ _ c []); [apply Hinv|..].
    + unfold joining_at. by rewrite Ht.
    + unfold waiters_at. by rewrite Ht, <-Hw.
    + intros j. rewrite decide_False by set_solver. unfold joining_at. rewrite Hget.
      case_decide; [subst; by rewrite Ht|done].
    + view Hget.
  - view Hget.
  - view Hget. by rewrite Ht.
  - by eapply (suspensions_free d).
  - eapply (kinds_free d); try done. rewrite Hh. apply released_none.
Qed.

(** The parent's batch after the child, if it was not the last, ... *)
Lemma child_more_inv pt g g' :
  get_task (free_task (d_vm d) c) p = Some pt → t_gather pt = Some g →
  gathers (parent_at (free_task (d_vm d) c))
    (λ j, if decide (j = p) then Some g' else gather_at (d_vm d) j) →
  inv (yields d (put_task (free_task (d_vm d) c) p (set_t_gather (Some g') pt))).
Proof.
  destruct child_freed_views as (Hp & HJ & HP & HG & Hsu & Hki).
  set (vm1 := free_task (d_vm d) c) in *. intros Hpt Hgp Hgs.
  set (pt' := set_t_gather (Some g') pt).
  assert (Hget : ∀ j, get_task (put_task vm1 p pt') j
            = if decide (j = p) then Some pt' else get_task vm1 j)
    by (intros j; by apply (get_put _ _ _ _ _ Hpt)).
  split; simpl.
  - eapply places_ext; [exact Hp| |done]. view Hget. rewrite Hpt. simpl. unfold blocked. simpl.
    by rewrite Hgp, !(bool_decide_true (is_Some (Some _))) by eauto.
  - eapply joins_ext; [exact HJ| |]; view Hget; by rewrite Hpt.
  - eapply gathers_ext; [exact Hgs|..].
    + intros j q s. unfold parent_at. rewrite Hget. case_decide; [subst; by rewrite Hpt|done].
    + intros j. unfold gather_at. rewrite Hget. case_decide; [done|]. apply HG.
  - destruct Hsu as [S1 S2 S3 S4 S5 S7 S6]. split; simpl; try done.
    + intros j a. rewrite Hget. case_decide as Hj; [intros [= <-]; subst j|].
      * destruct (S1 _ _ Hpt) as [? ? ? ? ? Hts]. split; simpl; try done.
        intros _. apply Hts. by rewrite Hgp.
      * intros Ha. destruct (S1 _ _ Ha). by split.
    + intros j. rewrite Hget. case_decide; [done|apply S2].
    + intros f gg e Hf Hk. destruct (S6 _ _ _ Hf Hk) as [He Hd]. split; [done|]. intros a.
      rewrite Hget. case_decide as Hj; [|by apply Hd]. intros [= <-].
      rewrite Hj in *. apply (Hd _ Hpt).
  - eapply kinds_same; [exact Hki|..]; simpl; try done. intros j. rewrite Hget.
    case_decide; subst.
    + rewrite Hpt. split; [split; auto|done].
    + destruct (get_task vm1 j); [|done]. split; [apply same_kind_refl|done].
Qed.

(** ... and the parent woken, if it was. *)
Lemma child_last_inv pt g w :
  get_task (free_task (d_vm d) c) p = Some pt → t_gather pt = Some g →
  t_joining pt = None → t_parked_on_channel pt = false → d_suspended d !! p = Some YGather →
  answers YGather w = true →
  gathers (parent_at (free_task (d_vm d) c))
    (λ j, if decide (j = p) then None else gather_at (d_vm d) j) →
  inv (yields d (push_ready
         (put_task (free_task (d_vm d) c) p (set_t_wake (Some w) (set_t_gather None pt))) p)).
Proof.
  destruct child_freed_views as (Hp & HJ & HP & HG & Hsu & Hki).
  set (vm1 := free_task (d_vm d) c) in *. intros Hpt Hgp HJp Hcp Hsp Hans Hgs.
  set (pt' := set_t_wake (Some w) (set_t_gather None pt)).
  assert (Hget : ∀ j, get_task (push_ready (put_task vm1 p pt') p) j
            = if decide (j = p) then Some pt' else get_task vm1 j)
    by (intros j; by apply (get_put _ _ _ _ _ Hpt)).
  split; simpl.
  - eapply (places_wakes _ _ _ _ _ [p]); [exact Hp|apply NoDup_singleton|..].
    + intros x ->%list_elem_of_singleton. unfold blocked_at. rewrite Hpt. simpl.
      unfold blocked. by rewrite HJp, Hcp, Hgp, (bool_decide_true (is_Some (Some _))) by eauto.
    + intros j. unfold blocked_at. rewrite decide_singleton, Hget. case_decide; [|done].
      simpl. unfold blocked. simpl. by rewrite HJp, Hcp.
    + unfold runnable. simpl. apply enqueue_perm.
  - eapply joins_ext; [exact HJ| |]; view Hget; by rewrite Hpt.
  - eapply gathers_ext; [exact Hgs|..].
    + intros j q s. unfold parent_at. rewrite Hget. case_decide; [subst; by rewrite Hpt|done].
    + intros j. unfold gather_at. rewrite Hget. case_decide; [done|]. apply HG.
  - eapply (suspensions_wake (yields d vm1) _ [p]); try done.
    + intros x ->%list_elem_of_singleton. split; [|done]. exists pt, pt', YGather. simpl.
      rewrite Hget, decide_True by done. split_and!; try done. right. by exists w.
    + intros j Hj. unfold stays. simpl. rewrite Hget, decide_False by set_solver.
      destruct (get_task vm1 j); [|done]. split; [apply same_suspension_refl|done].
  - eapply kinds_same; [exact Hki|..]; simpl; try done. intros j. rewrite Hget.
    case_decide; subst.
    + rewrite Hpt. split; [split; auto|done].
    + destruct (get_task vm1 j); [|done]. split; [apply same_kind_refl|done].
Qed.

Lemma complete_child_inv result :
  ∃ vm', complete_child (d_vm d) c result = Some vm' ∧ inv (yields d vm').
Proof.
  destruct child_facts as (Hh & Hw & pt & g & Hpt & Hgp & Hpc & Hgath & HJp & Hcp & Hsp).
  destruct child_freed_views as (Hp & HJ & HP & HG & Hsu & Hki).
  set (vm1 := free_task (d_vm d) c) in *.
  assert (Hpt1 : get_task vm1 p = Some pt) by (unfold vm1; by rewrite get_free, decide_False).
  assert (Hpc0 : parent_at (d_vm d) c = Some (p, slot)) by (unfold parent_at; by rewrite Ht).
  assert (is_Some (record_result g slot result)) as [g' Hg'].
  { unfold record_result. destruct result; [by eexists|]. rewrite bool_decide_true; [by eexists|].
    by apply (ga_slots _ _ _ Hgath c). }
  destruct (gathering_complete _ _ _ _ _ _ _ _ Hgath Hpc0 HP Hg') as (Hcs & _ & Hfill).
  assert (Hgs : gathers (parent_at vm1) (λ j, if decide (j = p) then
              (if Nat.eqb (g_pending g') 0 then None else Some g') else gather_at (d_vm d) j)).
  { eapply (gathers_complete _ _ _ _ p g c slot result g'); [apply Hinv|done| |done..].
    unfold gather_at. by rewrite Hpt. }
  unfold complete_child. rewrite Ht. simpl. rewrite Hpar. simpl. fold vm1.
  rewrite Hpt1. simpl. rewrite Hgp. simpl. rewrite Hg'. simpl.
  destruct (Nat.eqb_spec (g_pending g') 0) as [Hz|Hz].
  - destruct (gather_wake_ready _ _ _ Hcs Hz Hfill) as [w Hw']. rewrite Hw'. simpl.
    eexists. split; [done|]. eapply (child_last_inv pt g w); try done.
    unfold gather_wake in Hw'. destruct (g_first_error g'); [by injection Hw' as <-|].
    destruct (all_results _); [by injection Hw' as <-|done].
  - eexists. split; [done|]. by eapply (child_more_inv pt g g').
Qed.

End child.

(** ** Any task *)

Lemma ends_inv d vm e : inv (yields d vm) → inv (ends d vm e).
Proof.
  intros [? ? ? [S1 ? ? ? ? ? ?] [K1 ? ? ? ? ?]]. split; try done.
  - split; try done. intros id t []%S1. by split.
  - split; try done. intros id t []%K1. by split.
Qed.

Lemma complete_detached_inv d c t h q2v result :
  inv d → d_current d = Some c → d_suspended d !! c = None → get_task (d_vm d) c = Some t →
  t_parent t = None → t_handle t = Some h →
  ∃ vm', complete_detached q2v (d_vm d) c result = Some vm' ∧ inv (yields d vm').
Proof.
  intros Hinv Hc Hsus Ht Hpar Hh.
  unfold complete_detached. rewrite Ht. simpl. rewrite Hh. simpl.
  eexists. split; [done|].
  destruct (waiting_tasks d c t Hinv Ht) as [Hnd Hws].
  set (o := classify q2v (d_vm d) result).
  set (vm1 := free_task (set_handles (alter (finish_handle o) h (handles (d_vm d))) (d_vm d)) c).
  assert (Hget1 : ∀ j, get_task vm1 j = if decide (j = c) then None else get_task (d_vm d) j)
    by (intros j; unfold vm1; by rewrite get_free, get_set_handles).
  assert (Hcw : ∀ w, w ∈ t_waiters t → w ≠ c).
  { intros w Hin ->. destruct (Hws _ Hin) as (u & Hu & HJu).
    destruct (current_unparked d c Hinv Hc _ Hu) as [? _]. congruence. }
  destruct (wake_joiners_effect (outcome_wake o) (t_waiters t) vm1)
    as (Er & Ect & Em & Ecc & Es & Eh & El & Ea & Hdl & Eget); [done| |].
  { intros w Hin. rewrite Hget1, decide_False by auto. destruct (Hws _ Hin) as (u & ? & _). eauto. }
  eapply (end_joined_inv d _ c t (outcome_wake o)); try done; simpl.
  - intros k [-> | ->]; by destruct o.
  - by rewrite Eh, Hh; apply released_finished.
  - intros a [?|(w & u & Hin & Hu & ?)]%Hdl; [by left|right]. exists w, u.
    by rewrite Hget1, decide_False in Hu by auto.
  - intros j. rewrite Eget, Hget1. case_decide as Hj; [|done]. subst.
    by case_decide.
Qed.

Lemma complete_main_inv d c t e :
  inv d → d_current d = Some c → d_suspended d !! c = None → get_task (d_vm d) c = Some t →
  t_parent t = None → t_handle t = None → inv (ends d (free_task (d_vm d) c) e).
Proof.
  intros Hinv Hc Hsus Ht Hpar Hh. apply ends_inv.
  assert (t_waiters t = []) as Hw.
  { pose proof (tk_waiters _ _ _ (ki_task _ (inv_kinds _ Hinv) _ _ Ht)) as Hx. rewrite Hh in Hx.
    destruct (t_waiters t); [done|]. by destruct Hx as [? ?]. }
  eapply (end_joined_inv d _ c t WJoinedCancelled); try done; simpl.
  - by intros k [-> | ->].
  - by rewrite Hw, app_nil_r.
  - rewrite Hh. apply released_none.
  - by left.
  - intros j. rewrite get_free, Hw. by case_decide.
Qed.

Lemma complete_inv d c q2v result :
  inv d → d_current d = Some c → d_suspended d !! c = None →
  ∃ d', complete_current_task q2v d c result = Some d' ∧ inv d'.
Proof.
  intros Hinv Hc Hsus. destruct (current_task_full d c Hinv Hc) as [t Ht].
  unfold complete_current_task. rewrite Ht. simpl.
  destruct (t_parent t) as [[p slot]|] eqn:Hpar; [|destruct (t_handle t) as [h|] eqn:Hh].
  - destruct (complete_child_inv d c t p slot Hinv Hc Hsus Ht Hpar result) as (vm' & -> & ?). eauto.
  - destruct (complete_detached_inv d c t h q2v result) as (vm' & -> & ?); eauto.
  - eexists. split; [done|]. by eapply complete_main_inv.
Qed.

End ends.
