(* ===== verification/SchedProps.v ===== *)
(** * The scheduler and its driver: what always holds

    Every state the driver reaches by an orderly run ([Driver.orderly]: grants are for tasks
    still parked, joins are of other tasks with handles) satisfies the invariant, and no
    happening that is possible panics.  From the invariant: where tasks are, that suspended calls
    get their answers, what a deadlock is. *)
From stdpp Require Import base numbers list gmap strings.
From stdpp Require Import options.
From S2P Require Import Prelude Sched Driver SchedEffects SchedInv SchedParks SchedEnds.
#[local] Set Default Proof Using "Type*".
#[local] Set Warnings "-clear-no-such-hyp".

(** How often a task occurs in a list of tasks. *)
Abbreviation occurs id l := (count_occ Nat.eq_dec l id).

Section props.
Context `{VmTypes}.
Context (start_block : Block → Context → Context).
Context (quoinerror_to_value : QuoinError → Value).
Context (stress : bool).
Implicit Types (vm : VmState) (t : Task) (d : Driver).

Abbreviation act := (act start_block quoinerror_to_value stress).
Abbreviation task_act := (task_act quoinerror_to_value stress).
Abbreviation enabled := (enabled stress).
Abbreviation happens := (happens start_block quoinerror_to_value stress).
Abbreviation reachable := (reachable start_block quoinerror_to_value stress).

(** ** The invariant is inductive *)

Lemma start_get j :
  get_task (d_vm start_driver) j = if decide (j = 0) then Some (main_task 1) else None.
Proof. destruct j as [|[|j]]; done. Qed.

Lemma start_inv : inv start_driver.
Proof.
  split.
  - split; simpl; [by constructor|set_solver|..].
    + intros c [= <-]. split; [by eexists|set_solver].
    + intros id n. unfold blocked_at. rewrite start_get. case_decide; [subst|done].
      intros [= <-]. by rewrite decide_True by (by left).
  - assert (∀ j, joining_at (d_vm start_driver) j = None) as HJ
      by (intros j; unfold joining_at; rewrite start_get; by case_decide).
    split; [| | |by intros id; rewrite HJ].
    + intros id g. by rewrite HJ.
    + intros g ws w. unfold waiters_at. rewrite start_get. case_decide; [|done].
      intros [= <-]. set_solver.
    + intros g ws. unfold waiters_at. rewrite start_get. case_decide; [|done].
      intros [= <-]. constructor.
  - intros p. unfold gather_at. rewrite start_get.
    assert (∀ id slot, parent_at (d_vm start_driver) id ≠ Some (p, slot)) as HP
      by (intros id slot; unfold parent_at; rewrite start_get; by case_decide).
    by case_decide.
  - split; simpl; try done; try set_solver.
    + intros id t. rewrite start_get. case_decide; [|done]. intros [= <-].
      split; simpl; try done; set_solver.
    + intros c t [= <-] Ht. by injection Ht as <-.
    + intros c t [= <-] Ht. by injection Ht as <-.
  - split; simpl; try done; try set_solver.
    + intros id t. rewrite start_get. case_decide; [|done]. intros [= <-].
      split; simpl; try done; auto.
    + constructor.
Qed.

Lemma save_total d c :
  inv d → d_current d = Some c → ∃ vm, save_task_context (d_vm d) c = Some vm.
Proof.
  intros Hinv Hc. destruct (current_task_full d c Hinv Hc) as [t Ht].
  unfold save_task_context. rewrite Ht. by eexists.
Qed.

Lemma save_self vm c vm' : save_task_context vm c = Some vm' → ∃ t, get_task vm' c = Some t.
Proof.
  intros (t & _ & _ & _ & _ & _ & _ & _ & _ & _ & Hget)%save_effect.
  rewrite Hget, decide_True by done. eauto.
Qed.

Lemma register_total vm c g tg tc :
  current_task vm = c → get_task vm g = Some tg → get_task vm c = Some tc →
  ∃ vm1 vm2, register_join vm g = Some vm1 ∧ save_task_context vm1 c = Some vm2.
Proof.
  intros Hc Hg Htc. unfold register_join. rewrite Hg. simpl. rewrite Hc.
  set (vm0 := put_task vm g _).
  assert (∃ mt, get_task vm0 c = Some mt) as [mt Hmt].
  { unfold vm0. rewrite (get_put _ _ _ _ _ Hg). case_decide; eauto. }
  rewrite Hmt. simpl. exists (put_task vm0 c (set_t_joining (Some g) mt)).
  unfold save_task_context. rewrite (get_put _ _ _ _ _ Hmt), decide_True by done. simpl. eauto.
Qed.

Lemma spawned_handle vm block vm' id :
  spawn_detached_id vm block = (vm', id) →
  ∃ t, get_task vm' id = Some t ∧ is_Some (t_handle t).
Proof.
  intros (_ & _ & _ & _ & _ & _ & _ & _ & _ & _ & Hget)%spawn_effect.
  rewrite Hget, decide_True by done. eexists. split; [done|]. by eexists.
Qed.

Lemma gather_inv d c blocks :
  inv d → d_current d = Some c → d_suspended d !! c = None →
  ∃ vm, spawn_gather (d_vm d) blocks = Some vm ∧ inv (suspends d c YGather vm).
Proof.
  intros Hinv Hc Hsus. unfold spawn_gather.
  rewrite (su_running _ (inv_suspensions _ Hinv) _ Hc).
  destruct (save_total d c Hinv Hc) as [vm Hsave]. destruct (save_self _ _ _ Hsave) as [t Ht].
  rewrite Hsave. simpl. rewrite Ht. simpl. destruct blocks as [|b blocks].
  - eexists. split; [done|]. by apply gather_none_inv.
  - eexists. split; [done|]. by apply (gather_some_inv d c vm t (b :: blocks)).
Qed.

Lemma whatever_it_is (o : option Driver) (P : Prop) :
  (∃ d', o = Some d' ∧ inv d') → ∃ d', o = Some d' ∧ (P → inv d').
Proof. intros (d' & ? & ?). by exists d'. Qed.

(** What the running task does does not panic, and preserves the invariant when it is
    orderly. *)
Lemma task_act_inv d c a :
  inv d → d_current d = Some c → enabled d a = true → (a = Resume → False) →
  ∃ d', task_act d c a = Some d' ∧ (orderly (d_vm d) (Some c) a = true → inv d').
Proof.
  intros Hinv Hc Hen Hnr. unfold enabled in Hen. apply andb_true_iff in Hen as [_ Hen].
  rewrite Hc in Hen. destruct (save_total d c Hinv Hc) as [vms Hsave].
  destruct (save_self _ _ _ Hsave) as [ts Hts].
  pose proof (su_running _ (inv_suspensions _ Hinv) _ Hc) as Hcur.
  destruct (current_task_full d c Hinv Hc) as [tc Htc].
  destruct a; simpl in *; try done; try apply bool_decide_eq_true in Hen; try (by eexists).
  all: lazymatch goal with
       | |- context [true = true] => apply whatever_it_is
       | _ => idtac
       end; try (by eexists).
  - eexists. split; [done|]. by eapply compute_inv.
  - eexists. split; [done|]. by eapply checkpoint_inv.
  - destruct (spawn_detached_id (d_vm d) block) as [vm' id] eqn:E.
    eexists. split; [done|]. by eapply spawn_inv.
  - eexists. split; [done|]. by eapply request_cancel_inv.
  - apply andb_true_iff in Hen as [Hsus%bool_decide_eq_true Hw]. eexists. split; [done|].
    destruct (channel_waiter_live _ _ _) eqn:E; [by eapply wake_channel_inv|by destruct d].
  - apply andb_true_iff in Hen as [Hsus%bool_decide_eq_true Hw]. eexists. split; [done|].
    intros Hl. by apply wake_grant_inv.
  - destruct (_ || _); [|by eexists]. rewrite Hsave. simpl. eexists. split; [done|].
    by eapply yield_inv.
  - rewrite Hsave. simpl. rewrite Hts. simpl. eexists. split; [done|].
    assert (d_next_future d + 1 - 1 = d_next_future d)%N as -> by lia. by apply await_io_inv.
  - destruct (gather_inv d c blocks Hinv Hc Hen) as (vm & -> & ?). by eexists.
  - destruct (get_task (d_vm d) target) as [tg|] eqn:Htg; [|by eexists].
    destruct (register_total _ _ _ _ _ Hcur Htg Htc) as (vm1 & vm2 & Hreg & Hs2).
    rewrite Hreg. simpl. rewrite Hs2. simpl. eexists. split; [done|].
    unfold joinable. rewrite Htg. intros [Hne Hh%bool_decide_eq_true]%andb_true_iff.
    apply negb_true_iff, Nat.eqb_neq in Hne. by eapply join_inv.
  - destruct (spawn_detached_id (d_vm d) block) as [vm0 id] eqn:E.
    pose proof (spawn_inv d c block vm0 id Hinv Hc E) as Hinv0.
    destruct (spawned_handle _ _ _ _ E) as (tg & Htg & Hh).
    destruct (spawn_effect _ _ _ _ E) as (Hnone & _ & Hcur0 & _ & _ & _ & _ & _ & _ & _ & Hget).
    assert (id ≠ c) as Hne by congruence.
    assert (get_task vm0 c = Some tc) as Htc0 by (by rewrite Hget, decide_False).
    destruct (register_total vm0 c id tg tc) as (vm1 & vm2 & Hreg & Hs2); [congruence|done..|].
    rewrite Hreg. simpl. rewrite Hs2. simpl. destruct (save_self _ _ _ Hs2) as [t2 Ht2].
    rewrite Ht2. simpl. eexists. split; [done|].
    assert (d_next_future d + 1 - 1 = d_next_future d)%N as -> by lia.
    by apply (join_timed_inv (with_vm d vm0) c id tg vm1 vm2 t2).
  - assert (get_task (update_task (d_vm d) c (set_t_parked true)) c = Some (set_t_parked true tc))
      as Hp by (by rewrite get_update, decide_True, Htc).
    unfold save_task_context. rewrite Hp. simpl. eexists. split; [done|].
    apply park_on_channel_inv; [done..|]. unfold save_task_context. by rewrite Hp.
  - by apply complete_inv.
Qed.

Lemma with_fields_inv d d' :
  inv d → d_vm d' = d_vm d → d_current d' = d_current d → d_futures d' = d_futures d →
  d_next_future d' = d_next_future d → d_suspended d' = d_suspended d → inv d'.
Proof.
  intros [Hp HJ Hg [S1 S2 S3 S4 S5 S7 S6] [K1 K2 K3 K4 K5 K6]] Ev Ec Ef En Es.
  split; unfold runnable in *; rewrite ?Ev, ?Ec, ?Ef, ?En, ?Es; try done.
  - split; rewrite ?Ev, ?Ec, ?Ef, ?En, ?Es; try done.
    intros id t []%S1. split; by rewrite ?Ev, ?Ec, ?Ef, ?En, ?Es.
  - split; rewrite ?Ev, ?Ec, ?Ef, ?En, ?Es; try done.
    intros id t []%K1. split; by rewrite ?Ev, ?Ec, ?Ef, ?En, ?Es.
Qed.

Lemma act_inv d a :
  inv d → enabled d a = true →
  ∃ d', act d a = Some d' ∧ (orderly (d_vm d) (d_current d) a = true → inv d').
Proof.
  intros Hinv Hen. pose proof Hen as Hen'. unfold enabled in Hen'.
  apply andb_true_iff in Hen' as [_ Hg].
  destruct (d_current d) as [c|] eqn:Hc.
  - assert (task_happening : (a = Resume → False) → task_act d c a = act d a →
              ∃ d', act d a = Some d' ∧ (orderly (d_vm d) (Some c) a = true → inv d')).
    { intros Hnr <-. by apply task_act_inv. }
    destruct a; simpl in Hg; try done;
      try (apply task_happening; [done|unfold act; simpl; by rewrite Hc]);
      apply whatever_it_is.
    + apply andb_true_iff in Hg as [_ Hi%bool_decide_eq_true].
      destruct (lookup_lt_is_Some_2 _ _ Hi) as [f Hf]. simpl. rewrite Hf. simpl.
      destruct (deliver_total d i f r Hinv Hf) as [vm' Hd]. rewrite Hd. simpl. eexists.
      split; [done|]. by eapply deliver_inv.
    + eexists. split; [done|]. eapply with_fields_inv; [by apply (signal_inv d 0)|..];
        simpl; by rewrite ?Hc.
    + apply bool_decide_eq_true in Hg as [k Hk]. simpl. rewrite Hc, Hk. simpl. eexists.
      split; [done|]. destruct (resume d c k) as [d' o] eqn:E. by eapply resume_inv.
  - destruct a; simpl in Hg; try done; apply whatever_it_is.
    + apply andb_true_iff in Hg as [Hi%bool_decide_eq_true _].
      destruct (lookup_lt_is_Some_2 _ _ Hi) as [id Hid]. simpl. rewrite Hid. simpl.
      destruct (pick_inv start_block d idx id Hinv Hc Hid) as (vm' & -> & Hinv').
      simpl. by eexists.
    + apply andb_true_iff in Hg as [_ Hi%bool_decide_eq_true].
      destruct (lookup_lt_is_Some_2 _ _ Hi) as [f Hf]. simpl. rewrite Hf. simpl.
      destruct (deliver_total d i f r Hinv Hf) as [vm' Hd]. rewrite Hd. simpl. eexists.
      split; [done|]. by eapply deliver_inv.
    + eexists. split; [done|]. apply ends_inv. by eapply with_fields_inv.
    + eexists. split; [done|]. eapply with_fields_inv; [by apply (signal_inv d 0)|..];
        simpl; by rewrite ?Hc.
Qed.

Lemma runs_inv d d' : inv d → rtc happens d d' → inv d'.
Proof.
  intros Hinv Hr. induction Hr as [|d d1 d2 [? a ? Hen Hor Hact] Hr IH]; [done|].
  apply IH. destruct (act_inv _ _ Hinv Hen) as (d1' & Hact' & Hi). simplify_eq. by apply Hi.
Qed.

Lemma reachable_sched_inv d : reachable d → inv d.
Proof. apply runs_inv, start_inv. Qed.

Lemma happens_inv d d' : inv d → happens d d' → inv d'.
Proof. intros Hinv Hh. eapply runs_inv; [done|by apply rtc_once]. Qed.

(** C28: The scheduler never panics and never stops short, along orderly runs: runs in which a
    claim's grant is delivered to a task that is still parked and a task joins only other tasks,
    with handles ([Driver.orderly]; the code delivers the grant of a cancelled [serviceStop] and
    joins a reused slot after a timeout, [stale_drain_grant_panics]).  In every state such a run
    reaches, each happening its loop or the running task allows, orderly or not, goes through:
    no slot it takes for full is empty, no gather lacks its state or a result, no unstarted task
    lacks its block.  Until the loop has ended there is always something orderly that can
    happen. *)
Theorem scheduler_never_panics d (r : IoResult) :
  reachable d →
  (∀ a, enabled d a = true → is_Some (act d a))
  ∧ (d_ended d = None → ∃ a, enabled d a = true ∧ orderly (d_vm d) (d_current d) a = true).
Proof.
  intros Hr%reachable_sched_inv. split.
  - intros a Hen. destruct (act_inv _ _ Hr Hen) as (d' & -> & _). by eexists.
  - intros He. unfold enabled. rewrite (bool_decide_true (d_ended d = None)) by done. simpl.
    destruct (d_current d) as [c|].
    + destruct (d_suspended d !! c) eqn:Hs.
      * exists Resume. split; [by apply bool_decide_true|done].
      * exists Checkpoint. split; [by apply bool_decide_true|done].
    + destruct (ready (d_vm d)) as [|id rest] eqn:Hrd.
      * destruct (d_futures d) as [|f fs]; [by exists Stop|]. by exists (Deliver 0 r).
      * exists (Pick 0). simpl. by rewrite orb_true_r.
Qed.

Lemma occurs_run (l k : list nat) id :
  NoDup (l ++ k) → occurs id l + occurs id k = if decide (id ∈ l ++ k) then 1 else 0.
Proof.
  intros Hnd. rewrite <-count_occ_app. apply NoDup_ListNoDup in Hnd. case_decide as Hin.
  - rewrite list_elem_of_In in Hin. by apply NoDup_count_occ'.
  - rewrite list_elem_of_In in Hin. by apply count_occ_not_In.
Qed.

(** C29: Every task is in exactly one place, along orderly runs: runs in which a claim's grant is
    delivered to a task that is still parked and a task joins only other tasks, with handles
    ([Driver.orderly]; the grant of a cancelled [serviceStop] queues a task that waits
    elsewhere, [stale_drain_grant_panics]).  A live task is current, or queued once, or owns
    one operation in flight, or waits in exactly one of a join, a gather and a channel; an
    empty slot is in none of these. So no task is resumed twice for one wake, and none is
    lost. *)
Theorem every_task_in_one_place d id :
  reachable d →
  b2n (bool_decide (d_current d = Some id)) + occurs id (ready (d_vm d))
  + occurs id (io_owners (d_futures d)) + default 0 (blocked_at (d_vm d) id)
  = b2n (bool_decide (is_Some (get_task (d_vm d) id))).
Proof.
  intros Hr%reachable_sched_inv. destruct (inv_places _ Hr) as [Hnd Hl Hc Hn].
  pose proof (occurs_run _ _ id Hnd) as Ho. fold (runnable d) in Ho.
  unfold blocked_at in *. destruct (get_task (d_vm d) id) as [t|] eqn:Ht; simpl.
  - pose proof (Hn id (blocked t)) as Hb. rewrite Ht in Hb. specialize (Hb eq_refl). rewrite Hb.
    case_bool_decide as Hcur; simpl.
    + destruct (Hc _ Hcur) as [_ Hnot]. rewrite decide_False in Ho by done.
      rewrite decide_True by auto. lia.
    + destruct (decide (id ∈ runnable d)).
      * rewrite decide_True by auto. lia.
      * rewrite decide_False by naive_solver. lia.
  - assert (id ∉ runnable d) as Hnot.
    { intros Hin. apply Hl in Hin. rewrite Ht in Hin. by destruct Hin. }
    rewrite decide_False in Ho by done.
    rewrite bool_decide_false; [simpl; lia|]. intros Hcur.
    destruct (Hc _ Hcur) as [Hs _]. rewrite Ht in Hs. by destruct Hs.
Qed.

End props.
