(* ===== verification/SchedRuns.v ===== *)
(** * Runs of the scheduler

    What one happening may do to the tasks that are not running, to the ready queue and to
    the epochs; and from that, along any run: a task resumes with the slice it left, stale
    waiters stay dead, the ready queue is first in, first out. *)
From stdpp Require Import base numbers list gmap strings.
From stdpp Require Import options.
From S2P Require Import Prelude Sched Driver SchedEffects SchedInv SchedProps.
#[local] Set Default Proof Using "Type*".
#[local] Set Warnings "-clear-no-such-hyp".

(** ** Operations *)

Section ops.
Context `{VmTypes}.
Implicit Types (vm : VmState) (t : Task).

(** A task that is not running keeps its slice, its epoch and a request to cancel it, and does
    not come to be parked on a channel; a new one has neither started nor parked. *)
Definition evolves vm vm' (j : TaskId) : Prop :=
  match get_task vm j, get_task vm' j with
  | Some t, Some t' =>
      t_slice t' = t_slice t ∧ t_started t' = t_started t ∧ t_park_epoch t' = t_park_epoch t
      ∧ (t_parked_on_channel t' = true → t_parked_on_channel t = true)
      ∧ (t_cancel_requested t = true → t_cancel_requested t' = true)
  | None, Some t' => t_started t' = false ∧ t_park_epoch t' = 0%N ∧ t_parked_on_channel t' = false
  | None, None => True
  | Some _, None => False
  end.

(** The effect of an operation run for [cur], if for any task. *)
Record op (cur : option TaskId) vm vm' : Prop := {
  op_others : ∀ j, cur ≠ Some j → evolves vm vm' j;
  op_epoch : ∀ j t', get_task vm' j = Some t' →
    t_park_epoch t' = 0%N ∨ ∃ t, get_task vm j = Some t ∧ t_park_epoch t' = t_park_epoch t;
  op_ready : ∃ new, ready vm' = ready vm ++ new;
  op_seq : park_seq vm' = park_seq vm;
  op_aborted : aborted vm ⊆ aborted vm' }.

Lemma evolves_same vm vm' j : get_task vm' j = get_task vm j → evolves vm vm' j.
Proof. unfold evolves. intros ->. by destruct (get_task vm j). Qed.

Lemma evolves_trans vm1 vm2 vm3 j : evolves vm1 vm2 j → evolves vm2 vm3 j → evolves vm1 vm3 j.
Proof.
  unfold evolves. destruct (get_task vm1 j), (get_task vm2 j), (get_task vm3 j); try done.
  - intros (? & ? & ? & ? & ?) (? & ? & ? & ? & ?). split_and!; [congruence..|auto|auto].
  - intros (? & ? & Hp) (_ & ? & ? & Hq & _). split_and!; [congruence..|].
    destruct (t_parked_on_channel t0); [|done]. by rewrite Hq in Hp.
Qed.

#[export] Instance op_refl cur : Reflexive (op cur).
Proof.
  intros vm. split; [|eauto|exists []; by rewrite app_nil_r|done|done]. intros. by apply evolves_same.
Qed.

#[export] Instance op_trans cur : Transitive (op cur).
Proof.
  intros vm1 vm2 vm3 [E1 P1 [n1 R1] S1 A1] [E2 P2 [n2 R2] S2 A2]. split.
  - intros j Hj. by eapply evolves_trans; [apply E1|apply E2].
  - intros j t3 Ht3. destruct (P2 _ _ Ht3) as [?|(t2 & Ht2 & ->)]; [by left|]. eauto.
  - exists (n1 ++ n2). by rewrite R2, R1, app_assoc.
  - congruence.
  - by etrans.
Qed.

(** An update of one task that keeps what must be kept. *)
Definition keeps t t' : Prop :=
  t_slice t' = t_slice t ∧ t_started t' = t_started t ∧ t_park_epoch t' = t_park_epoch t
  ∧ (t_parked_on_channel t' = true → t_parked_on_channel t = true)
  ∧ (t_cancel_requested t = true → t_cancel_requested t' = true).

Lemma op_put cur vm id t t' :
  get_task vm id = Some t → (cur = Some id ∧ t_park_epoch t' = t_park_epoch t) ∨ keeps t t' →
  op cur vm (put_task vm id t').
Proof.
  intros Ht Hk. split; [| |exists []; by rewrite app_nil_r|done|done].
  - intros j Hj. unfold evolves. rewrite (get_put _ _ _ _ _ Ht). case_decide as Hid.
    + subst. rewrite Ht. destruct Hk as [[? _]|Hk]; done.
    + by destruct (get_task vm j).
  - intros j u. rewrite (get_put _ _ _ _ _ Ht). case_decide as Hid; [|eauto].
    intros [= <-]. subst. right. exists t. split; [done|]. by destruct Hk as [[_ ?]|(_ & _ & ? & _)].
Qed.

Lemma op_update cur vm id f :
  (∀ t, (cur = Some id ∧ t_park_epoch (f t) = t_park_epoch t) ∨ keeps t (f t)) →
  op cur vm (update_task vm id f).
Proof.
  intros Hk. unfold update_task. destruct (get_task vm id) eqn:Ht; [|done].
  by eapply op_put.
Qed.

Lemma op_push cur vm id : op cur vm (push_ready vm id).
Proof. split; [|eauto|by eexists|done|done]. intros. by apply evolves_same. Qed.

Lemma op_abort cur vm ah : op cur vm (abort_opt ah vm).
Proof.
  destruct ah; [|done]. split; [|eauto|exists []; by rewrite app_nil_r|done|set_solver].
  intros. by apply evolves_same.
Qed.

Lemma op_fields cur vm vm' :
  tasks vm' = tasks vm → ready vm' = ready vm → park_seq vm' = park_seq vm →
  aborted vm' = aborted vm → op cur vm vm'.
Proof.
  intros Et Er Es Ea.
  assert (∀ j, get_task vm' j = get_task vm j) as Hget by (intros j; unfold get_task; by rewrite Et).
  split; [| |exists []; by rewrite app_nil_r|done|by rewrite Ea].
  - intros j _. by apply evolves_same.
  - intros j t. rewrite Hget. eauto.
Qed.

Lemma op_save vm c vm' : save_task_context vm c = Some vm' → op (Some c) vm vm'.
Proof.
  intros (t & Ht & _ & Er & _ & _ & _ & Es & _ & Ea & Hget)%save_effect.
  split; [| |exists []; by rewrite app_nil_r|done|by rewrite Ea].
  - intros j Hj. apply evolves_same. rewrite Hget, decide_False; [done|congruence].
  - intros j u. rewrite Hget. case_decide; [|eauto]. intros [= <-]. subst. eauto.
Qed.

Lemma op_spawn cur vm block vm' id : spawn_detached_id vm block = (vm', id) → op cur vm vm'.
Proof.
  intros (Hn & Er & _ & _ & _ & Es & Ea & _ & _ & _ & Hget)%spawn_effect.
  split; [| |by eexists|done|by rewrite Ea].
  - intros j _. unfold evolves. rewrite Hget. case_decide; [subst|].
    + by rewrite Hn.
    + by destruct (get_task vm j).
  - intros j u. rewrite Hget. case_decide; [|eauto]. intros [= <-]. by left.
Qed.

Lemma op_drop_waiter cur vm joined g : op cur vm (drop_waiter vm joined g).
Proof. apply op_update. by right. Qed.

Lemma op_nudge cur vm g : op cur vm (nudge_cancelled vm g).
Proof.
  unfold nudge_cancelled. destruct (get_task vm g) as [t|] eqn:Ht; [|done].
  destruct (t_abort_handle t) as [ah|].
  { etrans; [|apply op_abort]. eapply op_put; [done|by right]. }
  destruct (t_wake t); [done|]. destruct (t_joining t) as [joined|].
  - etrans; [|apply op_push]. etrans; [|apply op_drop_waiter]. etrans; [|apply op_abort].
    eapply op_put; [done|]. by right.
  - destruct (t_parked_on_channel t) eqn:Hp; [|done]. etrans; [|apply op_push].
    eapply op_put; [done|]. by right.
Qed.

Lemma op_request_cancel cur vm g : op cur vm (request_cancel vm g).
Proof.
  unfold request_cancel. destruct (get_task vm g) as [t|] eqn:Ht; [|done].
  assert (op cur vm (put_task vm g (set_t_cancel true t))) as Ho by (eapply op_put; [done|by right]).
  case_match; (etrans; [exact Ho|]); [by apply op_fields|apply op_nudge].
Qed.

Lemma op_signal cur vm g b : op cur vm (request_cancel_from_driver vm g b).
Proof.
  unfold request_cancel_from_driver. destruct (get_task vm g) as [t|] eqn:Ht; [|done].
  assert (op cur vm (put_task vm g (set_t_cancel true t))) as Ho by (eapply op_put; [done|by right]).
  destruct b; (etrans; [exact Ho|]); [by apply op_fields|apply op_nudge].
Qed.

Lemma op_deadline cur vm joiner g e : op cur vm (deliver_deadline vm joiner g e).
Proof.
  unfold deliver_deadline. destruct (get_task vm joiner) as [t|]; [|done]. case_match; [|done].
  etrans; [|apply op_push]. etrans; [apply op_drop_waiter|]. apply op_update. by right.
Qed.

Lemma op_deliver cur vm f r vm' : deliver vm f r = Some vm' → op cur vm vm'.
Proof.
  unfold deliver. destruct (f_kind f); [|intros [= <-]; apply op_deadline].
  destruct (get_task vm (f_task f)) as [t|] eqn:Ht; [|done]. simpl. intros [= <-].
  etrans; [|apply op_push]. eapply op_put; [done|]. right. by case_decide.
Qed.

Lemma op_wake_channel cur vm g w : op cur vm (wake_channel_task vm g w).
Proof.
  unfold wake_channel_task. destruct (get_task vm g) as [t|] eqn:Ht; [|done].
  etrans; [|apply op_push]. eapply op_put; [done|]. by right.
Qed.

Lemma op_register vm g c vm' :
  current_task vm = c → register_join vm g = Some vm' → op (Some c) vm vm'.
Proof.
  intros Hc. unfold register_join. destruct (get_task vm g) as [t|] eqn:Ht; [|done]. simpl.
  rewrite Hc. destruct (get_task (put_task _ _ _) c) as [mt|] eqn:Hmt; [|done]. simpl.
  intros [= <-]. etrans; [|eapply op_put; [done|by left]]. eapply op_put; [done|by right].
Qed.

Lemma op_children cur vm parent slot blocks : op cur vm (spawn_children vm parent slot blocks).
Proof.
  destruct (spawn_children_effect parent blocks vm slot)
    as (ids & Hlen & _ & Hfree & Er & _ & _ & _ & Es & _ & Ea & _ & Hnew & Hold).
  assert (Hkid : ∀ j, j ∈ ids → ∃ b p,
            get_task (spawn_children vm parent slot blocks) j = Some (new_child_task b p None)).
  { intros j [k Hk]%list_elem_of_lookup. destruct (lookup_lt_is_Some_2 blocks k) as [b Hb].
    - rewrite <-Hlen. by eapply lookup_lt_Some.
    - eauto using Hnew. }
  split; [| |by eexists|done|by rewrite Ea]; [| ]; intros j; destruct (decide (j ∈ ids)) as [Hin|Hin].
  - intros _. unfold evolves. rewrite (Hfree _ Hin).
    by destruct (Hkid _ Hin) as (b & p & ->).
  - intros _. by apply evolves_same, Hold.
  - destruct (Hkid _ Hin) as (b & p & ->). intros u [= <-]. by left.
  - rewrite Hold by done. eauto.
Qed.

Lemma op_free vm c : op (Some c) vm (free_task vm c).
Proof.
  split; [| |exists []; by rewrite app_nil_r|done|done].
  - intros j Hj. apply evolves_same. rewrite get_free, decide_False; [done|congruence].
  - intros j t. rewrite get_free. case_decide; [done|eauto].
Qed.

Lemma op_wake_joiners cur wake ws : ∀ vm, op cur vm (foldl (wake_joiner wake) vm ws).
Proof.
  induction ws as [|w ws IH]; intros vm; simpl; [done|]. etrans; [|apply IH].
  unfold wake_joiner. destruct (get_task vm w) as [t|] eqn:Ht; [|done].
  etrans; [apply (op_abort _ _ (t_deadline_abort t))|]. etrans; [|apply op_push].
  eapply op_put; [by rewrite get_abort_opt|by right].
Qed.

End ops.

(** ** Happenings *)

Section runs.
Context `{VmTypes}.
Context (start_block : Block → Context → Context).
Context (quoinerror_to_value : QuoinError → Value).
Context (stress : bool).
Implicit Types (vm : VmState) (t : Task) (d : Driver).

Abbreviation act := (act start_block quoinerror_to_value stress).
Abbreviation task_act := (task_act quoinerror_to_value stress).
Abbreviation enabled := (enabled stress).
Abbreviation happens := (happens start_block quoinerror_to_value stress).
Abbreviation reachable := (reachable start_block quoinerror_to_value stress).

Lemma op_complete d c result d' :
  complete_current_task quoinerror_to_value d c result = Some d' →
  op (Some c) (d_vm d) (d_vm d').
Proof.
  unfold complete_current_task. destruct (get_task (d_vm d) c) as [t|] eqn:Ht; [|done]. simpl.
  assert (Hchild : ∀ vm', complete_child (d_vm d) c result = Some vm' → op (Some c) (d_vm d) vm').
  { intros vm'. unfold complete_child. rewrite Ht. simpl.
    destruct (t_parent t) as [[p slot]|]; simpl; [|done].
    destruct (get_task (free_task (d_vm d) c) p) as [pt|] eqn:Hpt; simpl; [|done].
    destruct (t_gather pt) as [g|]; simpl; [|done].
    destruct (record_result g slot result) as [g'|]; simpl; [|done]. case_match.
    - destruct (gather_wake g'); simpl; [|done]. intros [= <-]. etrans; [|apply op_push].
      etrans; [apply op_free|]. eapply op_put; [done|by right].
    - intros [= <-]. etrans; [apply op_free|]. eapply op_put; [done|by right]. }
  assert (Hdet : ∀ vm', complete_detached quoinerror_to_value (d_vm d) c result = Some vm' →
            op (Some c) (d_vm d) vm').
  { intros vm'. unfold complete_detached. rewrite Ht. simpl.
    destruct (t_handle t) as [h|]; simpl; [|done]. intros [= <-].
    etrans; [|apply op_wake_joiners]. etrans; [|apply op_free]. by apply op_fields. }
  destruct (t_parent t); [|destruct (t_handle t)].
  - intros ?%fmap_Some. naive_solver.
  - intros ?%fmap_Some. naive_solver.
  - intros [= <-]. apply op_free.
Qed.

Lemma op_resumed vm k : op (Some (current_task vm)) vm (resumed vm k).1.
Proof.
  assert (Htake : ∀ v, op (Some (current_task v)) v (take_cancellation v).1).
  { intros v. etrans; [|by apply (op_fields _ (update_task v (current_task v) (set_t_cancel false)))].
    apply op_update. by left. }
  unfold resumed. destruct (cancel_current vm).
  - destruct k; simpl; try apply Htake. etrans; [|apply (Htake (set_mailbox None vm))].
    by apply op_fields.
  - destruct (outcome_of k (mailbox vm)) as [o [v|]]; by apply op_fields.
Qed.

Lemma op_task_act d c a d' :
  current_task (d_vm d) = c → task_act d c a = Some d' → op (Some c) (d_vm d) (d_vm d').
Proof.
  intros Hcur Hact. destruct a; simpl in Hact; try by injection Hact as <-.
  - injection Hact as <-. by apply op_fields.
  - injection Hact as <-. simpl. unfold checkpoint.
    destruct (cancel_current (d_vm d)) eqn:E; [|done]. pose proof (op_resumed (d_vm d) YIo) as Hr.
    unfold resumed in Hr. rewrite E, Hcur in Hr. exact Hr.
  - destruct (spawn_detached_id _ _) as [vm' id] eqn:E. injection Hact as <-.
    by eapply op_spawn.
  - injection Hact as <-. apply op_request_cancel.
  - injection Hact as <-. simpl. case_match; [apply op_wake_channel|done].
  - injection Hact as <-. apply op_wake_channel.
  - case_match; [|by injection Hact as <-].
    destruct (save_task_context (d_vm d) c) as [vm|] eqn:E; [|done]. injection Hact as <-.
    etrans; [by apply op_save|apply op_push].
  - destruct (save_task_context (d_vm d) c) as [vm|] eqn:E; [|done]. simpl in Hact.
    destruct (get_task vm c) as [t|] eqn:Ht; [|done]. injection Hact as <-.
    etrans; [by apply op_save|]. eapply op_put; [done|by left].
  - destruct (spawn_gather (d_vm d) blocks) as [vm|] eqn:E; [|done]. injection Hact as <-.
    unfold spawn_gather in E. rewrite Hcur in E.
    destruct (save_task_context (d_vm d) c) as [vm1|] eqn:E1; [|done]. simpl in E.
    destruct (get_task vm1 c) as [t|] eqn:Ht; [|done]. simpl in E.
    destruct blocks; injection E as <-; (etrans; [by apply op_save|]).
    + etrans; [|apply op_push]. eapply op_put; [done|by left].
    + etrans; [|apply (op_children _ _ _ 0 (_ :: _))]. eapply op_put; [done|by left].
  - destruct (get_task (d_vm d) target); [|by injection Hact as <-].
    destruct (register_join (d_vm d) target) as [vm1|] eqn:E1; [|done]. simpl in Hact.
    destruct (save_task_context vm1 c) as [vm2|] eqn:E2; [|done]. injection Hact as <-.
    etrans; [by eapply op_register|by apply op_save].
  - destruct (spawn_detached_id (d_vm d) block) as [vm0 id] eqn:E0.
    destruct (spawn_effect _ _ _ _ E0) as (_ & _ & Hc0 & _).
    destruct (register_join vm0 id) as [vm1|] eqn:E1; [|done]. simpl in Hact.
    destruct (save_task_context vm1 c) as [vm2|] eqn:E2; [|done]. simpl in Hact.
    destruct (get_task vm2 c) as [t|] eqn:Ht; [|done]. injection Hact as <-.
    assert (op (Some c) vm0 vm1) as Hreg by (apply (op_register vm0 id c vm1); [congruence|done]).
    etrans; [by eapply op_spawn|]. etrans; [exact Hreg|].
    etrans; [by apply op_save|]. eapply op_put; [done|by left].
  - destruct (save_task_context _ c) as [vm|] eqn:E; [|done]. injection Hact as <-.
    etrans; [|by apply op_save]. apply op_update. by left.
  - by apply op_complete in Hact.
Qed.

(** A happening other than a pick. *)
Lemma act_op d a d' :
  inv d → enabled d a = true → act d a = Some d' → (∀ idx, a ≠ Pick idx) →
  op (d_current d) (d_vm d) (d_vm d').
Proof.
  intros Hinv Hen Hact Hnp. destruct (d_current d) as [c|] eqn:Hc.
  - pose proof (su_running _ (inv_suspensions _ Hinv) _ Hc) as Hcur.
    assert (Htask : task_act d c a = act d a → op (Some c) (d_vm d) (d_vm d'))
      by (intros E; apply (op_task_act d c a d'); [done|by rewrite E]).
    destruct a; try (apply Htask; unfold act; simpl; by rewrite Hc); simpl in Hact.
    + by destruct (Hnp idx).
    + destruct (d_futures d !! i) as [f|]; [|done]. simpl in Hact.
      destruct (deliver (d_vm d) f r) as [vm|] eqn:E; [|done]. injection Hact as <-.
      by eapply op_deliver.
    + by injection Hact as <-.
    + injection Hact as <-. apply op_signal.
    + rewrite Hc in Hact. destruct (d_suspended d !! c) as [k|]; [|by injection Hact as <-].
      injection Hact as <-. unfold resume. destruct (resumed (d_vm d) k) as [vm o] eqn:E.
      pose proof (op_resumed (d_vm d) k) as Hr. by rewrite E, Hcur in Hr.
  - unfold enabled in Hen. rewrite Hc in Hen. apply andb_true_iff in Hen as [_ Hen].
    destruct a; try done; simpl in Hact.
    + by destruct (Hnp idx).
    + destruct (d_futures d !! i) as [f|]; [|done]. simpl in Hact.
      destruct (deliver (d_vm d) f r) as [vm|] eqn:E; [|done]. injection Hact as <-.
      by eapply op_deliver.
    + by injection Hact as <-.
    + injection Hact as <-. apply op_signal.
Qed.

(** A pick. *)
Lemma act_pick d idx d' :
  act d (Pick idx) = Some d' →
  ∃ id t t', ready (d_vm d) !! idx = Some id ∧ get_task (d_vm d) id = Some t
    ∧ ready (d_vm d') = delete idx (ready (d_vm d)) ∧ d_current d' = Some id
    ∧ (∀ j, get_task (d_vm d') j = if decide (j = id) then Some t' else get_task (d_vm d) j)
    ∧ t_park_epoch t' = (park_seq (d_vm d) + 1)%N ∧ t_parked_on_channel t' = false
    ∧ park_seq (d_vm d') = (park_seq (d_vm d) + 1)%N
    ∧ (t_started t = true → vm_live (d_vm d') = t_slice t).
Proof.
  simpl. destruct (ready (d_vm d) !! idx) as [id|] eqn:Hid; [|done]. simpl.
  unfold load_task_context. rewrite get_set_ready.
  destruct (get_task (d_vm d) id) as [t|] eqn:Ht; [|done]. simpl. destruct (t_started t) eqn:Hs.
  - intros [= <-]. eexists id, t, _. simpl. split_and!; try done;
      [intros j; by apply (get_put _ _ _ _ _ Ht)|done|done].
  - destruct (t_block t) as [b|]; [|done]. intros [= <-]. eexists id, t, _. simpl.
    split_and!; try done; [intros j; by apply (get_put _ _ _ _ _ Ht)|done|done|congruence].
Qed.

Lemma complete_stops d c result d' :
  complete_current_task quoinerror_to_value d c result = Some d' → d_current d' = None.
Proof.
  unfold complete_current_task. destruct (get_task (d_vm d) c) as [t|]; [|done]. simpl.
  destruct (t_parent t); [|destruct (t_handle t); [|by intros [= <-]]];
    intros (vm' & _ & ->)%fmap_Some; done.
Qed.

Lemma pick_or_not (a : Act) : (∃ idx, a = Pick idx) ∨ ∀ idx, a ≠ Pick idx.
Proof. destruct a; eauto. Qed.

(** Only a pick makes a task current. *)
Lemma act_current d a d' c :
  act d a = Some d' → (∀ idx, a ≠ Pick idx) → d_current d' = Some c → d_current d = Some c.
Proof.
  intros Hact Hnp Hc'. destruct a; simpl in Hact; try by destruct (Hnp idx).
  all: try (destruct (d_futures d !! i) as [f|]; [|done]; simpl in Hact;
            destruct (deliver (d_vm d) f r); [|done]; by injection Hact as <-).
  all: try by injection Hact as <-.
  all: destruct (d_current d) as [c0|] eqn:Hc; [|done].
  all: try (apply complete_stops in Hact; congruence).
  all: repeat (case_match; simplify_eq/=; try done); simplify_option_eq; try congruence.
  revert Hc'. unfold resume. destruct (resumed (d_vm d) y). simpl. congruence.
Qed.

(** ** Properties of runs *)

(** An orderly run, with the tasks its picks made current. *)
Inductive run : Driver → list TaskId → Driver → Prop :=
| run_nil d : run d [] d
| run_pick d idx d1 id l d' :
    enabled d (Pick idx) = true → act d (Pick idx) = Some d1 → d_current d1 = Some id →
    run d1 l d' → run d (id :: l) d'
| run_other d a d1 l d' :
    enabled d a = true → orderly (d_vm d) (d_current d) a = true → act d a = Some d1 →
    (∀ idx, a ≠ Pick idx) → run d1 l d' → run d l d'.

(** The ready queue is first in, first out.  Without stress scheduling, along any orderly run the
    tasks made current are, in order, a prefix of the tasks queued at its start followed by the
    tasks queued meanwhile, and what is left is the queue at its end: no task overtakes
    another, none is skipped, none is picked without having been queued. *)
Theorem ready_queue_is_fifo d l d' :
  stress = false → reachable d → run d l d' →
  ∃ queued, ready (d_vm d) ++ queued = l ++ ready (d_vm d').
Proof.
  intros Hs Hr%reachable_sched_inv Hrun. revert Hr.
  induction Hrun as [d|d idx d1 id l d' Hen Hact Hc Hrun IH|d a d1 l d' Hen Hor Hact Hnp Hrun IH]; intros Hr.
  - exists []. by rewrite app_nil_r.
  - destruct IH as [q Hq]; [eapply happens_inv; [done|by econstructor]|].
    destruct (act_pick _ _ _ Hact) as (id' & t & t' & Hid & _ & Hrd & Hc' & _).
    rewrite Hc in Hc'. injection Hc' as <-. unfold enabled in Hen. rewrite Hs in Hen.
    apply andb_true_iff in Hen as [_ Hen]. destruct (d_current d); [done|].
    apply andb_true_iff in Hen as [_ ->%Nat.eqb_eq]. rewrite Hrd in Hq.
    destruct (ready (d_vm d)) as [|x rest]; [done|]. injection Hid as ->. exists q. simpl.
    by f_equal.
  - destruct IH as [q Hq]; [eapply happens_inv; [done|by econstructor]|].
    destruct (op_ready _ _ _ (act_op _ _ _ Hr Hen Hact Hnp)) as [new Hnew].
    exists (new ++ q). by rewrite app_assoc, <-Hnew.
Qed.

(** A run in which task [c] never becomes current. *)
Definition happens_without (c : TaskId) d d' : Prop := happens d d' ∧ d_current d' ≠ Some c.

Definition has_slice d (c : TaskId) (s : Slice) : Prop :=
  ∃ t, get_task (d_vm d) c = Some t ∧ t_started t = true ∧ t_slice t = s.

Lemma without_keeps_slice c s d d' :
  inv d → d_current d ≠ Some c → rtc (happens_without c) d d' → has_slice d c s →
  inv d' ∧ has_slice d' c s ∧ d_current d' ≠ Some c.
Proof.
  intros Hinv Hc Hr. induction Hr as [|d d1 d2 [Hh Hc1] Hr IH]; [done|].
  intros (t & Ht & Hst & Hsl). apply IH; [by eapply happens_inv|done|]. clear IH Hr.
  destruct Hh as [d a d1 Hen Hor Hact].
  destruct (pick_or_not a) as [[idx ->]|Hnp].
  - destruct (act_pick _ _ _ Hact) as (id & u & u' & Hid & Hu & _ & Hc' & Hget & _).
    exists t. rewrite Hget, decide_False; [done|]. congruence.
  - pose proof (op_others _ _ _ (act_op _ _ _ Hinv Hen Hact Hnp) c Hc) as He.
    unfold evolves in He. rewrite Ht in He.
    destruct (get_task (d_vm d1) c) as [t'|] eqn:Et; [|done].
    destruct He as (E1 & E2 & _). exists t'. split_and!; congruence.
Qed.

(** A slice saved by [save_task_context] is there after operations run for no task. *)
Lemma saved_then vm0 c vm1 vm2 t0 t :
  save_task_context vm0 c = Some vm1 → get_task vm0 c = Some t0 → op None vm1 vm2 →
  get_task vm2 c = Some t → t_started t = t_started t0 ∧ t_slice t = vm_live vm0.
Proof.
  intros (u & Hu & _ & _ & _ & _ & _ & _ & _ & _ & Hget)%save_effect Ht0 Hop Ht.
  assert (None ≠ Some c) as Hc by done. pose proof (op_others _ _ _ Hop c Hc) as He.
  unfold evolves in He. rewrite Hget, decide_True, Ht in He by done.
  destruct He as (E1 & E2 & _). split; [rewrite E2; simpl; congruence|by rewrite E1].
Qed.

Lemma register_self vm g vm' c t :
  current_task vm = c → get_task vm c = Some t → register_join vm g = Some vm' →
  vm_live vm' = vm_live vm
  ∧ ∃ t', get_task vm' c = Some t' ∧ t_started t' = t_started t.
Proof.
  intros Hc Ht. unfold register_join. destruct (get_task vm g) as [tg|] eqn:Hg; [|done]. simpl.
  rewrite Hc. destruct (get_task (put_task _ _ _) c) as [mt|] eqn:Hmt; [|done]. simpl.
  intros [= <-]. split; [done|]. rewrite (get_put _ _ _ _ _ Hmt), decide_True by done.
  eexists. split; [done|]. simpl. rewrite (get_put _ _ _ _ _ Hg) in Hmt. case_decide.
  - subst. injection Hmt as <-. simpl. congruence.
  - congruence.
Qed.

(** The slot of a task that ends is empty. *)
Lemma complete_frees d c result d' :
  complete_current_task quoinerror_to_value d c result = Some d' → get_task (d_vm d') c = None.
Proof.
  assert (Hput : ∀ vm p pt pt', get_task vm c = None → get_task vm p = Some pt →
            get_task (put_task vm p pt') c = None).
  { intros vm p pt pt' Hn Hp. rewrite (get_put _ _ _ _ _ Hp), decide_False; [done|congruence]. }
  assert (Hjoin : ∀ w ws vm, get_task vm c = None → get_task (foldl (wake_joiner w) vm ws) c = None).
  { intros w ws. induction ws as [|x ws IH]; intros vm Hn; simpl; [done|]. apply IH.
    unfold wake_joiner. destruct (get_task vm x) as [tx|] eqn:Hx; [|done].
    eapply Hput; by rewrite get_abort_opt. }
  assert (Hfree : ∀ vm, get_task (free_task vm c) c = None)
    by (intros vm; by rewrite get_free, decide_True).
  unfold complete_current_task. destruct (get_task (d_vm d) c) as [t|] eqn:Ht; [|done]. simpl.
  destruct (t_parent t) as [[p slot]|] eqn:Hpar; [|destruct (t_handle t) as [h|] eqn:Hh].
  - intros (vm' & Hvm & ->)%fmap_Some. simpl. unfold complete_child in Hvm. rewrite Ht in Hvm.
    simpl in Hvm. rewrite Hpar in Hvm. simpl in Hvm.
    destruct (get_task (free_task (d_vm d) c) p) as [pt|] eqn:Hpt; simpl in Hvm; [|done].
    destruct (t_gather pt) as [g|]; simpl in Hvm; [|done].
    destruct (record_result g slot result) as [g'|]; simpl in Hvm; [|done]. case_match.
    + destruct (gather_wake g'); simpl in Hvm; [|done]. injection Hvm as <-.
      rewrite get_push_ready. by eapply Hput.
    + injection Hvm as <-. by eapply Hput.
  - intros (vm' & Hvm & ->)%fmap_Some. simpl. unfold complete_detached in Hvm. rewrite Ht in Hvm.
    simpl in Hvm. rewrite Hh in Hvm. injection Hvm as <-. apply Hjoin, Hfree.
  - intros [= <-]. apply Hfree.
Qed.

(** The slice is saved when the task stops being current without ending. *)
Lemma task_act_slice d c a d1 t0 t :
  current_task (d_vm d) = c → d_current d = Some c → get_task (d_vm d) c = Some t0 →
  task_act d c a = Some d1 → d_current d1 = None → get_task (d_vm d1) c = Some t →
  t_started t = t_started t0 ∧ t_slice t = vm_live (d_vm d).
Proof.
  intros Hcur Hc Ht0 Hact Hc1 Ht.
  destruct a; simpl in Hact; try (injection Hact as <-; simpl in Hc1; congruence).
  - case_match; [|injection Hact as <-; congruence].
    destruct (save_task_context (d_vm d) c) as [vm|] eqn:E; [|done]. injection Hact as <-.
    by apply (saved_then _ _ _ _ _ _ E Ht0 (op_push None vm c)).
  - destruct (save_task_context (d_vm d) c) as [vm|] eqn:E; [|done]. simpl in Hact.
    destruct (get_task vm c) as [t1|] eqn:Ht1; [|done]. injection Hact as <-.
    apply (saved_then _ _ _ _ _ _ E Ht0) in Ht; [done|]. eapply op_put; [done|by right].
  - destruct (spawn_gather (d_vm d) blocks) as [vm|] eqn:E; [|done]. injection Hact as <-.
    unfold spawn_gather in E. rewrite Hcur in E.
    destruct (save_task_context (d_vm d) c) as [vm1|] eqn:E1; [|done]. simpl in E.
    destruct (get_task vm1 c) as [t1|] eqn:Ht1; [|done]. simpl in E.
    destruct blocks; injection E as <-; apply (saved_then _ _ _ _ _ _ E1 Ht0) in Ht; try done.
    + etrans; [|apply op_push]. eapply op_put; [done|by right].
    + etrans; [|apply (op_children _ _ _ 0 (_ :: _))]. eapply op_put; [done|by right].
  - destruct (get_task (d_vm d) target) as [tg|]; [|injection Hact as <-; congruence].
    destruct (register_join (d_vm d) target) as [vm1|] eqn:E1; [|done]. simpl in Hact.
    destruct (save_task_context vm1 c) as [vm2|] eqn:E2; [|done]. injection Hact as <-.
    destruct (register_self _ _ _ _ _ Hcur Ht0 E1) as (El & t1 & Ht1 & Es).
    rewrite <-El, <-Es. by apply (saved_then _ _ _ _ _ _ E2 Ht1 (op_refl None _)).
  - destruct (spawn_detached_id (d_vm d) block) as [vm0 id] eqn:E0.
    destruct (spawn_effect _ _ _ _ E0)
      as (Hn & _ & Hc0 & _ & _ & _ & _ & El0 & _ & _ & Hget0).
    destruct (register_join vm0 id) as [vm1|] eqn:E1; [|done]. simpl in Hact.
    destruct (save_task_context vm1 c) as [vm2|] eqn:E2; [|done]. simpl in Hact.
    destruct (get_task vm2 c) as [t2|] eqn:Ht2; [|done]. injection Hact as <-.
    assert (get_task vm0 c = Some t0) as Ht00 by (rewrite Hget0, decide_False; congruence).
    assert (current_task vm0 = c) as Hcur0 by congruence.
    destruct (register_self _ _ _ _ _ Hcur0 Ht00 E1) as (El & t1 & Ht1 & Es).
    rewrite <-El0, <-El, <-Es. apply (saved_then _ _ _ _ _ _ E2 Ht1) in Ht; [done|].
    eapply op_put; [done|by right].
  - destruct (save_task_context _ c) as [vm|] eqn:E; [|done]. injection Hact as <-.
    destruct (update_rest (d_vm d) c (set_t_parked true)) as (El & _). rewrite <-El.
    apply (saved_then _ _ _ _ (set_t_parked true t0) _ E) in Ht; [done| |done].
    by rewrite get_update, decide_True, Ht0.
  - apply complete_frees in Hact. congruence.
Qed.

(** Only what the running task does itself makes no task current. *)
Lemma act_of_task d c a d1 :
  enabled d a = true → d_current d = Some c → act d a = Some d1 → d_current d1 = None →
  task_act d c a = Some d1.
Proof.
  intros Hen Hc Hact Hc1. unfold enabled in Hen. rewrite Hc in Hen.
  apply andb_true_iff in Hen as [_ Hen].
  destruct (pick_or_not a) as [[idx ->]|Hnp]; [done|].
  destruct a; try (simpl in Hact; rewrite Hc in Hact; exact Hact); try done; simpl in Hact.
  - destruct (d_futures d !! i) as [f|]; [|done]. simpl in Hact.
    destruct (deliver (d_vm d) f r); [|done]. injection Hact as <-. simpl in Hc1. congruence.
  - injection Hact as <-. simpl in Hc1. congruence.
  - rewrite Hc in Hact. destruct (d_suspended d !! c) as [k|]; [|done]. injection Hact as <-.
    unfold resume in Hc1. destruct (resumed (d_vm d) k). simpl in Hc1. congruence.
Qed.

(** A task resumes with exactly the slice it left, along orderly runs.  When a task stops being
    current without ending (it yields, or waits for input or output, a gather, a join, a
    channel), its data stack, its frames, its fiber and its native calls are those in the machine when it is next
    made current, whatever other tasks do meanwhile and however long that takes. *)
Theorem task_resumes_where_it_left c d a d1 d2 idx d3 :
  reachable d → d_current d = Some c →
  enabled d a = true → orderly (d_vm d) (d_current d) a = true →
  act d a = Some d1 → d_current d1 = None →
  is_Some (get_task (d_vm d1) c) →
  rtc (happens_without c) d1 d2 →
  act d2 (Pick idx) = Some d3 → d_current d3 = Some c →
  vm_live (d_vm d3) = vm_live (d_vm d).
Proof.
  intros Hr%reachable_sched_inv Hc Hen Hor Hact Hc1 [t Ht] Hrun Hpick Hc3.
  destruct (current_task_full d c Hr Hc) as [t0 Ht0].
  destruct (current_unparked d c Hr Hc t0 Ht0) as (_ & _ & _ & _ & _ & Hst).
  pose proof (su_running _ (inv_suspensions _ Hr) _ Hc) as Hcur.
  assert (t_started t = t_started t0 ∧ t_slice t = vm_live (d_vm d)) as [E1 E2].
  { apply (task_act_slice d c a d1); try done. by apply act_of_task. }
  assert (has_slice d1 c (vm_live (d_vm d))) as Hs by (exists t; split_and!; congruence).
  assert (inv d1) as Hinv1 by (eapply happens_inv; [done|by econstructor]).
  destruct (without_keeps_slice c (vm_live (d_vm d)) d1 d2 Hinv1) as (_ & (t2 & Ht2 & Hs2 & Hsl2) & _);
    [congruence|done..|].
  destruct (act_pick _ _ _ Hpick) as (id & u & u' & _ & Hu & _ & Hc' & _ & _ & _ & _ & Hlive).
  rewrite Hc3 in Hc'. injection Hc' as <-. rewrite Ht2 in Hu. injection Hu as <-.
  rewrite <-Hsl2. by apply Hlive.
Qed.

(** The pair of a task and an epoch that no park will make live again. *)
Definition stale d (id : TaskId) (e : N) : Prop :=
  (0 < e ≤ park_seq (d_vm d))%N
  ∧ ∀ t, get_task (d_vm d) id = Some t → t_park_epoch t = e →
      d_current d ≠ Some id ∧ (t_parked_on_channel t = false ∨ t_cancel_requested t = true).

Lemma stale_step d d' id e : inv d → happens d d' → stale d id e → stale d' id e.
Proof.
  intros Hinv Hh [He Hst]. destruct Hh as [d a d' Hen _ Hact]. destruct (pick_or_not a) as [[idx ->]|Hnp].
  - destruct (act_pick _ _ _ Hact)
      as (id' & u & u' & Hid & Hu & _ & Hc' & Hget & Hep & Hpk & Hseq & _).
    split; [rewrite Hseq; lia|]. intros t. rewrite Hget, Hc'. case_decide as Hidd.
    + intros [= <-]. lia.
    + intros Ht Hte. destruct (Hst _ Ht Hte) as [_ ?]. split; [congruence|done].
  - pose proof (act_op _ _ _ Hinv Hen Hact Hnp) as [Hoth Hep _ Hseq _].
    split; [by rewrite Hseq|]. intros t' Ht' Hte.
    destruct (Hep _ _ Ht') as [?|(t & Ht & Het)]; [lia|].
    destruct (Hst _ Ht) as [Hnc Hor]; [congruence|]. split.
    + intros Hc'. by apply (act_current _ _ _ _ Hact Hnp) in Hc'.
    + specialize (Hoth _ Hnc). unfold evolves in Hoth. rewrite Ht, Ht' in Hoth.
      destruct Hoth as (_ & _ & _ & Hp & Hcan). destruct Hor as [Hor|Hor]; [left|right; auto].
      destruct (t_parked_on_channel t'); [|done]. by rewrite Hp in Hor.
Qed.

Lemma dead_along d d' id e :
  reachable d → rtc happens d d' →
  (0 < e ≤ park_seq (d_vm d))%N → (d_current d = Some id → current_park_epoch (d_vm d) ≠ e) →
  channel_waiter_live (d_vm d) id e = false →
  channel_waiter_live (d_vm d') id e = false.
Proof.
  intros Hr%reachable_sched_inv Hrun He Hcur Hdead.
  assert (stale d id e) as Hst.
  { split; [done|]. intros t Ht Hte. split.
    - intros Hc. apply (Hcur Hc). unfold current_park_epoch.
      by rewrite (su_running _ (inv_suspensions _ Hr) _ Hc), Ht.
    - unfold channel_waiter_live in Hdead. rewrite Ht, Hte, N.eqb_refl in Hdead.
      destruct (t_parked_on_channel t), (t_cancel_requested t); auto. }
  clear Hcur Hdead. induction Hrun as [d|d d1 d2 Hstep Hrun IH].
  - destruct Hst as [_ Hst]. unfold channel_waiter_live.
    destruct (get_task (d_vm d) id) as [t|]; [|done].
    destruct (N.eqb_spec (t_park_epoch t) e) as [Hte|]; [|by rewrite andb_false_r].
    destruct (Hst _ eq_refl Hte) as [_ [-> | ->]]; [done|by rewrite andb_false_r].
  - pose proof (stale_step _ _ _ _ Hr Hstep Hst) as Hst1. apply IH; [|apply Hst1|done].
    by eapply happens_inv.
Qed.

(** A stale waiter never comes back to life, along orderly runs.  The queues of a channel hold pairs of a task
    and the epoch it parked in; once such a pair is not live (its task was woken, was cancelled,
    ended, or its slot is another task's), it is not live in any later state, as long as the
    task is not just about to park in that epoch. So a value is never handed to an entry left
    behind in a queue. *)
Theorem stale_waiters_stay_dead d d' id e :
  reachable d → rtc happens d d' →
  (0 < e ≤ park_seq (d_vm d))%N → (d_current d = Some id → current_park_epoch (d_vm d) ≠ e) →
  channel_waiter_live (d_vm d) id e = false →
  channel_waiter_live (d_vm d') id e = false.
Proof. apply dead_along. Qed.

End runs.
