(* ===== verification/SchedAnswers.v ===== *)
(** * What tasks hear

    A suspended call is answered; the end of a task is told to each of its joiners; a gather
    answers with the results of its children in order; a cancelled task is woken, and told
    once; a deadlock has a cause among the tasks; all along orderly runs.  Then concrete runs, and
    two that are not orderly and end badly. *)
From stdpp Require Import base numbers list gmap strings.
From stdpp Require Import options.
From S2P Require Import Prelude Sched Driver SchedEffects SchedInv SchedParks SchedEnds SchedProps SchedRuns.
#[local] Set Default Proof Using "Type*".
#[local] Set Warnings "-clear-no-such-hyp".

(** ** Cycles of a relation *)

Section cycles.
Context {A : Type} `{EqDecision A} (R : A → A → Prop).

(** A path of [R]. *)
Definition path (p : list A) : Prop :=
  ∀ i a b, p !! i = Some a → p !! S i = Some b → R a b.

Lemma path_tc p i j a b : path p → i < j → p !! i = Some a → p !! j = Some b → tc R a b.
Proof.
  intros Hp Hij Ha. revert b. induction Hij as [|j Hij IH]; intros b Hb; [by apply tc_once, (Hp i)|].
  destruct (lookup_lt_is_Some_2 p j) as [x Hx]; [apply lookup_lt_Some in Hb; lia|].
  eapply tc_r; [by apply IH|]. by apply (Hp j).
Qed.

Lemma path_exists (l : list A) (Hl : ∀ x, x ∈ l → ∃ y, y ∈ l ∧ R x y) n x :
  x ∈ l → ∃ p, length p = S n ∧ head p = Some x ∧ (∀ y, y ∈ p → y ∈ l) ∧ path p.
Proof.
  revert x. induction n as [|n IH]; intros x Hx.
  - exists [x]. split_and!; [done..|set_solver|]. intros [|i] a b; done.
  - destruct (Hl _ Hx) as (y & Hy & Hxy). destruct (IH _ Hy) as (p & Hlen & Hhd & Hin & Hp).
    exists (x :: p). split_and!; [simpl; lia|done|set_solver|].
    intros [|i] a b; simpl; [|apply Hp]. intros [= <-] Hb.
    destruct p; [done|]. simpl in *. congruence.
Qed.

Lemma repeats (p : list A) : ¬ NoDup p → ∃ i j x, i < j ∧ p !! i = Some x ∧ p !! j = Some x.
Proof.
  induction p as [|x p IH]; intros Hd; [destruct Hd; constructor|].
  destruct (decide (x ∈ p)) as [Hin|Hin].
  - apply list_elem_of_lookup in Hin as [j Hj]. exists 0, (S j), x. split_and!; [lia|done..].
  - destruct IH as (i & j & y & Hij & Hi & Hj); [by intros ?; apply Hd; constructor|].
    exists (S i), (S j), y. split_and!; [lia|done..].
Qed.

(** A relation that leads from every element of a finite set to one of the set has a cycle. *)
Lemma total_has_cycle (l : list A) :
  l ≠ [] → (∀ x, x ∈ l → ∃ y, y ∈ l ∧ R x y) → ∃ x, x ∈ l ∧ tc R x x.
Proof.
  intros Hne Hl. destruct l as [|x0 l']; [done|]. set (l := x0 :: l') in *.
  destruct (path_exists l Hl (length l) x0) as (p & Hlen & _ & Hin & Hp); [set_solver|].
  destruct (repeats p) as (i & j & x & Hij & Hi & Hj).
  - intros Hnd. apply NoDup_ListNoDup in Hnd.
    assert (length p ≤ length l); [|lia]. apply NoDup_incl_length; [done|].
    intros y Hy. apply list_elem_of_In, Hin. by apply list_elem_of_In.
  - exists x. split; [apply Hin; by eapply list_elem_of_lookup_2|by eapply path_tc].
Qed.

End cycles.

Section answers.
Context `{VmTypes}.
Context (start_block : Block → Context → Context).
Context (quoinerror_to_value : QuoinError → Value).
Context (stress : bool).
Implicit Types (vm : VmState) (t : Task) (d : Driver).

Abbreviation act := (act start_block quoinerror_to_value stress).
Abbreviation enabled := (enabled stress).
Abbreviation reachable := (reachable start_block quoinerror_to_value stress).

(** ** Suspended calls *)

Lemma answers_no_result k w :
  answers k w = true → k ≠ YGather → (outcome_of k (Some w)).1 ≠ RErr (no_result k).
Proof. by destruct k, w. Qed.

Lemma resume_clears d c k :
  inv d → d_current d = Some c →
  cancel_current (d_vm (resume d c k).1) = false
  ∧ ∀ t, get_task (d_vm (resume d c k).1) c = Some t → t_cancel_requested t = false.
Proof.
  intros Hinv Hc. destruct (current_task_full d c Hinv Hc) as [t Ht].
  destruct (inv_suspensions _ Hinv) as [_ _ _ S4 S5 _ _].
  pose proof (S5 _ Hc) as Hcur. pose proof (S4 _ _ Hc Ht) as Hcc.
  unfold resume. destruct (resumed (d_vm d) k) as [vm' o] eqn:E. simpl.
  destruct (resumed_effect _ _ _ _ t E) as (_ & _ & _ & _ & _ & Hf & Hget);
    [by rewrite Hcur|done|]. split; [done|].
  intros u. rewrite Hget, Hcur, decide_True by done. by intros [= <-].
Qed.

(** C30: A suspended call that resumes has its answer, along orderly runs: runs in which a claim's
    grant is delivered to a task that is still parked and a task joins only other tasks, with
    handles ([Driver.orderly]; after the grant of a cancelled [serviceStop] an operation does
    resume without a result, [stale_drain_grant_panics]).  When the task made current was suspended
    in a call, either its cancellation is pending, and the call raises [Cancelled], or a wake
    of the kind the call waits for is in the mailbox, and the call answers it.  The branch that
    raises "resumed without a result" is never taken in these runs, in none of the five calls.
    Afterwards no cancellation is pending: it is raised once. *)
Theorem suspended_calls_are_answered d c k :
  reachable d → d_current d = Some c → d_suspended d !! c = Some k →
  let o := (resume d c k).2 in
  (if cancel_current (d_vm d)
   then o = match k with YChannel => RWake true (mailbox (d_vm d)) | _ => RErr Cancelled end
   else ∃ w, mailbox (d_vm d) = Some w ∧ answers k w = true ∧ o = (outcome_of k (Some w)).1)
  ∧ (k ≠ YGather → o ≠ RErr (no_result k)) ∧ o ≠ RWake false None
  ∧ cancel_current (d_vm (resume d c k).1) = false
  ∧ ∀ t, get_task (d_vm (resume d c k).1) c = Some t → t_cancel_requested t = false.
Proof.
  intros Hr%reachable_sched_inv Hc Hk.
  assert (cancel_current (d_vm (resume d c k).1) = false
          ∧ ∀ t, get_task (d_vm (resume d c k).1) c = Some t → t_cancel_requested t = false)
    as Honce by (by eapply resume_clears).
  cut ((let o := (resume d c k).2 in
        (if cancel_current (d_vm d)
         then o = match k with YChannel => RWake true (mailbox (d_vm d)) | _ => RErr Cancelled end
         else ∃ w, mailbox (d_vm d) = Some w ∧ answers k w = true ∧ o = (outcome_of k (Some w)).1)
        ∧ (k ≠ YGather → o ≠ RErr (no_result k)) ∧ o ≠ RWake false None)).
  { intros (? & ? & ?). destruct Honce. by split_and!. }
  clear Honce. pose proof (su_current _ (inv_suspensions _ Hr) _ _ Hc Hk) as Ha.
  unfold resume, resumed. destruct (cancel_current (d_vm d)) eqn:E.
  - destruct k; simpl; done.
  - destruct Ha as [|(w & Hw & Ha)]; [done|]. rewrite Hw.
    pose proof (answers_no_result _ _ Ha) as Hn.
    destruct (outcome_of k (Some w)) as [o ex] eqn:Eo. simpl in *.
    split_and!; [exists w; by rewrite Eo|done|].
    intros ->. destruct k, w; simplify_eq/=.
Qed.

(** ** Deadlocks *)

(** Task [id] waits for the end of task [id']. *)
Definition waits_for d (id id' : TaskId) : Prop :=
  joining_at (d_vm d) id = Some id' ∨ ∃ slot, parent_at (d_vm d) id' = Some (id, slot).

Definition live_tasks d : list TaskId :=
  filter (λ id, is_Some (get_task (d_vm d) id)) (seq 0 (length (tasks (d_vm d)))).

Lemma elem_of_live d id : id ∈ live_tasks d ↔ is_Some (get_task (d_vm d) id).
Proof.
  unfold live_tasks. rewrite list_elem_of_filter, elem_of_seq. split; [by intros [? _]|].
  intros [t Ht]. split; [by eexists|]. apply get_task_lt in Ht. lia.
Qed.

Definition parked_at d (id : TaskId) : bool :=
  match get_task (d_vm d) id with Some t => t_parked_on_channel t | None => false end.

(** A task parked elsewhere than on a channel waits for a live task. *)
Lemma parked_waits d id t :
  inv d → get_task (d_vm d) id = Some t → blocked t = 1 → t_parked_on_channel t = false →
  ∃ id', is_Some (get_task (d_vm d) id') ∧ waits_for d id id'.
Proof.
  intros Hinv Ht Hb Hp. unfold blocked in Hb. rewrite Hp in Hb.
  destruct (t_joining t) as [g|] eqn:HJ.
  - exists g. assert (joining_at (d_vm d) id = Some g) as Hj by (unfold joining_at; by rewrite Ht).
    split; [|by left]. destruct (jn_listed _ _ (inv_joins _ Hinv) _ _ Hj) as (ws & Hws & _).
    unfold waiters_at in Hws. destruct (get_task (d_vm d) g); [by eexists|done].
  - destruct (t_gather t) as [g|] eqn:Hg; [|done].
    pose proof (inv_gathers _ Hinv id) as Hga. unfold gather_at in Hga. rewrite Ht in Hga.
    simpl in Hga. rewrite Hg in Hga. destruct Hga as [(cs & [_ Hcs] & Hlen) Hpos _ _].
    destruct cs as [|id' cs]; [simpl in Hlen; lia|].
    assert (id' ∈ id' :: cs) as [slot Hslot]%Hcs by set_solver. exists id'.
    split; [|right; by exists slot]. unfold parent_at in Hslot.
    destruct (get_task (d_vm d) id'); [by eexists|done].
Qed.

(** C31: A deadlock has a cause among the tasks, along orderly runs: runs in which a claim's grant
    is delivered to a task that is still parked and a task joins only other tasks, with handles
    ([Driver.orderly]; after a timeout has joined a reused slot there is a deadlock without such
    a cause, [reused_slot_deadlocks]).  When the driver reports a deadlock, nothing is
    ready and nothing is in flight, and every live task (the main task is one) is parked; if
    none of them is parked on a channel, tasks wait for each other's ends in a cycle of joins
    and gathers.  So such a run without channels deadlocks only by a cycle of waits. *)
Theorem deadlock_has_a_cause d d' :
  reachable d → enabled d Stop = true → act d Stop = Some d' → d_ended d' = Some Deadlock →
  is_Some (get_task (d_vm d) 0)
  ∧ (∀ id t, get_task (d_vm d) id = Some t → blocked t = 1)
  ∧ ((∃ id t, get_task (d_vm d) id = Some t ∧ t_parked_on_channel t = true)
     ∨ ∃ id, tc (waits_for d) id id).
Proof.
  intros Hr%reachable_sched_inv Hen Hact Hdl. unfold enabled in Hen.
  destruct (d_current d) eqn:Hc; [by rewrite andb_false_r in Hen|].
  apply andb_true_iff in Hen as [_ [Hrd%bool_decide_eq_true Hf%bool_decide_eq_true]%andb_true_iff].
  injection Hact as <-. simpl in Hdl. case_bool_decide as Hmain; [|done].
  assert (Hb : ∀ id t, get_task (d_vm d) id = Some t → blocked t = 1).
  { intros id t Ht. pose proof (pl_count _ _ _ (inv_places _ Hr) id (blocked t)) as Hn.
    unfold blocked_at in Hn. rewrite Ht in Hn. rewrite (Hn eq_refl), decide_False; [done|].
    unfold runnable. rewrite Hc, Hrd, Hf. intros [?|?]; [done|]. by apply elem_of_nil in H0. }
  split_and!; [done..|].
  destruct (existsb (parked_at d) (live_tasks d)) eqn:Hex.
  { apply existsb_exists in Hex as (id & _ & Hp). left. exists id. unfold parked_at in Hp.
    destruct (get_task (d_vm d) id) as [t|]; [by exists t|done]. }
  right. edestruct (total_has_cycle (waits_for d) (live_tasks d)) as (id & _ & Hcyc).
  - intros Hnil. assert (0 ∈ live_tasks d) as Hin by (by apply elem_of_live).
    rewrite Hnil in Hin. by apply elem_of_nil in Hin.
  - intros id Hid. pose proof Hid as [t Ht]%elem_of_live.
    destruct (parked_waits d id t Hr Ht (Hb _ _ Ht)) as (id' & Hlive & Hw).
    + destruct (t_parked_on_channel t) eqn:Hp; [|done].
      assert (existsb (parked_at d) (live_tasks d) = true); [|congruence].
      apply existsb_exists. exists id. split; [by apply list_elem_of_In|].
      unfold parked_at. by rewrite Ht.
    + exists id'. split; [by apply elem_of_live|done].
  - by exists id.
Qed.

(** ** The end of a task *)

Lemma wake_joiners_disarm wake ws w u a : ∀ vm,
  NoDup ws → (∀ x, x ∈ ws → is_Some (get_task vm x)) → w ∈ ws → get_task vm w = Some u →
  t_deadline_abort u = Some a → a ∈ aborted (foldl (wake_joiner wake) vm ws).
Proof.
  induction ws as [|x ws IH]; intros vm Hnd Hlive Hin Hu Ha; simpl; [by apply elem_of_nil in Hin|].
  apply NoDup_cons in Hnd as [Hx Hnd]. destruct (Hlive x) as [tx Htx]; [set_solver|].
  destruct (wake_joiner_effect wake vm x tx Htx) as (_ & _ & _ & _ & _ & _ & _ & Hmono & _ & Hget).
  assert (Hlive' : ∀ y, y ∈ ws → is_Some (get_task (wake_joiner wake vm x) y)).
  { intros y Hy. rewrite Hget. case_decide; [by eexists|]. apply Hlive. set_solver. }
  apply elem_of_cons in Hin as [->|Hin].
  - destruct (wake_joiners_effect wake ws _ Hnd Hlive') as (_ & _ & _ & _ & _ & _ & _ & Hm & _).
    apply Hm. unfold wake_joiner. rewrite Hu, Ha. simpl. set_solver.
  - apply IH; [done..| |done]. rewrite Hget, decide_False; [done|]. by intros ->.
Qed.

(** The end of a detached task is told to each of its joiners, once.  Its slot is freed;
    its handle, running until then, records the outcome: done with the value, failed with the
    error as a value, cancelled. The waiters of the task are exactly the tasks that join it;
    they become ready in the order in which they joined, each with the outcome as its wake, its
    join over and its deadline disarmed. *)
Theorem joiners_hear_the_outcome d c t h result d' :
  reachable d → enabled d (Complete result) = true → d_current d = Some c →
  get_task (d_vm d) c = Some t → t_handle t = Some h → act d (Complete result) = Some d' →
  let o := classify quoinerror_to_value (d_vm d) result in
  (∃ hd, handles (d_vm d) !! h = Some hd ∧ h_id hd = c ∧ h_status hd = Running
         ∧ handles (d_vm d') !! h = Some (finish_handle o hd))
  ∧ get_task (d_vm d') c = None
  ∧ ready (d_vm d') = ready (d_vm d) ++ t_waiters t
  ∧ (∀ w, w ∈ t_waiters t ↔ ∃ u, get_task (d_vm d) w = Some u ∧ t_joining u = Some c)
  ∧ (∀ w, w ∈ t_waiters t → ∃ u, get_task (d_vm d) w = Some u
            ∧ get_task (d_vm d') w = Some (woken (outcome_wake o) u))
  ∧ ∀ w u a, w ∈ t_waiters t → get_task (d_vm d) w = Some u → t_deadline_abort u = Some a →
      a ∈ aborted (d_vm d').
Proof.
  intros Hr%reachable_sched_inv Hen Hc Ht Hh Hact o.
  pose proof (ki_task _ (inv_kinds _ Hr) _ _ Ht) as Hk.
  assert (t_parent t = None) as Hpar by (destruct (tk_one _ _ _ Hk); congruence).
  destruct (tk_handle _ _ _ Hk _ Hh) as (hd & Hhd & Hid & Hrun).
  destruct (waiting_tasks d c t Hr Ht) as [Hnd Hws].
  destruct (current_unparked d c Hr Hc t Ht) as (HJt & _).
  simpl in Hact. rewrite Hc in Hact. unfold complete_current_task in Hact. rewrite Ht in Hact.
  simpl in Hact. rewrite Hpar, Hh in Hact. unfold complete_detached in Hact. rewrite Ht in Hact.
  simpl in Hact. rewrite Hh in Hact. simpl in Hact. injection Hact as <-. fold o. simpl.
  set (vm1 := free_task (set_handles (alter (finish_handle o) h (handles (d_vm d))) (d_vm d)) c).
  assert (Hget1 : ∀ j, get_task vm1 j = if decide (j = c) then None else get_task (d_vm d) j)
    by (intros j; unfold vm1; by rewrite get_free, get_set_handles).
  assert (Hcw : ∀ w, w ∈ t_waiters t → w ≠ c).
  { intros w Hin ->. destruct (Hws _ Hin) as (u & Hu & HJu). congruence. }
  destruct (wake_joiners_effect (outcome_wake o) (t_waiters t) vm1)
    as (Er & _ & _ & _ & _ & Eh & _ & _ & _ & Eget); [done| |].
  { intros w Hin. rewrite Hget1, decide_False by auto. destruct (Hws _ Hin) as (u & ? & _). eauto. }
  split_and!.
  - exists hd. rewrite Eh. split_and!; [done..|]. simpl. rewrite lookup_alter_eq. by rewrite Hhd.
  - rewrite Eget. case_decide; by rewrite Hget1, decide_True.
  - by rewrite Er.
  - intros w. split; [apply Hws|]. intros (u & Hu & HJu).
    destruct (jn_listed _ _ (inv_joins _ Hr) w c) as (ws & Hw & Hin).
    { unfold joining_at. by rewrite Hu. }
    unfold waiters_at in Hw. rewrite Ht in Hw. by injection Hw as <-.
  - intros w Hin. destruct (Hws _ Hin) as (u & Hu & _). exists u. split; [done|].
    rewrite Eget, decide_True, Hget1, decide_False by auto. by rewrite Hu.
  - intros w u a Hin Hu Ha. eapply wake_joiners_disarm; [done| |done| |done].
    + intros x Hx. rewrite Hget1, decide_False by auto. destruct (Hws _ Hx) as (v & ? & _). eauto.
    + by rewrite Hget1, decide_False by auto.
Qed.

End answers.

(** ** Gathers *)

Section batches.
Context `{VmTypes}.

(** The results of the children of a gather, in the order in which they end. *)
Definition complete_batch (g : GatherState) (ends : list (nat * (QuoinError + Value)))
    : option GatherState :=
  foldl (λ og '(slot, result), g ← og; record_result g slot result) (Some g) ends.

Fixpoint first_failure (ends : list (nat * (QuoinError + Value))) : option QuoinError :=
  match ends with
  | [] => None
  | (_, inl e) :: _ => Some e
  | _ :: ends' => first_failure ends'
  end.

Lemma complete_batch_effect ends : ∀ g,
  NoDup (map fst ends) → (∀ slot, slot ∈ map fst ends → slot < length (g_results g)) →
  ∃ g', complete_batch g ends = Some g' ∧ g_pending g' = g_pending g - length ends
    ∧ length (g_results g') = length (g_results g)
    ∧ g_first_error g' = match g_first_error g with Some e => Some e | None => first_failure ends end
    ∧ (∀ slot v, (slot, inr v) ∈ ends → g_results g' !! slot = Some (Some v))
    ∧ ∀ slot, slot ∉ map fst ends → g_results g' !! slot = g_results g !! slot.
Proof.
  induction ends as [|[slot result] ends IH]; intros g Hnd Hlt.
  - exists g. split_and!; [done|simpl; lia|done|by destruct (g_first_error g)|set_solver|done].
  - simpl in Hnd. apply NoDup_cons in Hnd as [Hnot Hnd].
    assert (slot < length (g_results g)) as Hslot by (apply Hlt; set_solver).
    assert (∃ g1, record_result g slot result = Some g1 ∧ g_pending g1 = g_pending g - 1
              ∧ length (g_results g1) = length (g_results g)
              ∧ g_first_error g1 = match g_first_error g with Some e => Some e
                                   | None => match result with inl e => Some e | _ => None end end
              ∧ (∀ v, result = inr v → g_results g1 !! slot = Some (Some v))
              ∧ ∀ s, s ≠ slot → g_results g1 !! s = g_results g !! s)
      as (g1 & Hg1 & Hp & Hl & He & Hv & Ho).
    { unfold record_result. destruct result as [e|v].
      - eexists. split; [done|]. simpl. by destruct (g_first_error g).
      - rewrite bool_decide_true by done. eexists. split; [done|]. simpl.
        split_and!; [done|apply length_insert|by destruct (g_first_error g)| |].
        + intros v' [= <-]. by apply list_lookup_insert_eq.
        + intros s Hs. by apply list_lookup_insert_ne. }
    destruct (IH g1 Hnd) as (g' & Hg' & Hp' & Hl' & He' & Hv' & Ho').
    { intros s Hs. rewrite Hl. apply Hlt. set_solver. }
    exists g'. unfold complete_batch in *. simpl. rewrite Hg1. split_and!; [done|simpl; lia|congruence|..].
    + rewrite He', He. simpl. destruct (g_first_error g); [done|]. by destruct result.
    + intros s v [[= -> <-]|Hin]%elem_of_cons; [|by apply Hv'].
      rewrite Ho' by done. by apply Hv.
    + intros s Hs. simpl in Hs. apply not_elem_of_cons in Hs as [Hne Hs].
      rewrite Ho' by done. by apply Ho.
Qed.

Lemma first_failure_none ends slot result :
  first_failure ends = None → (slot, result) ∈ ends → ∃ v, result = inr v.
Proof.
  induction ends as [|[s [e|v]] ends IH]; simpl; [set_solver|done|].
  intros Hn [[= _ ->]|Hin]%elem_of_cons; [by eexists|auto].
Qed.

(** A gather answers with every result, in the order of its blocks, or the first error.
    Let the children of a new gather over [n] blocks end in any order, each once. No result is
    lost or recorded out of range; the batch is complete exactly at the end; and the parent's
    wake is the list of the values, the value of block [i] at index [i], if every child
    succeeded, and otherwise the error of the child that failed first. *)
Theorem gather_answers_in_block_order n ends :
  map fst ends ≡ₚ seq 0 n →
  ∃ g, complete_batch (mkGather n (replicate n None) None) ends = Some g
    ∧ g_pending g = 0
    ∧ match first_failure ends with
      | Some e => gather_wake g = Some (WGatherErr e)
      | None => ∃ items, gather_wake g = Some (WGather items) ∧ length items = n
                  ∧ ∀ slot v, (slot, inr v) ∈ ends → items !! slot = Some v
      end.
Proof.
  intros Hp. destruct (complete_batch_effect ends (mkGather n (replicate n None) None))
    as (g & Hg & Hpend & Hlen & He & Hv & _).
  - rewrite Hp. apply NoDup_ListNoDup, seq_NoDup.
  - intros slot. rewrite Hp, elem_of_seq. simpl. rewrite length_replicate. lia.
  - simpl in *. rewrite length_replicate in Hlen. exists g. split; [done|]. split.
    { apply Permutation_length in Hp. rewrite length_map, length_seq in Hp. lia. }
    unfold gather_wake. rewrite He. destruct (first_failure ends) as [e|] eqn:Hf; [done|].
    assert (is_Some (all_results (g_results g))) as [items Hitems].
    { apply mapM_is_Some, Forall_lookup. intros s o Ho. apply lookup_lt_Some in Ho as Hs.
      assert (s ∈ map fst ends) as ([s' r] & -> & Hin)%list_elem_of_fmap
        by (rewrite Hp, elem_of_seq; lia).
      destruct (first_failure_none _ _ _ Hf Hin) as [v ->]. simpl in *.
      rewrite (Hv _ _ Hin) in Ho. injection Ho as <-. by eexists. }
    rewrite Hitems. simpl. exists items. apply mapM_Some in Hitems.
    split_and!; [done|by rewrite <-(Forall2_length _ _ _ Hitems)|].
    intros slot v Hin. pose proof (Hv _ _ Hin) as Hs.
    destruct (Forall2_lookup_l _ _ _ _ _ Hitems Hs) as (v' & Hv' & [= ->]). done.
Qed.

End batches.

(** ** Cancellation *)

Section cancelling.
Context `{VmTypes}.
Context (start_block : Block → Context → Context).
Context (quoinerror_to_value : QuoinError → Value).
Context (stress : bool).
Implicit Types (vm : VmState) (t : Task) (d : Driver).

Abbreviation act := (act start_block quoinerror_to_value stress).
Abbreviation enabled := (enabled stress).
Abbreviation reachable := (reachable start_block quoinerror_to_value stress).

(** What is left of a nudged task's park. *)
Lemma nudge_leaves vm g t :
  get_task vm g = Some t →
  ∃ t', get_task (nudge_cancelled vm g) g = Some t'
    ∧ t_cancel_requested t' = t_cancel_requested t ∧ t_abort_handle t' = None
    ∧ (g ∈ ready (nudge_cancelled vm g) ∨ is_Some (t_wake t')
       ∨ (t_joining t' = None ∧ t_parked_on_channel t' = false)
       ∨ ∃ a, t_abort_handle t = Some a ∧ a ∈ aborted (nudge_cancelled vm g)).
Proof.
  intros Ht. unfold nudge_cancelled. rewrite Ht.
  destruct (t_abort_handle t) as [ah|] eqn:Hah.
  { eexists. rewrite get_abort_opt, (get_put _ _ _ _ _ Ht), decide_True by done.
    split_and!; [done..|]. do 3 right. exists ah. split; [done|]. simpl. set_solver. }
  destruct (t_wake t) eqn:Hw.
  { exists t. rewrite Hw. eauto 10. }
  destruct (t_joining t) as [joined|] eqn:HJ.
  { set (t' := set_t_deadline None (set_t_joining None t)).
    assert (get_task (abort_opt (t_deadline_abort t) (put_task vm g t')) g = Some t') as Hg
      by (by rewrite get_abort_opt, (get_put _ _ _ _ _ Ht), decide_True).
    rewrite get_push_ready. unfold drop_waiter. rewrite get_update, Hg.
    case_decide; simpl; (eexists; split; [done|]; split_and!; [done..|]; left; set_solver). }
  destruct (t_parked_on_channel t) eqn:Hp.
  - eexists. rewrite get_push_ready, (get_put _ _ _ _ _ Ht), decide_True by done.
    split_and!; [done..|]. left. simpl. set_solver.
  - exists t. auto 10.
Qed.

(** A cancelled task is on its way to hear it.  After the running task cancels another live
    task, that task is flagged, and it is in the ready queue, or owns an operation in flight
    that is aborted (whose completion makes it ready), or waits for the children of its own
    gather.  In particular a task parked in a join or on a channel is woken at once, and none
    is queued twice. *)
Theorem cancelled_task_is_woken d c g t d' :
  reachable d → enabled d (Cancel g) = true → d_current d = Some c → g ≠ c →
  get_task (d_vm d) g = Some t → act d (Cancel g) = Some d' →
  NoDup (ready (d_vm d')) ∧
  ∃ t', get_task (d_vm d') g = Some t' ∧ t_cancel_requested t' = true
    ∧ (g ∈ ready (d_vm d')
       ∨ (∃ f, f ∈ d_futures d' ∧ f_kind f = FutIo ∧ f_task f = g ∧ f_id f ∈ aborted (d_vm d'))
       ∨ is_Some (t_gather t')).
Proof.
  intros Hr Hen Hc Hgc Ht Hact. pose proof (reachable_sched_inv _ _ _ _ Hr) as Hinv.
  assert (inv d') as Hinv'.
  { eapply happens_inv; [exact Hinv|]. by econstructor. }
  split; [apply (NoDup_app (ready (d_vm d')) (io_owners (d_futures d'))), Hinv'|].
  simpl in Hact. rewrite Hc in Hact. simpl in Hact. injection Hact as <-. simpl in *.
  assert (request_cancel (d_vm d) g
          = nudge_cancelled (put_task (d_vm d) g (set_t_cancel true t)) g) as Hreq.
  { unfold request_cancel. rewrite Ht. simpl.
    rewrite (su_running _ (inv_suspensions _ Hinv) _ Hc). by rewrite (proj2 (Nat.eqb_neq g c)). }
  rewrite Hreq in *.
  destruct (nudge_leaves (put_task (d_vm d) g (set_t_cancel true t)) g (set_t_cancel true t))
    as (t' & Ht' & Hcan & Hab & Hcase); [by rewrite (get_put _ _ _ _ _ Ht), decide_True|].
  exists t'. split_and!; [done..|]. destruct Hcase as [?|[Hw|[[HJ Hp]|(a & Ha & Hin)]]]; [by left|..].
  - left. by apply (ts_wake _ _ _ (su_task _ (inv_suspensions _ Hinv') _ _ Ht')).
  - destruct (t_gather t') as [gs|] eqn:Hg; [right; right; by eexists|].
    pose proof (pl_count _ _ _ (inv_places _ Hinv') g (blocked t')) as Hn.
    unfold blocked_at in Hn. simpl in Hn. rewrite Ht' in Hn. specialize (Hn eq_refl).
    unfold blocked in Hn. rewrite HJ, Hp, Hg in Hn. simpl in Hn.
    case_decide as Hrun; [|done]. destruct Hrun as [Hcur|Hrun]; [congruence|].
    unfold runnable in Hrun. apply elem_of_app in Hrun as [?|Hio]; [by left|].
    apply io_owners_elem in Hio as (f & Hf & Hk & Hft).
    destruct (ki_abort _ (inv_kinds _ Hinv') _ Hf Hk) as (u & Hu & Hd).
    simpl in Hu, Hd. rewrite Hft, Ht' in Hu. injection Hu as <-. case_decide as Hin.
    + right. left. by exists f.
    + congruence.
  - destruct (tk_abort _ _ _ (ki_task _ (inv_kinds _ Hinv) _ _ Ht) a Ha) as (f & Hf & Hid & Hft & Hk).
    right. left. exists f. split_and!; [done..|]. by rewrite Hid.
Qed.

End cancelling.

(** * Concrete runs of the scheduler

    Values, blocks and results of operations as numbers: small programs run on the driver,
    and the theorems about the scheduler applied to the states they reach. *)

#[export] Instance demo_types : VmTypes := {|
  Value := nat; Frame := nat; NativeCall := unit; AotTaskState := unit; aot_default := tt;
  Block := nat; IoResult := nat; OtherError := unit |}.

(** A block starts with one frame, its own number. *)
Definition demo_start (b : Block) (c : Context) : Context :=
  mkContext [] [b : Frame] [] aot_default.
Definition five : Value := (5 : nat).
Definition seven : Value := (7 : nat).
Definition demo_error (e : QuoinError) : Value := (99 : nat).

Abbreviation demo_enabled := (enabled false).
Abbreviation demo_act := (act demo_start demo_error false).
Abbreviation demo_happens := (happens demo_start demo_error false).
Abbreviation demo_reachable := (reachable demo_start demo_error false).

(** A list of happenings, each of which must be possible and orderly. *)
Fixpoint exec (acts : list Act) (d : Driver) : option Driver :=
  match acts with
  | [] => Some d
  | a :: acts' =>
      if demo_enabled d a && orderly (d_vm d) (d_current d) a
      then d' ← demo_act d a; exec acts' d' else None
  end.

Definition state_after (acts : list Act) : Driver := default start_driver (exec acts start_driver).

Lemma exec_happens acts d d' : exec acts d = Some d' → rtc demo_happens d d'.
Proof.
  revert d. induction acts as [|a acts IH]; intros d; simpl; [by intros [= <-]|].
  destruct (demo_enabled d a && _) eqn:Hen; [|done]. apply andb_true_iff in Hen as [Hen Hor].
  destruct (demo_act d a) as [d1|] eqn:Ha; [|done]. intros Hx.
  eapply rtc_l; [by econstructor|by apply IH].
Qed.

Lemma state_reachable acts :
  is_Some (exec acts start_driver) → demo_reachable (state_after acts).
Proof. intros [d Hd]. unfold state_after. rewrite Hd. by apply exec_happens in Hd. Qed.

(** Main spawns a task and joins it; the task does some input or output and ends with 5. *)
Definition join_run : list Act :=
  [Spawn 1; Join 1; Pick 0; AwaitIo; Deliver 0 7; Pick 0; Resume; Complete (inr five); Pick 0].

Example main_hears_five :
  (resume (state_after join_run) 0 YJoin).2 = RValue 5.
Proof. vm_compute. reflexivity. Qed.

Lemma scheduler_never_panics_witness :
  (∀ a, demo_enabled (state_after join_run) a = true →
        is_Some (demo_act (state_after join_run) a))
  ∧ (d_ended (state_after join_run) = None →
     ∃ a, demo_enabled (state_after join_run) a = true
          ∧ orderly (d_vm (state_after join_run)) (d_current (state_after join_run)) a = true).
Proof.
  apply (scheduler_never_panics demo_start demo_error false (state_after join_run) (7 : nat)).
  apply state_reachable. vm_compute. by eexists.
Defined.

Lemma every_task_in_one_place_witness :
  b2n (bool_decide (d_current (state_after join_run) = Some 0))
  + occurs 0 (ready (d_vm (state_after join_run)))
  + occurs 0 (io_owners (d_futures (state_after join_run)))
  + default 0 (blocked_at (d_vm (state_after join_run)) 0)
  = b2n (bool_decide (is_Some (get_task (d_vm (state_after join_run)) 0))).
Proof.
  apply (every_task_in_one_place demo_start demo_error false (state_after join_run) 0).
  apply state_reachable. vm_compute. by eexists.
Defined.

Lemma suspended_calls_are_answered_witness :
  (resume (state_after join_run) 0 YJoin).2 ≠ RErr (no_result YJoin).
Proof.
  apply (suspended_calls_are_answered demo_start demo_error false (state_after join_run) 0 YJoin).
  - apply state_reachable. vm_compute. by eexists.
  - by vm_compute.
  - by vm_compute.
  - done.
Defined.

(** Two tasks join each other, and main joins one of them. *)
Definition cycle_run : list Act :=
  [Spawn 1; Spawn 2; Join 1; Pick 0; Join 2; Pick 0; Join 1].

Lemma deadlock_has_a_cause_witness :
  is_Some (get_task (d_vm (state_after cycle_run)) 0)
  ∧ (∀ id t, get_task (d_vm (state_after cycle_run)) id = Some t → blocked t = 1)
  ∧ ((∃ id t, get_task (d_vm (state_after cycle_run)) id = Some t ∧ t_parked_on_channel t = true)
     ∨ ∃ id, tc (waits_for (state_after cycle_run)) id id).
Proof.
  apply (deadlock_has_a_cause demo_start demo_error false (state_after cycle_run)
           (state_after (cycle_run ++ [Stop]))).
  - apply state_reachable. vm_compute. by eexists.
  - by vm_compute.
  - by vm_compute.
  - by vm_compute.
Defined.

(** The task that ends, while main joins it. *)
Definition ending_run : list Act := [Spawn 1; Join 1; Pick 0].

Definition ending_task : Task :=
  default (main_task 0) (get_task (d_vm (state_after ending_run)) 1).

Lemma joiners_hear_the_outcome_witness :
  ∃ d', demo_act (state_after ending_run) (Complete (inr five)) = Some d'
        ∧ ready (d_vm d') = [0]
        ∧ get_task (d_vm d') 1 = None.
Proof.
  assert (is_Some (demo_act (state_after ending_run) (Complete (inr five)))) as [d' Hd']
    by (vm_compute; by eexists).
  destruct (joiners_hear_the_outcome demo_start demo_error false (state_after ending_run) 1
              ending_task (default 0%N (t_handle ending_task)) (inr five) d')
    as (_ & Hfree & Hready & _).
  - apply state_reachable. vm_compute. by eexists.
  - by vm_compute.
  - by vm_compute.
  - by vm_compute.
  - by vm_compute.
  - exact Hd'.
  - exists d'. split; [exact Hd'|]. split; [|exact Hfree]. rewrite Hready. by vm_compute.
Defined.

Lemma gather_answers_in_block_order_witness :
  ∃ g : GatherState,
    complete_batch (mkGather 2 (replicate 2 None) None) [(1, inr seven); (0, inr five)]
    = Some g ∧ ∃ items, gather_wake g = Some (WGather items) ∧ items !! 0 = Some five.
Proof.
  destruct (gather_answers_in_block_order 2 [(1, inr seven); (0, inr five)])
    as (g & Hg & _ & items & Hw & _ & Hi).
  - simpl. apply Permutation_swap.
  - exists g. split; [exact Hg|]. exists items. split; [exact Hw|]. apply Hi. right. by left.
Defined.

(** Task 1 parks on a channel; main runs again. *)
Definition park_run : list Act := [Spawn 1; Yield; Pick 0; ParkOnChannel; Pick 0].

Definition parked_task : Task :=
  default (main_task 0) (get_task (d_vm (state_after park_run)) 1).

Lemma cancelled_task_is_woken_witness :
  ∃ d', demo_act (state_after park_run) (Cancel 1) = Some d' ∧ NoDup (ready (d_vm d')).
Proof.
  assert (is_Some (demo_act (state_after park_run) (Cancel 1))) as [d' Hd']
    by (vm_compute; by eexists).
  exists d'. split; [exact Hd'|].
  apply (cancelled_task_is_woken demo_start demo_error false (state_after park_run) 0 1
           parked_task d').
  - apply state_reachable. vm_compute. by eexists.
  - by vm_compute.
  - by vm_compute.
  - done.
  - by vm_compute.
  - exact Hd'.
Defined.

(** The queue: two tasks spawned, main yields behind them, and each is picked in turn. *)
Definition demo_spawn (b : nat) : Act := Spawn b.
Definition queue_acts : list Act := [demo_spawn 1; demo_spawn 2; Yield].

Lemma ready_queue_is_fifo_witness :
  ∃ queued, ready (d_vm start_driver) ++ queued
            = [1] ++ ready (d_vm (state_after (queue_acts ++ [Pick 0]))).
Proof.
  apply (ready_queue_is_fifo demo_start demo_error false start_driver [1]
           (state_after (queue_acts ++ [Pick 0]))); [done|apply rtc_refl|].
  apply (run_other _ _ _ _ (demo_spawn 1) (state_after [demo_spawn 1])); [by vm_compute|done|by vm_compute|done|].
  apply (run_other _ _ _ _ (demo_spawn 2) (state_after [demo_spawn 1; demo_spawn 2])); [by vm_compute|done|by vm_compute|done|].
  apply (run_other _ _ _ _ Yield (state_after queue_acts)); [by vm_compute|done|by vm_compute|done|].
  apply (run_pick _ _ _ _ 0 (state_after (queue_acts ++ [Pick 0])) 1); [by vm_compute..|].
  apply run_nil.
Defined.

(** Main yields with a frame 4 on its stack; task 1 computes meanwhile. *)
Definition main_slice : Slice := mkSlice (mkContext [] [4 : nat] [] aot_default) None [] empty_context 0.

Definition yielding_run : list Act := [Spawn 1; Compute main_slice None].
Definition meanwhile_run : list Act := yielding_run ++ [Yield; Pick 0; Compute fresh_slice None; AwaitIo].

Lemma task_resumes_where_it_left_witness :
  vm_live (d_vm (state_after (meanwhile_run ++ [Pick 0]))) = main_slice.
Proof.
  assert (Hstep : ∀ acts a, is_Some (exec (acts ++ [a]) start_driver) →
            d_current (state_after (acts ++ [a])) ≠ Some 0 → demo_enabled (state_after acts) a = true →
            orderly (d_vm (state_after acts)) (d_current (state_after acts)) a = true →
            demo_act (state_after acts) a = Some (state_after (acts ++ [a])) →
            happens_without demo_start demo_error false 0 (state_after acts) (state_after (acts ++ [a]))).
  { intros acts a _ Hc Hen Hor Ha. split; [by econstructor|exact Hc]. }
  rewrite (task_resumes_where_it_left demo_start demo_error false 0 (state_after yielding_run) Yield
             (state_after (yielding_run ++ [Yield])) (state_after meanwhile_run) 0).
  - by vm_compute.
  - apply state_reachable. vm_compute. by eexists.
  - by vm_compute.
  - by vm_compute.
  - by vm_compute.
  - by vm_compute.
  - by vm_compute.
  - vm_compute. by eexists.
  - eapply rtc_l; [apply (Hstep (yielding_run ++ [Yield]) (Pick 0))|].
    1-5: vm_compute; first [done|by eexists].
    eapply rtc_l; [apply (Hstep (yielding_run ++ [Yield; Pick 0]) (Compute fresh_slice None))|].
    1-5: vm_compute; first [done|by eexists].
    apply rtc_once. apply (Hstep (yielding_run ++ [Yield; Pick 0; Compute fresh_slice None]) AwaitIo).
    all: vm_compute; first [done|by eexists].
  - by vm_compute.
  - by vm_compute.
Defined.

(** Task 1 parks in epoch 2 and is cancelled: its pair stays dead, also when it parks again. *)
Lemma stale_waiters_stay_dead_witness :
  channel_waiter_live
    (d_vm (state_after (park_run ++ [Cancel 1; AwaitIo; Pick 0; Resume; ParkOnChannel]))) 1 2%N = false.
Proof.
  apply (stale_waiters_stay_dead demo_start demo_error false (state_after (park_run ++ [Cancel 1]))).
  - apply state_reachable. vm_compute. by eexists.
  - apply (exec_happens [AwaitIo; Pick 0; Resume; ParkOnChannel]). by vm_compute.
  - by vm_compute.
  - by vm_compute.
  - by vm_compute.
Defined.

(** ** Two runs that are not orderly *)

(** The happenings need only be possible. *)
Fixpoint exec_possible (acts : list Act) (d : Driver) : option Driver :=
  match acts with
  | [] => Some d
  | a :: acts' => if demo_enabled d a then d' ← demo_act d a; exec_possible acts' d' else None
  end.

Definition possibly_after (acts : list Act) : Driver :=
  default start_driver (exec_possible acts start_driver).

(** Task 1 is in [serviceStop], parked for the drain of a peer.  Main cancels it; its cleanup
    starts an operation; and then main ends the call the drain waited for, whose grant goes to
    the entry left behind. *)
Definition stale_drain_run : list Act :=
  [Spawn 1; Yield; Pick 0; ParkOnChannel; Pick 0; Cancel 1; Yield; Pick 0; Resume; AwaitIo;
   Pick 0; WakeGrant 1 (WServiceClaim None)].

(** The grant of a cancelled drain.  The task is queued while its operation is in flight; run
    again, it raises that the operation resumed without a result; and when it has ended, the
    delivery of its operation panics. *)
Lemma stale_drain_grant_panics :
  is_Some (exec_possible stale_drain_run start_driver)
  ∧ ready (d_vm (possibly_after stale_drain_run)) = [1]
  ∧ io_owners (d_futures (possibly_after stale_drain_run)) = [1]
  ∧ (let d := possibly_after (stale_drain_run ++ [Yield; Pick 0]) in
     d_current d = Some 1 ∧ (resume d 1 YIo).2 = RErr (no_result YIo))
  ∧ let d := possibly_after
               (stale_drain_run ++ [Yield; Pick 0; Resume; Complete (inr five); Pick 0]) in
    demo_enabled d (Deliver 0 (7 : nat)) = true ∧ demo_act d (Deliver 0 (7 : nat)) = None.
Proof. vm_compute. split; [by eexists|done]. Qed.

(** Main waits for task 2 with a deadline.  The deadline fires while task 2 is about to end;
    before main runs again task 1 gathers, and the gather's child gets slot 2.  Main, whose
    timeout drains task 2, cancels and joins the child. *)
Definition reused_slot_run : list Act :=
  [Spawn 1; JoinTimed 2; Pick 0; AwaitIo; Pick 0; AwaitIo;
   Deliver 1 (7 : nat); Pick 0; Resume; Deliver 1 (7 : nat); Yield; Pick 0; Resume;
   Deliver 0 (7 : nat); Complete (inr five); Pick 0; Gather [3 : nat]; Pick 0; Resume;
   Cancel 2; Join 2; Pick 0; Complete (inr five); Pick 0; Resume; Complete (inr five); Stop].

(** A deadlock without a cause among the tasks: main alone is left, joined to an empty slot. *)
Lemma reused_slot_deadlocks :
  is_Some (exec_possible reused_slot_run start_driver)
  ∧ let d := possibly_after reused_slot_run in
    d_ended d = Some Deadlock
    ∧ live_tasks d = [0] ∧ joining_at (d_vm d) 0 = Some 2 ∧ get_task (d_vm d) 2 = None
    ∧ parked_at d 0 = false.
Proof. vm_compute. split; [by eexists|done]. Qed.
