(* ===== verification/Channel.v ===== *)
(** * Channels (src/src/runtime/channel.rs)

    A channel is a buffer and two queues of parked tasks, receivers and senders, local or at
    the far end of a worker link.  One definition per operation: send, receive, redeliver,
    close, shipping, the death of a link, and the frames of remote endpoints.

    What a channel needs of the scheduler is the class [Parking]: is the pair of a task and a
    park epoch live, who is running and in which epoch, park, wake.  Whether a value can cross
    to another isolate, and what arrives there, are parameters ([value_to_wire] and
    [wire_to_value] of the extension module).  An operation that suspends its task is in two
    parts, before and after the suspension.

    One channel is modelled at a time: its state, the id it is hosted under, how many
    endpoints each link's peer holds, and the frames it has emitted. *)
From stdpp Require Import base numbers list gmap strings.
From stdpp Require Import options.
From S2P Require Import Prelude Sched.

(** What channels use of the scheduler. *)
Class Parking `{VmTypes} (S : Type) := {
  pk_live : S → TaskId → N → bool;
  pk_me : S → TaskId;
  pk_epoch : S → N;
  pk_park : S → S;
  pk_wake : S → TaskId → Wake → S }.

Section types.
Context `{VmTypes}.
Context {WireData : Type}.

Inductive RecvWaiter :=
| RLocal (task : TaskId) (epoch : N)
| RRemote (link : nat) (corr : N).

Inductive SendWaiter :=
| SLocal (task : TaskId) (epoch : N) (value : Value)
| SRemote (link : nat) (corr : N) (value : Value).

Inductive PoppedRecv :=
| PopRLocal (task : TaskId)
| PopRRemote (link : nat) (corr : N).

Inductive PoppedSend :=
| PopSLocal (task : TaskId) (value : Value)
| PopSRemote (link : nat) (corr : N) (value : Value).

(** Whom [channel_close] tells. *)
Inductive Woken :=
| WokenLocal (id : TaskId) (epoch : N)
| WokenRemote (link : nat) (corr : N).

Definition match_recv (r : RecvWaiter) : Woken :=
  match r with RLocal task epoch => WokenLocal task epoch | RRemote link corr => WokenRemote link corr end.

Definition match_send (s : SendWaiter) : Woken :=
  match s with
  | SLocal task epoch _ => WokenLocal task epoch
  | SRemote link corr _ => WokenRemote link corr
  end.

Record ChanShip := mkShip { ship_id : N; ship_refs : nat }.

Record NativeChannelState := mkChannel {
  ch_cap : nat;
  ch_closed : bool;
  ch_buffer : list Value;
  ch_recv : list RecvWaiter;
  ch_send : list SendWaiter;
  ch_ship : option ChanShip }.

Inductive ChanFrame :=
| FSend (chan corr : N) (value : WireData)
| FAck (corr : N)
| FRecv (chan corr : N)
| FValue (corr : N) (value : WireData)
| FClosedFor (corr : N)
| FRecvError (corr : N) (message : string)
| FClose (chan : N)
| FCancel (chan corr : N)
| FRelease (chan : N)
| FReturn (chan : N) (value : WireData).

End types.

Arguments ChanFrame : clear implicits.

Section channel.
Context `{VmTypes} {S : Type} `{Parking S}.
Context {WireData : Type}.
Context (value_to_wire : Value → string + WireData).
Context (wire_to_value : WireData → string + Value).

(** The channel in its isolate: the scheduler, the channel, the id it is rooted under, the
    endpoints shipped over each link by hosted id ([ChanLink::shipped]), the frames handed to
    each link's outbound lane. *)
Record World := mkWorld {
  w_vm : S;
  w_ch : NativeChannelState;
  w_hosted : option N;
  w_shipped : gmap (nat * N) nat;
  w_out : list (nat * ChanFrame WireData) }.

Implicit Types (w : World) (ch : NativeChannelState).

Definition set_vm x w : World := mkWorld x (w_ch w) (w_hosted w) (w_shipped w) (w_out w).
Definition set_ch x w : World := mkWorld (w_vm w) x (w_hosted w) (w_shipped w) (w_out w).
Definition set_hosted x w : World := mkWorld (w_vm w) (w_ch w) x (w_shipped w) (w_out w).
Definition set_shipped x w : World := mkWorld (w_vm w) (w_ch w) (w_hosted w) x (w_out w).
Definition set_closed x ch : NativeChannelState :=
  mkChannel (ch_cap ch) x (ch_buffer ch) (ch_recv ch) (ch_send ch) (ch_ship ch).
Definition set_buffer x ch : NativeChannelState :=
  mkChannel (ch_cap ch) (ch_closed ch) x (ch_recv ch) (ch_send ch) (ch_ship ch).
Definition set_recv x ch : NativeChannelState :=
  mkChannel (ch_cap ch) (ch_closed ch) (ch_buffer ch) x (ch_send ch) (ch_ship ch).
Definition set_send x ch : NativeChannelState :=
  mkChannel (ch_cap ch) (ch_closed ch) (ch_buffer ch) (ch_recv ch) x (ch_ship ch).
Definition set_ship x ch : NativeChannelState :=
  mkChannel (ch_cap ch) (ch_closed ch) (ch_buffer ch) (ch_recv ch) (ch_send ch) x.

Definition new_channel (cap : nat) : NativeChannelState := mkChannel cap false [] [] [] None.

(** [chan_emit]. *)
Definition chan_emit (link : nat) (frame : ChanFrame WireData) w : World :=
  mkWorld (w_vm w) (w_ch w) (w_hosted w) (w_shipped w) (w_out w ++ [(link, frame)]).

Definition wake_task (task : TaskId) (wk : Wake) w : World := set_vm (pk_wake (w_vm w) task wk) w.

(** ** Waiters *)

(** Skip the ghosts at the head of a queue of receivers; pop the first live one. *)
Fixpoint skip_recv (vm : S) (ws : list RecvWaiter) : list RecvWaiter * option PoppedRecv :=
  match ws with
  | [] => ([], None)
  | RLocal task epoch :: ws' =>
      if pk_live vm task epoch then (ws', Some (PopRLocal task)) else skip_recv vm ws'
  | RRemote link corr :: ws' => (ws', Some (PopRRemote link corr))
  end.

Definition pop_live_recv w : World * option PoppedRecv :=
  let '(ws, p) := skip_recv (w_vm w) (ch_recv (w_ch w)) in (set_ch (set_recv ws (w_ch w)) w, p).

Fixpoint skip_send (vm : S) (ws : list SendWaiter) : list SendWaiter * option PoppedSend :=
  match ws with
  | [] => ([], None)
  | SLocal task epoch value :: ws' =>
      if pk_live vm task epoch then (ws', Some (PopSLocal task value)) else skip_send vm ws'
  | SRemote link corr value :: ws' => (ws', Some (PopSRemote link corr value))
  end.

Definition pop_live_send w : World * option PoppedSend :=
  let '(ws, p) := skip_send (w_vm w) (ch_send (w_ch w)) in (set_ch (set_send ws (w_ch w)) w, p).

Definition popped_value (p : PoppedSend) : Value :=
  match p with PopSLocal _ v => v | PopSRemote _ _ v => v end.

Definition complete_send (p : PoppedSend) w : World :=
  match p with
  | PopSLocal task _ => wake_task task WChannelSendOk w
  | PopSRemote link corr _ => chan_emit link (FAck corr) w
  end.

Definition push_front (v : Value) w : World :=
  set_ch (set_buffer (v :: ch_buffer (w_ch w)) (w_ch w)) w.

Definition push_back (v : Value) w : World :=
  set_ch (set_buffer (ch_buffer (w_ch w) ++ [v]) (w_ch w)) w.

Definition cannot_cross (e : string) : string :=
  ("the received value cannot cross to the remote endpoint: " ++ e)%string.

(** Hand a value to a popped receiver; [false] when it bounced and went back to the buffer. *)
Definition deliver_to_recv (popped : PoppedRecv) (v : Value) w : World * bool :=
  match popped with
  | PopRLocal task => (wake_task task (WChannelRecv v) w, true)
  | PopRRemote link corr =>
      match value_to_wire v with
      | inr wire => (chan_emit link (FValue corr wire) w, true)
      | inl e => (push_front v (chan_emit link (FRecvError corr (cannot_cross e)) w), false)
      end
  end.

Definition channel_redeliver (v : Value) w : World :=
  match pop_live_recv w with
  | (w, Some popped) => (deliver_to_recv popped v w).1
  | (w, None) => push_front v w
  end.

(** ** Send *)

Definition closed_error : QuoinError := ValueError "send on a closed channel".
Definition portable_error (e : string) : QuoinError :=
  ValueError ("this channel has remote endpoints; values must be portable: " ++ e)%string.

(** An operation either answers, or its task parks. *)
Inductive Step (A : Type) :=
| Answers (a : A)
| Fails (e : QuoinError)
| Parks.

Definition has_room ch : bool := bool_decide (length (ch_buffer ch) < ch_cap ch).

(** The running task suspends, registered in a queue. *)
Definition park_send (v : Value) w : World :=
  set_vm (pk_park (w_vm w))
    (set_ch (set_send (ch_send (w_ch w) ++ [SLocal (pk_me (w_vm w)) (pk_epoch (w_vm w)) v])
               (w_ch w)) w).

Definition park_recv w : World :=
  set_vm (pk_park (w_vm w))
    (set_ch (set_recv (ch_recv (w_ch w) ++ [RLocal (pk_me (w_vm w)) (pk_epoch (w_vm w))])
               (w_ch w)) w).

Definition channel_send (v : Value) w : World * Step unit :=
  if ch_closed (w_ch w) then (w, Fails _ closed_error)
  else
    match (if bool_decide (is_Some (ch_ship (w_ch w))) then value_to_wire v else inl EmptyString),
          bool_decide (is_Some (ch_ship (w_ch w))) with
    | inl e, true => (w, Fails _ (portable_error e))
    | _, _ =>
        match pop_live_recv w with
        | (w, Some popped) => ((deliver_to_recv popped v w).1, Answers _ ())
        | (w, None) =>
            if has_room (w_ch w) then (push_back v w, Answers _ ())
            else (park_send v w, Parks _)
        end
    end.

(** ** Receive *)

(** A buffered value, the freed slot filled by a parked sender; or a parked sender's value. *)
Definition take_value w : World * option Value :=
  match ch_buffer (w_ch w) with
  | v :: rest =>
      let w := set_ch (set_buffer rest (w_ch w)) w in
      match pop_live_send w with
      | (w, Some popped) => (complete_send popped (push_back (popped_value popped) w), Some v)
      | (w, None) => (w, Some v)
      end
  | [] =>
      match pop_live_send w with
      | (w, Some popped) => (complete_send popped w, Some (popped_value popped))
      | (w, None) => (w, None)
      end
  end.

(** [Some v], or [None] when the channel is closed and drained. *)
Definition channel_recv w : World * Step (option Value) :=
  match take_value w with
  | (w, Some v) => (w, Answers _ (Some v))
  | (w, None) =>
      if ch_closed (w_ch w) then (w, Answers _ None) else (park_recv w, Parks _)
  end.

(** ** After a park *)

(** [channel_park] once resumed: [cancelled] and the wake are the scheduler's answer. *)
Definition channel_resumed (cancelled : bool) (wk : option Wake) w
    : World * (QuoinError + option Wake) :=
  if cancelled then
    (match wk with Some (WChannelRecv v) => channel_redeliver v w | _ => w end, inl Cancelled)
  else
    match wk with
    | Some (WChannelRecv _ | WChannelSendOk | WChannelClosed) => (w, inr wk)
    | _ => (w, inl (no_result YChannel))
    end.

Definition send_resumed (o : QuoinError + option Wake) : QuoinError + unit :=
  match o with
  | inl e => inl e
  | inr (Some WChannelSendOk) => inr ()
  | inr (Some WChannelClosed) => inl closed_error
  | inr _ => inl (Other "channel send resumed as a receive")
  end.

Definition recv_resumed (o : QuoinError + option Wake) : QuoinError + option Value :=
  match o with
  | inl e => inl e
  | inr (Some (WChannelRecv v)) => inr (Some v)
  | inr (Some WChannelClosed) => inr None
  | inr _ => inl (Other "channel receive resumed as a send")
  end.

(** ** Close *)

(** Everyone parked, in the order they are told. *)
Definition parked ch : list Woken :=
  (match_recv <$> ch_recv ch) ++ (match_send <$> ch_send ch).

Definition close_one w (k : Woken) : World :=
  match k with
  | WokenLocal id epoch =>
      if pk_live (w_vm w) id epoch then wake_task id WChannelClosed w else w
  | WokenRemote link corr => chan_emit link (FClosedFor corr) w
  end.

Definition channel_close w : World :=
  foldl close_one (set_ch (set_send [] (set_recv [] (set_closed true (w_ch w)))) w)
    (parked (w_ch w)).

(** ** Shipping *)

(** [fresh_id] is what [hosted_insert] answers. *)
Definition channel_ship (fresh_id : N) w : World * N :=
  match ch_ship (w_ch w) with
  | Some s => (set_ch (set_ship (Some (mkShip (ship_id s) (ship_refs s + 1))) (w_ch w)) w, ship_id s)
  | None =>
      (set_ch (set_ship (Some (mkShip fresh_id 1)) (w_ch w)) (set_hosted (Some fresh_id) w), fresh_id)
  end.

(** [ship_channel] (channel_relay.rs): the reference is counted for the link too. *)
Definition ship_channel (link : nat) (fresh_id : N) w : World * N :=
  let '(w, id) := channel_ship fresh_id w in
  (set_shipped (<[(link, id) := default 0 (w_shipped w !! (link, id)) + 1]> (w_shipped w)) w, id).

(** Give up [refs] references; the last one unroots the channel. *)
Definition drop_refs (refs : nat) w : World :=
  match ch_ship (w_ch w) with
  | Some s =>
      if Nat.eqb (ship_refs s - refs) 0 then set_hosted None (set_ch (set_ship None (w_ch w)) w)
      else set_ch (set_ship (Some (mkShip (ship_id s) (ship_refs s - refs))) (w_ch w)) w
  | None => w
  end.

Definition from_link (link : nat) (r : RecvWaiter) : bool :=
  match r with RRemote l _ => Nat.eqb l link | RLocal _ _ => false end.

Definition channel_link_died (link : nat) w : World :=
  let drained := w_shipped w in
  let w := set_shipped (filter (λ p, p.1.1 ≠ link) (w_shipped w)) w in
  match w_hosted w with
  | None => w
  | Some id =>
      match drained !! (link, id) with
      | None => w
      | Some refs =>
          drop_refs refs
            (set_ch (set_recv (List.filter (λ r, negb (from_link link r)) (ch_recv (w_ch w)))
                       (w_ch w)) w)
      end
  end.

(** ** Frames of remote endpoints *)

Definition is_op_recv (link : nat) (corr : N) (r : RecvWaiter) : bool :=
  match r with RRemote l c => Nat.eqb l link && N.eqb c corr | RLocal _ _ => false end.

Definition is_op_send (link : nat) (corr : N) (s : SendWaiter) : bool :=
  match s with SRemote l c _ => Nat.eqb l link && N.eqb c corr | SLocal _ _ _ => false end.

(** A value taken for a remote receiver: it crosses, or it stays and the receive fails. *)
Definition answer_recv (link : nat) (corr : N) (v : Value) w : World :=
  match value_to_wire v with
  | inr wire => chan_emit link (FValue corr wire) w
  | inl e => push_front v (chan_emit link (FRecvError corr (cannot_cross e)) w)
  end.

Definition remote_send (link : nat) (corr : N) (v : Value) w : World :=
  match pop_live_recv w with
  | (w, Some popped) => chan_emit link (FAck corr) (deliver_to_recv popped v w).1
  | (w, None) =>
      if has_room (w_ch w) then chan_emit link (FAck corr) (push_back v w)
      else set_ch (set_send (ch_send (w_ch w) ++ [SRemote link corr v]) (w_ch w)) w
  end.

Definition remote_recv (link : nat) (corr : N) w : World :=
  match take_value w with
  | (w, Some v) => answer_recv link corr v w
  | (w, None) =>
      if ch_closed (w_ch w) then chan_emit link (FClosedFor corr) w
      else set_ch (set_recv (ch_recv (w_ch w) ++ [RRemote link corr]) (w_ch w)) w
  end.

Definition remote_cancel (link : nat) (corr : N) w : World :=
  let ch := w_ch w in
  set_ch (set_send (List.filter (λ s, negb (is_op_send link corr s)) (ch_send ch))
            (set_recv (List.filter (λ r, negb (is_op_recv link corr r)) (ch_recv ch)) ch)) w.

Definition remote_release (link : nat) (chan : N) w : World :=
  let w :=
    match w_shipped w !! (link, chan) with
    | Some n =>
        set_shipped (if Nat.eqb (n - 1) 0 then delete (link, chan) (w_shipped w)
                     else <[(link, chan) := n - 1]> (w_shipped w)) w
    | None => w
    end in
  if bool_decide (w_hosted w = Some chan) then drop_refs 1 w else w.

(** [channel_apply_owner_frame]; the conversion of an arriving value may fail. *)
Definition apply_owner_frame (link : nat) (frame : ChanFrame WireData) w
    : World * (string + unit) :=
  let hosted chan := bool_decide (w_hosted w = Some chan) in
  match frame with
  | FSend chan corr wire =>
      if negb (hosted chan) then (chan_emit link (FClosedFor corr) w, inr ())
      else if ch_closed (w_ch w) then (chan_emit link (FClosedFor corr) w, inr ())
      else match wire_to_value wire with
           | inl e => (w, inl e)
           | inr v => (remote_send link corr v w, inr ())
           end
  | FRecv chan corr =>
      if negb (hosted chan) then (chan_emit link (FClosedFor corr) w, inr ())
      else (remote_recv link corr w, inr ())
  | FClose chan => (if hosted chan then channel_close w else w, inr ())
  | FCancel chan corr => (if hosted chan then remote_cancel link corr w else w, inr ())
  | FRelease chan => (remote_release link chan w, inr ())
  | FReturn chan wire =>
      if hosted chan then
        match wire_to_value wire with
        | inl e => (w, inl e)
        | inr v => (channel_redeliver v w, inr ())
        end
      else (w, inr ())
  | FAck _ | FValue _ _ | FClosedFor _ | FRecvError _ _ => (w, inr ())
  end.

End channel.
