(* ===== verification/ChannelSpec.v ===== *)
(** * What a channel promises

    The laws channels rely on of the scheduler ([ParkingLaws]); a channel seen without epochs,
    ghosts or frames, as one queue of values, the last of them not yet accepted, and one queue
    of parties that wait for a value ([Queue], [spec]); and how a channel of the code is seen
    as one ([abs]). *)
From stdpp Require Import base numbers list gmap strings.
From stdpp Require Import options.
From S2P Require Import Prelude Sched Channel.

(** What parking and waking do to the pairs that are live.  [pk_running]: some task runs. *)
Class ParkingLaws `{VmTypes} (S : Type) `{!Parking S} := {
  pk_running : S → Prop;
  pk_cancelling : S → bool;
  me_not_live s e : pk_running s → pk_live s (pk_me s) e = false;
  live_unique s t e e' : pk_live s t e = true → pk_live s t e' = true → e = e';
  live_wake s t e wk t' e' : pk_running s → pk_live s t e = true →
    pk_live (pk_wake s t wk) t' e' = negb (Nat.eqb t' t) && pk_live s t' e';
  running_wake s t e wk : pk_running s → pk_live s t e = true → pk_running (pk_wake s t wk);
  me_wake s t wk : pk_me (pk_wake s t wk) = pk_me s;
  epoch_wake s t e wk : pk_running s → pk_live s t e = true → pk_epoch (pk_wake s t wk) = pk_epoch s;
  cancelling_wake s t e wk : pk_running s → pk_live s t e = true →
    pk_cancelling (pk_wake s t wk) = pk_cancelling s;
  epoch_pos s : pk_running s → (0 < pk_epoch s)%N;
  me_park s : pk_me (pk_park s) = pk_me s;
  epoch_park s : pk_running s → pk_epoch (pk_park s) = pk_epoch s;
  live_park s t e : pk_running s → pk_cancelling s = false →
    pk_live (pk_park s) t e = (Nat.eqb t (pk_me s) && N.eqb e (pk_epoch s)) || pk_live s t e }.

Section spec.
Context `{VmTypes} {WireData : Type}.
Context (value_to_wire : Value → string + WireData).
Context (wire_to_value : WireData → string + Value).

(** Who takes part in an operation: a task here, or an operation at the far end of a link. *)
Inductive Party :=
| Here (task : TaskId)
| Far (link : nat) (corr : N).

(** What a waiting party is told. *)
Inductive Notice :=
| Got (v : Value)
| Accepted (v : Value)
| Ended
| Unfit (message : string).

(** A value comes with the party to tell once it is accepted, if that is still to be done. *)
Record Queue := mkQueue {
  q_items : list (Value * option Party);
  q_waiting : list Party;
  q_closed : bool }.

Inductive Outcome :=
| Done
| GotValue (v : Value)
| Drained
| Waits
| Refused (e : QuoinError)
| BadFrame (e : string).

Definition Effect : Type := Queue * list (Party * Notice).

Implicit Types (q : Queue) (v : Value) (p : Party).

(** Why [v] cannot be handed to [p], if it cannot. *)
Definition unfit p v : option string :=
  match p with
  | Here _ => None
  | Far _ _ => match value_to_wire v with inl e => Some (cannot_cross e) | inr _ => None end
  end.

Definition front v q : Queue := mkQueue ((v, None) :: q_items q) (q_waiting q) (q_closed q).

(** Hand [v] to [p]; what does not fit goes to the front. *)
Definition hand p v q : Effect :=
  match unfit p v with
  | Some e => (front v q, [(p, Unfit e)])
  | None => (q, [(p, Got v)])
  end.

(** A value that was accepted before: the first who waits has it, or it goes to the front. *)
Definition offer v q : Effect :=
  match q_waiting q with
  | p :: ps => hand p v (mkQueue (q_items q) ps (q_closed q))
  | [] => (front v q, [])
  end.

Definition is_accepted (i : Value * option Party) : bool :=
  match i.2 with None => true | Some _ => false end.

(** How many values are accepted. *)
Definition accepted q : nat := length (List.filter is_accepted (q_items q)).

(** [who] offers [v]; [true] when it is accepted at once. *)
Definition q_send (cap : nat) (who : Party) v q : Effect * bool :=
  match q_waiting q with
  | _ :: _ => (offer v q, true)
  | [] =>
      let ok := bool_decide (accepted q < cap) in
      (mkQueue (q_items q ++ [(v, if ok then None else Some who)]) [] (q_closed q), [], ok)
  end.

(** The first value not yet accepted is accepted. *)
Fixpoint accept_first (items : list (Value * option Party))
    : list (Value * option Party) * list (Party * Notice) :=
  match items with
  | [] => ([], [])
  | (v, Some p) :: items' => ((v, None) :: items', [(p, Accepted v)])
  | i :: items' => let '(items', ns) := accept_first items' in (i :: items', ns)
  end.

(** The first value leaves, which makes room for one more. *)
Definition q_recv q : Effect * option Value :=
  match accept_first (q_items q) with
  | ((v, _) :: items, ns) => (mkQueue items (q_waiting q) (q_closed q), ns, Some v)
  | ([], ns) => (q, ns, None)
  end.

Definition q_wait (who : Party) q : Queue := mkQueue (q_items q) (q_waiting q ++ [who]) (q_closed q).

(** Accepted values stay; everyone who waits is told. *)
Definition q_close q : Effect :=
  (mkQueue (List.filter is_accepted (q_items q)) [] true,
   ((λ p, (p, Ended)) <$> q_waiting q) ++ ((λ p, (p, Ended)) <$> omap snd (q_items q))).

Definition is_far (link : nat) (corr : N) p : bool :=
  match p with Far l c => Nat.eqb l link && N.eqb c corr | Here _ => false end.

Definition q_forget (link : nat) (corr : N) q : Queue :=
  mkQueue
    (List.filter (λ i, match i.2 with Some p => negb (is_far link corr p) | None => true end)
       (q_items q))
    (List.filter (λ p, negb (is_far link corr p)) (q_waiting q)) (q_closed q).

(** The operations of a channel: of the running task, of a cancelled receiver that resumes
    with a value, and of far endpoints. *)
Inductive ChanOp :=
| Send (v : Value)
| Recv
| CloseIt
| Redeliver (v : Value)
| Frame (link : nat) (frame : ChanFrame WireData).

(** What the operations promise.  [shipped]: the channel has far endpoints; [hosted]: the id
    frames reach it by. *)
Definition spec_frame (cap : nat) (hosted : option N) (link : nat) (frame : ChanFrame WireData) q
    : Effect * Outcome :=
  let here chan := bool_decide (hosted = Some chan) in
  match frame with
  | FSend chan corr wire =>
      if negb (here chan) || q_closed q then (q, [(Far link corr, Ended)], Done)
      else match wire_to_value wire with
           | inl e => (q, [], BadFrame e)
           | inr v =>
               match q_send cap (Far link corr) v q with
               | (q', ns, true) => (q', ns ++ [(Far link corr, Accepted v)], Done)
               | (q', ns, false) => (q', ns, Done)
               end
           end
  | FRecv chan corr =>
      if negb (here chan) then (q, [(Far link corr, Ended)], Done)
      else match q_recv q with
           | (q', ns, Some v) =>
               let '(q', ns') := hand (Far link corr) v q' in (q', ns ++ ns', Done)
           | (q', ns, None) =>
               if q_closed q then (q', ns ++ [(Far link corr, Ended)], Done)
               else (q_wait (Far link corr) q', ns, Done)
           end
  | FClose chan => (if here chan then q_close q else (q, []), Done)
  | FCancel chan corr => (if here chan then q_forget link corr q else q, [], Done)
  | FReturn chan wire =>
      if here chan then
        match wire_to_value wire with
        | inl e => (q, [], BadFrame e)
        | inr v => (offer v q, Done)
        end
      else (q, [], Done)
  | FRelease _ | FAck _ | FValue _ _ | FClosedFor _ | FRecvError _ _ => (q, [], Done)
  end.

Definition spec (cap : nat) (shipped : bool) (hosted : option N) (me : TaskId) (op : ChanOp) q
    : Effect * Outcome :=
  match op with
  | Send v =>
      if q_closed q then (q, [], Refused closed_error)
      else match (if shipped then value_to_wire v else inl EmptyString), shipped with
           | inl e, true => (q, [], Refused (portable_error e))
           | _, _ =>
               let '(e, ok) := q_send cap (Here me) v q in (e, if (ok : bool) then Done else Waits)
           end
  | Recv =>
      match q_recv q with
      | (e, Some v) => (e, GotValue v)
      | (q', ns, None) =>
          if q_closed q then (q', ns, Drained) else (q_wait (Here me) q', ns, Waits)
      end
  | CloseIt => (q_close q, Done)
  | Redeliver v => (offer v q, Done)
  | Frame link frame => spec_frame cap hosted link frame q
  end.

End spec.

Arguments ChanOp {_} WireData.

(** ** The code, seen so *)

Section abs.
Context `{VmTypes} {S : Type} `{!Parking S} {WireData : Type}.
Context (value_to_wire : Value → string + WireData).
Context (wire_to_value : WireData → string + Value).
Implicit Types (w : World (S := S) (WireData := WireData)).

(** The entries of a queue that are no ghosts, as [view] has them. *)
Definition live_of {A B} (who : A → Woken) (view : A → B) (vm : S) (a : A) : option B :=
  match who a with
  | WokenLocal t e => if pk_live vm t e then Some (view a) else None
  | WokenRemote _ _ => Some (view a)
  end.

Definition woken_party (k : Woken) : Party :=
  match k with WokenLocal t _ => Here t | WokenRemote l c => Far l c end.

Definition send_value (s : SendWaiter) : Value :=
  match s with SLocal _ _ v => v | SRemote _ _ v => v end.

Definition live_recv (vm : S) (r : RecvWaiter) : option Party :=
  live_of match_recv (λ r, woken_party (match_recv r)) vm r.

Definition live_send (vm : S) (s : SendWaiter) : option (Value * option Party) :=
  live_of match_send (λ s, (send_value s, Some (woken_party (match_send s)))) vm s.

Definition abs w : Queue :=
  mkQueue (((λ v, (v, None)) <$> ch_buffer (w_ch w)) ++ omap (live_send (w_vm w)) (ch_send (w_ch w)))
    (omap (live_recv (w_vm w)) (ch_recv (w_ch w))) (ch_closed (w_ch w)).

(** What [step] answered, with [Parks] for the answer still to come. *)
Definition outcome {A} (f : A → Outcome) (s : Step A) : Outcome :=
  match s with Answers _ a => f a | Fails _ e => Refused e | Parks _ => Waits end.

(** The code's operation. *)
Definition run (op : ChanOp WireData) w : World (S := S) (WireData := WireData) * Outcome :=
  match op with
  | Send v => let '(w, s) := channel_send value_to_wire v w in (w, outcome (λ _, Done) s)
  | Recv =>
      let '(w, s) := channel_recv w in
      (w, outcome (λ o, match o with Some v => GotValue v | None => Drained end) s)
  | CloseIt => (channel_close w, Done)
  | Redeliver v => (channel_redeliver value_to_wire v w, Done)
  | Frame link frame =>
      let '(w, r) := apply_owner_frame value_to_wire wire_to_value link frame w in
      (w, match r with inl e => BadFrame e | inr () => Done end)
  end.

(** What telling a party comes to: a task is woken, a frame goes out. *)
Definition tell (x : S * list (nat * ChanFrame WireData)) (pn : Party * Notice)
    : S * list (nat * ChanFrame WireData) :=
  let '(vm, out) := x in
  match pn with
  | (Here t, Got v) => (pk_wake vm t (WChannelRecv v), out)
  | (Here t, Accepted _) => (pk_wake vm t WChannelSendOk, out)
  | (Here t, Ended) => (pk_wake vm t WChannelClosed, out)
  | (Here t, Unfit e) => (pk_wake vm t (WChannelErr e), out)
  | (Far l c, Got v) =>
      (vm, out ++ match value_to_wire v with inr wire => [(l, FValue c wire)] | inl _ => [] end)
  | (Far l c, Accepted _) => (vm, out ++ [(l, FAck c)])
  | (Far l c, Ended) => (vm, out ++ [(l, FClosedFor c)])
  | (Far l c, Unfit e) => (vm, out ++ [(l, FRecvError c e)])
  end.

Definition tell_all (ns : list (Party * Notice)) x := foldl tell x ns.

(** The scheduler and the lanes after an operation. *)
Definition effects (ns : list (Party * Notice)) (o : Outcome) w : S * list (nat * ChanFrame WireData) :=
  let '(vm, out) := tell_all ns (w_vm w, w_out w) in
  (match o with Waits => pk_park vm | _ => vm end, out).

(** The tasks registered here, with the epochs they registered in. *)
Definition woken_key (k : Woken) : option (TaskId * N) :=
  match k with WokenLocal t e => Some (t, e) | WokenRemote _ _ => None end.

Definition recv_key (r : RecvWaiter) : option (TaskId * N) := woken_key (match_recv r).

Definition send_key (s : SendWaiter) : option (TaskId * N) := woken_key (match_send s).

Definition keys (ch : NativeChannelState) : list (TaskId * N) :=
  omap recv_key (ch_recv ch) ++ omap send_key (ch_send ch).

End abs.

#[global] Arguments live_of {_ _ _ _ _} _ _ _ _ /.
#[global] Arguments live_recv {_ _ _} _ !_ /.
#[global] Arguments live_send {_ _ _} _ !_ /.
