(* ===== verification/ChannelQueue.v ===== *)
(** * Who is live in a channel

    What skipping ghosts, waking and parking do to a channel seen without them ([abs]); what
    holds of a channel while a task runs ([registered], [q_ok]). *)
From stdpp Require Import base numbers list gmap strings.
From stdpp Require Import options.
From S2P Require Import Prelude Sched Channel ChannelSpec.
#[local] Set Default Proof Using "Type*".
#[local] Set Warnings "-clear-no-such-hyp".

Section live.
Context `{VmTypes} {S : Type} `{!Parking S} `{!ParkingLaws S} {WireData : Type}.
Implicit Types (w : World (S := S) (WireData := WireData)) (ch : NativeChannelState).

(** A task is registered at most once per epoch, and in epochs below [n]. *)
Definition registered (n : N) ch : Prop :=
  NoDup (keys ch) ∧ Forall (λ k, (0 < k.2 < n)%N) (keys ch).

(** A value only waits to be accepted while there is no room; when the channel is closed
    nobody waits. *)
Definition q_ok (cap : nat) (q : Queue) : Prop :=
  (forallb is_accepted (q_items q) = true ∨ cap ≤ accepted q)
  ∧ (q_closed q = true → q_waiting q = [] ∧ forallb is_accepted (q_items q) = true).

(** ** Ghosts *)

Section live_of.
Context {A B : Type} (who : A → Woken) (view : A → B).

(** Waking a live pair makes a ghost of that pair only. *)
Lemma live_of_wake vm t e wk (l : list A) :
  pk_running vm → pk_live vm t e = true → (t, e) ∉ omap (λ a, woken_key (who a)) l →
  omap (live_of who view (pk_wake vm t wk)) l = omap (live_of who view vm) l.
Proof.
  intros Hr Hl. induction l as [|a l IH]; simpl; [done|]. unfold live_of.
  destruct (who a) as [t' e'|l' c']; simpl.
  - rewrite not_elem_of_cons. intros [Hne Hin].
    rewrite (live_wake _ _ _ _ _ _ Hr Hl). destruct (Nat.eqb_spec t' t) as [->|]; simpl.
    + destruct (pk_live vm t e') eqn:He; [|by apply IH].
      destruct Hne. by rewrite (live_unique _ _ _ _ Hl He).
    + destruct (pk_live vm t' e'); [f_equal|]; by apply IH.
  - intros Hin. f_equal. by apply IH.
Qed.

(** Parking makes live no pair that was registered before. *)
Lemma live_of_park vm (l : list A) :
  pk_running vm → pk_cancelling vm = false →
  (pk_me vm, pk_epoch vm) ∉ omap (λ a, woken_key (who a)) l →
  omap (live_of who view (pk_park vm)) l = omap (live_of who view vm) l.
Proof.
  intros Hr Hc. induction l as [|a l IH]; simpl; [done|]. unfold live_of.
  destruct (who a) as [t e|l' c']; simpl.
  - rewrite not_elem_of_cons. intros [Hne Hin]. rewrite (live_park _ _ _ Hr Hc).
    destruct (Nat.eqb_spec t (pk_me vm)) as [->|], (N.eqb_spec e (pk_epoch vm)) as [->|]; simpl;
      [done|destruct (pk_live vm _ _); simpl; first [by apply IH|f_equal; by apply IH]..].
  - intros Hin. f_equal. by apply IH.
Qed.

(** While pairs die, entries only become ghosts. *)
Lemma live_of_dwindles vm vm' (l : list A) :
  (∀ t e, (t, e) ∈ omap (λ a, woken_key (who a)) l →
     pk_live vm' t e = true → pk_live vm t e = true) →
  sublist (omap (live_of who view vm') l) (omap (live_of who view vm) l).
Proof.
  induction l as [|a l IH]; simpl; [done|]. unfold live_of.
  destruct (who a) as [t e|l' c']; simpl; intros Hl.
  - specialize (Hl t e ltac:(left)) as Hte.
    assert (sublist (omap (live_of who view vm') l) (omap (live_of who view vm) l))
      by (apply IH; intros; apply Hl; [by right|done]).
    destruct (pk_live vm' t e), (pk_live vm t e); try done;
      [by apply sublist_skip|by specialize (Hte eq_refl)|by apply sublist_cons].
  - by apply sublist_skip, IH.
Qed.

End live_of.

Lemma live_recv_wake vm t e wk (rs : list RecvWaiter) :
  pk_running vm → pk_live vm t e = true → (t, e) ∉ omap recv_key rs →
  omap (live_recv (pk_wake vm t wk)) rs = omap (live_recv vm) rs.
Proof. apply live_of_wake. Qed.

Lemma live_send_wake vm t e wk (ss : list SendWaiter) :
  pk_running vm → pk_live vm t e = true → (t, e) ∉ omap send_key ss →
  omap (live_send (pk_wake vm t wk)) ss = omap (live_send vm) ss.
Proof. apply live_of_wake. Qed.

Lemma live_recv_park vm (rs : list RecvWaiter) :
  pk_running vm → pk_cancelling vm = false → (pk_me vm, pk_epoch vm) ∉ omap recv_key rs →
  omap (live_recv (pk_park vm)) rs = omap (live_recv vm) rs.
Proof. apply live_of_park. Qed.

Lemma live_send_park vm (ss : list SendWaiter) :
  pk_running vm → pk_cancelling vm = false → (pk_me vm, pk_epoch vm) ∉ omap send_key ss →
  omap (live_send (pk_park vm)) ss = omap (live_send vm) ss.
Proof. apply live_of_park. Qed.

Definition recv_party (p : PoppedRecv) : Party :=
  match p with PopRLocal t => Here t | PopRRemote l c => Far l c end.

Definition send_item (p : PoppedSend) : Value * option Party :=
  match p with PopSLocal t v => (v, Some (Here t)) | PopSRemote l c v => (v, Some (Far l c)) end.

(** Popping a receiver skips what is not seen. *)
Lemma skip_recv_live vm (rs : list RecvWaiter) :
  match skip_recv vm rs with
  | (rs', None) => rs' = [] ∧ omap (live_recv vm) rs = []
  | (rs', Some p) =>
      omap (live_recv vm) rs = recv_party p :: omap (live_recv vm) rs'
      ∧ ∃ ghosts r, rs = ghosts ++ r :: rs'
          ∧ match p with
            | PopRLocal t => ∃ e, r = RLocal t e ∧ pk_live vm t e = true
            | PopRRemote l c => r = RRemote l c
            end
  end.
Proof.
  induction rs as [|[t e|l c] rs IH]; simpl; [done| |].
  - destruct (pk_live vm t e) eqn:Hl.
    + split; [done|]. exists [], (RLocal t e). naive_solver.
    + destruct (skip_recv vm rs) as [rs' [p|]]; [|done].
      destruct IH as (Heq & ghosts & r & -> & Hr). split; [exact Heq|].
      exists (RLocal t e :: ghosts), r. done.
  - split; [done|]. by exists [], (RRemote l c).
Qed.

Lemma skip_send_live vm (ss : list SendWaiter) :
  match skip_send vm ss with
  | (ss', None) => ss' = [] ∧ omap (live_send vm) ss = []
  | (ss', Some p) =>
      omap (live_send vm) ss = send_item p :: omap (live_send vm) ss'
      ∧ ∃ ghosts s, ss = ghosts ++ s :: ss'
          ∧ match p with
            | PopSLocal t v => ∃ e, s = SLocal t e v ∧ pk_live vm t e = true
            | PopSRemote l c v => s = SRemote l c v
            end
  end.
Proof.
  induction ss as [|[t e v|l c v] ss IH]; simpl; [done| |].
  - destruct (pk_live vm t e) eqn:Hl.
    + split; [done|]. exists [], (SLocal t e v). naive_solver.
    + destruct (skip_send vm ss) as [ss' [p|]]; [|done].
      destruct IH as (Heq & ghosts & r & -> & Hr). split; [exact Heq|].
      exists (SLocal t e v :: ghosts), r. done.
  - split; [done|]. by exists [], (SRemote l c v).
Qed.

Lemma accept_first_accepted (vs : list Value) items :
  accept_first (((λ v, (v, None)) <$> vs) ++ items)
  = (((λ v, (v, None)) <$> vs) ++ (accept_first items).1, (accept_first items).2).
Proof.
  induction vs as [|v vs IH]; csimpl; [by destruct (accept_first items)|]. by rewrite IH.
Qed.

Lemma q_recv_abs w :
  let ss := omap (live_send (w_vm w)) (ch_send (w_ch w)) in
  let q items := mkQueue items (q_waiting (abs w)) (q_closed (abs w)) in
  q_recv (abs w)
  = match ch_buffer (w_ch w), ss with
    | v :: rest, _ =>
        (q (((λ v, (v, None)) <$> rest) ++ (accept_first ss).1), (accept_first ss).2, Some v)
    | [], (v, Some p) :: ss => (q ss, [(p, Accepted v)], Some v)
    | [], (v, None) :: ss => (q (accept_first ss).1, (accept_first ss).2, Some v)
    | [], [] => (abs w, [], None)
    end.
Proof.
  intros ss q. unfold q_recv. change (q_items (abs w))
    with (((λ v, (v, None)) <$> ch_buffer (w_ch w)) ++ ss).
  rewrite accept_first_accepted. destruct (ch_buffer (w_ch w)) as [|v rest]; csimpl; [|done].
  destruct ss as [|[v [p|]] ss']; simpl; try done. by destruct (accept_first ss').
Qed.

Lemma accepted_abs w : accepted (abs w) = length (ch_buffer (w_ch w)).
Proof.
  unfold accepted, abs. simpl. rewrite List.filter_app, length_app.
  assert (List.filter is_accepted (omap (live_send (w_vm w)) (ch_send (w_ch w))) = []) as ->.
  { induction (ch_send (w_ch w)) as [|[t e v|l c v] ss IH]; simpl; [done| |done].
    by destruct (pk_live (w_vm w) t e). }
  simpl. rewrite Nat.add_0_r. induction (ch_buffer (w_ch w)); csimpl; [done|]. simpl. by f_equal.
Qed.

Lemma all_accepted_abs w :
  forallb is_accepted (q_items (abs w)) = true → omap (live_send (w_vm w)) (ch_send (w_ch w)) = [].
Proof.
  unfold abs. simpl. rewrite forallb_app. intros [_ Hs]%andb_true_iff. revert Hs.
  induction (ch_send (w_ch w)) as [|[t e v|l c v] ss IH]; simpl; [done| |done].
  by destruct (pk_live (w_vm w) t e).
Qed.

Lemma has_room_abs w : has_room (w_ch w) = bool_decide (accepted (abs w) < ch_cap (w_ch w)).
Proof. by rewrite accepted_abs. Qed.

(** ** Parking *)

Lemma old_not_here w :
  registered (pk_epoch (w_vm w)) (w_ch w) → (pk_me (w_vm w), pk_epoch (w_vm w)) ∉ keys (w_ch w).
Proof. intros [_ Hold] Hin. rewrite Forall_forall in Hold. apply Hold in Hin. simpl in Hin. lia. Qed.

Lemma live_me_park vm :
  pk_running vm → pk_cancelling vm = false → pk_live (pk_park vm) (pk_me vm) (pk_epoch vm) = true.
Proof. intros Hr Hc. by rewrite (live_park _ _ _ Hr Hc), Nat.eqb_refl, N.eqb_refl. Qed.

Lemma park_send_abs v w :
  pk_running (w_vm w) → pk_cancelling (w_vm w) = false → registered (pk_epoch (w_vm w)) (w_ch w) →
  abs (park_send v w)
  = mkQueue (q_items (abs w) ++ [(v, Some (Here (pk_me (w_vm w))))]) (q_waiting (abs w))
      (q_closed (abs w)).
Proof.
  intros Hr Hc [Hnr Hns]%old_not_here%not_elem_of_app. unfold abs. simpl.
  rewrite live_recv_park, omap_app, live_send_park by done. simpl.
  by rewrite live_me_park, app_assoc.
Qed.

Lemma park_recv_abs w :
  pk_running (w_vm w) → pk_cancelling (w_vm w) = false → registered (pk_epoch (w_vm w)) (w_ch w) →
  abs (park_recv w) = q_wait (Here (pk_me (w_vm w))) (abs w).
Proof.
  intros Hr Hc [Hnr Hns]%old_not_here%not_elem_of_app. unfold abs, q_wait. simpl.
  rewrite live_send_park, omap_app, live_recv_park by done. simpl.
  by rewrite live_me_park.
Qed.

Lemma registered_more ch ch' n :
  registered n ch → keys ch' ≡ₚ keys ch → registered n ch'.
Proof. intros [Hn Hf] Hk. split; by rewrite Hk. Qed.

Lemma registered_mono ch ch' n m :
  registered n ch → sublist (keys ch') (keys ch) → (n ≤ m)%N → registered m ch'.
Proof.
  intros [Hn Hf] Hk Hle. split; [by eapply sublist_NoDup|].
  apply Forall_forall. intros k Hin. rewrite Forall_forall in Hf.
  assert (0 < k.2 < n)%N; [apply Hf; by eapply elem_of_submseteq, sublist_submseteq|lia].
Qed.

Definition live_woken (vm : S) (k : Woken) : option Party := live_of (λ k, k) woken_party vm k.

Lemma live_woken_wake vm t e wk (ks : list Woken) :
  pk_running vm → pk_live vm t e = true → (t, e) ∉ omap woken_key ks →
  omap (live_woken (pk_wake vm t wk)) ks = omap (live_woken vm) ks.
Proof. apply live_of_wake. Qed.

Lemma parked_keys ch : omap woken_key (parked ch) = keys ch.
Proof.
  unfold parked, keys. rewrite omap_app. f_equal.
  - induction (ch_recv ch) as [|[] rs IH]; csimpl; [done|by f_equal|done].
  - induction (ch_send ch) as [|[] rs IH]; csimpl; [done|by f_equal|done].
Qed.

Lemma parked_live w :
  omap (live_woken (w_vm w)) (parked (w_ch w)) = q_waiting (abs w) ++ omap snd (q_items (abs w)).
Proof.
  unfold parked, abs. simpl. rewrite !omap_app.
  assert (omap snd ((λ v : Value, (v, None (A := Party))) <$> ch_buffer (w_ch w)) = []) as ->
    by (by induction (ch_buffer (w_ch w))).
  simpl. f_equal.
  - induction (ch_recv (w_ch w)) as [|[t e|] rs IH]; csimpl; [done| |by f_equal].
    by destruct (pk_live (w_vm w) t e); [f_equal|].
  - induction (ch_send (w_ch w)) as [|[t e v|] rs IH]; csimpl; [done| |by f_equal].
    by destruct (pk_live (w_vm w) t e); csimpl; [f_equal|].
Qed.

Lemma only_accepted w :
  List.filter is_accepted (q_items (abs w)) = (λ v, (v, None)) <$> ch_buffer (w_ch w).
Proof.
  unfold abs. simpl. rewrite List.filter_app.
  assert (List.filter is_accepted (omap (live_send (w_vm w)) (ch_send (w_ch w))) = []) as ->.
  { induction (ch_send (w_ch w)) as [|[t e v|l c v] ss IH]; simpl; [done| |done].
    by destruct (pk_live (w_vm w) t e). }
  rewrite app_nil_r. induction (ch_buffer (w_ch w)); csimpl; [done|]. by f_equal.
Qed.

End live.

(** * A channel is the queue it promises

    Operation by operation: it answers, tells and leaves what [spec] says of [abs]. *)
#[local] Set Default Proof Using "Type*".
#[local] Set Warnings "-clear-no-such-hyp".

Section lemmas.
Context `{VmTypes} {S : Type} `{!Parking S} `{!ParkingLaws S} {WireData : Type}.
Context (value_to_wire : Value → string + WireData).
Implicit Types (w : World (S := S) (WireData := WireData)) (ch : NativeChannelState).

(** The step from [w] to [w'] is the effect [e]: what is left, and who was told. *)
Record does w (e : Effect) w' : Prop := {
  do_abs : abs w' = e.1;
  do_told : (w_vm w', w_out w') = tell_all value_to_wire e.2 (w_vm w, w_out w);
  do_running : pk_running (w_vm w');
  do_me : pk_me (w_vm w') = pk_me (w_vm w);
  do_epoch : pk_epoch (w_vm w') = pk_epoch (w_vm w);
  do_cancelling : pk_cancelling (w_vm w') = pk_cancelling (w_vm w);
  do_keys : sublist (keys (w_ch w')) (keys (w_ch w));
  do_cap : ch_cap (w_ch w') = ch_cap (w_ch w);
  do_ship : ch_ship (w_ch w') = ch_ship (w_ch w) ∧ w_hosted w' = w_hosted w
            ∧ w_shipped w' = w_shipped w }.

(** ** Steps *)

Lemma does_trans w q1 ns1 w1 q2 ns2 w2 :
  does w (q1, ns1) w1 → does w1 (q2, ns2) w2 → does w (q2, ns1 ++ ns2) w2.
Proof.
  intros [A1 T1 R1 M1 E1 C1 K1 P1 (S1 & H1 & L1)] [A2 T2 R2 M2 E2 C2 K2 P2 (S2 & H2 & L2)].
  split; simpl in *; try congruence.
  - unfold tell_all in *. by rewrite foldl_app, <- T1.
  - by etrans.
  - split_and!; congruence.
Qed.

Lemma does_refl w : pk_running (w_vm w) → does w (abs w, []) w.
Proof. by split. Qed.

(** A party popped from a queue: a task that is live, and registered nowhere else. *)
Definition ready_here w (t : TaskId) : Prop :=
  ∃ e, pk_live (w_vm w) t e = true ∧ (t, e) ∉ keys (w_ch w).

Definition party_ready w (p : Party) : Prop :=
  match p with Here t => ready_here w t | Far _ _ => True end.

Definition told (p : Party) (n : Notice) w : World (S := S) (WireData := WireData) :=
  let '(vm, out) := tell value_to_wire (w_vm w, w_out w) (p, n) in
  mkWorld vm (w_ch w) (w_hosted w) (w_shipped w) out.

(** Telling a popped party leaves the channel as it is. *)
Lemma told_does p n w :
  pk_running (w_vm w) → party_ready w p → does w (abs w, [(p, n)]) (told p n w).
Proof.
  intros Hr Hp. destruct p as [t|l c].
  - destruct Hp as (e & Hl & [Hnr Hns]%not_elem_of_app).
    assert (∃ wk, told (Here t) n w = wake_task t wk w) as [wk Htold]
      by (destruct n; eexists; reflexivity).
    split; try (destruct n; done); rewrite ?Htold; simpl; try done.
    + unfold abs. simpl. by rewrite (live_send_wake _ _ e), (live_recv_wake _ _ e).
    + by apply running_wake with e.
    + apply me_wake.
    + by apply epoch_wake with e.
    + by apply cancelling_wake with e.
  - destruct n; by split.
Qed.

Lemma pop_recv_does w n :
  pk_running (w_vm w) → registered n (w_ch w) →
  match pop_live_recv w with
  | (w', None) => does w (abs w, []) w' ∧ q_waiting (abs w) = []
  | (w', Some p) =>
      ∃ ps, q_waiting (abs w) = recv_party p :: ps
        ∧ does w (mkQueue (q_items (abs w)) ps (q_closed (abs w)), []) w'
        ∧ party_ready w' (recv_party p)
  end.
Proof.
  intros Hr [Hnd _]. unfold pop_live_recv.
  pose proof (skip_recv_live (w_vm w) (ch_recv (w_ch w))) as Hs. unfold keys in Hnd.
  destruct (skip_recv (w_vm w) (ch_recv (w_ch w))) as [rs' [p|]].
  - destruct Hs as (Hw & ghosts & r & Hrs & Hp). exists (omap (live_recv (w_vm w)) rs').
    rewrite Hrs, omap_app in Hnd. simpl in Hnd. split_and!; [done|split; try done|].
    + simpl. unfold keys. simpl. rewrite Hrs, omap_app. apply sublist_app; [|done].
      apply sublist_inserts_l. simpl. by destruct (recv_key r); [apply sublist_cons|].
    + destruct p as [t|l c]; [|done]. destruct Hp as (e & -> & Hl). exists e.
      split; [done|]. unfold keys. simpl. simpl in Hnd.
      rewrite <- app_assoc in Hnd. apply NoDup_app in Hnd as (_ & _ & Hnd).
      by apply NoDup_cons in Hnd as [? _].
  - destruct Hs as [-> Hw]. split; [|done]. split; try done.
    + unfold abs. simpl. by rewrite Hw.
    + unfold keys. simpl. apply sublist_inserts_l. done.
Qed.

Lemma pop_send_does w n :
  pk_running (w_vm w) → registered n (w_ch w) →
  match pop_live_send w with
  | (w', None) => does w (abs w, []) w' ∧ omap (live_send (w_vm w)) (ch_send (w_ch w)) = []
  | (w', Some p) =>
      ∃ ss, omap (live_send (w_vm w)) (ch_send (w_ch w)) = send_item p :: ss
        ∧ does w (mkQueue (((λ v, (v, None)) <$> ch_buffer (w_ch w)) ++ ss)
                    (q_waiting (abs w)) (q_closed (abs w)), []) w'
        ∧ (∀ q, (send_item p).2 = Some q → party_ready w' q)
        ∧ ch_buffer (w_ch w') = ch_buffer (w_ch w)
        ∧ omap (live_send (w_vm w')) (ch_send (w_ch w')) = ss
  end.
Proof.
  intros Hr [Hnd _]. unfold pop_live_send.
  pose proof (skip_send_live (w_vm w) (ch_send (w_ch w))) as Hs. unfold keys in Hnd.
  destruct (skip_send (w_vm w) (ch_send (w_ch w))) as [ss' [p|]].
  - destruct Hs as (Hw & ghosts & s & Hss & Hp). exists (omap (live_send (w_vm w)) ss').
    rewrite Hss, omap_app in Hnd. simpl in Hnd. split_and!; [done|split; try done| |done|done].
    + simpl. unfold keys. simpl. rewrite Hss, omap_app. apply sublist_app; [done|].
      apply sublist_inserts_l. simpl. by destruct (send_key s); [apply sublist_cons|].
    + intros q. destruct p as [t v|l c v]; simpl; intros [= <-]; [|done].
      destruct Hp as (e & -> & Hl). exists e.
      split; [done|]. unfold keys. simpl. simpl in Hnd.
      rewrite app_assoc in Hnd. apply NoDup_app in Hnd as (Hn1 & Hn2 & Hnd).
      apply NoDup_cons in Hnd as [Hn3 _].
      rewrite not_elem_of_app. split; [|done]. intros Hin. apply (Hn2 (t, e)); [|left].
      rewrite elem_of_app. by left.
  - destruct Hs as [-> Hw]. split; [|done]. split; try done.
    + unfold abs. simpl. by rewrite Hw.
    + unfold keys. simpl. apply sublist_app; [done|]. apply sublist_nil_l.
Qed.

(** ** Operations *)

Lemma push_front_does v w : pk_running (w_vm w) → does w (front v (abs w), []) (push_front v w).
Proof. by split. Qed.

Lemma deliver_does p v w :
  pk_running (w_vm w) → party_ready w (recv_party p) →
  does w (hand value_to_wire (recv_party p) v (abs w)) (deliver_to_recv value_to_wire p v w).1.
Proof.
  intros Hr Hp. unfold hand. destruct p as [t|l c]; simpl in *.
  - apply (told_does (Here t) (Got v)); done.
  - destruct (value_to_wire v) as [e|wire] eqn:Hv; simpl.
    + pose proof (told_does (Far l c) (Unfit (cannot_cross e)) w Hr I) as Hd.
      exact (does_trans _ _ _ _ _ _ _ Hd (push_front_does v _ (do_running _ _ _ Hd))).
    + pose proof (told_does (Far l c) (Got v) w Hr I) as Hd. unfold told in Hd. simpl in Hd.
      by rewrite Hv in Hd.
Qed.

Definition acked (p : PoppedSend) : list (Party * Notice) :=
  match (send_item p).2 with Some q => [(q, Accepted (popped_value p))] | None => [] end.

Lemma complete_does p w :
  pk_running (w_vm w) → (∀ q, (send_item p).2 = Some q → party_ready w q) →
  does w (abs w, acked p) (complete_send p w).
Proof.
  intros Hr Hp. destruct p as [t v|l c v]; unfold acked; simpl.
  - apply (told_does (Here t) (Accepted v) w Hr). by apply Hp.
  - apply (told_does (Far l c) (Accepted v) w Hr). by apply Hp.
Qed.

Lemma does_then w q1 ns1 w1 e2 w2 :
  does w (q1, ns1) w1 → does w1 e2 w2 → does w (e2.1, ns1 ++ e2.2) w2.
Proof. destruct e2. apply does_trans. Qed.

Lemma redeliver_does w n v :
  pk_running (w_vm w) → registered n (w_ch w) →
  does w (offer value_to_wire v (abs w)) (channel_redeliver value_to_wire v w).
Proof.
  intros Hr Hreg. unfold channel_redeliver, offer.
  pose proof (pop_recv_does w n Hr Hreg) as Hp.
  destruct (pop_live_recv w) as [w1 [p|]].
  - destruct Hp as (ps & -> & Hd & Hready).
    pose proof (do_running _ _ _ Hd) as Hr1. pose proof (do_abs _ _ _ Hd) as Ha.
    pose proof (does_then _ _ _ _ _ _ Hd (deliver_does p v w1 Hr1 Hready)) as Hd2.
    rewrite Ha in Hd2. simpl in Hd2.
    by destruct (hand value_to_wire (recv_party p) v _) in Hd2 |- *.
  - destruct Hp as [Hd ->].
    pose proof (do_running _ _ _ Hd) as Hr1. pose proof (do_abs _ _ _ Hd) as Ha.
    pose proof (does_then _ _ _ _ _ _ Hd (push_front_does v w1 Hr1)) as Hd2.
    by rewrite Ha in Hd2.
Qed.

Lemma take_value_does w n :
  pk_running (w_vm w) → registered n (w_ch w) →
  does w (q_recv (abs w)).1 (take_value w).1 ∧ (take_value w).2 = (q_recv (abs w)).2.
Proof.
  intros Hr Hreg. rewrite q_recv_abs. unfold take_value.
  destruct (ch_buffer (w_ch w)) as [|v rest] eqn:Hb.
  - pose proof (pop_send_does w n Hr Hreg) as Hp.
    destruct (pop_live_send w) as [w1 [p|]].
    + destruct Hp as (ss & -> & Hd & Hready & Hb1 & Hs1). rewrite Hb in Hd. simpl in Hd.
      pose proof (do_running _ _ _ Hd) as Hr1. pose proof (do_abs _ _ _ Hd) as Ha.
      split; [|by destruct p].
      pose proof (does_then _ _ _ _ _ _ Hd (complete_does p w1 Hr1 Hready)) as Hd2.
      rewrite Ha in Hd2. by destruct p.
    + destruct Hp as [Hd ->]. done.
  - set (w0 := set_ch (set_buffer rest (w_ch w)) w).
    assert (does w (mkQueue (((λ v, (v, None)) <$> rest) ++ omap (live_send (w_vm w)) (ch_send (w_ch w)))
              (q_waiting (abs w)) (q_closed (abs w)), []) w0) as Hd0 by by split.
    pose proof (do_running _ _ _ Hd0) as Hr0.
    pose proof (pop_send_does w0 n Hr0 Hreg) as Hp.
    destruct (pop_live_send w0) as [w1 [p|]].
    + destruct Hp as (ss & Hs & Hd & Hready & Hb1 & Hs1).
      change (omap (live_send (w_vm w)) (ch_send (w_ch w)) = send_item p :: ss) in Hs. rewrite Hs.
      pose proof (does_then _ _ _ _ _ _ Hd0 Hd) as Hd01. simpl in Hd01.
      pose proof (do_running _ _ _ Hd) as Hr1. pose proof (do_abs _ _ _ Hd) as Ha.
      assert (abs (push_back (popped_value p) w1)
        = mkQueue (((λ v, (v, None)) <$> rest) ++ (popped_value p, None) :: ss)
            (q_waiting (abs w)) (q_closed (abs w))) as Hpb.
      { apply (f_equal q_waiting) in Ha as Hw. apply (f_equal q_closed) in Ha as Hc. simpl in Hw, Hc.
        unfold abs at 1. simpl. rewrite Hb1, Hs1. simpl. rewrite fmap_app, <- app_assoc.
        by rewrite Hw, Hc. }
      assert (does w (abs (push_back (popped_value p) w1), []) (push_back (popped_value p) w1)) as Hd2.
      { destruct Hd01 as [A T R M E C K P Sh]. by split. }
      split; [|by destruct p].
      pose proof (does_then _ _ _ _ _ _ Hd2
        (complete_does p (push_back (popped_value p) w1) Hr1 Hready)) as Hd3.
      rewrite Hpb in Hd3. by destruct p.
    + destruct Hp as [Hd Hs].
      change (omap (live_send (w_vm w)) (ch_send (w_ch w)) = []) in Hs. rewrite Hs. simpl.
      split; [|done]. pose proof (does_then _ _ _ _ _ _ Hd0 Hd) as Hd01. simpl in Hd01.
      unfold abs in Hd01 at 1. simpl in Hd01. rewrite Hs in Hd01. done.
Qed.

(** There is room, so nobody waits to send. *)
Lemma push_back_does v w :
  pk_running (w_vm w) → q_ok (ch_cap (w_ch w)) (abs w) → has_room (w_ch w) = true →
  does w (mkQueue (q_items (abs w) ++ [(v, None)]) (q_waiting (abs w)) (q_closed (abs w)), [])
    (push_back v w).
Proof.
  intros Hr [Hfull _] Hroom. rewrite has_room_abs, bool_decide_eq_true in Hroom.
  destruct Hfull as [Hall|]; [|lia]. apply all_accepted_abs in Hall.
  split; try done. unfold abs. simpl. rewrite Hall. by rewrite fmap_app, !app_nil_r.
Qed.

Lemma give_does w n v who :
  pk_running (w_vm w) → registered n (w_ch w) → q_ok (ch_cap (w_ch w)) (abs w) →
  match pop_live_recv w with
  | (w1, Some p) =>
      q_send value_to_wire (ch_cap (w_ch w)) who v (abs w) = (offer value_to_wire v (abs w), true)
      ∧ does w (offer value_to_wire v (abs w)) (deliver_to_recv value_to_wire p v w1).1
  | (w1, None) =>
      does w (abs w, []) w1 ∧ q_waiting (abs w) = []
      ∧ ∃ q, q_send value_to_wire (ch_cap (w_ch w)) who v (abs w) = (q, [], has_room (w_ch w1))
        ∧ if has_room (w_ch w1) then does w (q, []) (push_back v w1)
          else q = mkQueue (q_items (abs w) ++ [(v, Some who)]) [] (q_closed (abs w))
  end.
Proof.
  intros Hr Hreg Hok. pose proof (redeliver_does w n v Hr Hreg) as Hoffer.
  pose proof (pop_recv_does w n Hr Hreg) as Hp. unfold channel_redeliver in Hoffer. unfold q_send.
  destruct (pop_live_recv w) as [w1 [p|]].
  - destruct Hp as (ps & -> & _). done.
  - destruct Hp as [Hd Hw]. split_and!; [done|done|]. rewrite Hw.
    pose proof (do_abs _ _ _ Hd) as Ha. pose proof (do_cap _ _ _ Hd) as Hc. simpl in Ha.
    pose proof (do_running _ _ _ Hd) as Hr1.
    rewrite has_room_abs, Ha, Hc. eexists. split; [done|].
    destruct (bool_decide _) eqn:Hroom; [|done].
    rewrite <- Hw. rewrite <- Ha at 1 2 3. apply (does_then _ _ _ _ (_, []) _ Hd).
    apply push_back_does; [done|by rewrite Ha, Hc|by rewrite has_room_abs, Ha, Hc].
Qed.

(** ** Closing *)

Lemma close_all_does (ks : list Woken) : ∀ w,
  pk_running (w_vm w) → NoDup (omap woken_key ks) → keys (w_ch w) = [] →
  does w (abs w, (λ p, (p, Ended)) <$> omap (live_woken (w_vm w)) ks) (foldl close_one w ks).
Proof.
  induction ks as [|[t e|l c] ks IH]; simpl; intros w Hr Hnd Hk.
  - by apply does_refl.
  - apply NoDup_cons in Hnd as [Hnin Hnd].
    destruct (pk_live (w_vm w) t e) eqn:Hl; [|by apply IH].
    assert (does w (abs w, [(Here t, Ended)]) (wake_task t WChannelClosed w)) as Hd.
    { apply (told_does (Here t) Ended w Hr). exists e. split; [done|]. rewrite Hk. apply not_elem_of_nil. }
    pose proof (does_then _ _ _ _ _ _ Hd (IH _ (do_running _ _ _ Hd) Hnd Hk)) as Hd2.
    rewrite (do_abs _ _ _ Hd) in Hd2. simpl in Hd2. by rewrite (live_woken_wake _ _ e) in Hd2.
  - assert (does w (abs w, [(Far l c, Ended)]) (chan_emit l (FClosedFor c) w)) as Hd.
    { apply (told_does (Far l c) Ended w Hr). done. }
    pose proof (does_then _ _ _ _ _ _ Hd (IH _ (do_running _ _ _ Hd) Hnd Hk)) as Hd2.
    by rewrite (do_abs _ _ _ Hd) in Hd2.
Qed.

Lemma close_does w n :
  pk_running (w_vm w) → registered n (w_ch w) → does w (q_close (abs w)) (channel_close w).
Proof.
  intros Hr [Hnd _]. unfold channel_close.
  set (w0 := set_ch _ w).
  assert (does w (abs w0, []) w0) as Hd0.
  { split; try done. unfold keys. simpl. apply sublist_nil_l. }
  pose proof (close_all_does (parked (w_ch w)) w0 Hr) as Hd.
  rewrite parked_keys in Hd. specialize (Hd Hnd eq_refl).
  pose proof (does_trans _ _ _ _ _ _ _ Hd0 Hd) as Hd2.
  change (w_vm w0) with (w_vm w) in Hd2. rewrite parked_live in Hd2. simpl in Hd2.
  rewrite fmap_app in Hd2. unfold q_close. rewrite only_accepted.
  unfold abs in Hd2 at 1. simpl in Hd2. by rewrite app_nil_r in Hd2.
Qed.

(** ** A far operation is taken back *)

Lemma forget_does link corr w :
  pk_running (w_vm w) → does w (q_forget link corr (abs w), []) (remote_cancel link corr w).
Proof.
  intros Hr. split; try done.
  - unfold abs, q_forget, remote_cancel. simpl. f_equal.
    + rewrite List.filter_app. f_equal.
      * induction (ch_buffer (w_ch w)); csimpl; [done|]. by f_equal.
      * induction (ch_send (w_ch w)) as [|[t e v|l c v] ss IH]; simpl; [done| |].
        -- destruct (pk_live (w_vm w) t e); simpl; [by f_equal|done].
        -- destruct (Nat.eqb l link && N.eqb c corr); simpl; [done|by f_equal].
    + induction (ch_recv (w_ch w)) as [|[t e|l c] rs IH]; simpl; [done| |].
      * destruct (pk_live (w_vm w) t e); simpl; [by f_equal|done].
      * destruct (Nat.eqb l link && N.eqb c corr); simpl; [done|by f_equal].
  - unfold keys, remote_cancel. simpl. apply sublist_app.
    + induction (ch_recv (w_ch w)) as [|[t e|l c] rs IH]; simpl; [done|by apply sublist_skip|].
      by destruct (Nat.eqb l link && N.eqb c corr).
    + induction (ch_send (w_ch w)) as [|[t e v|l c v] rs IH]; simpl; [done|by apply sublist_skip|].
      by destruct (Nat.eqb l link && N.eqb c corr).
Qed.

(** ** Frames *)

Lemma answer_does link corr v w :
  pk_running (w_vm w) →
  does w (hand value_to_wire (Far link corr) v (abs w)) (answer_recv value_to_wire link corr v w).
Proof.
  intros Hr. pose proof (deliver_does (PopRRemote link corr) v w Hr I) as Hd. simpl in Hd.
  unfold answer_recv. by destruct (value_to_wire v).
Qed.

Lemma registered_does n w e w' : registered n (w_ch w) → does w e w' → registered n (w_ch w').
Proof. intros Hreg Hd. eapply registered_mono; [done|apply Hd|done]. Qed.

Lemma remote_send_does w n link corr v :
  pk_running (w_vm w) → registered n (w_ch w) → q_ok (ch_cap (w_ch w)) (abs w) →
  does w
    (match q_send value_to_wire (ch_cap (w_ch w)) (Far link corr) v (abs w) with
     | (q', ns, true) => (q', ns ++ [(Far link corr, Accepted v)])
     | (q', ns, false) => (q', ns)
     end) (remote_send value_to_wire link corr v w).
Proof.
  intros Hr Hreg Hok. pose proof (give_does w n v (Far link corr) Hr Hreg Hok) as Hg.
  unfold remote_send. destruct (pop_live_recv w) as [w1 [p|]].
  - destruct Hg as [-> Hd]. destruct (offer value_to_wire v (abs w)) as [q ns].
    pose proof (does_then _ _ _ _ _ _ Hd
      (told_does (Far link corr) (Accepted v) _ (do_running _ _ _ Hd) I)) as Hd2.
    by rewrite (do_abs _ _ _ Hd) in Hd2.
  - destruct Hg as (Hd1 & Hw & q & -> & Hd). destruct (has_room (w_ch w1)).
    + pose proof (does_then _ _ _ _ _ _ Hd
        (told_does (Far link corr) (Accepted v) _ (do_running _ _ _ Hd) I)) as Hd2.
      by rewrite (do_abs _ _ _ Hd) in Hd2.
    + subst q. apply (does_then _ _ _ _ (_, []) _ Hd1).
      pose proof (do_abs _ _ _ Hd1) as Ha. simpl in Ha. rewrite <- Ha, <- Hw, <- Ha.
      split; try done.
      * unfold abs. simpl. by rewrite omap_app, app_assoc.
      * by apply Hd1.
      * unfold keys. simpl. by rewrite omap_app, app_nil_r.
Qed.

Lemma remote_recv_does w n link corr :
  pk_running (w_vm w) → registered n (w_ch w) →
  does w
    (match q_recv (abs w) with
     | (q', ns, Some v) =>
         let '(q', ns') := hand value_to_wire (Far link corr) v q' in (q', ns ++ ns')
     | (q', ns, None) =>
         if q_closed (abs w) then (q', ns ++ [(Far link corr, Ended)])
         else (q_wait (Far link corr) q', ns)
     end) (remote_recv value_to_wire link corr w).
Proof.
  intros Hr Hreg. destruct (take_value_does w n Hr Hreg) as [Hd Ho]. unfold remote_recv.
  assert (q_closed (abs w) = ch_closed (w_ch (take_value w).1)) as ->.
  { pose proof (do_abs _ _ _ Hd) as Ha. apply (f_equal q_closed) in Ha. simpl in Ha. rewrite Ha.
    unfold q_recv. by destruct (accept_first _) as [[|[v o] items] ns]. }
  destruct (take_value w) as [w1 o]. simpl in *. subst o.
  destruct (q_recv (abs w)) as [[q ns] [v|]]; simpl in *;
    pose proof (do_running _ _ _ Hd) as Hr1; pose proof (do_abs _ _ _ Hd) as Ha; simpl in Ha.
  - pose proof (does_then _ _ _ _ _ _ Hd (answer_does link corr v w1 Hr1)) as Hd2.
    rewrite Ha in Hd2. by destruct (hand value_to_wire (Far link corr) v q).
  - destruct (ch_closed (w_ch w1)).
    + pose proof (does_then _ _ _ _ _ _ Hd (told_does (Far link corr) Ended w1 Hr1 I)) as Hd2.
      by rewrite Ha in Hd2.
    + rewrite <- Ha, <- (app_nil_r ns). apply (does_trans _ _ _ _ _ _ _ Hd). split; try done.
      * unfold abs, q_wait. simpl. by rewrite omap_app.
      * unfold keys. simpl. by rewrite omap_app, app_nil_r.
Qed.

End lemmas.
