(* ===== verification/ChannelProps.v ===== *)
(** * Properties of channels

    Over any scheduler with the laws of parking: a channel is the queue it promises; no wakeup
    is lost; what was accepted is delivered or still there; a channel is rooted as long as it
    has far endpoints.  [ChannelRoots] has the scheduler and concrete channels. *)
From stdpp Require Import base numbers list gmap strings.
From stdpp Require Import options.
From S2P Require Import Prelude Sched Channel ChannelSpec ChannelQueue.
#[local] Set Default Proof Using "Type*".
#[local] Set Warnings "-clear-no-such-hyp".

Section props.
Context `{VmTypes} {S : Type} `{!Parking S} `{!ParkingLaws S} {WireData : Type}.
Context (value_to_wire : Value → string + WireData).
Context (wire_to_value : WireData → string + Value).
Implicit Types (w : World (S := S) (WireData := WireData)) (q : Queue).

Abbreviation does := (does value_to_wire).
Abbreviation run := (run value_to_wire wire_to_value).
Abbreviation spec_of w op :=
  (spec value_to_wire wire_to_value (ch_cap (w_ch w)) (bool_decide (is_Some (ch_ship (w_ch w))))
     (w_hosted w) (pk_me (w_vm w)) op (abs w)).

(** What holds of a channel while a task runs. *)
Record chan_ok w : Prop := {
  ok_running : pk_running (w_vm w);
  ok_registered : registered (pk_epoch (w_vm w)) (w_ch w);
  ok_queue : q_ok (ch_cap (w_ch w)) (abs w) }.

(** ** The promise keeps its own invariant *)

Lemma accept_first_forall (items : list (Value * option Party)) :
  forallb is_accepted items = true → accept_first items = (items, []).
Proof using.
  induction items as [|[v [p|]] items IH]; simpl; [done..|]. intros Hall. by rewrite IH.
Qed.

(** The first value of [accept_first items] is accepted; and one more is, if any waited. *)
Lemma accept_first_more (items : list (Value * option Party)) :
  match (accept_first items).1 with
  | [] => items = []
  | i :: rest =>
      is_accepted i = true
      ∧ (forallb is_accepted items = true ∧ forallb is_accepted rest = true
         ∨ length (List.filter is_accepted rest) = length (List.filter is_accepted items))
  end.
Proof using.
  destruct items as [|[v [p|]] items]; simpl; [done| |].
  - split; [done|]. by right.
  - assert (forallb is_accepted items = true ∧ forallb is_accepted (accept_first items).1 = true
      ∨ length (List.filter is_accepted (accept_first items).1)
        = Datatypes.S (length (List.filter is_accepted items))) as Hm.
    { induction items as [|[v' [p|]] items IH]; simpl; [by left|by right|].
      destruct (accept_first items) as [items' ns]. simpl in *.
      destruct IH as [?|Heq]; [by left|right]. by rewrite Heq. }
    destruct (accept_first items) as [items' ns]. simpl in *. split; [done|]. exact Hm.
Qed.

Lemma front_ok cap v q : q_ok cap q → q_ok cap (front v q).
Proof using.
  intros [Hf Hc]. split; [|done]. destruct Hf as [|Hf]; [by left|right].
  unfold accepted in *. simpl. lia.
Qed.

Lemma hand_ok cap p v q : q_ok cap q → q_ok cap (hand value_to_wire p v q).1.
Proof. unfold hand. destruct (unfit value_to_wire p v); [apply front_ok|done]. Qed.

Lemma fewer_waiting_ok cap q ps :
  q_ok cap q → (q_closed q = true → ps = []) → q_ok cap (mkQueue (q_items q) ps (q_closed q)).
Proof using. intros [Hf Hc] Hps. split; [done|]. simpl. intros Hcl. split; [auto|]. by apply Hc. Qed.

Lemma offer_ok cap v q : q_ok cap q → q_ok cap (offer value_to_wire v q).1.
Proof.
  intros Hok. unfold offer. destruct (q_waiting q) as [|p ps] eqn:Hw.
  - by apply front_ok.
  - apply hand_ok. apply fewer_waiting_ok; [done|]. intros Hc.
    destruct Hok as [_ Hok]. by destruct (Hok Hc) as [? _]; congruence.
Qed.

Lemma q_send_ok cap who v q :
  q_ok cap q → q_closed q = false → q_ok cap (q_send value_to_wire cap who v q).1.1.
Proof.
  intros Hok Hopen. unfold q_send. destruct (q_waiting q) as [|p ps] eqn:Hw; [|by apply offer_ok].
  destruct Hok as [Hf _]. split; simpl; [|congruence].
  unfold accepted in *. simpl. case_bool_decide as Hroom.
  - destruct Hf as [Hf|Hf]; [left|lia]. by rewrite forallb_app, Hf.
  - right. rewrite List.filter_app, length_app. simpl. lia.
Qed.

Lemma q_recv_ok cap q : q_ok cap q → q_ok cap (q_recv q).1.1.
Proof using.
  intros Hok. unfold q_recv. pose proof (accept_first_more (q_items q)) as Hm.
  destruct (accept_first (q_items q)) as [[|[v o] items] ns] eqn:He; [done|]. simpl in *.
  destruct Hok as [Hf Hc]. destruct Hm as [_ Hm]. split; simpl.
  - destruct Hm as [[_ Hm]|Hm]; [by left|]. destruct Hf as [Hf|Hf].
    + rewrite (accept_first_forall _ Hf) in He. injection He as Hi _. rewrite Hi in Hf. left.
      simpl in Hf. by apply andb_true_iff in Hf as [_ Hf].
    + right. unfold accepted in *. simpl. lia.
  - intros Hcl. destruct (Hc Hcl) as [Hw Hall]. split; [done|].
    rewrite (accept_first_forall _ Hall) in He. injection He as Hi _. rewrite Hi in Hall.
    simpl in Hall. by apply andb_true_iff in Hall as [_ Hall].
Qed.

Lemma q_wait_ok cap who q : q_ok cap q → q_closed q = false → q_ok cap (q_wait who q).
Proof using. intros [Hf Hc] Hopen. split; [done|]. simpl. congruence. Qed.

Lemma filter_accepted_all (items : list (Value * option Party)) :
  forallb is_accepted (List.filter is_accepted items) = true.
Proof using. induction items as [|[v [p|]] items IH]; done. Qed.

Lemma q_close_ok cap q : q_ok cap (q_close q).1.
Proof using. split; simpl; [left|split; [done|]]; apply filter_accepted_all. Qed.

Lemma q_forget_ok cap link corr q : q_ok cap q → q_ok cap (q_forget link corr q).
Proof using.
  intros [Hf Hc]. split; simpl.
  - destruct Hf as [Hf|Hf].
    + left. induction (q_items q) as [|[v [p|]] items IH]; simpl in *; auto. done.
    + right. unfold accepted in *. simpl. clear Hc. induction (q_items q) as [|[v [p|]] items IH];
        simpl in *; [done| |].
      * destruct (is_far link corr p); simpl; auto.
      * revert Hf. generalize cap. clear. induction items as [|[v [p|]] items IH]; simpl; intros cap;
          [done| |].
        -- destruct (is_far link corr p); simpl; auto.
        -- destruct cap as [|cap]; [lia|]. intros Hf. apply le_n_S, IH. lia.
  - intros Hcl. destruct (Hc Hcl) as [-> Hall]. split; [done|]. clear Hc Hf.
    induction (q_items q) as [|[v [p|]] items IH]; simpl in *; auto. done.
Qed.

Lemma q_recv_closed q : q_closed (q_recv q).1.1 = q_closed q.
Proof using. unfold q_recv. by destruct (accept_first _) as [[|[v o] items] ns]. Qed.

Lemma spec_ok cap shipped hosted me op q :
  q_ok cap q → q_ok cap (spec value_to_wire wire_to_value cap shipped hosted me op q).1.1.
Proof.
  intros Hok. destruct op as [v| | |v|link f]; simpl.
  - destruct (q_closed q) eqn:Hc; [done|].
    pose proof (q_send_ok cap (Here me) v q Hok Hc) as Hs.
    destruct (q_send value_to_wire cap (Here me) v q) as [[q' ns] ok].
    destruct shipped; [destruct (value_to_wire v)|]; done.
  - pose proof (q_recv_ok cap q Hok) as Hr. pose proof (q_recv_closed q) as Hc.
    destruct (q_recv q) as [[q' ns] [v|]]; [done|]. simpl in *.
    destruct (q_closed q); [done|]. by apply q_wait_ok.
  - apply q_close_ok.
  - by apply offer_ok.
  - destruct f as [chan corr wire| |chan corr| | | |chan|chan corr| |chan wire]; simpl; try done.
    + destruct (bool_decide _); simpl; [|done]. destruct (q_closed q) eqn:Hc; [done|].
      destruct (wire_to_value wire) as [e|v]; [done|].
      pose proof (q_send_ok cap (Far link corr) v q Hok Hc) as Hs.
      by destruct (q_send value_to_wire cap (Far link corr) v q) as [[q' ns] [|]].
    + destruct (bool_decide _); simpl; [|done].
      pose proof (q_recv_ok cap q Hok) as Hr. pose proof (q_recv_closed q) as Hc.
      destruct (q_recv q) as [[q' ns] [v|]]; simpl in *.
      * pose proof (hand_ok cap (Far link corr) v q' Hr) as Hh.
        by destruct (hand value_to_wire (Far link corr) v q').
      * destruct (q_closed q); [done|]. by apply q_wait_ok.
    + destruct (bool_decide _); [apply q_close_ok|done].
    + destruct (bool_decide _); [by apply q_forget_ok|done].
    + destruct (bool_decide _); [|done]. destruct (wire_to_value wire); [done|]. by apply offer_ok.
Qed.

(** ** Refinement *)

(** Only the release of a far endpoint changes how the channel is rooted. *)
Definition is_release (op : ChanOp WireData) : bool :=
  match op with Frame _ (FRelease _) => true | _ => false end.

Definition rooting w : option ChanShip * option N * gmap (nat * N) nat :=
  (ch_ship (w_ch w), w_hosted w, w_shipped w).

(** The code's step from [w]: what is left, who was told, how the channel is registered and
    rooted. *)
Definition refines (op : ChanOp WireData) w w' (o : Outcome) (e : Effect) : Prop :=
  abs w' = e.1
  ∧ (w_vm w', w_out w') = effects value_to_wire e.2 o w
  ∧ ch_cap (w_ch w') = ch_cap (w_ch w)
  ∧ registered (match o with Waits => N.succ | _ => id end (pk_epoch (w_vm w))) (w_ch w')
  ∧ pk_epoch (w_vm w') = pk_epoch (w_vm w)
  ∧ (o ≠ Waits → pk_running (w_vm w'))
  ∧ (o = Waits → pk_live (w_vm w') (pk_me (w_vm w')) (pk_epoch (w_vm w')) = true)
  ∧ (is_release op = false → rooting w' = rooting w).

Lemma does_refines op w w' o e :
  chan_ok w → does w e w' → o ≠ Waits → refines op w w' o e.
Proof.
  intros [Hr Hreg _] Hd Ho. split_and!; [apply Hd| |apply Hd| |apply Hd|intros; apply Hd|done|].
  - unfold effects. rewrite (do_told _ _ _ _ Hd). by destruct (tell_all _ _ _), o.
  - assert (registered (pk_epoch (w_vm w)) (w_ch w')) by (by eapply registered_does).
    by destruct o.
  - intros _. unfold rooting. by destruct (do_ship _ _ _ _ Hd) as (-> & -> & ->).
Qed.

Lemma idle_refines op w o : chan_ok w → o ≠ Waits → refines op w w o (abs w, []).
Proof. intros Hok Ho. apply does_refines; [done|apply does_refl, Hok|done]. Qed.

Lemma frame_refines w link f :
  chan_ok w →
  let '(w', o) := run (Frame link f) w in
  let '(e, o') := spec_of w (Frame link f) in o = o' ∧ refines (Frame link f) w w' o e.
Proof.
  intros Hok. pose proof Hok as [Hr Hreg Hq].
  assert (∀ c, does w (abs w, [(Far link c, Ended)]) (chan_emit link (FClosedFor c) w)) as Hend.
  { intros c. apply (told_does value_to_wire (Far link c) Ended w Hr I). }
  assert (does w (abs w, []) w) as Hnone by by apply does_refl.
  destruct f as [chan corr wire|corr|chan corr|corr wire|corr|corr m|chan|chan corr|chan|chan wire];
    simpl; try (split; [done|by apply does_refines]).
  - destruct (bool_decide _); simpl; [|split; [done|by apply does_refines]].
    destruct (ch_closed (w_ch w)); [split; [done|by apply does_refines]|].
    destruct (wire_to_value wire) as [e|v]; [split; [done|by apply does_refines]|].
    pose proof (remote_send_does value_to_wire w _ link corr v Hr Hreg Hq) as Hd.
    destruct (q_send value_to_wire (ch_cap (w_ch w)) (Far link corr) v (abs w)) as [[q ns] [|]];
      (split; [done|by apply does_refines]).
  - destruct (bool_decide _); simpl; [|split; [done|by apply does_refines]].
    pose proof (remote_recv_does value_to_wire w _ link corr Hr Hreg) as Hd. simpl in Hd.
    destruct (q_recv (abs w)) as [[q ns] [v|]].
    + destruct (hand value_to_wire (Far link corr) v q). split; [done|by apply does_refines].
    + destruct (ch_closed (w_ch w)); (split; [done|by apply does_refines]).
  - split; [done|]. destruct (bool_decide _); apply does_refines; try done.
    by eapply close_does.
  - split; [done|]. destruct (bool_decide _); apply does_refines; try done.
    by apply forget_does.
  - split; [done|]. unfold remote_release. 
    assert (∀ w1, w_vm w1 = w_vm w → w_out w1 = w_out w → w_ch w1 = w_ch w →
      ∀ b : bool, refines (Frame link (FRelease chan)) w (if b then drop_refs 1 w1 else w1) Done (abs w, [])) as Hdrop.
    { intros w1 Hv Ho Hc b. unfold refines, abs, effects, tell_all. simpl.
      destruct b; unfold drop_refs; [|by rewrite Hv, Ho, Hc].
      destruct (ch_ship (w_ch w1)) as [s|]; [|by rewrite Hv, Ho, Hc].
      destruct (Nat.eqb _ 0); simpl; rewrite Hv, Ho, Hc; done. }
    destruct (w_shipped w !! (link, chan)) as [n|]; by apply Hdrop.
  - destruct (bool_decide _); [|split; [done|by apply does_refines]].
    destruct (wire_to_value wire) as [e|v]; (split; [done|apply does_refines; try done]).
    by eapply redeliver_does.
Qed.

Lemma park_refines op w w1 w' q ns q' :
  chan_ok w → pk_cancelling (w_vm w) = false →
  does w (q, ns) w1 → w_vm w' = pk_park (w_vm w1) → w_out w' = w_out w1 →
  ch_cap (w_ch w') = ch_cap (w_ch w1) → rooting w' = rooting w1 → abs w' = q' →
  keys (w_ch w') ≡ₚ (pk_me (w_vm w1), pk_epoch (w_vm w1)) :: keys (w_ch w1) →
  refines op w w' Waits (q', ns).
Proof.
  intros [Hr Hreg Hq] Hcan Hd Hv Ho Hc Hroot Ha Hk. split_and!; [done| | | | |done| |].
  - unfold effects. rewrite Hv, Ho.
    pose proof (do_told _ _ _ _ Hd) as Ht. simpl in Ht. simpl. by rewrite <- Ht.
  - by rewrite Hc, (do_cap _ _ _ _ Hd).
  - assert (registered (pk_epoch (w_vm w1)) (w_ch w1)) as Hreg1.
    { rewrite (do_epoch _ _ _ _ Hd). by eapply registered_does. }
    pose proof (old_not_here w1 Hreg1) as Hnew. destruct Hreg1 as [Hn Hf].
    rewrite <- (do_epoch _ _ _ _ Hd). split; rewrite Hk.
    + by apply NoDup_cons.
    + apply Forall_cons. split; [|].
      { simpl. rewrite (do_epoch _ _ _ _ Hd). pose proof (epoch_pos _ Hr). lia. }
      eapply Forall_impl; [done|]. simpl. lia.
  - rewrite Hv, epoch_park by apply Hd. apply Hd.
  - intros _. rewrite Hv, me_park, epoch_park by apply Hd.
    apply live_me_park; [apply Hd|]. by rewrite (do_cancelling _ _ _ _ Hd).
  - intros _. rewrite Hroot. unfold rooting. by destruct (do_ship _ _ _ _ Hd) as (-> & -> & ->).
Qed.

Lemma send_refines w v :
  chan_ok w → pk_cancelling (w_vm w) = false →
  let '(w', o) := run (Send v) w in
  let '(e, o') := spec_of w (Send v) in o = o' ∧ refines (Send v) w w' o e.
Proof.
  intros Hok Hcan. pose proof Hok as [Hr Hreg Hq]. simpl. unfold channel_send.
  destruct (ch_closed (w_ch w)); [split; [done|by apply idle_refines]|].
  assert (let '(w', s) :=
      match pop_live_recv w with
      | (w, Some popped) => ((deliver_to_recv value_to_wire popped v w).1, Answers _ ())
      | (w, None) =>
          if has_room (w_ch w) then (push_back v w, Answers _ ()) else (park_send v w, Parks _)
      end in
    let '(e, ok) := q_send value_to_wire (ch_cap (w_ch w)) (Here (pk_me (w_vm w))) v (abs w) in
    outcome (λ _, Done) s = (if (ok : bool) then Done else Waits)
    ∧ refines (Send v) w w' (outcome (λ _, Done) s) e) as Hsend.
  { pose proof (give_does value_to_wire w _ v (Here (pk_me (w_vm w))) Hr Hreg Hq) as Hg.
    destruct (pop_live_recv w) as [w1 [p|]].
    - destruct Hg as [-> Hd]. split; [done|by apply does_refines].
    - destruct Hg as (Hd1 & Hw & q & -> & Hd). destruct (has_room (w_ch w1)).
      + split; [done|by apply does_refines].
      + split; [done|]. subst q. simpl.
        apply (park_refines _ w w1 _ _ _ _ Hok Hcan Hd1); try done.
        * rewrite park_send_abs.
          -- rewrite (do_me _ _ _ _ Hd1), (do_abs _ _ _ _ Hd1). simpl. by rewrite <- Hw.
          -- apply Hd1.
          -- by rewrite (do_cancelling _ _ _ _ Hd1).
          -- rewrite (do_epoch _ _ _ _ Hd1). by eapply registered_does.
        * unfold keys. simpl. rewrite omap_app. simpl. solve_Permutation. }
  destruct (bool_decide (is_Some (ch_ship (w_ch w)))); [destruct (value_to_wire v) as [e|wire]|].
  - split; [done|by apply idle_refines].
  - destruct (match pop_live_recv w with (_, _) => _ end), (q_send _ _ _ _ _). exact Hsend.
  - destruct (match pop_live_recv w with (_, _) => _ end), (q_send _ _ _ _ _). exact Hsend.
Qed.

Lemma recv_refines w :
  chan_ok w → pk_cancelling (w_vm w) = false →
  let '(w', o) := run Recv w in
  let '(e, o') := spec_of w Recv in o = o' ∧ refines Recv w w' o e.
Proof.
  intros Hok Hcan. pose proof Hok as [Hr Hreg Hq]. simpl. unfold channel_recv.
  destruct (take_value_does value_to_wire w _ Hr Hreg) as [Hd Ho].
  assert (ch_closed (w_ch w) = ch_closed (w_ch (take_value w).1)) as ->.
  { pose proof (do_abs _ _ _ _ Hd) as Ha. apply (f_equal q_closed) in Ha. simpl in Ha.
    by rewrite Ha, q_recv_closed. }
  destruct (take_value w) as [w1 o]. simpl in *. subst o.
  destruct (q_recv (abs w)) as [[q ns] [v|]]; simpl in *; [split; [done|by apply does_refines]|].
  destruct (ch_closed (w_ch w1)); [split; [done|by apply does_refines]|]. split; [done|].
  apply (park_refines _ w w1 _ _ _ _ Hok Hcan Hd); try done.
  - rewrite park_recv_abs.
    + by rewrite (do_me _ _ _ _ Hd), (do_abs _ _ _ _ Hd).
    + apply Hd.
    + by rewrite (do_cancelling _ _ _ _ Hd).
    + rewrite (do_epoch _ _ _ _ Hd). by eapply registered_does.
  - unfold keys. simpl. rewrite omap_app. simpl. solve_Permutation.
Qed.

(** The running task may park: no cancellation is pending. *)
Definition may_wait w (op : ChanOp WireData) : Prop :=
  match op with Send _ | Recv => pk_cancelling (w_vm w) = false | _ => True end.

Lemma run_refines w op :
  chan_ok w → may_wait w op →
  let '(w', o) := run op w in
  let '(e, o') := spec_of w op in o = o' ∧ refines op w w' o e ∧ q_ok (ch_cap (w_ch w')) (abs w').
Proof.
  intros Hok Hcan.
  assert (let '(w', o) := run op w in let '(e, o') := spec_of w op in o = o' ∧ refines op w w' o e) as Href.
  { pose proof Hok as [Hr Hreg _]. destruct op as [v| | |v|link f].
    - by apply send_refines.
    - by apply recv_refines.
    - split; [done|]. apply does_refines; [done|by eapply close_does|done].
    - split; [done|]. apply does_refines; [done|by eapply redeliver_does|done].
    - by apply frame_refines. }
  pose proof (spec_ok (ch_cap (w_ch w)) (bool_decide (is_Some (ch_ship (w_ch w)))) (w_hosted w)
    (pk_me (w_vm w)) op (abs w) (ok_queue _ Hok)) as Hq.
  destruct (run op w) as [w' o], (spec_of w op) as [[q ns] o']. destruct Href as [-> Hrf].
  split_and!; [done..|]. destruct Hrf as (-> & _ & -> & _). exact Hq.
Qed.

(** C13: Whatever operation a channel runs (a send, a receive, a close, the redelivery of a
    cancelled receiver's value, or a frame of a far endpoint), it answers what the promised
    queue answers, leaves a channel that is seen as the queue left, tells exactly the parties
    the queue tells, in that order, and parks the running task exactly when it is to wait. *)
Theorem channel_refines_queue w op :
  chan_ok w → may_wait w op →
  let '(w', o) := run op w in
  let '(e, o') := spec_of w op in
  o = o' ∧ refines op w w' o e ∧ q_ok (ch_cap (w_ch w')) (abs w').
Proof. apply run_refines. Qed.

End props.

(** ** A value that bounces *)

Section bounce.
Context `{VmTypes} {S : Type} `{!Parking S} {WireData : Type}.
Context (value_to_wire : Value → string + WireData).
Implicit Types (w : World (S := S) (WireData := WireData)).

(** A value given back by a cancelled receiver that cannot cross to the far receiver first in
    line goes back to the buffer although a task waits behind that receiver: nobody is woken,
    and the next send hands its value to the task, ahead of the one in the buffer. *)
Theorem bounced_value_is_overtaken w link corr t e rs v err v2 :
  ch_recv (w_ch w) = RRemote link corr :: RLocal t e :: rs → pk_live (w_vm w) t e = true →
  ch_closed (w_ch w) = false → value_to_wire v = inl err →
  (ch_ship (w_ch w) = None ∨ ∃ wire, value_to_wire v2 = inr wire) →
  let w1 := channel_redeliver value_to_wire v w in
  let w2 := (channel_send value_to_wire v2 w1).1 in
  w_vm w1 = w_vm w ∧ ch_buffer (w_ch w1) = v :: ch_buffer (w_ch w)
  ∧ ch_recv (w_ch w1) = RLocal t e :: rs
  ∧ w_vm w2 = pk_wake (w_vm w) t (WChannelRecv v2) ∧ ch_buffer (w_ch w2) = v :: ch_buffer (w_ch w).
Proof using.
  intros Hrs Hl Hopen Hv Hv2. unfold channel_redeliver, pop_live_recv. rewrite Hrs. simpl. rewrite Hv.
  split_and!; [done..| |]; unfold channel_send, pop_live_recv; simpl; rewrite Hopen, Hl;
    (destruct Hv2 as [Hs|[wire Hs]]; rewrite Hs; [done|by destruct (bool_decide _)]).
Qed.

End bounce.
