(* ===== verification/ChannelRuns.v ===== *)
(** * Runs of a channel

    The operations of a channel, in any order, with the scheduler running other tasks in
    between: the invariant of a channel holds along, and with it what the values that come in
    and go out have to do with each other. *)
From stdpp Require Import base numbers list gmap strings.
From stdpp Require Import options.
From S2P Require Import Prelude Sched Channel ChannelSpec ChannelQueue ChannelProps.
#[local] Set Default Proof Using "Type*".
#[local] Set Warnings "-clear-no-such-hyp".

Section runs.
Context `{VmTypes} {S : Type} `{!Parking S} `{!ParkingLaws S} {WireData : Type}.
Context (value_to_wire : Value → string + WireData).
Context (wire_to_value : WireData → string + Value).
Implicit Types (w : World (S := S) (WireData := WireData)) (q : Queue).

Abbreviation run := (run value_to_wire wire_to_value).
Abbreviation spec_of w op :=
  (spec value_to_wire wire_to_value (ch_cap (w_ch w)) (bool_decide (is_Some (ch_ship (w_ch w))))
     (w_hosted w) (pk_me (w_vm w)) op (abs w)).

(** Between [vm] and [vm'] other tasks ran, and some task was resumed: no pair of an epoch that
    has passed is live anew, that of the task running in [vm] apart. *)
Definition resumes (vm vm' : S) : Prop :=
  pk_running vm' ∧ (pk_epoch vm < pk_epoch vm')%N
  ∧ ∀ t e, (0 < e ≤ pk_epoch vm)%N → (t, e) ≠ (pk_me vm, pk_epoch vm) →
      pk_live vm' t e = true → pk_live vm t e = true.

(** The values an operation brings back: they were handed out, and not received. *)
Definition returned (hosted : option N) (op : ChanOp WireData) : list Value :=
  match op with
  | Redeliver v => [v]
  | Frame _ (FReturn chan wire) =>
      if bool_decide (hosted = Some chan) then
        match wire_to_value wire with inl _ => [] | inr v => [v] end
      else []
  | _ => []
  end.

(** The values whose sender is told, and those handed out. *)
Definition accepts (op : ChanOp WireData) (ns : list (Party * Notice)) (o : Outcome) : list Value :=
  match op, o with Send v, Done => [v] | _, _ => [] end
  ++ omap (λ pn, match pn.2 with Accepted v => Some v | _ => None end) ns.

Definition handed (ns : list (Party * Notice)) (o : Outcome) : list Value :=
  match o with GotValue v => [v] | _ => [] end
  ++ omap (λ pn, match pn.2 with Got v => Some v | _ => None end) ns.

(** What a step does to the values: accepted, brought back, handed out. *)
Record Flow := mkFlow { f_accepted : list Value; f_returned : list Value; f_handed : list Value }.

Definition flow_of w op : Flow :=
  let '((_, ns), o) := spec_of w op in mkFlow (accepts op ns o) (returned (w_hosted w) op) (handed ns o).

Definition no_flow : Flow := mkFlow [] [] [].

Definition add_flow (f g : Flow) : Flow :=
  mkFlow (f_accepted f ++ f_accepted g) (f_returned f ++ f_returned g) (f_handed f ++ f_handed g).

(** One step of a channel whose operations are all as [guard] says. *)
Inductive chan_step (guard : World (S := S) (WireData := WireData) → ChanOp WireData → Prop) :
    World (S := S) (WireData := WireData) → Flow → World (S := S) (WireData := WireData) → Prop :=
| step_runs w op w' o :
    guard w op → may_wait w op → run op w = (w', o) → o ≠ Waits →
    chan_step guard w (flow_of w op) w'
| step_parks w op w' vm' :
    guard w op → may_wait w op → run op w = (w', Waits) → resumes (w_vm w') vm' →
    chan_step guard w (flow_of w op) (set_vm vm' w')
| step_resumes w vm' : resumes (w_vm w) vm' → chan_step guard w no_flow (set_vm vm' w)
| step_ships w link id : chan_step guard w no_flow (ship_channel link id w).1
| step_link_dies w link : chan_step guard w no_flow (channel_link_died link w).

Inductive chan_run guard : World (S := S) (WireData := WireData) → Flow →
    World (S := S) (WireData := WireData) → Prop :=
| run_nil w : chan_run guard w no_flow w
| run_snoc w f w' g w'' :
    chan_run guard w f w' → chan_step guard w' g w'' → chan_run guard w (add_flow f g) w''.

Definition any w (op : ChanOp WireData) : Prop := True.

(** The value [op] hands over does not bounce off the first that waits; no frame brings a value
    back. *)
Definition fits_queue q (op : ChanOp WireData) : Prop :=
  ∀ v p, head (q_waiting q) = Some p →
    match op with
    | Send v' | Redeliver v' => v = v'
    | Frame _ (FSend _ _ wire) | Frame _ (FReturn _ wire) => wire_to_value wire = inr v
    | _ => False
    end → unfit value_to_wire p v = None.

Definition fits w (op : ChanOp WireData) : Prop := fits_queue (abs w) op.

Definition brings_back (op : ChanOp WireData) : bool :=
  match op with Redeliver _ | Frame _ (FReturn _ _) => true | _ => false end.

(** A channel as [Channel.new:] makes it. *)
Definition fresh (cap : nat) vm : World (S := S) (WireData := WireData) :=
  mkWorld vm (new_channel cap) None ∅ [].

(** A receiver that waits and a value that is there do not go together. *)
Definition calm q : Prop := q_waiting q = [] ∨ q_items q = [].

(** ** The values of one operation *)

Definition accepted_values q : list Value := (List.filter is_accepted (q_items q)).*1.

(** Accepted values come first. *)
Definition shaped q : Prop :=
  ∃ vs ss, q_items q = ((λ v, (v, None)) <$> vs) ++ ss ∧ List.filter is_accepted ss = [].

Lemma abs_shaped w : shaped (abs w).
Proof using ParkingLaws0.
  exists (ch_buffer (w_ch w)), (omap (live_send (w_vm w)) (ch_send (w_ch w))). split; [done|].
  induction (ch_send (w_ch w)) as [|[t e v|l c v] ss IH]; simpl; [done| |done].
  by destruct (pk_live (w_vm w) t e).
Qed.

Lemma accepted_front vs (ss : list (Value * option Party)) :
  (List.filter is_accepted (((λ v, (v, None)) <$> vs) ++ ss)).*1
  = vs ++ (List.filter is_accepted ss).*1.
Proof using ParkingLaws0. induction vs as [|v vs IH]; csimpl; [done|]. by rewrite <- IH. Qed.

Lemma accepted_values_abs w : accepted_values (abs w) = ch_buffer (w_ch w).
Proof using ParkingLaws0.
  destruct (abs_shaped w) as (vs & ss & Hi & Hs). unfold accepted_values.
  rewrite only_accepted. rewrite <- list_fmap_compose. apply list_fmap_id.
Qed.

Abbreviation told_accepted := (omap (λ pn : Party * Notice, match pn.2 with Accepted v => Some v | _ => None end)).
Abbreviation told_got := (omap (λ pn : Party * Notice, match pn.2 with Got v => Some v | _ => None end)).

(** What is received is the oldest accepted value; one more is accepted, as the newest. *)
Lemma recv_values q :
  shaped q →
  let '((q', ns), o) := q_recv q in
  accepted_values q ++ told_accepted ns = match o with Some v => [v] | None => [] end ++ accepted_values q'
  ∧ told_got ns = [].
Proof using ParkingLaws0.
  intros (vs & ss & Hi & Hs). unfold q_recv, accepted_values. rewrite Hi, accept_first_accepted.
  rewrite accepted_front, Hs. simpl.
  destruct vs as [|v vs]; csimpl.
  - destruct ss as [|[v [p|]] ss]; simpl in *; [by rewrite Hi|by rewrite Hs|done].
  - rewrite accepted_front. destruct ss as [|[v' [p|]] ss]; simpl in *; [by rewrite !app_nil_r| |done].
    rewrite Hs. simpl. by rewrite app_nil_r.
Qed.

Lemma offer_values v q :
  let '(q', ns) := offer value_to_wire v q in
  told_accepted ns = [] ∧ accepted_values q ++ [v] ≡ₚ told_got ns ++ accepted_values q'.
Proof.
  unfold offer, hand. destruct (q_waiting q) as [|p ps]; simpl.
  - split; [done|]. unfold accepted_values. simpl. solve_Permutation.
  - destruct (unfit value_to_wire p v); simpl; (split; [done|]); unfold accepted_values; simpl;
      solve_Permutation.
Qed.

Lemma send_values cap who v q :
  let '((q', ns), ok) := q_send value_to_wire cap who v q in
  told_accepted ns = []
  ∧ accepted_values q ++ (if (ok : bool) then [v] else []) ≡ₚ told_got ns ++ accepted_values q'.
Proof.
  unfold q_send. pose proof (offer_values v q) as Ho.
  destruct (q_waiting q) as [|p ps]; [|by destruct (offer value_to_wire v q)].
  split; [done|]. unfold accepted_values. simpl. rewrite List.filter_app, fmap_app. simpl.
  by case_bool_decide.
Qed.

Lemma hand_values p v q :
  let '(q', ns) := hand value_to_wire p v q in
  told_accepted ns = [] ∧ v :: accepted_values q ≡ₚ told_got ns ++ accepted_values q'.
Proof. unfold hand. by destruct (unfit value_to_wire p v). Qed.

Lemma close_values q :
  let '(q', ns) := q_close q in
  told_accepted ns = [] ∧ told_got ns = [] ∧ accepted_values q' = accepted_values q.
Proof using ParkingLaws0.
  unfold q_close, accepted_values. simpl.
  assert (∀ ps : list Party,
    told_accepted ((λ p, (p, Ended)) <$> ps) = [] ∧ told_got ((λ p, (p, Ended)) <$> ps) = []) as He
    by (intros ps; by induction ps).
  rewrite !omap_app. destruct (He (q_waiting q)) as [-> ->].
  destruct (He (omap snd (q_items q))) as [-> ->]. split_and!; [done..|].
  induction (q_items q) as [|[v [p|]] items IH]; simpl; [done..|]. by f_equal.
Qed.

Lemma forget_values link corr q : accepted_values (q_forget link corr q) = accepted_values q.
Proof using ParkingLaws0.
  unfold accepted_values. simpl. induction (q_items q) as [|[v [p|]] items IH]; simpl; [done| |].
  - by destruct (is_far link corr p).
  - by f_equal.
Qed.

Lemma spec_values cap shipped hosted me op q :
  shaped q →
  let '((q', ns), o) := spec value_to_wire wire_to_value cap shipped hosted me op q in
  accepted_values q ++ accepts op ns o ++ returned hosted op ≡ₚ handed ns o ++ accepted_values q'.
Proof.
  intros Hsh. unfold accepts, handed. destruct op as [v| | |v|link f]; simpl.
  - assert (let '((q', ns), o) :=
        let '(e, ok) := q_send value_to_wire cap (Here me) v q in
        (e, if (ok : bool) then Done else Waits) in
      accepted_values q ++ (match o with Done => [v] | _ => [] end ++ told_accepted ns) ++ [] ≡ₚ
      (match o with GotValue v => [v] | _ => [] end ++ told_got ns) ++ accepted_values q') as Hs.
    { pose proof (send_values cap (Here me) v q) as Hs.
      destruct (q_send _ _ _ _ _) as [[q' ns] [|]]; destruct Hs as [-> Hs]; simpl in *;
        rewrite ?app_nil_r in *; exact Hs. }
    destruct (q_closed q); [by rewrite app_nil_r|].
    destruct shipped; [destruct (value_to_wire v); simpl; [by rewrite app_nil_r|]|]; exact Hs.
  - pose proof (recv_values q Hsh) as Hr.
    destruct (q_recv q) as [[q' ns] [v|]]; simpl in *; destruct Hr as [Hr Hg];
      [|destruct (q_closed q)]; simpl; rewrite ?Hg, app_nil_r, Hr; done.
  - destruct (close_values q) as (-> & -> & ->). by rewrite app_nil_r.
  - pose proof (offer_values v q) as Ho. destruct (offer value_to_wire v q) as [q' ns].
    destruct Ho as [-> Ho]. done.
  - destruct f as [chan corr wire|corr|chan corr|corr wire|corr|corr m|chan|chan corr|chan|chan wire];
      simpl; rewrite ?app_nil_r; try done.
    + destruct (bool_decide _); simpl; [|by rewrite app_nil_r]. destruct (q_closed q); simpl; [by rewrite app_nil_r|].
      destruct (wire_to_value wire) as [e|v]; simpl; [by rewrite app_nil_r|].
      pose proof (send_values cap (Far link corr) v q) as Hs.
      destruct (q_send _ _ _ _ _) as [[q' ns] [|]]; destruct Hs as [Ha Hs]; simpl.
      * rewrite !omap_app, Ha. simpl. by rewrite app_nil_r.
      * by rewrite Ha.
    + destruct (bool_decide _); simpl; [|by rewrite app_nil_r].
      pose proof (recv_values q Hsh) as Hr.
      destruct (q_recv q) as [[q' ns] [v|]]; simpl in *; destruct Hr as [Hr Hg].
      * pose proof (hand_values (Far link corr) v q') as Hh.
        destruct (hand value_to_wire (Far link corr) v q') as [q'' ns']. destruct Hh as [Hh1 Hh2]. simpl.
        rewrite !omap_app, Hh1, Hg, ?app_nil_r, Hr. done.
      * destruct (q_closed q); simpl; rewrite ?omap_app, Hg; simpl; rewrite ?app_nil_r; by rewrite Hr.
    + destruct (bool_decide _); simpl; [|by rewrite app_nil_r].
      destruct (close_values q) as (-> & -> & ->). by rewrite app_nil_r.
    + destruct (bool_decide _); simpl; rewrite ?app_nil_r, ?forget_values; done.
    + destruct (bool_decide _); simpl; [|by rewrite app_nil_r].
      destruct (wire_to_value wire) as [e|v]; simpl; [by rewrite app_nil_r|].
      pose proof (offer_values v q) as Ho. destruct (offer value_to_wire v q) as [q' ns].
      destruct Ho as [-> Ho]. done.
Qed.

(** ** Along a run *)

Lemma set_vm_same w : set_vm (w_vm w) w = w.
Proof using ParkingLaws0. by destruct w. Qed.

Definition chan_resting w : Prop :=
  registered (N.succ (pk_epoch (w_vm w))) (w_ch w) ∧ q_ok (ch_cap (w_ch w)) (abs w).

Lemma chan_ok_resting w : chan_ok w → chan_resting w.
Proof using ParkingLaws0. intros [Hr Hreg Hq]. split; [|done]. eapply registered_mono; [done..|lia]. Qed.

(** Parties may leave a queue; what is accepted stays. *)
Record dwindles q q' : Prop := {
  dw_accepted : List.filter is_accepted (q_items q') = List.filter is_accepted (q_items q);
  dw_items : sublist (q_items q') (q_items q);
  dw_waiting : sublist (q_waiting q') (q_waiting q);
  dw_closed : q_closed q' = q_closed q }.

Lemma sublist_forallb {A} (f : A → bool) l l' :
  sublist l' l → forallb f l = true → forallb f l' = true.
Proof using ParkingLaws0.
  intros Hs Hf. apply forallb_forall. intros x Hx. rewrite forallb_forall in Hf. apply Hf.
  apply list_elem_of_In. apply list_elem_of_In in Hx.
  by eapply elem_of_submseteq, sublist_submseteq.
Qed.

Lemma dwindles_ok cap q q' : q_ok cap q → dwindles q q' → q_ok cap q'.
Proof using ParkingLaws0.
  intros [Hf Hc] [Ha Hi Hw Hcl]. split.
  - unfold accepted. rewrite Ha. destruct Hf as [Hf|]; [left|by right]. by eapply sublist_forallb.
  - rewrite Hcl. intros Hq. destruct (Hc Hq) as [Hw' Hall]. rewrite Hw' in Hw.
    apply sublist_nil_r in Hw. split; [done|]. by eapply sublist_forallb.
Qed.

Lemma dwindles_calm q q' : calm q → dwindles q q' → calm q'.
Proof using ParkingLaws0.
  intros [Hq|Hq] [_ Hi Hw _].
  - left. rewrite Hq in Hw. by apply sublist_nil_r in Hw.
  - right. rewrite Hq in Hi. by apply sublist_nil_r in Hi.
Qed.

Lemma resumes_dwindles w vm' :
  registered (N.succ (pk_epoch (w_vm w))) (w_ch w) →
  ((pk_me (w_vm w), pk_epoch (w_vm w)) ∈ keys (w_ch w) →
     pk_live (w_vm w) (pk_me (w_vm w)) (pk_epoch (w_vm w)) = true) →
  resumes (w_vm w) vm' →
  dwindles (abs w) (abs (set_vm vm' w)).
Proof using ParkingLaws0.
  intros [_ Hold] Hme (_ & _ & Hlive).
  assert (∀ t e, (t, e) ∈ keys (w_ch w) → pk_live vm' t e = true → pk_live (w_vm w) t e = true) as Hl.
  { intros t e Hin Hl'.
    destruct (decide ((t, e) = (pk_me (w_vm w), pk_epoch (w_vm w)))) as [[= -> ->]|Hne]; [by apply Hme|].
    apply Hlive; [|done..]. rewrite Forall_forall in Hold. apply Hold in Hin. simpl in Hin. lia. }
  split.
  - by rewrite (only_accepted (set_vm vm' w)), only_accepted.
  - simpl. apply sublist_app; [done|]. apply live_of_dwindles. intros t e Hin.
    apply Hl, elem_of_app. by right.
  - simpl. apply live_of_dwindles. intros t e Hin. apply Hl, elem_of_app. by left.
  - done.
Qed.

Lemma filter_keys_recv (f : RecvWaiter → bool) (rs : list RecvWaiter) :
  sublist (omap recv_key (List.filter f rs)) (omap recv_key rs).
Proof using ParkingLaws0.
  induction rs as [|[t e|l c] rs IH]; simpl; [done| |].
  - destruct (f _); simpl; [by apply sublist_skip|by apply sublist_cons].
  - by destruct (f _).
Qed.

Lemma filter_live_recv (f : RecvWaiter → bool) vm (rs : list RecvWaiter) :
  sublist (omap (live_recv vm) (List.filter f rs)) (omap (live_recv vm) rs).
Proof using ParkingLaws0.
  induction rs as [|[t e|l c] rs IH]; simpl; [done| |].
  - destruct (f _), (pk_live vm t e) eqn:Hl; simpl; rewrite ?Hl;
      [by apply sublist_skip|done|by apply sublist_cons|done].
  - destruct (f _); simpl; [by apply sublist_skip|by apply sublist_cons].
Qed.

Lemma drop_refs_same n w :
  w_vm (drop_refs n w) = w_vm w ∧ abs (drop_refs n w) = abs w
  ∧ keys (w_ch (drop_refs n w)) = keys (w_ch w) ∧ ch_cap (w_ch (drop_refs n w)) = ch_cap (w_ch w).
Proof using ParkingLaws0. unfold drop_refs. destruct (ch_ship (w_ch w)) as [s|]; [by destruct (Nat.eqb _ 0)|done]. Qed.

Lemma link_died_dwindles w link :
  let w' := channel_link_died link w in
  dwindles (abs w) (abs w') ∧ w_vm w' = w_vm w ∧ sublist (keys (w_ch w')) (keys (w_ch w))
  ∧ ch_cap (w_ch w') = ch_cap (w_ch w).
Proof using ParkingLaws0.
  simpl. unfold channel_link_died. simpl.
  destruct (w_hosted w) as [id|]; [|done].
  destruct (w_shipped w !! (link, id)) as [refs|]; [|done].
  edestruct drop_refs_same as (-> & -> & -> & ->). split_and!; [|done| |done].
  - split; [done|done| |done]. simpl. apply filter_live_recv.
  - unfold keys. simpl. apply sublist_app; [apply filter_keys_recv|done].
Qed.

(** Whatever a step is, it ends in a channel that is as it should be; and its effect on the
    queue is an operation's, or some parties leave. *)
Lemma step_effect guard w f w' :
  chan_step guard w f w' → chan_ok w →
  chan_ok w' ∧ ch_cap (w_ch w') = ch_cap (w_ch w)
  ∧ ((∃ op, guard w op ∧ f = flow_of w op ∧ dwindles (spec_of w op).1.1 (abs w'))
     ∨ (f = no_flow ∧ dwindles (abs w) (abs w'))).
Proof.
  intros Hstep Hok. destruct Hstep as [w op w' o Hg Hmay Hrun Ho|w op w' vm' Hg Hmay Hrun Hres|w vm' Hres|w link id|w link].
  - pose proof (run_refines value_to_wire wire_to_value w op Hok Hmay) as Href. rewrite Hrun in Href.
    destruct (spec_of w op) as [[q ns] o'] eqn:Hspec.
    destruct Href as (<- & (Ha & _ & Hc & Hreg & He & Hr & Hlive & _) & Hq). split_and!.
    + split; [by apply Hr| |done]. rewrite He. by destruct o.
    + done.
    + left. exists op. rewrite Hspec. split_and!; [done..|]. rewrite Ha. simpl. done.
  - pose proof (run_refines value_to_wire wire_to_value w op Hok Hmay) as Href. rewrite Hrun in Href.
    destruct (spec_of w op) as [[q ns] o'] eqn:Hspec.
    destruct Href as (<- & (Ha & _ & Hc & Hreg & He & Hr & Hlive & _) & Hq).
    rewrite <- He in Hreg. pose proof (resumes_dwindles w' vm' Hreg (λ _, Hlive eq_refl) Hres) as Hdw. split_and!.
    + destruct Hres as (Hrun' & Hlt & _). split; [done| |by eapply dwindles_ok].
      eapply registered_mono; [done..|]. simpl. lia.
    + done.
    + left. exists op. rewrite Hspec. split_and!; [done..|]. simpl. simpl in Ha. by rewrite <- Ha.
  - destruct (chan_ok_resting w Hok) as [Hreg Hq].
    assert ((pk_me (w_vm w), pk_epoch (w_vm w)) ∉ keys (w_ch w)) as Hnew by (apply old_not_here, Hok).
    pose proof (resumes_dwindles w vm' Hreg (λ Hin, False_ind _ (Hnew Hin)) Hres) as Hdw. split_and!.
    + destruct Hres as (Hrun' & Hlt & _). split; [done| |by eapply dwindles_ok].
      eapply registered_mono; [done..|]. simpl. lia.
    + done.
    + by right.
  - destruct Hok as [Hr Hreg Hq]. unfold ship_channel, channel_ship.
    destruct (ch_ship (w_ch w)) as [s|]; (split_and!; [by split|done|by right]).
  - destruct (link_died_dwindles w link) as (Hdw & Hv & Hk & Hc). split_and!; [|done|by right].
    destruct Hok as [Hr Hreg Hq]. split.
    + by rewrite Hv.
    + rewrite Hv. by eapply registered_mono.
    + rewrite Hc. by eapply dwindles_ok.
Qed.

(** ** Nobody waits for a value that is there *)

Lemma hand_fits p v q : unfit value_to_wire p v = None → hand value_to_wire p v q = (q, [(p, Got v)]).
Proof. unfold hand. by intros ->. Qed.

Lemma offer_calm v q :
  calm q → (∀ p, head (q_waiting q) = Some p → unfit value_to_wire p v = None) →
  calm (offer value_to_wire v q).1.
Proof.
  intros Hc Hfit. unfold offer. destruct (q_waiting q) as [|p ps] eqn:Hw; [by left|].
  rewrite hand_fits by (by apply Hfit). right. by destruct Hc; [congruence|].
Qed.

Lemma q_send_calm cap who v q :
  calm q → (∀ p, head (q_waiting q) = Some p → unfit value_to_wire p v = None) →
  calm (q_send value_to_wire cap who v q).1.1.
Proof.
  intros Hc Hfit. unfold q_send. pose proof (offer_calm v q Hc Hfit).
  by destruct (q_waiting q) as [|p ps] eqn:Hw; [left|].
Qed.

Lemma q_recv_calm q : calm q →
  match q_recv q with
  | ((q', _), Some _) => q_waiting q' = []
  | ((q', _), None) => q_items q' = []
  end.
Proof using ParkingLaws0.
  unfold q_recv. pose proof (accept_first_more (q_items q)) as Hm.
  destruct (accept_first (q_items q)) as [[|[v o] items] ns] eqn:He; simpl in *; [done|].
  intros [|Hi]; [done|]. by rewrite Hi in He.
Qed.

Lemma forget_calm link corr q : calm q → calm (q_forget link corr q).
Proof using ParkingLaws0. intros [Hq|Hq]; [left|right]; simpl; by rewrite Hq. Qed.

Lemma spec_calm cap shipped hosted me op q :
  calm q → fits_queue q op →
  calm (spec value_to_wire wire_to_value cap shipped hosted me op q).1.1.
Proof.
  intros Hc Hfit. pose proof (q_recv_calm q Hc) as Hrecv.
  destruct op as [v| | |v|link f]; simpl.
  - pose proof (q_send_calm cap (Here me) v q Hc (λ p Hp, Hfit v p Hp eq_refl)) as Hs.
    destruct (q_closed q); [done|]. destruct (q_send _ _ _ _ _) as [e ok].
    destruct shipped; [destruct (value_to_wire v)|]; done.
  - destruct (q_recv q) as [[q' ns] [v|]]; [by left|].
    destruct (q_closed q); by right.
  - by left.
  - apply offer_calm; [done|]. intros p Hp. by apply (Hfit v p Hp).
  - destruct f as [chan corr wire|corr|chan corr|corr wire|corr|corr m|chan|chan corr|chan|chan wire];
      simpl; try done.
    + destruct (bool_decide _); simpl; [|done]. destruct (q_closed q); [done|].
      destruct (wire_to_value wire) as [e|v] eqn:Hwire; [done|].
      pose proof (q_send_calm cap (Far link corr) v q Hc (λ p Hp, Hfit v p Hp Hwire)) as Hs.
      by destruct (q_send _ _ _ _ _) as [[q' ns] [|]].
    + destruct (bool_decide _); simpl; [|done].
      destruct (q_recv q) as [[q' ns] [v|]].
      * unfold hand. by destruct (unfit _ _ _); left.
      * destruct (q_closed q); by right.
    + destruct (bool_decide _); [by left|done].
    + destruct (bool_decide _); [by apply forget_calm|done].
    + destruct (bool_decide _); [|done]. destruct (wire_to_value wire) as [e|v] eqn:Hwire; [done|].
      apply offer_calm; [done|]. intros p Hp. by apply (Hfit v p Hp).
Qed.

(** ** First in, first out *)

Lemma send_fifo cap who v q :
  calm q → (∀ p, head (q_waiting q) = Some p → unfit value_to_wire p v = None) →
  let '((q', ns), ok) := q_send value_to_wire cap who v q in
  told_accepted ns = []
  ∧ accepted_values q ++ (if (ok : bool) then [v] else []) = told_got ns ++ accepted_values q'.
Proof.
  intros Hc Hfit. unfold q_send, offer. destruct (q_waiting q) as [|p ps] eqn:Hw.
  - split; [done|]. unfold accepted_values. simpl. rewrite List.filter_app, fmap_app. simpl.
    by case_bool_decide.
  - rewrite hand_fits by (by apply Hfit). destruct Hc as [?|Hi]; [congruence|].
    unfold accepted_values. simpl. by rewrite Hi.
Qed.

Lemma spec_fifo cap shipped hosted me op q :
  shaped q → calm q → fits_queue q op → brings_back op = false →
  let '((q', ns), o) := spec value_to_wire wire_to_value cap shipped hosted me op q in
  accepted_values q ++ accepts op ns o = handed ns o ++ accepted_values q'.
Proof.
  intros Hsh Hc Hfit Hback. unfold accepts, handed. pose proof (recv_values q Hsh) as Hrecv.
  destruct op as [v| | |v|link f]; simpl; [| | |done|].
  - assert (let '((q', ns), o) :=
        let '(e, ok) := q_send value_to_wire cap (Here me) v q in
        (e, if (ok : bool) then Done else Waits) in
      accepted_values q ++ (match o with Done => [v] | _ => [] end ++ told_accepted ns) =
      (match o with GotValue v => [v] | _ => [] end ++ told_got ns) ++ accepted_values q') as Hs.
    { pose proof (send_fifo cap (Here me) v q Hc (λ p Hp, Hfit v p Hp eq_refl)) as Hs.
      destruct (q_send _ _ _ _ _) as [[q' ns] [|]]; destruct Hs as [-> Hs]; simpl in *;
        rewrite ?app_nil_r in *; exact Hs. }
    destruct (q_closed q); [by rewrite app_nil_r|].
    destruct shipped; [destruct (value_to_wire v); simpl; [by rewrite app_nil_r|]|]; exact Hs.
  - destruct (q_recv q) as [[q' ns] [v|]]; simpl in *; destruct Hrecv as [Hr Hg];
      [|destruct (q_closed q)]; simpl; rewrite ?Hg, Hr; done.
  - destruct (close_values q) as (-> & -> & ->). by rewrite app_nil_r.
  - destruct f as [chan corr wire|corr|chan corr|corr wire|corr|corr m|chan|chan corr|chan|chan wire];
      simpl; rewrite ?app_nil_r; try done.
    + destruct (bool_decide _); simpl; [|by rewrite app_nil_r]. destruct (q_closed q); simpl; [by rewrite app_nil_r|].
      destruct (wire_to_value wire) as [e|v] eqn:Hwire; simpl; [by rewrite app_nil_r|].
      pose proof (send_fifo cap (Far link corr) v q Hc (λ p Hp, Hfit v p Hp Hwire)) as Hs.
      destruct (q_send _ _ _ _ _) as [[q' ns] [|]]; destruct Hs as [Ha Hs]; simpl.
      * rewrite !omap_app, Ha. simpl. by rewrite app_nil_r.
      * by rewrite Ha.
    + destruct (bool_decide _); simpl; [|by rewrite app_nil_r].
      destruct (q_recv q) as [[q' ns] [v|]]; simpl in *; destruct Hrecv as [Hr Hg].
      * unfold hand. destruct (unfit _ _ _); rewrite !omap_app, Hg, ?app_nil_r; simpl;
          rewrite ?app_nil_r; exact Hr.
      * destruct (q_closed q); simpl; rewrite ?omap_app, Hg; simpl; rewrite ?app_nil_r; exact Hr.
    + destruct (bool_decide _); simpl; [|by rewrite app_nil_r].
      destruct (close_values q) as (-> & -> & ->). by rewrite app_nil_r.
    + destruct (bool_decide _); simpl; rewrite ?app_nil_r, ?forget_values; done.
Qed.

(** ** Runs *)

Lemma fresh_ok cap vm : pk_running vm → chan_ok (fresh cap vm).
Proof using ParkingLaws0. intros Hr. by split; [|split; constructor|split; [left|]]. Qed.

Lemma run_ok guard cap vm f w :
  pk_running vm → chan_run guard (fresh cap vm) f w → chan_ok w ∧ ch_cap (w_ch w) = cap.
Proof.
  intros Hr Hrun. remember (fresh cap vm) as w0 eqn:Hw0.
  induction Hrun as [w|w f w' g w'' Hrun IH Hstep]; subst.
  - split; [by apply fresh_ok|done].
  - destruct (IH eq_refl) as [Hok <-]. by destruct (step_effect _ _ _ _ Hstep Hok) as (? & ? & _).
Qed.

Lemma dwindles_values q q' : dwindles q q' → accepted_values q' = accepted_values q.
Proof using ParkingLaws0. intros [Ha _ _ _]. unfold accepted_values. by rewrite Ha. Qed.

(** C15: Along any run of a channel, with cancellations, far endpoints, links that die and
    other tasks in between, the values that were accepted (whose send succeeded), with those a
    cancelled receiver gave back, are exactly the values handed out and the buffered ones: no
    accepted value is lost, and none is delivered twice. *)
Theorem accepted_values_are_kept cap vm f w :
  pk_running vm → chan_run any (fresh cap vm) f w →
  f_accepted f ++ f_returned f ≡ₚ f_handed f ++ ch_buffer (w_ch w).
Proof.
  intros Hr Hrun. rewrite <- accepted_values_abs. remember (fresh cap vm) as w0 eqn:Hw0.
  induction Hrun as [w|w f w' g w'' Hrun IH Hstep]; subst; [done|]. specialize (IH eq_refl).
  destruct (run_ok _ _ _ _ _ Hr Hrun) as [Hok _].
  destruct (step_effect _ _ _ _ Hstep Hok) as (_ & _ & [(op & _ & -> & Hd)|[-> Hd]]).
  - pose proof (spec_values (ch_cap (w_ch w')) (bool_decide (is_Some (ch_ship (w_ch w')))) (w_hosted w')
      (pk_me (w_vm w')) op (abs w') (abs_shaped w')) as Hv.
    unfold flow_of. destruct (spec_of w' op) as [[q ns] o]. simpl in *.
    rewrite (dwindles_values _ _ Hd).
    transitivity ((f_accepted f ++ f_returned f) ++ accepts op ns o ++ returned (w_hosted w') op);
      [solve_Permutation|].
    rewrite IH. rewrite <- !app_assoc. by rewrite Hv.
  - rewrite (dwindles_values _ _ Hd). simpl. by rewrite !app_nil_r.
Qed.

Lemma run_calm cap vm f w (guard : World (S := S) (WireData := WireData) → ChanOp WireData → Prop) :
  pk_running vm → (∀ w op, guard w op → fits w op) → chan_run guard (fresh cap vm) f w →
  calm (abs w).
Proof.
  intros Hr Hg Hrun. remember (fresh cap vm) as w0 eqn:Hw0.
  induction Hrun as [w|w f w' g w'' Hrun IH Hstep]; subst; [by left|]. specialize (IH eq_refl).
  destruct (run_ok _ _ _ _ _ Hr Hrun) as [Hok _].
  destruct (step_effect _ _ _ _ Hstep Hok) as (_ & _ & [(op & Hop & -> & Hd)|[-> Hd]]).
  - eapply dwindles_calm; [|done]. apply spec_calm; [done|]. by apply Hg.
  - by eapply dwindles_calm.
Qed.

(** C14: Along any run in which no value bounces off the far receiver it is handed to, nobody
    waits for a value that is there: while a receiver waits, nothing is buffered and no sender
    waits; and a sender only waits while the buffer is full. *)
Theorem no_wakeup_is_lost cap vm f w :
  pk_running vm → chan_run fits (fresh cap vm) f w →
  (omap (live_recv (w_vm w)) (ch_recv (w_ch w)) ≠ [] →
     ch_buffer (w_ch w) = [] ∧ omap (live_send (w_vm w)) (ch_send (w_ch w)) = [])
  ∧ (omap (live_send (w_vm w)) (ch_send (w_ch w)) ≠ [] → cap ≤ length (ch_buffer (w_ch w))).
Proof.
  intros Hr Hrun. destruct (run_ok _ _ _ _ _ Hr Hrun) as [[_ _ [Hfull _]] Hcap]. split.
  - intros Hw. destruct (run_calm _ _ _ _ _ Hr (λ _ _ Hg, Hg) Hrun) as [Hq|Hq]; [done|].
    apply app_nil in Hq as [Hq Hs]. split; [|done]. by apply fmap_nil_inv in Hq.
  - intros Hs. rewrite accepted_abs, Hcap in Hfull. destruct Hfull as [Hall|]; [|done].
    by apply all_accepted_abs in Hall.
Qed.

(** Along any run in which no value bounces and none is brought back, a channel is first
    in, first out: the values handed out, followed by the buffered ones, are the values
    accepted, in the order they were accepted. *)
Theorem channel_is_fifo cap vm f w :
  pk_running vm → chan_run (λ w op, fits w op ∧ brings_back op = false) (fresh cap vm) f w →
  f_accepted f = f_handed f ++ ch_buffer (w_ch w).
Proof.
  intros Hr Hrun. rewrite <- accepted_values_abs. remember (fresh cap vm) as w0 eqn:Hw0.
  induction Hrun as [w|w f w' g w'' Hrun IH Hstep]; subst; [done|]. specialize (IH eq_refl).
  destruct (run_ok _ _ _ _ _ Hr Hrun) as [Hok _].
  assert (calm (abs w')) as Hcalm by (eapply run_calm; [done| |done]; naive_solver).
  destruct (step_effect _ _ _ _ Hstep Hok) as (_ & _ & [(op & [Hfit Hback] & -> & Hd)|[-> Hd]]).
  - pose proof (spec_fifo (ch_cap (w_ch w')) (bool_decide (is_Some (ch_ship (w_ch w')))) (w_hosted w')
      (pk_me (w_vm w')) op (abs w') (abs_shaped w') Hcalm Hfit Hback) as Hv.
    unfold flow_of. destruct (spec_of w' op) as [[q ns] o]. simpl in *.
    rewrite (dwindles_values _ _ Hd), IH, <- !app_assoc. by rewrite Hv.
  - rewrite (dwindles_values _ _ Hd). simpl. by rewrite !app_nil_r.
Qed.

End runs.
