(* ===== verification/ChannelRoots.v ===== *)
(** * How a channel is rooted

    A channel is rooted in the table of hosted objects while far endpoints of it exist; each is
    counted with the channel and with its link, and the two counts agree.  Then the scheduler as
    an instance of what channels need, and channels at work on it. *)
From stdpp Require Import base numbers list gmap strings.
From stdpp Require Import options.
From S2P Require Import Prelude Sched Driver SchedEffects SchedInv SchedProps SchedRuns SchedAnswers Channel ChannelSpec ChannelQueue ChannelProps ChannelRuns.
#[local] Set Default Proof Using "Type*".
#[local] Set Warnings "-clear-no-such-hyp".

(** The endpoints of all links. *)
Definition total (m : gmap (nat * N) nat) : nat := map_fold (λ _ n acc, n + acc) 0 m.

Lemma total_insert m k n : m !! k = None → total (<[k := n]> m) = n + total m.
Proof. intros Hk. unfold total. rewrite map_fold_insert_L; [done|intros; lia|done]. Qed.

Lemma total_delete m k n : m !! k = Some n → total m = n + total (delete k m).
Proof.
  intros Hk. rewrite <- (insert_delete_id m k n Hk) at 1. apply total_insert, lookup_delete_eq.
Qed.

Lemma total_change m k n n' : m !! k = Some n → total (<[k := n']> m) + n = total m + n'.
Proof.
  intros Hk. rewrite <- insert_delete_eq, total_insert by apply lookup_delete_eq.
  rewrite (total_delete m k n Hk). lia.
Qed.

Section roots.
Context `{VmTypes} {S : Type} `{!Parking S} `{!ParkingLaws S} {WireData : Type}.
Context (value_to_wire : Value → string + WireData).
Context (wire_to_value : WireData → string + Value).
Implicit Types (w : World (S := S) (WireData := WireData)).

Abbreviation rooting_state := (option ChanShip * option N * gmap (nat * N) nat)%type.

(** Each link's count is positive and for this channel; the channel's is their sum. *)
Definition rooted (r : rooting_state) : Prop :=
  let '(ship, hosted, shipped) := r in
  match ship with
  | None => hosted = None ∧ shipped = ∅
  | Some s =>
      hosted = Some (ship_id s) ∧ 0 < ship_refs s ∧ ship_refs s = total shipped
      ∧ map_Forall (λ k n, k.2 = ship_id s ∧ 0 < n) shipped
  end.

Lemma ship_rooted w link id : rooted (rooting w) → rooted (rooting (ship_channel link id w).1).
Proof.
  unfold rooting, ship_channel, channel_ship. simpl.
  destruct (ch_ship (w_ch w)) as [s|]; simpl.
  - intros (Hh & Hpos & Hsum & Hall).
    split_and!; [done|lia| |].
    + destruct (w_shipped w !! (link, ship_id s)) as [n|] eqn:Hn; simpl.
      * pose proof (total_change _ _ _ (n + 1) Hn). lia.
      * rewrite total_insert by done. lia.
    + apply map_Forall_insert_2; [|done]. simpl. split; [done|lia].
  - intros [_ ->]. split_and!; [done|lia| |].
    + by rewrite lookup_empty, total_insert.
    + rewrite lookup_empty. apply map_Forall_insert_2; [|apply map_Forall_empty]. simpl. split; [done|lia].
Qed.

Lemma total_empty : total ∅ = 0.
Proof. apply map_fold_empty. Qed.

Lemma total_zero (P : nat * N → Prop) m :
  map_Forall (λ k n, P k ∧ 0 < n) m → total m = 0 → m = ∅.
Proof.
  intros Hall Hz. apply map_empty. intros k. destruct (m !! k) as [n|] eqn:Hn; [|done].
  rewrite (total_delete _ _ _ Hn) in Hz. apply Hall in Hn as [_ Hn]. lia.
Qed.

(** Giving up the references that a link no longer counts. *)
Lemma drop_refs_rooted w s refs :
  ch_ship (w_ch w) = Some s → w_hosted w = Some (ship_id s) → ship_refs s = refs + total (w_shipped w) →
  map_Forall (λ k n, k.2 = ship_id s ∧ 0 < n) (w_shipped w) →
  rooted (rooting (drop_refs refs w)).
Proof.
  intros Hs Hh Hsum Hall. unfold rooting, drop_refs. rewrite Hs.
  destruct (Nat.eqb_spec (ship_refs s - refs) 0) as [Hz|Hz]; simpl.
  - split; [done|]. apply (total_zero (λ k, k.2 = ship_id s)); [done|lia].
  - split_and!; [done|lia|lia|done].
Qed.

(** The peer of [link] releases only endpoints it has. *)
Definition honest w (op : ChanOp WireData) : Prop :=
  match op with
  | Frame link (FRelease chan) => is_Some (w_shipped w !! (link, chan))
  | _ => True
  end.

Lemma release_rooted w link chan :
  rooted (rooting w) → is_Some (w_shipped w !! (link, chan)) →
  rooted (rooting (remote_release link chan w)).
Proof.
  unfold remote_release. intros Hroot [n Hn]. rewrite Hn.
  unfold rooting, rooted in Hroot. destruct (ch_ship (w_ch w)) as [s|] eqn:Hs; [|].
  - destruct Hroot as (Hh & Hpos & Hsum & Hall). destruct (Hall _ _ Hn) as [Hid Hnpos].
    simpl in Hid. subst chan.
    rewrite bool_decide_eq_true_2 by (by destruct (Nat.eqb _ 0)).
    apply (drop_refs_rooted _ s); [done|done| |].
    + simpl. destruct (Nat.eqb_spec (n - 1) 0).
      * rewrite Hsum, (total_delete _ _ _ Hn). lia.
      * pose proof (total_change _ _ _ (n - 1) Hn). lia.
    + simpl. destruct (Nat.eqb_spec (n - 1) 0).
      * by apply map_Forall_delete.
      * apply map_Forall_insert_2; [|done]. split; [done|lia].
  - destruct Hroot as [_ Hempty]. by rewrite Hempty, lookup_empty in Hn.
Qed.

Lemma link_died_rooted w link : rooted (rooting w) → rooted (rooting (channel_link_died link w)).
Proof.
  unfold channel_link_died, rooting, rooted at 1. intros Hroot. simpl.
  destruct (ch_ship (w_ch w)) as [s|] eqn:Hs.
  - destruct Hroot as (Hh & Hpos & Hsum & Hall). rewrite Hh.
    assert (filter (λ p : nat * N * nat, p.1.1 ≠ link) (w_shipped w)
            = delete (link, ship_id s) (w_shipped w)) as Hf.
    { apply map_eq. intros [l c]. destruct (decide ((link, ship_id s) = (l, c))) as [Heq|Hne].
      - rewrite Heq, lookup_delete_eq. injection Heq as <- <-. apply map_lookup_filter_None. naive_solver.
      - rewrite lookup_delete_ne by done. destruct (w_shipped w !! (l, c)) as [n|] eqn:Hn.
        + apply map_lookup_filter_Some. split; [done|]. simpl. intros ->. apply Hne.
          by destruct (Hall _ _ Hn) as [<- _].
        + apply map_lookup_filter_None. by left. }
    destruct (w_shipped w !! (link, ship_id s)) as [refs|] eqn:Hn.
    + apply (drop_refs_rooted _ s); [done|done| |]; simpl; rewrite Hf.
      * by rewrite Hsum, (total_delete _ _ _ Hn).
      * by apply map_Forall_delete.
    + simpl. rewrite Hs. rewrite Hf, delete_id by done. done.
  - destruct Hroot as [Hh Hempty]. rewrite Hh. simpl. rewrite Hs, Hh, Hempty. split; [done|].
    apply map_filter_empty.
Qed.

Lemma run_rooted w op :
  chan_ok w → may_wait w op → honest w op → rooted (rooting w) →
  rooted (rooting (run value_to_wire wire_to_value op w).1).
Proof.
  intros Hok Hmay Hhon Hroot. destruct (is_release op) eqn:Hrel.
  - destruct op as [| | | |link f]; try done. destruct f; try done. simpl.
    by apply release_rooted.
  - pose proof (run_refines value_to_wire wire_to_value w op Hok Hmay) as Href.
    destruct (run _ _ op w) as [w' o], (spec _ _ _ _ _ _ op (abs w)) as [e o'].
    destruct Href as (_ & (_ & _ & _ & _ & _ & _ & _ & Hsame) & _). cbn [fst]. by rewrite Hsame.
Qed.

(** Along any run in which the peers release only endpoints they have, a channel is rooted
    under the id it is shipped by exactly while far endpoints of it exist; its reference count
    is the number of the endpoints that the links count, and a link that dies takes its own
    with it. *)
Theorem rooted_while_shared cap vm f w :
  pk_running vm → chan_run value_to_wire wire_to_value honest (fresh cap vm) f w →
  (w_hosted w = None ↔ w_shipped w = ∅)
  ∧ w_hosted w = ship_id <$> ch_ship (w_ch w)
  ∧ default 0 (ship_refs <$> ch_ship (w_ch w)) = total (w_shipped w).
Proof.
  intros Hr Hrun.
  assert (rooted (rooting w)) as Hroot.
  { remember (fresh cap vm) as w0 eqn:Hw0.
    induction Hrun as [w|w f w' g w'' Hrun IH Hstep]; subst; [done|]. specialize (IH eq_refl).
    destruct (run_ok _ _ _ _ _ _ _ Hr Hrun) as [Hok _].
    destruct Hstep as [w0 op w1 o Hg Hmay Hrun1 Ho|w0 op w1 vm' Hg Hmay Hrun1 Hres|w0 vm' Hres|w0 link id|w0 link].
    - pose proof (run_rooted w0 op Hok Hmay Hg IH) as Hroot. by rewrite Hrun1 in Hroot.
    - pose proof (run_rooted w0 op Hok Hmay Hg IH) as Hroot. by rewrite Hrun1 in Hroot.
    - done.
    - by apply ship_rooted.
    - by apply link_died_rooted. }
  unfold rooting, rooted in Hroot. destruct (ch_ship (w_ch w)) as [s|]; simpl.
  - destruct Hroot as (-> & Hpos & Hsum & Hall). split_and!; [|done|done]. split; [done|].
    intros Hempty. rewrite Hempty, total_empty in Hsum. lia.
  - destruct Hroot as [-> ->]. done.
Qed.

End roots.

(** * Channels on the scheduler

    The scheduler of [Sched] has the laws of parking, and what its driver does between two
    resumptions is what a channel takes for granted. *)
#[local] Set Default Proof Using "Type*".

#[export] Instance sched_parking `{VmTypes} : Parking VmState := {
  pk_live := channel_waiter_live;
  pk_me := current_task;
  pk_epoch := current_park_epoch;
  pk_park vm := update_task vm (current_task vm) (set_t_parked true);
  pk_wake := wake_channel_task }.

Section laws.
Context `{VmTypes}.
Implicit Types (vm : VmState) (t : Task).

(** The current task is there, not parked, and was resumed. *)
Definition sched_running vm : Prop :=
  ∃ t, get_task vm (current_task vm) = Some t ∧ t_parked_on_channel t = false
    ∧ (0 < t_park_epoch t)%N.

Definition sched_cancelling vm : bool :=
  match get_task vm (current_task vm) with Some t => t_cancel_requested t | None => false end.

Lemma live_inv vm id e :
  channel_waiter_live vm id e = true →
  ∃ t, get_task vm id = Some t ∧ t_parked_on_channel t = true ∧ t_park_epoch t = e
    ∧ t_cancel_requested t = false.
Proof.
  unfold channel_waiter_live. destruct (get_task vm id) as [t|]; [|done].
  intros [[Hp He%N.eqb_eq]%andb_true_iff Hc%negb_true_iff]%andb_true_iff. by exists t.
Qed.

Lemma get_wake vm id w t j :
  get_task vm id = Some t →
  get_task (wake_channel_task vm id w) j
  = if decide (j = id) then Some (set_t_wake (Some w) (set_t_parked false t)) else get_task vm j.
Proof. intros Ht. unfold wake_channel_task. rewrite Ht. simpl. by rewrite get_push_ready, (get_put _ _ t). Qed.

Lemma woken_current vm id e w :
  sched_running vm → channel_waiter_live vm id e = true →
  get_task (wake_channel_task vm id w) (current_task vm) = get_task vm (current_task vm).
Proof.
  intros (t & Ht & Hp & _) (u & Hu & Hup & _)%live_inv. rewrite (get_wake _ _ _ u) by done.
  destruct (decide _) as [Heq|]; [congruence|done].
Qed.

Lemma current_wake vm id w : current_task (wake_channel_task vm id w) = current_task vm.
Proof. unfold wake_channel_task. by destruct (get_task vm id). Qed.

#[export] Program Instance sched_parking_laws : ParkingLaws VmState := {
  pk_running := sched_running;
  pk_cancelling := sched_cancelling }.
Next Obligation.
  intros vm e (t & Ht & Hp & _). simpl. unfold channel_waiter_live. by rewrite Ht, Hp.
Qed.
Next Obligation.
  intros vm id e e' (t & Ht & _ & <- & _)%live_inv (t' & Ht' & _ & <- & _)%live_inv. congruence.
Qed.
Next Obligation.
  intros vm id e w id' e' Hr (t & Ht & _)%live_inv. simpl. unfold channel_waiter_live.
  rewrite (get_wake _ _ _ t) by done.
  destruct (decide _) as [->|Hne]; [by rewrite Nat.eqb_refl|].
  by destruct (Nat.eqb_spec id' id).
Qed.
Next Obligation.
  intros vm id e w Hr Hl. unfold sched_running. simpl in *. rewrite current_wake.
  by rewrite (woken_current _ _ _ _ Hr Hl).
Qed.
Next Obligation. intros vm id w. apply current_wake. Qed.
Next Obligation.
  intros vm id e w Hr Hl. simpl in *. unfold current_park_epoch. rewrite current_wake.
  by rewrite (woken_current _ _ _ _ Hr Hl).
Qed.
Next Obligation.
  intros vm id e w Hr Hl. simpl in *. unfold sched_cancelling. rewrite current_wake.
  by rewrite (woken_current _ _ _ _ Hr Hl).
Qed.
Next Obligation.
  intros vm (t & Ht & _ & He). simpl. unfold current_park_epoch. by rewrite Ht.
Qed.
Next Obligation.
  intros vm. simpl. unfold update_task. by destruct (get_task vm (current_task vm)).
Qed.
Next Obligation.
  intros vm (t & Ht & _). simpl. unfold current_park_epoch.
  assert (current_task (update_task vm (current_task vm) (set_t_parked true)) = current_task vm) as ->
    by (unfold update_task; by destruct (get_task vm (current_task vm))).
  rewrite get_update. destruct (decide _); [|done]. by rewrite Ht.
Qed.
Next Obligation.
  intros vm id e (t & Ht & Hp & _) Hc. simpl. unfold channel_waiter_live, current_park_epoch.
  unfold sched_cancelling in Hc. rewrite get_update, Ht in *.
  destruct (decide _) as [->|Hne].
  - rewrite Ht, Nat.eqb_refl. simpl. rewrite Hp, Hc. simpl. by rewrite orb_false_r, andb_true_r, N.eqb_sym.
  - destruct (Nat.eqb_spec id (current_task vm)); [congruence|done].
Qed.

End laws.

Section driver.
Context `{VmTypes}.
Context (start_block : Block → Context → Context).
Context (quoinerror_to_value : QuoinError → Value).
Context (stress : bool).
Implicit Types (d : Driver).

Lemma running_in d c :
  reachable start_block quoinerror_to_value stress d → d_current d = Some c → sched_running (d_vm d).
Proof.
  intros Hr%reachable_sched_inv Hc. destruct (current_task_full d c Hr Hc) as [t Ht].
  destruct (current_unparked d c Hr Hc t Ht) as (_ & Hp & _).
  exists t. rewrite (su_running _ (inv_suspensions _ Hr) _ Hc). split_and!; [done|done|].
  by apply (su_epoch _ (inv_suspensions _ Hr) c).
Qed.

Lemma resumes_along d d' c :
  reachable start_block quoinerror_to_value stress d →
  rtc (happens start_block quoinerror_to_value stress) d d' →
  d_current d' = Some c →
  (current_park_epoch (d_vm d) < current_park_epoch (d_vm d'))%N →
  resumes (d_vm d) (d_vm d').
Proof.
  intros Hr Hrun Hc Hlt.
  assert (reachable start_block quoinerror_to_value stress d') as Hr' by (unfold reachable in *; by etrans).
  split_and!; [by eapply running_in|done|]. intros t e He Hne Hl. simpl in *.
  destruct (channel_waiter_live (d_vm d) t e) eqn:Hdead; [done|].
  assert (current_park_epoch (d_vm d) ≤ park_seq (d_vm d))%N as Hseq.
  { unfold current_park_epoch. destruct (get_task (d_vm d) (current_task (d_vm d))) as [u|] eqn:Hu; [|lia].
    eapply ts_epoch, su_task; [|done]. apply inv_suspensions. by eapply reachable_sched_inv. }
  pose proof (dead_along start_block quoinerror_to_value stress d d' t e Hr Hrun) as Hst.
  rewrite Hst in Hl; [done|lia| |done].
  intros Hcur Heq. apply Hne. f_equal; [|done].
  symmetry. apply (su_running _ (inv_suspensions _ (reachable_sched_inv _ _ _ _ Hr)) _ Hcur).
Qed.

(** Whatever the scheduler does between two resumptions, it does not bring back to life an
    entry of a channel's queue: what channels take for granted of it ([resumes]) holds between
    any two states of a run, the second with a task running that was resumed later. *)
Theorem scheduler_resumes d d' c :
  reachable start_block quoinerror_to_value stress d →
  rtc (happens start_block quoinerror_to_value stress) d d' →
  d_current d' = Some c →
  (current_park_epoch (d_vm d) < current_park_epoch (d_vm d'))%N →
  resumes (d_vm d) (d_vm d').
Proof. apply resumes_along. Qed.

End driver.

(** * Concrete channels

    Channels of numbers on small schedulers: the theorems about channels applied to runs in
    which tasks park, are woken and are resumed, and far endpoints take part. *)

(** Any number but 13 can cross. *)
Definition demo_wire (v : Value) : string + nat :=
  if decide ((v : nat) = 13) then inl "unlucky"%string else inr (v : nat).
Definition demo_unwire (n : nat) : string + Value := inr (n : Value).

Abbreviation demo_world := (World (S := VmState) (WireData := nat)).
Abbreviation demo_run := (run demo_wire demo_unwire).

(** The main task runs; another is ready; then that one runs, with main parked. *)
Definition parked_run : list Act := [Spawn 1; ParkOnChannel].
Definition vm_main : VmState := d_vm (state_after [Spawn 1]).
Definition vm_other : VmState := d_vm (state_after (parked_run ++ [Pick 0])).

Definition empty_world : demo_world := fresh 1 vm_main.
Definition main_waits : demo_world := (demo_run Recv empty_world).1.
Definition other_runs : demo_world := set_vm vm_other main_waits.
Definition handed_over : demo_world := (demo_run (Send five) other_runs).1.
Definition filled : demo_world := (demo_run (Send seven) handed_over).1.

Lemma main_running : sched_running vm_main.
Proof. eexists. split; [by vm_compute|]. by vm_compute. Qed.

Lemma other_running : sched_running vm_other.
Proof. eexists. split; [by vm_compute|]. by vm_compute. Qed.

Lemma other_resumes : resumes (w_vm main_waits) vm_other.
Proof.
  split_and!; [apply other_running|by vm_compute|].
  intros t e He Hne (u & Hu & Hp & <- & _)%live_inv.
  destruct t as [|[|t]]; vm_compute in Hu; [injection Hu as <-|injection Hu as <-|done].
  - by destruct Hne.
  - done.
Qed.

(** Main waits for a value; the other task sends it one, and a second one, which is buffered. *)
Lemma demo_chan_run (guard : demo_world → ChanOp nat → Prop) :
  guard empty_world Recv → guard other_runs (Send five) → guard handed_over (Send seven) →
  chan_run demo_wire demo_unwire guard empty_world (mkFlow [five; seven] [] [five]) filled.
Proof.
  intros G1 G2 G3.
  assert (chan_run demo_wire demo_unwire guard empty_world no_flow empty_world) as R0 by constructor.
  assert (chan_step demo_wire demo_unwire guard empty_world
            (flow_of demo_wire demo_unwire empty_world Recv) other_runs) as S1
    by (by apply step_parks; [| | |apply other_resumes]).
  assert (chan_step demo_wire demo_unwire guard other_runs
            (flow_of demo_wire demo_unwire other_runs (Send five)) handed_over) as S2
    by (by apply step_runs with Done).
  assert (chan_step demo_wire demo_unwire guard handed_over
            (flow_of demo_wire demo_unwire handed_over (Send seven)) filled) as S3
    by (by apply step_runs with Done).
  exact (run_snoc _ _ _ _ _ _ _ _ (run_snoc _ _ _ _ _ _ _ _ (run_snoc _ _ _ _ _ _ _ _ R0 S1) S2) S3).
Qed.

Lemma accepted_values_are_kept_witness :
  f_accepted (mkFlow [five; seven] [] [five]) ++ f_returned (mkFlow [five; seven] [] [five])
  ≡ₚ f_handed (mkFlow [five; seven] [] [five]) ++ ch_buffer (w_ch filled).
Proof.
  apply (accepted_values_are_kept demo_wire demo_unwire 1 vm_main).
  - apply main_running.
  - by apply demo_chan_run.
Defined.

Lemma demo_fits w op : q_waiting (abs w) = [] ∨ op = Send five ∧ head (q_waiting (abs w)) = Some (Here 0) →
  fits demo_wire demo_unwire (w : demo_world) op.
Proof. intros [Hw|[-> Hw]] v p; rewrite Hw; [done|]. by intros [= <-]. Qed.

Lemma no_wakeup_is_lost_witness :
  (omap (live_recv (w_vm filled)) (ch_recv (w_ch filled)) ≠ [] →
     ch_buffer (w_ch filled) = [] ∧ omap (live_send (w_vm filled)) (ch_send (w_ch filled)) = [])
  ∧ (omap (live_send (w_vm filled)) (ch_send (w_ch filled)) ≠ [] → 1 ≤ length (ch_buffer (w_ch filled))).
Proof.
  apply (no_wakeup_is_lost demo_wire demo_unwire 1 vm_main (mkFlow [five; seven] [] [five]) filled).
  - apply main_running.
  - apply demo_chan_run; apply demo_fits; vm_compute; auto.
Defined.

Lemma channel_is_fifo_witness :
  f_accepted (mkFlow [five; seven] [] [five])
  = f_handed (mkFlow [five; seven] [] [five]) ++ ch_buffer (w_ch filled).
Proof.
  apply (channel_is_fifo demo_wire demo_unwire 1 vm_main).
  - apply main_running.
  - apply demo_chan_run; (split; [|done]); apply demo_fits; vm_compute; auto.
Defined.

Lemma other_ok : chan_ok other_runs.
Proof.
  split.
  - apply other_running.
  - split; [apply NoDup_singleton|]. repeat constructor.
  - split; [by left|done].
Qed.

Lemma channel_refines_queue_witness :
  let '(w', o) := demo_run (Send five) other_runs in
  let '(e, o') :=
    spec demo_wire demo_unwire (ch_cap (w_ch other_runs))
      (bool_decide (is_Some (ch_ship (w_ch other_runs)))) (w_hosted other_runs)
      (pk_me (w_vm other_runs)) (Send five) (abs other_runs) in
  o = o' ∧ refines demo_wire (Send five) other_runs w' o e ∧ q_ok (ch_cap (w_ch w')) (abs w').
Proof.
  refine (channel_refines_queue demo_wire demo_unwire other_runs (Send five) _ _).
  - apply other_ok.
  - by vm_compute.
Defined.

(** ** Far endpoints *)

(** Main ships the channel over link 0 under id 3; the far end asks for a value, main sends one;
    then the far endpoint is dropped. *)
Definition shipped_world : demo_world := (ship_channel 0 3%N empty_world).1.
Definition asked : demo_world := (demo_run (Frame 0 (FRecv 3 9)) shipped_world).1.
Definition answered_far : demo_world := (demo_run (Send five) asked).1.
Definition released : demo_world := (demo_run (Frame 0 (FRelease 3)) answered_far).1.

Lemma far_value_sent : w_out answered_far = [(0, FValue 9%N 5)] ∧ w_hosted answered_far = Some 3%N.
Proof. by vm_compute. Qed.

Lemma rooted_while_shared_witness :
  (w_hosted released = None ↔ w_shipped released = ∅)
  ∧ w_hosted released = ship_id <$> ch_ship (w_ch released)
  ∧ default 0 (ship_refs <$> ch_ship (w_ch released)) = total (w_shipped released).
Proof.
  apply (rooted_while_shared demo_wire demo_unwire 1 vm_main
    (add_flow (add_flow (add_flow (add_flow no_flow no_flow)
       (flow_of demo_wire demo_unwire shipped_world (Frame 0 (FRecv 3 9))))
       (flow_of demo_wire demo_unwire asked (Send five)))
       (flow_of demo_wire demo_unwire answered_far (Frame 0 (FRelease 3))))).
  - apply main_running.
  - apply run_snoc with answered_far; [apply run_snoc with asked; [apply run_snoc with shipped_world;
      [apply run_snoc with empty_world; [constructor|apply step_ships]|]|]|];
      apply step_runs with Done; try done; by vm_compute; eexists.
Defined.

(** A value that cannot cross, given back while the far end is first in line, main's sender is
    the other task, and main waits behind. *)
Definition bouncing : demo_world :=
  mkWorld vm_other (mkChannel 1 false [] [RRemote 0 9; RLocal 0 1] [] None) None ∅ [].

Lemma bounced_value_is_overtaken_witness :
  let w1 := channel_redeliver demo_wire (13 : nat) bouncing in
  let w2 := (channel_send demo_wire five w1).1 in
  w_vm w1 = vm_other ∧ ch_buffer (w_ch w1) = [13 : nat] ∧ ch_recv (w_ch w1) = [RLocal 0 1]
  ∧ w_vm w2 = pk_wake vm_other 0 (WChannelRecv five) ∧ ch_buffer (w_ch w2) = [13 : nat].
Proof.
  apply (bounced_value_is_overtaken demo_wire bouncing 0 9 0 1 [] (13 : nat) "unlucky" five);
    first [done|by left].
Defined.

Lemma scheduler_resumes_witness : resumes (d_vm (state_after parked_run)) vm_other.
Proof.
  apply (scheduler_resumes demo_start demo_error false (state_after parked_run)
           (state_after (parked_run ++ [Pick 0])) 1).
  - apply state_reachable. vm_compute. by eexists.
  - apply (exec_happens [Pick 0]). by vm_compute.
  - by vm_compute.
  - by vm_compute.
Defined.
