(* ===== verification/RelayLink.v ===== *)
(** * Channel relays (src/src/runtime/channel_relay.rs)

    The far side of a shipped channel: an endpoint forwards sends, receives and closes as frames
    with correlation ids over a worker link and parks with the machinery of channels; the
    link's agent resolves the answers against the table of pending operations.

    One link is modelled, with its outbound lane as the list of the frames under way.  An
    operation that suspends its task is in two parts.  The table of pending operations is a
    hash map of the code; where the code drains it, the order is an argument.  After the
    endpoint and its link: a channel and its far endpoint together, a concrete link, and the
    frames of a relay on a socket. *)
From stdpp Require Import base numbers list gmap strings.
From stdpp Require Import options.
From S2P Require Import Prelude WireModel WireCodec WireRoundtrip WireProps Sched Driver SchedAnswers Channel ChannelSpec ChannelQueue ChannelProps ChannelRuns ChannelRoots.

Record PendingChanOp := mkPending { p_task : TaskId; p_epoch : N; p_chan : N }.

Section relay.
Context `{VmTypes} {S : Type} `{Parking S}.
Context {WireData : Type}.
Context (value_to_wire : Value → string + WireData).
Context (wire_to_value : WireData → string + Value).

Record ChanLink := mkLink {
  l_open : bool;
  l_next_corr : N;
  l_pending : gmap N PendingChanOp;
  l_reap : list N;
  l_out : list (ChanFrame WireData) }.

(** The isolate at the far end: its scheduler and its side of the link. *)
Record Endpoint := mkEnd { e_vm : S; e_link : ChanLink }.

Implicit Types (e : Endpoint) (l : ChanLink).

Definition set_end_vm x e : Endpoint := mkEnd x (e_link e).
Definition set_link x e : Endpoint := mkEnd (e_vm e) x.
Definition set_pending x l : ChanLink := mkLink (l_open l) (l_next_corr l) x (l_reap l) (l_out l).
Definition set_reap x l : ChanLink := mkLink (l_open l) (l_next_corr l) (l_pending l) x (l_out l).
Definition set_out x l : ChanLink := mkLink (l_open l) (l_next_corr l) (l_pending l) (l_reap l) x.

(** [register_chan_link]. *)
Definition new_link : ChanLink := mkLink true 1 ∅ [] [].

(** [chan_emit]: on a closed lane the frame is dropped. *)
Definition link_emit (frame : ChanFrame WireData) e : Endpoint :=
  let l := e_link e in if l_open l then set_link (set_out (l_out l ++ [frame]) l) e else e.

Definition wake_end (task : TaskId) (wk : Wake) e : Endpoint :=
  set_end_vm (pk_wake (e_vm e) task wk) e.

(** An endpoint is dropped. *)
Definition drop_endpoint (chan : N) e : Endpoint :=
  set_link (set_reap (l_reap (e_link e) ++ [chan]) (e_link e)) e.

Definition flush_chan_reap e : Endpoint :=
  foldl (λ e chan, link_emit (FRelease chan) e) (set_link (set_reap [] (e_link e)) e)
    (l_reap (e_link e)).

Definition link_gone : QuoinError := Other "channel endpoint: the owning isolate is gone".

(** Register a pending operation and emit its frame; the correlation id. *)
Definition begin_op (chan : N) (make : N → ChanFrame WireData) e : Endpoint * (QuoinError + N) :=
  let l := e_link e in
  let corr := l_next_corr l in
  let op := mkPending (pk_me (e_vm e)) (pk_epoch (e_vm e)) chan in
  if l_open l then
    (set_link (mkLink true (corr + 1) (<[corr := op]> (l_pending l)) (l_reap l)
                 (l_out l ++ [make corr])) e, inr corr)
  else
    (set_link (mkLink false (corr + 1) (delete corr (<[corr := op]> (l_pending l))) (l_reap l)
                 (l_out l)) e, inl link_gone).

Definition relay_park e : Endpoint := set_end_vm (pk_park (e_vm e)) e.

Definition not_portable (m : string) : QuoinError :=
  ValueError ("values sent across isolates must be portable: " ++ m)%string.

(** [relay_send] up to the suspension: the correlation id it parks with. *)
Definition relay_send (chan : N) (v : Value) e : Endpoint * (QuoinError + N) :=
  let e := flush_chan_reap e in
  match value_to_wire v with
  | inl m => (e, inl (not_portable m))
  | inr wire =>
      match begin_op chan (λ corr, FSend chan corr wire) e with
      | (e, inl err) => (e, inl err)
      | (e, inr corr) => (relay_park e, inr corr)
      end
  end.

Definition relay_send_resumed (chan corr : N) (cancelled : bool) (wk : option Wake) e
    : Endpoint * (QuoinError + unit) :=
  if cancelled then
    (match wk with
     | Some WChannelSendOk => e
     | _ => link_emit (FCancel chan corr) e
     end, inl Cancelled)
  else
    (e, match wk with
        | Some WChannelSendOk => inr ()
        | Some WChannelClosed => inl closed_error
        | Some (WChannelErr message) => inl (ValueError message)
        | _ => inl (Other "relay channel send resumed without a result")
        end).

Definition relay_recv (chan : N) e : Endpoint * (QuoinError + N) :=
  match begin_op chan (λ corr, FRecv chan corr) (flush_chan_reap e) with
  | (e, inl err) => (e, inl err)
  | (e, inr corr) => (relay_park e, inr corr)
  end.

Definition relay_recv_resumed (chan corr : N) (cancelled : bool) (wk : option Wake) e
    : Endpoint * (QuoinError + option Value) :=
  if cancelled then
    (match wk with
     | Some (WChannelRecv v) =>
         match value_to_wire v with
         | inr wire => link_emit (FReturn chan wire) e
         | inl _ => e
         end
     | _ => link_emit (FCancel chan corr) e
     end, inl Cancelled)
  else
    (e, match wk with
        | Some (WChannelRecv v) => inr (Some v)
        | Some WChannelClosed => inr None
        | Some (WChannelErr message) => inl (ValueError message)
        | _ => inl (Other "relay channel receive resumed without a result")
        end).

Definition relay_close (chan : N) e : Endpoint := link_emit (FClose chan) (flush_chan_reap e).

(** The operation an answer is for; [None] for the frames of endpoints. *)
Definition answers_op (frame : ChanFrame WireData) : option N :=
  match frame with
  | FAck corr | FValue corr _ | FClosedFor corr | FRecvError corr _ => Some corr
  | _ => None
  end.

(** An answer that arrived; the conversion of its value may fail. *)
Definition resolve_pending (corr : N) (frame : ChanFrame WireData) e : Endpoint * (string + unit) :=
  let l := e_link e in
  match l_pending l !! corr with
  | None => (e, inr ())
  | Some p =>
      let e := set_link (set_pending (delete corr (l_pending l)) l) e in
      let live := pk_live (e_vm e) (p_task p) (p_epoch p) in
      match frame with
      | FAck _ => (if live then wake_end (p_task p) WChannelSendOk e else e, inr ())
      | FValue _ wire =>
          if live then
            match wire_to_value wire with
            | inl m => (e, inl m)
            | inr v => (wake_end (p_task p) (WChannelRecv v) e, inr ())
            end
          else (link_emit (FReturn (p_chan p) wire) e, inr ())
      | FClosedFor _ => (if live then wake_end (p_task p) WChannelClosed e else e, inr ())
      | FRecvError _ message => (if live then wake_end (p_task p) (WChannelErr message) e else e, inr ())
      | _ => (e, inr ())
      end
  end.

(** The link's lane closed: every pending operation ends as closed, in the order drained. *)
Definition lane_closed (drained : list PendingChanOp) e : Endpoint :=
  foldl (λ e p,
           if pk_live (e_vm e) (p_task p) (p_epoch p) then wake_end (p_task p) WChannelClosed e else e)
    (set_link (set_pending ∅ (e_link e)) e) drained.

End relay.

(** * A shipped channel and its far endpoint

    The owner's channel, one link, and the isolate at its far end, with both lanes: what the
    correlation ids are worth ([promised]). *)
#[local] Set Default Proof Using "Type*".
#[local] Set Warnings "-clear-no-such-hyp".

Section link.
Context `{VmTypes} {S : Type} `{!Parking S} `{!ParkingLaws S} {WireData : Type}.
Context (value_to_wire : Value → string + WireData).
Context (wire_to_value : WireData → string + Value).
(** The owner's index of the link. *)
Context (L : nat).
Implicit Types (w : World (S := S) (WireData := WireData)) (q : Queue)
  (e : Endpoint (S := S) (WireData := WireData)).

Abbreviation run := (run value_to_wire wire_to_value).

(** The owner, and the far end, whose outbound lane the owner's agent drains; the owner's frames
    are drained by the agent of the far end. *)
Record System := mkSystem {
  y_owner : World (S := S) (WireData := WireData);
  y_end : Endpoint (S := S) (WireData := WireData) }.

Definition set_out_frames (out : list (nat * ChanFrame WireData)) w :
    World (S := S) (WireData := WireData) :=
  mkWorld (w_vm w) (w_ch w) (w_hosted w) (w_shipped w) out.

Definition set_out_lane (out : list (ChanFrame WireData)) e : Endpoint (S := S) (WireData := WireData) :=
  set_link (set_out out (e_link e)) e.

(** An operation of the owner that did not come over this link. *)
Definition not_from_link (op : ChanOp WireData) : bool :=
  match op with Frame l _ => negb (Nat.eqb l L) | _ => true end.

(** What a task of the far end does with an endpoint. *)
Inductive EndOp :=
| EndSend (chan : N) (v : Value)
| EndRecv (chan : N)
| EndSendResumed (chan corr : N) (cancelled : bool) (wk : option Wake)
| EndRecvResumed (chan corr : N) (cancelled : bool) (wk : option Wake)
| EndClose (chan : N)
| EndDrop (chan : N).

Definition run_end (op : EndOp) e : Endpoint (S := S) (WireData := WireData) :=
  match op with
  | EndSend chan v => (relay_send value_to_wire chan v e).1
  | EndRecv chan => (relay_recv chan e).1
  | EndSendResumed chan corr cancelled wk => (relay_send_resumed chan corr cancelled wk e).1
  | EndRecvResumed chan corr cancelled wk =>
      (relay_recv_resumed value_to_wire chan corr cancelled wk e).1
  | EndClose chan => relay_close chan e
  | EndDrop chan => drop_endpoint chan e
  end.

Inductive link_step : System → System → Prop :=
| link_owner w op w' o e :
    not_from_link op = true → may_wait w op → run op w = (w', o) → o ≠ Waits →
    link_step (mkSystem w e) (mkSystem w' e)
| link_owner_parks w op w' vm' e :
    not_from_link op = true → may_wait w op → run op w = (w', Waits) → resumes (w_vm w') vm' →
    link_step (mkSystem w e) (mkSystem (set_vm vm' w') e)
| link_owner_resumes w vm' e :
    resumes (w_vm w) vm' → link_step (mkSystem w e) (mkSystem (set_vm vm' w) e)
| link_owner_ships w l id e : link_step (mkSystem w e) (mkSystem (ship_channel l id w).1 e)
| link_up w e frame rest w' o :
    l_out (e_link e) = frame :: rest → run (Frame L frame) w = (w', o) →
    link_step (mkSystem w e) (mkSystem w' (set_out_lane rest e))
| link_down w e pre frame post corr :
    w_out w = pre ++ (L, frame) :: post → Forall (λ x, x.1 ≠ L) pre → answers_op frame = Some corr →
    link_step (mkSystem w e)
      (mkSystem (set_out_frames (pre ++ post) w) (resolve_pending wire_to_value corr frame e).1)
| link_end w e op : link_step (mkSystem w e) (mkSystem w (run_end op e))
| link_end_resumes w e vm' : link_step (mkSystem w e) (mkSystem w (set_end_vm vm' e)).

(** A fresh channel and a fresh link. *)
Definition link_start (cap : nat) (vm vm' : S) : System := mkSystem (fresh cap vm) (mkEnd vm' new_link).

Definition link_reachable (cap : nat) vm vm' (y : System) : Prop :=
  rtc link_step (link_start cap vm vm') y.

(** ** Correlation ids under way *)

Definition far_corr (p : Party) : option N :=
  match p with Far l c => if Nat.eqb l L then Some c else None | Here _ => None end.

Definition far_waiting q : list N :=
  omap far_corr (q_waiting q) ++ omap (λ i, i.2 ≫= far_corr) (q_items q).

Definition far_told (ns : list (Party * Notice)) : list N := omap (λ pn, far_corr pn.1) ns.

(** Operations in the lane of the far end; answers in the lane of the owner. *)
Definition asked_op (frame : ChanFrame WireData) : option N :=
  match frame with FSend _ corr _ | FRecv _ corr => Some corr | _ => None end.

Definition answer_for (x : nat * ChanFrame WireData) : option N :=
  if Nat.eqb x.1 L then answers_op x.2 else None.

(** The operations that were not answered yet, or whose answer is under way. *)
Definition promised (y : System) : list N :=
  omap asked_op (l_out (e_link (y_end y))) ++ far_waiting (abs (y_owner y))
  ++ omap answer_for (w_out (y_owner y)).

Definition op_corr (op : ChanOp WireData) : list N :=
  match op with
  | Frame l frame => if Nat.eqb l L then option_list (asked_op frame) else []
  | _ => []
  end.

(** ** One operation of the owner *)

Lemma hand_far p v q :
  far_told (hand value_to_wire p v q).2 ++ far_waiting (hand value_to_wire p v q).1
  = option_list (far_corr p) ++ far_waiting q.
Proof. unfold hand. destruct (unfit value_to_wire p v); simpl; by destruct (far_corr p). Qed.

Lemma offer_far v q :
  far_told (offer value_to_wire v q).2 ++ far_waiting (offer value_to_wire v q).1 = far_waiting q.
Proof.
  unfold offer. destruct (q_waiting q) as [|p ps] eqn:Hw.
  - unfold far_waiting. simpl. by rewrite Hw.
  - rewrite hand_far. unfold far_waiting. simpl. rewrite Hw. simpl. by destruct (far_corr p).
Qed.

Lemma accept_first_far (items : list (Value * option Party)) :
  far_told (accept_first items).2 ++ omap (λ i, i.2 ≫= far_corr) (accept_first items).1
  = omap (λ i, i.2 ≫= far_corr) items.
Proof.
  induction items as [|[v [p|]] items IH]; simpl; [done| |].
  - by destruct (far_corr p).
  - by destruct (accept_first items).
Qed.

Lemma send_far cap who v q :
  let '((q', ns), ok) := q_send value_to_wire cap who v q in
  far_told ns ++ far_waiting q' ≡ₚ
    far_waiting q ++ (if (ok : bool) then [] else option_list (far_corr who)).
Proof.
  unfold q_send. pose proof (offer_far v q) as Ho. destruct (q_waiting q) as [|p ps] eqn:Hw.
  - unfold far_waiting. simpl. rewrite Hw, omap_app. simpl. case_bool_decide; simpl; [done|].
    by destruct (far_corr who).
  - destruct (offer value_to_wire v q) as [q' ns]. simpl in *. by rewrite Ho, app_nil_r.
Qed.

Lemma recv_far q :
  far_told (q_recv q).1.2 ++ far_waiting (q_recv q).1.1 ≡ₚ far_waiting q.
Proof.
  unfold q_recv. pose proof (accept_first_far (q_items q)) as Ha.
  pose proof (accept_first_more (q_items q)) as Hm.
  destruct (accept_first (q_items q)) as [[|[v [p|]] items] ns]; simpl in *.
  - unfold far_waiting. rewrite Hm in *. simpl in *. rewrite app_nil_r in Ha. by rewrite Ha.
  - by destruct Hm.
  - unfold far_waiting. simpl. rewrite <- Ha. solve_Permutation.
Qed.

Lemma close_far q :
  far_told (q_close q).2 ++ far_waiting (q_close q).1 = far_waiting q.
Proof.
  unfold q_close, far_told, far_waiting. simpl. rewrite omap_app.
  assert (∀ ps : list Party, omap (λ pn : Party * Notice, far_corr pn.1) ((λ p, (p, Ended)) <$> ps)
    = omap far_corr ps) as Hps.
  { intros ps. induction ps as [|p ps IH]; simpl; [done|]. destruct (far_corr p); [f_equal|]; exact IH. }
  rewrite !Hps. assert (omap (λ i : Value * option Party, i.2 ≫= far_corr)
    (List.filter is_accepted (q_items q)) = []) as ->
    by (induction (q_items q) as [|[v [p|]] items IH]; simpl; done).
  rewrite app_nil_r. f_equal.
  induction (q_items q) as [|[v [p|]] items IH]; simpl; [done| |done].
  destruct (far_corr p); [f_equal|]; exact IH.
Qed.

Lemma wait_far who q : far_waiting (q_wait who q) ≡ₚ option_list (far_corr who) ++ far_waiting q.
Proof.
  unfold far_waiting, q_wait. simpl. rewrite omap_app. simpl.
  destruct (far_corr who); simpl; [|by rewrite app_nil_r]. solve_Permutation.
Qed.

Lemma filter_omap_sublist {A B} (f : A → option B) (b : A → bool) (l : list A) :
  sublist (omap f (List.filter b l)) (omap f l).
Proof.
  induction l as [|a l IH]; simpl; [done|]. destruct (b a); simpl; destruct (f a);
    first [by apply sublist_skip|by apply sublist_cons|done].
Qed.

Lemma forget_far l c q : far_waiting (q_forget l c q) ⊆+ far_waiting q.
Proof. apply sublist_submseteq, sublist_app; apply filter_omap_sublist. Qed.

Lemma far_told_app ns ns' : far_told (ns ++ ns') = far_told ns ++ far_told ns'.
Proof. apply omap_app. Qed.

(** An operation promises nothing new, but to the one who asks. *)
Lemma spec_far cap shipped hosted me op q :
  let '((q', ns), o) := spec value_to_wire wire_to_value cap shipped hosted me op q in
  far_told ns ++ far_waiting q' ⊆+ far_waiting q ++ op_corr op.
Proof.
  assert (∀ l x : list N, x ⊆+ x ++ l) as Hkeep by (intros; apply submseteq_inserts_r; done).
  destruct op as [v| | |v|l f]; simpl.
  - pose proof (send_far cap (Here me) v q) as Hs.
    destruct (q_closed q); [apply Hkeep|].
    destruct (q_send value_to_wire cap (Here me) v q) as [[q' ns] ok].
    assert (far_told ns ++ far_waiting q' ⊆+ far_waiting q ++ []) as Hs'
      by (rewrite Hs; destruct ok; done).
    destruct shipped; [destruct (value_to_wire v); simpl; [apply Hkeep|]|]; exact Hs'.
  - pose proof (recv_far q) as Hr. destruct (q_recv q) as [[q' ns] [v|]]; simpl in *;
      [by rewrite Hr, app_nil_r|].
    destruct (q_closed q); [by rewrite Hr, app_nil_r|]. rewrite wait_far. simpl.
    by rewrite Hr, app_nil_r.
  - rewrite app_nil_r, <- (close_far q). done.
  - pose proof (offer_far v q) as Ho. by destruct (offer value_to_wire v q); simpl in *; rewrite Ho, app_nil_r.
  - assert (∀ c, option_list (far_corr (Far l c)) = if Nat.eqb l L then [c] else []) as Hfar
      by (intros c; simpl; by destruct (Nat.eqb l L)).
    destruct f as [chan corr wire|corr|chan corr|corr wire|corr|corr m|chan|chan corr|chan|chan wire];
      simpl; try apply Hkeep.
    + destruct (bool_decide _); simpl.
      * destruct (q_closed q); simpl.
        { rewrite <- Hfar. simpl. destruct (Nat.eqb l L); simpl; [|by rewrite app_nil_r]. solve_submseteq. }
        destruct (wire_to_value wire) as [e|v]; simpl; [apply Hkeep|].
        pose proof (send_far cap (Far l corr) v q) as Hs.
        destruct (q_send value_to_wire cap (Far l corr) v q) as [[q' ns] [|]].
        -- rewrite far_told_app. rewrite app_nil_r in Hs. simpl.
           destruct (Nat.eqb l L); simpl; [|by rewrite !app_nil_r, Hs].
           rewrite <- Hs. solve_submseteq.
        -- rewrite Hs. simpl. by destruct (Nat.eqb l L).
      * destruct (Nat.eqb l L); simpl; [solve_submseteq|by rewrite app_nil_r].
    + destruct (bool_decide _); simpl.
      * pose proof (recv_far q) as Hr. destruct (q_recv q) as [[q' ns] [v|]]; simpl in *.
        -- pose proof (hand_far (Far l corr) v q') as Hh.
           destruct (hand value_to_wire (Far l corr) v q') as [q'' ns']. simpl in *.
           rewrite far_told_app, <- app_assoc, Hh, <- Hr.
           destruct (Nat.eqb l L); simpl; solve_submseteq.
        -- destruct (q_closed q).
           ++ rewrite far_told_app, <- Hr. simpl. destruct (Nat.eqb l L); simpl; solve_submseteq.
           ++ rewrite wait_far, <- Hr. simpl. destruct (Nat.eqb l L); simpl; solve_submseteq.
      * destruct (Nat.eqb l L); simpl; [solve_submseteq|by rewrite app_nil_r].
    + destruct (bool_decide _); [|apply Hkeep]. rewrite <- (close_far q). apply Hkeep.
    + destruct (bool_decide _); [|apply Hkeep]. simpl. etrans; [apply forget_far|apply Hkeep].
    + destruct (bool_decide _); [|apply Hkeep]. destruct (wire_to_value wire) as [e|v]; [apply Hkeep|].
      pose proof (offer_far v q) as Ho. destruct (offer value_to_wire v q). simpl in *.
      rewrite Ho. apply Hkeep.
Qed.

Lemma told_lane ns : ∀ x,
  omap answer_for (tell_all value_to_wire ns x).2 ⊆+ omap answer_for x.2 ++ far_told ns.
Proof.
  induction ns as [|[p n] ns IH]; intros [vm out]; simpl; [by rewrite app_nil_r|].
  etrans; [apply (IH (tell value_to_wire (vm, out) (p, n)))|].
  assert (omap answer_for (tell value_to_wire (vm, out) (p, n)).2
    ⊆+ omap answer_for out ++ option_list (far_corr p)) as Hone.
  { destruct p as [t|l c]; [by destruct n; simpl; rewrite app_nil_r|].
    destruct n; simpl; rewrite omap_app; apply submseteq_skips_l; try destruct (value_to_wire v); simpl;
      unfold answer_for; simpl; destruct (Nat.eqb l L); first [done|apply submseteq_nil_l]. }
  etrans; [apply submseteq_skips_r, Hone|]. rewrite <- app_assoc. apply submseteq_skips_l.
  by destruct (far_corr p).
Qed.

Definition owner_side w : list N := far_waiting (abs w) ++ omap answer_for (w_out w).

Lemma owner_op w op w' o :
  chan_ok w → may_wait w op → run op w = (w', o) → owner_side w' ⊆+ owner_side w ++ op_corr op.
Proof.
  intros Hok Hmay Hrun. pose proof (run_refines value_to_wire wire_to_value w op Hok Hmay) as Href.
  rewrite Hrun in Href.
  pose proof (spec_far (ch_cap (w_ch w)) (bool_decide (is_Some (ch_ship (w_ch w)))) (w_hosted w)
    (pk_me (w_vm w)) op (abs w)) as Hfar.
  destruct (spec _ _ _ _ _ _ op (abs w)) as [[q ns] o'].
  destruct Href as (_ & (Ha & Hout & _) & _). unfold owner_side. rewrite Ha. cbn [fst].
  assert (w_out w' = (tell_all value_to_wire ns (w_vm w, w_out w)).2) as ->.
  { unfold effects in Hout. cbn [snd] in Hout.
    destruct (tell_all value_to_wire ns (w_vm w, w_out w)) as [vm out]. by injection Hout. }
  etrans; [apply submseteq_skips_l, told_lane|]. cbn [snd].
  transitivity (omap answer_for (w_out w) ++ (far_told ns ++ far_waiting q)); [solve_submseteq|].
  etrans; [apply submseteq_skips_l, Hfar|]. solve_submseteq.
Qed.

Lemma dwindles_far q q' : dwindles q q' → far_waiting q' ⊆+ far_waiting q.
Proof.
  intros [_ Hi Hw _]. unfold far_waiting.
  assert (∀ A (f : A → option N) l l', sublist l' l → omap f l' ⊆+ omap f l) as Homap.
  { intros A f l l' Hs. apply sublist_submseteq.
    induction Hs; simpl; [done| |]; destruct (f x); first [by apply sublist_skip|by apply sublist_cons|done]. }
  etrans; [apply submseteq_skips_r, Homap, Hw|]. apply submseteq_skips_l, Homap, Hi.
Qed.

(** ** Operations of the far end *)

Definition asks (l : ChanLink (WireData := WireData)) : list N := omap asked_op (l_out l).

(** The table of operations, the next id and what is asked. *)
Definition table (l : ChanLink (WireData := WireData)) := (l_pending l, l_next_corr l, asks l).

Lemma emit_table frame e :
  asked_op frame = None → table (e_link (link_emit frame e)) = table (e_link e).
Proof.
  intros Hf. unfold link_emit, table, asks. destruct (l_open (e_link e)); [|done]. simpl.
  rewrite omap_app. simpl. by rewrite Hf, app_nil_r.
Qed.

Lemma flush_table e : table (e_link (flush_chan_reap e)) = table (e_link e).
Proof.
  unfold flush_chan_reap. set (e0 := set_link (set_reap [] (e_link e)) e).
  change (table (e_link e)) with (table (e_link e0)). clearbody e0.
  revert e0. induction (l_reap (e_link e)) as [|c cs IH]; intros e0; simpl; [done|].
  by rewrite IH, emit_table.
Qed.

(** A new operation has a new id; it is pending while it is asked. *)
Inductive asks_more : gmap N PendingChanOp * N * list N → gmap N PendingChanOp * N * list N → Prop :=
| asks_same x : asks_more x x
| asks_one m c op l : asks_more (m, c, l) (<[c := op]> m, (c + 1)%N, l ++ [c])
| asks_fails m c op l : asks_more (m, c, l) (delete c (<[c := op]> m), (c + 1)%N, l).

Lemma begin_table chan make e :
  (∀ c, asked_op (make c) = Some c) →
  asks_more (table (e_link e)) (table (e_link (begin_op chan make e).1)).
Proof.
  intros Hmake. unfold begin_op, table, asks. destruct (l_open (e_link e)); simpl.
  - rewrite omap_app. simpl. rewrite Hmake. constructor.
  - constructor.
Qed.

Lemma end_table op e : asks_more (table (e_link e)) (table (e_link (run_end op e))).
Proof.
  destruct op as [chan v|chan|chan corr c wk|chan corr c wk|chan|chan]; simpl.
  - unfold relay_send. destruct (value_to_wire v) as [m|wire]; simpl; [rewrite flush_table; constructor|].
    pose proof (begin_table chan (λ corr, FSend chan corr wire) (flush_chan_reap e) (λ c, eq_refl)) as Hb.
    rewrite flush_table in Hb. by destruct (begin_op _ _ _) as [e1 [err|corr]].
  - unfold relay_recv.
    pose proof (begin_table chan (λ corr, FRecv chan corr) (flush_chan_reap e) (λ c, eq_refl)) as Hb.
    rewrite flush_table in Hb. by destruct (begin_op _ _ _) as [e1 [err|corr]].
  - unfold relay_send_resumed. destruct c; [|constructor].
    destruct wk as [[]|]; simpl; rewrite ?emit_table by done; constructor.
  - unfold relay_recv_resumed. destruct c; [|constructor].
    destruct wk as [[]|]; simpl; try destruct (value_to_wire value); rewrite ?emit_table by done; constructor.
  - unfold relay_close. rewrite emit_table, flush_table by done. constructor.
  - constructor.
Qed.

Lemma resolve_table corr frame e :
  table (e_link (resolve_pending wire_to_value corr frame e).1)
  = (delete corr (l_pending (e_link e)), l_next_corr (e_link e), asks (e_link e)).
Proof.
  unfold resolve_pending. destruct (l_pending (e_link e) !! corr) as [p|] eqn:Hp.
  - simpl. destruct frame; simpl; try done; try (by destruct (pk_live _ _ _)).
    destruct (pk_live _ _ _); [by destruct (wire_to_value _)|]. simpl. by rewrite emit_table.
  - simpl. by rewrite delete_id.
Qed.

(** ** Along a run *)

Record link_inv (y : System) : Prop := {
  li_owner : chan_ok (y_owner y);
  li_once : NoDup (promised y);
  li_pending : ∀ c, c ∈ promised y → is_Some (l_pending (e_link (y_end y)) !! c);
  li_fresh : ∀ c p, l_pending (e_link (y_end y)) !! c = Some p → (c < l_next_corr (e_link (y_end y)))%N }.

Lemma promised_split y : promised y = asks (e_link (y_end y)) ++ owner_side (y_owner y).
Proof. done. Qed.

Lemma submseteq_NoDup (l k : list N) : l ⊆+ k → NoDup k → NoDup l.
Proof. intros [k' Hk]%submseteq_Permutation Hn. rewrite Hk in Hn. by apply NoDup_app in Hn as [? _]. Qed.

(** What a step does to the ids: those promised are fewer, or one new; the table follows. *)
Definition moves (y y' : System) : Prop :=
  let l := e_link (y_end y) in let l' := e_link (y_end y') in
  (promised y' ⊆+ promised y ∧ l_pending l' = l_pending l ∧ l_next_corr l' = l_next_corr l)
  ∨ (∃ op, promised y' ≡ₚ l_next_corr l :: promised y
       ∧ l_pending l' = <[l_next_corr l := op]> (l_pending l) ∧ l_next_corr l' = (l_next_corr l + 1)%N)
  ∨ (∃ op, promised y' = promised y
       ∧ l_pending l' = delete (l_next_corr l) (<[l_next_corr l := op]> (l_pending l))
       ∧ l_next_corr l' = (l_next_corr l + 1)%N)
  ∨ (∃ corr, promised y ≡ₚ corr :: promised y' ∧ l_pending l' = delete corr (l_pending l)
       ∧ l_next_corr l' = l_next_corr l).

Lemma owner_moves guard w f w' e :
  chan_step value_to_wire wire_to_value guard w f w' → owner_side w' ⊆+ owner_side w → chan_ok w →
  chan_ok w' ∧ moves (mkSystem w e) (mkSystem w' e).
Proof.
  intros Hstep Hsub Hok. destruct (step_effect value_to_wire wire_to_value _ _ _ _ Hstep Hok) as [Hok' _].
  split; [done|]. left. split; [|done]. rewrite !promised_split. by apply submseteq_skips_l.
Qed.

Lemma resumed_side w vm' : dwindles (abs w) (abs (set_vm vm' w)) → owner_side (set_vm vm' w) ⊆+ owner_side w.
Proof. intros Hd. apply submseteq_skips_r. by apply dwindles_far. Qed.

Lemma not_from_corr op : not_from_link op = true → op_corr op = [].
Proof. destruct op as [| | | |l f]; simpl; try done. by destruct (Nat.eqb l L). Qed.

Lemma frame_outcome l f w : (run (Frame l f) w).2 ≠ Waits.
Proof. simpl. destruct (apply_owner_frame _ _ l f w) as [w' [m|[]]]; done. Qed.

Lemma link_step_moves y y' : link_step y y' → chan_ok (y_owner y) → chan_ok (y_owner y') ∧ moves y y'.
Proof.
  intros Hstep Hok. destruct Hstep as [w op w' o e Hn Hmay Hrun Ho|w op w' vm' e Hn Hmay Hrun Hres|w vm' e Hres
    |w l id e|w e frame rest w' o Hout Hrun|w e pre frame post corr Hout Hpre Hans|w e op|w e vm']; cbn [y_owner y_end] in *.
  - apply (owner_moves any w (flow_of value_to_wire wire_to_value w op)); [by apply step_runs with o| |done].
    pose proof (owner_op w op w' o Hok Hmay Hrun) as Hs. by rewrite (not_from_corr _ Hn), app_nil_r in Hs.
  - apply (owner_moves any w (flow_of value_to_wire wire_to_value w op)); [by apply step_parks| |done].
    pose proof (owner_op w op w' Waits Hok Hmay Hrun) as Hs. rewrite (not_from_corr _ Hn), app_nil_r in Hs.
    etrans; [|exact Hs]. apply resumed_side.
    pose proof (run_refines value_to_wire wire_to_value w op Hok Hmay) as Href. rewrite Hrun in Href.
    destruct (spec _ _ _ _ _ _ op (abs w)) as [[q ns] o'].
    destruct Href as (<- & (_ & _ & _ & Hreg & He & _ & Hlive & _) & _). rewrite <- He in Hreg.
    by apply resumes_dwindles; [|intros _; apply Hlive|].
  - apply (owner_moves any w no_flow); [by apply step_resumes| |done]. apply resumed_side.
    destruct (chan_ok_resting w Hok) as [Hreg _]. apply resumes_dwindles; [done| |done].
    intros Hin. exfalso. revert Hin. apply old_not_here, Hok.
  - apply (owner_moves any w no_flow); [apply step_ships| |done].
    unfold ship_channel, channel_ship. by destruct (ch_ship (w_ch w)).
  - pose proof (frame_outcome L frame w) as Ho. rewrite Hrun in Ho. simpl in Ho.
    assert (may_wait w (Frame L frame)) as Hmay by done.
    pose proof (owner_op w _ w' o Hok Hmay Hrun) as Hs. simpl in Hs. rewrite Nat.eqb_refl in Hs.
    destruct (step_effect value_to_wire wire_to_value any w _ w'
      (step_runs _ _ _ _ _ _ _ I Hmay Hrun Ho) Hok) as [Hok' _].
    split; [done|]. left. split; [|done]. rewrite !promised_split. simpl. unfold asks. simpl.
    rewrite Hout. simpl. etrans; [apply submseteq_skips_l, Hs|].
    destruct (asked_op frame); simpl; solve_submseteq.
  - split; [by destruct Hok; split|]. right. right. right. exists corr.
    pose proof (resolve_table corr frame e) as Ht. unfold table in Ht. injection Ht as Hp Hc Ha.
    simpl. split_and!; [|done|done]. rewrite !promised_split. simpl. rewrite Ha. unfold owner_side.
    rewrite Hout. simpl. rewrite !omap_app. simpl. unfold answer_for at 2. simpl.
    rewrite Nat.eqb_refl, Hans. solve_Permutation.
  - split; [done|]. pose proof (end_table op e) as Ht.
    remember (table (e_link e)) as t0 eqn:H0. remember (table (e_link (run_end op e))) as t1 eqn:H1.
    destruct Ht as [x|m c p l|m c p l]; unfold table in *.
    + subst x. injection H1 as Hp Hc Ha. left. rewrite !promised_split. simpl. by rewrite <- Ha, <- Hp, <- Hc.
    + injection H0 as -> -> ->. injection H1 as Hp Hc Ha. right. left. exists p.
      rewrite !promised_split. simpl. rewrite <- Ha. split_and!; [|done|done]. solve_Permutation.
    + injection H0 as -> -> ->. injection H1 as Hp Hc Ha. right. right. left. exists p.
      rewrite !promised_split. simpl. by rewrite <- Ha.
  - split; [done|]. by left.
Qed.

Lemma moves_inv y y' : link_inv y → chan_ok (y_owner y') → moves y y' → link_inv y'.
Proof.
  intros [_ Honce Hpend Hfresh] Hok [(Hs & Hp & Hc)|[(op & Hs & Hp & Hc)|[(op & Hs & Hp & Hc)|(corr & Hs & Hp & Hc)]]];
    split; rewrite ?Hp, ?Hc; try done.
  - by eapply submseteq_NoDup.
  - intros c Hin. apply Hpend. by eapply elem_of_submseteq.
  - rewrite Hs. apply NoDup_cons. split; [|done]. intros [p Hpn]%Hpend. apply Hfresh in Hpn. lia.
  - intros c. rewrite Hs, elem_of_cons. intros [->|Hin]; [by rewrite lookup_insert_eq|].
    rewrite lookup_insert_is_Some'. right. by apply Hpend.
  - intros c p. rewrite lookup_insert_Some. intros [[<- _]|[_ Hcp]]; [lia|]. apply Hfresh in Hcp. lia.
  - by rewrite Hs.
  - intros c. rewrite Hs. intros Hin. destruct (Hpend _ Hin) as [p Hcp]. pose proof (Hfresh _ _ Hcp).
    rewrite lookup_delete_ne, lookup_insert_ne by lia. by exists p.
  - intros c p. rewrite lookup_delete_Some, lookup_insert_Some. intros [Hne [[? _]|[_ Hcp]]]; [done|].
    apply Hfresh in Hcp. lia.
  - rewrite Hs in Honce. by apply NoDup_cons in Honce as [_ ?].
  - intros c Hin. rewrite Hs in Honce. apply NoDup_cons in Honce as [Hnin _].
    rewrite lookup_delete_ne by congruence. apply Hpend. rewrite Hs. by right.
  - intros c p. rewrite lookup_delete_Some. intros [_ Hcp]. by eapply Hfresh.
Qed.

Lemma link_reachable_inv cap vm vm' y : pk_running vm → link_reachable cap vm vm' y → link_inv y.
Proof.
  intros Hr. apply rtc_ind_r.
  - split; [by apply fresh_ok|constructor|by intros c ?%elem_of_nil|done].
  - intros y1 y2 _ Hstep IH. destruct (link_step_moves _ _ Hstep (li_owner _ IH)) as [Hok Hm].
    by eapply moves_inv.
Qed.

(** C26: Every answer under way to the far end finds the operation it is for, which is pending
    there, and it is the only one: the operation is not asked again, waits in no queue of the
    owner, and has no other answer under way. So no value a far receiver was handed is dropped
    on arrival: its task is woken with it, or, when the task no longer waits, the value goes
    home in a [Return]. *)
Theorem answers_find_their_operation cap vm vm' y pre frame post corr :
  pk_running vm → link_reachable cap vm vm' y →
  w_out (y_owner y) = pre ++ (L, frame) :: post → answers_op frame = Some corr →
  let e := y_end y in
  (corr ∉ omap asked_op (l_out (e_link e))) ∧ (corr ∉ far_waiting (abs (y_owner y)))
  ∧ (corr ∉ omap answer_for (pre ++ post))
  ∧ (∃ p, l_pending (e_link e) !! corr = Some p
    ∧ (∀ wire v, frame = FValue corr wire → wire_to_value wire = inr v →
        let e' := (resolve_pending wire_to_value corr frame e).1 in
        if pk_live (e_vm e) (p_task p) (p_epoch p)
        then e_vm e' = pk_wake (e_vm e) (p_task p) (WChannelRecv v)
        else l_open (e_link e) = true → l_out (e_link e') = l_out (e_link e) ++ [FReturn (p_chan p) wire])).
Proof.
  intros Hr Hy Hout Hans e. apply link_reachable_inv in Hy as [_ Honce Hpend _]; [|done].
  assert (promised y ≡ₚ corr :: (omap asked_op (l_out (e_link e)) ++ far_waiting (abs (y_owner y))
    ++ omap answer_for (pre ++ post))) as Hp.
  { unfold promised. rewrite Hout, !omap_app. simpl. unfold answer_for at 2. simpl.
    rewrite Nat.eqb_refl, Hans. solve_Permutation. }
  rewrite Hp in Honce. apply NoDup_cons in Honce as [Hnin _].
  apply not_elem_of_app in Hnin as [H1 [H2 H3]%not_elem_of_app]. split_and!; [done..|].
  destruct (Hpend corr) as [p Hcp]; [rewrite Hp; by left|]. exists p. split; [done|].
  intros wire v -> Hv. unfold resolve_pending. fold e in Hcp. rewrite Hcp. simpl. rewrite Hv.
  destruct (pk_live _ _ _); [done|]. intros Hopen. unfold link_emit. simpl. by rewrite Hopen.
Qed.

(** ** A retracted operation *)

Definition forgotten (corr : N) (y : System) : Prop :=
  is_Some (l_pending (e_link (y_end y)) !! corr) ∧ corr ∉ promised y.

Lemma forgotten_step corr y y' :
  link_inv y → forgotten corr y → link_step y y' → forgotten corr y'.
Proof.
  intros Hinv [[p Hp] Hnin] Hstep. pose proof (li_fresh _ Hinv _ _ Hp) as Hlt.
  destruct (link_step_moves _ _ Hstep (li_owner _ Hinv)) as [_ Hm]. unfold forgotten.
  destruct Hm as [(Hs & -> & _)|[(op & Hs & -> & _)|[(op & -> & -> & _)|(c & Hs & -> & _)]]].
  - split; [by exists p|]. intros Hin. apply Hnin. by eapply elem_of_submseteq.
  - split; [rewrite lookup_insert_ne by lia; by exists p|]. rewrite Hs, not_elem_of_cons. split; [lia|done].
  - split; [|done]. rewrite lookup_delete_ne, lookup_insert_ne by lia. by exists p.
  - rewrite Hs, not_elem_of_cons in Hnin. destruct Hnin as [Hne Hnin].
    split; [|done]. rewrite lookup_delete_ne by congruence. by exists p.
Qed.

Lemma forget_nowhere corr q : corr ∉ far_waiting (q_forget L corr q).
Proof.
  assert (∀ p, is_far L corr p = false → far_corr p ≠ Some corr) as Hfar.
  { intros [t|l c]; simpl; [done|]. destruct (Nat.eqb_spec l L); [|done]. simpl.
    intros Hc [= ->]. by rewrite N.eqb_refl in Hc. }
  unfold far_waiting. rewrite not_elem_of_app. split; rewrite list_elem_of_omap.
  - intros (p & Hin & Hc). apply list_elem_of_In, filter_In in Hin as [_ Hb%negb_true_iff].
    by apply Hfar in Hb.
  - intros ([v [p|]] & Hin & Hc); [|done].
    apply list_elem_of_In, filter_In in Hin as [_ Hb%negb_true_iff]. by apply Hfar in Hb.
Qed.

(** The owner does not answer a retraction. Once it has taken back the waiter of a cancelled
    operation, no answer for it is or will be under way, so the entry of the operation at the
    far end, kept "until the owner's answer or its cancel confirmation resolves it", stays
    as long as the link lives. *)
Theorem retracted_operation_stays_pending cap vm vm' y chan corr rest y1 y2 :
  pk_running vm → link_reachable cap vm vm' y →
  l_out (e_link (y_end y)) = FCancel chan corr :: rest →
  w_hosted (y_owner y) = Some chan → corr ∈ far_waiting (abs (y_owner y)) →
  y1 = mkSystem (run (Frame L (FCancel chan corr)) (y_owner y)).1 (set_out_lane rest (y_end y)) →
  rtc link_step y1 y2 → is_Some (l_pending (e_link (y_end y2)) !! corr).
Proof.
  intros Hr Hy Hout Hhost Hin -> Hrun. pose proof (link_reachable_inv _ _ _ _ Hr Hy) as Hinv.
  destruct y as [w e]. cbn [y_owner y_end] in *.
  assert (link_step (mkSystem w e)
    (mkSystem (run (Frame L (FCancel chan corr)) w).1 (set_out_lane rest e))) as Hstep.
  { eapply link_up; [done|]. apply surjective_pairing. }
  destruct (link_step_moves _ _ Hstep (li_owner _ Hinv)) as [Hok1 Hm1].
  pose proof (moves_inv _ _ Hinv Hok1 Hm1) as Hinv1.
  assert (forgotten corr (mkSystem (run (Frame L (FCancel chan corr)) w).1 (set_out_lane rest e))) as Hforg.
  { split.
    - apply (li_pending _ Hinv). unfold promised. cbn [y_owner]. rewrite !elem_of_app. auto.
    - simpl. rewrite bool_decide_eq_true_2 by done.
      pose proof (li_once _ Hinv) as Honce. unfold promised in Honce |- *. cbn [y_owner y_end] in *.
      rewrite Hout in Honce. simpl in *.
      pose proof (forget_does value_to_wire L corr w (ok_running _ (li_owner _ Hinv))) as Hd.
      rewrite (do_abs _ _ _ _ Hd). cbn [fst].
      apply NoDup_app in Honce as (_ & H1 & Honce). apply NoDup_app in Honce as (_ & H2 & _).
      rewrite !not_elem_of_app. split_and!.
      + intros Hin1. apply (H1 _ Hin1). apply elem_of_app. by left.
      + apply forget_nowhere.
      + by apply H2. }
  clear Hstep Hm1 Hok1. revert Hinv1 Hforg. generalize dependent y2.
  intros y2 Hrun. induction Hrun as [y|y y' y'' Hstep Hrun IH]; intros Hi Hf; [apply Hf|].
  destruct (link_step_moves _ _ Hstep (li_owner _ Hi)) as [Hok1 Hm1]. apply IH.
  - by eapply moves_inv.
  - by eapply forgotten_step.
Qed.

End link.

(** * A concrete link

    A channel shipped over link 0: a task at the far end receives, is answered, or is cancelled
    before the answer; the theorems about links applied to these runs. *)

Abbreviation demo_system := (System (S := VmState) (WireData := nat)).
Abbreviation demo_link_step := (link_step demo_wire demo_unwire 0).
Abbreviation demo_link_reachable := (link_reachable demo_wire demo_unwire 0 1 vm_main vm_main).

(** The owner ships its channel under id 3; main at the far end asks for a value. *)
Definition link0 : demo_system := link_start 1 vm_main vm_main.
Definition link1 : demo_system := mkSystem shipped_world (y_end link0).
Definition link2 : demo_system := mkSystem shipped_world (run_end demo_wire (EndRecv 3) (y_end link1)).
(** The owner hears of it, and sends five. *)
Definition link3 : demo_system :=
  mkSystem (demo_run (Frame 0 (FRecv 3 1)) shipped_world).1 (set_out_lane [] (y_end link2)).
Definition link4 : demo_system := mkSystem (demo_run (Send five) (y_owner link3)).1 (y_end link3).

Lemma link3_reachable : demo_link_reachable link3.
Proof.
  apply rtc_l with link1; [apply link_owner_ships|].
  apply rtc_l with link2; [apply (link_end _ _ _ _ _ (EndRecv 3))|].
  apply rtc_once. by eapply link_up.
Qed.

Lemma link4_reachable : demo_link_reachable link4.
Proof.
  apply (rtc_r _ link3); [apply link3_reachable|]. by apply (link_owner _ _ _ _ (Send five) _ Done).
Qed.

Lemma answers_find_their_operation_witness :
  (1%N ∉ omap asked_op (l_out (e_link (y_end link4)))) ∧ (1%N ∉ far_waiting 0 (abs (y_owner link4)))
  ∧ (1%N ∉ omap (answer_for (WireData := nat) 0) ([] ++ []))
  ∧ (∃ p, l_pending (e_link (y_end link4)) !! 1%N = Some p
    ∧ (∀ wire v, FValue 1%N (5 : nat) = FValue 1%N wire → demo_unwire wire = inr v →
        let e' := (resolve_pending demo_unwire 1 (FValue 1%N (5 : nat)) (y_end link4)).1 in
        if pk_live (e_vm (y_end link4)) (p_task p) (p_epoch p)
        then e_vm e' = pk_wake (e_vm (y_end link4)) (p_task p) (WChannelRecv v)
        else l_open (e_link (y_end link4)) = true →
          l_out (e_link e') = l_out (e_link (y_end link4)) ++ [FReturn (p_chan p) wire])).
Proof.
  apply (answers_find_their_operation demo_wire demo_unwire 0 1 vm_main vm_main link4 [] _ []).
  - apply main_running.
  - apply link4_reachable.
  - by vm_compute.
  - done.
Defined.

(** Before the owner sends, the task at the far end is cancelled and the operation retracted. *)
Definition link5 : demo_system :=
  mkSystem (y_owner link3) (run_end demo_wire (EndRecvResumed 3 1 true None) (y_end link3)).
Definition link6 : demo_system :=
  mkSystem (demo_run (Frame 0 (FCancel 3 1)) (y_owner link5)).1 (set_out_lane [] (y_end link5)).
Definition link7 : demo_system := mkSystem (demo_run (Send five) (y_owner link6)).1 (y_end link6).

Lemma link5_reachable : demo_link_reachable link5.
Proof.
  apply (rtc_r _ link3); [apply link3_reachable|].
  apply (link_end _ _ _ _ _ (EndRecvResumed 3 1 true None)).
Qed.

Lemma retracted_operation_stays_pending_witness :
  is_Some (l_pending (e_link (y_end link7)) !! 1%N).
Proof.
  apply (retracted_operation_stays_pending demo_wire demo_unwire 0 1 vm_main vm_main link5 3 1 [] link6).
  - apply main_running.
  - apply link5_reachable.
  - by vm_compute.
  - by vm_compute.
  - vm_compute. by left.
  - done.
  - apply rtc_once. by apply (link_owner _ _ _ _ (Send five) _ Done).
Defined.

(** * Relay frames on a socket (src/src/worker.rs)

    Between processes the frames of a relay travel as [Msg::Chan] of the extension protocol:
    the two conversions, and that every frame arrives as it was sent. *)
Local Open Scope Z_scope.

Abbreviation Frame := (ChanFrame DataValue).

(** The wire discriminants. *)
Definition CK_SEND : Z := 0.
Definition CK_ACK : Z := 1.
Definition CK_RECV : Z := 2.
Definition CK_VALUE : Z := 3.
Definition CK_CLOSED_FOR : Z := 4.
Definition CK_RECV_ERROR : Z := 5.
Definition CK_CLOSE : Z := 6.
Definition CK_CANCEL : Z := 7.
Definition CK_RELEASE : Z := 8.
Definition CK_RETURN : Z := 9.

(** A string's bytes, as the codec has them, and back. *)
Definition str_bytes (s : string) : rstr :=
  (λ a, Z.of_nat (Ascii.nat_of_ascii a)) <$> String.list_ascii_of_string s.

Definition bytes_str (bs : rstr) : string :=
  String.string_of_list_ascii ((λ b, Ascii.ascii_of_nat (Z.to_nat b)) <$> bs).

Lemma bytes_str_bytes s : bytes_str (str_bytes s) = s.
Proof.
  unfold bytes_str, str_bytes. rewrite <- list_fmap_compose.
  rewrite (list_fmap_ext _ id), list_fmap_id; [apply String.string_of_list_ascii_of_string|].
  intros _ a _. simpl. by rewrite Nat2Z.id, Ascii.ascii_nat_embedding.
Qed.

Definition chan_frame_to_msg (f : Frame) : Msg :=
  match f with
  | FSend chan corr value => Chan CK_SEND (Z.of_N chan) (Z.of_N corr) (Some value) []
  | FAck corr => Chan CK_ACK 0 (Z.of_N corr) None []
  | FRecv chan corr => Chan CK_RECV (Z.of_N chan) (Z.of_N corr) None []
  | FValue corr value => Chan CK_VALUE 0 (Z.of_N corr) (Some value) []
  | FClosedFor corr => Chan CK_CLOSED_FOR 0 (Z.of_N corr) None []
  | FRecvError corr message => Chan CK_RECV_ERROR 0 (Z.of_N corr) None (str_bytes message)
  | FClose chan => Chan CK_CLOSE (Z.of_N chan) 0 None []
  | FCancel chan corr => Chan CK_CANCEL (Z.of_N chan) (Z.of_N corr) None []
  | FRelease chan => Chan CK_RELEASE (Z.of_N chan) 0 None []
  | FReturn chan value => Chan CK_RETURN (Z.of_N chan) 0 (Some value) []
  end.

(** [None] for a message that is no frame or of an unknown kind. *)
Definition msg_to_chan_frame (m : Msg) : option Frame :=
  match m with
  | Chan kind chan corr value message =>
      let chan := Z.to_N chan in
      let corr := Z.to_N corr in
      let value_or_null := default Null value in
      if kind =? CK_SEND then Some (FSend chan corr value_or_null)
      else if kind =? CK_ACK then Some (FAck corr)
      else if kind =? CK_RECV then Some (FRecv chan corr)
      else if kind =? CK_VALUE then Some (FValue corr value_or_null)
      else if kind =? CK_CLOSED_FOR then Some (FClosedFor corr)
      else if kind =? CK_RECV_ERROR then Some (FRecvError corr (bytes_str message))
      else if kind =? CK_CLOSE then Some (FClose chan)
      else if kind =? CK_CANCEL then Some (FCancel chan corr)
      else if kind =? CK_RELEASE then Some (FRelease chan)
      else if kind =? CK_RETURN then Some (FReturn chan value_or_null)
      else None
  | _ => None
  end.

(** A frame the Rust types allow, within the limits of the codec. *)
Definition wf_frame (f : Frame) : Prop :=
  match f with
  | FSend chan corr value => (chan < 2 ^ 64)%N ∧ (corr < 2 ^ 64)%N ∧ ok_dv value
  | FAck corr | FClosedFor corr => (corr < 2 ^ 64)%N
  | FRecv chan corr | FCancel chan corr => (chan < 2 ^ 64)%N ∧ (corr < 2 ^ 64)%N
  | FValue corr value => (corr < 2 ^ 64)%N ∧ ok_dv value
  | FRecvError corr message => (corr < 2 ^ 64)%N ∧ wf_str (str_bytes message)
  | FClose chan | FRelease chan => (chan < 2 ^ 64)%N
  | FReturn chan value => (chan < 2 ^ 64)%N ∧ ok_dv value
  end.

Lemma u64_of_N n : (n < 2 ^ 64)%N → is_u64 (Z.of_N n).
Proof. unfold is_u64. lia. Qed.

Lemma frame_msg_wf f : wf_frame f → wf_msg (chan_frame_to_msg f).
Proof.
  assert (wf_str []) as Hnil by (split; done).
  assert (∀ k, 0 ≤ k ≤ 9 → is_u8 k) as Hk by (unfold is_u8; lia).
  assert (is_u64 0) as H0 by (unfold is_u64; lia).
  destruct f; simpl; intros Hf; repeat match goal with H : _ ∧ _ |- _ => destruct H end;
    split_and!; try done; try (by apply u64_of_N); by apply Hk.
Qed.

Lemma norm_frame_msg f : msg_to_chan_frame (norm_msg (chan_frame_to_msg f)) = Some f.
Proof.
  assert (∀ v, default Null (norm_opt (Some v)) = v) as Hv by (by intros []).
  destruct f; cbn -[norm_opt Z.of_N Z.to_N]; rewrite ?N2Z.id, ?Hv, ?bytes_str_bytes; done.
Qed.

(** Every frame of a relay crosses the socket unchanged: what the peer decodes from the
    encoded message of a frame converts back to that frame, whatever its kind, a null value
    included. *)
Theorem relay_frames_cross_unchanged f :
  wf_frame f →
  ∃ m, decode_frame_with_meta (encode_with_meta (chan_frame_to_msg f) None) = Ok (m, meta_default)
    ∧ msg_to_chan_frame m = Some f.
Proof.
  intros Hf. exists (norm_msg (chan_frame_to_msg f)). split; [|apply norm_frame_msg].
  rewrite encode_extended_nil.
  assert (norm_meta (chan_frame_to_msg f) None = meta_default) as <- by (by destruct f).
  apply decode_reads, reads_frame; try done. by apply frame_msg_wf.
Qed.

Lemma relay_frames_cross_unchanged_witness :
  ∃ m, decode_frame_with_meta (encode_with_meta (chan_frame_to_msg (FReturn 7 Null)) None)
         = Ok (m, meta_default)
    ∧ msg_to_chan_frame m = Some (FReturn 7 Null).
Proof.
  apply (relay_frames_cross_unchanged (FReturn 7 Null)). split; [done|]. split; [done|]. simpl. lia.
Defined.

(** A message of another kind is skipped. *)
Lemma unknown_kind_skipped k chan corr value message :
  ¬ (0 ≤ k ≤ 9) → msg_to_chan_frame (Chan k chan corr value message) = None.
Proof.
  intros Hk. simpl. unfold CK_SEND, CK_ACK, CK_RECV, CK_VALUE, CK_CLOSED_FOR, CK_RECV_ERROR, CK_CLOSE,
    CK_CANCEL, CK_RELEASE, CK_RETURN.
  rewrite !(proj2 (Z.eqb_neq k _)) by lia. done.
Qed.
