(* ===== verification/Replay.v ===== *)
(** * The wake log (src/src/replay.rs)

    The scheduler's decisions as events, the text the log file holds, the per-run context that
    records and replays them, and the process-wide state that pairs the runs of a recording
    process with those of a replaying one.

    A text is the list of its bytes.  Paths are strings; the environment, the files and the two
    process-wide settings that go in the header are arguments ([WakeEnv]).  Of the messages of
    errors and warnings the model keeps what they are about. *)
From stdpp Require Import base numbers list gmap strings.
From stdpp Require Import options.
From Stdlib Require Import Ascii.
From S2P Require Import Prelude.

Abbreviation text := (list ascii).

(** A literal of the source. *)
Definition lit (s : string) : text := String.list_ascii_of_string s.

(** [RING_CAP]. *)
Definition RING_CAP : nat := 512.

(** ** Events *)

Inductive WakeEvent :=
| EPick (tid : nat)
| ERotate (preempt : bool)
| EIo (tid : nat) (aborted : bool) (hash : N)
| EDeadline (tid target : nat) (epoch : N).

#[export] Instance WakeEvent_eq_dec : EqDecision WakeEvent.
Proof. solve_decision. Defined.

Definition is_delivery (e : WakeEvent) : bool :=
  match e with EIo _ _ _ | EDeadline _ _ _ => true | _ => false end.

(** The machine words the fields are. *)
Definition U64_MAX : N := 2 ^ 64 - 1.
Definition U32_MAX : N := 2 ^ 32 - 1.

Definition word (n : nat) : Prop := (N.of_nat n ≤ U64_MAX)%N.

Definition event_ok (e : WakeEvent) : Prop :=
  match e with
  | EPick tid => word tid
  | ERotate _ => True
  | EIo tid _ hash => word tid ∧ (hash ≤ U64_MAX)%N
  | EDeadline tid target epoch => word tid ∧ word target ∧ (epoch ≤ U64_MAX)%N
  end.

(** ** Numbers in a text *)

(** The character of a digit, lower case. *)
Definition digit_char (d : N) : ascii :=
  ascii_of_N (if (d <? 10)%N then 48 + d else 87 + d).

(** [char::to_digit]. *)
Definition to_digit (radix : N) (c : ascii) : option N :=
  let n := N_of_ascii c in
  let d := if (48 <=? n)%N && (n <=? 57)%N then Some (n - 48)%N
           else if (97 <=? n)%N && (n <=? 122)%N then Some (n - 87)%N
           else if (65 <=? n)%N && (n <=? 90)%N then Some (n - 55)%N
           else None in
  d ← d; if (d <? radix)%N then Some d else None.

(** The digits of [n], most significant first, in front of [acc]. *)
Fixpoint digits_go (radix : N) (fuel : nat) (n : N) (acc : text) : text :=
  match fuel with
  | O => acc
  | S fuel' =>
      let acc := digit_char (n mod radix) :: acc in
      if (n <? radix)%N then acc else digits_go radix fuel' (n / radix) acc
  end.

(** [{n}]. *)
Definition decimal (n : N) : text := digits_go 10 (S (N.to_nat (N.size n))) n [].

(** [{n:016x}]. *)
Definition hex16 (n : N) : text :=
  let ds := digits_go 16 (S (N.to_nat (N.size n))) n [] in
  replicate (16 - length ds) "0"%char ++ ds.

(** Digits read from the left, in a word of at most [max]. *)
Fixpoint read_digits (radix max : N) (acc : N) (s : text) : option N :=
  match s with
  | [] => Some acc
  | c :: s' =>
      d ← to_digit radix c;
      let acc := (acc * radix + d)%N in
      if (acc <=? max)%N then read_digits radix max acc s' else None
  end.

(** [from_str_radix] of an unsigned type: digits, after a plus sign if there is one. *)
Definition from_str_radix (radix max : N) (s : text) : option N :=
  match s with
  | [] => None
  | c :: s' =>
      if decide (c = "+"%char) then
        match s' with [] => None | _ => read_digits radix max 0 s' end
      else read_digits radix max 0 s
  end.

Definition parse_usize (s : text) : option nat := N.to_nat <$> from_str_radix 10 U64_MAX s.
Definition parse_u64 (s : text) : option N := from_str_radix 10 U64_MAX s.
Definition parse_u32 (s : text) : option N := from_str_radix 10 U32_MAX s.

(** ** Words and lines *)

Definition newline : ascii := "010"%char.
Definition carriage_return : ascii := "013"%char.

(** [u8::is_ascii_whitespace]. *)
Definition is_space (c : ascii) : bool :=
  bool_decide (c ∈ [" "%char; "009"%char; newline; "012"%char; carriage_return]).

(** A word, if there is one, before the words [ws]. *)
Definition flush (w : text) (ws : list text) : list text :=
  match w with [] => ws | _ => w :: ws end.

(** The word [s] starts in, and the words after it. *)
Fixpoint split_words (s : text) : text * list text :=
  match s with
  | [] => ([], [])
  | c :: s' =>
      let '(w, ws) := split_words s' in
      if is_space c then ([], flush w ws) else (c :: w, ws)
  end.

(** [split_ascii_whitespace]. *)
Definition split_ascii_whitespace (s : text) : list text :=
  let '(w, ws) := split_words s in flush w ws.

(** [str::lines]: an ended line loses its newline and the carriage return before it. *)
Fixpoint lines (s : text) : list text :=
  match s with
  | [] => []
  | c :: s' =>
      if decide (c = newline) then [] :: lines s'
      else if bool_decide (c = carriage_return) && bool_decide (head s' = Some newline)
      then lines s'
      else match lines s' with [] => [[c]] | l :: ls => (c :: l) :: ls end
  end.

(** [strip_prefix]. *)
Fixpoint strip_prefix (p s : text) : option text :=
  match p, s with
  | [], _ => Some s
  | a :: p', b :: s' => if decide (a = b) then strip_prefix p' s' else None
  | _ :: _, [] => None
  end.

(** ** Lines of the log *)

Definition flag (b : bool) : text := if b then ["1"%char] else ["0"%char].

(** [to_line]. *)
Definition to_line (e : WakeEvent) : text :=
  match e with
  | EPick tid => lit "P " ++ decimal (N.of_nat tid)
  | ERotate preempt => lit "R " ++ flag preempt
  | EIo tid aborted hash =>
      lit "I " ++ decimal (N.of_nat tid) ++ lit " " ++ flag aborted ++ lit " " ++ hex16 hash
  | EDeadline tid target epoch =>
      lit "D " ++ decimal (N.of_nat tid) ++ lit " " ++ decimal (N.of_nat target) ++ lit " "
      ++ decimal epoch
  end.

(** [next]: the first of the words left. *)
Definition next (f : list text) : option (text * list text) :=
  match f with [] => None | w :: f' => Some (w, f') end.

(** [parse]. *)
Definition parse (line : text) : option WakeEvent :=
  '(k, f) ← next (split_ascii_whitespace line);
  '(ev, f) ←
    (if decide (k = lit "P") then
       '(a, f) ← next f; tid ← parse_usize a; Some (EPick tid, f)
     else if decide (k = lit "R") then
       '(a, f) ← next f; Some (ERotate (bool_decide (a = lit "1")), f)
     else if decide (k = lit "I") then
       '(a, f) ← next f; tid ← parse_usize a;
       '(b, f) ← next f;
       '(c, f) ← next f; hash ← from_str_radix 16 U64_MAX c;
       Some (EIo tid (bool_decide (b = lit "1")) hash, f)
     else if decide (k = lit "D") then
       '(a, f) ← next f; tid ← parse_usize a;
       '(b, f) ← next f; target ← parse_usize b;
       '(c, f) ← next f; epoch ← parse_u64 c;
       Some (EDeadline tid target epoch, f)
     else None);
  match next f with None => Some ev | Some _ => None end.

(** ** The whole file *)

Inductive LogError :=
| NotALog
| BatchMismatch (batch : option N) (current : N)
| Unparseable (number : nat) (line : text)
| BeforeFirstRun
| CannotRead
| NoSectionLeft.

(** The first word [batch=...] of the header, as a number. *)
Fixpoint find_batch (parts : list text) : option text :=
  match parts with
  | [] => None
  | p :: parts' =>
      match strip_prefix (lit "batch=") p with Some v => Some v | None => find_batch parts' end
  end.

(** Push onto the last section; [None] when there is none. *)
Definition push_event (sections : list (list WakeEvent)) (e : WakeEvent)
    : option (list (list WakeEvent)) :=
  match vec_pop sections with
  | Some (section, front) => Some (front ++ [vec_push section e])
  | None => None
  end.

(** The lines after the header; [i] counts them. *)
Fixpoint parse_sections (ls : list text) (i : nat) (sections : list (list WakeEvent))
    : LogError + list (list WakeEvent) :=
  match ls with
  | [] => inr sections
  | line :: ls' =>
      match line with
      | [] => parse_sections ls' (S i) sections
      | _ =>
          if decide (line = lit "RUN") then parse_sections ls' (S i) (vec_push sections [])
          else match parse line with
               | None => inl (Unparseable (i + 2) line)
               | Some e =>
                   match push_event sections e with
                   | None => inl BeforeFirstRun
                   | Some sections => parse_sections ls' (S i) sections
                   end
               end
      end
  end.

(** [parse_log]. *)
Definition parse_log (s : text) (current_batch : N) : LogError + list (list WakeEvent) :=
  let '(header, ls) := match lines s with [] => ([], []) | h :: ls => (h, ls) end in
  match split_ascii_whitespace header with
  | magic :: version :: parts =>
      if bool_decide (magic = lit "qn-wake-log") && bool_decide (version = lit "v1") then
        let batch := v ← find_batch parts; parse_u32 v in
        if decide (batch = Some current_batch) then parse_sections ls 0 []
        else inl (BatchMismatch batch current_batch)
      else inl NotALog
  | _ => inl NotALog
  end.

(** ** The context of a run *)

Record Recorder := mkRecorder { r_path : string; r_events : list WakeEvent }.

Record Replayer := mkReplayer {
  rp_events : list WakeEvent;
  rp_pos : nat;
  rp_index : nat;
  rp_total : nat }.

Definition replayer_peek (r : Replayer) : option WakeEvent := rp_events r !! rp_pos r.

Record ReplayCtx := mkCtx {
  ring : option (list WakeEvent);
  recorder : option Recorder;
  replayer : option Replayer;
  debug : bool;
  diverged : bool }.

Definition inert : ReplayCtx := mkCtx None None None false false.

Definition logging (c : ReplayCtx) : bool :=
  bool_decide (is_Some (ring c)) || bool_decide (is_Some (recorder c)).

Definition replaying (c : ReplayCtx) : bool := bool_decide (is_Some (replayer c)).

(** [log], on the ring. *)
Definition ring_push (r : list WakeEvent) (e : WakeEvent) : list WakeEvent :=
  vec_push (if decide (length r = RING_CAP) then tail r else r) e.

Definition log (c : ReplayCtx) (e : WakeEvent) : ReplayCtx :=
  mkCtx ((λ r, ring_push r e) <$> ring c)
    ((λ r, mkRecorder (r_path r) (vec_push (r_events r) e)) <$> recorder c)
    (replayer c) (debug c) (diverged c).

Definition peek (c : ReplayCtx) : option WakeEvent := r ← replayer c; replayer_peek r.

Definition peek_delivery (c : ReplayCtx) : option WakeEvent :=
  e ← peek c; if is_delivery e then Some e else None.

Definition consume (c : ReplayCtx) : ReplayCtx :=
  mkCtx (ring c) (recorder c)
    ((λ r, mkReplayer (rp_events r) (S (rp_pos r)) (rp_index r) (rp_total r)) <$> replayer c)
    (debug c) (diverged c).

(** A report names the driver run, the number of runs and the position; what it is about is
    the caller's. *)
Record Report := mkReport { re_run : nat; re_total : nat; re_pos : nat }.

(** [divergence_msg]. *)
Definition divergence_msg (c : ReplayCtx) : ReplayCtx * Report :=
  (mkCtx (ring c) (recorder c) (replayer c) (debug c) true,
   match replayer c with
   | Some r => mkReport (rp_index r) (rp_total r) (rp_pos r)
   | None => mkReport 0 0 0
   end).

Definition expect_pick (c : ReplayCtx) : ReplayCtx * (Report + nat) :=
  match peek c with
  | Some (EPick tid) => (consume c, inr tid)
  | _ => let '(c, r) := divergence_msg c in (c, inl r)
  end.

Definition expect_rotate (c : ReplayCtx) : ReplayCtx * (Report + bool) :=
  match peek c with
  | Some (ERotate preempt) => (consume c, inr preempt)
  | _ => let '(c, r) := divergence_msg c in (c, inl r)
  end.

(** ** The process *)

Record GlobalWake := mkGlobal {
  recorded : list (list WakeEvent);
  pending : option (list (list WakeEvent));
  claimed : nat;
  total : nat }.

Definition fresh_global : GlobalWake := mkGlobal [] None 0 0.

(** The settings of a process: the three modes, the files, the yield cadence and the stress
    seed. *)
Record WakeEnv := mkEnv {
  QN_WAKE_DEBUG : bool;
  QN_WAKE_LOG : bool;
  QN_WAKE_RECORD : option string;
  QN_WAKE_REPLAY : option string;
  step_batch : N;
  sched_stress : option N }.

(** [from_env]; [files] reads a file. *)
Definition from_env (env : WakeEnv) (files : string → option text) (is_worker : bool)
    (g : GlobalWake) : GlobalWake * (LogError + ReplayCtx) :=
  if is_worker then (g, inr inert)
  else
    let ctx replayer :=
      mkCtx (if QN_WAKE_LOG env then Some [] else None)
        ((λ path, mkRecorder path []) <$> QN_WAKE_RECORD env) replayer (QN_WAKE_DEBUG env) false in
    match QN_WAKE_REPLAY env with
    | None => (g, inr (ctx None))
    | Some path =>
        let loaded :=
          match pending g with
          | Some sections => inr (sections, total g)
          | None =>
              match files path with
              | None => inl CannotRead
              | Some s =>
                  match parse_log s (step_batch env) with
                  | inl e => inl e
                  | inr sections => inr (sections, length sections)
                  end
              end
          end in
        match loaded with
        | inl e => (g, inl e)
        | inr ([], n) => (mkGlobal (recorded g) (Some []) (claimed g) n, inl NoSectionLeft)
        | inr (section :: sections, n) =>
            let k := S (claimed g) in
            (mkGlobal (recorded g) (Some sections) k n,
             inr (ctx (Some (mkReplayer section 0 k n))))
        end
    end.

(** The text written at the end of a recorded run. *)
Definition log_header (env : WakeEnv) : text :=
  lit "qn-wake-log v1 batch=" ++ decimal (step_batch env) ++ lit " stress="
  ++ match sched_stress env with None => lit "off" | Some s => decimal s end ++ [newline].

Definition section_text (section : list WakeEvent) : text :=
  lit "RUN" ++ newline :: concat ((λ e, to_line e ++ [newline]) <$> section).

Definition log_text (env : WakeEnv) (sections : list (list WakeEvent)) : text :=
  log_header env ++ concat (section_text <$> sections).

(** [drop]: the state of the process, the file written, and the number of events of the log the
    run left, where a warning reports it. *)
Definition drop_ctx (env : WakeEnv) (c : ReplayCtx) (g : GlobalWake)
    : GlobalWake * option (string * text) * option nat :=
  let '(g, file) :=
    match recorder c with
    | Some r =>
        let sections := vec_push (recorded g) (r_events r) in
        (mkGlobal sections (pending g) (claimed g) (total g),
         Some (r_path r, log_text env sections))
    | None => (g, None)
    end in
  (g, file,
   r ← replayer c;
   let left := length (rp_events r) - rp_pos r in
   if bool_decide (0 < left) && negb (diverged c) then Some left else None).

(** The events [to_line] and [parse] are tested on (replay_tests.rs). *)
Example event_lines :
  to_line (EIo 7 true 0) = lit "I 7 1 0000000000000000"
  ∧ to_line (EDeadline 2 5 99) = lit "D 2 5 99"
  ∧ parse (lit "I 0 0 deadbeef01234567") = Some (EIo 0 false 16045690981116495207)
  ∧ Forall (λ l, parse (lit l) = None) [""; "X 1"; "P"; "P x"; "I 1 0"; "P 1 2"; "D 1 2"].
Proof. split_and!; try (vm_compute; reflexivity). repeat constructor; vm_compute; reflexivity. Qed.

(** A run of the driver that logs [evs]: its context, and the file it leaves. *)
Definition driver_run (env : WakeEnv) (files : string → option text) (g : GlobalWake)
    (evs : list WakeEvent) : GlobalWake * (LogError + ReplayCtx * option (string * text)) :=
  match from_env env files false g with
  | (g, inl e) => (g, inl e)
  | (g, inr c) =>
      let '(g, file, _) := drop_ctx env (foldl log c evs) g in (g, inr (c, file))
  end.

(** The runs of a process, one after the other. *)
Fixpoint driver_runs (env : WakeEnv) (files : string → option text) (g : GlobalWake)
    (runs : list (list WakeEvent)) : list (LogError + ReplayCtx * option (string * text)) :=
  match runs with
  | [] => []
  | evs :: runs' => let '(g, r) := driver_run env files g evs in r :: driver_runs env files g runs'
  end.
