(* ===== verification/ReplayText.v ===== *)
(** * The wake log reads back what it writes (src/src/replay.rs)

    Numbers, words and lines of a text; every event's line parses to the event, and the file a
    process leaves parses to the events of its runs.  A process that replays that file gives
    each of its runs the events of the recording process's run of the same number. *)
From stdpp Require Import base numbers list gmap strings.
From stdpp Require Import options.
From Stdlib Require Import Ascii.
From S2P Require Import Prelude Replay.

(** ** Numbers *)

(** What holds of the sixteen digits holds of every digit of a radix of at most sixteen. *)
Lemma digits_check (P : N → bool) d :
  forallb P (N.of_nat <$> seq 0 16) = true → (d < 16)%N → P d = true.
Proof.
  rewrite forallb_forall. intros H Hd. apply H, list_elem_of_In, list_elem_of_fmap.
  exists (N.to_nat d). rewrite N2Nat.id, elem_of_seq. split; [done|lia].
Qed.

Lemma to_digit_char radix d :
  (d < radix)%N → (radix ≤ 16)%N → to_digit radix (digit_char d) = Some d.
Proof.
  intros Hd Hr.
  assert (to_digit 16 (digit_char d) = Some d) as H.
  { pose proof (digits_check (λ d, match to_digit 16 (digit_char d) with
                                   | Some d' => N.eqb d' d | None => false end) d) as H.
    simpl in H. destruct (to_digit _ _) as [d'|]; [f_equal; apply N.eqb_eq|];
      [|assert (false = true); [|done]]; apply H; (vm_compute; reflexivity) || lia. }
  revert H. unfold to_digit. cbv zeta. destruct (if _ && _ then _ else _) as [d'|]; simpl; [|done].
  destruct (d' <? 16)%N; [|done]. intros [= ->]. by rewrite (proj2 (N.ltb_lt _ _) Hd).
Qed.

(** A character of a number in a text. *)
Definition is_digit (c : ascii) : bool := bool_decide (is_Some (to_digit 16 c)).

Lemma digits_go_digits radix fuel n acc :
  (0 < radix ≤ 16)%N → forallb is_digit acc = true →
  forallb is_digit (digits_go radix fuel n acc) = true.
Proof.
  intros Hr. revert n acc. induction fuel as [|fuel IH]; intros n acc Hacc; [done|].
  assert (forallb is_digit (digit_char (n mod radix) :: acc) = true) as H.
  { simpl. rewrite Hacc, andb_true_r. apply bool_decide_eq_true.
    rewrite to_digit_char; [done| |lia].
    eapply N.lt_le_trans; [apply N.mod_lt; lia|lia]. }
  simpl. destruct (n <? radix)%N; [done|by apply IH].
Qed.

Lemma digits_go_nonempty radix fuel n acc : digits_go radix (S fuel) n acc ≠ [].
Proof.
  assert (∀ fuel n c acc, digits_go radix fuel n (c :: acc) ≠ []) as H.
  { clear. intros fuel. induction fuel as [|fuel IH]; intros n c acc; [done|].
    simpl. case_match; [done|apply IH]. }
  simpl. case_match; [done|apply H].
Qed.

Lemma read_digits_go radix max fuel n acc :
  (1 < radix ≤ 16)%N → (n ≤ max)%N → (n < radix ^ N.of_nat fuel)%N → (0 < fuel)%nat →
  read_digits radix max 0 (digits_go radix fuel n acc) = read_digits radix max n acc.
Proof.
  intros Hr. revert n acc. induction fuel as [|fuel IH]; intros n acc Hn Hf Hpos; [lia|].
  assert (Hdm : n = (radix * (n / radix) + n mod radix)%N) by (apply N.div_mod; lia).
  assert (Hm : (n mod radix < radix)%N) by (apply N.mod_lt; lia).
  simpl. destruct (N.ltb_spec n radix) as [Hlt|Hge].
  - simpl. rewrite to_digit_char by lia. simpl. rewrite N.mod_small by lia.
    rewrite N.mul_0_l, N.add_0_l. by rewrite (proj2 (N.leb_le _ _) Hn).
  - rewrite IH.
    + simpl. rewrite to_digit_char by lia. simpl.
      replace (n / radix * radix + n mod radix)%N with n by lia.
      by rewrite (proj2 (N.leb_le _ _) Hn).
    + assert (n / radix ≤ n)%N by (apply N.Div0.div_le_upper_bound; nia). lia.
    + apply N.Div0.div_lt_upper_bound. rewrite Nat2N.inj_succ, N.pow_succ_r' in Hf. done.
    + destruct fuel; [|lia]. simpl in Hf. lia.
Qed.

(** The fuel [decimal] and [hex16] give is enough. *)
Lemma fuel_enough radix n : (1 < radix)%N → (n < radix ^ N.of_nat (S (N.to_nat (N.size n))))%N.
Proof.
  intros Hr. rewrite Nat2N.inj_succ, N2Nat.id.
  eapply N.lt_le_trans; [apply N.size_gt|].
  eapply N.le_trans; [apply N.pow_le_mono_l with (b := radix); lia|].
  apply N.pow_le_mono_r; lia.
Qed.

Lemma from_str_radix_digits radix max s :
  forallb is_digit s = true → s ≠ [] → from_str_radix radix max s = read_digits radix max 0 s.
Proof.
  destruct s as [|c s]; [done|]. simpl. intros [Hc _]%andb_prop _.
  case_decide; [|done]. by subst.
Qed.

Lemma parse_decimal max n : (n ≤ max)%N → from_str_radix 10 max (decimal n) = Some n.
Proof.
  intros Hn. unfold decimal. rewrite from_str_radix_digits.
  - rewrite read_digits_go; [done|lia|done|apply fuel_enough; lia|lia].
  - by apply digits_go_digits.
  - apply digits_go_nonempty.
Qed.

Lemma parse_usize_decimal n : word n → parse_usize (decimal (N.of_nat n)) = Some n.
Proof.
  intros Hn. unfold parse_usize. rewrite parse_decimal by done. simpl. by rewrite Nat2N.id.
Qed.

Lemma read_zeros radix max k s :
  (1 < radix ≤ 16)%N → read_digits radix max 0 (replicate k "0"%char ++ s) = read_digits radix max 0 s.
Proof.
  intros Hr. induction k as [|k IH]; [done|]. simpl.
  change "0"%char with (digit_char 0). rewrite to_digit_char by lia. simpl.
  rewrite N.mul_0_l, N.add_0_l, (proj2 (N.leb_le 0 max)) by lia. done.
Qed.

Lemma hex16_digits n : forallb is_digit (hex16 n) = true.
Proof.
  unfold hex16. rewrite forallb_app, (digits_go_digits _ _ _ []), andb_true_r by (done || lia).
  induction (16 - _) as [|k IH]; [done|]. simpl. by rewrite IH.
Qed.

Lemma hex16_nonempty n : hex16 n ≠ [].
Proof.
  unfold hex16. intros [_ H]%app_eq_nil. by apply digits_go_nonempty in H.
Qed.

Lemma parse_hex16 n : (n ≤ U64_MAX)%N → from_str_radix 16 U64_MAX (hex16 n) = Some n.
Proof.
  intros Hn. rewrite from_str_radix_digits; [|apply hex16_digits|apply hex16_nonempty].
  unfold hex16. rewrite read_zeros, read_digits_go by (done || lia || (apply fuel_enough; lia)).
  done.
Qed.

Lemma decimal_digits n : forallb is_digit (decimal n) = true.
Proof. by apply digits_go_digits. Qed.

Lemma decimal_nonempty n : decimal n ≠ [].
Proof. apply digits_go_nonempty. Qed.

(** ** Words and lines *)

(** A text without white space. *)
Definition solid (w : text) : bool := forallb (λ c, negb (is_space c)) w.

Lemma digits_solid w : forallb is_digit w = true → solid w = true.
Proof.
  unfold solid. rewrite !forallb_forall. intros H c Hc. apply H in Hc.
  unfold is_space. case_bool_decide as Hs; [|done].
  apply list_elem_of_In in Hs. by repeat (destruct Hs as [<-|Hs]; [vm_compute in Hc; discriminate|]).
Qed.

Lemma split_words_solid w s :
  solid w = true →
  split_words (w ++ s) = (w ++ (split_words s).1, (split_words s).2).
Proof.
  induction w as [|c w IH]; simpl; [by destruct (split_words s)|].
  intros [Hc Hw]%andb_prop. rewrite (IH Hw). apply negb_true_iff in Hc. by rewrite Hc.
Qed.

Lemma split_word w s :
  solid w = true → w ≠ [] →
  split_ascii_whitespace (w ++ lit " " ++ s) = w :: split_ascii_whitespace s.
Proof.
  intros Hw Hne. unfold split_ascii_whitespace. rewrite split_words_solid by done. simpl.
  destruct (split_words s) as [w' ws']. simpl. rewrite app_nil_r. by destruct w.
Qed.

Lemma split_last w : solid w = true → w ≠ [] → split_ascii_whitespace w = [w].
Proof.
  intros Hw Hne. unfold split_ascii_whitespace.
  rewrite <-(app_nil_r w) at 1. rewrite split_words_solid by done. simpl. rewrite app_nil_r.
  by destruct w.
Qed.

(** A text that is part of a line. *)
Definition inline (s : text) : bool :=
  forallb (λ c, negb (bool_decide (c = newline)) && negb (bool_decide (c = carriage_return))) s.

Lemma solid_inline w : solid w = true → inline w = true.
Proof.
  unfold solid, inline. rewrite !forallb_forall. intros H c Hc.
  specialize (H c Hc). apply negb_true_iff in H.
  assert (c ≠ newline ∧ c ≠ carriage_return) as [? ?]
    by (split; intros ->; vm_compute in H; discriminate).
  by rewrite !bool_decide_eq_false_2.
Qed.

Lemma inline_app a b : inline (a ++ b) = inline a && inline b.
Proof. apply forallb_app. Qed.

Lemma lines_line l s : inline l = true → lines (l ++ newline :: s) = l :: lines s.
Proof.
  induction l as [|c l IH]; [done|]. simpl.
  intros [[Hn Hr]%andb_prop Hl]%andb_prop.
  apply negb_true_iff, bool_decide_eq_false in Hn. apply negb_true_iff in Hr.
  rewrite decide_False by done. rewrite Hr. simpl. by rewrite IH.
Qed.

#[local] Hint Resolve decimal_digits decimal_nonempty hex16_digits hex16_nonempty digits_solid
  solid_inline : quoin.

(** ** Lines of the log *)

Ltac split_fields :=
  repeat first
    [ rewrite split_word by (eauto with quoin) | rewrite split_last by (eauto with quoin) ].

Lemma flag_solid b : solid (flag b) = true ∧ flag b ≠ [].
Proof. by destruct b. Qed.

Lemma split_kind k s :
  (solid (lit k) = true) → lit k ≠ [] →
  split_ascii_whitespace ((lit k ++ lit " ") ++ s) = lit k :: split_ascii_whitespace s.
Proof. intros ??. rewrite <-app_assoc. by apply split_word. Qed.

Lemma parse_to_line e : event_ok e → parse (to_line e) = Some e.
Proof.
  unfold parse. destruct e as [tid|b|tid b hash|tid target epoch]; simpl event_ok; intros He;
    unfold to_line.
  - rewrite (split_kind "P") by done. split_fields. simpl. by rewrite parse_usize_decimal.
  - rewrite (split_kind "R") by done. by destruct b.
  - destruct He as [Htid Hhash]. destruct (flag_solid b) as (Hs & Hne).
    rewrite (split_kind "I") by done. split_fields.
    split_fields. simpl. rewrite parse_usize_decimal by done. simpl.
    rewrite parse_hex16 by done. simpl. by destruct b.
  - destruct He as (Htid & Htarget & Hepoch).
    rewrite (split_kind "D") by done. split_fields. simpl.
    rewrite !parse_usize_decimal by done. simpl. unfold parse_u64.
    by rewrite parse_decimal by done.
Qed.

Lemma to_line_inline e : inline (to_line e) = true.
Proof.
  destruct e as [tid|b|tid b hash|tid target epoch]; unfold to_line;
    rewrite !inline_app, ?(solid_inline (decimal _)), ?(solid_inline (hex16 _)) by (auto with quoin);
    try done; by destruct b.
Qed.

Lemma to_line_shape e : ∃ k s, to_line e = k :: " "%char :: s.
Proof. destruct e; eexists _, _; reflexivity. Qed.

Lemma lines_events evs s :
  lines (concat ((λ e, to_line e ++ [newline]) <$> evs) ++ s) = (to_line <$> evs) ++ lines s.
Proof.
  induction evs as [|e evs IH]; [done|]. rewrite !fmap_cons. cbn [concat].
  rewrite <-!app_assoc. cbn [app]. rewrite lines_line by apply to_line_inline. by rewrite IH.
Qed.

Lemma lines_sections sections :
  lines (concat (section_text <$> sections))
  = concat ((λ section, lit "RUN" :: (to_line <$> section)) <$> sections).
Proof.
  induction sections as [|section sections IH]; [done|]. rewrite !fmap_cons. cbn [concat].
  unfold section_text at 1. rewrite <-app_assoc, <-app_comm_cons, lines_line by done.
  by rewrite lines_events, IH.
Qed.

Lemma parse_events evs ls i front section :
  Forall event_ok evs →
  parse_sections ((to_line <$> evs) ++ ls) i (front ++ [section])
  = parse_sections ls (length evs + i) (front ++ [section ++ evs]).
Proof.
  intros Hok. revert i section. induction Hok as [|e evs He Hevs IH]; intros i section.
  { by rewrite app_nil_r. }
  rewrite fmap_cons, <-app_comm_cons.
  destruct (to_line_shape e) as (k & s & Hl). rewrite Hl. cbn [parse_sections].
  rewrite <-Hl, parse_to_line by done. rewrite decide_False by (rewrite Hl; by intros [=]).
  unfold push_event. change (front ++ [section]) with (vec_push front section).
  rewrite vec_pop_push. unfold vec_push. rewrite IH, <-app_assoc. f_equal. simpl. lia.
Qed.

Lemma parse_all sections i front :
  Forall (Forall event_ok) sections →
  parse_sections (concat ((λ section, lit "RUN" :: (to_line <$> section)) <$> sections)) i front
  = inr (front ++ sections).
Proof.
  intros Hok. revert i front. induction Hok as [|section sections Hs Hss IH]; intros i front.
  { simpl. by rewrite app_nil_r. }
  rewrite fmap_cons. cbn [concat]. rewrite <-app_comm_cons.
  change (lit "RUN") with ("R"%char :: lit "UN"). cbn [parse_sections].
  rewrite decide_True by done. unfold vec_push. rewrite parse_events by done.
  rewrite IH, <-app_assoc. done.
Qed.

(** The words the header starts with, up to what [batch=] sets. *)
Lemma header_words env :
  split_ascii_whitespace (lit "qn-wake-log v1 batch=" ++ decimal (step_batch env) ++ lit " stress="
    ++ match sched_stress env with None => lit "off" | Some s => decimal s end)
  = [lit "qn-wake-log"; lit "v1"; lit "batch=" ++ decimal (step_batch env);
     lit "stress=" ++ match sched_stress env with None => lit "off" | Some s => decimal s end].
Proof.
  change (lit "qn-wake-log v1 batch=")
    with (lit "qn-wake-log" ++ lit " " ++ lit "v1" ++ lit " " ++ lit "batch=").
  change (lit " stress=") with (lit " " ++ lit "stress=").
  rewrite <-!app_assoc. rewrite !split_word by done.
  rewrite (app_assoc (lit "batch=")), split_word; [| |done].
  - rewrite split_last; [done| |done]. unfold solid. rewrite forallb_app.
    destruct (sched_stress env); [|done]. simpl. apply digits_solid. auto with quoin.
  - unfold solid. rewrite forallb_app. simpl. apply digits_solid. auto with quoin.
Qed.

Lemma parse_log_text env sections :
  (step_batch env ≤ U32_MAX)%N → Forall (Forall event_ok) sections →
  parse_log (log_text env sections) (step_batch env) = inr sections.
Proof.
  intros Hb Hok. unfold parse_log, log_text, log_header.
  set (st := match sched_stress env with None => lit "off" | Some s => decimal s end).
  assert (inline st = true) by (unfold st; destruct (sched_stress env); auto with quoin).
  rewrite <-!app_assoc. simpl app at 5. rewrite !app_assoc, lines_line.
  2: { rewrite !inline_app. rewrite (solid_inline (decimal _)) by (auto with quoin). done. }
  rewrite <-!app_assoc. unfold st. rewrite header_words, lines_sections. cbv beta iota zeta.
  rewrite !bool_decide_eq_true_2 by done. cbn [andb find_batch strip_prefix lit].
  change (strip_prefix (lit "batch=") (lit "batch=" ++ decimal (step_batch env)))
    with (Some (decimal (step_batch env))). simpl mbind. cbv iota.
  unfold parse_u32. rewrite parse_decimal by done. rewrite decide_True by done.
  by rewrite parse_all.
Qed.

(** ** What the context keeps *)

Lemma log_replayer evs : ∀ c, replayer (foldl log c evs) = replayer c.
Proof. induction evs as [|e evs IH]; intros c; [done|]. simpl. by rewrite IH. Qed.

Lemma log_recorder evs : ∀ c,
  recorder (foldl log c evs) = (λ r, mkRecorder (r_path r) (r_events r ++ evs)) <$> recorder c.
Proof.
  induction evs as [|e evs IH]; intros c; simpl.
  - destruct (recorder c) as [[]|]; simpl; [|done]. by rewrite app_nil_r.
  - rewrite IH. simpl. destruct (recorder c) as [r|]; simpl; [|done].
    unfold vec_push. by rewrite <-app_assoc.
Qed.

(** The last events of a stream, as many as the ring holds. *)
Definition latest (evs : list WakeEvent) : list WakeEvent := drop (length evs - RING_CAP) evs.

Lemma ring_push_latest evs e : ring_push (latest evs) e = latest (evs ++ [e]).
Proof.
  unfold ring_push, latest, vec_push. rewrite length_drop, length_app. simpl length.
  destruct (decide (RING_CAP ≤ length evs)) as [Hle|Hgt].
  - rewrite decide_True by lia.
    rewrite drop_app_le by (unfold RING_CAP in *; lia). f_equal.
    replace (length evs + 1 - RING_CAP) with (1 + (length evs - RING_CAP)) by lia.
    rewrite Nat.add_comm, <-drop_drop. by destruct (drop _ evs).
  - rewrite decide_False by lia.
    replace (length evs + 1 - RING_CAP) with 0 by lia.
    by replace (length evs - RING_CAP) with 0 by lia.
Qed.

Lemma log_ring evs : ∀ c done, ring c = Some (latest done) →
  ring (foldl log c evs) = Some (latest (done ++ evs)).
Proof.
  induction evs as [|e evs IH]; intros c done Hr; simpl; [by rewrite app_nil_r|].
  rewrite (IH _ (done ++ [e])); [by rewrite <-app_assoc|].
  simpl. rewrite Hr. simpl. by rewrite ring_push_latest.
Qed.

(** ** A process's runs *)

Lemma record_run env files g evs path :
  QN_WAKE_RECORD env = Some path → QN_WAKE_REPLAY env = None →
  ∃ c, driver_run env files g evs
       = (mkGlobal (recorded g ++ [evs]) (pending g) (claimed g) (total g),
          inr (c, Some (path, log_text env (recorded g ++ [evs])))).
Proof.
  intros Hrec Hrep. unfold driver_run, from_env. rewrite Hrec, Hrep. simpl.
  unfold drop_ctx. rewrite log_recorder, log_replayer. simpl. eauto.
Qed.

(** The file after each run holds the runs so far. *)
Lemma record_runs env files path runs : ∀ g k,
  QN_WAKE_RECORD env = Some path → QN_WAKE_REPLAY env = None → k < length runs →
  ∃ c, driver_runs env files g runs !! k
       = Some (inr (c, Some (path, log_text env (recorded g ++ take (S k) runs)))).
Proof.
  induction runs as [|evs runs IH]; simpl; intros g k Hrec Hrep Hk; [lia|].
  destruct (record_run env files g evs path Hrec Hrep) as [c ->].
  destruct k as [|k]; simpl; [eauto|].
  destruct (IH (mkGlobal (recorded g ++ [evs]) (pending g) (claimed g) (total g)) k Hrec Hrep)
    as [c' ->]; [lia|].
  exists c'. simpl. by rewrite <-app_assoc.
Qed.

Lemma driver_runs_length env files runs : ∀ g, length (driver_runs env files g runs) = length runs.
Proof.
  induction runs as [|evs runs IH]; intros g; [done|]. simpl.
  destruct (driver_run env files g evs). simpl. by rewrite IH.
Qed.

(** Whether a process has claimed [k] of the sections of a log of [n]. *)
Definition claims_left (g : GlobalWake) (k n : nat) (left : list (list WakeEvent)) : Prop :=
  pending g = Some left ∧ total g = n ∧ (left ≠ [] → claimed g = k).

(** The sections a run may claim: those the file holds, or those left of it. *)
Definition claimable (env : WakeEnv) (files : string → option text) (g : GlobalWake) (k n : nat)
    (left : list (list WakeEvent)) : Prop :=
  claims_left g k n left
  ∨ (pending g = None ∧ claimed g = k ∧ n = length left
     ∧ ∃ path s, QN_WAKE_REPLAY env = Some path ∧ files path = Some s
                 ∧ parse_log s (step_batch env) = inr left).

Lemma drop_ctx_claims env c g :
  pending (drop_ctx env c g).1.1 = pending g ∧ claimed (drop_ctx env c g).1.1 = claimed g
  ∧ total (drop_ctx env c g).1.1 = total g.
Proof. unfold drop_ctx. by destruct (recorder c). Qed.

Lemma replay_run env files path g evs k n left :
  QN_WAKE_REPLAY env = Some path → claimable env files g k n left →
  ∃ g' r, driver_run env files g evs = (g', r)
  ∧ claims_left g' (S k) n (tail left)
  ∧ match left with
    | [] => r = inl NoSectionLeft
    | section :: _ =>
        ∃ c file, r = inr (c, file) ∧ replayer c = Some (mkReplayer section 0 (S k) n)
    end.
Proof.
  intros Hrep Hg. unfold driver_run, from_env. rewrite Hrep.
  match goal with |- context [match ?l with inl _ => _ | inr _ => _ end] =>
    assert (l = inr (left, n)) as -> end.
  { destruct Hg as [(-> & -> & _)|(-> & _ & -> & path' & s & Hp & Hf & Hs)]; [done|].
    rewrite Hrep in Hp. injection Hp as <-. by rewrite Hf, Hs. }
  destruct left as [|section left]; simpl.
  { eexists _, _. split; [done|]. by split_and!. }
  assert (claimed g = k) as <- by (destruct Hg as [(_ & _ & H)|(_ & H & _)]; [by apply H|done]).
  match goal with |- context [drop_ctx env ?c ?g] => pose proof (drop_ctx_claims env c g) as Hd end.
  destruct (drop_ctx _ _ _) as [[g' file] warn] eqn:E. simpl in Hd.
  eexists _, _. split; [done|]. destruct Hd as (Hp & Hc & Ht). split; [|eauto].
  by split_and!.
Qed.

Lemma replay_runs env files path runs : ∀ g k n left i r,
  QN_WAKE_REPLAY env = Some path → claimable env files g k n left →
  driver_runs env files g runs !! i = Some r →
  match left !! i with
  | Some section =>
      ∃ c file, r = inr (c, file) ∧ replayer c = Some (mkReplayer section 0 (S (k + i)) n)
  | None => r = inl NoSectionLeft
  end.
Proof.
  induction runs as [|evs runs IH]; intros g k n left i r Hrep Hg; [done|]. simpl.
  destruct (replay_run env files path g evs k n left Hrep Hg) as (g' & r' & -> & Hg' & Hr').
  destruct i as [|i]; simpl.
  { intros [= <-]. rewrite Nat.add_0_r. by destruct left. }
  intros Hi. specialize (IH g' (S k) n (tail left) i r Hrep (or_introl Hg') Hi).
  replace (S (k + S i)) with (S (S k + i)) by lia. by destruct left.
Qed.
