(* ===== verification/ReplayLoop.v ===== *)
(** * The driver's loop with the wake log (src/src/runner_driver.rs)

    [drive_to_completion] as one executable function, live and replaying: the picks, the waits
    for a completion, the yield boundaries, the events logged and the events a replay forces.
    The states of the tasks and of the scheduler are those of [Driver].

    The environment is a stream of choices: which completion lands when one is awaited, how many
    have landed at a boundary, what the generator of a stressed run draws, and what each
    operation returns, by the number of its future.  The program is a function of its own state,
    of the scheduler's and of what its suspended calls return. *)
From stdpp Require Import base numbers list gmap strings.
From stdpp Require Import options.
From S2P Require Import Prelude Sched Driver Replay.

(** [TaskWakeup]: what a completed future tells the driver; [None] is an aborted operation. *)
Inductive TaskWakeup `{VmTypes} :=
| Io (result : option IoResult)
| Deadline (target : TaskId) (epoch : N).

(** What lands when, and with what. *)
Record Choices `{VmTypes} := mkChoices {
  arrival : nat → nat;
  polled : nat → nat;
  below : nat → nat → nat;
  io_result : N → IoResult }.

#[global] Arguments mkChoices {_} _ _ _ _.

Section loop.
Context `{VmTypes}.
Context (start_block : Block → Context → Context).
Context (quoinerror_to_value : QuoinError → Value).
Context (stress : bool).
(** [hash_debug] of a result. *)
Context (hash_debug : IoResult → N).
(** The program: what the running task does next, and how it goes on after a suspended call. *)
Context {guest : Type}.
Context (guest_act : guest → VmState → TaskId → guest * Act).
Context (guest_resumed : guest → Outcome → guest).
Context (env : Choices).

Record Run := mkRun {
  run_driver : Driver;
  run_guest : guest;
  run_held : list (TaskId * TaskWakeup);
  run_ctx : ReplayCtx;
  run_clock : nat }.

Definition with_driver (d : Driver) (r : Run) : Run :=
  mkRun d (run_guest r) (run_held r) (run_ctx r) (run_clock r).
Definition with_guest (g : guest) (r : Run) : Run :=
  mkRun (run_driver r) g (run_held r) (run_ctx r) (run_clock r).
Definition with_held (h : list (TaskId * TaskWakeup)) (r : Run) : Run :=
  mkRun (run_driver r) (run_guest r) h (run_ctx r) (run_clock r).
Definition with_ctx (c : ReplayCtx) (r : Run) : Run :=
  mkRun (run_driver r) (run_guest r) (run_held r) c (run_clock r).
Definition tick (r : Run) : Run :=
  mkRun (run_driver r) (run_guest r) (run_held r) (run_ctx r) (S (run_clock r)).

Definition with_futures (fs : list Future) (d : Driver) : Driver :=
  mkDriver (d_vm d) (d_current d) fs (d_next_future d) (d_suspended d) (d_signal_sent d) (d_ended d).

(** What a future resolves to when it is polled to its end: an aborted operation is aborted,
    whatever it was about to return. *)
Definition wakeup_of (vm : VmState) (f : Future) : TaskWakeup :=
  match f_kind f with
  | FutIo => Io (if decide (f_id f ∈ aborted vm) then None else Some (io_result env (f_id f)))
  | FutDeadline target epoch => Deadline target epoch
  end.

(** [wake_event_for]. *)
Definition wake_event_for (w : TaskId * TaskWakeup) : WakeEvent :=
  match w.2 with
  | Io (Some result) => EIo w.1 false (hash_debug result)
  | Io None => EIo w.1 true 0
  | Deadline target epoch => EDeadline w.1 target epoch
  end.

(** [futures.next()]: the completion that lands next. *)
Definition next_completion (r : Run) : option (TaskId * TaskWakeup * Run) :=
  let d := run_driver r in
  let i := arrival env (run_clock r) mod length (d_futures d) in
  f ← d_futures d !! i;
  Some (f_task f, wakeup_of (d_vm d) f,
        tick (with_driver (with_futures (delete i (d_futures d)) d) r)).

(** [deliver], on the scheduler; [None] is a panic. *)
Definition deliver_wakeup (vm : VmState) (w : TaskId * TaskWakeup) : option VmState :=
  match w.2 with
  | Io result =>
      t ← get_task vm w.1;
      let t := set_t_abort None t in
      let t := match result with Some x => set_t_wake (Some (WIo x)) t | None => t end in
      Some (push_ready (put_task vm w.1 t) w.1)
  | Deadline target epoch => Some (deliver_deadline vm w.1 target epoch)
  end.

(** [deliver]: the one place deliveries enter the wake log. *)
Definition deliver_run (r : Run) (w : TaskId * TaskWakeup) : option Run :=
  vm ← deliver_wakeup (d_vm (run_driver r)) w;
  Some (with_ctx (log (run_ctx r) (wake_event_for w)) (with_driver (with_vm (run_driver r) vm) r)).

(** ** Replaying deliveries *)

(** What a divergence report says happened. *)
Inductive Divergence :=
| PickingBut (next : option WakeEvent)
| NotReady (want : nat)
| YieldingBut (next : option WakeEvent)
| Mismatch (idle : bool) (want : WakeEvent) (arrived : list WakeEvent)
| IdleBut (next : WakeEvent).

Inductive Stepped :=
| Next (r : Run)
| Diverged (r : Run) (what : Divergence) (report : Report)
| Ended
| Panics.

Definition diverges (r : Run) (what : Divergence) : Stepped :=
  let '(c, report) := divergence_msg (run_ctx r) in Diverged (with_ctx c r) what report.

(** Wait until a completion of the event [want] has landed; the others are held.  [fuel] is the
    number of futures in flight. *)
Fixpoint await_delivery (fuel : nat) (want : WakeEvent) (r : Run)
    : Run * option (TaskId * TaskWakeup) :=
  match list_find (λ w, wake_event_for w = want) (run_held r) with
  | Some (i, w) => (with_held (delete i (run_held r)) r, Some w)
  | None =>
      match fuel with
      | O => (r, None)
      | S fuel' =>
          match next_completion r with
          | None => (r, None)
          | Some (w, r) => await_delivery fuel' want (with_held (run_held r ++ [w]) r)
          end
      end
  end.

(** The events of the log a replay has not consumed. *)
Definition events_left (c : ReplayCtx) : list WakeEvent :=
  match replayer c with Some r => drop (rp_pos r) (rp_events r) | None => [] end.

(** Deliver what the log delivers here: [inl] is the end of the run, [inr] the run and whether
    anything was delivered.  [fuel] is the number of events left. *)
Fixpoint deliver_logged (fuel : nat) (idle delivered : bool) (r : Run) : Stepped + Run * bool :=
  match peek_delivery (run_ctx r) with
  | None => inr (r, delivered)
  | Some want =>
      match fuel with
      | O => inr (r, delivered)
      | S fuel' =>
          match await_delivery (length (d_futures (run_driver r))) want r with
          | (r, None) => inl (diverges r (Mismatch idle want (wake_event_for <$> run_held r)))
          | (r, Some w) =>
              match deliver_run (with_ctx (consume (run_ctx r)) r) w with
              | None => inl Panics
              | Some r => deliver_logged fuel' idle true r
              end
          end
      end
  end.

(** Live: deliver the completions that have landed, [n] of them. *)
Fixpoint drain (n : nat) (r : Run) : option Run :=
  match n with
  | O => Some r
  | S n' =>
      match next_completion r with
      | None => Some r
      | Some (w, r) => r ← deliver_run r w; drain n' r
      end
  end.

(** ** The loop *)

(** A task is picked from [ready]. *)
Definition pick (r : Run) (idx : nat) : Stepped :=
  match ready (d_vm (run_driver r)) !! idx,
        act start_block quoinerror_to_value stress (run_driver r) (Pick idx) with
  | Some tid, Some d => Next (with_ctx (log (run_ctx r) (EPick tid)) (with_driver d r))
  | _, _ => Panics
  end.

(** The wait for the next completion. *)
Definition idle_wait (r : Run) : Stepped :=
  match next_completion r with
  | None => Panics
  | Some (w, r) => match deliver_run r w with Some r => Next r | None => Panics end
  end.

(** Nothing is ready. *)
Definition idle_step (r : Run) : Stepped :=
  let d := run_driver r in
  if bool_decide (d_futures d = []) && bool_decide (run_held r = []) then
    match act start_block quoinerror_to_value stress d Stop with
    | Some d => Next (with_driver d r)
    | None => Panics
    end
  else if replaying (run_ctx r) then
    match deliver_logged (length (events_left (run_ctx r))) true false r with
    | inl s => s
    | inr (r, true) => Next r
    | inr (r, false) =>
        match peek (run_ctx r) with
        | Some e => diverges r (IdleBut e)
        | None => idle_wait r
        end
    end
  else idle_wait r.

(** No task is current. *)
Definition acquire_step (r : Run) : Stepped :=
  let q := ready (d_vm (run_driver r)) in
  if bool_decide (q = []) then idle_step r
  else if replaying (run_ctx r) then
    match expect_pick (run_ctx r) with
    | (c, inl report) => Diverged (with_ctx c r) (PickingBut (peek (run_ctx r))) report
    | (c, inr want) =>
        let r := with_ctx c r in
        match list_find (λ tid, tid = want) q with
        | Some (idx, _) => pick r idx
        | None => diverges r (NotReady want)
        end
    end
  else pick (tick r) (if stress then below env (run_clock r) (length q) else 0).

(** The running task [c] at a yield boundary: it goes on, or to the end of the queue. *)
Definition rotate (d : Driver) (c : TaskId) (preempt : bool) : option Driver :=
  if preempt then
    vm ← save_task_context (d_vm d) c;
    Some (yields d (push_ready vm c))
  else Some d.

Definition boundary_step (r : Run) (c : TaskId) : Stepped :=
  if replaying (run_ctx r) then
    match deliver_logged (length (events_left (run_ctx r))) false false r with
    | inl s => s
    | inr (r, _) =>
        match expect_rotate (run_ctx r) with
        | (ctx, inl report) => Diverged (with_ctx ctx r) (YieldingBut (peek (run_ctx r))) report
        | (ctx, inr preempt) =>
            match rotate (run_driver r) c preempt with
            | Some d => Next (with_ctx (log ctx (ERotate preempt)) (with_driver d r))
            | None => Panics
            end
        end
    end
  else
    match drain (polled env (run_clock r)) (tick r) with
    | None => Panics
    | Some r =>
        let preempt := stress || negb (bool_decide (ready (d_vm (run_driver r)) = [])) in
        match rotate (run_driver r) c preempt with
        | Some d => Next (with_ctx (log (run_ctx r) (ERotate preempt)) (with_driver d r))
        | None => Panics
        end
    end.

(** The running task [c] goes on. *)
Definition task_step (r : Run) (c : TaskId) : Stepped :=
  let d := run_driver r in
  match d_suspended d !! c with
  | Some k =>
      let '(d, o) := resume d c k in
      Next (with_guest (guest_resumed (run_guest r) o) (with_driver d r))
  | None =>
      let '(g, a) := guest_act (run_guest r) (d_vm d) c in
      let r := with_guest g r in
      match a with
      | Yield => boundary_step r c
      | a =>
          match task_act quoinerror_to_value stress d c a with
          | Some d => Next (with_driver d r)
          | None => Panics
          end
      end
  end.

Definition loop_step (r : Run) : Stepped :=
  match d_ended (run_driver r) with
  | Some _ => Ended
  | None =>
      match d_current (run_driver r) with
      | None => acquire_step r
      | Some c => task_step r c
      end
  end.

(** [n] rounds of the loop. *)
Fixpoint rounds (n : nat) (r : Run) : Stepped :=
  match n with
  | O => Next r
  | S n' => match loop_step r with Next r => rounds n' r | s => s end
  end.

(** The start of a run of the program. *)
Definition start_run (g : guest) (c : ReplayCtx) : Run := mkRun start_driver g [] c 0.

(** What the running task may do next: the acts of a task, within the preconditions of the
    scheduler's operations ([orderly]). *)
Definition guest_may (vm : VmState) (c : TaskId) (a : Act) : bool :=
  match a with
  | Pick _ | Deliver _ _ | Stop | Signal | Resume => false
  | WakeChannel _ _ w => channel_wake w
  | WakeGrant id w => channel_wake w && grant_live vm id
  | Join target => joinable vm c target
  | _ => true
  end.

(** The program keeps within them. *)
Definition well_behaved : Prop :=
  ∀ g vm c, guest_may vm c (guest_act g vm c).2 = true.

End loop.
