(* ===== verification/ReplaySim.v ===== *)
(** * A replay follows the recorded run

    The rounds of a live run, with the events they log; that no two futures in flight are for the
    same task and the same kind of wake; and the simulation: a replay forced by those events goes
    through the same states, whatever order its completions land in, or reports a divergence. *)
From stdpp Require Import base numbers list gmap strings.
From stdpp Require Import options.
From S2P Require Import Prelude Sched Driver SchedEffects SchedInv SchedProps SchedRuns Replay ReplayText ReplayLoop.
#[local] Set Default Proof Using "All".
#[local] Set Warnings "-clear-no-such-hyp".

(** ** The context of a replay that has consumed and logged [evs] *)

Definition replayed (c : ReplayCtx) (evs : list WakeEvent) : ReplayCtx :=
  mkCtx (ring (foldl log c evs)) (recorder (foldl log c evs))
    ((λ r, mkReplayer (rp_events r) (rp_pos r + length evs) (rp_index r) (rp_total r))
       <$> replayer c) (debug c) (diverged c).

Lemma log_view (c c' : ReplayCtx) evs :
  ring c = ring c' → recorder c = recorder c' →
  ring (foldl log c evs) = ring (foldl log c' evs)
  ∧ recorder (foldl log c evs) = recorder (foldl log c' evs).
Proof.
  revert c c'. induction evs as [|e evs IH]; intros c c' Hr Hc; [done|].
  simpl. apply IH; simpl; by rewrite ?Hr, ?Hc.
Qed.

Lemma replayed_nil c : replayed c [] = c.
Proof.
  unfold replayed. destruct c as [? ? [[]|] ? ?]; simpl; [|done]. by rewrite Nat.add_0_r.
Qed.

Lemma replayed_cons c e evs : replayed (log (consume c) e) evs = replayed c (e :: evs).
Proof.
  unfold replayed. destruct (log_view (log (consume c) e) (log c e) evs) as [-> ->]; [done..|].
  simpl. f_equal. destruct (replayer c); simpl; [|done]. do 2 f_equal. lia.
Qed.

Lemma replayed_app c evs evs' : replayed (replayed c evs) evs' = replayed c (evs ++ evs').
Proof.
  revert c. induction evs as [|e evs IH]; intros c; [by rewrite replayed_nil|].
  by rewrite <-!app_comm_cons, <-!replayed_cons.
Qed.

Lemma replayed_replaying c evs : replaying (replayed c evs) = replaying c.
Proof. unfold replaying, replayed. simpl. by destruct (replayer c). Qed.

Lemma left_replayed c evs : events_left (replayed c evs) = drop (length evs) (events_left c).
Proof.
  unfold events_left, replayed. simpl. destruct (replayer c); simpl; [|by rewrite drop_nil].
  by rewrite drop_drop.
Qed.

Lemma peek_left c : replaying c = true → peek c = head (events_left c).
Proof.
  unfold replaying, peek, events_left. destruct (replayer c) as [r|]; [|done]. intros _. simpl.
  unfold replayer_peek. by rewrite head_lookup, lookup_drop, Nat.add_0_r.
Qed.

(** No delivery comes next. *)
Definition no_delivery (evs : list WakeEvent) : Prop :=
  match evs with e :: _ => is_delivery e = false | [] => True end.

Section sim.
Context `{VmTypes}.
Context (start_block : Block → Context → Context).
Context (quoinerror_to_value : QuoinError → Value).
Context (stress : bool).
Context (hash_debug : IoResult → N).
Context {guest : Type}.
Context (guest_act : guest → VmState → TaskId → guest * Act).
Context (guest_resumed : guest → Outcome → guest).
(** What the recorded run and the replay meet. *)
Context (env1 env2 : Choices).

Abbreviation act := (act start_block quoinerror_to_value stress).
Abbreviation task_act := (task_act quoinerror_to_value stress).
Abbreviation enabled := (enabled stress).
Abbreviation Run := (Run (guest := guest)).
Abbreviation event := (wake_event_for hash_debug).
Abbreviation loop_step env :=
  (loop_step start_block quoinerror_to_value stress hash_debug guest_act guest_resumed env).
Abbreviation rounds env :=
  (rounds start_block quoinerror_to_value stress hash_debug guest_act guest_resumed env).
Implicit Types (d : Driver) (s r : Run).

(** ** Futures in flight *)

Definition key (f : Future) : TaskId * FutureKind := (f_task f, f_kind f).

Definition uniq d : Prop := NoDup (key <$> d_futures d).

(** The running task's acts only add futures, one at most and its own, and do not look at them. *)
Definition new_future (d' : Driver) (c : TaskId) (new : list Future) : Prop :=
  new = []
  ∨ ∃ f t', new = [f] ∧ f_task f = c ∧ get_task (d_vm d') c = Some t'
    ∧ (f_kind f = FutIo ∨ ∃ g, f_kind f = FutDeadline g (t_park_epoch t')).

Definition extends d d' (c : TaskId) (o : Driver → option Driver) : Prop :=
  ∃ new, d_futures d' = d_futures d ++ new ∧ new_future d' c new
  ∧ ∀ fs, o (with_futures fs d) = Some (with_futures (fs ++ new) d').

Lemma extends_same d d' c o :
  d_futures d' = d_futures d → (∀ fs, o (with_futures fs d) = Some (with_futures fs d')) →
  extends d d' c o.
Proof.
  intros Hf Ho. exists []. rewrite app_nil_r. split_and!; [done|by left|].
  intros fs. by rewrite app_nil_r.
Qed.

Lemma complete_futures d c result d' :
  complete_current_task quoinerror_to_value d c result = Some d' →
  extends d d' c (λ d, complete_current_task quoinerror_to_value d c result).
Proof.
  unfold complete_current_task. intros Hd. apply extends_same.
  - destruct (get_task (d_vm d) c) as [t|]; [|done]. simpl in Hd.
    destruct (t_parent t); [|destruct (t_handle t)];
      [apply fmap_Some in Hd as (? & _ & ->)..|injection Hd as <-]; done.
  - intros fs. simpl. destruct (get_task (d_vm d) c) as [t|]; [|done]. simpl in *.
    destruct (t_parent t); [|destruct (t_handle t)];
      [apply fmap_Some in Hd as (? & -> & ->)..|injection Hd as <-]; done.
Qed.

Lemma task_act_futures d c a d' :
  task_act d c a = Some d' → extends d d' c (λ d, task_act d c a).
Proof.
  destruct a; simpl.
  all: try (intros [= <-]; by apply extends_same).
  - case_match eqn:E; [|intros [= <-]; apply extends_same; [done|intros fs; simpl; by rewrite E]].
    destruct (save_task_context _ _) eqn:E1; [|done]. intros [= <-]. apply extends_same; [done|].
    intros fs. simpl. by rewrite E, E1.
  - destruct (save_task_context _ _) as [vm|] eqn:E1; [|done]. simpl.
    destruct (get_task vm c) as [t|] eqn:Et; [|done]. simpl. intros [= <-].
    eexists. split; [done|]. split.
    + right. eexists _, _. split_and!; [done|done| |by left]. simpl.
      by rewrite (get_put _ _ _ _ _ Et), decide_True.
    + intros fs. simpl. rewrite E1. simpl. by rewrite Et.
  - intros (vm & E & ->)%fmap_Some. apply extends_same; [done|]. intros fs. simpl. by rewrite E.
  - destruct (get_task (d_vm d) target) eqn:E.
    + destruct (register_join _ _) as [vm1|] eqn:E1; [|done]. simpl.
      destruct (save_task_context _ _) eqn:E2; [|done]. intros [= <-].
      apply extends_same; [done|]. intros fs. simpl. rewrite E, E1. simpl. by rewrite E2.
    + intros [= <-]. apply extends_same; [done|]. intros fs. simpl. by rewrite E.
  - destruct (spawn_detached_id _ _) as [vm0 id] eqn:E.
    destruct (register_join _ _) as [vm1|] eqn:E1; [|done]. simpl.
    destruct (save_task_context _ _) as [vm2|] eqn:E2; [|done]. simpl.
    destruct (get_task vm2 c) as [t|] eqn:Et; [|done]. simpl. intros [= <-].
    eexists. split; [done|]. split.
    + right. eexists _, _. split_and!;
        [done|done|simpl; by rewrite (get_put _ _ _ _ _ Et), decide_True|right; by eexists].
    + intros fs. simpl. rewrite E, E1. simpl. rewrite E2. simpl. by rewrite Et.
  - destruct (save_task_context _ _) eqn:E; [|done]. intros [= <-]. apply extends_same; [done|].
    intros fs. simpl. by rewrite E.
  - apply complete_futures.
Qed.

(** The two invariants of a run. *)
Definition binv d : Prop := inv d ∧ uniq d.

Lemma task_act_binv d c a d' :
  binv d → d_current d = Some c → enabled d a = true →
  orderly (d_vm d) (Some c) a = true → (a = Resume → False) →
  task_act d c a = Some d' → binv d'.
Proof.
  intros [Hinv Huniq] Hc Hen Hor Hnr Hact.
  destruct (task_act_inv start_block quoinerror_to_value stress d c a Hinv Hc Hen Hnr) as (d1 & Hact' & Hinv').
  rewrite Hact in Hact'. injection Hact' as <-. split; [by apply Hinv'|].
  pose proof (su_running _ (inv_suspensions _ Hinv) _ Hc) as Hcur.
  destruct (task_act_futures d c a d' Hact) as (new & Hf & Hnew & _).
  unfold uniq. rewrite Hf, fmap_app. destruct Hnew as [->|(f & t' & -> & Hft & Ht' & Hk)].
  { by rewrite app_nil_r. }
  apply NoDup_app. split_and!; [done| |apply NoDup_singleton].
  intros k Hin Hk'%list_elem_of_singleton. subst k.
  apply list_elem_of_fmap in Hin as (f' & Hkey & Hf'). injection Hkey as Ht1 Hk1.
  destruct Hk as [Hio|[g Hg]].
  - destruct (current_not_runnable d c Hinv Hc) as [_ Hno]. apply Hno.
    replace c with (f_task f') by congruence. apply elem_of_io_owners; congruence.
  - destruct (su_deadline _ (inv_suspensions _ Hinv) f' g (t_park_epoch t')) as [[Hpos _] Hdl];
      [done|congruence|].
    destruct (op_epoch _ _ _ (op_task_act start_block quoinerror_to_value stress d c a d' Hcur Hact) c t' Ht')
      as [?|(t & Ht & He)]; [lia|].
    destruct (Hdl t) as [Hne _]; [congruence..|]. apply Hne. congruence.
Qed.

Lemma act_binv d a d' :
  binv d → enabled d a = true → orderly (d_vm d) (d_current d) a = true →
  act d a = Some d' → binv d'.
Proof.
  intros [Hinv Huniq] Hen Hor Hact.
  destruct (act_inv start_block quoinerror_to_value stress d a Hinv Hen) as (d1 & Hact' & Hinv').
  rewrite Hact in Hact'. injection Hact' as <-. specialize (Hinv' Hor).
  assert (Hsame : d_futures d' = d_futures d → binv d').
  { intros Hf. split; [done|]. unfold uniq. by rewrite Hf. }
  destruct (d_current d) as [c|] eqn:Hc.
  - assert (Htask : act d a = task_act d c a → (a = Resume → False) → binv d').
    { intros E Hnr. apply (task_act_binv d c a d'); [by split|done|done|done|done|by rewrite <-E]. }
    unfold enabled, Driver.enabled in Hen. rewrite Hc in Hen. apply andb_prop in Hen as [_ Hen].
    destruct a; try done; try (apply Htask; [simpl; by rewrite Hc|done]); simpl in Hact.
    + destruct (d_futures d !! i) as [f|] eqn:Hf; [|done]. simpl in Hact.
      destruct (deliver (d_vm d) f r); [|done]. injection Hact as <-. split; [done|].
      unfold uniq in *. simpl. rewrite list_fmap_delete. by eapply sublist_NoDup, sublist_delete.
    + injection Hact as <-. by apply Hsame.
    + rewrite Hc in Hact. destruct (d_suspended d !! c); [|by injection Hact as <-].
      injection Hact as <-. apply Hsame. unfold resume. by destruct (resumed _ _).
  - unfold enabled, Driver.enabled in Hen. rewrite Hc in Hen. apply andb_prop in Hen as [_ Hen].
    destruct a; try done; simpl in Hact.
    + destruct (ready (d_vm d) !! idx); [|done]. simpl in Hact.
      destruct (load_task_context start_block _ _); [|done]. injection Hact as <-. by apply Hsame.
    + destruct (d_futures d !! i) as [f|] eqn:Hf; [|done]. simpl in Hact.
      destruct (deliver (d_vm d) f r); [|done]. injection Hact as <-. split; [done|].
      unfold uniq in *. simpl. rewrite list_fmap_delete. by eapply sublist_NoDup, sublist_delete.
    + injection Hact as <-. by apply Hsame.
    + injection Hact as <-. by apply Hsame.
Qed.

(** ** Deliveries of a live run *)

Lemma deliver_wakeup_of env vm f :
  deliver vm f (io_result env (f_id f)) = deliver_wakeup vm (f_task f, wakeup_of env vm f).
Proof.
  unfold deliver, deliver_wakeup, wakeup_of. destruct (f_kind f); [|done]. simpl.
  destruct (get_task vm (f_task f)); [|done]. simpl. by case_decide.
Qed.

Lemma event_delivery w : is_delivery (event w) = true.
Proof. destruct w as [tid [[]|]]; done. Qed.

(** A delivery, taken apart. *)
Lemma delivery_effect env s w s1 s2 :
  next_completion env s = Some (w, s1) → deliver_run hash_debug s1 w = Some s2 →
  ∃ i f vm, d_futures (run_driver s) !! i = Some f
  ∧ w = (f_task f, wakeup_of env (d_vm (run_driver s)) f)
  ∧ deliver_wakeup (d_vm (run_driver s)) w = Some vm
  ∧ run_driver s2 = with_vm (with_futures (delete i (d_futures (run_driver s))) (run_driver s)) vm
  ∧ run_guest s2 = run_guest s ∧ run_held s2 = run_held s
  ∧ run_ctx s2 = log (run_ctx s) (event w)
  ∧ act (run_driver s) (Deliver i (io_result env (f_id f))) = Some (run_driver s2).
Proof.
  unfold next_completion. set (i := _ mod _).
  destruct (d_futures (run_driver s) !! i) as [f|] eqn:Hf; [|done]. simpl. intros [= <- <-].
  unfold deliver_run. simpl.
  destruct (deliver_wakeup (d_vm (run_driver s)) _) as [vm|] eqn:Hd; [|done]. simpl.
  intros [= <-]. exists i, f, vm. split_and!; try done. simpl. rewrite Hf. simpl.
  by rewrite deliver_wakeup_of, Hd.
Qed.

(** Whether completions may land: the scheduler is idle, or the running task is at a boundary. *)
Definition may_land d : Prop :=
  d_ended d = None
  ∧ match d_current d with
    | None => ready (d_vm d) = []
    | Some c => d_suspended d !! c = None
    end.

(** Deliveries, with the events they log. *)
Inductive delivers : Run → list WakeEvent → Run → Prop :=
| delivers_nil s : delivers s [] s
| delivers_cons s w s1 s2 evs s3 :
    may_land (run_driver s) → next_completion env1 s = Some (w, s1) →
    deliver_run hash_debug s1 w = Some s2 → delivers s2 evs s3 → delivers s (event w :: evs) s3.

Lemma delivery_binv env s w s1 s2 :
  binv (run_driver s) → may_land (run_driver s) →
  next_completion env s = Some (w, s1) → deliver_run hash_debug s1 w = Some s2 →
  binv (run_driver s2).
Proof.
  intros Hb [He Hl] Hn Hd.
  destruct (delivery_effect _ _ _ _ _ Hn Hd) as (i & f & vm & Hf & _ & _ & _ & _ & _ & _ & Hact).
  eapply act_binv; [done| | |exact Hact]; [|done]. unfold enabled, Driver.enabled.
  rewrite bool_decide_eq_true_2 by done. simpl.
  assert (bool_decide (i < length (d_futures (run_driver s))) = true) as ->
    by (apply bool_decide_eq_true; by eapply lookup_lt_Some).
  destruct (d_current (run_driver s)); by rewrite bool_decide_eq_true_2.
Qed.

(** ** What a replay holds back *)

(** The result an operation returns in the replay has the fingerprint of the recorded one only
    if it is that result. *)
Definition no_collision : Prop :=
  ∀ id, hash_debug (io_result env1 id) = hash_debug (io_result env2 id) →
        io_result env1 id = io_result env2 id.

Definition unaborted (e : WakeEvent) : Prop :=
  match e with EIo _ true _ => False | _ => True end.

(** The replay meets the recorded results, and the log has no operation that was aborted. *)
Definition cooperative (evs : list WakeEvent) : Prop :=
  (∀ id, io_result env1 id = io_result env2 id) ∧ Forall unaborted evs.

(** The completion [w] of the future [f] landed in the replay, now or earlier. *)
Definition came_from (vm : VmState) (f : Future) (w : TaskId * TaskWakeup) : Prop :=
  w.1 = f_task f
  ∧ match f_kind f with
    | FutIo => (w.2 = Io None ∧ f_id f ∈ aborted vm) ∨ w.2 = Io (Some (io_result env2 (f_id f)))
    | FutDeadline g e => w.2 = Deadline g e
    end.

(** The futures of the replay: some in flight, the others landed and held back. *)
Definition agree d (fsr : list Future) (held : list (TaskId * TaskWakeup)) : Prop :=
  ∃ fs, d_futures d ≡ₚ fsr ++ fs ∧ Forall2 (came_from (d_vm d)) fs held.

Lemma came_from_now vm f : came_from vm f (f_task f, wakeup_of env2 vm f).
Proof.
  split; [done|]. unfold wakeup_of. destruct (f_kind f); [|done]. simpl. case_decide; auto.
Qed.

Lemma came_from_mono vm vm' f w :
  aborted vm ⊆ aborted vm' → came_from vm f w → came_from vm' f w.
Proof.
  intros Ha [Ht Hw]. split; [done|]. destruct (f_kind f); [|done].
  destruct Hw as [[? ?]|?]; [left; set_solver|by right].
Qed.

Lemma held_key vm f f' w w' :
  came_from vm f w → w' = (f_task f', wakeup_of env1 vm f') → event w = event w' → key f = key f'.
Proof.
  destruct w as [tid x]. intros [Ht Hw] -> He. simpl in *. subst tid. unfold key, wakeup_of in *.
  unfold wake_event_for in He.
  destruct (f_kind f) as [|g e], (f_kind f') as [|g' e']; simpl in *.
  - destruct Hw as [[-> _]| ->], (decide _); simpl in He; congruence.
  - destruct Hw as [[-> _]| ->]; done.
  - subst x. by destruct (decide _).
  - subst x. congruence.
Qed.

(** A completion that looks the same is the same. *)
Lemma held_same vm f w :
  no_collision → came_from vm f w →
  event w = event (f_task f, wakeup_of env1 vm f) → w = (f_task f, wakeup_of env1 vm f).
Proof.
  intros Hnc [Ht Hw] He. destruct w as [tid x]. simpl in *. subst tid. f_equal.
  unfold wakeup_of in *. destruct (f_kind f); [|done].
  unfold wake_event_for in He. simpl in He.
  destruct Hw as [[-> Ha]| ->]; case_decide; try done. injection He as He.
  by rewrite Hnc.
Qed.

(** One that looks different is of an operation that was aborted, or returned another result. *)
Lemma held_differs vm f w :
  came_from vm f w → event w ≠ event (f_task f, wakeup_of env1 vm f) →
  ¬ cooperative [event (f_task f, wakeup_of env1 vm f)].
Proof.
  intros [Ht Hw] Hne [Hres [Hab _]%Forall_cons]. apply Hne. destruct w as [tid x]. simpl in *.
  subst tid. unfold wakeup_of in *. destruct (f_kind f); [|by rewrite Hw].
  unfold wake_event_for in *. simpl in *. case_decide; [done|].
  destruct Hw as [[-> Ha]| ->]; [done|]. by rewrite Hres.
Qed.

Lemma uniq_key d f f' :
  uniq d → f ∈ d_futures d → f' ∈ d_futures d → key f = key f' → f = f'.
Proof.
  intros Hu [i Hi]%list_elem_of_lookup [j Hj]%list_elem_of_lookup Hk.
  assert (i = j) as ->; [|congruence].
  eapply NoDup_lookup; [exact Hu|by rewrite list_lookup_fmap, Hi|].
  rewrite list_lookup_fmap, Hj. simpl. congruence.
Qed.

Section await.
Context (d : Driver) (f : Future) (Hnc : no_collision) (Hu : uniq d) (Hf : f ∈ d_futures d).

Abbreviation landed := (f_task f, wakeup_of env1 (d_vm d) f).
Abbreviation await n r := (await_delivery (guest := guest) hash_debug env2 n (event landed) r).

(** Found among the completions held back. *)
Lemma await_found fsr held i w :
  agree d fsr held → held !! i = Some w → event w = event landed →
  w = landed ∧ ∃ fs', d_futures d ≡ₚ f :: fsr ++ fs' ∧ Forall2 (came_from (d_vm d)) fs' (delete i held).
Proof.
  intros (fs & Hp & Hall) Hi He.
  destruct (Forall2_lookup_r _ _ _ _ _ Hall Hi) as (f' & Hfi & Hcf).
  assert (f' = f) as ->.
  { apply (uniq_key d); [done| |done|by eapply held_key].
    rewrite Hp. apply elem_of_app. right. by eapply list_elem_of_lookup_2. }
  split; [by eapply held_same|]. exists (delete i fs). split.
  - rewrite Hp, (delete_Permutation fs i f) at 1 by done. by rewrite Permutation_middle.
  - by apply Forall2_delete.
Qed.

(** With nothing in flight, what is awaited has landed. *)
Lemma await_lost held :
  agree d [] held → (∀ w, w ∈ held → event w ≠ event landed) → ¬ cooperative [event landed].
Proof.
  intros (fs & Hp & Hall) Hno. simpl in Hp.
  assert (f ∈ fs) as [i Hi]%list_elem_of_lookup by (by rewrite <-Hp).
  destruct (Forall2_lookup_l _ _ _ _ _ Hall Hi) as (w & Hw & Hcf).
  eapply held_differs; [done|]. apply Hno. by eapply list_elem_of_lookup_2.
Qed.

(** Waiting for a delivery of the recorded run gives that delivery, whatever lands first. *)
Lemma await_follows n : ∀ fsr (g : guest) held c k,
  n = length fsr → agree d fsr held →
  match await n (mkRun (with_futures fsr d) g held c k) with
  | (r, Some w) =>
      w = landed ∧ ∃ fsr' fs' held' k', r = mkRun (with_futures fsr' d) g held' c k'
      ∧ d_futures d ≡ₚ f :: fsr' ++ fs' ∧ Forall2 (came_from (d_vm d)) fs' held'
  | (_, None) => ¬ cooperative [event landed]
  end.
Proof.
  induction n as [|n IH]; intros fsr g held c k Hn Hag; cbn [await_delivery run_held].
  all: destruct (list_find _ held) as [[i w]|] eqn:Hfind;
    [apply list_find_Some in Hfind as (Hi & He & _);
     destruct (await_found _ _ _ _ Hag Hi He) as (-> & fs' & ? & ?);
     split; [done|]; by eexists _, _, _, _|].
  all: apply list_find_None in Hfind; rewrite Forall_forall in Hfind.
  - destruct fsr; [|done]. by eapply await_lost.
  - unfold next_completion. cbn [run_driver run_clock with_futures d_futures d_vm].
    assert (arrival env2 k mod length fsr < length fsr) as Hlt by (apply Nat.mod_upper_bound; lia).
    destruct (lookup_lt_is_Some_2 _ _ Hlt) as [f' Hf']. rewrite Hf'. simpl.
    apply IH; [rewrite length_delete by done; lia|].
    destruct Hag as (fs & Hp & Hall). exists (fs ++ [f']). split.
    + rewrite Hp, (delete_Permutation fsr _ f' Hf') at 1. simpl.
      by rewrite app_assoc, Permutation_cons_append.
    + apply Forall2_app; [done|]. constructor; [apply came_from_now|constructor].
Qed.
End await.

(** ** Deliveries *)

(** The replay [r] is where the recorded run is in [s]. *)
Inductive matches : Run → Run → Prop :=
| matches_intro d g fsr held c k c' k' :
    agree d fsr held → matches (mkRun d g [] c k) (mkRun (with_futures fsr d) g held c' k').

Lemma delivery_follows s w s1 s2 r :
  no_collision → uniq (run_driver s) →
  next_completion env1 s = Some (w, s1) → deliver_run hash_debug s1 w = Some s2 → matches s r →
  match await_delivery hash_debug env2 (length (d_futures (run_driver r))) (event w) r with
  | (r1, Some w') =>
      ∃ r2, deliver_run hash_debug (with_ctx (consume (run_ctx r1)) r1) w' = Some r2
      ∧ matches s2 r2 ∧ run_ctx r2 = replayed (run_ctx r) [event w]
  | (_, None) => ¬ cooperative [event w]
  end.
Proof.
  intros Hnc Hu Hn Hd Hm.
  destruct (delivery_effect _ _ _ _ _ Hn Hd)
    as (i & f & vm & Hf & -> & Hdel & Hdrv & Hg & Hheld & _ & _).
  destruct Hm as [d g fsr held c k c' k' Hag]. simpl in *.
  pose proof (await_follows d f Hnc Hu (list_elem_of_lookup_2 _ _ _ Hf) (length fsr) fsr g held c' k'
                eq_refl Hag) as Haw.
  destruct (await_delivery _ _ _ _ _) as [r1 [w'|]]; [|done].
  destruct Haw as (-> & fsr' & fs' & held' & k1 & -> & Hp & Hall).
  unfold deliver_run. simpl. rewrite Hdel. simpl. eexists. split; [done|].
  split; [|by rewrite <-replayed_cons, replayed_nil].
  destruct s2 as [d2 g2 h2 c2 k2]. simpl in *. subst.
  apply (matches_intro (with_vm (with_futures (delete i (d_futures d)) d) vm) g fsr' held').
  exists fs'. split.
  - simpl. rewrite (delete_Permutation _ _ _ Hf) in Hp. by apply Permutation_cons_inv in Hp.
  - eapply Forall2_impl; [exact Hall|]. intros f' w'. apply came_from_mono. simpl.
    rewrite <-deliver_wakeup_of in Hdel. by apply (op_deliver None), op_aborted in Hdel.
Qed.

Lemma deliveries_follow s evs s' :
  no_collision → delivers s evs s' → ∀ r rest fuel idle b,
  binv (run_driver s) → matches s r → replaying (run_ctx r) = true →
  events_left (run_ctx r) = evs ++ rest → no_delivery rest → length evs ≤ fuel →
  (∃ r', deliver_logged hash_debug env2 fuel idle b r
         = inr (r', b || match evs with [] => false | _ => true end)
   ∧ matches s' r' ∧ run_ctx r' = replayed (run_ctx r) evs)
  ∨ ((∃ x w rep, deliver_logged hash_debug env2 fuel idle b r = inl (Diverged x w rep))
     ∧ ¬ cooperative evs).
Proof.
  intros Hnc Hds. induction Hds as [s|s w s1 s2 evs s3 Hl Hn Hd Hds IH];
    intros r rest fuel idle b Hb Hm Hr Hleft Hrest Hfuel.
  - left. exists r. rewrite replayed_nil, orb_false_r. split_and!; [|done..].
    assert (peek_delivery (run_ctx r) = None) as Hp.
    { unfold peek_delivery. rewrite peek_left, Hleft by done.
      destruct rest as [|e rest]; simpl in *; [done|by rewrite Hrest]. }
    destruct fuel; simpl; by rewrite Hp.
  - destruct fuel as [|fuel]; [simpl in Hfuel; lia|].
    assert (peek_delivery (run_ctx r) = Some (event w)) as Hp.
    { unfold peek_delivery. rewrite peek_left, Hleft by done. simpl. by rewrite event_delivery. }
    cbn [deliver_logged]. rewrite Hp.
    pose proof (delivery_follows s w s1 s2 r Hnc (proj2 Hb) Hn Hd Hm) as Hfol.
    destruct (await_delivery _ _ _ _ _) as [r1 [w'|]].
    + destruct Hfol as (r2 & -> & Hm2 & Hc2).
      destruct (IH r2 rest fuel idle true) as [(r' & -> & Hm' & Hc')|[Hdiv Hco]].
      * by eapply delivery_binv.
      * done.
      * by rewrite Hc2, replayed_replaying.
      * by rewrite Hc2, left_replayed, Hleft.
      * done.
      * simpl in Hfuel. lia.
      * left. exists r'. rewrite orb_true_r.
        split_and!; [done..|]. by rewrite Hc', Hc2, replayed_app.
      * right. split; [done|]. intros [? [_ ?]%Forall_cons]. apply Hco. by split.
    + right. split; [|intros [? [? _]%Forall_cons]; apply Hfol; split; [done|by constructor]].
      unfold diverges. destruct (divergence_msg _). eauto.
Qed.

(** ** Rounds of a live run *)

(** A round, and the events it logs. *)
Inductive live_step : Run → list WakeEvent → Run → Prop :=
| live_pick d g c k k' idx tid d' :
    d_ended d = None → d_current d = None → ready (d_vm d) !! idx = Some tid →
    act d (Pick idx) = Some d' →
    live_step (mkRun d g [] c k) [EPick tid] (mkRun d' g [] (log c (EPick tid)) k')
| live_stop d g c k d' :
    d_ended d = None → d_current d = None → ready (d_vm d) = [] → d_futures d = [] →
    act d Stop = Some d' → live_step (mkRun d g [] c k) [] (mkRun d' g [] c k)
| live_idle s w s1 s2 :
    run_held s = [] → d_current (run_driver s) = None → may_land (run_driver s) →
    next_completion env1 s = Some (w, s1) → deliver_run hash_debug s1 w = Some s2 →
    live_step s [event w] s2
| live_resume d g c k cur kind :
    d_ended d = None → d_current d = Some cur → d_suspended d !! cur = Some kind →
    live_step (mkRun d g [] c k) []
      (mkRun (resume d cur kind).1 (guest_resumed g (resume d cur kind).2) [] c k)
| live_task d g c k cur g' a d' :
    d_ended d = None → d_current d = Some cur → d_suspended d !! cur = None →
    guest_act g (d_vm d) cur = (g', a) → a ≠ Yield → task_act d cur a = Some d' →
    live_step (mkRun d g [] c k) [] (mkRun d' g' [] c k)
| live_boundary d g c k k1 cur g' s1 evs d' preempt k2 :
    d_ended d = None → d_current d = Some cur → d_suspended d !! cur = None →
    guest_act g (d_vm d) cur = (g', Yield) → delivers (mkRun d g' [] c k1) evs s1 →
    rotate (run_driver s1) cur preempt = Some d' →
    live_step (mkRun d g [] c k) (evs ++ [ERotate preempt])
      (mkRun d' (run_guest s1) [] (log (run_ctx s1) (ERotate preempt)) k2).

(** What a round keeps. *)
Definition kept (s : Run) (evs : list WakeEvent) (s' : Run) : Prop :=
  binv (run_driver s') ∧ run_held s' = [] ∧ run_ctx s' = foldl log (run_ctx s) evs.

Lemma drain_delivers n s s' :
  binv (run_driver s) → run_held s = [] → may_land (run_driver s) →
  is_Some (d_current (run_driver s)) → drain hash_debug env1 n s = Some s' →
  ∃ evs, delivers s evs s' ∧ kept s evs s' ∧ run_guest s' = run_guest s
  ∧ may_land (run_driver s') ∧ d_current (run_driver s') = d_current (run_driver s).
Proof.
  revert s. induction n as [|n IH]; intros s Hb Hh Hl Hc; simpl.
  { intros [= <-]. exists []. split; [constructor|]. by split_and!. }
  destruct (next_completion env1 s) as [[w s1]|] eqn:Hn;
    [|intros [= <-]; exists []; split; [constructor|by split_and!]].
  destruct (deliver_run hash_debug s1 w) as [s2|] eqn:Hd; [|done]. simpl. intros Hdr.
  destruct (delivery_effect _ _ _ _ _ Hn Hd) as (i & f & vm & _ & _ & _ & Hdrv & Hg & Hheld & Hctx & _).
  pose proof (delivery_binv _ _ _ _ _ Hb Hl Hn Hd) as Hb2.
  assert (may_land (run_driver s2)) as Hl2.
  { destruct Hl as [He Hl]. rewrite Hdrv. split; [done|]. simpl.
    destruct Hc as [cur Hcur]. by rewrite Hcur in *. }
  destruct (IH s2) as (evs & Hds & (Hb' & Hh' & Hc') & Hg' & Hl' & Hcur'); [done| |done| |done|].
  - by rewrite Hheld.
  - by rewrite Hdrv.
  - exists (event w :: evs). split; [by econstructor|]. split_and!; try done.
    + split_and!; [done..|]. by rewrite Hc', Hctx.
    + by rewrite Hg', Hg.
    + by rewrite Hcur', Hdrv.
Qed.

Lemma rotate_yield d cur :
  task_act d cur Yield = rotate d cur (stress || negb (bool_decide (ready (d_vm d) = []))).
Proof. done. Qed.

Section live.
Context (Hwb : well_behaved guest_act).

(** What the running task does is allowed. *)
Lemma guest_enabled d cur g g' a :
  d_ended d = None → d_current d = Some cur → d_suspended d !! cur = None →
  guest_act g (d_vm d) cur = (g', a) →
  enabled d a = true ∧ orderly (d_vm d) (Some cur) a = true ∧ (a = Resume → False).
Proof.
  intros He Hc Hs Ha. pose proof (Hwb g (d_vm d) cur) as Hm. rewrite Ha in Hm. simpl in Hm.
  unfold enabled, Driver.enabled. rewrite bool_decide_eq_true_2 by done. simpl.
  destruct a; try done; rewrite Hc, bool_decide_eq_true_2 by done; try done.
  by apply andb_true_iff in Hm as [-> Hm].
Qed.

Lemma task_step_live s s' cur :
  replaying (run_ctx s) = false → run_held s = [] → binv (run_driver s) →
  d_ended (run_driver s) = None → d_current (run_driver s) = Some cur →
  task_step quoinerror_to_value stress hash_debug guest_act guest_resumed env1 s cur = Next s' →
  ∃ evs, live_step s evs s' ∧ kept s evs s'.
Proof.
  destruct s as [d g h c k]. simpl. intros Hr -> Hb He Hc. unfold task_step. simpl.
  destruct (d_suspended d !! cur) as [kind|] eqn:Hs.
  - destruct (resume d cur kind) as [d' o] eqn:Hres. intros [= <-]. exists []. split.
    + pose proof (live_resume d g c k cur kind He Hc Hs) as Hl. by rewrite Hres in Hl.
    + split_and!; [|done..]. simpl. eapply (act_binv d Resume); [done| |done|].
      * unfold enabled, Driver.enabled. by rewrite He, Hc, Hs.
      * simpl. by rewrite Hc, Hs, Hres.
  - destruct (guest_act g (d_vm d) cur) as [g' a] eqn:Ha.
    destruct (guest_enabled d cur g g' a He Hc Hs Ha) as (Hen & Hor & Hnr).
    assert (a = Yield ∨ a ≠ Yield) as [->|Hny] by (destruct a; auto).
    + unfold boundary_step, with_guest, tick. simpl. rewrite Hr.
      destruct (drain _ _ _ _) as [s1|] eqn:Hdr; [|done].
      apply drain_delivers in Hdr as (evs & Hds & (Hb1 & Hh1 & Hc1) & Hg1 & [He1 Hl1] & Hcur1);
        [|done|done|split; [done|simpl; by rewrite Hc]|simpl; by rewrite Hc].
      simpl in Hcur1. rewrite Hcur1, Hc in Hl1.
      destruct (rotate (run_driver s1) cur _) as [d'|] eqn:Hrot; [|done].
      intros [= <-]. exists (evs ++ [ERotate (stress || negb (bool_decide (ready (d_vm (run_driver s1)) = [])))]).
      unfold with_ctx, with_driver. simpl. rewrite Hh1. split; [by econstructor|].
      split_and!; [|done|simpl; rewrite foldl_app; by rewrite Hc1].
      simpl. rewrite <-rotate_yield in Hrot.
      apply (task_act_binv (run_driver s1) cur Yield); [done|by rewrite Hcur1| |done|done|done].
      unfold enabled, Driver.enabled. rewrite He1, Hcur1, Hc. simpl. by rewrite bool_decide_eq_true_2.
    + intros Hx.
      assert (match task_act d cur a with
              | Some d' => Next (with_driver d' (with_guest g' (mkRun d g [] c k)))
              | None => Panics
              end = Next s') as Hx' by (by destruct a).
      destruct (task_act d cur a) as [d'|] eqn:Hact; [|done]. injection Hx' as <-.
      exists []. split; [by eapply live_task|]. split_and!; [|done..].
      by apply (task_act_binv d cur a).
Qed.

Lemma loop_step_live s s' :
  replaying (run_ctx s) = false → run_held s = [] → binv (run_driver s) →
  loop_step env1 s = Next s' → ∃ evs, live_step s evs s' ∧ kept s evs s'.
Proof.
  intros Hr Hh Hb. unfold ReplayLoop.loop_step.
  destruct (d_ended (run_driver s)) eqn:He; [done|].
  destruct (d_current (run_driver s)) as [cur|] eqn:Hc; [by apply task_step_live|].
  unfold acquire_step. rewrite Hr. case_bool_decide as Hq.
  - unfold idle_step. rewrite Hr, Hh, (bool_decide_eq_true_2 ([] = [])), andb_true_r by done.
    case_bool_decide as Hf.
    + destruct (act (run_driver s) Stop) as [d'|] eqn:Hact; [|done]. intros [= <-].
      exists []. destruct s as [d g h c k]. simpl in *. subst h. split; [by apply live_stop|].
      split_and!; [|done..]. eapply (act_binv d Stop); [done| |done|done].
      unfold enabled, Driver.enabled. rewrite He, Hc, Hq, Hf. done.
    + unfold idle_wait. destruct (next_completion env1 s) as [[w s1]|] eqn:Hn; [|done].
      destruct (deliver_run hash_debug s1 w) as [s2|] eqn:Hd; [|done]. intros [= <-].
      assert (may_land (run_driver s)) as Hl by (split; [done|by rewrite Hc]).
      exists [event w]. split; [by eapply live_idle|].
      destruct (delivery_effect _ _ _ _ _ Hn Hd) as (? & ? & ? & _ & _ & _ & _ & _ & Hheld & Hctx & _).
      split_and!; [by eapply delivery_binv|by rewrite Hheld|by rewrite Hctx].
  - unfold pick. destruct s as [d g h c k]. simpl in *. subst h.
    set (idx := if stress then _ else _).
    assert (stress || Nat.eqb idx 0 = true) as Hidx by (subst idx; by destruct stress).
    destruct (ready (d_vm d) !! idx) as [tid|] eqn:Hi; [|done].
    match goal with |- context [match ?o with Some _ => Next _ | None => _ end] =>
      destruct o as [d'|] eqn:Hact end; [|done].
    intros [= <-]. exists [EPick tid].
    assert (act d (Pick idx) = Some d') as Hact' by (simpl; by rewrite Hi).
    split; [by eapply live_pick|]. split_and!; [|done..].
    eapply (act_binv d (Pick idx)); [done| |done|done].
    unfold enabled, Driver.enabled. rewrite He, Hc, Hidx.
    rewrite (bool_decide_eq_true_2 (idx < _)); [done|]. by eapply lookup_lt_Some.
Qed.

(** Rounds, with their events. *)
Inductive live_steps : nat → Run → list WakeEvent → Run → Prop :=
| live_steps_0 s : live_steps 0 s [] s
| live_steps_S n s evs1 s1 evs2 s2 :
    binv (run_driver s) → live_step s evs1 s1 → live_steps n s1 evs2 s2 →
    live_steps (S n) s (evs1 ++ evs2) s2.

Lemma rounds_live n : ∀ s s',
  replaying (run_ctx s) = false → run_held s = [] → binv (run_driver s) →
  rounds env1 n s = Next s' → ∃ evs, live_steps n s evs s' ∧ run_ctx s' = foldl log (run_ctx s) evs.
Proof.
  induction n as [|n IH]; intros s s' Hr Hh Hb; simpl.
  { intros [= <-]. exists []. split; [constructor|done]. }
  destruct (loop_step env1 s) as [s1| | |] eqn:Hs; try done. intros Hn.
  destruct (loop_step_live s s1 Hr Hh Hb Hs) as (evs1 & Hstep & Hb1 & Hh1 & Hc1).
  destruct (IH s1 s') as (evs2 & Hsteps & Hc2); try done.
  { unfold replaying in *. by rewrite Hc1, log_replayer. }
  exists (evs1 ++ evs2). split; [by econstructor|]. by rewrite foldl_app, <-Hc1.
Qed.
End live.

(** ** Following the recorded run *)

Lemma live_not_ended s evs s' : live_step s evs s' → d_ended (run_driver s) = None.
Proof. destruct 1; simpl in *; try done. by destruct H2. Qed.

Lemma ended_stops n s evs s' :
  is_Some (d_ended (run_driver s)) → live_steps n s evs s' → n = 0 ∧ evs = [] ∧ s' = s.
Proof.
  intros [e He]. destruct 1 as [|n s evs1 s1 evs2 s2 _ Hstep _]; [done|].
  destruct Hstep; simpl in *; try congruence. destruct H2. congruence.
Qed.

(** While the scheduler is idle, the recorded run only delivers. *)
Lemma idle_only_delivers s evs s1 :
  d_current (run_driver s) = None → may_land (run_driver s) → d_futures (run_driver s) ≠ [] →
  live_step s evs s1 →
  ∃ w s0, evs = [event w] ∧ next_completion env1 s = Some (w, s0)
  ∧ deliver_run hash_debug s0 w = Some s1.
Proof.
  intros Hc [He Hl] Hf. rewrite Hc in Hl. destruct 1; simpl in *; try congruence; [|by eauto].
  match goal with Hi : ready _ !! _ = Some _ |- _ => by rewrite Hl in Hi end.
Qed.

(** Otherwise it does not. *)
Lemma busy_no_delivery n s evs1 s1 evs2 s' :
  d_current (run_driver s) = None →
  ¬ (ready (d_vm (run_driver s)) = [] ∧ d_futures (run_driver s) ≠ []) →
  live_step s evs1 s1 → live_steps n s1 evs2 s' → no_delivery (evs1 ++ evs2).
Proof.
  intros Hc Hno Hstep Hrest. destruct Hstep as [|? ? ? ? ? ? ? ? ? Hact|s w s0 s1 Hh Hc' Hl Hn Hd| | |];
    simpl in *; try congruence.
  - injection Hact as <-. apply ended_stops in Hrest as (_ & -> & _); [done|by eexists].
  - destruct Hno. destruct Hl as [_ Hl]. rewrite Hc in Hl. split; [done|]. intros Hf.
    unfold next_completion in Hn. by rewrite Hf in Hn.
Qed.

Lemma idle_group n : ∀ s evs s',
  run_held s = [] → d_current (run_driver s) = None → may_land (run_driver s) →
  d_futures (run_driver s) ≠ [] → live_steps (S n) s evs s' →
  ∃ k evs1 s1 evs2, k ≤ n ∧ evs = evs1 ++ evs2 ∧ evs1 ≠ [] ∧ delivers s evs1 s1
  ∧ live_steps k s1 evs2 s' ∧ no_delivery evs2.
Proof.
  induction n as [|n IH]; intros s evs s' Hh Hc Hl Hf Hs;
    inversion Hs as [|? ? evs1 s1 evs2 ? Hb Hstep Hrest]; subst;
    (destruct (idle_only_delivers _ _ _ Hc Hl Hf Hstep) as (w & s0 & -> & Hn & Hd));
    (destruct (delivery_effect _ _ _ _ _ Hn Hd)
       as (i & f & vm & _ & _ & _ & Hdrv & _ & Hheld & _ & _)).
  - inversion Hrest; subst. exists 0, [event w], s', []. rewrite !app_nil_r.
    split_and!; [done..|by econstructor; [| | |constructor]|constructor|done].
  - assert (d_current (run_driver s1) = None ∧ d_ended (run_driver s1) = None) as [Hc1 He1].
    { rewrite Hdrv. split; [done|apply Hl]. }
    destruct (decide (ready (d_vm (run_driver s1)) = [] ∧ d_futures (run_driver s1) ≠ []))
      as [[Hq Hf1]|Hno].
    + destruct (IH s1 evs2 s') as (k & evs3 & s2 & evs4 & Hk & -> & Hne & Hds & Hst & Hnd);
        [by rewrite Hheld|done|split; [done|by rewrite Hc1]|done|done|].
      exists k, (event w :: evs3), s2, evs4. split_and!; [lia|done|done|by econstructor|done|done].
    + exists (S n), [event w], s1, evs2.
      split_and!; [done..|by econstructor; [| | |constructor]|done|].
      inversion Hrest as [|? ? evs3 s3 evs4 ? Hb1 Hstep1 Hrest1]; subst.
      by eapply busy_no_delivery.
Qed.


(** The outcome of rounds of the replay for recorded rounds with the events [evs]. *)
Definition follows (o : Stepped) (evs : list WakeEvent) (r s' : Run) : Prop :=
  (∃ r', o = Next r' ∧ matches s' r' ∧ run_ctx r' = replayed (run_ctx r) evs)
  ∨ ((∃ x w rep, o = Diverged x w rep) ∧ ¬ cooperative evs).

Lemma queued_once d idx tid :
  inv d → ready (d_vm d) !! idx = Some tid →
  list_find (λ t, t = tid) (ready (d_vm d)) = Some (idx, tid).
Proof.
  intros Hinv Hi. apply list_find_Some. split_and!; [done..|]. intros j y Hj Hlt ->.
  pose proof (pl_nodup _ _ _ (inv_places _ Hinv)) as Hnd.
  unfold runnable in Hnd. apply NoDup_app in Hnd as [Hnd _].
  pose proof (NoDup_lookup _ _ _ _ Hnd Hi Hj). lia.
Qed.

Lemma pick_futures d idx d' fs :
  act d (Pick idx) = Some d' → act (with_futures fs d) (Pick idx) = Some (with_futures fs d').
Proof.
  simpl. destruct (ready (d_vm d) !! idx) as [tid|]; [|done]. simpl.
  destruct (load_task_context start_block _ tid); [|done]. simpl. by intros [= <-].
Qed.

Lemma pick_fields d idx d' :
  act d (Pick idx) = Some d' → d_futures d' = d_futures d ∧ aborted (d_vm d') = aborted (d_vm d).
Proof.
  simpl. destruct (ready (d_vm d) !! idx) as [tid|]; [|done]. simpl.
  unfold load_task_context. destruct (get_task _ tid) as [t|]; [|done]. simpl.
  destruct (t_started t); [|destruct (t_block t); [|done]]; simpl; by intros [= <-].
Qed.

Lemma agree_mono d d' fsr held new :
  d_futures d' = d_futures d ++ new → aborted (d_vm d) ⊆ aborted (d_vm d') →
  agree d fsr held → agree d' (fsr ++ new) held.
Proof.
  intros Hf Ha (fs & Hp & Hall). exists fs. split.
  - rewrite Hf, Hp, <-!app_assoc. f_equiv. apply Permutation_app_comm.
  - eapply Forall2_impl; [exact Hall|]. intros f w. by apply came_from_mono.
Qed.

Lemma rotate_futures d cur preempt d' fs :
  rotate d cur preempt = Some d' →
  rotate (with_futures fs d) cur preempt = Some (with_futures fs d')
  ∧ d_futures d' = d_futures d ∧ aborted (d_vm d') = aborted (d_vm d).
Proof.
  unfold rotate. destruct preempt; [|by intros [= <-]]. simpl.
  destruct (save_task_context (d_vm d) cur) as [vm|] eqn:E; [|done]. simpl. intros [= <-].
  apply save_effect in E as (? & _ & _ & _ & _ & _ & _ & _ & _ & Ha & _). by split_and!.
Qed.

(** A round with no delivery, or at a boundary. *)
Lemma step_follows s evs s1 r rest :
  no_collision → binv (run_driver s) → live_step s evs s1 → matches s r →
  replaying (run_ctx r) = true → events_left (run_ctx r) = evs ++ rest →
  (d_current (run_driver s) = None → no_delivery evs) →
  follows (loop_step env2 r) evs r s1.
Proof.
  intros Hnc Hb Hstep Hm Hr Hleft Hnd. unfold ReplayLoop.loop_step. destruct Hstep; simpl in Hnd.
  - inversion Hm as [? ? fsr held ? ? c' k1 Hag]; subst. simpl in *. rewrite H0, H1.
    unfold acquire_step. simpl. rewrite bool_decide_eq_false_2 by (intros E; by rewrite E in H2).
    rewrite Hr. unfold expect_pick. rewrite peek_left, Hleft by done. simpl.
    rewrite (queued_once d idx tid (proj1 Hb) H2). unfold pick. simpl run_driver.
    rewrite (pick_futures d idx d' fsr H3). simpl. rewrite H2. left.
    eexists. split; [done|]. destruct (pick_fields _ _ _ H3) as [Hf Ha].
    split; [|simpl; by rewrite <-replayed_cons, replayed_nil].
    apply (matches_intro d'). rewrite <-(app_nil_r fsr).
    eapply agree_mono; [by rewrite app_nil_r|by rewrite Ha|done].
  - inversion Hm as [? ? fsr held ? ? c' k1 Hag]; subst. simpl in *. rewrite H0, H1.
    destruct Hag as (fs & Hp & Hall). rewrite H3 in Hp.
    symmetry in Hp. apply Permutation_nil_r, app_eq_nil in Hp as [-> ->].
    inversion Hall; subst. injection H4 as <-.
    unfold acquire_step. simpl. rewrite H2. unfold idle_step. simpl. left.
    eexists. split; [done|]. split; [|by rewrite replayed_nil].
    apply (matches_intro (ends d (d_vm d) _)). exists []. simpl. by rewrite H3.
  - exfalso. specialize (Hnd H1). by rewrite event_delivery in Hnd.
  - inversion Hm as [? ? fsr held ? ? c' k1 Hag]; subst. simpl in *. rewrite H0, H1.
    unfold task_step. simpl. rewrite H2. pose proof (op_resumed start_block quoinerror_to_value (d_vm d) kind) as Hop.
    unfold resume in *. simpl. destruct (resumed (d_vm d) kind) as [vm o]. simpl in *.
    left. eexists. split; [done|]. split; [|by rewrite replayed_nil].
    apply (matches_intro (mkDriver vm _ _ _ _ _ _) _ fsr). rewrite <-(app_nil_r fsr).
    apply (agree_mono d); [by rewrite app_nil_r|by eapply op_aborted|done].
  - inversion Hm as [? ? fsr held ? ? c' k1 Hag]; subst. simpl in *. rewrite H0, H1.
    unfold task_step. simpl. rewrite H2, H3.
    destruct (task_act_futures d cur a d' H5) as (new & Hf & _ & Hall).
    assert (loop : ∀ x, match a with Yield => x | a => match task_act (with_futures fsr d) cur a with
      | Some d => Next (with_driver d (with_guest g' (mkRun (with_futures fsr d) g held c' k1)))
      | None => Panics end end
      = Next (mkRun (with_futures (fsr ++ new) d') g' held c' k1)).
    { intros x. specialize (Hall fsr). simpl in Hall. destruct a; try done; by rewrite Hall. }
    left. eexists. split; [apply loop|]. split; [|by rewrite replayed_nil].
    apply (matches_intro d' g'). eapply agree_mono; [done| |done].
    eapply op_aborted, (op_task_act start_block quoinerror_to_value stress d cur a d'); [|done].
    by apply (su_running _ (inv_suspensions _ (proj1 Hb))).
  - inversion Hm as [? ? fsr held ? ? c' k1' Hag]; subst. simpl in *. rewrite H0, H1.
    unfold task_step. simpl. rewrite H2, H3. unfold boundary_step, with_guest. simpl. rewrite Hr.
    destruct (deliveries_follow (mkRun d g' [] c k1) evs s1 Hnc H4
                (mkRun (with_futures fsr d) g' held c' k1') (ERotate preempt :: rest)
                (length (events_left c')) false false)
      as [(r' & -> & Hm' & Hc')|[(x & w & rep & ->) Hco]]; try done.
    + simpl. by rewrite Hleft, <-app_assoc.
    + rewrite Hleft, !length_app. lia.
    + assert (replaying (run_ctx r') = true) as Hr' by (by rewrite Hc', replayed_replaying).
      assert (events_left (run_ctx r') = ERotate preempt :: rest) as Hl'.
      { rewrite Hc', left_replayed. simpl. by rewrite Hleft, <-app_assoc, drop_app_length. }
      unfold expect_rotate. rewrite peek_left, Hl' by done. simpl.
      destruct Hm' as [d1 g1 fsr1 held1 c1 k3 c1' k4 Hag1]. simpl in *.
      destruct (rotate_futures _ _ _ _ fsr1 H5) as (-> & Hf1 & Ha1).
      left. eexists. split; [done|]. split.
      * apply (matches_intro d'). rewrite <-(app_nil_r fsr1).
        eapply agree_mono; [by rewrite app_nil_r|by rewrite Ha1|done].
      * simpl. by rewrite <-replayed_app, <-Hc', <-replayed_cons, replayed_nil.
    + right. split; [by eauto|]. intros [? [? _]%Forall_app]. apply Hco. by split.
Qed.

(** An idle wait for all the deliveries the log has here. *)
Lemma idle_follows s evs s1 r rest :
  no_collision → binv (run_driver s) → d_current (run_driver s) = None → may_land (run_driver s) →
  d_futures (run_driver s) ≠ [] → delivers s evs s1 → evs ≠ [] → matches s r →
  replaying (run_ctx r) = true → events_left (run_ctx r) = evs ++ rest → no_delivery rest →
  follows (loop_step env2 r) evs r s1.
Proof.
  intros Hnc Hb Hc [He Hl] Hf Hds Hne Hm Hr Hleft Hrest. rewrite Hc in Hl.
  unfold ReplayLoop.loop_step, follows.
  destruct (deliveries_follow s evs s1 Hnc Hds r rest (length (events_left (run_ctx r))) true false)
    as [Hgood|[(x & w & rep & Hdiv) Hco]]; [done..|rewrite Hleft, length_app; lia| |].
  all: inversion Hm as [d g fsr held c k c' k' Hag]; subst; simpl in *; rewrite He, Hc;
    unfold acquire_step; simpl; rewrite Hl; simpl; unfold idle_step; simpl; rewrite Hr.
  all: assert (bool_decide (fsr = []) && bool_decide (held = []) = false) as ->.
  1,3: apply not_true_is_false; intros [->%bool_decide_eq_true ->%bool_decide_eq_true]%andb_prop;
    destruct Hag as (fs & Hp & Hall); inversion Hall; subst; by apply Permutation_nil_r in Hp.
  - left. destruct Hgood as (r' & -> & Hm' & Hc'). exists r'. split; [by destruct evs|done].
  - right. rewrite Hdiv. eauto.
Qed.

Lemma follows_then r evs1 evs2 s1 s' n :
  follows (loop_step env2 r) evs1 r s1 →
  (∀ r1, matches s1 r1 → run_ctx r1 = replayed (run_ctx r) evs1 →
     ∃ m, m ≤ n ∧ follows (rounds env2 m r1) evs2 r1 s') →
  ∃ m, m ≤ S n ∧ follows (rounds env2 m r) (evs1 ++ evs2) r s'.
Proof.
  intros [(r1 & Hs & Hm1 & Hc1)|[(x & w & rep & Hs) Hco]] Hrest.
  - destruct (Hrest r1 Hm1 Hc1) as (m & Hm & Hf). exists (S m). split; [lia|].
    unfold follows. cbn [ReplayLoop.rounds]. rewrite Hs.
    destruct Hf as [(r' & Hn & Hm' & Hc')|[Hdiv Hco]]; [left|right].
    + exists r'. split_and!; [done..|]. by rewrite Hc', Hc1, replayed_app.
    + split; [done|]. intros [? [_ ?]%Forall_app]. apply Hco. by split.
  - exists 1. split; [lia|]. right. cbn [ReplayLoop.rounds]. rewrite Hs. split; [eauto|].
    intros [? [? _]%Forall_app]. apply Hco. by split.
Qed.

(** The recorded rounds, followed to their end. *)
Lemma rounds_follow N : ∀ n s evs s' r,
  no_collision → n ≤ N → live_steps n s evs s' → matches s r →
  replaying (run_ctx r) = true → events_left (run_ctx r) = evs →
  ∃ m, m ≤ n ∧ follows (rounds env2 m r) evs r s'.
Proof.
  induction N as [|N IH]; intros n s evs s' r Hnc Hn Hsteps Hm Hr Hleft;
    inversion Hsteps as [|n' ? evs1 s1 evs2 ? Hb Hstep Hrest]; subst; try lia.
  1,2: exists 0; split; [done|]; left; eexists; split; [done|]; by rewrite replayed_nil.
  assert (Hmore : ∀ k s1 evs1 evs2 r1, k ≤ N → live_steps k s1 evs2 s' → matches s1 r1 →
    run_ctx r1 = replayed (run_ctx r) evs1 → events_left (run_ctx r) = evs1 ++ evs2 →
    ∃ m, m ≤ k ∧ follows (rounds env2 m r1) evs2 r1 s').
  { intros k s2 evs3 evs4 r1 Hk Hst Hm1 Hc1 Hl. apply (IH k s2); [done..| |].
    - by rewrite Hc1, replayed_replaying.
    - by rewrite Hc1, left_replayed, Hl, drop_app_length. }
  destruct (decide (d_current (run_driver s) = None ∧ ready (d_vm (run_driver s)) = []
                    ∧ d_futures (run_driver s) ≠ [])) as [(Hc & Hq & Hf)|Hbusy].
  - assert (may_land (run_driver s)) as Hl
      by (split; [by eapply live_not_ended|by rewrite Hc]).
    assert (run_held s = []) as Hh by (by inversion Hm).
    destruct (idle_group n' s _ s' Hh Hc Hl Hf Hsteps)
      as (k & evs3 & s2 & evs4 & Hk & Heq & Hne & Hds & Hst & Hnd).
    match goal with E : evs1 ++ evs2 = _ |- _ => rewrite E end. rewrite Heq.
    destruct (follows_then r evs3 evs4 s2 s' k) as (m & ? & ?).
    + eapply idle_follows; done.
    + intros r1 Hm1 Hc1. eapply Hmore; [lia|done..].
    + exists m. split; [lia|done].
  - eapply follows_then.
    + eapply step_follows; try done. intros Hc.
      pose proof (busy_no_delivery 0 s evs1 s1 [] s1) as Hnd. rewrite app_nil_r in Hnd.
      apply Hnd; [done|tauto|done|constructor].
    + intros r1 Hm1 Hc1. eapply Hmore; [lia|done..].
Qed.
End sim.
