(* ===== verification/ReplayProps.v ===== *)
(** * What the wake log promises (src/src/replay.rs, src/src/runner_driver.rs)

    The log reads back, run by run; a replay that reports no divergence is the recorded run,
    whatever order its operations complete in; it reports none where its operations return what
    they returned and none was aborted.  And a concrete recording: the replay that follows it,
    and one that diverges because an operation the recording cancelled completed early. *)
From stdpp Require Import base numbers list gmap strings.
From stdpp Require Import options.
From S2P Require Import Prelude Sched Driver SchedEffects SchedInv SchedProps SchedAnswers Replay ReplayText ReplayLoop ReplaySim.
#[local] Set Default Proof Using "All".

(** C23: The wake log reads back.  The text a recording process writes, for any sections of events
    whose numbers are machine words, parses under the same yield cadence to exactly these
    sections, with or without scheduler stress. *)
Theorem wake_log_reads_back env sections :
  (step_batch env ≤ U32_MAX)%N → Forall (Forall event_ok) sections →
  parse_log (log_text env sections) (step_batch env) = inr sections.
Proof. apply parse_log_text. Qed.

(** The ring and the recorder.  After any stream of events the ring of [QN_WAKE_LOG] holds its
    last 512 events in order and the recorder all of it, and the replayer has not moved. *)
Theorem ring_holds_the_latest c evs path :
  ring c = Some [] → recorder c = Some (mkRecorder path []) →
  ring (foldl log c evs) = Some (drop (length evs - 512) evs)
  ∧ recorder (foldl log c evs) = Some (mkRecorder path evs)
  ∧ replayer (foldl log c evs) = replayer c.
Proof.
  intros Hr Hc. split_and!; [|by rewrite log_recorder, Hc|apply log_replayer].
  by rewrite (log_ring _ _ []).
Qed.

(** Recording and replaying runs pair up.  A process that drives the scheduler several times
    and records leaves a file, and a process that replays that file under the same cadence gives
    its k-th run exactly the events of the recording process's k-th run, labelled as run k of
    all; a run more than were recorded is refused.  The file is complete after each run. *)
Theorem runs_pair_up rec rep files files' path path' runs j c content others k r :
  QN_WAKE_RECORD rec = Some path → QN_WAKE_REPLAY rec = None →
  (step_batch rec ≤ U32_MAX)%N → Forall (Forall event_ok) runs →
  driver_runs rec files fresh_global runs !! j = Some (inr (c, Some (path, content))) →
  QN_WAKE_REPLAY rep = Some path' → files' path' = Some content →
  step_batch rep = step_batch rec →
  driver_runs rep files' fresh_global others !! k = Some r →
  match take (S j) runs !! k with
  | Some section =>
      ∃ c' file, r = inr (c', file)
      ∧ replayer c' = Some (mkReplayer section 0 (S k) (length (take (S j) runs)))
  | None => r = inl NoSectionLeft
  end.
Proof.
  intros Hrec Hrep Hb Hok Hj Hrep' Hf Hsame Hk.
  assert (j < length runs) as Hlt.
  { apply lookup_lt_Some in Hj. by rewrite driver_runs_length in Hj. }
  destruct (record_runs rec files path runs fresh_global j Hrec Hrep Hlt) as [c0 Hj'].
  rewrite Hj in Hj'. injection Hj' as <- ->.
  apply (replay_runs rep files' path' others fresh_global 0 _ (take (S j) runs) k r Hrep'); [|done].
  right. split_and!; [done..|]. exists path', (log_text rec (take (S j) runs)).
  split_and!; [done..|]. rewrite Hsame. apply parse_log_text; [done|]. by apply Forall_take.
Qed.

(** A replay that has consumed its log. *)
Lemma peek_replayed c c' evs i k :
  c = replayed c' evs → replayer c' = Some (mkReplayer evs 0 i k) → peek c = None.
Proof.
  intros -> Hc. rewrite peek_left.
  - rewrite left_replayed. unfold events_left. rewrite Hc. simpl. by rewrite drop_ge.
  - rewrite replayed_replaying. unfold replaying. by rewrite Hc.
Qed.

Section pins.
Context `{VmTypes}.
Context (start_block : Block → Context → Context).
Context (quoinerror_to_value : QuoinError → Value).
Context (stress : bool).
Context (hash_debug : IoResult → N).
Context {guest : Type}.
Context (guest_act : guest → VmState → TaskId → guest * Act).
Context (guest_resumed : guest → Outcome → guest).
Context (env1 env2 : Choices).

Abbreviation rounds env :=
  (rounds start_block quoinerror_to_value stress hash_debug guest_act guest_resumed env).

Lemma start_binv : binv start_driver.
Proof. split; [eapply start_inv|apply NoDup_nil_2]; done. Qed.

Lemma start_matches (g : guest) c c' : matches env2 (start_run g c) (start_run g c').
Proof. apply (matches_intro env2 start_driver g [] []). exists []. split; [done|constructor]. Qed.

(** A recording and what a replay of its log does. *)
Lemma recorded_follows n (g : guest) c path s :
  well_behaved guest_act → no_collision hash_debug env1 env2 →
  replaying c = false → recorder c = Some (mkRecorder path []) →
  rounds env1 n (start_run g c) = Next s →
  ∃ evs, recorder (run_ctx s) = Some (mkRecorder path evs)
  ∧ ∀ c' i k, replayer c' = Some (mkReplayer evs 0 i k) →
    ∃ m, m ≤ n ∧ follows env1 env2 (rounds env2 m (start_run g c')) evs (start_run g c') s.
Proof.
  intros Hwb Hnc Hr Hrec Hn.
  destruct (rounds_live start_block quoinerror_to_value stress hash_debug guest_act guest_resumed
              env1 env2 Hwb n (start_run g c) s Hr eq_refl start_binv Hn) as (evs & Hsteps & Hc).
  exists evs. split.
  { rewrite Hc, log_recorder. simpl. by rewrite Hrec. }
  intros c' i k Hrep.
  apply (rounds_follow start_block quoinerror_to_value stress hash_debug guest_act guest_resumed
           env1 env2 n n (start_run g c) evs s); [done|done|done|apply start_matches| |].
  - unfold replaying. simpl. by rewrite Hrep.
  - unfold events_left. simpl. by rewrite Hrep.
Qed.

(** C6: A replay that reports no divergence is the recorded run.  For any program that keeps
    within the preconditions of the scheduler's operations ([well_behaved]), record any number of
    rounds of the driver's loop; then replay the log, with the operations completing in
    any other order and returning anything, as long as no wrong result has the fingerprint of
    the right one.  Either a divergence is reported, or after no more rounds than were recorded
    the replay has consumed the log, is in the same state (every task, the queues, the program;
    the futures in flight and the completions held back are together those in flight in the
    recording), and has recorded the same log itself. *)
Theorem replay_is_the_recorded_run n (g : guest) c path s c' path' evs i k :
  well_behaved guest_act → no_collision hash_debug env1 env2 →
  replaying c = false → recorder c = Some (mkRecorder path []) →
  rounds env1 n (start_run g c) = Next s → recorder (run_ctx s) = Some (mkRecorder path evs) →
  replayer c' = Some (mkReplayer evs 0 i k) → recorder c' = Some (mkRecorder path' []) →
  ∃ m, m ≤ n ∧
  ((∃ r what report, rounds env2 m (start_run g c') = Diverged r what report)
   ∨ ∃ r, rounds env2 m (start_run g c') = Next r ∧ matches env2 s r
     ∧ peek (run_ctx r) = None ∧ recorder (run_ctx r) = Some (mkRecorder path' evs)).
Proof.
  intros Hwb Hnc Hr Hrec Hn Hs Hrep Hrec'.
  destruct (recorded_follows n g c path s Hwb Hnc Hr Hrec Hn) as (evs' & Hs' & Hall).
  rewrite Hs in Hs'. injection Hs' as <-.
  destruct (Hall c' i k Hrep) as (m & Hm & [(r & Hx & Hma & Hc)|[Hdiv _]]);
    exists m; (split; [done|]); [right|by left].
  exists r. split_and!; [done..| |].
  - by apply (peek_replayed _ c' evs i k).
  - rewrite Hc. simpl. rewrite log_recorder, Hrec'. done.
Qed.

(** C7: A replay that meets the recorded results does not diverge.  If the program keeps within the
    preconditions of the scheduler's operations ([well_behaved]), every operation returns what it
    returned when recorded, and the log has no operation that was aborted, then in
    whatever order the operations complete, the replay reports nothing and gets, in no more rounds
    than were recorded, to the recorded state with the log consumed. *)
Theorem faithful_replay_does_not_diverge n (g : guest) c path s c' evs i k :
  well_behaved guest_act → (∀ id, io_result env1 id = io_result env2 id) →
  Forall unaborted evs →
  replaying c = false → recorder c = Some (mkRecorder path []) →
  rounds env1 n (start_run g c) = Next s → recorder (run_ctx s) = Some (mkRecorder path evs) →
  replayer c' = Some (mkReplayer evs 0 i k) →
  ∃ m r, m ≤ n ∧ rounds env2 m (start_run g c') = Next r ∧ matches env2 s r
  ∧ peek (run_ctx r) = None.
Proof.
  intros Hwb Hsame Hab Hr Hrec Hn Hs Hrep.
  destruct (recorded_follows n g c path s Hwb (λ id _, Hsame id) Hr Hrec Hn) as (evs' & Hs' & Hall).
  rewrite Hs in Hs'. injection Hs' as <-.
  destruct (Hall c' i k Hrep) as (m & Hm & [(r & Hx & Hma & Hc)|[_ Hco]]).
  - exists m, r. split_and!; [done..|]. by apply (peek_replayed _ c' evs i k).
  - destruct Hco. by split.
Qed.
End pins.

(** ** A recording and its replays *)

Section demo.

(** A program given by what its tasks do, in the order they come to do it; what the scheduler
    does not allow, it does not do. *)
Definition scripted (script : list Act) (pc : nat) (vm : VmState) (c : TaskId) : nat * Act :=
  let a := default (Complete (inr five)) (script !! pc) in
  (S pc, if guest_may vm c a then a else Checkpoint).

Definition ignore (pc : nat) (_ : Outcome) : nat := pc.

Lemma scripted_well_behaved script : well_behaved (scripted script).
Proof.
  intros g vm c. unfold scripted. simpl. set (a := default _ _).
  by destruct (guest_may vm c a) eqn:E.
Qed.

Definition prints (r : nat) : N := N.of_nat r.

Definition lands (arrive : list nat) : Choices :=
  mkChoices (λ k, default 0 (arrive !! k)) (λ _, 0) (λ _ _, 0) (λ id, (7 + N.to_nat id : nat)).

Abbreviation demo_rounds script arrive n r :=
  (rounds demo_start demo_error false prints (scripted script) ignore (lands arrive) n r).

(** Main and a task it spawns each wait for an operation; main then joins the task. *)
Definition two_waits : list Act :=
  [Spawn 1; AwaitIo; AwaitIo; Join 1; Complete (inr five); Complete (inr five)].

(** The same, but main cancels the task before it joins it. *)
Definition cancels_one : list Act :=
  [Spawn 1; AwaitIo; AwaitIo; Cancel 1; Join 1; Complete (inl Cancelled); Complete (inr five)].

Definition recording : ReplayCtx := mkCtx None (Some (mkRecorder "wake.log" [])) None false false.

Definition log_of (o : Stepped (guest := nat)) : list WakeEvent :=
  match o with
  | Next r => match recorder (run_ctx r) with Some rec => r_events rec | None => [] end
  | _ => []
  end.

Definition replaying_log (evs : list WakeEvent) : ReplayCtx :=
  mkCtx None (Some (mkRecorder "again.log" [])) (Some (mkReplayer evs 0 1 1)) false false.

(** Main's operation lands first. *)
Definition two_waits_log : list WakeEvent :=
  [EPick 1; EIo 0 false 7; EPick 0; EIo 1 false 8; EPick 1; EPick 0].

Example two_waits_recorded :
  log_of (demo_rounds two_waits [] 15 (start_run 0 recording)) = two_waits_log.
Proof. vm_compute. reflexivity. Qed.
(** What a replay makes of a log, with its completions landing in the order [arrive]. *)
Definition ended_with (o : Stepped (guest := nat)) : option Ending :=
  match o with Next r => d_ended (run_driver r) | _ => None end.

Definition diverged_with (o : Stepped (guest := nat)) : option Divergence :=
  match o with Diverged _ what _ => Some what | _ => None end.

Definition cancels_log : list WakeEvent :=
  [EPick 1; EIo 0 false 7; EPick 0; EIo 1 true 0; EPick 1; EPick 0].

(** A replay can diverge though nothing did.  Main and a task wait for an operation each; in
    the recording main's operation completes first and main cancels the task, whose operation is
    aborted.  Every operation returns in the replay what it would have returned, but the task's
    completes first: it is held back as a result, the cancellation comes too late to abort it,
    and the aborted delivery the log has is never matched.  In the recorded order the same
    replay ends as the recording did. *)
Theorem early_completion_of_a_cancelled_operation :
  log_of (demo_rounds cancels_one [] 16 (start_run 0 recording)) = cancels_log
  ∧ ended_with (demo_rounds cancels_one [] 16 (start_run 0 recording)) = Some (Finished five)
  ∧ ended_with (demo_rounds cancels_one [] 16 (start_run 0 (replaying_log cancels_log)))
    = Some (Finished five)
  ∧ diverged_with (demo_rounds cancels_one [1] 16 (start_run 0 (replaying_log cancels_log)))
    = Some (Mismatch true (EIo 1 true 0) [EIo 1 false 8]).
Proof. split_and!; vm_compute; reflexivity. Qed.

Definition after (o : Stepped (guest := nat)) : Run :=
  match o with Next r => r | _ => start_run 0 recording end.

Lemma replay_is_the_recorded_run_witness :
  let s := after (demo_rounds two_waits [] 15 (start_run 0 recording)) in
  ∃ m, m ≤ 15 ∧
  ((∃ r what report,
      demo_rounds two_waits [1] m (start_run 0 (replaying_log two_waits_log)) = Diverged r what report)
   ∨ ∃ r, demo_rounds two_waits [1] m (start_run 0 (replaying_log two_waits_log)) = Next r
     ∧ matches (lands [1]) s r ∧ peek (run_ctx r) = None
     ∧ recorder (run_ctx r) = Some (mkRecorder "again.log" two_waits_log)).
Proof.
  apply (replay_is_the_recorded_run demo_start demo_error false prints (scripted two_waits) ignore
           (lands []) (lands [1]) 15 0 recording "wake.log" _ (replaying_log two_waits_log)
           "again.log" two_waits_log 1 1).
  - apply scripted_well_behaved.
  - done.
  - done.
  - done.
  - vm_compute. reflexivity.
  - vm_compute. reflexivity.
  - done.
  - done.
Defined.

Lemma faithful_replay_does_not_diverge_witness :
  let s := after (demo_rounds two_waits [] 15 (start_run 0 recording)) in
  ∃ m r, m ≤ 15
  ∧ demo_rounds two_waits [1] m (start_run 0 (replaying_log two_waits_log)) = Next r
  ∧ matches (lands [1]) s r ∧ peek (run_ctx r) = None.
Proof.
  apply (faithful_replay_does_not_diverge demo_start demo_error false prints (scripted two_waits)
           ignore (lands []) (lands [1]) 15 0 recording "wake.log" _ (replaying_log two_waits_log)
           two_waits_log 1 1).
  - apply scripted_well_behaved.
  - done.
  - repeat constructor.
  - done.
  - done.
  - vm_compute. reflexivity.
  - vm_compute. reflexivity.
  - done.
Defined.

(** ** The log of two runs *)

Definition recording_env : WakeEnv := mkEnv false true (Some "wake.log") None 256 None.
Definition replaying_env : WakeEnv := mkEnv false false None (Some "wake.log") 256 None.

Definition two_runs : list (list WakeEvent) :=
  [two_waits_log; [EPick 3; ERotate true; ERotate false; EDeadline 2 5 99]].

Lemma two_runs_ok : Forall (Forall event_ok) two_runs.
Proof.
  repeat (apply Forall_cons; split; [repeat (apply Forall_cons; split; [vm_compute|]);
    try apply Forall_nil_2|]); try apply Forall_nil_2; repeat split; discriminate.
Qed.

Lemma wake_log_reads_back_witness :
  parse_log (log_text recording_env two_runs) 256 = inr two_runs.
Proof.
  apply (wake_log_reads_back recording_env two_runs); [vm_compute; discriminate|apply two_runs_ok].
Defined.

Lemma ring_holds_the_latest_witness :
  let c := foldl log (mkCtx (Some []) (Some (mkRecorder "wake.log" [])) None false false)
             two_waits_log in
  ring c = Some (drop (length two_waits_log - 512) two_waits_log)
  ∧ recorder c = Some (mkRecorder "wake.log" two_waits_log)
  ∧ replayer c = replayer (mkCtx (Some []) (Some (mkRecorder "wake.log" [])) None false false).
Proof.
  apply (ring_holds_the_latest
           (mkCtx (Some []) (Some (mkRecorder "wake.log" [])) None false false) two_waits_log
           "wake.log"); reflexivity.
Defined.

(** What the second run of a process that replays the log of [two_runs] gets. *)
Definition second_run : LogError + ReplayCtx * option (string * text) :=
  default (inl CannotRead)
    (driver_runs replaying_env (λ _, Some (log_text recording_env two_runs)) fresh_global
       [[]; [EPick 0]] !! 1).

Lemma runs_pair_up_witness :
  ∃ c' file, second_run = inr (c', file)
  ∧ replayer c' = Some (mkReplayer [EPick 3; ERotate true; ERotate false; EDeadline 2 5 99] 0 2 2).
Proof.
  destruct (record_runs recording_env (λ _, None) "wake.log" two_runs fresh_global 1
              eq_refl eq_refl) as [c Hc]; [vm_compute; lia|].
  apply (runs_pair_up recording_env replaying_env (λ _, None)
           (λ _, Some (log_text recording_env two_runs)) "wake.log" "wake.log" two_runs 1 c
           (log_text recording_env two_runs) [[]; [EPick 0]] 1 second_run).
  - reflexivity.
  - reflexivity.
  - vm_compute. discriminate.
  - apply two_runs_ok.
  - exact Hc.
  - reflexivity.
  - reflexivity.
  - reflexivity.
  - vm_compute. reflexivity.
Defined.
End demo.
