(* ===== verification/Supervise.v ===== *)
(** * Supervision: the policy and the lifecycle sink
      (src/src/runtime/supervise.rs, src/src/runtime/lifecycle.rs)

    The restart policy and its delays, its parse from the answers of a guest object, the window
    of deaths a supervisor counts, and the sink a peer's threads report its end to.  The sink is
    shared between threads: its operations are sequences of steps, one per lock or atomic they
    touch, and [Sink.step] interleaves them.

    Instants are nanoseconds.  The guest's methods are a parameter, and so are its values. *)
From stdpp Require Import base numbers list gmap strings.
From stdpp Require Import options.
From S2P Require Import Prelude.

(** ** The policy *)

Record SupervisePolicy := mkPolicy {
  backoff_ms : N;
  cap_ms : N;
  max_restarts : N;
  window_ms : N }.

Definition default_policy : SupervisePolicy := mkPolicy 100 10000 5 60000.

Definition U64_MAX : N := 2 ^ 64 - 1.
Definition U32_MAX : N := 2 ^ 32 - 1.

Definition policy_ok (p : SupervisePolicy) : Prop :=
  (backoff_ms p ≤ U64_MAX ∧ cap_ms p ≤ U64_MAX ∧ max_restarts p ≤ U32_MAX ∧ window_ms p ≤ U64_MAX)%N.

(** [saturating_mul] of [u64]. *)
Definition saturating_mul (a b : N) : N := N.min (a * b) U64_MAX.

(** [delay_ms]: the delay before an attempt, counted from 1. *)
Definition delay_ms (p : SupervisePolicy) (attempt : N) : N :=
  N.min (saturating_mul (backoff_ms p) (N.shiftl 1 (N.min (attempt - 1) 30))) (cap_ms p).

(** ** Parsing a policy *)

Inductive PolicyError E :=
| Guest (e : E)
| NotAPolicy
| UnknownMode (mode : string)
| NotAnInteger (sel : string)
| TooSmall (sel : string) (min : Z).
#[global] Arguments Guest {_} _.
#[global] Arguments NotAPolicy {_}.
#[global] Arguments UnknownMode {_} _.
#[global] Arguments NotAnInteger {_} _.
#[global] Arguments TooSmall {_} _ _.

Section parse.
(** The program's state, errors and values, and a send to the policy object. *)
Context {W E Value : Type}.
Context (call_method : W → string → W * (E + Value)).
Context (symbol_text : Value → option string).
Context (as_i64 : Value → option Z).

(** The closure [field]; [n as u64]. *)
Definition field (w : W) (sel : string) (min : Z) : W * (PolicyError E + N) :=
  match call_method w sel with
  | (w, inl e) => (w, inl (Guest e))
  | (w, inr v) =>
      match as_i64 v with
      | None => (w, inl (NotAnInteger sel))
      | Some n =>
          if (n <? min)%Z then (w, inl (TooSmall sel min)) else (w, inr (Z.to_N (n mod 2 ^ 64)))
      end
  end.

(** [n as u32]. *)
Definition as_u32 (n : N) : N := n mod 2 ^ 32.

Definition parse_policy (w : W) : W * (PolicyError E + option SupervisePolicy) :=
  match call_method w "restart" with
  | (w, inl e) => (w, inl (Guest e))
  | (w, inr v) =>
      match symbol_text v with
      | None => (w, inl NotAPolicy)
      | Some mode =>
          if decide (mode = "never"%string) then (w, inr None)
          else if decide (mode = "always"%string) then
            match field w "backoff" 0 with
            | (w, inl e) => (w, inl e)
            | (w, inr backoff) =>
                match field w "cap" 1 with
                | (w, inl e) => (w, inl e)
                | (w, inr cap) =>
                    match field w "max" 1 with
                    | (w, inl e) => (w, inl e)
                    | (w, inr max) =>
                        match field w "window" 1 with
                        | (w, inl e) => (w, inl e)
                        | (w, inr window) =>
                            (w, inr (Some (mkPolicy backoff cap (as_u32 max) window)))
                        end
                    end
                end
            end
          else (w, inl (UnknownMode mode))
      end
  end.
End parse.

(** ** The window of deaths *)

(** [deaths.retain(|t| t.elapsed() <= window)], at the instant [now]: one reading of the clock
    stands for the reading per death the code makes. *)
Definition retain_window (p : SupervisePolicy) (now : N) (deaths : list N) : list N :=
  filter (λ t, (now - t ≤ window_ms p * 1000000)%N) deaths.

(** [deaths.len() as u32 > policy.max_restarts]. *)
Definition over_budget (p : SupervisePolicy) (deaths : list N) : bool :=
  (max_restarts p <? as_u32 (N.of_nat (length deaths)))%N.

(** A supervisor's deaths and attempts, as events of its life; [Check] is the top of the attempt
    loop. *)
Inductive SupEvent :=
| Death (at_ : N)
| Check (at_ : N).

Definition event_time (e : SupEvent) : N := match e with Death t | Check t => t end.

(** The deaths kept, and whether the supervisor goes on after the event. *)
Definition sup_event (p : SupervisePolicy) (deaths : list N) (e : SupEvent) : list N * bool :=
  match e with
  | Death t => (vec_push deaths t, true)
  | Check now => let deaths := retain_window p now deaths in (deaths, negb (over_budget p deaths))
  end.

(** A supervisor's life: a death, then a check, over and over; after a check that lets it, an
    attempt, and the next death is the attempt's failure or a later end of the peer.  The death is
    noted with one reading of the clock and the check makes another: nothing is done in between,
    but the clock may go on by any amount. *)
Inductive sup_life (p : SupervisePolicy) : list N → list (N * N) → Prop :=
| sup_born : sup_life p [] []
| sup_attempt deaths attempts died now :
    sup_life p deaths attempts →
    (∀ d c, last attempts = Some (d, c) → (c ≤ died)%N) → (died ≤ now)%N →
    (sup_event p (vec_push deaths died) (Check now)).2 = true →
    sup_life p (sup_event p (vec_push deaths died) (Check now)).1 (attempts ++ [(died, now)]).

(** ** The lifecycle sink *)

Inductive PeerDeathReason := Exited | Panicked | StaleIncarnation | GaveUp.

(** [symbol]. *)
Definition symbol (r : PeerDeathReason) : string :=
  match r with
  | Exited => "exited" | Panicked => "panicked"
  | StaleIncarnation => "staleIncarnation" | GaveUp => "gaveUp"
  end.

Inductive LifeStatus :=
| Running
| Stopped (message : string)
| Died (reason : PeerDeathReason) (detail : string).

#[export] Instance PeerDeathReason_eq_dec : EqDecision PeerDeathReason.
Proof. solve_decision. Defined.
#[export] Instance LifeStatus_eq_dec : EqDecision LifeStatus.
Proof. solve_decision. Defined.

(** An event record: the fields of the wire map, in order. *)
Definition Record_ : Type := list (string * string).

(** [record]. *)
Definition record (label kind : string) (reason : option PeerDeathReason) (message : string)
    : Record_ :=
  [("kind", kind); ("peer", label)]%string
  ++ (match reason with Some r => [("reason"%string, symbol r)] | None => [] end)
  ++ (if decide (message = EmptyString) then [] else [("message"%string, message)]).

(** The record of a terminal status. *)
Definition terminal_record (label : string) (s : LifeStatus) : option Record_ :=
  match s with
  | Running => None
  | Stopped m => Some (record label "stopped" None m)
  | Died r d => Some (record label "died" (Some r) d)
  end.

(** [STAGING_DEPTH]. *)
Definition STAGING_DEPTH : nat := 64.

Module Sink.

(** A lane of one place, as [watch] mints it: the record in its place, and those its receiver has
    taken from it, oldest first. *)
Record Lane := mkLane { pending : option Record_; heard : list Record_ }.

(** What was delivered on a lane, taken or not. *)
Definition delivered (ln : Lane) : list Record_ :=
  heard ln ++ match pending ln with Some r => [r] | None => [] end.

(** The sink, as its threads share it: a lane is its number in [lanes], and [lock] is the holder of
    the lock of [watchers]. *)
Record LifeSink := mkSink {
  label : string;
  status : LifeStatus;
  terminal : bool;
  staged : list Record_;
  closed : bool;
  dropped : N;
  watchers : list nat;
  lanes : list Lane;
  lock : option nat }.

(** [push]: the newest record is dropped, and counted, when the staging is full or closed. *)
Definition push (r : Record_) (s : LifeSink) : LifeSink :=
  if closed s || (STAGING_DEPTH <=? length (staged s))%nat then
    mkSink (label s) (status s) (terminal s) (staged s) (closed s) (dropped s + 1) (watchers s)
      (lanes s) (lock s)
  else
    mkSink (label s) (status s) (terminal s) (vec_push (staged s) r) (closed s) (dropped s)
      (watchers s) (lanes s) (lock s).

(** [new]: the first record says the peer was spawned. *)
Definition new (label : string) : LifeSink :=
  push (record label "spawned" None "")
    (mkSink label Running false [] false 0 [] [] None).

(** The consumer takes the oldest record. *)
Definition take (s : LifeSink) : option (Record_ * LifeSink) :=
  match staged s with
  | [] => None
  | r :: rs =>
      Some (r, mkSink (label s) (status s) (terminal s) rs (closed s) (dropped s) (watchers s)
                 (lanes s) (lock s))
  end.

Definition set_terminal (s : LifeSink) : LifeSink :=
  mkSink (label s) (status s) true (staged s) (closed s) (dropped s) (watchers s) (lanes s) (lock s).
Definition set_status (st : LifeStatus) (s : LifeSink) : LifeSink :=
  mkSink (label s) st (terminal s) (staged s) (closed s) (dropped s) (watchers s) (lanes s) (lock s).
Definition close (s : LifeSink) : LifeSink :=
  mkSink (label s) (status s) (terminal s) (staged s) true (dropped s) (watchers s) (lanes s) (lock s).
Definition set_lock (l : option nat) (s : LifeSink) : LifeSink :=
  mkSink (label s) (status s) (terminal s) (staged s) (closed s) (dropped s) (watchers s) (lanes s) l.
Definition set_watchers (ws : list nat) (s : LifeSink) : LifeSink :=
  mkSink (label s) (status s) (terminal s) (staged s) (closed s) (dropped s) ws (lanes s) (lock s).

Definition set_lanes (lns : list Lane) (s : LifeSink) : LifeSink :=
  mkSink (label s) (status s) (terminal s) (staged s) (closed s) (dropped s) (watchers s) lns (lock s).

(** [try_send] on a lane: the record is lost when the lane's place is taken. *)
Definition send_lane (r : Record_) (ln : Lane) : Lane :=
  match pending ln with None => mkLane (Some r) (heard ln) | Some _ => ln end.
Definition try_send (r : Record_) (s : LifeSink) (l : nat) : LifeSink :=
  set_lanes (alter (send_lane r) l (lanes s)) s.

(** A lane's receiver takes the record that is there. *)
Definition hear (l : nat) (s : LifeSink) : option LifeSink :=
  ln ← lanes s !! l;
  r ← pending ln;
  Some (set_lanes (<[l := mkLane None (heard ln ++ [r])]> (lanes s)) s).

(** A new lane. *)
Definition mint (s : LifeSink) : nat * LifeSink :=
  (length (lanes s),
   mkSink (label s) (status s) (terminal s) (staged s) (closed s) (dropped s) (watchers s)
     (vec_push (lanes s) (mkLane None [])) (lock s)).

(** Where a thread is in [emit_stopped] or [emit_died] with the terminal status [e], or in
    [watch].  [notify_watchers] takes the lock ([EmitNotify]) and sends to the watchers it drains
    one by one ([EmitSend], with those left); the receivers of the lanes take no lock. *)
Inductive Thread :=
| EmitSwap (e : LifeStatus)
| EmitStatus (e : LifeStatus)
| EmitPush (e : LifeStatus)
| EmitNotify (e : LifeStatus)
| EmitSend (e : LifeStatus) (ls : list nat)
| EmitClose (e : LifeStatus)
| Emitted
| Lost
| WatchLock
| WatchDecide (l : nat)
| WatchSend (l : nat) (r : Record_)
| Watched (l : nat).

(** The next step of thread [i]; [None] when it waits for the lock or is done. *)
Definition step (i : nat) (t : Thread) (s : LifeSink) : option (Thread * LifeSink) :=
  match t with
  | EmitSwap e => Some (if terminal s then Lost else EmitStatus e, set_terminal s)
  | EmitStatus e => Some (EmitPush e, set_status e s)
  | EmitPush e =>
      Some (EmitNotify e,
            match terminal_record (label s) e with Some r => push r s | None => s end)
  | EmitNotify e =>
      match lock s with
      | Some _ => None
      | None => Some (EmitSend e (watchers s), set_lock (Some i) (set_watchers [] s))
      end
  | EmitSend e (l :: ls) =>
      Some (EmitSend e ls,
            match terminal_record (label s) e with Some r => try_send r s l | None => s end)
  | EmitSend e [] => Some (EmitClose e, set_lock None s)
  | EmitClose _ => Some (Emitted, close s)
  | WatchLock =>
      match lock s with
      | Some _ => None
      | None => let '(l, s) := mint s in Some (WatchDecide l, set_lock (Some i) s)
      end
  | WatchDecide l =>
      match terminal_record (label s) (status s) with
      | Some r => Some (WatchSend l r, set_lock None s)
      | None => Some (Watched l, set_lock None (set_watchers (vec_push (watchers s) l) s))
      end
  | WatchSend l r => Some (Watched l, try_send r s l)
  | Emitted | Lost | Watched _ => None
  end.

(** The sink and the threads that work on it. *)
Definition World : Type := LifeSink * list Thread.

Inductive steps_to : World → World → Prop :=
| sink_step s ts i t t' s' :
    ts !! i = Some t → step i t s = Some (t', s') → steps_to (s, ts) (s', <[i := t']> ts)
| sink_take s ts r s' : take s = Some (r, s') → steps_to (s, ts) (s', ts)
| sink_hear s ts l s' : hear l s = Some s' → steps_to (s, ts) (s', ts).

(** A thread that has not begun: a call of [emit_stopped], [emit_died] or [watch]. *)
Definition fresh (t : Thread) : Prop :=
  match t with EmitSwap e => e ≠ Running | WatchLock => True | _ => False end.

Definition reachable (w : World) : Prop :=
  ∃ label ts, Forall fresh ts ∧ rtc steps_to (new label, ts) w.

(** ** The invariant of a sink *)

(** Threads that hold the terminal, that have written the status, that have drained the watchers,
    that have notified. *)
Definition wins (t : Thread) : Prop :=
  match t with
  | EmitStatus _ | EmitPush _ | EmitNotify _ | EmitSend _ _ | EmitClose _ | Emitted => True
  | _ => False
  end.
Definition told (t : Thread) : Prop :=
  match t with
  | EmitPush _ | EmitNotify _ | EmitSend _ _ | EmitClose _ | Emitted => True
  | _ => False
  end.
Definition drained (t : Thread) : Prop :=
  match t with EmitSend _ _ | EmitClose _ | Emitted => True | _ => False end.
Definition notified (t : Thread) : Prop :=
  match t with EmitClose _ | Emitted => True | _ => False end.

Definition emits (t : Thread) : option LifeStatus :=
  match t with
  | EmitSwap e | EmitStatus e | EmitPush e | EmitNotify e | EmitSend e _ | EmitClose e => Some e
  | _ => None
  end.

Definition lane (t : Thread) : option nat :=
  match t with WatchDecide l | WatchSend l _ | Watched l => Some l | _ => None end.

(** The lanes a thread has drained and not yet sent on; the threads that hold the lock. *)
Definition queue (t : Thread) : list nat := match t with EmitSend _ ls => ls | _ => [] end.
Definition locks (t : Thread) : Prop :=
  match t with WatchDecide _ | EmitSend _ _ => True | _ => False end.

Definition any (P : Thread → Prop) (ts : list Thread) : Prop := ∃ i t, ts !! i = Some t ∧ P t.

(** What was delivered on lane [l]; whether it is still to be sent on. *)
Definition sent (s : LifeSink) (l : nat) : option (list Record_) := delivered <$> lanes s !! l.
Definition enrolled (s : LifeSink) (ts : list Thread) (l : nat) : Prop :=
  l ∈ watchers s ∨ any (λ t, l ∈ queue t) ts.

Definition lane_ok (s : LifeSink) (ts : list Thread) (t : Thread) : Prop :=
  match t with
  | WatchDecide l => sent s l = Some [] ∧ ¬ enrolled s ts l
  | WatchSend l r =>
      sent s l = Some [] ∧ ¬ enrolled s ts l ∧ terminal_record (label s) (status s) = Some r
  | Watched l =>
      (sent s l = Some [] ∧ enrolled s ts l ∧ ¬ any notified ts)
      ∨ ∃ r, sent s l = Some [r] ∧ ¬ enrolled s ts l
             ∧ terminal_record (label s) (status s) = Some r
  | _ => True
  end.

Record inv (s : LifeSink) (ts : list Thread) : Prop := {
  i_term : any wins ts → terminal s = true;
  i_one : ∀ i j t u, ts !! i = Some t → ts !! j = Some u → wins t → wins u → i = j;
  i_emits : ∀ i t e, ts !! i = Some t → emits t = Some e → e ≠ Running ∧ (told t → status s = e);
  i_told : status s ≠ Running ↔ any told ts;
  i_lane : ∀ i t, ts !! i = Some t → lane_ok s ts t;
  i_own : ∀ i j t u l, ts !! i = Some t → ts !! j = Some u →
          lane t = Some l → lane u = Some l → i = j;
  i_enrolled : ∀ l, enrolled s ts l → l < length (lanes s);
  i_drained : any drained ts → watchers s = [];
  i_nodup : NoDup (watchers s) ∧ ∀ i t, ts !! i = Some t → NoDup (queue t);
  i_lock : ∀ i, lock s = Some i ↔ ∃ t, ts !! i = Some t ∧ locks t }.

End Sink.
