(* ===== verification/SuperviseProps.v ===== *)
(** * What supervision promises of one peer
      (src/src/runtime/supervise.rs, src/src/runtime/lifecycle.rs)

    The delays of a policy, its parse, the bound on the restarts in a window; and that whoever
    watches a sink hears its end, once, whatever the threads of the peer do and whenever the
    watchers take from their lanes. *)
From stdpp Require Import base numbers list gmap strings.
From stdpp Require Import options.
From S2P Require Import Prelude Supervise.
#[local] Set Warnings "-clear-no-such-hyp".

Module SinkProps.
Import Sink.
Implicit Types (s : LifeSink) (ts : list Thread).

Lemma any_insert P ts i t t' :
  ts !! i = Some t → any P (<[i := t']> ts) ↔ P t' ∨ ∃ j u, j ≠ i ∧ ts !! j = Some u ∧ P u.
Proof.
  intros Hi. assert (i < length ts) as Hlt by (by eapply lookup_lt_Some). split.
  - intros (j & u & Hj & Hu). destruct (decide (i = j)) as [->|Hne].
    + rewrite list_lookup_insert_eq in Hj by done. injection Hj as <-. by left.
    + rewrite list_lookup_insert_ne in Hj by done. right. exists j, u. by split_and!.
  - intros [Ht'|(j & u & Hne & Hj & Hu)].
    + exists i, t'. by rewrite list_lookup_insert_eq.
    + exists j, u. by rewrite list_lookup_insert_ne.
Qed.

(** A step between thread states that agree on [P]. *)
Lemma any_same P ts i t t' :
  ts !! i = Some t → (P t' ↔ P t) → any P (<[i := t']> ts) ↔ any P ts.
Proof.
  intros Hi HP. rewrite (any_insert P ts i t t' Hi). split.
  - intros [Ht'|(j & u & _ & Hj & Hu)]; [exists i, t; by rewrite <-HP|by exists j, u].
  - intros (j & u & Hj & Hu). destruct (decide (j = i)) as [->|Hne].
    + simplify_eq. left. by apply HP.
    + right. eauto.
Qed.

Lemma lookup_step ts i t t' j u :
  ts !! i = Some t → <[i := t']> ts !! j = Some u → (j = i ∧ u = t') ∨ (j ≠ i ∧ ts !! j = Some u).
Proof.
  intros Hi. assert (i < length ts) by (by eapply lookup_lt_Some).
  destruct (decide (i = j)) as [->|Hne].
  - rewrite list_lookup_insert_eq by done. intros [= <-]. by left.
  - rewrite list_lookup_insert_ne by done. by right.
Qed.

Lemma terminal_record_running l e : terminal_record l e = None ↔ e = Running.
Proof. by destruct e. Qed.

(** ** Lanes *)

Lemma sent_try_send r s l j :
  sent (try_send r s l) j
  = if decide (j = l) then delivered ∘ send_lane r <$> lanes s !! j else sent s j.
Proof.
  unfold sent. simpl. destruct (decide (j = l)) as [->|].
  - rewrite list_lookup_alter_eq. by destruct (lanes s !! l).
  - by rewrite list_lookup_alter_ne.
Qed.

(** Nothing was delivered on the lane: the record is. *)
Lemma sent_first r s l : sent s l = Some [] → sent (try_send r s l) l = Some [r].
Proof.
  intros Hs. rewrite sent_try_send, decide_True by done. unfold sent in Hs.
  destruct (lanes s !! l) as [[x hd]|]; [|done]. unfold delivered in *. simpl in *.
  injection Hs as [-> Hx]%app_eq_nil. by destruct x.
Qed.

Lemma sent_other r s l j : j ≠ l → sent (try_send r s l) j = sent s j.
Proof. intros. by rewrite sent_try_send, decide_False. Qed.

Lemma sent_bound s l x : sent s l = Some x → l < length (lanes s).
Proof.
  unfold sent. destruct (lanes s !! l) eqn:E; [|done]. intros _. by eapply lookup_lt_Some.
Qed.

(** ** Steps *)

(** Nothing the invariant speaks of changes but the state of a thread that has no lane. *)
Record same_sink s s' : Prop := {
  ss_label : label s' = label s;
  ss_status : status s' = status s;
  ss_watchers : watchers s' = watchers s;
  ss_sent : ∀ l, sent s' l = sent s l;
  ss_length : length (lanes s') = length (lanes s);
  ss_lock : lock s' = lock s }.

Lemma lane_ok_same s s' ts ts' t :
  label s' = label s → status s' = status s → (∀ l, lane t = Some l → sent s' l = sent s l) →
  (any notified ts' ↔ any notified ts) →
  (∀ l, lane t = Some l → enrolled s' ts' l ↔ enrolled s ts l) →
  lane_ok s ts t → lane_ok s' ts' t.
Proof.
  intros E1 E2 E3 Hn He. destruct t; try done; simpl;
    rewrite ?E1, ?E2, ?(E3 _ eq_refl); pose proof (He _ eq_refl); naive_solver.
Qed.

Lemma enrolled_same s s' ts i t t' l :
  ts !! i = Some t → watchers s' = watchers s → queue t' = queue t →
  enrolled s' (<[i := t']> ts) l ↔ enrolled s ts l.
Proof.
  intros Hi Hw Hq. unfold enrolled. rewrite Hw. f_equiv. apply (any_same _ _ _ _ _ Hi). by rewrite Hq.
Qed.

Lemma lock_same s s' ts i t t' :
  ts !! i = Some t → lock s' = lock s → (locks t' ↔ locks t) →
  (∀ j, lock s = Some j ↔ ∃ u, ts !! j = Some u ∧ locks u) →
  ∀ j, lock s' = Some j ↔ ∃ u, <[i := t']> ts !! j = Some u ∧ locks u.
Proof.
  intros Hi El Hlk Hlock j. rewrite El, Hlock.
  assert (i < length ts) by (by eapply lookup_lt_Some). destruct (decide (i = j)) as [->|Hne].
  - rewrite list_lookup_insert_eq by done. naive_solver.
  - by rewrite list_lookup_insert_ne.
Qed.

(** The part of the invariant about lanes. *)
Definition lanes_ok s ts : Prop :=
  (∀ i t, ts !! i = Some t → lane_ok s ts t)
  ∧ (∀ i j t u l, ts !! i = Some t → ts !! j = Some u →
       lane t = Some l → lane u = Some l → i = j)
  ∧ (∀ l, enrolled s ts l → l < length (lanes s))
  ∧ (any drained ts → watchers s = [])
  ∧ (NoDup (watchers s) ∧ ∀ i t, ts !! i = Some t → NoDup (queue t))
  ∧ ∀ i, lock s = Some i ↔ ∃ t, ts !! i = Some t ∧ locks t.

(** When a thread without a lane goes on without one. *)
Lemma lanes_inv s s' ts i t t' :
  inv s ts → ts !! i = Some t → same_sink s s' → lane t = None → lane t' = None →
  (notified t' ↔ notified t) → (drained t' ↔ drained t) → (locks t' ↔ locks t) →
  queue t' = queue t → lanes_ok s' (<[i := t']> ts).
Proof.
  intros [_ _ _ _ Hlane Hown Hw Hdr [Hnd Hq] Hlock] Hi Hs Hl Hl' Hn Hd Hk Hqt.
  destruct Hs as [E1 E2 E3 E4 E5 E6]. split_and!.
  - intros j u [[-> ->]|[Hne Hj]]%(lookup_step _ _ _ _ _ _ Hi); [by destruct t'|].
    apply (lane_ok_same s s' ts); [done|done|done|by eapply any_same| |by eapply Hlane].
    intros l _. by eapply enrolled_same.
  - intros j k u v l [[-> ->]|[Hne Hj]]%(lookup_step _ _ _ _ _ _ Hi); [congruence|].
    intros [[-> ->]|[Hne' Hk']]%(lookup_step _ _ _ _ _ _ Hi); [congruence|]. eauto.
  - intros l He. rewrite E5. apply Hw. by eapply (enrolled_same s s' ts i t t').
  - rewrite E3. intros Ha. apply Hdr. revert Ha. by eapply any_same.
  - by rewrite E3.
  - intros j u [[-> ->]|[Hne Hj]]%(lookup_step _ _ _ _ _ _ Hi); [rewrite Hqt|]; by eapply Hq.
  - by eapply lock_same.
Qed.

(** The part about emissions, when a thread that has won goes on. *)
Lemma emission_inv s s' ts i t t' e :
  inv s ts → ts !! i = Some t → terminal s' = terminal s → status s' = status s →
  wins t → told t → wins t' → told t' → emits t = Some e → (∀ e', emits t' = Some e' → e' = e) →
  lanes_ok s' (<[i := t']> ts) → inv s' (<[i := t']> ts).
Proof.
  intros Hinv Hi Ht Hst Hw Htold Hw' Htold' He He' (L1 & L2 & L3 & L4 & L5 & L6).
  destruct Hinv as [H1 H2 H3 H4 _ _ _ _ _ _]. destruct (H3 i t e Hi He) as [Hne Hse].
  split; [| | | |done..].
  - intros _. rewrite Ht. apply H1. by exists i, t.
  - intros j k u v Hj Hk Hu Hv.
    apply (lookup_step _ _ _ _ _ _ Hi) in Hj as [[-> ->]|[Hnj Hj]];
      apply (lookup_step _ _ _ _ _ _ Hi) in Hk as [[-> ->]|[Hnk Hk]]; [done|..].
    + by eapply (H2 i k).
    + by eapply (H2 j i).
    + by eapply H2.
  - intros j u e1 Hj He1. rewrite Hst.
    apply (lookup_step _ _ _ _ _ _ Hi) in Hj as [[-> ->]|[Hnj Hj]]; [|by eapply H3].
    rewrite (He' _ He1). split; [done|auto].
  - rewrite Hst, H4. symmetry. eapply any_same; [done|]. by split.
Qed.

Lemma swap_inv s ts i e :
  inv s ts → ts !! i = Some (EmitSwap e) →
  inv (set_terminal s) (<[i := if terminal s then Lost else EmitStatus e]> ts).
Proof.
  intros Hinv Hi. set (t' := if terminal s then Lost else EmitStatus e).
  assert (lane t' = None ∧ ¬ notified t' ∧ ¬ told t' ∧ ¬ drained t' ∧ ¬ locks t' ∧ queue t' = [])
    as (Hl & Hn & Ht & Hd & Hk & Hq) by (subst t'; destruct (terminal s); simpl; tauto).
  destruct (lanes_inv s (set_terminal s) ts i (EmitSwap e) t' Hinv Hi)
    as (L1 & L2 & L3 & L4 & L5 & L6); [by split|done..|].
  destruct Hinv as [H1 H2 H3 H4 _ _ _ _ _ _]. split; [done| | | |done..].
  - intros j k u v Hj Hk' Hu Hv.
    apply (lookup_step _ _ _ _ _ _ Hi) in Hj as [[-> ->]|[Hne Hj]];
      apply (lookup_step _ _ _ _ _ _ Hi) in Hk' as [[-> ->]|[Hne' Hk']]; [done| | |by eapply H2].
    all: subst t'; destruct (terminal s) eqn:E; [done|].
    all: assert (false = true); [apply H1; unfold any; eauto|done].
  - intros j u e' Hj He'. apply (lookup_step _ _ _ _ _ _ Hi) in Hj as [[-> ->]|[Hne Hj]];
      [|by eapply H3].
    destruct (H3 i (EmitSwap e) e Hi eq_refl) as [He _].
    subst t'; destruct (terminal s); [done|]. injection He' as <-. by split.
  - simpl. rewrite H4. symmetry. eapply any_same; [done|]. by split.
Qed.

Lemma status_inv s ts i e :
  inv s ts → ts !! i = Some (EmitStatus e) → inv (set_status e s) (<[i := EmitPush e]> ts).
Proof.
  intros Hinv Hi. pose proof Hinv as [H1 H2 H3 H4 H5 H6 H7 H8 H9 H10].
  destruct (H3 i _ e Hi eq_refl) as [He _].
  assert (∀ j u, ts !! j = Some u → wins u → j = i) as Hone
    by (intros j u Hj Hu; by eapply (H2 j i)).
  assert (¬ any told ts) as Hnt.
  { intros (j & u & Hj & Hu). assert (j = i) as -> by (apply (Hone j u Hj); by destruct u).
    by simplify_eq. }
  assert (status s = Running) as Hrun by (destruct (decide (status s = Running)); [done|tauto]).
  assert (any notified (<[i := EmitPush e]> ts) ↔ any notified ts) as Hnot by (by eapply any_same).
  assert (∀ l, enrolled (set_status e s) (<[i := EmitPush e]> ts) l ↔ enrolled s ts l) as Hen
    by (intros l; by eapply enrolled_same).
  split.
  - intros _. apply H1. by exists i, (EmitStatus e).
  - intros j k u v Hj Hk Hu Hv.
    apply (lookup_step _ _ _ _ _ _ Hi) in Hj as [[-> ->]|[Hne Hj]];
      apply (lookup_step _ _ _ _ _ _ Hi) in Hk as [[-> ->]|[Hne' Hk]]; [done| | |].
    + symmetry. by eapply Hone.
    + by eapply Hone.
    + by eapply H2.
  - intros j u e' Hj He'. apply (lookup_step _ _ _ _ _ _ Hi) in Hj as [[-> ->]|[Hne Hj]].
    + injection He' as <-. by split.
    + destruct (H3 j u e' Hj He') as [? _]. split; [done|]. intros Hu.
      destruct Hne. apply (Hone j u Hj). by destruct u.
  - simpl. split; [|done]. intros _. apply (any_insert _ _ _ _ _ Hi). by left.
  - intros j u Hj. apply (lookup_step _ _ _ _ _ _ Hi) in Hj as [[-> ->]|[Hne Hj]]; [done|].
    pose proof (H5 j u Hj) as Hok. unfold lane_ok in *. rewrite Hrun in Hok.
    destruct u as [| | | | | | | | |l|l r|l]; try done; specialize (Hen l);
      unfold sent in *; simpl in Hok |- *; naive_solver.
  - intros j k u v l Hj Hk Hu Hv.
    apply (lookup_step _ _ _ _ _ _ Hi) in Hj as [[-> ->]|[Hne Hj]]; [done|].
    apply (lookup_step _ _ _ _ _ _ Hi) in Hk as [[-> ->]|[Hne' Hk]]; [done|]. by eapply H6.
  - intros l Hl%Hen. by apply H7.
  - intros Ha. apply H8. revert Ha. by eapply any_same.
  - split; [apply H9|]. intros j u [[-> ->]|[_ Hj]]%(lookup_step _ _ _ _ _ _ Hi);
      [constructor|by eapply H9].
  - by eapply lock_same.
Qed.

(** The watchers are drained: with the lock, they are the sender's. *)
Lemma drain_inv s ts i e :
  inv s ts → ts !! i = Some (EmitNotify e) → lock s = None →
  inv (set_lock (Some i) (set_watchers [] s)) (<[i := EmitSend e (watchers s)]> ts).
Proof.
  intros Hinv Hi Hlock. pose proof Hinv as [_ _ _ _ H5 H6 H7 _ [H9 H9'] H10].
  assert (any notified (<[i := EmitSend e (watchers s)]> ts) ↔ any notified ts) as Hnot
    by (by eapply any_same).
  assert (∀ l, enrolled (set_lock (Some i) (set_watchers [] s))
                 (<[i := EmitSend e (watchers s)]> ts) l ↔ enrolled s ts l) as Hen.
  { intros l. unfold enrolled. simpl. rewrite (any_insert _ _ _ _ _ Hi). simpl. split.
    - intros [Hx|[Hx|(j & u & _ & Hj & Hx)]]; [by apply elem_of_nil in Hx|by left|].
      right. by exists j, u.
    - intros [Hx|(j & u & Hj & Hx)]; [by right; left|]. right. right. exists j, u.
      split; [|done]. intros ->. simplify_eq. by apply elem_of_nil in Hx. }
  apply (emission_inv s _ ts i (EmitNotify e) _ e); try done; [by intros ? [= <-]|]. split_and!.
  - intros j u Hj. apply (lookup_step _ _ _ _ _ _ Hi) in Hj as [[-> ->]|[_ Hj]]; [done|].
    apply (lane_ok_same s _ ts); [done|done|done|done|by intros l _|by eapply H5].
  - intros j k u v l Hj Hk Hu Hv.
    apply (lookup_step _ _ _ _ _ _ Hi) in Hj as [[-> ->]|[_ Hj]]; [done|].
    apply (lookup_step _ _ _ _ _ _ Hi) in Hk as [[-> ->]|[_ Hk]]; [done|]. by eapply H6.
  - intros l Hl%Hen. by apply H7.
  - done.
  - constructor.
  - intros j u Hj. apply (lookup_step _ _ _ _ _ _ Hi) in Hj as [[-> ->]|[_ Hj]]; [done|by eapply H9'].
  - intros j. simpl. split.
    + intros [= <-]. eexists. rewrite list_lookup_insert_eq; [done|by eapply lookup_lt_Some].
    + intros (u & Hj & Hu). apply (lookup_step _ _ _ _ _ _ Hi) in Hj as [[-> ->]|[_ Hj]]; [done|].
      assert (lock s = Some j) by (apply H10; eauto). congruence.
Qed.

Lemma queue_wins t l : l ∈ queue t → wins t.
Proof. destruct t; simpl; first [done|by intros ?%elem_of_nil]. Qed.

(** While a thread sends to the lanes it drained, those alone are still to be sent on. *)
Lemma sending_enrolled s ts i e ls l :
  inv s ts → ts !! i = Some (EmitSend e ls) → enrolled s ts l ↔ l ∈ ls.
Proof.
  intros Hinv Hi. unfold enrolled. rewrite (i_drained _ _ Hinv) by (by exists i, (EmitSend e ls)).
  split.
  - intros [Hx|(j & u & Hj & Hx)]; [by apply elem_of_nil in Hx|].
    assert (j = i) as -> by (apply (i_one _ _ Hinv j i u (EmitSend e ls));
      [done|done|by eapply queue_wins|done]).
    by simplify_eq.
  - intros Hx. right. by exists i, (EmitSend e ls).
Qed.

Lemma send_inv s ts i e l ls r :
  inv s ts → ts !! i = Some (EmitSend e (l :: ls)) → terminal_record (label s) e = Some r →
  inv (try_send r s l) (<[i := EmitSend e ls]> ts).
Proof.
  intros Hinv Hi Hr. pose proof Hinv as [_ _ H3 _ H5 H6 H7 H8 [H9 H9'] H10].
  destruct (H3 i _ e Hi eq_refl) as [He Hst]. specialize (Hst I).
  pose proof (H9' i _ Hi) as Hnd. simpl in Hnd. apply NoDup_cons in Hnd as [Hnin Hnd].
  assert (any notified (<[i := EmitSend e ls]> ts) ↔ any notified ts) as Hnot
    by (by eapply any_same).
  pose proof (sending_enrolled s ts i e (l :: ls)) as Hen.
  assert (∀ k, enrolled (try_send r s l) (<[i := EmitSend e ls]> ts) k ↔ k ∈ ls) as Hen'.
  { intros k. unfold enrolled. rewrite (any_insert _ _ _ _ _ Hi). simpl.
    rewrite (H8 ltac:(by eexists i, _)). split; [|by right; left].
    intros [Hx|[Hx|(j & u & Hne & Hj & Hx)]]; [by apply elem_of_nil in Hx|done|].
    destruct Hne. apply (i_one _ _ Hinv j i u (EmitSend e (l :: ls))); [done|done| |done].
    by eapply queue_wins. }
  apply (emission_inv s _ ts i (EmitSend e (l :: ls)) _ e); try done; [by intros ? [= <-]|].
  split_and!.
  - intros j u Hj. apply (lookup_step _ _ _ _ _ _ Hi) in Hj as [[-> ->]|[_ Hj]]; [done|].
    pose proof (H5 j u Hj) as Hok. destruct (decide (lane u = Some l)) as [Hu|Hu].
    + assert (enrolled s ts l) as Hin by (apply Hen; [done|done|set_solver]).
      destruct u; try done; injection Hu as ->; simpl in Hok; [tauto|tauto|].
      destruct Hok as [(Hs & _ & _)|(r' & _ & Hno & _)]; [|done]. right. exists r.
      rewrite Hen'. split_and!; [by apply sent_first|done|]. simpl. by rewrite Hst.
    + apply (lane_ok_same s _ ts); [done|done| |done| |done].
      * intros k Hk. apply sent_other. congruence.
      * intros k Hk. rewrite Hen', (Hen k Hinv Hi). assert (k ≠ l) by congruence. set_solver.
  - intros j k u v l' Hj Hk Hu Hv.
    apply (lookup_step _ _ _ _ _ _ Hi) in Hj as [[-> ->]|[_ Hj]]; [done|].
    apply (lookup_step _ _ _ _ _ _ Hi) in Hk as [[-> ->]|[_ Hk]]; [done|]. by eapply H6.
  - intros k Hk%Hen'. simpl. rewrite length_alter. apply H7, Hen; [done|done|set_solver].
  - intros _. apply H8. by eexists i, _.
  - done.
  - intros j u Hj. apply (lookup_step _ _ _ _ _ _ Hi) in Hj as [[-> ->]|[_ Hj]]; [done|by eapply H9'].
  - by eapply lock_same.
Qed.

(** All drained lanes were sent on. *)
Lemma sent_all_inv s ts i e :
  inv s ts → ts !! i = Some (EmitSend e []) →
  inv (set_lock None s) (<[i := EmitClose e]> ts).
Proof.
  intros Hinv Hi. pose proof Hinv as [_ _ _ _ H5 H6 H7 H8 [H9 H9'] H10].
  pose proof (λ l, sending_enrolled s ts i e [] l Hinv Hi) as Hen.
  assert (∀ l, enrolled (set_lock None s) (<[i := EmitClose e]> ts) l ↔ enrolled s ts l) as Hen'
    by (intros l; by eapply enrolled_same).
  apply (emission_inv s _ ts i (EmitSend e []) _ e); try done; [by intros ? [= <-]|]. split_and!.
  - intros j u Hj. apply (lookup_step _ _ _ _ _ _ Hi) in Hj as [[-> ->]|[_ Hj]]; [done|].
    pose proof (H5 j u Hj) as Hok. destruct u; try done; simpl in Hok |- *; rewrite Hen'; [done..|].
    destruct Hok as [(_ & Hin%Hen & _)|Hok]; [by apply elem_of_nil in Hin|]. right.
    destruct Hok as (r & ? & ? & ?). exists r. by rewrite Hen'.
  - intros j k u v l' Hj Hk Hu Hv.
    apply (lookup_step _ _ _ _ _ _ Hi) in Hj as [[-> ->]|[_ Hj]]; [done|].
    apply (lookup_step _ _ _ _ _ _ Hi) in Hk as [[-> ->]|[_ Hk]]; [done|]. by eapply H6.
  - intros l Hl%Hen'. by apply H7.
  - intros _. apply H8. by eexists i, _.
  - done.
  - intros j u Hj. apply (lookup_step _ _ _ _ _ _ Hi) in Hj as [[-> ->]|[_ Hj]];
      [constructor|by eapply H9'].
  - intros j. simpl. split; [done|]. intros (u & Hj & Hu).
    apply (lookup_step _ _ _ _ _ _ Hi) in Hj as [[-> ->]|[Hne Hj]]; [done|].
    assert (lock s = Some j) by (apply H10; eauto).
    assert (lock s = Some i) by (apply H10; by eexists). congruence.
Qed.

(** A step of a watcher: the terminal and the status stay. *)
Lemma watcher_inv s s' ts i t t' :
  inv s ts → ts !! i = Some t → terminal s' = terminal s → status s' = status s →
  (emits t = None ∧ ¬ wins t) → (emits t' = None ∧ ¬ wins t') →
  (∀ j u, <[i := t']> ts !! j = Some u → lane_ok s' ts u) →
  (∀ j u l, lane t' = Some l → j ≠ i → ts !! j = Some u → lane u = Some l → False) →
  (∀ l, enrolled s' ts l → l < length (lanes s')) →
  (any drained ts → watchers s' = []) → NoDup (watchers s') →
  (∀ j, lock s' = Some j ↔ ∃ u, <[i := t']> ts !! j = Some u ∧ locks u) →
  inv s' (<[i := t']> ts).
Proof.
  intros [H1 H2 H3 H4 H5 H6 H7 H8 [H9 H9'] H10] Hi Et Es (Ne & Nw) (Ne' & Nw') Hl Ho Hw Hdr Hnd Hk.
  assert (Hany : ∀ P : Thread → Prop, (∀ u, P u → wins u) → any P (<[i := t']> ts) ↔ any P ts).
  { intros P HP. apply (any_same _ _ _ _ _ Hi). split; intros ?%HP; done. }
  assert (Hen : ∀ l, enrolled s' (<[i := t']> ts) l ↔ enrolled s' ts l).
  { intros l. unfold enrolled. rewrite Hany; [done|]. intros u. apply queue_wins. }
  assert (Hnot : any notified (<[i := t']> ts) ↔ any notified ts)
    by (apply Hany; intros u; by destruct u).
  split; [| | | | | | | | |done].
  - rewrite Et, Hany by done. done.
  - intros j k u v Hj Hk' Hu Hv.
    apply (lookup_step _ _ _ _ _ _ Hi) in Hj as [[-> ->]|[_ Hj]]; [done|].
    apply (lookup_step _ _ _ _ _ _ Hi) in Hk' as [[-> ->]|[_ Hk']]; [done|]. by eapply H2.
  - intros j u e Hj He. rewrite Es.
    apply (lookup_step _ _ _ _ _ _ Hi) in Hj as [[-> ->]|[_ Hj]]; [congruence|by eapply H3].
  - rewrite Es, H4, Hany; [done|]. intros u. by destruct u.
  - intros j u Hj. apply (lane_ok_same s' s' ts); [done|done|done|done| |by eapply Hl].
    intros l _. apply Hen.
  - intros j k u v l Hj Hk' Hu Hv.
    apply (lookup_step _ _ _ _ _ _ Hi) in Hj as [[-> ->]|[Hnj Hj]];
      apply (lookup_step _ _ _ _ _ _ Hi) in Hk' as [[-> ->]|[Hnk Hk']]; [done| | |].
    + destruct (Ho k v l); done.
    + destruct (Ho j u l); done.
    + by eapply H6.
  - intros l Hl'%Hen. by apply Hw.
  - rewrite Hany; [done|]. intros u. by destruct u.
  - split; [done|]. intros j u Hj.
    apply (lookup_step _ _ _ _ _ _ Hi) in Hj as [[-> ->]|[_ Hj]]; [|by eapply H9'].
    destruct t'; try constructor. by destruct Nw'.
Qed.

Lemma lane_bound s ts i t l : inv s ts → ts !! i = Some t → lane t = Some l → l < length (lanes s).
Proof.
  intros Hinv Hi Hl. pose proof (i_lane _ _ Hinv i t Hi) as Hok.
  destruct t; try done; injection Hl as <-; simpl in Hok.
  - destruct Hok as [? _]. by eapply sent_bound.
  - destruct Hok as [? _]. by eapply sent_bound.
  - destruct Hok as [(? & _)|(? & ? & _)]; by eapply sent_bound.
Qed.

Lemma lock_inv s ts i :
  inv s ts → ts !! i = Some WatchLock → lock s = None →
  inv (set_lock (Some i) (mint s).2) (<[i := WatchDecide (length (lanes s))]> ts).
Proof.
  intros Hinv Hi Hlock.
  eapply watcher_inv; [done|done|done|done|by split; simpl; tauto|by split; simpl; tauto|..].
  - intros j u Hj. apply (lookup_step _ _ _ _ _ _ Hi) in Hj as [[-> ->]|[_ Hj]]; simpl.
    + split; [unfold sent; simpl; unfold vec_push; by rewrite list_lookup_middle|].
      intros Hin%(i_enrolled _ _ Hinv). lia.
    + apply (lane_ok_same s _ ts); [done|done| |done|done|by apply (i_lane _ _ Hinv j)].
      intros l Hu. pose proof (lane_bound s ts j u l Hinv Hj Hu). unfold sent. simpl.
      unfold vec_push. by rewrite lookup_app_l.
  - intros j u l [= <-] _ Hj Hu. pose proof (lane_bound s ts j u _ Hinv Hj Hu). lia.
  - simpl. unfold vec_push. intros l Hin%(i_enrolled _ _ Hinv). rewrite length_app. lia.
  - apply (i_drained _ _ Hinv).
  - apply (i_nodup _ _ Hinv).
  - intros j. simpl. split.
    + intros [= <-]. eexists. rewrite list_lookup_insert_eq; [done|by eapply lookup_lt_Some].
    + intros (u & Hj & Hu). apply (lookup_step _ _ _ _ _ _ Hi) in Hj as [[-> _]|[_ Hj]]; [done|].
      assert (lock s = Some j) by (apply (i_lock _ _ Hinv); eauto). congruence.
Qed.

(** The lock is free once its holder goes on. *)
Lemma unlocked s ts i t t' :
  inv s ts → ts !! i = Some t → locks t → ¬ locks t' →
  ∀ j, None = Some j ↔ ∃ u, <[i := t']> ts !! j = Some u ∧ locks u.
Proof.
  intros Hinv Hi Ht Ht' j. split; [done|]. intros (u & Hj & Hu).
  apply (lookup_step _ _ _ _ _ _ Hi) in Hj as [[-> ->]|[Hne Hj]]; [done|].
  assert (lock s = Some j) by (apply (i_lock _ _ Hinv); eauto).
  assert (lock s = Some i) by (apply (i_lock _ _ Hinv); eauto). congruence.
Qed.

Lemma decide_inv s ts i l t' s' :
  inv s ts → ts !! i = Some (WatchDecide l) → step i (WatchDecide l) s = Some (t', s') →
  inv s' (<[i := t']> ts).
Proof.
  intros Hinv Hi. pose proof (i_lane _ _ Hinv i _ Hi) as [Hl Hw]. simpl.
  assert (Hown : ∀ j u l', Some l = Some l' → j ≠ i → ts !! j = Some u → lane u = Some l' → False).
  { intros j u l' [= <-] Hne Hj Hu. apply Hne. by eapply (i_own _ _ Hinv). }
  destruct (terminal_record (label s) (status s)) as [r|] eqn:Hr; intros [= <- <-].
  - eapply watcher_inv; [done|done|done|done|by split; simpl; tauto|by split; simpl; tauto| |exact Hown|..].
    + intros j u Hj. apply (lookup_step _ _ _ _ _ _ Hi) in Hj as [[-> ->]|[_ Hj]]; simpl;
        [by split_and!|]. by apply (i_lane _ _ Hinv j u).
    + apply (i_enrolled _ _ Hinv).
    + apply (i_drained _ _ Hinv).
    + apply (i_nodup _ _ Hinv).
    + eapply unlocked; [done|done|exact I|by intros []].
  - apply terminal_record_running in Hr.
    assert (Hno : ∀ P : Thread → Prop, (∀ u, P u → told u) → ¬ any P ts).
    { intros P HP (j & u & Hj & Hu). assert (any told ts) as Ha
        by (exists j, u; split; [done|by apply HP]). by apply (i_told _ _ Hinv) in Ha. }
    assert (∀ k, enrolled (set_lock None (set_watchers (vec_push (watchers s) l) s)) ts k
                 ↔ enrolled s ts k ∨ k = l) as Hen.
    { intros k. unfold enrolled. simpl. unfold vec_push. rewrite elem_of_app, list_elem_of_singleton.
      tauto. }
    eapply watcher_inv; [done|done|done|done|by split; simpl; tauto|by split; simpl; tauto| |exact Hown|..].
    + intros j u Hj. apply (lookup_step _ _ _ _ _ _ Hi) in Hj as [[-> ->]|[Hne Hj]].
      * left. split_and!; [done|apply Hen; by right|apply Hno; intros u; by destruct u].
      * apply (lane_ok_same s _ ts); [done|done|done|done| |by apply (i_lane _ _ Hinv j)].
        intros k Hu. rewrite Hen. split; [|by left]. intros [?| ->]; [done|].
        destruct (Hown j u l eq_refl Hne Hj Hu).
    + intros k [Hk| ->]%Hen; [by apply (i_enrolled _ _ Hinv)|by eapply sent_bound].
    + intros []%Hno. intros u. by destruct u.
    + simpl. unfold vec_push. apply NoDup_app. split_and!; [apply (i_nodup _ _ Hinv)| |apply NoDup_singleton].
      intros k Hk ->%list_elem_of_singleton. apply Hw. by left.
    + eapply unlocked; [done|done|exact I|by intros []].
Qed.

Lemma watch_send_inv s ts i l r :
  inv s ts → ts !! i = Some (WatchSend l r) → inv (try_send r s l) (<[i := Watched l]> ts).
Proof.
  intros Hinv Hi. pose proof (i_lane _ _ Hinv i _ Hi) as (Hl & Hw & Hr).
  assert (Hown : ∀ j u l', Some l = Some l' → j ≠ i → ts !! j = Some u → lane u = Some l' → False).
  { intros j u l' [= <-] Hne Hj Hu. apply Hne. by eapply (i_own _ _ Hinv). }
  eapply watcher_inv; [done|done|done|done|by split; simpl; tauto|by split; simpl; tauto| |exact Hown|..].
  - intros j u Hj. apply (lookup_step _ _ _ _ _ _ Hi) in Hj as [[-> ->]|[Hne Hj]].
    + right. exists r. split_and!; [by apply sent_first|done|done].
    + apply (lane_ok_same s _ ts); [done|done| |done|done|by apply (i_lane _ _ Hinv j)].
      intros k Hu. apply sent_other. intros ->. by apply (Hown j u l).
  - simpl. intros k Hk. rewrite length_alter. by apply (i_enrolled _ _ Hinv).
  - apply (i_drained _ _ Hinv).
  - apply (i_nodup _ _ Hinv).
  - eapply lock_same; [done|done|done|]. apply (i_lock _ _ Hinv).
Qed.

Lemma same_state_inv s s' ts : inv s ts → same_sink s s' → terminal s' = terminal s → inv s' ts.
Proof.
  intros [H1 H2 H3 H4 H5 H6 H7 H8 H9 H10] Hs Ht. pose proof Hs as [E1 E2 E3 E4 E5 E6].
  assert (∀ l, enrolled s' ts l ↔ enrolled s ts l) as Hen by (intros l; unfold enrolled; by rewrite E3).
  split; rewrite ?E1, ?E2, ?E3, ?E5, ?E6, ?Ht; try done.
  - intros i t Hi. apply (lane_ok_same s s' ts ts); [done..|]. by eapply H5.
  - intros l Hl%Hen. by apply H7.
Qed.

Lemma push_same r s : same_sink s (push r s) ∧ terminal (push r s) = terminal s.
Proof. unfold push. by destruct (_ || _). Qed.

Lemma hear_same l s s' : hear l s = Some s' → same_sink s s' ∧ terminal s' = terminal s.
Proof.
  unfold hear. destruct (lanes s !! l) as [ln|] eqn:Hl; [|done]. simpl.
  destruct (pending ln) as [r|] eqn:Hp; [|done]. intros [= <-]. split; [|done].
  split; try done; simpl; [|by rewrite length_insert].
  intros k. unfold sent. simpl. destruct (decide (l = k)) as [->|].
  - rewrite list_lookup_insert_eq by (by eapply lookup_lt_Some). rewrite Hl. simpl.
    unfold delivered. by rewrite Hp, app_nil_r.
  - by rewrite list_lookup_insert_ne.
Qed.

Lemma sink_step_inv s ts i t t' s' :
  inv s ts → ts !! i = Some t → step i t s = Some (t', s') → inv s' (<[i := t']> ts).
Proof.
  intros Hinv Hi. destruct t as [e|e|e|e|e [|l ls]|e| | | |l|l r|l]; simpl; try done.
  - intros [= <- <-]. by apply (swap_inv s ts i e).
  - intros [= <- <-]. by apply status_inv.
  - intros [= <- <-]. destruct (i_emits _ _ Hinv i _ e Hi eq_refl) as [He Hst].
    destruct (terminal_record (label s) e) as [r|] eqn:Hr;
      [|by apply terminal_record_running in Hr].
    destruct (push_same r s) as [Hsame ?].
    apply (emission_inv s _ ts i (EmitPush e) _ e); try done;
      [apply Hsame|by intros ? [= <-]|by eapply lanes_inv].
  - destruct (lock s) eqn:Hlock; [done|]. intros [= <- <-]. by apply drain_inv.
  - intros [= <- <-]. by apply sent_all_inv.
  - intros [= <- <-]. destruct (i_emits _ _ Hinv i _ e Hi eq_refl) as [He Hst].
    destruct (terminal_record (label s) e) as [r|] eqn:Hr;
      [|by apply terminal_record_running in Hr]. by apply send_inv.
  - intros [= <- <-]. apply (emission_inv s (close s) ts i (EmitClose e) Emitted e); try done.
    by apply (lanes_inv s (close s) ts i (EmitClose e) Emitted).
  - destruct (lock s) eqn:Hlock; [done|]. intros [= <- <-]. by apply lock_inv.
  - intros Hs. by eapply decide_inv.
  - intros [= <- <-]. by apply watch_send_inv.
Qed.

Lemma sink_start_inv l ts : Forall fresh ts → inv (new l) ts.
Proof.
  rewrite Forall_lookup. intros Hf.
  assert (∀ i t, ts !! i = Some t →
    ¬ wins t ∧ lane t = None ∧ lane_ok (new l) ts t ∧ ¬ locks t ∧ queue t = [] ∧ emits t ≠ Some Running)
    as Hs.
  { intros i t Hi. specialize (Hf i t Hi). destruct t; try done; simpl in *;
      split_and!; first [tauto|congruence]. }
  assert (Hno : ∀ P : Thread → Prop, (∀ u, P u → wins u) → ¬ any P ts).
  { intros P HP (i & t & Hi & Ht%HP). by destruct (Hs i t Hi). }
  split.
  - by intros []%Hno.
  - intros i j t u Hi _ Ht. by destruct (Hs i t Hi).
  - intros i t e Hi He. destruct (Hs i t Hi) as (Hw & _ & _ & _ & _ & Hn).
    split; [congruence|]. intros Ht. destruct Hw. by destruct t.
  - simpl. split; [done|]. intros []%Hno. intros u. by destruct u.
  - intros i t Hi. apply (Hs i t Hi).
  - intros i j t u k Hi _ Ht. destruct (Hs i t Hi) as (_ & ? & _). congruence.
  - intros k [Hk|(i & t & Hi & Hk)]; [by apply elem_of_nil in Hk|].
    destruct (Hs i t Hi) as (_ & _ & _ & _ & E & _). rewrite E in Hk. by apply elem_of_nil in Hk.
  - done.
  - split; [constructor|]. intros i t Hi. destruct (Hs i t Hi) as (_ & _ & _ & _ & -> & _). constructor.
  - simpl. intros i. split; [done|]. intros (t & Hi & Ht). by destruct (Hs i t Hi) as (_ & _ & _ & ? & _).
Qed.

(** A step that is no thread's: a consumer takes a record, a receiver its lane's. *)
Lemma steps_inv w w' : steps_to w w' → inv w.1 w.2 → inv w'.1 w'.2.
Proof.
  intros Hst Hinv. destruct Hst as [s ts i t t' s' Hi Hs|s ts r s' Ht|s ts l s' Hh]; simpl in *.
  - by eapply sink_step_inv.
  - unfold take in Ht. destruct (staged s); [done|]. injection Ht as <- <-.
    by eapply same_state_inv.
  - apply hear_same in Hh as [? ?]. by eapply same_state_inv.
Qed.

Lemma sink_reachable_inv s ts : reachable (s, ts) → inv s ts.
Proof.
  intros (l & ts0 & Hf & Hr).
  assert (∀ w w', rtc steps_to w w' → inv w.1 w.2 → inv w'.1 w'.2) as Hall.
  { clear. induction 1; eauto using steps_inv. }
  by apply (Hall _ _ Hr), sink_start_inv.
Qed.

(** The lane of a watcher: nothing was delivered, or the record of the end. *)
Lemma lane_holds s ts i t l :
  inv s ts → ts !! i = Some t → lane t = Some l →
  sent s l = Some [] ∨ ∃ r, terminal_record (label s) (status s) = Some r ∧ sent s l = Some [r].
Proof.
  intros Hinv Hi Hl. pose proof (i_lane _ _ Hinv i t Hi) as Hok.
  destruct t; try done; injection Hl as <-; simpl in Hok; naive_solver.
Qed.

(** The lock is always released: a state in which no thread can go on is one in which all are
    done. *)
Lemma threads_finish s ts :
  inv s ts → (∀ i t, ts !! i = Some t → step i t s = None) →
  ∀ i t, ts !! i = Some t → t = Emitted ∨ t = Lost ∨ ∃ l, t = Watched l.
Proof.
  intros Hinv Hno i t Hi.
  assert (lock s = None) as Hlock.
  { destruct (lock s) as [j|] eqn:E; [|done]. apply (i_lock _ _ Hinv) in E as (u & Hj & Hu).
    specialize (Hno j _ Hj). destruct u as [| | | |e [|]| | | | | | |]; try done; simpl in Hno.
    by destruct (terminal_record _ _). }
  specialize (Hno i t Hi). destruct t as [| | | |e [|]| | | | | | |]; simpl in Hno;
    rewrite ?Hlock in Hno; try done; eauto. by destruct (terminal_record _ _).
Qed.

Lemma step_status s ts i t t' s' :
  inv s ts → ts !! i = Some t → step i t s = Some (t', s') → status s ≠ Running →
  status s' = status s.
Proof.
  intros Hinv Hi Hs Hst. destruct t as [e|e|e|e|e [|]| | | | | | |]; simpl in Hs; try done.
  - by injection Hs as <- <-.
  - apply (i_told _ _ Hinv) in Hst as (j & u & Hj & Hu).
    assert (j = i) as -> by (apply (i_one _ _ Hinv j i u (EmitStatus e)); [done..|by destruct u|done]).
    by simplify_eq.
  - injection Hs as <- <-. destruct (terminal_record _ _); [|done]. apply push_same.
  - destruct (lock s); [done|]. by injection Hs as <- <-.
  - by injection Hs as <- <-.
  - injection Hs as <- <-. by destruct (terminal_record _ _).
  - by injection Hs as <- <-.
  - destruct (lock s); [done|]. by injection Hs as <- <-.
  - destruct (terminal_record _ _); by injection Hs as <- <-.
  - by injection Hs as <- <-.
Qed.

(** C20: Whoever watches a peer hears its end, once.  Whatever threads emit an end (stopped or died,
    any number of them, at any time) and whatever threads come to watch, in every interleaving of
    their steps with each other and with the receivers that take from the lanes, at any time: when
    the emission that counts has notified, exactly one record was delivered on the lane of every
    watch that has returned, that of the peer's final status, and it is there to be taken or was
    taken, whether the watch enrolled before or came after; at no time was anything else, or a
    second record, delivered on a lane; and the threads cannot block each other, for a state where
    none can go on is one where all are done. *)
Theorem watch_hears_the_end_once s ts :
  reachable (s, ts) →
  (∀ i l, any notified ts → ts !! i = Some (Watched l) →
     ∃ r, terminal_record (label s) (status s) = Some r ∧ sent s l = Some [r])
  ∧ (∀ i t l, ts !! i = Some t → lane t = Some l →
       sent s l = Some []
       ∨ ∃ r, terminal_record (label s) (status s) = Some r ∧ sent s l = Some [r])
  ∧ ((∀ i t, ts !! i = Some t → step i t s = None) →
     ∀ i t, ts !! i = Some t → t = Emitted ∨ t = Lost ∨ ∃ l, t = Watched l).
Proof.
  intros Hinv%sink_reachable_inv. split_and!.
  - intros i l Hany Hi. pose proof (i_lane _ _ Hinv i _ Hi) as [(_ & _ & Hno)|(r & Hl & _ & Hr)];
      [done|eauto].
  - intros i t l. by apply lane_holds.
  - by apply threads_finish.
Qed.

(** The first end of a peer stands.  Once a peer's status says it stopped or died, no later
    emission by any thread changes it. *)
Theorem first_end_stands s ts s' ts' :
  reachable (s, ts) → rtc steps_to (s, ts) (s', ts') → status s ≠ Running → status s' = status s.
Proof.
  intros Hr Hsteps. apply sink_reachable_inv in Hr.
  assert (∀ w w', rtc steps_to w w' → inv w.1 w.2 → status w.1 ≠ Running → status w'.1 = status w.1)
    as Hall; [|by apply (Hall _ _ Hsteps)].
  clear. intros w w' Hr. induction Hr as [|w w1 w2 Hst Hr IH]; [done|]. intros Hinv Hs.
  assert (status w1.1 = status w.1) as E.
  { destruct Hst as [s ts i t t' s' Hi Hstep|s ts r s' Ht|s ts l s' Hh]; simpl in *.
    - by eapply step_status.
    - unfold take in Ht. destruct (staged s); [done|]. by injection Ht as <- <-.
    - by apply hear_same in Hh as [[] _]. }
  rewrite <-E in Hs |- *. apply IH; [by eapply steps_inv|done].
Qed.
End SinkProps.

(** ** Delays *)



(** ** The budget *)

Lemma as_u32_in_range n : (n < 2 ^ 32)%N → as_u32 n = n.
Proof. intros ?. by apply N.mod_small. Qed.

Definition window_ns (p : SupervisePolicy) : N := window_ms p * 1000000.

Lemma retain_retain p c now ds :
  (c ≤ now)%N → retain_window p now (retain_window p c ds) = retain_window p now ds.
Proof.
  intros Hc. unfold retain_window. rewrite list_filter_filter_l; [done|]. intros t. simpl. lia.
Qed.

Lemma retain_app p now ds ds' :
  retain_window p now (ds ++ ds') = retain_window p now ds ++ retain_window p now ds'.
Proof. apply filter_app. Qed.

Lemma retain_all p now ds :
  Forall (λ t, (now - t ≤ window_ns p)%N) ds → retain_window p now ds = ds.
Proof.
  intros Hall. unfold retain_window. induction Hall as [|t ds Ht Hds IH]; [done|].
  rewrite filter_cons_True by done. by rewrite IH.
Qed.

(** What the window keeps, along a life. *)
Lemma life_window p deaths attempts :
  sup_life p deaths attempts →
  (∀ d c, last attempts = Some (d, c) → deaths = retain_window p c attempts.*1)
  ∧ (attempts = [] → deaths = [])
  ∧ (∀ i j d c d' c', attempts !! i = Some (d, c) → attempts !! j = Some (d', c') → i ≤ j →
       (d ≤ d' ∧ d ≤ c ∧ c ≤ c')%N ∧ (i < j → (c ≤ d')%N)).
Proof.
  induction 1 as [|deaths attempts died now Hlife (IH1 & IH2 & IH3) Hlast Hnow Hgo].
  { split_and!; [done..|]. by intros i j d c d' c'. }
  assert (Hbefore : ∀ i d c, attempts !! i = Some (d, c) → (d ≤ died ∧ d ≤ c ∧ c ≤ died)%N).
  { intros i d c Hi. destruct (last attempts) as [[dl cl]|] eqn:Hl.
    - rewrite last_lookup in Hl. assert (i < length attempts) by (by eapply lookup_lt_Some).
      destruct (IH3 i (pred (length attempts)) d c dl cl Hi Hl) as [(? & ? & ?) _]; [lia|].
      specialize (Hlast dl cl eq_refl). lia.
    - apply last_None in Hl. by subst. }
  split_and!.
  - intros d c. rewrite last_snoc. intros [= <- <-]. simpl. unfold vec_push.
    rewrite fmap_app, !retain_app. f_equal.
    destruct (last attempts) as [[dl cl]|] eqn:Hl.
    + rewrite (IH1 _ _ eq_refl). apply retain_retain. specialize (Hlast _ _ eq_refl). lia.
    + apply last_None in Hl. subst. by rewrite IH2.
  - intros E. by apply app_eq_nil in E as [_ ?].
  - intros i j d c d' c' Hi Hj Hle.
    apply lookup_app_Some in Hj as [Hj|[Hj1 Hj]].
    + assert (j < length attempts) by (by eapply lookup_lt_Some).
      rewrite lookup_app_l in Hi by lia. by eapply IH3.
    + assert (j = length attempts) as ->
        by (apply list_lookup_singleton_Some in Hj as [? _]; lia).
      rewrite Nat.sub_diag in Hj. injection Hj as <- <-.
      apply lookup_app_Some in Hi as [Hi|[Hi1 Hi]].
      * destruct (Hbefore i d c Hi) as (? & ? & ?). split; [lia|]. intros _. lia.
      * apply list_lookup_singleton_Some in Hi as [? [= <- <-]]. split; [lia|]. lia.
Qed.

(** The attempt [max_restarts] after another starts once the other's death has left the window. *)
Lemma budget_kept p deaths attempts i d c d' c' :
  sup_life p deaths attempts → (N.of_nat (length attempts) < 2 ^ 32)%N →
  attempts !! i = Some (d, c) → attempts !! (i + N.to_nat (max_restarts p)) = Some (d', c') →
  (window_ms p * 1000000 < c' - d)%N.
Proof.
  intros Hlife. revert i d c d' c'.
  induction Hlife as [|deaths attempts died now Hlife IH Hlast Hnow Hgo];
    intros i d c d' c' Hlen Hi Hj; [done|].
  rewrite length_app in Hlen. simpl in Hlen.
  apply lookup_app_Some in Hj as [Hj|[Hj1 Hj]].
  { assert (i + N.to_nat (max_restarts p) < length attempts) by (by eapply lookup_lt_Some).
    rewrite lookup_app_l in Hi by lia. eapply IH; [lia|done..]. }
  pose proof Hj as Hj'. apply list_lookup_singleton_Some in Hj' as [Hj2 [= <- <-]].
  destruct (life_window _ _ _ (sup_attempt p deaths attempts died now Hlife Hlast Hnow Hgo))
    as (Hw & _ & Hord).
  specialize (Hw died now). rewrite last_snoc in Hw. specialize (Hw eq_refl).
  apply N.nle_gt. intros Hin.
  set (all := attempts ++ [(died, now)]) in *.
  assert (length all = i + N.to_nat (max_restarts p) + 1) as Hall
    by (subst all; rewrite length_app; simpl; lia).
  assert (retain_window p now (drop i all.*1) = drop i all.*1) as Hkept.
  { apply retain_all, Forall_lookup. intros k t Ht.
    rewrite lookup_drop, list_lookup_fmap in Ht.
    destruct (all !! (i + k)) as [[dk ck]|] eqn:Hk; [|done]. injection Ht as <-. simpl.
    destruct (Hord i (i + k) d c dk ck Hi Hk) as [(? & _ & _) _]; [lia|].
    unfold window_ns. lia. }
  assert (N.to_nat (max_restarts p) < length (retain_window p now all.*1)) as Hmany.
  { rewrite <-(take_drop i all.*1), retain_app, Hkept, length_app, length_drop, length_fmap. lia. }
  assert (length (retain_window p now all.*1) ≤ length all) as Hfew.
  { unfold retain_window. rewrite <-(length_fmap fst all). apply length_filter. }
  unfold sup_event in Hw, Hgo. simpl in Hw, Hgo. apply negb_true_iff in Hgo.
  unfold over_budget in Hgo. rewrite Hw in Hgo.
  rewrite as_u32_in_range in Hgo by (subst all; rewrite length_app in Hfew; simpl in *; lia).
  apply N.ltb_ge in Hgo. lia.
Qed.

(** The attempts whose deaths and checks lie in a stretch of time. *)
Definition answered_within (p : SupervisePolicy) (t : N) (attempts : list (N * N)) : list (N * N) :=
  filter (λ a, (t ≤ a.1 ∧ a.2 ≤ t + window_ns p)%N) attempts.

(** A list with more than [n] elements of a kind has two of them [n] or more apart. *)
Lemma far_apart {A} (P : A → Prop) `{∀ x, Decision (P x)} (l : list A) : ∀ n,
  n < length (filter P l) →
  ∃ i j x y, l !! i = Some x ∧ l !! j = Some y ∧ P x ∧ P y ∧ i + n ≤ j.
Proof.
  induction l as [|a l IH]; intros n Hn; [simpl in Hn; lia|].
  rewrite filter_cons in Hn. case_decide as Ha.
  - destruct n as [|n].
    + exists 0, 0, a, a. split_and!; [done..|lia].
    + destruct (IH n) as (i & j & x & y & Hi & Hj & Hx & Hy & Hle); [simpl in Hn; lia|].
      exists 0, (S j), a, y. split_and!; [done..|lia].
  - destruct (IH n Hn) as (i & j & x & y & Hi & Hj & Hx & Hy & Hle).
    exists (S i), (S j), x, y. split_and!; [done..|lia].
Qed.

(** C21: A supervisor keeps to its budget.  Over its whole life of fewer than 2^32 attempts, through
    restarts that succeed and attempts that fail, the supervisor of a policy of [max_restarts]
    restarts in a window answers at most [max_restarts] deaths in any stretch of time as long as
    the window: at most so many attempts have both the time their death was noted and the time of
    the check that let them start in it.  And attempt i + max_restarts is let start only by a
    check more than the window after the death that attempt i answered.  The clock does not go
    back; between the noting of a death and its check it may have gone on by any amount, so two
    deaths may be noted closer together than that when the check of the later one is late. *)
Theorem restarts_keep_to_the_budget p deaths attempts :
  sup_life p deaths attempts → (N.of_nat (length attempts) < 2 ^ 32)%N →
  (∀ t, length (answered_within p t attempts) ≤ N.to_nat (max_restarts p))
  ∧ ∀ i d c d' c', attempts !! i = Some (d, c) →
      attempts !! (i + N.to_nat (max_restarts p)) = Some (d', c') → (window_ns p < c' - d)%N.
Proof.
  intros Hlife Hlen.
  assert (Hapart : ∀ i d c d' c', attempts !! i = Some (d, c) →
    attempts !! (i + N.to_nat (max_restarts p)) = Some (d', c') → (window_ns p < c' - d)%N)
    by (intros i d c d' c'; by eapply budget_kept).
  split; [|exact Hapart]. intros t. destruct (le_lt_dec (length (answered_within p t attempts))
    (N.to_nat (max_restarts p))) as [|Hmany]; [done|exfalso].
  apply far_apart in Hmany as (i & j & [d c] & [d' c'] & Hi & Hj & Hx & Hy & Hle). simpl in *.
  assert (j < length attempts) by (by eapply lookup_lt_Some).
  destruct (lookup_lt_is_Some_2 attempts (i + N.to_nat (max_restarts p))) as [[dk ck] Hk]; [lia|].
  pose proof (Hapart _ _ _ _ _ Hi Hk) as Hw.
  destruct (life_window _ _ _ Hlife) as (_ & _ & Hord).
  destruct (Hord _ _ _ _ _ _ Hk Hj Hle) as [(_ & _ & ?) _]. lia.
Qed.

(** ** The parse *)

(** The answers of a guest object that changes nothing. *)
Definition answers {W E Value : Type} (ans : string → Value) (w : W) (sel : string) :
  W * (E + Value) := (w, inr (ans sel)).

Lemma field_bound {W E Value : Type} (call : W → string → W * (E + Value)) as_i64 w sel min w' n :
  field call as_i64 w sel min = (w', inr n) → (n ≤ U64_MAX)%N.
Proof.
  unfold field. destruct (call w sel) as [w1 [e|v]]; [done|]. destruct (as_i64 v) as [z|]; [|done].
  destruct (z <? min)%Z; [done|]. intros [= _ <-]. unfold U64_MAX.
  pose proof (Z.mod_pos_bound z (2 ^ 64)). lia.
Qed.

(** A policy that parses fits the machine.  Whatever a guest object answers, with whatever
    effects, an accepted policy has every field within its width, so the delays of every accepted
    policy are those of [delays_double_and_cap]. *)
Theorem parsed_policy_fits {W E Value : Type} (call : W → string → W * (E + Value))
    text as_i64 w w' p :
  parse_policy call text as_i64 w = (w', inr (Some p)) → policy_ok p.
Proof.
  unfold parse_policy. destruct (call w "restart") as [w1 [e|v]]; [done|].
  destruct (text v) as [mode|]; [|done].
  destruct (decide _); [done|]. destruct (decide _); [|done].
  destruct (field call as_i64 w1 "backoff" 0) as [w2 [e1|b]] eqn:Eb; [done|].
  destruct (field call as_i64 w2 "cap" 1) as [w3 [e2|c]] eqn:Ec; [done|].
  destruct (field call as_i64 w3 "max" 1) as [w4 [e3|m]] eqn:Em; [done|].
  destruct (field call as_i64 w4 "window" 1) as [w5 [e4|wd]] eqn:Ew; [done|].
  intros [= _ <-]. unfold policy_ok; simpl.
  apply field_bound in Eb, Ec, Ew. split_and!; [done..| |done].
  unfold as_u32, U32_MAX. pose proof (N.mod_lt m (2 ^ 32)). lia.
Qed.

Lemma cut_multiple k : as_u32 (Z.to_N ((k * 2 ^ 32) mod 2 ^ 64)) = 0%N.
Proof.
  unfold as_u32. change (2 ^ 64)%Z with (2 ^ 32 * 2 ^ 32)%Z. rewrite Z.mul_mod_distr_r by lia.
  pose proof (Z.mod_pos_bound k (2 ^ 32)). rewrite Z2N.inj_mul by lia.
  by apply N.Div0.mod_mul.
Qed.

(** A budget of a multiple of 2^32 restarts nothing.  A policy object whose [max] answers 2^32,
    or any positive multiple of it, is accepted, but its budget is cut to 32 bits and comes out as
    0: over the supervisor's whole life, an attempt starts only when the death it answers was
    already out of the window at its check, so a peer that dies is given up at once. *)
Theorem huge_budget_restarts_nothing {W E Value : Type} (ans : string → Value)
    text as_i64 (w : W) b c k wd :
  text (ans "restart"%string) = Some "always"%string →
  as_i64 (ans "backoff"%string) = Some b → (0 ≤ b)%Z →
  as_i64 (ans "cap"%string) = Some c → (1 ≤ c)%Z →
  as_i64 (ans "max"%string) = Some (k * 2 ^ 32)%Z → (1 ≤ k)%Z →
  as_i64 (ans "window"%string) = Some wd → (1 ≤ wd)%Z →
  ∃ p, parse_policy (E := E) (answers ans) text as_i64 w = (w, inr (Some p))
    ∧ max_restarts p = 0%N
    ∧ ∀ deaths attempts, sup_life p deaths attempts → (N.of_nat (length attempts) < 2 ^ 32)%N →
        Forall (λ a, (window_ms p * 1000000 < a.2 - a.1)%N) attempts.
Proof.
  intros Ht Hb Hb0 Hc Hc1 Hm Hk Hw Hw1. eexists. split_and!.
  - unfold parse_policy, answers, field. rewrite Ht, decide_False, decide_True by done.
    rewrite Hb, Hc, Hm, Hw, !(proj2 (Z.ltb_ge _ _)) by lia. reflexivity.
  - apply cut_multiple.
  - intros deaths attempts Hl Hlen. apply Forall_lookup. intros i [d c'] Hi.
    eapply (budget_kept _ _ _ i); [done..|]. cbn [max_restarts]. by rewrite cut_multiple, Nat.add_0_r.
Qed.

(** ** At work *)

(** A guest's answers: its symbols and its integers. *)
Definition demo_policy (max : Z) (sel : string) : string + Z :=
  if decide (sel = "restart"%string) then inl "always"%string
  else if decide (sel = "max"%string) then inr max else inr 20%Z.
Definition demo_text (v : string + Z) : option string := match v with inl s => Some s | _ => None end.
Definition demo_int (v : string + Z) : option Z := match v with inr n => Some n | _ => None end.

(** One restart in 20 ms: a death at 0, and one a second later. *)
Definition demo_life : list (N * N) := [(0, 0); (1000000000, 1000000000)]%N.

Lemma demo_lived : ∃ deaths, sup_life (mkPolicy 20 20 1 20) deaths demo_life.
Proof.
  eexists. change demo_life with ([] ++ [(0, 0)%N] ++ [(1000000000, 1000000000)]%N).
  rewrite app_assoc. eapply sup_attempt; [eapply sup_attempt; [constructor|..]|..].
  - done.
  - done.
  - reflexivity.
  - intros ? ? [= <- <-]. done.
  - done.
  - reflexivity.
Defined.

(** A peer that died while one task watched and another came after. *)
Definition demo_threads : list Sink.Thread :=
  [Sink.EmitSwap (Died Exited "gone"); Sink.WatchLock; Sink.WatchLock].

(** The next step of one thread. *)
Definition turn (i : nat) (w : Sink.World) : Sink.World :=
  match w.2 !! i with
  | Some t => match Sink.step i t w.1 with Some (t', s') => (s', <[i := t']> w.2) | None => w end
  | None => w
  end.

Lemma turn_steps i w : rtc Sink.steps_to w (turn i w).
Proof.
  destruct w as [s ts]. unfold turn. simpl. destruct (ts !! i) eqn:Hi; [|done].
  destruct (Sink.step i t s) as [[t' s']|] eqn:E; [|done].
  apply rtc_once. by econstructor.
Qed.

Lemma turns_step is_ w : rtc Sink.steps_to w (foldl (flip turn) w is_).
Proof.
  revert w. induction is_ as [|i is_ IH]; intros w; [done|]. simpl.
  etrans; [apply turn_steps|apply IH].
Qed.

(** The receiver of a lane takes what is there. *)
Definition listen (l : nat) (w : Sink.World) : Sink.World :=
  match Sink.hear l w.1 with Some s' => (s', w.2) | None => w end.

Lemma listen_steps l w : rtc Sink.steps_to w (listen l w).
Proof.
  destruct w as [s ts]. unfold listen. simpl. destruct (Sink.hear l s) eqn:E; [|done].
  apply rtc_once. by eapply Sink.sink_hear.
Qed.

(** The first watcher's receiver has its record before the emission is over. *)
Definition demo_end : Sink.World :=
  foldl (flip turn)
    (listen 0 (foldl (flip turn) (Sink.new "worker", demo_threads) [1; 1; 0; 0; 0; 0; 0]))
    [0; 0; 2; 2; 2].

Lemma demo_end_reached : Sink.reachable (demo_end.1, demo_end.2).
Proof.
  rewrite <-surjective_pairing.
  exists "worker"%string, demo_threads. split; [by repeat constructor|].
  etrans; [apply turns_step|]. etrans; [apply (listen_steps 0)|]. apply turns_step.
Qed.

Lemma watch_hears_the_end_once_witness :
  ∃ r, terminal_record "worker" (Died Exited "gone") = Some r
    ∧ Sink.sent demo_end.1 0 = Some [r] ∧ Sink.sent demo_end.1 1 = Some [r]
    ∧ Sink.heard <$> Sink.lanes demo_end.1 !! 0 = Some [r].
Proof.
  destruct (SinkProps.watch_hears_the_end_once _ _ demo_end_reached) as (Hend & _ & _).
  destruct (Hend 1 0) as (r & Hr & H0); [exists 0, Sink.Emitted; split; [vm_compute; reflexivity|exact I]|vm_compute; reflexivity|].
  destruct (Hend 2 1) as (r' & Hr' & H1); [exists 0, Sink.Emitted; split; [vm_compute; reflexivity|exact I]|vm_compute; reflexivity|].
  rewrite Hr in Hr'. injection Hr' as <-.
  assert (Sink.label demo_end.1 = "worker"%string) as El by (vm_compute; reflexivity).
  assert (Sink.status demo_end.1 = Died Exited "gone") as Es by (vm_compute; reflexivity).
  rewrite El, Es in Hr. exists r. split_and!; [exact Hr|exact H0|exact H1|].
  vm_compute in Hr. injection Hr as <-. vm_compute. reflexivity.
Defined.

Lemma first_end_stands_witness :
  Sink.status (foldl (flip turn) demo_end [0; 1; 2]).1 = Died Exited "gone".
Proof.
  rewrite (SinkProps.first_end_stands demo_end.1 demo_end.2 _
             (foldl (flip turn) demo_end [0; 1; 2]).2);
    [vm_compute; reflexivity|exact demo_end_reached|rewrite <-!surjective_pairing; exact (turns_step [0; 1; 2] demo_end)|vm_compute; discriminate].
Defined.


Lemma restarts_keep_to_the_budget_witness :
  length (answered_within (mkPolicy 20 20 1 20) 0 demo_life) ≤ 1
  ∧ (20 * 1000000 < 1000000000 - 0)%N.
Proof.
  destruct demo_lived as [deaths H].
  destruct (restarts_keep_to_the_budget _ _ _ H eq_refl) as [Hany Hapart].
  split; [exact (Hany 0%N)|].
  exact (Hapart 0 0%N 0%N 1000000000%N 1000000000%N eq_refl eq_refl).
Defined.

Lemma parsed_policy_fits_witness : policy_ok (mkPolicy 20 20 7 20).
Proof.
  exact (parsed_policy_fits (E := unit) (answers (demo_policy 7)) demo_text demo_int () () _ eq_refl).
Defined.

Lemma huge_budget_restarts_nothing_witness :
  ∃ p, parse_policy (E := unit) (answers (demo_policy (2 ^ 32))) demo_text demo_int ()
       = ((), inr (Some p)) ∧ max_restarts p = 0%N.
Proof.
  destruct (huge_budget_restarts_nothing (E := unit) (demo_policy (2 ^ 32)) demo_text demo_int ()
              20 20 1 20 eq_refl eq_refl ltac:(lia) eq_refl ltac:(lia) eq_refl ltac:(lia)
              eq_refl ltac:(lia)) as (p & Hp & Hm & _).
  exists p. split; [exact Hp|exact Hm].
Defined.
