(* ===== verification/Restart.v ===== *)
(** * Supervision: the restart of a hosted service (src/src/runtime/worker_service.rs)

    A service lives through incarnations.  Its root proxy is rebound to each new one; a gate holds
    sends back while a restart is under way; a restart is manual ([serviceRestart]) or run by the
    supervisor's task ([supervise_service_loop]).  Tasks interleave where the code waits: every
    stretch between two waits is one [step].

    A [Life] is one incarnation: its sink's status, the stop flag its proxies share, its number and
    the tasks that hold a snapshot of it.  A life is named by its position in [lives]. *)
From stdpp Require Import base numbers list gmap strings pretty.
From stdpp Require Import options.
From S2P Require Import Prelude Supervise.

Module Gate.

(** ** The data *)

Inductive GatePhase :=
| Open
| Restarting
| GaveUp (attempts : N) (last : string).

Record RestartGate := mkGate {
  phase : GatePhase;
  waiters : list (nat * N);
  exempt : option nat }.

Record Life := mkLife {
  l_status : LifeStatus;
  l_stopped : bool;
  l_inc : N;
  l_gave_up : bool;
  l_queued : list nat;
  l_convs : list nat }.

(** A fresh incarnation. *)
Definition born (inc : N) : Life := mkLife Running false inc false [] [].

(** Where an attempt is: before the rebind, in the hook, or stopping after the hook failed. *)
Inductive Attempt :=
| Spawning (cur : N)
| Hooking
| Stopping.

(** Where a supervisor is; [k] is the life it watched. *)
Inductive Supervisor :=
| NoSup
| Top
| Watching (k : nat)
| Cycle (k : nat) (attempt : N)
| Sleeping (k : nat) (attempt : N)
| InAttempt (k : nat) (attempt : N) (a : Attempt)
| Ended.

Record Service := mkService {
  lives : list Life;
  root : nat;
  incarnation : N;
  gate : RestartGate;
  policy : option SupervisePolicy;
  has_hook : bool;
  process : bool;
  parked : gmap nat N;
  sup : Supervisor;
  sup_task : nat;
  deaths : list N;
  manual : list (nat * Attempt) }.

#[export] Instance GatePhase_eq_dec : EqDecision GatePhase.
Proof. solve_decision. Defined.
#[export] Instance Attempt_eq_dec : EqDecision Attempt.
Proof. solve_decision. Defined.

(** What an operation answers. *)
Inductive Result :=
| Done
| Called
| Nested
| Parks
| StaleIncarnation (minted cur : N)
| GaveUpAfter (attempts : N) (last : string)
| IsStopped
| NoRecipe
| IsSupervised
| WasStopped
| IsRunning
| InFlight
| PermanentlyDead
| NotAProcess
| NoBoot
| NotABlock
| AttemptFailed.

(** ** Small steps on the state *)

Definition set_gate (g : RestartGate) (s : Service) : Service :=
  mkService (lives s) (root s) (incarnation s) g (policy s) (has_hook s) (process s) (parked s)
    (sup s) (sup_task s) (deaths s) (manual s).
Definition set_phase (p : GatePhase) (s : Service) : Service :=
  set_gate (mkGate p (waiters (gate s)) (exempt (gate s))) s.
Definition set_waiters (ws : list (nat * N)) (s : Service) : Service :=
  set_gate (mkGate (phase (gate s)) ws (exempt (gate s))) s.
Definition set_exempt (t : option nat) (s : Service) : Service :=
  set_gate (mkGate (phase (gate s)) (waiters (gate s)) t) s.
Definition set_lives (ls : list Life) (s : Service) : Service :=
  mkService ls (root s) (incarnation s) (gate s) (policy s) (has_hook s) (process s) (parked s)
    (sup s) (sup_task s) (deaths s) (manual s).
Definition set_parked (ps : gmap nat N) (s : Service) : Service :=
  mkService (lives s) (root s) (incarnation s) (gate s) (policy s) (has_hook s) (process s) ps
    (sup s) (sup_task s) (deaths s) (manual s).
Definition set_sup (p : Supervisor) (s : Service) : Service :=
  mkService (lives s) (root s) (incarnation s) (gate s) (policy s) (has_hook s) (process s)
    (parked s) p (sup_task s) (deaths s) (manual s).
Definition set_deaths (ds : list N) (s : Service) : Service :=
  mkService (lives s) (root s) (incarnation s) (gate s) (policy s) (has_hook s) (process s)
    (parked s) (sup s) (sup_task s) ds (manual s).
Definition set_manual (m : list (nat * Attempt)) (s : Service) : Service :=
  mkService (lives s) (root s) (incarnation s) (gate s) (policy s) (has_hook s) (process s)
    (parked s) (sup s) (sup_task s) (deaths s) m.
Definition set_hook (b : bool) (s : Service) : Service :=
  mkService (lives s) (root s) (incarnation s) (gate s) (policy s) b (process s)
    (parked s) (sup s) (sup_task s) (deaths s) (manual s).

Definition on_life (k : nat) (f : Life → Life) (s : Service) : Service :=
  set_lives (alter f k (lives s)) s.

(** [emit_died] and [emit_stopped]: the first terminal status stands. *)
Definition emit (st : LifeStatus) (l : Life) : Life :=
  mkLife (if decide (l_status l = Running) then st else l_status l) (l_stopped l) (l_inc l)
    (l_gave_up l) (l_queued l) (l_convs l).
Definition flag_stopped (l : Life) : Life :=
  mkLife (l_status l) true (l_inc l) (l_gave_up l) (l_queued l) (l_convs l).
Definition flag_gave_up (l : Life) : Life :=
  mkLife (l_status l) (l_stopped l) (l_inc l) true (l_queued l) (l_convs l).
Definition add_queued (t : nat) (l : Life) : Life :=
  mkLife (l_status l) (l_stopped l) (l_inc l) (l_gave_up l) (t :: l_queued l) (l_convs l).
Definition drop_queued (t : nat) (l : Life) : Life :=
  mkLife (l_status l) (l_stopped l) (l_inc l) (l_gave_up l) (filter (.≠ t) (l_queued l)) (l_convs l).
Definition add_conv (t : nat) (l : Life) : Life :=
  mkLife (l_status l) (l_stopped l) (l_inc l) (l_gave_up l) (l_queued l) (t :: l_convs l).
Definition drop_conv (t : nat) (l : Life) : Life :=
  mkLife (l_status l) (l_stopped l) (l_inc l) (l_gave_up l) (l_queued l) (filter (.≠ t) (l_convs l)).

(** The gate is set to [p] and every live waiter ([channel_waiter_live]) is woken. *)
Definition release_gate (p : GatePhase) (s : Service) : Service :=
  set_parked
    (foldl (λ ps w, if bool_decide (ps !! w.1 = Some w.2) then delete w.1 ps else ps)
       (parked s) (waiters (gate s)))
    (set_waiters [] (set_phase p s)).

(** ** Sends *)

(** A proxy: the root, or one an incarnation minted. *)
Inductive Proxy := Root | Sub (k : nat).

Definition proxy_life (s : Service) (r : Proxy) : nat := match r with Root => root s | Sub k => k end.

(** [await_restart_window], one turn of its loop; [None] when the send may go on. *)
Definition await_restart_window (me : nat) (epoch : N) (l : Life) (s : Service) :
    Service * option Result :=
  if negb (l_inc l =? incarnation s)%N then (s, Some (StaleIncarnation (l_inc l) (incarnation s)))
  else if decide (me ∈ l_convs l) then (s, None)
  else
    match phase (gate s) with
    | Open => (s, None)
    | Restarting =>
        if decide (exempt (gate s) = Some me) then (s, None)
        else
          (set_parked (<[me := epoch]> (parked s))
             (set_waiters (vec_push (waiters (gate s)) (me, epoch)) s), Some Parks)
    | GaveUp attempts last => (s, Some (GaveUpAfter attempts last))
    end.

(** [dispatch_service_method] and the start of [service_call]: the gate, the snapshot of the life,
    and the stop flag. *)
Definition send (me : nat) (epoch : N) (r : Proxy) (s : Service) : option (Service * Result) :=
  l ← lives s !! proxy_life s r;
  match await_restart_window me epoch l s with
  | (s, Some res) => Some (s, res)
  | (s, None) =>
      if decide (me ∈ l_convs l) then Some (s, Nested)
      else if l_stopped l then Some (s, IsStopped)
      else Some (on_life (proxy_life s r) (add_queued me) s, Called)
  end.

(** [note_service_dead] through the snapshot of life [k]. *)
Definition note_service_dead (k : nat) (reason : PeerDeathReason) (detail : string) (s : Service) :
    Service :=
  let stopped := match lives s !! k with Some l => l_stopped l | None => false end in
  let s :=
    match policy s, phase (gate s) with
    | Some _, Open => if stopped then s else set_phase Restarting s
    | _, _ => s
    end in
  on_life k (emit (Died reason detail)) s.

(** ** Attempts *)

(** The rebind of [restart_attempt]: a fresh life, and the root bound to it. *)
Definition rebind (next : N) (s : Service) : Service :=
  mkService (vec_push (lives s) (born next)) (length (lives s)) next (gate s) (policy s)
    (has_hook s) (process s) (parked s) (sup s) (sup_task s) (deaths s) (manual s).

Inductive AttemptEv :=
| SpawnFails
| Rebinds
| HookReturns
| HookFails
| StopJoined.

(** What follows in an attempt of task [me]: its next wait, or its outcome. *)
Definition attempt_step (me : nat) (e : AttemptEv) (a : Attempt) (s : Service) :
    option (Service * (Attempt + bool)) :=
  match a, e with
  | Spawning cur, SpawnFails => Some (s, inr false)
  | Spawning cur, Rebinds =>
      let s := rebind (cur + 1) s in
      Some (if has_hook s then (set_exempt (Some me) s, inl Hooking) else (s, inr true))
  | Hooking, HookReturns => Some (set_exempt None s, inr true)
  | Hooking, HookFails =>
      let s := set_exempt None s in
      Some (on_life (root s) flag_stopped s, inl Stopping)
  | Stopping, StopJoined => Some (s, inr false)
  | _, _ => None
  end.

(** [service_restart], to the start of its attempt. *)
Definition service_restart (me : nat) (r : Proxy) (s : Service) : option (Service * Result) :=
  l ← lives s !! proxy_life s r;
  match r with
  | Sub _ => Some (s, NoRecipe)
  | Root =>
      if negb (l_inc l =? incarnation s)%N then
        Some (s, StaleIncarnation (l_inc l) (incarnation s))
      else if decide (is_Some (policy s)) then Some (s, IsSupervised)
      else
        match l_status l with
        | Stopped _ => Some (s, WasStopped)
        | Running => Some (s, IsRunning)
        | Died _ _ =>
            match phase (gate s) with
            | Open =>
                Some (set_manual ((me, Spawning (incarnation s)) :: manual s)
                        (set_phase Restarting s), Parks)
            | Restarting => Some (s, InFlight)
            | GaveUp _ _ => Some (s, PermanentlyDead)
            end
        end
  end.

(** A manual attempt goes on; when it ends the gate opens, whatever its outcome. *)
Definition manual_step (me : nat) (e : AttemptEv) (s : Service) : option (Service * Result) :=
  a ← snd <$> list_find (λ m, m.1 = me) (manual s);
  '(s, out) ← attempt_step me e a.2 s;
  let rest := filter (λ m, m.1 ≠ me) (manual s) in
  match out with
  | inl a => Some (set_manual ((me, a) :: rest) s, Parks)
  | inr ok => Some (release_gate Open (set_manual rest s), if ok : bool then Done else AttemptFailed)
  end.

(** ** The supervisor *)

(** [service_supervise]: the answer of [parse_policy], and the task [SuperviseBoot] starts, if it
    is there. *)
Definition service_supervise (r : Proxy) (parsed : option SupervisePolicy) (boot : option nat)
    (s : Service) : Service * Result :=
  match r with
  | Sub _ => (s, NoRecipe)
  | Root =>
      match parsed, policy s with
      | None, Some _ => (s, IsSupervised)
      | None, None => (s, Done)
      | Some _, Some _ => (s, IsSupervised)
      | Some p, None =>
          let s := mkService (lives s) (root s) (incarnation s) (gate s) (Some p) (has_hook s)
                     (process s) (parked s) (sup s) (sup_task s) (deaths s) (manual s) in
          match boot with
          | None => (s, NoBoot)
          | Some t =>
              (mkService (lives s) (root s) (incarnation s) (gate s) (policy s) (has_hook s)
                 (process s) (parked s) Top t [] (manual s), Done)
          end
      end
  end.

Inductive SupEv :=
| Watches
| Wakes (now : N)
| Checks (now : N)
| Slept
| Attempts (e : AttemptEv) (now : N).

(** The message of a spent budget. *)
Definition budget_spent (n w m : N) : string :=
  (pretty n +:+ " death(s) inside " +:+ pretty w +:+ "ms exceeded the budget of " +:+ pretty m)%string.

(** The stretches of [supervise_service_loop] between its waits. *)
Definition sup_step (e : SupEv) (s : Service) : option Service :=
  match sup s, e with
  | Top, Watches =>
      Some (match policy s with Some _ => set_sup (Watching (root s)) s | None => set_sup Ended s end)
  | Watching k, Wakes now =>
      l ← lives s !! k;
      match l_status l with
      | Running => None
      | Stopped _ => Some (set_sup Ended s)
      | Died _ _ =>
          let s := match phase (gate s) with Open => set_phase Restarting s | _ => s end in
          Some (set_sup (Cycle k 0) (set_deaths (vec_push (deaths s) now) s))
      end
  | Cycle k attempt, Checks now =>
      p ← policy s;
      let s := set_deaths (retain_window p now (deaths s)) s in
      if over_budget p (deaths s) then
        let last := budget_spent (N.of_nat (length (deaths s))) (window_ms p) (max_restarts p) in
        Some (set_sup Ended (on_life k flag_gave_up (release_gate (GaveUp attempt last) s)))
      else
        let attempt := (attempt + 1)%N in
        if (0 <? delay_ms p attempt)%N then Some (set_sup (Sleeping k attempt) s)
        else Some (set_sup (InAttempt k attempt (Spawning (incarnation s))) s)
  | Sleeping k attempt, Slept =>
      Some (set_sup (InAttempt k attempt (Spawning (incarnation s))) s)
  | InAttempt k attempt a, Attempts e now =>
      '(s, out) ← attempt_step (sup_task s) e a s;
      match out with
      | inl a => Some (set_sup (InAttempt k attempt a) s)
      | inr true => Some (set_sup Top (release_gate Open s))
      | inr false =>
          Some (set_sup (Cycle k attempt) (set_deaths (vec_push (deaths s) now) s))
      end
  | _, _ => None
  end.

(** ** Stopping *)

(** [service_stop], up to its drain. *)
Definition service_stop (r : Proxy) (s : Service) : Service :=
  on_life (proxy_life s r) flag_stopped s.

(** [service_terminate]. *)
Definition service_terminate (me : nat) (epoch : N) (r : Proxy) (s : Service) :
    option (Service * Result) :=
  l ← lives s !! proxy_life s r;
  match await_restart_window me epoch l s with
  | (s, Some res) => Some (s, res)
  | (s, None) =>
      if negb (process s) then Some (s, NotAProcess)
      else Some (on_life (proxy_life s r) (emit (Stopped "terminated") ∘ flag_stopped) s, Done)
  end.

(** [service_on_restart]: a block, nil ([Some false]), or neither. *)
Definition service_on_restart (r : Proxy) (arg : option bool) (s : Service) : Service * Result :=
  match r with
  | Sub _ => (s, NoRecipe)
  | Root => match arg with Some block => (set_hook block s, Done) | None => (s, NotABlock) end
  end.

(** ** The steps *)

Inductive Ev :=
| Send (t : nat) (epoch : N) (r : Proxy)
| Claimed (t k : nat)
| DispatchFails (t k : nat)
| Answered (t k : nat)
| CallDies (t k : nat) (reason : PeerDeathReason) (detail : string)
| Cancelled (t : nat)
| CancelHeard (t : nat)
| LifeEnds (k : nat) (st : LifeStatus)
| Restart (t : nat) (r : Proxy)
| Manual (t : nat) (e : AttemptEv)
| Supervise (r : Proxy) (parsed : option SupervisePolicy) (boot : option nat)
| Sup (e : SupEv)
| Stop (r : Proxy)
| Terminate (t : nat) (epoch : N) (r : Proxy)
| OnRestart (r : Proxy) (arg : option bool).

Definition holds (f : Life → list nat) (t k : nat) (s : Service) : bool :=
  match lives s !! k with Some l => bool_decide (t ∈ f l) | None => false end.

(** A task acts when it is not parked at the gate. *)
Definition awake (t : nat) (s : Service) : bool := bool_decide (parked s !! t = None).

Definition step (e : Ev) (s : Service) : option (Service * Result) :=
  match e with
  | Send t epoch r => if awake t s then send t epoch r s else None
  | Claimed t k =>
      if holds l_queued t k s then Some (on_life k (add_conv t ∘ drop_queued t) s, Done) else None
  | DispatchFails t k =>
      if holds l_queued t k s then
        Some (note_service_dead k Exited "the service has exited" (on_life k (drop_queued t) s), Done)
      else None
  | Answered t k => if holds l_convs t k s then Some (on_life k (drop_conv t) s, Done) else None
  | CallDies t k reason detail =>
      if holds l_convs t k s then
        Some (note_service_dead k reason detail (on_life k (drop_conv t) s), Done)
      else None
  | Cancelled t => if awake t s then None else Some (set_parked (delete t (parked s)) s, Done)
  | CancelHeard t =>
      if awake t s then Some (set_waiters (filter (λ w, w.1 ≠ t) (waiters (gate s))) s, Done)
      else None
  | LifeEnds k st =>
      if decide (st = Running) then None else Some (on_life k (emit st) s, Done)
  | Restart t r => if awake t s then service_restart t r s else None
  | Manual t e => manual_step t e s
  | Supervise r parsed boot => Some (service_supervise r parsed boot s)
  | Sup e => (λ s, (s, Done)) <$> sup_step e s
  | Stop r => Some (service_stop r s, Done)
  | Terminate t epoch r => if awake t s then service_terminate t epoch r s else None
  | OnRestart r arg => Some (service_on_restart r arg s)
  end.

(** A service as it is first hosted. *)
Definition hosted (process : bool) : Service :=
  mkService [born 1] 0 1 (mkGate Open [] None) None false process ∅ NoSup 0 [] [].

Fixpoint run (es : list Ev) (s : Service) : option Service :=
  match es with
  | [] => Some s
  | e :: es => match step e s with Some (s, _) => run es s | None => None end
  end.

Definition reachable (s : Service) : Prop := ∃ process es, run es (hosted process) = Some s.

(** ** What the reopening of the gate rests on *)

(** A task reports a death only of the incarnation the root is bound to. *)
Definition reports_current (e : Ev) (s : Service) : Prop :=
  match e with
  | DispatchFails _ k | CallDies _ k _ _ => k = root s
  | _ => True
  end.

(** A life ends stopped only when it was told to. *)
Definition stops_when_told (e : Ev) (s : Service) : Prop :=
  match e with
  | LifeEnds k (Stopped _) =>
      ∀ l, lives s !! k = Some l → l_status l = Running → l_stopped l = true
  | _ => True
  end.

(** A policy is attached with a task to carry it, and not while a restart is under way. *)
Definition supervises_at_rest (e : Ev) (s : Service) : Prop :=
  match e with
  | Supervise _ (Some _) boot => boot ≠ None ∧ manual s = []
  | _ => True
  end.

Definition orderly (e : Ev) (s : Service) : Prop :=
  reports_current e s ∧ stops_when_told e s ∧ supervises_at_rest e s.

(** A run of orderly steps. *)
Inductive orderly_run : Service → Service → Prop :=
| orderly_refl s : orderly_run s s
| orderly_step e s s1 r s2 :
    orderly e s → step e s = Some (s1, r) → orderly_run s1 s2 → orderly_run s s2.

(** Someone will open the gate: a manual attempt, the supervisor at work, or the supervisor still
    to learn of a death that has happened. *)
Definition has_opener (s : Service) : Prop :=
  manual s ≠ []
  ∨ match sup s with
    | Cycle _ _ | Sleeping _ _ | InAttempt _ _ _ => True
    | Top => ∃ l r d, lives s !! root s = Some l ∧ l_status l = Died r d
    | Watching k => ∃ l r d, lives s !! k = Some l ∧ l_status l = Died r d
    | NoSup | Ended => False
    end.

(** The steps of a manual attempt or of the supervisor. *)
Definition opener_ev (e : Ev) : Prop :=
  match e with Manual _ _ | Sup _ => True | _ => False end.

(** The root is bound to a healthy incarnation, whose end the supervisor waits for, behind a
    closed gate. *)
Definition shut_out (s : Service) : Prop :=
  phase (gate s) = Restarting ∧ exempt (gate s) = None ∧ manual s = [] ∧ is_Some (policy s)
  ∧ sup s = Watching (root s)
  ∧ ∃ l, lives s !! root s = Some l ∧ l_status l = Running ∧ l_queued l = [] ∧ l_convs l = []
         ∧ l_inc l = incarnation s.

End Gate.

Module GateProps.
Import Gate.

(** Case analysis of the equation of a step. *)
Ltac split_step H :=
  repeat first
    [ progress (simplify_option_eq)
    | match type of H with
      | context [match ?x with _ => _ end] => destruct x eqn:?
      end ].

(** ** The senders at the gate *)

Lemma released_parked p s t e :
  parked (release_gate p s) !! t = Some e →
  parked s !! t = Some e ∧ (t, e) ∉ waiters (gate s).
Proof.
  unfold release_gate. simpl. generalize (parked s) as ps.
  induction (waiters (gate s)) as [|[u v] ws IH]; intros ps; simpl.
  { intros ?. split; [done|]. by apply not_elem_of_nil. }
  intros [Hps Hin]%IH. rewrite not_elem_of_cons.
  case_bool_decide as Hu; simpl in *; [|split; [done|split; [congruence|done]]].
  rewrite lookup_delete_Some in Hps. destruct Hps as [Hne Hps].
  split_and!; [done|congruence|done].
Qed.

Definition parks_ok (s : Service) : Prop :=
  ∀ t e, parked s !! t = Some e → (t, e) ∈ waiters (gate s) ∧ phase (gate s) = Restarting.

Lemma released_nobody p s : parks_ok s → parked (release_gate p s) = ∅.
Proof.
  intros Hok. apply map_empty. intros t. apply eq_None_not_Some. intros [e He].
  by apply released_parked in He as [[? _]%Hok Hn].
Qed.

Lemma release_ok p s : parks_ok s → parks_ok (release_gate p s).
Proof. intros Hok t e. by rewrite released_nobody, lookup_empty. Qed.

(** Steps that leave the gate and its senders alone. *)
Definition same_parks (s s' : Service) : Prop := gate s' = gate s ∧ parked s' = parked s.

Lemma same_parks_ok s s' : same_parks s s' → parks_ok s → parks_ok s'.
Proof. intros [Hg Hp] Hok t e. rewrite Hg, Hp. apply Hok. Qed.

Lemma closing_ok s : parks_ok s → parks_ok (set_phase Restarting s).
Proof. intros Hok t e [? ?]%Hok. by split. Qed.

Lemma exempt_ok t s : parks_ok s → parks_ok (set_exempt t s).
Proof. intros Hok u e. apply Hok. Qed.

Lemma await_ok me epoch l s s' r :
  parks_ok s → await_restart_window me epoch l s = (s', r) → parks_ok s'.
Proof.
  intros Hok. unfold await_restart_window.
  destruct (negb _); [by intros [= <- _]|]. case_decide; [by intros [= <- _]|].
  destruct (phase (gate s)) eqn:Hp; [by intros [= <- _]| |by intros [= <- _]].
  case_decide; [by intros [= <- _]|]. intros [= <- _] t e. simpl. unfold vec_push.
  rewrite Hp. setoid_rewrite elem_of_app.
  intros [[-> ->]|[Hne He]]%lookup_insert_Some; [split; [right; by left|done]|].
  split; [left; by apply Hok|done].
Qed.

Lemma note_dead_ok k r d s : parks_ok s → parks_ok (note_service_dead k r d s).
Proof.
  intros Hok. unfold note_service_dead. destruct (policy s), (phase (gate s)); try done.
  destruct (lives s !! k) as [l|]; simpl; [destruct (l_stopped l)|]; try done; by apply closing_ok.
Qed.

Lemma attempt_ok me e a s s' out :
  parks_ok s → attempt_step me e a s = Some (s', out) → parks_ok s'.
Proof.
  intros Hok. destruct a, e; simpl; try done; try (by intros [= <- _]).
  all: try (by intros [= <- _]; apply (exempt_ok None)).
  destruct (has_hook s); intros [= <- _]; [by apply (exempt_ok (Some me) (rebind _ s))|done].
Qed.

Lemma sup_ok e s s' : parks_ok s → sup_step e s = Some s' → parks_ok s'.
Proof.
  intros Hok. unfold sup_step. destruct (sup s), e; try done.
  - intros [= <-]. by destruct (policy s).
  - destruct (lives s !! k) as [l|]; [|done]. simpl. destruct (l_status l); [done|by intros [= <-]|].
    intros [= <-]. destruct (phase (gate s)) eqn:Hp; [by apply (closing_ok s)|done|done].
  - destruct (policy s) as [p|]; [|done]. simpl. destruct (over_budget _ _).
    + intros [= <-]. apply (same_parks_ok (release_gate (GaveUp attempt
        (budget_spent (N.of_nat (length (retain_window p now (deaths s)))) (window_ms p)
           (max_restarts p))) (set_deaths (retain_window p now (deaths s)) s))); [done|].
      by apply release_ok.
    + destruct (0 <? _)%N; by intros [= <-].
  - by intros [= <-].
  - destruct (attempt_step _ _ _ _) as [[s1 out]|] eqn:Ha; [|done]. simpl.
    apply (attempt_ok _ _ _ _ _ _ Hok) in Ha. destruct out as [a'|[]]; intros [= <-]; try done.
    by apply (same_parks_ok (release_gate Open s1)), release_ok.
Qed.

Lemma step_parks_ok e s s' r : parks_ok s → step e s = Some (s', r) → parks_ok s'.
Proof.
  intros Hok. destruct e; simpl.
  - destruct (awake t s); [|done]. unfold send.
    destruct (lives s !! _) as [l|]; [|done]. simpl.
    destruct (await_restart_window _ _ _ _) as [s1 [res|]] eqn:Ha;
      apply (await_ok _ _ _ _ _ _ Hok) in Ha; [by intros [= <- _]|].
    destruct (decide _); [by intros [= <- _]|]. destruct (l_stopped l); by intros [= <- _].
  - destruct (holds _ _ _ _); [|done]. by intros [= <- _].
  - destruct (holds _ _ _ _); [|done]. intros [= <- _]. by apply note_dead_ok.
  - destruct (holds _ _ _ _); [|done]. by intros [= <- _].
  - destruct (holds _ _ _ _); [|done]. intros [= <- _]. by apply note_dead_ok.
  - destruct (awake t s); [done|]. intros [= <- _] u e. simpl.
    rewrite lookup_delete_Some. intros [_ ?]. by apply Hok.
  - unfold awake. case_bool_decide as Ht; [|done]. intros [= <- _] u e Hu. simpl.
    destruct (Hok u e Hu) as [Hin Hp]. split; [|done]. apply list_elem_of_filter. split; [|done].
    simpl. intros ->. simpl in Hu. congruence.
  - destruct (decide _); [done|]. by intros [= <- _].
  - destruct (awake t s); [|done]. unfold service_restart. destruct (lives s !! _) as [l|]; [|done].
    simpl. destruct r0; [|by intros [= <- _]]. destruct (negb _); [by intros [= <- _]|].
    case_decide; [by intros [= <- _]|]. destruct (l_status l); [by intros [= <- _]..|].
    destruct (phase (gate s)); intros [= <- _]; [|done..]. by apply (closing_ok s).
  - unfold manual_step. destruct (list_find _ _) as [[i a]|]; [|done]. simpl.
    destruct (attempt_step _ _ _ _) as [[s1 out]|] eqn:Ha; [|done]. simpl.
    apply (attempt_ok _ _ _ _ _ _ Hok) in Ha. destruct out; [by intros [= <- _]|].
    intros [= <- _]. by apply release_ok.
  - intros [= Hs]. unfold service_supervise in Hs. destruct r0, parsed, (policy s), boot;
      by simplify_eq/=.
  - destruct (sup_step e s) eqn:Hs; [|done]. intros [= <- _]. by eapply sup_ok.
  - by intros [= <- _].
  - destruct (awake t s); [|done]. unfold service_terminate. destruct (lives s !! _) as [l|]; [|done].
    simpl. destruct (await_restart_window _ _ _ _) as [s1 [res|]] eqn:Ha;
      apply (await_ok _ _ _ _ _ _ Hok) in Ha; [by intros [= <- _]|].
    destruct (negb _); by intros [= <- _].
  - intros [= Hs]. unfold service_on_restart in Hs. destruct r0, arg; by simplify_eq/=.
Qed.

(** ** The invariant of orderly runs *)

(** The lives are numbered in order, the root is bound to the last, and those that ended stopped
    were told to. *)
Record numbered (s : Service) : Prop := {
  n_len : length (lives s) = S (root s);
  n_inc : incarnation s = N.of_nat (length (lives s));
  n_num : ∀ k l, lives s !! k = Some l → l_inc l = (N.of_nat k + 1)%N;
  n_told : ∀ k l m, lives s !! k = Some l → l_status l = Stopped m → l_stopped l = true }.

Record inv (s : Service) : Prop := {
  v_life : numbered s;
  v_sup : is_Some (policy s) ↔ sup s ≠ NoSup;
  v_alone : is_Some (policy s) → manual s = [];
  v_manual : manual s = [] ∨ ∃ m, manual s = [m] ∧ phase (gate s) = Restarting
    ∧ ∀ cur, m.2 = Spawning cur → cur = incarnation s;
  v_at :
    match sup s with
    | NoSup | Top => True
    | Watching k => k = root s
    | Cycle _ _ | Sleeping _ _ => phase (gate s) = Restarting
    | InAttempt _ _ a =>
        phase (gate s) = Restarting ∧ ∀ cur, a = Spawning cur → cur = incarnation s
    | Ended =>
        (∃ a m, phase (gate s) = GaveUp a m)
        ∨ phase (gate s) = Open ∧ ∃ l, lives s !! root s = Some l ∧ l_stopped l = true
    end;
  v_gave : ∀ a m, phase (gate s) = GaveUp a m → sup s = Ended;
  v_open : phase (gate s) = Restarting → has_opener s }.

(** What the invariant speaks of. *)
Definition same_core (s s' : Service) : Prop :=
  lives s' = lives s ∧ root s' = root s ∧ incarnation s' = incarnation s
  ∧ phase (gate s') = phase (gate s) ∧ policy s' = policy s ∧ sup s' = sup s
  ∧ manual s' = manual s.

Lemma same_numbered s s' :
  lives s' = lives s → root s' = root s → incarnation s' = incarnation s → numbered s → numbered s'.
Proof. intros E1 E2 E3 [H1 H2 H3 H4]. split; by rewrite ?E1, ?E2, ?E3. Qed.

Lemma core_numbered s s' : same_core s s' → numbered s → numbered s'.
Proof. intros (E1 & E2 & E3 & _). by apply same_numbered. Qed.

Lemma core_inv s s' : same_core s s' → inv s → inv s'.
Proof.
  intros Hc [H1 H5 H6 H7 H8 H9 H10]. pose proof (core_numbered _ _ Hc H1).
  destruct Hc as (E1 & E2 & E3 & E4 & E5 & E6 & E7).
  split; rewrite ?E1, ?E2, ?E3, ?E4, ?E5, ?E6, ?E7; try done.
  intros Hp. specialize (H10 Hp). unfold has_opener in *. by rewrite E1, E2, E6, E7.
Qed.

(** Changes of a life that keep what the gate rests on. *)
Definition tame (f : Life → Life) (l : Life) : Prop :=
  l_inc (f l) = l_inc l
  ∧ (∀ r d, l_status l = Died r d → l_status (f l) = Died r d)
  ∧ (l_stopped l = true → l_stopped (f l) = true)
  ∧ ((∀ m, l_status l = Stopped m → l_stopped l = true) →
     ∀ m, l_status (f l) = Stopped m → l_stopped (f l) = true).

Lemma on_life_lookup k f s j :
  lives (on_life k f s) !! j = if decide (k = j) then f <$> lives s !! j else lives s !! j.
Proof.
  unfold on_life. simpl. rewrite list_lookup_alter. case_decide; by subst.
Qed.

Lemma died_kept k f s j :
  (∀ l, lives s !! k = Some l → tame f l) →
  (∃ l r d, lives s !! j = Some l ∧ l_status l = Died r d) →
  ∃ l r d, lives (on_life k f s) !! j = Some l ∧ l_status l = Died r d.
Proof.
  intros Hf (l & r & d & Hl & Hd). rewrite on_life_lookup. case_decide as Hkj; [subst k|by eauto].
  rewrite Hl. destruct (Hf l Hl) as (_ & Hk & _). simpl. eauto 6.
Qed.

Lemma opener_kept k f s :
  (∀ l, lives s !! k = Some l → tame f l) → has_opener s → has_opener (on_life k f s).
Proof.
  intros Hf [Hm|Ho]; [by left|right]. simpl. destruct (sup s); try done; by apply died_kept.
Qed.

Lemma on_life_numbered k f s :
  numbered s → (∀ l, lives s !! k = Some l → tame f l) → numbered (on_life k f s).
Proof.
  intros [H1 H2 H3 H4] Hf. split.
  - simpl. by rewrite length_alter.
  - simpl. by rewrite length_alter.
  - intros j l. rewrite on_life_lookup. case_decide as Hkj; [subst k|by apply H3].
    intros (l0 & Hl & ->)%fmap_Some. destruct (Hf l0 Hl) as (-> & _). by apply H3.
  - intros j l m. rewrite on_life_lookup. case_decide as Hkj; [subst k|by apply H4].
    intros (l0 & Hl & ->)%fmap_Some. destruct (Hf l0 Hl) as (_ & _ & _ & Ht). apply Ht.
    intros m'. by apply (H4 j).
Qed.

Lemma rebind_numbered s : numbered s → numbered (rebind (incarnation s + 1) s).
Proof.
  intros [H1 H2 H3 H4]. unfold rebind, vec_push. split; simpl.
  - rewrite length_app. simpl. lia.
  - rewrite length_app. simpl. lia.
  - intros k l [Hk|[Hk Hl]]%lookup_app_Some; [by apply H3|].
    apply list_lookup_singleton_Some in Hl as [Hk' <-]. simpl. lia.
  - intros k l m [Hk|[Hk Hl]]%lookup_app_Some; [by apply (H4 k)|].
    by apply list_lookup_singleton_Some in Hl as [_ <-].
Qed.

Lemma on_life_inv k f s :
  inv s → (∀ l, lives s !! k = Some l → tame f l) → inv (on_life k f s).
Proof.
  intros [H1 H5 H6 H7 H8 H9 H10] Hf. split; try done.
  - by apply on_life_numbered.
  - change (sup (on_life k f s)) with (sup s). destruct (sup s); try done.
    destruct H8 as [?|[Hp (l & Hl & Hst)]]; [by left|right]. split; [done|].
    change (root (on_life k f s)) with (root s). rewrite on_life_lookup, Hl.
    case_decide as Hkj; [subst k|by eauto]. destruct (Hf l Hl) as (_ & _ & Ht & _).
    simpl. eauto.
  - intros Hp. apply opener_kept; [done|]. by apply H10.
Qed.

Lemma plain_tame f l :
  l_inc (f l) = l_inc l → l_status (f l) = l_status l → l_stopped (f l) = l_stopped l → tame f l.
Proof. intros E1 E2 E3. unfold tame. rewrite E1, E2, E3. tauto. Qed.

Lemma flag_tame l : tame flag_stopped l.
Proof. unfold tame. simpl. tauto. Qed.

Lemma emit_died_tame r d l : tame (emit (Died r d)) l.
Proof.
  unfold tame, emit; simpl. split_and!; [done| |done|].
  - intros r' d' ->. by rewrite decide_False by done.
  - intros Ht m. case_decide; [done|]. apply Ht.
Qed.

Lemma emit_told_tame st l :
  (∀ m, st = Stopped m → l_status l = Running → l_stopped l = true) → tame (emit st) l.
Proof.
  intros Hst. unfold tame, emit; simpl. split_and!; [done| |done|].
  - intros r' d' ->. by rewrite decide_False by done.
  - intros Ht m. case_decide as Hr; [|apply Ht]. intros ->. by eapply Hst.
Qed.

Lemma terminate_tame m l : tame (emit (Stopped m) ∘ flag_stopped) l.
Proof.
  unfold tame, emit; simpl. split_and!; [done| |done|done].
  intros r' d' ->. by rewrite decide_False by done.
Qed.

Lemma await_core me epoch l s s' r :
  await_restart_window me epoch l s = (s', r) → same_core s s'.
Proof.
  unfold await_restart_window, same_core. destruct (negb _); [by intros [= <- _]|].
  case_decide; [by intros [= <- _]|]. destruct (phase (gate s)) eqn:E; try (by intros [= <- _]).
  case_decide; [by intros [= <- _]|]. intros [= <- _]. simpl. by rewrite E.
Qed.

(** The gate closes on a death noted of the current incarnation. *)
Lemma note_dead_inv r d s :
  inv s → inv (note_service_dead (root s) r d s).
Proof.
  intros Hinv. unfold note_service_dead. pose proof (v_sup _ Hinv) as Hsup.
  assert (inv (on_life (root s) (emit (Died r d)) s)) as Hemit
    by (apply on_life_inv; [done|intros; apply emit_died_tame]).
  destruct (policy s) as [p|] eqn:Hpol; [|done].
  destruct (phase (gate s)) eqn:Hph; [|done..].
  destruct (lookup_lt_is_Some_2 (lives s) (root s)) as [l Hl].
  { rewrite (n_len _ (v_life _ Hinv)). lia. }
  rewrite Hl. destruct (l_stopped l) eqn:Hst; [done|].
  pose proof Hemit as [H1 H5 H6 H7 H8 H9 H10].
  assert (∃ l' r' d', lives (on_life (root s) (emit (Died r d)) s) !! root s = Some l'
                      ∧ l_status l' = Died r' d') as Hdied.
  { rewrite on_life_lookup, decide_True, Hl by done. simpl.
    destruct (l_status l) as [|m|r' d'] eqn:Hs.
    - eexists _, r, d. split; [done|]. simpl. by rewrite Hs.
    - pose proof (n_told _ (v_life _ Hinv) _ _ _ Hl Hs). congruence.
    - eexists _, r', d'. split; [done|]. simpl. by rewrite Hs. }
  split; try done.
  - by apply (same_numbered (on_life (root s) (emit (Died r d)) s)).
  - left. destruct H7 as [?|(m & _ & Hr & _)]; [done|]. simpl in Hr. congruence.
  - simpl in H8 |- *. destruct (sup s); try done; [by destruct H8; split|].
    destruct H8 as [(a & m & Hr)|[_ (l' & Hl' & Hst')]]; [congruence|].
    rewrite list_lookup_alter, decide_True, Hl in Hl' by done. injection Hl' as <-.
    simpl in Hst'. congruence.
  - intros _. right. simpl. simpl in H8.
    assert (sup s ≠ NoSup) as Hno by (apply Hsup; eauto).
    destruct (sup s) eqn:Hs; try done; [by subst k|].
    destruct H8 as [(a & m & Hr)|[_ (l' & Hl' & Hst')]]; [congruence|].
    rewrite list_lookup_alter, decide_True, Hl in Hl' by done. injection Hl' as <-.
    simpl in Hst'. congruence.
Qed.

(** What a stretch of an attempt changes. *)
Definition attempt_core (a : Attempt) (s s' : Service) : Prop :=
  same_core s s'
  ∨ (∃ cur, a = Spawning cur ∧ same_core (rebind (cur + 1) s) s')
  ∨ same_core (on_life (root s) flag_stopped s) s'.

Lemma attempt_changes me e a s s' out :
  attempt_step me e a s = Some (s', out) →
  attempt_core a s s' ∧ ∀ cur, out ≠ inl (Spawning cur).
Proof.
  unfold attempt_core, same_core. destruct a, e; simpl; try done.
  - intros [= <- <-]. split; [by left|done].
  - destruct (has_hook s); intros [= <- <-]; (split; [right; left|done]); eexists; by split_and!.
  - intros [= <- <-]. split; [by left|done].
  - intros [= <- <-]. split; [by right; right|done].
  - intros [= <- <-]. split; [by left|done].
Qed.

Lemma attempt_numbered a s s' :
  numbered s → (∀ cur, a = Spawning cur → cur = incarnation s) → attempt_core a s s' →
  numbered s' ∧ phase (gate s') = phase (gate s) ∧ policy s' = policy s ∧ sup s' = sup s
  ∧ manual s' = manual s.
Proof.
  intros Hn Ha [Hc|[(cur & -> & Hc)|Hc]]; (split; [|apply Hc]); eapply core_numbered; try done.
  - rewrite (Ha cur) by done. by apply rebind_numbered.
  - apply on_life_numbered; [done|]. intros. apply flag_tame.
Qed.

Lemma manual_inv me e s s' r : inv s → manual_step me e s = Some (s', r) → inv s'.
Proof.
  intros Hinv. unfold manual_step.
  destruct (list_find _ _) as [[i a]|] eqn:Hf; [|done]. simpl.
  apply list_find_Some in Hf as (Hi & Hme & _).
  destruct (v_manual _ Hinv) as [Hm|(m & Hm & Hph & Hcur)]; rewrite Hm in Hi; [done|].
  apply list_lookup_singleton_Some in Hi as [_ ->].
  assert (policy s = None) as Hpol.
  { destruct (policy s) eqn:E; [|done]. pose proof (v_alone _ Hinv (ex_intro _ _ E)). congruence. }
  assert (sup s = NoSup) as Hsup.
  { destruct (v_sup _ Hinv) as [_ Hs]. destruct (sup s); [done|..];
      (destruct Hs as [p ?]; [done|congruence]). }
  destruct (attempt_step _ _ _ _) as [[s1 out]|] eqn:Ha; [|done]. simpl.
  apply attempt_changes in Ha as [Hch Hout].
  apply (attempt_numbered _ _ _ (v_life _ Hinv)) in Hch as (Hn & E1 & E2 & E3 & E4); [|done].
  rewrite E4, Hm, filter_cons_False by (by intros []).
  destruct out as [a'|ok]; intros [= <- _].
  - split; simpl; rewrite ?E1, ?E2, ?E3, ?Hph, ?Hpol, ?Hsup; try done.
    + by apply (same_numbered s1).
    + right. eexists. split_and!; [done|done|]. simpl. intros cur ->. by destruct (Hout cur).
    + by left.
  - split; simpl; rewrite ?E1, ?E2, ?E3, ?Hpol, ?Hsup; try done.
    + by apply (same_numbered s1).
    + by left.
Qed.

Lemma supervised_inv s :
  numbered s → is_Some (policy s) → manual s = [] → sup s ≠ NoSup →
  match sup s with
  | NoSup | Top => True
  | Watching k => k = root s
  | Cycle _ _ | Sleeping _ _ => phase (gate s) = Restarting
  | InAttempt _ _ a =>
      phase (gate s) = Restarting ∧ ∀ cur, a = Spawning cur → cur = incarnation s
  | Ended =>
      (∃ a m, phase (gate s) = GaveUp a m)
      ∨ phase (gate s) = Open ∧ ∃ l, lives s !! root s = Some l ∧ l_stopped l = true
  end →
  (∀ a m, phase (gate s) = GaveUp a m → sup s = Ended) →
  (phase (gate s) = Restarting → has_opener s) → inv s.
Proof. intros. split; try done. by left. Qed.

(** Whether the supervisor is in its restart cycle, before an attempt or in one. *)
Definition at_work (p : Supervisor) (s : Service) : Prop :=
  match p with
  | Cycle _ _ | Sleeping _ _ => True
  | InAttempt _ _ a => ∀ cur, a = Spawning cur → cur = incarnation s
  | _ => False
  end.

Lemma at_work_inv p s :
  numbered s → is_Some (policy s) → manual s = [] → phase (gate s) = Restarting → at_work p s →
  inv (set_sup p s).
Proof.
  intros Hn Hp Hm Hph Hat. apply supervised_inv; simpl; rewrite ?Hph; try done.
  - by apply (same_numbered s).
  - by destruct p.
  - by destruct p.
  - intros _. right. by destruct p.
Qed.

Lemma top_inv s :
  numbered s → is_Some (policy s) → manual s = [] → inv (set_sup Top (release_gate Open s)).
Proof. intros. apply supervised_inv; try done. by apply (same_numbered s). Qed.

Lemma give_up_inv k a m s :
  numbered s → is_Some (policy s) → manual s = [] →
  inv (set_sup Ended (on_life k flag_gave_up (release_gate (GaveUp a m) s))).
Proof.
  intros. apply supervised_inv; try done.
  - apply (same_numbered (on_life k flag_gave_up s)); [done..|].
    apply on_life_numbered; [done|]. intros. by apply plain_tame.
  - left. by eexists _, _.
Qed.

Lemma sup_inv e s s' : inv s → sup_step e s = Some s' → inv s'.
Proof.
  intros Hinv. pose proof Hinv as [H1 H5 H6 H7 H8 H9 H10].
  assert (sup s ≠ NoSup → is_Some (policy s) ∧ manual s = []) as Halone.
  { intros Hs. apply H5 in Hs. split; [done|]. by apply H6. }
  unfold sup_step. destruct (sup s) eqn:Hs, e; try done.
  all: destruct Halone as [[p Hpol] Hman]; [done|]; rewrite ?Hpol.
  - intros [= <-]. apply supervised_inv; simpl; try done; [by apply (same_numbered s)| |].
    + by intros a m Hg%H9.
    + intros Hp. destruct (H10 Hp) as [Hm|Ho]; [done|]. right. by rewrite Hs in Ho.
  - rewrite H8. destruct (lives s !! root s) as [l|] eqn:Hl; [|done]. simpl.
    assert (∀ l', l_status l' = Running ∨ (∃ m, l_status l' = Stopped m) → l' = l →
      phase (gate s) = Restarting → False) as Hwatch.
    { intros l' Hst -> Hp. destruct (H10 Hp) as [Hm|Ho]; [done|]. rewrite Hs in Ho.
      destruct Ho as (l1 & r & d & Hl1 & Hd). rewrite H8, Hl in Hl1. injection Hl1 as <-.
      destruct Hst as [?|[? ?]]; congruence. }
    destruct (l_status l) as [|m|r d] eqn:Hst; [done|..]; intros [= <-].
    + apply supervised_inv; simpl; try done; [by apply (same_numbered s)| |].
      * right. split; [|exists l; split; [done|by eapply (n_told _ H1)]].
        destruct (phase (gate s)) eqn:Hp; [done|..]; [|by pose proof (H9 _ _ eq_refl)].
        exfalso. by eapply Hwatch; eauto.
      * intros Hp. exfalso. eapply Hwatch; eauto.
    + apply at_work_inv; simpl; try done; destruct (phase (gate s)) eqn:Hp; simpl; try done;
        try (by eexists); try (by apply (same_numbered s)). by pose proof (H9 _ _ eq_refl).
  - simpl. destruct (over_budget _ _); [intros [= <-]|].
    + apply give_up_inv; simpl; [by apply (same_numbered s)|by eexists|done].
    + destruct (0 <? _)%N; intros [= <-]; apply at_work_inv; simpl; try done; try (by eexists);
        try (by apply (same_numbered s)). by intros cur [= ->].
  - intros [= <-]. apply at_work_inv; try done. by intros cur [= ->].
  - destruct H8 as [Hph Hcur].
    destruct (attempt_step _ _ _ _) as [[s1 out]|] eqn:Ha; [|done]. simpl.
    apply attempt_changes in Ha as [Hch Hout].
    apply (attempt_numbered _ _ _ H1) in Hch as (Hn & E1 & E2 & E3 & E4); [|done].
    rewrite <-E1 in Hph. rewrite <-E2 in Hpol. rewrite <-E4 in Hman.
    destruct out as [a'|[]]; intros [= <-].
    + apply at_work_inv; try done. intros cur ->. by destruct (Hout cur).
    + by apply top_inv.
    + apply at_work_inv; try done. by apply (same_numbered s1).
Qed.

Lemma gate_send_inv t epoch r s s' res : inv s → send t epoch r s = Some (s', res) → inv s'.
Proof.
  intros Hinv. unfold send. destruct (lives s !! _) as [l|]; [|done]. simpl.
  destruct (await_restart_window _ _ _ _) as [s1 [v|]] eqn:Ha; apply await_core in Ha;
    apply (core_inv _ _ Ha) in Hinv; [by intros [= <- _]|].
  destruct (decide _); [by intros [= <- _]|]. destruct (l_stopped l); intros [= <- _]; [done|].
  apply on_life_inv; [done|]. intros. by apply plain_tame.
Qed.

Lemma terminate_inv t epoch r s s' res :
  inv s → service_terminate t epoch r s = Some (s', res) → inv s'.
Proof.
  intros Hinv. unfold service_terminate. destruct (lives s !! _) as [l|]; [|done]. simpl.
  destruct (await_restart_window _ _ _ _) as [s1 [v|]] eqn:Ha; apply await_core in Ha;
    apply (core_inv _ _ Ha) in Hinv; [by intros [= <- _]|].
  destruct (negb _); intros [= <- _]; [done|].
  apply on_life_inv; [done|]. intros. apply terminate_tame.
Qed.

Lemma restart_inv t r s s' res : inv s → service_restart t r s = Some (s', res) → inv s'.
Proof.
  intros Hinv. unfold service_restart. destruct (lives s !! _) as [l|]; [|done]. simpl.
  destruct r; [|by intros [= <- _]]. destruct (negb _); [by intros [= <- _]|].
  destruct (decide _) as [|Hpol]; [by intros [= <- _]|].
  destruct (l_status l); [by intros [= <- _]..|].
  destruct (phase (gate s)) eqn:Hp; intros [= <- _]; [|done..].
  pose proof Hinv as [H1 H5 H6 H7 H8 H9 H10].
  destruct H7 as [Hm|(m & _ & Hr & _)]; [|congruence].
  assert (sup s = NoSup) as Hs.
  { destruct (sup s); [done|..]; (destruct Hpol; by apply H5). }
  split; simpl; rewrite ?Hs, ?Hm; try done.
  - by apply (same_numbered s).
  - right. eexists. split_and!; [done..|]. by intros cur [= ->].
  - by left.
Qed.

Lemma supervise_inv r parsed boot s s' res :
  inv s → supervises_at_rest (Supervise r parsed boot) s →
  service_supervise r parsed boot s = (s', res) → inv s'.
Proof.
  intros Hinv Hrest. unfold service_supervise.
  destruct r; [|by intros [= <- _]].
  destruct parsed as [p|]; [|destruct (policy s); by intros [= <- _]].
  destruct (policy s) eqn:Hpol; [by intros [= <- _]|].
  destruct Hrest as [Hboot Hm]. destruct boot as [t|]; [|done]. intros [= <- _].
  pose proof Hinv as [H1 H5 H6 H7 H8 H9 H10].
  assert (sup s = NoSup) as Hs.
  { destruct (sup s); [done|..]; (destruct H5 as [_ [? ?]]; [done|congruence]). }
  apply supervised_inv; simpl; try done.
  - by apply (same_numbered s).
  - intros a m Hg%H9. congruence.
  - intros [Ho|Ho]%H10; [done|]. by rewrite Hs in Ho.
Qed.

Lemma gate_step_inv e s s' r : inv s → orderly e s → step e s = Some (s', r) → inv s'.
Proof.
  intros Hinv (Hcur & Htold & Hrest). destruct e; cbn [step].
  - destruct (awake t s); [|done]. by apply gate_send_inv.
  - destruct (holds _ _ _ _); [|done]. intros [= <- _].
    apply on_life_inv; [done|]. intros. by apply plain_tame.
  - destruct (holds _ _ _ _); [|done]. intros [= <- _]. simpl in Hcur. subst k.
    apply (note_dead_inv _ _ (on_life (root s) (drop_queued t) s)).
    apply on_life_inv; [done|]. intros. by apply plain_tame.
  - destruct (holds _ _ _ _); [|done]. intros [= <- _].
    apply on_life_inv; [done|]. intros. by apply plain_tame.
  - destruct (holds _ _ _ _); [|done]. intros [= <- _]. simpl in Hcur. subst k.
    apply (note_dead_inv _ _ (on_life (root s) (drop_conv t) s)).
    apply on_life_inv; [done|]. intros. by apply plain_tame.
  - destruct (awake t s); [done|]. intros [= <- _]. by apply (core_inv s).
  - destruct (awake t s); [|done]. intros [= <- _]. by apply (core_inv s).
  - destruct (decide _); [done|]. intros [= <- _].
    apply on_life_inv; [done|]. intros l Hl. apply emit_told_tame. intros m ->.
    by apply Htold.
  - destruct (awake t s); [|done]. by apply restart_inv.
  - by apply manual_inv.
  - intros [= Hs]. by eapply supervise_inv.
  - destruct (sup_step e s) eqn:Hs; [|done]. intros [= <- _]. by eapply sup_inv.
  - intros [= <- _]. apply on_life_inv; [done|]. intros. apply flag_tame.
  - destruct (awake t s); [|done]. by apply terminate_inv.
  - intros [= Hs]. unfold service_on_restart in Hs. destruct r0, arg; simplify_eq; try done.
    by apply (core_inv s).
Qed.

Lemma hosted_inv p : inv (hosted p).
Proof.
  split; simpl; try done.
  - split; simpl; try done; intros [|k] l; simpl; [by intros [= <-]|done| |done].
    by intros m [= <-].
  - by left.
Qed.

Lemma orderly_inv s s' : orderly_run s s' → inv s → inv s'.
Proof. induction 1; [done|]. intros Hs. apply IHorderly_run. by eapply gate_step_inv. Qed.

(** ** The opener at work *)

Definition opens (s : Service) : Prop :=
  ∃ es s', Forall opener_ev es ∧ run es s = Some s' ∧ phase (gate s') ≠ Restarting.

Lemma opens_step e s s1 r : opener_ev e → step e s = Some (s1, r) → opens s1 → opens s.
Proof.
  intros He Hs (es & s' & Hes & Hr & Hp). exists (e :: es), s'.
  split_and!; [by constructor| |done]. cbn [run]. by rewrite Hs.
Qed.

Lemma opens_now e s s1 r : opener_ev e → step e s = Some (s1, r) → phase (gate s1) ≠ Restarting → opens s.
Proof. intros He Hs Hp. eapply opens_step; [done..|]. exists [], s1. by split_and!. Qed.

Lemma manual_opens t a s : manual s = [(t, a)] → opens s.
Proof.
  intros Hm.
  set (e := match a with Spawning _ => SpawnFails | Hooking => HookReturns | Stopping => StopJoined end).
  assert (∃ s1 ok, attempt_step t e a s = Some (s1, inr ok)) as (s1 & ok & Ha)
    by (destruct a; simpl; eauto).
  eapply (opens_now (Manual t e)); [done| |].
  - cbn [step]. unfold manual_step. rewrite Hm. simpl. rewrite decide_True by done. simpl.
    rewrite Ha. reflexivity.
  - done.
Qed.

Lemma in_hook_opens k n s : sup s = InAttempt k n Hooking → opens s.
Proof.
  intros Hs. eapply (opens_now (Sup (Attempts HookReturns 0))); [done| |].
  - cbn [step]. unfold sup_step. rewrite Hs. reflexivity.
  - done.
Qed.

Lemma spawning_opens k n cur s : sup s = InAttempt k n (Spawning cur) → opens s.
Proof.
  intros Hs. destruct (has_hook s) eqn:Hh.
  - eapply (opens_step (Sup (Attempts Rebinds 0))); [done| |].
    + cbn [step]. unfold sup_step. rewrite Hs. cbn. rewrite Hh. reflexivity.
    + by eapply in_hook_opens.
  - eapply (opens_now (Sup (Attempts Rebinds 0))); [done| |].
    + cbn [step]. unfold sup_step. rewrite Hs. cbn. rewrite Hh. reflexivity.
    + done.
Qed.

Lemma sleeping_opens k n s : sup s = Sleeping k n → opens s.
Proof.
  intros Hs. eapply (opens_step (Sup Slept)); [done| |].
  - cbn [step]. unfold sup_step. rewrite Hs. reflexivity.
  - by eapply spawning_opens.
Qed.

Lemma cycle_opens k n s : sup s = Cycle k n → is_Some (policy s) → opens s.
Proof.
  intros Hs [p Hp].
  destruct (sup_step (Checks 0) s) as [s1|] eqn:Hc.
  2: { unfold sup_step in Hc. rewrite Hs, Hp in Hc. simpl in Hc.
       destruct (over_budget _ _); [done|]. by destruct (0 <? _)%N. }
  assert (step (Sup (Checks 0)) s = Some (s1, Done)) as Hstep by (cbn [step]; by rewrite Hc).
  unfold sup_step in Hc. rewrite Hs, Hp in Hc. simpl in Hc.
  destruct (over_budget _ _); [injection Hc as Hc|destruct (0 <? _)%N; injection Hc as Hc].
  - eapply opens_now; [|exact Hstep|by rewrite <-Hc]. done.
  - eapply opens_step; [|exact Hstep|rewrite <-Hc; by eapply sleeping_opens]. done.
  - eapply opens_step; [|exact Hstep|rewrite <-Hc; by eapply spawning_opens]. done.
Qed.

Lemma in_attempt_opens k n a s : sup s = InAttempt k n a → is_Some (policy s) → opens s.
Proof.
  intros Hs Hp. destruct a; [by eapply spawning_opens|by eapply in_hook_opens|].
  eapply (opens_step (Sup (Attempts StopJoined 0))); [done| |].
  - cbn [step]. unfold sup_step. rewrite Hs. reflexivity.
  - by eapply cycle_opens.
Qed.

Lemma watching_opens k s :
  sup s = Watching k → is_Some (policy s) →
  (∃ l r d, lives s !! k = Some l ∧ l_status l = Died r d) → opens s.
Proof.
  intros Hs Hp (l & r & d & Hl & Hd). eapply (opens_step (Sup (Wakes 0))); [done| |].
  - cbn [step]. unfold sup_step. rewrite Hs, Hl. simpl. rewrite Hd. reflexivity.
  - eapply (cycle_opens k 0); [done|]. by destruct (phase (gate s)).
Qed.

Lemma opener_opens s : inv s → phase (gate s) = Restarting → opens s.
Proof.
  intros Hinv Hph. destruct (v_open _ Hinv Hph) as [Hm|Ho].
  - destruct (v_manual _ Hinv) as [?|([t a] & Hm' & _)]; [done|]. by eapply manual_opens.
  - assert (is_Some (policy s)) as Hp.
    { apply (v_sup _ Hinv). by destruct (sup s). }
    destruct (sup s) eqn:Hs; try done.
    + destruct Hp as [p Hp]. eapply (opens_step (Sup Watches)); [done| |].
      * cbn [step]. unfold sup_step. rewrite Hs, Hp. reflexivity.
      * eapply watching_opens; [done| |done]. by exists p.
    + by eapply watching_opens.
    + by eapply cycle_opens.
    + by eapply sleeping_opens.
    + by eapply in_attempt_opens.
Qed.

(** ** What stays *)

Lemma send_gate t epoch r s s' res a m :
  phase (gate s) = GaveUp a m → send t epoch r s = Some (s', res) → gate s' = gate s.
Proof.
  intros Hp. unfold send, await_restart_window. destruct (lives s !! _) as [l|]; [|done].
  rewrite Hp. simpl. destruct (negb _); [by intros [= <- _]|].
  destruct (decide _); by intros [= <- _].
Qed.

Lemma terminate_gate t epoch r s s' res a m :
  phase (gate s) = GaveUp a m → service_terminate t epoch r s = Some (s', res) → gate s' = gate s.
Proof.
  intros Hp. unfold service_terminate, await_restart_window.
  destruct (lives s !! _) as [l|]; [|done]. rewrite Hp. simpl.
  destruct (negb (l_inc l =? incarnation s)%N); [by intros [= <- _]|].
  destruct (decide _); [|by intros [= <- _]]. destruct (negb _); by intros [= <- _].
Qed.

Lemma note_dead_phase k r d s :
  phase (gate s) ≠ Open → phase (gate (note_service_dead k r d s)) = phase (gate s).
Proof. unfold note_service_dead. by destruct (policy s), (phase (gate s)) eqn:E. Qed.

Lemma gave_up_step e s s' r a m :
  inv s → phase (gate s) = GaveUp a m → step e s = Some (s', r) → phase (gate s') = GaveUp a m.
Proof.
  intros Hinv Hp. pose proof (v_gave _ Hinv _ _ Hp) as Hs.
  assert (is_Some (policy s)) as Hpol by (apply (v_sup _ Hinv); by rewrite Hs).
  pose proof (v_alone _ Hinv Hpol) as Hm. destruct e; cbn [step].
  - destruct (awake t s); [|done]. intros Hq%(send_gate _ _ _ _ _ _ _ _ Hp). by rewrite Hq.
  - destruct (holds _ _ _ _); [|done]. by intros [= <- _].
  - destruct (holds _ _ _ _); [|done]. intros [= <- _]. rewrite note_dead_phase; [done|].
    simpl. congruence.
  - destruct (holds _ _ _ _); [|done]. by intros [= <- _].
  - destruct (holds _ _ _ _); [|done]. intros [= <- _]. rewrite note_dead_phase; [done|].
    simpl. congruence.
  - destruct (awake t s); [done|]. by intros [= <- _].
  - destruct (awake t s); [|done]. by intros [= <- _].
  - destruct (decide _); [done|]. by intros [= <- _].
  - destruct (awake t s); [|done]. unfold service_restart. destruct (lives s !! _); [|done]. simpl.
    destruct r0; [|by intros [= <- _]]. destruct (negb _); [by intros [= <- _]|].
    rewrite decide_True by done. by intros [= <- _].
  - unfold manual_step. by rewrite Hm.
  - intros [= Hq]. unfold service_supervise in Hq. destruct Hpol as [p Hpol]. rewrite Hpol in Hq.
    destruct r0, parsed; by simplify_eq.
  - unfold sup_step. by rewrite Hs.
  - by intros [= <- _].
  - destruct (awake t s); [|done]. intros Hq%(terminate_gate _ _ _ _ _ _ _ _ Hp). by rewrite Hq.
  - intros [= Hq]. unfold service_on_restart in Hq. destruct r0, arg; by simplify_eq.
Qed.

Lemma gave_up_stays s s' a m :
  inv s → orderly_run s s' → phase (gate s) = GaveUp a m → phase (gate s') = GaveUp a m.
Proof.
  intros Hinv Hr. induction Hr as [|e s s1 r s2 Ho Hs Hr IH]; [done|]. intros Hp.
  apply IH; [by eapply gate_step_inv|by eapply gave_up_step].
Qed.

(** The lives are only ever added to. *)
Definition grows (s s' : Service) : Prop := length (lives s) ≤ length (lives s').

Lemma await_lives me epoch l s s' r :
  await_restart_window me epoch l s = (s', r) → lives s' = lives s.
Proof. intros (E & _)%await_core. done. Qed.

Lemma on_life_length k f s : length (lives (on_life k f s)) = length (lives s).
Proof. apply length_alter. Qed.

Lemma note_dead_length k r d s : length (lives (note_service_dead k r d s)) = length (lives s).
Proof.
  unfold note_service_dead. rewrite on_life_length. destruct (policy s), (phase (gate s)); try done.
  destruct (lives s !! k) as [l|]; [|done]. by destruct (l_stopped l).
Qed.

Lemma attempt_grows a s s' : attempt_core a s s' → grows s s'.
Proof.
  unfold grows. intros [(-> & _)|[(cur & _ & -> & _)|(-> & _)]].
  - done.
  - simpl. unfold vec_push. rewrite length_app. simpl. lia.
  - by rewrite on_life_length.
Qed.

Lemma sup_grows e s s' : sup_step e s = Some s' → grows s s'.
Proof.
  unfold grows, sup_step. destruct (sup s), e; try done.
  - destruct (policy s); by intros [= <-].
  - destruct (lives s !! k) as [l|]; [|done]. simpl.
    destruct (l_status l); [done|by intros [= <-]|]. intros [= <-]. by destruct (phase (gate s)).
  - destruct (policy s); [|done]. simpl. destruct (over_budget _ _); [intros [= <-]|].
    + by rewrite <-(on_life_length k flag_gave_up s).
    + destruct (0 <? _)%N; by intros [= <-].
  - by intros [= <-].
  - destruct (attempt_step _ _ _ _) as [[s1 out]|] eqn:Ha; [|done]. simpl.
    apply attempt_changes in Ha as [Hch%attempt_grows _].
    destruct out as [|[]]; by intros [= <-].
Qed.

Lemma step_grows e s s' r : step e s = Some (s', r) → grows s s'.
Proof.
  unfold grows. destruct e; cbn [step].
  - destruct (awake t s); [|done]. unfold send. destruct (lives s !! _); [|done]. simpl.
    destruct (await_restart_window _ _ _ _) as [s1 [v|]] eqn:Ha; apply await_lives in Ha.
    + intros [= <- _]. by rewrite Ha.
    + destruct (decide _); [intros [= <- _]; by rewrite Ha|].
      destruct (l_stopped _); intros [= <- _]; rewrite ?on_life_length; by rewrite Ha.
  - destruct (holds _ _ _ _); [|done]. intros [= <- _]. by rewrite on_life_length.
  - destruct (holds _ _ _ _); [|done]. intros [= <- _]. by rewrite note_dead_length, on_life_length.
  - destruct (holds _ _ _ _); [|done]. intros [= <- _]. by rewrite on_life_length.
  - destruct (holds _ _ _ _); [|done]. intros [= <- _]. by rewrite note_dead_length, on_life_length.
  - destruct (awake t s); [done|]. by intros [= <- _].
  - destruct (awake t s); [|done]. by intros [= <- _].
  - destruct (decide _); [done|]. intros [= <- _]. by rewrite on_life_length.
  - destruct (awake t s); [|done]. unfold service_restart. destruct (lives s !! _) as [l|]; [|done].
    simpl. destruct r0; [|by intros [= <- _]]. destruct (negb _); [by intros [= <- _]|].
    destruct (decide _); [by intros [= <- _]|].
    destruct (l_status l), (phase (gate s)); by intros [= <- _].
  - unfold manual_step. destruct (list_find _ _) as [[i a]|]; [|done]. simpl.
    destruct (attempt_step _ _ _ _) as [[s1 out]|] eqn:Ha; [|done]. simpl.
    apply attempt_changes in Ha as [Hch%attempt_grows _]. destruct out; by intros [= <- _].
  - intros [= Hq]. unfold service_supervise in Hq.
    destruct r0, parsed, (policy s), boot; by simplify_eq.
  - destruct (sup_step e s) eqn:Hq; [|done]. intros [= <- _]. by eapply sup_grows.
  - intros [= <- _]. unfold service_stop. by rewrite on_life_length.
  - destruct (awake t s); [|done]. unfold service_terminate. destruct (lives s !! _); [|done]. simpl.
    destruct (await_restart_window _ _ _ _) as [s1 [v|]] eqn:Ha; apply await_lives in Ha.
    + intros [= <- _]. by rewrite Ha.
    + destruct (negb _); intros [= <- _]; rewrite ?on_life_length; by rewrite Ha.
  - intros [= Hq]. unfold service_on_restart in Hq. destruct r0, arg; by simplify_eq.
Qed.

Lemma orderly_grows s s' : orderly_run s s' → grows s s'.
Proof.
  unfold grows. induction 1 as [|e s s1 r s2 Ho Hs Hr IH]; [done|].
  apply step_grows in Hs. unfold grows in Hs. lia.
Qed.

(** ** Shut out *)

Lemma shut_out_life k f s :
  shut_out s → (k = root s → ∀ l, l_status l = Running → l_queued l = [] → l_convs l = [] →
                 l_status (f l) = Running ∧ l_queued (f l) = [] ∧ l_convs (f l) = []
                 ∧ l_inc (f l) = l_inc l) →
  shut_out (on_life k f s) ∧ root (on_life k f s) = root s.
Proof.
  intros (H1 & H2 & H3 & H4 & H5 & l & Hl & Hr & Hq & Hc & Hi) Hf. split; [|done].
  unfold shut_out. split_and!; try done.
  change (root (on_life k f s)) with (root s). rewrite on_life_lookup. case_decide as Hk; [|eauto 8].
  destruct (Hf Hk l Hr Hq Hc) as (? & ? & ? & Ei). exists (f l). rewrite Hl.
  split_and!; try done. by rewrite Ei.
Qed.

Lemma shut_out_parks t epoch l s s' r :
  shut_out s → await_restart_window t epoch l s = (s', r) → shut_out s' ∧ root s' = root s.
Proof.
  intros Hs Ha. pose proof Hs as (H1 & H2 & H3 & H4 & H5 & Hl).
  unfold await_restart_window in Ha. destruct (negb _); [by injection Ha as <- _|].
  destruct (decide _); [by injection Ha as <- _|]. rewrite H1, H2 in Ha. simpl in Ha.
  by injection Ha as <- _.
Qed.

(** A send or a terminate gets through only from within a conversation. *)
Lemma shut_out_through t epoch l s s' :
  shut_out s → await_restart_window t epoch l s = (s', None) → t ∈ l_convs l ∧ s' = s.
Proof.
  intros (H1 & H2 & _) Ha. unfold await_restart_window in Ha.
  destruct (negb _); [done|]. destruct (decide _); [by injection Ha as <-|].
  rewrite H1, H2 in Ha. done.
Qed.

Lemma shut_out_root_idle f t s :
  shut_out s → (f = l_queued ∨ f = l_convs) → holds f t (root s) s = false.
Proof.
  intros (_ & _ & _ & _ & _ & l & Hl & _ & Hq & Hc & _) Hf. unfold holds. rewrite Hl.
  destruct Hf as [->| ->]; rewrite ?Hq, ?Hc; apply bool_decide_eq_false; apply not_elem_of_nil.
Qed.

Lemma note_dead_shut_out k r d s : shut_out s → note_service_dead k r d s = on_life k (emit (Died r d)) s.
Proof. intros (Hp & _). unfold note_service_dead. rewrite Hp. by destruct (policy s). Qed.

Lemma shut_out_call f k t s e :
  shut_out s → (f = l_queued ∨ f = l_convs) → holds f t k s = true →
  shut_out (on_life k e s) ∧ root (on_life k e s) = root s.
Proof.
  intros Hs Hf Hh. apply shut_out_life; [done|]. intros ->.
  by rewrite (shut_out_root_idle f t) in Hh.
Qed.

Lemma shut_out_step e s s' r :
  shut_out s → step e s = Some (s', r) → (∀ st, e ≠ LifeEnds (root s) st) →
  shut_out s' ∧ root s' = root s.
Proof.
  intros Hs. pose proof Hs as (H1 & H2 & H3 & H4 & H5 & l & Hl & Hrun & Hq & Hc & Hi).
  destruct e; cbn [step]; intros Hstep Hend.
  - destruct (awake t s); [|done]. unfold send in Hstep.
    destruct (lives s !! proxy_life s _) as [l1|] eqn:Hl1; [|done]. simpl in Hstep.
    destruct (await_restart_window _ _ _ _) as [s1 [v|]] eqn:Ha.
    + injection Hstep as <- _. by eapply shut_out_parks.
    + apply (shut_out_through _ _ _ _ _ Hs) in Ha as [Hin ->].
      rewrite decide_True in Hstep by done. by injection Hstep as <- _.
  - destruct (holds _ _ _ _) eqn:Hh; [|done]. injection Hstep as <- _.
    eapply shut_out_call; [done|by left|done].
  - destruct (holds _ _ _ _) eqn:Hh; [|done]. injection Hstep as <- _.
    destruct (shut_out_call l_queued k t s (drop_queued t) Hs (or_introl eq_refl) Hh) as [Hs1 Hr1].
    rewrite note_dead_shut_out by done. rewrite <-Hr1. apply shut_out_life; [done|].
    rewrite Hr1. intros ->. by rewrite (shut_out_root_idle l_queued t _ Hs (or_introl eq_refl)) in Hh.
  - destruct (holds _ _ _ _) eqn:Hh; [|done]. injection Hstep as <- _.
    eapply shut_out_call; [done|by right|done].
  - destruct (holds _ _ _ _) eqn:Hh; [|done]. injection Hstep as <- _.
    destruct (shut_out_call l_convs k t s (drop_conv t) Hs (or_intror eq_refl) Hh) as [Hs1 Hr1].
    rewrite note_dead_shut_out by done. rewrite <-Hr1. apply shut_out_life; [done|].
    rewrite Hr1. intros ->. by rewrite (shut_out_root_idle l_convs t _ Hs (or_intror eq_refl)) in Hh.
  - destruct (awake t s); [done|]. by injection Hstep as <- _.
  - destruct (awake t s); [|done]. by injection Hstep as <- _.
  - destruct (decide _); [done|]. injection Hstep as <- _. apply shut_out_life; [done|].
    intros ->. by destruct (Hend st).
  - destruct (awake t s); [|done]. unfold service_restart in Hstep.
    destruct (lives s !! proxy_life s _) as [l1|]; [|done]. simpl in Hstep.
    destruct r0; [|by injection Hstep as <- _]. destruct (negb _); [by injection Hstep as <- _|].
    rewrite decide_True in Hstep by done. by injection Hstep as <- _.
  - unfold manual_step in Hstep. by rewrite H3 in Hstep.
  - injection Hstep as Hstep. unfold service_supervise in Hstep. destruct H4 as [p H4].
    rewrite H4 in Hstep. destruct r0, parsed; by simplify_eq.
  - unfold sup_step in Hstep. rewrite H5 in Hstep. destruct e; try done.
    rewrite Hl in Hstep. simpl in Hstep. by rewrite Hrun in Hstep.
  - injection Hstep as <- _. apply shut_out_life; [done|]. by intros _.
  - destruct (awake t s); [|done]. unfold service_terminate in Hstep.
    destruct (lives s !! proxy_life s _) as [l1|] eqn:Hl1; [|done]. simpl in Hstep.
    destruct (await_restart_window _ _ _ _) as [s1 [v|]] eqn:Ha.
    + injection Hstep as <- _. by eapply shut_out_parks.
    + apply (shut_out_through _ _ _ _ _ Hs) in Ha as [Hin ->].
      destruct (negb _); injection Hstep as <- _; [done|]. apply shut_out_life; [done|].
      intros Hk. rewrite Hk, Hl in Hl1. injection Hl1 as <-. rewrite Hc in Hin.
      by apply not_elem_of_nil in Hin.
  - injection Hstep as Hstep. unfold service_on_restart in Hstep. destruct r0, arg; by simplify_eq.
Qed.

Lemma shut_out_run es s s' :
  shut_out s → run es s = Some s' → (∀ st, LifeEnds (root s) st ∉ es) →
  shut_out s' ∧ root s' = root s.
Proof.
  revert s. induction es as [|e es IH]; intros s Hs Hr Hno; cbn [run] in Hr.
  { by injection Hr as <-. }
  destruct (step e s) as [[s1 r]|] eqn:Hstep; [|done].
  destruct (shut_out_step _ _ _ _ Hs Hstep) as [Hs1 Hr1].
  { intros st ->. by apply (Hno st), list_elem_of_here. }
  rewrite <-Hr1. apply IH; [done..|]. rewrite Hr1. intros st Hin.
  by apply (Hno st), list_elem_of_further.
Qed.

Lemma shut_out_send t epoch s :
  shut_out s → awake t s = true → ∃ s', step (Send t epoch Root) s = Some (s', Parks).
Proof.
  intros (H1 & H2 & _ & _ & _ & l & Hl & _ & _ & Hc & Hi) Ht. cbn [step]. rewrite Ht.
  unfold send. cbn [proxy_life]. rewrite Hl. cbn. unfold await_restart_window.
  rewrite Hi, N.eqb_refl. simpl. rewrite Hc, decide_False by apply not_elem_of_nil.
  rewrite H1, H2. simpl. eauto.
Qed.

(** ** The properties *)

(** C16: No sender is left at the gate.  In every reachable state a task parked at the gate is among
    its waiters, by its own park, and the gate is closed; and every step that leaves the gate other
    than closed (a restart that succeeded, a manual one that failed, a supervisor that gave up)
    leaves nobody parked. *)
Theorem gate_wakes_every_sender s :
  reachable s →
  (∀ t e, parked s !! t = Some e → (t, e) ∈ waiters (gate s) ∧ phase (gate s) = Restarting)
  ∧ ∀ e s' r, step e s = Some (s', r) → phase (gate s') ≠ Restarting → parked s' = ∅.
Proof.
  intros (p & es & Hr).
  assert (∀ es s0 s1, parks_ok s0 → run es s0 = Some s1 → parks_ok s1) as Hall.
  { clear. induction es as [|e es IH]; intros s0 s1 Hok; cbn [run]; [by intros [= <-]|].
    destruct (step e s0) as [[s r]|] eqn:Hs; [|done]. apply IH. by eapply step_parks_ok. }
  assert (parks_ok s) as Hok by (eapply Hall; [|exact Hr]; by intros t e).
  split; [exact Hok|]. intros e s' r Hs Hp. apply (step_parks_ok _ _ _ _ Hok) in Hs.
  apply map_empty. intros t. apply eq_None_not_Some. intros [epoch Ht]. by apply Hs in Ht as [_ ?].
Qed.

(** C17: A closed gate has someone to open it.  In every run where deaths are reported of the current
    incarnation only, incarnations end stopped only when told to, and a policy is attached while
    no restart is under way: while the gate is closed, a manual attempt is under way, or the
    supervisor is in its restart cycle or is still to see a death that has happened; and there
    are steps of that attempt or of that supervisor, and of nobody else, that open the gate. *)
Theorem closed_gate_has_an_opener p s :
  orderly_run (hosted p) s → phase (gate s) = Restarting →
  has_opener s
  ∧ ∃ es s', Forall opener_ev es ∧ run es s = Some s' ∧ phase (gate s') ≠ Restarting.
Proof.
  intros Hr Hp. pose proof (orderly_inv _ _ Hr (hosted_inv p)) as Hinv.
  split; [by apply (v_open _ Hinv)|by apply opener_opens].
Qed.

(** C19: Giving up is final, in orderly runs: runs where, before and after the giving up, deaths are
    reported of the current incarnation only, incarnations end stopped only when told to, and a
    policy is attached with a task to carry it and while no restart is under way
    ([supervision_overlaps_a_manual_restart] is a run that is not, and reopens).  Once the
    supervisor has given up no step reopens the gate and no restart is under way.  Every send, by
    any task that is not parked at the gate, changes nothing and is answered so: through the root
    or a proxy of its incarnation it is refused with the count and the message of the giving up,
    unless the task has a conversation with that incarnation open, in which the send nests; and
    through a proxy of another incarnation it is refused as stale. *)
Theorem given_up_is_final p s s' a m :
  orderly_run (hosted p) s → phase (gate s) = GaveUp a m → orderly_run s s' →
  phase (gate s') = GaveUp a m ∧ manual s' = []
  ∧ ∀ t e r l, awake t s' = true → lives s' !! proxy_life s' r = Some l →
      step (Send t e r) s' =
      Some (s', if decide (proxy_life s' r = root s')
                then if decide (t ∈ l_convs l) then Nested else GaveUpAfter a m
                else StaleIncarnation (l_inc l) (incarnation s')).
Proof.
  intros Hr Hp Hr'. pose proof (orderly_inv _ _ Hr (hosted_inv p)) as Hinv.
  pose proof (orderly_inv _ _ Hr' Hinv) as Hinv'.
  pose proof (gave_up_stays _ _ _ _ Hinv Hr' Hp) as Hp'.
  split_and!; [done| |].
  - apply (v_alone _ Hinv'), (v_sup _ Hinv'). by rewrite (v_gave _ Hinv' _ _ Hp').
  - intros t e r l Ht Hl. destruct (v_life _ Hinv') as [N1 N2 N3 _].
    cbn [step]. rewrite Ht. unfold send. rewrite Hl. cbn [mbind option_bind].
    unfold await_restart_window. rewrite (N3 _ _ Hl).
    destruct (decide (proxy_life s' r = root s')) as [E|E].
    + rewrite E. replace (_ =? _)%N with true by (symmetry; apply N.eqb_eq; lia). simpl.
      destruct (decide (t ∈ l_convs l)); [done|]. by rewrite Hp'.
    + replace (_ =? _)%N with false by (symmetry; apply N.eqb_neq; lia). done.
Qed.

(** C18: What an incarnation minted dies with it, in orderly runs: runs where, before and after the
    proxy's incarnation is replaced, deaths are reported of the current incarnation only,
    incarnations end stopped only when told to, and a policy is attached with a task to carry it
    and while no restart is under way ([supervision_overlaps_a_manual_restart] is a run that is
    not, and repeats a number).  A proxy of an incarnation that the root is no longer bound to is
    stale for good: every later send through it, by a task that is not parked at the gate and
    whatever the gate, is refused with its own incarnation's number and the current one, and
    changes nothing. *)
Theorem stale_proxies_stay_stale p s s' k l :
  orderly_run (hosted p) s → lives s !! k = Some l → k ≠ root s → orderly_run s s' →
  ∀ t e, awake t s' = true →
    step (Send t e (Sub k)) s' =
    Some (s', StaleIncarnation (N.of_nat k + 1) (N.of_nat (length (lives s')))).
Proof.
  intros Hr Hl Hk Hr' t e Ht. pose proof (orderly_inv _ _ Hr (hosted_inv p)) as Hinv.
  destruct (v_life _ (orderly_inv _ _ Hr' Hinv)) as [N1 N2 N3 _].
  destruct (v_life _ Hinv) as [M1 _ _ _]. pose proof (orderly_grows _ _ Hr') as Hg.
  unfold grows in Hg. apply lookup_lt_Some in Hl.
  destruct (lookup_lt_is_Some_2 (lives s') k) as [l' Hl']; [lia|].
  cbn [step]. rewrite Ht. unfold send. cbn [proxy_life]. rewrite Hl'. cbn.
  unfold await_restart_window. rewrite (N3 _ _ Hl'), N2.
  replace (_ =? _)%N with false by (symmetry; apply N.eqb_neq; lia). done.
Qed.

Definition demo_policy (max : N) : SupervisePolicy := mkPolicy 0 1 max 60000.

(** A supervised service whose first incarnation dies while task 5 has a call open on it. *)
Definition late_report : list Ev :=
  [Supervise Root (Some (demo_policy 5)) (Some 9); Sup Watches;
   Send 5 0 Root; Claimed 5 0;
   LifeEnds 0 (Died Exited "gone"); Sup (Wakes 1); Sup (Checks 1); Sup (Attempts Rebinds 2);
   Sup Watches;
   CallDies 5 0 Exited "the service has exited"].

(** C27: A late report of an old death shuts a healthy service out.  A supervised service dies while a
    caller's conversation is held up (in a block it runs for the service, say); the supervisor
    restarts it and watches the new incarnation; then the caller notices the old death, and its
    report closes the gate of the new incarnation.  From there on, whatever any task does, as long
    as the new, healthy worker does not end, the gate stays closed, the supervisor waits, and
    every send through the root parks. *)
Theorem late_report_shuts_the_service_out :
  ∃ s, run late_report (hosted true) = Some s ∧ root s = 1
    ∧ (∃ l, lives s !! 1 = Some l ∧ l_status l = Running)
    ∧ ∀ es s', run es s = Some s' → (∀ st, LifeEnds 1 st ∉ es) →
        phase (gate s') = Restarting ∧ sup s' = Watching 1
        ∧ ∀ t e, awake t s' = true → ∃ s'', step (Send t e Root) s' = Some (s'', Parks).
Proof.
  destruct (run late_report (hosted true)) as [s|] eqn:Hrun; [|vm_compute in Hrun; discriminate].
  assert (shut_out s ∧ root s = 1) as [Hs Hroot].
  { vm_compute in Hrun. injection Hrun as <-. unfold shut_out. split; [|done].
    split_and!; try done. eexists. by split_and!. }
  exists s. split_and!; [done|done| |].
  - destruct Hs as (_ & _ & _ & _ & _ & l & Hl & Hst & _). rewrite Hroot in Hl. by exists l.
  - intros es s' Hes Hno. rewrite <-Hroot in Hno.
    destruct (shut_out_run _ _ _ Hs Hes Hno) as [Hs' Hroot'].
    pose proof Hs' as (H1 & _ & _ & _ & H5 & _).
    split_and!; [done|congruence|]. intros t e Ht. by apply shut_out_send.
Qed.

(** A policy attached while task 5 restarts a dead service. *)
Definition overlap : list Ev :=
  [LifeEnds 0 (Died Exited "gone"); Restart 5 Root;
   Supervise Root (Some (demo_policy 1)) (Some 9); Sup Watches; Sup (Wakes 1); Sup (Checks 1)].

(** A policy attached during a manual restart breaks the gate.  [serviceSupervise:] is accepted
    while [serviceRestart] is under way.  The two attempts overlap: both may rebind the root, to
    incarnations of the same number, so that a proxy of the first is not stale and calls the
    other, still running worker; and the supervisor may give up, and the gate be opened again by
    the end of the manual attempt that failed. *)
Theorem supervision_overlaps_a_manual_restart :
  (∃ s l1 l2, run (overlap ++ [Manual 5 Rebinds; Sup (Attempts Rebinds 2)]) (hosted true) = Some s
     ∧ lives s !! 1 = Some l1 ∧ lives s !! 2 = Some l2 ∧ root s = 2
     ∧ l_status l1 = Running ∧ l_status l2 = Running ∧ l_inc l1 = l_inc l2
     ∧ snd <$> step (Send 7 0 (Sub 1)) s = Some Called)
  ∧ (∃ s1 s2 a m, run (overlap ++ [Sup (Attempts SpawnFails 2); Sup (Checks 2)]) (hosted true) = Some s1
     ∧ phase (gate s1) = GaveUp a m
     ∧ run [Manual 5 SpawnFails] s1 = Some s2 ∧ phase (gate s2) = Open).
Proof.
  split; [eexists _, _, _|eexists _, _, _, _]; split_and!; try (vm_compute; reflexivity).
Qed.

(** ** At work *)

Fixpoint orderly_all (es : list Ev) (s : Service) : Prop :=
  match es with
  | [] => True
  | e :: es => orderly e s ∧ match step e s with Some (s1, _) => orderly_all es s1 | None => False end
  end.

Lemma orderly_all_run es s s' : run es s = Some s' → orderly_all es s → orderly_run s s'.
Proof.
  revert s. induction es as [|e es IH]; intros s; cbn [run orderly_all].
  { intros [= <-] _. constructor. }
  destruct (step e s) as [[s1 r]|] eqn:Hs; [|done]. intros Hr [Ho Hall].
  eapply orderly_step; [done..|]. by apply IH.
Qed.

(** A caller notices the death of a supervised service, and another one sends. *)
Definition noticed : list Ev :=
  [Supervise Root (Some (demo_policy 1)) (Some 9); Sup Watches; Send 5 0 Root; Claimed 5 0;
   CallDies 5 0 Exited "gone"; Send 7 3 Root].

Definition at_ (es : list Ev) : Service := default (hosted true) (run es (hosted true)).

(** The supervisor tries once and gives up. *)
Definition spent : list Ev :=
  noticed ++ [Sup (Wakes 1); Sup (Checks 1); Sup (Attempts SpawnFails 2); Sup (Checks 2)].

(** The supervisor restarts the service. *)
Definition restarted : list Ev := noticed ++ [Sup (Wakes 1); Sup (Checks 1); Sup (Attempts Rebinds 2)].

Lemma noticed_orderly : orderly_run (hosted true) (at_ noticed).
Proof. apply (orderly_all_run noticed); [vm_compute; reflexivity|vm_compute; intuition discriminate]. Qed.
Lemma spent_orderly : orderly_run (hosted true) (at_ spent).
Proof. apply (orderly_all_run spent); [vm_compute; reflexivity|vm_compute; intuition discriminate]. Qed.
Lemma restarted_orderly : orderly_run (hosted true) (at_ restarted).
Proof. apply (orderly_all_run restarted); [vm_compute; reflexivity|vm_compute; intuition discriminate]. Qed.

Lemma gate_wakes_every_sender_witness :
  (7, 3%N) ∈ waiters (gate (at_ noticed)) ∧ parked (at_ restarted) = ∅.
Proof.
  split.
  - apply (gate_wakes_every_sender (at_ noticed)); [|vm_compute; reflexivity].
    exists true, noticed. vm_compute. reflexivity.
  - vm_compute. reflexivity.
Defined.

Lemma closed_gate_has_an_opener_witness : has_opener (at_ noticed).
Proof.
  apply (closed_gate_has_an_opener true (at_ noticed));
    [exact noticed_orderly|vm_compute; reflexivity].
Defined.

Lemma given_up_is_final_witness :
  ∃ m, step (Send 8 0 Root) (at_ spent) = Some (at_ spent, GaveUpAfter 1 m).
Proof.
  destruct (phase (gate (at_ spent))) as [| |a m] eqn:Hp; [vm_compute in Hp; discriminate..|].
  assert (a = 1%N) as -> by (vm_compute in Hp; congruence).
  destruct (given_up_is_final true _ _ _ _ spent_orderly Hp (orderly_refl _)) as (_ & _ & Hsend).
  exists m. rewrite (Hsend 8 0%N Root _ eq_refl eq_refl). vm_compute. reflexivity.
Defined.

Lemma stale_proxies_stay_stale_witness :
  step (Send 8 0 (Sub 0)) (at_ restarted) = Some (at_ restarted, StaleIncarnation 1 2).
Proof.
  refine (stale_proxies_stay_stale true _ _ 0 _ restarted_orderly _ _ (orderly_refl _) 8 0 _);
    [vm_compute; reflexivity|vm_compute; discriminate|vm_compute; reflexivity].
Defined.
End GateProps.
