(* ===== verification/Instr.v ===== *)
(** * Instructions, constants and block templates (src/src/instruction.rs)

    The instruction set of the interpreter with the constructors of the source, the constants
    an instruction carries, the template a block literal compiles to, and the scans of a
    template that the interpreter uses to decide whether its closures may be shared.

    A double is a [spec_float] of the Standard Library (binary64, one NaN). *)
From Stdlib Require Import SpecFloat.
From stdpp Require Import base numbers list strings gmap.
From stdpp Require Import options.
From S2P Require Import Prelude.

(** An interned name is compared by identity; two symbols are equal when their texts are. *)
Abbreviation Symbol := string.
Abbreviation f64 := spec_float.

Record SourceInfo := mkSourceInfo {
  si_filename : string; si_line : N; si_column : N; si_start : N; si_end : N;
  si_source_text : option string }.

Record NamespacedName := mkName { ns_path : list string; ns_name : string }.

Inductive ElemTag := TagInt | TagDouble | TagBool | TagStr | TagList | TagMap | TagSet
  | TagClass (name : Symbol).

Inductive IntBinKind := Add | Sub | Mul | Div | Mod | Lt | Le | Gt | Ge | Eq | Ne.

#[export] Instance symbol_eq_dec : EqDecision Symbol := _.
#[export] Instance IntBinKind_eq_dec : EqDecision IntBinKind.
Proof. solve_decision. Defined.

Definition selector (k : IntBinKind) : string :=
  match k with
  | Add => "+:" | Sub => "-:" | Mul => "*:" | Div => "/:" | Mod => "%:"
  | Lt => "<:" | Le => "<=:" | Gt => ">:" | Ge => ">=:" | Eq => "==:" | Ne => "!=:"
  end.

Definition from_selector (sel : string) : option IntBinKind :=
  if decide (sel = "+:") then Some Add
  else if decide (sel = "-:") then Some Sub
  else if decide (sel = "*:") then Some Mul
  else if decide (sel = "/:") then Some Div
  else if decide (sel = "%:") then Some Mod
  else if decide (sel = "<:") then Some Lt
  else if decide (sel = "<=:") then Some Le
  else if decide (sel = ">:") then Some Gt
  else if decide (sel = ">=:") then Some Ge
  else if decide (sel = "==:") then Some Eq
  else if decide (sel = "!=:") then Some Ne
  else None.

Inductive Instruction :=
| LoadLocal (name : Symbol)
| DefineLocal (name : Symbol)
| StoreLocal (name : Symbol)
| LoadGlobal (name : NamespacedName)
| StoreGlobal (name : NamespacedName) (is_define : bool)
| Push (c : Constant)
| Pop
| Dup
| Send (sel : Symbol) (num_args : nat)
| SendLocal (var sel : Symbol) (num_args : nat)
| SendConst (c : Constant) (sel : Symbol) (num_args : nat)
| SendField (field : string) (sel : Symbol) (num_args : nat)
| DefineLocalKeep (name : Symbol)
| StoreLocalKeep (name : Symbol)
| StoreFieldKeep (field : string)
| SendLocalLocal (a b sel : Symbol) (num_args : nat)
| SendLocalConst (a : Symbol) (c : Constant) (sel : Symbol) (num_args : nat)
| IntAdd | IntSub | IntMul | IntDiv | IntMod
| IntLt | IntLe | IntGt | IntGe | IntEq | IntNe
| IntBinLL (a b : Symbol) (kind : IntBinKind)
| IntBinLC (a : Symbol) (c : Constant) (kind : IntBinKind)
| DoubleAdd | DoubleSub | DoubleMul | DoubleDiv | DoubleMod
| DoubleLt | DoubleLe | DoubleGt | DoubleGe | DoubleEq | DoubleNe
| DoubleBinLL (a b : Symbol) (kind : IntBinKind)
| DoubleBinLC (a : Symbol) (c : Constant) (kind : IntBinKind)
| ListGet | ListSet | ListPush
| MapGet | MapSet
| Return | Yeet | BlockReturn | MethodReturn
| Jump (off : Z)
| IfJump (off : Z)
| ElseJump (off : Z)
| BranchIfNotBool (off : Z)
| BranchIfNotList (off : Z) (block_tid : option N)
| RequireBool
| BranchIfNotPlainNew (off : Z)
| NewWithFields (names : list Symbol)
| ListLen
| NewList (n : nat)
| NewMap (n : nat)
| NewSet (n : nat)
| TagCollection (tag : ElemTag)
| NewRegex
| DefineClass (name : NamespacedName) (parent_name : option NamespacedName)
    (instance_vars : list string) (source : option SourceInfo)
| ExecuteBlockWithSelf
| RecordClassSite (name : NamespacedName) (source : SourceInfo)
| DefineMethod (sel : string)
| OverrideMethod (sel : string)
| LoadField (name : string)
| LoadFieldOf (name : string)
| StoreField (name : string)
| Use (package : option string) (path : string) (glob : bool)
with Constant :=
| CNil
| CBool (b : bool)
| CInt (i : Z)
| CDouble (d : f64)
| CString (s : string)
| CSymbol (s : string)
| CBlock (sb : StaticBlock)
(** The atomic bytes [spec_state], [is_closed] and [uses_self] of the template, which memoise
    scans and tiering, and the type names of the parameters are left out. *)
with StaticBlock := mkStaticBlock
  (sb_name : option string) (sb_param_syms : list Symbol) (sb_bytecode : list Instruction)
  (sb_source_info : option SourceInfo) (sb_decl_block : option StaticBlock)
  (sb_source_map : list (option SourceInfo)) (sb_template_id : option N)
  (sb_is_init_literal : bool).

Definition as_int (c : Constant) : option Z :=
  match c with CInt i => Some i | _ => None end.

Definition as_double (c : Constant) : option f64 :=
  match c with CDouble d => Some d | _ => None end.

Definition send_parts (i : Instruction) : option (Symbol * nat * option Constant) :=
  match i with
  | Send s n => Some (s, n, None)
  | SendLocal _ s n => Some (s, n, None)
  | SendField _ s n => Some (s, n, None)
  | SendLocalLocal _ _ s n => Some (s, n, None)
  | SendConst c s n => Some (s, n, Some c)
  | SendLocalConst _ c s n => Some (s, n, Some c)
  | _ => None
  end.

(** ** Scans of a template *)

Definition self_symbol : Symbol := "self".

(** Does the instruction itself read or write [self] or a field of it? *)
Definition touches_self (i : Instruction) : bool :=
  match i with
  | LoadField _ | StoreField _ | StoreFieldKeep _ | SendField _ _ _ => true
  | LoadLocal s | StoreLocal s => bool_decide (s = self_symbol)
  | SendLocal v _ _ => bool_decide (v = self_symbol)
  | SendLocalLocal a b _ _ => bool_decide (a = self_symbol) || bool_decide (b = self_symbol)
  | SendLocalConst a _ _ _ => bool_decide (a = self_symbol)
  | IntBinLL a b _ | DoubleBinLL a b _ =>
      bool_decide (a = self_symbol) || bool_decide (b = self_symbol)
  | IntBinLC a _ _ | DoubleBinLC a _ _ => bool_decide (a = self_symbol)
  | _ => false
  end.

(** Both scans recur into the block a [Push] carries and into the fused constant of a send
    ([send_parts]). *)
Fixpoint template_uses_self (sb : StaticBlock) : bool :=
  match sb with
  | mkStaticBlock _ _ code _ _ _ _ _ =>
      existsb (fun i =>
        touches_self i ||
        match i with
        | Push (CBlock inner) => template_uses_self inner
        | SendConst (CBlock inner) _ _ => template_uses_self inner
        | SendLocalConst _ (CBlock inner) _ _ => template_uses_self inner
        | _ => false
        end) code
  end.

Definition defined_names (params : list Symbol) (code : list Instruction) : gset Symbol :=
  list_to_set params ∪
  list_to_set (omap (fun i => match i with DefineLocal s => Some s | _ => None end) code).

Definition reads_free (defined : gset Symbol) (i : Instruction) : bool :=
  let free s := bool_decide (s ∉ defined) in
  match i with
  | LoadLocal s | StoreLocal s | StoreLocalKeep s => free s
  | SendLocal v _ _ => free v
  | SendLocalLocal a b _ _ => free a || free b
  | SendLocalConst a _ _ _ => free a
  | IntBinLL a b _ | DoubleBinLL a b _ => free a || free b
  | IntBinLC a _ _ | DoubleBinLC a _ _ => free a
  | MethodReturn => true
  | _ => false
  end.

Fixpoint scan_closed (sb : StaticBlock) : bool :=
  match sb with
  | mkStaticBlock _ params code _ _ _ _ _ =>
      if template_uses_self sb then false
      else
        let defined := defined_names params code in
        forallb (fun i =>
          negb (reads_free defined i) &&
          match i with
          | Push (CBlock inner) => scan_closed inner
          | SendConst (CBlock inner) _ _ => scan_closed inner
          | SendLocalConst _ (CBlock inner) _ _ => scan_closed inner
          | _ => true
          end) code
  end.

(** The memo byte only caches the scan. *)
Definition template_is_closed (sb : StaticBlock) : bool := scan_closed sb.

Definition sb_bytecode (sb : StaticBlock) : list Instruction :=
  let '(mkStaticBlock _ _ code _ _ _ _ _) := sb in code.

Definition sb_param_syms (sb : StaticBlock) : list Symbol :=
  let '(mkStaticBlock _ params _ _ _ _ _ _) := sb in params.

Definition sb_template_id (sb : StaticBlock) : option N :=
  let '(mkStaticBlock _ _ _ _ _ _ tid _) := sb in tid.

Definition sb_is_init_literal (sb : StaticBlock) : bool :=
  let '(mkStaticBlock _ _ _ _ _ _ _ init) := sb in init.
