(* ===== verification/Exec.v ===== *)
(** * The interpreter on one frame (src/src/vm/exec.rs, src/src/value.rs, src/src/devirt_ops.rs)

    [dispatch_one] is one instruction of a frame.  The state is the operand stack of the frame
    (its top is the head of the list), the chained environment frames of the locals, and the
    world, which is everything else the machine owns.  A send is one step of the frame that
    makes it: the frame does not run again before the callee has answered, and the callee
    leaves one value in place of the window of operands.

    What a callee does, the heap behind objects, and the instructions that build or change
    classes and collections are operations of the class [Machine], for which every theorem
    is proved.  The inline caches, the debugger checkpoint, the coverage tick and the observations
    of the native code generator are left out; the teardown of a frame, and what an error or a
    [^^] does to the frames and operands below, are in [Frames]. *)
From Stdlib Require Import SpecFloat.
From stdpp Require Import base numbers list strings gmap.
From stdpp Require Import options.
From S2P Require Import Prelude Instr.
Local Open Scope Z_scope.

(** ** Values *)

(** Pointers to garbage-collected cells are addresses. *)
Inductive Value :=
| VInt (i : Z)
| VDouble (d : f64)
| VBool (b : bool)
| VNil
| VClass (p : N)
| VClassMeta (p : N)
| VObject (p : N).

Definition is_truthy (v : Value) : bool :=
  match v with VNil | VBool false => false | _ => true end.

Inductive QuoinError :=
| ArithmeticError (msg : string)
| MessageNotUnderstood (receiver selector : string) (args candidates : list string)
| NonLocalReturn
| Other (msg : string)
| TypeError (expected got msg : string)
| IndexError (i len : Z) (msg : string)
| ValueError (msg : string)
| StackExhausted (msg : string)
| Thrown (v : Value)
| Cancelled
| ExitRequested (code : Z).

(** ** Arithmetic (devirt_ops.rs) *)

Definition in_i64 (z : Z) : bool := (- 2 ^ 63 <=? z) && (z <? 2 ^ 63).

Definition division_by_zero : QuoinError := ArithmeticError "Division by zero".
Definition integer_overflow : QuoinError := ArithmeticError "Integer overflow".

(** [checked_add] and its kin: the exact result when it fits. *)
Definition checked (z : Z) : result QuoinError Value :=
  if in_i64 z then Ok (VInt z) else Err integer_overflow.

Definition int_bin_compute (kind : IntBinKind) (a b : Z) : result QuoinError Value :=
  match kind with
  | Add => checked (a + b)
  | Sub => checked (a - b)
  | Mul => checked (a * b)
  | Div =>
      if b =? 0 then Err division_by_zero
      else if b =? -1 then checked (- a)
      else Ok (VInt (Z.quot a b))
  | Mod =>
      if b =? 0 then Err division_by_zero
      else if b =? -1 then Ok (VInt 0)
      else Ok (VInt (Z.rem a b))
  | Lt => Ok (VBool (a <? b))
  | Le => Ok (VBool (a <=? b))
  | Gt => Ok (VBool (b <? a))
  | Ge => Ok (VBool (b <=? a))
  | Eq => Ok (VBool (a =? b))
  | Ne => Ok (VBool (negb (a =? b)))
  end.

(** [%] on [f64]: the exact remainder with the sign of the dividend. *)
Definition f64_rem (a b : f64) : f64 :=
  match a, b with
  | S754_nan, _ | _, S754_nan => S754_nan
  | S754_infinity _, _ => S754_nan
  | _, S754_zero _ => S754_nan
  | _, S754_infinity _ => a
  | S754_zero _, _ => a
  | S754_finite sa ma ea, S754_finite _ mb eb =>
      let e := Z.min ea eb in
      let r := Z.rem (Z.shiftl (Zpos ma) (ea - e)) (Z.shiftl (Zpos mb) (eb - e)) in
      if r =? 0 then S754_zero sa
      else binary_normalize 53 1024 (if sa then - r else r) e sa
  end.

Definition double_bin_compute (kind : IntBinKind) (a b : f64) : Value :=
  match kind with
  | Add => VDouble (SFadd 53 1024 a b)
  | Sub => VDouble (SFsub 53 1024 a b)
  | Mul => VDouble (SFmul 53 1024 a b)
  | Div => VDouble (SFdiv 53 1024 a b)
  | Mod => VDouble (f64_rem a b)
  | Lt => VBool (SFltb a b)
  | Le => VBool (SFleb a b)
  | Gt => VBool (SFltb b a)
  | Ge => VBool (SFleb b a)
  | Eq => VBool (SFeqb a b)
  | Ne => VBool (negb (SFeqb a b))
  end.

(** ** Environment frames (value.rs) *)

Record EnvFrame := mkEnvFrame { parent : option nat; vars : list (Symbol * Value) }.

Abbreviation Envs := (gmap nat EnvFrame).

Definition position (name : Symbol) (vs : list (Symbol * Value)) : option nat :=
  fst <$> list_find (λ p, p.1 = name) vs.

Definition env_lookup (f : EnvFrame) (name : Symbol) : option Value :=
  (λ p, p.2.2) <$> list_find (λ p, p.1 = name) (vars f).

Definition env_bind (f : EnvFrame) (name : Symbol) (v : Value) : EnvFrame :=
  match position name (vars f) with
  | Some i => mkEnvFrame (parent f) (<[i := (name, v)]> (vars f))
  | None => mkEnvFrame (parent f) (vars f ++ [(name, v)])
  end.

(** A frame is allocated after its parent, so a chain visits a frame at most once. *)
Fixpoint env_get_fuel (fuel : nat) (h : Envs) (f : nat) (name : Symbol) : option Value :=
  match fuel with
  | O => None
  | S fuel' =>
      fr ← h !! f;
      match env_lookup fr name with
      | Some v => Some v
      | None => p ← parent fr; env_get_fuel fuel' h p name
      end
  end.

Definition env_get (h : Envs) (f : nat) (name : Symbol) : option Value :=
  env_get_fuel (S (size h)) h f name.

Fixpoint env_set_fuel (fuel : nat) (h : Envs) (f : nat) (name : Symbol) (v : Value) : option Envs :=
  match fuel with
  | O => None
  | S fuel' =>
      fr ← h !! f;
      match position name (vars fr) with
      | Some i => Some (<[f := mkEnvFrame (parent fr) (<[i := (name, v)]> (vars fr))]> h)
      | None => p ← parent fr; env_set_fuel fuel' h p name v
      end
  end.

(** [None]: no frame of the chain binds the name ([false] in the code). *)
Definition env_set (h : Envs) (f : nat) (name : Symbol) (v : Value) : option Envs :=
  env_set_fuel (S (size h)) h f name v.

Definition bind_in (h : Envs) (f : nat) (name : Symbol) (v : Value) : Envs :=
  alter (λ fr, env_bind fr name v) f h.

(** ** The machine around the frame *)

(** The executing frame: its environment, and whether its assignments bind in it (it fills a
    new object, or its template is a config literal). *)
Record FrameInfo := mkFrame { f_env : nat; f_init : bool }.

Class Machine (W : Type) := {
  (** strings, symbols and closures: the constants that allocate *)
  new_object : Constant → FrameInfo → Envs → W → N * W;
  (** the class of a value on the heap, as error messages name it *)
  object_class_name : N → W → string;
  (** a field of an object; [VNil] where the code finds none *)
  field_of : Value → string → W → Value;
  set_field : Value → string → Value → W → result QuoinError W;
  (** the active exception becomes a string *)
  set_active : string → W → W;
  (** the splice guards: is the value a native list whose compiled argument block does not
      prefer the send; does [new:] on it reach the built-in constructor *)
  list_spliced : Value → option N → W → bool;
  plain_new_check : Value → W → bool;
  (** a call and its answer: [None] when it never gives control back *)
  call : Symbol → Value → list Value → FrameInfo → Envs → W →
         option (result QuoinError Value * Envs * W);
  (** the remaining instructions, on the operands they pop; and whether one that fails had
      advanced the frame, as those that fall back on a send or run their block have *)
  operate : Instruction → list Value → FrameInfo → Envs → W →
            option (result QuoinError Value * Envs * W);
  operate_advanced : Instruction → list Value → FrameInfo → Envs → W → bool }.

Section exec.
Context `{Machine W}.

Record Vm := mkVm { stack : list Value; envs : Envs; world : W }.

(** Where a frame stands.  [Failed ip advanced]: the instruction at [ip] raised an error, and the
    frame's own ip is past it if [advanced]: a send advances the frame before it calls, every other
    instruction only once it has succeeded.  [Away]: a call it made never answers. *)
Inductive Config :=
| At (ip : nat) (st : Vm)
| Failed (ip : nat) (advanced : bool) (e : QuoinError) (h : Envs) (w : W)
| Returned (v : Value) (h : Envs) (w : W)
| ReturnedFromMethod (v : Value) (h : Envs) (w : W)
| Yeeted (v : Value) (h : Envs) (w : W)
| Away.

Definition push (v : Value) (st : Vm) : Vm := mkVm (v :: stack st) (envs st) (world st).
Definition set_stack (s : list Value) (st : Vm) : Vm := mkVm s (envs st) (world st).

Definition fail (ip : nat) (e : QuoinError) (st : Vm) : Config :=
  Failed ip false e (envs st) (world st).

Definition stack_underflow : QuoinError := Other "Stack underflow".
Definition stack_is_empty : QuoinError := Other "Stack is empty".

Definition pop (ip : nat) (st : Vm) (k : Value → Vm → Config) : Config :=
  match stack st with
  | [] => fail ip stack_underflow st
  | v :: s => k v (set_stack s st)
  end.

Definition peek (ip : nat) (st : Vm) (k : Value → Config) : Config :=
  match stack st with
  | [] => fail ip stack_is_empty st
  | v :: _ => k v
  end.

(** [num_args] values and the receiver below them, the arguments in source order. *)
Definition take_args (n : nat) (s : list Value) : option (list Value * list Value) :=
  if decide (n ≤ length s)%nat then Some (rev (take n s), drop n s) else None.

Definition answer (ip : nat) (advanced : bool) (below : list Value)
    (res : option (result QuoinError Value * Envs * W)) : Config :=
  match res with
  | None => Away
  | Some (Ok v, h, w) => At (S ip) (mkVm (v :: below) h w)
  | Some (Err e, h, w) => Failed ip advanced e h w
  end.

Section frame.
Context (fr : FrameInfo).

Definition materialize_constant (c : Constant) (st : Vm) : Value * Vm :=
  match c with
  | CNil => (VNil, st)
  | CBool b => (VBool b, st)
  | CInt i => (VInt i, st)
  | CDouble d => (VDouble d, st)
  | CString _ | CSymbol _ | CBlock _ =>
      let '(p, w) := new_object c fr (envs st) (world st) in
      (VObject p, mkVm (stack st) (envs st) w)
  end.

Definition get_local (name : Symbol) (st : Vm) : option Value := env_get (envs st) (f_env fr) name.

(** An unbound name reads as nil. *)
Definition read_local (name : Symbol) (st : Vm) : Value := default VNil (get_local name st).

Definition load_field (name : string) (st : Vm) : Value :=
  field_of (read_local self_symbol st) name (world st).

Definition reserved (name : Symbol) : bool :=
  bool_decide (name = "true") || bool_decide (name = "false") || bool_decide (name = "nil").

(** The shared bodies of the stores: the new state, or the error and the state it leaves. *)
Definition refuse_reserved (name : Symbol) (st : Vm) : QuoinError * Vm :=
  let err_msg := ("Can't modify reserved identifier " +:+ name)%string in
  (Other err_msg, mkVm (stack st) (envs st) (set_active err_msg (world st))).

Definition store_define_local (name : Symbol) (v : Value) (st : Vm) : result (QuoinError * Vm) Vm :=
  if reserved name then Err (refuse_reserved name st)
  else Ok (mkVm (stack st) (bind_in (envs st) (f_env fr) name v) (world st)).

Definition store_set_local (name : Symbol) (v : Value) (st : Vm) : result (QuoinError * Vm) Vm :=
  if reserved name then Err (refuse_reserved name st)
  else if f_init fr then Ok (mkVm (stack st) (bind_in (envs st) (f_env fr) name v) (world st))
  else
    match env_set (envs st) (f_env fr) name v with
    | Some h => Ok (mkVm (stack st) h (world st))
    | None => Ok (mkVm (stack st) (bind_in (envs st) (f_env fr) name v) (world st))
    end.

Definition store_field_value (name : string) (v : Value) (st : Vm) : result (QuoinError * Vm) Vm :=
  match set_field (read_local self_symbol st) name v (world st) with
  | Ok w => Ok (mkVm (stack st) (envs st) w)
  | Err e => Err (e, st)
  end.

Definition stored (ip : nat) (r : result (QuoinError * Vm) Vm) : Config :=
  match r with
  | Ok st => At (S ip) st
  | Err (e, st) => fail ip e st
  end.

(** The window of a send is the receiver and the arguments above it. *)
Definition exec_send (ip : nat) (sel : Symbol) (num_args : nat) (st : Vm) : Config :=
  match take_args num_args (stack st) with
  | Some (args, receiver :: below) =>
      answer ip true below (call sel receiver args fr (envs st) (world st))
  | _ => fail ip stack_underflow st
  end.

Definition take_two_ints (st : Vm) : option (Z * Z * Vm) :=
  match stack st with
  | VInt b :: VInt a :: s => Some (a, b, set_stack s st)
  | _ => None
  end.

Definition take_two_doubles (st : Vm) : option (f64 * f64 * Vm) :=
  match stack st with
  | VDouble b :: VDouble a :: s => Some (a, b, set_stack s st)
  | _ => None
  end.

Definition computed (ip : nat) (r : result QuoinError Value) (st : Vm) : Config :=
  match r with
  | Ok v => At (S ip) (push v st)
  | Err e => fail ip e st
  end.

(** The arms of the standalone operators differ in the kind and in its selector. *)
Definition int_op (ip : nat) (kind : IntBinKind) (st : Vm) : Config :=
  match take_two_ints st with
  | Some (a, b, st') => computed ip (int_bin_compute kind a b) st'
  | None => exec_send ip (selector kind) 1 st
  end.

Definition double_op (ip : nat) (kind : IntBinKind) (st : Vm) : Config :=
  match take_two_doubles st with
  | Some (a, b, st') => At (S ip) (push (double_bin_compute kind a b) st')
  | None => exec_send ip (selector kind) 1 st
  end.

Definition jump_to (ip : nat) (off : Z) : nat := Z.to_nat ((Z.of_nat ip + off) mod 2 ^ 64).

Definition class_name (v : Value) (w : W) : string :=
  match v with
  | VInt _ => "Integer" | VDouble _ => "Double" | VBool _ => "Boolean" | VNil => "Nil"
  | VClass _ => "Class" | VClassMeta _ => "ClassMeta"
  | VObject p => object_class_name p w
  end.

(** What the remaining instructions take from the stack, and whether they leave a value. *)
Definition effect (i : Instruction) : option (nat * bool) :=
  match i with
  | LoadGlobal _ | DefineClass _ _ _ _ | Use _ _ _ => Some (0%nat, true)
  | RecordClassSite _ _ => Some (0%nat, false)
  | StoreGlobal _ _ => Some (1%nat, false)
  | ListLen | NewRegex | DefineMethod _ | OverrideMethod _ | TagCollection _ =>
      Some (1%nat, true)
  | ListGet | ListPush | MapGet | ExecuteBlockWithSelf => Some (2%nat, true)
  | ListSet | MapSet => Some (3%nat, true)
  | NewList n | NewSet n => Some (n, true)
  | NewMap n => Some ((2 * n)%nat, true)
  | NewWithFields names => Some (S (length names), true)
  | _ => None
  end.

Definition exec_other (ip : nat) (i : Instruction) (st : Vm) : Config :=
  match effect i with
  | None => Away
  | Some (n, leaves) =>
      match take_args n (stack st) with
      | None => fail ip stack_underflow st
      | Some (args, below) =>
          match answer ip (operate_advanced i args fr (envs st) (world st)) below
                  (operate i args fr (envs st) (world st)) with
          | At ip' st' => At ip' (if leaves then st' else set_stack (tail (stack st')) st')
          | c => c
          end
      end
  end.

Definition int_bin_ll (ip : nat) (a b : Symbol) (kind : IntBinKind) (st : Vm) : Config :=
  match get_local a st, get_local b st with
  | Some (VInt x), Some (VInt y) => computed ip (int_bin_compute kind x y) st
  | va, vb => exec_send ip (selector kind) 1 (push (default VNil vb) (push (default VNil va) st))
  end.

Definition int_bin_lc (ip : nat) (a : Symbol) (c : Constant) (kind : IntBinKind) (st : Vm) : Config :=
  match get_local a st, as_int c with
  | Some (VInt x), Some y => computed ip (int_bin_compute kind x y) st
  | va, _ =>
      let '(cv, st') := materialize_constant c (push (default VNil va) st) in
      exec_send ip (selector kind) 1 (push cv st')
  end.

Definition double_bin_ll (ip : nat) (a b : Symbol) (kind : IntBinKind) (st : Vm) : Config :=
  match get_local a st, get_local b st with
  | Some (VDouble x), Some (VDouble y) => At (S ip) (push (double_bin_compute kind x y) st)
  | va, vb => exec_send ip (selector kind) 1 (push (default VNil vb) (push (default VNil va) st))
  end.

Definition double_bin_lc (ip : nat) (a : Symbol) (c : Constant) (kind : IntBinKind) (st : Vm) : Config :=
  match get_local a st, as_double c with
  | Some (VDouble x), Some y => At (S ip) (push (double_bin_compute kind x y) st)
  | va, _ =>
      let '(cv, st') := materialize_constant c (push (default VNil va) st) in
      exec_send ip (selector kind) 1 (push cv st')
  end.

Definition execute (ip : nat) (i : Instruction) (st : Vm) : Config :=
  match i with
  | LoadLocal name => At (S ip) (push (read_local name st) st)
  | DefineLocal name => pop ip st (λ v st, stored ip (store_define_local name v st))
  | DefineLocalKeep name => peek ip st (λ v, stored ip (store_define_local name v st))
  | StoreLocal name => pop ip st (λ v st, stored ip (store_set_local name v st))
  | StoreLocalKeep name => peek ip st (λ v, stored ip (store_set_local name v st))
  | Push c => let '(v, st') := materialize_constant c st in At (S ip) (push v st')
  | Pop => pop ip st (λ _ st, At (S ip) st)
  | Dup => peek ip st (λ v, At (S ip) (push v st))
  | IntAdd => int_op ip Add st | IntSub => int_op ip Sub st | IntMul => int_op ip Mul st
  | IntDiv => int_op ip Div st | IntMod => int_op ip Mod st | IntLt => int_op ip Lt st
  | IntLe => int_op ip Le st | IntGt => int_op ip Gt st | IntGe => int_op ip Ge st
  | IntEq => int_op ip Eq st | IntNe => int_op ip Ne st
  | IntBinLL a b kind => int_bin_ll ip a b kind st
  | IntBinLC a c kind => int_bin_lc ip a c kind st
  | DoubleAdd => double_op ip Add st | DoubleSub => double_op ip Sub st
  | DoubleMul => double_op ip Mul st | DoubleDiv => double_op ip Div st
  | DoubleMod => double_op ip Mod st | DoubleLt => double_op ip Lt st
  | DoubleLe => double_op ip Le st | DoubleGt => double_op ip Gt st
  | DoubleGe => double_op ip Ge st | DoubleEq => double_op ip Eq st
  | DoubleNe => double_op ip Ne st
  | DoubleBinLL a b kind => double_bin_ll ip a b kind st
  | DoubleBinLC a c kind => double_bin_lc ip a c kind st
  | Send sel n => exec_send ip sel n st
  | SendLocal var sel n => exec_send ip sel n (push (read_local var st) st)
  | SendConst c sel n =>
      let '(v, st') := materialize_constant c st in exec_send ip sel n (push v st')
  | SendField field sel n => exec_send ip sel n (push (load_field field st) st)
  | SendLocalLocal a b sel n =>
      exec_send ip sel n (push (read_local b st) (push (read_local a st) st))
  | SendLocalConst a c sel n =>
      let '(v, st') := materialize_constant c (push (read_local a st) st) in
      exec_send ip sel n (push v st')
  | Return | BlockReturn => pop ip st (λ v st, Returned v (envs st) (world st))
  | MethodReturn => pop ip st (λ v st, ReturnedFromMethod v (envs st) (world st))
  | Yeet => pop ip st (λ v st, Yeeted v (envs st) (world st))
  | Jump off => At (jump_to ip off) st
  | IfJump off => pop ip st (λ v st, At (if is_truthy v then jump_to ip off else S ip) st)
  | ElseJump off => pop ip st (λ v st, At (if is_truthy v then S ip else jump_to ip off) st)
  | BranchIfNotBool off =>
      At (match stack st with VBool _ :: _ => S ip | _ => jump_to ip off end) st
  | BranchIfNotList off tid =>
      At (match stack st with
          | v :: _ => if list_spliced v tid (world st) then S ip else jump_to ip off
          | [] => jump_to ip off
          end) st
  | RequireBool =>
      match stack st with
      | VBool _ :: _ => At (S ip) st
      | other =>
          let got := match other with v :: _ => class_name v (world st) | [] => "Nil" end in
          fail ip (MessageNotUnderstood got "whileDo: (a loop condition must be a Boolean)" [] []) st
      end
  | BranchIfNotPlainNew off =>
      match stack st with
      | [] => fail ip stack_underflow st
      | v :: _ => At (if plain_new_check v (world st) then S ip else jump_to ip off) st
      end
  | LoadField name => At (S ip) (push (load_field name st) st)
  | LoadFieldOf name =>
      pop ip st (λ obj st, At (S ip) (push (field_of obj name (world st)) st))
  | StoreField name => pop ip st (λ v st, stored ip (store_field_value name v st))
  | StoreFieldKeep name => peek ip st (λ v, stored ip (store_field_value name v st))
  | i => exec_other ip i st
  end.

(** Past the last instruction the frame returns nil. *)
Definition dispatch_one (code : list Instruction) (ip : nat) (st : Vm) : Config :=
  match code !! ip with
  | None => Returned VNil (envs st) (world st)
  | Some i => execute ip i st
  end.

Definition step (code : list Instruction) (c : Config) : Config :=
  match c with At ip st => dispatch_one code ip st | c => c end.

(** The entry of the source map an error is reported at ([annotate_error]): the one before the
    frame's ip.  For an error of a send that is the send's own; for any other error it is the
    entry of the instruction before the one that failed. *)
Definition frame_ip_of (c : Config) : option nat :=
  match c with Failed ip advanced _ _ _ => Some (if advanced then S ip else ip) | _ => None end.

Definition reported {A} (smap : list A) (c : Config) : option A :=
  ip ← frame_ip_of c;
  smap !! (ip - 1)%nat.

(** [n] instructions of the frame; a frame that has ended stays ended. *)
Definition run (code : list Instruction) (n : nat) (c : Config) : Config :=
  Nat.iter n (step code) c.

End frame.
End exec.
