(* ===== verification/Fuse.v ===== *)
(** * The bytecode buffer and the peephole pass (src/src/compiler/bytecode.rs)

    [CodeBlock] is the compiler's buffer: instructions and, index-aligned with them, the source
    entries an error reports.  [fuse_bytecode] rewrites a finished buffer with fused
    instructions and moves every jump to the new layout.

    The one loop of the pass is in two definitions here: [fuse_at] is what an iteration decides
    (the instruction emitted, how many it replaces and which source entry survives), and
    [fuse_loop] does the bookkeeping the branches share.  [None] is a panic: an index out of
    range in the source map or in the table the jumps are moved with. *)
From stdpp Require Import base numbers list strings gmap.
From stdpp Require Import options.
From S2P Require Import Prelude Instr.
Local Open Scope Z_scope.

Record CodeBlock := mkCodeBlock {
  bytecode : list Instruction;
  source_map : list (option SourceInfo);
  current_source : option SourceInfo }.

Definition cb_new : CodeBlock := mkCodeBlock [] [] None.

Definition cb_push (inst : Instruction) (cb : CodeBlock) : CodeBlock :=
  mkCodeBlock (vec_push (bytecode cb) inst) (vec_push (source_map cb) (current_source cb))
    (current_source cb).

Definition cb_pop (cb : CodeBlock) : option Instruction * CodeBlock :=
  let sm := match vec_pop (source_map cb) with Some (_, sm) => sm | None => [] end in
  match vec_pop (bytecode cb) with
  | Some (inst, bc) => (Some inst, mkCodeBlock bc sm (current_source cb))
  | None => (None, mkCodeBlock [] sm (current_source cb))
  end.

Definition cb_extend (other cb : CodeBlock) : CodeBlock :=
  mkCodeBlock (bytecode cb ++ bytecode other) (source_map cb ++ source_map other)
    (current_source cb).

Definition cb_len (cb : CodeBlock) : nat := length (bytecode cb).

(** ** Looking at an instruction *)

Definition jump_offset (i : Instruction) : option Z :=
  match i with
  | Jump o | IfJump o | ElseJump o | BranchIfNotBool o | BranchIfNotList o _
  | BranchIfNotPlainNew o => Some o
  | _ => None
  end.

Definition set_jump_offset (off : Z) (i : Instruction) : Instruction :=
  match i with
  | Jump _ => Jump off
  | IfJump _ => IfJump off
  | ElseJump _ => ElseJump off
  | BranchIfNotBool _ => BranchIfNotBool off
  | BranchIfNotList _ t => BranchIfNotList off t
  | BranchIfNotPlainNew _ => BranchIfNotPlainNew off
  | i => i
  end.

Definition is_store (i : Instruction) : bool :=
  match i with StoreLocal _ | DefineLocal _ | StoreField _ => true | _ => false end.

Definition store_keep_variant (i : Instruction) : option Instruction :=
  match i with
  | StoreLocal s => Some (StoreLocalKeep s)
  | DefineLocal s => Some (DefineLocalKeep s)
  | StoreField f => Some (StoreFieldKeep f)
  | _ => None
  end.

Definition int_bin_kind (i : Instruction) : option IntBinKind :=
  match i with
  | IntAdd => Some Add | IntSub => Some Sub | IntMul => Some Mul | IntDiv => Some Div
  | IntMod => Some Mod | IntLt => Some Lt | IntLe => Some Le | IntGt => Some Gt
  | IntGe => Some Ge | IntEq => Some Eq | IntNe => Some Ne
  | _ => None
  end.

Definition double_bin_kind (i : Instruction) : option IntBinKind :=
  match i with
  | DoubleAdd => Some Add | DoubleSub => Some Sub | DoubleMul => Some Mul | DoubleDiv => Some Div
  | DoubleMod => Some Mod | DoubleLt => Some Lt | DoubleLe => Some Le | DoubleGt => Some Gt
  | DoubleGe => Some Ge | DoubleEq => Some Eq | DoubleNe => Some Ne
  | _ => None
  end.

(** ** The pass *)

(** The instruction a jump at [i] goes to, when the jump stays inside the code. *)
Definition target_of (n : nat) (i : nat) (inst : Instruction) : option nat :=
  off ← jump_offset inst;
  let tgt := Z.of_nat i + off in
  if (0 <=? tgt) && (tgt <? Z.of_nat n) then Some (Z.to_nat tgt) else None.

Definition mark_target (n : nat) (marks : list bool) (p : nat * Instruction) : list bool :=
  match target_of n p.1 p.2 with
  | Some t => <[t := true]> marks
  | None => marks
  end.

Definition jump_targets (code : list Instruction) : list bool :=
  foldl (mark_target (length code)) (replicate (length code) false) (imap pair code).

Section pass.
Context (code : list Instruction) (is_target : list bool).

Definition free_at (i : nat) : bool := negb (default false (is_target !! i)).

(** What an iteration emits: the instruction, the number of instructions it stands for, and
    the index of the source entry it keeps. *)
Record Fusion := mkFusion { fused : Instruction; width : nat; entry : nat }.

(** [Dup; <store>; Pop], then [Dup; <store>]. *)
Definition fuse_statement (i : nat) : option Fusion :=
  match code !! i, code !! (i + 1)%nat, code !! (i + 2)%nat with
  | Some Dup, Some store, Some Pop =>
      if is_store store && free_at (i + 1) && free_at (i + 2)
      then Some (mkFusion store 3 (i + 1)) else None
  | _, _, _ => None
  end.

Definition fuse_keep (i : nat) : option Fusion :=
  match code !! i, code !! (i + 1)%nat with
  | Some Dup, Some store =>
      if free_at (i + 1) then
        keep ← store_keep_variant store; Some (mkFusion keep 2 (i + 1))
      else None
  | _, _ => None
  end.

(** [LoadLocal; <LoadLocal|Push>; Send]. *)
Definition fuse_send3 (i : nat) : option Fusion :=
  match code !! i, code !! (i + 1)%nat, code !! (i + 2)%nat with
  | Some (LoadLocal a), Some operand, Some (Send sel nargs) =>
      if free_at (i + 1) && free_at (i + 2) then
        three ← match operand with
                | LoadLocal b => Some (SendLocalLocal a b sel nargs)
                | Push c => Some (SendLocalConst a c sel nargs)
                | _ => None
                end;
        Some (mkFusion three 3 (i + 2))
      else None
  | _, _, _ => None
  end.

(** [LoadLocal; <LoadLocal|Push>; {Int,Double}Xxx]. *)
Definition fuse_bin3 (i : nat) : option Fusion :=
  match code !! i, code !! (i + 1)%nat, code !! (i + 2)%nat with
  | Some (LoadLocal a), Some operand, Some op =>
      if free_at (i + 1) && free_at (i + 2) then
        '(kind, is_double) ←
          match int_bin_kind op with
          | Some k => Some (k, false)
          | None => (λ k, (k, true)) <$> double_bin_kind op
          end;
        three ← match operand, is_double with
                | LoadLocal b, false => Some (IntBinLL a b kind)
                | LoadLocal b, true => Some (DoubleBinLL a b kind)
                | Push c, false => Some (IntBinLC a c kind)
                | Push c, true => Some (DoubleBinLC a c kind)
                | _, _ => None
                end;
        Some (mkFusion three 3 (i + 2))
      else None
  | _, _, _ => None
  end.

(** [<operand-load>; Send]. *)
Definition fuse_send2 (i : nat) : option Fusion :=
  match code !! i, code !! (i + 1)%nat with
  | Some operand, Some (Send sel nargs) =>
      if free_at (i + 1) then
        two ← match operand with
              | LoadLocal v => Some (SendLocal v sel nargs)
              | Push c => Some (SendConst c sel nargs)
              | LoadField f => Some (SendField f sel nargs)
              | _ => None
              end;
        Some (mkFusion two 2 (i + 1))
      else None
  | _, _ => None
  end.

Definition fuse_at (i : nat) (inst : Instruction) : Fusion :=
  match fuse_statement i with
  | Some f => f
  | None =>
  match fuse_keep i with
  | Some f => f
  | None =>
  match fuse_send3 i with
  | Some f => f
  | None =>
  match fuse_bin3 i with
  | Some f => f
  | None =>
  match fuse_send2 i with
  | Some f => f
  | None => mkFusion inst 1 i
  end end end end end.

Record Pass := mkPass {
  new_code : list Instruction;
  new_smap : list (option SourceInfo);
  old_to_new : list nat;
  new_to_old : list nat }.

(** Every index of the group maps to the slot that replaces it. *)
Definition map_group (i w k : nat) (table : list nat) : list nat :=
  foldl (λ t j, <[j := k]> t) table (seq i w).

Definition emit (smap : list (option SourceInfo)) (i : nat) (f : Fusion) (p : Pass) : option Pass :=
  src ← smap !! entry f;
  Some (mkPass (vec_push (new_code p) (fused f)) (vec_push (new_smap p) src)
          (map_group i (width f) (length (new_code p)) (old_to_new p))
          (vec_push (new_to_old p) i)).

(** An iteration consumes at least one instruction: the length of the code is fuel enough. *)
Fixpoint fuse_loop (smap : list (option SourceInfo)) (fuel i : nat) (p : Pass) : option Pass :=
  match fuel with
  | O => Some p
  | S fuel' =>
      match code !! i with
      | None => Some p
      | Some inst =>
          let f := fuse_at i inst in
          p' ← emit smap i f p;
          fuse_loop smap fuel' (i + width f) p'
      end
  end.

End pass.

Definition move_jump (p : Pass) (new_idx : nat) (inst : Instruction) : option Instruction :=
  match jump_offset inst with
  | None => Some inst
  | Some old_off =>
      old_idx ← new_to_old p !! new_idx;
      let old_target := Z.to_nat ((Z.of_nat old_idx + old_off) mod 2 ^ 64) in
      new_target ← old_to_new p !! old_target;
      Some (set_jump_offset (Z.of_nat new_target - Z.of_nat new_idx) inst)
  end.

Definition fuse_bytecode (code : list Instruction) (smap : list (option SourceInfo))
    : option (list Instruction * list (option SourceInfo)) :=
  let n := length code in
  let is_target := jump_targets code in
  p ← fuse_loop code is_target smap n 0 (mkPass [] [] (replicate (n + 1) 0%nat) []);
  let p := mkPass (new_code p) (new_smap p) (<[n := length (new_code p)]> (old_to_new p))
             (new_to_old p) in
  moved ← mapM (λ '(k, inst), move_jump p k inst) (imap pair (new_code p));
  Some (moved, new_smap p).
