(* ===== verification/FuseMap.v ===== *)
(** * The layout the peephole pass builds

    What [Fuse.fuse_loop] has recorded when it stops: the groups tile the code, each new slot
    stands for one group and keeps the source entry of one of its members, the table maps each
    old index to the slot of its group, and no jump lands inside a group. *)
From stdpp Require Import base numbers list strings gmap.
From stdpp Require Import options.
From S2P Require Import Prelude Instr Fuse.
Local Open Scope nat_scope.

(** ** The marks *)

Lemma marks_kept n l marks t :
  marks !! t = Some true → foldl (mark_target n) marks l !! t = Some true.
Proof.
  revert marks; induction l as [|[i inst] l IH]; intros marks Ht; [done|].
  cbn [foldl]. apply IH. unfold mark_target. destruct (target_of _ _ _) as [t'|]; [|done].
  destruct (decide (t' = t)) as [->|]; [|by rewrite list_lookup_insert_ne].
  rewrite list_lookup_insert_eq; [done|]. by apply lookup_lt_Some in Ht.
Qed.

Lemma marks_made n l marks t i inst :
  t < length marks → (i, inst) ∈ l → target_of n i inst = Some t →
  foldl (mark_target n) marks l !! t = Some true.
Proof.
  revert marks; induction l as [|p l IH]; intros marks Hlt Hin Ht.
  - by apply elem_of_nil in Hin.
  - cbn [foldl]. apply elem_of_cons in Hin as [<-|Hin].
    + apply marks_kept. unfold mark_target. cbn. rewrite Ht. by rewrite list_lookup_insert_eq.
    + apply IH; [|done..]. unfold mark_target. case_match; [by rewrite length_insert|done].
Qed.

Lemma target_of_lt n i inst t : target_of n i inst = Some t → t < n.
Proof.
  unfold target_of. intros Ht. apply bind_Some in Ht as (off & _ & Ht).
  case_match; simplify_eq/=. lia.
Qed.

Lemma jump_targets_marks code i inst t :
  code !! i = Some inst → target_of (length code) i inst = Some t →
  jump_targets code !! t = Some true.
Proof.
  intros Hi Ht. eapply marks_made; [| |done].
  - rewrite length_replicate. eauto using target_of_lt.
  - apply list_elem_of_lookup. exists i. by rewrite list_lookup_imap, Hi.
Qed.

(** ** What one iteration may emit *)

Section layout.
Context (code : list Instruction) (is_target : list bool) (smap : list (option SourceInfo)).

Inductive fuses (i : nat) : Fusion → Prop :=
| FusesOne inst : code !! i = Some inst → fuses i (mkFusion inst 1 i)
| FusesStatement store :
    code !! i = Some Dup → code !! (i + 1) = Some store → code !! (i + 2) = Some Pop →
    is_store store = true → fuses i (mkFusion store 3 (i + 1))
| FusesKeep store keep :
    code !! i = Some Dup → code !! (i + 1) = Some store →
    store_keep_variant store = Some keep → fuses i (mkFusion keep 2 (i + 1))
| FusesSendLL a b sel n :
    code !! i = Some (LoadLocal a) → code !! (i + 1) = Some (LoadLocal b) →
    code !! (i + 2) = Some (Send sel n) → fuses i (mkFusion (SendLocalLocal a b sel n) 3 (i + 2))
| FusesSendLC a c sel n :
    code !! i = Some (LoadLocal a) → code !! (i + 1) = Some (Push c) →
    code !! (i + 2) = Some (Send sel n) → fuses i (mkFusion (SendLocalConst a c sel n) 3 (i + 2))
| FusesIntLL a b op k :
    code !! i = Some (LoadLocal a) → code !! (i + 1) = Some (LoadLocal b) →
    code !! (i + 2) = Some op → int_bin_kind op = Some k →
    fuses i (mkFusion (IntBinLL a b k) 3 (i + 2))
| FusesIntLC a c op k :
    code !! i = Some (LoadLocal a) → code !! (i + 1) = Some (Push c) →
    code !! (i + 2) = Some op → int_bin_kind op = Some k →
    fuses i (mkFusion (IntBinLC a c k) 3 (i + 2))
| FusesDoubleLL a b op k :
    code !! i = Some (LoadLocal a) → code !! (i + 1) = Some (LoadLocal b) →
    code !! (i + 2) = Some op → double_bin_kind op = Some k →
    fuses i (mkFusion (DoubleBinLL a b k) 3 (i + 2))
| FusesDoubleLC a c op k :
    code !! i = Some (LoadLocal a) → code !! (i + 1) = Some (Push c) →
    code !! (i + 2) = Some op → double_bin_kind op = Some k →
    fuses i (mkFusion (DoubleBinLC a c k) 3 (i + 2))
| FusesSend operand two sel n :
    code !! i = Some operand → code !! (i + 1) = Some (Send sel n) →
    match operand with
    | LoadLocal v => two = SendLocal v sel n
    | Push c => two = SendConst c sel n
    | LoadField f => two = SendField f sel n
    | _ => False
    end → fuses i (mkFusion two 2 (i + 1)).

(** No member after the first is a jump target. *)
Definition clear (i : nat) (f : Fusion) : Prop :=
  ∀ j, i < j < i + width f → free_at is_target j = true.

Lemma clear_three i inst e : 
  free_at is_target (i + 1) && free_at is_target (i + 2) = true → clear i (mkFusion inst 3 e).
Proof.
  intros [H1 H2]%andb_true_iff j Hj. cbn in Hj.
  assert (j = i + 1 ∨ j = i + 2) as [-> | ->] by lia; done.
Qed.

Lemma clear_two i inst e : free_at is_target (i + 1) = true → clear i (mkFusion inst 2 e).
Proof. intros H1 j Hj. cbn in Hj. by assert (j = i + 1) as -> by lia. Qed.

Lemma fuse_statement_spec i f : fuse_statement code is_target i = Some f → fuses i f ∧ clear i f.
Proof.
  unfold fuse_statement. intros Hf. repeat case_match; simplify_eq.
  match goal with H : andb (andb _ _) _ = true |- _ =>
    apply andb_true_iff in H as [[Hs Hf1]%andb_true_iff Hf2] end.
  split; [by econstructor|]. by apply clear_three, andb_true_iff.
Qed.

Lemma fuse_keep_spec i f : fuse_keep code is_target i = Some f → fuses i f ∧ clear i f.
Proof.
  unfold fuse_keep. intros Hf. repeat case_match; simplify_eq.
  apply bind_Some in Hf as (keep & Hk & [= <-]).
  split; [by econstructor|by apply clear_two].
Qed.

Lemma fuse_send3_spec i f : fuse_send3 code is_target i = Some f → fuses i f ∧ clear i f.
Proof.
  unfold fuse_send3. intros Hf. repeat case_match; simplify_eq/=;
    (split; [by econstructor|by apply clear_three]).
Qed.

Lemma fuse_bin3_spec i f : fuse_bin3 code is_target i = Some f → fuses i f ∧ clear i f.
Proof.
  unfold fuse_bin3. intros Hf.
  destruct (code !! i) as [[]|] eqn:?; try done.
  destruct (code !! (i + 1)) as [operand|] eqn:?; try done.
  destruct (code !! (i + 2)) as [op|] eqn:?; try done.
  destruct (_ && _) eqn:?; [|done].
  apply bind_Some in Hf as ([kind dbl] & Hk & Hf).
  apply bind_Some in Hf as (three & Ht & [= <-]).
  split; [|by apply clear_three].
  destruct (int_bin_kind op) eqn:?; simplify_eq/=.
  - destruct operand; simplify_eq; by econstructor.
  - destruct (double_bin_kind op) eqn:?; simplify_eq/=.
    destruct operand; simplify_eq; by econstructor.
Qed.

Lemma fuse_send2_spec i f : fuse_send2 code is_target i = Some f → fuses i f ∧ clear i f.
Proof.
  unfold fuse_send2. intros Hf. repeat case_match; simplify_eq/=;
    (split; [by econstructor|by apply clear_two]).
Qed.

Lemma fuse_at_spec i inst :
  code !! i = Some inst →
  fuses i (fuse_at code is_target i inst) ∧ clear i (fuse_at code is_target i inst).
Proof.
  intros Hi. unfold fuse_at.
  repeat (case_match; [eauto using fuse_statement_spec, fuse_keep_spec, fuse_send3_spec,
    fuse_bin3_spec, fuse_send2_spec|]).
  split; [by constructor|]. intros j Hj. cbn in Hj. lia.
Qed.

Lemma fuses_bounds i f :
  fuses i f → 1 ≤ width f ≤ 3 ∧ i + width f ≤ length code ∧ i ≤ entry f < i + width f.
Proof.
  destruct 1; cbn;
    repeat match goal with H : code !! _ = Some _ |- _ => apply lookup_lt_Some in H end; lia.
Qed.

(** ** The bookkeeping *)

Definition group (s : nat) : Fusion := fuse_at code is_target s (default Dup (code !! s)).

Lemma group_spec s : s < length code → fuses s (group s) ∧ clear s (group s).
Proof.
  intros [inst Hi]%lookup_lt_is_Some. unfold group. rewrite Hi. by apply fuse_at_spec.
Qed.

Lemma length_map_group i w k table : length (map_group i w k table) = length table.
Proof.
  unfold map_group. revert table. induction (seq i w) as [|j l IH]; intros table; [done|].
  cbn [foldl]. by rewrite IH, length_insert.
Qed.

Lemma lookup_map_group i w k table j :
  j < length table →
  map_group i w k table !! j = if decide (i ≤ j < i + w) then Some k else table !! j.
Proof.
  unfold map_group. intros Hj. revert i table Hj.
  induction w as [|w IH]; intros i table Hj; cbn [seq foldl].
  - rewrite decide_False by lia. done.
  - rewrite IH by (by rewrite length_insert).
    destruct (decide (j = i)) as [->|].
    + rewrite decide_False by lia. rewrite decide_True by lia. by rewrite list_lookup_insert_eq.
    + rewrite list_lookup_insert_ne by done.
      repeat case_decide; first [done|lia].
Qed.

(** What is recorded when the groups below [i] have been emitted. *)
Record layout (i : nat) (p : Pass) : Prop := {
  lay_bound : i ≤ length code;
  lay_codes : length (new_code p) = length (new_to_old p);
  lay_smaps : length (new_smap p) = length (new_to_old p);
  lay_table : length (old_to_new p) = S (length code);
  lay_first : default i (new_to_old p !! 0) = 0;
  lay_slot : ∀ k s, new_to_old p !! k = Some s →
    s < length code ∧
    new_code p !! k = Some (fused (group s)) ∧
    new_smap p !! k = smap !! entry (group s) ∧
    default i (new_to_old p !! S k) = s + width (group s) ∧
    (∀ j, s ≤ j < s + width (group s) → old_to_new p !! j = Some k);
  lay_cover : ∀ j, j < i → ∃ k s, new_to_old p !! k = Some s ∧ s ≤ j < s + width (group s) }.

Lemma layout_start : layout 0 (mkPass [] [] (replicate (length code + 1) 0) []).
Proof.
  split; cbn; try done; try lia.
  rewrite length_replicate. lia.
Qed.

Lemma layout_below i p k s :
  layout i p → new_to_old p !! k = Some s → s + width (group s) ≤ i.
Proof.
  intros L Hk.
  remember (length (new_to_old p) - k) as d eqn:Hd. revert k s Hd Hk.
  induction d as [|d IH]; intros k s Hd Hk; pose proof (lookup_lt_Some _ _ _ Hk); [lia|].
  destruct (lay_slot _ _ L _ _ Hk) as (_ & _ & _ & Hn & _).
  destruct (new_to_old p !! S k) as [s'|] eqn:Hs'; cbn in Hn; [|lia].
  specialize (IH (S k) s' ltac:(lia) Hs'). lia.
Qed.

Lemma layout_emit i inst p p' :
  layout i p → code !! i = Some inst →
  emit smap i (fuse_at code is_target i inst) p = Some p' →
  layout (i + width (fuse_at code is_target i inst)) p'.
Proof.
  intros L Hi. assert (fuse_at code is_target i inst = group i) as ->
    by (unfold group; by rewrite Hi).
  intros (src & Hsrc & [= <-])%bind_Some.
  pose proof (lookup_lt_Some _ _ _ Hi) as Hlt.
  destruct (group_spec i Hlt) as [(Hw & Hle & He)%fuses_bounds _].
  pose proof (lay_codes _ _ L) as Hc. pose proof (lay_smaps _ _ L) as Hs.
  pose proof (lay_table _ _ L) as Ht.
  unfold vec_push. split; cbn; try (rewrite !length_app; cbn; lia); try lia.
  - rewrite length_map_group. lia.
  - pose proof (lay_first _ _ L) as Hf. destruct (new_to_old p); cbn in *; lia.
  - intros k s [Hk|[Hk ->]]%lookup_snoc_Some.
    + destruct Hk as [Hk1 Hk]. destruct (lay_slot _ _ L _ _ Hk) as (Hs1 & Hs2 & Hs3 & Hs4 & Hs5).
      pose proof (layout_below _ _ _ _ L Hk). split_and!; [done|..].
      * by rewrite lookup_app_l by (apply lookup_lt_Some in Hk; lia).
      * by rewrite lookup_app_l by (apply lookup_lt_Some in Hk; lia).
      * destruct (decide (S k = length (new_to_old p))) as [E|].
        -- rewrite lookup_app_r by lia. rewrite E, Nat.sub_diag. cbn.
           rewrite lookup_ge_None_2 in Hs4 by lia. cbn in Hs4. lia.
        -- rewrite lookup_app_l by lia.
           destruct (new_to_old p !! S k) eqn:E; [done|].
           apply lookup_ge_None in E. lia.
      * intros j Hj. rewrite lookup_map_group by lia.
        rewrite decide_False by lia. by apply Hs5.
    + split_and!; [done|..].
      * apply list_lookup_middle. lia.
      * rewrite Hsrc. apply list_lookup_middle. lia.
      * rewrite lookup_ge_None_2 by (rewrite length_app; cbn; lia). done.
      * intros j Hj. rewrite lookup_map_group by lia. rewrite decide_True by lia.
        by rewrite Hc, Hk.
  - intros j Hj. destruct (decide (j < i)) as [Hji|].
    + destruct (lay_cover _ _ L j Hji) as (k & s & Hk & Hr). exists k, s.
      split; [|done]. by apply lookup_app_l_Some.
    + exists (length (new_to_old p)), i. split; [|lia]. by apply list_lookup_middle.
Qed.

Lemma layout_loop fuel i p p' :
  layout i p → length code ≤ i + fuel →
  fuse_loop code is_target smap fuel i p = Some p' → layout (length code) p'.
Proof.
  revert i p; induction fuel as [|fuel IH]; intros i p L Hf Hl; cbn in Hl.
  - simplify_eq. by replace (length code) with i by (pose proof (lay_bound _ _ L); lia).
  - destruct (code !! i) as [inst|] eqn:Hi.
    + apply bind_Some in Hl as (q & Hq & Hl).
      eapply IH; [by eapply layout_emit| |done].
      destruct (fuse_at_spec _ _ Hi) as [(Hw & _)%fuses_bounds _]. lia.
    + simplify_eq. apply lookup_ge_None in Hi.
      by replace (length code) with i by (pose proof (lay_bound _ _ L); lia).
Qed.

(** With an entry for every instruction the loop does not index out of the source map. *)
Lemma loop_total fuel i p :
  length smap = length code → is_Some (fuse_loop code is_target smap fuel i p).
Proof.
  intros Hsm. revert i p; induction fuel as [|fuel IH]; intros i p; cbn; [by eexists|].
  destruct (code !! i) as [inst|] eqn:Hi; [|by eexists].
  destruct (fuse_at_spec _ _ Hi) as [(_ & Hle & He)%fuses_bounds _].
  destruct (lookup_lt_is_Some_2 smap (entry (fuse_at code is_target i inst))) as [src Hsrc]; [lia|].
  unfold emit. rewrite Hsrc. cbn. apply IH.
Qed.

End layout.

(** ** The finished pass *)

(** Every jump stays in the code or goes to its end, and offsets fit a machine word. *)
Definition jumps_inside (code : list Instruction) : Prop :=
  (Z.of_nat (length code) < 2 ^ 63)%Z ∧
  Forall (λ p : nat * Instruction,
      match jump_offset p.2 with
      | Some off => (0 <= Z.of_nat p.1 + off <= Z.of_nat (length code))%Z
      | None => True
      end) (imap pair code).

#[export] Instance jumps_inside_dec code : Decision (jumps_inside code).
Proof.
  apply and_dec; [apply _|]. apply Forall_dec. intros [i inst]. cbn.
  destruct (jump_offset inst); apply _.
Defined.

Lemma jumps_inside_lookup code i inst off :
  jumps_inside code → code !! i = Some inst → jump_offset inst = Some off →
  (0 <= Z.of_nat i + off <= Z.of_nat (length code))%Z ∧ (Z.of_nat (length code) < 2 ^ 63)%Z.
Proof.
  intros [Hlen Hall] Hi Hoff. split; [|done].
  rewrite Forall_forall in Hall. specialize (Hall (i, inst)). cbn in Hall.
  rewrite Hoff in Hall. apply Hall, list_elem_of_lookup.
  exists i. by rewrite list_lookup_imap, Hi.
Qed.

(** A jump is never part of a longer group, and no fused instruction jumps. *)
Lemma fuses_jump code i f off :
  fuses code i f → jump_offset (fused f) = Some off → width f = 1 ∧ code !! i = Some (fused f).
Proof.
  destruct 1; cbn; intros Hj; try done.
  - match goal with H : is_store ?s = true |- _ => by destruct s end.
  - by match goal with H : store_keep_variant ?s = Some _ |- _ => destruct s; simplify_eq/= end.
  - case_match; subst; try done.
Qed.

Section finished.
Context (code : list Instruction) (smap : list (option SourceInfo)).

Abbreviation tgt := (jump_targets code).

(** The slot of the new code that stands for the old index. *)
Definition slot (p : Pass) (ip k : nat) : Prop :=
  new_to_old p !! k = Some ip ∨ (ip = length code ∧ k = length (new_to_old p)).

Lemma slot_next p s k :
  layout code tgt smap (length code) p → new_to_old p !! k = Some s →
  slot p (s + width (group code tgt s)) (S k).
Proof.
  intros L Hk. destruct (lay_slot _ _ _ _ _ L _ _ Hk) as (_ & _ & _ & Hn & _).
  destruct (new_to_old p !! S k) as [s'|] eqn:Hs'; cbn in Hn; [left; by rewrite Hs', Hn|].
  right. split; [done|]. apply lookup_ge_None in Hs'. apply lookup_lt_Some in Hk. lia.
Qed.

Definition finish (p : Pass) : Pass :=
  mkPass (new_code p) (new_smap p) (<[length code := length (new_code p)]> (old_to_new p))
    (new_to_old p).

(** Where a jump of the old code goes, the table has the slot that stands for it. *)
Lemma table_slot p s inst off :
  layout code tgt smap (length code) p → jumps_inside code →
  code !! s = Some inst → jump_offset inst = Some off →
  ∃ k, old_to_new (finish p) !! Z.to_nat (Z.of_nat s + off) = Some k ∧
       slot p (Z.to_nat (Z.of_nat s + off)) k.
Proof.
  intros L Hj Hs Hoff. destruct (jumps_inside_lookup _ _ _ _ Hj Hs Hoff) as [Hr _].
  set (t := Z.to_nat (Z.of_nat s + off)). pose proof (lay_table _ _ _ _ _ L) as Ht. cbn.
  destruct (decide (t = length code)) as [E|Hne].
  - exists (length (new_code p)). rewrite E, list_lookup_insert_eq by lia.
    split; [done|]. right. split; [done|]. by rewrite (lay_codes _ _ _ _ _ L).
  - rewrite list_lookup_insert_ne by done.
    destruct (lay_cover _ _ _ _ _ L t) as (k & s' & Hk & Hin); [lia|].
    destruct (lay_slot _ _ _ _ _ L _ _ Hk) as (Hlt & _ & _ & _ & Htab).
    exists k. split; [by apply Htab|]. left.
    destruct (decide (t = s')) as [->|Hne']; [done|exfalso].
    destruct (group_spec code tgt s' Hlt) as [_ Hclear].
    specialize (Hclear t ltac:(lia)). unfold free_at in Hclear.
    rewrite (jump_targets_marks code s inst t) in Hclear; [done..|].
    unfold target_of. rewrite Hoff. cbn.
    replace (_ && _) with true; [done|]. symmetry. apply andb_true_iff. lia.
Qed.

Lemma move_jump_total p k s :
  layout code tgt smap (length code) p → jumps_inside code →
  new_to_old p !! k = Some s →
  ∃ inst, move_jump (finish p) k (fused (group code tgt s)) = Some inst ∧
    match jump_offset (fused (group code tgt s)) with
    | None => inst = fused (group code tgt s)
    | Some off =>
        ∃ k', slot p (Z.to_nat (Z.of_nat s + off)) k' ∧
          inst = set_jump_offset (Z.of_nat k' - Z.of_nat k) (fused (group code tgt s))
    end.
Proof.
  intros L Hj Hk. unfold move_jump.
  destruct (jump_offset _) as [off|] eqn:Hoff; [|by eexists].
  destruct (lay_slot _ _ _ _ _ L _ _ Hk) as (Hlt & _).
  destruct (group_spec code tgt s Hlt) as [Hf _].
  destruct (fuses_jump _ _ _ _ Hf Hoff) as [_ Hs].
  destruct (jumps_inside_lookup _ _ _ _ Hj Hs Hoff) as [Hr Hlen].
  cbn [new_to_old finish]. rewrite Hk. cbn [mbind option_bind].
  rewrite Z.mod_small by lia.
  destruct (table_slot p s _ off L Hj Hs Hoff) as (k' & Hk' & Hslot).
  rewrite Hk'. cbn. eexists. split; [done|]. by exists k'.
Qed.

(** What stands at a slot: the fused instruction, its jump moved to the slot of the target. *)
Definition moved (p : Pass) (k s : nat) (inst : Instruction) : Prop :=
  match jump_offset (fused (group code tgt s)) with
  | None => inst = fused (group code tgt s)
  | Some off =>
      ∃ k', slot p (Z.to_nat (Z.of_nat s + off)) k' ∧
        inst = set_jump_offset (Z.of_nat k' - Z.of_nat k) (fused (group code tgt s))
  end.

Lemma mapM_move p :
  layout code tgt smap (length code) p → jumps_inside code →
  ∃ out, mapM (λ '(k, inst), move_jump (finish p) k inst) (imap pair (new_code p)) = Some out ∧
    length out = length (new_to_old p) ∧
    ∀ k s, new_to_old p !! k = Some s → ∃ inst, out !! k = Some inst ∧ moved p k s inst.
Proof.
  intros L Hj.
  assert (is_Some (mapM (λ '(k, inst), move_jump (finish p) k inst) (imap pair (new_code p))))
    as [out Hout].
  { apply mapM_is_Some, Forall_forall. intros [k i] Hin.
    apply list_elem_of_lookup in Hin as [k' Hk']. rewrite list_lookup_imap in Hk'.
    destruct (new_code p !! k') as [i'|] eqn:Hi'; simplify_eq/=.
    destruct (lookup_lt_is_Some_2 (new_to_old p) k) as [s Hs].
    { rewrite <- (lay_codes _ _ _ _ _ L). by eapply lookup_lt_Some. }
    destruct (lay_slot _ _ _ _ _ L _ _ Hs) as (_ & Hc & _).
    rewrite Hi' in Hc. injection Hc as ->.
    destruct (move_jump_total p k s L Hj Hs) as (inst & -> & _). by eexists. }
  exists out. split; [done|]. pose proof Hout as Hall. apply mapM_Some in Hall.
  split; [|intros k s Hk].
  - apply Forall2_length in Hall. rewrite length_imap, (lay_codes _ _ _ _ _ L) in Hall. done.
  - destruct (lay_slot _ _ _ _ _ L _ _ Hk) as (_ & Hc & _).
    destruct (Forall2_lookup_l _ _ _ k (k, fused (group code tgt s)) Hall) as (inst & Hi & Hm).
    { by rewrite list_lookup_imap, Hc. }
    destruct (move_jump_total p k s L Hj Hk) as (inst' & Hm' & Hmoved).
    exists inst. split; [done|]. rewrite Hm' in Hm. by injection Hm as <-.
Qed.

Lemma fuse_bytecode_spec :
  length smap = length code → jumps_inside code →
  ∃ p out, fuse_bytecode code smap = Some (out, new_smap p) ∧
    layout code tgt smap (length code) p ∧ length out = length (new_to_old p) ∧
    ∀ k s, new_to_old p !! k = Some s → ∃ inst, out !! k = Some inst ∧ moved p k s inst.
Proof.
  intros Hlen Hj. unfold fuse_bytecode.
  destruct (loop_total code tgt smap (length code) 0
    (mkPass [] [] (replicate (length code + 1) 0) []) Hlen) as [p Hp].
  rewrite Hp. cbn [mbind option_bind].
  assert (layout code tgt smap (length code) p) as L.
  { eapply layout_loop; [apply layout_start| |exact Hp]. lia. }
  destruct (mapM_move p L Hj) as (out & Hout & Hl & Hs).
  cbn [new_code]. fold (finish p). rewrite Hout. cbn. by exists p, out.
Qed.

End finished.
