(* ===== verification/FuseSim.v ===== *)
(** * The fused code simulates the code it replaces

    One step of the fused code is one, two or three steps of the original.  Where one of them
    has failed, so has the other, with the same error, in the same state of the machine, at an
    instruction whose entry of the source map the slot keeps; only the two messages for an empty operand stack are told apart. *)
From stdpp Require Import base numbers list strings gmap.
From stdpp Require Import options.
From S2P Require Import Prelude Instr Exec Fuse FuseMap.
Local Open Scope nat_scope.

Section sim.
Context `{Machine W} (fr : FrameInfo).

(** Two configurations that end an instruction the same way, one at [ip] and one at [k]. *)
Inductive follows (ip k : nat) : Config (W:=W) → Config (W:=W) → Prop :=
| FNext st : follows ip k (At (S ip) st) (At (S k) st)
| FFailed a e h w : follows ip k (Failed ip a e h w) (Failed k a e h w)
| FReturned v h w : follows ip k (Returned v h w) (Returned v h w)
| FReturnedFromMethod v h w :
    follows ip k (ReturnedFromMethod v h w) (ReturnedFromMethod v h w)
| FYeeted v h w : follows ip k (Yeeted v h w) (Yeeted v h w)
| FAway : follows ip k Away Away.

Hint Constructors follows : core.

Lemma answer_follows ip k a below r : follows ip k (answer ip a below r) (answer k a below r).
Proof. destruct r as [[[[v|e] h] w]|]; cbn; auto. Qed.

Lemma exec_send_follows ip k sel n st :
  follows ip k (exec_send fr ip sel n st) (exec_send fr k sel n st).
Proof.
  unfold exec_send, fail. repeat case_match; auto using answer_follows.
Qed.

Lemma stored_follows ip k r : follows ip k (stored (W:=W) ip r) (stored k r).
Proof. destruct r as [st|[e st]]; cbn; unfold fail; auto. Qed.

Lemma computed_follows ip k r st : follows ip k (computed (W:=W) ip r st) (computed k r st).
Proof. destruct r; cbn; unfold fail; auto. Qed.

Hint Resolve exec_send_follows stored_follows computed_follows answer_follows : core.

Lemma int_op_follows ip k kind st : follows ip k (int_op fr ip kind st) (int_op fr k kind st).
Proof. unfold int_op. destruct (take_two_ints st) as [[[a b] st']|]; auto. Qed.

Lemma double_op_follows ip k kind st :
  follows ip k (double_op fr ip kind st) (double_op fr k kind st).
Proof. unfold double_op. destruct (take_two_doubles st) as [[[a b] st']|]; auto. Qed.

Lemma exec_other_follows ip k i st :
  follows ip k (exec_other fr ip i st) (exec_other fr k i st).
Proof.
  unfold exec_other, fail. destruct (effect i) as [[n leaves]|]; [|auto].
  destruct (take_args n (stack st)) as [[args below]|]; [|auto].
  pose proof (answer_follows ip k (operate_advanced i args fr (envs st) (world st)) below (operate i args fr (envs st) (world st))) as Ha.
  inversion Ha; subst; auto.
Qed.

Hint Resolve int_op_follows double_op_follows exec_other_follows : core.

(** An instruction that does not jump does not look at its index. *)
Lemma execute_follows ip k i st :
  jump_offset i = None → follows ip k (execute fr ip i st) (execute fr k i st).
Proof.
  intros Hj. destruct i; try discriminate Hj; cbn [execute]; auto;
    unfold pop, peek, fail, int_bin_ll, int_bin_lc, double_bin_ll, double_bin_lc;
    repeat first [case_match; subst; auto | solve [auto]].
Qed.

(** A jump goes to the next instruction, to its target, or fails. *)
Inductive branches (ip : nat) (off : Z) (k : nat) (off' : Z) : Config (W:=W) → Config (W:=W) → Prop :=
| BNext st : branches ip off k off' (At (S ip) st) (At (S k) st)
| BJump st : branches ip off k off' (At (jump_to ip off) st) (At (jump_to k off') st)
| BFailed a e h w : branches ip off k off' (Failed ip a e h w) (Failed k a e h w).

Lemma execute_branches ip off k off' i st :
  jump_offset i = Some off →
  branches ip off k off' (execute fr ip i st) (execute fr k (set_jump_offset off' i) st).
Proof.
  intros Hj. destruct i; simplify_eq/=; unfold pop, fail;
    repeat first [constructor | case_match].
Qed.

(** ** Runs of the instructions of a group *)

Lemma set_stack_push s v (st : Vm (W:=W)) : set_stack s (push v st) = set_stack s st.
Proof. done. Qed.

Lemma set_stack_id (st : Vm (W:=W)) : set_stack (stack st) st = st.
Proof. by destruct st. Qed.

Lemma step_at code ip i st :
  code !! ip = Some i → step fr code (At ip st) = execute fr ip i st.
Proof. intros Hi. cbn. unfold dispatch_one. by rewrite Hi. Qed.

Lemma run_S code n c : run fr code (S n) c = run fr code n (step fr code c).
Proof. unfold run. by rewrite Nat.iter_succ_r. Qed.

Lemma run_O code c : run fr code 0 c = c.
Proof. done. Qed.

Lemma run_add code n m c : run fr code (n + m) c = run fr code m (run fr code n c).
Proof. unfold run. by rewrite Nat.add_comm, Nat.iter_add. Qed.

Lemma execute_int_op ip op k st : int_bin_kind op = Some k → execute fr ip op st = int_op fr ip k st.
Proof. by destruct op; intros [= <-]. Qed.

Lemma execute_double_op ip op k st :
  double_bin_kind op = Some k → execute fr ip op st = double_op fr ip k st.
Proof. by destruct op; intros [= <-]. Qed.

(** Two loads and an operator, against the fused operator. *)
Lemma int_bin_ll_follows ip k a b kind st :
  follows ip k (int_op fr ip kind (push (read_local fr b st) (push (read_local fr a st) st)))
    (int_bin_ll fr k a b kind st).
Proof.
  unfold int_bin_ll, read_local, int_op, take_two_ints. cbn [stack push].
  destruct (get_local fr a st) as [[]|]; cbn [from_option id]; auto;
    destruct (get_local fr b st) as [[]|]; cbn [from_option id]; auto.
  rewrite !set_stack_push, set_stack_id. auto.
Qed.

Lemma double_bin_ll_follows ip k a b kind st :
  follows ip k (double_op fr ip kind (push (read_local fr b st) (push (read_local fr a st) st)))
    (double_bin_ll fr k a b kind st).
Proof.
  unfold double_bin_ll, read_local, double_op, take_two_doubles. cbn [stack push].
  destruct (get_local fr a st) as [[]|]; cbn [from_option id]; auto;
    destruct (get_local fr b st) as [[]|]; cbn [from_option id]; auto.
Qed.

(** Only an integer literal materializes as an integer. *)
Lemma materialize_scalar c st :
  match c with
  | CNil => materialize_constant fr c st = (VNil, st)
  | CBool b => materialize_constant fr c st = (VBool b, st)
  | CInt i => materialize_constant fr c st = (VInt i, st)
  | CDouble d => materialize_constant fr c st = (VDouble d, st)
  | _ => ∃ p w, materialize_constant fr c st = (VObject p, mkVm (stack st) (envs st) w)
  end.
Proof. destruct c; cbn; try done; destruct (new_object _ _ _ _); eauto. Qed.

Lemma int_bin_lc_follows ip k a c kind st :
  follows ip k
    (let '(v, st') := materialize_constant fr c (push (read_local fr a st) st) in
     int_op fr ip kind (push v st'))
    (int_bin_lc fr k a c kind st).
Proof.
  unfold int_bin_lc, read_local.
  pose proof (materialize_scalar c (push (default VNil (get_local fr a st)) st)) as Hm.
  destruct c; destruct (get_local fr a st) as [[]|]; cbn [from_option id as_int] in *;
    try (rewrite Hm; unfold int_op, take_two_ints; cbn [stack push]; auto; fail).
  { rewrite Hm. unfold int_op, take_two_ints. cbn [stack push].
    rewrite !set_stack_push, set_stack_id. auto. }
  all: destruct Hm as (? & ? & ->); unfold int_op, take_two_ints; cbn [stack push]; auto.
Qed.

Lemma double_bin_lc_follows ip k a c kind st :
  follows ip k
    (let '(v, st') := materialize_constant fr c (push (read_local fr a st) st) in
     double_op fr ip kind (push v st'))
    (double_bin_lc fr k a c kind st).
Proof.
  unfold double_bin_lc, read_local.
  pose proof (materialize_scalar c (push (default VNil (get_local fr a st)) st)) as Hm.
  destruct c; destruct (get_local fr a st) as [[]|]; cbn [from_option id as_double] in *;
    try (rewrite Hm; unfold double_op, take_two_doubles; cbn [stack push]; auto; fail).
  all: destruct Hm as (? & ? & ->); unfold double_op, take_two_doubles; cbn [stack push]; auto.
Qed.

(** How a group and the instruction that replaces it end: both past it, both failed at the entry
    the slot keeps, or both on an empty operand stack. *)
Inductive group_done (s : nat) (f : Fusion) (k : nat) : Config (W:=W) → Config (W:=W) → Prop :=
| GNext st : group_done s f k (At (s + width f) st) (At (S k) st)
| GFailed a e h w : group_done s f k (Failed (entry f) a e h w) (Failed k a e h w)
| GUnderflow e h w :
    e = stack_is_empty ∨ e = stack_underflow →
    group_done s f k (Failed s false stack_is_empty h w) (Failed k false e h w)
| GReturned v h w : group_done s f k (Returned v h w) (Returned v h w)
| GReturnedFromMethod v h w :
    group_done s f k (ReturnedFromMethod v h w) (ReturnedFromMethod v h w)
| GYeeted v h w : group_done s f k (Yeeted v h w) (Yeeted v h w)
| GAway : group_done s f k Away Away.

Hint Constructors group_done : core.

Lemma follows_done s f k c c' ip :
  follows ip k c c' → S ip = s + width f → entry f = ip → group_done s f k c c'.
Proof. intros [] Hn <-; auto. rewrite Hn. auto. Qed.

Lemma next_done s f k st ip : ip = s + width f → group_done s f k (At ip st) (At (S k) st).
Proof. intros ->. auto. Qed.

Ltac near s := replace (s + 1) with (S s) in * by lia; replace (s + 2) with (S (S s)) in * by lia.

(** The three stores share their shape: they pop a value and store it, or peek and store it. *)
Definition store_value (i : Instruction) (v : Value) (st : Vm (W:=W)) : result (QuoinError * Vm) Vm :=
  match i with
  | DefineLocal name => store_define_local fr name v st
  | StoreLocal name => store_set_local fr name v st
  | StoreField name => store_field_value fr name v st
  | _ => Ok st
  end.

Lemma execute_store ip i st :
  is_store i = true →
  execute fr ip i st = pop ip st (λ v st, stored ip (store_value i v st)).
Proof. by destruct i. Qed.

Lemma execute_keep ip i keep st :
  store_keep_variant i = Some keep →
  execute fr ip keep st = peek ip st (λ v, stored ip (store_value i v st)).
Proof. by destruct i; intros [= <-]. Qed.

Lemma keep_is_store i keep : store_keep_variant i = Some keep → is_store i = true.
Proof. by destruct i. Qed.

(** A store neither reads nor changes the operand stack. *)
Lemma store_value_set_stack i v s st :
  store_value i v (set_stack s st) =
  match store_value i v st with
  | Ok st' => Ok (set_stack s st')
  | Err (e, st') => Err (e, set_stack s st')
  end.
Proof.
  destruct i; try done; cbn.
  - unfold store_define_local. case_match; done.
  - unfold store_set_local. cbn [envs world set_stack]. case_match; [done|]. case_match; [done|]. case_match; done.
  - unfold store_field_value, read_local, get_local. cbn [envs world set_stack]. case_match; done.
Qed.

Lemma statement_done code s store k st :
  code !! s = Some Dup → code !! S s = Some store → code !! S (S s) = Some Pop →
  is_store store = true →
  group_done s (mkFusion store 3 (S s)) k (run fr code 3 (At s st)) (execute fr k store st).
Proof.
  intros H0 H1 H2 Hs. rewrite run_S, (step_at _ _ _ _ H0), (execute_store k) by done.
  cbn [execute]. unfold peek, pop. destruct (stack st) as [|v r] eqn:E; [cbn; unfold fail; auto|].
  rewrite run_S, (step_at _ _ _ _ H1), (execute_store (S s)) by done.
  unfold pop. cbn [stack push]. rewrite E, set_stack_push, !store_value_set_stack.
  destruct (store_value store v st) as [st'|[e st']]; cbn [stored].
  - rewrite run_S, (step_at _ _ _ _ H2). cbn. apply next_done. cbn. lia.
  - cbn. unfold fail. cbn. auto.
Qed.

Lemma keep_done code s store keep k st :
  code !! s = Some Dup → code !! S s = Some store → store_keep_variant store = Some keep →
  group_done s (mkFusion keep 2 (S s)) k (run fr code 2 (At s st)) (execute fr k keep st).
Proof.
  intros H0 H1 Hs. rewrite run_S, (step_at _ _ _ _ H0), (execute_keep _ _ _ _ Hs).
  cbn [execute]. unfold peek. destruct (stack st) as [|v r] eqn:E; [cbn; unfold fail; auto|].
  rewrite run_S, (step_at _ _ _ _ H1), execute_store by (by eapply keep_is_store).
  unfold pop. cbn [stack push]. rewrite E, set_stack_push.
  rewrite <- E, set_stack_id.
  eapply follows_done; [apply stored_follows|cbn; lia|done].
Qed.

Lemma group_simulated code s f k st :
  fuses code s f → jump_offset (fused f) = None →
  group_done s f k (run fr code (width f) (At s st)) (execute fr k (fused f) st).
Proof.
  intros Hf Hj. destruct Hf; cbn [fused width] in *; near s.
  - rewrite run_S, run_O. erewrite step_at by done.
    eapply follows_done; [by apply execute_follows|cbn; lia|done].
  - by apply statement_done.
  - by eapply keep_done.
  - do 3 (rewrite run_S; erewrite step_at by done; cbn [execute]). rewrite run_O.
    eapply follows_done; [apply exec_send_follows|cbn; lia|done].
  - do 2 (rewrite run_S; erewrite step_at by done; cbn [execute]).
    destruct (materialize_constant _ _ _) as [v st'].
    rewrite run_S. erewrite step_at by done. cbn [execute]. rewrite run_O.
    eapply follows_done; [apply exec_send_follows|cbn; lia|done].
  - do 2 (rewrite run_S; erewrite step_at by done; cbn [execute]). rewrite run_S.
    erewrite step_at, execute_int_op by done. rewrite run_O.
    eapply follows_done; [apply (int_bin_ll_follows _ k a b k0 st)|cbn; lia|done].
  - do 2 (rewrite run_S; erewrite step_at by done; cbn [execute]).
    pose proof (int_bin_lc_follows (S (S s)) k a c k0 st) as Hl.
    destruct (materialize_constant _ _ _) as [v st'].
    rewrite run_S. erewrite step_at, execute_int_op by done. rewrite run_O.
    eapply follows_done; [apply Hl|cbn; lia|done].
  - do 2 (rewrite run_S; erewrite step_at by done; cbn [execute]). rewrite run_S.
    erewrite step_at, execute_double_op by done. rewrite run_O.
    eapply follows_done; [apply (double_bin_ll_follows _ k a b k0 st)|cbn; lia|done].
  - do 2 (rewrite run_S; erewrite step_at by done; cbn [execute]).
    pose proof (double_bin_lc_follows (S (S s)) k a c k0 st) as Hl.
    destruct (materialize_constant _ _ _) as [v st'].
    rewrite run_S. erewrite step_at, execute_double_op by done. rewrite run_O.
    eapply follows_done; [apply Hl|cbn; lia|done].
  - rewrite run_S. erewrite step_at by done.
    destruct operand; try done; subst; cbn [execute];
      try destruct (materialize_constant _ _ _) as [v st'];
      rewrite run_S; erewrite step_at by done; cbn [execute]; rewrite run_O;
      (eapply follows_done; [apply exec_send_follows|cbn; lia|done]).
Qed.

End sim.

(** ** The simulation *)

Section simulation.
Context `{Machine W} (fr : FrameInfo).
Context (code : list Instruction) (smap : list (option SourceInfo)).

Abbreviation tgt := (jump_targets code).

(** The entries of the source maps the errors are annotated with agree. *)
Inductive same (smap' : list (option SourceInfo)) (p : Pass) : Config (W:=W) → Config (W:=W) → Prop :=
| SameAt ip k st : slot code p ip k → same smap' p (At ip st) (At k st)
| SameFailed ip k a e h w src :
    smap !! ip = Some src → smap' !! k = Some src →
    same smap' p (Failed ip a e h w) (Failed k a e h w)
| SameUnderflow ip k e h w :
    e = stack_is_empty ∨ e = stack_underflow →
    same smap' p (Failed ip false stack_is_empty h w) (Failed k false e h w)
| SameReturned v h w : same smap' p (Returned v h w) (Returned v h w)
| SameReturnedFromMethod v h w :
    same smap' p (ReturnedFromMethod v h w) (ReturnedFromMethod v h w)
| SameYeeted v h w : same smap' p (Yeeted v h w) (Yeeted v h w)
| SameAway : same smap' p Away Away.

Hint Constructors same : core.

Definition running (c : Config (W:=W)) : Prop := match c with At _ _ => True | _ => False end.

#[export] Instance running_dec c : Decision (running c).
Proof. destruct c; apply _. Defined.

Lemma run_halted code' n c : ¬ running c → run fr code' n c = c.
Proof.
  intros Hc. induction n as [|n IH]; [done|]. rewrite run_S. by destruct c.
Qed.

Lemma same_running smap' p c c' : same smap' p c c' → running c ↔ running c'.
Proof. by destruct 1. Qed.

Context (p : Pass) (out : list Instruction).
Context (L : layout code tgt smap (length code) p).
Context (Hj : jumps_inside code).
Context (Hsm : length smap = length code).
Context (Hlen : length out = length (new_to_old p)).
Context (Hout : ∀ k s, new_to_old p !! k = Some s → ∃ inst, out !! k = Some inst ∧ moved code p k s inst).

Lemma start_above k s : new_to_old p !! k = Some s → k ≤ s.
Proof using L.
  clear -L.
  revert s; induction k as [|k IH]; intros s Hk; [lia|].
  destruct (lookup_lt_is_Some_2 (new_to_old p) k) as [s' Hs']; [apply lookup_lt_Some in Hk; lia|].
  specialize (IH _ Hs').
  destruct (lay_slot _ _ _ _ _ L _ _ Hs') as (Hlt & _ & _ & Hn & _).
  rewrite Hk in Hn. cbn in Hn.
  destruct (group_spec code tgt s' Hlt) as [(Hw & _)%fuses_bounds _]. lia.
Qed.

Lemma slots_below : length (new_to_old p) ≤ length code.
Proof using L.
  clear -L.
  destruct (length (new_to_old p)) as [|n] eqn:E; [lia|].
  destruct (lookup_lt_is_Some_2 (new_to_old p) n) as [s Hs]; [lia|].
  pose proof (start_above _ _ Hs). destruct (lay_slot _ _ _ _ _ L _ _ Hs) as (Hlt & _). lia.
Qed.

Lemma slot_bound ip k : slot code p ip k → k ≤ length code.
Proof using L.
  clear -L.
  pose proof slots_below. intros [Hk|[_ ->]]; [|done]. apply lookup_lt_Some in Hk. lia.
Qed.

Lemma jump_to_slot k k' : k' ≤ length code → jump_to k (Z.of_nat k' - Z.of_nat k) = k'.
Proof using Hj.
  clear -Hj.
  intros Hk. unfold jump_to. destruct Hj as [Hl _]. rewrite Z.mod_small by lia. lia.
Qed.

Lemma jump_to_inside s inst off :
  code !! s = Some inst → jump_offset inst = Some off →
  jump_to s off = Z.to_nat (Z.of_nat s + off).
Proof using Hj.
  clear -Hj.
  intros Hs Hoff. destruct (jumps_inside_lookup _ _ _ _ Hj Hs Hoff) as [Hr Hl].
  unfold jump_to. by rewrite Z.mod_small by lia.
Qed.

Lemma entry_kept k s :
  new_to_old p !! k = Some s →
  ∃ src, smap !! entry (group code tgt s) = Some src ∧ new_smap p !! k = Some src.
Proof using L Hsm.
  clear -L Hsm.
  intros Hk. destruct (lay_slot _ _ _ _ _ L _ _ Hk) as (Hlt & _ & Hs & _).
  destruct (group_spec code tgt s Hlt) as [(_ & _ & He)%fuses_bounds _].
  destruct (lookup_lt_is_Some_2 smap (entry (group code tgt s))) as [src Hsrc].
  { destruct (group_spec code tgt s Hlt) as [(_ & ? & _)%fuses_bounds _]. lia. }
  exists src. by rewrite Hs.
Qed.

(** A group and its slot, from the same state. *)
Lemma slot_simulated k s st :
  new_to_old p !! k = Some s →
  same (new_smap p) p (run fr code (width (group code tgt s)) (At s st)) (step fr out (At k st)).
Proof using Hj L Hout Hsm.
  clear Hlen.
  intros Hk. destruct (lay_slot _ _ _ _ _ L _ _ Hk) as (Hlt & _).
  destruct (group_spec code tgt s Hlt) as [Hf _].
  destruct (Hout _ _ Hk) as (inst & Hinst & Hm). rewrite (step_at _ _ _ _ _ Hinst).
  destruct (entry_kept _ _ Hk) as (src & Hsrc & Hsrc').
  pose proof (slot_next _ _ _ _ _ L Hk) as Hnext.
  unfold moved in Hm. destruct (jump_offset (fused (group code tgt s))) as [off|] eqn:Hoff.
  - destruct Hm as (k' & Hk' & ->). destruct (fuses_jump _ _ _ _ Hf Hoff) as [Hw Hs].
    pose proof (fuses_bounds _ _ _ Hf) as (_ & _ & He). rewrite Hw in *.
    rewrite run_S, run_O, (step_at _ _ _ _ _ Hs).
    pose proof (execute_branches fr s off k (Z.of_nat k' - Z.of_nat k) _ st Hoff) as Hb.
    rewrite Nat.add_1_r in Hnext. inversion Hb; eauto.
    + rewrite (jump_to_inside _ _ _ Hs Hoff), jump_to_slot by eauto using slot_bound. auto.
    + replace s with (entry (group code tgt s)) at 1 by lia. eauto.
  - subst inst. pose proof (group_simulated fr code s _ k st Hf Hoff) as Hg.
    inversion Hg; eauto.
Qed.

Lemma step_simulated c c' :
  same (new_smap p) p c c' →
  ∃ m, m ≤ 3 ∧ (running c' → 1 ≤ m) ∧ same (new_smap p) p (run fr code m c) (step fr out c').
Proof using Hj L Hlen Hout Hsm.
  intros Hc. destruct Hc as [ip k st Hslot| | | | | |];
    try (exists 0; split; [lia|]; split; [intros []|]; cbn; by eauto).
  destruct Hslot as [Hk|[-> ->]].
  - exists (width (group code tgt ip)). destruct (lay_slot _ _ _ _ _ L _ _ Hk) as (Hlt & _).
    destruct (group_spec code tgt ip Hlt) as [(Hw & _)%fuses_bounds _].
    split; [lia|]. split; [lia|]. by apply slot_simulated.
  - exists 1. split; [lia|]. split; [lia|]. rewrite run_S, run_O. cbn. unfold dispatch_one.
    rewrite !lookup_ge_None_2 by lia. auto.
Qed.

Lemma run_simulated m c c' :
  same (new_smap p) p c c' →
  ∃ n, n ≤ 3 * m ∧ (running (run fr out m c') → m ≤ n) ∧
       same (new_smap p) p (run fr code n c) (run fr out m c').
Proof using Hj L Hlen Hout Hsm.
  revert c c'; induction m as [|m IH]; intros c c' Hs; [exists 0; repeat split; auto with lia|].
  destruct (step_simulated _ _ Hs) as (n1 & H1 & Hr & Hs1).
  destruct (IH _ _ Hs1) as (n2 & H2 & Hm & Hs2).
  exists (n1 + n2). rewrite run_add, run_S. split; [lia|]. split; [|done].
  intros Hrun. specialize (Hm Hrun).
  assert (running c') as Hc'; [|specialize (Hr Hc'); lia].
  destruct (decide (running c')) as [|Hn]; [done|exfalso].
  assert (step fr out c' = c') as E by (by destruct c').
  rewrite E, run_halted in Hrun by done. done.
Qed.

Lemma start_slot : slot code p 0 0.
Proof using L.
  clear -L.
  pose proof (lay_first _ _ _ _ _ L) as Hf. destruct (new_to_old p) as [|s l] eqn:E; cbn in Hf.
  - right. by rewrite E.
  - left. rewrite E. cbn. by f_equal.
Qed.

(** What the original ends with, the fused code ends with. *)
Lemma halt_simulated n st :
  ¬ running (run fr code n (At 0 st)) →
  ∃ m, m ≤ n ∧ same (new_smap p) p (run fr code n (At 0 st)) (run fr out m (At 0 st)).
Proof using Hj L Hlen Hout Hsm.
  intros Hn. exists n. split; [done|].
  destruct (run_simulated n (At 0 st) (At 0 st)) as (n' & _ & Hr & Hs); [auto using start_slot|].
  destruct (decide (n' ≤ n)) as [Hle|Hgt].
  - replace n with (n' + (n - n')) at 1 by lia. rewrite run_add.
    destruct (decide (running (run fr code n' (At 0 st)))) as [Hrun|Hh];
      [|by rewrite run_halted].
    assert (n = n') as -> by (apply (same_running _ _ _ _ Hs) in Hrun; specialize (Hr Hrun); lia).
    by rewrite Nat.sub_diag.
  - replace n' with (n + (n' - n)) in Hs by lia. rewrite run_add, run_halted in Hs by done. done.
Qed.

End simulation.
