(* ===== verification/FuseProps.v ===== *)
(** * What the peephole pass promises

    The fused code is well formed where the original is, and a frame that runs it ends exactly
    when and as it would have ended on the original; and the arithmetic both use is exact.  Then
    code at work, where an error is reported, and the closures the scopes of one template
    share. *)
From stdpp Require Import base numbers list strings gmap.
From stdpp Require Import options.
From S2P Require Import Prelude Instr Exec Fuse FuseMap FuseSim.
Local Open Scope nat_scope.

(** ** The layout *)

Lemma set_jump_offset_spec i off off' :
  jump_offset i = Some off → jump_offset (set_jump_offset off' i) = Some off'.
Proof. by destruct i. Qed.

Lemma moved_inside code smap p k s inst off :
  layout code (jump_targets code) smap (length code) p →
  moved code p k s inst → jump_offset inst = Some off →
  (0 <= Z.of_nat k + off <= Z.of_nat (length (new_to_old p)))%Z.
Proof.
  intros L Hm Hoff. unfold moved in Hm.
  destruct (jump_offset (fused _)) as [old|] eqn:Ho; [|subst; congruence].
  destruct Hm as (k' & Hk' & ->). rewrite (set_jump_offset_spec _ _ _ Ho) in Hoff.
  injection Hoff as <-. destruct Hk' as [Hk'|[_ ->]]; [apply lookup_lt_Some in Hk'|]; lia.
Qed.

Lemma fused_jumps_inside code smap p out :
  layout code (jump_targets code) smap (length code) p → jumps_inside code →
  length out = length (new_to_old p) →
  (∀ k s, new_to_old p !! k = Some s → ∃ inst, out !! k = Some inst ∧ moved code p k s inst) →
  jumps_inside out.
Proof.
  intros L [Hlen _] Hl Hout. pose proof (slots_below _ _ _ L) as Hb. split; [lia|].
  apply Forall_forall. intros [k inst] Hin.
  apply list_elem_of_lookup in Hin as [k' Hk']. rewrite list_lookup_imap in Hk'.
  destruct (out !! k') as [i|] eqn:Hi; simplify_eq/=.
  destruct (lookup_lt_is_Some_2 (new_to_old p) k) as [s Hs].
  { rewrite <- Hl. by eapply lookup_lt_Some. }
  destruct (Hout _ _ Hs) as (i' & Hi' & Hm). simplify_eq.
  destruct (jump_offset inst) as [off|] eqn:Hoff; [|done].
  rewrite Hl. by eapply moved_inside.
Qed.

Lemma fused_layout code smap :
  length smap = length code → jumps_inside code →
  ∃ out smap', fuse_bytecode code smap = Some (out, smap') ∧
    length smap' = length out ∧ length out ≤ length code ∧ jumps_inside out ∧
    (∀ src, src ∈ smap' → src ∈ smap).
Proof.
  intros Hlen Hj. destruct (fuse_bytecode_spec _ _ Hlen Hj) as (p & out & Hf & L & Hl & Hout).
  exists out, (new_smap p). split; [done|]. split; [by rewrite Hl, (lay_smaps _ _ _ _ _ L)|].
  split; [rewrite Hl; by eapply slots_below|]. split; [by eapply fused_jumps_inside|].
  intros src Hin. apply list_elem_of_lookup in Hin as [k Hk].
  destruct (lookup_lt_is_Some_2 (new_to_old p) k) as [s Hs].
  { rewrite <- (lay_smaps _ _ _ _ _ L). by eapply lookup_lt_Some. }
  destruct (entry_kept _ _ _ L Hlen _ _ Hs) as (src' & Hsrc & Hk'). simplify_eq.
  by eapply list_elem_of_lookup_2.
Qed.

(** ** The runs *)

(** Two frames that have ended: the same value in the same world, or the same error, of a send
    both times or neither time, and of a send reported at the same source entry; an empty operand
    stack has two messages. *)
Inductive ends_alike {W} (smap smap' : list (option SourceInfo)) : Config (W:=W) → Config (W:=W) → Prop :=
| EndFailed ip k a e h w :
    (a = true → is_Some (reported smap (Failed ip a e h w)) ∧
       reported smap' (Failed k a e h w) = reported smap (Failed ip a e h w)) →
    ends_alike smap smap' (Failed ip a e h w) (Failed k a e h w)
| EndUnderflow ip k e h w :
    e = stack_is_empty ∨ e = stack_underflow →
    ends_alike smap smap' (Failed ip false stack_is_empty h w) (Failed k false e h w)
| EndReturned v h w : ends_alike smap smap' (Returned v h w) (Returned v h w)
| EndReturnedFromMethod v h w :
    ends_alike smap smap' (ReturnedFromMethod v h w) (ReturnedFromMethod v h w)
| EndYeeted v h w : ends_alike smap smap' (Yeeted v h w) (Yeeted v h w)
| EndAway : ends_alike smap smap' Away Away.

Lemma same_ends {W} code smap smap' p (c c' : Config (W:=W)) :
  same code smap smap' p c c' → ¬ running c → ends_alike smap smap' c c'.
Proof.
  destruct 1 as [|ip k a e h w src Hs Hs'| | | | |]; intros Hr; try (exfalso; by apply Hr);
    try by econstructor.
  apply EndFailed. intros ->. unfold reported. simpl. by rewrite !Nat.sub_0_r, Hs, Hs'.
Qed.

Lemma fused_runs `{Machine W} (fr : FrameInfo) code smap :
  length smap = length code → jumps_inside code →
  ∃ out smap', fuse_bytecode code smap = Some (out, smap') ∧
    (∀ st n, ¬ running (run fr code n (At 0 st)) →
       ∃ m, m ≤ n ∧ ends_alike smap smap' (run fr code n (At 0 st)) (run fr out m (At 0 st))) ∧
    (∀ st m, ¬ running (run fr out m (At 0 st)) →
       ∃ n, n ≤ 3 * m ∧ ends_alike smap smap' (run fr code n (At 0 st)) (run fr out m (At 0 st))).
Proof.
  intros Hlen Hj. destruct (fuse_bytecode_spec _ _ Hlen Hj) as (p & out & Hf & L & Hl & Hout).
  exists out, (new_smap p). split; [done|]. split.
  - intros st n Hn.
    destruct (halt_simulated fr code smap p out L Hj Hlen Hl Hout n st Hn) as (m & Hm & Hs).
    exists m. split; [done|]. by eapply same_ends.
  - intros st m Hm.
    destruct (run_simulated fr code smap p out L Hj Hlen Hl Hout m (At 0 st) (At 0 st))
      as (n & Hn & _ & Hs); [constructor; by eapply start_slot|].
    exists n. split; [done|]. eapply same_ends; [done|]. by rewrite same_running.
Qed.

(** C5: The peephole pass preserves what a frame does.  A frame that ends on the original code
    ends on the fused code, in no more steps, with the same value, error and machine, where the two
    messages for an empty operand stack count as one; an error raised by a send is reported at the
    same source entry of the two source maps, and one raised by any other instruction need not be
    ([overflow_reported_elsewhere]); and a frame that ends on the fused code ended on the original,
    so a loop that runs for ever still does.  The source map has an entry per instruction, and the
    jumps of the code lie inside it. *)
Theorem fuse_bytecode_preserves_runs `{Machine W} (fr : FrameInfo) code smap :
  length smap = length code → jumps_inside code →
  ∃ out smap', fuse_bytecode code smap = Some (out, smap') ∧
    (∀ st n, ¬ running (run fr code n (At 0 st)) →
       ∃ m, m ≤ n ∧ ends_alike smap smap' (run fr code n (At 0 st)) (run fr out m (At 0 st))) ∧
    (∀ st m, ¬ running (run fr out m (At 0 st)) →
       ∃ n, n ≤ 3 * m ∧ ends_alike smap smap' (run fr code n (At 0 st)) (run fr out m (At 0 st))).
Proof. apply fused_runs. Qed.

(** C34: The pass does not index out of its tables, and what it returns is a buffer the
    interpreter can run: as long as its source map, no longer than the original, every jump
    inside it or to its end, and every source entry one of the original's. *)
Theorem fuse_bytecode_is_well_formed code smap :
  length smap = length code → jumps_inside code →
  ∃ out smap', fuse_bytecode code smap = Some (out, smap') ∧
    length smap' = length out ∧ length out ≤ length code ∧ jumps_inside out ∧
    (∀ src, src ∈ smap' → src ∈ smap).
Proof. apply fused_layout. Qed.

(** ** Integer arithmetic *)

Local Open Scope Z_scope.

(** The exact value of an arithmetic operator, truncated division included. *)
Definition exact (kind : IntBinKind) (a b : Z) : option Z :=
  match kind with
  | Add => Some (a + b) | Sub => Some (a - b) | Mul => Some (a * b)
  | Div => Some (Z.quot a b) | Mod => Some (Z.rem a b)
  | _ => None
  end.

Lemma in_i64_spec z : in_i64 z = true ↔ - 2 ^ 63 ≤ z < 2 ^ 63.
Proof. unfold in_i64. lia. Qed.

Lemma quot_i64 a b : in_i64 a = true → b ≠ 0 → b ≠ -1 → in_i64 (Z.quot a b) = true.
Proof.
  rewrite !in_i64_spec. intros Ha Hb Hb'.
  destruct (decide (b = 1)) as [->|]; [by rewrite Z.quot_1_r|].
  destruct (decide (a = 0)) as [->|]; [rewrite Z.quot_0_l by done; lia|].
  pose proof (Z.quot_abs a b Hb) as Hq.
  pose proof (Z.quot_lt (Z.abs a) (Z.abs b) ltac:(lia) ltac:(lia)). lia.
Qed.

Lemma rem_i64 a b : in_i64 b = true → b ≠ 0 → in_i64 (Z.rem a b) = true.
Proof. rewrite !in_i64_spec. intros Hb Hz. pose proof (Z.rem_bound_abs a b Hz). lia. Qed.

Lemma int_bin_exact kind a b z :
  in_i64 a = true → in_i64 b = true → exact kind a b = Some z →
  int_bin_compute kind a b =
    if bool_decide (b = 0) && (bool_decide (kind = Div) || bool_decide (kind = Mod))
    then Err division_by_zero
    else if in_i64 z then Ok (VInt z) else Err integer_overflow.
Proof.
  intros Ha Hb Hz. destruct kind; simplify_eq/=; unfold checked;
    rewrite ?(bool_decide_eq_false_2 (_ = _)) by done; rewrite ?andb_false_r; try done.
  - rewrite andb_true_r. destruct (Z.eqb_spec b 0) as [->|]; [done|].
    rewrite bool_decide_eq_false_2 by done.
    destruct (Z.eqb_spec b (-1)) as [->|].
    { by replace (Z.quot a (-1)) with (- a) by (change (-1) with (- (1)); rewrite Z.quot_opp_r, Z.quot_1_r by done; lia). }
    by rewrite quot_i64.
  - rewrite andb_true_r. destruct (Z.eqb_spec b 0) as [->|]; [done|].
    rewrite bool_decide_eq_false_2, rem_i64 by done.
    destruct (Z.eqb_spec b (-1)) as [->|]; [|done].
    by replace (Z.rem a (-1)) with 0 by (change (-1) with (- (1)); rewrite Z.rem_opp_r, Z.rem_1_r by done; lia).
Qed.

(** Integer arithmetic never wraps and never stops the machine: on 64-bit operands every
    operator gives the exact result when it is a 64-bit integer and the error [Integer overflow]
    when it is not, [i64::MIN / -1] included, and division by zero is an error of its own. *)
Theorem int_arithmetic_is_exact kind a b z :
  in_i64 a = true → in_i64 b = true → exact kind a b = Some z →
  int_bin_compute kind a b =
    if bool_decide (b = 0) && (bool_decide (kind = Div) || bool_decide (kind = Mod))
    then Err division_by_zero
    else if in_i64 z then Ok (VInt z) else Err integer_overflow.
Proof. apply int_bin_exact. Qed.

(** * The peephole pass at work

    The counting loop of the compiler's own tests, a machine to run it on, and the instances of
    the theorems of [FuseProps] there. *)
Local Open Scope nat_scope.

(** A machine without objects: every call answers nil. *)
#[local] Instance quiet_machine : Machine unit := {
  new_object _ _ _ w := (0%N, w);
  object_class_name _ _ := "Object";
  field_of _ _ _ := VNil;
  set_field _ _ _ w := Ok w;
  set_active _ w := w;
  list_spliced _ _ _ := false;
  plain_new_check _ _ := false;
  call _ _ _ _ h w := Some (Ok VNil, h, w);
  operate _ _ _ h w := Some (Ok VNil, h, w);
  operate_advanced _ _ _ _ _ := false }.

(** [var i = 0. { i < 3 }.whileDo:{ i = i + 1 }. i] as the compiler emits it. *)
Definition counting : list Instruction :=
  [Push (CInt 0); Dup; DefineLocal "i"; Pop;
   LoadLocal "i"; Push (CInt 3); IntLt; ElseJump 8;
   LoadLocal "i"; Push (CInt 1); IntAdd; Dup; StoreLocal "i"; Pop; Jump (-10);
   Push CNil; Pop; LoadLocal "i"; Return].

Definition line (n : N) : option SourceInfo := Some (mkSourceInfo "count.qn" n 1 0 0 None).

Definition counting_lines : list (option SourceInfo) := (λ n, line (N.of_nat n)) <$> seq 1 19.

Example counting_fused :
  fst <$> fuse_bytecode counting counting_lines =
  Some [Push (CInt 0); DefineLocal "i"; IntBinLC "i" (CInt 3) Lt; ElseJump 4;
        IntBinLC "i" (CInt 1) Add; StoreLocal "i"; Jump (-4); Push CNil; Pop; LoadLocal "i"; Return].
Proof. vm_compute. reflexivity. Qed.

Definition demo_frame : FrameInfo := mkFrame 0 false.
Definition demo_start : Vm (W:=unit) := mkVm [] {[0 := mkEnvFrame None []]} tt.

Example counting_counts :
  match run demo_frame counting 60 (At 0 demo_start) with Returned v _ _ => v | _ => VNil end = VInt 3.
Proof. vm_compute. reflexivity. Qed.

Lemma fuse_bytecode_preserves_runs_witness :
  length counting_lines = length counting ∧ jumps_inside counting ∧
  ∃ out smap', fuse_bytecode counting counting_lines = Some (out, smap') ∧
    (∀ st n, ¬ running (run demo_frame counting n (At 0 st)) →
       ∃ m, m ≤ n ∧ ends_alike counting_lines smap' (run demo_frame counting n (At 0 st))
                      (run demo_frame out m (At 0 st))) ∧
    (∀ st m, ¬ running (run demo_frame out m (At 0 st)) →
       ∃ n, n ≤ 3 * m ∧ ends_alike counting_lines smap' (run demo_frame counting n (At 0 st))
                          (run demo_frame out m (At 0 st))).
Proof.
  assert (length counting_lines = length counting) as Hl by (vm_compute; reflexivity).
  assert (jumps_inside counting) as Hj
    by (apply (bool_decide_unpack (jumps_inside counting)); vm_compute; exact I).
  split; [exact Hl|]. split; [exact Hj|].
  apply (fuse_bytecode_preserves_runs demo_frame counting counting_lines Hl Hj).
Defined.

(** [x + 1] on the largest integer, compiled at lines 1, 2 and 3: the pass fuses the three
    instructions and keeps the entry of the addition.  The error of the fused code is reported at
    line 3, that of the original at line 2, where the constant was loaded: an instruction that is
    no send fails before the frame is past it. *)
Lemma overflow_reported_elsewhere :
  let code := [LoadLocal "x"; Push (CInt 1); IntAdd; Return] in
  let smap := [line 1; line 2; line 3; line 4] in
  let st := mkVm [] {[0 := mkEnvFrame None [("x", VInt (2 ^ 63 - 1))]]} tt in
  ∃ out smap', fuse_bytecode code smap = Some (out, smap')
    ∧ reported smap (run demo_frame code 3 (At 0 st)) = Some (line 2)
    ∧ reported smap' (run demo_frame out 1 (At 0 st)) = Some (line 3).
Proof. eexists _, _. split; [vm_compute; reflexivity|]. split; vm_compute; reflexivity. Qed.

Lemma fuse_bytecode_is_well_formed_witness :
  length counting_lines = length counting ∧ jumps_inside counting ∧
  ∃ out smap', fuse_bytecode counting counting_lines = Some (out, smap') ∧
    length smap' = length out ∧ length out ≤ length counting ∧ jumps_inside out ∧
    (∀ src, src ∈ smap' → src ∈ counting_lines).
Proof.
  assert (length counting_lines = length counting) as Hl by (vm_compute; reflexivity).
  assert (jumps_inside counting) as Hj
    by (apply (bool_decide_unpack (jumps_inside counting)); vm_compute; exact I).
  split; [exact Hl|]. split; [exact Hj|].
  apply (fuse_bytecode_is_well_formed counting counting_lines Hl Hj).
Defined.

Lemma int_arithmetic_is_exact_witness :
  in_i64 (- 2 ^ 63) = true ∧ in_i64 (-1) = true ∧ exact Div (- 2 ^ 63) (-1) = Some (2 ^ 63)%Z ∧
  int_bin_compute Div (- 2 ^ 63) (-1) = Err integer_overflow.
Proof.
  split; [reflexivity|]. split; [reflexivity|]. split; [reflexivity|].
  apply (int_arithmetic_is_exact Div (- 2 ^ 63) (-1) (2 ^ 63)); reflexivity.
Defined.

(** * Shared closures (src/src/vm/exec.rs, src/src/vm/call.rs, src/src/instruction.rs)

    A block literal becomes a closure each time its [Push] runs, over the environment of the
    frame.  The closures of a template that [Instr.template_is_closed] accepts are taken to be
    alike, and all materializations share the first one. *)
Local Open Scope nat_scope.

(** The parts of a [Block] a run depends on: its template and the environment it captured. *)
Record Closure := mkClosure { cl_template : StaticBlock; cl_parent_env : option nat }.

(** The [Block] arm of [materialize_constant], on the per-machine cache of closures. *)
Definition materialize_block (cache : gmap N Closure) (sb : StaticBlock) (parent_env : option nat)
    : Closure * gmap N Closure :=
  match (match sb_template_id sb with
         | Some tid => if template_is_closed sb then cache !! tid else None
         | None => None
         end) with
  | Some v => (v, cache)
  | None =>
      let v := mkClosure sb parent_env in
      match sb_template_id sb with
      | Some tid => (v, if template_is_closed sb then <[tid := v]> cache else cache)
      | None => (v, cache)
      end
  end.

(** The environment frame of an activation, at a fresh address. *)
Definition start_block (h : Envs) (c : Closure) (args : list Value) : nat * Envs :=
  let f := fresh (dom h) in
  let frame := foldl (λ fr p, env_bind fr p.1 p.2) (mkEnvFrame (cl_parent_env c) [])
                 (zip (sb_param_syms (cl_template c)) args) in
  (f, <[f := frame]> h).

(** The value of an activation that ends within [n] instructions. *)
Definition activation `{Machine W} (n : nat) (h : Envs) (c : Closure) (args : list Value) (w : W)
    : option Value :=
  let '(f, h') := start_block h c args in
  match run (mkFrame f (sb_is_init_literal (cl_template c))) (sb_bytecode (cl_template c)) n
          (At 0 (mkVm [] h' w)) with
  | Returned v _ _ => Some v
  | _ => None
  end.

(** The literal [{ var x = x; x }]: the initializer reads the [x] of the enclosing scope. *)
Definition shadowing_code : list Instruction :=
  [LoadLocal "x"; Dup; DefineLocal "x"; Pop; LoadLocal "x"; Return].

Definition shadowing_literal (code : list Instruction) : StaticBlock :=
  mkStaticBlock None [] code None None [] (Some 1%N) false.

(** Two enclosing scopes that bind [x] to 1 and to 2. *)
Definition two_scopes : Envs :=
  {[ 1 := mkEnvFrame None [("x", VInt 1)]; 2 := mkEnvFrame None [("x", VInt 2)] ]}.

Lemma shadowing_literal_shared `{Machine W} (w : W) :
  ∃ code smap, fuse_bytecode shadowing_code (replicate 6 None) = Some (code, smap) ∧
    let sb := shadowing_literal code in
    template_is_closed sb = true ∧
    activation 6 two_scopes (mkClosure sb (Some 1)) [] w = Some (VInt 1) ∧
    activation 6 two_scopes (mkClosure sb (Some 2)) [] w = Some (VInt 2) ∧
    ∃ cache, materialize_block ∅ sb (Some 1) = (mkClosure sb (Some 1), cache) ∧
             materialize_block cache sb (Some 2) = (mkClosure sb (Some 1), cache).
Proof.
  eexists _, _. split; [vm_compute; reflexivity|]. cbn zeta.
  split; [vm_compute; reflexivity|]. split; [vm_compute; reflexivity|].
  split; [vm_compute; reflexivity|]. eexists. split; vm_compute; reflexivity.
Qed.

(** A closed template may read its surroundings: the scan takes a name for a local of the
    block when any instruction of it defines the name, also when it is read before.  The
    closures of [{ var x = x; x }] answer with the [x] of the scope they were made in, the scan
    accepts the template, and the second scope is given the closure of the first. *)
Theorem closed_template_captures `{Machine W} (w : W) :
  ∃ code smap, fuse_bytecode shadowing_code (replicate 6 None) = Some (code, smap) ∧
    let sb := shadowing_literal code in
    template_is_closed sb = true ∧
    activation 6 two_scopes (mkClosure sb (Some 1)) [] w = Some (VInt 1) ∧
    activation 6 two_scopes (mkClosure sb (Some 2)) [] w = Some (VInt 2) ∧
    ∃ cache, materialize_block ∅ sb (Some 1) = (mkClosure sb (Some 1), cache) ∧
             materialize_block cache sb (Some 2) = (mkClosure sb (Some 1), cache).
Proof. apply shadowing_literal_shared. Qed.
