(* ===== verification/Lower.v ===== *)
(** * Lowering of expressions and control flow (src/src/compiler/lowering.rs, devirt.rs)

    The code the compiler emits for the expressions of a block, with the control flow it lays
    out as jumps: [&&] and [||], [if:] and [if:else:] on literal blocks, [whileDo:] on literal
    blocks, the [^] of a spliced block, which becomes a jump to the end of the splice, and the body
    of a method spliced at its call, with the receiver and the arguments in locals of the caller.
    The nodes carry symbols; [Names] has the names of the source.

    A node carries what the compiler's analyses have decided about it: the instruction of a
    binary operator, whether a conditional is guarded, whether a loop condition is checked.  A
    block literal that stays a block is the constant its own compilation gave.  A buffer is its
    list of instructions; the source entries are in [Fuse.CodeBlock]. *)
From stdpp Require Import base numbers list strings gmap.
From stdpp Require Import options.
From S2P Require Import Prelude Instr Exec Fuse.
Local Open Scope Z_scope.

(** How a binary operator is emitted: an operator on two [Int]s or [Double]s, or a send. *)
Inductive BinaryOp := OpInt (kind : IntBinKind) | OpDouble (kind : IntBinKind) | OpSend (sel : Symbol).

(** What an assignment or a declaration stores to. *)
Inductive Target :=
| ToLocal (name : Symbol)
| ToNewLocal (name : Symbol)
| ToField (name : string)
| ToGlobal (name : NamespacedName).

Inductive Node :=
| NConst (c : Constant)
| NLocal (name : Symbol)
| NField (name : string)
| NGlobal (name : NamespacedName)
| NAssign (target : Target) (rvalue : Node)
| NAnd (left right : Node)
| NOr (left right : Node)
| NBinary (op : BinaryOp) (left right : Node)
| NUnary (sel : Symbol) (right : Node)
| NCall (subject : Node) (sel : Symbol) (args : list Node)
| NList (values : list Node)
| NMethodReturn (value : Node)
(** [cold]: the guard's other side, the blocks as constants *)
| NIf (cold : option (Constant * option Constant)) (subject : Node) (then_blk : list Stmt)
    (else_blk : option (list Stmt))
| NWhile (strict : bool) (cond_blk body_blk : list Stmt)
(** the field of another object; a method body spliced at a call, its arguments in cells *)
| NFieldOf (subject : Node) (name : string)
| NInline (binds : list (Symbol * Node)) (body : list Stmt)
(** A statement is an expression or, for [^], a block return. *)
with Stmt :=
| SExpr (n : Node)
| SCaret (value : Node).

(** ** Emission *)

Definition int_devirt_op (k : IntBinKind) : Instruction :=
  match k with
  | Add => IntAdd | Sub => IntSub | Mul => IntMul | Div => IntDiv | Mod => IntMod
  | Lt => IntLt | Le => IntLe | Gt => IntGt | Ge => IntGe | Eq => IntEq | Ne => IntNe
  end.

Definition double_devirt_op (k : IntBinKind) : Instruction :=
  match k with
  | Add => DoubleAdd | Sub => DoubleSub | Mul => DoubleMul | Div => DoubleDiv | Mod => DoubleMod
  | Lt => DoubleLt | Le => DoubleLe | Gt => DoubleGt | Ge => DoubleGe | Eq => DoubleEq
  | Ne => DoubleNe
  end.

Definition binary_instr (op : BinaryOp) : Instruction :=
  match op with
  | OpInt k => int_devirt_op k
  | OpDouble k => double_devirt_op k
  | OpSend sel => Send sel 1
  end.

Definition store_instr (t : Target) : Instruction :=
  match t with
  | ToLocal s => StoreLocal s
  | ToNewLocal s => DefineLocal s
  | ToField f => StoreField f
  | ToGlobal g => StoreGlobal g false
  end.

Definition len (code : list Instruction) : Z := Z.of_nat (length code).

Section bodies.
Context (compile_node : Node → list Instruction).

(** The statements of a spliced body: the code so far and the positions of its carets, each a
    [Jump(0)] to be patched. *)
Fixpoint splice_stmts (stmts : list Stmt) (out : list Instruction) (carets : list nat)
    : list Instruction * list nat :=
  match stmts with
  | [] => (out, carets)
  | stmt :: rest =>
      let '(out, carets) :=
        match stmt with
        | SExpr n => (out ++ compile_node n, carets)
        | SCaret v =>
            let out := out ++ compile_node v in
            (vec_push out (Jump 0), vec_push carets (length out))
        end in
      splice_stmts rest (match rest with [] => out | _ => vec_push out Pop end) carets
  end.

Definition patch_carets (carets : list nat) (out : list Instruction) : list Instruction :=
  let end_ := len out in
  foldl (λ out pos, alter (set_jump_offset (end_ - Z.of_nat pos)) pos out) out carets.

Definition inline_block_body (stmts : list Stmt) : list Instruction :=
  let '(out, carets) := splice_stmts stmts [] [] in
  let out := match stmts with [] => vec_push out (Push CNil) | _ => out end in
  patch_carets carets out.

(** The statements of a block that keeps its frame: a [^] returns from the block. *)
Fixpoint block_stmts (stmts : list Stmt) : list Instruction :=
  match stmts with
  | [] => []
  | stmt :: rest =>
      match stmt with
      | SExpr n => compile_node n
      | SCaret v => compile_node v ++ [BlockReturn]
      end ++ match rest with [] => [] | _ => Pop :: block_stmts rest end
  end.

Definition block_body (stmts : list Stmt) : list Instruction :=
  match stmts with [] => [Push CNil] | _ => block_stmts stmts end ++ [Return].

(** [if:]/[if:else:], the receiver on the stack. *)
Definition inline_conditional_body (then_blk : list Stmt) (else_blk : option (list Stmt))
    : list Instruction :=
  let then_bc := inline_block_body then_blk in
  let t := len then_bc in
  match else_blk with
  | Some else_blk =>
      let else_bc := inline_block_body else_blk in
      ElseJump (t + 2) :: then_bc ++ Jump (len else_bc + 1) :: else_bc
  | None => ElseJump (t + 2) :: then_bc ++ [Jump 2; Push CNil]
  end.

Definition cold_conditional (cold_then : Constant) (cold_else : option Constant) : list Instruction :=
  match cold_else with
  | Some e => [Push cold_then; Push e; Send "if:else:" 2]
  | None => [Push cold_then; Send "if:" 1]
  end.

Definition inlined_conditional (cold : option (Constant * option Constant)) (subject : Node)
    (then_blk : list Stmt) (else_blk : option (list Stmt)) : list Instruction :=
  let hot_bc := inline_conditional_body then_blk else_blk in
  compile_node subject ++
  match cold with
  | None => hot_bc
  | Some (cold_then, cold_else) =>
      let cold_bc := cold_conditional cold_then cold_else in
      BranchIfNotBool (len hot_bc + 2) :: hot_bc ++ Jump (len cold_bc + 1) :: cold_bc
  end.

Definition inlined_while (strict : bool) (cond_blk body_blk : list Stmt) : list Instruction :=
  let cond_bc := inline_block_body cond_blk ++ (if strict then [RequireBool] else []) in
  let body_bc := inline_block_body body_blk in
  let c := len cond_bc in
  let b := len body_bc in
  cond_bc ++ [ElseJump (b + 3)] ++ body_bc ++ [Pop; Jump (- (c + b + 2)); Push CNil].

(** An inlined method: each argument is evaluated into its cell, then the body is spliced. *)
Definition inline_body_with_args (binds : list (Symbol * Node)) (body : list Stmt)
    : list Instruction :=
  concat (map (λ b, compile_node b.2 ++ [DefineLocal b.1]) binds) ++ inline_block_body body.

End bodies.

Fixpoint compile_node (n : Node) : list Instruction :=
  match n with
  | NConst c => [Push c]
  | NLocal s => [LoadLocal s]
  | NField f => [LoadField f]
  | NGlobal g => [LoadGlobal g]
  | NAssign t e => compile_node e ++ [Dup; store_instr t]
  | NAnd l r =>
      let right_bc := compile_node r in
      compile_node l ++ [Dup; ElseJump (2 + len right_bc); Pop] ++ right_bc
  | NOr l r =>
      let right_bc := compile_node r in
      compile_node l ++ [Dup; IfJump (2 + len right_bc); Pop] ++ right_bc
  | NBinary op l r => compile_node l ++ compile_node r ++ [binary_instr op]
  | NUnary sel e => compile_node e ++ [Send sel 0]
  | NCall subj sel args =>
      compile_node subj ++ concat (map compile_node args) ++ [Send sel (length args)]
  | NList vs => concat (map compile_node vs) ++ [NewList (length vs)]
  | NMethodReturn v => compile_node v ++ [MethodReturn]
  | NIf cold subj t e => inlined_conditional compile_node cold subj t e
  | NWhile strict c b => inlined_while compile_node strict c b
  | NFieldOf subj f => compile_node subj ++ [LoadFieldOf f]
  | NInline binds body => inline_body_with_args compile_node binds body
  end.

(** The finished code of a block: its body through the peephole pass. *)
Definition compile_block (stmts : list Stmt) : list Instruction := block_body compile_node stmts.

(** * What the expressions mean

    An evaluator of the nodes of [Lower], independent of code, stacks and jumps: the order of
    evaluation, the laziness of [&&], [||] and the arms of a conditional, the strictness of a
    loop condition, and the reach of [^].  It is the specification the emitted code is proved
    against in [LowerProps].  A loop has fuel, [f] rounds; [More] is the answer of a loop that
    has used them up. *)
Local Open Scope nat_scope.

Section eval.
Context `{Machine W} (fr : FrameInfo).

(** The memory an expression is evaluated in: a machine without an operand stack. *)
Definition Mem : Type := Envs * W.
Definition vm_of (s : list Value) (m : Mem) : Vm (W:=W) := mkVm s m.1 m.2.
Definition mem_of (st : Vm (W:=W)) : Mem := (envs st, world st).

Inductive Out :=
| Val (v : Value) (m : Mem)
| Fails (e : QuoinError) (m : Mem)
| MethodResult (v : Value) (m : Mem)
| Gone
| More.

Definition obind (o : Out) (k : Value → Mem → Out) : Out :=
  match o with Val v m => k v m | o => o end.

Definition of_result (r : result QuoinError Value) (m : Mem) : Out :=
  match r with Ok v => Val v m | Err e => Fails e m end.

Definition of_answer (a : option (result QuoinError Value * Envs * W)) : Out :=
  match a with
  | Some (r, h, w) => of_result r (h, w)
  | None => Gone
  end.

Definition send (sel : Symbol) (receiver : Value) (args : list Value) (m : Mem) : Out :=
  of_answer (call sel receiver args fr m.1 m.2).

Definition perform (i : Instruction) (args : list Value) (m : Mem) : Out :=
  of_answer (operate i args fr m.1 m.2).

Definition constant (c : Constant) (m : Mem) : Value * Mem :=
  let '(v, st) := materialize_constant fr c (vm_of [] m) in (v, mem_of st).

Definition of_store (v : Value) (r : result (QuoinError * Vm (W:=W)) Vm) : Out :=
  match r with
  | Ok st => Val v (mem_of st)
  | Err (e, st) => Fails e (mem_of st)
  end.

(** An assignment is worth the value it stores. *)
Definition assign (t : Target) (v : Value) (m : Mem) : Out :=
  match t with
  | ToLocal s => of_store v (store_set_local fr s v (vm_of [] m))
  | ToNewLocal s => of_store v (store_define_local fr s v (vm_of [] m))
  | ToField f => of_store v (store_field_value fr f v (vm_of [] m))
  | ToGlobal g => obind (perform (StoreGlobal g false) [v] m) (λ _ m, Val v m)
  end.

Definition binary (op : BinaryOp) (a b : Value) (m : Mem) : Out :=
  match op, a, b with
  | OpInt k, VInt x, VInt y => of_result (int_bin_compute k x y) m
  | OpDouble k, VDouble x, VDouble y => Val (double_bin_compute k x y) m
  | OpInt k, a, b | OpDouble k, a, b => send (selector k) a [b] m
  | OpSend sel, a, b => send sel a [b] m
  end.

Definition is_bool (v : Value) : bool := match v with VBool _ => true | _ => false end.

(** A conditional on a value that is no Boolean, where the compiler does not know: the message. *)
Definition send_conditional (cold_then : Constant) (cold_else : option Constant) (v : Value) (m : Mem) : Out :=
  let '(t, m) := constant cold_then m in
  match cold_else with
  | None => send "if:" v [t] m
  | Some c => let '(e, m) := constant c m in send "if:else:" v [t; e] m
  end.

Section bodies.
Context (eval : Node → Mem → Out).

(** The value of a block is that of its last statement or of the first [^]; nil when empty. *)
Fixpoint eval_stmts (stmts : list Stmt) (m : Mem) : Out :=
  match stmts with
  | [] => Val VNil m
  | SCaret v :: _ => eval v m
  | [SExpr n] => eval n m
  | SExpr n :: rest => obind (eval n m) (λ _ m, eval_stmts rest m)
  end.

Fixpoint eval_args (args : list Node) (vs : list Value) (m : Mem) (k : list Value → Mem → Out) : Out :=
  match args with
  | [] => k vs m
  | a :: rest => obind (eval a m) (λ v m, eval_args rest (vs ++ [v]) m k)
  end.

Fixpoint eval_binds (binds : list (Symbol * Node)) (m : Mem) (k : Mem → Out) : Out :=
  match binds with
  | [] => k m
  | (s, e) :: rest =>
      obind (eval e m) (λ v m, obind (assign (ToNewLocal s) v m) (λ _ m, eval_binds rest m k))
  end.

Definition eval_if (cold : option (Constant * option Constant)) (then_blk : list Stmt)
    (else_blk : option (list Stmt)) (v : Value) (m : Mem) : Out :=
  let inline :=
    if is_truthy v then eval_stmts then_blk m
    else match else_blk with Some e => eval_stmts e m | None => Val VNil m end in
  match cold with
  | None => inline
  | Some (t, e) => if is_bool v then inline else send_conditional t e v m
  end.

Definition not_a_condition (v : Value) (m : Mem) : QuoinError :=
  MessageNotUnderstood (class_name v m.2) "whileDo: (a loop condition must be a Boolean)" [] [].

Definition eval_while (strict : bool) (cond_blk body_blk : list Stmt) : nat → Mem → Out :=
  fix loop rounds m :=
    match rounds with
    | O => More
    | S rounds' =>
        obind (eval_stmts cond_blk m) (λ v m,
          if strict && negb (is_bool v) then Fails (not_a_condition v m) m
          else if is_truthy v then
            obind (eval_stmts body_blk m) (λ _ m, loop rounds' m)
          else Val VNil m)
    end.

End bodies.

Fixpoint eval (f : nat) (n : Node) (m : Mem) : Out :=
  match n with
  | NConst c => let '(v, m) := constant c m in Val v m
  | NLocal s => Val (read_local fr s (vm_of [] m)) m
  | NField name => Val (load_field fr name (vm_of [] m)) m
  | NGlobal g => perform (LoadGlobal g) [] m
  | NAssign t e => obind (eval f e m) (assign t)
  | NAnd l r => obind (eval f l m) (λ v m, if is_truthy v then eval f r m else Val v m)
  | NOr l r => obind (eval f l m) (λ v m, if is_truthy v then Val v m else eval f r m)
  | NBinary op l r => obind (eval f l m) (λ a m, obind (eval f r m) (λ b m, binary op a b m))
  | NUnary sel e => obind (eval f e m) (λ v m, send sel v [] m)
  | NCall subj sel args =>
      obind (eval f subj m) (λ r m, eval_args (eval f) args [] m (λ vs m, send sel r vs m))
  | NList vs => eval_args (eval f) vs [] m (λ vs m, perform (NewList (length vs)) vs m)
  | NMethodReturn e => obind (eval f e m) (λ v m, MethodResult v m)
  | NIf cold subj t e => obind (eval f subj m) (λ v m, eval_if (eval f) cold t e v m)
  | NWhile strict c b => eval_while (eval f) strict c b f m
  | NFieldOf subj name => obind (eval f subj m) (λ v m, Val (field_of v name m.2) m)
  | NInline binds body => eval_binds (eval f) binds m (eval_stmts (eval f) body)
  end.

(** A block with its own frame. *)
Definition eval_block (f : nat) (stmts : list Stmt) (m : Mem) : Out := eval_stmts (eval f) stmts m.

End eval.
