(* ===== verification/LowerCode.v ===== *)
(** * The shape of the emitted code

    An induction principle for nodes, the splice of a block with its carets patched as one
    recursive definition, code at a position of a larger buffer, and the bounds of the jumps. *)
From stdpp Require Import base numbers list strings gmap.
From stdpp Require Import options.
From S2P Require Import Prelude Instr Exec Fuse FuseMap Lower.
Local Open Scope nat_scope.

(** ** Induction on nodes *)

Definition stmt_node (s : Stmt) : Node := match s with SExpr n | SCaret n => n end.

Definition all_stmts (P : Node → Prop) (l : list Stmt) : Prop := Forall (λ s, P (stmt_node s)) l.

Section induction.
Context (P : Node → Prop).
Context (Hconst : ∀ c, P (NConst c)) (Hlocal : ∀ s, P (NLocal s)) (Hfield : ∀ f, P (NField f))
  (Hglobal : ∀ g, P (NGlobal g)) (Hassign : ∀ t e, P e → P (NAssign t e))
  (Hand : ∀ l r, P l → P r → P (NAnd l r)) (Hor : ∀ l r, P l → P r → P (NOr l r))
  (Hbinary : ∀ op l r, P l → P r → P (NBinary op l r)) (Hunary : ∀ s e, P e → P (NUnary s e))
  (Hcall : ∀ subj s args, P subj → Forall P args → P (NCall subj s args))
  (Hlist : ∀ vs, Forall P vs → P (NList vs)) (Hret : ∀ e, P e → P (NMethodReturn e))
  (Hif : ∀ cold subj t e, P subj → all_stmts P t → (∀ b, e = Some b → all_stmts P b) →
     P (NIf cold subj t e))
  (Hwhile : ∀ strict c b, all_stmts P c → all_stmts P b → P (NWhile strict c b))
  (Hfieldof : ∀ subj f, P subj → P (NFieldOf subj f))
  (Hinline : ∀ binds body, Forall (λ b, P b.2) binds → all_stmts P body → P (NInline binds body)).

Fixpoint Node_induction (n : Node) : P n :=
  let nodes := fix nodes (l : list Node) : Forall P l :=
    match l with [] => List.Forall_nil _ | x :: l => List.Forall_cons _ _ _ (Node_induction x) (nodes l) end in
  let stmts := fix stmts (l : list Stmt) : all_stmts P l :=
    match l with
    | [] => List.Forall_nil _
    | s :: l => List.Forall_cons _ _ _
                  (match s as s return P (stmt_node s) with
                   | SExpr x => Node_induction x | SCaret x => Node_induction x end) (stmts l)
    end in
  let binds := fix binds (l : list (Symbol * Node)) : Forall (λ b, P b.2) l :=
    match l with
    | [] => List.Forall_nil _
    | b :: l => List.Forall_cons _ _ _ (match b as b return P b.2 with (_, x) => Node_induction x end) (binds l)
    end in
  match n with
  | NConst c => Hconst c
  | NLocal s => Hlocal s
  | NField f => Hfield f
  | NGlobal g => Hglobal g
  | NAssign t e => Hassign t e (Node_induction e)
  | NAnd l r => Hand l r (Node_induction l) (Node_induction r)
  | NOr l r => Hor l r (Node_induction l) (Node_induction r)
  | NBinary op l r => Hbinary op l r (Node_induction l) (Node_induction r)
  | NUnary s e => Hunary s e (Node_induction e)
  | NCall subj s args => Hcall subj s args (Node_induction subj) (nodes args)
  | NList vs => Hlist vs (nodes vs)
  | NMethodReturn e => Hret e (Node_induction e)
  | NIf cold subj t e =>
      Hif cold subj t e (Node_induction subj) (stmts t)
        (λ b, match e as e return e = Some b → all_stmts P b with
              | Some b' => λ E, eq_ind b' (all_stmts P) (stmts b') b (Some_inj _ _ E)
              | None => λ E, False_ind _ (eq_ind None (λ o : option (list Stmt), match o with None => True | _ => False end) I _ E)
              end)
  | NWhile strict c b => Hwhile strict c b (stmts c) (stmts b)
  | NFieldOf subj f => Hfieldof subj f (Node_induction subj)
  | NInline bs body => Hinline bs body (binds bs) (stmts body)
  end.
End induction.

(** ** The splice with its carets in place *)

Definition rest_of {A} (rest : list A) (code : list Instruction) : list Instruction :=
  match rest with [] => [] | _ => Pop :: code end.

Fixpoint spliced (stmts : list Stmt) : list Instruction :=
  match stmts with
  | [] => []
  | stmt :: rest =>
      let tail := rest_of rest (spliced rest) in
      match stmt with
      | SExpr n => compile_node n ++ tail
      | SCaret v => compile_node v ++ Jump (1 + len tail) :: tail
      end
  end.

(** The same before the patch, and where its carets are when it starts at [b]. *)
Definition head_code (stmt : Stmt) : list Instruction :=
  match stmt with SExpr n => compile_node n | SCaret v => compile_node v ++ [Jump 0] end.

Fixpoint unpatched (stmts : list Stmt) : list Instruction :=
  match stmts with
  | [] => []
  | stmt :: rest => head_code stmt ++ rest_of rest (unpatched rest)
  end.

Fixpoint caret_positions (b : nat) (stmts : list Stmt) : list nat :=
  match stmts with
  | [] => []
  | stmt :: rest =>
      match stmt with SExpr _ => [] | SCaret v => [b + length (compile_node v)] end ++
      caret_positions (b + length (head_code stmt) + length (rest_of rest [])) rest
  end.

Lemma splice_stmts_spec stmts out carets :
  splice_stmts compile_node stmts out carets =
  (out ++ unpatched stmts, carets ++ caret_positions (length out) stmts).
Proof.
  revert out carets; induction stmts as [|stmt rest IH]; intros out carets.
  - by rewrite !app_nil_r.
  - cbn [splice_stmts unpatched caret_positions].
    destruct stmt as [n|v]; cbn [head_code]; destruct rest as [|s2 rest]; rewrite IH;
      unfold vec_push; cbn [rest_of unpatched caret_positions length app];
      rewrite ?app_nil_r, ?length_app, <- ?app_assoc; cbn [length app]; try done.
    all: by rewrite ?length_app, ?Nat.add_assoc, <- ?app_assoc.
Qed.

Lemma unpatched_spliced_length stmts : length (unpatched stmts) = length (spliced stmts).
Proof.
  induction stmts as [|stmt rest IH]; [done|]. cbn.
  assert (length (rest_of rest (unpatched rest)) = length (rest_of rest (spliced rest))) as E
    by (destruct rest; [done|]; cbn [rest_of length]; by rewrite IH).
  destruct stmt; cbn [head_code]; rewrite !length_app; cbn [length]; lia.
Qed.

Definition patch_at (end_ : Z) (out : list Instruction) (pos : nat) : list Instruction :=
  alter (set_jump_offset (end_ - Z.of_nat pos)) pos out.

Lemma alter_middle (f : Instruction → Instruction) a x b :
  alter f (length a) (a ++ x :: b) = a ++ f x :: b.
Proof. induction a as [|y a IH]; [done|]. cbn. by f_equal. Qed.

Lemma patch_spliced stmts pre end_ :
  end_ = len (pre ++ spliced stmts) →
  foldl (patch_at end_) (pre ++ unpatched stmts) (caret_positions (length pre) stmts) =
  pre ++ spliced stmts.
Proof.
  revert pre; induction stmts as [|stmt rest IH]; intros pre He; [done|].
  cbn [unpatched spliced caret_positions] in *.
  destruct stmt as [n|v]; cbn [head_code app foldl] in *.
  - destruct rest as [|s2 rest]; [done|]. cbn [rest_of length] in *.
    specialize (IH (pre ++ compile_node n ++ [Pop])).
    rewrite !length_app in IH. cbn [length] in IH.
    replace (length pre + (length (compile_node n) + 1)) with
      (length pre + length (compile_node n) + 1) in IH by lia.
    rewrite <- !app_assoc in IH. cbn [app] in IH. by apply IH.
  - unfold patch_at at 2.
    replace (pre ++ (compile_node v ++ [Jump 0]) ++ rest_of rest (unpatched rest)) with
      ((pre ++ compile_node v) ++ Jump 0 :: rest_of rest (unpatched rest))
      by (by rewrite <- !app_assoc).
    rewrite <- length_app, alter_middle. cbn [set_jump_offset].
    assert (end_ - Z.of_nat (length (pre ++ compile_node v)) = 1 + len (rest_of rest (spliced rest)))%Z as ->
      by (rewrite He; unfold len; rewrite !length_app; cbn [length]; lia).
    destruct rest as [|s2 rest]; [by rewrite <- app_assoc|]. cbn [rest_of length] in *.
    set (off := (1 + len (Pop :: spliced (s2 :: rest)))%Z) in *.
    specialize (IH (pre ++ compile_node v ++ [Jump off; Pop])).
    rewrite !length_app in *. cbn [length] in *.
    replace (length pre + (length (compile_node v) + 2)) with
      (length pre + (length (compile_node v) + 1) + 1) in IH by lia.
    rewrite <- !app_assoc in *. cbn [app] in *. by apply IH.
Qed.

(** A spliced body leaves one value: an empty one pushes nil. *)
Definition body_code (stmts : list Stmt) : list Instruction :=
  match stmts with [] => [Push CNil] | _ => spliced stmts end.

Lemma inline_block_body_spec stmts : inline_block_body compile_node stmts = body_code stmts.
Proof.
  unfold inline_block_body. rewrite splice_stmts_spec. cbn [app length].
  destruct stmts as [|stmt rest]; [done|].
  unfold patch_carets. cbn [body_code].
  pose proof (patch_spliced (stmt :: rest) [] (len (spliced (stmt :: rest))) eq_refl) as Hp.
  cbn [app] in Hp. unfold patch_at in Hp. unfold len at 1.
  rewrite unpatched_spliced_length. exact Hp.
Qed.

(** ** Code at a position of a buffer *)

Definition code_at (C : list Instruction) (pc : nat) (code : list Instruction) : Prop :=
  ∃ pre post, C = pre ++ code ++ post ∧ length pre = pc.

Lemma code_at_head C pc i code : code_at C pc (i :: code) → C !! pc = Some i.
Proof. intros (pre & post & -> & <-). by apply list_lookup_middle. Qed.

Lemma code_at_app_l C pc a b : code_at C pc (a ++ b) → code_at C pc a.
Proof. intros (pre & post & -> & <-). exists pre, (b ++ post). by rewrite <- app_assoc. Qed.

Lemma code_at_app_r C pc a b : code_at C pc (a ++ b) → code_at C (pc + length a) b.
Proof.
  intros (pre & post & -> & <-). exists (pre ++ a), post.
  by rewrite length_app, <- !app_assoc.
Qed.

Lemma code_at_tail C pc i code : code_at C pc (i :: code) → code_at C (S pc) code.
Proof. intros Hc. apply (code_at_app_r C pc [i]) in Hc. by rewrite Nat.add_1_r in Hc. Qed.

Lemma code_at_bound C pc code : code_at C pc code → pc + length code ≤ length C.
Proof. intros (pre & post & -> & <-). rewrite !length_app. lia. Qed.

Lemma code_at_all C : code_at C 0 C.
Proof. exists [], []. by rewrite app_nil_r. Qed.

(** ** Jumps stay inside *)

Definition jumps_in (base total : nat) (code : list Instruction) : Prop :=
  ∀ i inst off, code !! i = Some inst → jump_offset inst = Some off →
    (0 <= Z.of_nat (base + i) + off <= Z.of_nat total)%Z.

Lemma jumps_in_nil base total : jumps_in base total [].
Proof. intros i inst off Hi. by rewrite lookup_nil in Hi. Qed.

Lemma jumps_in_cons base total inst code :
  (∀ off, jump_offset inst = Some off → 0 <= Z.of_nat base + off <= Z.of_nat total)%Z →
  jumps_in (S base) total code → jumps_in base total (inst :: code).
Proof.
  intros Hi Hc [|i] inst' off; cbn; intros E Hoff; simplify_eq.
  - rewrite Nat.add_0_r. by apply Hi.
  - specialize (Hc _ _ _ E Hoff). by rewrite Nat.add_succ_r.
Qed.

Lemma jumps_in_app base total a b :
  jumps_in base total a → jumps_in (base + length a) total b → jumps_in base total (a ++ b).
Proof.
  intros Ha Hb i inst off [Hi|[Hge Hi]]%lookup_app_Some Hoff; [by eapply Ha|].
  specialize (Hb _ _ _ Hi Hoff). by replace (base + length a + (i - length a)) with (base + i) in Hb by lia.
Qed.

Ltac lens H := repeat progress (rewrite ?length_app in H; cbn [length] in H).

(** Splits a buffer into its pieces and decides the jumps between them. *)
Ltac jumps :=
  repeat first
    [ apply jumps_in_nil
    | apply jumps_in_app
    | apply jumps_in_cons;
      [intros ? ?; simplify_eq/=; unfold len; rewrite ?length_app; cbn [length]; lia|]
    | progress cbn [length] ].

Definition stays_in (code : list Instruction) : Prop :=
  ∀ base total, base + length code ≤ total → jumps_in base total code.

Lemma concat_stays_in l : Forall stays_in l → stays_in (concat l).
Proof.
  induction 1 as [|c l Hc _ IH]; intros base total Hb; cbn in *; [apply jumps_in_nil|].
  rewrite length_app in Hb. apply jumps_in_app; [apply Hc; lia|apply IH; lia].
Qed.

Lemma spliced_stays_in stmts :
  all_stmts (λ n, stays_in (compile_node n)) stmts → stays_in (spliced stmts).
Proof.
  induction 1 as [|stmt rest Hs Hr IH]; intros base total Hb; [apply jumps_in_nil|].
  assert (∀ base, base + length (rest_of rest (spliced rest)) ≤ total →
          jumps_in base total (rest_of rest (spliced rest))) as Ht.
  { intros base' Hb'. destruct rest; [apply jumps_in_nil|].
    apply jumps_in_cons; [done|]. apply IH. cbn [rest_of length] in Hb'. lia. }
  cbn [spliced] in *. destruct stmt as [n|v]; cbn in Hs; rewrite length_app in Hb.
  - apply jumps_in_app; [apply Hs; lia|apply Ht; lia].
  - cbn [length] in Hb. apply jumps_in_app; [apply Hs; lia|].
    apply jumps_in_cons; [|apply Ht; lia].
    intros off [= <-]. unfold len. lia.
Qed.

Lemma body_stays_in stmts :
  all_stmts (λ n, stays_in (compile_node n)) stmts → stays_in (body_code stmts).
Proof.
  intros Hs. destruct stmts; [|by apply spliced_stays_in].
  intros base total Hb. jumps.
Qed.

Lemma conditional_stays_in t e :
  all_stmts (λ n, stays_in (compile_node n)) t →
  (∀ b, e = Some b → all_stmts (λ n, stays_in (compile_node n)) b) →
  stays_in (inline_conditional_body compile_node t e).
Proof.
  intros Ht He base total Hb. unfold inline_conditional_body in *.
  rewrite inline_block_body_spec in *. pose proof (body_stays_in _ Ht) as Ht'.
  destruct e as [b|].
  - rewrite inline_block_body_spec in *. specialize (He _ eq_refl). apply body_stays_in in He.
    lens Hb.
    jumps; [apply Ht'; lia|apply He; lia].
  - lens Hb.
    jumps. apply Ht'. lia.
Qed.

Lemma compile_node_stays_in n : stays_in (compile_node n).
Proof.
  induction n as [| | | |t e IH|l r IHl IHr|l r IHl IHr|op l r IHl IHr|s e IH|subj s args IHs IHa
    |vs IH|e IH|cold subj t e IHs IHt IHe|strict c b IHc IHb|subj f IH|binds body IHa IHb]
    using Node_induction;
    intros base total Hb; cbn [compile_node] in *; lens Hb;
    try (jumps; fail).
  - jumps; [apply IH; lia|]. apply jumps_in_cons; [by destruct t|jumps].
  - lens Hb. jumps; [apply IHl; lia|apply IHr; lia].
  - lens Hb. jumps; [apply IHl; lia|apply IHr; lia].
  - lens Hb.
    jumps; [apply IHl; lia|apply IHr; lia|].
    apply jumps_in_cons; [by destruct op as [[]|[]|]|jumps].
  - jumps. apply IH; lia.
  - lens Hb.
    jumps; [apply IHs; lia|]. apply concat_stays_in; [|lia]. by apply Forall_map.
  - jumps. apply concat_stays_in; [|lia]. by apply Forall_map.
  - jumps. apply IH; lia.
  - unfold inlined_conditional in *. pose proof (conditional_stays_in _ _ IHt IHe) as Hc.
    lens Hb. destruct cold as [[ct [ce|]]|].
    + cbn [cold_conditional length] in *. lens Hb.
      jumps; [apply IHs; lia|apply Hc; lia].
    + cbn [cold_conditional length] in *. lens Hb.
      jumps; [apply IHs; lia|apply Hc; lia].
    + jumps; [apply IHs; lia|apply Hc; lia].
  - unfold inlined_while in *. rewrite !inline_block_body_spec in *.
    apply body_stays_in in IHc, IHb.
    destruct strict; lens Hb; jumps; try apply IHc; try apply IHb; rewrite ?length_app; cbn [length]; lia.
  - jumps. apply IH; lia.
  - unfold inline_body_with_args in *. rewrite inline_block_body_spec in *. lens Hb.
    apply jumps_in_app; [|apply body_stays_in; [done|lia]].
    apply concat_stays_in; [|lia]. apply Forall_map. eapply Forall_impl; [exact IHa|].
    intros [s e] He base' total' Hb'. cbn [fst snd] in *. lens Hb'. jumps. apply He; lia.
Qed.

Lemma block_stays_in stmts : stays_in (compile_block stmts).
Proof.
  intros base total Hb. unfold compile_block, block_body in *.
  destruct stmts as [|stmt rest]; [jumps|].
  lens Hb. apply jumps_in_app; [|jumps].
  assert (stays_in (block_stmts compile_node (stmt :: rest))) as Hs; [|apply Hs; lia].
  clear base total Hb. generalize (stmt :: rest). clear stmt rest.
  intros stmts. induction stmts as [|stmt rest IH]; intros base total Hb; [apply jumps_in_nil|].
  cbn [block_stmts] in *. lens Hb. apply jumps_in_app.
  - destruct stmt as [n|v]; [apply compile_node_stays_in; lia|]. lens Hb.
    apply jumps_in_app; [apply compile_node_stays_in; lia|jumps].
  - destruct rest; [apply jumps_in_nil|]. cbn [length] in Hb.
    apply jumps_in_cons; [done|]. apply IH. lia.
Qed.

Lemma compiled_jumps_inside stmts :
  (len (compile_block stmts) < 2 ^ 63)%Z → jumps_inside (compile_block stmts).
Proof.
  intros Hl. split; [done|]. apply Forall_forall. intros [i inst] Hin.
  apply list_elem_of_lookup in Hin as [i' Hi]. rewrite list_lookup_imap in Hi.
  destruct (compile_block stmts !! i') as [inst'|] eqn:E; simplify_eq/=.
  destruct (jump_offset inst) as [off|] eqn:Hoff; [|done].
  apply (block_stays_in stmts 0 (length (compile_block stmts)) ltac:(lia) _ _ _ E Hoff).
Qed.
