(* ===== verification/LowerNodes.v ===== *)
(** * The emitted code computes what the evaluator says

    [sound] compares a run of the code with an outcome of [Lower.eval]: the value on top of the
    stack at the end of the code, the same error inside it, the same exit from the method, or,
    for a loop that has used up its rounds, a run at least as long as the rounds. *)
From stdpp Require Import base numbers list strings gmap.
From stdpp Require Import options.
From S2P Require Import Prelude Instr Exec Fuse FuseMap FuseSim Lower LowerCode.
Local Open Scope nat_scope.

Section sound.
Context `{Machine W} (fr : FrameInfo) (C : list Instruction).
Context (HC : (Z.of_nat (length C) < 2 ^ 63)%Z).

Definition reaches (c c' : Config (W:=W)) : Prop := ∃ n, run fr C n c = c'.
Definition lasts (f : nat) (c : Config (W:=W)) : Prop := ∃ n, f ≤ n ∧ running (run fr C n c).

Definition sound (f lo hi : nat) (c0 : Config (W:=W)) (pc' : nat) (s : list Value) (o : Out (W:=W)) : Prop :=
  match o with
  | Val v m => reaches c0 (At pc' (vm_of (v :: s) m))
  | Fails e m => ∃ ip a, lo ≤ ip < hi ∧ reaches c0 (Failed ip a e m.1 m.2)
  | MethodResult v m => reaches c0 (ReturnedFromMethod v m.1 m.2)
  | Gone => reaches c0 Away
  | More => lasts f c0
  end.

Lemma reaches_refl c : reaches c c.
Proof using. by exists 0. Qed.

Lemma reaches_trans c1 c2 c3 : reaches c1 c2 → reaches c2 c3 → reaches c1 c3.
Proof using. intros [n <-] [m <-]. exists (n + m). apply run_add. Qed.

Lemma reaches_step c c' : reaches (step fr C c) c' → reaches c c'.
Proof using. intros [n <-]. exists (S n). apply run_S. Qed.

Lemma lasts_reaches f c c' : reaches c c' → lasts f c' → lasts f c.
Proof using. intros [n <-] (m & Hm & Hr). exists (n + m). rewrite run_add. split; [lia|done]. Qed.

Lemma sound_reaches f lo hi c c' pc' s o :
  reaches c c' → sound f lo hi c' pc' s o → sound f lo hi c pc' s o.
Proof using.
  intros Hr. destruct o; cbn; [| |by apply reaches_trans..|by apply lasts_reaches].
  - by apply reaches_trans.
  - intros (ip & a & Hip & Hf). exists ip, a. split; [done|]. by eapply reaches_trans.
Qed.

Lemma sound_step f lo hi c pc' s o :
  sound f lo hi (step fr C c) pc' s o → sound f lo hi c pc' s o.
Proof using. apply sound_reaches. apply reaches_step, reaches_refl. Qed.

(** A loop that goes round once more has run one step more. *)
Lemma sound_round f lo hi c pc' s o :
  sound f lo hi (step fr C c) pc' s o → sound (S f) lo hi c pc' s o.
Proof using.
  destruct o; try apply (sound_step f); cbn.
  intros (n & Hn & Hr). exists (S n). split; [lia|]. by rewrite run_S.
Qed.

Lemma sound_less f f' lo hi c pc' s o :
  f' ≤ f → sound f lo hi c pc' s o → sound f' lo hi c pc' s o.
Proof using. destruct o; cbn; try done. intros Hf (n & Hn & Hr). exists n. split; [lia|done]. Qed.

Lemma sound_widen f lo hi lo' hi' c pc' s o :
  lo' ≤ lo → hi ≤ hi' → sound f lo hi c pc' s o → sound f lo' hi' c pc' s o.
Proof using. destruct o; cbn; try done. intros Hl Hh (ip & a & Hip & Hr). exists ip, a. split; [lia|done]. Qed.

Lemma sound_bind f lo hi c mid s1 pc' s o k :
  sound f lo hi c mid s1 o →
  (∀ v m, o = Val v m → sound f lo hi (At mid (vm_of (v :: s1) m)) pc' s (k v m)) →
  sound f lo hi c pc' s (obind o k).
Proof using.
  intros Ho Hk. destruct o; try done. cbn in *. eapply sound_reaches; [done|]. by apply Hk.
Qed.

(** ** Single instructions *)

Lemma step_instr pc i st : C !! pc = Some i → step fr C (At pc st) = execute fr pc i st.
Proof using. apply step_at. Qed.

Lemma jump_lands pc t off :
  t ≤ length C → Z.of_nat t = (Z.of_nat pc + off)%Z → jump_to pc off = t.
Proof using HC. intros Ht E. unfold jump_to. rewrite <- E, Z.mod_small by lia. lia. Qed.

Lemma sound_value f lo hi pc s v m : sound f lo hi (At pc (vm_of (v :: s) m)) pc s (Val v m).
Proof using. apply reaches_refl. Qed.

Lemma sound_answer f pc adv below a :
  sound f pc (S pc) (answer pc adv below a) (S pc) below (of_answer a).
Proof using.
  destruct a as [[[[v|e] h] w]|]; cbn; [apply reaches_refl| |apply reaches_refl].
  eexists pc, _. split; [lia|]. apply reaches_refl.
Qed.

Lemma take_args_app vs s : take_args (length vs) (rev vs ++ s) = Some (vs, s).
Proof using.
  clear C HC. unfold take_args. rewrite decide_True by (rewrite length_app, length_rev; lia).
  rewrite take_app_length', drop_app_length' by (by rewrite length_rev). by rewrite rev_involutive.
Qed.

Lemma sound_send f pc sel vs r s m :
  sound f pc (S pc) (exec_send fr pc sel (length vs) (vm_of (rev vs ++ r :: s) m)) (S pc) s
    (send fr sel r vs m).
Proof using.
  unfold exec_send. cbn [stack vm_of]. rewrite take_args_app. apply sound_answer.
Qed.

Lemma sound_binary f pc op a b s m :
  sound f pc (S pc) (execute fr pc (binary_instr op) (vm_of (b :: a :: s) m)) (S pc) s
    (binary fr op a b m).
Proof using.
  assert (∀ sel, sound f pc (S pc) (exec_send fr pc sel 1 (vm_of (b :: a :: s) m)) (S pc) s
                   (send fr sel a [b] m)) as Hs by (intros sel; apply (sound_send f pc sel [b])).
  assert (∀ r, sound f pc (S pc) (computed pc r (vm_of s m)) (S pc) s (of_result r m)) as Hc.
  { intros [v|e]; cbn; [apply reaches_refl|]. eexists pc, _. split; [lia|]. apply reaches_refl. }
  destruct op as [k|k|sel]; cbn [binary_instr binary]; [| |apply Hs].
  - rewrite (execute_int_op fr pc _ k) by (by destruct k). unfold int_op, take_two_ints.
    cbn [stack vm_of]. destruct b, a; first [apply Hs|apply Hc].
  - rewrite (execute_double_op fr pc _ k) by (by destruct k). unfold double_op, take_two_doubles.
    cbn [stack vm_of]. destruct b, a; first [apply Hs|apply reaches_refl].
Qed.

Lemma constant_stack c s m :
  materialize_constant fr c (vm_of s m) =
  (let '(v, m') := constant fr c m in (v, vm_of s m')).
Proof using. 
  destruct m as [h w]. unfold constant.
  destruct c; cbn [materialize_constant]; try done; cbn [vm_of envs world stack fst snd];
    by destruct (new_object _ fr h w).
Qed.

Lemma step_push pc c s m :
  C !! pc = Some (Push c) →
  step fr C (At pc (vm_of s m)) =
  (let '(v, m') := constant fr c m in At (S pc) (vm_of (v :: s) m')).
Proof using.
  intros Hi. rewrite (step_instr _ _ _ Hi). cbn [execute]. rewrite constant_stack.
  by destruct (constant fr c m).
Qed.

Lemma obind_val (o : Out (W:=W)) : obind o Val = o.
Proof using. by destruct o. Qed.

(** A store takes the value off the stack; what is below it is what goes on. *)
Lemma sound_store f lo hi pc t v s m pc' s' k :
  C !! pc = Some (store_instr t) → lo ≤ pc < hi →
  (∀ m', sound f lo hi (At (S pc) (vm_of s m')) pc' s' (k v m')) →
  sound f lo hi (At pc (vm_of (v :: s) m)) pc' s' (obind (assign fr t v m) k).
Proof using.
  intros Hi Hb Hk. apply sound_step. rewrite (step_instr _ _ _ Hi).
  destruct (is_store (store_instr t)) eqn:Hs.
  - rewrite (execute_store fr) by done. unfold pop. cbn [stack vm_of].
    change (set_stack s (vm_of (v :: s) m)) with (set_stack s (vm_of [] m)).
    assert (assign fr t v m = of_store v (store_value fr (store_instr t) v (vm_of [] m))) as ->
      by (by destruct t).
    rewrite store_value_set_stack.
    destruct (store_value _ _ _ _) as [st|[e st]]; cbn; [apply Hk|].
    eexists pc, _. split; [lia|]. apply reaches_refl.
  - destruct t as [| | |g]; try done. cbn [store_instr execute assign].
    unfold exec_other, perform. cbn [effect stack vm_of].
    change (v :: s) with (rev [v] ++ s). rewrite (take_args_app [v] s : take_args 1 _ = _).
    cbn [envs world].
    destruct (operate _ _ _ _ _) as [[[[r|e] h] w]|]; cbn [answer of_answer of_result obind].
    + apply (Hk (h, w)).
    + eexists pc, _. split; [lia|]. apply reaches_refl.
    + apply reaches_refl.
Qed.

Lemma sound_assign f pc t v s m :
  C !! pc = Some Dup → C !! S pc = Some (store_instr t) →
  sound f pc (S (S pc)) (At pc (vm_of (v :: s) m)) (S (S pc)) s (assign fr t v m).
Proof using.
  intros H0 H1. apply sound_step. rewrite (step_instr _ _ _ H0). cbn.
  rewrite <- (obind_val (assign _ _ _ _)). apply (sound_store f _ _ (S pc)); [done|lia|].
  intros m'. apply sound_value.
Qed.

End sound.

(** * Soundness of the emitted code, node by node

    The induction over nodes: for every form of node the code computes the outcome of the
    evaluator, wherever the code stands in a buffer and whatever lies below on the stack. *)
Local Open Scope nat_scope.

Section nodes.
Context `{Machine W} (fr : FrameInfo) (C : list Instruction) (f : nat).
Context (HC : (Z.of_nat (length C) < 2 ^ 63)%Z).

(** The code of a construct at [pc], from any memory and any stack. *)
Definition computes (k : nat) (code : list Instruction) (ev : Mem (W:=W) → Out (W:=W)) : Prop :=
  ∀ pc s m, code_at C pc code →
    sound fr C k pc (pc + length code) (At pc (vm_of s m)) (pc + length code) s (ev m).

Definition sound_node (n : Node) : Prop := computes f (compile_node n) (eval fr f n).

(** A piece of code and what follows it; a piece of code that is the end. *)
Lemma bind_at k c ev g pc s lo hi pc' s' m :
  computes k c ev → code_at C pc c → lo ≤ pc → pc + length c ≤ hi →
  (∀ v m', sound fr C k lo hi (At (pc + length c) (vm_of (v :: s) m')) pc' s' (g v m')) →
  sound fr C k lo hi (At pc (vm_of s m)) pc' s' (obind (ev m) g).
Proof using.
  intros Hc Hat Hlo Hhi Hk. eapply sound_bind; [|intros v m' _; apply Hk].
  eapply sound_widen; [exact Hlo|exact Hhi|]. by apply Hc.
Qed.

Lemma tail_at k c ev pc s lo hi pc' m :
  computes k c ev → code_at C pc c → lo ≤ pc → pc + length c ≤ hi → pc' = pc + length c →
  sound fr C k lo hi (At pc (vm_of s m)) pc' s (ev m).
Proof using.
  intros Hc Hat Hlo Hhi ->. eapply sound_widen; [exact Hlo|exact Hhi|]. by apply Hc.
Qed.

Lemma sound_jump k lo hi pc off t st pc' s o :
  C !! pc = Some (Jump off) → t ≤ length C → Z.of_nat t = (Z.of_nat pc + off)%Z →
  sound fr C k lo hi (At t st) pc' s o → sound fr C k lo hi (At pc st) pc' s o.
Proof using HC.
  intros Hi Ht E Hs. apply sound_step. rewrite (step_instr _ _ _ _ _ Hi). cbn [execute].
  by rewrite (jump_lands _ HC _ _ _ Ht E).
Qed.

(** [ElseJump]: the next instruction on a truthy value, the target on another. *)
Lemma sound_else_jump k lo hi pc off t v s m pc' s' o :
  C !! pc = Some (ElseJump off) → t ≤ length C → Z.of_nat t = (Z.of_nat pc + off)%Z →
  sound fr C k lo hi (At (if is_truthy v then S pc else t) (vm_of s m)) pc' s' o →
  sound fr C k lo hi (At pc (vm_of (v :: s) m)) pc' s' o.
Proof using HC.
  intros Hi Ht E Hs. apply sound_step. rewrite (step_instr _ _ _ _ _ Hi). cbn.
  by rewrite (jump_lands _ HC _ _ _ Ht E).
Qed.

Lemma sound_if_jump k lo hi pc off t v s m pc' s' o :
  C !! pc = Some (IfJump off) → t ≤ length C → Z.of_nat t = (Z.of_nat pc + off)%Z →
  sound fr C k lo hi (At (if is_truthy v then t else S pc) (vm_of s m)) pc' s' o →
  sound fr C k lo hi (At pc (vm_of (v :: s) m)) pc' s' o.
Proof using HC.
  intros Hi Ht E Hs. apply sound_step. rewrite (step_instr _ _ _ _ _ Hi). cbn.
  by rewrite (jump_lands _ HC _ _ _ Ht E).
Qed.

Lemma sound_branch_bool k lo hi pc off t v s m pc' s' o :
  C !! pc = Some (BranchIfNotBool off) → t ≤ length C → Z.of_nat t = (Z.of_nat pc + off)%Z →
  sound fr C k lo hi (At (if is_bool v then S pc else t) (vm_of (v :: s) m)) pc' s' o →
  sound fr C k lo hi (At pc (vm_of (v :: s) m)) pc' s' o.
Proof using HC.
  intros Hi Ht E Hs. apply sound_step. rewrite (step_instr _ _ _ _ _ Hi). cbn.
  rewrite (jump_lands _ HC _ _ _ Ht E). by destruct v.
Qed.

Lemma sound_pop k lo hi pc v s m pc' s' o :
  C !! pc = Some Pop → sound fr C k lo hi (At (S pc) (vm_of s m)) pc' s' o →
  sound fr C k lo hi (At pc (vm_of (v :: s) m)) pc' s' o.
Proof using. intros Hi Hs. apply sound_step. by rewrite (step_instr _ _ _ _ _ Hi). Qed.

Lemma sound_dup k lo hi pc v s m pc' s' o :
  C !! pc = Some Dup → sound fr C k lo hi (At (S pc) (vm_of (v :: v :: s) m)) pc' s' o →
  sound fr C k lo hi (At pc (vm_of (v :: s) m)) pc' s' o.
Proof using. intros Hi Hs. apply sound_step. by rewrite (step_instr _ _ _ _ _ Hi). Qed.

Lemma sound_push k lo hi pc c s m pc' s' o :
  C !! pc = Some (Push c) →
  (∀ v m', constant fr c m = (v, m') → sound fr C k lo hi (At (S pc) (vm_of (v :: s) m')) pc' s' o) →
  sound fr C k lo hi (At pc (vm_of s m)) pc' s' o.
Proof using.
  intros Hi Hs. apply sound_step. rewrite (step_push _ _ _ _ _ _ Hi).
  destruct (constant fr c m) as [v m']. by apply Hs.
Qed.


(** ** Spliced bodies *)

(** Names the instructions of a piece of code and the pieces it is made of. *)
Ltac codes Hat :=
  lazymatch type of Hat with
  | code_at _ _ (_ ++ _) =>
      let Hl := fresh "At" in let Hr := fresh "At" in
      pose proof (code_at_app_l _ _ _ _ Hat) as Hl; pose proof (code_at_app_r _ _ _ _ Hat) as Hr;
      codes Hl; codes Hr
  | code_at _ _ (_ :: _) =>
      let Hi := fresh "Is" in let Hr := fresh "At" in
      pose proof (code_at_head _ _ _ _ Hat) as Hi; pose proof (code_at_tail _ _ _ _ Hat) as Hr;
      codes Hr
  | _ => idtac
  end.

Ltac pcs := unfold len in *; rewrite ?length_app in *; cbn [length] in *; rewrite ?length_app in *; cbn [length] in *; lia.

Lemma eval_stmts_cons (ev : Node → Mem → Out) n s2 rest m :
  eval_stmts (W:=W) ev (SExpr n :: s2 :: rest) m =
  obind (ev n m) (λ _ m, eval_stmts ev (s2 :: rest) m).
Proof using. done. Qed.

Lemma sound_spliced stmts :
  all_stmts sound_node stmts → stmts ≠ [] →
  computes f (spliced stmts) (eval_stmts (eval fr f) stmts).
Proof using HC.
  induction 1 as [|stmt rest Hs Hr IH]; intros Hne pc s m Hat; [done|].
  pose proof (code_at_bound _ _ _ Hat) as Hb.
  cbn [spliced] in *. destruct stmt as [n|v]; cbn in Hs.
  - destruct rest as [|s2 rest].
    + cbn [rest_of] in *. rewrite app_nil_r in *. by apply Hs.
    + cbn [rest_of] in *. codes Hat. rewrite eval_stmts_cons.
      eapply bind_at; [exact Hs|done|lia|pcs|]. intros v m'.
      eapply sound_pop; [done|].
      eapply (tail_at f _ (eval_stmts (eval fr f) (s2 :: rest))); [by apply IH|done|lia|pcs|pcs].
  - codes Hat. cbn [eval_stmts]. rewrite <- (obind_val (eval fr f v m)).
    eapply bind_at; [exact Hs|done|lia|pcs|]. intros r m'.
    eapply sound_jump; [done| | |apply sound_value]; pcs.
Qed.

Lemma sound_body stmts :
  all_stmts sound_node stmts →
  computes f (inline_block_body compile_node stmts) (eval_stmts (eval fr f) stmts).
Proof using HC.
  rewrite inline_block_body_spec. intros Hs. destruct stmts as [|stmt rest].
  - cbn [body_code]. intros pc s m Hat. codes Hat. eapply sound_push; [done|].
    intros v m' [= <- <-]. cbn [length]. rewrite Nat.add_1_r. destruct m. apply sound_value.
  - by apply sound_spliced.
Qed.

(** ** Arguments *)

Lemma sound_args args vs pc s lo hi pc' s' m k :
  Forall sound_node args → code_at C pc (concat (map compile_node args)) →
  lo ≤ pc → pc + length (concat (map compile_node args)) ≤ hi →
  (∀ vs' m', length vs' = length vs + length args →
     sound fr C f lo hi (At (pc + length (concat (map compile_node args))) (vm_of (rev vs' ++ s) m'))
       pc' s' (k vs' m')) →
  sound fr C f lo hi (At pc (vm_of (rev vs ++ s) m)) pc' s' (eval_args (eval fr f) args vs m k).
Proof using.
  intros Hs. revert pc vs m. induction Hs as [|a args Ha Hs IH]; intros pc vs m Hat Hlo Hhi Hk.
  - cbn in *. specialize (Hk vs m). rewrite !Nat.add_0_r in Hk. by apply Hk.
  - cbn [map concat eval_args] in *. codes Hat. rewrite length_app in *.
    eapply bind_at; [exact Ha|done|lia|lia|]. intros v m'.
    specialize (IH (pc + length (compile_node a)) (vs ++ [v]) m').
    rewrite rev_app_distr in IH. apply IH; [done|lia|lia|].
    intros vs' m2 Hl. rewrite <- Nat.add_assoc. apply Hk. rewrite Hl, length_app. cbn. lia.
Qed.

Lemma sound_send_at pc sel vs r s lo hi m pc' :
  C !! pc = Some (Send sel (length vs)) → lo ≤ pc → pc < hi → pc' = S pc →
  sound fr C f lo hi (At pc (vm_of (rev vs ++ r :: s) m)) pc' s (send fr sel r vs m).
Proof using.
  intros Hi Hlo Hhi ->. apply sound_step. rewrite (step_instr _ _ _ _ _ Hi). cbn [execute].
  eapply sound_widen; [exact Hlo|exact Hhi|]. apply sound_send.
Qed.

Lemma sound_perform_at pc i n vs s lo hi m pc' :
  C !! pc = Some i → (∀ st, execute fr pc i st = exec_other fr pc i st) → effect i = Some (n, true) →
  length vs = n → lo ≤ pc → pc < hi → pc' = S pc →
  sound fr C f lo hi (At pc (vm_of (rev vs ++ s) m)) pc' s (perform fr i vs m).
Proof using.
  intros Hi He Hn <- Hlo Hhi ->. apply sound_step. rewrite (step_instr _ _ _ _ _ Hi), He.
  unfold exec_other. rewrite Hn. cbn [stack vm_of]. rewrite take_args_app.
  eapply sound_widen; [exact Hlo|exact Hhi|].
  unfold perform. cbn [envs world vm_of].
  pose proof (sound_answer fr C f pc (operate_advanced i vs fr m.1 m.2) s (operate i vs fr m.1 m.2)) as Ha.
  destruct (operate i vs fr m.1 m.2) as [[[[v|e] h] w]|]; exact Ha.
Qed.

(** The cells of the arguments of an inlined body. *)
Lemma sound_binds binds pc s lo hi pc' s' m k :
  let code := concat (map (λ b, compile_node b.2 ++ [DefineLocal b.1]) binds) in
  Forall (λ b, sound_node b.2) binds → code_at C pc code → lo ≤ pc → pc + length code ≤ hi →
  (∀ m', sound fr C f lo hi (At (pc + length code) (vm_of s m')) pc' s' (k m')) →
  sound fr C f lo hi (At pc (vm_of s m)) pc' s' (eval_binds fr (eval fr f) binds m k).
Proof using.
  cbn zeta. intros Hs. revert pc m. induction Hs as [|[x e] binds He Hs IH]; intros pc m Hat Hlo Hhi Hk.
  - cbn in *. specialize (Hk m). by rewrite Nat.add_0_r in Hk.
  - cbn [map concat eval_binds fst snd] in *. rewrite !length_app in *. cbn [length] in *. codes Hat.
    eapply bind_at; [exact He|done|lia|lia|]. intros v m1.
    apply (sound_store fr C f lo hi _ (ToNewLocal x)); [done|lia|]. intros m2.
    apply IH; [|lia|lia|].
    + match goal with Hx : code_at C _ (concat _) |- _ => rewrite length_app in Hx; cbn [length] in Hx end.
      by replace (S (pc + length (compile_node e))) with (pc + (length (compile_node e) + 1)) by lia.
    + intros m'. by replace (S (pc + length (compile_node e)) +
        length (concat (map (λ b, compile_node b.2 ++ [DefineLocal b.1]) binds))) with
        (pc + (length (compile_node e) + 1 +
          length (concat (map (λ b, compile_node b.2 ++ [DefineLocal b.1]) binds)))) by lia.
Qed.

(** ** Conditionals *)

Lemma sound_conditional t e v pc s lo hi pc' m :
  all_stmts sound_node t → (∀ b, e = Some b → all_stmts sound_node b) →
  code_at C pc (inline_conditional_body compile_node t e) →
  lo ≤ pc → pc + length (inline_conditional_body compile_node t e) ≤ hi →
  pc' = pc + length (inline_conditional_body compile_node t e) →
  sound fr C f lo hi (At pc (vm_of (v :: s) m)) pc' s
    (if is_truthy v then eval_stmts (eval fr f) t m
     else match e with Some e => eval_stmts (eval fr f) e m | None => Val VNil m end).
Proof using HC.
  intros Ht He Hat Hlo Hhi ->. pose proof (code_at_bound _ _ _ Hat) as Hb.
  pose proof (sound_body _ Ht) as Ht'.
  destruct e as [b|]; unfold inline_conditional_body in *;
    set (tc := inline_block_body compile_node t) in *; codes Hat.
  - pose proof (sound_body _ (He b eq_refl)) as He'.
    set (ec := inline_block_body compile_node b) in *.
    eapply (sound_else_jump _ _ _ _ _ (S (S pc + length tc))); [done|pcs|pcs|].
    destruct (is_truthy v).
    + rewrite <- (obind_val (eval_stmts (eval fr f) t m)).
      eapply bind_at; [exact Ht'|done|lia|pcs|]. intros r m'.
      eapply sound_jump; [done| | |apply sound_value]; pcs.
    + eapply (tail_at f _ (eval_stmts (eval fr f) b)); [exact He'|done|lia|pcs|pcs].
  - eapply (sound_else_jump _ _ _ _ _ (S (S pc + length tc))); [done|pcs|pcs|].
    destruct (is_truthy v).
    + rewrite <- (obind_val (eval_stmts (eval fr f) t m)).
      eapply bind_at; [exact Ht'|done|lia|pcs|]. intros r m'.
      eapply sound_jump; [done| | |apply sound_value]; pcs.
    + eapply sound_push; [done|]. intros r m' [= <- <-].
      replace (S (S (S pc + length tc))) with
        (pc + length (ElseJump (len tc + 2) :: tc ++ [Jump 2; Push CNil])) by pcs.
      destruct m. apply sound_value.
Qed.

Lemma sound_cold ct ce v pc s lo hi pc' m :
  code_at C pc (cold_conditional ct ce) → lo ≤ pc → pc + length (cold_conditional ct ce) ≤ hi →
  pc' = pc + length (cold_conditional ct ce) →
  sound fr C f lo hi (At pc (vm_of (v :: s) m)) pc' s (send_conditional fr ct ce v m).
Proof using.
  intros Hat Hlo Hhi ->. unfold send_conditional.
  destruct ce as [ce|]; cbn [cold_conditional length] in *; codes Hat.
  - eapply sound_push; [done|]. intros t m1 ->. eapply sound_push; [done|]. intros e m2 ->.
    apply (sound_send_at _ _ [t; e]); [done|lia..].
  - eapply sound_push; [done|]. intros t m1 ->.
    apply (sound_send_at _ _ [t]); [done|lia..].
Qed.

Lemma sound_if cold subj t e :
  sound_node subj → all_stmts sound_node t → (∀ b, e = Some b → all_stmts sound_node b) →
  sound_node (NIf cold subj t e).
Proof using HC.
  intros Hsubj Ht He pc s m Hat. pose proof (code_at_bound _ _ _ Hat) as Hb.
  cbn [compile_node eval] in *. unfold inlined_conditional in *. codes Hat.
  eapply bind_at; [exact Hsubj|done|lia|pcs|]. intros v m'. unfold eval_if.
  destruct cold as [[ct ce]|]; [|eapply sound_conditional; [done..|lia|pcs|pcs]].
  set (hot := inline_conditional_body compile_node t e) in *.
  match goal with Hx : code_at _ _ (BranchIfNotBool _ :: _) |- _ => codes Hx end.
  eapply (sound_branch_bool _ _ _ _ _ (S (S (pc + length (compile_node subj)) + length hot)));
    [done|pcs|pcs|].
  destruct (is_bool v).
  - match goal with |- sound _ _ _ _ _ _ _ _ ?o => rewrite <- (obind_val o) end.
    eapply sound_bind; [eapply sound_conditional; [done..|lia|fold hot; pcs|reflexivity]|].
    intros r m2 _. fold hot. eapply sound_jump; [done| | |apply sound_value]; pcs.
  - eapply sound_cold; [done|lia|pcs|pcs].
Qed.

(** ** Loops *)

Lemma step_require_bool pc v s m :
  C !! pc = Some RequireBool →
  step fr C (At pc (vm_of (v :: s) m)) =
  if is_bool v then At (S pc) (vm_of (v :: s) m)
  else Failed pc false (not_a_condition v m) m.1 m.2.
Proof using. intros Hi. rewrite (step_instr _ _ _ _ _ Hi). cbn. by destruct v. Qed.

(** The check of a condition and the jump out of the loop, to [t] with the stack as it was. *)
Lemma sound_loop_test k (strict : bool) lo hi pc off t v s m pc' o :
  code_at C pc ((if strict then [RequireBool] else []) ++ [ElseJump off]) →
  t ≤ length C → lo ≤ pc →
  pc + length (if strict then [RequireBool] else []) < hi →
  Z.of_nat t = (Z.of_nat (pc + length (if strict then [RequireBool] else [])) + off)%Z →
  sound fr C k lo hi
    (At (if is_truthy v then S (pc + length (if strict then [RequireBool] else [])) else t) (vm_of s m))
    pc' s o →
  sound fr C k lo hi (At pc (vm_of (v :: s) m)) pc' s
    (if strict && negb (is_bool v) then Fails (not_a_condition v m) m else o).
Proof using HC.
  intros Hat Ht Hlo Hhi E Hs. destruct strict; cbn [app length andb] in *; codes Hat.
  - apply sound_step. rewrite step_require_bool by done.
    destruct (is_bool v); cbn [negb].
    + replace (pc + 1) with (S pc) in * by lia. by eapply sound_else_jump.
    + eexists pc, _. split; [lia|]. apply reaches_refl.
  - rewrite Nat.add_0_r in *. by eapply sound_else_jump.
Qed.

Lemma sound_loop strict c b pc s m k :
  all_stmts sound_node c → all_stmts sound_node b →
  code_at C pc (inlined_while compile_node strict c b) → k ≤ f →
  sound fr C k pc (pc + length (inlined_while compile_node strict c b)) (At pc (vm_of s m))
    (pc + length (inlined_while compile_node strict c b)) s
    (eval_while (eval fr f) strict c b k m).
Proof using HC.
  intros Hc Hb Hat Hk. pose proof (code_at_bound _ _ _ Hat) as Hbound.
  pose proof (sound_body _ Hc) as Hc'. pose proof (sound_body _ Hb) as Hb'.
  remember (pc + length (inlined_while compile_node strict c b)) as pc' eqn:Epc'.
  unfold inlined_while in Hat, Epc'. rewrite <- app_assoc in Hat.
  remember (if strict then [RequireBool] else []) as rq eqn:Erq.
  remember (inline_block_body compile_node c) as cc eqn:Ecc.
  remember (inline_block_body compile_node b) as bc eqn:Ebc.
  remember (len (cc ++ rq)) as lc eqn:Elc. remember (len bc) as lb eqn:Elb.
  pose proof (code_at_app_l _ _ _ _ Hat) as Hcc.
  pose proof (code_at_app_r _ _ _ _ Hat) as Hrest. rewrite app_assoc in Hrest.
  pose proof (code_at_app_l _ _ _ _ Hrest) as Htest.
  pose proof (code_at_app_r _ _ _ _ Hrest) as Hbody. codes Hbody.
  set (pt := pc + length cc) in *. set (pb := pt + length (rq ++ [ElseJump (lb + 3)])) in *.
  assert (pb = S (pt + length rq)) as Epb by (unfold pb; rewrite length_app; cbn; lia).
  assert (pc' = S (S (S (pb + length bc)))) as Eend.
  { rewrite Epc', Epb. unfold pt. rewrite !length_app. cbn [length app]. lia. }
  assert (pc' ≤ length C) as Hend by (cbn in *; lia).
  clear Hbound Epc' Hat Hrest. revert m Hk. induction k as [|k IH]; intros m Hk.
  { exists 0. split; [lia|done]. }
  change (eval_while (eval fr f) strict c b (S k) m) with
    (obind (eval_stmts (eval fr f) c m) (λ v m,
       if strict && negb (is_bool v) then Fails (not_a_condition v m) m
       else if is_truthy v then
         obind (eval_stmts (eval fr f) b m) (λ _ m, eval_while (eval fr f) strict c b k m)
       else Val VNil m)).
  eapply bind_at; [intros ? ? ? ?; eapply sound_less; [exact Hk|by apply Hc']|exact Hcc|lia|unfold pt in *; lia|].
  intros v m1. fold pt.
  eapply (sound_loop_test _ _ _ _ _ (lb + 3) (S (S (pb + length bc)))).
  - subst rq. exact Htest.
  - lia.
  - unfold pt. lia.
  - rewrite <- Erq. lia.
  - rewrite <- Erq, Elb. unfold len. lia.
  - rewrite <- Erq, <- Epb. destruct (is_truthy v).
    + eapply bind_at; [intros ? ? ? ?; eapply sound_less; [exact Hk|by apply Hb']|exact At|unfold pt in *; lia|lia|].
      intros r m2. apply sound_round. rewrite (step_instr _ _ _ _ _ Is). cbn.
      eapply sound_jump; [done| | |apply IH; lia]; [lia|].
      rewrite Elc, Elb, Epb. unfold len, pt. rewrite length_app. lia.
    + eapply sound_push; [done|]. intros r m2 [= <- <-]. rewrite Eend.
      destruct m1. apply sound_value.
Qed.

(** ** Every node *)

Lemma sound_short_circuit (and_ : bool) l r :
  sound_node l → sound_node r → sound_node (if and_ then NAnd l r else NOr l r).
Proof using HC.
  intros Hl Hr pc s m Hat. pose proof (code_at_bound _ _ _ Hat) as Hb.
  destruct and_; cbn [compile_node eval app] in *; codes Hat.
  all: eapply bind_at; [exact Hl|done|lia|pcs|]; intros v m'.
  all: eapply sound_dup; [done|].
  - eapply (sound_else_jump _ _ _ _ _ (pc + length (compile_node (NAnd l r))));
      [done|cbn [compile_node]; pcs|cbn [compile_node]; pcs|].
    destruct (is_truthy v); [|apply sound_value].
    eapply sound_pop; [done|].
    eapply (tail_at f _ (eval fr f r)); [exact Hr|done|lia|pcs|cbn [compile_node]; pcs].
  - eapply (sound_if_jump _ _ _ _ _ (pc + length (compile_node (NOr l r))));
      [done|cbn [compile_node]; pcs|cbn [compile_node]; pcs|].
    destruct (is_truthy v); [apply sound_value|].
    eapply sound_pop; [done|].
    eapply (tail_at f _ (eval fr f r)); [exact Hr|done|lia|pcs|cbn [compile_node]; pcs].
Qed.

Lemma sound_leaf n i v :
  compile_node n = [i] → (∀ m, eval fr f n m = Val (v m) m) →
  (∀ pc s m, execute fr pc i (vm_of s m) = At (S pc) (vm_of (v m :: s) m)) → sound_node n.
Proof using.
  intros Hc He Hx pc s m Hat. rewrite Hc, He in *. codes Hat. apply sound_step.
  rewrite (step_instr _ _ _ _ _ Is), Hx. cbn [length]. rewrite Nat.add_1_r. apply sound_value.
Qed.

Theorem compile_node_sound n : sound_node n.
Proof using HC.
  induction n as [c|name|fld|g|t e IH|l r IHl IHr|l r IHl IHr|op l r IHl IHr|sel e IH
    |subj sel args IHs IHa|vs IH|e IH|cold subj t e IHs IHt IHe|strict c b IHc IHb
    |subj fld IH|binds body IHa IHb] using Node_induction.
  - intros pc s m Hat. cbn [compile_node eval] in *. codes Hat. eapply sound_push; [done|].
    intros v m' ->. cbn [length]. rewrite Nat.add_1_r. apply sound_value.
  - by eapply sound_leaf.
  - by eapply sound_leaf.
  - intros pc s m Hat. cbn [compile_node eval] in *. codes Hat.
    eapply (sound_perform_at _ _ 0 []); [done..|cbn; lia|cbn; lia].
  - intros pc s m Hat. cbn [compile_node eval] in *. codes Hat.
    eapply bind_at; [exact IH|done|lia|pcs|]. intros v m'.
    replace (pc + length (compile_node e ++ [Dup; store_instr t])) with
      (S (S (pc + length (compile_node e)))) by pcs.
    eapply sound_widen; [| |by apply sound_assign]; lia.
  - by apply (sound_short_circuit true).
  - by apply (sound_short_circuit false).
  - intros pc s m Hat. cbn [compile_node eval] in *. codes Hat.
    eapply bind_at; [exact IHl|done|lia|pcs|]. intros a m1.
    eapply bind_at; [exact IHr|done|lia|pcs|]. intros b m2.
    apply sound_step. rewrite (step_instr _ _ _ _ _ Is).
    replace (pc + length (compile_node l ++ compile_node r ++ [binary_instr op])) with
      (S (pc + length (compile_node l) + length (compile_node r))) by pcs.
    eapply sound_widen; [| |apply sound_binary]; lia.
  - intros pc s m Hat. cbn [compile_node eval] in *. codes Hat.
    eapply bind_at; [exact IH|done|lia|pcs|]. intros v m'.
    eapply (sound_send_at _ _ []); [done|lia|pcs|pcs].
  - intros pc s m Hat. cbn [compile_node eval] in *. codes Hat.
    eapply bind_at; [exact IHs|done|lia|pcs|]. intros v m'.
    eapply (sound_args args []); [exact IHa|done|lia|pcs|]. intros vs' m2 Hl.
    cbn in Hl. rewrite <- Hl in Is. eapply sound_send_at; [done|lia|pcs|pcs].
  - intros pc s m Hat. cbn [compile_node eval] in *. codes Hat.
    eapply (sound_args vs []); [exact IH|done|lia|pcs|]. intros vs' m2 Hl. cbn in Hl.
    rewrite <- Hl in *. eapply sound_perform_at; [done|done|done|done|lia|pcs|pcs].
  - intros pc s m Hat. cbn [compile_node eval] in *. codes Hat.
    eapply bind_at; [exact IH|done|lia|pcs|]. intros v m'.
    apply sound_step. rewrite (step_instr _ _ _ _ _ Is). cbn. apply reaches_refl.
  - by apply sound_if.
  - intros pc s m Hat. cbn [compile_node eval] in *. by apply sound_loop.
  - intros pc s m Hat. cbn [compile_node eval] in *. codes Hat.
    eapply bind_at; [exact IH|done|lia|pcs|]. intros v m'.
    apply sound_step. rewrite (step_instr _ _ _ _ _ Is). cbn.
    replace (pc + length (compile_node subj ++ [LoadFieldOf fld])) with
      (S (pc + length (compile_node subj))) by pcs. destruct m'. apply reaches_refl.
  - intros pc s m Hat. cbn [compile_node eval] in *. unfold inline_body_with_args in *.
    pose proof (code_at_app_l _ _ _ _ Hat) as Ha. pose proof (code_at_app_r _ _ _ _ Hat) as Hb.
    rewrite length_app. apply sound_binds; [done|done|lia|lia|]. intros m'.
    eapply (tail_at f _ (eval_stmts (eval fr f) body)); [by apply sound_body|exact Hb|lia|lia|lia].
Qed.

End nodes.
