(* ===== verification/LowerProps.v ===== *)
(** * What a compiled block does

    The lowering and the peephole pass together: a frame that runs the finished code of a block
    ends as the evaluator says, and runs as long as a loop of the block does. *)
From stdpp Require Import base numbers list strings gmap.
From stdpp Require Import options.
From S2P Require Import Prelude Instr Exec Fuse FuseMap FuseSim FuseProps Lower LowerCode LowerNodes.
Local Open Scope nat_scope.

Section blocks.
Context `{Machine W} (fr : FrameInfo) (C : list Instruction) (f : nat).
Context (HC : (Z.of_nat (length C) < 2 ^ 63)%Z).

(** How a frame ends for an outcome of its block. *)
Definition ends (c0 : Config (W:=W)) (o : Out (W:=W)) : Prop :=
  match o with
  | Val v m => reaches fr C c0 (Returned v m.1 m.2)
  | Fails e m => ∃ ip a, reaches fr C c0 (Failed ip a e m.1 m.2)
  | MethodResult v m => reaches fr C c0 (ReturnedFromMethod v m.1 m.2)
  | Gone => reaches fr C c0 Away
  | More => lasts fr C f c0
  end.

Lemma ends_bind lo hi c0 mid s o k :
  sound fr C f lo hi c0 mid s o → (∀ v m, ends (At mid (vm_of (v :: s) m)) (k v m)) →
  ends c0 (obind o k).
Proof using.
  intros Ho Hk. destruct o as [v m|e m|v m| |]; cbn in *; try done.
  - specialize (Hk v m). destruct (k v m) as [v' m'|e m'|v' m'| |]; cbn in *;
      [by eapply reaches_trans| |by eapply reaches_trans..|by eapply lasts_reaches].
    destruct Hk as (ip & a & Hk). exists ip, a. by eapply reaches_trans.
  - destruct Ho as (ip & a & _ & Ho). by exists ip, a.
Qed.

Lemma ends_return pc i v s m :
  C !! pc = Some i → i = Return ∨ i = BlockReturn → ends (At pc (vm_of (v :: s) m)) (Val v m).
Proof using.
  intros Hi Hr. apply reaches_step. rewrite (step_instr _ _ _ _ _ Hi).
  destruct Hr as [->| ->]; apply reaches_refl.
Qed.

Lemma block_stmts_end stmts pc s m :
  stmts ≠ [] → code_at C pc (block_stmts compile_node stmts ++ [Return]) →
  ends (At pc (vm_of s m)) (eval_stmts (eval fr f) stmts m).
Proof using HC.
  revert pc m. induction stmts as [|stmt rest IH]; intros pc m Hne Hat; [done|].
  cbn [block_stmts] in Hat. rewrite <- app_assoc in Hat.
  destruct stmt as [n|v].
  - pose proof (code_at_app_l _ _ _ _ Hat) as Hn. pose proof (code_at_app_r _ _ _ _ Hat) as Hr.
    pose proof (compile_node_sound fr C f HC n pc s m Hn) as Hs.
    destruct rest as [|s2 rest].
    + cbn [app eval_stmts] in *. rewrite <- (obind_val (eval fr f n m)).
      eapply ends_bind; [exact Hs|]. intros v m'. eapply ends_return; [|by left].
      by apply code_at_head in Hr.
    + rewrite eval_stmts_cons. eapply ends_bind; [exact Hs|]. intros v m'.
      pose proof (code_at_head _ _ _ _ Hr) as Hp. pose proof (code_at_tail _ _ _ _ Hr) as Hr'.
      specialize (IH (S (pc + length (compile_node n))) m' ltac:(done) Hr').
      destruct (eval_stmts (eval fr f) (s2 :: rest) m') as [v' m2|e m2|v' m2| |]; cbn in *.
      1,3,4: eapply reaches_trans; [|exact IH]; apply reaches_step;
        rewrite (step_instr _ _ _ _ _ Hp); apply reaches_refl.
      * destruct IH as (ip & a & IH). exists ip, a. eapply reaches_trans; [|exact IH]. apply reaches_step.
        rewrite (step_instr _ _ _ _ _ Hp). apply reaches_refl.
      * eapply lasts_reaches; [|exact IH]. apply reaches_step.
        rewrite (step_instr _ _ _ _ _ Hp). apply reaches_refl.
  - rewrite <- app_assoc in Hat.
    pose proof (code_at_app_l _ _ _ _ Hat) as Hn. pose proof (code_at_app_r _ _ _ _ Hat) as Hr.
    cbn [eval_stmts]. rewrite <- (obind_val (eval fr f v m)).
    eapply ends_bind; [by apply compile_node_sound|]. intros r m'.
    eapply ends_return; [|by right]. by apply code_at_head in Hr.
Qed.

End blocks.

Lemma compile_block_ends `{Machine W} (fr : FrameInfo) f stmts m :
  (len (compile_block stmts) < 2 ^ 63)%Z →
  ends fr (compile_block stmts) f (At 0 (vm_of [] m)) (eval_block fr f stmts m).
Proof.
  intros HC. unfold eval_block. destruct stmts as [|stmt rest].
  - cbn [eval_stmts]. apply reaches_step, reaches_step. cbn. destruct m. apply reaches_refl.
  - apply block_stmts_end; [done..|]. apply code_at_all.
Qed.

(** ** Through the peephole pass *)

Section fused.
Context `{Machine W} (fr : FrameInfo) (stmts : list Stmt) (smap : list (option SourceInfo)).
Context (out : list Instruction) (smap' : list (option SourceInfo)).

Abbreviation code := (compile_block stmts).

Context (Hends : ∀ st n, ¬ running (run fr code n (At 0 st)) →
  ∃ m, m ≤ n ∧ ends_alike smap smap' (run fr code n (At 0 st)) (run (W:=W) fr out m (At 0 st))).
Context (Hback : ∀ st m, ¬ running (run fr out m (At 0 st)) →
  ∃ n, n ≤ 3 * m ∧ ends_alike smap smap' (run fr code n (At 0 st)) (run (W:=W) fr out m (At 0 st))).

(** The outcome of a run of the finished code. *)
Definition block_runs (f : nat) (m : Mem) (o : Out (W:=W)) : Prop :=
  match o with
  | Val v m' => ∃ n, run fr out n (At 0 (vm_of [] m)) = Returned v m'.1 m'.2
  | Fails e m' => ∃ n ip a e', run fr out n (At 0 (vm_of [] m)) = Failed ip a e' m'.1 m'.2 ∧
                    (e' = e ∨ e = stack_is_empty)
  | MethodResult v m' => ∃ n, run fr out n (At 0 (vm_of [] m)) = ReturnedFromMethod v m'.1 m'.2
  | Gone => ∃ n, run fr out n (At 0 (vm_of [] m)) = Away
  | More => ∀ n, 3 * n ≤ f → running (run fr out n (At 0 (vm_of [] m)))
  end.

Lemma ends_alike_halted c c' : ends_alike (W:=W) smap smap' c c' → ¬ running c.
Proof using. by destruct 1; intros []. Qed.

Lemma ends_fused f m o : ends fr code f (At 0 (vm_of [] m)) o → block_runs f m o.
Proof using Hends Hback.
  destruct o as [v m'|e m'|v m'| |]; cbn.
  1,3,4: intros [n Hn]; destruct (Hends (vm_of [] m) n) as (k & _ & Ha); rewrite Hn in *;
    [by intros []|]; exists k; by inversion Ha.
  - intros (ip & a & n & Hn). destruct (Hends (vm_of [] m) n) as (k & _ & Ha); rewrite Hn in *;
      [by intros []|]. exists k. inversion Ha; subst; eauto 8.
  - intros (N & HN & Hr) n Hn. destruct (decide (running (run fr out n (At 0 (vm_of [] m))))) as [|Hh];
      [done|exfalso].
    destruct (Hback _ _ Hh) as (k & Hk & Ha). apply ends_alike_halted in Ha.
    replace N with (k + (N - k)) in Hr by lia. rewrite run_add, run_halted in Hr by done. done.
Qed.

End fused.

(** C1: A block compiled with its control flow inlined, its carets patched and its instructions
    fused means what the language says: the code returns the value of the evaluator, or fails
    with its error, or leaves the method with its result, in the memory the evaluator leaves;
    and while the rounds of a loop are not used up the code still runs. *)
Theorem compiled_block_means_its_value `{Machine W} (fr : FrameInfo) stmts smap :
  (len (compile_block stmts) < 2 ^ 63)%Z → length smap = length (compile_block stmts) →
  ∃ out smap', fuse_bytecode (compile_block stmts) smap = Some (out, smap') ∧
    ∀ f m, block_runs fr out f m (eval_block fr f stmts m).
Proof.
  intros HC Hl. pose proof (compiled_jumps_inside _ HC) as Hj.
  destruct (fused_runs fr _ _ Hl Hj) as (out & smap' & Hf & Hends & Hback).
  exists out, smap'. split; [done|]. intros f m.
  eapply ends_fused; [done..|]. by apply compile_block_ends.
Qed.

(** * A compiled block at work

    A block with a loop, a conditional and a caret inside it: its code, its value, and the
    instance of the theorem of [LowerProps] there. *)
Local Open Scope nat_scope.

(** A machine without objects: every call answers nil. *)
#[local] Instance silent_machine : Machine unit := {
  new_object _ _ _ w := (0%N, w);
  object_class_name _ _ := "Object";
  field_of _ _ _ := VNil;
  set_field _ _ _ w := Ok w;
  set_active _ w := w;
  list_spliced _ _ _ := false;
  plain_new_check _ _ := false;
  call _ _ _ _ h w := Some (Ok VNil, h, w);
  operate _ _ _ h w := Some (Ok VNil, h, w);
  operate_advanced _ _ _ _ _ := false }.

Definition int (z : Z) : Node := NConst (CInt z).
Definition lt (a b : Node) : Node := NBinary (OpInt Lt) a b.
Definition plus (a b : Node) : Node := NBinary (OpInt Add) a b.

(** [var i = 0. var n = 0.
     { i < 5 }.whileDo:{ i = i + 1. (i < 3).if:{ ^nil }. n = n + i }. n]:
    the caret ends the conditional, not the round. *)
Definition summing : list Stmt :=
  [SExpr (NAssign (ToNewLocal "i") (int 0));
   SExpr (NAssign (ToNewLocal "n") (int 0));
   SExpr (NWhile false
     [SExpr (lt (NLocal "i") (int 5))]
     [SExpr (NAssign (ToLocal "i") (plus (NLocal "i") (int 1)));
      SExpr (NIf None (lt (NLocal "i") (int 3)) [SCaret (NConst CNil)] None);
      SExpr (NAssign (ToLocal "n") (plus (NLocal "n") (NLocal "i")))]);
   SExpr (NLocal "n")].

Definition summing_frame : FrameInfo := mkFrame 0 false.
Definition summing_start : Mem (W:=unit) := ({[0 := mkEnvFrame None []]}, tt).
Definition no_lines : list (option SourceInfo) := replicate (length (compile_block summing)) None.

Example summing_code :
  fst <$> fuse_bytecode (compile_block summing) no_lines =
  Some [Push (CInt 0); DefineLocal "i"; Push (CInt 0); DefineLocal "n";
        IntBinLC "i" (CInt 5) Lt; ElseJump 13;
        IntBinLC "i" (CInt 1) Add; StoreLocal "i";
        IntBinLC "i" (CInt 3) Lt; ElseJump 4; Push CNil; Jump 1; Jump 2; Push CNil; Pop;
        IntBinLL "n" "i" Add; StoreLocal "n"; Jump (-13); Push CNil; Pop;
        LoadLocal "n"; Return].
Proof. vm_compute. reflexivity. Qed.

Example summing_value :
  match eval_block summing_frame 10 summing summing_start with Val v _ => v | _ => VNil end = VInt 15.
Proof. vm_compute. reflexivity. Qed.

Lemma compiled_block_means_its_value_witness :
  (len (compile_block summing) < 2 ^ 63)%Z ∧ length no_lines = length (compile_block summing) ∧
  ∃ out smap', fuse_bytecode (compile_block summing) no_lines = Some (out, smap') ∧
    ∀ f m, block_runs summing_frame out f m (eval_block summing_frame f summing m).
Proof.
  assert (len (compile_block summing) < 2 ^ 63)%Z as Hl by (vm_compute; reflexivity).
  assert (length no_lines = length (compile_block summing)) as Hs by (vm_compute; reflexivity).
  split; [exact Hl|]. split; [exact Hs|].
  apply (compiled_block_means_its_value summing_frame summing no_lines Hl Hs).
Defined.
