(* ===== verification/Names.v ===== *)
(** * Names, splicing and inlining (src/src/compiler/scope.rs, inlining.rs, assignment.rs, lowering.rs)

    How the compiler resolves the names of a block before it emits code: the stack of scopes, the
    renaming of the locals of a spliced arm, the cells of the arguments of an inlined method.
    [resolve_stms] turns statements with source names into the nodes of [Lower], whose names
    are the symbols the instructions carry.

    What the analyses decide is part of the syntax: how an operator is emitted, which
    conditionals and loops are spliced and whether a conditional is guarded, the class the
    checker knows a receiver to have.  A block literal that stays a block is compiled in a scope
    of its own; [template] stands for the parts of its template that are no code. *)
From Stdlib Require Import Ascii.
From stdpp Require Import base numbers list strings gmap pretty.
From stdpp Require Import options.
From S2P Require Import Prelude Instr Exec Fuse Lower.
Local Open Scope nat_scope.

(** ** Source syntax *)

(** Where an assignment goes; a name is written [x], [@x] or with its namespace. *)
Inductive LValue := LName (instance : bool) (name : string) | LNamespaced (name : NamespacedName).

Inductive Exp :=
| EConst (c : Constant)
| EName (name : string)
| EField (name : string)
| ENamespaced (name : NamespacedName)
| EBlock (params : list string) (body : list Stm)
| EAnd (left right : Exp)
| EOr (left right : Exp)
| EBinary (op : BinaryOp) (left right : Exp)
| EUnary (sel : Symbol) (right : Exp)
(** [class]: the class of the receiver by its static type; [variadic]: a folded run of keywords *)
| ECall (subject : option Exp) (class : option string) (sel : Symbol) (variadic : bool) (args : list Exp)
| EList (values : list Exp)
| EIf (guarded : bool) (subject : Exp) (then_blk : list Stm) (else_blk : option (list Stm))
| EWhile (strict : bool) (cond_blk body_blk : list Stm)
with Stm :=
| SExp (e : Exp)
| SAssign (target : LValue) (rvalue : Exp)
| SDecl (mutable : bool) (name : string) (rvalue : Exp)
| SBlockReturn (value : Exp)
| SMethodReturn (value : Exp).

(** A method body; [bare]: it has no name, no header declarations and no guard block. *)
Record MethodBlock := mkMethod { arguments : list string; statements : list Stm; bare : bool }.

(** ** Scopes (scope.rs) *)

Record Scope := mkScope {
  locals : gset string; immutable : gset string; is_init : bool;
  renaming : bool; renames : gmap string Symbol }.

(** The scopes are kept innermost first.  [value_type_def_depth] counts the definitions of value
    types around the code. *)
Record Compiler := mkCompiler {
  scopes : list Scope; temp_counter : nat; splice_rename_counter : nat;
  param_override : gmap string Symbol; self_override : option Symbol;
  value_type_def_depth : nat }.

Definition set_scopes (s : list Scope) (c : Compiler) : Compiler :=
  mkCompiler s (temp_counter c) (splice_rename_counter c) (param_override c) (self_override c)
    (value_type_def_depth c).

Definition set_overrides (p : gmap string Symbol) (o : option Symbol) (c : Compiler) : Compiler :=
  mkCompiler (scopes c) (temp_counter c) (splice_rename_counter c) p o (value_type_def_depth c).

Definition temp_name (n : nat) : Symbol := "__qn_temp_" +:+ pretty n.
(** The two bytes of the middle dot are outside the grammar of identifiers. *)
Definition minted_name (name : string) (n : nat) : Symbol := name +:+ "·" +:+ pretty n.

Definition new_temp_var (c : Compiler) : Symbol * Compiler :=
  let n := S (temp_counter c) in
  (temp_name n, mkCompiler (scopes c) n (splice_rename_counter c) (param_override c)
                  (self_override c) (value_type_def_depth c)).

Definition is_local (c : Compiler) (name : string) : bool :=
  bool_decide (name = "self") || existsb (λ s, bool_decide (name ∈ locals s)) (scopes c).

Definition push_scope (names : gset string) (c : Compiler) : Compiler :=
  set_scopes (mkScope names ∅ false false ∅ :: scopes c) c.
Definition pop_scope (c : Compiler) : Compiler := set_scopes (tail (scopes c)) c.
Definition push_splice_scope (c : Compiler) : Compiler :=
  set_scopes (mkScope ∅ ∅ false true ∅ :: scopes c) c.

Fixpoint symbol_in (ss : list Scope) (name : string) : Symbol :=
  match ss with
  | [] => name
  | s :: rest =>
      if bool_decide (name ∈ locals s) then default name (renames s !! name) else symbol_in rest name
  end.

Definition local_symbol (c : Compiler) (name : string) : Symbol := symbol_in (scopes c) name.

Fixpoint immutable_in (ss : list Scope) (name : string) : bool :=
  match ss with
  | [] => false
  | s :: rest =>
      if bool_decide (name ∈ locals s) then bool_decide (name ∈ immutable s)
      else immutable_in rest name
  end.

Definition is_immutable (c : Compiler) (name : string) : bool := immutable_in (scopes c) name.

(** A declaration in a splice scope mints a symbol.  There is always a scope. *)
Definition declare_local (name : string) (mutable : bool) (c : Compiler) : result string Compiler :=
  match scopes c with
  | [] => Err "no scope"
  | s :: rest =>
      let n := splice_rename_counter c in
      if bool_decide (name ∈ locals s) then
        Err ("`" +:+ name +:+ "` is already declared in this scope")
      else
        let s' := mkScope ({[name]} ∪ locals s) (if mutable then immutable s else {[name]} ∪ immutable s)
                    (is_init s) (renaming s)
                    (if renaming s then <[name := minted_name name n]> (renames s) else renames s) in
        Ok (mkCompiler (s' :: rest) (temp_counter c) (if renaming s then S n else n)
              (param_override c) (self_override c) (value_type_def_depth c))
  end.

(** The scope on top lists a temporary like a local. *)
Definition list_temp (tmp : Symbol) (c : Compiler) : Compiler :=
  match scopes c with
  | [] => c
  | s :: rest =>
      set_scopes (mkScope ({[tmp]} ∪ locals s) (immutable s) (is_init s) (renaming s) (renames s) :: rest) c
  end.

(** ** A compiling computation: it threads the compiler and may refuse the program *)

Definition M (A : Type) : Type := Compiler → result string (A * Compiler).

#[export] Instance M_ret : MRet M := λ A a c, Ok (a, c).
#[export] Instance M_bind : MBind M :=
  λ A B k m c, match m c with Ok (a, c') => k a c' | Err e => Err e end.

Definition modify (f : Compiler → Compiler) : M () := λ c, Ok ((), f c).
Definition asks {A} (f : Compiler → A) : M A := λ c, Ok (f c, c).
Definition refuse {A} (msg : string) : M A := λ _, Err msg.
Definition fresh_temp : M Symbol := λ c, let '(t, c') := new_temp_var c in Ok (t, list_temp t c').
Definition declare (name : string) (mutable : bool) : M () :=
  λ c, match declare_local name mutable c with Ok c' => Ok ((), c') | Err e => Err e end.

(** ** Identifiers (lowering.rs, assignment.rs) *)

Definition is_ascii_uppercase (c : ascii) : bool :=
  let n := N_of_ascii c in (65 <=? n)%N && (n <=? 90)%N.

Definition starts_uppercase (name : string) : bool :=
  match name with String c _ => is_ascii_uppercase c | EmptyString => false end.

Definition no_instance_variables (name : string) : string :=
  "value types cannot have instance variables (found '@" +:+ name +:+ "')".

Definition load_field_name (name : string) : M Node := λ c,
  if 0 <? value_type_def_depth c then Err (no_instance_variables name)
  else Ok (match self_override c with
           | Some over => NFieldOf (NLocal over) name
           | None => NField name
           end, c).

Definition name_node (c : Compiler) (name : string) : Node :=
  if bool_decide (name = "nil") then NConst CNil
  else if bool_decide (name = "true") then NConst (CBool true)
  else if bool_decide (name = "false") then NConst (CBool false)
  else match param_override c !! name with
       | Some sym => NLocal sym
       | None =>
           if is_local c name then
             NLocal (match self_override c with
                     | Some over => if bool_decide (name = "self") then over else local_symbol c name
                     | None => local_symbol c name
                     end)
           else NGlobal (mkName [] name)
       end.

Definition load_name (name : string) : M Node := asks (λ c, name_node c name).

Definition in_init_literal (c : Compiler) : bool :=
  match scopes c with s :: _ => is_init s | [] => false end.

Definition undeclared (name : string) : string :=
  "undeclared local `" +:+ name +:+ "` — declare it with `var " +:+ name +:+
  " = …` (assignment no longer implicitly declares locals)".

(** The store of an assignment to a name. *)
Definition ident_store (instance : bool) (name : string) (c : Compiler) : result string Target :=
  if reserved name then Ok (ToLocal name)
  else if starts_uppercase name then Ok (ToGlobal (mkName [] name))
  else if instance then
    if 0 <? value_type_def_depth c then Err (no_instance_variables name) else Ok (ToField name)
  else match param_override c !! name with
       | Some sym => Ok (ToLocal sym)
       | None =>
           if is_local c name then
             if is_immutable c name then Err ("cannot reassign `let` binding `" +:+ name +:+ "`")
             else Ok (ToLocal (if in_init_literal c then name else local_symbol c name))
           else if in_init_literal c then Ok (ToNewLocal name)
           else Err (undeclared name)
       end.

Definition lvalue_store (lv : LValue) (c : Compiler) : result string Target :=
  match lv with
  | LNamespaced g => Ok (ToGlobal g)
  | LName instance name => ident_store instance name c
  end.

Definition store_target (lv : LValue) : M Target := λ c,
  match lvalue_store lv c with Ok t => Ok (t, c) | Err e => Err e end.

(** [var]/[let] declares plain locals only. *)
Definition validate_decl (name : string) : M () :=
  if starts_uppercase name then
    refuse ("`var`/`let` declares locals; `" +:+ name +:+ "` is uppercase — globals/classes use `"
            +:+ name +:+ " = …`")
  else mret ().

(** ** What is inlined (inlining.rs) *)

(** A return from the method, anywhere inside. *)
Fixpoint escapes_inlined_frame (e : Exp) : bool :=
  let stms := existsb (λ s,
    match s with
    | SMethodReturn _ => true
    | SExp e | SAssign _ e | SDecl _ _ e | SBlockReturn e => escapes_inlined_frame e
    end) in
  match e with
  | EConst _ | EName _ | EField _ | ENamespaced _ => false
  | EBlock _ body => stms body
  | EAnd l r | EOr l r | EBinary _ l r => escapes_inlined_frame l || escapes_inlined_frame r
  | EUnary _ e => escapes_inlined_frame e
  | ECall subj _ _ _ args =>
      match subj with Some s => escapes_inlined_frame s | None => false end ||
      existsb escapes_inlined_frame args
  | EList vs => existsb escapes_inlined_frame vs
  | EIf _ subj t e =>
      escapes_inlined_frame subj || stms t || match e with Some e => stms e | None => false end
  | EWhile _ c b => stms c || stms b
  end.

Definition stm_escapes (s : Stm) : bool :=
  match s with
  | SMethodReturn _ => true
  | SExp e | SAssign _ e | SDecl _ _ e | SBlockReturn e => escapes_inlined_frame e
  end.

Definition declares (s : Stm) : bool := match s with SDecl _ _ _ => true | _ => false end.

Definition is_inlinable_body (b : MethodBlock) : bool :=
  bare b && forallb (λ s, negb (declares s) && negb (stm_escapes s)) (statements b).

Definition field_accessor_field (b : MethodBlock) : option string :=
  match arguments b, bare b, statements b with
  | [], true, [SExp (EField f)] => Some f
  | _, _, _ => None
  end.

(** How a send is compiled. *)
Inductive CallForm :=
| Spliced (body : MethodBlock)
| Accessor (field : string)
| SplicedOn (body : MethodBlock)
| Sent.

Section decisions.
(** The bodies of the class around the code, when it is sealed; those of the sealed classes of
    the unit. *)
Context (own_bodies : gmap string MethodBlock) (class_bodies : gmap string (gmap string MethodBlock)).

Definition is_self (subject : option Exp) : bool :=
  match subject with
  | None => true
  | Some (EName n) => bool_decide (n = "self")
  | _ => false
  end.

Definition fits (b : MethodBlock) (args : list Exp) : bool :=
  is_inlinable_body b && (length (arguments b) =? length args).

Definition try_inline_self_send (subject : option Exp) (rebound : bool) (sel : Symbol)
    (variadic : bool) (args : list Exp) : option MethodBlock :=
  if is_self subject && negb rebound && negb variadic then
    b ← own_bodies !! sel; if fits b args then Some b else None
  else None.

Definition try_inline_exact_receiver (subject : option Exp) (class : option string) (sel : Symbol)
    (variadic : bool) (args : list Exp) : CallForm :=
  match subject, class with
  | Some _, Some cls =>
      if variadic then Sent
      else match class_bodies !! cls ≫= (λ bs, bs !! sel) with
           | None => Sent
           | Some b =>
               match args, field_accessor_field b with
               | [], Some f => Accessor f
               | _, _ => if fits b args then SplicedOn b else Sent
               end
           end
  | _, _ => Sent
  end.

(** [rebound]: [self] is the receiver of an inlined body. *)
Definition call_form (rebound : bool) (subject : option Exp) (class : option string)
    (sel : Symbol) (variadic : bool) (args : list Exp) : CallForm :=
  match try_inline_self_send subject rebound sel variadic args with
  | Some b => Spliced b
  | None => try_inline_exact_receiver subject class sel variadic args
  end.
End decisions.

(** ** From names to symbols *)

Section resolve.
Context (own_bodies : gmap string MethodBlock) (class_bodies : gmap string (gmap string MethodBlock)).
(** The template of a block literal, from its parameters and its finished statements. *)
Context (template : list Symbol → list Stmt → StaticBlock).

Section at_depth.
(** The statements of an inlined body, unless the inlining is at its greatest depth. *)
Context (deeper : option (list Stm → M (list Stmt))).

Section lists.
Context (resolve : Exp → M Node).

Fixpoint resolve_args (es : list Exp) : M (list Node) :=
  match es with
  | [] => mret []
  | e :: rest => n ← resolve e; ns ← resolve_args rest; mret (n :: ns)
  end.

Definition resolve_stm (s : Stm) : M Stmt :=
  match s with
  | SExp e => n ← resolve e; mret (SExpr n)
  | SAssign lv e => n ← resolve e; t ← store_target lv; mret (SExpr (NAssign t n))
  | SDecl mutable x e =>
      validate_decl x;; declare x mutable;;
      n ← resolve e;
      sym ← asks (λ c, local_symbol c x);
      mret (SExpr (NAssign (ToNewLocal sym) n))
  | SBlockReturn e => n ← resolve e; mret (SCaret n)
  | SMethodReturn e => n ← resolve e; mret (SExpr (NMethodReturn n))
  end.

Fixpoint resolve_body (stms : list Stm) : M (list Stmt) :=
  match stms with
  | [] => mret []
  | s :: rest => n ← resolve_stm s; ns ← resolve_body rest; mret (n :: ns)
  end.

Definition in_scope {A} (push : Compiler → Compiler) (m : M A) : M A :=
  modify push;; r ← m; modify pop_scope;; mret r.

(** A spliced arm gets a scope when it declares locals. *)
Definition splice_block_body (stms : list Stm) : M (list Stmt) :=
  if existsb declares stms then in_scope push_splice_scope (resolve_body stms)
  else resolve_body stms.

(** A block that stays a block has a scope for its parameters. *)
Definition resolve_block (params : list string) (stms : list Stm) : M Constant :=
  ns ← in_scope (push_scope (list_to_set params)) (resolve_body stms);
  mret (CBlock (template params ns)).

(** Each argument goes to a cell of its own. *)
Fixpoint bind_args (params : list string) (args : list Exp) {struct args}
    : M (list (string * Symbol) * list (Symbol * Node)) :=
  match args, params with
  | a :: args, p :: params =>
      n ← resolve a;
      t ← fresh_temp;
      '(bs, ns) ← bind_args params args;
      mret ((p, t) :: bs, (t, n) :: ns)
  | _, _ => mret ([], [])
  end.

Definition in_method_body {A} (bindings : gmap string Symbol) (self_temp : option Symbol) (m : M A) : M A :=
  saved_params ← asks param_override;
  saved_self ← asks self_override;
  modify (set_overrides bindings (match self_temp with Some t => Some t | None => saved_self end));;
  r ← m;
  modify (set_overrides saved_params saved_self);;
  mret r.

Definition last_bindings (bs : list (string * Symbol)) : gmap string Symbol :=
  foldl (λ m b, <[b.1 := b.2]> m) ∅ bs.

Definition inline_method (deeper : list Stm → M (list Stmt)) (b : MethodBlock) (args : list Exp)
    (self_bind : list (Symbol * Node)) : M Node :=
  '(bs, ns) ← bind_args (arguments b) args;
  body ← in_method_body (last_bindings bs) (fst <$> head self_bind)
           (deeper (statements b));
  mret (NInline (self_bind ++ ns) body).

(** The receiver of a send without one is [self]. *)
Definition resolve_receiver (subject : option Exp) : M Node :=
  match subject with
  | Some e => resolve e
  | None => asks (λ c, NLocal (default self_symbol (self_override c)))
  end.

End lists.

Fixpoint resolve_exp (e : Exp) : M Node :=
  match e with
  | EConst c => mret (NConst c)
  | EName x => load_name x
  | EField x => load_field_name x
  | ENamespaced g => mret (NGlobal g)
  | EBlock params body => c ← resolve_block resolve_exp params body; mret (NConst c)
  | EAnd l r => l ← resolve_exp l; r ← resolve_exp r; mret (NAnd l r)
  | EOr l r => l ← resolve_exp l; r ← resolve_exp r; mret (NOr l r)
  | EBinary op l r => l ← resolve_exp l; r ← resolve_exp r; mret (NBinary op l r)
  | EUnary sel e => n ← resolve_exp e; mret (NUnary sel n)
  | ECall subj cls sel variadic args =>
      rebound ← asks (λ c, bool_decide (is_Some (self_override c)));
      match deeper, call_form own_bodies class_bodies rebound subj cls sel variadic args with
      | Some d, Spliced b => inline_method resolve_exp d b args []
      | Some _, Accessor f =>
          r ← resolve_receiver resolve_exp subj; mret (NFieldOf r f)
      | Some d, SplicedOn b =>
          r ← resolve_receiver resolve_exp subj;
          t ← fresh_temp;
          inline_method resolve_exp d b args [(t, r)]
      | _, _ =>
          r ← resolve_receiver resolve_exp subj;
          ns ← resolve_args resolve_exp args;
          mret (NCall r sel ns)
      end
  | EList vs => ns ← resolve_args resolve_exp vs; mret (NList ns)
  | EIf guarded subj t e =>
      n ← resolve_exp subj;
      hot_t ← splice_block_body resolve_exp t;
      hot_e ← match e with
              | Some e => ns ← splice_block_body resolve_exp e; mret (Some ns)
              | None => mret None
              end;
      cold ← (if guarded then
                ct ← resolve_block resolve_exp [] t;
                ce ← match e with
                     | Some e => c ← resolve_block resolve_exp [] e; mret (Some c)
                     | None => mret None
                     end;
                mret (Some (ct, ce))
              else mret None);
      mret (NIf cold n hot_t hot_e)
  | EWhile strict c b =>
      nc ← splice_block_body resolve_exp c;
      nb ← splice_block_body resolve_exp b;
      mret (NWhile strict nc nb)
  end.

End at_depth.

Definition MAX_INLINE_DEPTH : nat := 3.

(** Inlining [d] methods deep. *)
Fixpoint resolve_at (d : nat) : list Stm → M (list Stmt) :=
  resolve_body (resolve_exp (match d with O => None | S d => Some (resolve_at d) end)).

(** The statements of a block. *)
Definition resolve_stms : list Stm → M (list Stmt) := resolve_at MAX_INLINE_DEPTH.

End resolve.
