(* ===== verification/Lexical.v ===== *)
(** * What names mean

    An evaluator of the source statements of [Names], independent of scopes, renamings and
    temporaries.  Every arm of a conditional and every round of a loop has a frame of its own,
    which ends with it; a name is the innermost frame's that binds it; a method that the
    compiler may splice runs in a frame of its own with its receiver as [self].  It is the
    specification that [NamesProps] proves the resolved nodes against.

    The frames of a running block are maps, innermost first; behind them is the chain of the
    frames around the block, on the heap of the machine, entered through a frame without
    locals. *)
From stdpp Require Import base numbers list strings gmap.
From stdpp Require Import options.
From S2P Require Import Prelude Instr Exec Fuse Lower Names.
Local Open Scope nat_scope.

Section lexical.
Context `{Machine W} (fr : FrameInfo).
Context (own_bodies : gmap string MethodBlock) (class_bodies : gmap string (gmap string MethodBlock)).

Record LMem := mkLMem { lex : list (gmap string Value); outer : Envs; lworld : W }.

(** What runs: the names in scope, [self], and whether it is a method spliced on a receiver. *)
Record Activation := mkActivation { names : gset string; me : Value; rebound : bool }.

Inductive LOut :=
| LVal (v : Value) (m : LMem)
| LFails (e : QuoinError) (m : LMem)
| LMethodResult (v : Value) (m : LMem)
| LGone
| LMore.

Definition lbind (o : LOut) (k : Value → LMem → LOut) : LOut :=
  match o with LVal v m => k v m | o => o end.

Definition map_mem (g : LMem → LMem) (o : LOut) : LOut :=
  match o with
  | LVal v m => LVal v (g m)
  | LFails e m => LFails e (g m)
  | LMethodResult v m => LMethodResult v (g m)
  | o => o
  end.

Definition set_lex (s : list (gmap string Value)) (m : LMem) : LMem := mkLMem s (outer m) (lworld m).

Definition l_answer (m : LMem) (a : option (result QuoinError Value * Envs * W)) : LOut :=
  match a with
  | Some (Ok v, h, w) => LVal v (mkLMem (lex m) h w)
  | Some (Err e, h, w) => LFails e (mkLMem (lex m) h w)
  | None => LGone
  end.

Definition l_result (r : result QuoinError Value) (m : LMem) : LOut :=
  match r with Ok v => LVal v m | Err e => LFails e m end.

Definition l_send (sel : Symbol) (r : Value) (args : list Value) (m : LMem) : LOut :=
  l_answer m (call sel r args fr (outer m) (lworld m)).

Definition l_perform (i : Instruction) (args : list Value) (m : LMem) : LOut :=
  l_answer m (operate i args fr (outer m) (lworld m)).

Definition l_constant (c : Constant) (m : LMem) : Value * LMem :=
  let '(v, st) := materialize_constant fr c (mkVm [] (outer m) (lworld m)) in
  (v, mkLMem (lex m) (envs st) (world st)).

(** ** Names *)

Fixpoint lex_get (ss : list (gmap string Value)) (x : string) : option Value :=
  match ss with
  | [] => None
  | s :: rest => match s !! x with Some v => Some v | None => lex_get rest x end
  end.

Fixpoint lex_set (ss : list (gmap string Value)) (x : string) (v : Value)
    : option (list (gmap string Value)) :=
  match ss with
  | [] => None
  | s :: rest =>
      match s !! x with
      | Some _ => Some (<[x := v]> s :: rest)
      | None => cons s <$> lex_set rest x v
      end
  end.

Definition lex_bind (ss : list (gmap string Value)) (x : string) (v : Value) : list (gmap string Value) :=
  match ss with [] => [] | s :: rest => <[x := v]> s :: rest end.

(** A name nothing binds reads as nil. *)
Definition l_read (x : string) (m : LMem) : Value :=
  match lex_get (lex m) x with
  | Some v => v
  | None => default VNil (env_get (outer m) (f_env fr) x)
  end.

Definition l_name (x : string) (a : Activation) (m : LMem) : LOut :=
  if bool_decide (x = "nil") then LVal VNil m
  else if bool_decide (x = "true") then LVal (VBool true) m
  else if bool_decide (x = "false") then LVal (VBool false) m
  else if bool_decide (x = "self") then LVal (me a) m
  else if bool_decide (x ∈ names a) then LVal (l_read x m) m
  else l_perform (LoadGlobal (mkName [] x)) [] m.

Definition l_refuse (x : string) (m : LMem) : LOut :=
  let msg := ("Can't modify reserved identifier " +:+ x)%string in
  LFails (Other msg) (mkLMem (lex m) (outer m) (set_active msg (lworld m))).

(** A new binding is made in the frame that runs. *)
Definition l_declare (x : string) (v : Value) (m : LMem) : LOut :=
  if reserved x then l_refuse x m else LVal v (set_lex (lex_bind (lex m) x v) m).

Definition l_set (x : string) (v : Value) (m : LMem) : LOut :=
  if reserved x then l_refuse x m
  else match lex_set (lex m) x v with
       | Some s => LVal v (set_lex s m)
       | None =>
           match env_set (outer m) (f_env fr) x v with
           | Some h => LVal v (mkLMem (lex m) h (lworld m))
           | None => LVal v (set_lex (lex_bind (lex m) x v) m)
           end
       end.

Definition l_set_field (x : string) (v : Value) (a : Activation) (m : LMem) : LOut :=
  match set_field (me a) x v (lworld m) with
  | Ok w => LVal v (mkLMem (lex m) (outer m) w)
  | Err e => LFails e m
  end.

Definition l_set_global (g : NamespacedName) (v : Value) (m : LMem) : LOut :=
  lbind (l_perform (StoreGlobal g false) [v] m) (λ _ m, LVal v m).

Definition l_assign (lv : LValue) (v : Value) (a : Activation) (m : LMem) : LOut :=
  match lv with
  | LNamespaced g => l_set_global g v m
  | LName instance x =>
      if reserved x then l_refuse x m
      else if starts_uppercase x then l_set_global (mkName [] x) v m
      else if instance then l_set_field x v a m
      else l_set x v m
  end.

Definition l_binary (op : BinaryOp) (a b : Value) (m : LMem) : LOut :=
  match op, a, b with
  | OpInt k, VInt x, VInt y => l_result (int_bin_compute k x y) m
  | OpDouble k, VDouble x, VDouble y => LVal (double_bin_compute k x y) m
  | OpInt k, a, b | OpDouble k, a, b => l_send (selector k) a [b] m
  | OpSend sel, a, b => l_send sel a [b] m
  end.

(** ** Frames *)

(** A frame that ends with what runs in it. *)
Definition in_frame (s : gmap string Value) (k : LMem → LOut) (m : LMem) : LOut :=
  map_mem (λ m', set_lex (tail (lex m')) m') (k (set_lex (s :: lex m) m)).

Definition bind_params (params : list string) (args : list Value) : gmap string Value :=
  foldl (λ m p, <[p.1 := p.2]> m) ∅ (zip params args).

(** A method sees its parameters, not the frames of its caller. *)
Definition run_method (body : Activation → list Stm → LMem → LOut) (b : MethodBlock)
    (receiver : Value) (on_receiver : bool) (args : list Value) (m : LMem) : LOut :=
  map_mem (set_lex (lex m))
    (body (mkActivation (list_to_set (arguments b)) receiver on_receiver) (statements b)
       (set_lex [bind_params (arguments b) args] m)).

Section at_depth.
Context (deeper : option (Activation → list Stm → LMem → LOut)).
(** A closure over the frames that are open. *)
Context (new_closure : list string → list Stm → list (gmap string Value) → Envs → W → N * W).
(** The rounds a loop may take. *)
Context (f : nat).

Definition l_closure (params : list string) (body : list Stm) (m : LMem) : Value * LMem :=
  let '(p, w) := new_closure params body (lex m) (outer m) (lworld m) in
  (VObject p, mkLMem (lex m) (outer m) w).

Definition l_send_conditional (t : list Stm) (e : option (list Stm)) (v : Value) (m : LMem) : LOut :=
  let '(t, m) := l_closure [] t m in
  match e with
  | None => l_send "if:" v [t] m
  | Some e => let '(e, m) := l_closure [] e m in l_send "if:else:" v [t; e] m
  end.

Section lists.
Context (leval : Exp → Activation → LMem → LOut).

Fixpoint leval_args (es : list Exp) (a : Activation) (vs : list Value) (m : LMem)
    (k : list Value → LMem → LOut) : LOut :=
  match es with
  | [] => k vs m
  | e :: rest => lbind (leval e a m) (λ v m, leval_args rest a (vs ++ [v]) m k)
  end.

Definition with_name (x : string) (a : Activation) : Activation :=
  mkActivation ({[x]} ∪ names a) (me a) (rebound a).

(** A name is in scope from its declaration on, its initializer included. *)
Fixpoint leval_stms (stms : list Stm) (a : Activation) (m : LMem) : LOut :=
  match stms with
  | [] => LVal VNil m
  | s :: rest =>
      let continue a v m := match rest with [] => LVal v m | _ => leval_stms rest a m end in
      match s with
      | SExp e => lbind (leval e a m) (continue a)
      | SAssign lv e => lbind (leval e a m) (λ v m, lbind (l_assign lv v a m) (continue a))
      | SDecl _ x e =>
          let a := with_name x a in
          lbind (leval e a m) (λ v m, lbind (l_declare x v m) (continue a))
      | SBlockReturn e => leval e a m
      | SMethodReturn e => lbind (leval e a m) LMethodResult
      end
  end.

Definition leval_arm (stms : list Stm) (a : Activation) (m : LMem) : LOut :=
  in_frame ∅ (leval_stms stms a) m.

Definition leval_if (guarded : bool) (t : list Stm) (e : option (list Stm)) (v : Value)
    (a : Activation) (m : LMem) : LOut :=
  if guarded && negb (is_bool v) then l_send_conditional t e v m
  else if is_truthy v then leval_arm t a m
  else match e with Some e => leval_arm e a m | None => LVal VNil m end.

Definition leval_while (strict : bool) (c b : list Stm) (a : Activation) : nat → LMem → LOut :=
  fix loop rounds m :=
    match rounds with
    | O => LMore
    | S rounds' =>
        lbind (leval_arm c a m) (λ v m,
          if strict && negb (is_bool v) then
            LFails (MessageNotUnderstood (class_name v (lworld m))
                      "whileDo: (a loop condition must be a Boolean)" [] []) m
          else if is_truthy v then lbind (leval_arm b a m) (λ _ m, loop rounds' m)
          else LVal VNil m)
    end.

Definition leval_receiver (subject : option Exp) (a : Activation) (m : LMem) : LOut :=
  match subject with Some e => leval e a m | None => LVal (me a) m end.

End lists.

Fixpoint leval (e : Exp) (a : Activation) (m : LMem) : LOut :=
  match e with
  | EConst c => let '(v, m) := l_constant c m in LVal v m
  | EName x => l_name x a m
  | EField x => LVal (field_of (me a) x (lworld m)) m
  | ENamespaced g => l_perform (LoadGlobal g) [] m
  | EBlock params body => let '(v, m) := l_closure params body m in LVal v m
  | EAnd l r => lbind (leval l a m) (λ v m, if is_truthy v then leval r a m else LVal v m)
  | EOr l r => lbind (leval l a m) (λ v m, if is_truthy v then LVal v m else leval r a m)
  | EBinary op l r => lbind (leval l a m) (λ x m, lbind (leval r a m) (λ y m, l_binary op x y m))
  | EUnary sel e => lbind (leval e a m) (λ v m, l_send sel v [] m)
  | ECall subj cls sel variadic args =>
      match deeper, call_form own_bodies class_bodies (rebound a) subj cls sel variadic args with
      | Some d, Spliced b =>
          leval_args leval args a [] m (λ vs m, run_method d b (me a) (rebound a) vs m)
      | Some _, Accessor fld =>
          lbind (leval_receiver leval subj a m) (λ r m, LVal (field_of r fld (lworld m)) m)
      | Some d, SplicedOn b =>
          lbind (leval_receiver leval subj a m) (λ r m,
            leval_args leval args a [] m (λ vs m, run_method d b r true vs m))
      | _, _ =>
          lbind (leval_receiver leval subj a m) (λ r m,
            leval_args leval args a [] m (λ vs m, l_send sel r vs m))
      end
  | EList vs => leval_args leval vs a [] m (λ vs m, l_perform (NewList (length vs)) vs m)
  | EIf guarded subj t e => lbind (leval subj a m) (λ v m, leval_if leval guarded t e v a m)
  | EWhile strict c b => leval_while leval strict c b a f m
  end.

End at_depth.

(** A message to a method that can be spliced is its body, [d] messages deep; deeper down it is
    the machine's. *)
Fixpoint leval_at (new_closure : list string → list Stm → list (gmap string Value) → Envs → W → N * W)
    (f d : nat) (a : Activation) (stms : list Stm) (m : LMem) : LOut :=
  leval_stms
    (leval (match d with O => None | S d => Some (leval_at new_closure f d) end) new_closure f)
    stms a m.

End lexical.
