(* ===== verification/NamesRel.v ===== *)
(** * What the resolution of names does to the compiler

    An induction principle for source expressions, the symbols the compiler mints, which differ
    from one another and from every name a program can use, and what compiling an expression
    leaves of the compiler: the same scopes but for temporaries, the same overrides, larger
    counters. *)
From Stdlib Require Import Ascii.
From stdpp Require Import base numbers list strings gmap pretty.
From stdpp Require Import options.
From S2P Require Import Prelude Instr Exec Fuse Lower Names.
Local Open Scope nat_scope.

(** ** Induction on expressions *)

Definition stm_exp (s : Stm) : Exp :=
  match s with
  | SExp e | SAssign _ e | SDecl _ _ e | SBlockReturn e | SMethodReturn e => e
  end.

Definition all_stms (P : Exp → Prop) (l : list Stm) : Prop := Forall (λ s, P (stm_exp s)) l.

Definition on_option {A} (P : A → Prop) (o : option A) : Prop :=
  match o with Some x => P x | None => True end.

Section induction.
Context (P : Exp → Prop).
Context (Hconst : ∀ c, P (EConst c)) (Hname : ∀ x, P (EName x)) (Hfield : ∀ x, P (EField x))
  (Hns : ∀ g, P (ENamespaced g)) (Hblock : ∀ ps b, all_stms P b → P (EBlock ps b))
  (Hand : ∀ l r, P l → P r → P (EAnd l r)) (Hor : ∀ l r, P l → P r → P (EOr l r))
  (Hbinary : ∀ op l r, P l → P r → P (EBinary op l r)) (Hunary : ∀ s e, P e → P (EUnary s e))
  (Hcall : ∀ subj cls s vr args, on_option P subj → Forall P args → P (ECall subj cls s vr args))
  (Hlist : ∀ vs, Forall P vs → P (EList vs))
  (Hif : ∀ g subj t e, P subj → all_stms P t → on_option (all_stms P) e → P (EIf g subj t e))
  (Hwhile : ∀ st c b, all_stms P c → all_stms P b → P (EWhile st c b)).

Fixpoint Exp_induction (e : Exp) : P e :=
  let exps := fix exps (l : list Exp) : Forall P l :=
    match l with [] => List.Forall_nil _ | x :: l => List.Forall_cons _ _ _ (Exp_induction x) (exps l) end in
  let stms := fix stms (l : list Stm) : all_stms P l :=
    match l with
    | [] => List.Forall_nil _
    | s :: l => List.Forall_cons _ _ _
                  (match s as s return P (stm_exp s) with
                   | SExp x => Exp_induction x | SAssign _ x => Exp_induction x
                   | SDecl _ _ x => Exp_induction x | SBlockReturn x => Exp_induction x
                   | SMethodReturn x => Exp_induction x end) (stms l)
    end in
  match e with
  | EConst c => Hconst c
  | EName x => Hname x
  | EField x => Hfield x
  | ENamespaced g => Hns g
  | EBlock ps b => Hblock ps b (stms b)
  | EAnd l r => Hand l r (Exp_induction l) (Exp_induction r)
  | EOr l r => Hor l r (Exp_induction l) (Exp_induction r)
  | EBinary op l r => Hbinary op l r (Exp_induction l) (Exp_induction r)
  | EUnary s e => Hunary s e (Exp_induction e)
  | ECall subj cls s vr args =>
      Hcall subj cls s vr args
        (match subj as o return on_option P o with Some x => Exp_induction x | None => I end) (exps args)
  | EList vs => Hlist vs (exps vs)
  | EIf g subj t e =>
      Hif g subj t e (Exp_induction subj) (stms t)
        (match e as o return on_option (all_stms P) o with Some b => stms b | None => I end)
  | EWhile st c b => Hwhile st c b (stms c) (stms b)
  end.
End induction.

(** ** Names of programs and names of the compiler *)

Definition ident_char (c : ascii) : bool :=
  let n := N_of_ascii c in
  ((48 <=? n) && (n <=? 57) || (65 <=? n) && (n <=? 90) || (97 <=? n) && (n <=? 122) ||
   (n =? 95) || (n =? 63))%N.

Fixpoint ident_chars (s : string) : bool :=
  match s with EmptyString => true | String c s => ident_char c && ident_chars s end.

(** A name of the grammar that is not one of a temporary. *)
Definition user_name (x : string) : bool := ident_chars x && negb (String.prefix "__qn_temp_" x).

Lemma ident_chars_app a b : ident_chars (a +:+ b) = ident_chars a && ident_chars b.
Proof. induction a as [|c a IH]; [done|].
  change (ident_chars (String c a +:+ b)) with (ident_char c && ident_chars (a +:+ b)).
  rewrite IH. cbn [ident_chars]. by rewrite andb_assoc.
Qed.

Lemma pretty_ident_chars (n : nat) : ident_chars (pretty n) = true.
Proof.
  assert (∀ (x : N) s, ident_chars s = true → ident_chars (pretty_N_go x s) = true) as Hgo.
  { intros x. induction (N.lt_wf_0 x) as [x _ IH]. intros s Hs.
    destruct (decide (0 < x)%N) as [Hx|Hx].
    - rewrite pretty_N_go_step by done. apply IH; [by apply N.div_lt|].
      cbn [ident_chars]. rewrite Hs, andb_true_r.
      assert (x `mod` 10 < 10)%N as Hd by (by apply N.mod_lt).
      generalize dependent (x `mod` 10)%N. intros d Hd.
      destruct d as [|[[[[]|[]|]|[[]|[]|]|]|[[[]|[]|]|[[]|[]|]|]|]]; try done; lia.
    - by replace x with 0%N by lia. }
  unfold pretty, pretty_nat, pretty, pretty_N. case_decide; [done|]. by apply Hgo.
Qed.

Lemma split_at_dot a a' b b' :
  ident_chars a = true → ident_chars a' = true →
  a +:+ "·" +:+ b = a' +:+ "·" +:+ b' → a = a' ∧ b = b'.
Proof.
  revert a'. induction a as [|c a IH]; intros [|c' a']; intros Ha Ha' E.
  - by injection E.
  - injection E as Ec _. subst c'. by cbn in Ha'.
  - injection E as Ec _. subst c. by cbn in Ha.
  - apply andb_true_iff in Ha as [_ Ha]. apply andb_true_iff in Ha' as [_ Ha'].
    injection E as -> E. by destruct (IH a' Ha Ha' E) as [-> ->].
Qed.

Lemma minted_not_ident x n : ident_chars (minted_name x n) = false.
Proof.
  unfold minted_name. rewrite !ident_chars_app. cbn. by rewrite andb_false_r.
Qed.

Lemma temp_ident n : ident_chars (temp_name n) = true.
Proof. unfold temp_name. rewrite ident_chars_app. by rewrite pretty_ident_chars. Qed.

Lemma prefix_app a b : String.prefix a (a +:+ b) = true.
Proof.
  induction a as [|c a IH]; [by destruct b|].
  change (String c a +:+ b) with (String c (a +:+ b)). cbn.
  destruct (ascii_dec c c) as [_|[]]; [exact IH|done].
Qed.

Lemma user_ident x : user_name x = true → ident_chars x = true.
Proof. by intros [? _]%andb_true_iff. Qed.

Lemma temp_not_user n : user_name (temp_name n) = false.
Proof. unfold user_name, temp_name. by rewrite prefix_app, andb_false_r. Qed.

Lemma minted_not_user x n : user_name (minted_name x n) = false.
Proof. unfold user_name. by rewrite minted_not_ident. Qed.

Lemma minted_inj x n y m :
  user_name x = true → user_name y = true → minted_name x n = minted_name y m → x = y ∧ n = m.
Proof.
  intros Hx%user_ident Hy%user_ident E. apply split_at_dot in E as [-> E]; [|done..].
  split; [done|]. by apply (inj pretty) in E.
Qed.

Lemma temp_inj n m : temp_name n = temp_name m → n = m.
Proof. unfold temp_name. intros E. by apply (inj pretty), (inj (String.append "__qn_temp_")). Qed.

Lemma temp_not_minted n x m : temp_name n ≠ minted_name x m.
Proof. intros E. pose proof (temp_ident n) as Ht. by rewrite E, minted_not_ident in Ht. Qed.

(** A symbol the compiler will not mint any more. *)
Definition old (c : Compiler) (s : Symbol) : Prop :=
  (∀ k, temp_counter c < k → s ≠ temp_name k) ∧
  (∀ x k, user_name x = true → splice_rename_counter c ≤ k → s ≠ minted_name x k).

Lemma user_old c x : user_name x = true → old c x.
Proof.
  intros Hx. split; [intros k _ ->; by rewrite temp_not_user in Hx|].
  intros y k _ _ ->. by rewrite minted_not_user in Hx.
Qed.

(** ** What compiling leaves of the compiler *)

(** [s'] is [s] with the names [X] declared, and temporaries listed. *)
Definition grown (X : gset string) (s s' : Scope) : Prop :=
  renaming s' = renaming s ∧ is_init s' = is_init s ∧
  (∀ y, user_name y = true → y ∈ locals s' ↔ y ∈ locals s ∨ y ∈ X) ∧
  (∀ y, user_name y = true → y ∉ X → renames s' !! y = renames s !! y).

Definition grown_top (X : gset string) (ss ss' : list Scope) : Prop :=
  match ss, ss' with
  | s :: r, s' :: r' => grown X s s' ∧ Forall2 (grown ∅) r r'
  | [], [] => True
  | _, _ => False
  end.

Record adv (X : gset string) (c c' : Compiler) : Prop := {
  adv_temp : temp_counter c ≤ temp_counter c';
  adv_splice : splice_rename_counter c ≤ splice_rename_counter c';
  adv_params : param_override c' = param_override c;
  adv_self : self_override c' = self_override c;
  adv_scopes : grown_top X (scopes c) (scopes c') }.

Lemma grown_refl s : grown ∅ s s.
Proof. split_and!; [done..| |done]. intros y _. rewrite elem_of_empty. tauto. Qed.

Lemma grown_trans X Y s1 s2 s3 : grown X s1 s2 → grown Y s2 s3 → grown (X ∪ Y) s1 s3.
Proof.
  intros (R1 & I1 & L1 & N1) (R2 & I2 & L2 & N2). split_and!.
  - by rewrite R2.
  - by rewrite I2.
  - intros y Hy. rewrite L2, L1, elem_of_union by done. tauto.
  - intros y Hy [Hx Hn]%not_elem_of_union. by rewrite N2, N1.
Qed.

Lemma grown_all_refl ss : Forall2 (grown ∅) ss ss.
Proof. induction ss; constructor; [apply grown_refl|done]. Qed.

Lemma grown_all_trans ss1 ss2 ss3 :
  Forall2 (grown ∅) ss1 ss2 → Forall2 (grown ∅) ss2 ss3 → Forall2 (grown ∅) ss1 ss3.
Proof.
  intros H1; revert ss3; induction H1 as [|s1 s2 l1 l2 G _ IH]; intros ss3 H2; inversion H2; subst;
    constructor; [|by apply IH].
  rewrite <- (union_empty_l_L (∅ : gset string)). by eapply grown_trans.
Qed.

Lemma adv_refl c : adv ∅ c c.
Proof. split; try done. unfold grown_top. destruct (scopes c); [done|]. split; [apply grown_refl|apply grown_all_refl]. Qed.

Lemma adv_trans X Y c1 c2 c3 : adv X c1 c2 → adv Y c2 c3 → adv (X ∪ Y) c1 c3.
Proof.
  intros [T1 S1 P1 O1 G1] [T2 S2 P2 O2 G2]. split; [lia|lia|by rewrite P2|by rewrite O2|].
  unfold grown_top in *. destruct (scopes c1), (scopes c2), (scopes c3); try done.
  destruct G1 as [G1 A1], G2 as [G2 A2].
  split; [by eapply grown_trans|by eapply grown_all_trans].
Qed.

Lemma adv_trans_l X c1 c2 c3 : adv ∅ c1 c2 → adv X c2 c3 → adv X c1 c3.
Proof. intros. rewrite <- (union_empty_l_L X). by eapply adv_trans. Qed.

Lemma old_adv X c c' s : adv X c c' → old c s → old c' s.
Proof.
  intros Ha [Ht Hm]. destruct Ha as [A1 A2 _ _ _]. split.
  - intros k Hk. apply Ht. lia.
  - intros x k Hx Hk. apply Hm; [done|lia].
Qed.

(** A computation that declares [X] and adds temporaries. *)
Definition progresses {A} (X : gset string) (m : M A) : Prop :=
  ∀ c a c', m c = Ok (a, c') → adv X c c'.

Lemma progresses_ret {A} (a : A) : progresses ∅ (mret a).
Proof. intros c b c' [= <- <-]. apply adv_refl. Qed.

Lemma progresses_asks {A} (f : Compiler → A) : progresses ∅ (asks f).
Proof. intros c b c' [= <- <-]. apply adv_refl. Qed.

Lemma bind_ok {A B} (m : M A) (k : A → M B) c b c' :
  (m ≫= k) c = Ok (b, c') → ∃ a c1, m c = Ok (a, c1) ∧ k a c1 = Ok (b, c').
Proof. unfold mbind, M_bind. destruct (m c) as [[a c1]|e]; [eauto|done]. Qed.

Lemma progresses_bind {A B} X (m : M A) (k : A → M B) :
  progresses ∅ m → (∀ a, progresses X (k a)) → progresses X (m ≫= k).
Proof.
  intros Hm Hk c b c' (a & c1 & H1 & H2)%bind_ok. eapply adv_trans_l; [by eapply Hm|by eapply Hk].
Qed.

Lemma progresses_bind_l {A B} X Y (m : M A) (k : A → M B) :
  progresses X m → (∀ a, progresses Y (k a)) → progresses (X ∪ Y) (m ≫= k).
Proof.
  intros Hm Hk c b c' (a & c1 & H1 & H2)%bind_ok. eapply adv_trans; [by eapply Hm|by eapply Hk].
Qed.

Lemma progresses_in_scope {A} X s0 push (m : M A) :
  (∀ c, push c = set_scopes (s0 :: scopes c) c) → progresses X m → progresses ∅ (in_scope push m).
Proof.
  intros Hp Hm c a c' (u & c1 & [= <- <-] & H)%bind_ok.
  apply bind_ok in H as (r & c2 & H2 & H). apply bind_ok in H as (u' & c3 & [= <- <-] & [= -> <-]).
  apply Hm in H2 as [T S P O G]. rewrite Hp in *. split; try done. cbn in *.
  destruct (scopes c2) as [|s' r']; [done|]. destruct G as [_ G]. cbn.
  destruct G as [|s1 s2 l l' G1 G]; done.
Qed.

Lemma progresses_fresh_temp : progresses ∅ fresh_temp.
Proof.
  intros c t c' [= <- <-]. unfold list_temp. cbn [scopes new_temp_var].
  destruct (scopes c) as [|s r] eqn:E; (split; cbn; try done; try lia); rewrite E; [done|].
  split; [|apply grown_all_refl]. split_and!; [done..| |done].
  intros y Hy. cbn. rewrite elem_of_union, elem_of_singleton, elem_of_empty.
  split; [|tauto]. intros [->|?]; [|by left]. by rewrite temp_not_user in Hy.
Qed.

Lemma progresses_declare x mutable : progresses {[x]} (declare x mutable).
Proof.
  intros c [] c'. unfold declare, declare_local.
  destruct (scopes c) as [|s r] eqn:E; [done|]. case_bool_decide as Hx; [done|]. intros [= <-].
  split; cbn; try done; [by destruct (renaming s); lia|]. rewrite E.
  split; [|apply grown_all_refl]. split_and!; [done..| |]; cbn.
  - intros y _. rewrite elem_of_union. tauto.
  - intros y _ Hy%not_elem_of_singleton. destruct (renaming s); [|done]. by rewrite lookup_insert_ne.
Qed.

Create HintDb names discriminated.
#[export] Hint Resolve progresses_ret progresses_asks progresses_fresh_temp : names.
#[export] Hint Resolve adv_refl : names.

Definition declared_in (s : Stm) : gset string :=
  match s with SDecl _ x _ => {[x]} | _ => ∅ end.
Definition declared_names (stms : list Stm) : gset string := ⋃ (declared_in <$> stms).

Lemma declared_nothing stms : existsb declares stms = false → declared_names stms = ∅.
Proof.
  induction stms as [|s l IH]; [done|]. cbn. intros [H1 H2]%orb_false_iff.
  unfold declared_names in *. cbn. rewrite IH by done. destruct s; try done; apply union_empty_l_L.
Qed.

Section lists.
Context (resolve : Exp → M Node).

Lemma resolve_args_progresses es :
  Forall (λ e, progresses ∅ (resolve e)) es → progresses ∅ (resolve_args resolve es).
Proof.
  induction 1 as [|e es He _ IH]; cbn; [apply progresses_ret|].
  apply progresses_bind; [done|intros n]. apply progresses_bind; [done|intros ns; apply progresses_ret].
Qed.

Lemma resolve_stm_progresses s :
  progresses ∅ (resolve (stm_exp s)) → progresses (declared_in s) (resolve_stm resolve s).
Proof.
  intros He. destruct s as [e|lv e|mutable x e|e|e]; cbn [resolve_stm stm_exp declared_in] in *.
  - apply progresses_bind; [done|intros; apply progresses_ret].
  - apply progresses_bind; [done|intros n]. apply progresses_bind; [|intros; apply progresses_ret].
    intros c t c'. unfold store_target. destruct (lvalue_store lv c); [|done]. intros [= <- <-]. apply adv_refl.
  - rewrite <- (union_empty_l_L {[x]}). apply progresses_bind_l.
    { unfold validate_decl. destruct (starts_uppercase x); [by intros ???|apply progresses_ret]. }
    intros []. rewrite <- (union_empty_r_L {[x]}).
    apply progresses_bind_l; [apply progresses_declare|]. intros [].
    apply progresses_bind; [done|intros n]. apply progresses_bind; eauto with names.
  - apply progresses_bind; [done|intros; apply progresses_ret].
  - apply progresses_bind; [done|intros; apply progresses_ret].
Qed.

Lemma resolve_body_progresses stms :
  all_stms (λ e, progresses ∅ (resolve e)) stms →
  progresses (declared_names stms) (resolve_body resolve stms).
Proof.
  induction 1 as [|s stms Hs _ IH]; [apply progresses_ret|]. cbn [resolve_body].
  unfold declared_names in *. cbn. apply progresses_bind_l; [by apply resolve_stm_progresses|].
  intros n. rewrite <- (union_empty_r_L (⋃ _)).
  apply progresses_bind_l; [done|intros ns; apply progresses_ret].
Qed.

Lemma splice_progresses stms :
  all_stms (λ e, progresses ∅ (resolve e)) stms → progresses ∅ (splice_block_body resolve stms).
Proof.
  intros Hs%resolve_body_progresses. unfold splice_block_body.
  destruct (existsb declares stms) eqn:E.
  - by eapply progresses_in_scope; [|exact Hs].
  - by rewrite declared_nothing in Hs.
Qed.

Lemma block_progresses params stms template :
  all_stms (λ e, progresses ∅ (resolve e)) stms →
  progresses ∅ (resolve_block template resolve params stms).
Proof.
  intros Hs%resolve_body_progresses. apply progresses_bind; [|intros; apply progresses_ret].
  by eapply progresses_in_scope; [|exact Hs].
Qed.

Lemma bind_args_progresses params args :
  Forall (λ e, progresses ∅ (resolve e)) args → progresses ∅ (bind_args resolve params args).
Proof.
  intros Ha; revert params; induction Ha as [|a args Ha _ IH]; intros [|p params];
    try apply progresses_ret.
  cbn [bind_args]. apply progresses_bind; [done|intros n].
  apply progresses_bind; [apply progresses_fresh_temp|intros t].
  apply progresses_bind; [done|intros [bs ns]; apply progresses_ret].
Qed.

Lemma method_body_progresses {A} bs o (m : M A) :
  progresses ∅ m → progresses ∅ (in_method_body bs o m).
Proof.
  intros Hm c a c' Hr. unfold in_method_body in Hr.
  apply bind_ok in Hr as (p & c1 & [= <- <-] & Hr). apply bind_ok in Hr as (s & c1 & [= <- <-] & Hr).
  apply bind_ok in Hr as (u & c1 & [= <- <-] & Hr). apply bind_ok in Hr as (r & c2 & H2 & Hr).
  apply bind_ok in Hr as (u' & c3 & [= <- <-] & [= <- <-]).
  apply Hm in H2 as [T S P O G]. by split.
Qed.

Lemma inline_method_progresses d b args sb :
  Forall (λ e, progresses ∅ (resolve e)) args → progresses ∅ (d (statements b)) →
  progresses ∅ (inline_method resolve d b args sb).
Proof.
  intros Ha Hd. apply progresses_bind; [by apply bind_args_progresses|intros [bs ns]].
  apply progresses_bind; [by apply method_body_progresses|intros; apply progresses_ret].
Qed.

Lemma receiver_progresses subj :
  on_option (λ e, progresses ∅ (resolve e)) subj → progresses ∅ (resolve_receiver resolve subj).
Proof. destruct subj; cbn; [done|]. intros _. apply progresses_asks. Qed.
End lists.

(** ** The forms of a call *)

Section forms.
Context (own_bodies : gmap string MethodBlock) (class_bodies : gmap string (gmap string MethodBlock)).

(** What a splice relies on: the body is in a table, fits the arguments, and declares nothing. *)
Definition spliceable (b : MethodBlock) (args : list Exp) : Prop :=
  existsb declares (statements b) = false ∧ existsb stm_escapes (statements b) = false ∧
  length (arguments b) = length args.

Lemma fits_spliceable b args : fits b args = true → spliceable b args.
Proof.
  unfold fits, is_inlinable_body. intros [[_ Hb]%andb_true_iff Hl%Nat.eqb_eq]%andb_true_iff.
  split_and!; [| |done]; induction (statements b) as [|s l IH]; try done; cbn in *;
    apply andb_true_iff in Hb as [[?%negb_true_iff ?%negb_true_iff]%andb_true_iff Hb];
    apply orb_false_iff; split; try done; by apply IH.
Qed.

Lemma call_form_spliced rebound subj cls sel vr args b :
  call_form own_bodies class_bodies rebound subj cls sel vr args = Spliced b →
  own_bodies !! sel = Some b ∧ spliceable b args ∧ rebound = false ∧ is_self subj = true.
Proof.
  unfold call_form, try_inline_self_send, try_inline_exact_receiver. intros E.
  destruct (is_self subj && negb rebound && negb vr) eqn:Hc.
  - destruct (own_bodies !! sel) as [b'|]; cbn in E; [destruct (fits b' args) eqn:Hf|]; simplify_eq;
      [|repeat case_match; done..].
    apply andb_true_iff in Hc as [[Hs Hr%negb_true_iff]%andb_true_iff _].
    split_and!; [done|by apply fits_spliceable|done|done].
  - repeat case_match; done.
Qed.

Lemma call_form_spliced_on rebound subj cls sel vr args b :
  call_form own_bodies class_bodies rebound subj cls sel vr args = SplicedOn b →
  spliceable b args ∧ is_Some subj ∧ ∃ c bs, class_bodies !! c = Some bs ∧ bs !! sel = Some b.
Proof.
  unfold call_form. destruct (try_inline_self_send _ _ _ _ _ _); [done|].
  unfold try_inline_exact_receiver. destruct subj as [e|]; [|done]. destruct cls as [cl|]; [|done].
  destruct vr; [done|]. destruct (class_bodies !! cl) as [bs|] eqn:Eb; [|done]. cbn.
  destruct (bs !! sel) as [b'|] eqn:Es; [|done]. intros E.
  assert (fits b' args = true ∧ b' = b) as [Hf ->].
  { destruct args, (field_accessor_field b'); try done;
      destruct (fits b' _) eqn:Hf; simplify_eq; done. }
  split_and!; [by apply fits_spliceable|done|eauto].
Qed.

Lemma call_form_accessor rebound subj cls sel vr args f :
  call_form own_bodies class_bodies rebound subj cls sel vr args = Accessor f →
  args = [] ∧ is_Some subj ∧ ∃ b, field_accessor_field b = Some f.
Proof.
  unfold call_form. destruct (try_inline_self_send _ _ _ _ _ _); [done|].
  unfold try_inline_exact_receiver. destruct subj as [e|]; [|done]. destruct cls as [cl|]; [|done].
  destruct vr; [done|]. destruct (_ ≫= _) as [b'|]; [|done].
  destruct args; [|by destruct (fits b' _)].
  destruct (field_accessor_field b') as [f'|] eqn:Ef; [|by destruct (fits b' _)].
  intros [= ->]. eauto.
Qed.

Context (template : list Symbol → list Stmt → StaticBlock).

Lemma resolve_exp_progresses deeper e :
  (∀ d stms, deeper = Some d → existsb declares stms = false → progresses ∅ (d stms)) →
  progresses ∅ (resolve_exp own_bodies class_bodies template deeper e).
Proof.
  intros Hd. induction e as [c|x|x|g|ps b IH|l r IHl IHr|l r IHl IHr|op l r IHl IHr|s e IH
    |subj cls s vr args IHs IHa|vs IH|g subj t e IHs IHt IHe|st c b IHc IHb] using Exp_induction;
    cbn [resolve_exp]; try apply progresses_ret.
  - apply progresses_asks.
  - intros c n c'. unfold load_field_name. destruct (0 <? _); [done|]. intros [= <- <-]. apply adv_refl.
  - apply progresses_bind; [by apply block_progresses|intros; apply progresses_ret].
  - do 2 (apply progresses_bind; [done|intros ?]). apply progresses_ret.
  - do 2 (apply progresses_bind; [done|intros ?]). apply progresses_ret.
  - do 2 (apply progresses_bind; [done|intros ?]). apply progresses_ret.
  - apply progresses_bind; [done|intros ?]. apply progresses_ret.
  - apply progresses_bind; [apply progresses_asks|intros rb].
    pose proof (receiver_progresses _ subj IHs) as Hr.
    assert (progresses ∅ (r ← resolve_receiver (resolve_exp own_bodies class_bodies template deeper) subj;
              ns ← resolve_args (resolve_exp own_bodies class_bodies template deeper) args;
              mret (NCall r s ns))) as Hs.
    { apply progresses_bind; [done|intros n].
      apply progresses_bind; [by apply resolve_args_progresses|intros ns; apply progresses_ret]. }
    destruct deeper as [d|] eqn:Edeep; [|done].
    destruct (call_form _ _ _ _ _ _ _ _) as [b|f|b|] eqn:Ef; [| | |done].
    + apply call_form_spliced in Ef as (_ & Hb & _). apply inline_method_progresses; [done|].
      apply (Hd d); [done|apply Hb].
    + apply progresses_bind; [done|intros n; apply progresses_ret].
    + apply call_form_spliced_on in Ef as (Hb & _).
      apply progresses_bind; [done|intros n]. apply progresses_bind; [apply progresses_fresh_temp|intros t'].
      apply inline_method_progresses; [done|]. apply (Hd d); [done|apply Hb].
  - apply progresses_bind; [by apply resolve_args_progresses|intros ns; apply progresses_ret].
  - apply progresses_bind; [done|intros n]. apply progresses_bind; [by apply splice_progresses|intros nt].
    apply progresses_bind; [destruct e; [|apply progresses_ret]|intros ne].
    { apply progresses_bind; [by apply splice_progresses|intros ns; apply progresses_ret]. }
    apply progresses_bind; [|intros; apply progresses_ret].
    destruct g; [|apply progresses_ret].
    apply progresses_bind; [by apply block_progresses|intros ct].
    apply progresses_bind; [|intros; apply progresses_ret].
    destruct e; [|apply progresses_ret].
    apply progresses_bind; [by apply block_progresses|intros ce; apply progresses_ret].
  - apply progresses_bind; [by apply splice_progresses|intros nc].
    apply progresses_bind; [by apply splice_progresses|intros nb; apply progresses_ret].
Qed.

Lemma resolve_at_progresses d stms :
  progresses (declared_names stms) (resolve_at own_bodies class_bodies template d stms).
Proof.
  revert stms. induction d as [|d IH]; intros stms; cbn [resolve_at]; apply resolve_body_progresses;
    apply Forall_forall; intros s _; apply resolve_exp_progresses; intros d' stms'; [done|].
  intros [= <-] Hn. rewrite <- (declared_nothing _ Hn). apply IH.
Qed.
End forms.
