(* ===== verification/NamesSim.v ===== *)
(** * Frames of the language and cells of a frame

    The relation between an evaluation of [Lexical] and one of the nodes [Names] resolves to:
    the frames of the language are levels, each name of a level has a cell in the one frame
    that runs, cells of different names differ, and a cell that no level uses keeps its value. *)
From stdpp Require Import base numbers list strings gmap.
From stdpp Require Import options.
From S2P Require Import Prelude Instr Exec Fuse Lower LowerNodes Names Lexical NamesRel.
Local Open Scope nat_scope.

#[local] Arguments env_lookup : simpl never.
#[local] Arguments position : simpl never.

(** ** Cells of a frame *)

Definition cell (E : list (Symbol * Value)) (s : Symbol) : option Value :=
  env_lookup (mkEnvFrame None E) s.

Lemma cell_cons a b E s : cell ((a, b) :: E) s = if decide (a = s) then Some b else cell E s.
Proof.
  unfold cell, env_lookup. cbn [vars list_find fst]. destruct (decide (a = s)); [done|].
  by destruct (list_find _ E) as [[i [x v]]|].
Qed.

Lemma position_cons a b E s :
  position s ((a, b) :: E) = if decide (a = s) then Some 0 else S <$> position s E.
Proof.
  unfold position. cbn [list_find fst]. destruct (decide (a = s)); [done|].
  by destruct (list_find _ E) as [[i [x v]]|].
Qed.

Lemma position_cell E s : is_Some (position s E) ↔ is_Some (cell E s).
Proof.
  unfold position, cell, env_lookup. cbn [vars]. destruct (list_find _ E) as [[i q]|]; split; intros [? ?];
    try done; by eexists.
Qed.

Lemma cell_replace E k s v t :
  position s E = Some k → cell (<[k := (s, v)]> E) t = if decide (t = s) then Some v else cell E t.
Proof.
  revert k. induction E as [|[a b] E IH]; intros k; [done|]. rewrite position_cons.
  destruct (decide (a = s)) as [->|Hne].
  - intros [= <-]. cbn [insert list_insert]. rewrite !cell_cons.
    destruct (decide (s = t)), (decide (t = s)); congruence.
  - destruct (position s E) as [j|]; [|done]. intros [= <-]. cbn [insert list_insert].
    rewrite !cell_cons. rewrite IH by done.
    destruct (decide (a = t)), (decide (t = s)); congruence.
Qed.

Lemma cell_append E s v t :
  cell E s = None → cell (E ++ [(s, v)]) t = if decide (t = s) then Some v else cell E t.
Proof.
  induction E as [|[a b] E IH]; intros Hs.
  - cbn [app]. rewrite cell_cons. destruct (decide (s = t)), (decide (t = s)); congruence.
  - cbn [app]. rewrite !cell_cons in *. destruct (decide (a = s)); [done|]. rewrite IH by done.
    destruct (decide (a = t)), (decide (t = s)); congruence.
Qed.

Lemma cell_bind p E s v t :
  cell (vars (env_bind (mkEnvFrame p E) s v)) t = if decide (t = s) then Some v else cell E t.
Proof.
  unfold env_bind. cbn [vars parent]. destruct (position s E) as [k|] eqn:Hk; cbn [vars].
  - by apply cell_replace.
  - apply cell_append. apply eq_None_not_Some. rewrite <- position_cell, Hk. by intros [].
Qed.

(** ** The frame that runs, on the heap *)

Section frame.
Context (f : nat) (p : option nat).

Definition parents_below (h : Envs) : Prop :=
  ∀ i fr q, h !! i = Some fr → parent fr = Some q → q < i.

(** The heap of the lexical evaluator: the frame that runs has no locals. *)
Definition frame_ok (h : Envs) : Prop := h !! f = Some (mkEnvFrame p []) ∧ parents_below h.

Definition with_vars (E : list (Symbol * Value)) (h : Envs) : Envs := <[f := mkEnvFrame p E]> h.

(** Names stay bound, and [self] is the same. *)
Definition keeps (h h' : Envs) : Prop :=
  (∀ x, is_Some (env_get h f x) → is_Some (env_get h' f x)) ∧
  env_get h' f self_symbol = env_get h f self_symbol.

Lemma keeps_refl h : keeps h h.
Proof using. done. Qed.

Lemma keeps_trans h1 h2 h3 : keeps h1 h2 → keeps h2 h3 → keeps h1 h3.
Proof using. intros [A1 B1] [A2 B2]. split; [eauto|by rewrite B2]. Qed.

Lemma parent_below h q : frame_ok h → p = Some q → q < f.
Proof using. intros [Hf Hb] ->. by eapply Hb. Qed.

Lemma with_vars_below E h : frame_ok h → parents_below (with_vars E h).
Proof using.
  intros [Hf Hb] i fr q. unfold with_vars. rewrite lookup_insert_Some. intros [[<- <-]|[_ Hi]] Hq.
  - by eapply Hb.
  - by eapply Hb.
Qed.

Lemma with_vars_size E h : frame_ok h → size (with_vars E h) = size h.
Proof using. intros [Hf _]. unfold with_vars. by rewrite map_size_insert, Hf. Qed.

Lemma with_vars_self E h : with_vars E h !! f = Some (mkEnvFrame p E).
Proof using. apply lookup_insert_eq. Qed.

Lemma with_vars_other E h g : g ≠ f → with_vars E h !! g = h !! g.
Proof using. intros Hg. by apply lookup_insert_ne. Qed.

Lemma env_get_below E h n g x :
  parents_below h → g < f → env_get_fuel n (with_vars E h) g x = env_get_fuel n h g x.
Proof using.
  intros Hb. revert g. induction n as [|n IH]; intros g Hg; [done|]. cbn [env_get_fuel].
  rewrite with_vars_other by lia. destruct (h !! g) as [fr|] eqn:E1; [|done].
  cbn. destruct (env_lookup fr x); [done|]. destruct (parent fr) as [q|] eqn:Eq; [|done]. cbn.
  apply IH. pose proof (Hb _ _ _ E1 Eq). lia.
Qed.

Lemma env_get_frame h x :
  frame_ok h → env_get h f x = q ← p; env_get_fuel (size h) h q x.
Proof using. intros [Hf _]. unfold env_get. cbn [env_get_fuel]. by rewrite Hf. Qed.

Lemma env_get_with_vars E h x :
  frame_ok h →
  env_get (with_vars E h) f x = match cell E x with Some v => Some v | None => env_get h f x end.
Proof using.
  intros Hh. rewrite (env_get_frame h) by done. unfold env_get. rewrite with_vars_size by done.
  cbn [env_get_fuel]. rewrite with_vars_self. cbn.
  change (env_lookup (mkEnvFrame p E) x) with (cell E x). destruct (cell E x); [done|].
  destruct p as [q|] eqn:Ep; [|done]. cbn. apply env_get_below; [apply Hh|by eapply parent_below].
Qed.

(** A store finds the frame that binds the name, which is never the one without locals. *)
Lemma env_set_at n h g x v h' :
  env_set_fuel n h g x v = Some h' →
  ∃ i fr k, h !! i = Some fr ∧ position x (vars fr) = Some k ∧
    h' = <[i := mkEnvFrame (parent fr) (<[k := (x, v)]> (vars fr))]> h.
Proof using.
  revert g. induction n as [|n IH]; intros g; [done|]. cbn [env_set_fuel].
  destruct (h !! g) as [fr|] eqn:E1; [|done]. cbn.
  destruct (position x (vars fr)) as [k|] eqn:E2; [intros [= <-]; eauto 6|].
  destruct (parent fr) as [q|]; [|done]. cbn. apply IH.
Qed.

Lemma env_set_get n h g x v : is_Some (env_set_fuel n h g x v) ↔ is_Some (env_get_fuel n h g x).
Proof using.
  revert g. induction n as [|n IH]; intros g; [split; by intros []|]. cbn [env_set_fuel env_get_fuel].
  destruct (h !! g) as [fr|]; [|split; by intros []]. cbn.
  pose proof (position_cell (vars fr) x) as Hp. unfold cell in Hp.
  change (env_lookup (mkEnvFrame None (vars fr)) x) with (env_lookup fr x) in Hp.
  destruct (position x (vars fr)), (env_lookup fr x); try (split; by eauto).
  - destruct Hp as [[] _]; by eauto.
  - destruct Hp as [_ []]; by eauto.
  - destruct (parent fr) as [q|]; [apply IH|split; by intros []].
Qed.

Lemma env_set_below E h n g x v :
  parents_below h → g < f →
  env_set_fuel n (with_vars E h) g x v = with_vars E <$> env_set_fuel n h g x v.
Proof using.
  intros Hb. revert g. induction n as [|n IH]; intros g Hg; [done|]. cbn [env_set_fuel].
  rewrite with_vars_other by lia. destruct (h !! g) as [fr|] eqn:E1; [|done].
  cbn. destruct (position x (vars fr)) as [k|].
  - cbn. unfold with_vars. f_equal. by rewrite insert_insert_ne by lia.
  - destruct (parent fr) as [q|] eqn:Eq; [|done]. cbn. apply IH. pose proof (Hb _ _ _ E1 Eq). lia.
Qed.

Lemma env_set_outer E h x v h' :
  frame_ok h → cell E x = None → env_set h f x v = Some h' →
  env_set (with_vars E h) f x v = Some (with_vars E h').
Proof using.
  intros Hh Hc. unfold env_set. rewrite with_vars_size by done. cbn [env_set_fuel].
  rewrite with_vars_self. destruct Hh as [Hf Hb]. rewrite Hf. cbn.
  change (position x []) with (@None nat).
  destruct (position x E) as [k|] eqn:Hk.
  { destruct (position_cell E x) as [[v' Hv] _]; [by rewrite Hk|]. by rewrite Hv in Hc. }
  destruct p as [q|] eqn:Ep; [|done]. cbn. intros Hs.
  rewrite env_set_below by (done || by eapply Hb). by rewrite Hs.
Qed.

Lemma env_set_cell E h s v :
  frame_ok h → is_Some (cell E s) →
  ∃ E', env_set (with_vars E h) f s v = Some (with_vars E' h) ∧
    ∀ t, cell E' t = if decide (t = s) then Some v else cell E t.
Proof using.
  intros Hh Hc. unfold env_set. cbn [env_set_fuel]. rewrite with_vars_self. cbn.
  apply position_cell in Hc as [k Hk]. rewrite Hk. exists (<[k := (s, v)]> E).
  split; [|intros t; by apply cell_replace]. unfold with_vars. by rewrite insert_insert_eq.
Qed.

(** What an assignment behind the frame leaves. *)
Lemma env_set_keeps h x v h' :
  frame_ok h → x ≠ self_symbol → env_set h f x v = Some h' → frame_ok h' ∧ keeps h h'.
Proof using.
  intros [Hf Hb] Hx Hs. pose proof (env_set_at _ _ _ _ _ _ Hs) as (i & fr & k & Hi & Hk & ->).
  assert (i ≠ f) as Hne. { intros ->. rewrite Hf in Hi. by simplify_eq/=. }
  set (h2 := <[i:=mkEnvFrame (parent fr) (<[k:=(x, v)]> (vars fr))]> h) in *.
  assert (∀ q y, env_lookup (mkEnvFrame q (<[k:=(x, v)]> (vars fr))) y =
            if decide (y = x) then Some v else env_lookup fr y) as Hl.
  { intros q y. pose proof (cell_replace (vars fr) k x v y Hk) as Hc. by destruct q. }
  assert (∀ n g y, (y ≠ x → env_get_fuel n h2 g y = env_get_fuel n h g y) ∧
            (is_Some (env_get_fuel n h g y) → is_Some (env_get_fuel n h2 g y))) as Hg.
  { induction n as [|n IH]; intros g y; cbn [env_get_fuel]; [done|]. unfold h2.
    destruct (decide (g = i)) as [->|Hgi].
    - rewrite lookup_insert_eq, Hi. cbn. rewrite Hl. case_decide as Hy; [by eauto|].
      destruct (env_lookup fr y); [done|]. destruct (parent fr); [|done]. apply IH.
    - rewrite lookup_insert_ne by done. destruct (h !! g) as [fr'|]; [|done]. cbn.
      destruct (env_lookup fr' y); [done|]. destruct (parent fr'); [|done]. apply IH. }
  assert (size h2 = size h) as Hsz by (unfold h2; by rewrite map_size_insert, Hi).
  split; [split|split].
  - unfold h2. by rewrite lookup_insert_ne.
  - intros j fr' q. unfold h2. rewrite lookup_insert_Some. intros [[<- <-]|[_ Hj]] Hq; [by eapply (Hb i fr)|by eapply Hb].
  - intros y. unfold env_get. rewrite Hsz. apply Hg.
  - unfold env_get. rewrite Hsz. by apply Hg.
Qed.
End frame.

(** ** Programs whose names mean what they say

    [N] holds every name a block may declare or have in scope.  [P] are the names that must not
    be used: one whose initializer runs, and in the body of a method the names of [N] that are
    not its parameters.  [O] are the parameters of the method, which no arm declares again.  A
    block literal that stays a block is left out, and so is a guarded conditional, which
    carries its arms as blocks. *)
Definition local_name (x : string) : bool :=
  user_name x && bool_decide (x ≠ "self") && negb (reserved x).

Definition is_block (c : Constant) : bool := match c with CBlock _ => true | _ => false end.

Section well_named.
Context (N O : gset string) (on_receiver : bool).

Definition uses_name (x : string) (P : gset string) : bool :=
  reserved x || bool_decide (x = "self") || (user_name x && bool_decide (x ∉ P)).

Definition sets_name (lv : LValue) (P : gset string) : bool :=
  match lv with
  | LNamespaced _ => true
  | LName instance x =>
      reserved x || starts_uppercase x ||
      (if instance then negb on_receiver else local_name x && bool_decide (x ∉ P))
  end.

Definition declares_name (x : string) : bool :=
  local_name x && bool_decide (x ∈ N) && bool_decide (x ∉ O).

Section lists.
Context (ok : Exp → gset string → bool).

Definition ok_stm (s : Stm) (P : gset string) : bool :=
  match s with
  | SExp e | SBlockReturn e | SMethodReturn e => ok e P
  | SAssign lv e => ok e P && sets_name lv P
  | SDecl _ x e => declares_name x && ok e ({[x]} ∪ P)
  end.

(** A name can be used once its initializer has run. *)
Definition after_stm (s : Stm) (P : gset string) : gset string :=
  match s with SDecl _ x _ => P ∖ {[x]} | _ => P end.

Fixpoint ok_stms (stms : list Stm) (P : gset string) : bool :=
  match stms with
  | [] => true
  | s :: rest => ok_stm s P && ok_stms rest (after_stm s P)
  end.
End lists.

Fixpoint ok_exp (e : Exp) (P : gset string) : bool :=
  match e with
  | EConst c => negb (is_block c)
  | EName x => uses_name x P
  | EField _ | ENamespaced _ => true
  | EBlock _ _ => false
  | EAnd l r | EOr l r | EBinary _ l r => ok_exp l P && ok_exp r P
  | EUnary _ e => ok_exp e P
  | ECall subj _ _ _ args =>
      match subj with Some e => ok_exp e P | None => true end && forallb (λ e, ok_exp e P) args
  | EList vs => forallb (λ e, ok_exp e P) vs
  | EIf guarded subj t e =>
      negb guarded && ok_exp subj P && ok_stms ok_exp t P &&
      match e with Some e => ok_stms ok_exp e P | None => true end
  | EWhile _ c b => ok_stms ok_exp c P && ok_stms ok_exp b P
  end.

Definition well_named (stms : list Stm) (P : gset string) : bool := ok_stms ok_exp stms P.
End well_named.

(** The body of a method uses its own names and no other local. *)
Definition well_named_method (N : gset string) (on_receiver : bool) (b : MethodBlock) : bool :=
  bool_decide (NoDup (arguments b)) && forallb local_name (arguments b) &&
  well_named N (list_to_set (arguments b)) on_receiver (statements b)
    (N ∖ list_to_set (arguments b)).

(** ** Levels and cells *)

Abbreviation view := (list (gmap string Symbol)).

Fixpoint view_get (V : view) (x : string) : option Symbol :=
  match V with
  | [] => None
  | σ :: V => match σ !! x with Some s => Some s | None => view_get V x end
  end.

Definition is_cell (V : view) (s : Symbol) : Prop := ∃ σ x, σ ∈ V ∧ σ !! x = Some s.

Fixpoint cells_apart (V : view) : Prop :=
  match V with
  | [] => True
  | σ :: V' =>
      (∀ x y s, σ !! x = Some s → σ !! y = Some s → x = y) ∧
      (∀ x s, σ !! x = Some s → ¬ is_cell V' s) ∧ cells_apart V'
  end.

Definition level_ok (E : list (Symbol * Value)) (σ : gmap string Symbol) (m : gmap string Value) : Prop :=
  ∀ x, match σ !! x with
       | Some s => ∃ v, cell E s = Some v ∧ m !! x = Some v
       | None => m !! x = None
       end.

Lemma is_cell_cons σ V s : is_cell (σ :: V) s ↔ (∃ x, σ !! x = Some s) ∨ is_cell V s.
Proof.
  split.
  - intros (σ' & x & [->|Hin]%elem_of_cons & Hx); [left; eauto|right; by exists σ', x].
  - intros [[x Hx]|(σ' & x & Hin & Hx)]; [exists σ, x|exists σ', x]; (split; [|done]); [left|by right].
Qed.

Lemma view_get_cell V x s : view_get V x = Some s → is_cell V s.
Proof.
  induction V as [|σ V IH]; cbn; [done|]. rewrite is_cell_cons.
  destruct (σ !! x) eqn:E; [intros [= <-]; left; eauto|right; by apply IH].
Qed.

Lemma level_ok_cells E E' σ m :
  level_ok E σ m → (∀ x s, σ !! x = Some s → cell E' s = cell E s) → level_ok E' σ m.
Proof.
  intros Hl Hc x. specialize (Hl x). destruct (σ !! x) as [s|] eqn:Es; [|done].
  by rewrite (Hc _ _ Es).
Qed.

Lemma levels_cells E E' V L :
  Forall2 (level_ok E) V L → (∀ s, is_cell V s → cell E' s = cell E s) → Forall2 (level_ok E') V L.
Proof.
  intros HF. induction HF as [|σ m V L Hl HF IH]; intros Hc; constructor.
  - eapply level_ok_cells; [done|]. intros x s Hx. apply Hc, is_cell_cons. eauto.
  - apply IH. intros s Hs. apply Hc, is_cell_cons. by right.
Qed.

Lemma lex_get_levels E V L x :
  Forall2 (level_ok E) V L → lex_get L x = view_get V x ≫= cell E.
Proof.
  induction 1 as [|σ m V L Hl _ IH]; [done|]. cbn. specialize (Hl x).
  destruct (σ !! x) as [s|]; [destruct Hl as (v & Hv & ->); cbn; by rewrite Hv|by rewrite Hl].
Qed.

Lemma lex_bound E V L x s :
  Forall2 (level_ok E) V L → view_get V x = Some s → is_Some (cell E s).
Proof.
  induction 1 as [|σ m V L Hl _ IH]; [done|]. cbn. specialize (Hl x).
  destruct (σ !! x) as [s'|]; [|done]. intros [= <-]. destruct Hl as (v & -> & _). eauto.
Qed.

Lemma lex_set_none E V L x v :
  Forall2 (level_ok E) V L → view_get V x = None → lex_set L x v = None.
Proof.
  induction 1 as [|σ m V L Hl _ IH]; [done|]. cbn. specialize (Hl x).
  destruct (σ !! x) as [s'|]; [done|]. rewrite Hl. intros Hn. by rewrite IH.
Qed.

Lemma lex_set_some E E' V L x s v :
  Forall2 (level_ok E) V L → cells_apart V → view_get V x = Some s →
  (∀ t, cell E' t = if decide (t = s) then Some v else cell E t) →
  ∃ L', lex_set L x v = Some L' ∧ Forall2 (level_ok E') V L'.
Proof.
  intros HF Ha Hx Hc. revert Ha Hx. induction HF as [|σ m V L Hl HF IH]; [done|].
  intros (Hσ & HV & Ha). cbn. pose proof (Hl x) as Hlx. destruct (σ !! x) as [s'|] eqn:Es.
  - intros [= ->]. destruct Hlx as (w & Hw & ->). eexists. split; [done|]. constructor.
    + intros y. destruct (decide (y = x)) as [->|Hy].
      * rewrite Es, lookup_insert_eq. exists v. split; [|done]. rewrite Hc. by rewrite decide_True.
      * rewrite lookup_insert_ne by done. specialize (Hl y).
        destruct (σ !! y) as [t|] eqn:Ey; [|done]. rewrite Hc.
        rewrite decide_False; [done|]. intros ->. apply Hy. by eapply Hσ.
    + eapply levels_cells; [done|]. intros t Ht. rewrite Hc, decide_False; [done|].
      intros ->. by eapply HV.
  - rewrite Hlx. intros Hx. destruct (IH Ha Hx) as (L' & -> & HF'). cbn.
    eexists. split; [done|]. constructor; [|done].
    eapply level_ok_cells; [done|]. intros y t Hy. rewrite Hc, decide_False; [done|].
    intros ->. eapply HV; [done|]. by eapply view_get_cell.
Qed.

(** ** The relation *)

Section relation.
Context `{Machine W} (fr : FrameInfo) (p : option nat) (N : gset string).
Abbreviation f := (f_env fr).
Abbreviation LMem := (LMem (W:=W)).

(** A name the compiler resolves to a local. *)
Definition known (c : Compiler) (x : string) : Prop :=
  is_Some (param_override c !! x) ∨ is_local c x = true.

Definition resolved (c : Compiler) (x : string) : Symbol :=
  default (local_symbol c x) (param_override c !! x).

(** The compiler resolves the names of the activation to the cells of the view. *)
Record static (c : Compiler) (V : view) (a : Activation) (P O : gset string) : Prop := {
  s_known x : local_name x = true → x ∉ P → x ∈ names a ↔ known c x;
  s_resolved x : local_name x = true → x ∉ P → x ∈ names a →
    resolved c x = default x (view_get V x);
  s_apart : cells_apart V;
  s_old s : is_cell V s → old c s;
  s_plain σ x s : σ ∈ V → σ !! x = Some s →
    local_name x = true ∧ reserved s = false ∧ (user_name s = true → s = x);
  s_rebound : rebound a = bool_decide (is_Some (self_override c));
  s_over s : self_override c = Some s → old c s ∧ ¬ is_cell V s;
  s_noself : param_override c !! "self" = None ∧ Forall (λ sp, "self" ∉ locals sp) (scopes c);
  s_noinit : Forall (λ sp, is_init sp = false) (scopes c);
  s_params x : is_Some (param_override c !! x) → x ∈ O;
  s_names x : local_name x = true → is_local c x = true → x ∈ N }.

(** The frame that runs holds the levels; a name without a level is bound behind it. *)
Record dyn (c : Compiler) (V : view) (a : Activation) (P : gset string) (m : LMem)
    (E : list (Symbol * Value)) : Prop := {
  d_levels : Forall2 (level_ok E) V (lex m);
  d_frame : frame_ok f p (outer m);
  d_plain x : local_name x = true → x ∉ P → x ∈ names a → view_get V x = None →
    cell E x = None ∧ is_Some (env_get (outer m) f x);
  d_me : match self_override c with
         | Some s => cell E s = Some (me a)
         | None => default VNil (match cell E self_symbol with
                                 | Some v => Some v
                                 | None => env_get (outer m) f self_symbol
                                 end) = me a
         end }.

(** From one memory to another: the cells the view does not use are as before. *)
Record after (c : Compiler) (V : view) (m : LMem) (E : list (Symbol * Value)) (m' : LMem)
    (E' : list (Symbol * Value)) : Prop := {
  a_levels : Forall2 (level_ok E') V (lex m');
  a_frame : frame_ok f p (outer m');
  a_keeps : keeps f (outer m) (outer m');
  a_cells s : old c s → ¬ is_cell V s → cell E' s = cell E s }.

Lemma local_user x : local_name x = true → user_name x = true.
Proof. unfold local_name. by intros [[? _]%andb_true_iff _]%andb_true_iff. Qed.

Lemma local_not_self x : local_name x = true → x ≠ self_symbol.
Proof. unfold local_name. by intros [[_ ?%bool_decide_eq_true_1]%andb_true_iff _]%andb_true_iff. Qed.

Lemma local_not_reserved x : local_name x = true → reserved x = false.
Proof. unfold local_name. by intros [_ ?%negb_true_iff]%andb_true_iff. Qed.

Lemma no_cell_self c V a P O : static c V a P O → ¬ is_cell V self_symbol.
Proof.
  intros Hs (σ & x & Hin & Hx). destruct (s_plain _ _ _ _ _ Hs _ _ _ Hin Hx) as (Hl & _ & E).
  apply (local_not_self x Hl). symmetry. by apply E.
Qed.

Lemma no_cell_plain c V a P O x :
  static c V a P O → local_name x = true → view_get V x = None → ¬ is_cell V x.
Proof.
  intros Hs Hx Hv (σ & y & Hin & Hy). destruct (s_plain _ _ _ _ _ Hs _ _ _ Hin Hy) as (_ & _ & E).
  rewrite <- (E (local_user x Hx)) in Hy. revert Hv Hin Hy. clear. induction V as [|σ' V IH]; [set_solver|].
  cbn. intros Hv [->|Hin]%elem_of_cons Hy; [by rewrite Hy in Hv|].
  destruct (σ' !! x); [done|]. by apply IH.
Qed.

Lemma after_refl c V a P m E : dyn c V a P m E → after c V m E m E.
Proof. intros []. by split. Qed.

Lemma after_trans c c1 V X m1 E1 m2 E2 m3 E3 :
  adv X c c1 → after c V m1 E1 m2 E2 → after c1 V m2 E2 m3 E3 → after c V m1 E1 m3 E3.
Proof.
  intros Ha [L1 F1 K1 C1] [L2 F2 K2 C2]. split; [done|done|by eapply keeps_trans|].
  intros s Hs Hn. rewrite C2, C1; [done|done|done|by eapply old_adv|done].
Qed.

Lemma after_weaken c c1 V X m E m' E' :
  adv X c c1 → after c1 V m E m' E' → after c V m E m' E'.
Proof. intros Ha [L F K C]. split; try done. intros s Hs. apply C. by eapply old_adv. Qed.

Lemma after_dyn c V a P O m E m' E' :
  static c V a P O → dyn c V a P m E → after c V m E m' E' → dyn c V a P m' E'.
Proof.
  intros Hs [L F D M] [L' F' K C]. split; [done|done| |].
  - intros x Hl Hx Hin Hv. destruct (D x Hl Hx Hin Hv) as [Hc Hb]. split; [|by apply K].
    rewrite C; [done|by apply user_old, local_user|by eapply no_cell_plain].
  - destruct (self_override c) as [s|] eqn:Eo.
    + destruct (s_over _ _ _ _ _ Hs s Eo) as [Ho Hn]. by rewrite C.
    + rewrite (C self_symbol); [|by apply user_old|by eapply no_cell_self].
      destruct K as [_ ->]. done.
Qed.

(** ** Compiling on *)

Lemma grown_local ss ss' x :
  Forall2 (grown ∅) ss ss' → user_name x = true →
  existsb (λ s, bool_decide (x ∈ locals s)) ss' = existsb (λ s, bool_decide (x ∈ locals s)) ss.
Proof.
  intros HF Hx. induction HF as [|s s' ss ss' (_ & _ & Hl & _) _ IH]; [done|]. cbn. rewrite IH. f_equal.
  apply bool_decide_ext. rewrite Hl by done. rewrite elem_of_empty. tauto.
Qed.

Lemma grown_symbol ss ss' x :
  Forall2 (grown ∅) ss ss' → user_name x = true → symbol_in ss' x = symbol_in ss x.
Proof.
  intros HF Hx. induction HF as [|s s' ss ss' (_ & _ & Hl & Hr) _ IH]; [done|]. cbn. rewrite IH.
  rewrite Hr by done.
  replace (bool_decide (x ∈ locals s')) with (bool_decide (x ∈ locals s)); [done|].
  apply bool_decide_ext. rewrite Hl by done. rewrite elem_of_empty. tauto.
Qed.

Lemma adv_grown c c' : adv ∅ c c' → Forall2 (grown ∅) (scopes c) (scopes c').
Proof.
  intros [_ _ _ _ G]. unfold grown_top in G. destruct (scopes c), (scopes c'); try done.
  destruct G. by constructor.
Qed.

Lemma adv_is_local c c' x : adv ∅ c c' → user_name x = true → is_local c' x = is_local c x.
Proof. intros Ha Hx. unfold is_local. f_equal. apply grown_local; [by apply adv_grown|done]. Qed.

Lemma adv_symbol c c' x : adv ∅ c c' → user_name x = true → local_symbol c' x = local_symbol c x.
Proof. intros Ha Hx. apply grown_symbol; [by apply adv_grown|done]. Qed.

Lemma adv_forall c c' (Q : Scope → Prop) :
  adv ∅ c c' → (∀ s s', grown ∅ s s' → Q s → Q s') → Forall Q (scopes c) → Forall Q (scopes c').
Proof.
  intros Ha%adv_grown HQ. induction Ha as [|s s' l l' Hg _ IH]; [done|].
  intros [Hs Hl]%Forall_cons_1. constructor; [by eapply HQ|by apply IH].
Qed.

Lemma static_adv c c' V a P O : adv ∅ c c' → static c V a P O → static c' V a P O.
Proof.
  intros Ha [K R A Ol Pl Rb Ov [Ns1 Ns2] Ni Pa Nm]. pose proof Ha as [_ _ EP EO _].
  assert (∀ x, local_name x = true → is_local c' x = is_local c x) as El
    by (intros x Hx%local_user; by apply adv_is_local).
  split; unfold known, resolved in *; rewrite ?EP, ?EO; try done.
  - intros x Hx. rewrite El by done. by apply K.
  - intros x Hx. rewrite (adv_symbol c c') by (done || by apply local_user). by apply R.
  - intros s Hs. eapply old_adv; [done|by apply Ol].
  - intros s Hs. destruct (Ov s Hs). split; [by eapply old_adv|done].
  - split; [done|]. eapply adv_forall; [done| |done]. intros s s' (_ & _ & Hl & _) Hn.
    rewrite Hl by done. rewrite elem_of_empty. tauto.
  - eapply adv_forall; [done| |done]. intros s s' (_ & -> & _) ?. done.
  - intros x Hx. rewrite El by done. by apply Nm.
Qed.

Lemma dyn_adv c c' V a P X m E : adv X c c' → dyn c V a P m E → dyn c' V a P m E.
Proof. intros [_ _ _ EO _] [L F D M]. split; [done..|]. by rewrite EO. Qed.

(** ** Outcomes *)

(** The memory of the nodes, from that of the source and the locals of the frame. *)
Definition real (E : list (Symbol * Value)) (m : LMem) : Mem (W:=W) :=
  (with_vars f p E (outer m), lworld m).

Definition agree (R : LMem → list (Symbol * Value) → Prop) (o : LOut (W:=W)) (o' : Out (W:=W)) : Prop :=
  match o, o' with
  | LVal v m, Val v' m' => v = v' ∧ ∃ E, m' = real E m ∧ R m E
  | LFails e m, Fails e' m' => e = e' ∧ ∃ E, m' = real E m ∧ R m E
  | LMethodResult v m, MethodResult v' m' => v = v' ∧ ∃ E, m' = real E m ∧ R m E
  | LGone, Gone => True
  | LMore, More => True
  | _, _ => False
  end.

Lemma agree_weaken (R R' : LMem → list (Symbol * Value) → Prop) o o' :
  (∀ m E, R m E → R' m E) → agree R o o' → agree R' o o'.
Proof. intros HR. destruct o, o'; cbn; try done; intros (-> & E & -> & HE); eauto. Qed.

Lemma agree_bind (R R' : LMem → list (Symbol * Value) → Prop) o o' k k' :
  agree R o o' → (∀ m E, R m E → R' m E) →
  (∀ v m E, R m E → agree R' (k v m) (k' v (real E m))) →
  agree R' (lbind o k) (obind o' k').
Proof.
  intros Ho HR Hk. destruct o, o'; cbn in *; try done.
  - destruct Ho as (-> & E & -> & HE). by apply Hk.
  - destruct Ho as (-> & E & -> & HE); eauto.
  - destruct Ho as (-> & E & -> & HE); eauto.
Qed.

(** A computation of the source and one of the nodes, in related memories. *)
Definition sim (c : Compiler) (V : view) (a : Activation) (P : gset string)
    (l : LMem → LOut (W:=W)) (r : Mem (W:=W) → Out (W:=W)) : Prop :=
  ∀ m E, dyn c V a P m E → agree (after c V m E) (l m) (r (real E m)).

Lemma sim_bind c c1 V a P O l r k k' :
  static c V a P O → adv ∅ c c1 → sim c V a P l r → (∀ v, sim c1 V a P (k v) (k' v)) →
  sim c V a P (λ m, lbind (l m) k) (λ m, obind (r m) k').
Proof.
  intros Hs Ha Hl Hk m E Hd. eapply agree_bind; [by apply Hl|done|].
  intros v m1 E1 H1. eapply agree_weaken; [|apply Hk].
  - intros m2 E2 H2. by eapply after_trans.
  - eapply dyn_adv; [done|]. by eapply after_dyn.
Qed.

Lemma sim_adv c c1 V a P X l r : adv X c c1 → sim c1 V a P l r → sim c V a P l r.
Proof.
  intros Ha Hl m E Hd. eapply agree_weaken; [|apply Hl; by eapply dyn_adv].
  intros m' E'. by apply (after_weaken _ _ _ X).
Qed.

Lemma sim_ret c V a P v : sim c V a P (LVal v) (Val v).
Proof. intros m E Hd. split; [done|]. exists E. split; [done|by eapply after_refl]. Qed.

Lemma sim_fails c V a P e : sim c V a P (LFails e) (Fails e).
Proof. intros m E Hd. split; [done|]. exists E. split; [done|by eapply after_refl]. Qed.

Lemma sim_if (b : bool) c V a P l r l' r' :
  sim c V a P l r → sim c V a P l' r' →
  sim c V a P (λ m, if b then l m else l' m) (λ m, if b then r m else r' m).
Proof. by destruct b. Qed.
End relation.
