(* ===== verification/NamesNodes.v ===== *)
(** * The resolved nodes agree with the source

    By induction on expressions and on the depth of inlining: the nodes [Names] resolves to and
    the evaluator of [Lexical] agree on every outcome, with the same rounds of the loops, for
    a machine that leaves the frame of a running block alone. *)
From stdpp Require Import base numbers list strings gmap.
From stdpp Require Import options.
From S2P Require Import Prelude Instr Exec Fuse FuseMap FuseSim FuseProps Lower LowerCode LowerNodes LowerProps Names Lexical NamesRel NamesSim.
Local Open Scope nat_scope.

#[local] Arguments cell : simpl never.
#[local] Arguments env_get : simpl never.

Section names.
Context `{Machine W} (fr : FrameInfo) (p : option nat) (N : gset string).
Abbreviation f := (f_env fr).
Abbreviation LMem := (Lexical.LMem (W:=W)).

(** ** Machines that leave the frame alone *)

(** A callee neither reads nor writes the locals of the frame, keeps its place in the chain and
    unbinds nothing behind it. *)
Definition quiet (act : Envs → W → option (result QuoinError Value * Envs * W)) : Prop :=
  ∀ h w, frame_ok f p h →
    (∀ E, act (with_vars f p E h) w = (λ '(r, h', w'), (r, with_vars f p E h', w')) <$> act h w) ∧
    (∀ r h' w', act h w = Some (r, h', w') → frame_ok f p h' ∧ keeps f h h').

(** No closure over the frame exists: the laws of a machine for a block without block literals. *)
Record PrivateFrame : Prop := {
  pf_ordinary : f_init fr = false;
  pf_call sel r args : quiet (call sel r args fr);
  pf_load g : quiet (operate (LoadGlobal g) [] fr);
  pf_store g v : quiet (operate (StoreGlobal g false) [v] fr);
  pf_list vs : quiet (operate (NewList (length vs)) vs fr);
  pf_constant c h w E : is_block c = false → frame_ok f p h →
    new_object c fr (with_vars f p E h) w = new_object c fr h w }.

Context (HM : PrivateFrame).
Abbreviation sim := (sim (W:=W) fr p).
Abbreviation static := (static N).
Abbreviation dyn := (dyn (W:=W) fr p).
Abbreviation after := (after (W:=W) fr p).
Abbreviation real := (real (W:=W) fr p).

Section leaves.
Context (c : Compiler) (V : view) (a : Activation) (P O : gset string).
Context (Hs : static c V a P O).

Lemma sim_answer act :
  quiet act → sim c V a P (λ m, l_answer m (act (outer m) (lworld m))) (λ m, of_answer (act m.1 m.2)).
Proof using.
  intros Hq m E [L F D M]. destruct (Hq (outer m) (lworld m) F) as [Hr Hk]. cbn. rewrite Hr.
  destruct (act (outer m) (lworld m)) as [[[r h'] w']|]; [|done].
  destruct (Hk _ _ _ eq_refl) as [F' K]. destruct r as [v|e]; cbn.
  all: split; [done|]; exists E; by split.
Qed.

Lemma sim_send sel r args : sim c V a P (l_send fr sel r args) (send fr sel r args).
Proof using HM. apply (sim_answer (call sel r args fr)). by apply pf_call. Qed.

Lemma sim_load g : sim c V a P (l_perform fr (LoadGlobal g) []) (perform fr (LoadGlobal g) []).
Proof using HM. apply (sim_answer (operate (LoadGlobal g) [] fr)). by apply pf_load. Qed.

Lemma sim_list vs : sim c V a P (l_perform fr (NewList (length vs)) vs) (perform fr (NewList (length vs)) vs).
Proof using HM. apply (sim_answer (operate (NewList (length vs)) vs fr)). by apply pf_list. Qed.

Lemma sim_store_global g v : sim c V a P (l_set_global fr g v) (assign fr (ToGlobal g) v).
Proof using HM Hs.
  eapply (sim_bind fr p N c c); [done|apply adv_refl| |intros ?; apply sim_ret].
  apply (sim_answer (operate (StoreGlobal g false) [v] fr)). by apply pf_store.
Qed.

Lemma sim_constant k :
  is_block k = false →
  sim c V a P (λ m, let '(v, m) := l_constant fr k m in LVal v m)
    (λ m, let '(v, m) := constant fr k m in Val v m).
Proof using HM.
  intros Hk m E Hd. pose proof (d_frame _ _ _ _ _ _ _ _ Hd) as F.
  unfold l_constant, constant. destruct k; try done; cbn.
  1-4: split; [done|]; exists E; split; [by destruct m|]; by split; destruct Hd.
  all: rewrite (pf_constant HM) by done; destruct (new_object _ _ _ _) as [q w]; cbn;
    (split; [done|]); exists E; split; [done|]; by split; destruct Hd.
Qed.

Lemma sim_result r : sim c V a P (l_result r) (of_result r).
Proof using. destruct r; [apply sim_ret|apply sim_fails]. Qed.

Lemma sim_binary op x y : sim c V a P (l_binary fr op x y) (binary fr op x y).
Proof using HM.
  destruct op as [k|k|sel]; cbn; [destruct x, y|destruct x, y|apply sim_send];
    first [apply sim_send|apply sim_result|apply sim_ret].
Qed.

(** ** Reads *)

Lemma read_cell m E x sym :
  dyn c V a P m E → local_name x = true → x ∉ P → x ∈ names a → sym = default x (view_get V x) →
  read_local fr sym (vm_of [] (real E m)) = l_read fr x m.
Proof using.
  intros Hd Hx HP Hin ->. destruct Hd as [L F D M]. unfold read_local, get_local, l_read. cbn [envs vm_of NamesSim.real fst].
  rewrite env_get_with_vars by done. rewrite (lex_get_levels _ _ _ x L).
  destruct (view_get V x) as [s|] eqn:Ev; cbn.
  - destruct (lex_bound _ _ _ _ _ L Ev) as [v Hv]. by rewrite Hv.
  - by destruct (D x Hx HP Hin Ev) as [-> _].
Qed.

Lemma read_me m E :
  dyn c V a P m E →
  read_local fr (default self_symbol (self_override c)) (vm_of [] (real E m)) = me a.
Proof using.
  intros [L F D M]. unfold read_local, get_local. cbn [envs vm_of NamesSim.real fst]. rewrite env_get_with_vars by done.
  destruct (self_override c) as [s|]; cbn; [by rewrite M|done].
Qed.

Lemma self_not_listed : existsb (λ s, bool_decide ("self" ∈ locals s)) (scopes c) = false.
Proof using Hs.
  destruct (s_noself _ _ _ _ _ _ Hs) as [_ Hn]. induction Hn as [|s l Hn _ IH]; [done|]. cbn.
  rewrite IH, orb_false_r. by apply bool_decide_eq_false_2.
Qed.

Lemma self_symbol_in : local_symbol c "self" = self_symbol.
Proof using Hs.
  unfold local_symbol. destruct (s_noself _ _ _ _ _ _ Hs) as [_ Hn].
  induction Hn as [|s l Hn _ IH]; [done|]. cbn. by rewrite bool_decide_eq_false_2.
Qed.

Lemma sim_me : sim c V a P (LVal (me a)) (λ m, Val (read_local fr (default self_symbol (self_override c)) (vm_of [] m)) m).
Proof using Hs.
  intros m E Hd. rewrite (read_me _ _ Hd). split; [done|]. exists E. split; [done|by eapply after_refl].
Qed.

Lemma known_name x :
  local_name x = true → x ∉ P → x ∉ names a → param_override c !! x = None ∧ is_local c x = false.
Proof using Hs.
  intros Hx HP Hn. rewrite (s_known _ _ _ _ _ _ Hs) in Hn by done. unfold known in Hn.
  split; [apply eq_None_not_Some; tauto|apply not_true_is_false; tauto].
Qed.

Lemma sim_name rounds x :
  uses_name x P = true → sim c V a P (l_name fr x a) (eval fr rounds (name_node c x)).
Proof using HM Hs.
  unfold uses_name, l_name, name_node. intros Hu.
  destruct (decide (x = "nil")) as [->|N1]; [apply sim_ret|].
  rewrite !(bool_decide_eq_false_2 (x = "nil")) by done.
  destruct (decide (x = "true")) as [->|N2]; [apply sim_ret|].
  rewrite !(bool_decide_eq_false_2 (x = "true")) by done.
  destruct (decide (x = "false")) as [->|N3]; [apply sim_ret|].
  rewrite !(bool_decide_eq_false_2 (x = "false")) by done.
  destruct (decide (x = "self")) as [->|N4].
  { rewrite (proj1 (s_noself _ _ _ _ _ _ Hs)). cbn [is_local bool_decide].
    assert (is_local c "self" = true) as -> by done.
    rewrite !(bool_decide_eq_true_2 ("self" = "self")) by done.
    replace (match self_override c with Some over => over | None => local_symbol c "self" end)
      with (default self_symbol (self_override c)); [apply sim_me|].
    rewrite self_symbol_in. by destruct (self_override c). }
  rewrite !(bool_decide_eq_false_2 (x = "self")) in * by done.
  assert (reserved x = false) as Hr by (unfold reserved; by rewrite !bool_decide_eq_false_2).
  rewrite Hr in Hu. cbn in Hu. apply andb_true_iff in Hu as [Hu HP%bool_decide_eq_true_1].
  assert (local_name x = true) as Hx.
  { unfold local_name. rewrite Hu, Hr. by rewrite bool_decide_eq_true_2. }
  case_bool_decide as Hin.
  - pose proof (s_resolved _ _ _ _ _ _ Hs x Hx HP Hin) as Hres. unfold resolved in Hres.
    pose proof Hin as Hk. rewrite (s_known _ _ _ _ _ _ Hs) in Hk by done.
    assert (∀ sym, sym = default x (view_get V x) →
              sim c V a P (λ m, LVal (l_read fr x m) m) (eval fr rounds (NLocal sym))) as Hread.
    { intros sym Hsym m E Hd. cbn [eval]. rewrite (read_cell m E x sym) by done.
      split; [done|]. exists E. split; [done|by eapply after_refl]. }
    destruct (param_override c !! x) as [s|] eqn:Eo; cbn in Hres; [by apply Hread|].
    destruct Hk as [[? Hk]|Hk]; [by rewrite Hk in Eo|]. rewrite Hk. apply Hread.
    by destruct (self_override c).
  - destruct (known_name x Hx HP Hin) as [-> ->]. apply sim_load.
Qed.

Lemma sim_field rounds x n c' :
  load_field_name x c = Ok (n, c') →
  c' = c ∧ sim c V a P (λ m, LVal (field_of (me a) x (lworld m)) m) (eval fr rounds n).
Proof using Hs.
  unfold load_field_name. destruct (0 <? _); [done|]. intros [= <- <-]. split; [done|].
  intros m E Hd. pose proof (read_me m E Hd) as Hm.
  destruct (self_override c) as [s|]; cbn [eval obind default from_option id] in *;
    unfold load_field; rewrite Hm; (split; [done|]); exists E; (split; [done|]); by eapply after_refl.
Qed.

(** ** Stores *)

Lemma sim_refuse x v t :
  reserved x = true → t = ToLocal x → sim c V a P (l_refuse x) (assign fr t v).
Proof using.
  intros Hr -> m E Hd. cbn. unfold store_set_local. rewrite Hr. cbn.
  split; [done|]. exists E. split; [done|]. by split; destruct Hd.
Qed.

Lemma assign_cell m E x s v :
  dyn c V a P m E → reserved s = false → reserved x = false → view_get V x = Some s →
  agree fr p (after c V m E) (l_set fr x v m) (assign fr (ToLocal s) v (real E m)).
Proof using HM Hs.
  intros Hd Hrs Hrx Hv. destruct Hd as [L F D M].
  destruct (env_set_cell f p E (outer m) s v F) as (E' & He & Hc); [by eapply lex_bound|].
  destruct (lex_set_some E E' V (lex m) x s v L) as (L' & Hl & HF);
    [by eapply s_apart|done|done|].
  unfold l_set. rewrite Hrx, Hl. cbn [assign]. unfold store_set_local. rewrite Hrs.
  rewrite (pf_ordinary HM). cbn [envs vm_of NamesSim.real fst world snd]. rewrite He. cbn.
  split; [done|]. exists E'. split; [done|]. split; [done|done|apply keeps_refl|].
  intros t _ Ht. rewrite Hc, decide_False; [done|]. intros ->. apply Ht. by eapply view_get_cell.
Qed.

Lemma assign_outer m E x v :
  dyn c V a P m E → local_name x = true → x ∉ P → x ∈ names a → view_get V x = None →
  agree fr p (after c V m E) (l_set fr x v m) (assign fr (ToLocal x) v (real E m)).
Proof using HM.
  intros Hd Hx HP Hin Hv. destruct Hd as [L F D M].
  destruct (D x Hx HP Hin Hv) as [Hc Hb].
  destruct (env_set (outer m) f x v) as [h'|] eqn:Es.
  2:{ exfalso. unfold env_get in Hb. unfold env_set in Es.
      apply (env_set_get _ _ _ _ v) in Hb as [? Hb]. by rewrite Hb in Es. }
  destruct (env_set_keeps f p (outer m) x v h' F) as [F' K]; [by apply local_not_self|done|].
  pose proof (env_set_outer f p E (outer m) x v h' F Hc Es) as Hr.
  unfold l_set. rewrite (local_not_reserved x) by done.
  rewrite (lex_set_none E V) by done. rewrite Es. cbn [assign]. unfold store_set_local.
  rewrite (local_not_reserved x) by done. rewrite (pf_ordinary HM).
  cbn [envs vm_of NamesSim.real fst world snd]. rewrite Hr. cbn.
  split; [done|]. exists E. split; [done|]. by split.
Qed.

Lemma sim_target lv t v :
  lvalue_store lv c = Ok t → sets_name (rebound a) lv P = true →
  sim c V a P (l_assign fr lv v a) (assign fr t v).
Proof using HM Hs.
  intros Ht Hb m E Hd. destruct lv as [instance x|g]; cbn [lvalue_store sets_name l_assign] in *;
    [|simplify_eq; by apply sim_store_global].
  unfold ident_store in Ht. destruct (reserved x) eqn:Hr; [simplify_eq; by apply sim_refuse|].
  destruct (starts_uppercase x); [simplify_eq; by apply sim_store_global|]. cbn [orb] in Hb.
  destruct instance.
  - destruct (0 <? _); [done|]. injection Ht as <-. apply negb_true_iff in Hb.
    rewrite (s_rebound _ _ _ _ _ _ Hs) in Hb. apply bool_decide_eq_false_1 in Hb.
    pose proof (read_me m E Hd) as Hm. destruct (self_override c); [by destruct Hb|]. cbn in Hm.
    unfold l_set_field. cbn [assign]. unfold store_field_value. rewrite Hm. cbn [world vm_of NamesSim.real snd].
    destruct (set_field (me a) x v (lworld m)); cbn; (split; [done|]); exists E; (split; [done|]);
      by split; destruct Hd.
  - apply andb_true_iff in Hb as [Hx HP%bool_decide_eq_true_1].
    assert (in_init_literal c = false) as Hi.
    { unfold in_init_literal. pose proof (s_noinit _ _ _ _ _ _ Hs) as Hn. by destruct Hn. }
    rewrite Hi in Ht.
    destruct (decide (x ∈ names a)) as [Hin|Hin].
    + assert (t = ToLocal (resolved c x)) as ->.
      { pose proof Hin as Hk. rewrite (s_known _ _ _ _ _ _ Hs) in Hk by done. unfold resolved.
        destruct (param_override c !! x) as [s|] eqn:Eo; [by simplify_eq|].
        destruct Hk as [[? Hk]|Hk]; [by rewrite Hk in Eo|]. rewrite Hk in Ht.
        destruct (is_immutable c x); by simplify_eq. }
      rewrite (s_resolved _ _ _ _ _ _ Hs) by done.
      destruct (view_get V x) as [s|] eqn:Ev; cbn [default from_option id]; [|by apply assign_outer].
      apply assign_cell; [done| |by apply local_not_reserved|done].
      destruct (view_get_cell _ _ _ Ev) as (σ & y & Hσ & Hy).
      by apply (s_plain _ _ _ _ _ _ Hs σ y s).
    + destruct (known_name x Hx HP Hin) as [Ho Hl]. by rewrite Ho, Hl in Ht.
Qed.

(** A new binding in a level of its own cell: the level that runs, one name larger. *)
Lemma declare_cell σ Vt m E x s v :
  V = σ :: Vt → dyn c V a P m E → reserved s = false → reserved x = false →
  ¬ is_cell V s →
  ∃ E', l_declare x v m = LVal v (set_lex (lex_bind (lex m) x v) m) ∧
    assign fr (ToNewLocal s) v (real E m) = Val v (real E' m) ∧
    (∀ t, cell E' t = if decide (t = s) then Some v else cell E t) ∧
    Forall2 (level_ok E') (<[x := s]> σ :: Vt) (lex_bind (lex m) x v).
Proof using Hs.
  intros -> Hd Hrs Hrx Hn. destruct Hd as [L F D M].
  set (E' := vars (env_bind (mkEnvFrame p E) s v)).
  assert (∀ t, cell E' t = if decide (t = s) then Some v else cell E t) as Hc
    by (intros t; apply cell_bind).
  exists E'. split_and!.
  - unfold l_declare. by rewrite Hrx.
  - cbn [assign]. unfold store_define_local. rewrite Hrs. cbn.
    unfold NamesSim.real, bind_in, with_vars. rewrite alter_insert_eq.
    unfold E', mem_of, env_bind. cbn. by destruct (fst <$> list_find _ E).
  - done.
  - inversion L as [|σ' l Vt' L' Hl HF]; subst. cbn [lex_bind]. constructor.
    + intros y. destruct (decide (y = x)) as [->|Hy].
      * rewrite !lookup_insert_eq. exists v. split; [|done]. rewrite Hc. by rewrite decide_True.
      * rewrite !lookup_insert_ne by done. specialize (Hl y). destruct (σ !! y) as [t|] eqn:Ey; [|done].
        rewrite Hc, decide_False; [done|]. intros ->. apply Hn, is_cell_cons. eauto.
    + eapply levels_cells; [done|]. intros t Ht. rewrite Hc, decide_False; [done|].
      intros ->. apply Hn, is_cell_cons. by right.
Qed.
End leaves.

(** ** Declarations *)

(** The scope of the statements and their level: a frame has the one level and no renaming. *)
Definition top_ok (c : Compiler) (V : view) : Prop :=
  ∃ sp rest σ Vt, scopes c = sp :: rest ∧ V = σ :: Vt ∧
    (∀ x s, local_name x = true → σ !! x = Some s → x ∈ locals sp) ∧
    (renaming sp = false →
       Vt = [] ∧ self_override c = None ∧ ∀ y, user_name y = true → renames sp !! y = None).

Definition renames_top (c : Compiler) : bool :=
  match scopes c with s :: _ => renaming s | [] => false end.

(** Declarations add cells to the innermost level; in a splice they are new. *)
Definition grows (c : Compiler) (V V' : view) : Prop :=
  V' = V ∨ ∃ σ σ' Vt, V = σ :: Vt ∧ V' = σ' :: Vt ∧
    (∀ x s, σ !! x = Some s → σ' !! x = Some s) ∧
    (∀ x s, σ' !! x = Some s → σ !! x = Some s ∨ (renames_top c = true → ¬ old c s)).

Lemma grows_cell c V V' s : grows c V V' → is_cell V s → is_cell V' s.
Proof using.
  intros [->|(σ & σ' & Vt & -> & -> & Hx & _)]; [done|]. rewrite !is_cell_cons.
  intros [[x Hs]|Hs]; [left; eauto|by right].
Qed.

Lemma adv_other X c c1 y :
  adv X c c1 → user_name y = true → y ∉ X →
  is_local c1 y = is_local c y ∧ local_symbol c1 y = local_symbol c y.
Proof using.
  intros [_ _ _ _ G] Hy Hn. unfold is_local, local_symbol, grown_top in *.
  destruct (scopes c) as [|s r], (scopes c1) as [|s' r']; try done.
  destruct G as [(_ & _ & Hl & Hr) G]. cbn.
  rewrite (grown_local r r'), (grown_symbol r r'), Hr by done.
  replace (bool_decide (y ∈ locals s')) with (bool_decide (y ∈ locals s)); [done|].
  apply bool_decide_ext. rewrite Hl by done. tauto.
Qed.

Lemma declares_local O x :
  declares_name N O x = true → local_name x = true ∧ x ∈ N ∧ x ∉ O.
Proof using.
  unfold declares_name.
  by intros [[? ?%bool_decide_eq_true_1]%andb_true_iff ?%bool_decide_eq_true_1]%andb_true_iff.
Qed.

(** While the initializer runs the name is there, and is not used. *)
Lemma static_initializer c c1 V a P O x :
  adv {[x]} c c1 → declares_name N O x = true → static c V a P O →
  static c1 V (with_name x a) ({[x]} ∪ P) O.
Proof using.
  intros Ha (Hx & HN & HO)%declares_local [K R A Ol Pl Rb Ov [Ns1 Ns2] Ni Pa Nm].
  pose proof Ha as [_ _ EP EO G].
  assert (∀ y, local_name y = true → y ≠ x →
            is_local c1 y = is_local c y ∧ local_symbol c1 y = local_symbol c y) as El.
  { intros y Hy%local_user Hne. eapply adv_other; [done|done|]. by apply not_elem_of_singleton. }
  assert (∀ Q : Scope → Prop, (∀ s s', grown {[x]} s s' → Q s → Q s') →
            (∀ s s', grown ∅ s s' → Q s → Q s') → Forall Q (scopes c) → Forall Q (scopes c1)) as Hall.
  { intros Q H1 H2 HQ. unfold grown_top in G. destruct (scopes c), (scopes c1); try done.
    destruct G as [G1 G]. apply Forall_cons_1 in HQ as [Hq HQ]. constructor; [by eapply H1|].
    clear - G H2 HQ. induction G as [|? ? ? ? G1 _ IH]; [done|].
    apply Forall_cons_1 in HQ as [Hq HQ]. constructor; [by eapply H2|by apply IH]. }
  split; unfold known, resolved in *; rewrite ?EP, ?EO; cbn [names with_name rebound]; try done.
  - intros y Hy [Hne%not_elem_of_singleton Hn]%not_elem_of_union.
    destruct (El y Hy Hne) as [-> _]. rewrite elem_of_union, elem_of_singleton, (K y) by done. tauto.
  - intros y Hy [Hne%not_elem_of_singleton Hn]%not_elem_of_union [?%elem_of_singleton|Hin]%elem_of_union; [done|].
    destruct (El y Hy Hne) as [_ ->]. by apply R.
  - intros s Hs. eapply old_adv; [done|by apply Ol].
  - intros s Hs. destruct (Ov s Hs). split; [by eapply old_adv|done].
  - split; [done|]. apply Hall; [| |done]; intros s s' (_ & _ & Hl & _) Hn; rewrite Hl by done.
    + rewrite elem_of_singleton. intros [?|E]; [done|]. by apply (local_not_self x Hx).
    + rewrite elem_of_empty. tauto.
  - apply Hall; [| |done]; intros s s' (_ & -> & _) Hn; done.
  - intros y Hy Hyl. destruct (decide (y = x)) as [->|Hne]; [done|].
    apply Nm; [done|]. by destruct (El y Hy Hne) as [<- _].
Qed.

Lemma dyn_initializer c c1 V a P x m E :
  adv {[x]} c c1 → dyn c V a P m E → dyn c1 V (with_name x a) ({[x]} ∪ P) m E.
Proof using.
  intros [_ _ _ EO _] [L F D M]. split; [done|done| |by rewrite EO].
  intros y Hy [Hne%not_elem_of_singleton Hn]%not_elem_of_union [?%elem_of_singleton|Hin]%elem_of_union; [done|].
  by apply D.
Qed.

Lemma not_pending (P : gset string) x y : y ∉ P ∖ {[x]} → y ≠ x → y ∉ {[x]} ∪ P.
Proof using.
  intros Hn Hne [?%elem_of_singleton|Hy]%elem_of_union; [done|].
  apply Hn, elem_of_difference. split; [done|]. by apply not_elem_of_singleton.
Qed.

(** After it, the name has its cell. *)
Lemma static_declared c σ Vt a P O x s :
  static c (σ :: Vt) a ({[x]} ∪ P) O → local_name x = true → x ∉ O → x ∈ names a →
  is_local c x = true → local_symbol c x = s → old c s → reserved s = false →
  (user_name s = true → s = x) → ¬ is_cell (σ :: Vt) s → self_override c ≠ Some s →
  static c (<[x := s]> σ :: Vt) a (P ∖ {[x]}) O.
Proof using.
  intros [K R A Ol Pl Rb Ov Ns Ni Pa Nm] Hx HO Hin Hl Hs Hold Hr Hu Hn Hov.
  assert (∀ t, is_cell (<[x := s]> σ :: Vt) t → t = s ∨ is_cell (σ :: Vt) t) as Hcell.
  { intros t. rewrite !is_cell_cons. intros [[y Hy]|Hc]; [|by right; right].
    apply lookup_insert_Some in Hy as [[_ ->]|[_ Hy]]; [by left|right; left; eauto]. }
  split; try done.
  - intros y Hy Hny. destruct (decide (y = x)) as [->|Hne].
    + split; [|done]. intros _. by right.
    + apply K; [done|]. by apply not_pending.
  - intros y Hy Hny Hyin. destruct (decide (y = x)) as [->|Hne].
    + cbn. rewrite lookup_insert_eq. cbn. unfold resolved.
      destruct (param_override c !! x) eqn:Ep; [|done]. destruct HO. apply Pa. eauto.
    + cbn. rewrite lookup_insert_ne by done. apply R; [done| |done]. by apply not_pending.
  - destruct A as (Hi & Hd & A). split_and!; [| |done].
    + intros y z t. rewrite !lookup_insert_Some.
      intros [[<- <-]|[_ Hy]] [[<- Hz]|[_ Hz]]; try done.
      * destruct Hn. apply is_cell_cons. eauto.
      * subst t. destruct Hn. apply is_cell_cons. eauto.
      * by eapply Hi.
    + intros y t. rewrite lookup_insert_Some. intros [[_ <-]|[_ Hy]]; [|by eapply Hd].
      intros Hc. apply Hn, is_cell_cons. by right.
  - intros t [->|Ht]%Hcell; [done|by apply Ol].
  - intros σ' y t [->|Hσ]%elem_of_cons.
    + rewrite lookup_insert_Some. intros [[<- <-]|[_ Hy]]; [done|].
      eapply (Pl σ); [by left|done].
    + intros Hy. eapply (Pl σ'); [by right|done].
  - intros t Ht. destruct (Ov t Ht) as [Ho Hc]. split; [done|].
    intros [->|Hc']%Hcell; done.
Qed.

Lemma minted_not_reserved x n : reserved (minted_name x n) = false.
Proof using.
  pose proof (minted_not_ident x n) as Hm. unfold reserved.
  rewrite !bool_decide_eq_false_2; [done|intros E; by rewrite E in Hm..].
Qed.

Lemma declare_facts c c1 c2 V a P O x mutable u :
  declare x mutable c = Ok (u, c1) → adv ∅ c1 c2 → top_ok c V → static c V a P O →
  declares_name N O x = true →
  ∃ σ Vt, V = σ :: Vt ∧ is_local c2 x = true ∧ old c2 (local_symbol c2 x) ∧
    reserved (local_symbol c2 x) = false ∧ (user_name (local_symbol c2 x) = true → local_symbol c2 x = x) ∧
    ¬ is_cell V (local_symbol c2 x) ∧ self_override c2 ≠ Some (local_symbol c2 x) ∧ σ !! x = None ∧
    (renames_top c = true → ¬ old c (local_symbol c2 x)) ∧
    top_ok c2 (<[x := local_symbol c2 x]> σ :: Vt) ∧ renames_top c2 = renames_top c.
Proof using.
  intros Hd Ha (sp & rest & σ & Vt & Es & -> & Hσ & Hren) Hs (Hx & HN & HO)%declares_local.
  pose proof (local_user x Hx) as Hu. rewrite (adv_symbol c1) by done. rewrite (adv_is_local c1) by done.
  unfold declare, declare_local in Hd. rewrite Es in Hd. case_bool_decide as Hfresh; [done|].
  injection Hd as <- <-. pose proof (adv_grown _ _ Ha) as Hg. cbn [scopes] in Hg.
  set (sym := default x ((if renaming sp then <[x:=minted_name x (splice_rename_counter c)]> (renames sp)
                          else renames sp) !! x)).
  assert (local_symbol (mkCompiler
    (mkScope ({[x]} ∪ locals sp) (if mutable then immutable sp else {[x]} ∪ immutable sp) (is_init sp)
       (renaming sp) (if renaming sp then <[x:=minted_name x (splice_rename_counter c)]> (renames sp)
                      else renames sp) :: rest)
    (temp_counter c) (if renaming sp then S (splice_rename_counter c) else splice_rename_counter c)
    (param_override c) (self_override c) (value_type_def_depth c)) x = sym) as ->.
  { unfold local_symbol. cbn. rewrite bool_decide_eq_true_2; [done|].
    apply elem_of_union. left. by apply elem_of_singleton. }
  assert (σ !! x = None) as Hnone.
  { apply eq_None_not_Some. intros [s Hxs]. apply Hfresh. by eapply Hσ. }
  assert (sym = if renaming sp then minted_name x (splice_rename_counter c) else x) as Esym.
  { unfold sym. destruct (renaming sp); [by rewrite lookup_insert_eq|].
    destruct (Hren eq_refl) as (_ & _ & Hr). by rewrite Hr. }
  assert (¬ is_cell (σ :: Vt) sym ∧ (renaming sp = true → ¬ old c sym) ∧
          self_override c ≠ Some sym) as (Hcell & Hnew & Hov).
  { rewrite Esym. destruct (renaming sp).
    - assert (¬ old c (minted_name x (splice_rename_counter c))) as Hn
        by (intros [_ Ho]; by eapply (Ho x (splice_rename_counter c))).
      split_and!; [|done|].
      + intros Hc. by apply Hn, (s_old _ _ _ _ _ _ Hs).
      + intros Ho. by destruct (s_over _ _ _ _ _ _ Hs _ Ho).
    - destruct (Hren eq_refl) as (-> & -> & _). split_and!; [|done|done].
      intros [[y Hy]|(? & ? & Hin & _)]%is_cell_cons; [|by apply elem_of_nil in Hin].
      destruct (s_plain _ _ _ _ _ _ Hs σ y x) as (_ & _ & E); [by left|done|].
      rewrite <- (E Hu) in Hy. by rewrite Hnone in Hy. }
  assert (renames_top c2 = renames_top c) as Hrt.
  { unfold renames_top. rewrite Es. inversion Hg as [|? s' ? l' (Er & _) _ Ec]; subst. by rewrite Er. }
  exists σ, Vt. split_and!; try done.
  - unfold is_local. cbn. rewrite (bool_decide_eq_true_2 (x ∈ {[x]} ∪ locals sp)) by
      (apply elem_of_union; left; by apply elem_of_singleton). by rewrite orb_true_r.
  - eapply old_adv; [exact Ha|]. rewrite Esym. destruct (renaming sp); [|by apply user_old].
    split; cbn.
    + intros k _ E. by eapply temp_not_minted.
    + intros y k Hy Hk E. apply minted_inj in E as [_ E]; [lia|done|done].
  - rewrite Esym. destruct (renaming sp); [apply minted_not_reserved|by apply local_not_reserved].
  - rewrite Esym. destruct (renaming sp); [by rewrite minted_not_user|done].
  - destruct Ha as [_ _ _ -> _]. done.
  - unfold renames_top. by rewrite Es.
  - destruct (scopes c2) as [|s' l'] eqn:Ec; [by inversion Hg|].
    apply Forall2_cons_1 in Hg as [(Er & _ & El & Erm) _].
    exists s', l', (<[x:=sym]> σ), Vt. split_and!; [done|done| |].
    + intros y t Hy Hyt. apply El; [by apply local_user|]. left. cbn.
      apply lookup_insert_Some in Hyt as [[<- _]|[_ Hyt]]; apply elem_of_union;
        [left; by apply elem_of_singleton|right; by eapply Hσ].
    + rewrite Er. cbn. intros Hnr. destruct (Hren Hnr) as (-> & Ho & Hr).
      split_and!; [done|by destruct Ha as [_ _ _ -> _]|].
      intros y Hy. rewrite Erm by done. cbn. rewrite Hnr. by apply Hr.
Qed.

Lemma dyn_declared c c2 σ Vt a P O x v s m E m1 E1 E2 :
  adv {[x]} c c2 → static c (σ :: Vt) a P O → dyn c (σ :: Vt) a P m E → after c (σ :: Vt) m E m1 E1 →
  static c2 (<[x := s]> σ :: Vt) (with_name x a) (P ∖ {[x]}) O →
  local_name x = true → (user_name s = true → s = x) →
  (∀ t, cell E2 t = if decide (t = s) then Some v else cell E1 t) →
  Forall2 (level_ok E2) (<[x := s]> σ :: Vt) (lex_bind (lex m1) x v) →
  let m2 := set_lex (lex_bind (lex m1) x v) m1 in
  dyn c2 (<[x := s]> σ :: Vt) (with_name x a) (P ∖ {[x]}) m2 E2.
Proof using.
  intros Ha Hs Hd Haf Hs2 Hx Hu Hc HL m2.
  pose proof (after_dyn _ _ _ _ _ _ _ _ _ _ _ _ Hs Hd Haf) as [L1 F1 D1 M1].
  assert (self_override c2 = self_override c) as EO by (by destruct Ha).
  split; [done|done| |].
  - intros y Hy Hn Hin Hv. cbn in Hv.
    destruct (decide (y = x)) as [->|Hne]; [by rewrite lookup_insert_eq in Hv|].
    rewrite lookup_insert_ne in Hv by done.
    assert (y ∉ P) as HnP.
    { intros HyP. apply Hn, elem_of_difference. split; [done|]. by apply not_elem_of_singleton. }
    assert (y ∈ names a) as Hya.
    { cbn in Hin. apply elem_of_union in Hin as [?%elem_of_singleton|?]; done. }
    destruct (D1 y Hy HnP Hya) as [Hcy Hb]; [exact Hv|]. split; [|done].
    rewrite Hc, decide_False; [done|]. intros ->. apply Hne, Hu. by apply local_user.
  - rewrite EO. destruct (self_override c) as [t|].
    + rewrite Hc, decide_False; [done|]. intros ->.
      destruct (s_over _ _ _ _ _ _ Hs2 _ EO) as [_ Hn]. apply Hn, is_cell_cons. left.
      exists x. apply lookup_insert_eq.
    + rewrite Hc, decide_False; [done|]. intros <-.
      apply (local_not_self x Hx). symmetry. by apply Hu.
Qed.

(** ** Statements *)

(** After statements: levels that have grown, or, without declarations, the same ones. *)
Definition stms_after (b : bool) (c : Compiler) (V : view) (m : LMem) (E : list (Symbol * Value))
    (m' : LMem) (E' : list (Symbol * Value)) : Prop :=
  ∃ V', grows c V V' ∧ (b = false → V' = V) ∧ after c V' m E m' E'.

Lemma after_stms_after b c V m E m' E' : after c V m E m' E' → stms_after b c V m E m' E'.
Proof using. intros Ha. exists V. split_and!; [by left|done|done]. Qed.

Lemma renames_top_adv c c1 : adv ∅ c c1 → renames_top c1 = renames_top c.
Proof using.
  intros Ha%adv_grown. unfold renames_top. inversion Ha as [|s s' l l' (E & _) _]; [done|]. by rewrite E.
Qed.

Lemma top_ok_adv c c1 V : adv ∅ c c1 → top_ok c V → top_ok c1 V.
Proof using.
  intros Ha (sp & rest & σ & Vt & Es & -> & Hσ & Hren).
  pose proof (adv_grown _ _ Ha) as Hg. rewrite Es in Hg.
  destruct (scopes c1) as [|s' l'] eqn:Ec; [by inversion Hg|].
  apply Forall2_cons_1 in Hg as [(Er & _ & El & Erm) _].
  exists s', l', σ, Vt. split_and!; [done|done| |].
  - intros x s Hx Hs. apply El; [by apply local_user|]. left. by eapply Hσ.
  - rewrite Er. intros Hnr. destruct (Hren Hnr) as (-> & Ho & Hr).
    split_and!; [done|by destruct Ha as [_ _ _ -> _]|]. intros y Hy. rewrite Erm by done. by apply Hr.
Qed.

Lemma grows_trans X c c2 V V1 V2 :
  adv X c c2 → renames_top c2 = renames_top c → grows c V V1 → grows c2 V1 V2 → grows c V V2.
Proof using.
  intros Ha Hr H1 [->|(σ & σ2 & Vt & -> & -> & Hs2 & Hn2)]; [done|].
  destruct H1 as [E|(σ0 & σ1 & Vt' & -> & E & Hs1 & Hn1)].
  - subst V. right. exists σ, σ2, Vt. split_and!; [done..|].
    intros x s Hx. destruct (Hn2 x s Hx) as [?|Hn]; [by left|right].
    intros Hrt Ho. eapply Hn; [by rewrite Hr|by eapply old_adv].
  - simplify_eq. right. exists σ0, σ2, Vt'. split_and!; [done..|eauto|].
    intros x s Hx. destruct (Hn2 x s Hx) as [Hx1|Hn]; [by apply Hn1|right].
    intros Hrt Ho. eapply Hn; [by rewrite Hr|by eapply old_adv].
Qed.

Lemma stms_after_trans b b' X c c2 V V1 m E m2 E2 m' E' :
  adv X c c2 → renames_top c2 = renames_top c → grows c V V1 → (b = false → V1 = V ∧ b' = false) →
  after c V1 m E m2 E2 → stms_after b' c2 V1 m2 E2 m' E' → stms_after b c V m E m' E'.
Proof using.
  intros Ha Hr Hg Hb [L1 F1 K1 C1] (V2 & Hg2 & Hb2 & [L2 F2 K2 C2]).
  exists V2. split_and!; [by eapply grows_trans|intros E0; destruct (Hb E0) as [<- ?]; by apply Hb2|].
  split; [done|done|by eapply keeps_trans|].
  intros s Ho Hn. rewrite C2, C1; [done|done| |by eapply old_adv|done].
  intros Hc. apply Hn. by eapply grows_cell.
Qed.

Lemma obind_assoc (o : Out (W:=W)) k k2 : obind (obind o k) k2 = obind o (λ v m, obind (k v m) k2).
Proof using. by destruct o. Qed.

Lemma lbind_assoc (o : LOut (W:=W)) k k2 : lbind (lbind o k) k2 = lbind o (λ v m, lbind (k v m) k2).
Proof using. by destruct o. Qed.

Lemma eval_stmts_step rounds n ns m :
  eval_stmts (eval fr rounds) (SExpr n :: ns) m =
  obind (eval fr rounds n m) (λ v m, match ns with [] => Val v m | _ => eval_stmts (eval fr rounds) ns m end).
Proof using. destruct ns; [|done]. cbn. by rewrite obind_val. Qed.

Section nodes.
Context (own_bodies : gmap string MethodBlock) (class_bodies : gmap string (gmap string MethodBlock)).
Context (template : list Symbol → list Stmt → StaticBlock).
Context (new_closure : list string → list Stm → list (gmap string Value) → Envs → W → BinNums.N * W).
Context (rounds : nat).

(** The bodies one level down, compiled and evaluated. *)
Definition bodies_agree (dr : list Stm → M (list Stmt)) (dl : Activation → list Stm → LMem → LOut (W:=W)) : Prop :=
  ∀ stms, existsb declares stms = false →
    progresses ∅ (dr stms) ∧
    ∀ c ns c' V a P O, dr stms c = Ok (ns, c') → well_named N O (rebound a) stms P = true →
      static c V a P O → sim c V a P (dl a stms) (eval_stmts (eval fr rounds) ns).

Section at_depth.
Context (dr : option (list Stm → M (list Stmt))) (dl : option (Activation → list Stm → LMem → LOut (W:=W))).
Context (Hdeep : match dr, dl with Some dr, Some dl => bodies_agree dr dl | None, None => True | _, _ => False end).
Context (Hown : ∀ sel b, own_bodies !! sel = Some b → well_named_method N false b = true).
Context (Hclass : ∀ k bs sel b, class_bodies !! k = Some bs → bs !! sel = Some b → well_named_method N true b = true).

Abbreviation rx := (resolve_exp own_bodies class_bodies template dr).
Abbreviation lx := (leval fr own_bodies class_bodies dl new_closure rounds).

Definition node_ok (e : Exp) : Prop :=
  ∀ c n c' V a P O, rx e c = Ok (n, c') → ok_exp N O (rebound a) e P = true → static c V a P O →
    sim c V a P (lx e a) (eval fr rounds n).

Lemma rx_progresses e : progresses ∅ (rx e).
Proof using Hdeep.
  apply resolve_exp_progresses. intros d stms -> Hn. destruct dl; [|done]. by apply Hdeep.
Qed.

Lemma body_progresses stms : progresses (declared_names stms) (resolve_body rx stms).
Proof using Hdeep. apply resolve_body_progresses, Forall_forall. intros s _. apply rx_progresses. Qed.

Definition stms_sim (stms : list Stm) : Prop :=
  ∀ c ns c' V a P O, resolve_body rx stms c = Ok (ns, c') → well_named N O (rebound a) stms P = true →
    static c V a P O → (existsb declares stms = true → top_ok c V) →
    ∀ m E, dyn c V a P m E →
      agree fr p (stms_after (existsb declares stms) c V m E)
        (leval_stms fr lx stms a m) (eval_stmts (eval fr rounds) ns (real E m)).

(** What follows a statement. *)
Lemma continue_sim rest c ns c' V a P O v m E :
  stms_sim rest → resolve_body rx rest c = Ok (ns, c') → well_named N O (rebound a) rest P = true →
  static c V a P O → (existsb declares rest = true → top_ok c V) → dyn c V a P m E →
  agree fr p (stms_after (existsb declares rest) c V m E)
    (match rest with [] => LVal v m | _ => leval_stms fr lx rest a m end)
    (match ns with [] => Val v (real E m) | _ => eval_stmts (eval fr rounds) ns (real E m) end).
Proof using.
  intros IH Hr Hok Hs Ht Hd. destruct rest as [|s rest].
  - injection Hr as <- <-. split; [done|]. exists E. split; [done|].
    apply after_stms_after. by eapply after_refl.
  - assert (ns ≠ []) as Hns.
    { apply bind_ok in Hr as (n & c1 & _ & Hr). apply bind_ok in Hr as (ns' & c2 & _ & [= <- _]). done. }
    specialize (IH _ _ _ _ _ _ _ Hr Hok Hs Ht _ _ Hd). destruct ns; [done|]. exact IH.
Qed.

Lemma stms_sim_nil : stms_sim [].
Proof using.
  intros c ns c' V a P O [= <- <-] _ Hs _ m E Hd. split; [done|]. exists E. split; [by destruct m|].
  apply after_stms_after. by eapply after_refl.
Qed.

(** A statement that declares nothing, whose value goes on. *)
Lemma plain_stm_sim rest c c1 n ns c' V a P O l m E :
  stms_sim rest → adv ∅ c c1 → resolve_body rx rest c1 = Ok (ns, c') →
  well_named N O (rebound a) rest P = true → static c V a P O →
  (existsb declares rest = true → top_ok c V) → dyn c V a P m E →
  sim c V a P l (eval fr rounds n) →
  agree fr p (stms_after (existsb declares rest) c V m E)
    (lbind (l m) (λ v m, match rest with [] => LVal v m | _ => leval_stms fr lx rest a m end))
    (eval_stmts (eval fr rounds) (SExpr n :: ns) (real E m)).
Proof using.
  intros IH Ha Hr Hok Hs Ht Hd Hl. rewrite eval_stmts_step.
  eapply agree_bind; [by apply Hl|intros m1 E1; apply after_stms_after|].
  intros v m1 E1 H1. eapply agree_weaken; [|eapply (continue_sim rest c1); try done].
  - intros m2 E2 H2. eapply (stms_after_trans _ _ _ c c1 V V);
      [exact Ha|by apply renames_top_adv|by left|done|exact H1|exact H2].
  - by eapply static_adv.
  - intros Hb. by eapply top_ok_adv; [|apply Ht].
  - eapply dyn_adv; [done|]. by eapply after_dyn.
Qed.

Lemma decl_stm_sim rest mutable x e c c' c1 c2 u n1 ns V a P O m E :
  node_ok e → stms_sim rest → declare x mutable c = Ok (u, c1) → rx e c1 = Ok (n1, c2) →
  resolve_body rx rest c2 = Ok (ns, c') →
  declares_name N O x = true → ok_exp N O (rebound a) e ({[x]} ∪ P) = true →
  well_named N O (rebound a) rest (P ∖ {[x]}) = true →
  static c V a P O → top_ok c V → dyn c V a P m E →
  agree fr p (stms_after true c V m E)
    (lbind (lx e (with_name x a) m) (λ v m, lbind (l_declare x v m)
       (λ v m, match rest with [] => LVal v m | _ => leval_stms fr lx rest (with_name x a) m end)))
    (eval_stmts (eval fr rounds) (SExpr (NAssign (ToNewLocal (local_symbol c2 x)) n1) :: ns) (real E m)).
Proof using Hdeep.
  intros He IH Hdec Hr1 Hr Hx Hok1 Hok2 Hs Ht Hd.
  pose proof (progresses_declare x mutable _ _ _ Hdec) as Ha1. pose proof (rx_progresses e _ _ _ Hr1) as Ha2.
  assert (adv {[x]} c c2) as Ha by (rewrite <- (union_empty_r_L {[x]}); by eapply adv_trans).
  destruct (declare_facts _ _ _ _ _ _ _ _ _ _ Hdec Ha2 Ht Hs Hx) as
    (σ & Vt & -> & Hloc & Hold & Hres & Huser & Hcell & Hov & Hnone & Hnew & Ht2 & Hrt).
  destruct (declares_local _ _ Hx) as (Hlx & HN & HO).
  set (s := local_symbol c2 x) in *.
  pose proof (static_initializer _ _ _ _ _ _ _ Ha1 Hx Hs) as Hs1.
  pose proof (static_adv _ _ _ _ _ _ _ Ha2 Hs1) as Hs2'.
  pose proof (dyn_initializer _ _ _ _ _ x _ _ Ha1 Hd) as Hd1.
  assert (static c2 (<[x := s]> σ :: Vt) (with_name x a) (P ∖ {[x]}) O) as Hs2.
  { apply static_declared; try done. cbn. apply elem_of_union. left. by apply elem_of_singleton. }
  assert (grows c (σ :: Vt) (<[x := s]> σ :: Vt)) as Hg.
  { right. exists σ, (<[x := s]> σ), Vt. split_and!; [done|done| |].
    - intros y t Hy. rewrite lookup_insert_ne; [done|]. intros <-. by rewrite Hnone in Hy.
    - intros y t [[<- <-]|[_ Hy]]%lookup_insert_Some; [by right|by left]. }
  rewrite eval_stmts_step. cbn [eval]. rewrite obind_assoc.
  eapply agree_bind; [by eapply He|intros m1 E1 H1; apply after_stms_after;
    eapply after_weaken; [exact Ha1|exact H1]|].
  intros v m1 E1 H1. pose proof (after_weaken fr p _ _ _ _ _ _ _ _ Ha1 H1) as H1'.
  assert (dyn c (σ :: Vt) a P m1 E1) as Hdm by by eapply after_dyn.
  destruct (declare_cell c (σ :: Vt) a P O Hs σ Vt m1 E1 x s v) as (E2 & -> & -> & HE2 & HL2);
    [done|done|done|by apply local_not_reserved|done|].
  cbn [lbind obind].
  set (m2 := set_lex (lex_bind (lex m1) x v) m1) in *.
  change (real E2 m1) with (real E2 m2).
  assert (after c (<[x := s]> σ :: Vt) m E m2 E2) as H2.
  { destruct H1' as [L1 F1 K1 C1]. split; [done|done|done|].
    intros t Hot Hnt. rewrite HE2, decide_False.
    - apply C1; [done|]. intros Hc. apply Hnt. by eapply grows_cell.
    - intros ->. apply Hnt, is_cell_cons. left. exists x. apply lookup_insert_eq. }
  assert (dyn c2 (<[x := s]> σ :: Vt) (with_name x a) (P ∖ {[x]}) m2 E2) as Hd2
    by (by apply (dyn_declared c c2 σ Vt a P O x v s m E m1 E1 E2)).
  eapply agree_weaken; [|eapply (continue_sim rest c2); try done].
  intros m3 E3. by eapply stms_after_trans.
Qed.

Lemma stms_sim_cons s rest : node_ok (stm_exp s) → stms_sim rest → stms_sim (s :: rest).
Proof using HM Hdeep.
  intros He IH c ns c' V a P O Hr Hok Hs Ht m E Hd.
  apply bind_ok in Hr as (n & c1 & Hr1 & Hr). apply bind_ok in Hr as (ns' & c2 & Hr2 & [= <- <-]).
  unfold well_named in Hok. cbn [ok_stms] in Hok. apply andb_true_iff in Hok as [Hok1 Hok2].
  destruct s as [e|lv e|mutable x e|e|e]; cbn [stm_exp resolve_stm ok_stm after_stm existsb declares orb leval_stms] in *.
  - apply bind_ok in Hr1 as (n1 & c3 & Hr1 & [= <- <-]). pose proof (rx_progresses e _ _ _ Hr1) as Ha.
    eapply plain_stm_sim; try done. by eapply He.
  - apply andb_true_iff in Hok1 as [Hok1 Hset].
    apply bind_ok in Hr1 as (n1 & c3 & Hr1 & Hr3). pose proof (rx_progresses e _ _ _ Hr1) as Ha.
    apply bind_ok in Hr3 as (t & c4 & Ht3 & [= <- <-]). unfold store_target in Ht3.
    destruct (lvalue_store lv c3) as [t'|] eqn:Et; [|done]. injection Ht3 as <- <-.
    rewrite <- lbind_assoc. eapply (plain_stm_sim _ _ _ _ _ _ _ _ _ _ (λ m, lbind (lx e a m) (λ v m, l_assign fr lv v a m)));
      try done.
    eapply sim_bind; [done|exact Ha|by eapply He|]. intros v.
    eapply sim_target; [|done|done]. by eapply static_adv.
  - apply andb_true_iff in Hok1 as [Hx Hok1].
    apply bind_ok in Hr1 as (u & c3 & Hr1 & Hr3).
    assert (c3 = c) as ->. { unfold validate_decl in Hr1. destruct (starts_uppercase x); [done|]. by injection Hr1. }
    apply bind_ok in Hr3 as (u' & c4 & Hdec & Hr3). apply bind_ok in Hr3 as (n1 & c5 & Hr4 & Hr3).
    apply bind_ok in Hr3 as (sym & c6 & [= <- <-] & [= <- <-]).
    eapply decl_stm_sim; try done. by apply Ht.
  - apply bind_ok in Hr1 as (n1 & c3 & Hr1 & [= <- <-]). cbn [eval_stmts].
    eapply agree_weaken; [|by eapply He]. intros ??. apply after_stms_after.
  - apply bind_ok in Hr1 as (n1 & c3 & Hr1 & [= <- <-]). rewrite eval_stmts_step. cbn [eval].
    rewrite obind_assoc. eapply agree_bind; [by eapply He|intros ??; apply after_stms_after|].
    intros v m1 E1 H1. split; [done|]. exists E1. split; [done|by apply after_stms_after].
Qed.

Lemma body_sim stms : all_stms node_ok stms → stms_sim stms.
Proof using HM Hdeep.
  induction 1 as [|s rest Hs _ IH]; [apply stms_sim_nil|by apply stms_sim_cons].
Qed.

(** ** Arms *)

Lemma static_empty c V a P O : static c V a P O → static c (∅ :: V) a P O.
Proof using.
  intros [K R A Ol Pl Rb Ov Ns Ni Pa Nm].
  assert (∀ t, is_cell (∅ :: V) t → is_cell V t) as Hc
    by (intros t; rewrite is_cell_cons; intros [[y Hy]|?]; [by rewrite lookup_empty in Hy|done]).
  split; try done.
  - intros t Ht%Hc. by apply Ol.
  - intros σ x t [->|Hσ]%elem_of_cons; [by rewrite lookup_empty|]. by apply Pl.
  - intros t Ht. destruct (Ov t Ht) as [? Hn]. split; [done|]. by intros ?%Hc.
Qed.

Lemma static_push c V a P O : static c V a P O → static (push_splice_scope c) (∅ :: V) a P O.
Proof using.
  intros [K R A Ol Pl Rb Ov [Ns1 Ns2] Ni Pa Nm]%static_empty.
  split; try done.
  - split; [done|]. constructor; [apply not_elem_of_empty|done].
  - by constructor.
Qed.

Lemma top_ok_push c V : top_ok (push_splice_scope c) (∅ :: V).
Proof using.
  exists (mkScope ∅ ∅ false true ∅), (scopes c), ∅, V. split_and!; [done..| |done].
  intros x s _. by rewrite lookup_empty.
Qed.

Lemma dyn_arm c c1 V a P m E :
  self_override c1 = self_override c → dyn c V a P m E → dyn c1 (∅ :: V) a P (set_lex (∅ :: lex m) m) E.
Proof using.
  intros Eo [L F D M]. split; cbn; [|done|done|by rewrite Eo].
  constructor; [|done]. intros x. by rewrite !lookup_empty.
Qed.

(** What is left of an arm is in the levels outside it. *)
Lemma after_arm b c c1 V m E m' E' :
  (∀ s, old c s → old c1 s) → (b = true → renames_top c1 = true) →
  stms_after b c1 (∅ :: V) (set_lex (∅ :: lex m) m) E m' E' →
  after c V m E (set_lex (tail (lex m')) m') E'.
Proof using.
  intros Ho Hb (V' & Hg & Hn & [L F K C]).
  assert (∃ σ', V' = σ' :: V ∧ ∀ s, old c s → ¬ is_cell V s → ¬ is_cell V' s) as (σ' & -> & Hc).
  { destruct Hg as [->|(σ & σ' & Vt & [= <- <-] & -> & _ & Hnew)].
    - exists ∅. split; [done|]. intros s _ Hs [[y Hy]|?]%is_cell_cons; [by rewrite lookup_empty in Hy|done].
    - exists σ'. split; [done|]. intros s Hold Hs [[y Hy]|?]%is_cell_cons; [|done].
      destruct b; [|specialize (Hn eq_refl); simplify_eq; by rewrite lookup_empty in Hy].
      destruct (Hnew _ _ Hy) as [He|Hf]; [by rewrite lookup_empty in He|].
      eapply Hf; [by apply Hb|by apply Ho]. }
  split; [|done|done|].
  - inversion L; subst. cbn in *. by destruct (lex m').
  - intros s Hold Hs. apply C; [by apply Ho|by apply Hc].
Qed.

Lemma agree_map (R R' : LMem → list (Symbol * Value) → Prop) g o o' :
  agree fr p R o o' → (∀ m E, R m E → R' (g m) E ∧ real E (g m) = real E m) →
  agree fr p R' (map_mem g o) o'.
Proof using.
  intros Ho Hg. destruct o, o'; cbn in *; try done; destruct Ho as (-> & E & -> & HE); split; try done;
    exists E; destruct (Hg _ _ HE) as [? ->]; done.
Qed.

Lemma arm_sim stms c ns c' V a P O :
  all_stms node_ok stms → splice_block_body rx stms c = Ok (ns, c') →
  well_named N O (rebound a) stms P = true → static c V a P O →
  sim c V a P (leval_arm fr lx stms a) (eval_stmts (eval fr rounds) ns).
Proof using HM Hdeep.
  intros He%body_sim Hr Hok Hs m E Hd. unfold splice_block_body in Hr. unfold leval_arm, in_frame.
  change (real E m) with (real E (set_lex (∅ :: lex m) m)).
  destruct (existsb declares stms) eqn:Hb.
  - apply bind_ok in Hr as (u & c1 & [= <- <-] & Hr). apply bind_ok in Hr as (r & c2 & Hr & Hp).
    apply bind_ok in Hp as (u' & c3 & [= <- <-] & [= -> <-]).
    eapply agree_map; [eapply (He _ _ _ (∅ :: V)); [done|done|by apply static_push|
      intros _; apply top_ok_push|by apply (dyn_arm c)]|].
    intros m' E' Ha. rewrite Hb in Ha. split; [|done]. by eapply after_arm; [| |exact Ha].
  - eapply agree_map; [eapply (He _ _ _ (∅ :: V)); [done|done|by apply static_empty|
      by rewrite Hb|by apply (dyn_arm c)]|].
    intros m' E' Ha. rewrite Hb in Ha. split; [|done]. by eapply after_arm; [| |exact Ha].
Qed.

Lemma if_sim t nt e ne c c1 c2 V a P O v :
  all_stms node_ok t → on_option (all_stms node_ok) e →
  splice_block_body rx t c = Ok (nt, c1) →
  match e, ne with
  | Some e, Some ne => splice_block_body rx e c1 = Ok (ne, c2)
  | None, None => True
  | _, _ => False
  end →
  well_named N O (rebound a) t P = true → on_option (λ e, well_named N O (rebound a) e P = true) e →
  static c V a P O →
  sim c V a P (leval_if fr new_closure lx false t e v a) (eval_if fr (eval fr rounds) None nt ne v).
Proof using HM Hdeep.
  intros Ht He Hrt Hre Hokt Hoke Hs m E Hd. unfold leval_if, eval_if. cbn [andb].
  destruct (is_truthy v); [by eapply arm_sim|].
  destruct e as [e|], ne as [ne|]; try done; [|by apply (sim_ret fr p c V a P)].
  assert (adv ∅ c c1) as Ha.
  { eapply splice_progresses; [|done]. apply Forall_forall. intros s _. apply rx_progresses. }
  eapply (sim_adv fr p c c1); [exact Ha| |done]. eapply arm_sim; try done. by eapply static_adv.
Qed.

Lemma while_sim strict cs ncs bs nbs c c1 c2 V a P O n :
  all_stms node_ok cs → all_stms node_ok bs →
  splice_block_body rx cs c = Ok (ncs, c1) → splice_block_body rx bs c1 = Ok (nbs, c2) →
  well_named N O (rebound a) cs P = true → well_named N O (rebound a) bs P = true → static c V a P O →
  sim c V a P (leval_while fr lx strict cs bs a n) (eval_while (eval fr rounds) strict ncs nbs n).
Proof using HM Hdeep.
  intros Hcs Hbs Hrc Hrb Hokc Hokb Hs.
  assert (adv ∅ c c1) as Ha.
  { eapply splice_progresses; [|done]. apply Forall_forall. intros s _. apply rx_progresses. }
  induction n as [|n IH]; [by intros m E Hd|].
  eapply (sim_bind fr p N c c); [exact Hs|apply adv_refl|by eapply arm_sim|]. intros v.
  apply sim_if;
    [intros m E Hd; split; [done|]; exists E; split; [done|by eapply after_refl]|]. apply sim_if; [|apply sim_ret].
  eapply (sim_bind fr p N c c); [exact Hs|apply adv_refl| |intros _; exact IH].
  eapply sim_adv; [exact Ha|]. eapply arm_sim; try done. by eapply static_adv.
Qed.

(** ** Arguments *)

Lemma args_sim es c ns c' V a P O vs k k' :
  Forall node_ok es → resolve_args rx es c = Ok (ns, c') →
  forallb (λ e, ok_exp N O (rebound a) e P) es = true → static c V a P O →
  (∀ vs', length vs' = length vs + length ns → sim c' V a P (k vs') (k' vs')) →
  sim c V a P (λ m, leval_args lx es a vs m k) (λ m, eval_args (eval fr rounds) ns vs m k').
Proof using Hdeep.
  intros He. revert c ns vs. induction He as [|e es He _ IH]; intros c ns vs Hr Hok Hs Hk.
  - injection Hr as <- <-. apply Hk. by rewrite Nat.add_0_r.
  - apply bind_ok in Hr as (n & c1 & Hr1 & Hr). apply bind_ok in Hr as (ns' & c2 & Hr2 & [= <- <-]).
    cbn in Hok. apply andb_true_iff in Hok as [Hok1 Hok2].
    pose proof (rx_progresses e _ _ _ Hr1) as Ha. cbn [leval_args eval_args].
    eapply sim_bind; [exact Hs|exact Ha|by eapply He|]. intros v.
    apply IH; [done|done|by eapply static_adv|]. intros vs' Hl. apply Hk.
    rewrite Hl, length_app. cbn. lia.
Qed.

Lemma receiver_sim subj c n c' V a P O :
  on_option node_ok subj → resolve_receiver rx subj c = Ok (n, c') →
  match subj with Some e => ok_exp N O (rebound a) e P | None => true end = true → static c V a P O →
  adv ∅ c c' ∧ sim c V a P (leval_receiver lx subj a) (eval fr rounds n).
Proof using Hdeep.
  intros He Hr Hok Hs. destruct subj as [e|]; cbn in *.
  - split; [by eapply rx_progresses|by eapply He].
  - injection Hr as <- <-. split; [apply adv_refl|]. by eapply sim_me.
Qed.

(** ** Inlined methods *)

Lemma fresh_temp_facts c t c' :
  fresh_temp c = Ok (t, c') →
  ¬ old c t ∧ old c' t ∧ reserved t = false ∧ user_name t = false.
Proof using.
  intros [= <- <-]. split_and!.
  - intros [Ho _]. by apply (Ho (S (temp_counter c))); [lia|].
  - unfold list_temp. cbn. destruct (scopes c); split; cbn.
    1,3: intros k Hk E%temp_inj; lia.
    all: intros x k _ _ E; by eapply temp_not_minted.
  - apply not_true_is_false. unfold reserved. rewrite !orb_true_iff, !bool_decide_eq_true.
    pose proof (temp_not_user (S (temp_counter c))) as Hu.
    intros [[E|E]|E]; by rewrite E in Hu.
  - apply temp_not_user.
Qed.

(** The cells of the arguments: new, and one for each. *)
Definition arg_cells (c c' : Compiler) (bs : list (string * Symbol)) : Prop :=
  NoDup bs.*2 ∧ Forall (λ b, ¬ old c b.2 ∧ old c' b.2 ∧ reserved b.2 = false ∧ user_name b.2 = false) bs.

Lemma bind_args_cells args params c bs ns c' :
  bind_args rx params args c = Ok ((bs, ns), c') → length params = length args →
  adv ∅ c c' ∧ bs.*1 = params ∧ arg_cells c c' bs.
Proof using Hdeep.
  revert params c bs ns. induction args as [|e args IH]; intros [|x params] c bs ns Hr Hl; try done.
  { injection Hr as <- <- <-. split_and!; [apply adv_refl|done|split; constructor]. }
  apply bind_ok in Hr as (n & c1 & Hr1 & Hr). apply bind_ok in Hr as (t & c2 & Ht & Hr).
  apply bind_ok in Hr as ([bs' ns'] & c3 & Hr & [= <- <- <-]).
  pose proof (rx_progresses e _ _ _ Hr1) as Ha1. pose proof (progresses_fresh_temp _ _ _ Ht) as Ha2.
  destruct (IH params c2 bs' ns') as (Ha3 & <- & Hnd & Hall); [done|by injection Hl|].
  destruct (fresh_temp_facts _ _ _ Ht) as (Hn & Ho & Hres & Hu).
  split_and!.
  - eapply adv_trans_l; [exact Ha1|]. by eapply adv_trans_l.
  - done.
  - split; cbn; [constructor; [|done]|constructor].
    { intros (b & -> & Hb)%list_elem_of_fmap.
      rewrite Forall_forall in Hall. by destruct (Hall b Hb) as [Hno _]. }
    + split_and!; [|by eapply old_adv|done|done]. intros Hc. apply Hn. by eapply old_adv.
    + eapply Forall_impl; [exact Hall|]. intros b (Hb & Hb'). split; [|done].
      intros Hc. apply Hb. eapply old_adv; [exact Ha2|]. by eapply old_adv.
Qed.

(** A value goes to a new cell. *)
Lemma cell_sim c c1 c2 V a P O m0 E0 m E t v :
  adv ∅ c c1 → fresh_temp c1 = Ok (t, c2) → static c V a P O → dyn c V a P m0 E0 →
  after c V m0 E0 m E →
  ∃ E', assign fr (ToNewLocal t) v (real E m) = Val v (real E' m) ∧
    after c V m0 E0 m E' ∧ cell E' t = Some v ∧ ∀ s, s ≠ t → cell E' s = cell E s.
Proof using.
  intros Ha Ht Hs Hd [L F K C]. destruct (fresh_temp_facts _ _ _ Ht) as (Hn & Ho & Hres & Hu).
  assert (¬ old c t) as Hnc by (intros Hc; apply Hn; by eapply old_adv).
  assert (¬ is_cell V t) as Hcell by (intros Hc; by apply Hnc, (s_old _ _ _ _ _ _ Hs)).
  set (E' := vars (env_bind (mkEnvFrame p E) t v)).
  assert (∀ s, cell E' s = if decide (s = t) then Some v else cell E s) as HE
    by (intros s; apply cell_bind).
  exists E'. split_and!.
  - cbn [assign]. unfold store_define_local. rewrite Hres. cbn.
    unfold NamesSim.real, bind_in, with_vars. rewrite alter_insert_eq.
    unfold E', mem_of, env_bind. cbn. by destruct (fst <$> list_find _ E).
  - split; [|done|done|].
    + eapply levels_cells; [done|]. intros s Hc. rewrite HE, decide_False; [done|]. by intros ->.
    + intros s Hos Hns. rewrite HE, decide_False; [by apply C|]. by intros ->.
  - rewrite HE. by rewrite decide_True.
  - intros s Hne. rewrite HE. by rewrite decide_False.
Qed.

Lemma binds_sim R args params c bs ns c' V a P O m0 E0 m E vs k k' :
  Forall node_ok args → bind_args rx params args c = Ok ((bs, ns), c') → length params = length args →
  forallb (λ e, ok_exp N O (rebound a) e P) args = true → static c V a P O →
  dyn c V a P m0 E0 → after c V m0 E0 m E →
  (∀ m' E', after c V m0 E0 m' E' → R m' E') →
  (∀ vs' m' E', after c V m E m' E' → length vs' = length args →
     Forall2 (λ b v, cell E' b.2 = Some v) bs vs' → agree fr p R (k (vs ++ vs') m') (k' (real E' m'))) →
  agree fr p R (leval_args lx args a vs m k) (eval_binds fr (eval fr rounds) ns (real E m) k').
Proof using Hdeep.
  intros He. revert params c bs ns vs m0 E0 m E.
  induction He as [|e args He _ IH]; intros [|x params] c bs ns vs m0 E0 m E Hr Hl Hok Hs Hd Haf HR Hk; try done.
  { injection Hr as <- <- <-. cbn [leval_args eval_binds].
    specialize (Hk [] m E). rewrite app_nil_r in Hk. apply Hk; [|done|constructor].
    by eapply after_refl, after_dyn. }
  apply bind_ok in Hr as (n & c1 & Hr1 & Hr). apply bind_ok in Hr as (t & c2 & Ht & Hr).
  apply bind_ok in Hr as ([bs' ns'] & c3 & Hr & [= <- <- <-]).
  cbn in Hok. apply andb_true_iff in Hok as [Hok1 Hok2].
  pose proof (rx_progresses e _ _ _ Hr1) as Ha1. pose proof (progresses_fresh_temp _ _ _ Ht) as Ha2.
  assert (adv ∅ c c2) as Ha by by eapply adv_trans_l.
  cbn [leval_args eval_binds].
  assert (dyn c V a P m E) as Hdm by by eapply after_dyn.
  eapply agree_bind; [by eapply He| |].
  { intros m1 E1 H1. apply HR. eapply after_trans; [apply adv_refl|exact Haf|exact H1]. }
  intros v m1 E1 H1.
  destruct (cell_sim c c1 c2 V a P O m E m1 E1 t v) as (E2 & -> & H2 & Hct & Hco); [done..|].
  cbn [obind].
  assert (dyn c2 V a P m1 E2) as Hd2 by (eapply dyn_adv; [exact Ha|]; by eapply after_dyn).
  apply (IH params c2 bs' ns' _ m1 E2); try done.
  - by injection Hl.
  - by eapply static_adv.
  - by eapply after_refl.
  - intros m' E' H'. apply HR. eapply after_trans; [apply adv_refl|exact Haf|].
    eapply after_trans; [exact Ha|exact H2|exact H'].
  - intros vs' m' E' H' Hlen HF. rewrite <- app_assoc. apply Hk.
    + eapply after_trans; [exact Ha|exact H2|exact H'].
    + cbn. by f_equal.
    + constructor; [|done]. cbn. destruct H' as [_ _ _ C']. rewrite C'; [done| |].
      * by destruct (fresh_temp_facts _ _ _ Ht) as (_ & ? & _).
      * intros Hc. apply (s_old _ _ _ _ _ _ Hs) in Hc.
        destruct (fresh_temp_facts _ _ _ Ht) as (Hn & _). apply Hn. by eapply old_adv.
Qed.

(** The parameters of a body, the last one of a name; each name is used once. *)
Lemma last_one {A} (ps : list (string * A)) (m : gmap string A) x v :
  NoDup ps.*1 →
  (foldl (λ m b, <[b.1 := b.2]> m) m ps) !! x = Some v ↔ (x, v) ∈ ps ∨ ((x ∉ ps.*1) ∧ m !! x = Some v).
Proof using.
  revert m. induction ps as [|[y w] ps IH]; intros m Hnd; cbn.
  - split; [intros; right; split; [apply not_elem_of_nil|done]|].
    intros [Hx|[_ Hx]]; [by apply elem_of_nil in Hx|done].
  - apply NoDup_cons in Hnd as [Hy Hnd]. rewrite IH by done. cbn in Hy.
    rewrite lookup_insert_Some, !elem_of_cons. split.
    + intros [Hin|[Hn [[-> ->]|[Hne Hm]]]]; [by left; right|by left; left|].
      right. split; [|done]. intros [->|?]; done.
    + intros [[[= -> ->]|Hin]|[Hn Hm]]; [right; split; [done|by left]|by left|].
      right. split; [tauto|]. right. split; [|done]. intros ->. tauto.
Qed.

Lemma bindings_level E bs vs :
  NoDup bs.*1 → Forall2 (λ b v, cell E b.2 = Some v) bs vs →
  level_ok E (last_bindings bs) (bind_params bs.*1 vs).
Proof using.
  intros Hnd HF x. unfold last_bindings, bind_params.
  assert ((zip bs.*1 vs).*1 = bs.*1) as Ez.
  { apply fst_zip. rewrite length_fmap. by rewrite (Forall2_length _ _ _ HF). }
  assert (∀ s v, (x, s) ∈ bs → cell E s = Some v → (x, v) ∈ zip bs.*1 vs) as Hzip.
  { clear Ez Hnd. induction HF as [|[y t] v' bs vs Hc HF IH]; intros s v Hin Hv; [by apply elem_of_nil in Hin|].
    cbn in *. apply elem_of_cons in Hin as [[= <- <-]|Hin].
    - rewrite Hc in Hv. injection Hv as ->. left.
    - right. by apply (IH s). }
  destruct ((foldl _ _ bs) !! x) as [s|] eqn:Es.
  - apply last_one in Es as [Hin|[_ Hm]]; [|by rewrite lookup_empty in Hm|done].
    assert (is_Some (cell E s)) as [v Hv].
    { clear - HF Hin. induction HF as [|b v bs vs Hc _ IH]; [by apply elem_of_nil in Hin|].
      apply elem_of_cons in Hin as [<-|Hin]; [by eexists|by apply IH]. }
    exists v. split; [done|]. apply last_one; [by rewrite Ez|]. left. by eapply Hzip.
  - apply eq_None_not_Some. intros [v Hv]. apply last_one in Hv as [Hin|[_ Hm]];
      [|by rewrite lookup_empty in Hm|by rewrite Ez].
    assert (x ∈ bs.*1) as Hx by (rewrite <- Ez; apply list_elem_of_fmap; by exists (x, v)).
    apply list_elem_of_fmap in Hx as ([y s] & -> & Hs).
    assert ((foldl (λ m b, <[b.1 := b.2]> m) ∅ bs) !! y = Some s) as E'
      by (apply last_one; [done|by left]).
    cbn in *. by rewrite E' in Es.
Qed.

Lemma well_named_method_args on b :
  well_named_method N on b = true →
  NoDup (arguments b) ∧ (∀ x, x ∈ arguments b → local_name x = true) ∧
  well_named N (list_to_set (arguments b)) on (statements b) (N ∖ list_to_set (arguments b)) = true.
Proof using.
  unfold well_named_method.
  intros [[?%bool_decide_eq_true_1 Hl]%andb_true_iff ?]%andb_true_iff. split_and!; [done| |done].
  intros x Hx. rewrite forallb_forall in Hl. apply Hl. by apply list_elem_of_In.
Qed.

Lemma bound_name {A} (bs : list (string * A)) x s : (x, s) ∈ bs → x ∈ bs.*1.
Proof using. intros Hin. apply list_elem_of_fmap. by exists (x, s). Qed.

Lemma bindings_lookup bs x s : NoDup bs.*1 → last_bindings bs !! x = Some s ↔ (x, s) ∈ bs.
Proof using.
  intros Hnd. unfold last_bindings. rewrite last_one by done. split; [|by left].
  intros [?|[_ Hm]]; [done|by rewrite lookup_empty in Hm].
Qed.

Lemma bindings_some bs x : NoDup bs.*1 → is_Some (last_bindings bs !! x) ↔ x ∈ bs.*1.
Proof using.
  intros Hnd. split.
  - intros [s Hs%bindings_lookup]; [by eapply bound_name|done].
  - intros ([y s] & -> & Hs)%list_elem_of_fmap. exists s. by apply bindings_lookup.
Qed.

Lemma bindings_cell bs s : NoDup bs.*1 → is_cell [last_bindings bs] s → s ∈ bs.*2.
Proof using.
  intros Hnd [[x Hx]|(? & ? & Hin & _)]%is_cell_cons; [|by apply elem_of_nil in Hin].
  apply bindings_lookup in Hx; [|done]. apply list_elem_of_fmap. by exists (x, s).
Qed.

(** In the body of a method the parameters are its names, and their cells its level. *)
Lemma static_method c V a P O bs b on r ov :
  static c V a P O → bs.*1 = arguments b → well_named_method N on b = true →
  NoDup bs.*2 → Forall (λ b, old c b.2 ∧ reserved b.2 = false ∧ user_name b.2 = false) bs →
  on = bool_decide (is_Some ov) → (∀ t, ov = Some t → old c t ∧ t ∉ bs.*2) →
  static (set_overrides (last_bindings bs) ov c) [last_bindings bs]
    (mkActivation (list_to_set (arguments b)) r on) (N ∖ list_to_set (arguments b)) (list_to_set (arguments b)).
Proof using.
  intros [K R A Ol Pl Rb Ov [Ns1 Ns2] Ni Pa Nm] Eb (Hnd & Hargs & _)%well_named_method_args Hnd2 Hall Hon Hov.
  rewrite <- Eb in Hnd, Hargs. rewrite <- Eb. rewrite Forall_forall in Hall.
  split; cbn [names rebound param_override self_override scopes set_overrides]; try done.
  - intros x Hx Hn. rewrite elem_of_list_to_set. unfold known. cbn. rewrite bindings_some by done.
    split; [by left|]. intros [?|Hl]; [done|]. apply Nm in Hl; [|done].
    destruct (decide (x ∈ bs.*1)) as [|Hnx]; [done|]. destruct Hn. apply elem_of_difference.
    split; [done|]. by rewrite elem_of_list_to_set.
  - intros x Hx _ Hin%elem_of_list_to_set. unfold resolved. cbn.
    apply (bindings_some bs x) in Hin as [s Hs]; [|done]. by rewrite Hs.
  - split_and!; [|intros ?? _ (? & ? & Hin & _); by apply elem_of_nil in Hin|done].
    intros x y s Hx%bindings_lookup Hy%bindings_lookup; [|done..].
    apply list_elem_of_lookup in Hx as [i Hi], Hy as [j Hj].
    assert (i = j) as ->.
    { eapply (NoDup_lookup bs.*2); [done|..]; rewrite list_lookup_fmap; [by rewrite Hi|by rewrite Hj]. }
    rewrite Hi in Hj. by injection Hj.
  - intros s (q & -> & Hq)%bindings_cell%list_elem_of_fmap; [|done]. by apply (Hall q).
  - intros σ x s [->|Hin]%elem_of_cons; [|by apply elem_of_nil in Hin].
    intros Hx%bindings_lookup; [|done]. destruct (Hall _ Hx) as (_ & Hr & Hu). cbn in *.
    split_and!; [|done|by rewrite Hu]. apply Hargs. by eapply bound_name.
  - intros t Ht. destruct (Hov t Ht) as [Ho Hn]. split; [done|].
    intros Hc. by apply Hn, bindings_cell.
  - split; [|done]. apply eq_None_not_Some. rewrite bindings_some by done.
    intros Hin. by apply (local_not_self "self"); [apply Hargs|].
  - intros x. rewrite bindings_some by done. by rewrite elem_of_list_to_set.
Qed.

Lemma method_sim d l b on r ov bs body c0 c c' V a P O m0 E0 m E vs :
  bodies_agree d l → well_named_method N on b = true → existsb declares (statements b) = false →
  in_method_body (last_bindings bs) ov (d (statements b)) c = Ok (body, c') →
  adv ∅ c0 c → static c0 V a P O → dyn c0 V a P m0 E0 → after c0 V m0 E0 m E →
  bs.*1 = arguments b → arg_cells c0 c bs → Forall2 (λ b v, cell E b.2 = Some v) bs vs →
  match ov with
  | Some t => on = true ∧ cell E t = Some r ∧ ¬ old c0 t ∧ old c t ∧ t ∉ bs.*2
  | None => on = rebound a ∧ rebound a = false ∧ r = me a
  end →
  agree fr p (after c0 V m0 E0) (run_method l b r on vs m) (eval_stmts (eval fr rounds) body (real E m)).
Proof using.
  intros Hdl Hb Hnd Hr Ha Hs0 Hd0 Haf Eb Hac HF Hov. destruct Hac as [Hnd2 Hall]. destruct (Hdl _ Hnd) as [_ Hbody].
  pose proof (static_adv _ _ _ _ _ _ _ Ha Hs0) as Hs.
  pose proof (after_dyn _ _ _ _ _ _ _ _ _ _ _ _ Hs0 Hd0 Haf) as Hd.
  unfold in_method_body in Hr. apply bind_ok in Hr as (q & c1 & [= <- <-] & Hr).
  apply bind_ok in Hr as (q' & c1 & [= <- <-] & Hr). apply bind_ok in Hr as (u & c1 & [= <- <-] & Hr).
  apply bind_ok in Hr as (body' & c2 & Hr & Hr'). apply bind_ok in Hr' as (u' & c3 & [= <- <-] & [= <- <-]).
  set (ov' := match ov with Some t => Some t | None => self_override c end) in *.
  assert (on = bool_decide (is_Some ov') ∧ ∀ t, ov' = Some t → ov = Some t) as [Hon Hov'].
  { unfold ov'. destruct ov as [t|]; [destruct Hov as (-> & _); split; [by rewrite bool_decide_eq_true_2|done]|].
    destruct Hov as (-> & Hrb & _). rewrite (s_rebound _ _ _ _ _ _ Hs) in *.
    split; [done|]. apply bool_decide_eq_false_1 in Hrb. intros t Ht. destruct Hrb. by rewrite Ht. }
  assert (static (set_overrides (last_bindings bs) ov' c) [last_bindings bs]
    (mkActivation (list_to_set (arguments b)) r on) (N ∖ list_to_set (arguments b)) (list_to_set (arguments b))) as Hsb.
  { eapply static_method; try done.
    - eapply Forall_impl; [exact Hall|]. by intros ? (_ & ? & ? & ?).
    - intros t Ht%Hov'. subst ov. by destruct Hov as (_ & _ & _ & ? & ?). }
  destruct (well_named_method_args _ _ Hb) as (Hnda & Hargs & Hok).
  set (mb := set_lex [bind_params (arguments b) vs] m).
  assert (dyn (set_overrides (last_bindings bs) ov' c) [last_bindings bs]
    (mkActivation (list_to_set (arguments b)) r on) (N ∖ list_to_set (arguments b)) mb E) as Hdb.
  { destruct Hd as [L F D Me]. split; cbn [names me self_override set_overrides outer mb set_lex lex]; [|done| |].
    - constructor; [|done]. rewrite <- Eb. apply bindings_level; [by rewrite Eb|done].
    - intros x Hx _ Hin%elem_of_list_to_set Hv. cbn in Hv. rewrite <- Eb in Hin, Hnda.
      apply (bindings_some bs x) in Hin as [s Hxs]; [|done]. by rewrite Hxs in Hv.
    - unfold ov'. destruct ov as [t|]; [by destruct Hov as (_ & ? & _)|].
      destruct Hov as (-> & Hrb & ->). rewrite (s_rebound _ _ _ _ _ _ Hs) in Hrb.
      apply bool_decide_eq_false_1 in Hrb. destruct Ha as [_ _ _ -> _] in Hrb |- *.
      destruct (self_override c0); [by destruct Hrb|done]. }
  unfold run_method. change (real E m) with (real E mb).
  eapply agree_map; [by eapply (Hbody _ _ _ _ _ _ _ Hr)|].
  intros m' E' [L' F' K' C']. split; [|done].
  assert (∀ s, old c0 s → cell E' s = cell E s) as Hkeep.
  { intros s Hos. apply C'; [by eapply (old_adv _ c0 c)|].
    intros Hc%bindings_cell; [|by rewrite Eb]. apply list_elem_of_fmap in Hc as (q & -> & Hq).
    rewrite Forall_forall in Hall. by destruct (Hall q Hq) as [Hn _]. }
  eapply after_trans; [apply adv_refl|exact Haf|]. destruct Haf as [L F K C].
  split; cbn; [|done|done|by auto].
  eapply levels_cells; [exact L|]. intros s Hc. apply Hkeep. by apply (s_old _ _ _ _ _ _ Hs0).
Qed.

(** ** Calls *)

Lemma spliced_sim d l b args c n c' V a P O :
  dr = Some d → dl = Some l → Forall node_ok args →
  well_named_method N (rebound a) b = true → rebound a = false → spliceable b args →
  inline_method rx d b args [] c = Ok (n, c') →
  forallb (λ e, ok_exp N O (rebound a) e P) args = true → static c V a P O →
  sim c V a P (λ m, leval_args lx args a [] m (λ vs m, run_method l b (me a) (rebound a) vs m))
    (eval fr rounds n).
Proof using HM Hdeep.
  intros Ed El He Hb Hrb (Hnd & _ & Hlen) Hr Hok Hs m E Hd.
  assert (bodies_agree d l) as Hdl by (rewrite Ed, El in Hdeep; exact Hdeep).
  apply bind_ok in Hr as ([bs ns] & c1 & Hr1 & Hr). apply bind_ok in Hr as (body & c2 & Hr2 & [= <- <-]).
  destruct (bind_args_cells _ _ _ _ _ _ Hr1 Hlen) as (Ha & Ebs & Hcells).
  cbn [app eval]. eapply (binds_sim _ args _ c bs ns c1 V a P O m E); try done.
  - by eapply after_refl.
  - intros vs m1 E1 H1 Hl HF.
    apply (method_sim d l b (rebound a) (me a) None bs body c c1 c2 V a P O m E m1 E1 vs); done.
Qed.

Lemma spliced_on_sim d l b subj args c t r n c1 c2 c' V a P O :
  dr = Some d → dl = Some l → on_option node_ok subj → Forall node_ok args →
  well_named_method N true b = true → spliceable b args →
  resolve_receiver rx subj c = Ok (r, c1) → fresh_temp c1 = Ok (t, c2) →
  inline_method rx d b args [(t, r)] c2 = Ok (n, c') →
  match subj with Some e => ok_exp N O (rebound a) e P | None => true end = true →
  forallb (λ e, ok_exp N O (rebound a) e P) args = true → static c V a P O →
  sim c V a P (λ m, lbind (leval_receiver lx subj a m) (λ r m,
                  leval_args lx args a [] m (λ vs m, run_method l b r true vs m)))
    (eval fr rounds n).
Proof using HM Hdeep.
  intros Ed El Hsubj He Hb (Hnd & _ & Hlen) Hr0 Ht Hr Hok0 Hok Hs m E Hd.
  assert (bodies_agree d l) as Hdl by (rewrite Ed, El in Hdeep; exact Hdeep).
  destruct (receiver_sim _ _ _ _ V a P O Hsubj Hr0 Hok0 Hs) as [Ha1 Hsub].
  pose proof (progresses_fresh_temp _ _ _ Ht) as Ha2.
  assert (adv ∅ c c2) as Ha by by eapply adv_trans_l.
  pose proof (static_adv _ _ _ _ _ _ _ Ha Hs) as Hs2.
  apply bind_ok in Hr as ([bs ns] & c3 & Hr1 & Hr). apply bind_ok in Hr as (body & c4 & Hr2 & [= <- <-]).
  destruct (bind_args_cells _ _ _ _ _ _ Hr1 Hlen) as (Ha3 & Ebs & Hcells).
  destruct (fresh_temp_facts _ _ _ Ht) as (Htn & Hto & _ & _).
  cbn [app eval eval_binds]. eapply agree_bind; [by apply Hsub|done|].
  intros v m1 E1 H1.
  destruct (cell_sim c c1 c2 V a P O m E m1 E1 t v) as (E2 & -> & H2 & Hct & _); [done..|].
  cbn [obind].
  assert (dyn c2 V a P m1 E2) as Hd2 by (eapply dyn_adv; [exact Ha|]; by eapply after_dyn).
  assert (∀ m' E', after c2 V m1 E2 m' E' → after c V m E m' E') as HR
    by (intros m' E' H'; eapply after_trans; [exact Ha|exact H2|exact H']).
  assert (¬ old c t) as Htc by (intros Hc; apply Htn; by eapply old_adv).
  eapply (binds_sim _ args _ c2 bs ns c3 V a P O m1 E2); try done.
  - by eapply after_refl.
  - intros vs m3 E3 H3 Hl HF.
    assert (arg_cells c c3 bs) as Hcells'.
    { destruct Hcells as [Hnd2 Hall]. split; [done|]. eapply Forall_impl; [exact Hall|].
      intros q (Hq & ?). split; [|done]. intros Hc. apply Hq. by eapply old_adv. }
    apply (method_sim d l b true v (Some t) bs body c c3 c4 V a P O m E m3 E3 vs); try done.
    + by eapply adv_trans_l.
    + by apply HR.
    + split_and!; [done| |done|by eapply old_adv|].
      * destruct H3 as [_ _ _ C3]. rewrite C3; [done|done|].
        intros Hc. by apply Htc, (s_old _ _ _ _ _ _ Hs).
      * intros (q & -> & Hq)%list_elem_of_fmap. destruct Hcells as [_ Hall].
        rewrite Forall_forall in Hall. by destruct (Hall q Hq) as [Hno _].
Qed.

Lemma sent_sim subj sel args c r ns c1 c2 V a P O :
  on_option node_ok subj → Forall node_ok args →
  resolve_receiver rx subj c = Ok (r, c1) → resolve_args rx args c1 = Ok (ns, c2) →
  match subj with Some e => ok_exp N O (rebound a) e P | None => true end = true →
  forallb (λ e, ok_exp N O (rebound a) e P) args = true → static c V a P O →
  sim c V a P (λ m, lbind (leval_receiver lx subj a m) (λ r m,
                  leval_args lx args a [] m (λ vs m, l_send fr sel r vs m)))
    (eval fr rounds (NCall r sel ns)).
Proof using HM Hdeep.
  intros Hsubj He Hr Hra Hok0 Hok Hs.
  destruct (receiver_sim _ _ _ _ V a P O Hsubj Hr Hok0 Hs) as [Ha Hsub].
  cbn [eval]. eapply (sim_bind fr p N c c1); [exact Hs|exact Ha|exact Hsub|]. intros v.
  eapply args_sim; [done|exact Hra|done|by eapply static_adv|].
  intros vs _. by apply sim_send.
Qed.

Lemma call_sim subj cls sel variadic args :
  on_option node_ok subj → Forall node_ok args → node_ok (ECall subj cls sel variadic args).
Proof using HM Hdeep Hown Hclass.
  intros Hsubj He c n c' V a P O Hr Hok Hs. cbn [ok_exp resolve_exp leval] in *.
  apply andb_true_iff in Hok as [Hok0 Hok].
  apply bind_ok in Hr as (rb & c0 & [= <- <-] & Hr). rewrite <- (s_rebound _ _ _ _ _ _ Hs) in Hr.
  assert (∀ r c1 ns c2, resolve_receiver rx subj c = Ok (r, c1) → resolve_args rx args c1 = Ok (ns, c2) →
    (mret (NCall r sel ns) : M Node) c2 = Ok (n, c') → sim c V a P (λ m, lbind (leval_receiver lx subj a m) (λ r m,
      leval_args lx args a [] m (λ vs m, l_send fr sel r vs m))) (eval fr rounds n)) as Hsent.
  { intros r c1 ns c2 Hr1 Hr2 [= <- <-]. by eapply sent_sim. }
  assert ((∃ d l, dr = Some d ∧ dl = Some l) ∨ (dr = None ∧ dl = None)) as Hcase
    by (clear - Hdeep; destruct dr, dl; naive_solver).
  set (RX := rx) in *. set (LX := lx) in *.
  destruct Hcase as [(d & l & Ed & El)|[Ed El]]; rewrite Ed in Hr; rewrite El.
  2:{ apply bind_ok in Hr as (r & c1 & Hr1 & Hr). apply bind_ok in Hr as (ns & c2 & Hr2 & Hr). by eapply Hsent. }
  destruct (call_form _ _ (rebound a) subj cls sel variadic args) as [b|fld|b|] eqn:Ef.
  - destruct (call_form_spliced _ _ _ _ _ _ _ _ _ Ef) as (Hb & Hsp & Hrb & _).
    eapply spliced_sim; try done. rewrite Hrb. by eapply Hown.
  - apply bind_ok in Hr as (r & c1 & Hr1 & [= <- <-]).
    destruct (receiver_sim _ _ _ _ V a P O Hsubj Hr1 Hok0 Hs) as [Ha Hsub].
    cbn [eval]. eapply (sim_bind fr p N c c1); [exact Hs|exact Ha|exact Hsub|].
    intros v m E Hd. split; [done|]. exists E. split; [done|]. by eapply after_refl.
  - destruct (call_form_spliced_on _ _ _ _ _ _ _ _ _ Ef) as (Hsp & _ & k & bs & Hk & Hb).
    apply bind_ok in Hr as (r & c1 & Hr1 & Hr). apply bind_ok in Hr as (t & c2 & Ht & Hr).
    eapply spliced_on_sim; try done. by eapply Hclass.
  - apply bind_ok in Hr as (r & c1 & Hr1 & Hr). apply bind_ok in Hr as (ns & c2 & Hr2 & Hr). by eapply Hsent.
Qed.

(** ** Every expression *)

Lemma pair_sim e1 e2 c n1 c1 n2 c2 V a P O k k' :
  node_ok e1 → node_ok e2 → rx e1 c = Ok (n1, c1) → rx e2 c1 = Ok (n2, c2) →
  ok_exp N O (rebound a) e1 P && ok_exp N O (rebound a) e2 P = true → static c V a P O →
  (∀ v, sim c1 V a P (lx e2 a) (eval fr rounds n2) → sim c1 V a P (k v) (k' v)) →
  sim c V a P (λ m, lbind (lx e1 a m) k) (λ m, obind (eval fr rounds n1 m) k').
Proof using Hdeep.
  intros H1 H2 Hr1 Hr2 [Hok1 Hok2]%andb_true_iff Hs Hk. pose proof (rx_progresses e1 _ _ _ Hr1) as Ha.
  eapply sim_bind; [exact Hs|exact Ha|by eapply H1|]. intros v. apply Hk.
  eapply H2; [done|done|]. by eapply static_adv.
Qed.

Theorem resolved_exp_agrees e : node_ok e.
Proof using HM Hdeep Hown Hclass.
  induction e as [k|x|x|g|ps b IH|l r IHl IHr|l r IHl IHr|op l r IHl IHr|s e IH
    |subj cls s vr args IHs IHa|vs IH|g subj t e IHs IHt IHe|st cs bs IHc IHb] using Exp_induction;
    intros c n c' V a P O Hr Hok Hs; cbn [ok_exp resolve_exp leval] in *.
  - injection Hr as <- <-. apply sim_constant. by apply negb_true_iff.
  - injection Hr as <- <-. by eapply sim_name.
  - by eapply sim_field.
  - injection Hr as <- <-. by apply sim_load.
  - done.
  - apply bind_ok in Hr as (n1 & c1 & H1 & Hr). apply bind_ok in Hr as (n2 & c2 & H2 & [= <- <-]).
    cbn [eval]. eapply (pair_sim l r); try done. intros v Hv. apply sim_if; [done|apply sim_ret].
  - apply bind_ok in Hr as (n1 & c1 & H1 & Hr). apply bind_ok in Hr as (n2 & c2 & H2 & [= <- <-]).
    cbn [eval]. eapply (pair_sim l r); try done. intros v Hv. apply sim_if; [apply sim_ret|done].
  - apply bind_ok in Hr as (n1 & c1 & H1 & Hr). apply bind_ok in Hr as (n2 & c2 & H2 & [= <- <-]).
    cbn [eval]. eapply (pair_sim l r); try done. intros v Hv.
    assert (static c1 V a P O) as Hs1 by (eapply static_adv; [by eapply rx_progresses|done]).
    eapply sim_bind; [exact Hs1|apply adv_refl|exact Hv|]. intros w. by apply sim_binary.
  - apply bind_ok in Hr as (n1 & c1 & H1 & [= <- <-]). cbn [eval].
    eapply sim_bind; [exact Hs|by eapply rx_progresses|by eapply IH|]. intros v. by apply sim_send.
  - eapply call_sim; [exact IHs|exact IHa|exact Hr|exact Hok|exact Hs].
  - apply bind_ok in Hr as (ns & c1 & H1 & [= <- <-]). cbn [eval].
    eapply args_sim; [exact IH|exact H1|done|exact Hs|]. intros vs' _. by apply sim_list.
  - apply andb_true_iff in Hok as [[[Hg Hok1]%andb_true_iff Hok2]%andb_true_iff Hok3].
    destruct g; [done|].
    apply bind_ok in Hr as (n1 & c1 & H1 & Hr). apply bind_ok in Hr as (nt & c2 & H2 & Hr).
    apply bind_ok in Hr as (ne & c3 & H3 & Hr). apply bind_ok in Hr as (cold & c4 & [= <- <-] & [= <- <-]).
    pose proof (rx_progresses subj _ _ _ H1) as Ha.
    cbn [eval]. eapply sim_bind; [exact Hs|exact Ha|by eapply IHs|]. intros v.
    eapply (if_sim _ _ _ _ _ c2 c3); try done; [|by destruct e|by eapply static_adv].
    destruct e as [e|]; [|by injection H3 as <- _].
    apply bind_ok in H3 as (ns & c5 & H3 & [= <- <-]). exact H3.
  - apply andb_true_iff in Hok as [Hok1 Hok2].
    apply bind_ok in Hr as (nc & c1 & H1 & Hr). apply bind_ok in Hr as (nb & c2 & H2 & [= <- <-]).
    cbn [eval]. by eapply while_sim.
Qed.
End at_depth.

Context (Hown : ∀ sel b, own_bodies !! sel = Some b → well_named_method N false b = true).
Context (Hclass : ∀ k bs sel b, class_bodies !! k = Some bs → bs !! sel = Some b → well_named_method N true b = true).

Abbreviation resolve d := (resolve_at own_bodies class_bodies template d).
Abbreviation evaluate d := (leval_at fr own_bodies class_bodies new_closure rounds d).

Lemma stms_at_agree dr dl stms :
  match dr, dl with Some dr, Some dl => bodies_agree dr dl | None, None => True | _, _ => False end →
  stms_sim dr dl stms.
Proof using HM Hown Hclass.
  intros Hdeep. apply body_sim; [done|]. apply Forall_forall. intros s _. by apply resolved_exp_agrees.
Qed.

Lemma bodies_at_agree d : bodies_agree (resolve d) (evaluate d).
Proof using HM Hown Hclass.
  assert (∀ dr dl, match dr, dl with Some dr, Some dl => bodies_agree dr dl | None, None => True | _, _ => False end →
    bodies_agree (resolve_body (resolve_exp own_bodies class_bodies template dr))
      (λ a stms m, leval_stms fr (leval fr own_bodies class_bodies dl new_closure rounds) stms a m)) as Hstep.
  { intros dr dl Hdeep stms Hn. split.
    - rewrite <- (declared_nothing _ Hn). by eapply body_progresses.
    - intros c ns c' V a P O Hr Hok Hs m E Hd.
      eapply agree_weaken; [|by eapply (stms_at_agree dr dl stms); [..|by rewrite Hn|]].
      intros m' E' (V' & _ & HV & Ha). by rewrite <- (HV Hn) in *. }
  induction d as [|d IH]; cbn [resolve_at leval_at].
  - by apply (Hstep None None).
  - by apply (Hstep (Some _) (Some _)).
Qed.

Lemma block_at_agree d stms c ns c' V a P O m E :
  resolve d stms c = Ok (ns, c') → well_named N O (rebound a) stms P = true → static c V a P O →
  top_ok c V → dyn c V a P m E →
  agree fr p (stms_after (existsb declares stms) c V m E) (evaluate d a stms m)
    (eval_stmts (eval fr rounds) ns (real E m)).
Proof using HM Hown Hclass.
  intros Hr Hok Hs Ht Hd. destruct d as [|d]; cbn [resolve_at leval_at] in *.
  - by eapply (stms_at_agree None None).
  - eapply (stms_at_agree (Some (resolve d)) (Some (evaluate d))); try done. by apply bodies_at_agree.
Qed.
End nodes.
End names.
