(* ===== verification/NamesProps.v ===== *)
(** * The compiler's names mean what the source says

    A block from its first statement: the relation of [NamesSim] holds there, so the code the
    compiler emits for the block ends as the evaluator of the source says.  Then a block with
    spliced arms and an inlined method, and what a name means outside the conditions. *)
From stdpp Require Import base numbers list strings gmap.
From stdpp Require Import options.
From S2P Require Import Prelude Instr Exec Fuse FuseMap FuseSim FuseProps Lower LowerCode LowerNodes LowerProps Names Lexical NamesRel NamesSim NamesNodes.
Local Open Scope nat_scope.

#[local] Arguments cell : simpl never.
#[local] Arguments env_get : simpl never.

Section start.
Context `{Machine W} (fr : FrameInfo) (p : option nat) (N : gset string).
Abbreviation f := (f_env fr).
Abbreviation LMem := (Lexical.LMem (W:=W)).
Abbreviation static := (static N).
Abbreviation dyn := (dyn (W:=W) fr p).
Abbreviation real := (real (W:=W) fr p).

(** ** A block from its first statement *)

(** The compiler around a block: no method is being spliced, and no scope renames. *)
Definition plain_scopes (c : Compiler) : Prop :=
  param_override c = ∅ ∧ self_override c = None ∧
  Forall (λ sp, renames sp = ∅ ∧ is_init sp = false ∧ "self" ∉ locals sp) (scopes c).

Definition scope_names (c : Compiler) : gset string := ⋃ (locals <$> scopes c).

Definition block_activation (c : Compiler) (params : list string) (receiver : Value) : Activation :=
  mkActivation (list_to_set params ∪ scope_names c) receiver false.

(** The block in its frame: the parameters are its locals, the names of the scopes around it are
    bound behind it, and [receiver] is its [self]. *)
Record starts (c : Compiler) (params : list string) (args : list Value) (receiver : Value)
    (h : Envs) (E : list (Symbol * Value)) : Prop := {
  st_frame : frame_ok f p h;
  st_params : NoDup params ∧ length args = length params ∧ ∀ x, x ∈ params → local_name x = true;
  st_locals x : local_name x = true → cell E x = bind_params params args !! x;
  st_outer x : local_name x = true → x ∈ scope_names c → is_Some (env_get h f x);
  st_self : default VNil (env_get (with_vars f p E h) f self_symbol) = receiver;
  st_names x : local_name x = true → x ∈ list_to_set params ∪ scope_names c → x ∈ N }.

Definition param_cells (params : list string) : gmap string Symbol :=
  last_bindings ((λ x, (x, x)) <$> params).

Lemma param_cells_lookup params x s :
  NoDup params → param_cells params !! x = Some s ↔ s = x ∧ x ∈ params.
Proof using.
  intros Hnd. unfold param_cells.
  rewrite bindings_lookup by (rewrite <- list_fmap_compose; by rewrite list_fmap_id).
  rewrite list_elem_of_fmap. split; [intros (y & [= -> ->] & ?); done|intros [-> ?]; eauto].
Qed.

Lemma scope_names_spec c x :
  x ∈ scope_names c ↔ existsb (λ s, bool_decide (x ∈ locals s)) (scopes c) = true.
Proof using.
  unfold scope_names. induction (scopes c) as [|s l IH]; cbn; [split; [by intros ?%elem_of_empty|done]|].
  rewrite elem_of_union, IH, orb_true_iff, bool_decide_eq_true. done.
Qed.

Lemma plain_symbol c x : plain_scopes c → local_symbol c x = x.
Proof using.
  intros (_ & _ & Hall). unfold local_symbol. induction Hall as [|s l (Hr & _) _ IH]; [done|].
  cbn. rewrite Hr, lookup_empty. by case_bool_decide.
Qed.

Lemma start_static c params args receiver h E :
  plain_scopes c → starts c params args receiver h E →
  static (push_scope (list_to_set params) c) [param_cells params] (block_activation c params receiver) ∅ ∅.
Proof using.
  intros Hc [Hf (Hnd & Hlen & Hp) Hl Ho Hse Hn]. pose proof Hc as (Hpar & Hov & Hall).
  assert (∀ x, x ≠ "self" → is_local (push_scope (list_to_set params) c) x = true ↔
            x ∈ list_to_set params ∪ scope_names c) as Hloc.
  { intros x Hx. unfold is_local. rewrite bool_decide_eq_false_2 by done. cbn [scopes push_scope set_scopes existsb orb locals].
    rewrite orb_true_iff, bool_decide_eq_true, elem_of_union, scope_names_spec. done. }
  assert (∀ s, is_cell [param_cells params] s → s ∈ params) as Hcell.
  { intros s [[x Hx]|(? & ? & Hin & _)]%is_cell_cons; [|by apply elem_of_nil in Hin].
    by apply param_cells_lookup in Hx as [-> ?]. }
  split; cbn [names rebound block_activation param_override self_override push_scope set_scopes]; try done.
  - intros x Hx _. unfold known. cbn. rewrite Hpar, lookup_empty, Hloc by by apply local_not_self.
    split; [by right|]. by intros [[]|?].
  - intros x Hx _ Hin. unfold resolved. cbn [param_override push_scope set_scopes]. rewrite Hpar, lookup_empty. cbn.
    unfold local_symbol. cbn. rewrite lookup_empty. cbn.
    change (symbol_in (scopes c) x) with (local_symbol c x). rewrite plain_symbol by done.
    replace (if bool_decide _ then x else x) with x by by case_bool_decide.
    destruct (param_cells params !! x) as [s|] eqn:Es; [|done]. by apply param_cells_lookup in Es as [-> _].
  - split_and!; [|intros ?? _ (? & ? & Hin & _); by apply elem_of_nil in Hin|done].
    intros x y s [-> _]%param_cells_lookup [-> _]%param_cells_lookup; done.
  - intros s Hs%Hcell. apply user_old. by apply local_user, Hp.
  - intros σ x s [->|Hin]%elem_of_cons; [|by apply elem_of_nil in Hin].
    intros [-> Hx]%param_cells_lookup; [|done]. split_and!; [by apply Hp|by apply local_not_reserved, Hp|done].
  - by rewrite Hov.
  - intros s. by rewrite Hov.
  - split; [by rewrite Hpar|]. cbn. constructor.
    + cbn. rewrite elem_of_list_to_set. intros Hin%Hp. by apply (local_not_self "self").
    + eapply Forall_impl; [exact Hall|]. by intros ? (_ & _ & ?).
  - cbn. constructor; [done|]. eapply Forall_impl; [exact Hall|]. by intros ? (_ & ? & _).
  - intros x. rewrite Hpar. by intros [].
  - intros x Hx Hin. apply Hn; [done|]. apply Hloc; [by apply local_not_self|done].
Qed.

Lemma start_dyn c params args receiver h E w :
  plain_scopes c → starts c params args receiver h E →
  dyn (push_scope (list_to_set params) c) [param_cells params] (block_activation c params receiver) ∅
    (mkLMem [bind_params params args] h w) E.
Proof using.
  intros (Hpar & Hov & Hall) [Hf (Hnd & Hlen & Hp) Hl Ho Hse Hn].
  assert (∀ x, x ∈ params ↔ is_Some (bind_params params args !! x)) as Hb.
  { intros x. assert ((zip params args).*1 = params) as Ez by (apply fst_zip; lia). split.
    - intros Hx. rewrite <- Ez in Hx. apply list_elem_of_fmap in Hx as ([y v] & -> & Hin). exists v.
      apply last_one; [by rewrite Ez|by left].
    - intros [v [Hin|[_ Hm]]%last_one]; [|by rewrite lookup_empty in Hm|by rewrite Ez].
      rewrite <- Ez. by eapply bound_name. }
  split; cbn [lex outer names block_activation self_override push_scope set_scopes me].
  - constructor; [|done]. intros x. destruct (param_cells params !! x) as [s|] eqn:Es.
    + apply param_cells_lookup in Es as [-> Hx]; [|done]. rewrite Hl by by apply Hp.
      apply Hb in Hx as [v Hv]. eauto.
    + apply eq_None_not_Some. intros Hx%Hb.
      assert (param_cells params !! x = Some x) as E' by (by apply param_cells_lookup).
      by rewrite E' in Es.
  - done.
  - intros x Hx _ Hin Hv. cbn in Hv.
    assert (x ∉ params) as Hnx.
    { intros Hxp. assert (param_cells params !! x = Some x) as E' by (by apply param_cells_lookup).
      by rewrite E' in Hv. }
    split.
    + rewrite Hl by done. apply eq_None_not_Some. by intros ?%Hb.
    + apply Ho; [done|]. apply elem_of_union in Hin as [?%elem_of_list_to_set|?]; done.
  - rewrite Hov. rewrite <- (env_get_with_vars f p E h self_symbol Hf). exact Hse.
Qed.

Lemma start_top c params :
  plain_scopes c → NoDup params → top_ok (push_scope (list_to_set params) c) [param_cells params].
Proof using.
  intros (_ & Hov & _) Hnd. exists (mkScope (list_to_set params) ∅ false false ∅), (scopes c), (param_cells params), [].
  split_and!; [done|done| |done].
  intros x s _ [-> Hx]%param_cells_lookup; [|done]. cbn. by apply elem_of_list_to_set.
Qed.
End start.

(** ** Its code *)

(** How a frame ends for an outcome of the source: the same value, error or result, the same
    world, and the same heap but for the locals of the frame. *)
Definition frame_ends `{Machine W} (fr : FrameInfo) (p : option nat) (out : list Instruction) (rounds : nat)
    (start : Envs * W) (o : LOut (W:=W)) : Prop :=
  let from := At 0 (mkVm [] start.1 start.2) in
  let heap m E := with_vars (f_env fr) p E (outer m) in
  match o with
  | LVal v m => ∃ n E, run fr out n from = Returned v (heap m E) (lworld m)
  | LFails e m => ∃ n ip a e' E, run fr out n from = Failed ip a e' (heap m E) (lworld m) ∧
                    (e' = e ∨ e = stack_is_empty)
  | LMethodResult v m => ∃ n E, run fr out n from = ReturnedFromMethod v (heap m E) (lworld m)
  | LGone => ∃ n, run fr out n from = Away
  | LMore => ∀ n, 3 * n ≤ rounds → running (run fr out n from)
  end.

Lemma block_runs_ends `{Machine W} (fr : FrameInfo) p out rounds h w o o' (R : LMem → list (Symbol * Value) → Prop) :
  block_runs fr out rounds (h, w) o' → agree fr p R o o' → frame_ends fr p out rounds (h, w) o.
Proof.
  intros Hb Ha. destruct o, o'; try done; cbn in *.
  - destruct Ha as (-> & E & -> & _). destruct Hb as [n Hn]. by exists n, E.
  - destruct Ha as (-> & E & -> & _). destruct Hb as (n & ip & a & e' & Hn & He). by exists n, ip, a, e', E.
  - destruct Ha as (-> & E & -> & _). destruct Hb as [n Hn]. by exists n, E.
Qed.

(** C2: The names of a well-named block mean what the source says, in the code the compiler emits.
    The block, and every method of the maps the compiler inlines from, is [well_named]: it has no
    block literal that stays a block (as an expression or a constant), no guarded conditional
    (one with an untyped receiver, which carries its arms as blocks), uses a declared name only
    after its initializer, declares only names of [N] that are user names and no parameter of the
    method it is in; a method has distinct parameters and uses no other name of [N] than these
    and what it declares, and one inlined on another receiver sets no field.  The frame
    is a [PrivateFrame]: an ordinary one, over which the machine holds no closure, so that calls,
    globals, lists and constants neither read nor write its locals; and it [starts] with its
    parameters bound, distinct and user names.  The code is below 2^63 instructions.  Then the
    finished code, with its renamed locals, spliced arms and loops and the cells of the inlined
    arguments, ends as the evaluator of the source says in which every arm and every round has a
    frame of its own and every inlined method runs in its own frame: with the same value, error or
    method result, the same world and the same heap behind the frame; and it runs on while a loop
    has not used up its rounds.  The two messages for an empty operand stack count as one.  Outside
    these conditions it is false ([names_that_go_wrong]). *)
Theorem names_mean_what_the_source_says `{Machine W} (fr : FrameInfo) p (N : gset string)
    own_bodies class_bodies template new_closure c params args receiver stms ns c' h E w smap :
  PrivateFrame fr p →
  (∀ sel b, own_bodies !! sel = Some b → well_named_method N false b = true) →
  (∀ k bs sel b, class_bodies !! k = Some bs → bs !! sel = Some b → well_named_method N true b = true) →
  plain_scopes c → starts fr p N c params args receiver h E →
  resolve_stms own_bodies class_bodies template stms (push_scope (list_to_set params) c) = Ok (ns, c') →
  well_named N ∅ false stms ∅ = true →
  (len (compile_block ns) < 2 ^ 63)%Z → length smap = length (compile_block ns) →
  ∃ out smap', fuse_bytecode (compile_block ns) smap = Some (out, smap') ∧
    ∀ rounds, frame_ends fr p out rounds (with_vars (f_env fr) p E h, w)
      (leval_at fr own_bodies class_bodies new_closure rounds MAX_INLINE_DEPTH
         (block_activation c params receiver) stms (mkLMem [bind_params params args] h w)).
Proof.
  intros HM Hown Hclass Hc Hst Hr Hok HC Hl. pose proof (compiled_jumps_inside _ HC) as Hj.
  destruct (fused_runs fr _ _ Hl Hj) as (out & smap' & Hf & Hends & Hback).
  exists out, smap'. split; [done|]. intros rounds.
  eapply block_runs_ends.
  - eapply ends_fused; [done..|]. by apply compile_block_ends.
  - unfold eval_block.
    change (with_vars (f_env fr) p E h, w) with (real fr p E (mkLMem [bind_params params args] h w)).
    eapply (block_at_agree fr p N HM); try done.
    + by eapply start_static.
    + eapply start_top; [done|]. by destruct (st_params _ _ _ _ _ _ _ _ _ Hst).
    + by eapply start_dyn.
Qed.

(** * A block with spliced arms and an inlined method

    The block of the witness, its value both ways, and four programs outside the conditions. *)

(** What the source says, and what the finished code returns. *)
Section outcomes.
Context `{Machine W} (fr : FrameInfo) (own_bodies : gmap string MethodBlock)
  (class_bodies : gmap string (gmap string MethodBlock)).

Definition no_template (_ : list Symbol) (_ : list Stmt) : StaticBlock :=
  mkStaticBlock None [] [] None None [] None false.
Definition no_closure (_ : list string) (_ : list Stm) (_ : list (gmap string Value)) (_ : Envs) (w : W)
    : BinNums.N * W := (0%N, w).

Definition unit_compiler : Compiler := mkCompiler [] 0 0 ∅ None 0.

Definition said (params : list string) (args : list Value) (receiver : Value) (stms : list Stm)
    (h : Envs) (w : W) : option (Value * W) :=
  match leval_at fr own_bodies class_bodies no_closure 20 MAX_INLINE_DEPTH
          (block_activation unit_compiler params receiver) stms (mkLMem [bind_params params args] h w) with
  | LVal v m => Some (v, lworld m)
  | _ => None
  end.

Definition emitted (params : list string) (stms : list Stm) : option (list Instruction) :=
  match resolve_stms own_bodies class_bodies no_template stms (push_scope (list_to_set params) unit_compiler) with
  | Ok (ns, _) => fst <$> fuse_bytecode (compile_block ns) (replicate (length (compile_block ns)) None)
  | Err _ => None
  end.

Definition returned (params : list string) (stms : list Stm) (h : Envs) (w : W) : option (Value * W) :=
  match emitted params stms with
  | Some out =>
      match run fr out 300 (At 0 (mkVm [] h w)) with Returned v _ w' => Some (v, w') | _ => None end
  | None => None
  end.
End outcomes.

Definition e_int (z : Z) : Exp := EConst (CInt z).
Definition e_add (l r : Exp) : Exp := EBinary (OpInt Add) l r.
Definition e_lt (l r : Exp) : Exp := EBinary (OpInt Lt) l r.
Definition set_local (x : string) (e : Exp) : Stm := SAssign (LName false x) e.

Definition doubling : gmap string MethodBlock :=
  {["double:" := mkMethod ["n"] [SExp (e_add (EName "n") (EName "n"))] true]}.

(** [|k| var s = 0. var i = 0.
     { i < 3 }.whileDo:{
       var t = self.double:i. (t < 3).if:{ var t = k. s = s + t }. s = s + t. i = i + 1 }. s] *)
Definition shadowing : list Stm :=
  [SDecl true "s" (e_int 0); SDecl true "i" (e_int 0);
   SExp (EWhile false [SExp (e_lt (EName "i") (e_int 3))]
     [SDecl true "t" (ECall None None "double:" false [EName "i"]);
      SExp (EIf false (e_lt (EName "t") (e_int 3))
        [SDecl true "t" (EName "k"); set_local "s" (e_add (EName "s") (EName "t"))] None);
      set_local "s" (e_add (EName "s") (EName "t"));
      set_local "i" (e_add (EName "i") (e_int 1))]);
   SExp (EName "s")].

Definition main_frame : FrameInfo := mkFrame 0 false.
Definition no_locals : Envs := {[0 := mkEnvFrame None []]}.
Definition main_locals : list (Symbol * Value) := [("self", VObject 1); ("k", VInt 10)].
Definition main_heap : Envs := {[0 := mkEnvFrame None main_locals]}.

#[local] Existing Instance silent_machine.

Example shadowing_code :
  emitted doubling ∅ ["k"] shadowing =
  Some [Push (CInt 0); DefineLocal "s"; Push (CInt 0); DefineLocal "i";
        IntBinLC "i" (CInt 3) Lt; ElseJump 19;
        LoadLocal "i"; DefineLocal "__qn_temp_1"; IntBinLL "__qn_temp_1" "__qn_temp_1" Add;
        DefineLocal "t·0";
        IntBinLC "t·0" (CInt 3) Lt; ElseJump 6;
        LoadLocal "k"; DefineLocal "t·1"; IntBinLL "s" "t·1" Add; StoreLocalKeep "s"; Jump 2; Push CNil; Pop;
        IntBinLL "s" "t·0" Add; StoreLocal "s"; IntBinLC "i" (CInt 1) Add; StoreLocal "i";
        Jump (-19); Push CNil; Pop; LoadLocal "s"; Return].
Proof. vm_compute. reflexivity. Qed.

Example shadowing_value :
  said main_frame doubling ∅ ["k"] [VInt 10] (VObject 1) shadowing no_locals tt = Some (VInt 26, tt) ∧
  returned main_frame doubling ∅ ["k"] shadowing main_heap tt = Some (VInt 26, tt).
Proof. split; vm_compute; reflexivity. Qed.

Lemma silent_is_private : PrivateFrame main_frame None.
Proof. split; try done; intros; intros ?? Hh; (split; [done|]); by intros ??? [= <- <- <-]. Qed.

Definition shadowing_names : gset string := {["k"; "s"; "i"; "t"]}.

Lemma shadowing_starts :
  starts main_frame None shadowing_names unit_compiler ["k"] [VInt 10] (VObject 1) no_locals main_locals.
Proof.
  split; try done.
  - split; [done|]. intros i fr q Hi. unfold no_locals in Hi.
    apply lookup_singleton_Some in Hi as [_ <-]. done.
  - split; [apply NoDup_singleton|]. split; [done|]. intros x Hx%list_elem_of_singleton. by subst.
  - intros x Hx. unfold main_locals. rewrite !cell_cons.
    destruct (decide ("self" = x)) as [<-|_]; [by apply local_not_self in Hx|].
    cbn. destruct (decide ("k" = x)) as [<-|Hne]; [done|]. by rewrite lookup_insert_ne.
  - intros x _ Hx. cbn in Hx. rewrite !elem_of_union, elem_of_singleton, !elem_of_empty in Hx.
    destruct Hx as [[->|[]]|[]]. apply (bool_decide_eq_true_1 _). vm_compute. reflexivity.
Qed.

Definition shadowing_resolved : result string (list Stmt * Compiler) :=
  resolve_stms doubling ∅ no_template shadowing (push_scope (list_to_set ["k"]) unit_compiler).
Definition shadowing_nodes : list Stmt := match shadowing_resolved with Ok (ns, _) => ns | Err _ => [] end.
Definition shadowing_compiler : Compiler :=
  match shadowing_resolved with Ok (_, c) => c | Err _ => unit_compiler end.

Lemma names_mean_what_the_source_says_witness :
  ∃ out smap', fuse_bytecode (compile_block shadowing_nodes)
                 (replicate (length (compile_block shadowing_nodes)) None) = Some (out, smap') ∧
    ∀ rounds, frame_ends main_frame None out rounds (with_vars 0 None main_locals no_locals, tt)
      (leval_at main_frame doubling ∅ no_closure rounds MAX_INLINE_DEPTH
         (block_activation unit_compiler ["k"] (VObject 1)) shadowing
         (mkLMem [bind_params ["k"] [VInt 10]] no_locals tt)).
Proof.
  apply (names_mean_what_the_source_says main_frame None shadowing_names doubling ∅ no_template no_closure
    unit_compiler ["k"] [VInt 10] (VObject 1) shadowing shadowing_nodes shadowing_compiler no_locals main_locals
    tt (replicate (length (compile_block shadowing_nodes)) None)).
  - exact silent_is_private.
  - intros sel b Hb. unfold doubling in Hb. apply lookup_singleton_Some in Hb as [_ <-]. vm_compute. reflexivity.
  - intros k bs sel b Hk. by rewrite lookup_empty in Hk.
  - split; [done|]. split; [done|constructor].
  - exact shadowing_starts.
  - vm_compute. reflexivity.
  - vm_compute. reflexivity.
  - vm_compute. reflexivity.
  - vm_compute. reflexivity.
Defined.

(** ** Outside the conditions *)

(** A machine that records the object whose field was set last. *)
Definition recording_machine : Machine (option Value) := {|
  new_object _ _ _ w := (0%N, w);
  object_class_name _ _ := "Object";
  field_of _ _ _ := VNil;
  set_field r _ _ _ := Ok (Some r);
  set_active _ w := w;
  list_spliced _ _ _ := false;
  plain_new_check _ _ := false;
  call _ _ _ _ h w := Some (Ok (VObject 2), h, w);
  operate _ _ _ h w := Some (Ok VNil, h, w);
  operate_advanced _ _ _ _ _ := false |}.

(** [var x = 1. true.if:{ var x = x. x }] *)
Definition own_initializer : list Stm :=
  [SDecl true "x" (e_int 1);
   SExp (EIf false (EConst (CBool true)) [SDecl true "x" (EName "x"); SExp (EName "x")] None)].

(** [.pick:1], with [pick:x -> { true.if:{ var x = 5. x } }] *)
Definition picking : gmap string MethodBlock :=
  {["pick:" := mkMethod ["x"]
     [SExp (EIf false (EConst (CBool true)) [SDecl true "x" (e_int 5); SExp (EName "x")] None)] true]}.
Definition redeclared_parameter : list Stm := [SExp (ECall None None "pick:" false [e_int 1])].

(** [var total = 7. .get], with [get -> { total }], a name of the unit and no local there *)
Definition getting : gmap string MethodBlock :=
  {["get" := mkMethod [] [SExp (EName "total")] true]}.
Definition captured_name : list Stm :=
  [SDecl true "total" (e_int 7); SExp (ECall None None "get" false [])].

(** [.other.rename], with [rename -> { @n = 1 }] of the class of the receiver *)
Definition renaming_class : gmap string (gmap string MethodBlock) :=
  {["Person" := {["rename" := mkMethod [] [SAssign (LName true "n") (e_int 1)] true]}]}.
Definition field_of_another : list Stm :=
  [SExp (ECall (Some (ECall None None "other" false [])) (Some "Person") "rename" false [])].

(** Outside those conditions a name can go wrong.  In a spliced arm the initializer of a local
    reads the new cell instead of the outer local; in an inlined method a local that has the
    name of a parameter reads the argument; a name that is no local of an inlined method reads
    a local of the caller with that name; and an assignment to a field in a method inlined on
    another receiver sets the field of the caller's [self]. *)
Theorem names_that_go_wrong :
  (said main_frame ∅ ∅ [] [] (VObject 1) own_initializer no_locals tt = Some (VInt 1, tt) ∧
   returned main_frame ∅ ∅ [] own_initializer main_heap tt = Some (VNil, tt)) ∧
  (said main_frame picking ∅ [] [] (VObject 1) redeclared_parameter no_locals tt = Some (VInt 5, tt) ∧
   returned main_frame picking ∅ [] redeclared_parameter main_heap tt = Some (VInt 1, tt)) ∧
  (said main_frame getting ∅ [] [] (VObject 1) captured_name no_locals tt = Some (VNil, tt) ∧
   returned main_frame getting ∅ [] captured_name main_heap tt = Some (VInt 7, tt)) ∧
  (said (H := recording_machine) main_frame ∅ renaming_class [] [] (VObject 1) field_of_another no_locals None =
     Some (VInt 1, Some (VObject 2)) ∧
   returned (H := recording_machine) main_frame ∅ renaming_class [] field_of_another main_heap None =
     Some (VInt 1, Some (VObject 1))).
Proof. split_and!; vm_compute; reflexivity. Qed.
