(* ===== verification/Frames.v ===== *)
(** * Frames, calls and unwinding (src/src/vm/exec.rs, src/src/vm/call.rs, src/src/runtime/block.rs)

    The interpreter with its stack of frames: blocks and methods start frames, [Return] and the
    end of the code leave one, [^^] unwinds to the frame of the method around its block, native
    methods run blocks and send messages from inside, and the natives of [Block] catch errors
    and run cleanups.  [Exec] has the instructions that stay in a frame; here are those that
    do not.

    A native method is a tree of what it does to the machine ([Native]): it reads and changes
    the heap, runs a block or sends a message and goes on with the answer, cuts the stack of
    frames back to where it began, queues a call for the end of the frame.

    A stack has its top first.  [None] is a computation out of fuel; it is also the one panic
    here, in [run_frame_defers].  Left out: the values that are pushed only to be rooted, what
    the debugger and the traces of errors read, the caches of sends ([DispatchCache]), compiled
    methods, methods of extensions and services, the headroom of the native stack, the turns
    other tasks get, and the rest of the operands when an instruction of [Exec] fails.  The
    sends that [MapGet] and its like fall back to run inside the instruction here.  A [Yeet]
    that reaches the top, which no compiler emits, is an error of the program. *)
From stdpp Require Import base numbers list strings gmap.
From stdpp Require Import options.
From S2P Require Import Prelude Instr Exec.
Local Open Scope nat_scope.

(** ** Blocks and frames (value.rs, vm/mod.rs) *)

Abbreviation FrameId := N.

(** A closure; the template of [Instr] leaves out whether it is nested and the types of its
    parameters, of which the first matters to a handler. *)
Record Block := mkBlock {
  template : StaticBlock; parent_env : option nat; captured_home : option FrameId;
  is_nested_block : bool; param_type : option string }.

Record DeferredCall := mkDeferred { d_receiver : Value; d_selector : Symbol; d_args : list Value }.

Record Frame := mkCallFrame {
  frame_id : FrameId; enclosing_method_id : option FrameId; block : Block; frame_ip : nat;
  env : nat; instantiating_obj : option N; receiver : option Value; stack_base : nat;
  return_receiver : bool; defers : list DeferredCall;
  unregister_on_defer_failure : option NamespacedName }.

Definition bytecode (f : Frame) : list Instruction := sb_bytecode (template (block f)).

Definition frame_info (f : Frame) : FrameInfo :=
  mkFrame (env f) (bool_decide (is_Some (instantiating_obj f)) ||
                   sb_is_init_literal (template (block f))).

Definition set_ip (ip : nat) (f : Frame) : Frame :=
  mkCallFrame (frame_id f) (enclosing_method_id f) (block f) ip (env f) (instantiating_obj f)
    (receiver f) (stack_base f) (return_receiver f) (defers f) (unregister_on_defer_failure f).

Definition set_defers (ds : list DeferredCall) (f : Frame) : Frame :=
  mkCallFrame (frame_id f) (enclosing_method_id f) (block f) (frame_ip f) (env f)
    (instantiating_obj f) (receiver f) (stack_base f) (return_receiver f) ds
    (unregister_on_defer_failure f).

(** ** Native methods *)

(** What a native method runs: a block, a guard, a message, a method it holds. *)
Inductive Run :=
| RunBlock (b : Block) (args : list Value) (self_val : option Value)
| RunGuard (b : Block) (receiver : Value) (params : list Symbol) (args : list Value)
| CallMethod (receiver : Value) (sel : Symbol) (args : list Value)
| CallMethodValue (receiver method_val : Value) (sel : Symbol) (args : list Value).

Inductive Native (W A : Type) :=
| NRet (r : result QuoinError A)
| NStep (f : Envs → W → Envs * W) (k : Envs → W → Native W A)
| NRun (r : Run) (k : result QuoinError Value → Native W A)
| NUnwind (n : Native W A)
| NDefer (d : DeferredCall) (n : Native W A).
Arguments NRet {W A} r.
Arguments NStep {W A} f k.
Arguments NRun {W A} r k.
Arguments NUnwind {W A} n.
Arguments NDefer {W A} d n.

(** Go on with what the heap is. *)
Definition NRead {W A} (k : Envs → W → Native W A) : Native W A := NStep pair k.

(** A resolved method (dispatch.rs). *)
Inductive Callable (W : Type) :=
| CallBlock (b : Block)
| CallMeta (class_obj : N)
| CallNew (class_obj : N)
| CallNewNoBlock (class_obj : N)
| CallNative (func : Value → list Value → Native W Value).
Arguments CallBlock {W} b.
Arguments CallMeta {W} class_obj.
Arguments CallNew {W} class_obj.
Arguments CallNewNoBlock {W} class_obj.
Arguments CallNative {W} func.

(** How the classes of an object initialize it (vm/class.rs). *)
Record InitEntry := mkInit { init_colon : option (Value * list string); init_plain : option Value }.
Record InitPlan := mkPlan { ivar_slots : list (string * nat); inits : list InitEntry }.

(** What the frames rely on: the instructions that stay in a frame, whose new closures get the
    home of the frame; the lookup of methods, which may run guards; the rest of the
    instructions, which may run anything; the heap. *)
Class Runtime (W : Type) := {
  objects : option FrameId → Machine W;
  block_of : Value → W → option Block;
  lookup_method : Value → Symbol → list Value → Native W (option (Callable W));
  method_of : Value → Symbol → W → option (Callable W);
  not_understood : Value → Symbol → list Value → W → QuoinError;
  type_name : Value → W → string;
  ensure_instantiable : N → W → result QuoinError ();
  new_instance : N → W → N * W;
  instantiation_plan : N → W → InitPlan;
  set_slot : N → nat → Value → W → W;
  perform : Instruction → list Value → FrameInfo → Native W Value;
  take_pending_class : W → option NamespacedName * W;
  unregister_global : NamespacedName → W → W;
  take_cancellation : W → option W;
  active_exception : W → option Value;
  clear_exception : W → W;
  quoinerror_to_value : QuoinError → W → Value * W;
  value_matches_type : Value → string → W → bool }.

Section frames.
Context `{Runtime W}.

(** ** Initializers (vm/class.rs) *)

Definition lookup_str (h : Envs) (e : nat) (name : string) : option Value :=
  h !! e ≫= λ fr, env_lookup fr name.

Fixpoint run_init_chain_planned (obj : N) (with_env : option nat) (entries : list InitEntry)
    : Native W () :=
  match entries with
  | [] => NRet (Ok ())
  | e :: rest =>
      let continue r :=
        match r with Ok _ => run_init_chain_planned obj with_env rest | Err e => NRet (Err e) end in
      match with_env, init_colon e with
      | Some env, Some (method_val, params) =>
          NRead (λ h _,
            NRun (CallMethodValue (VObject obj) method_val "init:"
                    ((λ p, default VNil (lookup_str h env p)) <$> params)) continue)
      | _, _ =>
          match init_plain e with
          | Some method_val => NRun (CallMethodValue (VObject obj) method_val "init" []) continue
          | None => run_init_chain_planned obj with_env rest
          end
      end
  end.

(** The locals of the block become fields; then the initializers run. *)
Definition finalize_instantiation (obj : N) (env : nat) : Native W () :=
  NStep (λ h w,
      (h, foldl (λ w p, match lookup_str h env p.1 with
                        | Some v => set_slot obj p.2 v w
                        | None => w
                        end) w (ivar_slots (instantiation_plan obj w))))
    (λ _ w, run_init_chain_planned obj (Some env) (inits (instantiation_plan obj w))).

Definition run_all_inits (obj : N) : Native W () :=
  NRead (λ _ w, run_init_chain_planned obj None (inits (instantiation_plan obj w))).

(** ** The catch family (runtime/block.rs) *)

(** Cancellation and a requested exit pass by the handlers. *)
Definition uncatchable (e : QuoinError) : bool :=
  match e with Cancelled | ExitRequested _ => true | _ => false end.

(** A thrown value is the active exception; other errors become objects. *)
Definition exception_value (e : QuoinError) (k : Value → Native W Value) : Native W Value :=
  NStep (λ h w, match active_exception w with
                | Some _ => (h, w)
                | None => (h, (quoinerror_to_value e w).2)
                end)
    (λ _ w, k (match active_exception w with
               | Some v => v
               | None => (quoinerror_to_value e w).1
               end)).

Definition catches (exc : Value) (declared : option string) (w : W) : bool :=
  match declared with
  | None => true
  | Some t => bool_decide (t = "Object"%string) || value_matches_type exc t w
  end.

(** The first handler, in order, whose type catches the exception; a value that is no block is
    passed over. *)
Fixpoint run_first_matching (exc : Value) (handlers : list Value)
    (k : option (result QuoinError Value) → Native W Value) : Native W Value :=
  match handlers with
  | [] => k None
  | handler :: rest =>
      NRead (λ _ w,
        match block_of handler w with
        | Some b =>
            if catches exc (param_type b) w then
              NStep (λ h w, (h, clear_exception w)) (λ _ _, NRun (RunBlock b [exc] None) (λ r, k (Some r)))
            else run_first_matching exc rest k
        | None => run_first_matching exc rest k
        end)
  end.

Definition do_catch (protected : Block) (handlers : list Value) : Native W Value :=
  NRun (RunBlock protected [] None) (λ res,
    match res with
    | Ok val => NRet (Ok val)
    | Err e =>
        NUnwind (
          if uncatchable e then NRet (Err e)
          else exception_value e (λ exc, run_first_matching exc handlers (λ r,
                 NUnwind (NRet (default (Err e) r)))))
    end).

(** An error of the cleanup overrides the result it runs after, unless that passes by the
    handlers. *)
Definition do_catch_finally (protected : Block) (handlers : list Value) (finally : Block)
    : Native W Value :=
  NRun (RunBlock protected [] None) (λ res,
    match res with
    | Ok val =>
        NRun (RunBlock finally [] None) (λ finally_res,
          NRet (match finally_res with Ok _ => Ok val | Err e => Err e end))
    | Err e =>
        NUnwind (
          if uncatchable e then NRun (RunBlock finally [] None) (λ _, NUnwind (NRet (Err e)))
          else exception_value e (λ exc, run_first_matching exc handlers (λ r,
                 NUnwind (NRun (RunBlock finally [] None) (λ finally_res,
                   NRet (match finally_res with Ok _ => default (Err e) r | Err e => Err e end))))))
    end).

(** ** The machine *)

(** Beside the frames and the operands: the environments, the world, the next frame id, and how
    deep natives have re-entered the interpreter by sending messages. *)
Record Mem := mkMem { m_envs : Envs; m_world : W; m_next : FrameId; m_reentry : nat }.
Record State := mkState { frames : list Frame; ostack : list Value; mem : Mem }.

Definition set_heap (hw : Envs * W) (m : Mem) : Mem := mkMem hw.1 hw.2 (m_next m) (m_reentry m).
Definition set_world (w : W) (m : Mem) : Mem := mkMem (m_envs m) w (m_next m) (m_reentry m).
Definition set_reentry (n : nat) (m : Mem) : Mem := mkMem (m_envs m) (m_world m) (m_next m) n.
Definition set_frames (fs : list Frame) (st : State) : State := mkState fs (ostack st) (mem st).
Definition set_mem (m : Mem) (st : State) : State := mkState (frames st) (ostack st) m.

Definition push_value (v : Value) (st : State) : State :=
  mkState (frames st) (v :: ostack st) (mem st).
Definition pop_value (st : State) : option (Value * State) :=
  match ostack st with
  | [] => None
  | v :: s => Some (v, mkState (frames st) s (mem st))
  end.

(** [Vec::truncate]: keep the [n] values at the bottom. *)
Definition bottom {A} (n : nat) (s : list A) : list A := drop (length s - n) s.
Definition truncate (n : nat) (st : State) : State :=
  mkState (frames st) (bottom n (ostack st)) (mem st).

(** *** Starting a frame (vm/call.rs) *)

Definition lexical_home (b : Block) (id : FrameId) : option FrameId :=
  if is_nested_block b then captured_home b else Some id.

(** A new frame in a new environment, which binds the names in turn. *)
Definition new_frame (b : Block) (home : FrameId → option FrameId) (binds : list (Symbol * Value))
    (inst : option N) (rx : option Value) (base : nat) (m : Mem) : Frame * Mem :=
  let id := m_next m in
  let e := fresh (dom (m_envs m)) in
  let env_frame := foldl (λ fr p, env_bind fr p.1 p.2) (mkEnvFrame (parent_env b) []) binds in
  (mkCallFrame id (home id) b 0 e inst rx base false [] None,
   mkMem (<[e := env_frame]> (m_envs m)) (m_world m) (id + 1)%N (m_reentry m)).

Definition params (b : Block) (args : list Value) : list (Symbol * Value) :=
  zip (sb_param_syms (template b)) args.

Definition start_block (b : Block) (args : list Value) (rx : option Value) : nat → Mem → Frame * Mem :=
  new_frame b (lexical_home b) (params b args) None rx.

Definition start_block_as_method (b : Block) (rx : Value) (args : list Value) (is_method_call : bool)
    : nat → Mem → Frame * Mem :=
  new_frame b (λ id, if is_method_call then Some id else lexical_home b id)
    ((self_symbol, rx) :: params b args) None (Some rx).

Definition start_block_for_instantiation (b : Block) (obj : N) : nat → Mem → Frame * Mem :=
  new_frame b (lexical_home b) [] (Some obj) (Some (VObject obj)).

Definition start_validation_block (b : Block) (rx : Value) (outer : list Symbol) (args : list Value)
    : nat → Mem → Frame * Mem :=
  new_frame b Some ((self_symbol, rx) :: zip outer args) None (Some rx).

(** The frame goes on top; its operands start above those that are there. *)
Definition start (mk : nat → Mem → Frame * Mem) (st : State) : State :=
  let '(f, m) := mk (length (ostack st)) (mem st) in
  mkState (f :: frames st) (ostack st) m.

(** *** What a computation inside ends with *)

Abbreviation Ran A := (option (result QuoinError A * State)).

Definition ran_bind {A B} (x : Ran A) (k : A → State → Ran B) : Ran B :=
  match x with
  | Some (Ok a, st) => k a st
  | Some (Err e, st) => Some (Err e, st)
  | None => None
  end.

(** The nested loop down to a number of frames, and what a native runs. *)
Record Interp := mkInterp {
  nested : nat → State → Ran (); run_call : Run → State → Ran Value }.

Section interp.
Context (I : Interp).

Definition defer (d : DeferredCall) (fs : list Frame) : list Frame :=
  match fs with
  | f :: rest => set_defers (defers f ++ [d]) f :: rest
  | [] => []
  end.

(** [initial]: the number of frames when the native began. *)
Fixpoint run_native {A} (initial : nat) (n : Native W A) (st : State) : Ran A :=
  match n with
  | NRet r => Some (r, st)
  | NStep f k =>
      let h := m_envs (mem st) in
      let w := m_world (mem st) in
      run_native initial (k h w) (set_mem (set_heap (f h w) (mem st)) st)
  | NRun r k =>
      match run_call I r st with
      | Some (res, st') => run_native initial (k res) st'
      | None => None
      end
  | NUnwind n => run_native initial n (set_frames (bottom initial (frames st)) st)
  | NDefer d n => run_native initial n (set_frames (defer d (frames st)) st)
  end.

Definition native {A} (n : Native W A) (st : State) : Ran A :=
  run_native (length (frames st)) n st.

(** *** Leaving a frame (vm/exec.rs) *)

Inductive Step :=
| Running (st : State)
| Raised (e : QuoinError) (st : State)
| YeetedTo (v : Value) (st : State).

Definition of_ran {A} (x : Ran A) (k : A → State → option Step) : option Step :=
  match x with
  | Some (Ok a, st) => k a st
  | Some (Err e, st) => Some (Raised e st)
  | None => None
  end.

(** [self.pop()?]. *)
Definition popped (st : State) (k : Value → State → option Step) : option Step :=
  match pop_value st with
  | Some (v, st) => k v st
  | None => Some (Raised stack_underflow st)
  end.

Definition pop_result (st : State) : Ran Value :=
  match pop_value st with
  | Some (v, st) => Some (Ok v, st)
  | None => Some (Err stack_underflow, st)
  end.

Fixpoint run_defers (ds : list DeferredCall) (st : State) : Ran () :=
  match ds with
  | [] => Some (Ok (), st)
  | d :: ds =>
      ran_bind (run_call I (CallMethod (d_receiver d) (d_selector d) (d_args d)) st)
        (λ _, run_defers ds)
  end.

(** A call that has unwound the frame itself leaves nothing to look at: the code panics. *)
Definition run_frame_defers (f : Frame) (st : State) : Ran () :=
  match run_defers (defers f) st with
  | Some (Err e, st') =>
      if length (frames st') <? length (frames st) then None
      else
        let w := m_world (mem st') in
        let w := match unregister_on_defer_failure f with
                 | Some name => unregister_global name w
                 | None => w
                 end in
        Some (Err e, set_mem (set_world w (mem st')) st')
  | r => r
  end.

(** The value a popped frame answers: its receiver when it is a class body, the new object when
    it filled one. *)
Definition consume_popped_frame (f : Frame) (ret_val : Value) (st : State) : Ran Value :=
  let ret_val := if return_receiver f then default ret_val (receiver f) else ret_val in
  match instantiating_obj f with
  | None => Some (Ok ret_val, st)
  | Some obj =>
      ran_bind (native (finalize_instantiation obj (env f)) (push_value (VObject obj) st))
        (λ _, pop_result)
  end.

(** Pops the frame with its operands; the frame below gets the answer. *)
Definition pop_frame (v : Value) (st : State) : option Step :=
  match frames st with
  | f :: rest =>
      of_ran (consume_popped_frame f v (truncate (stack_base f) (set_frames rest st)))
        (λ v st, Some (Running (push_value v st)))
  | [] => None
  end.

(** [Return], [BlockReturn] and the end of the code; the code's short path for a plain frame
    takes the same steps. *)
Definition leave_frame (implicit : bool) (f : Frame) (st : State) : option Step :=
  of_ran (run_frame_defers f st) (λ _ st,
    if implicit then pop_frame VNil st else popped st pop_frame).

(** [MethodReturn]: every frame down to the home of the block is popped; without that frame on
    the stack, all are. *)
Fixpoint unwind_to (fuel : nat) (target_id : FrameId) (ret_val : Value) (st : State) : option Step :=
  match fuel with
  | O => None
  | S fuel =>
      match frames st with
      | [] => Some (Raised NonLocalReturn (push_value ret_val st))
      | f :: rest =>
          of_ran (consume_popped_frame f ret_val (set_frames rest st)) (λ ret_val st,
            if bool_decide (frame_id f = target_id) then
              Some (Raised NonLocalReturn (push_value ret_val (truncate (stack_base f) st)))
            else unwind_to fuel target_id ret_val st)
      end
  end.

Definition method_return (fuel : nat) (f : Frame) (st : State) : option Step :=
  popped st (λ v st,
    match enclosing_method_id f with
    | Some target_id => unwind_to fuel target_id v st
    | None => Some (Raised (Other "MethodReturn executed outside of a method context") st)
    end).

(** *** Calling (dispatch.rs) *)

Definition instantiate (class_obj : N) (st : State) (k : N → State → Ran ()) : Ran () :=
  let '(obj, w) := new_instance class_obj (m_world (mem st)) in
  k obj (set_mem (set_world w (mem st)) st).

(** A frame that is started runs later; a value is pushed. *)
Definition call (c : Callable W) (rx : Value) (args : list Value) (st : State) : Ran () :=
  match c with
  | CallBlock b => Some (Ok (), start (start_block_as_method b rx args true) st)
  | CallMeta class_obj => Some (Ok (), push_value (VClassMeta class_obj) st)
  | CallNew class_obj =>
      match ensure_instantiable class_obj (m_world (mem st)), args with
      | Err e, _ => Some (Err e, st)
      | Ok _, [arg] =>
          match block_of arg (m_world (mem st)) with
          | Some b =>
              instantiate class_obj st (λ obj st,
                Some (Ok (), start (start_block_for_instantiation b obj) st))
          | None =>
              Some (Err (TypeError "Block" (type_name arg (m_world (mem st))) "new: expects a Block"), st)
          end
      | Ok _, _ => Some (Err (Other "new: expects a block"), st)
      end
  | CallNewNoBlock class_obj =>
      match ensure_instantiable class_obj (m_world (mem st)), args with
      | Err e, _ => Some (Err e, st)
      | Ok _, [] =>
          instantiate class_obj st (λ obj st,
            match native (run_all_inits obj) (push_value (VObject obj) st) with
            | Some (Err e, st) => Some (Err e, match pop_value st with Some (_, st) => st | None => st end)
            | r => r
            end)
      | Ok _, _ => Some (Err (Other "new expects no arguments"), st)
      end
  | CallNative func =>
      ran_bind (native (func rx args) st) (λ v st, Some (Ok (), push_value v st))
  end.

(** The window of a native call stays on the stack; the result is moved over it. *)
Definition dispatch_send_rooted (c : Callable W) (rx : Value) (args : list Value) (recv_start : nat)
    (st : State) : option Step :=
  match c with
  | CallNative _ =>
      match call c rx args st with
      | Some (Ok _, st) =>
          if recv_start <? length (ostack st) then
            popped st (λ v st, Some (Running (push_value v (truncate recv_start st))))
          else Some (Running st)
      | Some (Err NonLocalReturn, st) => Some (Raised NonLocalReturn st)
      | Some (Err e, st) => Some (Raised e (truncate recv_start st))
      | None => None
      end
  | _ => of_ran (call c rx args (truncate recv_start st)) (λ _ st, Some (Running st))
  end.

Definition is_value_selector (sel : Symbol) : bool :=
  bool_decide (sel = "value"%string) || bool_decide (sel = "value:"%string).

Definition advance (st : State) : State :=
  match frames st with
  | f :: rest => set_frames (set_ip (S (frame_ip f)) f :: rest) st
  | [] => st
  end.

Definition exec_send (sel : Symbol) (num_args : nat) (st : State) : option Step :=
  match take_args num_args (ostack st) with
  | Some (args, rx :: below) =>
      let recv_start := length below in
      let st := advance st in
      match (if is_value_selector sel then block_of rx (m_world (mem st)) else None) with
      | Some b => Some (Running (start (start_block b args (Some rx)) (truncate recv_start st)))
      | None =>
          match native (lookup_method rx sel args) st with
          | Some (Ok (Some c), st) => dispatch_send_rooted c rx args recv_start st
          | Some (Ok None, st) =>
              Some (Raised (not_understood rx sel args (m_world (mem st))) (truncate recv_start st))
          | Some (Err e, st) => Some (Raised e (truncate recv_start st))
          | None => None
          end
      end
  | _ => Some (Raised stack_underflow st)
  end.

(** *** One instruction (vm/exec.rs) *)

Section instruction.
Context (f : Frame).
#[local] Instance own_objects : Machine W := objects (enclosing_method_id f).
Abbreviation info := (frame_info f).

(** The message an instruction sends: selector, number of arguments, and the machine with the
    operands it pushes.  An operator sends its selector when it cannot compute. *)
Definition send_of (i : Instruction) (vm : Vm (W:=W)) : option (Symbol * nat * Vm (W:=W)) :=
  let operator kind (computed : option ()) vm :=
    match computed with Some _ => None | None => Some (selector kind, 1, vm) end in
  let int_op kind := operator kind ((λ _, ()) <$> take_two_ints vm) vm in
  let double_op kind := operator kind ((λ _, ()) <$> take_two_doubles vm) vm in
  let pushed v vm := push (default VNil v) vm in
  match i with
  | IntAdd => int_op Add | IntSub => int_op Sub | IntMul => int_op Mul | IntDiv => int_op Div
  | IntMod => int_op Mod | IntLt => int_op Lt | IntLe => int_op Le | IntGt => int_op Gt
  | IntGe => int_op Ge | IntEq => int_op Eq | IntNe => int_op Ne
  | DoubleAdd => double_op Add | DoubleSub => double_op Sub | DoubleMul => double_op Mul
  | DoubleDiv => double_op Div | DoubleMod => double_op Mod | DoubleLt => double_op Lt
  | DoubleLe => double_op Le | DoubleGt => double_op Gt | DoubleGe => double_op Ge
  | DoubleEq => double_op Eq | DoubleNe => double_op Ne
  | IntBinLL a b kind =>
      let va := get_local info a vm in
      let vb := get_local info b vm in
      operator kind (match va, vb with Some (VInt _), Some (VInt _) => Some () | _, _ => None end)
        (pushed vb (pushed va vm))
  | DoubleBinLL a b kind =>
      let va := get_local info a vm in
      let vb := get_local info b vm in
      operator kind (match va, vb with Some (VDouble _), Some (VDouble _) => Some () | _, _ => None end)
        (pushed vb (pushed va vm))
  | IntBinLC a c kind =>
      let va := get_local info a vm in
      let '(cv, vm') := materialize_constant info c (pushed va vm) in
      operator kind (match va, as_int c with Some (VInt _), Some _ => Some () | _, _ => None end)
        (push cv vm')
  | DoubleBinLC a c kind =>
      let va := get_local info a vm in
      let '(cv, vm') := materialize_constant info c (pushed va vm) in
      operator kind (match va, as_double c with Some (VDouble _), Some _ => Some () | _, _ => None end)
        (push cv vm')
  | Send sel n => Some (sel, n, vm)
  | SendLocal a sel n => Some (sel, n, push (read_local info a vm) vm)
  | SendConst c sel n =>
      let '(v, vm) := materialize_constant info c vm in Some (sel, n, push v vm)
  | SendField field sel n => Some (sel, n, push (load_field info field vm) vm)
  | SendLocalLocal a b sel n => Some (sel, n, push (read_local info b vm) (push (read_local info a vm) vm))
  | SendLocalConst a c sel n =>
      let '(v, vm) := materialize_constant info c (push (read_local info a vm) vm) in
      Some (sel, n, push v vm)
  | _ => None
  end.

Definition vm_of (st : State) : Vm (W:=W) := mkVm (ostack st) (m_envs (mem st)) (m_world (mem st)).
Definition with_vm (vm : Vm (W:=W)) (st : State) : State :=
  mkState (frames st) (stack vm) (set_heap (envs vm, world vm) (mem st)).

(** The body of a class or of an extension runs with the class as [self], and answers it. *)
Definition execute_block_with_self (st : State) : option Step :=
  popped st (λ block_val st, popped st (λ self_val st,
    match self_val, block_of block_val (m_world (mem st)) with
    | VNil, _ => Some (Raised (Other "Cannot extend nil or non-existent class/object") st)
    | _, Some b =>
        let st := start (start_block_as_method b self_val [] false) (advance st) in
        let '(pending, w) := take_pending_class (m_world (mem st)) in
        match frames st with
        | body :: rest =>
            let body := mkCallFrame (frame_id body) (enclosing_method_id body) (block body)
              (frame_ip body) (env body) (instantiating_obj body) (receiver body)
              (stack_base body) true (defers body) pending in
            Some (Running (mkState (body :: rest) (ostack st) (set_world w (mem st))))
        | [] => None
        end
    | _, None =>
        Some (Raised (TypeError "Block" (type_name block_val (m_world (mem st)))
                        "ExecuteBlockWithSelf expects a Block") st)
    end)).

(** The remaining instructions take their operands and may run anything. *)
Definition perform_other (i : Instruction) (n : nat) (leaves : bool) (st : State) : option Step :=
  match take_args n (ostack st) with
  | None => Some (Raised stack_underflow st)
  | Some (args, below) =>
      of_ran (native (perform i args info) (mkState (frames st) below (mem st))) (λ v st,
        Some (Running (advance (if leaves then push_value v st else st))))
  end.

(** An instruction that stays in the frame. *)
Definition execute_local (i : Instruction) (st : State) : option Step :=
  match execute info (frame_ip f) i (vm_of st) with
  | At ip' vm =>
      let st := with_vm vm st in
      Some (Running (match frames st with
                     | f :: rest => set_frames (set_ip ip' f :: rest) st
                     | [] => st
                     end))
  | Failed _ _ e h w => Some (Raised e (set_mem (set_heap (h, w) (mem st)) st))
  | _ => None
  end.

Definition execute_instruction (fuel : nat) (i : Instruction) (st : State) : option Step :=
  match send_of i (vm_of st) with
  | Some (sel, n, vm) => exec_send sel n (with_vm vm st)
  | None =>
      match i with
      | Return | BlockReturn => leave_frame false f st
      | MethodReturn => method_return fuel f st
      | Yeet => popped st (λ v st, Some (YeetedTo v (set_frames [] st)))
      | ExecuteBlockWithSelf => execute_block_with_self st
      | _ =>
          match effect i with
          | Some (n, leaves) => perform_other i n leaves st
          | None => execute_local i st
          end
      end
  end.
End instruction.

Definition dispatch_one (fuel : nat) (st : State) : option Step :=
  match frames st with
  | [] => None
  | f :: _ =>
      match bytecode f !! frame_ip f with
      | None => leave_frame true f st
      | Some i => execute_instruction f fuel i st
      end
  end.

(** *** Running from native code (vm/call.rs) *)

Definition MAX_NATIVE_REENTRY : nat := 12.

Definition call_method_inner (c : option (Callable W)) (rx : Value) (args : list Value) (st : State)
    : Ran Value :=
  match c with
  | Some c =>
      let initial_frame_count := length (frames st) in
      ran_bind (call c rx args st) (λ _ st,
        ran_bind (nested I initial_frame_count st) (λ _, pop_result))
  | None => Some (Ok VNil, st)
  end.

(** Natives may send messages from inside natives only so deep. *)
Definition reentered (m : State → Ran Value) (st : State) : Ran Value :=
  let depth := m_reentry (mem st) in
  if MAX_NATIVE_REENTRY <=? depth then
    Some (Err (StackExhausted "native call recursion too deep"), st)
  else
    match m (set_mem (set_reentry (S depth) (mem st)) st) with
    | Some (r, st) => Some (r, set_mem (set_reentry (pred (m_reentry (mem st))) (mem st)) st)
    | None => None
    end.

Definition run_started (mk : nat → Mem → Frame * Mem) (st : State) : Ran Value :=
  ran_bind (nested I (length (frames st)) (start mk st)) (λ _, pop_result).

(** [execute_block], [execute_validation_block], [call_method] and [call_method_value]. *)
Definition run_call_body (r : Run) (st : State) : Ran Value :=
  match r with
  | RunBlock b args None => run_started (start_block b args None) st
  | RunBlock b args (Some rx) => run_started (start_block_as_method b rx args false) st
  | RunGuard b rx outer args => run_started (start_validation_block b rx outer args) st
  | CallMethod rx sel args =>
      reentered (λ st, ran_bind (native (lookup_method rx sel args) st)
        (λ c, call_method_inner c rx args)) st
  | CallMethodValue rx method_val sel args =>
      reentered (λ st, call_method_inner (method_of method_val sel (m_world (mem st))) rx args st) st
  end.

(** A [^^] whose frames were popped below the loop's goes on unwinding. *)
Definition after_step (initial_frame_count : nat) (x : option Step) : Ran () :=
  match x with
  | Some (Running st) => nested I initial_frame_count st
  | Some (Raised NonLocalReturn st) =>
      if length (frames st) <? initial_frame_count then Some (Err NonLocalReturn, st)
      else nested I initial_frame_count st
  | Some (Raised e st) => Some (Err e, st)
  | Some (YeetedTo _ st) => Some (Err (Other "Uncaught exception"), st)
  | None => None
  end.

(** [run_nested]. *)
Definition run_nested_body (fuel : nat) (initial_frame_count : nat) (st : State) : Ran () :=
  if length (frames st) <=? initial_frame_count then Some (Ok (), st)
  else
    match take_cancellation (m_world (mem st)) with
    | Some w => Some (Err Cancelled, set_mem (set_world w (mem st)) st)
    | None => after_step initial_frame_count (dispatch_one fuel st)
    end.
End interp.

(** The interpreter with fuel for its loops and for calls inside calls. *)
Fixpoint machine (fuel : nat) : Interp :=
  match fuel with
  | O => mkInterp (λ _ _, None) (λ _ _, None)
  | S fuel => let I := machine fuel in mkInterp (run_nested_body I fuel) (run_call_body I)
  end.

(** A program runs until no frame is left; what is on the stack then is its result.  (A cancelled
    task is seen before that.) *)
Definition finished (st : State) : result QuoinError Value * State :=
  match take_cancellation (m_world (mem st)) with
  | Some w => (Err Cancelled, set_mem (set_world w (mem st)) st)
  | None =>
      match pop_value st with
      | Some (v, st) => (Ok v, st)
      | None => (Ok VNil, st)
      end
  end.

Definition run_program (fuel : nat) (b : Block) (m : Mem) : Ran Value :=
  match nested (machine fuel) 0 (start (start_block b [] None) (mkState [] [] m)) with
  | Some (Ok _, st) => Some (finished st)
  | Some (Err e, st) => Some (Err e, st)
  | None => None
  end.
End frames.
Arguments mkInterp {W} nested run_call.
