(* ===== verification/Activations.v ===== *)
(** * Calls as activations

    The frames of [Frames] without the stack of frames: running a block is a function from the
    memory to an outcome, and an instruction that calls takes the answer of the call.  A [^^] is
    an outcome that passes outwards until the activation it is for; an error passes to whoever
    runs the block from native code.  It is the specification [FramesProps] proves the machine
    against.

    [OWild] is an outcome about which nothing is said: an instruction that reaches below the
    operands of its frame; a native that catches a [^^], forges one, or goes on after an error
    without cutting the frames back; what a native runs while a [^^] passes it, unless that
    comes to a value; a [^^] out of a guard, of a deferred call or of an initializer; one that
    crosses native code and the body of a new object; and [Yeet], which no compiler emits. *)
From stdpp Require Import base numbers list strings gmap.
From stdpp Require Import options.
From S2P Require Import Prelude Instr Exec Frames.
Local Open Scope nat_scope.

(** The operands an instruction finds in its frame. *)
Definition demand (i : Instruction) : nat :=
  match i with
  | Send _ n => S n
  | SendLocal _ _ n | SendConst _ _ n | SendField _ _ n => n
  | SendLocalLocal _ _ _ n | SendLocalConst _ _ _ n => pred n
  | IntAdd | IntSub | IntMul | IntDiv | IntMod | IntLt | IntLe | IntGt | IntGe | IntEq | IntNe
  | DoubleAdd | DoubleSub | DoubleMul | DoubleDiv | DoubleMod | DoubleLt | DoubleLe
  | DoubleGt | DoubleGe | DoubleEq | DoubleNe => 2
  | DefineLocal _ | DefineLocalKeep _ | StoreLocal _ | StoreLocalKeep _ | Pop | Dup
  | Return | BlockReturn | MethodReturn | Yeet | IfJump _ | ElseJump _ | BranchIfNotBool _
  | BranchIfNotList _ _ | RequireBool | BranchIfNotPlainNew _ | LoadFieldOf _ | StoreField _
  | StoreFieldKeep _ => 1
  | ExecuteBlockWithSelf => 2
  | i => match effect i with Some (n, _) => n | None => 0 end
  end.

Section activations.
Context `{Runtime W}.
Abbreviation Native := (Frames.Native W).
Abbreviation Mem := (Frames.Mem (W:=W)).

(** [ds]: the calls deferred to the end of the activation that runs.  [neat]: no operand is left
    over.  [crossed]: the [^^] has passed native code. *)
Inductive Out (A : Type) :=
| OVal (a : A) (ds : list DeferredCall) (neat : bool) (m : Mem)
| OErr (e : QuoinError) (ds : list DeferredCall) (m : Mem)
| ONlr (target : FrameId) (v : Value) (crossed : bool) (m : Mem)
| OMore
| OWild.
Arguments OVal {A} a ds neat m.
Arguments OErr {A} e ds m.
Arguments ONlr {A} target v crossed m.
Arguments OMore {A}.
Arguments OWild {A}.

Definition raise {A} (e : QuoinError) (ds : list DeferredCall) (m : Mem) : Out A :=
  match e with NonLocalReturn => OWild | e => OErr e ds m end.

Definition obind {A B} (x : Out A) (k : A → list DeferredCall → bool → Mem → Out B) : Out B :=
  match x with
  | OVal a ds neat m => k a ds neat m
  | OErr e ds m => OErr e ds m
  | ONlr t v c m => ONlr t v c m
  | OMore => OMore
  | OWild => OWild
  end.

(** Where a [^^] would be lost or forged. *)
Definition no_nlr {A} (x : Out A) : Out A :=
  match x with ONlr _ _ _ _ => OWild | x => x end.

Definition neatly {A} (x : Out A) : Out A :=
  match x with OVal _ _ false _ => OWild | x => x end.

Definition with_defers {A} (ds : list DeferredCall) (x : Out A) : Out A :=
  match x with
  | OVal a _ neat m => OVal a ds neat m
  | OErr e _ m => OErr e ds m
  | x => x
  end.

(** What runs where the activation is not on top defers nothing. *)
Definition undeferred {A} (x : Out A) : Out A :=
  match x with
  | OVal _ (_ :: _) _ _ | OErr _ (_ :: _) _ => OWild
  | x => x
  end.

Record Spec := mkSpec {
  s_frame : Frame → list DeferredCall → nat → list Value → Mem → Out Value;
  s_run : Run → list DeferredCall → Mem → Out Value }.

Section spec.
Context (I : Spec).

(** ** Native code *)

(** Where a native stands: it may go on; an error has left frames it has to cut off; a [^^] passes. *)
Inductive Mode := Clean (neat : bool) | Dirty | InFlight (target : FrameId) (v : Value).

Fixpoint s_native {A} (n : Native A) (mode : Mode) (ds : list DeferredCall) (m : Mem) : Out A :=
  match n with
  | NRet r =>
      match r, mode with
      | Ok a, Clean neat => OVal a ds neat m
      | Err NonLocalReturn, InFlight t v => ONlr t v true m
      | Err e, Clean _ | Err e, Dirty => raise e ds m
      | _, _ => OWild
      end
  | NStep f k =>
      s_native (k (m_envs m) (m_world m)) mode ds (set_heap (f (m_envs m) (m_world m)) m)
  | NRun r k =>
      match mode with
      | Clean neat =>
          match neatly (s_run I r ds m) with
          | OVal v ds _ m => s_native (k (Ok v)) mode ds m
          | OErr e ds m => s_native (k (Err e)) Dirty ds m
          | ONlr t v _ m => s_native (k (Err NonLocalReturn)) (InFlight t v) ds m
          | OMore => OMore
          | OWild => OWild
          end
      | InFlight _ _ =>
          match neatly (s_run I r [] m) with
          | OVal v [] _ m => s_native (k (Ok v)) mode ds m
          | _ => OWild
          end
      | Dirty => OWild
      end
  | NUnwind n => s_native n (match mode with Dirty => Clean false | mode => mode end) ds m
  | NDefer d n =>
      match mode with
      | Clean _ => s_native n mode (ds ++ [d]) m
      | _ => OWild
      end
  end.

Definition s_clean {A} (n : Native A) (ds : list DeferredCall) (m : Mem) : Out A :=
  s_native n (Clean true) ds m.

(** ** The end of an activation *)

Fixpoint s_defers (calls : list DeferredCall) (ds : list DeferredCall) (m : Mem) : Out () :=
  match calls with
  | [] => OVal () ds true m
  | d :: calls =>
      obind (neatly (s_run I (CallMethod (d_receiver d) (d_selector d) (d_args d)) ds m))
        (λ _ ds _, s_defers calls ds)
  end.

Definition unregister (f : Frame) (m : Mem) : Mem :=
  set_world (match unregister_on_defer_failure f with
             | Some name => unregister_global name (m_world m)
             | None => m_world m
             end) m.

Definition s_frame_defers (f : Frame) (ds : list DeferredCall) (m : Mem) : Out () :=
  match s_defers ds ds m with
  | OErr e ds m => OErr e ds (unregister f m)
  | x => neatly (no_nlr x)
  end.

Definition s_consume (f : Frame) (v : Value) (m : Mem) : Out Value :=
  let v := if return_receiver f then default v (receiver f) else v in
  match instantiating_obj f with
  | None => OVal v [] true m
  | Some obj =>
      obind (neatly (no_nlr (undeferred (s_clean (finalize_instantiation obj (env f)) [] m))))
        (λ _ ds neat m, OVal (VObject obj) ds neat m)
  end.

Definition s_complete (f : Frame) (v : Value) (ds : list DeferredCall) (m : Mem) : Out Value :=
  obind (s_frame_defers f ds m) (λ _ _ _ m, s_consume f v m).

(** A [^^] for this activation is its answer; others go on outwards. *)
Definition s_catch_home (f : Frame) (target : FrameId) (v : Value) (crossed : bool) (m : Mem) : Out Value :=
  if crossed && bool_decide (is_Some (instantiating_obj f)) then OWild
  else
    match s_consume f v m with
    | OVal v _ _ m =>
        if bool_decide (frame_id f = target) then OVal v [] true m else ONlr target v crossed m
    | OMore => OMore
    | _ => OWild
    end.

Definition s_activate (f : Frame) (m : Mem) : Out Value :=
  match s_frame I f [] 0 [] m with
  | OVal v ds _ m => s_complete f v ds m
  | OErr e _ m => OErr e [] m
  | ONlr t v c m => s_catch_home f t v c m
  | OMore => OMore
  | OWild => OWild
  end.

Definition s_start (mk : nat → Mem → Frame * Mem) (ds : list DeferredCall) (m : Mem) : Out Value :=
  let '(f, m) := mk 0 m in with_defers ds (s_activate f m).

(** ** Calls *)

Definition s_instantiate (class_obj : N) (m : Mem) (k : N → Mem → Out Value) : Out Value :=
  let '(obj, w) := new_instance class_obj (m_world m) in k obj (set_world w m).

Definition s_call (c : Callable W) (rx : Value) (args : list Value) (ds : list DeferredCall) (m : Mem)
    : Out Value :=
  match c with
  | CallBlock b => s_start (start_block_as_method b rx args true) ds m
  | CallMeta class_obj => OVal (VClassMeta class_obj) ds true m
  | CallNew class_obj =>
      match ensure_instantiable class_obj (m_world m), args with
      | Err e, _ => raise e ds m
      | Ok _, [arg] =>
          match block_of arg (m_world m) with
          | Some b => s_instantiate class_obj m (λ obj, s_start (start_block_for_instantiation b obj) ds)
          | None => raise (TypeError "Block" (type_name arg (m_world m)) "new: expects a Block") ds m
          end
      | Ok _, _ => raise (Other "new: expects a block") ds m
      end
  | CallNewNoBlock class_obj =>
      match ensure_instantiable class_obj (m_world m), args with
      | Err e, _ => raise e ds m
      | Ok _, [] =>
          s_instantiate class_obj m (λ obj m,
            obind (neatly (no_nlr (s_clean (run_all_inits obj) ds m)))
              (λ _ ds neat m, OVal (VObject obj) ds neat m))
      | Ok _, _ => raise (Other "new expects no arguments") ds m
      end
  | CallNative func => s_clean (func rx args) ds m
  end.

Definition s_send (sel : Symbol) (rx : Value) (args : list Value) (ds : list DeferredCall) (m : Mem)
    : Out Value :=
  match (if is_value_selector sel then block_of rx (m_world m) else None) with
  | Some b => s_start (start_block b args (Some rx)) ds m
  | None =>
      obind (no_nlr (s_clean (lookup_method rx sel args) ds m)) (λ c ds _ m,
        match c with
        | Some c => s_call c rx args ds m
        | None => raise (not_understood rx sel args (m_world m)) ds m
        end)
  end.

(** ** Instructions *)

Section instruction.
Context (f : Frame) (ds : list DeferredCall) (ip : nat) (s : list Value) (m : Mem).

(** On the operands of the frame alone. *)
Definition operands : Vm (W:=W) := mkVm s (m_envs m) (m_world m).

Definition s_class_body : Out Value :=
  match s with
  | block_val :: self_val :: below =>
      match self_val, block_of block_val (m_world m) with
      | VNil, _ => raise (Other "Cannot extend nil or non-existent class/object") ds m
      | _, Some b =>
          let '(g, m) := start_block_as_method b self_val [] false 0 m in
          let '(pending, w) := take_pending_class (m_world m) in
          let g := mkCallFrame (frame_id g) (enclosing_method_id g) (block g) (frame_ip g) (env g)
            (instantiating_obj g) (receiver g) (stack_base g) true (defers g) pending in
          obind (with_defers ds (s_activate g (set_world w m)))
            (λ v ds _ m, s_frame I f ds (S ip) (v :: below) m)
      | _, None =>
          raise (TypeError "Block" (type_name block_val (m_world m))
                   "ExecuteBlockWithSelf expects a Block") ds m
      end
  | _ => OWild
  end.

Definition s_method_return : Out Value :=
  match s, enclosing_method_id f with
  | v :: _, Some target_id => ONlr target_id v false m
  | _ :: _, None => raise (Other "MethodReturn executed outside of a method context") ds m
  | [], _ => OWild
  end.

Definition s_perform (i : Instruction) (n : nat) (leaves : bool) : Out Value :=
  match take_args n s with
  | Some (args, below) =>
      obind (neatly (s_clean (perform i args (frame_info f)) ds m))
        (λ v ds _ m, s_frame I f ds (S ip) (if leaves then v :: below else below) m)
  | None => OWild
  end.

Definition s_local (i : Instruction) : Out Value :=
  match @execute W (own_objects f) (frame_info f) ip i operands with
  | At ip' vm => s_frame I f ds ip' (stack vm) (set_heap (envs vm, world vm) m)
  | Failed _ _ e h w => raise e ds (set_heap (h, w) m)
  | _ => OWild
  end.

Definition s_instruction (i : Instruction) : Out Value :=
  if length s <? demand i then OWild
  else
    match send_of f i operands with
    | Some (sel, n, vm) =>
        match take_args n (stack vm) with
        | Some (args, rx :: below) =>
            obind (s_send sel rx args ds (set_heap (envs vm, world vm) m))
              (λ v ds _ m, s_frame I f ds (S ip) (v :: below) m)
        | _ => OWild
        end
    | None =>
        match i with
        | Return | BlockReturn => match s with v :: _ => OVal v ds true m | [] => OWild end
        | MethodReturn => s_method_return
        | Yeet => OWild
        | ExecuteBlockWithSelf => s_class_body
        | _ =>
            match effect i with
            | Some (n, leaves) => s_perform i n leaves
            | None => s_local i
            end
        end
    end.

(** The activation up to the instruction that ends it. *)
Definition s_frame_body : Out Value :=
  match take_cancellation (m_world m) with
  | Some w => OErr Cancelled ds (set_world w m)
  | None =>
      match bytecode f !! ip with
      | None => OVal VNil ds true m
      | Some i => s_instruction i
      end
  end.
End instruction.

(** ** From native code *)

Definition leave_native (m : Mem) : Mem := set_reentry (pred (m_reentry m)) m.

Definition s_reentered (ds : list DeferredCall) (k : Mem → Out Value) (m : Mem) : Out Value :=
  if MAX_NATIVE_REENTRY <=? m_reentry m then OErr (StackExhausted "native call recursion too deep") ds m
  else
    match k (set_reentry (S (m_reentry m)) m) with
    | OVal v ds neat m => OVal v ds neat (leave_native m)
    | OErr e ds m => OErr e ds (leave_native m)
    | ONlr t v _ m => ONlr t v true (leave_native m)
    | x => x
    end.

Definition s_method (c : option (Callable W)) (rx : Value) (args : list Value) (ds : list DeferredCall)
    (m : Mem) : Out Value :=
  match c with
  | Some c => neatly (s_call c rx args ds m)
  | None => OVal VNil ds true m
  end.

Definition s_run_body (r : Run) (ds : list DeferredCall) (m : Mem) : Out Value :=
  match r with
  | RunBlock b args None => s_start (start_block b args None) ds m
  | RunBlock b args (Some rx) => s_start (start_block_as_method b rx args false) ds m
  | RunGuard b rx outer args => s_start (start_validation_block b rx outer args) ds m
  | CallMethod rx sel args =>
      s_reentered ds (λ m,
        obind (neatly (s_clean (lookup_method rx sel args) ds m)) (λ c ds _, s_method c rx args ds)) m
  | CallMethodValue rx method_val sel args =>
      s_reentered ds (λ m, s_method (method_of method_val sel (m_world m)) rx args ds m) m
  end.
End spec.

Fixpoint spec (fuel : nat) : Spec :=
  match fuel with
  | O => mkSpec (λ _ _ _ _ _, OMore) (λ _ _ _, OMore)
  | S fuel => let I := spec fuel in mkSpec (s_frame_body I) (s_run_body I)
  end.
End activations.
Arguments OVal {W A} a ds neat m.
Arguments OErr {W A} e ds m.
Arguments ONlr {W A} target v crossed m.
Arguments OMore {W A}.
Arguments OWild {W A}.
