(* ===== verification/FramesMono.v ===== *)
(** * Fuel, and the instructions that stay in a frame

    More fuel changes no answer of the machine of [Frames].  Computations with fuel are compared
    by their answers ([leads]).  And an instruction that finds its operands in its frame does
    the same whatever is below them on the stack. *)
From stdpp Require Import base numbers list strings gmap.
From stdpp Require Import options.
From S2P Require Import Prelude Instr Exec Frames Activations.
Local Open Scope nat_scope.

#[local] Arguments native : simpl never.
#[local] Arguments env_get : simpl never.

(** ** Answers *)

(** What [x] answers, [y] answers. *)
Definition ole {A} (x y : option A) : Prop := ∀ a, x = Some a → y = Some a.

#[export] Instance ole_refl {A} : Reflexive (@ole A).
Proof. by intros x a. Qed.

Lemma ole_none {A} (y : option A) : ole None y.
Proof. by intros a. Qed.

Section mono.
Context `{Runtime W}.
Abbreviation Interp := (Frames.Interp (W:=W)).
Abbreviation State := (Frames.State (W:=W)).

Definition interp_le (I J : Interp) : Prop :=
  (∀ b st, ole (nested I b st) (nested J b st)) ∧ (∀ r st, ole (run_call I r st) (run_call J r st)).

Lemma ole_ran_bind {A B} (x y : option (result QuoinError A * State)) (k l : A → State → option (result QuoinError B * State)) :
  ole x y → (∀ a st, ole (k a st) (l a st)) → ole (ran_bind x k) (ran_bind y l).
Proof.
  intros Hx Hk r. destruct x as [[[a|e] st]|]; cbn; intros Hr; [|..]; try done.
  - rewrite (Hx _ eq_refl). cbn. by apply Hk.
  - by rewrite (Hx _ eq_refl).
Qed.

Lemma ole_of_ran {A} (x y : option (result QuoinError A * State)) (k l : A → State → option Step) :
  ole x y → (∀ a st, ole (k a st) (l a st)) → ole (of_ran x k) (of_ran y l).
Proof.
  intros Hx Hk r. destruct x as [[[a|e] st]|]; cbn; intros Hr; [|..]; try done.
  - rewrite (Hx _ eq_refl). cbn. by apply Hk.
  - by rewrite (Hx _ eq_refl).
Qed.

Lemma ole_popped (st : State) (k l : Value → State → option Step) :
  (∀ v st, ole (k v st) (l v st)) → ole (popped st k) (popped st l).
Proof. intros Hk. unfold popped. destruct (pop_value st) as [[v s]|]; [apply Hk|done]. Qed.

Lemma ole_match {A B} (x y : option A) (k l : A → option B) :
  ole x y → (∀ a, ole (k a) (l a)) →
  ole (match x with Some a => k a | None => None end) (match y with Some a => l a | None => None end).
Proof. intros Hx Hk r. destruct x as [a|]; [|done]. rewrite (Hx _ eq_refl). apply Hk. Qed.

Section le.
Context (I J : Interp) (HIJ : interp_le I J).

Lemma run_native_le {A} i (n : Native W A) : ∀ st, ole (run_native I i n st) (run_native J i n st).
Proof using HIJ.
  induction n as [r|f k IH|r k IH|n IH|d n IH]; intros st; cbn; [done|apply IH| |apply IH..].
  apply (ole_match (run_call I r st) (run_call J r st)); [apply HIJ|]. intros [res s]. apply IH.
Qed.

Lemma native_le {A} (n : Native W A) st : ole (native I n st) (native J n st).
Proof using HIJ. apply run_native_le. Qed.

Lemma run_defers_le ds : ∀ st, ole (run_defers I ds st) (run_defers J ds st).
Proof using HIJ.
  induction ds as [|d ds IH]; intros st; cbn; [done|]. apply ole_ran_bind; [apply HIJ|]. intros _ s. apply IH.
Qed.

Lemma run_frame_defers_le f st : ole (run_frame_defers I f st) (run_frame_defers J f st).
Proof using HIJ.
  unfold run_frame_defers. intros r. pose proof (run_defers_le (defers f) st) as Hd.
  destruct (run_defers I (defers f) st) as [[x s]|]; [|done]. by rewrite (Hd _ eq_refl).
Qed.

Lemma consume_le f v st : ole (consume_popped_frame I f v st) (consume_popped_frame J f v st).
Proof using HIJ.
  unfold consume_popped_frame. destruct (instantiating_obj f); [|done].
  apply ole_ran_bind; [apply native_le|done].
Qed.

Lemma pop_frame_le v st : ole (pop_frame I v st) (pop_frame J v st).
Proof using HIJ.
  unfold pop_frame. destruct (frames st); [done|]. apply ole_of_ran; [apply consume_le|done].
Qed.

Lemma leave_frame_le imp f st : ole (leave_frame I imp f st) (leave_frame J imp f st).
Proof using HIJ.
  apply ole_of_ran; [apply run_frame_defers_le|]. intros _ s.
  destruct imp; [|apply ole_popped; intros ? ?]; apply pop_frame_le.
Qed.

Lemma unwind_to_le n : ∀ n' t v st, n ≤ n' → ole (unwind_to I n t v st) (unwind_to J n' t v st).
Proof using HIJ.
  induction n as [|n IH]; intros n' t v st Hn; [apply ole_none|].
  destruct n' as [|n']; [lia|]. cbn. destruct (frames st) as [|f rest]; [done|].
  apply ole_of_ran; [apply consume_le|]. intros v' s. case_bool_decide; [done|]. apply IH. lia.
Qed.

Lemma method_return_le n n' f st : n ≤ n' → ole (method_return I n f st) (method_return J n' f st).
Proof using HIJ.
  intros Hn. apply ole_popped. intros v s. destruct (enclosing_method_id f); [by apply unwind_to_le|done].
Qed.

Lemma call_le c rx args st : ole (call I c rx args st) (call J c rx args st).
Proof using HIJ.
  destruct c as [b|p|p|p|func]; cbn; [done|done| |..].
  - destruct (ensure_instantiable _ _); [|done]. destruct args as [|? [|? ?]]; [done| |done].
    destruct (block_of _ _); done.
  - destruct (ensure_instantiable _ _); [|done]. destruct args; [|done].
    unfold instantiate. destruct (new_instance _ _) as [obj w]. intros r.
    pose proof (native_le (run_all_inits obj)
                  (push_value (VObject obj) (set_mem (set_world w (mem st)) st))) as Hn.
    destruct (native I _ _) as [[x s]|]; [|done]. by rewrite (Hn _ eq_refl).
  - apply ole_ran_bind; [apply native_le|done].
Qed.

Lemma dispatch_send_rooted_le c rx args k st :
  ole (dispatch_send_rooted I c rx args k st) (dispatch_send_rooted J c rx args k st).
Proof using HIJ.
  destruct c; cbn [dispatch_send_rooted]; try (apply ole_of_ran; [apply call_le|done]).
  intros r. pose proof (call_le (CallNative func) rx args st) as Hc.
  destruct (call I _ _ _ _) as [[x s]|]; [|done]. by rewrite (Hc _ eq_refl).
Qed.

Lemma exec_send_le sel n st : ole (exec_send I sel n st) (exec_send J sel n st).
Proof using HIJ.
  unfold exec_send. destruct (take_args _ _) as [[args [|rx below]]|]; [done| |done].
  destruct (if is_value_selector sel then _ else _); [done|]. intros r.
  pose proof (native_le (lookup_method rx sel args) (advance st)) as Hn.
  destruct (native I _ _) as [[x s]|]; [|done]. rewrite (Hn _ eq_refl).
  destruct x as [[c|]|e]; [|done|done]. apply dispatch_send_rooted_le.
Qed.

Lemma perform_other_le f i n leaves st :
  ole (perform_other I f i n leaves st) (perform_other J f i n leaves st).
Proof using HIJ.
  unfold perform_other. destruct (take_args _ _) as [[args below]|]; [|done].
  apply ole_of_ran; [apply native_le|done].
Qed.

Lemma execute_instruction_le f n n' i st : n ≤ n' →
  ole (execute_instruction I f n i st) (execute_instruction J f n' i st).
Proof using HIJ.
  intros Hn. unfold execute_instruction. destruct (send_of _ _ _) as [[[sel k] vm]|]; [apply exec_send_le|].
  destruct i; cbn [effect]; try done; try (apply leave_frame_le); try (by apply method_return_le);
    apply perform_other_le.
Qed.

Lemma dispatch_one_le n n' st : n ≤ n' → ole (dispatch_one I n st) (dispatch_one J n' st).
Proof using HIJ.
  intros Hn. unfold dispatch_one. destruct (frames st) as [|f rest]; [done|].
  destruct (bytecode f !! frame_ip f); [by apply execute_instruction_le|apply leave_frame_le].
Qed.

Lemma after_step_le b x y : ole x y → ole (after_step I b x) (after_step J b y).
Proof using HIJ.
  intros Hx r. destruct x as [s|]; [|done]. rewrite (Hx _ eq_refl).
  destruct s as [st|e st|v st]; cbn; [apply HIJ| |done].
  destruct e; try done. case_match; [done|apply HIJ].
Qed.

Lemma run_nested_body_le n n' b st : n ≤ n' → ole (run_nested_body I n b st) (run_nested_body J n' b st).
Proof using HIJ.
  intros Hn. unfold run_nested_body. case_match; [done|]. destruct (take_cancellation _); [done|].
  by apply after_step_le, dispatch_one_le.
Qed.

Lemma call_method_inner_le c rx args st : ole (call_method_inner I c rx args st) (call_method_inner J c rx args st).
Proof using HIJ.
  destruct c as [c|]; [|done]. cbn. apply ole_ran_bind; [apply call_le|]. intros _ s.
  apply ole_ran_bind; [apply HIJ|done].
Qed.

Lemma reentered_le (k l : State → option (result QuoinError Value * State)) st : (∀ st, ole (k st) (l st)) → ole (reentered k st) (reentered l st).
Proof using.
  intros Hk. unfold reentered. case_match; [done|].
  apply (ole_match _ _ (λ p, let '(r, st) := p in Some (r, set_mem _ st))); [apply Hk|done].
Qed.

Lemma run_started_le mk st : ole (run_started I mk st) (run_started J mk st).
Proof using HIJ. apply ole_ran_bind; [apply HIJ|done]. Qed.

Lemma run_call_body_le r st : ole (run_call_body I r st) (run_call_body J r st).
Proof using HIJ.
  destruct r as [b args [rx|]|b rx outer args|rx sel args|rx mv sel args]; cbn; try apply run_started_le.
  - apply reentered_le. intros s. apply ole_ran_bind; [apply native_le|]. intros c s'. apply call_method_inner_le.
  - apply reentered_le. intros s. apply call_method_inner_le.
Qed.
End le.

Lemma machine_le n : ∀ n', n ≤ n' → interp_le (machine n) (machine n').
Proof.
  induction n as [|n IH]; intros n' Hn; [by split; intros; apply ole_none|].
  destruct n' as [|n']; [lia|]. assert (n ≤ n') as Hle by lia. specialize (IH n' Hle).
  split; intros; cbn; [by apply run_nested_body_le|by apply run_call_body_le].
Qed.

(** ** Computations with fuel *)

(** [c] answers what [d] does, and needs at least as much fuel. *)
Definition leads {A} (c d : nat → option A) : Prop :=
  (∀ n, ole (c n) (d n)) ∧ (∀ n x, d n = Some x → ∃ n', c n' = Some x).

Definition steady {A} (c : nat → option A) : Prop := ∀ n n', n ≤ n' → ole (c n) (c n').

Definition starves {A} (n : nat) (c : nat → option A) : Prop := ∀ k, k ≤ n → c k = None.

Lemma leads_refl {A} (c : nat → option A) : leads c c.
Proof. split; [done|by eauto]. Qed.

Lemma leads_ext {A} (c d : nat → option A) : (∀ n, c n = d n) → leads c d.
Proof. intros He. split; intros n x Hx; [by rewrite <- He|exists n; by rewrite He]. Qed.

Lemma leads_trans {A} (c d e : nat → option A) : leads c d → leads d e → leads c e.
Proof.
  intros [H1 H2] [H3 H4]. split.
  - intros n x Hx. by apply H3, H1.
  - intros n x Hx. apply H4 in Hx as [n' Hx]. by eapply H2.
Qed.

Lemma leads_starves {A} n (c d : nat → option A) : leads c d → starves n d → starves n c.
Proof.
  intros [Hle _] Hd k Hk. destruct (c k) as [x|] eqn:E; [|done]. apply Hle in E. by rewrite (Hd k Hk) in E.
Qed.

(** One more unit of fuel. *)
Lemma leads_succ {A} (c d : nat → option A) :
  c 0 = None → (∀ n, c (S n) = d n) → steady d → leads c d.
Proof.
  intros H0 HS Hd. split.
  - intros [|n] x Hx; [by rewrite H0 in Hx|]. rewrite HS in Hx. eapply Hd; [|done]. lia.
  - intros n x Hx. exists (S n). by rewrite HS.
Qed.

Lemma starves_succ {A} n (c d : nat → option A) :
  c 0 = None → (∀ k, c (S k) = d k) → starves n d → starves (S n) c.
Proof. intros H0 HS Hd [|k] Hk; [done|]. rewrite HS. apply Hd. lia. Qed.

(** Going on with an answer. *)
Definition andthen {A B} (c : nat → option A) (k : nat → A → option B) : nat → option B :=
  λ n, match c n with Some a => k n a | None => None end.

Lemma andthen_leads {A B} (c d : nat → option A) (k : nat → A → option B) :
  leads c d → steady c → (∀ a, steady (λ n, k n a)) → leads (andthen c k) (andthen d k).
Proof.
  intros [Hle Hge] Hc Hk. unfold andthen. split.
  - intros n x. destruct (c n) as [a|] eqn:E; [|done]. by rewrite (Hle n a E).
  - intros n x. destruct (d n) as [a|] eqn:E; [|done]. intros Hx. destruct (Hge n a E) as [n' Hn'].
    exists (n `max` n'). rewrite (Hc n' (n `max` n') (Nat.le_max_r _ _) a Hn').
    eapply (Hk a n); [apply Nat.le_max_l|done].
Qed.

Lemma andthen_starves {A B} n (c : nat → option A) (k : nat → A → option B) :
  starves n c → starves n (andthen c k).
Proof. intros Hc i Hi. unfold andthen. by rewrite Hc. Qed.

Lemma steady_nested b st : steady (λ n, nested (machine n) b st).
Proof. intros n n' Hn. by apply machine_le. Qed.

Lemma steady_run r st : steady (λ n, run_call (machine n) r st).
Proof. intros n n' Hn. by apply machine_le. Qed.

Lemma steady_native {A} i (n : Native W A) st : steady (λ k, run_native (machine k) i n st).
Proof. intros k k' Hk. by apply run_native_le, machine_le. Qed.

Lemma steady_nested_body b st : steady (λ n, run_nested_body (machine n) n b st).
Proof. intros n n' Hn. apply run_nested_body_le; [by apply machine_le|done]. Qed.

Lemma steady_run_body r st : steady (λ n, run_call_body (machine n) r st).
Proof. intros n n' Hn. by apply run_call_body_le, machine_le. Qed.

Lemma steady_dispatch st : steady (λ n, dispatch_one (machine n) n st).
Proof. intros n n' Hn. apply dispatch_one_le; [by apply machine_le|done]. Qed.

Lemma steady_after_step b x : steady (λ n, after_step (machine n) b x).
Proof. intros n n' Hn. by apply after_step_le; [apply machine_le|]. Qed.

Lemma nested_unfold b st : leads (λ n, nested (machine n) b st) (λ n, run_nested_body (machine n) n b st).
Proof. apply leads_succ; [done|done|apply steady_nested_body]. Qed.

Lemma run_unfold r st : leads (λ n, run_call (machine n) r st) (λ n, run_call_body (machine n) r st).
Proof. apply leads_succ; [done|done|apply steady_run_body]. Qed.

Lemma nested_done b st :
  length (frames st) ≤ b → leads (λ n, nested (machine n) b st) (λ _, Some (Ok (), st)).
Proof.
  intros Hb. eapply leads_trans; [apply nested_unfold|]. unfold run_nested_body.
  apply Nat.leb_le in Hb. rewrite Hb. apply leads_refl.
Qed.

(** ** Instructions above other operands *)

Definition above (S : list Value) (vm : Vm (W:=W)) : Vm (W:=W) := mkVm (stack vm ++ S) (envs vm) (world vm).

Definition above_config (S : list Value) (c : Config (W:=W)) : Config (W:=W) :=
  match c with At ip vm => At ip (above S vm) | c => c end.

Section above.
Context (f : Frame) (S : list Value) (s : list Value) (h : Envs) (w : W).
Abbreviation info := (frame_info f).
Abbreviation materialize := (@materialize_constant W (own_objects f) info).
Abbreviation local := (@get_local W info).

Lemma materialize_above c s' :
  materialize c (mkVm (s' ++ S) h w) =
  ((materialize c (mkVm s' h w)).1, above S (materialize c (mkVm s' h w)).2).
Proof using. destruct c; cbn; try done; by destruct (new_object _ _ _ _). Qed.

Lemma materialize_stack c s' : stack (materialize c (mkVm s' h w)).2 = s'.
Proof using. destruct c; cbn; try done; by destruct (new_object _ _ _ _). Qed.

Lemma get_local_above x s' : local x (mkVm (s' ++ S) h w) = local x (mkVm s' h w).
Proof using. done. Qed.

(** The message is the same, and its window is within the operands of the frame. *)
Lemma send_of_above i :
  demand i ≤ length s →
  match send_of f i (mkVm s h w) with
  | Some (sel, n, vm) =>
      send_of f i (mkVm (s ++ S) h w) = Some (sel, n, above S vm) ∧ n < length (stack vm)
  | None => send_of f i (mkVm (s ++ S) h w) = None
  end.
Proof using.
  intros Hs. destruct i; cbn [send_of demand] in *; try done;
    try (destruct s as [|a [|b s0]]; cbn in Hs; [lia|lia|]; destruct a, b; cbn; try done; split; try done; lia).
  all: try (match goal with |- context [@read_local _ _ ?x (mkVm (s ++ S) h w)] =>
         change (read_local info x (mkVm (s ++ S) h w)) with (read_local info x (mkVm s h w)) end).
  all: try rewrite !get_local_above.
  all: try (match goal with |- context [@materialize_constant _ _ _ ?c (push ?v (mkVm (s ++ S) h w))] =>
         change (push v (mkVm (s ++ S) h w)) with (mkVm ((v :: s) ++ S) h w);
         change (push v (mkVm s h w)) with (mkVm (v :: s) h w);
         rewrite (materialize_above c (v :: s)); pose proof (materialize_stack c (v :: s)) as Hst;
         destruct (materialize c (mkVm (v :: s) h w)) as [cv vm] end).
  all: try (match goal with |- context [@materialize_constant _ _ _ ?c (mkVm (s ++ S) h w)] =>
         rewrite (materialize_above c s); pose proof (materialize_stack c s) as Hst;
         destruct (materialize c (mkVm s h w)) as [cv vm] end).
  all: cbn in *.
  all: repeat case_match; try done; simplify_eq/=; split; try done; rewrite ?Hst; cbn; lia.
Qed.

(** An instruction that neither sends nor leaves the frame. *)
Definition is_local (i : Instruction) : bool :=
  match i with
  | Return | BlockReturn | MethodReturn | Yeet | ExecuteBlockWithSelf => false
  | i => match effect i with Some _ => false | None => true end
  end.

Lemma define_above ip name v s' :
  stored ip (@store_define_local W (own_objects f) info name v (mkVm (s' ++ S) h w)) =
  above_config S (stored ip (@store_define_local W (own_objects f) info name v (mkVm s' h w))).
Proof using. unfold store_define_local. by destruct (reserved name). Qed.

Lemma set_above ip name v s' :
  stored ip (@store_set_local W (own_objects f) info name v (mkVm (s' ++ S) h w)) =
  above_config S (stored ip (@store_set_local W (own_objects f) info name v (mkVm s' h w))).
Proof using.
  unfold store_set_local. destruct (reserved name); [done|]. destruct (f_init info); [done|].
  cbn. by case_match.
Qed.

Lemma field_above ip name v s' :
  stored ip (@store_field_value W (own_objects f) info name v (mkVm (s' ++ S) h w)) =
  above_config S (stored ip (@store_field_value W (own_objects f) info name v (mkVm s' h w))).
Proof using.
  unfold store_field_value.
  change (read_local info self_symbol (mkVm (s' ++ S) h w)) with (read_local info self_symbol (mkVm s' h w)).
  cbn [world]. by destruct (set_field _ _ _ _).
Qed.

Lemma computed_above ip r s' :
  computed ip r (mkVm (s' ++ S) h w) = above_config S (computed ip r (mkVm s' h w)).
Proof using. by destruct r. Qed.

Lemma execute_above i ip :
  demand i ≤ length s → is_local i = true → send_of f i (mkVm s h w) = None →
  @execute W (own_objects f) info ip i (mkVm (s ++ S) h w) =
  above_config S (@execute W (own_objects f) info ip i (mkVm s h w)).
Proof using.
  intros Hs Hl Hsend.
  destruct i; cbn [send_of demand is_local effect] in *; try done;
    try (destruct s as [|a s0]; cbn in Hs; [lia|]);
    try (destruct s0 as [|b s1]; cbn in Hs; [lia|]).
  all: cbn; try done.
  all: try (destruct a, b; done).
  all: try (destruct a; done).
  all: try apply (define_above _ _ _ s0).
  all: try apply (define_above _ _ _ (a :: s0)).
  all: try apply (set_above _ _ _ s0).
  all: try apply (set_above _ _ _ (a :: s0)).
  all: try (cbn in Hsend; destruct a, b; try discriminate Hsend; apply (computed_above ip _ s1)).
  all: try (rewrite (materialize_above c s); by destruct (materialize c _)).
  all: try apply (field_above _ _ _ s0).
  all: try apply (field_above _ _ _ (a :: s0)).
  all: unfold int_bin_ll, int_bin_lc, double_bin_ll, double_bin_lc; rewrite ?get_local_above.
  all: try match type of Hsend with (let '(_, _) := ?x in _) = None => destruct x as [cv vm] end.
  all: try discriminate Hsend.
  all: destruct (local a (mkVm s h w)) as [[]|]; try discriminate Hsend.
  all: try (destruct (local b (mkVm s h w)) as [[]|]; try discriminate Hsend).
  all: try (destruct (as_int c); try discriminate Hsend).
  all: try (destruct (as_double c); try discriminate Hsend).
  all: first [apply (computed_above ip _ s)|done].
Qed.
End above.
End mono.
