(* ===== verification/FramesSim.v ===== *)
(** * The machine follows the activations

    By induction on fuel: whatever the frames and operands below, the machine of [Frames] does
    what [Activations] says of the block or the message that runs on top of them, and it does
    not answer with less fuel than that takes. *)
From stdpp Require Import base numbers list strings gmap.
From stdpp Require Import options.
From S2P Require Import Prelude Instr Exec Frames Activations FramesMono.
Local Open Scope nat_scope.

Create HintDb steady.

#[local] Arguments native : simpl never.
#[local] Arguments bottom : simpl never.

Section sim.
Context `{Runtime W}.
Abbreviation Mem := (Frames.Mem (W:=W)).
Abbreviation State := (Frames.State (W:=W)).
Abbreviation Ran A := (option (result QuoinError A * State)).

(** ** Stacks *)

Lemma bottom_app {A} n (J s : list A) : length s = n → bottom n (J ++ s) = s.
Proof. intros <-. unfold bottom. rewrite length_app. rewrite Nat.add_sub. apply drop_app_length. Qed.

Lemma bottom_all {A} n (s : list A) : length s ≤ n → bottom n s = s.
Proof. intros Hn. unfold bottom. by replace (length s - n) with 0 by lia. Qed.

Definition put_defers (ds : list DeferredCall) (fs : list Frame) : list Frame :=
  match fs with f :: rest => set_defers ds f :: rest | [] => [] end.

Lemma length_put_defers ds fs : length (put_defers ds fs) = length fs.
Proof. by destruct fs. Qed.

Definition placed (base ip : nat) (ds : list DeferredCall) (f : Frame) : Frame :=
  mkCallFrame (frame_id f) (enclosing_method_id f) (block f) ip (env f) (instantiating_obj f)
    (receiver f) base (return_receiver f) ds (unregister_on_defer_failure f).

(** ** Landing *)

(** No frame that a [^^] to [t] pops has an object to finish. *)
Fixpoint clean (t : FrameId) (fs : list Frame) : Prop :=
  match fs with
  | [] => True
  | f :: rest => instantiating_obj f = None ∧ (frame_id f = t ∨ clean t rest)
  end.

Definition answer_of (f : Frame) (v : Value) : Value :=
  if return_receiver f then default v (receiver f) else v.

(** Where such a [^^] comes to rest. *)
Fixpoint landing (t : FrameId) (v : Value) (fs : list Frame) (s : list Value) (m : Mem) : State :=
  match fs with
  | [] => mkState [] (v :: s) m
  | f :: rest =>
      let v := answer_of f v in
      if bool_decide (frame_id f = t) then mkState rest (v :: bottom (stack_base f) s) m
      else landing t v rest s m
  end.

Lemma clean_put_defers t ds fs : clean t (put_defers ds fs) ↔ clean t fs.
Proof. by destruct fs. Qed.

Lemma landing_put_defers t v ds fs s m : landing t v (put_defers ds fs) s m = landing t v fs s m.
Proof. by destruct fs. Qed.

Lemma landing_mem t v fs : ∀ s m m', set_mem m' (landing t v fs s m) = landing t v fs s m'.
Proof. revert v. induction fs as [|f fs IH]; intros v s m m'; cbn; [done|]. by case_bool_decide. Qed.

Lemma mem_landing t v fs : ∀ s m, mem (landing t v fs s m) = m.
Proof. revert v. induction fs as [|f fs IH]; intros v s m; cbn; [done|]. by case_bool_decide. Qed.

Lemma landing_shorter t v fs : ∀ s m, fs ≠ [] → length (frames (landing t v fs s m)) < length fs.
Proof.
  revert v. induction fs as [|f fs IH]; intros v s m Hne; cbn; [done|].
  case_bool_decide; cbn; [lia|]. destruct fs as [|g fs]; [cbn; lia|].
  etransitivity; [by apply (IH (answer_of f v))|cbn; lia].
Qed.

Lemma unwind_clean I t fs : ∀ n v s m, clean t fs → length fs < n →
  unwind_to I n t v (mkState fs s m) = Some (Raised NonLocalReturn (landing t v fs s m)).
Proof.
  induction fs as [|f fs IH]; intros [|n] v s m Hc Hn; cbn in *; try lia; [done|].
  destruct Hc as [Hi Hc]. unfold consume_popped_frame. rewrite Hi. cbn.
  change (if return_receiver f then default v (receiver f) else v) with (answer_of f v).
  case_bool_decide as Hid; [done|]. destruct Hc as [?|Hc]; [done|]. apply IH; [done|lia].
Qed.

(** ** Computations that wait for others *)

Lemma leads_strict {A B} (G : nat → option A → option B) (c d : nat → option A) :
  (∀ n, G n None = None) → (∀ p, steady (λ n, G n (Some p))) → steady c → leads c d →
  leads (λ n, G n (c n)) (λ n, G n (d n)).
Proof.
  intros HG Hs Hc [Hle Hge]. split.
  - intros n x. destruct (c n) as [p|] eqn:E; [|by rewrite HG]. by rewrite (Hle n p E).
  - intros n x. destruct (d n) as [p|] eqn:E; [|by rewrite HG]. intros Hx.
    destruct (Hge n p E) as [n' Hn']. exists (n `max` n').
    rewrite (Hc n' (n `max` n') (Nat.le_max_r _ _) p Hn'). eapply (Hs p n); [apply Nat.le_max_l|done].
Qed.

Lemma starves_strict {A B} (G : nat → option A → option B) n (c : nat → option A) :
  (∀ n, G n None = None) → starves n c → starves n (λ n, G n (c n)).
Proof. intros HG Hc k Hk. by rewrite Hc. Qed.

Lemma steady_const {A} (x : option A) : steady (λ _, x).
Proof. by intros n n' _. Qed.

(** ** What it is to agree *)

(** A native, or what a native runs, on top of frames [F] and operands [S]. *)
Definition agrees {A} (n : nat) (c : nat → Ran A) (out : Out (W:=W) A) (D : list DeferredCall)
    (F : list Frame) (S : list Value) : Prop :=
  match out with
  | OVal a ds neat m =>
      ∃ J, (neat = true → J = []) ∧
        leads c (λ _, Some (Ok a, mkState (put_defers (D ++ ds) F) (J ++ S) m))
  | OErr e ds m =>
      e ≠ NonLocalReturn ∧ ∃ X J,
        leads c (λ _, Some (Err e, mkState (X ++ put_defers (D ++ ds) F) (J ++ S) m))
  | ONlr t v _ m =>
      F ≠ [] → clean t F →
      ∃ J, leads c (λ _, Some (Err NonLocalReturn, landing t v F (J ++ S) m))
  | OMore => starves n c
  | OWild => True
  end.

(** The loop down to [b] frames, from a computation that comes to one more operand. *)
Definition continues (n b : nat) (c : nat → Ran ()) (out : Out (W:=W) Value) (D : list DeferredCall)
    (F : list Frame) (S : list Value) : Prop :=
  match out with
  | OVal v ds _ m =>
      leads c (λ k, nested (machine k) b (mkState (put_defers (D ++ ds) F) (v :: S) m))
  | OErr e ds m =>
      e ≠ NonLocalReturn ∧ ∃ X J,
        leads c (λ _, Some (Err e, mkState (X ++ put_defers (D ++ ds) F) (J ++ S) m))
  | ONlr t v true m =>
      clean t F → ∃ J,
        leads c (λ k, after_step (machine k) b (Some (Raised NonLocalReturn (landing t v F (J ++ S) m))))
  | ONlr t v false m =>
      ∃ E J, leads c (λ k, after_step (machine k) b
                             (unwind_to (machine k) k t v (mkState (put_defers E F) (J ++ S) m)))
  | OMore => starves n c
  | OWild => True
  end.

(** The frame that ends there ends with [v]. *)
Definition returns (f : Frame) (ip : nat) (v : Value) (s : list Value) (m : Mem) : Prop :=
  take_cancellation (m_world m) = None ∧
  match bytecode f !! ip with
  | None => v = VNil
  | Some (Return | BlockReturn) => head s = Some v
  | _ => False
  end.

Definition frame_agrees (n b : nat) (c : nat → Ran ()) (out : Out (W:=W) Value) (f : Frame)
    (F : list Frame) (S : list Value) : Prop :=
  match out with
  | OVal v ds _ m =>
      ∃ ip s, returns f ip v s m ∧
        leads c (λ k, nested (machine k) b (mkState (placed (length S) ip ds f :: F) (s ++ S) m))
  | OErr e ds m =>
      e ≠ NonLocalReturn ∧ ∃ X J, leads c (λ _, Some (Err e, mkState (X ++ F) (J ++ S) m))
  | ONlr t v true m =>
      clean t (f :: F) → ∃ J ip ds,
        leads c (λ k, after_step (machine k) b
          (Some (Raised NonLocalReturn (landing t v (placed (length S) ip ds f :: F) (J ++ S) m))))
  | ONlr t v false m =>
      ∃ J ip ds, leads c (λ k, after_step (machine k) b
        (unwind_to (machine k) k t v (mkState (placed (length S) ip ds f :: F) (J ++ S) m)))
  | OMore => starves n c
  | OWild => True
  end.

Lemma agrees_leads {A} n (c d : nat → Ran A) out D F S :
  leads c d → agrees n d out D F S → agrees n c out D F S.
Proof.
  intros Hcd. destruct out as [a ds neat m|e ds m|t v cr m| |]; cbn.
  - intros (J & HJ & Hd). exists J. split; [done|]. by eapply leads_trans.
  - intros (He & X & J & Hd). split; [done|]. exists X, J. by eapply leads_trans.
  - intros Hd HF Hc. destruct (Hd HF Hc) as (J & HJ). exists J. by eapply leads_trans.
  - by apply leads_starves.
  - done.
Qed.

Lemma continues_leads n b (c d : nat → Ran ()) out D F S :
  leads c d → continues n b d out D F S → continues n b c out D F S.
Proof.
  intros Hcd. destruct out as [a ds neat m|e ds m|t v [] m| |]; cbn.
  - by apply leads_trans.
  - intros (He & X & J & Hd). split; [done|]. exists X, J. by eapply leads_trans.
  - intros Hd Hc. destruct (Hd Hc) as (J & HJ). exists J. by eapply leads_trans.
  - intros (E & J & Hd). exists E, J. by eapply leads_trans.
  - by apply leads_starves.
  - done.
Qed.

Lemma frame_agrees_leads n b (c d : nat → Ran ()) out f F S :
  leads c d → frame_agrees n b d out f F S → frame_agrees n b c out f F S.
Proof.
  intros Hcd. destruct out as [a ds neat m|e ds m|t v [] m| |]; cbn.
  - intros (ip & s & Hr & Hd). exists ip, s. split; [done|]. by eapply leads_trans.
  - intros (He & X & J & Hd). split; [done|]. exists X, J. by eapply leads_trans.
  - intros Hd Hc. destruct (Hd Hc) as (J & ip & ds & HJ). exists J, ip, ds. by eapply leads_trans.
  - intros (J & ip & ds & Hd). exists J, ip, ds. by eapply leads_trans.
  - by apply leads_starves.
  - done.
Qed.

Lemma raise_agrees {A} n (c : nat → Ran A) e ds m X J D F S :
  leads c (λ _, Some (Err e, mkState (X ++ put_defers (D ++ ds) F) (J ++ S) m)) →
  agrees n c (raise e ds m) D F S.
Proof. intros Hc. destruct e; cbn; try done; (split; [done|]); by exists X, J. Qed.

Lemma raise_continues n b c e ds m X J D F S :
  (e ≠ NonLocalReturn → leads c (λ _, Some (Err e, mkState (X ++ put_defers (D ++ ds) F) (J ++ S) m))) →
  continues n b c (raise e ds m) D F S.
Proof. intros Hc. destruct e; cbn; try done; (split; [done|]); exists X, J; by apply Hc. Qed.

Lemma raise_frame n b c e ds m X J f F S :
  (e ≠ NonLocalReturn → leads c (λ _, Some (Err e, mkState (X ++ F) (J ++ S) m))) →
  frame_agrees n b c (raise e ds m) f F S.
Proof. intros Hc. destruct e; cbn; try done; (split; [done|]); exists X, J; by apply Hc. Qed.

Lemma after_raised I b e (st : State) : e ≠ NonLocalReturn → after_step I b (Some (Raised e st)) = Some (Err e, st).
Proof. by destruct e. Qed.

(** ** Natives *)

Definition run_ok (n : nat) : Prop := ∀ r ds m D F S,
  agrees n (λ k, run_call (machine k) r (mkState (put_defers (D ++ ds) F) S m))
    (s_run (spec n) r ds m) D F S.

Definition mode_state (mode : Mode) (D ds : list DeferredCall) (F : list Frame) (S : list Value)
    (m : Mem) (st : State) : Prop :=
  match mode with
  | Clean neat => ∃ J, (neat = true → J = []) ∧ st = mkState (put_defers (D ++ ds) F) (J ++ S) m
  | Dirty => ∃ X J, st = mkState (X ++ put_defers (D ++ ds) F) (J ++ S) m
  | InFlight t v => F ≠ [] ∧ clean t F ∧ ∃ J, st = landing t v F (J ++ S) m
  end.

Lemma mode_state_mem mode D ds F S m st : mode_state mode D ds F S m st → mem st = m.
Proof.
  destruct mode as [neat| |t v]; cbn.
  - by intros (J & _ & ->).
  - by intros (X & J & ->).
  - intros (_ & _ & J & ->). apply mem_landing.
Qed.

Lemma mode_state_step mode D ds F S m m' st :
  mode_state mode D ds F S m st → mode_state mode D ds F S m' (set_mem m' st).
Proof.
  destruct mode as [neat| |t v]; cbn.
  - intros (J & HJ & ->). by exists J.
  - intros (X & J & ->). by exists X, J.
  - intros (HF & Hc & J & ->). split_and!; [done..|]. exists J. by rewrite landing_mem.
Qed.

(** Cutting the frames back to those the native began with. *)
Lemma mode_state_unwind mode D ds F S m st :
  mode_state mode D ds F S m st →
  mode_state (match mode with Dirty => Clean false | mode => mode end) D ds F S m
    (set_frames (bottom (length F) (frames st)) st).
Proof.
  destruct mode as [neat| |t v]; cbn.
  - intros (J & HJ & ->). exists J. split; [done|]. cbn. by rewrite bottom_all by (by rewrite length_put_defers).
  - intros (X & J & ->). exists J. split; [done|]. cbn. by rewrite bottom_app by apply length_put_defers.
  - intros (HF & Hc & J & ->). split_and!; [done..|]. exists J.
    rewrite bottom_all by (pose proof (landing_shorter t v F (J ++ S) m HF); lia).
    by destruct (landing _ _ _ _ _).
Qed.

Lemma in_flight_out {A} I (n : Native W A) t v : ∀ ds m,
  s_native I n (InFlight t v) ds m = OWild ∨ ∃ m', s_native I n (InFlight t v) ds m = ONlr t v true m'.
Proof.
  induction n as [r|f k IH|r k IH|n IH|d n IH]; intros ds m; cbn; [|apply IH| |apply IH|by left].
  - destruct r as [a|[]]; try (by left). right. by exists m.
  - destruct (neatly _) as [? [|? ?] ? ?| | | |]; try (by left). apply IH.
Qed.

Lemma steady_native' {A} i (n : nat → result QuoinError Value → Native W A) p :
  steady (λ k, match (Some p : Ran Value) with Some (res, st) => run_native (machine k) i (n 0 res) st | None => None end).
Proof. destruct p. apply steady_native. Qed.

Lemma native_run {A} n i r (k : result QuoinError Value → Native W A) st st' res out D F S :
  leads (λ j, run_call (machine j) r st) (λ _, Some (res, st')) →
  agrees n (λ j, run_native (machine j) i (k res) st') out D F S →
  agrees n (λ j, run_native (machine j) i (NRun r k) st) out D F S.
Proof.
  intros Hr. apply agrees_leads.
  apply (leads_strict (λ j x, match x with Some (res, st) => run_native (machine j) i (k res) st | None => None end)
    _ (λ _, Some (res, st'))); [done| |apply steady_run|done].
  intros [??]. apply steady_native.
Qed.

Lemma landing_at_rest t v F s (m : Mem) :
  ∃ D' F' S', ∀ m', mkState (put_defers (D' ++ []) F') S' m' = landing t v F s m'.
Proof.
  destruct (landing t v F s m) as [fs s' m0] eqn:El.
  exists (match fs with g :: _ => defers g | [] => [] end), fs, s'. intros m'.
  rewrite <- (landing_mem t v F s m m'), El. unfold set_mem. cbn. f_equal.
  destruct fs as [|g fs]; [done|]. cbn. rewrite app_nil_r. by destruct g.
Qed.

Lemma native_ok n (Hrun : run_ok n) {A} (t : Native W A) : ∀ mode ds m D F S st,
  mode_state mode D ds F S m st →
  agrees n (λ k, run_native (machine k) (length F) t st) (s_native (spec n) t mode ds m) D F S.
Proof.
  induction t as [r|f k IH|r k IH|t IH|d t IH]; intros mode ds m D F S st Hst; cbn [s_native].
  - destruct r as [a|e], mode as [neat| |t v]; cbn; try done.
    + destruct Hst as (J & HJ & ->). exists J. split; [done|]. apply leads_refl.
    + destruct Hst as (J & HJ & ->). destruct e; try done; (eapply (raise_agrees _ _ _ _ _ [] J)); apply leads_refl.
    + destruct Hst as (X & J & ->). destruct e; try done; (eapply (raise_agrees _ _ _ _ _ X J)); apply leads_refl.
    + destruct Hst as (HF & Hc & J & ->). destruct e; try done. intros _ _. exists J. apply leads_refl.
  - cbn [run_native]. pose proof (mode_state_mem _ _ _ _ _ _ _ Hst) as Hm. rewrite Hm. apply IH.
    by eapply mode_state_step.
  - destruct mode as [neat| |tg v]; [| done|].
    + destruct Hst as (J & HJ & ->). specialize (Hrun r ds m D F (J ++ S)).
      destruct (s_run (spec n) r ds m) as [v ds' neat' m'|e ds' m'|tg v cr m'| |]; cbn [neatly].
      * destruct neat'; [|done]. destruct Hrun as (J' & HJ' & Hl). rewrite (HJ' eq_refl) in Hl.
        eapply native_run; [exact Hl|]. apply IH. by exists J.
      * destruct Hrun as (_ & X & J' & Hl). eapply native_run; [exact Hl|]. apply IH.
        exists X, (J' ++ J). by rewrite <- app_assoc.
      * destruct (in_flight_out (spec n) (k (Err NonLocalReturn)) tg v ds m') as [E|[m2 E]]; rewrite E; [done|].
        intros HF Hc. destruct (Hrun HF Hc) as (J' & Hl).
        specialize (IH (Err NonLocalReturn) (InFlight tg v) ds m' D F S (landing tg v F (J' ++ J ++ S) m')).
        rewrite E in IH. eapply (native_run n _ _ _ _ _ _ (ONlr tg v true m2)); [exact Hl| |done..].
        apply IH. cbn. split_and!; [done..|]. exists (J' ++ J). by rewrite <- app_assoc.
      * apply (starves_strict (λ j x, match x with Some (res, st) => run_native (machine j) (length F) (k res) st | None => None end)); done.
      * done.
    + destruct Hst as (HF & Hc & J & ->).
      destruct (landing_at_rest tg v F (J ++ S) m) as (D' & F' & S' & El).
      specialize (Hrun r [] m D' F' S'). rewrite (El m) in Hrun.
      destruct (s_run (spec n) r [] m) as [v' [|? ?] neat' m'| | | |]; cbn [neatly]; try done; destruct neat'; try done.
      destruct Hrun as (J' & HJ' & Hl). rewrite (HJ' eq_refl) in Hl. cbn [app] in Hl. rewrite El in Hl.
      eapply native_run; [exact Hl|]. apply IH. cbn. split_and!; [done..|]. by exists J.
  - cbn [run_native]. apply IH. by apply mode_state_unwind.
  - destruct mode as [neat| |tg v]; [|done|done]. destruct Hst as (J & HJ & ->). cbn [run_native]. apply IH.
    exists J. split; [done|]. cbn. unfold set_frames. cbn. f_equal. destruct F as [|g F]; [done|]. cbn.
    by rewrite <- app_assoc.
Qed.

Lemma clean_ok n (Hrun : run_ok n) {A} (t : Native W A) ds m D F S :
  agrees n (λ k, native (machine k) t (mkState (put_defers (D ++ ds) F) S m))
    (s_clean (spec n) t ds m) D F S.
Proof.
  unfold native. cbn [frames]. rewrite length_put_defers. apply native_ok; [done|]. by exists [].
Qed.

(** ** Going on *)

Lemma steady_clean {A} (t : Native W A) st : steady (λ k, native (machine k) t st).
Proof. apply steady_native. Qed.

Lemma steady_defers calls st : steady (λ k, run_defers (machine k) calls st).
Proof. intros n n' Hn. by apply run_defers_le, machine_le. Qed.

Lemma steady_frame_defers f st : steady (λ k, run_frame_defers (machine k) f st).
Proof. intros n n' Hn. by apply run_frame_defers_le, machine_le. Qed.

Lemma steady_consume f v st : steady (λ k, consume_popped_frame (machine k) f v st).
Proof. intros n n' Hn. by apply consume_le, machine_le. Qed.

Lemma steady_unwind t v st : steady (λ k, unwind_to (machine k) k t v st).
Proof. intros n n' Hn. apply unwind_to_le; [by apply machine_le|done]. Qed.

Lemma steady_after b (x : nat → option (Frames.Step (W:=W))) : steady x → steady (λ j, after_step (machine j) b (x j)).
Proof. intros Hx n n' Hn. apply after_step_le; [by apply machine_le|]. by apply Hx. Qed.

#[local] Hint Resolve steady_clean steady_defers steady_frame_defers steady_consume steady_unwind steady_after
  steady_const steady_nested steady_run : steady.

Section bind.
Context {A B : Type} (c : nat → Ran A) (k : nat → A → State → Ran B).
Context (Hc : steady c) (Hk : ∀ a st, steady (λ j, k j a st)).

Lemma ran_bind_leads a st :
  leads c (λ _, Some (Ok a, st)) → leads (λ j, ran_bind (c j) (k j)) (λ j, k j a st).
Proof using Hc Hk.
  intros Hl. apply (leads_strict (λ j x, ran_bind x (k j)) _ (λ _, Some (Ok a, st))); try done.
  intros [[a'|e] st']; cbn; [apply Hk|apply steady_const].
Qed.

Lemma ran_bind_err e st :
  leads c (λ _, Some (Err e, st)) → leads (λ j, ran_bind (c j) (k j)) (λ _, Some (Err e, st)).
Proof using Hc Hk.
  intros Hl. apply (leads_strict (λ j x, ran_bind x (k j)) _ (λ _, Some (Err e, st))); try done.
  intros [[a'|e'] st']; cbn; [apply Hk|apply steady_const].
Qed.

Lemma ran_bind_starves n : starves n c → starves n (λ j, ran_bind (c j) (k j)).
Proof using. intros Hn. by apply (starves_strict (λ j x, ran_bind x (k j))). Qed.
End bind.

Section after.
Context {A : Type} (b : nat) (c : nat → Ran A) (k : nat → A → State → option (Frames.Step (W:=W))).
Context (Hc : steady c) (Hk : ∀ a st, steady (λ j, k j a st)).

Lemma after_strict_steady p : steady (λ j, after_step (machine j) b (of_ran (Some p) (k j))).
Proof using Hk. apply steady_after. destruct p as [[a|e] st]; cbn; [apply Hk|apply steady_const]. Qed.

Lemma after_ok a st :
  leads c (λ _, Some (Ok a, st)) →
  leads (λ j, after_step (machine j) b (of_ran (c j) (k j))) (λ j, after_step (machine j) b (k j a st)).
Proof using Hc Hk.
  intros Hl. apply (leads_strict (λ j x, after_step (machine j) b (of_ran x (k j))) _ (λ _, Some (Ok a, st)));
    try done. apply after_strict_steady.
Qed.

Lemma after_nlr st e :
  leads c (λ _, Some (Err e, st)) →
  leads (λ j, after_step (machine j) b (of_ran (c j) (k j))) (λ j, after_step (machine j) b (Some (Raised e st))).
Proof using Hc Hk.
  intros Hl. apply (leads_strict (λ j x, after_step (machine j) b (of_ran x (k j))) _ (λ _, Some (Err e, st)));
    try done. apply after_strict_steady.
Qed.

Lemma after_err e st :
  e ≠ NonLocalReturn → leads c (λ _, Some (Err e, st)) →
  leads (λ j, after_step (machine j) b (of_ran (c j) (k j))) (λ _, Some (Err e, st)).
Proof using Hc Hk.
  intros He Hl. eapply leads_trans; [by apply after_nlr|]. destruct e; try done; apply leads_refl.
Qed.

Lemma after_starves n : starves n c → starves n (λ j, after_step (machine j) b (of_ran (c j) (k j))).
Proof using. intros Hn. by apply (starves_strict (λ j x, after_step (machine j) b (of_ran x (k j)))). Qed.
End after.

(** ** The end of a frame *)

Lemma consume_ok n (Hrun : run_ok n) f v m D F S :
  agrees n (λ k, consume_popped_frame (machine k) f v (mkState (put_defers (D ++ []) F) S m))
    (s_consume (spec n) f v m) D F S.
Proof.
  unfold consume_popped_frame, s_consume. destruct (instantiating_obj f) as [obj|].
  - pose proof (clean_ok n Hrun (finalize_instantiation obj (env f)) [] m D F (VObject obj :: S)) as Hn.
    unfold push_value. cbn [frames ostack mem].
    destruct (s_clean (spec n) _ [] m) as [[] [|? ?] [] m'|e [|? ?] m'|t u cr m'| |]; cbn; try done.
    + destruct Hn as (J & HJ & Hl). rewrite (HJ eq_refl) in Hl. exists []. split; [done|].
      by apply (ran_bind_leads _ (λ _ _, pop_result)) in Hl; auto with steady.
    + destruct Hn as (He & X & J & Hl). split; [done|]. exists X, (J ++ [VObject obj]). rewrite <- app_assoc.
      apply ran_bind_err; auto with steady.
    + apply ran_bind_starves. done.
  - exists []. split; [done|]. apply leads_refl.
Qed.

Lemma run_defers_ok n (Hrun : run_ok n) calls : ∀ ds m D F S,
  agrees n (λ k, run_defers (machine k) calls (mkState (put_defers (D ++ ds) F) S m))
    (s_defers (spec n) calls ds m) D F S.
Proof.
  induction calls as [|d calls IH]; intros ds m D F S; cbn [run_defers s_defers].
  - exists []. split; [done|]. apply leads_refl.
  - pose proof (Hrun (CallMethod (d_receiver d) (d_selector d) (d_args d)) ds m D F S) as Hd.
    destruct (s_run (spec n) _ ds m) as [v ds' [] m'|e ds' m'|t u cr m'| |]; cbn [neatly obind]; try done.
    + destruct Hd as (J & HJ & Hl). rewrite (HJ eq_refl) in Hl. eapply agrees_leads; [|apply IH].
      apply (ran_bind_leads _ (λ j _ st, run_defers (machine j) calls st)) in Hl; auto with steady.
    + destruct Hd as (He & X & J & Hl). split; [done|]. exists X, J. apply ran_bind_err; auto with steady.
    + intros HF Hcl. destruct (Hd HF Hcl) as (J & Hl). exists J. apply ran_bind_err; auto with steady.
    + by apply ran_bind_starves.
Qed.

Lemma frame_defers_ok n (Hrun : run_ok n) f base ip ds m F S :
  agrees n (λ k, run_frame_defers (machine k) (placed base ip ds f) (mkState (placed base ip ds f :: F) S m))
    (s_frame_defers (spec n) f ds m) [] (placed base ip [] f :: F) S.
Proof.
  unfold run_frame_defers, s_frame_defers. cbn [defers placed].
  pose proof (run_defers_ok n Hrun ds ds m [] (placed base ip [] f :: F) S) as Hd.
  cbn [app put_defers] in Hd. change (set_defers ds (placed base ip [] f)) with (placed base ip ds f) in Hd.
  set (G := λ (x : Ran ()), match x with
      | Some (Err e, st') =>
          if length (frames st') <? length (frames (mkState (placed base ip ds f :: F) S m)) then None
          else Some (Err e, set_mem (set_world
            (match unregister_on_defer_failure (placed base ip ds f) with
             | Some name => unregister_global name (m_world (mem st'))
             | None => m_world (mem st')
             end) (mem st')) st')
      | Some (Ok a, st') => Some (Ok a, st')
      | None => None
      end).
  assert (∀ c d, leads c d → steady c → leads (λ j, G (c j)) (λ j, G (d j))) as HG.
  { intros c d Hl Hc. apply (leads_strict (λ _ x, G x)); try done. intros p. apply steady_const. }
  destruct (s_defers (spec n) ds ds m) as [[] ds' [] m'|e ds' m'|t u cr m'| |]; cbn [no_nlr neatly]; try done.
  - destruct Hd as (J & HJ & Hl). rewrite (HJ eq_refl) in Hl. exists []. split; [done|].
    refine (HG _ _ Hl _). auto with steady.
  - destruct Hd as (He & X & J & Hl). split; [done|]. exists X, J.
    eapply leads_trans; [refine (HG _ _ Hl _); auto with steady|]. cbn -[Nat.ltb].
    rewrite (proj2 (Nat.ltb_ge _ _)) by (rewrite length_app; cbn; lia). apply leads_refl.
  - apply (starves_strict (λ _ x, G x)); done.
Qed.

Lemma consume_shape I f v m :
  match s_consume I f v m with
  | OVal _ ds neat _ => ds = [] ∧ neat = true
  | OErr _ ds _ => ds = []
  | ONlr _ _ _ _ => False
  | _ => True
  end.
Proof.
  unfold s_consume. destruct (instantiating_obj f); [|done].
  by destruct (s_clean _ _ _ _) as [? [|? ?] [] ?|? [|? ?] ?|? ? ? ?| |].
Qed.

Lemma frame_defers_shape I f ds m :
  match s_frame_defers I f ds m with
  | OVal _ _ neat _ => neat = true
  | ONlr _ _ _ _ => False
  | _ => True
  end.
Proof. unfold s_frame_defers. by destruct (s_defers _ _ _ _) as [? ? [] ?|? ? ?|? ? ? ?| |]. Qed.

(** Popping the frame on top: its answer is pushed for the frame below. *)
Lemma pop_frame_ok n (Hrun : run_ok n) b f v m D E F S :
  continues n b
    (λ k, after_step (machine k) b
            (of_ran (consume_popped_frame (machine k) f v (mkState (put_defers (D ++ E) F) S m))
               (λ v st, Some (Running (push_value v st)))))
    (with_defers E (s_consume (spec n) f v m)) D F S.
Proof.
  pose proof (consume_ok n Hrun f v m (D ++ E) F S) as Hc. pose proof (consume_shape (spec n) f v m) as Hs.
  rewrite !app_nil_r in Hc.
  destruct (s_consume (spec n) f v m) as [u ds [] m'|e ds m'|t u cr m'| |]; cbn [with_defers]; try done.
  - destruct Hs as [-> _]. destruct Hc as (J & HJ & Hl). rewrite (HJ eq_refl), app_nil_r in Hl.
    apply (after_ok b _ (λ _ v st, Some (Running (push_value v st)))) in Hl; auto with steady.
  - by destruct Hs.
  - subst ds. destruct Hc as (He & X & J & Hl). rewrite app_nil_r in Hl. split; [done|]. exists X, J.
    apply after_err; auto with steady.
  - by apply after_starves.
Qed.

Lemma dispatch_returns f ip ds v s m F S :
  returns f ip v s m →
  ∃ imp s', s = (if imp : bool then s' else v :: s') ∧ (imp = true → v = VNil) ∧ ∀ k,
    dispatch_one (machine k) k (mkState (placed (length S) ip ds f :: F) (s ++ S) m) =
    leave_frame (machine k) imp (placed (length S) ip ds f) (mkState (placed (length S) ip ds f :: F) (s ++ S) m).
Proof.
  intros [_ Hr]. unfold dispatch_one. cbn [frames]. change (bytecode (placed (length S) ip ds f)) with (bytecode f).
  cbn [frame_ip placed]. destruct (bytecode f !! ip) as [i|].
  - destruct i; try done; (destruct s as [|u s']; [done|]; injection Hr as ->; exists false, s'; by split_and!).
  - exists true, s. by split_and!.
Qed.

Lemma nested_step n b st out D F S :
  b < length (frames st) → take_cancellation (m_world (mem st)) = None →
  continues n b (λ k, after_step (machine k) b (dispatch_one (machine k) k st)) out D F S →
  continues n b (λ k, nested (machine k) b st) out D F S.
Proof.
  intros Hb Hc. apply continues_leads. eapply leads_trans; [apply nested_unfold|].
  unfold run_nested_body. rewrite (proj2 (Nat.leb_gt _ _) Hb), Hc. apply leads_refl.
Qed.

Lemma steady_pop_frame v st : steady (λ k, pop_frame (machine k) v st).
Proof. intros n n' Hn. by apply pop_frame_le, machine_le. Qed.

Lemma steady_popped_frame (imp : bool) st :
  steady (λ k, if imp then pop_frame (machine k) VNil st else popped st (pop_frame (machine k))).
Proof.
  intros n n' Hn. destruct imp; [|apply ole_popped; intros ? ?]; by apply pop_frame_le, machine_le.
Qed.
#[local] Hint Resolve steady_pop_frame steady_popped_frame : steady.

Lemma leave_ok n (Hrun : run_ok n) b f ip ds v s m D E F S :
  b ≤ length F → returns f ip v s m →
  continues n b
    (λ k, nested (machine k) b (mkState (placed (length S) ip ds f :: put_defers (D ++ E) F) (s ++ S) m))
    (with_defers E (s_complete (spec n) f v ds m)) D F S.
Proof.
  intros Hb Hr. pose proof Hr as [Hcancel _].
  apply nested_step; [cbn; rewrite length_put_defers; lia|done|].
  destruct (dispatch_returns f ip ds v s m (put_defers (D ++ E) F) S Hr) as (imp & s' & Hs & Himp & Hd).
  unfold s_complete. pose proof (frame_defers_ok n Hrun f (length S) ip ds m (put_defers (D ++ E) F) (s ++ S)) as Hf.
  pose proof (frame_defers_shape (spec n) f ds m) as Hshape.
  eapply continues_leads; [apply leads_ext; intros k; rewrite Hd; reflexivity|].
  unfold leave_frame.
  destruct (s_frame_defers (spec n) f ds m) as [[] ds' neat m'|e ds' m'|t u cr m'| |]; cbn [obind with_defers]; try done.
  - subst neat. destruct Hf as (J & HJ & Hl). rewrite (HJ eq_refl) in Hl. cbn in Hl.
    apply (after_ok b _ (λ k _ st, if imp then pop_frame (machine k) VNil st else popped st (pop_frame (machine k)))) in Hl;
      auto with steady.
    eapply continues_leads; [exact Hl|].
    eapply continues_leads; [|by apply (pop_frame_ok n Hrun b f v)].
    assert (∀ k, (if imp then pop_frame (machine k) VNil else λ st, popped st (pop_frame (machine k)))
              (mkState (placed (length S) ip ds' f :: put_defers (D ++ E) F) (s ++ S) m') =
              of_ran (consume_popped_frame (machine k) f v (mkState (put_defers (D ++ E) F) S m'))
               (λ v st, Some (Running (push_value v st)))) as Heq.
    { intros k. destruct imp; [rewrite (Himp eq_refl)|]; subst s; cbn; unfold pop_frame, truncate; cbn;
      by rewrite bottom_app. }
    destruct imp; apply (leads_ext _ _ (λ k, f_equal (after_step (machine k) b) (Heq k))).
  - destruct Hf as (He & X & J & Hl). split; [done|]. exists (X ++ [placed (length S) ip ds' f]), (J ++ s).
    rewrite <- !app_assoc. apply after_err; auto with steady.
  - apply after_starves. done.
Qed.

(** ** A frame from its start to its end *)

Definition unwind_more I t (f : Frame) (n : nat) (v : Value) (st : State) : option (Frames.Step (W:=W)) :=
  if bool_decide (frame_id f = t) then
    Some (Raised NonLocalReturn (push_value v (truncate (stack_base f) st)))
  else unwind_to I n t v st.

Lemma unwind_step b t v f F s m :
  leads
    (λ k, after_step (machine k) b (unwind_to (machine k) k t v (mkState (f :: F) s m)))
    (λ k, after_step (machine k) b
            (of_ran (consume_popped_frame (machine k) f v (mkState F s m)) (unwind_more (machine k) t f k))).
Proof.
  assert (∀ n n' n2, n ≤ n' → n' ≤ n2 → ole
    (of_ran (consume_popped_frame (machine n') f v (mkState (W:=W) F s m)) (unwind_more (machine n') t f n))
    (of_ran (consume_popped_frame (machine n2) f v (mkState (W:=W) F s m)) (unwind_more (machine n2) t f n'))) as Hle.
  { intros n n' n2 H1 H2. apply ole_of_ran; [by apply consume_le, machine_le|]. intros v' st. unfold unwind_more.
    case_bool_decide; [done|]. apply unwind_to_le; [by apply machine_le|done]. }
  assert (∀ n x, after_step (machine n) b None = Some x → False) as Hnone by done.
  split; intros n x Hx.
  - destruct n as [|n]; [done|]. revert Hx. apply after_step_le; [done|]. cbn [unwind_to].
    by apply (Hle n (S n) (S n)); [lia|].
  - exists (S n). revert Hx. apply after_step_le; [apply machine_le; lia|]. cbn [unwind_to].
    apply (Hle n n (S n)); lia.
Qed.

Lemma steady_unwind_more t f v st : steady (λ k, unwind_more (machine k) t f k v st).
Proof.
  intros n n' Hn. unfold unwind_more. case_bool_decide; [done|]. apply unwind_to_le; [by apply machine_le|done].
Qed.
#[local] Hint Resolve steady_unwind_more : steady.

Lemma landed (I : Interp (W:=W)) b v F S m : b ≤ length F →
  after_step I b (Some (Raised NonLocalReturn (mkState F (v :: S) m))) = nested I b (mkState F (v :: S) m).
Proof. intros Hb. cbn -[Nat.ltb]. by rewrite (proj2 (Nat.ltb_ge _ _) Hb). Qed.

(** A [^^] that pops the frame. *)
Lemma catch_home_ok n (Hrun : run_ok n) b f ip ds t v m D E F S J :
  b ≤ length F →
  continues n b
    (λ k, after_step (machine k) b
            (unwind_to (machine k) k t v
               (mkState (placed (length S) ip ds f :: put_defers (D ++ E) F) (J ++ S) m)))
    (with_defers E (s_catch_home (spec n) f t v false m)) D F S.
Proof.
  intros Hb. eapply continues_leads; [apply unwind_step|]. unfold s_catch_home. cbn [andb].
  pose proof (consume_ok n Hrun f v m (D ++ E) F (J ++ S)) as Hc. pose proof (consume_shape (spec n) f v m) as Hs.
  rewrite !app_nil_r in Hc.
  destruct (s_consume (spec n) f v m) as [u ds' [] m'|e ds' m'|t' u cr m'| |]; cbn [with_defers]; try done.
  - destruct Hs as [-> _]. destruct Hc as (J' & HJ & Hl). rewrite (HJ eq_refl), app_nil_r in Hl.
    apply (after_ok b _ (λ k, unwind_more (machine k) t (placed (length S) ip ds f) k)) in Hl; auto with steady.
    unfold unwind_more in Hl |- *. cbn [frame_id placed] in Hl |- *.
    case_bool_decide; cbn [with_defers].
    + eapply continues_leads; [exact Hl|]. cbn [continues]. apply leads_ext. intros k.
      unfold truncate, push_value. cbn [app frames ostack mem stack_base placed].
      rewrite bottom_app by done.
      apply landed. by rewrite length_put_defers.
    + exists (D ++ E), J. exact Hl.
  - by destruct Hs.
  - by apply after_starves.
Qed.

(** One that has passed native code on its way. *)
Lemma catch_landing_ok n b f ip ds t v m D E F S J :
  b ≤ length F →
  continues n b
    (λ k, after_step (machine k) b (Some (Raised NonLocalReturn
            (landing t v (placed (length S) ip ds f :: put_defers (D ++ E) F) (J ++ S) m))))
    (with_defers E (s_catch_home (spec n) f t v true m)) D F S.
Proof.
  intros Hb. unfold s_catch_home, s_consume. destruct (instantiating_obj f) as [obj|] eqn:Hi; [done|]. cbn.
  change (answer_of (placed (length S) ip ds f) v) with (answer_of f v).
  change (if return_receiver f then default v (receiver f) else v) with (answer_of f v).
  case_bool_decide; cbn [with_defers].
  - cbn [continues]. apply leads_ext. intros k. rewrite bottom_app by done. apply landed.
    by rewrite length_put_defers.
  - intros Hc. exists J. rewrite landing_put_defers. apply leads_refl.
Qed.

Definition frame_ok (n : nat) : Prop := ∀ f ds ip s m F S b,
  b ≤ length F →
  frame_agrees n b (λ k, nested (machine k) b (mkState (placed (length S) ip ds f :: F) (s ++ S) m))
    (s_frame (spec n) f ds ip s m) f F S.

Lemma activate_ok n (Hrun : run_ok n) (Hframe : frame_ok n) b f m D E F S :
  b ≤ length F →
  continues n b
    (λ k, nested (machine k) b (mkState (placed (length S) 0 [] f :: put_defers (D ++ E) F) S m))
    (with_defers E (s_activate (spec n) f m)) D F S.
Proof.
  intros Hb. unfold s_activate.
  pose proof (Hframe f [] 0 [] m (put_defers (D ++ E) F) S b) as Hf. rewrite length_put_defers in Hf.
  specialize (Hf Hb).
  destruct (s_frame (spec n) f [] 0 [] m) as [v ds neat m'|e ds m'|t v [] m'| |]; cbn [with_defers]; try done.
  - destruct Hf as (ip & s & Hr & Hl). eapply continues_leads; [exact Hl|]. by apply leave_ok.
  - unfold frame_agrees in Hf. pose proof (catch_landing_ok n b f) as Hc.
    assert (clean t (f :: put_defers (D ++ E) F) → continues n b
      (λ k, nested (machine k) b (mkState (placed (length S) 0 [] f :: put_defers (D ++ E) F) S m))
      (with_defers E (s_catch_home (spec n) f t v true m')) D F S) as Hgo.
    { intros Hcl. destruct (Hf Hcl) as (J & ip & ds & Hl). eapply continues_leads; [exact Hl|]. by apply Hc. }
    clear Hc Hf. revert Hgo. unfold s_catch_home, s_consume.
    destruct (instantiating_obj f) as [obj|] eqn:Hi; [done|]. cbn [andb bool_decide is_Some].
    intros Hgo. cbn. cbn in Hgo. case_bool_decide; cbn [with_defers] in *; [apply Hgo; auto|].
    cbn [continues] in *. intros Hcl. apply Hgo; [|done]. split; [done|]. right. by rewrite clean_put_defers.
  - destruct Hf as (J & ip & ds & Hl). eapply continues_leads; [exact Hl|]. by apply catch_home_ok.
Qed.

Definition framed (mk : nat → Mem → Frame * Mem) : Prop :=
  ∀ base m, mk base m = (placed base 0 [] (mk 0 m).1, (mk 0 m).2).

Lemma begin_ok n (Hrun : run_ok n) (Hframe : frame_ok n) b mk m D E F S :
  b ≤ length F → framed mk →
  continues n b (λ k, nested (machine k) b (start mk (mkState (put_defers (D ++ E) F) S m)))
    (s_start (spec n) mk E m) D F S.
Proof.
  intros Hb Hmk. unfold start, s_start. cbn [ostack mem frames]. rewrite Hmk.
  destruct (mk 0 m) as [f m']. cbn [fst snd]. by apply activate_ok.
Qed.

Lemma resume_ok n (Hframe : frame_ok n) b c out f ip below F S :
  b ≤ length F →
  continues n b c out [] (placed (length S) ip [] f :: F) (below ++ S) →
  frame_agrees n b c (obind out (λ v ds _ m, s_frame (spec n) f ds ip (v :: below) m)) f F S.
Proof.
  intros Hb. destruct out as [v ds neat m|e ds m|t v [] m| |]; cbn [obind continues]; intros Hc; try done.
  - eapply frame_agrees_leads; [exact Hc|]. exact (Hframe f ds ip (v :: below) m F S b Hb).
  - destruct Hc as (He & X & J & Hl). split; [done|].
    exists (X ++ [placed (length S) ip ds f]), (J ++ below). by rewrite <- !app_assoc.
  - intros Hcl. destruct (Hc Hcl) as (J & Hl). exists (J ++ below), ip, []. by rewrite <- app_assoc.
  - destruct Hc as (E & J & Hl). exists (J ++ below), ip, E. by rewrite <- app_assoc.
Qed.

Lemma native_crossed {A} I (t : Native W A) : ∀ mode ds m u v cr m',
  s_native I t mode ds m = ONlr u v cr m' → cr = true.
Proof.
  induction t as [r|f k IH|r k IH|t IH|d t IH]; intros mode ds m u v cr m'; cbn.
  - destruct r as [a|[]], mode; cbn; try done; congruence.
  - apply IH.
  - destruct mode; [|done|]; destruct (neatly _) as [? [|? ?] ? ?| | | |]; try done; apply IH.
  - apply IH.
  - destruct mode; try done. apply IH.
Qed.

(** ** Calls *)

(** What a call that starts no frame pushes. *)
Definition pushes (n : nat) (c : nat → Ran ()) (out : Out (W:=W) Value) (D : list DeferredCall)
    (F : list Frame) (S : list Value) : Prop :=
  match out with
  | OVal v ds neat m =>
      ∃ J, (neat = true → J = []) ∧
        leads c (λ _, Some (Ok (), mkState (put_defers (D ++ ds) F) (v :: J ++ S) m))
  | OErr e ds m =>
      e ≠ NonLocalReturn ∧ ∃ X J,
        leads c (λ _, Some (Err e, mkState (X ++ put_defers (D ++ ds) F) (J ++ S) m))
  | ONlr t v cr m =>
      cr = true ∧ (F ≠ [] → clean t F →
      ∃ J, leads c (λ _, Some (Err NonLocalReturn, landing t v F (J ++ S) m)))
  | OMore => starves n c
  | OWild => True
  end.

Definition tidy {A} (out : Out (W:=W) A) : Prop :=
  match out with OVal _ _ neat _ => neat = true | _ => True end.

Definition moves (c : Callable W) : bool := match c with CallNative _ => true | _ => false end.

Definition calls (n : nat) (moved : bool) (c : nat → Ran ()) (out : Out (W:=W) Value) (D ds : list DeferredCall)
    (F : list Frame) (S : list Value) : Prop :=
  (moved = false ∧ ∃ mk m, framed mk ∧ out = s_start (spec n) mk ds m ∧
     leads c (λ _, Some (Ok (), start mk (mkState (put_defers (D ++ ds) F) S m)))) ∨
  (pushes n c out D F S ∧ (moved = false → tidy out)).

Lemma raise_pushes n (c : nat → Ran ()) e ds m D F S :
  leads c (λ _, Some (Err e, mkState (put_defers (D ++ ds) F) S m)) →
  pushes n c (raise e ds m) D F S ∧ (false = false → tidy (raise (A:=Value) e ds m)).
Proof. intros Hc. destruct e; cbn; try done; (split; [|done]); (split; [done|]); by exists [], []. Qed.

Lemma new_frame_framed b home binds inst rx : framed (new_frame (W:=W) b home binds inst rx).
Proof. done. Qed.
#[local] Hint Resolve new_frame_framed : steady.

Lemma new_no_block_ok n (Hrun : run_ok n) obj ds m D F S :
  pushes n
    (λ k, match native (machine k) (run_all_inits obj)
                  (push_value (VObject obj) (mkState (put_defers (D ++ ds) F) S m)) with
          | Some (Err e, st) => Some (Err e, match pop_value st with Some (_, st) => st | None => st end)
          | r => r
          end)
    (obind (neatly (no_nlr (s_clean (spec n) (run_all_inits obj) ds m)))
       (λ _ ds neat m, OVal (VObject obj) ds neat m)) D F S.
Proof.
  pose proof (clean_ok n Hrun (run_all_inits obj) ds m D F (VObject obj :: S)) as Hn.
  change (push_value (VObject obj) (mkState (put_defers (D ++ ds) F) S m))
    with (mkState (put_defers (D ++ ds) F) (VObject obj :: S) m).
  set (G := λ (x : Ran ()), match x with
      | Some (Ok a, st) => Some (Ok a, st)
      | Some (Err e, st) => Some (Err e, match pop_value st with Some (_, st) => st | None => st end)
      | None => None
      end).
  assert (∀ c d, leads c d → steady c → leads (λ j, G (c j)) (λ j, G (d j))) as HG.
  { intros c d Hl Hc. apply (leads_strict (λ _ x, G x)); try done. intros p. apply steady_const. }
  destruct (s_clean (spec n) _ ds m) as [[] ds' [] m'|e ds' m'|t v cr m'| |]; cbn [no_nlr neatly obind]; try done.
  - destruct Hn as (J & HJ & Hl). rewrite (HJ eq_refl) in Hl. exists []. split; [done|].
    refine (HG _ _ Hl _). auto with steady.
  - destruct Hn as (He & X & J & Hl). split; [done|]. exists X.
    destruct J as [|u J]; [exists []|exists (J ++ [VObject obj]); rewrite <- app_assoc];
      (eapply leads_trans; [refine (HG _ _ Hl _); auto with steady|apply leads_refl]).
  - apply (starves_strict (λ _ x, G x)); done.
Qed.

Lemma call_ok n (Hrun : run_ok n) c rx args ds m D F S :
  calls n (moves c) (λ k, call (machine k) c rx args (mkState (put_defers (D ++ ds) F) S m))
    (s_call (spec n) c rx args ds m) D ds F S.
Proof.
  destruct c as [b|p|p|p|func]; cbn [call s_call mem].
  - left. split; [done|]. exists (start_block_as_method b rx args true), m. split_and!; [done..|]. apply leads_refl.
  - right. split; [|done]. exists []. split; [done|]. apply leads_refl.
  - destruct (ensure_instantiable p (m_world m)) as [[]|e]; [|right; apply raise_pushes, leads_refl].
    destruct args as [|arg [|? ?]]; [right; apply raise_pushes, leads_refl| |right; apply raise_pushes, leads_refl].
    destruct (block_of arg (m_world m)) as [b|]; [|right; apply raise_pushes, leads_refl].
    unfold instantiate, s_instantiate. cbn [mem]. destruct (new_instance p (m_world m)) as [obj w].
    left. split; [done|]. exists (start_block_for_instantiation b obj), (set_world w m). split_and!; [done..|]. apply leads_refl.
  - right. destruct (ensure_instantiable p (m_world m)) as [[]|e]; [|apply raise_pushes, leads_refl].
    destruct args; [|apply raise_pushes, leads_refl].
    unfold instantiate, s_instantiate. cbn [mem]. destruct (new_instance p (m_world m)) as [obj w].
    split; [by apply new_no_block_ok|]. by destruct (s_clean _ _ _ _) as [? ? [] ?|? ? ?|? ? ? ?| |].
  - right. split; [|done]. pose proof (clean_ok n Hrun (func rx args) ds m D F S) as Hn.
    pose proof (native_crossed (spec n) (func rx args) (Clean true) ds m) as Hcr.
    unfold s_clean in *.
    destruct (s_native (spec n) (func rx args) (Clean true) ds m) as [v ds' neat m'|e ds' m'|t v cr m'| |]; try done.
    + destruct Hn as (J & HJ & Hl). exists J. split; [done|].
      apply (ran_bind_leads _ (λ _ v st, Some (Ok (), push_value v st))) in Hl; auto with steady.
    + destruct Hn as (He & X & J & Hl). split; [done|]. exists X, J. apply ran_bind_err; auto with steady.
    + split; [by eapply Hcr|]. intros HF Hc. destruct (Hn HF Hc) as (J & Hl). exists J.
      apply ran_bind_err; auto with steady.
    + by apply ran_bind_starves.
Qed.

(** ** From native code *)

Lemma unwind_leads t v F s m :
  clean t F →
  leads (λ k, unwind_to (machine k) k t v (mkState F s m)) (λ _, Some (Raised NonLocalReturn (landing t v F s m))).
Proof.
  intros Hc. split.
  - intros k x Hx. eapply (unwind_to_le _ _ (machine_le k (k + Datatypes.S (length F)) ltac:(lia)) k (k + Datatypes.S (length F))) in Hx;
      [|lia]. by rewrite unwind_clean in Hx by (done || lia).
  - intros k x [= <-]. exists (Datatypes.S (length F)). apply unwind_clean; [done|lia].
Qed.

Lemma landing_below b I t v F s m : F ≠ [] → b = length F →
  after_step I b (Some (Raised NonLocalReturn (landing t v F s m))) = Some (Err NonLocalReturn, landing t v F s m).
Proof.
  intros HF ->. pose proof (landing_shorter t v F s m HF). cbn -[Nat.ltb]. by rewrite (proj2 (Nat.ltb_lt _ _)).
Qed.

(** What is started from native code runs to its end. *)
Lemma started_ok n (Hrun : run_ok n) (Hframe : frame_ok n) mk ds m D F S :
  framed mk →
  agrees n (λ k, run_started (machine k) mk (mkState (put_defers (D ++ ds) F) S m))
    (s_start (spec n) mk ds m) D F S.
Proof.
  intros Hmk. unfold run_started. cbn [frames]. rewrite length_put_defers.
  pose proof (begin_ok n Hrun Hframe (length F) mk m D ds F S (le_n _) Hmk) as Hs.
  set (c := λ k, nested (machine k) (length F) (start mk (mkState (put_defers (D ++ ds) F) S m))) in *.
  change (agrees n (λ k, ran_bind (c k) (λ _, pop_result)) (s_start (spec n) mk ds m) D F S).
  assert (steady c) as Hc by apply steady_nested. clearbody c.
  destruct (s_start (spec n) mk ds m) as [v ds' neat m'|e ds' m'|t v [] m'| |]; cbn [agrees continues] in *; try done.
  - exists []. split; [done|].
    assert (leads c (λ _, Some (Ok (), mkState (put_defers (D ++ ds') F) (v :: S) m'))) as Hl.
    { eapply leads_trans; [exact Hs|]. apply nested_done. cbn. by rewrite length_put_defers. }
    apply (ran_bind_leads _ (λ _ _, pop_result)) in Hl; auto with steady.
  - destruct Hs as (He & X & J & Hl). split; [done|]. exists X, J. apply ran_bind_err; auto with steady.
  - intros HF Hcl. destruct (Hs Hcl) as (J & Hl). exists J. apply ran_bind_err; auto with steady.
    eapply leads_trans; [exact Hl|]. apply leads_ext. intros k. by apply landing_below.
  - intros HF Hcl. destruct Hs as (E & J & Hl). exists J. apply ran_bind_err; auto with steady.
    eapply leads_trans; [exact Hl|].
    eapply leads_trans; [apply (leads_strict (λ k x, after_step (machine k) (length F) x) _
                                  (λ _, Some (Raised NonLocalReturn (landing t v F (J ++ S) m'))))|].
    + done.
    + intros p. apply steady_after_step.
    + apply steady_unwind.
    + rewrite <- (landing_put_defers t v E F (J ++ S) m'). apply unwind_leads. by rewrite clean_put_defers.
    + apply leads_ext. intros k. by apply landing_below.
  - by apply ran_bind_starves.
Qed.

Lemma agrees_neatly {A} n (c : nat → Ran A) out D F S : agrees n c out D F S → agrees n c (neatly out) D F S.
Proof. by destruct out as [? ? []| | | |]. Qed.

Lemma method_ok n (Hrun : run_ok n) (Hframe : frame_ok n) c rx args ds m D F S :
  agrees n (λ k, call_method_inner (machine k) c rx args (mkState (put_defers (D ++ ds) F) S m))
    (s_method (spec n) c rx args ds m) D F S.
Proof.
  destruct c as [c|]; cbn [call_method_inner s_method frames]; [|by exists []; split; [|apply leads_refl]].
  rewrite length_put_defers. apply agrees_neatly.
  set (K := λ k (_ : ()) (st : State), ran_bind (nested (machine k) (length F) st) (λ _, pop_result)).
  assert (∀ a st, steady (λ k, K k a st)) as HK.
  { intros a st n' n'' Hn. apply ole_ran_bind; [by apply steady_nested|done]. }
  assert (steady (λ k, call (machine k) c rx args (mkState (put_defers (D ++ ds) F) S m))) as Hst.
  { intros n' n'' Hn. by apply call_le, machine_le. }
  destruct (call_ok n Hrun c rx args ds m D F S) as [(_ & mk & m' & Hmk & -> & Hl)|[Hc _]].
  - eapply agrees_leads; [apply (ran_bind_leads _ K Hst HK) in Hl; exact Hl|].
    unfold K. eapply agrees_leads; [|by apply started_ok].
    apply leads_ext. intros k. unfold run_started. cbn [frames]. by rewrite length_put_defers.
  - destruct (s_call (spec n) c rx args ds m) as [v ds' neat m'|e ds' m'|t v cr m'| |]; try done.
    + destruct Hc as (J & HJ & Hl). exists J. split; [done|].
      apply (ran_bind_leads _ K Hst HK) in Hl. eapply leads_trans; [exact Hl|]. unfold K.
      eapply leads_trans; [eapply (ran_bind_leads _ (λ _ _, pop_result) (steady_nested _ _) (λ _ _, steady_const _) ()
                                            (mkState (put_defers (D ++ ds') F) (v :: J ++ S) m'))|apply leads_refl].
      apply nested_done. cbn. by rewrite length_put_defers.
    + destruct Hc as (He & X & J & Hl). split; [done|]. exists X, J. by apply (ran_bind_err _ K).
    + destruct Hc as (_ & Hc). intros HF Hcl. destruct (Hc HF Hcl) as (J & Hl). exists J. by apply (ran_bind_err _ K).
    + by apply ran_bind_starves.
Qed.

Lemma reentered_ok n (g : nat → State → Ran Value) k ds m D F S :
  (∀ st, steady (λ j, g j st)) →
  (∀ m, agrees n (λ j, g j (mkState (put_defers (D ++ ds) F) S m)) (k m) D F S) →
  agrees n (λ j, reentered (g j) (mkState (put_defers (D ++ ds) F) S m)) (s_reentered ds k m) D F S.
Proof.
  intros Hg Hk. unfold reentered, s_reentered. cbn [mem]. destruct (MAX_NATIVE_REENTRY <=? m_reentry m).
  { split; [done|]. exists [], []. apply leads_refl. }
  specialize (Hk (set_reentry (Datatypes.S (m_reentry m)) m)). unfold set_mem at 1. cbn [frames ostack].
  set (G := λ (x : Ran Value),
    match x with Some (r, st) => Some (r, set_mem (leave_native (mem st)) st) | None => None end).
  change (agrees n (λ j, G (g j (mkState (put_defers (D ++ ds) F) S (set_reentry (Datatypes.S (m_reentry m)) m))))
    (match k (set_reentry (Datatypes.S (m_reentry m)) m) with
     | OVal v ds neat m => OVal v ds neat (leave_native m)
     | OErr e ds m => OErr e ds (leave_native m)
     | ONlr t v _ m => ONlr t v true (leave_native m)
     | x => x
     end) D F S).
  set (c := λ j, g j (mkState (put_defers (D ++ ds) F) S (set_reentry (Datatypes.S (m_reentry m)) m))) in *.
  change (λ j, G (g j _)) with (λ j, G (c j)).
  assert (∀ d, leads c d → leads (λ j, G (c j)) (λ j, G (d j))) as HG.
  { intros d Hl. apply (leads_strict (λ _ x, G x)); try done; [intros p; apply steady_const|apply Hg]. }
  destruct (k _) as [v ds' neat m'|e ds' m'|t v cr m'| |]; cbn [agrees] in *; try done.
  - destruct Hk as (J & HJ & Hl). exists J. split; [done|]. exact (HG _ Hl).
  - destruct Hk as (He & X & J & Hl). split; [done|]. exists X, J. exact (HG _ Hl).
  - intros HF Hcl. destruct (Hk HF Hcl) as (J & Hl). exists J. eapply leads_trans; [exact (HG _ Hl)|].
    apply leads_ext. intros j. cbn. by rewrite landing_mem, mem_landing.
  - by apply (starves_strict (λ _ x, G x)).
Qed.

Lemma agrees_succ {A} n (c d : nat → Ran A) out D F S :
  c 0 = None → (∀ k, c (Datatypes.S k) = d k) → steady d →
  agrees n d out D F S → agrees (Datatypes.S n) c out D F S.
Proof.
  intros H0 HS Hd Ha. destruct out; [..|by eapply starves_succ|done];
    (eapply (agrees_leads _ c d) in Ha; [exact Ha|by apply leads_succ]).
Qed.

Lemma frame_agrees_succ n b (c d : nat → Ran ()) out f F S :
  c 0 = None → (∀ k, c (Datatypes.S k) = d k) → steady d →
  frame_agrees n b d out f F S → frame_agrees (Datatypes.S n) b c out f F S.
Proof.
  intros H0 HS Hd Ha. destruct out as [| |? ? []| |]; try done; [..|by eapply starves_succ];
    (eapply (frame_agrees_leads _ _ c d) in Ha; [exact Ha|by apply leads_succ]).
Qed.

Lemma method_call_ok n (Hrun : run_ok n) (Hframe : frame_ok n) rx sel args ds m D F S :
  agrees n
    (λ k, ran_bind (native (machine k) (lookup_method rx sel args) (mkState (put_defers (D ++ ds) F) S m))
            (λ c, call_method_inner (machine k) c rx args))
    (obind (neatly (s_clean (spec n) (lookup_method rx sel args) ds m))
       (λ c ds _, s_method (spec n) c rx args ds)) D F S.
Proof.
  pose proof (clean_ok n Hrun (lookup_method rx sel args) ds m D F S) as Hl.
  assert (∀ c st, steady (λ k, call_method_inner (machine k) c rx args st)) as Hst.
  { intros c st i j Hij. by apply call_method_inner_le, machine_le. }
  destruct (s_clean (spec n) _ ds m) as [c ds' [] m'|e ds' m'|t v cr m'| |]; cbn [neatly obind]; try done.
  - destruct Hl as (J & HJ & Hl). rewrite (HJ eq_refl) in Hl. eapply agrees_leads; [|by apply method_ok].
    apply (ran_bind_leads _ (λ k c, call_method_inner (machine k) c rx args)) in Hl; auto with steady.
  - destruct Hl as (He & X & J & Hl). split; [done|]. exists X, J.
    apply (ran_bind_err _ (λ k c, call_method_inner (machine k) c rx args)); auto with steady.
  - intros HF Hcl. destruct (Hl HF Hcl) as (J & Hl'). exists J.
    apply (ran_bind_err _ (λ k c, call_method_inner (machine k) c rx args)); auto with steady.
  - by apply (ran_bind_starves _ (λ k c, call_method_inner (machine k) c rx args)).
Qed.

Lemma run_ok_succ n : run_ok n → frame_ok n → run_ok (Datatypes.S n).
Proof.
  intros Hrun Hframe r ds m D F S. apply (agrees_succ _ _ (λ k, run_call_body (machine k) r
    (mkState (put_defers (D ++ ds) F) S m))); [done|done|apply steady_run_body|]. cbn [spec s_run].
  destruct r as [b args [rx|]|b rx outer args|rx sel args|rx mv sel args]; cbn [run_call_body s_run_body].
  - by apply started_ok.
  - by apply started_ok.
  - by apply started_ok.
  - apply (reentered_ok n (λ k st, ran_bind (native (machine k) (lookup_method rx sel args) st)
        (λ c, call_method_inner (machine k) c rx args))).
    + intros st i j Hij. apply ole_ran_bind; [by apply native_le, machine_le|]. intros c s.
      by apply call_method_inner_le, machine_le.
    + intros m'. by apply method_call_ok.
  - apply (reentered_ok n (λ k st,
      call_method_inner (machine k) (method_of mv sel (m_world (mem st))) rx args st)).
    + intros st i j Hij. by apply call_method_inner_le, machine_le.
    + intros m'. by apply method_ok.
Qed.

(** ** Sending *)

Lemma called_ok n (Hrun : run_ok n) (Hframe : frame_ok n) b c out ds F S :
  b ≤ length F → F ≠ [] → steady c → calls n false c out [] ds F S →
  continues n b (λ k, after_step (machine k) b (of_ran (c k) (λ _ st, Some (Running st)))) out [] F S.
Proof.
  intros Hb HF Hc [(_ & mk & m & Hmk & -> & Hl)|[Hp Ht]].
  - eapply continues_leads; [eapply (after_ok b _ (λ _ _ st, Some (Running st))); [done| |exact Hl]; auto with steady|].
    cbn [after_step]. by apply begin_ok.
  - specialize (Ht eq_refl). destruct out as [v ds' neat m|e ds' m|t v cr m| |]; cbn [continues pushes tidy] in *; try done.
    + destruct Hp as (J & HJ & Hl). rewrite (HJ Ht) in Hl.
      apply (after_ok b _ (λ _ _ st, Some (Running st))) in Hl; auto with steady.
    + destruct Hp as (He & X & J & Hl). split; [done|]. exists X, J. apply after_err; auto with steady.
    + destruct Hp as (-> & Hp). intros Hcl. destruct (Hp HF Hcl) as (J & Hl). exists J.
      apply (after_nlr b c (λ _ _ st, Some (Running st))); auto with steady.
    + by apply after_starves.
Qed.

Lemma steady_call c rx args st : steady (λ k, call (machine k) c rx args st).
Proof. intros n n' Hn. by apply call_le, machine_le. Qed.
#[local] Hint Resolve steady_call : steady.

(** The answer of a native goes over the window of its call, with what else it left. *)
Lemma native_dispatch_ok n (Hrun : run_ok n) b func rx args ds m F S J0 :
  F ≠ [] →
  continues n b
    (λ k, after_step (machine k) b
            (dispatch_send_rooted (machine k) (CallNative func) rx args (length S)
               (mkState (put_defers ds F) (J0 ++ S) m)))
    (s_call (spec n) (CallNative func) rx args ds m) [] F S.
Proof.
  intros HF. cbn [dispatch_send_rooted].
  set (G := λ (k : nat) (x : Ran ()), after_step (machine k) b
    (match x with
     | Some (Ok _, st) =>
         if length S <? length (ostack st) then
           popped st (λ v st, Some (Running (push_value v (truncate (length S) st))))
         else Some (Running st)
     | Some (Err NonLocalReturn, st) => Some (Raised NonLocalReturn st)
     | Some (Err e, st) => Some (Raised e (truncate (length S) st))
     | None => None
     end)).
  set (c := λ k, call (machine k) (CallNative func) rx args (mkState (put_defers ([] ++ ds) F) (J0 ++ S) m)).
  change (continues n b (λ k, G k (c k)) (s_call (spec n) (CallNative func) rx args ds m) [] F S).
  assert (∀ d, leads c d → leads (λ k, G k (c k)) (λ k, G k (d k))) as HG.
  { intros d Hl. apply (leads_strict G); [done|intros p; apply steady_after_step|apply steady_call|done]. }
  destruct (call_ok n Hrun (CallNative func) rx args ds m [] F (J0 ++ S)) as [[? _]|[Hp _]];
    [done|].
  fold c in Hp.
  destruct (s_call (spec n) (CallNative func) rx args ds m) as [v ds' neat m'|e ds' m'|t v cr m'| |];
    cbn [continues pushes] in *; try done.
  - destruct Hp as (J & _ & Hl). eapply leads_trans; [exact (HG _ Hl)|]. apply leads_ext. intros k. unfold G.
    cbn [ostack]. rewrite (proj2 (Nat.ltb_lt _ _)) by (cbn; rewrite !length_app; lia).
    unfold popped, pop_value, truncate, push_value. cbn [ostack frames mem].
    rewrite app_assoc. by rewrite bottom_app.
  - destruct Hp as (He & X & J & Hl). split; [done|]. exists X, []. eapply leads_trans; [exact (HG _ Hl)|].
    apply leads_ext. intros k. unfold G, truncate. cbn [ostack frames mem].
    rewrite app_assoc, bottom_app by done. destruct e; done.
  - destruct Hp as (-> & Hp). intros Hcl. destruct (Hp HF Hcl) as (J & Hl). exists (J ++ J0).
    rewrite <- app_assoc. eapply leads_trans; [exact (HG _ Hl)|]. apply leads_refl.
  - by apply (starves_strict G).
Qed.

Lemma dispatch_ok n (Hrun : run_ok n) (Hframe : frame_ok n) b c rx args ds m F S J :
  b ≤ length F → F ≠ [] →
  continues n b
    (λ k, after_step (machine k) b
            (dispatch_send_rooted (machine k) c rx args (length S) (mkState (put_defers ds F) (J ++ S) m)))
    (s_call (spec n) c rx args ds m) [] F S.
Proof.
  intros Hb HF. destruct (moves c) eqn:Hc; [destruct c; try done; by apply native_dispatch_ok|].
  pose proof (call_ok n Hrun c rx args ds m [] F S) as Hk. rewrite Hc in Hk.
  eapply continues_leads; [|refine (called_ok n Hrun Hframe b _ _ _ _ _ Hb HF _ Hk); apply steady_call].
  apply leads_ext. intros k. unfold dispatch_send_rooted, truncate. cbn [ostack frames mem].
  rewrite bottom_app by done. by destruct c.
Qed.

Lemma take_args_above num s S args rx below :
  take_args num s = Some (args, rx :: below) →
  take_args num (s ++ S) = Some (args, rx :: below ++ S) ∧ ∃ win, s = win ++ below.
Proof.
  unfold take_args. destruct (decide (num ≤ length s)) as [Hn|]; [|done]. intros [= <- Hd].
  rewrite decide_True by (rewrite length_app; lia). split.
  - by rewrite take_app_le, drop_app_le, Hd by done.
  - exists (take num s ++ [rx]). rewrite <- app_assoc. cbn. by rewrite <- Hd, take_drop.
Qed.

Lemma send_ok n (Hrun : run_ok n) (Hframe : frame_ok n) b sel num args rx below f ip ds s m F S :
  b ≤ length F → take_args num s = Some (args, rx :: below) →
  continues n b
    (λ k, after_step (machine k) b
            (exec_send (machine k) sel num (mkState (placed (length S) ip ds f :: F) (s ++ S) m)))
    (s_send (spec n) sel rx args ds m) [] (placed (length S) (Datatypes.S ip) [] f :: F) (below ++ S).
Proof.
  intros Hb Ha. destruct (take_args_above num s S args rx below Ha) as (Ha' & win & ->).
  set (F1 := placed (length S) (Datatypes.S ip) [] f :: F).
  assert (b ≤ length F1) as Hb1 by (cbn; lia). assert (F1 ≠ []) as HF1 by done.
  unfold exec_send, s_send. cbn [ostack mem]. rewrite Ha'.
  change (advance (mkState (placed (length S) ip ds f :: F) ((win ++ below) ++ S) m))
    with (mkState (put_defers ([] ++ ds) F1) ((win ++ below) ++ S) m).
  rewrite <- (app_assoc win). cbn [mem].
  assert (∀ X J (m' : Mem), truncate (length (below ++ S)) (mkState X (J ++ below ++ S) m') = mkState X (below ++ S) m') as Htr.
  { intros X J m'. unfold truncate. cbn [ostack frames mem]. by rewrite bottom_app. }
  destruct (if is_value_selector sel then block_of rx (m_world m) else None) as [blk|].
  { cbn [after_step]. rewrite Htr. by apply begin_ok. }
  pose proof (clean_ok n Hrun (lookup_method rx sel args) ds m [] F1 (win ++ below ++ S)) as Hl.
  set (c := λ k, native (machine k) (lookup_method rx sel args) (mkState (put_defers ([] ++ ds) F1) (win ++ below ++ S) m)) in *.
  set (G := λ (k : nat) (x : Ran (option (Callable W))), after_step (machine k) b
    (match x with
     | Some (Ok (Some c), st) => dispatch_send_rooted (machine k) c rx args (length (below ++ S)) st
     | Some (Ok None, st) =>
         Some (Raised (not_understood rx sel args (m_world (mem st))) (truncate (length (below ++ S)) st))
     | Some (Err e, st) => Some (Raised e (truncate (length (below ++ S)) st))
     | None => None
     end)).
  change (continues n b (λ k, G k (c k)) (obind (no_nlr (s_clean (spec n) (lookup_method rx sel args) ds m))
    (λ c ds _ m, match c with
                 | Some c => s_call (spec n) c rx args ds m
                 | None => raise (not_understood rx sel args (m_world m)) ds m
                 end)) [] F1 (below ++ S)).
  assert (∀ d, leads c d → leads (λ k, G k (c k)) (λ k, G k (d k))) as HG.
  { intros d Hd. apply (leads_strict G); [done| |apply steady_clean|done].
    intros [[[cc|]|e] st]; unfold G; [|apply steady_after_step..].
    intros i j Hij. apply after_step_le; [by apply machine_le|]. by apply dispatch_send_rooted_le, machine_le. }
  destruct (s_clean (spec n) (lookup_method rx sel args) ds m) as [[cc|] ds' neat m'|e ds' m'|t v cr m'| |];
    cbn [no_nlr obind]; try done.
  - destruct Hl as (J & _ & Hl). eapply continues_leads; [exact (HG _ Hl)|]. unfold G.
    rewrite app_assoc. by apply dispatch_ok.
  - destruct Hl as (J & _ & Hl). apply (raise_continues _ _ _ _ _ _ [] []). intros He.
    eapply leads_trans; [exact (HG _ Hl)|]. apply leads_ext. intros k. unfold G.
    rewrite (app_assoc J), Htr. cbn [mem]. by rewrite after_raised.
  - destruct Hl as (He & X & J & Hl). split; [done|]. exists X, [].
    eapply leads_trans; [exact (HG _ Hl)|]. apply leads_ext. intros k. unfold G.
    rewrite (app_assoc J), Htr. by rewrite after_raised.
  - by apply (starves_strict G).
Qed.

(** ** Instructions *)

Section instruction.
Context (n b : nat) (Hrun : run_ok n) (Hframe : frame_ok n) (f : Frame) (F : list Frame) (S : list Value).
Context (Hb : b ≤ length F) (ds : list DeferredCall) (ip : nat) (s : list Value) (m : Mem).
Abbreviation top := (placed (length S) ip ds f).
Abbreviation here := (mkState (top :: F) (s ++ S) m).

Lemma go_on_ok c ip' ds' s' m' :
  leads c (λ k, nested (machine k) b (mkState (placed (length S) ip' ds' f :: F) (s' ++ S) m')) →
  frame_agrees n b c (s_frame (spec n) f ds' ip' s' m') f F S.
Proof using Hb Hframe. intros Hl. eapply frame_agrees_leads; [exact Hl|]. by apply Hframe. Qed.

Lemma fail_ok c e ds' m' J :
  (∀ k, c k = after_step (machine k) b (Some (Raised e (mkState (placed (length S) ip ds' f :: F) (J ++ S) m')))) →
  frame_agrees n b c (raise e ds m') f F S.
Proof using.
  intros Hc. apply (raise_frame _ _ _ _ _ _ [placed (length S) ip ds' f] J). intros He.
  apply leads_ext. intros k. rewrite Hc. by rewrite after_raised.
Qed.

Lemma perform_ok i num leaves :
  frame_agrees n b (λ k, after_step (machine k) b (perform_other (machine k) top i num leaves here))
    (s_perform (spec n) f ds ip s m i num leaves) f F S.
Proof using Hb Hframe Hrun.
  unfold perform_other, s_perform. cbn [ostack frames mem].
  destruct (take_args num s) as [[args below]|] eqn:Ha; [|done].
  assert (take_args num (s ++ S) = Some (args, below ++ S)) as ->.
  { revert Ha. unfold take_args. destruct (decide _) as [Hn|]; [|done]. intros [= <- <-].
    rewrite decide_True by (rewrite length_app; lia). by rewrite take_app_le, drop_app_le. }
  pose proof (clean_ok n Hrun (perform i args (frame_info f)) ds m [] (placed (length S) ip [] f :: F) (below ++ S)) as Hn.
  pose proof (native_crossed (spec n) (perform i args (frame_info f)) (Clean true) ds m) as Hcr.
  set (k0 := λ (_ : nat) v (st : State), Some (Running (advance (if leaves then push_value v st else st)))).
  assert (∀ v st, steady (λ j, k0 j v st)) as Hk0 by (by intros v st ? ? _).
  unfold s_clean in *.
  destruct (s_native (spec n) _ _ ds m) as [v ds' [] m'|e ds' m'|t v cr m'| |]; cbn [neatly obind]; try done.
  - destruct Hn as (J & HJ & Hl). rewrite (HJ eq_refl) in Hl. apply go_on_ok.
    apply (after_ok b _ k0) in Hl; auto with steady. eapply leads_trans; [exact Hl|]. unfold k0.
    apply leads_ext. intros k. by destruct leaves.
  - destruct Hn as (He & X & J & Hl). split; [done|]. exists (X ++ [placed (length S) ip ds' f]), (J ++ below).
    rewrite <- !app_assoc. by apply (after_err b _ k0); auto with steady.
  - rewrite (Hcr _ _ _ _ eq_refl) in *. intros Hcl. destruct (Hn ltac:(done) Hcl) as (J & Hl).
    exists (J ++ below), ip, []. rewrite <- app_assoc. by apply (after_nlr b _ k0); auto with steady.
  - by apply (after_starves b _ k0).
Qed.

(** The frame of the body is marked once it is there. *)
Definition class_frame (pending : option NamespacedName) (g : Frame) : Frame :=
  mkCallFrame (frame_id g) (enclosing_method_id g) (block g) (frame_ip g) (env g) (instantiating_obj g)
    (receiver g) (stack_base g) true (defers g) pending.

Lemma class_started_ok self_val blk below g m1 pending w :
  start_block_as_method blk self_val [] false 0 m = (g, m1) →
  take_pending_class (m_world m1) = (pending, w) →
  frame_agrees n b
    (λ k, after_step (machine k) b
       (let st := start (start_block_as_method blk self_val [] false) (advance (mkState (top :: F) (below ++ S) m)) in
        let '(pending, w) := take_pending_class (m_world (mem st)) in
        match frames st with
        | body :: rest =>
            Some (Running (mkState (class_frame pending body :: rest) (ostack st) (set_world w (mem st))))
        | [] => None
        end))
    (obind (with_defers ds (s_activate (spec n) (class_frame pending g) (set_world w m1)))
       (λ v ds _ m, s_frame (spec n) f ds (Datatypes.S ip) (v :: below) m)) f F S.
Proof using Hb Hframe Hrun.
  intros Hg Hw. apply resume_ok; [done|done|].
  assert (framed (start_block_as_method (W:=W) blk self_val [] false)) as Hfr by done.
  change (advance (mkState (top :: F) (below ++ S) m))
    with (mkState (placed (length S) (Datatypes.S ip) ds f :: F) (below ++ S) m).
  unfold start. cbn [ostack mem frames]. rewrite Hfr, Hg. cbn [fst snd mem frames ostack]. rewrite Hw.
  eapply continues_leads; [|apply (activate_ok n Hrun Hframe b (class_frame pending g) (set_world w m1) [] ds); cbn; lia].
  apply leads_refl.
Qed.

Lemma class_body_ok :
  frame_agrees n b (λ k, after_step (machine k) b (execute_block_with_self here))
    (s_class_body (spec n) f ds ip s m) f F S.
Proof using Hb Hframe Hrun.
  unfold execute_block_with_self, s_class_body. destruct s as [|block_val [|self_val below]]; [done..|].
  unfold popped, pop_value. cbn [app ostack frames mem].
  destruct self_val; try (by apply (fail_ok _ _ ds _ below)).
  all: destruct (block_of block_val (m_world m)) as [blk|]; [|by apply (fail_ok _ _ ds _ below)].
  all: match goal with |- context [start_block_as_method ?bk ?v [] false 0 m] =>
         pose proof (class_started_ok v bk below) as Hstart;
         destruct (start_block_as_method bk v [] false 0 m) as [g m1] eqn:Hg
       end;
    destruct (take_pending_class (m_world m1)) as [pending w] eqn:Hw; exact (Hstart g m1 pending w eq_refl Hw).
Qed.
Lemma local_ok i :
  demand i ≤ length s → is_local i = true → send_of f i (operands s m) = None →
  frame_agrees n b (λ k, after_step (machine k) b (execute_local top i here)) (s_local (spec n) f ds ip s m i) f F S.
Proof using Hb Hframe.
  intros Hd Hl Hs. unfold execute_local, s_local.
  change (@execute W (own_objects top) (frame_info top) (frame_ip top) i (vm_of here))
    with (@execute W (own_objects f) (frame_info f) ip i (mkVm (s ++ S) (m_envs m) (m_world m))).
  rewrite (execute_above f S s (m_envs m) (m_world m) i ip Hd Hl Hs).
  fold (operands s m). destruct (@execute W (own_objects f) _ ip i (operands s m)) as [ip' vm|? e h w| | | |];
    cbn [above_config]; try done.
  - apply go_on_ok. apply leads_refl.
  - by apply (fail_ok _ _ ds _ s).
Qed.

Lemma method_return_ok :
  frame_agrees n b (λ k, after_step (machine k) b (method_return (machine k) k top here))
    (s_method_return f ds s m) f F S.
Proof using.
  unfold method_return, s_method_return. destruct s as [|v below]; [done|].
  unfold popped, pop_value. cbn [app ostack frames mem enclosing_method_id placed].
  destruct (enclosing_method_id f) as [t|].
  - exists below, ip, ds. apply leads_refl.
  - by apply (fail_ok _ _ ds _ below).
Qed.

Lemma sends_ok i sel num vm :
  demand i ≤ length s → send_of f i (operands s m) = Some (sel, num, vm) →
  frame_agrees n b (λ k, after_step (machine k) b (execute_instruction (machine k) top k i here))
    (match take_args num (stack vm) with
     | Some (args, rx :: below) =>
         obind (s_send (spec n) sel rx args ds (set_heap (envs vm, world vm) m))
           (λ v ds _ m, s_frame (spec n) f ds (Datatypes.S ip) (v :: below) m)
     | _ => OWild
     end) f F S.
Proof using Hb Hframe Hrun.
  intros Hd Hs. pose proof (send_of_above f S s (m_envs m) (m_world m) i Hd) as Ha. fold (operands s m) in Ha.
  rewrite Hs in Ha. destruct Ha as [Ha _]. unfold execute_instruction.
  change (send_of top i (vm_of here)) with (send_of f i (mkVm (s ++ S) (m_envs m) (m_world m))). rewrite Ha.
  destruct (take_args num (stack vm)) as [[args [|rx below]]|] eqn:Ht; [done| |done].
  apply resume_ok; [done|done|]. by apply (send_ok n Hrun Hframe b sel num args rx below f ip ds (stack vm)).
Qed.

Definition ends (i : Instruction) : bool := match i with Return | BlockReturn => true | _ => false end.

Lemma instruction_ok i :
  ends i = false →
  frame_agrees n b (λ k, after_step (machine k) b (execute_instruction (machine k) top k i here))
    (s_instruction (spec n) f ds ip s m i) f F S.
Proof using Hb Hframe Hrun.
  intros Hi. unfold s_instruction. destruct (length s <? demand i) eqn:Hd; [done|].
  apply Nat.ltb_ge in Hd. destruct (send_of f i (operands s m)) as [[[sel num] vm]|] eqn:Hs; [by apply sends_ok|].
  assert (∀ k, execute_instruction (machine k) top k i here =
    match i with
    | Return | BlockReturn => leave_frame (machine k) false top here
    | MethodReturn => method_return (machine k) k top here
    | Yeet => popped here (λ v st, Some (YeetedTo v (set_frames [] st)))
    | ExecuteBlockWithSelf => execute_block_with_self here
    | _ => match effect i with
           | Some (num, leaves) => perform_other (machine k) top i num leaves here
           | None => execute_local top i here
           end
    end) as He.
  { intros k. unfold execute_instruction.
    change (send_of top i (vm_of here)) with (send_of f i (mkVm (s ++ S) (m_envs m) (m_world m))).
    pose proof (send_of_above f S s (m_envs m) (m_world m) i Hd) as Ha. fold (operands s m) in Ha.
    rewrite Hs in Ha. by rewrite Ha. }
  eapply frame_agrees_leads; [apply leads_ext; intros k; rewrite He; reflexivity|]. clear He.
  destruct i; try done; cbn [effect];
    first [apply method_return_ok|apply class_body_ok|apply perform_ok|by apply local_ok].
Qed.
End instruction.

Lemma frame_ok_succ n : run_ok n → frame_ok n → frame_ok (Datatypes.S n).
Proof.
  intros Hrun Hframe f ds ip s m F S b Hb. cbn [spec s_frame].
  set (st := mkState (placed (length S) ip ds f :: F) (s ++ S) m).
  assert (∀ out, frame_agrees n b (λ k, run_nested_body (machine k) k b st) out f F S →
                 frame_agrees (Datatypes.S n) b (λ k, nested (machine k) b st) out f F S) as Hsucc.
  { intros out. apply frame_agrees_succ; [done|done|apply steady_nested_body]. }
  assert ((length (frames st) <=? b) = false) as Hlen by (apply Nat.leb_gt; cbn; lia).
  unfold s_frame_body. destruct (take_cancellation (m_world m)) as [w|] eqn:Hc.
  - apply Hsucc. split; [done|]. exists [placed (length S) ip ds f], s. apply leads_ext. intros k.
    unfold run_nested_body. rewrite Hlen. cbn [mem st]. by rewrite Hc.
  - destruct (bytecode f !! ip) as [i|] eqn:Hi.
    + destruct (ends i) eqn:He.
      * unfold s_instruction. destruct (length s <? demand i) eqn:Hd; [done|].
        destruct i; try done; cbn [send_of]; destruct s as [|v s0]; try done;
          (exists ip, (v :: s0); split; [split; [done|by rewrite Hi]|apply leads_refl]).
      * apply Hsucc. eapply frame_agrees_leads; [|by apply instruction_ok].
        apply leads_ext. intros k. unfold run_nested_body. rewrite Hlen. cbn [mem st]. rewrite Hc.
        unfold dispatch_one. cbn [frames st]. change (bytecode (placed (length S) ip ds f)) with (bytecode f).
        cbn [frame_ip placed]. by rewrite Hi.
    + exists ip, s. split; [split; [done|by rewrite Hi]|apply leads_refl].
Qed.

Lemma machine_ok n : run_ok n ∧ frame_ok n.
Proof.
  induction n as [|n [Hrun Hframe]].
  - split; [intros r ds m D F S k Hk|intros f ds ip s m F S b Hb k Hk]; by (replace k with 0 by lia).
  - split; [by apply run_ok_succ|by apply frame_ok_succ].
Qed.
End sim.
