(* ===== verification/FramesProps.v ===== *)
(** * What the frames guarantee

    Blocks, messages and programs run on the stack of frames as [Activations] says; what the
    natives of the catch family run, and in which order; and closed programs whose [^^] does not
    do what it says. *)
From stdpp Require Import base numbers list strings gmap.
From stdpp Require Import options.
From S2P Require Import Prelude Instr Exec Frames Activations FramesMono FramesSim.
Local Open Scope nat_scope.

(** ** Answers *)

(** With enough fuel the answer is [x], and it is no other with any. *)
Definition answers {A} (c : nat → option A) (x : A) : Prop :=
  (∃ n, c n = Some x) ∧ ∀ n y, c n = Some y → y = x.

Section props.
Context `{Runtime W}.
Abbreviation Mem := (Frames.Mem (W:=W)).

Lemma leads_answers {A} (c : nat → option A) x : leads c (λ _, Some x) → answers c x.
Proof.
  intros [Hle Hge]. split; [by apply (Hge 0)|]. intros n y Hy. by apply Hle in Hy as [= ->].
Qed.

(** What native code that runs a block or sends a message gets, above any frames and operands. *)
Definition answers_as (n : nat) (r : Run) (ds : list DeferredCall) (m : Mem) (F : list Frame)
    (S : list Value) : Prop :=
  let run k := run_call (machine k) r (mkState (put_defers ds F) S m) in
  match s_run (spec n) r ds m with
  | OVal v ds neat m =>
      ∃ J, (neat = true → J = []) ∧ answers run (Ok v, mkState (put_defers ds F) (J ++ S) m)
  | OErr e ds m =>
      e ≠ NonLocalReturn ∧ ∃ X J, answers run (Err e, mkState (X ++ put_defers ds F) (J ++ S) m)
  | ONlr t v _ m =>
      F ≠ [] → clean t F → ∃ J, answers run (Err NonLocalReturn, landing t v F (J ++ S) m)
  | OMore => ∀ k, k ≤ n → run k = None
  | OWild => True
  end.

(** C3: Whatever frames and operands are below, a block or a message run from native code does
    on the stack of frames what it does as nested activations: it comes to its value with the
    frames as they were and no operand left, or to its error with the frames and operands below
    still there, or its [^^] cuts the frames and operands back to the caller of its home; and
    the machine answers nothing with less fuel than that takes, and nothing else with more. *)
Theorem frames_run_as_activations n r ds m F S : answers_as n r ds m F S.
Proof.
  unfold answers_as. destruct (machine_ok n) as [Hrun _]. specialize (Hrun r ds m [] F S). cbn [app] in Hrun.
  destruct (s_run (spec n) r ds m) as [v ds' neat m'|e ds' m'|t v cr m'| |]; cbn [agrees app] in Hrun; try done.
  - destruct Hrun as (J & HJ & Hl). exists J. split; [done|]. by apply leads_answers.
  - destruct Hrun as (He & X & J & Hl). split; [done|]. exists X, J. by apply leads_answers.
  - intros HF Hc. destruct (Hrun HF Hc) as (J & Hl). exists J. by apply leads_answers.
Qed.

(** C4: A program ends with the value or the error of its activation.  A [^^] whose method is no
    longer running ends it too: every frame goes, and its value is the result. *)
Theorem programs_end_as_activations n b m :
  let run k := fst <$> run_program k b m in
  match s_start (spec n) (start_block b [] None) [] m with
  | OVal v _ _ m | ONlr _ v _ m =>
      take_cancellation (m_world m) = None → answers run (Ok v)
  | OErr e _ _ => answers run (Err e)
  | OMore => ∀ k, k ≤ n → run k = None
  | OWild => True
  end.
Proof.
  destruct (machine_ok n) as [Hrun Hframe].
  pose proof (begin_ok n Hrun Hframe 0 (start_block b [] None) m [] [] [] [] (le_n _) ltac:(done)) as Hs.
  cbn [app put_defers] in Hs. intros run.
  set (c := λ k, nested (machine k) 0 (start (start_block b [] None) (mkState [] [] m))) in Hs.
  set (G := λ x : option (result QuoinError () * Frames.State (W:=W)), fst <$> (match x with
    | Some (Ok _, st) => Some (finished st)
    | Some (Err e, st) => Some (Err e, st)
    | None => None
    end)).
  assert (∀ x, leads c (λ _, Some x) → answers run (from_option id (Err Cancelled) (G (Some x)))) as HG.
  { intros x Hl. apply leads_answers. eapply leads_trans.
    - refine (leads_strict (λ _ x, G x) c (λ _, Some x) _ _ _ Hl); [done|intros p; apply steady_const|apply steady_nested].
    - destruct x as [[[]|e] st]; [|apply leads_refl]. cbn. apply leads_refl. }
  assert (∀ v J m', leads c (λ k, nested (machine k) 0 (mkState [] (v :: J) m')) →
    take_cancellation (m_world m') = None → answers run (Ok v)) as Hdone.
  { intros v J m' Hl Hc. assert (leads c (λ _, Some (Ok (), mkState [] (v :: J) m'))) as Hl'.
    { eapply leads_trans; [exact Hl|]. by apply nested_done. }
    apply HG in Hl'. unfold G, finished in Hl'. cbn in Hl'. by rewrite Hc in Hl'. }
  destruct (s_start (spec n) (start_block b [] None) [] m) as [v ds' neat m'|e ds' m'|t v [] m'| |];
    cbn [continues put_defers app] in Hs; try done.
  - by apply (Hdone v []).
  - destruct Hs as (_ & X & J & Hl). by apply HG in Hl.
  - destruct (Hs I) as (J & Hl). by apply (Hdone v (J ++ [])).
  - destruct Hs as (E & J & Hl). apply (Hdone v (J ++ [])). eapply leads_trans; [exact Hl|].
    eapply leads_trans; [refine (leads_strict (λ k x, after_step (machine k) 0 x) _ _ _ _ _ (unwind_leads t v [] _ m' I))|].
    + done.
    + intros p. apply steady_after_step.
    + apply steady_unwind.
    + apply leads_refl.
  - intros k Hk. unfold run, run_program. pose proof (Hs k Hk) as Hn. unfold c in Hn. by rewrite Hn.
Qed.
(** ** The catch family *)

(** A run of a native from a heap, against blocks and messages that answer anything: what it ran,
    with the answers, and its result. *)
Inductive runs_to {A} : Native W A → Envs * W → list (Run * result QuoinError Value) → result QuoinError A → Prop :=
| run_ret r hw : runs_to (NRet r) hw [] r
| run_step f k hw tr r : runs_to (k hw.1 hw.2) (f hw.1 hw.2) tr r → runs_to (NStep f k) hw tr r
| run_run q k x hw hw' tr r : runs_to (k x) hw' tr r → runs_to (NRun q k) hw ((q, x) :: tr) r
| run_unwind t hw tr r : runs_to t hw tr r → runs_to (NUnwind t) hw tr r
| run_defer d t hw tr r : runs_to t hw tr r → runs_to (NDefer d t) hw tr r.

Definition handles (exc : Value) (w : W) (handler : Value) : option Block :=
  match block_of handler w with
  | Some b => if catches exc (param_type b) w then Some b else None
  | None => None
  end.

(** The block of the first handler that handles [exc], with those before it. *)
Definition first_handler (exc : Value) (w : W) (handlers : list Value) (b : Block) : Prop :=
  ∃ pre h post, handlers = pre ++ h :: post ∧ handles exc w h = Some b ∧
    ∀ h', h' ∈ pre → handles exc w h' = None.

(** The value a handler is given for an error, and the world it is in then. *)
Definition thrown (e : QuoinError) (w : W) : Value * W :=
  match active_exception w with Some v => (v, w) | None => quoinerror_to_value e w end.

(** What is run of the handlers, and its answer: the first that handles the exception, if any. *)
Definition handler_run (exc : Value) (w : W) (handlers : list Value)
    (mid : list (Run * result QuoinError Value)) (o : option (result QuoinError Value)) : Prop :=
  (∃ b x, first_handler exc w handlers b ∧ mid = [(RunBlock b [exc] None, x)] ∧ o = Some x) ∨
  ((∀ h, h ∈ handlers → handles exc w h = None) ∧ mid = [] ∧ o = None).

Lemma first_matching_runs exc k r handlers : ∀ hw tr,
  runs_to (run_first_matching exc handlers k) hw tr r →
  ∃ mid rest o hw', tr = mid ++ rest ∧ runs_to (k o) hw' rest r ∧ handler_run exc hw.2 handlers mid o.
Proof.
  induction handlers as [|h handlers IH]; intros [he w] tr Hr; cbn in Hr.
  - exists [], tr, None, (he, w). split_and!; [done..|]. right. by split; [intros ? ?%elem_of_nil|].
  - inversion Hr as [|? ? ? ? ? Hr'| | |]; subst; clear Hr. cbn in Hr'.
    assert (runs_to (run_first_matching exc handlers k) (he, w) tr r → handles exc w h = None →
      ∃ mid rest o hw', tr = mid ++ rest ∧ runs_to (k o) hw' rest r ∧ handler_run exc w (h :: handlers) mid o) as Hskip.
    { intros Hrest Hno. destruct (IH _ _ Hrest) as (mid & rest & o & hw' & -> & Hk & Hh).
      exists mid, rest, o, hw'. split_and!; [done..|]. cbn in Hh. destruct Hh as [(b & x & (pre & h' & post & -> & Hb & Hpre) & Hm)|(Hall & Hm)].
      - left. exists b, x. split; [|done]. exists (h :: pre), h', post. split_and!; [done..|].
        intros h2 [->|Hin]%elem_of_cons; [done|by apply Hpre].
      - right. split; [|done]. intros h2 [->|Hin]%elem_of_cons; [done|by apply Hall]. }
    destruct (block_of h w) as [b|] eqn:Hb; [|apply Hskip; [done|]; unfold handles; by rewrite Hb].
    destruct (catches exc (param_type b) w) eqn:Hc; [|apply Hskip; [done|]; unfold handles; by rewrite Hb, Hc].
    inversion Hr' as [|? ? ? ? ? Hr2| | |]; subst; clear Hr'. inversion Hr2 as [| |? ? x ? hw' tr' ? Hr3| |]; subst; clear Hr2.
    exists [(RunBlock b [exc] None, x)], tr', (Some x), hw'. split_and!; [done..|]. left. exists b, x.
    split; [|done]. exists [], h, handlers. split_and!; [done|unfold handles; cbn; by rewrite Hb, Hc|].
    by intros ? ?%elem_of_nil.
Qed.

Lemma exception_value_runs e k hw tr r :
  runs_to (exception_value e k) hw tr r →
  ∃ he, runs_to (k (thrown e hw.2).1) (he, (thrown e hw.2).2) tr r.
Proof.
  destruct hw as [he w]. intros Hr. inversion Hr as [|? ? ? ? ? Hr'| | |]; subst. cbn in Hr'. exists he.
  unfold thrown. cbn. by destruct (active_exception w).
Qed.

(** How [catch:finally:] comes out: an error of the cleanup wins, unless the error it runs after
    passes by the handlers. *)
Definition after_cleanup (res : result QuoinError Value) (o : option (result QuoinError Value))
    (fres : result QuoinError Value) : result QuoinError Value :=
  match res, fres with
  | Err e, Err e' => if uncatchable e then Err e else Err e'
  | Ok _, Err e' => Err e'
  | _, Ok _ => default res o
  end.

(** C11: [catch:finally:] runs the protected block first and once, then at most one handler, the
    first whose type catches what was thrown, and none for cancellation and exit; and whatever
    these come to, the cleanup exactly once, last.  The result is that of the handler, else that
    of the block, and an error of the cleanup overrides it. *)
Theorem cleanup_runs_once protected handlers finally hw tr r :
  runs_to (do_catch_finally protected handlers finally) hw tr r →
  ∃ res mid o fres,
    tr = (RunBlock protected [] None, res) :: mid ++ [(RunBlock finally [] None, fres)] ∧
    r = after_cleanup res o fres ∧
    match res with
    | Err e =>
        if uncatchable e then mid = [] ∧ o = None
        else ∃ w, handler_run (thrown e w).1 (thrown e w).2 handlers mid o
    | Ok _ => mid = [] ∧ o = None
    end.
Proof.
  intros Hr. inversion Hr as [| |? ? res ? hw1 tr1 ? Hr1| |]; subst; clear Hr. destruct res as [val|e].
  - inversion Hr1 as [| |? ? fres ? hw2 tr2 ? Hr2| |]; subst; clear Hr1. inversion Hr2; subst; clear Hr2.
    exists (Ok val), [], None, fres. split_and!; [done|by destruct fres|done..].
  - inversion Hr1 as [| | |? ? ? ? Hr2|]; subst; clear Hr1. destruct (uncatchable e) eqn:He.
    + inversion Hr2 as [| |? ? fres ? hw2 tr2 ? Hr3| |]; subst; clear Hr2.
      inversion Hr3 as [| | |? ? ? ? Hr4|]; subst; clear Hr3. inversion Hr4; subst; clear Hr4.
      exists (Err e), [], None, fres. rewrite He. split_and!; try done. unfold after_cleanup. rewrite He. by destruct fres.
    + apply exception_value_runs in Hr2 as (he & Hr2).
      apply first_matching_runs in Hr2 as (mid & rest & o & hw2 & -> & Hk & Hh).
      inversion Hk as [| | |? ? ? ? Hk2|]; subst; clear Hk.
      inversion Hk2 as [| |? ? fres ? hw3 tr3 ? Hk3| |]; subst; clear Hk2. inversion Hk3; subst; clear Hk3.
      exists (Err e), mid, o, fres. rewrite He. split_and!; [done| |by exists hw1.2].
      unfold after_cleanup. rewrite He. by destruct fres.
Qed.
End props.

(** ** Closed programs *)

Module Demo.
Record World := mkWorld { heap : list Block; thrown_value : option Value }.

Definition code (ps : list Symbol) (instrs : list Instruction) : StaticBlock :=
  mkStaticBlock None ps instrs None None [] None false.

(** Closures go to the heap with the environment and the home of the frame. *)
Definition objects (home : option FrameId) : Machine World := {|
  new_object c fr _ w :=
    match c with
    | CBlock sb => (N.of_nat (length (heap w)),
                    mkWorld (heap w ++ [mkBlock sb (Some (f_env fr)) home true None]) (thrown_value w))
    | _ => (1000%N, w)
    end;
  object_class_name _ _ := "Object"%string;
  field_of _ _ _ := VNil;
  set_field _ _ _ w := Ok w;
  set_active _ w := w;
  list_spliced _ _ _ := false;
  plain_new_check _ _ := false;
  Exec.call _ _ _ _ _ _ := None;
  operate _ _ _ _ _ := None;
  operate_advanced _ _ _ _ _ := false |}.

Definition block_of (v : Value) (w : World) : option Block :=
  match v with VObject p => heap w !! N.to_nat p | _ => None end.

Definition with_block (v : Value) (k : Block → Native World Value) : Native World Value :=
  NRead (λ _ w, match block_of v w with Some b => k b | None => NRet (Err (Other "no block"%string)) end).

Section runtime.
Context (natives : gmap string (Value → list Value → Native World Value)).
Context (methods : gmap string (list Instruction)).

Definition lookup (rx : Value) (sel : Symbol) (args : list Value) : option (Callable World) :=
  match natives !! sel, methods !! sel, rx with
  | Some func, _, _ => Some (CallNative func)
  | None, Some instrs, _ => Some (CallBlock (mkBlock (code [] instrs) None None false None))
  | None, None, VClass p => if bool_decide (sel = "new:"%string) then Some (CallNew p) else None
  | None, None, _ => None
  end.

Definition runtime : Runtime World := {|
  Frames.objects := objects;
  Frames.block_of := block_of;
  lookup_method rx sel args := NRet (Ok (lookup rx sel args));
  method_of _ _ _ := None;
  not_understood _ _ _ _ := Other "not understood"%string;
  type_name _ _ := "Object"%string;
  ensure_instantiable _ _ := Ok ();
  new_instance _ w := (2000%N, w);
  instantiation_plan _ _ := mkPlan [] [];
  set_slot _ _ _ w := w;
  perform _ _ _ := NRet (Ok VNil);
  take_pending_class w := (None, w);
  unregister_global _ w := w;
  take_cancellation _ := None;
  active_exception := thrown_value;
  clear_exception w := mkWorld (heap w) None;
  quoinerror_to_value _ w := (VNil, w);
  value_matches_type _ _ _ := false |}.
End runtime.

(** A block run by native code, [catch:], and a class. *)
Definition natives : gmap string (Value → list Value → Native World Value) :=
  {[ "run"%string := λ rx _, with_block rx (λ b, NRun (RunBlock b [] None) NRet);
     "catch:"%string := λ rx args, with_block rx (λ b, @do_catch _ (runtime ∅ ∅) b args);
     "catch:finally:"%string := λ rx args,
       match args with
       | [h; c] => with_block rx (λ b, with_block c (λ c, @do_catch_finally _ (runtime ∅ ∅) b [h] c))
       | _ => NRet (Err (Other "two arguments"%string))
       end;
     "Point"%string := λ _ _, NRet (Ok (VClass 7)) ]}.

(** The result of a program, on the machine and as activations. *)
Definition main (instrs : list Instruction) : Block := mkBlock (code [] instrs) None None false None.
Definition memory : Mem (W:=World) := mkMem ∅ (mkWorld [] None) 1 0.

Definition result (methods : gmap string (list Instruction)) (instrs : list Instruction)
    : option (Prelude.result QuoinError Value) :=
  fst <$> run_program (H:=runtime natives methods) 60 (main instrs) memory.

Definition activated (methods : gmap string (list Instruction)) (instrs : list Instruction) : option Value :=
  match s_start (H:=runtime natives methods) (spec (H:=runtime natives methods) 60)
          (start_block (main instrs) [] None) [] memory with
  | OVal v _ _ _ => Some v
  | _ => None
  end.

Definition block (ps : list Symbol) (instrs : list Instruction) : Instruction := Push (CBlock (code ps instrs)).

(** [10 + self.m] *)
Definition ten_plus_m : list Instruction :=
  [Push (CInt 10); LoadLocal "self"; Send "m" 0; IntAdd; Return].

(** [m -> { 1 + {^^ 5}.run }] *)
Definition returns_through_native : gmap string (list Instruction) :=
  {[ "m"%string := [Push (CInt 1); block [] [Push (CInt 5); MethodReturn]; Send "run" 0; IntAdd; Return] ]}.

(** [m -> { 1 + {^^ 5}.catch:{|e| 7} }] *)
Definition returns_through_catch : gmap string (list Instruction) :=
  {[ "m"%string := [Push (CInt 1); block [] [Push (CInt 5); MethodReturn];
                    block ["e"%string] [Push (CInt 7); Return]; Send "catch:" 1; IntAdd; Return] ]}.

(** [m -> { self.Point.new:{ ^^ 5 }. 0 }] *)
Definition returns_from_new : gmap string (list Instruction) :=
  {[ "m"%string := [LoadLocal "self"; Send "Point" 0; block [] [Push (CInt 5); MethodReturn];
                    Send "new:" 1; Pop; Push (CInt 0); Return] ]}.

(** [m -> { {^^ 5} }], and [self.m.value. 99] *)
Definition returns_a_block : gmap string (list Instruction) :=
  {[ "m"%string := [block [] [Push (CInt 5); MethodReturn]; Return] ]}.
Definition value_of_m : list Instruction :=
  [LoadLocal "self"; Send "m" 0; Send "value" 0; Pop; Push (CInt 99); Return].

(** [m -> { 1 + {^^ 5}.catch:nil finally:{0} }] *)
Definition returns_through_cleanup : gmap string (list Instruction) :=
  {[ "m"%string := [Push (CInt 1); block [] [Push (CInt 5); MethodReturn]; Push CNil;
                    block [] [Push (CInt 0); Return]; Send "catch:finally:" 2; IntAdd; Return] ]}.

(** Where [^^] does not do what it says.  Through a native that runs the block, and through a
    cleanup, its method answers its value.  But a handler that catches all absorbs it when the
    method is gone already, so that both the method and the handler answer the caller (5 + 7,
    for 10 + 5); out of the body of a new object it makes the method answer that object; and
    after its method has returned it ends the program. *)
Theorem method_returns_that_go_wrong :
  result returns_through_native ten_plus_m = Some (Ok (VInt 15)) ∧
  result returns_through_cleanup ten_plus_m = Some (Ok (VInt 15)) ∧
  activated returns_through_native ten_plus_m = Some (VInt 15) ∧
  activated returns_through_cleanup ten_plus_m = Some (VInt 15) ∧
  result returns_through_catch ten_plus_m = Some (Ok (VInt 12)) ∧
  result returns_from_new [LoadLocal "self"; Send "m" 0; Return] = Some (Ok (VObject 2000)) ∧
  result returns_a_block value_of_m = Some (Ok (VInt 5)).
Proof. vm_compute. repeat split. Qed.

(** A program of the demo has a handler that catches and a cleanup that fails. *)
Lemma cleanup_runs_once_witness :
  let protected := mkBlock (code [] []) None None true None in
  ∃ res mid o fres,
    [(RunBlock protected [] None, Err (Other "thrown"%string));
     (RunBlock protected [VNil] None, Ok (VInt 7));
     (RunBlock protected [] None, Err (Other "cleanup"%string))] =
      (RunBlock protected [] None, res) :: mid ++ [(RunBlock protected [] None, fres)] ∧
    Err (Other "cleanup"%string) = after_cleanup res o fres ∧
    match res with
    | Err e =>
        if uncatchable e then mid = [] ∧ o = None
        else ∃ w, handler_run (H:=runtime ∅ ∅) (thrown (H:=runtime ∅ ∅) e w).1
                    (thrown (H:=runtime ∅ ∅) e w).2 [VObject 0] mid o
    | Ok _ => mid = [] ∧ o = None
    end.
Proof.
  intros protected.
  eapply (cleanup_runs_once (H:=runtime ∅ ∅) protected [VObject 0] protected (∅, mkWorld [protected] None)).
  eapply (run_run _ _ _ _ (∅, mkWorld [protected] None)). do 2 constructor. do 2 constructor.
  eapply (run_run _ _ _ _ (∅, mkWorld [protected] None)). constructor.
  eapply (run_run _ _ _ _ (∅, mkWorld [protected] None)). constructor.
Defined.
End Demo.
