(* ===== verification/Store.v ===== *)
(** * The two-tier hash store (src/src/runtime/map.rs, src/src/runtime/set.rs)

    Maps and sets keep their entries in insertion order, each with the hash of its key, and
    find the candidates for a hash in one of two ways: while there are at most
    [SMALL_LINEAR_MAX] entries they scan the hashes, above it they keep an index from a hash
    to the positions that have it.  A map's entry holds a key and a value and a set's an
    element; the rest is the same text in both files, so the payload is a parameter here.

    A position is a [u32]; the casts from [usize] are written out. *)
From stdpp Require Import base numbers list gmap.
From stdpp Require Import options.
From S2P Require Import Prelude.
Local Open Scope Z_scope.

Definition SMALL_LINEAR_MAX : nat := 16.

Definition as_u32 (i : nat) : Z := Z.of_nat i mod 2 ^ 32.

Section store.
Context {P : Type}.

Record Store := mkStore { entries : list (Z * P); index : gmap Z (list Z) }.

Definition new_empty : Store := mkStore [] ∅.

(** The tier is decided by the number of entries alone. *)
Definition indexed (s : Store) : bool := (SMALL_LINEAR_MAX <? length (entries s))%nat.

(** [index.entry(h).or_default().push(i)]. *)
Definition index_push (h i : Z) (ix : gmap Z (list Z)) : gmap Z (list Z) :=
  <[h := vec_push (default [] (ix !! h)) i]> ix.

(** The loop of [build_index] from position [i] on. *)
Fixpoint index_from (i : nat) (es : list (Z * P)) (ix : gmap Z (list Z)) : gmap Z (list Z) :=
  match es with
  | [] => ix
  | (h, _) :: es => index_from (S i) es (index_push h (as_u32 i) ix)
  end.

Definition build_index (s : Store) : Store := mkStore (entries s) (index_from 0 (entries s) ∅).

(** ** Candidates

    The visitor keeps a state of its own and may stop the search with an answer; [None]: it
    indexed the entries out of bounds. *)
Section find.
Context {A R : Type} (f : Z → A → option (A * option R)).

Fixpoint scan_from (i : nat) (hash : Z) (es : list (Z * P)) (a : A) : option (A * option R) :=
  match es with
  | [] => Some (a, None)
  | (h, _) :: es =>
      if h =? hash then
        '(a, r) ← f (as_u32 i) a;
        match r with Some r => Some (a, Some r) | None => scan_from (S i) hash es a end
      else scan_from (S i) hash es a
  end.

Fixpoint visit (ps : list Z) (a : A) : option (A * option R) :=
  match ps with
  | [] => Some (a, None)
  | i :: ps =>
      '(a, r) ← f i a;
      match r with Some r => Some (a, Some r) | None => visit ps a end
  end.

Definition find_hash_match (hash : Z) (s : Store) (a : A) : option (A * option R) :=
  if negb (indexed s) then scan_from 0 hash (entries s) a
  else match index s !! hash with
       | None => Some (a, None)
       | Some ps => visit ps a
       end.

End find.

(** [self.entries[i as usize]]. *)
Definition entry_at (s : Store) (i : Z) : option (Z * P) := entries s !! Z.to_nat i.

(** The candidates of a hash, copied out. *)
Definition bucket (hash : Z) (s : Store) : option (list (Z * P)) :=
  fst <$> find_hash_match
    (λ i out, '(_, p) ← entry_at s i; Some (vec_push out (i, p), @None unit)) hash s [].

(** ** Changes *)

Definition set_at (i : Z) (f : P → P) (s : Store) : option Store :=
  '(h, p) ← entry_at s i;
  Some (mkStore (<[Z.to_nat i := (h, f p)]> (entries s)) (index s)).

(** The caller has established that the key is absent. *)
Definition append (hash : Z) (p : P) (s : Store) : Store :=
  let i := as_u32 (length (entries s)) in
  let s' := mkStore (vec_push (entries s) (hash, p)) (index s) in
  if indexed s' then
    if decide (index s' = ∅) then build_index s'
    else mkStore (entries s') (index_push hash i (index s'))
  else s'.

(** [Vec::remove] shifts the later entries down; out of bounds it panics. *)
Definition remove_at (idx : Z) (s : Store) : option (P * Store) :=
  '(_, p) ← entry_at s idx;
  let s' := mkStore (delete (Z.to_nat idx) (entries s)) (index s) in
  Some (p, if indexed s' then build_index s' else mkStore (entries s') ∅).

End store.
Arguments Store P : clear implicits.

(** ** The index is what the entries say *)

Section props.
Context {P : Type}.
Implicit Types (s : Store P) (es : list (Z * P)).

(** The positions with a given hash, from position [i] on. *)
Fixpoint positions_from (i : nat) (hash : Z) es : list Z :=
  match es with
  | [] => []
  | (h, _) :: es =>
      if h =? hash then as_u32 i :: positions_from (S i) hash es
      else positions_from (S i) hash es
  end.

Definition positions (hash : Z) es : list Z := positions_from 0 hash es.

(** The invariant of the store, which the source states as: the entries are more than
    [SMALL_LINEAR_MAX] exactly when the index is populated, and it answers as the scan. *)
Definition store_ok s : Prop :=
  index s = if indexed s then index_from 0 (entries s) ∅ else ∅.

Lemma index_from_lookup i hash es ix :
  index_from i es ix !! hash =
  match positions_from i hash es with
  | [] => ix !! hash
  | ps => Some (default [] (ix !! hash) ++ ps)
  end.
Proof.
  revert i ix. induction es as [|[h p] es IH]; intros i ix; [done|]. simpl.
  rewrite IH. unfold index_push, vec_push. destruct (Z.eqb_spec h hash) as [->|Hne].
  - rewrite lookup_insert_eq. simpl. destruct (positions_from _ _ _); [done|]. simpl.
    by rewrite <- app_assoc.
  - by rewrite lookup_insert_ne by done.
Qed.

Lemma index_from_snoc i es h p ix :
  index_from i (es ++ [(h, p)]) ix = index_push h (as_u32 (i + length es)) (index_from i es ix).
Proof.
  revert i ix. induction es as [|[h' p'] es IH]; intros i ix; simpl.
  - by rewrite Nat.add_0_r.
  - rewrite IH. by rewrite Nat.add_succ_r.
Qed.

Lemma index_push_nonempty h i ix : index_push h i ix ≠ ∅.
Proof. apply insert_non_empty. Qed.

Lemma new_empty_ok : store_ok (new_empty (P:=P)).
Proof. done. Qed.

(** The index of a store with entries [es]. *)
Definition index_of es : gmap Z (list Z) :=
  if (SMALL_LINEAR_MAX <? length es)%nat then index_from 0 es ∅ else ∅.

Lemma append_entries hash p s : entries (append hash p s) = entries s ++ [(hash, p)].
Proof. unfold append. destruct (indexed _); [case_decide|]; done. Qed.

Lemma append_ok hash p s : store_ok s → store_ok (append hash p s).
Proof.
  change (index s = index_of (entries s) →
          index (append hash p s) = index_of (entries (append hash p s))).
  intros Hs. rewrite append_entries. unfold append, indexed, vec_push. cbn [entries index].
  assert (Hlen : length (entries s ++ [(hash, p)]) = S (length (entries s)))
    by (rewrite length_app; simpl; lia).
  unfold index_of in *. rewrite Hlen. destruct (Nat.ltb_spec SMALL_LINEAR_MAX (S (length (entries s)))) as [Hi|Hi].
  - rewrite index_from_snoc. simpl. rewrite Hs. case_decide as He; simpl.
    + by rewrite index_from_snoc.
    + by destruct (_ <? _)%nat.
  - simpl. rewrite Hs. by rewrite (proj2 (Nat.ltb_ge _ _)) by lia.
Qed.

Lemma remove_at_ok idx s p s' : store_ok s → remove_at idx s = Some (p, s') → store_ok s'.
Proof.
  unfold remove_at. intros _ H. destruct (entry_at s idx) as [[h p']|]; [|done].
  simplify_eq/=. unfold store_ok.
  destruct (indexed (mkStore (delete _ _) _)) eqn:E; unfold indexed in *; simpl in *; by rewrite E.
Qed.

Lemma index_from_same i es es' ix : fst <$> es = fst <$> es' → index_from i es ix = index_from i es' ix.
Proof.
  revert i es' ix. induction es as [|[h p] es IH]; intros i [|[h' p'] es'] ix H; try done.
  simplify_eq/=. by apply IH.
Qed.

Lemma set_at_hashes i f s s' : set_at i f s = Some s' → fst <$> entries s' = fst <$> entries s.
Proof.
  unfold set_at, entry_at. intros H. destruct (_ !! _) as [[h p]|] eqn:E; [|done]. simplify_eq/=.
  rewrite list_fmap_insert. simpl. apply list_insert_id. by rewrite list_lookup_fmap, E.
Qed.

Lemma set_at_ok i f s s' : store_ok s → set_at i f s = Some s' → store_ok s'.
Proof.
  intros Hs H. pose proof (set_at_hashes _ _ _ _ H) as Hh.
  assert (length (entries s') = length (entries s)) as Hl
    by (by rewrite <- (length_fmap fst), Hh, length_fmap).
  assert (index s' = index s) as Hi.
  { unfold set_at in H. destruct (entry_at _ _) as [[]|]; by simplify_eq/=. }
  unfold store_ok, indexed in *. rewrite Hi, Hl, Hs.
  destruct (_ <? _)%nat; [by apply index_from_same|done].
Qed.

(** ** Both tiers see the same candidates *)

Lemma scan_visit {A R} (f : Z → A → option (A * option R)) i hash es a :
  scan_from f i hash es a = visit f (positions_from i hash es) a.
Proof.
  revert i a. induction es as [|[h p] es IH]; intros i a; [done|]. simpl.
  destruct (h =? hash); simpl; [|done]. destruct (f _ _) as [[a' [r|]]|]; simpl; auto.
Qed.

Lemma find_hash_match_scan {A R} (f : Z → A → option (A * option R)) hash s a :
  store_ok s → find_hash_match f hash s a = scan_from f 0 hash (entries s) a.
Proof.
  unfold store_ok, find_hash_match. intros Hs. destruct (indexed s); simpl; [|done].
  rewrite Hs, index_from_lookup, scan_visit, lookup_empty.
  by destruct (positions_from 0 hash (entries s)).
Qed.

(** The entries with a given hash, with their positions. *)
Fixpoint candidates_from (i : nat) (hash : Z) es : list (nat * P) :=
  match es with
  | [] => []
  | (h, p) :: es =>
      if h =? hash then (i, p) :: candidates_from (S i) hash es else candidates_from (S i) hash es
  end.

Definition candidates (hash : Z) es : list (nat * P) := candidates_from 0 hash es.

Lemma candidates_from_spec i hash es j p :
  (j, p) ∈ candidates_from i hash es ↔ (i ≤ j)%nat ∧ es !! (j - i)%nat = Some (hash, p).
Proof.
  revert i. induction es as [|[h q] es IH]; intros i; simpl.
  - split; [by intros ?%elem_of_nil|by intros [_ ?]].
  - assert (∀ b : Prop, b ∧ (S i ≤ j)%nat ∧ es !! (j - S i)%nat = Some (hash, p) →
      (i ≤ j)%nat ∧ ((h, q) :: es) !! (j - i)%nat = Some (hash, p)) as Hup.
    { intros b (_ & ? & Hl). split; [lia|]. by replace (j - i)%nat with (S (j - S i)) by lia. }
    assert ((i ≤ j)%nat ∧ ((h, q) :: es) !! (j - i)%nat = Some (hash, p) →
      (j = i ∧ h = hash ∧ q = p) ∨ (S i ≤ j)%nat ∧ es !! (j - S i)%nat = Some (hash, p)) as Hdn.
    { intros [Hle Hl]. destruct (decide (j = i)) as [->|Hne].
      - rewrite Nat.sub_diag in Hl. simplify_eq/=. auto.
      - replace (j - i)%nat with (S (j - S i)) in Hl by lia. right. split; [lia|done]. }
    destruct (Z.eqb_spec h hash) as [->|Hh].
    + rewrite elem_of_cons, IH. split.
      * intros [[= -> ->]|H]; [|by apply (Hup True)]. rewrite Nat.sub_diag. split; [lia|done].
      * intros H. destruct (Hdn H) as [(-> & _ & ->)|?]; auto.
    + rewrite IH. split; [intros; by apply (Hup True)|].
      intros H. destruct (Hdn H) as [(_ & ? & _)|?]; [done|auto].
Qed.

Lemma candidates_spec hash es j p :
  (j, p) ∈ candidates hash es ↔ es !! j = Some (hash, p).
Proof.
  unfold candidates. rewrite candidates_from_spec, Nat.sub_0_r. split; [by intros [_ ?]|by split; [lia|]].
Qed.

Lemma store_u32_small i : (i < 2 ^ 32)%Z → ∀ n, Z.of_nat n = i → as_u32 n = i.
Proof. intros ? n <-. unfold as_u32. apply Z.mod_small. lia. Qed.

(** Visiting the candidates, with their payloads. *)
Fixpoint walk {A R} (g : Z → P → A → A * option R) (l : list (nat * P)) (a : A) : A * option R :=
  match l with
  | [] => (a, None)
  | (i, p) :: l =>
      match g (Z.of_nat i) p a with
      | (a, Some r) => (a, Some r)
      | (a, None) => walk g l a
      end
  end.

(** In either tier the search visits the entries of the hash, in insertion order. *)
Lemma find_hash_match_walk {A R} (g : Z → P → A → A * option R) hash s a :
  store_ok s → Z.of_nat (length (entries s)) ≤ 2 ^ 32 →
  find_hash_match (λ i a, '(_, p) ← entry_at s i; Some (g i p a)) hash s a =
  Some (walk g (candidates hash (entries s)) a).
Proof.
  intros Hs Hlen. rewrite find_hash_match_scan by done. unfold candidates.
  enough (∀ es i a,
    (∀ j e, es !! j = Some e → entry_at s (as_u32 (i + j)) = Some e ∧
                               as_u32 (i + j) = Z.of_nat (i + j)) →
    scan_from (λ i a, '(_, p) ← entry_at s i; Some (g i p a)) i hash es a =
    Some (walk g (candidates_from i hash es) a)) as Hgen.
  { rewrite Hgen; [done|]. intros j e Hj. apply lookup_lt_Some in Hj as Hlt. simpl.
    rewrite (store_u32_small (Z.of_nat j)) by lia. unfold entry_at. by rewrite Nat2Z.id. }
  clear a. intros es. induction es as [|[h p] es IH]; intros i a Hes; [done|].
  cbn [scan_from candidates_from].
  assert (∀ a', scan_from (λ i a, '(_, p) ← entry_at s i; Some (g i p a)) (S i) hash es a' =
      Some (walk g (candidates_from (S i) hash es) a')) as IH'.
  { intros a'. apply IH. intros j e Hj. specialize (Hes (S j) e Hj).
    by rewrite Nat.add_succ_r in Hes. }
  destruct (h =? hash); [|apply IH'].
  destruct (Hes 0%nat _ eq_refl) as [He Hu]. rewrite Nat.add_0_r in He, Hu.
  rewrite He. cbn [walk mbind option_bind]. rewrite Hu.
  destruct (g (Z.of_nat i) p a) as [a' [r|]]; [done|apply IH'].
Qed.

Lemma bucket_spec hash s :
  store_ok s → Z.of_nat (length (entries s)) ≤ 2 ^ 32 →
  bucket hash s = Some (prod_map Z.of_nat id <$> candidates hash (entries s)).
Proof.
  intros Hs Hlen. unfold bucket.
  rewrite (find_hash_match_walk (λ i p out, (vec_push out (i, p), @None unit))) by done. simpl.
  f_equal. generalize (candidates hash (entries s)). intros l.
  enough (∀ out, (walk (λ i p out, (vec_push out (i, p), @None unit)) l out).1 =
                 out ++ (prod_map Z.of_nat id <$> l)) as -> by done.
  induction l as [|[i p] l IH]; intros out; simpl; [by rewrite app_nil_r|].
  rewrite IH. unfold vec_push. by rewrite <- app_assoc.
Qed.

(** ** Searching *)

(** The position of the first element that passes the test. *)
Fixpoint index_where {A} (t : A → bool) (l : list A) : option nat :=
  match l with
  | [] => None
  | x :: l => if t x then Some 0%nat else S <$> index_where t l
  end.

Lemma index_where_Some {A} (t : A → bool) l i :
  index_where t l = Some i ↔
  ∃ x, l !! i = Some x ∧ t x = true ∧ ∀ j y, (j < i)%nat → l !! j = Some y → t y = false.
Proof.
  revert i. induction l as [|x l IH]; intros i; simpl.
  { split; [done|]. intros (y & Hy & _). by rewrite lookup_nil in Hy. }
  destruct (t x) eqn:Ex.
  - split.
    + intros [= <-]. exists x. split_and!; [done..|lia].
    + intros (y & Hy & Ht & Hmin). destruct i as [|i]; [done|].
      specialize (Hmin 0%nat x ltac:(lia) eq_refl). congruence.
  - rewrite fmap_Some. setoid_rewrite IH. split.
    + intros (k & (y & Hy & Ht & Hmin) & ->). exists y. split_and!; [done..|].
      intros [|j] z Hj Hz; simplify_eq/=; [done|]. apply (Hmin j); [lia|done].
    + intros (y & Hy & Ht & Hmin). destruct i as [|i]; simplify_eq/=; [congruence|].
      exists i. split; [|done]. exists y. split_and!; [done..|].
      intros j z Hj Hz. apply (Hmin (S j)); [lia|done].
Qed.

Lemma index_where_None {A} (t : A → bool) l :
  index_where t l = None ↔ ∀ j y, l !! j = Some y → t y = false.
Proof.
  induction l as [|x l IH]; simpl; [by split|].
  destruct (t x) eqn:Ex.
  - split; [done|]. intros Hall. specialize (Hall 0%nat x eq_refl). congruence.
  - rewrite fmap_None, IH. split.
    + intros Hall [|j] y Hj; simplify_eq/=; eauto.
    + intros Hall j y Hj. by apply (Hall (S j)).
Qed.

Lemma index_where_lt {A} (t : A → bool) l i : index_where t l = Some i → (i < length l)%nat.
Proof. intros (x & Hx & _)%index_where_Some. by eapply lookup_lt_Some. Qed.

Lemma index_where_fmap {A B} (f : A → B) (t : B → bool) l :
  index_where t (f <$> l) = index_where (t ∘ f) l.
Proof.
  induction l as [|x l IH]; [done|]. rewrite fmap_cons. cbn [index_where]. rewrite IH.
  unfold compose. by destruct (t (f x)).
Qed.

(** The first of the candidates that passes, when only entries of the hash can pass, is the
    first of all entries that does. *)
Fixpoint first_match {I A} (t : A → bool) (l : list (I * A)) : option I :=
  match l with
  | [] => None
  | (i, x) :: l => if t x then Some i else first_match t l
  end.

Lemma first_match_candidates (t : P → bool) hash es i :
  (∀ h p, (h, p) ∈ es → t p = true → h = hash) →
  first_match t (candidates_from i hash es) =
  Nat.add i <$> index_where (λ e, t e.2) es.
Proof.
  revert i. induction es as [|[h p] es IH]; intros i Hh; [done|]. cbn [candidates_from index_where snd].
  assert (Nat.add i <$> (S <$> index_where (λ e, t e.2) es) =
          Nat.add (S i) <$> index_where (λ e, t e.2) es) as Hs.
  { destruct (index_where _ es); simpl; [f_equal; lia|done]. }
  assert (first_match t (candidates_from (S i) hash es) =
          Nat.add (S i) <$> index_where (λ e, t e.2) es) as IH'.
  { apply IH. intros h' p' Hin. apply (Hh h'). by right. }
  destruct (Z.eqb_spec h hash) as [->|Hne].
  - cbn [first_match]. destruct (t p) eqn:Ep; [simpl; f_equal; lia|]. by rewrite Hs.
  - destruct (t p) eqn:Ep; [by destruct Hne; apply (Hh h p); [left|]|]. by rewrite Hs.
Qed.

Lemma first_match_fmap {I J A B} (t : B → bool) (f : I → J) (g : A → B) (l : list (I * A)) :
  first_match t (prod_map f g <$> l) = f <$> first_match (t ∘ g) l.
Proof.
  induction l as [|[i x] l IH]; [done|]. rewrite fmap_cons. cbn [prod_map first_match fst snd].
  unfold compose at 1. by destruct (t (g x)).
Qed.

End props.
