(* ===== verification/Host.v ===== *)
(** * Hashing and comparing keys (src/src/value.rs, src/src/runtime/map.rs, elem_tag.rs)

    Values are those of the interpreter; an object is a cell of the heap with the name of its
    class and a payload, and the payload of a map or a set is its store.  A key hashes without
    running any code of the program, except for an instance, which answers the method [hash];
    two keys are equal when the runtime says so, and else when [==:] does, unless both are of
    the kinds for which the runtime's answer is final.

    The code of the program is the operation [call_method]: it may do anything to the heap,
    end in an error, panic, or never answer. *)
From Stdlib Require Import SpecFloat.
From stdpp Require Import base numbers list strings gmap pretty.
From stdpp Require Import options.
From S2P Require Import Prelude Instr Exec Store.
Local Open Scope Z_scope.

#[export] Instance key_byte_eq_dec : EqDecision Byte.byte := Byte.byte_eq_dec.

(** ** Collections and objects *)

Record NativeListState := mkList { vec : list Value; l_elem : option ElemTag }.
Record NativeMapState := mkMap { m_store : Store (Value * Value); m_elem : option ElemTag }.
Record NativeSetState := mkSet { s_store : Store Value; s_elem : option ElemTag }.

(** Decimals of arbitrary precision and the hash function are libraries the code calls. *)
Class Library := {
  big_decimal : Type;
  fract_is_zero : big_decimal → bool;
  decimal_to_i64 : big_decimal → option Z;
  normalize_to_string : big_decimal → string;
  (** [FxHasher] after one [i64], and after a slice of bytes *)
  fx_i64 : Z → Z;
  fx_bytes : list Byte.byte → Z;
  (** the bits of NaN, which [spec_float] does not have *)
  nan_bits : Z;
  (** where the characters of a symbol's string are: they never move *)
  text_ptr : N → N }.

Section heap.
Context `{Library}.

Inductive ObjectPayload :=
| PString (s : string)
| PSymbol (sym : N)
| PBytes (b : list Byte.byte)
| PBlock (p : N)
| PInstance
| PList (l : NativeListState)
| PMap (m : NativeMapState)
| PSet (s : NativeSetState)
| PBigInteger (z : Z)
| PBigDecimal (d : big_decimal)
| PNative.

Record Object := mkObject { o_class : string; payload : ObjectPayload }.

(** The heap, and the rest of the machine for the program's code to use. *)
Record World {G : Type} := mkWorld { heap : gmap N Object; guest : G }.
Arguments World : clear implicits.
Arguments mkWorld {G} heap guest.

(** A pointer leads to an object: the collector frees no cell that is reachable. *)
Definition object_at {G} (p : N) (w : World G) : Object :=
  default (mkObject "" PInstance) (heap w !! p).
Definition payload_at {G} (p : N) (w : World G) : ObjectPayload := payload (object_at p w).

Definition map_at {G} (v : Value) (w : World G) : option NativeMapState :=
  match v with
  | VObject p => match payload_at p w with PMap m => Some m | _ => None end
  | _ => None
  end.

Definition list_at {G} (v : Value) (w : World G) : option NativeListState :=
  match v with
  | VObject p => match payload_at p w with PList l => Some l | _ => None end
  | _ => None
  end.

Definition set_at_value {G} (v : Value) (w : World G) : option NativeSetState :=
  match v with
  | VObject p => match payload_at p w with PSet s => Some s | _ => None end
  | _ => None
  end.

Definition put_payload {G} (p : N) (pl : ObjectPayload) (w : World G) : World G :=
  mkWorld (alter (λ o, mkObject (o_class o) pl) p (heap w)) (guest w).

Definition class_name_of {G} (v : Value) (w : World G) : string :=
  match v with
  | VInt _ => "Integer" | VDouble _ => "Double" | VBool _ => "Boolean" | VNil => "Nil"
  | VClass _ => "Class" | VClassMeta _ => "ClassMeta"
  | VObject p => o_class (object_at p w)
  end.

Definition type_name {G} (v : Value) (w : World G) : string :=
  match v with
  | VObject p =>
      match payload_at p w with
      | PString _ => "String" | PSymbol _ => "Symbol" | PBytes _ => "Bytes"
      | PBlock _ => "Block"
      | _ => let c := o_class (object_at p w) in
             if bool_decide (c ∈ ["List"; "Map"; "Regex"]) then c else "Object"
      end
  | _ => class_name_of v w
  end.

Definition is_true (v : Value) : bool := match v with VBool true => true | _ => false end.

(** ** Floating point (f64) *)

Definition i64_to_f64 (i : Z) : f64 := binary_normalize 53 1024 i 0 false.

Definition as_i64 (z : Z) : Z := (z + 2 ^ 63) mod 2 ^ 64 - 2 ^ 63.
Definition as_u64 (z : Z) : Z := z mod 2 ^ 64.

(** [d.fract() == 0.0]. *)
Definition fract_zero (d : f64) : bool :=
  match d with
  | S754_zero _ => true
  | S754_finite _ m e => (0 <=? e) || (Zpos m mod 2 ^ (- e) =? 0)
  | S754_infinity _ | S754_nan => false
  end.

(** [d as i64]: towards zero, saturating. *)
Definition f64_to_i64 (d : f64) : Z :=
  match d with
  | S754_zero _ | S754_nan => 0
  | S754_infinity s => if s then - 2 ^ 63 else 2 ^ 63 - 1
  | S754_finite s m e =>
      let t := Z.shiftl (Zpos m) e in
      Z.max (- 2 ^ 63) (Z.min (2 ^ 63 - 1) (if s then - t else t))
  end.

(** [d.to_bits()]: a mantissa below [2^52] is that of a subnormal number. *)
Definition to_bits (d : f64) : Z :=
  let sign (s : bool) : Z := if s then 2 ^ 63 else 0 in
  match d with
  | S754_zero s => sign s
  | S754_infinity s => sign s + Z.shiftl 2047 52
  | S754_nan => nan_bits
  | S754_finite s m e =>
      sign s + (if Zpos m <? 2 ^ 52 then Zpos m else Z.shiftl (e + 1075) 52 + (Zpos m - 2 ^ 52))
  end.

(** ** The runtime's hash and equality *)

Definition hash_i64 (i : Z) : Z := fx_i64 i.
Definition hash_bytes (b : list Byte.byte) : Z := fx_bytes b.
Definition hash_ptr (p : N) : Z := hash_i64 (as_i64 (Z.of_N p)).
Definition hash_str (s : string) : Z := hash_bytes (String.list_byte_of_string s).

Definition hash_big_integer (z : Z) : Z :=
  if in_i64 z then hash_i64 z else hash_str (pretty z).

Definition hash_big_decimal (d : big_decimal) : Z :=
  if fract_is_zero d then
    match decimal_to_i64 d with
    | Some i => hash_i64 i
    | None => hash_str (normalize_to_string d)
    end
  else hash_str (normalize_to_string d).

Definition hash_double (d : f64) : Z :=
  if fract_zero d && SFleb (i64_to_f64 (- 2 ^ 63)) d && SFleb d (i64_to_f64 (2 ^ 63 - 1))
  then hash_i64 (f64_to_i64 d)
  else Z.lxor (hash_i64 (as_i64 (to_bits d))) 0x9e37.

Definition value_hash_scalar {G} (v : Value) (w : World G) : option Z :=
  match v with
  | VInt i => Some (hash_i64 i)
  | VDouble d => Some (hash_double d)
  | VBool b => Some (if b then 0x9e3779b97f4a7c15 else 0x517cc1b727220a95)
  | VNil => Some 0x2545f4914f6cdd1d
  | VClass c => Some (hash_ptr c)
  | VClassMeta c => Some (Z.lxor (hash_ptr c) 0x5bd1)
  | VObject p =>
      match payload_at p w with
      | PString s => Some (hash_str s)
      | PBytes b => Some (Z.lxor (hash_bytes b) 0x1f83)
      | PSymbol sym => Some (hash_ptr (text_ptr sym))
      | PBlock b => Some (hash_ptr b)
      | PInstance => None
      | PList _ | PMap _ | PSet _ | PNative => Some (hash_ptr p)
      | PBigInteger z => Some (hash_big_integer z)
      | PBigDecimal d => Some (hash_big_decimal d)
      end
  end.

Definition key_native_exact {G} (v : Value) (w : World G) : bool :=
  match v with
  | VInt _ | VDouble _ | VBool _ | VNil | VClass _ | VClassMeta _ => true
  | VObject p =>
      match payload_at p w with
      | PString _ | PBytes _ | PSymbol _ | PBlock _ => true
      | _ => false
      end
  end.

(** [impl PartialEq for Value]. *)
Definition value_eq {G} (w : World G) (a b : Value) : bool :=
  match a, b with
  | VInt x, VInt y => x =? y
  | VDouble x, VDouble y => SFeqb x y
  | VInt x, VDouble y => SFeqb (i64_to_f64 x) y
  | VDouble x, VInt y => SFeqb x (i64_to_f64 y)
  | VBool x, VBool y => Bool.eqb x y
  | VNil, VNil => true
  | VClass p, VClass q | VClassMeta p, VClassMeta q => bool_decide (p = q)
  | VObject p, VObject q =>
      match payload_at p w, payload_at q w with
      | PString x, PString y => bool_decide (x = y)
      | PSymbol x, PSymbol y => bool_decide (x = y)
      | PBytes x, PBytes y => bool_decide (x = y)
      | PBlock x, PBlock y => bool_decide (x = y)
      | _, _ => bool_decide (p = q)
      end
  | _, _ => false
  end.

End heap.
Arguments World {_} G.
Arguments mkWorld {_ G} heap guest.

(** * What a native method runs on (src/src/vm/alloc.rs, src/src/runtime/elem_tag.rs)

    A native method reads and changes the heap, allocates, calls methods of the program and
    ends in a value or an error.  It may panic, which takes the process down with it, and a
    call into the program may never come back: the two are outcomes of their own here. *)
Local Open Scope Z_scope.

Section host.
Context `{Library} {G : Type}.

Inductive Outcome (A : Type) :=
| Done (r : result QuoinError A) (w : World G)
| Panics
| Diverges.
Arguments Done {A} r w.
Arguments Panics {A}.
Arguments Diverges {A}.

(** A native computation. *)
Definition M (A : Type) : Type := World G → Outcome A.

#[global] Instance M_ret : MRet M := λ A a w, Done (Ok a) w.
#[global] Instance M_bind : MBind M := λ A B k m w,
  match m w with
  | Done (Ok a) w' => k a w'
  | Done (Err e) w' => Done (Err e) w'
  | Panics => Panics
  | Diverges => Diverges
  end.

Definition throw {A} (e : QuoinError) : M A := λ w, Done (Err e) w.
Definition read {A} (f : World G → A) : M A := λ w, Done (Ok (f w)) w.
Definition write (f : World G → World G) : M unit := λ w, Done (Ok tt) (f w).

(** An index out of bounds, or an [expect] that fails. *)
Definition or_panic {A} (o : option A) : M A :=
  λ w, match o with Some a => Done (Ok a) w | None => Panics end.

(** The code of the program and the parts of the machine that lead to it. *)
Class Guest := {
  call_method : Value → string → list Value → M Value;
  execute_block : Value → list Value → M Value;
  (** the walk over classes and mixins that dispatch uses *)
  value_matches_type : Value → string → World G → bool;
  (** the full name of a class *)
  class_at : N → World G → string;
  (** the symbol of a name: the interned one, or a new one *)
  new_symbol : string → M Value;
  (** the parameter names of a block's template *)
  param_syms : N → World G → list string;
  (** Rust's [Display] and [Debug] of a value *)
  display : Value → World G → string;
  debug : Value → World G → string;
  (** does the method found for the value come from the runtime's registry *)
  native_method : Value → string → World G → bool }.

Definition not_native {A} : M A := throw (Other "Not a native state of the requested type").

(** [with_native_state] on a map, a set, a list. *)
Definition the_map (v : Value) : M NativeMapState :=
  λ w, match map_at v w with Some m => Done (Ok m) w | None => not_native w end.
Definition the_set (v : Value) : M NativeSetState :=
  λ w, match set_at_value v w with Some s => Done (Ok s) w | None => not_native w end.
Definition the_list (v : Value) : M NativeListState :=
  λ w, match list_at v w with Some l => Done (Ok l) w | None => not_native w end.

(** [with_native_state_mut]: the closure has the new state of the cell. *)
Definition put_cell (v : Value) (pl : ObjectPayload) : M unit :=
  match v with VObject p => write (put_payload p pl) | _ => not_native end.

(** ** Allocation (vm/alloc.rs) *)

Definition new_cell (o : Object) : M Value :=
  λ w, let p := fresh (dom (heap w)) in
       Done (Ok (VObject p)) (mkWorld (<[p := o]> (heap w)) (guest w)).

Definition new_string (s : string) : M Value := new_cell (mkObject "String" (PString s)).
Definition new_list (l : list Value) : M Value := new_cell (mkObject "List" (PList (mkList l None))).

(** ** Element tags (runtime/elem_tag.rs) *)

Definition tag_name (t : ElemTag) : string :=
  match t with
  | TagInt => "Integer" | TagDouble => "Double" | TagBool => "Boolean" | TagStr => "String"
  | TagList => "List" | TagMap => "Map" | TagSet => "Set"
  | TagClass s => s
  end.

(** [None]: only the walk over classes can tell. *)
Definition matches_value (t : ElemTag) (v : Value) (w : World G) : option bool :=
  match v with
  | VNil => Some true
  | _ =>
      match t with
      | TagInt => Some (match v with VInt _ => true | _ => false end)
      | TagDouble => Some (match v with VDouble _ => true | _ => false end)
      | TagBool => Some (match v with VBool _ => true | _ => false end)
      | TagStr =>
          Some (match v with
                | VObject p => match payload_at p w with PString _ => true | _ => false end
                | _ => false
                end)
      | TagList => Some (bool_decide (is_Some (list_at v w)))
      | TagMap => Some (bool_decide (is_Some (map_at v w)))
      | TagSet => Some (bool_decide (is_Some (set_at_value v w)))
      | TagClass _ => None
      end
  end.

Definition elem_type_error (container : string) (tag : ElemTag) (got : Value) (i : option Z)
    (w : World G) : QuoinError :=
  let got_name := type_name got w in
  let place := match i with Some i => (" at " +:+ pretty i)%string | None => "" end in
  TypeError (tag_name tag) got_name
    (container +:+ "(" +:+ tag_name tag +:+ "): element" +:+ place +:+ " must be "
     +:+ tag_name tag +:+ ", got " +:+ got_name).

Context `{!Guest}.

Definition check_insert (tag : option ElemTag) (container : string) (v : Value) (i : option Z)
    : M unit :=
  match tag with
  | None => mret tt
  | Some t => λ w,
      let ok := match matches_value t v w with
                | Some ok => ok
                | None => value_matches_type v (tag_name t) w
                end in
      if ok then Done (Ok tt) w else Done (Err (elem_type_error container t v i w)) w
  end.

(** [arg!(args, Block, i)] and [arg!(args, String, i)]. *)
Definition wrong_argument {A} (expected : string) (v : Value) (i : nat) : M A :=
  λ w, Done (Err (TypeError expected (type_name v w)
    ("Expected " +:+ expected +:+ " at argument index " +:+ pretty i
     +:+ " (got " +:+ debug v w +:+ ")"))) w.

Definition arg_block (v : Value) (i : nat) : M N :=
  λ w, match v with
       | VObject p => match payload_at p w with PBlock b => Done (Ok b) w | _ => wrong_argument "Block" v i w end
       | _ => wrong_argument "Block" v i w
       end.

Definition string_payload (v : Value) (w : World G) : option string :=
  match v with
  | VObject p => match payload_at p w with PString s => Some s | _ => None end
  | _ => None
  end.

Definition arg_string (v : Value) (i : nat) : M string :=
  λ w, match string_payload v w with Some s => Done (Ok s) w | None => wrong_argument "String" v i w end.

(** What a method that renders its elements takes from the answer of [s]. *)
Definition rendered (v : Value) (w : World G) : string := default (display v w) (string_payload v w).

(** The tag for a class given as a value. *)
Definition from_class_value (v : Value) : M (option ElemTag) :=
  λ w, Done (Ok (match v with
    | VClass c =>
        let name := class_at c w in
        Some (if bool_decide (name = "Integer") then TagInt
              else if bool_decide (name = "Double") then TagDouble
              else if bool_decide (name = "Boolean") then TagBool
              else if bool_decide (name = "String") then TagStr
              else if bool_decide (name = "List") then TagList
              else if bool_decide (name = "Map") then TagMap
              else if bool_decide (name = "Set") then TagSet
              else TagClass name)
    | _ => None
    end)) w.

(** ** Keys (runtime/map.rs) *)

Definition hash_of_answer (v : Value) : M Z :=
  match v with
  | VInt i => mret (as_u64 i)
  | other => λ w, Done (Err (Other ("hash must answer an Integer (got "
                                    +:+ class_name_of other w +:+ ")"))) w
  end.

Definition map_hash_key (key : Value) : M Z :=
  λ w, match value_hash_scalar key w with
       | Some h => Done (Ok h) w
       | None => mbind (M:=M) hash_of_answer (call_method key "hash" []) w
       end.

Definition keys_equal (a b : Value) : M bool :=
  λ w, if value_eq w a b then Done (Ok true) w
       else if key_native_exact a w && key_native_exact b w then Done (Ok false) w
       else mbind (M:=M) (λ v, mret (is_true v)) (call_method a "==:" [b]) w.

(** The first candidate that equals the key.  The code keeps the candidates on the traced
    stack while [==:] may run. *)
Fixpoint first_equal (key : Value) (bucket : list (Z * Value)) : M (option Z) :=
  match bucket with
  | [] => mret None
  | (idx, k) :: bucket =>
      eq ← keys_equal k key;
      if eq : bool then mret (Some idx) else first_equal key bucket
  end.

End host.
Arguments Outcome {_} G A.
Arguments Done {_ G A} r w.
Arguments Panics {_ G A}.
Arguments Diverges {_ G A}.
Arguments M {_} G A.
Arguments Guest {_} G.
