(* ===== verification/MapStore.v ===== *)
(** * Maps (src/src/runtime/map.rs, src/src/vm/exec.rs)

    The native methods of the class Map, over the store of [Store].  Every lookup hashes the
    key, copies the candidates out, and compares each with the key; comparing may run the
    program's [==:], which may change this very map before the operation goes on with the
    position it has found.  The two instructions [MapGet] and [MapSet] answer by themselves
    for the keys the runtime hashes and compares, and send the message otherwise.  The lists
    [keys] and [values] and the pretty-printed shape read the entries in order. *)
From stdpp Require Import base numbers list strings gmap pretty.
From stdpp Require Import options.
From S2P Require Import Prelude Instr Exec Store Host.
Local Open Scope Z_scope.

Section map.
Context `{Library} {G : Type} `{!Guest G}.
Abbreviation M := (M G).

Definition new_empty_map : NativeMapState := mkMap new_empty None.

Definition map_len (m : NativeMapState) : Z := Z.of_nat (length (entries (m_store m))).

Definition map_entries (m : NativeMapState) : list (Z * (Value * Value)) := entries (m_store m).

Definition value_at (idx : Z) (m : NativeMapState) : option Value :=
  (λ e, e.2.2) <$> entry_at (m_store m) idx.

Definition set_value_at (idx : Z) (v : Value) (m : NativeMapState) : option NativeMapState :=
  (λ s, mkMap s (m_elem m)) <$> set_at idx (λ kv, (kv.1, v)) (m_store m).

Definition map_append (hash : Z) (k v : Value) (m : NativeMapState) : NativeMapState :=
  mkMap (append hash (k, v) (m_store m)) (m_elem m).

Definition map_remove_at (idx : Z) (m : NativeMapState) : option (Value * NativeMapState) :=
  '(kv, s) ← remove_at idx (m_store m); Some (kv.2, mkMap s (m_elem m)).

Definition map_bucket (hash : Z) (m : NativeMapState) : option (list (Z * Value)) :=
  (λ b : list (Z * (Value * Value)), (λ c, (c.1, c.2.1)) <$> b) <$> bucket hash (m_store m).

(** Replace the state of a map: the closure of [with_native_state_mut] may panic. *)
Definition update_map {A} (v : Value) (f : NativeMapState → option (A * NativeMapState)) : M A :=
  m ← the_map v;
  '(a, m') ← or_panic (f m);
  _ ← put_cell v (PMap m');
  mret a.

(** ** Lookups that run no code of the program *)

(** The first entry of the hash whose key the test accepts, and what to do with it. *)
Definition probe {R} (hash : Z) (f : Z → Value → Value → option R) (m : NativeMapState)
    : option (option R) :=
  snd <$> find_hash_match
    (λ i (_ : unit), '(_, kv) ← entry_at (m_store m) i; Some (tt, f i kv.1 kv.2)) hash (m_store m) tt.

Definition get_str (key : string) (m : NativeMapState) (w : World G) : option (option Value) :=
  probe (hash_str key)
    (λ _ k v, match k with
              | VObject p =>
                  match payload_at p w with
                  | PString s => if bool_decide (s = key) then Some v else None
                  | _ => None
                  end
              | _ => None
              end) m.

(** The outer [None] is a panic, the middle one a key that needs the program's code. *)
Definition get_scalar (key : Value) (m : NativeMapState) (w : World G)
    : option (option (option Value)) :=
  if negb (key_native_exact key w) then Some None
  else match value_hash_scalar key w with
       | None => Some None
       | Some h => Some <$> probe h (λ _ k v, if value_eq w k key then Some v else None) m
       end.

Definition insert_scalar (key v : Value) (m : NativeMapState) (w : World G)
    : option (option NativeMapState) :=
  if negb (key_native_exact key w) then Some None
  else match value_hash_scalar key w with
       | None => Some None
       | Some h =>
           existing ← probe h (λ i k _, if value_eq w k key then Some i else None) m;
           match existing with
           | Some i => Some <$> set_value_at i v m
           | None => Some (Some (map_append h key v m))
           end
       end.

(** ** Lookups that may run the program's [hash] and [==:] *)

Definition map_find_prehashed (map_val key : Value) (h : Z) : M (option Z) :=
  m ← the_map map_val;
  b ← or_panic (map_bucket h m);
  first_equal key b.

Definition map_find (map_val key : Value) : M (Z * option Z) :=
  h ← map_hash_key key;
  found ← map_find_prehashed map_val key h;
  mret (h, found).

Definition map_get_any (map_val key : Value) : M (option Value) :=
  '(_, found) ← map_find map_val key;
  match found with
  | None => mret None
  | Some i =>
      (** [expect]: the value is still a map. *)
      m ← (λ w, or_panic (map_at map_val w) w);
      v ← or_panic (value_at i m);
      mret (Some v)
  end.

Definition map_put_any (map_val key v : Value) : M unit :=
  m ← the_map map_val;
  _ ← check_insert (m_elem m) "Map String" v None;
  '(h, found) ← map_find map_val key;
  update_map map_val (λ m,
    match found with
    | Some i => m' ← set_value_at i v m; Some (tt, m')
    | None => Some (tt, map_append h key v m)
    end).

(** ** The methods *)

Definition map_containsKey (receiver key : Value) : M Value :=
  '(_, found) ← map_find receiver key; mret (VBool (bool_decide (is_Some found))).

Definition map_at_key (receiver key : Value) : M Value :=
  value ← map_get_any receiver key; mret (default VNil value).

Definition map_at_put (receiver key v : Value) : M Value :=
  _ ← map_put_any receiver key v; mret receiver.

Definition map_remove (receiver key : Value) : M Value :=
  '(_, found) ← map_find receiver key;
  match found with
  | Some i => update_map receiver (map_remove_at i)
  | None => mret VNil
  end.

Definition map_count (receiver : Value) : M Value :=
  m ← the_map receiver; mret (VInt (map_len m)).

Definition map_keys (receiver : Value) : M Value :=
  m ← the_map receiver; new_list ((λ e, e.2.1) <$> map_entries m).

Definition map_values (receiver : Value) : M Value :=
  m ← the_map receiver; new_list ((λ e, e.2.2) <$> map_entries m).

(** The pairs of the native callers, keyed by strings; a repeated key keeps its place and
    takes the last value. *)
Fixpoint insert_pairs (pairs : list (string * Value)) (m : NativeMapState) : M NativeMapState :=
  match pairs with
  | [] => mret m
  | (k, v) :: pairs =>
      k ← new_string k;
      m ← (λ w, or_panic (insert_scalar k v m w ≫= id) w);
      insert_pairs pairs m
  end.

Definition new_map (pairs : list (string * Value)) : M Value :=
  m ← insert_pairs pairs new_empty_map; new_cell (mkObject "Map" (PMap m)).

Definition retag_map (v : Value) (f : NativeMapState → NativeMapState) : M unit :=
  update_map v (λ m, Some (tt, f m)).

Definition map_of (arg : Value) : M Value :=
  tag ← from_class_value arg;
  match tag with
  | None => λ w, Done (Err (TypeError "Class" (type_name arg w)
                              "Map.of: expects a value class (e.g. `Map.of:Integer`)")) w
  | Some t =>
      v ← new_map [];
      _ ← retag_map v (λ m, mkMap (m_store m) (Some t));
      mret v
  end.

(** The error of a value names the class of its key too. *)
Definition with_key (k : Value) (m : M unit) : M unit :=
  λ w, match m w with
       | Done (Err (TypeError expected got msg)) w' =>
           Done (Err (TypeError expected got
                        (msg +:+ " (key " +:+ class_name_of k w' +:+ ")"))) w'
       | o => o
       end.

Fixpoint check_entries (t : ElemTag) (es : list (Z * (Value * Value))) : M unit :=
  match es with
  | [] => mret tt
  | (_, (k, v)) :: es =>
      _ ← with_key k (check_insert (Some t) "Map String" v None); check_entries t es
  end.

Definition map_ensure (receiver arg : Value) : M Value :=
  tag ← from_class_value arg;
  match tag with
  | None => λ w, Done (Err (TypeError "Class" (type_name arg w)
                              "ensure: expects a value class (e.g. `m.ensure:Integer`)")) w
  | Some t =>
      m ← the_map receiver;
      let es := map_entries m in
      _ ← check_entries t es;
      v ← new_map [];
      _ ← retag_map v (λ m,
        mkMap (m_store (foldl (λ m '(h, (k, v)), map_append h k v m) m es)) (Some t));
      mret v
  end.

Definition map_emptyLike (receiver : Value) : M Value :=
  m ← the_map receiver;
  v ← new_map [];
  match m_elem m with
  | Some t => _ ← retag_map v (λ m', mkMap (m_store m') (m_elem m)); mret v
  | None => mret v
  end.

Definition map_elementType (receiver : Value) : M Value :=
  m ← the_map receiver;
  match m_elem m with Some t => new_symbol (tag_name t) | None => mret VNil end.

(** The comparison goes over a snapshot of this map's entries, with their hashes. *)
Fixpoint entries_equal (other : Value) (es : list (Z * (Value * Value))) : M bool :=
  match es with
  | [] => mret true
  | (h, (k, lhs_val)) :: es =>
      found ← map_find_prehashed other k h;
      match found with
      | None => mret false
      | Some idx =>
          m ← the_map other;
          rhs_val ← or_panic (value_at idx m);
          r ← call_method lhs_val "==:" [rhs_val];
          if is_true r then entries_equal other es else mret false
      end
  end.

Definition map_equal (receiver other : Value) : M Value :=
  λ w, match map_at receiver w, map_at other w with
       | Some l, Some r =>
           if map_len l =? map_len r
           then (eq ← entries_equal other (map_entries l); mret (VBool eq)) w
           else Done (Ok (VBool false)) w
       | _, _ => Done (Ok (VBool false)) w
       end.

(** [bind:] looks a block's parameters up as keys: as a string, then as a symbol. *)
Fixpoint fetch_bind_args (map_val : Value) (names : list string) : M (list Value) :=
  match names with
  | [] => mret []
  | name :: names =>
      str_key ← new_string name;
      hit ← map_get_any map_val str_key;
      hit ← match hit with
            | Some v => mret (Some v)
            | None => sym_key ← new_symbol name; map_get_any map_val sym_key
            end;
      vs ← fetch_bind_args map_val names;
      mret (default VNil hit :: vs)
  end.

Definition map_bind (receiver arg : Value) : M Value :=
  block ← arg_block arg 0;
  names ← read (param_syms block);
  block_args ← fetch_bind_args receiver names;
  execute_block arg block_args.

(** ** The instructions (vm/exec.rs) *)

(** What a send of [at:] or [at:put:] to the receiver does is the argument [send]. *)
Definition exec_map_get (receiver key : Value) (send : M Value) : M Value :=
  λ w, match map_at receiver w with
       | None => send w
       | Some m =>
           match get_scalar key m w with
           | None => Panics
           | Some None => send w
           | Some (Some hit) => Done (Ok (default VNil hit)) w
           end
       end.

Definition exec_map_set (receiver key v : Value) (send : M Value) : M Value :=
  λ w,
    if key_native_exact key w && bool_decide (is_Some (value_hash_scalar key w)) then
      match map_at receiver w with
      | None => send w
      | Some m =>
          let insert := (_ ← update_map receiver (λ m, inserted ← insert_scalar key v m w;
                                                       Some (tt, default m inserted));
                         mret receiver) w in
          match m_elem m with
          | None => insert
          | Some t =>
              match matches_value t v w with
              | Some true => insert
              | Some false => Done (Err (elem_type_error "Map String" t v None w)) w
              | None => send w
              end
          end
      end
    else send w.

End map.
