(* ===== verification/SetStore.v ===== *)
(** * Sets (src/src/runtime/set.rs, src/src/vm/alloc.rs)

    A set keeps each element with its hash, in the order of insertion, in the store of
    [Store]; the search for an element is that of a map for a key.  [bucket] is written apart
    in set.rs, as a filter or a walk over the positions of the index. *)
From stdpp Require Import base numbers list strings gmap pretty.
From stdpp Require Import options.
From S2P Require Import Prelude Instr Exec Store Host.
Local Open Scope Z_scope.

Section set.
Context `{Library} {G : Type} `{!Guest G}.
Abbreviation M := (M G).

Definition new_empty_set : NativeSetState := mkSet new_empty None.

Definition set_len (s : NativeSetState) : Z := Z.of_nat (length (entries (s_store s))).

Definition set_values (s : NativeSetState) : list Value := snd <$> entries (s_store s).

(** [.enumerate().filter(..)] from position [i] on. *)
Fixpoint enumerate_filter (i : nat) (hash : Z) (es : list (Z * Value)) : list Z :=
  match es with
  | [] => []
  | (h, _) :: es =>
      if h =? hash then as_u32 i :: enumerate_filter (S i) hash es else enumerate_filter (S i) hash es
  end.

Definition candidate (s : NativeSetState) (i : Z) : option (Z * Value) :=
  '(_, v) ← entry_at (s_store s) i; Some (i, v).

Definition set_bucket (hash : Z) (s : NativeSetState) : option (list (Z * Value)) :=
  mapM (candidate s)
    (if negb (indexed (s_store s)) then enumerate_filter 0 hash (entries (s_store s))
     else default [] (index (s_store s) !! hash)).

Definition set_append (hash : Z) (v : Value) (s : NativeSetState) : NativeSetState :=
  mkSet (append hash v (s_store s)) (s_elem s).

Definition set_remove_at (idx : Z) (s : NativeSetState) : option NativeSetState :=
  '(_, st) ← remove_at idx (s_store s); Some (mkSet st (s_elem s)).

(** [clone_contents] and [adopt_contents] copy the entries with their index. *)
Definition adopt_contents (s : NativeSetState) (contents : Store Value) : NativeSetState :=
  mkSet contents (s_elem s).

Definition update_set (v : Value) (f : NativeSetState → option NativeSetState) : M unit :=
  s ← the_set v;
  s' ← or_panic (f s);
  put_cell v (PSet s').

Definition set_find (set_val value : Value) : M (Z * option Z) :=
  h ← map_hash_key value;
  s ← the_set set_val;
  b ← or_panic (set_bucket h s);
  hit ← first_equal value b;
  mret (h, hit).

(** ** The operations of the machine (vm/alloc.rs) *)

Definition set_contains (set_val value : Value) : M bool :=
  '(_, found) ← set_find set_val value; mret (bool_decide (is_Some found)).

Definition set_add (set_val value : Value) : M bool :=
  '(h, found) ← set_find set_val value;
  match found with
  | Some _ => mret false
  | None => _ ← update_set set_val (λ s, Some (set_append h value s)); mret true
  end.

Definition set_remove (set_val value : Value) : M bool :=
  '(_, found) ← set_find set_val value;
  match found with
  | Some idx => _ ← update_set set_val (set_remove_at idx); mret true
  | None => mret false
  end.

(** ** The methods *)

Definition set_count (receiver : Value) : M Value :=
  s ← the_set receiver; mret (VInt (set_len s)).

Definition set_add_method (receiver arg : Value) : M Value :=
  s ← the_set receiver;
  _ ← check_insert (s_elem s) "Set" arg None;
  _ ← set_add receiver arg;
  mret receiver.

Definition set_contains_method (receiver arg : Value) : M Value :=
  '(_, found) ← set_find receiver arg; mret (VBool (bool_decide (is_Some found))).

Definition set_remove_method (receiver arg : Value) : M Value :=
  '(_, found) ← set_find receiver arg;
  _ ← match found with
      | Some idx => update_set receiver (set_remove_at idx)
      | None => mret tt
      end;
  mret receiver.

Definition new_set (s : NativeSetState) : M Value := new_cell (mkObject "Set" (PSet s)).

Definition set_of (arg : Value) : M Value :=
  tag ← from_class_value arg;
  match tag with
  | None => λ w, Done (Err (TypeError "Class" (type_name arg w)
                              "Set.of: expects an element class (e.g. `Set.of:String`)")) w
  | Some t =>
      v ← new_set new_empty_set;
      _ ← update_set v (λ s, Some (mkSet (s_store s) (Some t)));
      mret v
  end.

Fixpoint check_elements (container : string) (t : ElemTag) (i : nat) (vs : list Value) : M unit :=
  match vs with
  | [] => mret tt
  | v :: vs =>
      _ ← check_insert (Some t) container v (Some (Z.of_nat i));
      check_elements container t (S i) vs
  end.

Definition set_ensure (receiver arg : Value) : M Value :=
  tag ← from_class_value arg;
  match tag with
  | None => λ w, Done (Err (TypeError "Class" (type_name arg w)
                              "ensure: expects an element class (e.g. `s.ensure:String`)")) w
  | Some t =>
      s ← the_set receiver;
      _ ← check_elements "Set" t 0 (set_values s);
      s ← the_set receiver;
      v ← new_set (adopt_contents new_empty_set (s_store s));
      _ ← update_set v (λ s, Some (mkSet (s_store s) (Some t)));
      mret v
  end.

Definition set_emptyLike (receiver : Value) : M Value :=
  s ← the_set receiver;
  v ← new_set new_empty_set;
  match s_elem s with
  | Some t => _ ← update_set v (λ s', Some (mkSet (s_store s') (s_elem s))); mret v
  | None => mret v
  end.

Definition set_elementType (receiver : Value) : M Value :=
  s ← the_set receiver;
  match s_elem s with Some t => new_symbol (tag_name t) | None => mret VNil end.

(** [each:] takes the length once and reads the set again before every call. *)
Fixpoint set_each_from (n : nat) (i : nat) (receiver block : Value) : M unit :=
  match n with
  | O => mret tt
  | S n =>
      s ← the_set receiver;
      _ ← match set_values s !! i with
          | Some elem => _ ← call_method block "valueWithSelfOrArg:" [elem]; mret tt
          | None => mret tt
          end;
      set_each_from n (S i) receiver block
  end.

Definition set_each (receiver block : Value) : M Value :=
  s ← the_set receiver;
  _ ← set_each_from (length (entries (s_store s))) 0 receiver block;
  mret receiver.

(** [s] and [==:] take the length once and read the set live. *)
Fixpoint set_parts (n i : nat) (receiver : Value) : M (list string) :=
  match n with
  | O => mret []
  | S n =>
      s ← the_set receiver;
      v ← match set_values s !! i with
          | Some v => mret v
          | None => throw (Other "Index out of bounds")
          end;
      result ← call_method v "s" [];
      part ← read (rendered result);
      parts ← set_parts n (S i) receiver;
      mret (part :: parts)
  end.

Definition set_s (receiver : Value) : M Value :=
  s ← the_set receiver;
  parts ← set_parts (length (entries (s_store s))) 0 receiver;
  new_string ("#<" +:+ String.concat " " parts +:+ ">").

Definition set_value_at (idx : Z) (s : NativeSetState) : option Value :=
  snd <$> entry_at (s_store s) idx.

Fixpoint elements_in (n i : nat) (receiver other : Value) : M bool :=
  match n with
  | O => mret true
  | S n =>
      s ← the_set receiver;
      elem ← or_panic (set_value_at (as_u32 i) s);
      '(_, found) ← set_find other elem;
      match found with
      | None => mret false
      | Some _ => elements_in n (S i) receiver other
      end
  end.

Definition set_equal (receiver other : Value) : M Value :=
  s ← the_set receiver;
  rhs ← read (set_at_value other);
  match rhs with
  | None => mret (VBool false)
  | Some s' =>
      if set_len s =? set_len s'
      then eq ← elements_in (length (entries (s_store s))) 0 receiver other; mret (VBool eq)
      else mret (VBool false)
  end.

Definition set_collector (receiver : Value) : M Value :=
  s ← the_set receiver;
  new_cell (mkObject "List" (PList (mkList [] (s_elem s)))).

End set.
