(* ===== verification/ListStore.v ===== *)
(** * Lists (src/src/runtime/list.rs, src/src/devirt_ops.rs)

    The native methods of the class List.  A method that calls the program for each element
    reads the list again before every call, because the call may change it; [sort] and
    [sort:] move the elements in place by insertion, and ask the program which of two
    neighbours comes first. *)
From stdpp Require Import base numbers list strings gmap pretty.
From stdpp Require Import options.
From S2P Require Import Prelude Instr Exec Store Host.
Local Open Scope Z_scope.

Section list.
Context `{Library} {G : Type} `{!Guest G}.
Abbreviation M := (M G).

(** ** The shared bodies of the instructions and the methods (devirt_ops.rs) *)

Definition list_get (l : list Value) (i : Z) : option Value :=
  if 0 <=? i then l !! Z.to_nat i else None.

Definition list_set (l : list Value) (i : Z) (v : Value) : result QuoinError (list Value) :=
  if (0 <=? i) && (i <? Z.of_nat (length l)) then Ok (<[Z.to_nat i := v]> l)
  else Err (IndexError i (Z.of_nat (length l))
    ("Index out of bounds: index is " +:+ pretty i +:+ ", but length is " +:+ pretty (length l))).

(** ** Changing a list *)

Definition update_list (v : Value) (f : list Value → list Value) : M unit :=
  l ← the_list v; put_cell v (PList (mkList (f (vec l)) (l_elem l))).

Definition new_list_with_tag (l : list Value) (tag : option ElemTag) : M Value :=
  new_cell (mkObject "List" (PList (mkList l tag))).

Definition list_count (receiver : Value) : M Value :=
  l ← the_list receiver; mret (VInt (Z.of_nat (length (vec l)))).

Definition list_of (arg : Value) : M Value :=
  tag ← from_class_value arg;
  match tag with
  | None => λ w, Done (Err (TypeError "Class" (type_name arg w)
                              "List.of: expects an element class (e.g. `List.of:Integer`)")) w
  | Some t => new_list_with_tag [] (Some t)
  end.

Fixpoint check_list (t : ElemTag) (i : nat) (vs : list Value) : M unit :=
  match vs with
  | [] => mret tt
  | v :: vs => _ ← check_insert (Some t) "List" v (Some (Z.of_nat i)); check_list t (S i) vs
  end.

Definition list_ensure (receiver arg : Value) : M Value :=
  tag ← from_class_value arg;
  match tag with
  | None => λ w, Done (Err (TypeError "Class" (type_name arg w)
                              "ensure: expects an element class (e.g. `xs.ensure:Integer`)")) w
  | Some t =>
      l ← the_list receiver;
      _ ← check_list t 0 (vec l);
      new_list_with_tag (vec l) (Some t)
  end.

Definition list_emptyLike (receiver : Value) : M Value :=
  l ← the_list receiver; new_list_with_tag [] (l_elem l).

Definition list_elementType (receiver : Value) : M Value :=
  l ← the_list receiver;
  match l_elem l with Some t => new_symbol (tag_name t) | None => mret VNil end.

Definition list_add (receiver arg : Value) : M Value :=
  l ← the_list receiver;
  _ ← check_insert (l_elem l) "List" arg None;
  _ ← update_list receiver (λ vec, vec_push vec arg);
  mret receiver.

Definition list_push (receiver arg : Value) : M Value :=
  l ← the_list receiver;
  _ ← check_insert (l_elem l) "List" arg None;
  _ ← update_list receiver (λ vec, arg :: vec);
  mret receiver.

Definition list_at (receiver : Value) (idx : Z) : M Value :=
  l ← the_list receiver; mret (default VNil (list_get (vec l) idx)).

Definition list_at_put (receiver : Value) (idx : Z) (v : Value) : M Value :=
  l ← the_list receiver;
  _ ← check_insert (l_elem l) "List" v (Some idx);
  l ← the_list receiver;
  match list_set (vec l) idx v with
  | Ok vec => _ ← put_cell receiver (PList (mkList vec (l_elem l))); mret receiver
  | Err e => throw e
  end.

(** [from.max(0) as usize], and the slice [vec[start..end]]. *)
Definition slice (start stop : nat) (l : list Value) : list Value :=
  if (start <? stop)%nat then take (stop - start) (drop start l) else [].

Definition list_sliceFrom (receiver : Value) (idx : Z) : M Value :=
  l ← the_list receiver;
  new_list_with_tag (slice (Z.to_nat (Z.max idx 0)) (length (vec l)) (vec l)) (l_elem l).

Definition list_sliceFromTo (receiver : Value) (from to : Z) : M Value :=
  l ← the_list receiver;
  new_list_with_tag
    (slice (Z.to_nat (Z.max from 0)) (Nat.min (Z.to_nat (Z.max to 0)) (length (vec l))) (vec l))
    (l_elem l).

(** ** Rendering, comparing, destructuring *)

Definition element_or_fail (receiver : Value) (i : nat) : M Value :=
  l ← the_list receiver;
  match vec l !! i with Some v => mret v | None => throw (Other "Index out of bounds") end.

Fixpoint list_parts (n i : nat) (receiver : Value) : M (list string) :=
  match n with
  | O => mret []
  | S n =>
      v ← element_or_fail receiver i;
      result ← call_method v "s" [];
      part ← read (rendered result);
      parts ← list_parts n (S i) receiver;
      mret (part :: parts)
  end.

Definition list_s (receiver : Value) : M Value :=
  l ← the_list receiver;
  parts ← list_parts (length (vec l)) 0 receiver;
  new_string ("#(" +:+ String.concat " " parts +:+ ")").

Fixpoint elements_equal (n i : nat) (receiver other : Value) : M bool :=
  match n with
  | O => mret true
  | S n =>
      lhs_val ← element_or_fail receiver i;
      rhs_val ← element_or_fail other i;
      r ← call_method lhs_val "==:" [rhs_val];
      if is_true r then elements_equal n (S i) receiver other else mret false
  end.

Definition list_equal (receiver other : Value) : M Value :=
  l ← the_list receiver;
  rhs ← read (Host.list_at other);
  match rhs with
  | None => mret (VBool false)
  | Some r =>
      if decide (length (vec l) = length (vec r))
      then eq ← elements_equal (length (vec l)) 0 receiver other; mret (VBool eq)
      else mret (VBool false)
  end.

Definition list_bind (receiver arg : Value) : M Value :=
  block ← arg_block arg 0;
  l ← the_list receiver;
  names ← read (param_syms block);
  execute_block arg (take (length names) (vec l)).

(** One element of [join:], from its own rendering; an answer that is not a string is
    rendered once more. *)
Definition join_piece (pristine_s : bool) (elem : Value) : M string :=
  direct ← read (string_payload elem);
  match pristine_s, direct with
  | true, Some s => mret s
  | _, _ =>
      v1 ← call_method elem "s" [];
      s1 ← read (string_payload v1);
      match s1 with
      | Some s => mret s
      | None => v2 ← call_method v1 "s" []; read (rendered v2)
      end
  end.

(** The list is read live, and may grow while it is joined: the loop has no bound of its own,
    so it takes fuel, and [None] is a run that needs more. *)
Fixpoint join_from (fuel : nat) (pristine_s : bool) (sep out : string) (i : nat)
    (receiver : Value) : M (option string) :=
  match fuel with
  | O => mret None
  | S fuel =>
      l ← the_list receiver;
      match vec l !! i with
      | None => mret (Some out)
      | Some elem =>
          let out := if bool_decide (out = "") then out else out +:+ sep in
          piece ← join_piece pristine_s elem;
          join_from fuel pristine_s sep (out +:+ piece) (S i) receiver
      end
  end.

Definition list_join (fuel : nat) (receiver arg : Value) : M (option Value) :=
  sep ← arg_string arg 0;
  pristine_s ← read (native_method arg "s");
  out ← join_from fuel pristine_s sep "" 0 receiver;
  match out with
  | None => mret None
  | Some out => v ← new_string out; mret (Some v)
  end.

(** ** Sorting *)

Definition shrunk : QuoinError := ValueError "List was shrunk by its sort block during sort".

Definition sort_fetch (list : Value) (idx : nat) : M Value :=
  l ← the_list list;
  match vec l !! idx with Some v => mret v | None => throw shrunk end.

(** [v.swap(j - 1, j)] when both are in range. *)
Definition swap (j : nat) (l : list Value) : option (list Value) :=
  match j with
  | O => None
  | S i => a ← l !! i; b ← l !! j; Some (<[i := b]> (<[j := a]> l))
  end.

Definition sort_swap (list : Value) (j : nat) : M unit :=
  l ← the_list list;
  match swap j (vec l) with
  | Some v => put_cell list (PList (mkList v (l_elem l)))
  | None => throw shrunk
  end.

Definition is_nil (v : Value) : bool := match v with VNil => true | _ => false end.

(** Nil comes last. *)
Definition greater (a b : Value) : M bool :=
  if is_nil a then mret (negb (is_nil b))
  else if is_nil b then mret false
  else r ← call_method a ">:" [b]; mret (is_true r).

(** Are the elements [j-1] and [j] in the wrong order: by [>:], by the [>:] of their keys, or
    because the block does not say that they are in order. *)
Definition wrong_by_value (receiver : Value) (j : nat) : M bool :=
  val_prev ← sort_fetch receiver (j - 1);
  val_curr ← sort_fetch receiver j;
  greater val_prev val_curr.

Definition call_block (block : Value) (args : list Value) : M Value :=
  l ← new_list args; call_method block "valueWithArgs:" [l].

Definition wrong_by_key (block receiver : Value) (j : nat) : M bool :=
  val_prev ← sort_fetch receiver (j - 1);
  key_lhs ← call_block block [val_prev];
  val_curr ← sort_fetch receiver j;
  key_rhs ← call_block block [val_curr];
  greater key_lhs key_rhs.

Definition wrong_by_block (block receiver : Value) (j : nat) : M bool :=
  val_prev ← sort_fetch receiver (j - 1);
  val_curr ← sort_fetch receiver j;
  res ← call_block block [val_prev; val_curr];
  mret (negb (is_true res)).

Section insertion.
Context (wrong : Value → nat → M bool) (receiver : Value).

(** The loop that carries element [j] down to its place. *)
Fixpoint sift (j : nat) : M unit :=
  match j with
  | O => mret tt
  | S i =>
      gt ← wrong receiver j;
      if gt : bool then _ ← sort_swap receiver j; sift i else mret tt
  end.

Fixpoint sift_all (n i : nat) : M unit :=
  match n with
  | O => mret tt
  | S n => _ ← sift i; sift_all n (S i)
  end.

(** [for i in 1..len]. *)
Definition insertion_sort (len : nat) : M Value :=
  _ ← sift_all (len - 1) 1; mret receiver.

End insertion.

Definition list_sort (receiver : Value) : M Value :=
  l ← the_list receiver;
  insertion_sort wrong_by_value receiver (length (vec l)).

Definition list_sort_block (receiver arg : Value) : M Value :=
  block ← arg_block arg 0;
  l ← the_list receiver;
  names ← read (param_syms block);
  if (length names =? 1)%nat
  then insertion_sort (wrong_by_key arg) receiver (length (vec l))
  else insertion_sort (wrong_by_block arg) receiver (length (vec l)).

End list.
