(* ===== verification/KeyProps.v ===== *)
(** * Which keys are lawful

    The store finds a key only when equal keys have equal hashes.  For the keys whose
    equality the runtime decides this holds up to two exceptions, NaN and integers of 54 bits
    and more, which compare with doubles by rounding.  The proof is by a normal form: two such
    keys are equal exactly when their normal forms are, and the hash is one of the normal form. *)
From Stdlib Require Import SpecFloat.
From stdpp Require Import base numbers list strings gmap pretty.
From stdpp Require Import options.
From S2P Require Import Prelude Instr Exec Store Host.
Local Open Scope Z_scope.

#[export] Instance spec_float_eq_dec : EqDecision f64.
Proof. solve_decision. Defined.

(** ** Doubles *)

Lemma SFeqb_eq (x y : f64) :
  SFeqb x y = true → x = y ∨ ∃ s s', x = S754_zero s ∧ y = S754_zero s'.
Proof.
  unfold SFeqb. destruct x as [s|s| |s m e], y as [s'|s'| |s' m' e']; simpl;
    try done; try (by destruct s); try (by destruct s'); try (by destruct s, s'; auto).
  - intros _. right. eauto.
  - destruct s, s'; try done; destruct (Z.compare_spec e e') as [->| |]; try done;
      change (Pos.compare_cont Datatypes.Eq m m') with (m ?= m')%positive;
      destruct (Pos.compare_spec m m') as [->| |]; simpl; auto; done.
Qed.

Lemma SFeqb_refl (x : f64) : x ≠ S754_nan → SFeqb x x = true.
Proof.
  unfold SFeqb. destruct x as [s|s| |s m e]; simpl; try done; [by destruct s|].
  intros _. rewrite Z.compare_refl. change (Pos.compare_cont Datatypes.Eq m m) with (m ?= m)%positive.
  rewrite Pos.compare_refl. by destruct s.
Qed.

(** Zero without its sign. *)
Definition unsigned_zero (d : f64) : f64 :=
  match d with S754_zero _ => S754_zero false | d => d end.

Lemma SFeqb_spec (x y : f64) :
  x ≠ S754_nan → y ≠ S754_nan →
  SFeqb x y = bool_decide (unsigned_zero x = unsigned_zero y).
Proof.
  intros Hx Hy. case_bool_decide as Heq.
  - destruct (decide (x = y)) as [->|Hne]; [by apply SFeqb_refl|].
    by destruct x, y; simplify_eq/=.
  - apply not_true_is_false. intros [->|(s & s' & -> & ->)]%SFeqb_eq; by apply Heq.
Qed.

(** ** Small integers as doubles *)

Lemma digits2_pos_size p : digits2_pos p = Pos.size p.
Proof. by induction p; simpl; f_equal. Qed.

Lemma shift_nat_spec n p :
  Zpos (Nat.iter n xO p) = Zpos p * 2 ^ Z.of_nat n ∧
  Zpos (digits2_pos (Nat.iter n xO p)) = Zpos (digits2_pos p) + Z.of_nat n.
Proof.
  induction n as [|n [IH1 IH2]].
  - change (2 ^ Z.of_nat 0) with 1. simpl. lia.
  - rewrite Nat2Z.inj_succ, Z.pow_succ_r by lia. cbn [Nat.iter nat_rect digits2_pos].
    fold (Nat.iter n xO p). rewrite Pos2Z.inj_xO, IH1, Pos2Z.inj_succ, IH2. split; lia.
Qed.

Lemma shift_pos_spec k p :
  Zpos (Pos.iter xO p k) = Zpos p * 2 ^ Zpos k ∧
  Zpos (digits2_pos (Pos.iter xO p k)) = Zpos (digits2_pos p) + Zpos k.
Proof.
  rewrite Pos2Nat.inj_iter. rewrite <- (positive_nat_Z k). apply shift_nat_spec.
Qed.

Lemma digits2_pos_le p n : Zpos p < 2 ^ n → 0 ≤ n → Zpos (digits2_pos p) ≤ n.
Proof.
  intros Hp Hn. rewrite digits2_pos_size. pose proof (Pos.size_le p) as Hs.
  apply Pos2Z.pos_le_pos in Hs. rewrite Pos2Z.inj_pow, Pos2Z.inj_xO in Hs.
  destruct (Z.le_gt_cases (Zpos (Pos.size p)) n) as [|Hgt]; [done|].
  assert (2 ^ (n + 1) ≤ 2 ^ Zpos (Pos.size p)) by (apply Z.pow_le_mono_r; lia).
  change (2 * 1) with 2 in Hs. rewrite Z.pow_add_r in * by lia. lia.
Qed.

(** A mantissa of 53 digits is not rounded. *)
Lemma round_exact s m e :
  Zpos (digits2_pos m) = 53 → - 1000 ≤ e ≤ 900 →
  binary_round_aux 53 1024 s (Zpos m) e loc_Exact = S754_finite s m e.
Proof.
  intros Hm He. unfold binary_round_aux.
  assert (∀ l, shr_fexp 53 1024 (Zpos m) e l = (shr_record_of_loc (Zpos m) l, e)) as Hshr.
  { intros l. unfold shr_fexp, fexp, emin, shr. simpl Zdigits2. rewrite Hm.
    by replace (Z.max _ _ - e) with 0 by lia. }
  rewrite Hshr. cbn. rewrite Hshr. cbn. by rewrite (proj2 (Z.leb_le _ _)) by lia.
Qed.

Lemma small_round s p :
  Zpos p < 2 ^ 53 →
  ∃ m e, binary_round 53 1024 s p 0 = S754_finite s m e ∧
         - 52 ≤ e ≤ 0 ∧ Zpos m = Zpos p * 2 ^ (- e).
Proof.
  intros Hp. pose proof (digits2_pos_le p 53 Hp ltac:(lia)) as Hd.
  unfold binary_round, shl_align, fexp, emin.
  replace (Z.max (Zpos (digits2_pos p) + 0 - 53) (3 - 1024 - 53)) with (Zpos (digits2_pos p) - 53) by lia.
  rewrite Z.sub_0_r.
  destruct (Zpos (digits2_pos p) - 53) as [|k|k] eqn:Ek; [|lia|].
  - exists p, 0. rewrite round_exact by lia. rewrite Z.mul_1_r. split_and!; [done|lia..].
  - destruct (shift_pos_spec k p) as [H1 H2].
    exists (Pos.iter xO p k), (- Zpos k). rewrite round_exact by lia.
    rewrite Z.opp_involutive. split_and!; [done|lia..|done].
Qed.

Definition small (i : Z) : Prop := Z.abs i < 2 ^ 53.

(** The double of a small integer is that integer. *)
Lemma i64_to_f64_small i :
  small i →
  i = 0 ∧ i64_to_f64 i = S754_zero false ∨
  i ≠ 0 ∧ ∃ m e, i64_to_f64 i = S754_finite (i <? 0) m e ∧
                 - 52 ≤ e ≤ 0 ∧ Zpos m = Z.abs i * 2 ^ (- e).
Proof.
  unfold small, i64_to_f64, binary_normalize. intros Hi.
  destruct i as [|p|p]; [by left|right..]; (split; [done|]); simpl Z.abs in *;
    exact (small_round _ p Hi).
Qed.

Lemma i64_to_f64_inj i j : small i → small j → i64_to_f64 i = i64_to_f64 j → i = j.
Proof.
  intros Hi Hj Heq.
  destruct (i64_to_f64_small i Hi) as [[Zi Ei]|(Ni & m & e & Ei & He & Hm)],
    (i64_to_f64_small j Hj) as [[Zj Ej]|(Nj & m' & e' & Ej & He' & Hm')];
    rewrite Ei, Ej in Heq; [congruence|done|done|].
  injection Heq as Hs -> ->.
  rewrite Hm in Hm'. apply Z.mul_cancel_r in Hm'; [|lia].
  destruct (Z.ltb_spec i 0), (Z.ltb_spec j 0); try done; lia.
Qed.

Lemma unsigned_small i : small i → unsigned_zero (i64_to_f64 i) = i64_to_f64 i ∧ i64_to_f64 i ≠ S754_nan.
Proof. intros [[_ ->]|(_ & m & e & -> & _)]%i64_to_f64_small; done. Qed.

Section keys.
Context `{Library}.

(** A double hashes as the small integer it equals. *)
Lemma hash_double_small i : small i → hash_double (i64_to_f64 i) = hash_i64 i.
Proof.
  intros Hi. unfold hash_double. destruct (i64_to_f64_small i Hi) as [[-> ->]|(Hn & m & e & -> & He & Hm)].
  { done. }
  assert (fract_zero (S754_finite (i <? 0) m e) = true) as ->.
  { simpl. rewrite Hm, Z.mod_mul by lia. by rewrite orb_true_r. }
  assert (SFleb (i64_to_f64 (- 2 ^ 63)) (S754_finite (i <? 0) m e) = true) as ->.
  { change (i64_to_f64 (- 2 ^ 63)) with (S754_finite true 4503599627370496 11).
    unfold SFleb. cbn [SFcompare]. destruct (i <? 0); [|done]. by rewrite (proj2 (Z.compare_gt_iff _ _)) by lia. }
  assert (SFleb (S754_finite (i <? 0) m e) (i64_to_f64 (2 ^ 63 - 1)) = true) as ->.
  { change (i64_to_f64 (2 ^ 63 - 1)) with (S754_finite false 4503599627370496 11).
    unfold SFleb. cbn [SFcompare]. destruct (i <? 0); [done|]. by rewrite (proj2 (Z.compare_lt_iff _ _)) by lia. }
  simpl. f_equal. rewrite Z.shiftl_div_pow2 by lia. rewrite Hm, Z.div_mul by lia.
  unfold small in Hi. destruct (Z.ltb_spec i 0); lia.
Qed.

Lemma hash_double_unsigned d : hash_double (unsigned_zero d) = hash_double d.
Proof. by destruct d as [[]| | |]. Qed.

(** ** The normal form of a key *)

Inductive NormalKey :=
| NNum (d : f64)
| NBool (b : bool)
| NNil
| NClass (p : N)
| NMeta (p : N)
| NStr (s : string)
| NSym (p : N)
| NBytes (b : list Byte.byte)
| NBlock (p : N)
| NCell (p : N).

#[global] Instance NormalKey_eq_dec : EqDecision NormalKey.
Proof. solve_decision. Defined.

Definition normal {G} (w : World G) (v : Value) : NormalKey :=
  match v with
  | VInt i => NNum (i64_to_f64 i)
  | VDouble d => NNum (unsigned_zero d)
  | VBool b => NBool b
  | VNil => NNil
  | VClass p => NClass p
  | VClassMeta p => NMeta p
  | VObject p =>
      match payload_at p w with
      | PString s => NStr s
      | PSymbol s => NSym s
      | PBytes b => NBytes b
      | PBlock b => NBlock b
      | _ => NCell p
      end
  end.

Definition hash_normal (n : NormalKey) : Z :=
  match n with
  | NNum d => hash_double d
  | NBool b => if b then 0x9e3779b97f4a7c15 else 0x517cc1b727220a95
  | NNil => 0x2545f4914f6cdd1d
  | NClass p => hash_ptr p
  | NMeta p => Z.lxor (hash_ptr p) 0x5bd1
  | NStr s => hash_str s
  | NSym s => hash_ptr (text_ptr s)
  | NBytes b => Z.lxor (hash_bytes b) 0x1f83
  | NBlock b => hash_ptr b
  | NCell p => hash_ptr p
  end.

(** The keys whose equality the runtime decides, but NaN and large integers; and the mutable
    collections, which are keys by identity. *)
Definition plain {G} (w : World G) (v : Value) : Prop :=
  match v with
  | VInt i => small i
  | VDouble d => d ≠ S754_nan
  | VObject p =>
      match payload_at p w with
      | PInstance | PBigInteger _ | PBigDecimal _ => False
      | _ => True
      end
  | _ => True
  end.

Lemma plain_hash {G} (w : World G) v :
  plain w v → value_hash_scalar v w = Some (hash_normal (normal w v)).
Proof.
  destruct v as [i|d| | | | |p]; simpl; try done.
  - intros Hi. by rewrite hash_double_small.
  - by rewrite hash_double_unsigned.
  - by destruct (payload_at p w).
Qed.

Lemma normal_object {G} (w : World G) p q :
  value_eq w (VObject p) (VObject q) =
  bool_decide (normal w (VObject p) = normal w (VObject q)).
Proof.
  simpl. destruct (payload_at p w) eqn:Ep, (payload_at q w) eqn:Eq; try (by rewrite bool_decide_eq_false_2);
    try (apply bool_decide_ext; naive_solver).
  all: try (rewrite !bool_decide_eq_false_2; [done|done|congruence]).
Qed.

Lemma plain_eq {G} (w : World G) a b :
  plain w a → plain w b → value_eq w a b = bool_decide (normal w a = normal w b).
Proof.
  intros Ha Hb.
  destruct a as [i|x|x| |x|x|p], b as [j|y|y| |y|y|q]; try apply normal_object;
    try (symmetry; apply bool_decide_eq_false_2; simpl; by destruct (payload_at _ w)); try done; simpl in *.
  - destruct (Z.eqb_spec i j) as [->|Hne].
    + by rewrite bool_decide_eq_true_2.
    + rewrite bool_decide_eq_false_2; [done|]. intros [= ?%i64_to_f64_inj]; done.
  - destruct (unsigned_small i Ha) as [E1 E2]. rewrite SFeqb_spec by done. rewrite E1.
    apply bool_decide_ext. split; congruence.
  - destruct (unsigned_small j Hb) as [E1 E2]. rewrite SFeqb_spec by done. rewrite E1.
    apply bool_decide_ext. split; congruence.
  - rewrite SFeqb_spec by done. apply bool_decide_ext. split; congruence.
  - destruct x, y; by case_bool_decide.
  - apply bool_decide_ext. split; congruence.
  - apply bool_decide_ext. split; congruence.
Qed.

End keys.
