(* ===== verification/MapRefine.v ===== *)
(** * Stores of keyed entries

    What maps and sets share: the entries of a store with their keys, the laws a kind of keys
    has to obey, the invariant of a store of such keys, and the search for one. *)
From stdpp Require Import base numbers list strings gmap pretty.
From stdpp Require Import options.
From S2P Require Import Prelude Instr Exec Store Host MapStore KeyProps.
Local Open Scope Z_scope.

(** ** Distinct keys *)

Section distinct.
Context {K : Type} (eqk : K → K → bool).
Implicit Types l : list K.

(** No two keys are equal. *)
Definition distinct l : Prop :=
  ∀ i j a b, l !! i = Some a → l !! j = Some b → eqk a b = true → i = j.

Lemma distinct_snoc l k :
  distinct l → (∀ a, a ∈ l → eqk a k = false ∧ eqk k a = false) → distinct (l ++ [k]).
Proof.
  intros Hd Hk i j a b Ha Hb Heq.
  apply lookup_snoc_Some in Ha as [[Hi Ha]|[-> <-]], Hb as [[Hj Hb]|[-> <-]].
  - by apply (Hd i j a b).
  - apply list_elem_of_lookup_2, Hk in Ha as [? _]. congruence.
  - apply list_elem_of_lookup_2, Hk in Hb as [_ ?]. congruence.
  - done.
Qed.

Lemma distinct_delete l i : distinct l → distinct (delete i l).
Proof.
  intros Hd j k a b Ha Hb Heq.
  rewrite list_lookup_delete in Ha, Hb. pose proof (Hd _ _ _ _ Ha Hb Heq) as E.
  repeat case_decide; lia.
Qed.

End distinct.

(** ** Lawful keys *)

Section lawful.
Context `{Library} {G : Type} `{!Guest G}.
Implicit Types (w : World G).

(** The worlds in which the keys behave; replacing the state of a map or a set keeps a world
    one. *)
Record lawful (K : Value → Prop) (I : World G → Prop)
    (eqk : Value → Value → bool) (hk : Value → Z) : Prop := {
  lawful_hash : ∀ k w, K k → I w → map_hash_key k w = Done (Ok (hk k)) w;
  lawful_eq : ∀ a b w, K a → K b → I w → keys_equal a b w = Done (Ok (eqk a b)) w;
  lawful_refl : ∀ a, K a → eqk a a = true;
  lawful_sym : ∀ a b, K a → K b → eqk a b = true → eqk b a = true;
  lawful_trans : ∀ a b c, K a → K b → K c → eqk a b = true → eqk b c = true → eqk a c = true;
  lawful_hash_eq : ∀ a b, K a → K b → eqk a b = true → hk a = hk b;
  lawful_put : ∀ p m m' w, payload_at p w = PMap m → I w → I (put_payload p (PMap m') w);
  lawful_put_set : ∀ p s s' w, payload_at p w = PSet s → I w → I (put_payload p (PSet s') w) }.

Context {K : Value → Prop} {I : World G → Prop} {eqk : Value → Value → bool} {hk : Value → Z}.
Context (L : lawful K I eqk hk).

Lemma first_equal_lawful key (b : list (Z * Value)) w :
  K key → Forall (λ c, K c.2) b → I w →
  first_equal key b w = Done (Ok (first_match (λ k, eqk k key) b)) w.
Proof using L.
  intros Hk Hb Hw. induction Hb as [|[i k] b Hki Hb IH]; [done|]. cbn [first_equal first_match].
  unfold mbind, M_bind. rewrite (lawful_eq _ _ _ _ L) by done.
  by destruct (eqk k key).
Qed.

(** ** Stores *)

Context {P : Type} (key_of : P → Value).
Implicit Types (s : Store P).

Definition payloads s : list P := snd <$> entries s.
Definition keys s : list Value := key_of <$> payloads s.

(** The place of a key among keys. *)
Definition key_place (k : Value) (ks : list Value) : option nat := index_where (λ x, eqk x k) ks.

(** The index agrees with the entries, each key is kept with its hash, and no key is there
    twice. *)
Record keyed_ok s : Prop := {
  ok_store : store_ok s;
  ok_hash : ∀ h p, (h, p) ∈ entries s → h = hk (key_of p);
  ok_keys : Forall K (keys s);
  ok_distinct : distinct eqk (keys s);
  ok_len : Z.of_nat (length (entries s)) ≤ 2 ^ 32 }.

Lemma keyed_key s j h p : keyed_ok s → entries s !! j = Some (h, p) → K (key_of p).
Proof.
  intros [_ _ Hd _ _] Hj. unfold keys, payloads in Hd. rewrite !Forall_fmap in Hd.
  by apply (proj1 (Forall_lookup _ _) Hd _ _ Hj).
Qed.

Lemma first_match_place key s :
  keyed_ok s → K key →
  first_match (λ k, eqk k key) (prod_map Z.of_nat key_of <$> candidates (hk key) (entries s)) =
  Z.of_nat <$> key_place key (keys s).
Proof using L.
  intros Hok Hk. rewrite first_match_fmap. unfold candidates. rewrite first_match_candidates.
  - unfold key_place, keys, payloads. rewrite !index_where_fmap. by destruct (index_where _ _).
  - intros h p Hin Ht. rewrite (ok_hash _ Hok _ _ Hin).
    apply list_elem_of_lookup in Hin as [j Hj].
    apply (lawful_hash_eq _ _ _ _ L); [by eapply keyed_key|done..].
Qed.

(** The search among the candidates of the key's hash. *)
Lemma search_lawful key s w :
  keyed_ok s → K key → I w →
  first_equal key (prod_map Z.of_nat key_of <$> candidates (hk key) (entries s)) w =
  Done (Ok (Z.of_nat <$> key_place key (keys s))) w.
Proof using L.
  intros Hok Hk Hw. rewrite first_equal_lawful; [|done| |done].
  - by rewrite first_match_place.
  - apply Forall_fmap, Forall_forall. intros [j p] Hin. apply candidates_spec in Hin.
    by apply (keyed_key _ _ _ _ Hok Hin).
Qed.

Lemma keyed_same_keys s s' :
  keyed_ok s → store_ok s' → fst <$> entries s' = fst <$> entries s → keys s' = keys s →
  keyed_ok s'.
Proof.
  intros [Hst Hh Hk Hd Hl] Hs' Hhash Hkeys. split; [done| |by rewrite Hkeys..|].
  - intros h p Hin. apply list_elem_of_lookup in Hin as [j Hj].
    assert ((fst <$> entries s) !! j = Some h) as E1
      by (by rewrite <- Hhash, list_lookup_fmap, Hj).
    assert (keys s !! j = Some (key_of p)) as E2.
    { rewrite <- Hkeys. unfold keys, payloads. by rewrite !list_lookup_fmap, Hj. }
    unfold keys, payloads in E2. rewrite !list_lookup_fmap in *.
    destruct (entries s !! j) as [[h' p']|] eqn:Ej; simplify_eq/=.
    rewrite <- E2. by eapply Hh, list_elem_of_lookup_2.
  - by rewrite <- (length_fmap fst), Hhash, length_fmap.
Qed.

Lemma payloads_append h p s : payloads (append h p s) = payloads s ++ [p].
Proof. unfold payloads. by rewrite append_entries, fmap_app. Qed.

Lemma keyed_append p s :
  keyed_ok s → K (key_of p) → key_place (key_of p) (keys s) = None →
  Z.of_nat (length (entries s)) < 2 ^ 32 →
  keyed_ok (append (hk (key_of p)) p s).
Proof using L.
  intros [Hst Hh Hk Hd Hl] Hkey Hno Hlen.
  assert (keys (append (hk (key_of p)) p s) = keys s ++ [key_of p]) as Hp
    by (unfold keys; by rewrite payloads_append, fmap_app).
  split.
  - by apply append_ok.
  - intros h q Hin. rewrite append_entries in Hin.
    apply elem_of_app in Hin as [Hin|Hin%list_elem_of_singleton]; [auto|]. by simplify_eq/=.
  - rewrite Hp. apply Forall_app. split; [done|]. by apply Forall_singleton.
  - rewrite Hp. apply distinct_snoc; [done|]. intros a Ha.
    assert (K a) by (by apply (proj1 (Forall_forall _ _) Hk)).
    apply list_elem_of_lookup in Ha as [j Ha].
    pose proof (proj1 (index_where_None _ _) Hno _ _ Ha) as Hne. simpl in Hne.
    split; [done|]. apply not_true_is_false. intros Heq.
    apply (lawful_sym _ _ _ _ L) in Heq; [congruence|done..].
  - rewrite append_entries, length_app. simpl. lia.
Qed.

(** ** Removing *)

Lemma remove_at_spec i s p :
  payloads s !! i = Some p →
  ∃ s', remove_at (Z.of_nat i) s = Some (p, s') ∧ store_ok s' ∧
        entries s' = delete i (entries s).
Proof.
  unfold payloads. intros He. rewrite list_lookup_fmap in He.
  destruct (entries s !! i) as [[h q]|] eqn:Ei; simplify_eq/=.
  unfold remove_at, entry_at. rewrite Nat2Z.id, Ei. simpl.
  eexists. split; [reflexivity|].
  match goal with |- context [if indexed ?x then _ else _] => set (b := indexed x) end.
  assert (∀ x y : Store P, entries x = entries y →
    entries (if b then x else y) = entries y) as Hif by (by destruct b).
  rewrite Hif by done. cbn [entries]. split; [|done].
  unfold store_ok. rewrite Hif by done. cbn [entries]. unfold b, indexed. simpl.
  by destruct (_ <? _)%nat eqn:E; simpl; rewrite E.
Qed.

Lemma keyed_remove i s s' p :
  keyed_ok s → remove_at (Z.of_nat i) s = Some (p, s') → keyed_ok s'.
Proof.
  intros [Hst Hh Hk Hd Hl] Hr.
  assert (is_Some (entries s !! i)) as [[h q] Hi].
  { unfold remove_at, entry_at in Hr. rewrite Nat2Z.id in Hr. by destruct (entries s !! i). }
  destruct (remove_at_spec i s q) as (s'' & Hr' & Hs & He).
  { unfold payloads. by rewrite list_lookup_fmap, Hi. }
  rewrite Hr' in Hr. simplify_eq.
  assert (keys s' = delete i (keys s)) as Hp
    by (unfold keys, payloads; by rewrite He, !list_fmap_delete).
  split; [done| | | |].
  - intros h' q' Hin. rewrite He in Hin. apply list_elem_of_lookup in Hin as [j Hj].
    rewrite list_lookup_delete in Hj. by eapply Hh, list_elem_of_lookup_2.
  - rewrite Hp. by apply Forall_delete.
  - rewrite Hp. by apply distinct_delete.
  - rewrite He, length_delete; [lia|]. by eexists.
Qed.

End lawful.
Arguments keyed_ok K eqk hk {P} key_of s.
Arguments key_place eqk k ks : clear implicits.

(** * A map is an insertion-ordered association list

    The specification is a list of pairs: a lookup answers with the first pair whose key is
    equal, storing under an equal key replaces the value and keeps the key and the place,
    storing under a new one appends, and removing keeps the order of the rest.  The store
    implements it for every kind of key whose hash and equality behave: they leave the world
    alone, equality is an equivalence, and equal keys have equal hashes ([lawful]). *)
Local Open Scope Z_scope.

(** ** The specification *)

Section spec.
Context {K V : Type} (eqk : K → K → bool).

Definition place (k : K) (l : list (K * V)) : option nat := index_where (λ e, eqk e.1 k) l.

Definition spec_get (k : K) (l : list (K * V)) : option V :=
  i ← place k l; snd <$> l !! i.

Definition spec_put (k : K) (v : V) (l : list (K * V)) : list (K * V) :=
  match place k l with
  | Some i => alter (λ e, (e.1, v)) i l
  | None => l ++ [(k, v)]
  end.

Definition spec_remove (k : K) (l : list (K * V)) : list (K * V) :=
  match place k l with Some i => delete i l | None => l end.

Context (dom : K → Prop).
Context (eqk_refl : ∀ a, dom a → eqk a a = true).
Context (eqk_sym : ∀ a b, dom a → dom b → eqk a b = true → eqk b a = true).
Context (eqk_trans : ∀ a b c, dom a → dom b → dom c → eqk a b = true → eqk b c = true → eqk a c = true).

Definition over (l : list (K * V)) : Prop := Forall (λ e, dom e.1) l.

Lemma place_put k v k' l :
  over l → dom k → dom k' →
  place k' (spec_put k v l) =
  match place k' l with
  | Some i => Some i
  | None => if eqk k k' then Some (length l) else None
  end.
Proof using eqk_trans.
  intros Hl Hk Hk'. unfold spec_put. destruct (place k l) as [i|] eqn:Ei; unfold place in *.
  - assert (index_where (λ e, eqk e.1 k') (alter (λ e, (e.1, v)) i l) =
            index_where (λ e, eqk e.1 k') l) as Hsame.
    { clear Ei Hl. revert i. induction l as [|e l IH]; intros [|i]; try done.
      change (alter (λ e0, (e0.1, v)) (S i) (e :: l)) with (e :: alter (λ e0, (e0.1, v)) i l).
      cbn [index_where]. by rewrite IH. }
    rewrite Hsame. destruct (index_where (λ e, eqk e.1 k') l) as [j|] eqn:Ej; [done|].
    apply index_where_Some in Ei as (e & He & Hek & _).
    pose proof (proj1 (index_where_None _ _) Ej _ _ He) as Hno. simpl in Hno.
    destruct (eqk k k') eqn:Ekk; [|done].
    assert (dom e.1) by (by apply (proj1 (Forall_lookup _ _) Hl _ _ He)).
    by rewrite (eqk_trans e.1 k k') in Hno.
  - clear Ei Hl. induction l as [|e l IH]; simpl; [by destruct (eqk k k')|].
    destruct (eqk e.1 k'); [done|]. rewrite IH.
    destruct (index_where _ l); simpl; [done|]. by destruct (eqk k k').
Qed.

Lemma spec_get_put k v k' l :
  over l → dom k → dom k' →
  spec_get k' (spec_put k v l) = if eqk k k' then Some v else spec_get k' l.
Proof using eqk_sym eqk_trans.
  intros Hl Hk Hk'. unfold spec_get. rewrite place_put by done.
  unfold spec_put. destruct (place k l) as [i|] eqn:Ei, (place k' l) as [j|] eqn:Ej; simpl.
  - destruct (decide (i = j)) as [<-|Hne].
    + rewrite list_lookup_alter. unfold place in Ei, Ej.
      apply index_where_Some in Ei as (e & He & H1 & _), Ej as (e' & He' & H2 & _).
      rewrite He in He' |- *. simplify_eq/=.
      assert (dom e'.1) by (by apply (proj1 (Forall_lookup _ _) Hl _ _ He)).
      rewrite decide_True by done. by rewrite (eqk_trans k e'.1 k') by auto.
    + rewrite list_lookup_alter_ne by done. destruct (eqk k k') eqn:Ekk; [|done]. exfalso.
      unfold place in Ei, Ej.
      apply index_where_Some in Ei as (e & He & H1 & M1), Ej as (e' & He' & H2 & M2).
      assert (dom e.1) by (by apply (proj1 (Forall_lookup _ _) Hl _ _ He)).
      assert (dom e'.1) by (by apply (proj1 (Forall_lookup _ _) Hl _ _ He')).
      destruct (Nat.lt_total i j) as [Hlt|[?|Hlt]]; [|done|].
      * specialize (M2 _ _ Hlt He). simpl in M2. by rewrite (eqk_trans e.1 k k') in M2.
      * specialize (M1 _ _ Hlt He'). simpl in M1. by rewrite (eqk_trans e'.1 k' k) in M1 by auto.
  - destruct (eqk k k') eqn:Ekk; [|done]. exfalso. unfold place in Ei, Ej.
    apply index_where_Some in Ei as (e & He & H1 & _).
    assert (dom e.1) by (by apply (proj1 (Forall_lookup _ _) Hl _ _ He)).
    pose proof (proj1 (index_where_None _ _) Ej _ _ He) as Hno. simpl in Hno.
    by rewrite (eqk_trans e.1 k k') in Hno.
  - unfold place in Ei, Ej. pose proof Ej as Hj. apply index_where_Some in Ej as (e & He & H1 & _).
    rewrite lookup_app_l by (by eapply lookup_lt_Some). rewrite He. simpl.
    destruct (eqk k k') eqn:Ekk; [|done]. exfalso.
    assert (dom e.1) by (by apply (proj1 (Forall_lookup _ _) Hl _ _ He)).
    pose proof (proj1 (index_where_None _ _) Ei _ _ He) as Hno. simpl in Hno.
    by rewrite (eqk_trans e.1 k' k) in Hno by auto.
  - destruct (eqk k k'); [|done]. simpl. by rewrite lookup_app_r, Nat.sub_diag by lia.
Qed.

Lemma put_over k v l : over l → dom k → over (spec_put k v l).
Proof.
  intros Hl Hk. unfold spec_put. destruct (place k l) as [i|].
  - apply Forall_lookup. intros j e He. rewrite list_lookup_alter in He.
    case_decide as Hij; subst; [|by apply (proj1 (Forall_lookup _ _) Hl _ _ He)].
    apply fmap_Some in He as (e' & He' & ->).
    by apply (proj1 (Forall_lookup _ _) Hl _ _ He').
  - apply Forall_app. split; [done|]. by apply Forall_singleton.
Qed.

Lemma remove_over k l : over l → over (spec_remove k l).
Proof. intros Hl. unfold spec_remove. destruct (place k l); [by apply Forall_delete|done]. Qed.

End spec.

(** ** The state of a map *)

Section refine.
Context `{Library} {G : Type} `{!Guest G}.
Implicit Types (w : World G) (m : NativeMapState).
Context {K : Value → Prop} {I : World G → Prop} {eqk : Value → Value → bool} {hk : Value → Z}.

(** The pairs of a map. *)
Definition pairs m : list (Value * Value) := payloads (m_store m).

(** The state of a map with such keys. *)
Definition map_ok m : Prop := keyed_ok K eqk hk fst (m_store m).

Lemma place_pairs key m : place eqk key (pairs m) = key_place eqk key (keys fst (m_store m)).
Proof. unfold key_place, keys, pairs, place. by rewrite index_where_fmap. Qed.

Lemma pairs_length m : length (pairs m) = length (entries (m_store m)).
Proof. apply length_fmap. Qed.

Lemma map_ok_over m : map_ok m → over K (pairs m).
Proof. intros Hok. apply ok_keys in Hok. unfold keys in Hok. by rewrite Forall_fmap in Hok. Qed.

Lemma map_bucket_spec hash m :
  store_ok (m_store m) → Z.of_nat (length (pairs m)) ≤ 2 ^ 32 →
  map_bucket hash m = Some (prod_map Z.of_nat fst <$> candidates hash (entries (m_store m))).
Proof.
  intros Hs Hl. rewrite pairs_length in Hl. unfold map_bucket.
  rewrite bucket_spec by done. simpl. by rewrite <- list_fmap_compose.
Qed.

Lemma set_value_at_spec i v m e :
  pairs m !! i = Some e →
  ∃ m', set_value_at (Z.of_nat i) v m = Some m' ∧ m_elem m' = m_elem m ∧
        pairs m' = alter (λ e, (e.1, v)) i (pairs m) ∧ (map_ok m → map_ok m').
Proof.
  unfold pairs, payloads, set_value_at. intros He. rewrite list_lookup_fmap in He.
  destruct (entries (m_store m) !! i) as [[h kv]|] eqn:Ei; simplify_eq/=.
  destruct (set_at (Z.of_nat i) (λ kv, (kv.1, v)) (m_store m)) as [s|] eqn:Es.
  - exists (mkMap s (m_elem m)). cbn [m_store m_elem]. split; [done|]. split; [done|].
    pose proof (set_at_hashes _ _ _ _ Es) as Hhash.
    assert (snd <$> entries s = alter (λ e, (e.1, v)) i (snd <$> entries (m_store m))) as Hp.
    { pose proof Es as Es'. unfold set_at, entry_at in Es'. rewrite Nat2Z.id, Ei in Es'.
      simplify_eq/=. rewrite list_fmap_insert. simpl. apply list_eq. intros j.
      rewrite list_lookup_alter, list_lookup_insert, length_fmap, !list_lookup_fmap.
      pose proof (lookup_lt_Some _ _ _ Ei). destruct (decide (i = j)) as [->|Hne].
      - rewrite decide_True by done. by rewrite Ei.
      - rewrite decide_False; [done|]. by intros [??]. }
    split; [done|]. intros Hok. eapply keyed_same_keys; [exact Hok| |done|].
    + eapply set_at_ok; [apply Hok|exact Es].
    + unfold keys, payloads. cbn [m_store]. rewrite Hp, (list_fmap_alter fst (λ e, (e.1, v)) id).
      * by apply list_alter_id.
      * by apply Forall_true.
  - exfalso. unfold set_at, entry_at in Es. by rewrite Nat2Z.id, Ei in Es.
Qed.

Lemma map_remove_at_spec i m e :
  pairs m !! i = Some e →
  ∃ m', map_remove_at (Z.of_nat i) m = Some (e.2, m') ∧ m_elem m' = m_elem m ∧
        pairs m' = delete i (pairs m) ∧ (map_ok m → map_ok m').
Proof.
  intros He. destruct (remove_at_spec i (m_store m) e He) as (s' & Hr & Hs & Hes).
  exists (mkMap s' (m_elem m)). unfold map_remove_at. rewrite Hr. split_and!; [done..| |].
  - unfold pairs, payloads. cbn [m_store]. by rewrite Hes, list_fmap_delete.
  - intros Hok. by eapply keyed_remove.
Qed.

Context (L : lawful K I eqk hk).

(** Every lookup is the search of the specification, and leaves the world alone. *)
Lemma find_lawful p key m w :
  map_at (VObject p) w = Some m → map_ok m → K key → I w →
  map_find (VObject p) key w = Done (Ok (hk key, Z.of_nat <$> place eqk key (pairs m))) w.
Proof using L.
  intros Hm Hok Hk Hw. unfold map_find, map_find_prehashed, the_map, mbind, M_bind.
  rewrite (lawful_hash _ _ _ _ L) by done. rewrite Hm, map_bucket_spec;
    [|apply Hok|rewrite pairs_length; apply Hok].
  cbn [or_panic]. rewrite (search_lawful L) by done. by rewrite place_pairs.
Qed.

Lemma map_ok_append key v m :
  map_ok m → K key → place eqk key (pairs m) = None → Z.of_nat (length (pairs m)) < 2 ^ 32 →
  map_ok (map_append (hk key) key v m) ∧
  pairs (map_append (hk key) key v m) = pairs m ++ [(key, v)].
Proof using L.
  intros Hok Hkey Hno Hlen. rewrite place_pairs in Hno. rewrite pairs_length in Hlen. split.
  - by apply (keyed_append L fst (key, v)).
  - apply payloads_append.
Qed.

End refine.
Arguments map_ok K eqk hk m : clear implicits.
