(* ===== verification/MapProps.v ===== *)
(** * What the methods of Map do

    On lawful keys each method is the operation of the specification; the two instructions
    agree with the messages they shortcut as long as the stored keys are ones the runtime
    compares; and no method panics unless the program's [hash] or [==:] changes the map it is
    being asked for. *)
From Stdlib Require Import SpecFloat.
From stdpp Require Import base numbers list strings gmap pretty.
From stdpp Require Import options.
From S2P Require Import Prelude Instr Exec Store Host KeyProps MapRefine MapStore.
Local Open Scope Z_scope.

Section cells.
Context `{Library} {G : Type}.
Implicit Types (w : World G).

Lemma map_at_payload p w m : map_at (VObject p) w = Some m → payload_at p w = PMap m.
Proof. simpl. destruct (payload_at p w); intros; by simplify_eq. Qed.

Lemma map_at_heap p w m : map_at (VObject p) w = Some m → ∃ c, heap w !! p = Some (mkObject c (PMap m)).
Proof.
  intros Hm%map_at_payload. unfold payload_at, object_at in Hm.
  destruct (heap w !! p) as [[c pl]|]; simplify_eq/=. eauto.
Qed.

Lemma map_at_put_payload p w m m' :
  map_at (VObject p) w = Some m → map_at (VObject p) (put_payload p (PMap m') w) = Some m'.
Proof.
  intros (c & Hp)%map_at_heap. simpl. unfold payload_at, object_at, put_payload. simpl.
  by rewrite lookup_alter_eq, Hp.
Qed.

Lemma put_payload_same p w m : map_at (VObject p) w = Some m → put_payload p (PMap m) w = w.
Proof.
  intros (c & Hp)%map_at_heap. unfold put_payload. destruct w as [h g]; simpl in *. f_equal.
  apply map_eq. intros q. destruct (decide (q = p)) as [->|Hne].
  - by rewrite lookup_alter_eq, Hp.
  - by rewrite lookup_alter_ne.
Qed.

Lemma update_map_at {A} p w m f (a : A) m' :
  map_at (VObject p) w = Some m → f m = Some (a, m') →
  update_map (VObject p) f w = Done (Ok a) (put_payload p (PMap m') w).
Proof.
  intros Hm Hf. unfold update_map, the_map, or_panic, put_cell, write, mbind, M_bind.
  by rewrite Hm, Hf.
Qed.

End cells.

Section refines.
Context `{Library} {G : Type} `{!Guest G}.
Context {K : Value → Prop} {I : World G → Prop} {eqk : Value → Value → bool} {hk : Value → Z}.
Context (L : lawful K I eqk hk).
Context (p : N) (m : NativeMapState) (w : World G).
Context (Hm : map_at (VObject p) w = Some m) (Hok : map_ok K eqk hk m) (Hw : I w).

(** The methods answer as the specification and leave a map that stands for its answer. *)
Lemma map_get_refines key :
  K key → map_at_key (VObject p) key w = Done (Ok (default VNil (spec_get eqk key (pairs m)))) w.
Proof using All.
  intros Hk. unfold map_at_key, map_get_any, mbind, M_bind.
  rewrite (find_lawful L p key m w) by done. unfold spec_get.
  destruct (place eqk key (pairs m)) as [i|] eqn:Ei; [|done]. cbn [fmap option_fmap option_map].
  unfold or_panic. rewrite Hm. unfold value_at, entry_at. rewrite Nat2Z.id.
  apply index_where_lt, lookup_lt_is_Some_2 in Ei as [e He]. simpl. rewrite He. simpl.
  unfold pairs, payloads in He. rewrite list_lookup_fmap in He.
  destruct (entries (m_store m) !! i) as [[]|]; by simplify_eq/=.
Qed.

Lemma contains_refines key :
  K key →
  map_containsKey (VObject p) key w =
  Done (Ok (VBool (bool_decide (is_Some (spec_get eqk key (pairs m)))))) w.
Proof using All.
  intros Hk. unfold map_containsKey, mbind, M_bind.
  rewrite (find_lawful L p key m w) by done. unfold spec_get, mret, M_ret. do 3 f_equal.
  apply bool_decide_ext.
  destruct (place eqk key (pairs m)) as [i|] eqn:Ei; simpl; [|by split; intros []].
  apply index_where_lt, lookup_lt_is_Some_2 in Ei as [e He]. rewrite He. by split; eauto.
Qed.

Lemma put_refines key v :
  K key → check_insert (m_elem m) "Map String" v None w = Done (Ok tt) w →
  Z.of_nat (length (pairs m)) < 2 ^ 32 →
  ∃ m', map_at_put (VObject p) key v w = Done (Ok (VObject p)) (put_payload p (PMap m') w) ∧
        map_ok K eqk hk m' ∧ m_elem m' = m_elem m ∧ pairs m' = spec_put eqk key v (pairs m).
Proof using All.
  intros Hk Hc Hlen. unfold spec_put.
  assert (∀ f m', f m = Some (tt, m') →
    (_ ← update_map (VObject p) f; mret (VObject p)) w =
    Done (Ok (VObject p)) (put_payload p (PMap m') w)) as Hup.
  { intros f m' Hf. unfold mbind, M_bind. by rewrite (update_map_at p w m f tt m'). }
  assert (∀ r, (_ ← map_put_any (VObject p) key v; mret (VObject p)) w = r ↔
    (_ ← update_map (VObject p) (λ m, match place eqk key (pairs m) with
       | Some i => m' ← set_value_at (Z.of_nat i) v m; Some (tt, m')
       | None => Some (tt, map_append (hk key) key v m) end); mret (VObject p)) w = r) as Hrun.
  { intros r. unfold map_put_any, the_map, mbind, M_bind. rewrite Hm, Hc.
    rewrite (find_lawful L p key m w) by done.
    unfold update_map, the_map, mbind, M_bind. rewrite Hm. by destruct (place _ _ _). }
  unfold map_at_put. destruct (place eqk key (pairs m)) as [i|] eqn:Ei.
  - pose proof (index_where_lt _ _ _ Ei) as Hi. destruct (lookup_lt_is_Some_2 _ _ Hi) as [e He].
    destruct (set_value_at_spec (K:=K) (eqk:=eqk) (hk:=hk) i v m e He) as (m' & Hset & Helem & Hp & Hkeep). exists m'. split_and!.
    + apply Hrun, Hup. rewrite Ei. by rewrite Hset.
    + by apply Hkeep.
    + done.
    + done.
  - destruct (map_ok_append L key v m) as [Hok' Hp]; [done..|].
    exists (map_append (hk key) key v m). split_and!; [|done..]. apply Hrun, Hup. by rewrite Ei.
Qed.

Lemma remove_refines key :
  K key →
  ∃ m', map_remove (VObject p) key w =
        Done (Ok (default VNil (spec_get eqk key (pairs m)))) (put_payload p (PMap m') w) ∧
        map_ok K eqk hk m' ∧ m_elem m' = m_elem m ∧ pairs m' = spec_remove eqk key (pairs m).
Proof using All.
  intros Hk. unfold map_remove, spec_get, spec_remove.
  assert (∀ (k : Z * option Z → M G Value), (map_find (VObject p) key ≫= k) w =
    k (hk key, Z.of_nat <$> place eqk key (pairs m)) w) as Hfind.
  { intros k. unfold mbind, M_bind. by rewrite (find_lawful L p key m w). }
  rewrite Hfind. destruct (place eqk key (pairs m)) as [i|] eqn:Ei; simpl.
  - pose proof (index_where_lt _ _ _ Ei) as Hi. destruct (lookup_lt_is_Some_2 _ _ Hi) as [e He].
    destruct (map_remove_at_spec (K:=K) (eqk:=eqk) (hk:=hk) i m e He) as (m' & Hr & Helem & Hp & Hkeep). exists m'.
    rewrite He. simpl. split_and!; [|by apply Hkeep|done..].
    by rewrite (update_map_at p w m _ e.2 m').
  - exists m. split_and!; [|done..]. by rewrite (put_payload_same p w m).
Qed.

End refines.

Section follow.
Context `{Library} {G : Type} `{!Guest G}.
Context {K : Value → Prop} {I : World G → Prop} {eqk : Value → Value → bool} {hk : Value → Z}.
Context (L : lawful K I eqk hk).

(** Storing and then reading. *)
Lemma put_get_refines p m w key v key' :
  map_at (VObject p) w = Some m → map_ok K eqk hk m → I w →
  K key → K key' → check_insert (m_elem m) "Map String" v None w = Done (Ok tt) w →
  Z.of_nat (length (pairs m)) < 2 ^ 32 →
  ∃ w', (_ ← map_at_put (VObject p) key v; map_at_key (VObject p) key') w =
        Done (Ok (if eqk key key' then v else default VNil (spec_get eqk key' (pairs m)))) w'.
Proof using L.
  intros Hm Hok Hw Hk Hk' Hc Hlen.
  destruct (put_refines L p m w Hm Hok Hw key v Hk Hc Hlen) as (m' & Hrun & Hok' & _ & Hp).
  eexists. unfold mbind, M_bind. rewrite Hrun.
  rewrite (map_get_refines L p m' (put_payload p (PMap m') w)); [| |done| |done].
  - rewrite Hp. rewrite (spec_get_put eqk K) by (first [apply L|exact (map_ok_over _ Hok)|done]).
    do 2 f_equal. by destruct (eqk key key').
  - by eapply map_at_put_payload.
  - eapply (lawful_put _ _ _ _ L); [by apply map_at_payload|done].
Qed.

End follow.

(** ** The keys of the runtime are lawful *)

Section scalar.
Context `{Library} {G : Type} `{!Guest G}.
Implicit Types (w : World G).

(** The keys the runtime compares by itself ([key_native_exact]), but NaN and the integers of
    2^53 or more in absolute value: on those equality and hash do not agree, see
    [rounding_pair]. *)
Definition scalar_key w (v : Value) : Prop := plain w v ∧ key_native_exact v w = true.

(** The payloads that never change. *)
Definition frozen (pl : ObjectPayload) : Prop :=
  match pl with PString _ | PSymbol _ | PBytes _ | PBlock _ => True | _ => False end.

Definition keeps w0 w : Prop :=
  ∀ p, frozen (payload_at p w0) → payload_at p w = payload_at p w0.

Lemma payload_at_put p q pl w :
  payload_at q (put_payload p pl w) = payload_at q w ∨
  q = p ∧ payload_at q (put_payload p pl w) = pl ∧ is_Some (heap w !! p).
Proof.
  unfold payload_at, object_at, put_payload. simpl. destruct (decide (q = p)) as [->|Hne].
  - rewrite lookup_alter_eq. destruct (heap w !! p) eqn:E; simpl; [right|by left].
    split_and!; eauto.
  - left. by rewrite lookup_alter_ne.
Qed.

Lemma keeps_put w0 w p pl pl' :
  payload_at p w = pl → ¬ frozen pl → keeps w0 w → keeps w0 (put_payload p pl' w).
Proof.
  intros Hp Hfr Hk q Hq. destruct (payload_at_put p q pl' w) as [->|(-> & _ & _)]; [by apply Hk|].
  destruct Hfr. rewrite <- Hp, (Hk p) by done. done.
Qed.

Lemma scalar_key_kept w0 w v :
  keeps w0 w → scalar_key w0 v →
  normal w v = normal w0 v ∧ plain w v ∧ key_native_exact v w = true.
Proof.
  intros Hk [Hp He]. destruct v as [| | | | | |p]; try done. simpl in *.
  assert (payload_at p w = payload_at p w0) as ->; [|done].
  apply Hk. by destruct (payload_at p w0).
Qed.

Lemma scalar_lawful_keys w0 :
  lawful (scalar_key w0) (keeps w0) (value_eq w0) (λ k, hash_normal (normal w0 k)).
Proof.
  split.
  - intros k w Hk Hw. destruct (scalar_key_kept w0 w k Hw Hk) as (Hn & Hp & He).
    unfold map_hash_key. rewrite plain_hash by done. by rewrite Hn.
  - intros a b w Ha Hb Hw.
    destruct (scalar_key_kept w0 w a Hw Ha) as (Hna & Hpa & Hea),
      (scalar_key_kept w0 w b Hw Hb) as (Hnb & Hpb & Heb).
    unfold keys_equal. rewrite Hea, Heb, !plain_eq by (done || apply Ha || apply Hb).
    rewrite Hna, Hnb. by case_bool_decide.
  - intros a [Ha _]. rewrite plain_eq by done. by rewrite bool_decide_eq_true_2.
  - intros a b [Ha _] [Hb _]. rewrite !plain_eq, !bool_decide_eq_true by done. done.
  - intros a b c [Ha _] [Hb _] [Hc _]. rewrite !plain_eq, !bool_decide_eq_true by done. congruence.
  - intros a b [Ha _] [Hb _]. rewrite plain_eq, bool_decide_eq_true by done. by intros ->.
  - intros p m m' w Hp Hw. by apply (keeps_put _ _ _ (PMap m)); [|intros []|].
  - intros p s s' w Hp Hw. by apply (keeps_put _ _ _ (PSet s)); [|intros []|].
Qed.

(** *** All keys the runtime compares by itself *)

(** An integer that a double need not tell from its neighbours, and a double. *)
Definition rounding_pair (a b : Value) : Prop :=
  ∃ i d, ¬ small i ∧ (a = VInt i ∧ b = VDouble d ∨ a = VDouble d ∧ b = VInt i).

Lemma SFeqb_sym (x y : f64) : SFeqb x y = SFeqb y x.
Proof.
  destruct (decide (x = S754_nan)) as [->|Hx]; [by destruct y as [[]|[]| |[]]|].
  destruct (decide (y = S754_nan)) as [->|Hy]; [by destruct x as [[]|[]| |[]]|].
  rewrite !SFeqb_spec by done. by apply bool_decide_ext.
Qed.

Lemma value_eq_sym w a b : value_eq w a b = value_eq w b a.
Proof.
  destruct a as [i|x|x| |x|x|p], b as [j|y|y| |y|y|q]; simpl; try done;
    try apply SFeqb_sym; try (by apply Z.eqb_sym); try (by destruct x, y);
    try (by apply bool_decide_ext).
  destruct (payload_at p w), (payload_at q w); by apply bool_decide_ext.
Qed.

Lemma exact_refl w a : key_native_exact a w = true → value_eq w a a = true ↔ a ≠ VDouble S754_nan.
Proof.
  destruct a as [i|x|x| |x|x|p]; simpl; intros Ha.
  - by rewrite Z.eqb_refl.
  - split; [by intros Hx [= ->]|]. intros Hx. apply SFeqb_refl. by intros ->.
  - by destruct x.
  - done.
  - by rewrite bool_decide_true.
  - by rewrite bool_decide_true.
  - destruct (payload_at p w); by rewrite bool_decide_true.
Qed.

Lemma equal_doubles_not_nan x y : SFeqb x y = true → x ≠ S754_nan ∧ y ≠ S754_nan.
Proof. by destruct x as [[]|[]| |[] m e], y as [[]|[]| |[] n k]. Qed.

(** Keys of the runtime that are equal and not plain are integers, or make a rounding pair. *)
Lemma exact_hashes_agree w a b :
  key_native_exact a w = true → key_native_exact b w = true → value_eq w a b = true →
  value_hash_scalar a w = value_hash_scalar b w ∨ rounding_pair a b.
Proof.
  intros Ha Hb Heq.
  assert (plain w a → plain w b → value_hash_scalar a w = value_hash_scalar b w) as Hplain.
  { intros Pa Pb. rewrite plain_eq, bool_decide_eq_true in Heq by done.
    by rewrite !plain_hash, Heq by done. }
  assert (∀ i, small i ∨ ¬ small i) as Hdec by (intros i; unfold small; lia).
  destruct a as [i|x|x| |x|x|p], b as [j|y|y| |y|y|q]; try done; simpl plain in Hplain;
    try (by left; apply Hplain).
  - left. simpl in Heq. apply Z.eqb_eq in Heq. by subst.
  - destruct (Hdec i); [left|right; by exists i, y; eauto].
    apply Hplain; [done|]. by apply (equal_doubles_not_nan _ _ Heq).
  - destruct (Hdec j); [left|right; by exists j, x; eauto].
    apply Hplain; [|done]. by apply (equal_doubles_not_nan _ _ Heq).
  - left. by apply Hplain; apply (equal_doubles_not_nan _ _ Heq).
  - left. simpl in Ha, Hb. apply Hplain; [by destruct (payload_at p w)|by destruct (payload_at q w)].
Qed.

End scalar.

(** ** The instructions and the messages *)

Section devirt.
Context `{Library} {G : Type} `{!Guest G}.
Context (p : N) (m : NativeMapState) (w : World G).
Context (Hm : map_at (VObject p) w = Some m) (Hs : store_ok (m_store m)).
Context (Hlen : Z.of_nat (length (pairs m)) ≤ 2 ^ 32).
Context (Hexact : Forall (λ e, key_native_exact e.1 w = true) (pairs m)).

Lemma keys_equal_exact a b :
  key_native_exact a w = true → key_native_exact b w = true →
  keys_equal a b w = Done (Ok (value_eq w a b)) w.
Proof. unfold keys_equal. intros -> ->. by destruct (value_eq w a b). Qed.

Lemma first_equal_exact key (b : list (Z * Value)) :
  key_native_exact key w = true → Forall (λ c, key_native_exact c.2 w = true) b →
  first_equal key b w = Done (Ok (first_match (λ k, value_eq w k key) b)) w.
Proof.
  intros Hk Hb. induction Hb as [|[i k] b Hki Hb IH]; [done|]. cbn [first_equal first_match].
  unfold mbind, M_bind. rewrite keys_equal_exact by done. by destruct (value_eq w k key).
Qed.

Definition exact_candidates (key : Value) (h : Z) : list (nat * (Value * Value)) :=
  candidates h (entries (m_store m)).

Lemma candidates_exact key h :
  Forall (λ c : nat * (Value * Value), key_native_exact c.2.1 w = true) (exact_candidates key h).
Proof using Hexact.
  apply Forall_forall. intros [j kv] Hin. apply candidates_spec in Hin.
  unfold pairs, payloads in Hexact. rewrite Forall_fmap in Hexact.
  by apply (proj1 (Forall_lookup _ _) Hexact _ _ Hin).
Qed.

(** For an exact key the dispatching search runs no code and finds the first equal key. *)
Lemma find_exact key h :
  key_native_exact key w = true → value_hash_scalar key w = Some h →
  map_find (VObject p) key w =
  Done (Ok (h, Z.of_nat <$> first_match (λ kv, value_eq w kv.1 key) (exact_candidates key h))) w.
Proof using All.
  intros Hk Hh. unfold map_find, map_find_prehashed, map_hash_key, the_map, mbind, M_bind.
  rewrite Hh, Hm. unfold map_bucket. rewrite pairs_length in Hlen.
  rewrite bucket_spec by done. simpl. rewrite first_equal_exact; [|done|].
  - unfold mret, M_ret. do 3 f_equal. unfold exact_candidates. rewrite <- list_fmap_compose.
    induction (candidates h (entries (m_store m))) as [|[i kv] l IH]; [done|]. simpl.
    destruct (value_eq w kv.1 key); [done|apply IH].
  - apply Forall_fmap, Forall_fmap. exact (candidates_exact key h).
Qed.

Lemma probe_exact {R} key h (f : Z → Value → Value → R) :
  probe h (λ i k v, if value_eq w k key then Some (f i k v) else None) m =
  Some (i ← first_match (λ kv, value_eq w kv.1 key) (exact_candidates key h);
        e ← entries (m_store m) !! i; Some (f (Z.of_nat i) e.2.1 e.2.2)).
Proof using Hs Hlen.
  unfold probe. rewrite pairs_length in Hlen.
  rewrite (find_hash_match_walk (λ i kv (a : unit),
    (tt, if value_eq w kv.1 key then Some (f i kv.1 kv.2) else None))) by done.
  simpl. f_equal. unfold exact_candidates.
  assert (∀ c, c ∈ candidates h (entries (m_store m)) → entries (m_store m) !! c.1 = Some (h, c.2)) as Hc.
  { intros [i kv] Hin. by apply candidates_spec in Hin. }
  induction (candidates h (entries (m_store m))) as [|[i kv] l IH]; [done|]. cbn [walk first_match fst snd].
  destruct (value_eq w kv.1 key).
  - simpl. assert (entries (m_store m) !! i = Some (h, kv)) as -> by (apply (Hc (i, kv)); by left). done.
  - apply IH. intros c Hin. apply Hc. by right.
Qed.

(** An exact key hashes without running code. *)
Lemma exact_hash key : key_native_exact key w = true → ∃ h, value_hash_scalar key w = Some h.
Proof. destruct key as [| | | | | |q]; simpl; eauto. destruct (payload_at q w); eauto; done. Qed.

Lemma first_match_entry key h i :
  first_match (λ kv, value_eq w kv.1 key) (exact_candidates key h) = Some i →
  ∃ e, entries (m_store m) !! i = Some e.
Proof.
  unfold exact_candidates.
  assert (∀ c, c ∈ candidates h (entries (m_store m)) → entries (m_store m) !! c.1 = Some (h, c.2)) as Hc.
  { intros [j kv] Hin. by apply candidates_spec in Hin. }
  induction (candidates h (entries (m_store m))) as [|[j kv] l IH]; [done|]. simpl.
  destruct (value_eq w kv.1 key).
  - intros [= <-]. eexists. by apply (Hc (j, kv)); left.
  - apply IH. intros c Hin. apply Hc. by right.
Qed.

Lemma get_agrees key :
  exec_map_get (VObject p) key (map_at_key (VObject p) key) w = map_at_key (VObject p) key w.
Proof using All.
  unfold exec_map_get. rewrite Hm. unfold get_scalar.
  destruct (key_native_exact key w) eqn:Hk; simpl; [|done].
  destruct (exact_hash key Hk) as [h Hh]. rewrite Hh.
  rewrite (probe_exact key h (λ _ _ v, v)). simpl.
  unfold map_at_key, map_get_any, mbind, M_bind. rewrite (find_exact key h) by done.
  destruct (first_match _ _) as [i|] eqn:Ei; [|done]. simpl.
  destruct (first_match_entry _ _ _ Ei) as [[h' kv] He]. unfold or_panic.
  pose proof Hm as Hm'. simpl in Hm'. rewrite Hm'. unfold value_at, entry_at.
  by rewrite Nat2Z.id, He.
Qed.

Lemma set_agrees key v :
  exec_map_set (VObject p) key v (map_at_put (VObject p) key v) w = map_at_put (VObject p) key v w.
Proof using All.
  unfold exec_map_set. destruct (key_native_exact key w) eqn:Hk; [|done].
  destruct (exact_hash key Hk) as [h Hh]. rewrite Hh, bool_decide_eq_true_2 by eauto.
  simpl andb. cbv iota. rewrite Hm.
  set (insert := (_ ← update_map (VObject p) _; mret (VObject p)) w).
  assert (check_insert (m_elem m) "Map String" v None w = Done (Ok tt) w →
    insert = map_at_put (VObject p) key v w) as Hins.
  { intros Hc. unfold insert, map_at_put, map_put_any, the_map, mbind, M_bind.
    rewrite Hm, Hc, (find_exact key h) by done. simpl.
    unfold update_map, the_map, mbind, M_bind. rewrite Hm. unfold insert_scalar.
    rewrite Hk, Hh. simpl negb. cbv iota. rewrite (probe_exact key h (λ i _ _, i)). simpl.
    destruct (first_match _ _) as [i|] eqn:Ei; simpl; [|done].
    destruct (first_match_entry _ _ _ Ei) as [[h' kv] He]. rewrite He. simpl.
    by destruct (set_value_at _ _ _). }
  unfold check_insert in Hins. destruct (m_elem m) as [t|] eqn:Et; [|by apply Hins].
  destruct (matches_value t v w) as [[]|] eqn:Ev; [by apply Hins| |done].
  unfold map_at_put, map_put_any, the_map, mbind, M_bind. rewrite Hm, Et. unfold check_insert.
  by rewrite Ev.
Qed.

End devirt.

(** ** Panics *)

Section quiet.
Context `{Library} {G : Type} `{!Guest G}.
Context (p : N).

(** A computation that does not panic and leaves the map at [p] as it is. *)
Definition steady {A} (c : M G A) : Prop :=
  ∀ w, match c w with
       | Done _ w' => map_at (VObject p) w' = map_at (VObject p) w
       | Panics => False
       | Diverges => True
       end.

Lemma steady_ret {A} (a : A) : steady (mret a).
Proof. done. Qed.

Lemma steady_bind {A B} (c : M G A) (k : A → M G B) :
  steady c → (∀ a, steady (k a)) → steady (c ≫= k).
Proof.
  intros Hc Hk w. unfold mbind, M_bind. specialize (Hc w).
  destruct (c w) as [[a|e] w'| |]; [|done..]. specialize (Hk a w').
  destruct (k a w'); [by etrans|done..].
Qed.

(** The program's hooks are quiet. *)
Context (Hquiet : ∀ v sel args, steady (call_method v sel args)).

Lemma steady_hash key : steady (map_hash_key key).
Proof using Hquiet.
  intros w. unfold map_hash_key. destruct (value_hash_scalar key w); [done|].
  apply (steady_bind (call_method key "hash" []) hash_of_answer); [apply Hquiet|].
  intros v w'. by destruct v.
Qed.

Lemma steady_equal a b : steady (keys_equal a b).
Proof using Hquiet.
  intros w. unfold keys_equal. destruct (value_eq w a b); [done|].
  destruct (_ && _); [done|].
  apply (steady_bind (call_method a "==:" [b]) (λ v, mret (is_true v))); [apply Hquiet|].
  intros v. apply steady_ret.
Qed.

Lemma steady_first key b : steady (first_equal key b).
Proof using Hquiet.
  induction b as [|[i k] b IH]; [apply steady_ret|]. apply steady_bind; [apply steady_equal|].
  intros []; [apply steady_ret|apply IH].
Qed.

Lemma first_equal_in key b w i w' :
  first_equal key b w = Done (Ok (Some i)) w' → i ∈ b.*1.
Proof.
  revert w. induction b as [|[j k] b IH]; intros w; [done|]. cbn [first_equal fmap list_fmap fst].
  unfold mbind, M_bind. destruct (keys_equal k key w) as [[[]|]| |]; [|..]; try done.
  - intros [= <- _]. left.
  - intros Hi. right. by eapply IH.
Qed.

(** A lookup ends in the same map, with a position of it. *)
Lemma find_quiet key m w :
  map_at (VObject p) w = Some m → store_ok (m_store m) → Z.of_nat (length (pairs m)) ≤ 2 ^ 32 →
  match map_find (VObject p) key w with
  | Done r w' =>
      map_at (VObject p) w' = Some m ∧
      ∀ h i, r = Ok (h, Some i) → ∃ n e, i = Z.of_nat n ∧ pairs m !! n = Some e
  | Panics => False
  | Diverges => True
  end.
Proof using Hquiet.
  intros Hm Hs Hlen. unfold map_find, map_find_prehashed, the_map, mbind, M_bind.
  pose proof (steady_hash key w) as Hh. destruct (map_hash_key key w) as [[h|e] w1| |]; [|by split; [rewrite Hh|]|done..].
  rewrite Hh, Hm. rewrite pairs_length in Hlen.
  unfold map_bucket. rewrite bucket_spec by done. cbn [fmap option_fmap option_map or_panic].
  match goal with |- context [first_equal key ?b w1] => set (cs := b) end.
  pose proof (steady_first key cs w1) as Hf.
  destruct (first_equal key cs w1) as [[found|e] w2| |] eqn:E; [|by split; [rewrite Hf, Hh|]|done..].
  split; [by rewrite Hf, Hh|]. intros h' i [= <- ->]. apply first_equal_in in E. unfold cs in E.
  rewrite <- !list_fmap_compose in E. apply list_elem_of_fmap in E as ([n kv] & -> & Hin).
  apply candidates_spec in Hin. exists n, kv. split; [done|].
  unfold pairs, payloads. by rewrite list_lookup_fmap, Hin.
Qed.

Definition no_panic {A} (o : Outcome G A) : Prop := match o with Panics => False | _ => True end.

Lemma quiet_no_panic key v m w :
  map_at (VObject p) w = Some m → store_ok (m_store m) → Z.of_nat (length (pairs m)) ≤ 2 ^ 32 →
  no_panic (map_at_key (VObject p) key w) ∧ no_panic (map_containsKey (VObject p) key w) ∧
  no_panic (map_at_put (VObject p) key v w) ∧ no_panic (map_remove (VObject p) key w).
Proof using Hquiet.
  intros Hm Hs Hlen. pose proof (find_quiet key m w Hm Hs Hlen) as Hf.
  assert (∀ n e, pairs m !! n = Some e → is_Some (value_at (Z.of_nat n) m)) as Hget.
  { intros n e He. unfold value_at, entry_at. rewrite Nat2Z.id.
    unfold pairs, payloads in He. rewrite list_lookup_fmap in He.
    destruct (entries (m_store m) !! n); [by eexists|done]. }
  assert (∀ (f : NativeMapState → option (Value * NativeMapState)) w', map_at (VObject p) w' = Some m →
    is_Some (f m) → no_panic (update_map (VObject p) f w')) as Hup.
  { intros f w' Hw' [[a m'] Hfm]. by rewrite (update_map_at p w' m f a m'). }
  split_and!.
  - unfold map_at_key, map_get_any, mbind, M_bind.
    destruct (map_find (VObject p) key w) as [[[h [i|]]|e] w'| |]; try done.
    destruct Hf as [Hw' Hi]. destruct (Hi h i eq_refl) as (n & e & -> & He).
    unfold or_panic. rewrite Hw'. by destruct (Hget n e He) as [v' ->].
  - unfold map_containsKey, mbind, M_bind. by destruct (map_find (VObject p) key w) as [[[]|]| |].
  - unfold map_at_put, map_put_any, the_map, mbind, M_bind. rewrite Hm.
    assert (∀ t c i, steady (check_insert t c v i)) as Hcheck.
    { intros [t|] c i w'; [|done]. unfold check_insert.
      destruct (matches_value t v w') as [[]|]; [done..|]. by destruct (value_matches_type v _ w'). }
    pose proof (Hcheck (m_elem m) "Map String" None w) as Hc.
    destruct (check_insert (m_elem m) "Map String" v None w) as [[[]|e] w1| |]; [|done..].
    pose proof (find_quiet key m w1 (eq_trans Hc Hm) Hs Hlen) as Hf1. clear Hf.
    destruct (map_find (VObject p) key w1) as [[[h found]|e] w2| |]; try done.
    destruct Hf1 as [Hw2 Hi]. unfold update_map, the_map, mbind, M_bind. rewrite Hw2.
    destruct found as [i|]; [|done].
    destruct (Hi h i eq_refl) as (n & e & -> & He).
    by destruct (set_value_at_spec (K:=λ _, True) (eqk:=λ _ _, false) (hk:=λ _, 0) n v m e He) as (m' & -> & _).
  - unfold map_remove, mbind at 1, M_bind at 1.
    destruct (map_find (VObject p) key w) as [[[h [i|]]|e] w'| |]; try done.
    destruct Hf as [Hw' Hi]. destruct (Hi h i eq_refl) as (n & e & -> & He).
    apply Hup; [done|]. destruct (map_remove_at_spec (K:=λ _, True) (eqk:=λ _ _, false) (hk:=λ _, 0) n m e He) as (m' & -> & _). eauto.
Qed.

End quiet.
