(* ===== verification/ListProps.v ===== *)
(** * Sorting a list in place

    [sort] and [sort:] carry each element down past the ones the program puts after it, by
    swaps on the list itself.  While the program leaves the list alone, whatever it answers
    and wherever it fails, the list stays a permutation of what it was; when its answers are
    those of an order, the result is insertion sort: sorted, and stable. *)
From stdpp Require Import base numbers list strings gmap pretty sorting.
From stdpp Require Import options.
From S2P Require Import Prelude Instr Exec Store Host ListStore.
Local Open Scope Z_scope.

(** ** Insertion sort *)

Section reference.
Context {A : Type} (gt : A → A → bool).

(** Put [x] into a list that is sorted from its end. *)
Fixpoint ins (x : A) (rp : list A) : list A :=
  match rp with
  | [] => [x]
  | y :: rp' => if gt y x then y :: ins x rp' else x :: rp
  end.

Definition sorted_list (l : list A) : list A := reverse (foldl (λ rp x, ins x rp) [] l).

Lemma ins_permutation x rp : ins x rp ≡ₚ x :: rp.
Proof.
  induction rp as [|y rp IH]; [done|]. simpl. destruct (gt y x); [|done].
  rewrite IH. apply Permutation_swap.
Qed.

Lemma sorted_list_permutation l : sorted_list l ≡ₚ l.
Proof.
  unfold sorted_list. rewrite reverse_Permutation.
  enough (∀ rp, foldl (λ rp x, ins x rp) rp l ≡ₚ rp ++ l) as -> by done.
  induction l as [|x l IH]; intros rp; simpl; [by rewrite app_nil_r|].
  rewrite IH, ins_permutation. by rewrite <- Permutation_middle.
Qed.

(** The order: [gt] is false both ways on equivalent elements. *)
Definition in_order (a b : A) : Prop := gt a b = false.

Context (D : A → Prop).
Context (total : ∀ a b, D a → D b → gt a b = true → in_order b a).
Context (trans : ∀ a b c, D a → D b → D c → in_order a b → in_order b c → in_order a c).

Lemma ins_sorted x rp :
  D x → Forall D rp → StronglySorted (flip in_order) rp → StronglySorted (flip in_order) (ins x rp).
Proof using total trans.
  intros Hx Hd. induction 1 as [|y rp Hs IH Hy]; simpl; [by repeat constructor|].
  apply Forall_cons in Hd as [Hdy Hd]. destruct (gt y x) eqn:E.
  - constructor; [by apply IH|]. rewrite ins_permutation. constructor; [by apply total|done].
  - constructor; [by constructor|]. constructor; [done|].
    apply Forall_forall. intros z Hz. pose proof (proj1 (Forall_forall _ _) Hy z Hz) as Hzy.
    by apply (trans z y x); [apply (proj1 (Forall_forall _ _) Hd)|..].
Qed.

Lemma sorted_list_sorted l : Forall D l → StronglySorted in_order (sorted_list l).
Proof using total trans.
  intros Hd. unfold sorted_list.
  assert (∀ rp, Forall D rp → StronglySorted (flip in_order) rp →
    StronglySorted (flip in_order) (foldl (λ rp x, ins x rp) rp l)) as Hf.
  { induction l as [|x l IH]; intros rp Hdr Hrp; simpl; [done|].
    apply Forall_cons in Hd as [Hx Hd]. apply IH; [done| |by apply ins_sorted].
    rewrite ins_permutation. by constructor. }
  specialize (Hf [] (Forall_nil_2 _) (SSorted_nil _)). revert Hf.
  generalize (foldl (λ rp x, ins x rp) [] l).
  induction 1 as [|y rp Hs IH Hy]; [constructor|]. rewrite reverse_cons.
  apply StronglySorted_app_2; [|done|by repeat constructor].
  intros a b Ha Hb. apply list_elem_of_singleton in Hb as ->.
  rewrite elem_of_reverse in Ha. exact (proj1 (Forall_forall _ _) Hy a Ha).
Qed.

(** Elements that are in order both ways keep theirs. *)
Lemma sorted_list_stable (P : A → Prop) `{!∀ a, Decision (P a)} l :
  (∀ a b, P a → P b → in_order a b) → filter P (sorted_list l) = filter P l.
Proof.
  intros HP. unfold sorted_list. rewrite filter_reverse.
  assert (∀ x rp, filter P (ins x rp) = filter P (x :: rp)) as Hins.
  { intros x rp. induction rp as [|y rp IH]; [done|]. simpl. destruct (gt y x) eqn:E; [|done].
    rewrite !filter_cons in *. rewrite IH. destruct (decide (P y)), (decide (P x)); try done.
    by rewrite HP in E. }
  enough (∀ rp, filter P (foldl (λ rp x, ins x rp) rp l) = filter P (reverse l ++ rp)) as ->.
  { by rewrite app_nil_r, filter_reverse, reverse_involutive. }
  induction l as [|x l IH]; intros rp; [done|]. simpl. rewrite IH, !filter_app, Hins.
  rewrite reverse_cons, filter_app, <- app_assoc. f_equal. by rewrite <- filter_app.
Qed.

End reference.

(** ** The loops on the list in the heap *)

Section cells.
Context `{Library} {G : Type}.
Implicit Types (w : World G).

Lemma list_at_put p w l l' :
  Host.list_at (VObject p) w = Some l →
  Host.list_at (VObject p) (put_payload p (PList l') w) = Some l'.
Proof.
  simpl. unfold payload_at, object_at, put_payload. simpl. intros Hl.
  destruct (heap w !! p) as [o|] eqn:E; [|done]. by rewrite lookup_alter_eq, E.
Qed.

Lemma swap_middle (pre post : list Value) a b :
  swap (S (length pre)) (pre ++ a :: b :: post) = Some (pre ++ b :: a :: post).
Proof.
  unfold swap. rewrite !lookup_app_r by lia. rewrite Nat.sub_diag, Nat.sub_succ_l, Nat.sub_diag by lia.
  simpl. f_equal. rewrite !insert_app_r_alt by lia.
  by rewrite Nat.sub_diag, Nat.sub_succ_l, Nat.sub_diag by lia.
Qed.

Lemma swap_permutation j (l l' : list Value) : swap j l = Some l' → l' ≡ₚ l.
Proof.
  destruct j as [|i]; [done|]. intros Hs.
  assert (∃ a b, l !! i = Some a ∧ l !! S i = Some b) as (a & b & Ea & Eb).
  { unfold swap in Hs. destruct (l !! i), (l !! S i); simplify_eq/=. eauto. }
  pose proof (lookup_lt_Some _ _ _ Eb) as Hlt.
  assert (l = take i l ++ a :: b :: drop (S (S i)) l) as Hl
    by (rewrite <- (drop_S l b (S i)) by done; symmetry; by apply take_drop_middle).
  pose proof (swap_middle (take i l) (drop (S (S i)) l) a b) as Hm.
  rewrite <- Hl, length_take, Nat.min_l, Hs in Hm by lia. simplify_eq.
  rewrite Hl at 3. apply Permutation_app_head, Permutation_swap.
Qed.

End cells.

Section sorting.
Context `{Library} {G : Type} `{!Guest G}.
Context (p : N) (tag : option ElemTag).

Definition holds (l : list Value) (w : World G) : Prop :=
  Host.list_at (VObject p) w = Some (mkList l tag).

Lemma sort_swap_run j l l' w :
  holds l w → swap j l = Some l' →
  sort_swap (VObject p) j w = Done (Ok tt) (put_payload p (PList (mkList l' tag)) w) ∧
  holds l' (put_payload p (PList (mkList l' tag)) w).
Proof.
  intros Hl Hs. unfold sort_swap, the_list, mbind, M_bind. rewrite Hl. cbn [vec]. rewrite Hs.
  split; [done|]. by eapply list_at_put.
Qed.

(** ** The program answers by an order *)

Section order.
Context (wrong : Value → nat → M G bool) (gt : Value → Value → bool) (I : World G → Prop).
Context (Hwrong : ∀ pre a b post w,
  I w → holds (pre ++ a :: b :: post) w →
  ∃ w', wrong (VObject p) (S (length pre)) w = Done (Ok (gt a b)) w' ∧ I w' ∧
        holds (pre ++ a :: b :: post) w').
Context (Hput : ∀ l l' w, holds l w → l' ≡ₚ l → I w → I (put_payload p (PList (mkList l' tag)) w)).

Lemma sift_run rp x post w :
  I w → holds (reverse rp ++ x :: post) w →
  ∃ w', sift wrong (VObject p) (length rp) w = Done (Ok tt) w' ∧ I w' ∧
        holds (reverse (ins gt x rp) ++ post) w'.
Proof using Hwrong Hput.
  revert post w. induction rp as [|y rp IH]; intros post w Hw Hl; [by exists w|].
  cbn [length sift ins]. rewrite reverse_cons, <- app_assoc in Hl. cbn [app] in Hl.
  destruct (Hwrong (reverse rp) y x post w Hw Hl) as (w1 & Hrun & Hw1 & Hl1).
  rewrite length_reverse in Hrun. unfold mbind at 1, M_bind at 1. rewrite Hrun.
  destruct (gt y x).
  - destruct (sort_swap_run _ _ _ w1 Hl1 (swap_middle (reverse rp) post y x)) as [Hs Hl2].
    rewrite length_reverse in Hs. unfold mbind, M_bind. rewrite Hs.
    destruct (IH (y :: post) _ (Hput _ _ _ Hl1 (swap_permutation _ _ _ (swap_middle _ _ _ _)) Hw1) Hl2) as (w3 & Hrun3 & Hw3 & Hl3).
    exists w3. rewrite reverse_cons, <- app_assoc. done.
  - exists w1. split; [done|]. split; [done|]. by rewrite !reverse_cons, <- !app_assoc.
Qed.

Lemma sift_all_run post rp w :
  I w → holds (reverse rp ++ post) w →
  ∃ w', sift_all wrong (VObject p) (length post) (length rp) w = Done (Ok tt) w' ∧ I w' ∧
        holds (reverse (foldl (λ rp x, ins gt x rp) rp post)) w'.
Proof using Hwrong Hput.
  revert rp w. induction post as [|x post IH]; intros rp w Hw Hl.
  { rewrite app_nil_r in Hl. by exists w. }
  cbn [length sift_all foldl].
  destruct (sift_run rp x post w Hw Hl) as (w1 & Hrun & Hw1 & Hl1).
  unfold mbind, M_bind. rewrite Hrun.
  destruct (IH (ins gt x rp) w1 Hw1 Hl1) as (w2 & Hrun2 & Hw2 & Hl2).
  rewrite (ins_permutation gt x rp) in Hrun2. exists w2. done.
Qed.

Lemma insertion_sort_run l w :
  I w → holds l w →
  ∃ w', insertion_sort wrong (VObject p) (length l) w = Done (Ok (VObject p)) w' ∧ I w' ∧
        holds (sorted_list gt l) w'.
Proof using Hwrong Hput.
  intros Hw Hl. unfold insertion_sort, mbind, M_bind. destruct l as [|x l].
  { exists w. done. }
  destruct (sift_all_run l [x] w Hw Hl) as (w' & Hrun & Hw' & Hl').
  exists w'. simpl length in *.
  replace (S (length l) - 1)%nat with (length l) by lia. by rewrite Hrun.
Qed.

End order.

(** ** The program answers anything *)

Section any.
Context (wrong : Value → nat → M G bool).
Context (Hwrong : ∀ j l w, holds l w →
  match wrong (VObject p) j w with Done _ w' => holds l w' | Panics => False | Diverges => True end).

(** A run that leaves a permutation of the list. *)
Definition permutes {A} (l : list Value) (o : Outcome G A) : Prop :=
  match o with
  | Done _ w' => ∃ l', holds l' w' ∧ l' ≡ₚ l
  | Panics => False
  | Diverges => True
  end.

Lemma permutes_trans {A} l l' (o : Outcome G A) : l' ≡ₚ l → permutes l' o → permutes l o.
Proof. destruct o; simpl; [|done..]. intros Hl (l2 & ? & ?). exists l2. split; [done|by etrans]. Qed.

Lemma sift_permutes j l w : holds l w → permutes l (sift wrong (VObject p) j w).
Proof using Hwrong.
  revert l w. induction j as [|i IH]; intros l w Hl; [by exists l|]. cbn [sift].
  unfold mbind at 1, M_bind at 1. pose proof (Hwrong (S i) l w Hl) as Hr.
  destruct (wrong (VObject p) (S i) w) as [[[]|e] w1| |]; [|by exists l..|done|done].
  unfold mbind, M_bind. destruct (swap (S i) l) as [l'|] eqn:Es.
  - destruct (sort_swap_run (S i) l l' w1 Hr Es) as [-> Hl'].
    apply (permutes_trans l l'); [by eapply swap_permutation|]. by apply IH.
  - unfold sort_swap, the_list, mbind, M_bind. rewrite Hr. cbn [vec]. rewrite Es. by exists l.
Qed.

Lemma sift_all_permutes n i l w : holds l w → permutes l (sift_all wrong (VObject p) n i w).
Proof using Hwrong.
  revert i l w. induction n as [|n IH]; intros i l w Hl; [by exists l|]. cbn [sift_all].
  unfold mbind, M_bind. pose proof (sift_permutes i l w Hl) as Hp.
  destruct (sift wrong (VObject p) i w) as [[[]|e] w1| |]; [|done..].
  destruct Hp as (l' & Hl' & Hp). apply (permutes_trans l l'); [done|]. by apply IH.
Qed.

Lemma insertion_sort_permutes n l w :
  holds l w → permutes l (insertion_sort wrong (VObject p) n w).
Proof using Hwrong.
  intros Hl. unfold insertion_sort, mbind, M_bind. pose proof (sift_all_permutes (n - 1) 1 l w Hl) as Hp.
  by destruct (sift_all wrong (VObject p) (n - 1) 1 w) as [[]| |].
Qed.

End any.

(** ** The methods *)

Lemma sort_fetch_at i l w v :
  holds l w → l !! i = Some v → sort_fetch (VObject p) i w = Done (Ok v) w.
Proof.
  intros Hl Hi. unfold sort_fetch, the_list, mbind, M_bind. rewrite Hl. cbn [vec]. by rewrite Hi.
Qed.

(** Nil after everything else. *)
Definition nil_last (gt : Value → Value → bool) (a b : Value) : bool :=
  if is_nil a then negb (is_nil b) else if is_nil b then false else gt a b.

Section by_value.
Context (D : Value → Prop) (gt : Value → Value → bool) (I : World G → Prop).
Context (Hcall : ∀ a b l w, D a → D b → I w → holds l w →
  ∃ w', call_method a ">:" [b] w = Done (Ok (VBool (gt a b))) w' ∧ I w' ∧ holds l w').
Context (Hput : ∀ l l' w, holds l w → I w → I (put_payload p (PList (mkList l' tag)) w)).

Definition nil_or (v : Value) : Prop := v = VNil ∨ D v.

Lemma wrong_by_value_run pre a b post w :
  nil_or a → nil_or b → I w → holds (pre ++ a :: b :: post) w →
  ∃ w', wrong_by_value (VObject p) (S (length pre)) w = Done (Ok (nil_last gt a b)) w' ∧ I w' ∧
        holds (pre ++ a :: b :: post) w'.
Proof using Hcall.
  intros Ha Hb Hw Hl. unfold wrong_by_value, mbind, M_bind.
  rewrite (sort_fetch_at _ _ _ a Hl); [|rewrite lookup_app_r by lia].
  2:{ by replace (S (length pre) - 1 - length pre)%nat with 0%nat by lia. }
  rewrite (sort_fetch_at _ _ _ b Hl); [|rewrite lookup_app_r by lia].
  2:{ by replace (S (length pre) - length pre)%nat with 1%nat by lia. }
  unfold greater, nil_last. destruct Ha as [->|Ha]; [by exists w|].
  destruct (is_nil a); [by exists w|]. destruct Hb as [->|Hb]; [by exists w|].
  destruct (is_nil b); [by exists w|].
  destruct (Hcall a b _ w Ha Hb Hw Hl) as (w' & Hrun & Hw' & Hl'). exists w'.
  unfold mbind, M_bind. rewrite Hrun. simpl. split_and!; [|done..]. by destruct (gt a b).
Qed.

Lemma list_sort_run l w :
  Forall nil_or l → I w → holds l w →
  ∃ w', list_sort (VObject p) w = Done (Ok (VObject p)) w' ∧
        holds (sorted_list (nil_last gt) l) w'.
Proof using Hcall Hput.
  intros Hd Hw Hl. unfold list_sort, the_list, mbind at 1, M_bind at 1. rewrite Hl. cbn [vec].
  destruct (insertion_sort_run wrong_by_value (nil_last gt)
    (λ w, I w ∧ ∀ l, holds l w → Forall nil_or l)) with l w as (w' & Hrun & _ & Hl').
  - intros pre a b post w1 [Hw1 Hall] Hl1. pose proof (Hall _ Hl1) as Hd1.
    apply Forall_app in Hd1 as [_ Hd1]. apply Forall_cons in Hd1 as [Ha Hd1].
    apply Forall_cons in Hd1 as [Hb _].
    destruct (wrong_by_value_run pre a b post w1 Ha Hb Hw1 Hl1) as (w2 & Hrun & Hw2 & Hl2).
    exists w2. split_and!; [done|done| |done]. intros l2 Hl2'. unfold holds in *.
    rewrite Hl2 in Hl2'. simplify_eq. by apply Hall.
  - intros l1 l2 w1 Hl1 Hp [Hw1 Hall]. split; [by eapply Hput|].
    intros l3 Hl3. unfold holds in *. erewrite list_at_put in Hl3 by exact Hl1. simplify_eq.
    rewrite Hp. by apply Hall.
  - split; [done|]. intros l1 Hl1. unfold holds in *. rewrite Hl in Hl1. by simplify_eq.
  - done.
  - by exists w'.
Qed.

End by_value.

Section quiet.
Context (Hquiet : ∀ v sel args l w, holds l w →
  match call_method v sel args w with Done _ w' => holds l w' | Panics => False | Diverges => True end).

(** A computation that leaves the list as it is. *)
Definition leaves {A} (c : M G A) : Prop :=
  ∀ l w, holds l w →
    match c w with Done _ w' => holds l w' | Panics => False | Diverges => True end.

Lemma leaves_bind {A B} (c : M G A) (k : A → M G B) :
  leaves c → (∀ a, leaves (k a)) → leaves (c ≫= k).
Proof.
  intros Hc Hk l w Hl. unfold mbind, M_bind. specialize (Hc l w Hl).
  destruct (c w) as [[a|e] w'| |]; [by apply Hk|done..].
Qed.

Lemma leaves_ret {A} (a : A) : leaves (mret a).
Proof. by intros l w. Qed.

Lemma leaves_fetch i : leaves (sort_fetch (VObject p) i).
Proof.
  intros l w Hl. unfold sort_fetch, the_list, mbind, M_bind. rewrite Hl. cbn [vec].
  by destruct (l !! i).
Qed.

Lemma leaves_new o : leaves (new_cell o).
Proof.
  intros l w Hl. unfold new_cell, holds in *. simpl in *. unfold payload_at, object_at in *. simpl.
  rewrite lookup_insert_ne; [done|]. intros Hp.
  destruct (heap w !! p) as [o'|] eqn:E; [|done].
  apply (is_fresh (dom (heap w))). rewrite Hp. apply elem_of_dom. eauto.
Qed.

Lemma leaves_call v sel args : leaves (call_method v sel args).
Proof using Hquiet. intros l w. apply Hquiet. Qed.

Lemma leaves_greater a b : leaves (greater a b).
Proof using Hquiet.
  unfold greater. destruct (is_nil a); [apply leaves_ret|]. destruct (is_nil b); [apply leaves_ret|].
  apply leaves_bind; [apply leaves_call|]. intros r. apply leaves_ret.
Qed.

Lemma leaves_block block args : leaves (call_block block args).
Proof using Hquiet. apply leaves_bind; [apply leaves_new|]. intros v. apply leaves_call. Qed.

Lemma sort_permutes l w : holds l w → permutes l (list_sort (VObject p) w).
Proof using Hquiet.
  intros Hl. unfold list_sort, the_list, mbind at 1, M_bind at 1. rewrite Hl. cbn [vec].
  apply insertion_sort_permutes; [|done]. intros j l1 w1. revert l1 w1.
  apply leaves_bind; [apply leaves_fetch|]. intros a.
  apply leaves_bind; [apply leaves_fetch|]. intros b. apply leaves_greater.
Qed.

Lemma sort_block_permutes arg l w : holds l w → permutes l (list_sort_block (VObject p) arg w).
Proof using Hquiet.
  intros Hl. unfold list_sort_block, the_list, read, mbind, M_bind.
  assert (leaves (arg_block arg 0)) as Harg.
  { intros l1 w1. unfold arg_block. destruct arg; try done. by destruct (payload_at _ w1). }
  specialize (Harg l w Hl). destruct (arg_block arg 0 w) as [[block|e] w1| |]; [|by exists l|done..].
  rewrite Harg. cbn [vec]. destruct (_ =? 1)%nat; (apply insertion_sort_permutes; [|done]).
  - intros j l2 w2. revert l2 w2. unfold wrong_by_key.
    apply leaves_bind; [apply leaves_fetch|]. intros a.
    apply leaves_bind; [apply leaves_block|]. intros ka.
    apply leaves_bind; [apply leaves_fetch|]. intros b.
    apply leaves_bind; [apply leaves_block|]. intros kb. apply leaves_greater.
  - intros j l2 w2. revert l2 w2. unfold wrong_by_block.
    apply leaves_bind; [apply leaves_fetch|]. intros a.
    apply leaves_bind; [apply leaves_fetch|]. intros b.
    apply leaves_bind; [apply leaves_block|]. intros r. apply leaves_ret.
Qed.

End quiet.
End sorting.
