(* ===== verification/CollProps.v ===== *)
(** * Sets, and what the collections promise

    On lawful keys the methods of Set work on the list of elements in order of insertion:
    adding an element that has an equal in the set changes nothing, a new one goes to the end,
    and removing keeps the order of the rest.  Then the theorems about maps, sets and lists in
    the terms of their specifications, and collections at work. *)
From Stdlib Require Import SpecFloat.
From stdpp Require Import base numbers list strings gmap pretty sorting.
From stdpp Require Import options.
From S2P Require Import Prelude Instr Exec Store Host MapStore SetStore ListStore KeyProps MapRefine MapProps ListProps.
Local Open Scope Z_scope.

(** ** The specification *)

Section spec.
Context {K : Type} (eqk : K → K → bool).

Definition spec_contains (k : K) (l : list K) : bool :=
  match index_where (λ x, eqk x k) l with Some _ => true | None => false end.

Definition spec_add (k : K) (l : list K) : list K :=
  if spec_contains k l then l else l ++ [k].

Definition spec_drop (k : K) (l : list K) : list K :=
  match index_where (λ x, eqk x k) l with Some i => delete i l | None => l end.

End spec.

Section bucket.
Context `{Library}.

(** The bucket written for sets is the one written for maps. *)
Lemma set_bucket_spec hash (s : NativeSetState) :
  store_ok (s_store s) → Z.of_nat (length (entries (s_store s))) ≤ 2 ^ 32 →
  set_bucket hash s = Some (prod_map Z.of_nat id <$> candidates hash (entries (s_store s))).
Proof.
  intros Hs Hlen. unfold set_bucket.
  assert (∀ i es, enumerate_filter i hash es = positions_from i hash es) as Hef.
  { intros i es. revert i. induction es as [|[h v] es IH]; intros i; [done|]. simpl. by rewrite IH. }
  assert ((if negb (indexed (s_store s)) then enumerate_filter 0 hash (entries (s_store s))
           else default [] (index (s_store s) !! hash)) = positions_from 0 hash (entries (s_store s))) as ->.
  { unfold store_ok in Hs. rewrite Hef. destruct (indexed (s_store s)); simpl; [|done].
    rewrite Hs, index_from_lookup, lookup_empty. by destruct (positions_from 0 hash _). }
  unfold candidates.
  enough (∀ es i,
    (∀ j e, es !! j = Some e → entry_at (s_store s) (as_u32 (i + j)) = Some e ∧
                               as_u32 (i + j) = Z.of_nat (i + j)) →
    mapM (candidate s) (positions_from i hash es) =
    Some (prod_map Z.of_nat id <$> candidates_from i hash es)) as Hgen.
  { rewrite Hgen; [done|]. intros j e Hj. apply lookup_lt_Some in Hj as Hlt. simpl.
    rewrite (store_u32_small (Z.of_nat j)) by lia. unfold entry_at. by rewrite Nat2Z.id. }
  intros es. induction es as [|[h v] es IH]; intros i Hes; [done|]. cbn [positions_from candidates_from].
  assert (mapM (candidate s) (positions_from (S i) hash es) =
          Some (prod_map Z.of_nat id <$> candidates_from (S i) hash es)) as IH'.
  { apply IH. intros j e Hj. specialize (Hes (S j) e Hj). by rewrite Nat.add_succ_r in Hes. }
  destruct (h =? hash); [|done].
  destruct (Hes 0%nat _ eq_refl) as [He Hu]. rewrite Nat.add_0_r in He, Hu.
  assert (candidate s (as_u32 i) = Some (Z.of_nat i, v)) as Hc
    by (unfold candidate; rewrite He; simpl; by rewrite Hu).
  change (mapM (candidate s) (as_u32 i :: positions_from (S i) hash es)) with
    (y ← candidate s (as_u32 i); ys ← mapM (candidate s) (positions_from (S i) hash es); Some (y :: ys)).
  by rewrite Hc, IH'.
Qed.

End bucket.

Section refines.
Context `{Library} {G : Type} `{!Guest G}.
Context {K : Value → Prop} {I : World G → Prop} {eqk : Value → Value → bool} {hk : Value → Z}.
Context (L : lawful K I eqk hk).

Definition set_ok (s : NativeSetState) : Prop := keyed_ok K eqk hk id (s_store s).

Lemma keys_values s : keys id (s_store s) = set_values s.
Proof. unfold keys, payloads, set_values. apply list_fmap_id. Qed.

Context (p : N) (s : NativeSetState) (w : World G).
Context (Hset : set_at_value (VObject p) w = Some s) (Hok : set_ok s) (Hw : I w).

Lemma set_payload : payload_at p w = PSet s.
Proof using Hset. simpl in Hset. destruct (payload_at p w); intros; by simplify_eq. Qed.

Lemma set_find_lawful v :
  K v →
  set_find (VObject p) v w =
  Done (Ok (hk v, Z.of_nat <$> index_where (λ x, eqk x v) (set_values s))) w.
Proof using All.
  intros Hv. unfold set_find, the_set, mbind, M_bind.
  rewrite (lawful_hash _ _ _ _ L) by done. rewrite Hset, set_bucket_spec; [|apply Hok..].
  cbn [or_panic]. rewrite (search_lawful L id v (s_store s)) by done.
  unfold key_place. by rewrite keys_values.
Qed.

Lemma update_set_at f s' :
  f s = Some s' → update_set (VObject p) f w = Done (Ok tt) (put_payload p (PSet s') w).
Proof using Hset.
  intros Hf. unfold update_set, the_set, or_panic, put_cell, write, mbind, M_bind.
  by rewrite Hset, Hf.
Qed.

Lemma set_contains_refines v :
  K v → set_contains (VObject p) v w = Done (Ok (spec_contains eqk v (set_values s))) w.
Proof using All.
  intros Hv. unfold set_contains, spec_contains, mbind, M_bind. rewrite set_find_lawful by done.
  by destruct (index_where _ _).
Qed.

(** [true] when the element is new; only then the set changes. *)
Lemma set_add_refines v :
  K v → Z.of_nat (length (set_values s)) < 2 ^ 32 →
  ∃ w' s', set_add (VObject p) v w = Done (Ok (negb (spec_contains eqk v (set_values s)))) w' ∧
    w' = (if spec_contains eqk v (set_values s) then w else put_payload p (PSet s') w) ∧
    set_ok s' ∧ s_elem s' = s_elem s ∧ set_values s' = spec_add eqk v (set_values s).
Proof using All.
  intros Hv Hlen. unfold set_add, spec_add, spec_contains, mbind, M_bind.
  rewrite set_find_lawful by done. destruct (index_where _ _) as [i|] eqn:Ei; simpl.
  - by exists w, s.
  - eexists _, (set_append (hk v) v s). rewrite (update_set_at (λ s, Some (set_append (hk v) v s)) _ eq_refl). split; [done|].
    unfold set_values in Hlen. rewrite length_fmap in Hlen. split_and!; [done| |done|].
    + unfold set_ok, set_append. cbn [s_store]. apply (keyed_append L id v); [done..| |done].
      unfold key_place. by rewrite keys_values.
    + unfold set_values, set_append. cbn [s_store]. by rewrite append_entries, fmap_app.
Qed.

Lemma set_remove_refines v :
  K v →
  ∃ w' s', set_remove (VObject p) v w = Done (Ok (spec_contains eqk v (set_values s))) w' ∧
    w' = (if spec_contains eqk v (set_values s) then put_payload p (PSet s') w else w) ∧
    set_ok s' ∧ s_elem s' = s_elem s ∧ set_values s' = spec_drop eqk v (set_values s).
Proof using All.
  intros Hv. unfold set_remove, spec_drop, spec_contains, mbind, M_bind.
  rewrite set_find_lawful by done. destruct (index_where _ _) as [i|] eqn:Ei; simpl.
  - apply index_where_lt, lookup_lt_is_Some_2 in Ei as [e He].
    destruct (MapRefine.remove_at_spec i (s_store s) e He) as (st & Hr & Hs & Hes).
    eexists _, (mkSet st (s_elem s)). rewrite (update_set_at (set_remove_at (Z.of_nat i)) (mkSet st (s_elem s))).
    + split_and!; [done|done| |done|].
      * by eapply keyed_remove.
      * unfold set_values. cbn [s_store]. by rewrite Hes, list_fmap_delete.
    + unfold set_remove_at. by rewrite Hr.
  - by exists w, s.
Qed.

End refines.

(** * What the collections promise

    The theorems about maps, sets and lists, in the terms of their specifications; the lemmas
    are those of [MapProps], [ListProps] and the section on sets above. *)
Local Open Scope Z_scope.

Section collections.
Context `{Library} {G : Type} `{!Guest G}.

(** C8: On keys whose hash and equality behave, in a map of fewer than 2^32 entries whose
    element tag accepts the value put, the methods of Map implement an insertion-ordered
    association list: [at:] and [containsKey?:] read it and change nothing, [at:put:] replaces
    in place or appends at the end, [remove:] answers the value it takes out and keeps the order
    of the rest; each leaves a map that stands for the result, in the small tier and in the
    indexed one. *)
Theorem map_implements_association_list K I eqk hk p m w key v :
  lawful K I eqk hk → map_at (VObject p) w = Some m → map_ok K eqk hk m → I w → K key →
  check_insert (m_elem m) "Map String" v None w = Done (Ok tt) w →
  Z.of_nat (length (pairs m)) < 2 ^ 32 →
  map_at_key (VObject p) key w = Done (Ok (default VNil (spec_get eqk key (pairs m)))) w ∧
  map_containsKey (VObject p) key w =
    Done (Ok (VBool (bool_decide (is_Some (spec_get eqk key (pairs m)))))) w ∧
  (∃ m', map_at_put (VObject p) key v w = Done (Ok (VObject p)) (put_payload p (PMap m') w) ∧
         map_ok K eqk hk m' ∧ m_elem m' = m_elem m ∧ pairs m' = spec_put eqk key v (pairs m)) ∧
  (∃ m', map_remove (VObject p) key w =
           Done (Ok (default VNil (spec_get eqk key (pairs m)))) (put_payload p (PMap m') w) ∧
         map_ok K eqk hk m' ∧ m_elem m' = m_elem m ∧ pairs m' = spec_remove eqk key (pairs m)).
Proof.
  intros L Hm Hok Hw Hk Hc Hlen. split_and!.
  - by eapply map_get_refines.
  - by eapply contains_refines.
  - by eapply put_refines.
  - by eapply remove_refines.
Qed.

(** What [at:put:] stores, [at:] reads back under every equal key, and what is stored
    under the other keys stays. *)
Theorem stored_value_is_read_back K I eqk hk p m w key v key' :
  lawful K I eqk hk → map_at (VObject p) w = Some m → map_ok K eqk hk m → I w →
  K key → K key' → check_insert (m_elem m) "Map String" v None w = Done (Ok tt) w →
  Z.of_nat (length (pairs m)) < 2 ^ 32 →
  ∃ w', (_ ← map_at_put (VObject p) key v; map_at_key (VObject p) key') w =
        Done (Ok (if eqk key key' then v else default VNil (spec_get eqk key' (pairs m)))) w'.
Proof. intros L. by apply (put_get_refines L). Qed.

(** C9: The keys whose equality the runtime decides by itself (strings, bytes, symbols,
    blocks, booleans, nil, classes, doubles, integers), and where they stop behaving.  Such a
    key that is neither NaN nor an integer of 2^53 or more in absolute value hashes and
    compares without running code of the program and without changing anything, equality of
    such keys is an equivalence, integers and doubles together, and equal ones have equal
    hashes.  Among all of them equality is symmetric, every key but NaN equals itself, and
    equal keys have equal hashes unless one is an integer of 2^53 or more and the other a
    double.  There it does fail: the integers 2^53 and 2^53 + 1 differ, both equal the double
    2^53, and that double has the hash of the first. *)
Theorem scalar_keys_are_lawful (w0 : World G) :
  lawful (scalar_key w0) (keeps w0) (value_eq w0) (λ k, hash_normal (normal w0 k)) ∧
  (∀ a b, key_native_exact a w0 = true → key_native_exact b w0 = true →
    value_eq w0 a b = value_eq w0 b a ∧ (value_eq w0 a a = true ↔ a ≠ VDouble S754_nan) ∧
    (value_eq w0 a b = true → value_hash_scalar a w0 = value_hash_scalar b w0 ∨ rounding_pair a b)) ∧
  let d := i64_to_f64 (2 ^ 53) in
  value_eq w0 (VInt (2 ^ 53)) (VDouble d) = true ∧
  value_eq w0 (VDouble d) (VInt (2 ^ 53 + 1)) = true ∧
  value_eq w0 (VInt (2 ^ 53)) (VInt (2 ^ 53 + 1)) = false ∧
  value_hash_scalar (VDouble d) w0 = value_hash_scalar (VInt (2 ^ 53)) w0.
Proof.
  split_and!; [apply scalar_lawful_keys| |done..].
  intros a b Ha Hb. split_and!; [apply value_eq_sym|by apply exact_refl|by apply exact_hashes_agree].
Qed.

(** The instructions MapGet and MapSet, which look by themselves when the key is one the
    runtime compares, do what the messages at: and at:put: do, as long as every key in the
    map is such a key too. *)
Theorem map_instructions_agree p m w key v :
  map_at (VObject p) w = Some m → store_ok (m_store m) →
  Z.of_nat (length (pairs m)) ≤ 2 ^ 32 →
  Forall (λ e, key_native_exact e.1 w = true) (pairs m) →
  exec_map_get (VObject p) key (map_at_key (VObject p) key) w = map_at_key (VObject p) key w ∧
  exec_map_set (VObject p) key v (map_at_put (VObject p) key v) w =
    map_at_put (VObject p) key v w.
Proof.
  intros Hm Hs Hlen Hexact.
  split; [by apply (get_agrees p m w)|by apply (set_agrees p m w)].
Qed.

(** However the program's [hash] and [==:] answer, a method of a map panics on no key
    unless one of them does or changes the map meanwhile. *)
Theorem map_methods_do_not_panic p m w key v :
  (∀ v sel args, steady p (call_method v sel args)) →
  map_at (VObject p) w = Some m → store_ok (m_store m) →
  Z.of_nat (length (pairs m)) ≤ 2 ^ 32 →
  no_panic (map_at_key (VObject p) key w) ∧ no_panic (map_containsKey (VObject p) key w) ∧
  no_panic (map_at_put (VObject p) key v w) ∧ no_panic (map_remove (VObject p) key w).
Proof. intros Hq. by apply quiet_no_panic. Qed.

(** C10: On keys whose hash and equality behave, as for maps, and below 2^32 elements, a set is a
    list of elements none of which equals another: adding answers whether the element is new and appends it if so, removing answers whether
    it was there and keeps the order of the rest, and asking changes nothing. *)
Theorem set_implements_distinct_list K I eqk hk p s w v :
  lawful K I eqk hk → set_at_value (VObject p) w = Some s → keyed_ok K eqk hk id (s_store s) →
  I w → K v → Z.of_nat (length (set_values s)) < 2 ^ 32 →
  set_contains (VObject p) v w = Done (Ok (spec_contains eqk v (set_values s))) w ∧
  (∃ w' s', set_add (VObject p) v w = Done (Ok (negb (spec_contains eqk v (set_values s)))) w' ∧
     w' = (if spec_contains eqk v (set_values s) then w else put_payload p (PSet s') w) ∧
     keyed_ok K eqk hk id (s_store s') ∧ s_elem s' = s_elem s ∧
     set_values s' = spec_add eqk v (set_values s)) ∧
  (∃ w' s', set_remove (VObject p) v w = Done (Ok (spec_contains eqk v (set_values s))) w' ∧
     w' = (if spec_contains eqk v (set_values s) then put_payload p (PSet s') w else w) ∧
     keyed_ok K eqk hk id (s_store s') ∧ s_elem s' = s_elem s ∧
     set_values s' = spec_drop eqk v (set_values s)).
Proof.
  intros L Hset Hok Hw Hv Hlen. split_and!.
  - by eapply set_contains_refines.
  - by eapply set_add_refines.
  - by eapply set_remove_refines.
Qed.

(** C12: [sort] on a list whose elements the program compares by an order, some of them nil,
    ends with the list sorted in place, nils last: a permutation in which no element is
    greater than a later one, and in which elements that are equivalent keep their order. *)
Theorem list_sort_sorts p tag (D : Value → Prop) gt (I : World G → Prop) l w :
  (∀ a b l w, D a → D b → I w → holds p tag l w →
    ∃ w', call_method a ">:" [b] w = Done (Ok (VBool (gt a b))) w' ∧ I w' ∧ holds p tag l w') →
  (∀ l l' w, holds p tag l w → I w → I (put_payload p (PList (mkList l' tag)) w)) →
  (∀ a b, D a → D b → gt a b = true → gt b a = false) →
  (∀ a b c, D a → D b → D c → gt a b = false → gt b c = false → gt a c = false) →
  Forall (λ v, v = VNil ∨ (D v ∧ is_nil v = false)) l → I w → holds p tag l w →
  ∃ w' l', list_sort (VObject p) w = Done (Ok (VObject p)) w' ∧ holds p tag l' w' ∧ l' ≡ₚ l ∧
    StronglySorted (λ a b, nil_last gt a b = false) l' ∧
    ∀ (P : Value → Prop) (dec : ∀ a, Decision (P a)),
      (∀ a b, P a → P b → nil_last gt a b = false) → filter P l' = filter P l.
Proof.
  intros Hcall Hput Htotal Htrans Hd Hw Hl.
  destruct (list_sort_run p tag (λ v, D v ∧ is_nil v = false) gt I) with l w
    as (w' & Hrun & Hl'); [|done..|].
  { intros a b l1 w1 [Ha _] [Hb _]. by apply Hcall. }
  exists w', (sorted_list (nil_last gt) l). split_and!; [done..| | |].
  - apply sorted_list_permutation.
  - apply (sorted_list_sorted _ (λ v, v = VNil ∨ (D v ∧ is_nil v = false))); [| |done]; unfold in_order, nil_last.
    + intros a b [->|[Ha Na]] [->|[Hb Nb]]; simpl; try rewrite Na; try rewrite Nb; simpl; try done.
      by apply Htotal.
    + intros a b c [->|[Ha Na]] [->|[Hb Nb]] [->|[Hc Nc]]; simpl;
        try rewrite Na; try rewrite Nb; try rewrite Nc; simpl; try done. by apply Htrans.
  - intros P ? HP. by apply sorted_list_stable.
Qed.

(** As long as the program's comparisons leave the list alone, [sort] and [sort:] leave a
    permutation of it in place whatever is answered, also when a comparison fails midway. *)
Theorem interrupted_sort_permutes p tag l w arg :
  (∀ v sel args l w, holds p tag l w →
    match call_method v sel args w with
    | Done _ w' => holds p tag l w' | Panics => False | Diverges => True
    end) →
  holds p tag l w →
  permutes p tag l (list_sort (VObject p) w) ∧
  permutes p tag l (list_sort_block (VObject p) arg w).
Proof. intros Hq Hl. split; [by apply sort_permutes|by apply sort_block_permutes]. Qed.

(** An integer of 54 bits and the double it equals by rounding have different hashes, so
    a map that holds one does not find the other although the two are equal keys. *)
Theorem large_integer_keys_are_missed p w v :
  let big := 2 ^ 53 + 1 in
  let d := i64_to_f64 (2 ^ 53) in
  fx_i64 big ≠ fx_i64 (2 ^ 53) →
  map_at (VObject p) w = Some (map_append (hash_i64 big) (VInt big) v new_empty_map) →
  keys_equal (VInt big) (VDouble d) w = Done (Ok true) w ∧
  map_at_key (VObject p) (VInt big) w = Done (Ok v) w ∧
  map_at_key (VObject p) (VDouble d) w = Done (Ok VNil) w.
Proof.
  intros big d Hne Hm. set (m := map_append _ _ _ _) in Hm.
  assert (entries (m_store m) = [(hash_i64 big, (VInt big, v))]) as He
    by (unfold m, map_append; cbn [m_store]; by rewrite append_entries).
  assert (store_ok (m_store m)) as Hs by (apply append_ok, new_empty_ok).
  assert (pairs m = [(VInt big, v)]) as Hp by (unfold pairs, payloads; by rewrite He).
  assert (Z.of_nat (length (pairs m)) ≤ 2 ^ 32) as Hlen by (by rewrite Hp).
  assert (Forall (λ e, key_native_exact e.1 w = true) (pairs m)) as Hex
    by (rewrite Hp; by repeat constructor).
  split_and!; [done| |]; unfold map_at_key, map_get_any, mbind, M_bind.
  - rewrite (find_exact p m w Hm Hs Hlen Hex (VInt big) (hash_i64 big)) by done.
    unfold exact_candidates, candidates. rewrite He. cbn [candidates_from]. rewrite Z.eqb_refl.
    cbn [first_match fst value_eq]. rewrite Z.eqb_refl. cbn [fmap option_fmap option_map].
    unfold or_panic. rewrite Hm. unfold value_at, entry_at. by rewrite He.
  - rewrite (find_exact p m w Hm Hs Hlen Hex (VDouble d) (hash_i64 (2 ^ 53))) by done.
    unfold exact_candidates, candidates. rewrite He. cbn [candidates_from].
    by rewrite (proj2 (Z.eqb_neq _ _)) by done.
Qed.

End collections.

(** * Collections at work

    Concrete programs: one whose comparisons of integers are orders and whose other calls
    fail, for which the theorems' conditions hold, and three whose [==:] shows what happens
    where they do not. *)
Local Open Scope Z_scope.

(** A hash of integers by multiplication, one of bytes by length. *)
#[local] Instance demo_library : Library := {|
  big_decimal := unit;
  fract_is_zero := λ _, true;
  decimal_to_i64 := λ _, None;
  normalize_to_string := λ _, "";
  fx_i64 := λ i, (i * 0xf1357aea2e62a9c5) mod 2 ^ 64;
  fx_bytes := λ b, Z.of_nat (length b);
  nan_bits := 0x7ff8000000000000;
  text_ptr := id |}.

Definition demo_guest (call : Value → string → list Value → M unit Value) : Guest unit := {|
  call_method := call;
  execute_block := λ _ _, throw (Other "no block");
  value_matches_type := λ _ _ _, false;
  class_at := λ _ _, "";
  new_symbol := λ s, new_cell (mkObject "Symbol" (PSymbol 0));
  param_syms := λ _ _, [];
  display := λ _ _, "";
  debug := λ _ _, "";
  native_method := λ _ _ _, false |}.

(** Integers compare; nothing else is understood. *)
Definition greater_of (a b : Value) : bool :=
  match a, b with VInt x, VInt y => y <? x | _, _ => false end.

Definition calm_call (v : Value) (sel : string) (args : list Value) : M unit Value :=
  match args with
  | [b] => if bool_decide (sel = ">:") then mret (VBool (greater_of v b)) else throw (Other "no method")
  | _ => throw (Other "no method")
  end.

#[local] Instance calm : Guest unit := demo_guest calm_call.

Lemma calm_same v sel args w : ∃ r, call_method v sel args w = Done r w.
Proof.
  simpl. unfold calm_call. destruct args as [|b []]; [eauto| |eauto].
  destruct (bool_decide _); unfold mret, M_ret, throw; eauto.
Qed.

(** ** Maps and sets of scalars *)

Definition one_map : NativeMapState := map_append (hash_i64 1) (VInt 1) (VInt 10) new_empty_map.
Definition one_set : NativeSetState := set_append (hash_i64 1) (VInt 1) new_empty_set.

Definition cells (m : NativeMapState) : World unit :=
  mkWorld {[1%N := mkObject "Map" (PMap m); 2%N := mkObject "Set" (PSet one_set)]} tt.

Definition start : World unit := cells one_map.

Lemma one_key_ok {P} (key_of : P → Value) p :
  key_of p = VInt 1 →
  keyed_ok (scalar_key start) (value_eq start) (λ k, hash_normal (normal start k)) key_of
    (append (hash_i64 1) p new_empty).
Proof.
  intros Hp. assert (entries (append (hash_i64 1) p new_empty) = [(hash_i64 1, p)]) as He
    by (by rewrite append_entries).
  split.
  - apply append_ok, new_empty_ok.
  - intros h q Hin. rewrite He in Hin. apply list_elem_of_singleton in Hin. simplify_eq. by rewrite Hp.
  - unfold keys, payloads. rewrite He. simpl. rewrite Hp. by repeat constructor.
  - unfold keys, payloads. rewrite He. intros [|i] [|j] a b; simplify_eq/=; done.
  - by rewrite He.
Qed.

Lemma one_map_ok :
  map_ok (scalar_key start) (value_eq start) (λ k, hash_normal (normal start k)) one_map.
Proof. by apply (one_key_ok fst (VInt 1, VInt 10)). Qed.

Lemma map_implements_association_list_witness :
  ∃ m', map_at_put (VObject 1) (VInt 2) (VInt 20) start =
          Done (Ok (VObject 1)) (put_payload 1 (PMap m') start) ∧
        pairs m' = [(VInt 1, VInt 10); (VInt 2, VInt 20)].
Proof.
  destruct (map_implements_association_list _ _ _ _ 1 one_map start (VInt 2) (VInt 20)
    (scalar_lawful_keys start) eq_refl one_map_ok) as (_ & _ & (m' & Hr & _ & _ & Hp) & _);
    [done|by split|done|done|].
  exists m'. split; [done|]. by rewrite Hp.
Defined.

Lemma stored_value_is_read_back_witness :
  ∃ w', (_ ← map_at_put (VObject 1) (VInt 1) VNil; map_at_key (VObject 1) (VInt 1)) start =
        Done (Ok VNil) w'.
Proof.
  destruct (stored_value_is_read_back _ _ _ _ 1 one_map start (VInt 1) VNil (VInt 1)
    (scalar_lawful_keys start) eq_refl one_map_ok) as (w' & Hr); [done|by split..|done|done|].
  exists w'. rewrite Hr. done.
Defined.

Lemma map_instructions_agree_witness :
  exec_map_get (VObject 1) (VInt 1) (map_at_key (VObject 1) (VInt 1)) start =
  map_at_key (VObject 1) (VInt 1) start.
Proof.
  refine (proj1 (map_instructions_agree 1 one_map start (VInt 1) VNil eq_refl _ _ _)).
  - apply append_ok, new_empty_ok.
  - vm_compute. discriminate.
  - apply Forall_singleton. reflexivity.
Defined.

Lemma map_methods_do_not_panic_witness : no_panic (map_remove (VObject 1) (VObject 1) start).
Proof.
  refine (proj2 (proj2 (proj2 (map_methods_do_not_panic 1 one_map start (VObject 1) VNil _ eq_refl _ _)))).
  - intros v sel args w. by destruct (calm_same v sel args w) as [r ->].
  - apply append_ok, new_empty_ok.
  - vm_compute. discriminate.
Defined.

Lemma set_implements_distinct_list_witness :
  ∃ w' s', set_add (VObject 2) (VInt 7) start = Done (Ok true) w' ∧
           set_values s' = [VInt 1; VInt 7].
Proof.
  destruct (set_implements_distinct_list _ _ _ _ 2 one_set start (VInt 7)
    (scalar_lawful_keys start) eq_refl (one_key_ok id (VInt 1) eq_refl))
    as (_ & (w' & s' & Hr & _ & _ & _ & Hv) & _); [done|by split|done|].
  exists w', s'. split; [done|]. by rewrite Hv.
Defined.

Lemma large_integer_keys_are_missed_witness :
  let w := cells (map_append (hash_i64 (2 ^ 53 + 1)) (VInt (2 ^ 53 + 1)) (VInt 10) new_empty_map) in
  map_at_key (VObject 1) (VDouble (i64_to_f64 (2 ^ 53))) w = Done (Ok VNil) w.
Proof.
  intros w. refine (proj2 (proj2 (large_integer_keys_are_missed 1 w (VInt 10) _ eq_refl))).
  vm_compute. discriminate.
Defined.

(** ** Sorting *)

Definition three : list Value := [VInt 3; VNil; VInt 1].
Definition listed : World unit := mkWorld {[1%N := mkObject "List" (PList (mkList three None))]} tt.

Lemma list_sort_sorts_witness :
  ∃ w' l', list_sort (VObject 1) listed = Done (Ok (VObject 1)) w' ∧ holds 1 None l' w' ∧
           l' ≡ₚ three ∧ StronglySorted (λ a b, nil_last greater_of a b = false) l'.
Proof.
  destruct (list_sort_sorts 1 None (λ v, ∃ i, v = VInt i) greater_of (λ _, True) three listed)
    as (w' & l' & Hr & Hh & Hp & Hs & _).
  - intros a b l w _ _ _ Hl. by exists w.
  - done.
  - intros a b [x ->] [y ->]. simpl. rewrite Z.ltb_lt, Z.ltb_ge. lia.
  - intros a b c [x ->] [y ->] [z ->]. simpl. rewrite !Z.ltb_ge. lia.
  - apply Forall_cons. split; [right; by split; [exists 3|]|].
    apply Forall_cons. split; [by left|]. apply Forall_singleton. right. by split; [exists 1|].
  - done.
  - done.
  - by exists w', l'.
Defined.

Lemma interrupted_sort_permutes_witness :
  permutes 1 None three (list_sort_block (VObject 1) (VObject 9) listed).
Proof.
  refine (proj2 (interrupted_sort_permutes 1 None three listed (VObject 9) _ eq_refl)).
  intros v sel args l w Hl. by destruct (calm_same v sel args w) as [r ->].
Defined.

(** ** An [==:] that changes the map *)

(** Every instance hashes to 7 and its [==:] first removes the key 0 from the map. *)
Definition removing_call (v : Value) (sel : string) (args : list Value) : M unit Value :=
  if bool_decide (sel = "hash") then mret (VInt 7)
  else if bool_decide (sel = "==:") then
    _ ← map_remove (VObject 1) (VInt 0); mret (VBool true)
  else throw (Other "no method").

Definition removing : Guest unit := demo_guest removing_call.

(** The map has the key 0, an instance, and then the given pairs. *)
Definition hooked (rest : list (Z * (Value * Value))) : World unit :=
  mkWorld {[1%N := mkObject "Map" (PMap (mkMap (mkStore
              ((hash_i64 0, (VInt 0, VInt 100)) :: (7, (VObject 2, VInt 10)) :: rest) ∅) None));
            2%N := mkObject "Key" PInstance; 3%N := mkObject "Key" PInstance]} tt.

(** A lookup goes on with the position it found before the program's [==:] ran: when that
    [==:] removes another key, [at:] indexes past the end and panics, or, with one more entry
    in the map, answers the value of a different key, and [at:put:] overwrites that one. *)
Theorem reentrant_equality_breaks_lookup :
  @map_at_key _ _ removing (VObject 1) (VObject 3) (hooked []) = Panics ∧
  (let w := hooked [(hash_i64 5, (VInt 5, VInt 50))] in
   (∃ w', @map_at_key _ _ removing (VObject 1) (VObject 3) w = Done (Ok (VInt 50)) w') ∧
   ∃ w' m, @map_at_put _ _ removing (VObject 1) (VObject 3) VNil w = Done (Ok (VObject 1)) w' ∧
           map_at (VObject 1) w' = Some m ∧
           pairs m = [(VObject 2, VInt 10); (VInt 5, VNil)]).
Proof.
  split; [reflexivity|]. cbv zeta. split.
  - eexists. reflexivity.
  - eexists _, _. split_and!; reflexivity.
Qed.

(** ** An instance that equals an integer *)

(** An instance that hashes as the integer 5 and says it equals everything. *)
Definition five_call (v : Value) (sel : string) (args : list Value) : M unit Value :=
  if bool_decide (sel = "hash") then mret (VInt (hash_i64 5))
  else if bool_decide (sel = "==:") then mret (VBool true)
  else throw (Other "no method").

Definition fives : Guest unit := demo_guest five_call.

Definition five_map : World unit :=
  mkWorld {[1%N := mkObject "Map" (PMap (mkMap (mkStore
              [(hash_i64 5, (VObject 2, VInt 10))] ∅) None));
            2%N := mkObject "Key" PInstance]} tt.

(** With such a key in the map, the message at: with 5 answers its value and the
    instruction MapGet answers nil; at:put: replaces its value and MapSet adds a second entry. *)
Theorem instructions_differ_on_instance_keys :
  @map_at_key _ _ fives (VObject 1) (VInt 5) five_map = Done (Ok (VInt 10)) five_map ∧
  exec_map_get (VObject 1) (VInt 5)
    (@map_at_key _ _ fives (VObject 1) (VInt 5)) five_map = Done (Ok VNil) five_map ∧
  (∃ w m, @map_at_put _ _ fives (VObject 1) (VInt 5) VNil five_map = Done (Ok (VObject 1)) w ∧
          map_at (VObject 1) w = Some m ∧ pairs m = [(VObject 2, VNil)]) ∧
  (∃ w m, exec_map_set (VObject 1) (VInt 5) VNil
            (@map_at_put _ _ fives (VObject 1) (VInt 5) VNil) five_map =
            Done (Ok (VObject 1)) w ∧
          map_at (VObject 1) w = Some m ∧ pairs m = [(VObject 2, VInt 10); (VInt 5, VNil)]).
Proof.
  split_and!; [reflexivity|reflexivity|..];
    eexists _, _; split_and!; reflexivity.
Qed.
